(* ===== verification/_CoqProject ===== *)
-Q . S2P
Prelude.v
SourceLocation.v
Reader.v
Lexer.v
LexerLogic.v
LexerScan.v
LexerSpec.v
LexerReplay.v
LexerTheorems.v
Diagnostics.v
Ast.v
Scope.v
ScopeTheorems.v
SemaTypes.v
Sema.v
SemaExpr.v
SemaWalk.v
SemaModule.v
AstInduction.v
SemaLogic.v
SemaPasses.v
SemaModuleLogic.v
SemaTheorems.v
SemaAccept.v
SemaMoves.v
SemaLint.v
SemaChecks.v
Tokens.v
LexerStream.v
ParserBase.v
ParseTypes.v
ParseExpressions.v
ParseStatements.v
ParseDeclarations.v
ParseModule.v
Frontend.v
ParserLogic.v
ParserTotal.v
ParserDeclared.v
ParserModule.v
ParserTheorems.v
FrontendTheorems.v
ExpressionRoundtrip.v
Numbers.v
SQLGen.v
SQLTheorems.v
FormatString.v
ProjectConfig.v
Migration.v
MigrationTheorems.v
MigrationDiff.v
Json.v
JsonTheorems.v
Transport.v
AstLocator.v
LocatorTheorems.v
LocationDumper.v
Server.v
ServerTheorems.v
Sha256.v
BuildCache.v
BmodEmitter.v
EmitterTheorems.v
RuntimeMemory.v
RuntimeString.v
RuntimeStringLogic.v
RuntimeStringTheorems.v
RuntimeArray.v
RuntimeArrayTheorems.v
RuntimeBuffer.v
RuntimeBufferTheorems.v
RuntimeJson.v
RuntimeJsonLogic.v
RuntimeJsonTheorems.v
Threads.v
RuntimeThreads.v
ChannelTheorems.v
CountTheorems.v
RefCount.v
RuntimeMisc.v
