(* ===== verification/Prelude.v ===== *)
(** * The BLang compiler front end and run-time library, verified

    BLang ([src/]) is a compiler, in C++, for a small typed language with
    structs, enums, ownership, tasks, and SQL queries as expressions.  This
    development models the parts of it that carry its own logic, as executable
    Gallina functions, and proves what makes each part correct.

    ** The program and its parts

    Source text is read by a character source and scanned into tokens
    ([LexerReader.cpp], [lsp/StringLexerReader.h], [FileLexer.cpp]); the parser
    ([Q*.cpp]) turns tokens into the tree of [Expression.h] and [Type.h] and
    enters names into scopes ([class Scope], [Type.h]): first the declarations
    of a module, with recovery from errors, then the bodies it put off; the
    semantic pass ([Sema.cpp]) walks the tree of a module, resolves members,
    records types and reports errors to the diagnostic collector
    ([DiagnosticEngine.cpp]).  [lsp/Compile.cpp] puts these together for one
    document; the language server ([lsp/Server.cpp], with [lsp/Json.cpp],
    [lsp/Transport.cpp], [lsp/AstLocator.cpp]) compiles the documents a client
    has open, publishes their diagnostics and answers where a name is defined
    and what is under the cursor.  Queries become SQL ([SQLGen.cpp]), and the
    table structs of a module are compared with a stored schema
    ([SchemaMigration.cpp]).  A project is described by a [blang.toml]
    ([ProjectConfig.cpp]); what a library exports is written to an interface file
    ([BmodEmitter.cpp]), and what is built is kept under a key made with SHA-256
    ([BuildCache.cpp], [sha256.c]); formatted prints have a small language of their
    own ([FormatString.cpp]).  A compiled program calls a library in C
    ([src/runtime]) for its strings, arrays and byte buffers.

    ** Where each part is

    - [Prelude]: characters, strings and integers, the outcomes of a run
      (a value, undefined behaviour, exhausted fuel), the monad [run] with its
      loop and total-correctness rules, the state monad [st] of the passes that
      cannot fail, and relations its runs preserve; [Numbers]: decimal numerals.
    - [SourceLocation], [Reader]: positions; the interface [LexerReader] with
      its laws and its two implementations, over a string and over a file.
    - [Lexer] (the scanner), [LexerLogic], [LexerScan], [LexerSpec] (its logic
      and contract), [LexerReplay] (the token buffer), [LexerTheorems].
    - [Diagnostics]: the collector, its renderers, their properties.
    - [Ast]: the syntax tree as the passes read it; [AstInduction].
    - [Scope], [ScopeTheorems]: scopes as a heap of records.
    - [SemaTypes], [Sema], [SemaExpr], [SemaWalk], [SemaModule]: the semantic
      pass, bottom up; [SemaLogic], [SemaPasses], [SemaModuleLogic]: what every
      visit preserves and which visits a visit goes through; [SemaTheorems] (with
      the program they are tried on), [SemaAccept], [SemaMoves], [SemaLint],
      [SemaChecks]: its properties.
    - [Tokens]: the token stream a parser reads, its buffer and the split of
      [>>]; [LexerStream]: the stream of a text, scanned by [Lexer].
    - [ParserBase]: the parser monad, with the exceptions the parse functions
      throw and catch, the stream, the scopes, the types and the diagnostics;
      [ParseTypes] ([QType.cpp]), [ParseExpressions] ([QExpression.cpp]),
      [ParseStatements] (the statements and [QBlock.cpp]): one definition per
      parse function, open in the recursive calls, which [parsers_at] closes.
    - [ParserLogic], [ParserTotal], [ParserTheorems]: how far each parse
      function moves, that it ends and that it moves forward;
      [ExpressionRoundtrip]: what an operator tree's text is parsed as.
    - [ParseDeclarations] ([QFunctionDefinition.cpp], [QStructDefinition.cpp],
      [QEnumDefinition.cpp], [QProtocolDefinition.cpp], [QImplBlock.cpp],
      [QTestBlock.cpp]): one definition per declaration; [ParseModule]
      ([QModule.cpp]): the loop over declarations, error recovery, the bodies
      that were put off; [ParserDeclared], [ParserModule]: that they end, and
      where a body starts.
    - [Frontend]: the global scope, the compilation of a document, and the
      sealing of its module, the resolver ([Resolver.cpp]); [FrontendTheorems].
    - [Json], [JsonTheorems]: JSON values, their text, the parser;
      [Transport]: frames, paths and URIs; [AstLocator],
      [LocatorTheorems]: the node under the cursor, its definition and the text
      shown for it; [LocationDumper]: the dump of locations, which walks alike;
      [Server], [ServerTheorems]: the language server.
    - [Sha256] ([sha256.c]), [BuildCache]: digests, and the keys and entries of the
      build cache, over an interface of the file system; [BmodEmitter], [EmitterTheorems]: the interface
      file of a library.
    - [RuntimeMemory]: the memory of a compiled program, as blocks of bytes and the
      objects that point to them, with the C library's functions on it and the
      rules of its logic [cwp]; [RuntimeString] ([blang_string.c]), with
      [RuntimeStringLogic] and [RuntimeStringTheorems]; [RuntimeArray],
      [RuntimeArrayTheorems] ([blang_array.c]); [RuntimeBuffer],
      [RuntimeBufferTheorems] ([blang_buffer.c]): one definition per function.
    - [Threads]: programs of threads that share a state, their interleaved steps,
      mutexes and condition variables; [RuntimeThreads] ([blang_runtime.c]): one
      program per function, and runs of tasks; [ChannelTheorems], [CountTheorems].
    - [RuntimeJson] ([blang_json.c]): trees of JSON nodes on a heap, their text, the
      parser; [RuntimeJsonLogic], a separation logic for it (on Iris's ghost maps: a
      cell of the heap is owned, and the number of live cells is part of what a run is
      described by, so that nothing is lost), in which each function is shown to do what
      a function on texts and values does; [RuntimeJsonTheorems], the same without the logic.
    - [RuntimeMisc]: the hash of a string ([blang_hash.c]), random numbers
      ([blang_random.c]) and the driver of tests ([blang_testrunner.c]).
    - [RefCount] ([RefCount.h]): the counters of the compiler's own objects, and the
      smart pointers to them.
    - [SQLGen], [SQLTheorems]; [Migration], [MigrationTheorems],
      [MigrationDiff]; [FormatString]; [ProjectConfig].

    ** How the code is represented

    A mutable object is a record that operations return changed; objects that
    several others point to (scopes, variables, nodes) are named by numbers and
    what is written through such a pointer is kept in a map.  Strings are
    [string]s or lists of [ascii]; [uint32_t] wraps around, [int] overflow is
    undefined behaviour.  A [while] loop is [loop] of [Prelude], which takes
    fuel: each component says what bounds the passes (the length of the text,
    for the scanner and the readers, because every pass that goes on reads a
    character), and a theorem says that the fuel is enough.  The parse functions
    call each other through a depth, ten for each token that is left, which
    [parse_terminates] shows to be enough: between two tokens consumed no
    branch of theirs calls more than nine deep; [compileDocument] is given ten
    for each character of the text.  The server's loop is given one pass for each
    character of its input, as a frame uses one at least.  Recursion over the tree
    and over lists is structural.

    Definitions (functions, structs, enums, protocols) are changed after other
    objects point to them.  While a module is parsed they are objects in a store
    under their number, a node holds a copy, and [seal_module] replaces the copies
    by what the objects are in the end.  A parameter that is a null pointer, as one
    of an unknown type is, is a variable without a name ([is_null]).  Every
    document is compiled in a global scope of its own, where the program shares one
    that no compilation changes.

    The run-time library is C over raw memory.  A pointer is a block and an offset,
    a byte may not be initialised, and an access outside a live block is undefined
    behaviour, as is overflow of a signed integer; an allocation may fail, and then
    the library stops the program ([die]).  Records ([BlangString], [BlangArray],
    [BlangBuffer]) are objects in a store of their own.  A function that threads call
    at the same time is a program, a sequence of single accesses, locks and waits; a
    system of threads takes one such action of one thread at a time, in any order.

    ** What is shown

    The scanner is total and lossless on every text and delivers what the
    parser puts back; words, string constants and operators scan to what they
    denote.  The parser ends on every token stream, moves forward with every
    statement, and reads operators with their precedences.  A document is compiled
    whatever it holds: its declarations are parsed to the end with every error
    reported and recovered from, its bodies see all its functions, and what is
    accepted is well formed wherever the semantic pass walks.  Reports are kept once each, in order, up to the cap,
    and the verdicts follow from them.  Name lookup is lexical, and imports act name by
    name.  A module the semantic pass accepts holds no offending expression where
    the pass walks: it does not walk the expressions of query steps, the values of
    inserts, the value of a match arm that has a block too, and the parts of a [for]
    with three expressions, and what it does not see there is shown as well.  A variable
    that was moved away is not read behind the move in its block, and values are
    matched exhaustively.  The verdict is negative exactly when an error was reported.
    The parameters of a generated statement are its placeholders in order, and its
    conditions mean in SQL what the query says where SQL needs no parentheses, of which
    the generator writes none.  The statements of a schema difference, read and carried
    out as a database does, turn the stored schema into the current one, for names
    and types that the difference can tell apart ([MigrationDiff] says which).  Schema files,
    project files, format strings, escaped strings, JSON values and frames are read
    back as what was written.  The interface file of a library depends on nothing
    but what is exported, the number of private types and the origins of foreign ones, and the key of a build is the SHA-256 digest of the texts
    it is made from.  The language server ends on every input and writes
    nothing but frames that each hold a message; its exit code tells whether a shutdown
    was requested; every request gets one answer, and what it keeps for an open document is the compilation of its present text.
    The run-time library does on strings, arrays and buffers what its functions mean
    on texts and lists, without undefined behaviour and without touching anything else,
    frees what it made once, and stops on an index out of bounds before anything is touched.  Its channels are
    queues, whatever threads do with them, and miss no waking; a counted object is freed
    once, when nobody holds it.  Its JSON decoder reads any text that does not end in a backslash without
    losing memory, and reads what was written but for floating-point numbers and the
    control characters whose escapes it does not know.  Its random numbers do not repeat and are in their range, or
    the range overflows; its driver of tests answers 1 exactly if a test it runs fails.
    The compiler's smart pointers lead to objects that are there, and an object is
    deleted when none is left.
    The transcripts of the server's test suite ([test_files/lsp]) are what the
    model computes; [ServerTheorems] repeats some of them.

    ** What is not modelled

    Code generation ([CodeGen.cpp], [CG*.cpp]) is a sequence of calls to the
    LLVM builder, which is not part of the repository.  The drivers ([qcc.cpp],
    [bcc.cpp]) are process and file system calls.  Of the front end, the parser
    theorems assume that no imported module bears the name of a struct (without
    that a block's parsing may not end, [clash_runs_on]), which a single document
    meets, as it imports nothing; left out are the trace, names for code
    generation, the digest of a module and the case of a missing collector.  Of the
    run-time library, the text of floating-point numbers and the destructors of array
    elements are parameters; files, sockets, clocks and the database are calls of the
    operating system and of SQLite. *)

From Stdlib Require Export ZArith Lia.
From Stdlib Require Ascii.
From stdpp Require Export base strings gmap list fin_maps.
Export Stdlib.Strings.Ascii (ascii(..), ascii_of_N, N_of_ascii).
Export (notations) Stdlib.Strings.Ascii.

Declare Scope blang_scope.
Delimit Scope blang_scope with blang.

Create HintDb blang.
Create Rewrite HintDb blang.

(** * Characters and machine integers *)

(** [char] is a signed 8-bit integer; a token that is a single character is
    the [char] converted to [int]. *)
Definition char_to_int (c : ascii) : Z :=
  let n := Z.of_N (N_of_ascii c) in if decide (n < 128)%Z then n else (n - 256)%Z.

(** The value [istream::get()] and [peek()] yield at end of file once it is
    truncated to a [char]. *)
Definition kEof : ascii := ascii_of_N 255.

(** [uint32_t] arithmetic wraps around. *)
Definition u32 (z : Z) : Z := (z mod 2 ^ 32)%Z.

Definition char_between (lo hi c : ascii) : bool :=
  N.leb (N_of_ascii lo) (N_of_ascii c) && N.leb (N_of_ascii c) (N_of_ascii hi).

(** [isupper], [isspace] in the C locale. *)
Definition isupper (c : ascii) : bool := char_between "A" "Z" c.
Definition isspace (c : ascii) : bool :=
  bool_decide (c ∈ [" "%char; ascii_of_N 9; ascii_of_N 10; ascii_of_N 11; ascii_of_N 12; ascii_of_N 13]).

(** [isdigit], [isalnum] in the C locale. *)
Definition isdigit (c : ascii) : bool := char_between "0" "9" c.
Definition isalnum (c : ascii) : bool := isdigit c || isupper c || char_between "a" "z" c.

Definition newline : ascii := ascii_of_N 10.
Definition tab : ascii := ascii_of_N 9.
Definition dquote : ascii := ascii_of_N 34.
Definition squote : ascii := ascii_of_N 39.
Definition backslash : ascii := ascii_of_N 92.

Lemma u32_range z : (0 <= u32 z < 2 ^ 32)%Z.
Proof. apply Z.mod_pos_bound. lia. Qed.

Lemma u32_small z : (0 <= z < 2 ^ 32)%Z -> u32 z = z.
Proof. apply Z.mod_small. Qed.

Lemma u32_add_idemp a b : u32 (u32 a + b) = u32 (a + b).
Proof. apply Zplus_mod_idemp_l. Qed.

(** * Strings *)

(** [std::string::append( 1, c )]. *)
Definition append1 (s : string) (c : ascii) : string := s +:+ String c EmptyString.

Definition chars (s : string) : list ascii := String.list_ascii_of_string s.
Definition str (l : list ascii) : string := String.string_of_list_ascii l.

#[global] Arguments chars : simpl never.
#[global] Arguments str : simpl never.

Lemma str_chars s : str (chars s) = s.
Proof. apply String.string_of_list_ascii_of_string. Qed.

Lemma chars_str l : chars (str l) = l.
Proof. apply String.list_ascii_of_string_of_list_ascii. Qed.

Lemma string_app_cons x (a b : string) : String x a +:+ b = String x (a +:+ b).
Proof. done. Qed.

Lemma string_app_assoc (a b c : string) : (a +:+ b) +:+ c = a +:+ (b +:+ c).
Proof. induction a as [|x a IH]; [done|]. rewrite !string_app_cons. by rewrite IH. Qed.

Lemma string_app_nil_r (a : string) : a +:+ "" = a.
Proof. induction a as [|x a IH]; [done|]. rewrite string_app_cons. by rewrite IH. Qed.

Lemma str_app l1 l2 : str (l1 ++ l2) = str l1 +:+ str l2.
Proof.
  induction l1 as [|x l1 IH]; [done|]. unfold str in *. simpl.
  rewrite string_app_cons. by rewrite IH.
Qed.

Lemma chars_app s1 s2 : chars (s1 +:+ s2) = chars s1 ++ chars s2.
Proof.
  induction s1 as [|x s1 IH]; [done|]. rewrite string_app_cons. unfold chars in *.
  simpl. by rewrite IH.
Qed.

Lemma length_chars s : length (chars s) = String.length s.
Proof. induction s as [|c s IH]; [done|]. unfold chars in *. simpl. by rewrite IH. Qed.

Lemma append1_app s c t : append1 s c +:+ t = s +:+ String c t.
Proof. unfold append1. by rewrite string_app_assoc. Qed.

Lemma append1_str s c l : append1 s c +:+ str l = s +:+ str (c :: l).
Proof. by rewrite append1_app. Qed.

#[export] Hint Rewrite str_chars chars_str string_app_nil_r str_app chars_app
  append1_str : blang.

(** * Outcomes

    A run of the modelled code ends with a value, reaches a C++ operation with
    undefined behaviour, or exhausts the fuel that bounds its loops. *)
Inductive outcome (A : Type) :=
  | Done (a : A)
  | UndefinedBehaviour
  | OutOfFuel.
Arguments Done {A} a.
Arguments UndefinedBehaviour {A}.
Arguments OutOfFuel {A}.

(** * The state-and-outcome monad of the imperative components *)

Definition run (S A : Type) : Type := S -> outcome (A * S).

#[export] Instance run_ret S : MRet (run S) := fun A a s => Done (a, s).
#[export] Instance run_bind S : MBind (run S) := fun A B k m s =>
  match m s with
  | Done (a, s') => k a s'
  | UndefinedBehaviour => UndefinedBehaviour
  | OutOfFuel => OutOfFuel
  end.

Definition gets {S A} (f : S -> A) : run S A := fun s => Done (f s, s).
Definition modify {S} (f : S -> S) : run S unit := fun s => Done (tt, f s).
Definition undefined {S A} : run S A := fun _ => UndefinedBehaviour.

(** What one pass through a loop body decides: go round again with the loop's
    local variables [b], or leave with [a]. *)
Inductive loop_step (B A : Type) :=
  | Next (b : B)
  | Break (a : A).
Arguments Next {B A} b.
Arguments Break {B A} a.

(** [while] / [for(;;)], with fuel for the number of passes. *)
Fixpoint loop {S B A} (fuel : nat) (body : B -> run S (loop_step B A)) (b : B) : run S A :=
  match fuel with
  | 0 => fun _ => OutOfFuel
  | S n => step ← body b; match step with Next b' => loop n body b' | Break a => mret a end
  end.

(** A loop is its first pass and, where that goes on, the rest. *)
Lemma loop_S {S B A} fuel (body : B -> run S (loop_step B A)) b s :
  loop (Datatypes.S fuel) body b s =
  match body b s with
  | Done (Next b', s') => loop fuel body b' s'
  | Done (Break a, s') => Done (a, s')
  | UndefinedBehaviour => UndefinedBehaviour
  | OutOfFuel => OutOfFuel
  end.
Proof. simpl. unfold mbind, run_bind. by destruct (body b s) as [[[b'|a] s']| |]. Qed.

(** One pass of a loop whose body ends. *)
Lemma loop_next {S B A} fuel (body : B -> run S (loop_step B A)) b s b' s' :
  body b s = Done (Next b', s') -> loop (Datatypes.S fuel) body b s = loop fuel body b' s'.
Proof. intros Hb. simpl. unfold mbind, run_bind. by rewrite Hb. Qed.

Lemma loop_break {S B A} fuel (body : B -> run S (loop_step B A)) b s a s' :
  body b s = Done (Break a, s') -> loop (Datatypes.S fuel) body b s = Done (a, s').
Proof. intros Hb. simpl. unfold mbind, run_bind. by rewrite Hb. Qed.

(** Total correctness: the run ends, without undefined behaviour and within
    its fuel, in a result and a state that satisfy [Q]. *)
Definition wp {S A} (m : run S A) (Q : A -> S -> Prop) (s : S) : Prop :=
  match m s with Done (a, s') => Q a s' | _ => False end.

Section wp_rules.
Context {S : Type}.

Lemma wp_ret {A} (a : A) Q (s : S) : Q a s -> wp (mret a) Q s.
Proof. done. Qed.

Lemma wp_gets {A} (f : S -> A) Q s : Q (f s) s -> wp (gets f) Q s.
Proof. done. Qed.

Lemma wp_modify (f : S -> S) Q s : Q tt (f s) -> wp (modify f) Q s.
Proof. done. Qed.

Lemma wp_bind {A B} (m : run S A) (k : A -> run S B) Q s :
  wp m (fun a s' => wp (k a) Q s') s -> wp (m ≫= k) Q s.
Proof.
  unfold wp, mbind, run_bind. by destruct (m s) as [[a s']| |].
Qed.

Lemma wp_mono {A} (m : run S A) (Q1 Q2 : A -> S -> Prop) s :
  wp m Q1 s -> (forall a s', Q1 a s' -> Q2 a s') -> wp m Q2 s.
Proof. unfold wp. destruct (m s) as [[a s']| |]; eauto. Qed.

Lemma wp_done {A} (m : run S A) Q s :
  wp m Q s -> exists a s', m s = Done (a, s') /\ Q a s'.
Proof. unfold wp. destruct (m s) as [[a s']| |]; [eauto|done|done]. Qed.

Lemma wp_loop_unfold {B A} fuel (body : B -> run S (loop_step B A)) b Q s :
  0 < fuel ->
  wp (body b) (fun r s' => match r with
                           | Next b' => wp (loop (pred fuel) body b') Q s'
                           | Break a => Q a s'
                           end) s ->
  wp (loop fuel body b) Q s.
Proof.
  destruct fuel as [|fuel]; [lia|]. intros _ H. simpl.
  apply wp_bind. eapply wp_mono; [exact H|]. by intros [b'|a] s'.
Qed.

(** The loop rule: an invariant indexed by what is left to do, which every
    pass that continues makes smaller, and fuel for one pass more than that. *)
Lemma wp_loop {B A} (Inv : nat -> B -> S -> Prop) (Q : A -> S -> Prop) body :
  (forall n b s, Inv n b s ->
     wp (body b) (fun r s' => match r with
                              | Next b' => exists n', n' < n /\ Inv n' b' s'
                              | Break a => Q a s'
                              end) s) ->
  forall n b s fuel, Inv n b s -> n < fuel -> wp (loop fuel body b) Q s.
Proof.
  intros Hbody n. induction n as [n IH] using lt_wf_ind.
  intros b s fuel HI Hf. apply wp_loop_unfold; [lia|].
  eapply wp_mono; [by apply (Hbody n)|].
  intros [b'|a] s'; simpl; [|done].
  intros (n' & Hlt & HI'). apply (IH n'); [done..|lia].
Qed.
End wp_rules.

(** * The state monad of the passes that cannot fail *)

Definition st (S A : Type) : Type := S -> A * S.

#[export] Instance st_ret S : MRet (st S) := fun A a s => (a, s).
#[export] Instance st_bind S : MBind (st S) := fun A B k m s => let '(a, s') := m s in k a s'.

Definition st_get {S A} (f : S -> A) : st S A := fun s => (f s, s).
Definition st_modify {S} (f : S -> S) : st S unit := fun s => (tt, f s).
Definition st_skip {S} : st S unit := mret tt.

(** [if ( b ) m], without an else branch. *)
Definition st_when {S} (b : bool) (m : st S unit) : st S unit := if b then m else st_skip.

(** A loop over a list, without and with a local variable. *)
Definition st_each {S A} (f : A -> st S unit) : list A -> st S unit :=
  fix go l := match l with [] => st_skip | a :: l' => f a;; go l' end.

Definition st_fold {S A B} (f : B -> A -> st S B) : list A -> B -> st S B :=
  fix go l b := match l with [] => mret b | a :: l' => b' ← f b a; go l' b' end.

(** Every run of [m] relates its initial to its final state by [Rel]. *)
Definition keeps {S A} (Rel : S -> S -> Prop) (m : st S A) : Prop := forall s, Rel s (m s).2.

Section keeps.
Context {S : Type} (Rel : S -> S -> Prop) `{!PreOrder Rel}.

Lemma keeps_ret {A} (a : A) : keeps Rel (mret a).
Proof. intros s. simpl. reflexivity. Qed.

Lemma keeps_get {A} (f : S -> A) : keeps Rel (st_get f).
Proof. intros s. simpl. reflexivity. Qed.

Lemma keeps_modify f : (forall s, Rel s (f s)) -> keeps Rel (st_modify f).
Proof. intros Hf s. apply Hf. Qed.

Lemma keeps_bind {A B} (m : st S A) (k : A -> st S B) :
  keeps Rel m -> (forall a, keeps Rel (k a)) -> keeps Rel (m ≫= k).
Proof.
  intros Hm Hk s. unfold mbind, st_bind. specialize (Hm s).
  destruct (m s) as [a s']. simpl in *. etransitivity; [exact Hm|apply Hk].
Qed.

Lemma keeps_when b (m : st S unit) : keeps Rel m -> keeps Rel (st_when b m).
Proof. intros Hm. destruct b; [done|apply keeps_ret]. Qed.

Lemma keeps_each {A} (f : A -> st S unit) l :
  Forall (fun a => keeps Rel (f a)) l -> keeps Rel (st_each f l).
Proof. induction 1 as [|a l Ha _ IH]; simpl; [apply keeps_ret|by apply keeps_bind]. Qed.

Lemma keeps_fold {A B} (f : B -> A -> st S B) l : forall b,
  Forall (fun a => forall b, keeps Rel (f b a)) l -> keeps Rel (st_fold f l b).
Proof.
  induction l as [|a l IH]; intros b Hl; simpl; [apply keeps_ret|].
  apply Forall_cons in Hl as [Ha Hl]. apply keeps_bind; [apply Ha|]. intros b'. by apply IH.
Qed.
End keeps.
