(* ===== verification/SourceLocation.v ===== *)
(** Source positions ([src/SourceLocation.h]): a file name with the 1-based
    line and column of a token's first character. *)

From S2P Require Import Prelude.

Record SourceLocation := mkLocation {
  loc_file : string;
  loc_line : Z;
  loc_col : Z
}.

#[export] Instance SourceLocation_eq_dec : EqDecision SourceLocation.
Proof. solve_decision. Defined.

(** The default-constructed, "unset" location. *)
Definition no_location : SourceLocation := mkLocation "" 0 0.

Definition isSet (l : SourceLocation) : bool :=
  bool_decide (loc_line l <> 0%Z) && bool_decide (loc_col l <> 0%Z).

(** The position of the next unconsumed character moves over [c]: a newline
    starts the next line, any other character is one column. *)
Definition advance_line (c : ascii) (line : Z) : Z :=
  if decide (c = newline) then u32 (line + 1) else line.

Definition advance_col (c : ascii) (col : Z) : Z :=
  if decide (c = newline) then 1%Z else u32 (col + 1).
