(* ===== verification/Reader.v ===== *)
(** Character sources of the lexer: the interface [LexerReader]
    ([src/FileLexer.h]) with the laws the lexer relies on, and the in-memory
    reader of the LSP server ([src/lsp/StringLexerReader.h]), which satisfies
    them. *)

From S2P Require Import Prelude SourceLocation.

(** The virtual members of [class LexerReader].  Peeking may change the state
    of the stream, so every operation returns the next state. *)
Class LexerReader (R : Type) := {
  rd_index : nat -> R -> ascii * R;
  rd_popChar : R -> ascii * R;
  rd_popChars : nat -> R -> R;
  rd_peekChar : R -> ascii * R;
  rd_isEOF : R -> bool * R;
  rd_getFileName : R -> string;
  rd_getLine : R -> Z;
  rd_getCol : R -> Z
}.

(** Line and column after consuming a text. *)
Fixpoint line_after (t : list ascii) (line : Z) : Z :=
  match t with [] => line | c :: t' => line_after t' (advance_line c line) end.

Fixpoint col_after (t : list ascii) (col : Z) : Z :=
  match t with [] => col | c :: t' => col_after t' (advance_col c col) end.

Lemma line_after_app t1 t2 l : line_after (t1 ++ t2) l = line_after t2 (line_after t1 l).
Proof. revert l. induction t1 as [|c t1 IH]; intros l; [done|]. apply IH. Qed.

Lemma col_after_app t1 t2 k : col_after (t1 ++ t2) k = col_after t2 (col_after t1 k).
Proof. revert k. induction t1 as [|c t1 IH]; intros k; [done|]. apply IH. Qed.

(** What a reader promises while it stands before the text [t]: it is at end
    of file exactly when [t] is empty; while it is not, it can look any
    distance ahead without moving and consuming a character leaves the rest of
    [t], with line and column moved over that character. *)
Class LexerReaderLaws (R : Type) `{LexerReader R} := {
  rd_rep : R -> list ascii -> Prop;
  rd_isEOF_law r t : rd_rep r t ->
    (rd_isEOF r).1 = bool_decide (t = []) /\
    rd_rep (rd_isEOF r).2 t /\
    rd_getLine (rd_isEOF r).2 = rd_getLine r /\ rd_getCol (rd_isEOF r).2 = rd_getCol r /\
    rd_getFileName (rd_isEOF r).2 = rd_getFileName r;
  rd_peek_law r c t : rd_rep r (c :: t) ->
    (rd_peekChar r).1 = c /\
    rd_rep (rd_peekChar r).2 (c :: t) /\
    rd_getLine (rd_peekChar r).2 = rd_getLine r /\ rd_getCol (rd_peekChar r).2 = rd_getCol r /\
    rd_getFileName (rd_peekChar r).2 = rd_getFileName r;
  rd_index_law i r c t : rd_rep r (c :: t) ->
    (rd_index i r).1 = default kEof ((c :: t) !! i) /\
    rd_rep (rd_index i r).2 (c :: t) /\
    rd_getLine (rd_index i r).2 = rd_getLine r /\ rd_getCol (rd_index i r).2 = rd_getCol r /\
    rd_getFileName (rd_index i r).2 = rd_getFileName r;
  rd_pop_law r c t : rd_rep r (c :: t) ->
    (rd_popChar r).1 = c /\
    rd_rep (rd_popChar r).2 t /\
    rd_getLine (rd_popChar r).2 = advance_line c (rd_getLine r) /\
    rd_getCol (rd_popChar r).2 = advance_col c (rd_getCol r) /\
    rd_getFileName (rd_popChar r).2 = rd_getFileName r;
  rd_pops_law r t1 t2 : rd_rep r (t1 ++ t2) ->
    rd_rep (rd_popChars (length t1) r) t2 /\
    rd_getLine (rd_popChars (length t1) r) = line_after t1 (rd_getLine r) /\
    rd_getCol (rd_popChars (length t1) r) = col_after t1 (rd_getCol r) /\
    rd_getFileName (rd_popChars (length t1) r) = rd_getFileName r
}.

(** * The in-memory reader *)
Module StringReader.
Record StringLexerReader := mk {
  mText : list ascii;
  mPos : nat;
  mFileName : string;
  mLine : Z;
  mCol : Z
}.

Definition StringLexerReader_new (text : list ascii) (filename : string) : StringLexerReader :=
  mk text 0 filename 1 1.

Definition index (i : nat) (r : StringLexerReader) : ascii * StringLexerReader :=
  let at_ := mPos r + i in
  (if decide (at_ < length (mText r)) then default kEof (mText r !! at_) else kEof, r).

Definition popChar (r : StringLexerReader) : ascii * StringLexerReader :=
  if decide (length (mText r) <= mPos r) then (kEof, r)
  else
    let c := default kEof (mText r !! mPos r) in
    if decide (c = newline)
    then (c, mk (mText r) (S (mPos r)) (mFileName r) (u32 (mLine r + 1)) 1)
    else (c, mk (mText r) (S (mPos r)) (mFileName r) (mLine r) (u32 (mCol r + 1))).

Fixpoint popChars (count : nat) (r : StringLexerReader) : StringLexerReader :=
  match count with 0 => r | S n => popChars n (popChar r).2 end.

Definition peekChar (r : StringLexerReader) : ascii * StringLexerReader :=
  (if decide (mPos r < length (mText r)) then default kEof (mText r !! mPos r) else kEof, r).

Definition isEOF (r : StringLexerReader) : bool * StringLexerReader :=
  (bool_decide (length (mText r) <= mPos r), r).

#[global] Instance string_reader : LexerReader StringLexerReader := {
  rd_index := index;
  rd_popChar := popChar;
  rd_popChars := popChars;
  rd_peekChar := peekChar;
  rd_isEOF := isEOF;
  rd_getFileName := mFileName;
  rd_getLine := mLine;
  rd_getCol := mCol
}.

(** The text still to be read. *)
Definition rest (r : StringLexerReader) : list ascii := drop (mPos r) (mText r).

Lemma rest_cons r c t : rest r = c :: t ->
  mPos r < length (mText r) /\ mText r !! mPos r = Some c /\ drop (S (mPos r)) (mText r) = t.
Proof.
  unfold rest. intros Hr.
  pose proof (lookup_drop (mText r) (mPos r) 0) as Hc.
  rewrite Hr, Nat.add_0_r in Hc. symmetry in Hc. simpl in Hc.
  split; [by eapply lookup_lt_Some|]. split; [done|].
  erewrite drop_S in Hr by done. by simplify_eq.
Qed.

Lemma rest_lookup r i : rest r !! i = mText r !! (mPos r + i).
Proof. apply lookup_drop. Qed.

Lemma popChar_spec r c t : rest r = c :: t ->
  popChar r = (c, mk (mText r) (S (mPos r)) (mFileName r)
                     (advance_line c (mLine r)) (advance_col c (mCol r))).
Proof.
  intros (Hlt & Hc & _)%rest_cons. unfold popChar, advance_line, advance_col.
  rewrite Hc. simpl. rewrite decide_False by lia. by case_decide.
Qed.

Lemma popChars_spec t1 : forall r t2, rest r = t1 ++ t2 ->
  popChars (length t1) r =
    mk (mText r) (length t1 + mPos r) (mFileName r)
       (line_after t1 (mLine r)) (col_after t1 (mCol r)) /\
  rest (popChars (length t1) r) = t2.
Proof.
  induction t1 as [|c t1 IH]; intros r t2 Hr; simpl in *.
  - destruct r; split; done.
  - rewrite (popChar_spec _ _ _ Hr). simpl.
    apply rest_cons in Hr as (_ & _ & Ht).
    destruct (IH (mk (mText r) (S (mPos r)) (mFileName r)
                     (advance_line c (mLine r)) (advance_col c (mCol r))) t2 Ht)
      as [Heq Hrest].
    simpl in Heq. split; [rewrite Heq; f_equal; lia|done].
Qed.

#[global] Program Instance string_reader_laws : LexerReaderLaws StringLexerReader :=
  { rd_rep r t := rest r = t }.
Next Obligation.
  intros r t <-. simpl. repeat split; [|done..]. apply bool_decide_ext.
  unfold rest. rewrite <- length_zero_iff_nil, length_drop. lia.
Qed.
Next Obligation.
  intros r c t Hr. simpl. repeat split; [|done].
  apply rest_cons in Hr as (Hlt & Hc & _). rewrite Hc. by case_decide.
Qed.
Next Obligation.
  intros i r c t Hr. simpl. repeat split; [|done].
  rewrite <- Hr, rest_lookup. case_decide as Hd; [done|].
  by rewrite lookup_ge_None_2 by lia.
Qed.
Next Obligation.
  intros r c t Hr. simpl. rewrite (popChar_spec _ _ _ Hr). simpl.
  apply rest_cons in Hr as (_ & _ & Ht). by repeat split.
Qed.
Next Obligation.
  intros r t1 t2 Hr. simpl. destruct (popChars_spec _ _ _ Hr) as [Heq Hrest].
  split; [done|]. by rewrite Heq.
Qed.
End StringReader.

(** * The file reader

    [LexerReader] of [src/LexerReader.cpp] over an [std::ifstream].  The
    stream is the file's contents, the read position and the two error bits
    the reader can observe; its operations are those of the C++ standard
    library: a sentry that fails (and sets [failbit]) on a stream that is not
    good, [peek] and [get] that set [eofbit] at the end, [tellg] that yields
    [-1] on a failed stream, [seekg] that first clears [eofbit]. *)
Module FileReader.
Record ifstream := mkStream {
  contents : list ascii;
  gpos : nat;
  eofbit : bool;
  failbit : bool
}.

Definition good (f : ifstream) : bool := negb (eofbit f) && negb (failbit f).
Definition set_eof (b : bool) (f : ifstream) : ifstream :=
  mkStream (contents f) (gpos f) b (failbit f).
Definition set_fail (f : ifstream) : ifstream :=
  mkStream (contents f) (gpos f) (eofbit f) true.
Definition set_gpos (p : nat) (f : ifstream) : ifstream :=
  mkStream (contents f) p (eofbit f) (failbit f).

(** A file that cannot be opened leaves a stream with [failbit] set. *)
Definition open_ (file : option (list ascii)) : ifstream :=
  match file with
  | Some t => mkStream t 0 false false
  | None => mkStream [] 0 false true
  end.

(** The results of [get] and [peek] are only used truncated to [char]. *)
Definition stream_peek (f : ifstream) : ascii * ifstream :=
  if good f then
    match contents f !! gpos f with
    | Some c => (c, f)
    | None => (kEof, set_eof true f)
    end
  else (kEof, set_fail f).

Definition stream_get (f : ifstream) : ascii * ifstream :=
  if good f then
    match contents f !! gpos f with
    | Some c => (c, set_gpos (S (gpos f)) f)
    | None => (kEof, set_fail (set_eof true f))
    end
  else (kEof, set_fail f).

Definition stream_tellg (f : ifstream) : option nat * ifstream :=
  if good f then (Some (gpos f), f) else (None, set_fail f).

Definition stream_seekg (p : option nat) (f : ifstream) : ifstream :=
  let f := set_eof false f in
  if good f then match p with Some p => set_gpos p f | None => set_fail f end
  else set_fail f.

Record FileLexerReader := mkReader {
  mFile : ifstream;
  mFileName : string;
  mLine : Z;
  mCol : Z
}.

Definition LexerReader_new (filename : string) (file : option (list ascii)) : FileLexerReader :=
  mkReader (open_ file) filename 1 1.

Definition index (i : nat) (r : FileLexerReader) : ascii * FileLexerReader :=
  let '(orig_p, f1) := stream_tellg (mFile r) in
  let p := (fun q => q + i) <$> orig_p in
  let f2 := stream_seekg p f1 in
  let '(c, f3) := stream_peek f2 in
  let f4 := stream_seekg orig_p f3 in
  (c, mkReader f4 (mFileName r) (mLine r) (mCol r)).

Definition popChar (r : FileLexerReader) : ascii * FileLexerReader :=
  let '(c, f) := stream_get (mFile r) in
  if decide (c = newline)
  then (c, mkReader f (mFileName r) (u32 (mLine r + 1)) 1)
  else (c, mkReader f (mFileName r) (mLine r) (u32 (mCol r + 1))).

Fixpoint popChars (count : nat) (r : FileLexerReader) : FileLexerReader :=
  match count with 0 => r | S n => popChars n (popChar r).2 end.

Definition peekChar (r : FileLexerReader) : ascii * FileLexerReader :=
  let '(c, f) := stream_peek (mFile r) in (c, mkReader f (mFileName r) (mLine r) (mCol r)).

(** [isEOF] peeks first, "to set the EOF flag if we are at the end". *)
Definition isEOF (r : FileLexerReader) : bool * FileLexerReader :=
  let f := (stream_peek (mFile r)).2 in
  (eofbit f, mkReader f (mFileName r) (mLine r) (mCol r)).

#[global] Instance file_reader : LexerReader FileLexerReader := {
  rd_index := index;
  rd_popChar := popChar;
  rd_popChars := popChars;
  rd_peekChar := peekChar;
  rd_isEOF := isEOF;
  rd_getFileName := mFileName;
  rd_getLine := mLine;
  rd_getCol := mCol
}.

(** The stream stands before [t] and, until [t] is used up, is good.  At the
    end it may have been marked at end of file, and only then failed. *)
Definition stream_rep (f : ifstream) (t : list ascii) : Prop :=
  drop (gpos f) (contents f) = t /\
  (t <> [] -> eofbit f = false /\ failbit f = false) /\
  (failbit f = true -> eofbit f = true).

Lemma stream_rep_cons f c t : stream_rep f (c :: t) ->
  f = mkStream (contents f) (gpos f) false false /\
  (forall i, contents f !! (gpos f + i) = (c :: t) !! i) /\
  drop (S (gpos f)) (contents f) = t.
Proof.
  intros (Hd & Hg & _). destruct Hg as [He Hf]; [done|].
  assert (forall i, contents f !! (gpos f + i) = (c :: t) !! i) as Hl
    by (intros i; by rewrite <- Hd, lookup_drop).
  split; [destruct f; simpl in *; by subst|]. split; [done|].
  specialize (Hl 0). rewrite Nat.add_0_r in Hl.
  erewrite drop_S in Hd by done. by simplify_eq.
Qed.

Lemma stream_rep_look f c t : stream_rep f (c :: t) ->
  stream_tellg f = (Some (gpos f), f) /\
  stream_peek f = (c, f) /\
  (forall i, stream_seekg (Some (gpos f))
     (stream_peek (stream_seekg (Some (gpos f + i)) f)).2 = f /\
     (stream_peek (stream_seekg (Some (gpos f + i)) f)).1 = default kEof ((c :: t) !! i)).
Proof.
  intros (Hf & Hl & _)%stream_rep_cons. rewrite Hf. clear Hf.
  unfold stream_tellg, stream_peek, stream_seekg. simpl.
  pose proof (Hl 0) as H0. rewrite Nat.add_0_r in H0. rewrite H0.
  split; [done|]. split; [done|]. intros i. rewrite Hl. simpl.
  by destruct ((c :: t) !! i).
Qed.

Lemma stream_rep_pop f c t : stream_rep f (c :: t) ->
  stream_get f = (c, set_gpos (S (gpos f)) f) /\ stream_rep (set_gpos (S (gpos f)) f) t.
Proof.
  intros (Hf & Hl & Ht)%stream_rep_cons. specialize (Hl 0). rewrite Nat.add_0_r in Hl.
  rewrite Hf. unfold stream_get, stream_rep. simpl. by rewrite Hl.
Qed.

Lemma stream_popChar_spec r c t : stream_rep (mFile r) (c :: t) ->
  popChar r = (c, mkReader (set_gpos (S (gpos (mFile r))) (mFile r)) (mFileName r)
                     (advance_line c (mLine r)) (advance_col c (mCol r))).
Proof.
  intros (Hget & _)%stream_rep_pop. unfold popChar. rewrite Hget.
  unfold advance_line, advance_col. by case_decide.
Qed.

Lemma stream_popChars_spec t1 : forall r t2, stream_rep (mFile r) (t1 ++ t2) ->
  stream_rep (mFile (popChars (length t1) r)) t2 /\
  mLine (popChars (length t1) r) = line_after t1 (mLine r) /\
  mCol (popChars (length t1) r) = col_after t1 (mCol r) /\
  mFileName (popChars (length t1) r) = mFileName r.
Proof.
  induction t1 as [|c t1 IH]; intros r t2 Hr; [done|]. simpl.
  rewrite (stream_popChar_spec _ _ _ Hr). simpl. apply stream_rep_pop in Hr as [_ Hr].
  exact (IH (mkReader (set_gpos (S (gpos (mFile r))) (mFile r)) (mFileName r)
               (advance_line c (mLine r)) (advance_col c (mCol r))) t2 Hr).
Qed.

Lemma isEOF_spec r t : stream_rep (mFile r) t ->
  (isEOF r).1 = bool_decide (t = []) /\ stream_rep (mFile (isEOF r).2) t.
Proof.
  destruct t as [|c t].
  - destruct r as [[txt p e f] n l k]. unfold stream_rep, isEOF, stream_peek, good.
    simpl. intros (Hd & _ & Hf).
    pose proof (lookup_drop txt p 0) as Hn. rewrite Hd, Nat.add_0_r in Hn.
    simpl in Hn. rewrite <- Hn.
    destruct e, f; simpl in *; try done. by discriminate Hf.
  - intros Hr. pose proof (stream_rep_look _ _ _ Hr) as (_ & Hp & _).
    apply stream_rep_cons in Hr as Hf. destruct Hf as [Hf _].
    unfold isEOF. rewrite Hp. simpl. by rewrite Hf at 1.
Qed.

#[global] Program Instance file_reader_laws : LexerReaderLaws FileLexerReader :=
  { rd_rep r t := stream_rep (mFile r) t }.
Next Obligation. intros r t (H1 & H2)%isEOF_spec. done. Qed.
Next Obligation.
  intros r c t Hr. pose proof (stream_rep_look _ _ _ Hr) as (_ & Hp & _).
  simpl. unfold peekChar. by rewrite Hp.
Qed.
Next Obligation.
  intros i r c t Hr. pose proof (stream_rep_look _ _ _ Hr) as (Ht & _ & Hi).
  destruct (Hi i) as [Hs Hc]. simpl. unfold index. rewrite Ht. simpl.
  destruct (stream_peek (stream_seekg (Some (gpos (mFile r) + i)) (mFile r))) as [c' f'].
  simpl in *. subst c'. by rewrite Hs.
Qed.
Next Obligation.
  intros r c t Hr. simpl. rewrite (stream_popChar_spec _ _ _ Hr). simpl.
  apply stream_rep_pop in Hr as [_ Hr]. done.
Qed.
Next Obligation. intros r t1 t2 Hr. by apply stream_popChars_spec. Qed.

Lemma LexerReader_new_rep filename t :
  rd_rep (LexerReader_new filename (Some t)) t.
Proof. done. Qed.
End FileReader.
