(* ===== verification/Lexer.v ===== *)
(** The scanner ([src/FileLexer.cpp], [src/FileLexer.h]): character classes,
    keywords, identifiers, constants, comments, operators, and the scan of one
    token from a character source. *)

From S2P Require Import Prelude SourceLocation Reader.

(** [enum LexerSymbols]. *)
Inductive LexerSymbol :=
  | BUILTIN_TYPE | BOOL | TYPE_MODIFIER | KEYWORD_ELSE | KEYWORD_FOR | KEYWORD_IF
  | KEYWORD_WHILE | KEYWORD_RETURN | KEYWORD_FN | KEYWORD_STRUCT | KEYWORD_IMPL
  | KEYWORD_SELF | KEYWORD_PROTOCOL | KEYWORD_MATCH | KEYWORD_IMPORT | KEYWORD_PUB
  | KEYWORD_BREAK | KEYWORD_CONTINUE | KEYWORD_ENUM | KEYWORD_IN | VOID | SYMBOL
  | CONSTANT_STRING | CONSTANT_CHAR | CONSTANT_NUMBER | CONSTANT_FLOAT | CONSTANT_BOOL
  | LOR | LAND | EQ | ASSIGN | SHIFT | ELLIPSIS | RANGE | ARROW | WILDCARD | QUESTION_MARK
  | KEYWORD_OWN | KEYWORD_SHARED | KEYWORD_SYNC | KEYWORD_SPAWN | KEYWORD_CHAN
  | KEYWORD_ASYNC | KEYWORD_AWAIT | KEYWORD_ON | KEYWORD_REQUIRES | KEYWORD_ENSURES
  | KEYWORD_TEST | KEYWORD_ASSERT | PIPE_ARROW | AT_SIGN | KEYWORD_TABLE | KEYWORD_QUERY
  | KEYWORD_INSERT | KEYWORD_UPDATE | KEYWORD_DELETE | KEYWORD_WAIT | KEYWORD_WAIT_ALL
  | KEYWORD_CSTRING | KEYWORD_CARRAY | KEYWORD_STATIC | KEYWORD_INIT.

#[export] Instance LexerSymbol_eq_dec : EqDecision LexerSymbol.
Proof. solve_decision. Defined.

(** The value of each enumerator: consecutive from 0, and again from
    [KEYWORD_OWN = 256]. *)
Definition code (y : LexerSymbol) : Z :=
  match y with
  | BUILTIN_TYPE => 0 | BOOL => 1 | TYPE_MODIFIER => 2 | KEYWORD_ELSE => 3
  | KEYWORD_FOR => 4 | KEYWORD_IF => 5 | KEYWORD_WHILE => 6 | KEYWORD_RETURN => 7
  | KEYWORD_FN => 8 | KEYWORD_STRUCT => 9 | KEYWORD_IMPL => 10 | KEYWORD_SELF => 11
  | KEYWORD_PROTOCOL => 12 | KEYWORD_MATCH => 13 | KEYWORD_IMPORT => 14 | KEYWORD_PUB => 15
  | KEYWORD_BREAK => 16 | KEYWORD_CONTINUE => 17 | KEYWORD_ENUM => 18 | KEYWORD_IN => 19
  | VOID => 20 | SYMBOL => 21 | CONSTANT_STRING => 22 | CONSTANT_CHAR => 23
  | CONSTANT_NUMBER => 24 | CONSTANT_FLOAT => 25 | CONSTANT_BOOL => 26 | LOR => 27
  | LAND => 28 | EQ => 29 | ASSIGN => 30 | SHIFT => 31 | ELLIPSIS => 32 | RANGE => 33
  | ARROW => 34 | WILDCARD => 35 | QUESTION_MARK => 36
  | KEYWORD_OWN => 256 | KEYWORD_SHARED => 257 | KEYWORD_SYNC => 258 | KEYWORD_SPAWN => 259
  | KEYWORD_CHAN => 260 | KEYWORD_ASYNC => 261 | KEYWORD_AWAIT => 262 | KEYWORD_ON => 263
  | KEYWORD_REQUIRES => 264 | KEYWORD_ENSURES => 265 | KEYWORD_TEST => 266
  | KEYWORD_ASSERT => 267 | PIPE_ARROW => 268 | AT_SIGN => 269 | KEYWORD_TABLE => 270
  | KEYWORD_QUERY => 271 | KEYWORD_INSERT => 272 | KEYWORD_UPDATE => 273
  | KEYWORD_DELETE => 274 | KEYWORD_WAIT => 275 | KEYWORD_WAIT_ALL => 276
  | KEYWORD_CSTRING => 277 | KEYWORD_CARRAY => 278 | KEYWORD_STATIC => 279
  | KEYWORD_INIT => 280
  end.

(** [struct SymbolInfo]: one scanned token, with the position of its first
    character frozen at scan time. *)
Record SymbolInfo := mkSymbolInfo {
  symbol : Z;
  symbolText : string;
  info_line : Z;
  info_col : Z
}.

#[export] Instance SymbolInfo_eq_dec : EqDecision SymbolInfo.
Proof. solve_decision. Defined.

(** The state of [class Lexer].  [mTraceEnabled] only gates output to stderr. *)
Record Lexer (R : Type) := mkLexer {
  mReader : R;
  mMatchString : string;
  mLastSym : Z;
  lineno : Z;
  charPos : Z;
  mTraceEnabled : bool;
  mScanLine : Z;
  mScanCol : Z;
  mSymbolList : list SymbolInfo;
  mCurrentPos : Z
}.
Arguments mkLexer {R}.
Arguments mReader {R}. Arguments mMatchString {R}. Arguments mLastSym {R}.
Arguments lineno {R}. Arguments charPos {R}. Arguments mTraceEnabled {R}.
Arguments mScanLine {R}. Arguments mScanCol {R}. Arguments mSymbolList {R}.
Arguments mCurrentPos {R}.

(** The constructor. *)
Definition Lexer_new {R} (reader : R) : Lexer R :=
  mkLexer reader "" (-1) 1 0 false 1 1 [] 0.

Section setters.
Context {R : Type}.
Definition set_reader (r : R) (s : Lexer R) : Lexer R :=
  mkLexer r (mMatchString s) (mLastSym s) (lineno s) (charPos s) (mTraceEnabled s)
    (mScanLine s) (mScanCol s) (mSymbolList s) (mCurrentPos s).
Definition set_match (m : string) (s : Lexer R) : Lexer R :=
  mkLexer (mReader s) m (mLastSym s) (lineno s) (charPos s) (mTraceEnabled s)
    (mScanLine s) (mScanCol s) (mSymbolList s) (mCurrentPos s).
Definition set_last (y : Z) (s : Lexer R) : Lexer R :=
  mkLexer (mReader s) (mMatchString s) y (lineno s) (charPos s) (mTraceEnabled s)
    (mScanLine s) (mScanCol s) (mSymbolList s) (mCurrentPos s).
Definition bump_lineno (s : Lexer R) : Lexer R :=
  mkLexer (mReader s) (mMatchString s) (mLastSym s) (u32 (lineno s + 1)) (charPos s)
    (mTraceEnabled s) (mScanLine s) (mScanCol s) (mSymbolList s) (mCurrentPos s).
Definition set_scan (l k : Z) (s : Lexer R) : Lexer R :=
  mkLexer (mReader s) (mMatchString s) (mLastSym s) (lineno s) (charPos s) (mTraceEnabled s)
    l k (mSymbolList s) (mCurrentPos s).
Definition set_symbols (l : list SymbolInfo) (s : Lexer R) : Lexer R :=
  mkLexer (mReader s) (mMatchString s) (mLastSym s) (lineno s) (charPos s) (mTraceEnabled s)
    (mScanLine s) (mScanCol s) l (mCurrentPos s).
Definition set_pos (p : Z) (s : Lexer R) : Lexer R :=
  mkLexer (mReader s) (mMatchString s) (mLastSym s) (lineno s) (charPos s) (mTraceEnabled s)
    (mScanLine s) (mScanCol s) (mSymbolList s) p.
End setters.

(** * Character classes *)

Definition isAlpha (c : ascii) : bool :=
  char_between "a" "z" c || char_between "A" "Z" c || bool_decide (c = "_"%char).

Definition isAlphaNum (c : ascii) : bool :=
  char_between "a" "z" c || char_between "A" "Z" c || char_between "0" "9" c ||
  bool_decide (c = "_"%char).

Definition isDigit (c : ascii) : bool := char_between "0" "9" c.

Definition isHexDigit (c : ascii) : bool :=
  char_between "0" "9" c || char_between "a" "f" c || char_between "A" "F" c.

(** What the character after a backslash in a string constant stands for; no
    entry is an unrecognized escape. *)
Definition escape_char (c : ascii) : option ascii :=
  match c with
  | "a"%char => Some (ascii_of_N 7)
  | "b"%char => Some (ascii_of_N 8)
  | "t"%char => Some (ascii_of_N 9)
  | "n"%char => Some (ascii_of_N 10)
  | "v"%char => Some (ascii_of_N 11)
  | "f"%char => Some (ascii_of_N 12)
  | "r"%char => Some (ascii_of_N 13)
  | "\"%char => Some backslash
  | "034"%char => Some dquote
  | "'"%char => Some squote
  | "0"%char => Some (ascii_of_N 0)
  | _ => None
  end.

(** The keywords tried, in order, on a token that starts with [c]. *)
Definition keyword_cases (c : ascii) : list (string * LexerSymbol) :=
  match c with
  | "a"%char => [("assert", KEYWORD_ASSERT); ("async", KEYWORD_ASYNC); ("await", KEYWORD_AWAIT)]
  | "b"%char => [("byte", BUILTIN_TYPE); ("bool", BOOL); ("break", KEYWORD_BREAK)]
  | "c"%char => [("continue", KEYWORD_CONTINUE); ("cstring", KEYWORD_CSTRING);
                 ("carray", KEYWORD_CARRAY); ("char", BUILTIN_TYPE);
                 ("const", TYPE_MODIFIER); ("chan", KEYWORD_CHAN)]
  | "d"%char => [("double", BUILTIN_TYPE); ("delete", KEYWORD_DELETE)]
  | "e"%char => [("extern", TYPE_MODIFIER); ("ensures", KEYWORD_ENSURES);
                 ("enum", KEYWORD_ENUM); ("else", KEYWORD_ELSE)]
  | "f"%char => [("float", BUILTIN_TYPE); ("false", CONSTANT_BOOL); ("for", KEYWORD_FOR);
                 ("fn", KEYWORD_FN)]
  | "i"%char => [("import", KEYWORD_IMPORT); ("insert", KEYWORD_INSERT); ("init", KEYWORD_INIT);
                 ("int", BUILTIN_TYPE); ("if", KEYWORD_IF); ("impl", KEYWORD_IMPL);
                 ("in", KEYWORD_IN)]
  | "l"%char => [("long", BUILTIN_TYPE)]
  | "m"%char => [("match", KEYWORD_MATCH)]
  | "o"%char => [("own", KEYWORD_OWN); ("on", KEYWORD_ON)]
  | "p"%char => [("pub", KEYWORD_PUB); ("protocol", KEYWORD_PROTOCOL)]
  | "r"%char => [("return", KEYWORD_RETURN); ("requires", KEYWORD_REQUIRES)]
  | "s"%char => [("string", BUILTIN_TYPE); ("struct", KEYWORD_STRUCT);
                 ("static", KEYWORD_STATIC); ("signed", TYPE_MODIFIER);
                 ("shared", KEYWORD_SHARED); ("spawn", KEYWORD_SPAWN);
                 ("short", BUILTIN_TYPE); ("sync", KEYWORD_SYNC); ("self", KEYWORD_SELF)]
  | "q"%char => [("query", KEYWORD_QUERY)]
  | "t"%char => [("test", KEYWORD_TEST); ("true", CONSTANT_BOOL); ("table", KEYWORD_TABLE)]
  | "u"%char => [("unsigned", TYPE_MODIFIER); ("update", KEYWORD_UPDATE)]
  | "v"%char => [("void", VOID); ("var", TYPE_MODIFIER)]
  | "w"%char => [("while", KEYWORD_WHILE); ("wait_all", KEYWORD_WAIT_ALL); ("wait", KEYWORD_WAIT)]
  | _ => []
  end.

(** * Scanning *)
Section scanner.
Context {R : Type} `{LexerReader R}.

Definition lex (A : Type) : Type := run (Lexer R) A.

Definition on_reader {A} (f : R -> A * R) : lex A :=
  fun s => let '(a, r) := f (mReader s) in Done (a, set_reader r s).

Definition index (i : nat) : lex ascii := on_reader (rd_index i).
Definition popChar : lex ascii := on_reader rd_popChar.
Definition popChars (n : nat) : lex unit := on_reader (fun r => (tt, rd_popChars n r)).
Definition peekChar : lex ascii := on_reader rd_peekChar.
Definition reader_isEOF : lex bool := on_reader rd_isEOF.
Definition append_match (c : ascii) : lex unit :=
  modify (fun s => set_match (append1 (mMatchString s) c) s).

(** The comparison loop [match] and [matchKeyword] share. *)
Fixpoint match_chars (i : nat) (l : list ascii) : lex bool :=
  match l with
  | [] => mret true
  | m :: l' => c ← index i; if decide (c = m) then match_chars (S i) l' else mret false
  end.

Definition match_ (match_str : string) : lex bool :=
  b ← match_chars 0 (chars match_str);
  if b : bool then
    modify (set_match match_str);; popChars (String.length match_str);; mret true
  else mret false.

Definition matchKeyword (match_str : string) : lex bool :=
  b ← match_chars 0 (chars match_str);
  if b : bool then
    endChar ← index (String.length match_str);
    if isAlphaNum endChar then mret false
    else modify (set_match match_str);; popChars (String.length match_str);; mret true
  else mret false.

Definition readSymbol (fuel : nat) : lex unit :=
  c ← popChar; append_match c;;
  loop fuel (fun _ =>
    eof ← reader_isEOF;
    if eof : bool then mret (Break tt)
    else
      c ← peekChar;
      if isAlphaNum c then c ← popChar; append_match c;; mret (Next tt)
      else mret (Break tt)) tt.

Definition readStringConst (fuel : nat) : lex unit :=
  _ ← popChar;
  loop fuel (fun _ =>
    eof ← reader_isEOF;
    if eof : bool then mret (Break tt)
    else
      c ← peekChar;
      if decide (c = backslash) then
        e ← index 1;
        match escape_char e with
        | Some x => append_match x;; popChars 2;; mret (Next tt)
        | None => c ← popChar; append_match c;; mret (Next tt)
        end
      else
        c ← peekChar;
        if decide (c <> dquote) then c ← popChar; append_match c;; mret (Next tt)
        else _ ← popChar; mret (Break tt)) tt.

Definition readCharacterConst (fuel : nat) : lex unit :=
  _ ← popChar;
  loop fuel (fun _ =>
    eof ← reader_isEOF;
    if eof : bool then mret (Break tt)
    else
      c ← peekChar;
      if decide (c <> squote) then c ← popChar; append_match c;; mret (Next tt)
      else _ ← popChar; mret (Break tt)) tt.

(** One pass of the loop of [readConst]; its locals are [oct] and [isFloat],
    its result is [isFloat].  Leaving the loop is [valid_char = false]. *)
Definition readConst_pass (hex : bool) (locals : bool * bool) : lex (loop_step (bool * bool) bool) :=
  let '(oct, isFloat) := locals in
  eof ← reader_isEOF;
  if eof : bool then mret (Break isFloat)
  else
    c ← peekChar;
    if hex && isHexDigit c then
      c ← popChar; append_match c;; mret (Next (oct, isFloat))
    else if bool_decide (c = "."%char) && negb hex && negb isFloat then
      nextC ← index 1;
      if isDigit nextC
      then c ← popChar; append_match c;; mret (Next (false, true))
      else mret (Break isFloat)
    else if oct && char_between "0" "7" c then
      c ← popChar; append_match c;; mret (Next (oct, isFloat))
    else if isDigit c then
      c ← popChar; append_match c;; mret (Next (oct, isFloat))
    else mret (Break isFloat).

Definition readConst (fuel : nat) : lex bool :=
  c ← peekChar;
  if decide (c = "0"%char) then
    c1 ← index 1;
    if bool_decide (c1 = "x"%char) || bool_decide (c1 = "X"%char)
    then popChars 2;; modify (set_match "0x");; loop fuel (readConst_pass true) (false, false)
    else popChars 1;; modify (set_match "0");; loop fuel (readConst_pass false) (true, false)
  else loop fuel (readConst_pass false) (false, false).

Definition handleComment (fuel : nat) (singleLine : bool) : lex unit :=
  loop fuel (fun _ =>
    eof ← reader_isEOF;
    if eof : bool then mret (Break tt)
    else
      closed ← (if negb singleLine then match_ "*/" else mret false);
      if closed : bool then modify (set_match "");; mret (Break tt)
      else
        c ← peekChar;
        if decide (c = newline) then
          modify bump_lineno;; _ ← popChar;
          if singleLine then modify (set_match "");; mret (Break tt) else mret (Next tt)
        else _ ← popChar; mret (Next tt)) tt.

(** The chain of [else if ( matchKeyword( ... ) ) return ...]. *)
Fixpoint try_keywords (l : list (string * LexerSymbol)) : lex (option LexerSymbol) :=
  match l with
  | [] => mret None
  | (kw, y) :: l' =>
      b ← matchKeyword kw; if b : bool then mret (Some y) else try_keywords l'
  end.

(** [return mReader->popChar()]: the character itself is the symbol. *)
Definition return_popChar : lex (loop_step unit Z) :=
  c ← popChar; mret (Break (char_to_int c)).

(** [if ( match( m ) ) return y; else ...]. *)
Definition or_match (m : string) (y : LexerSymbol) (k : lex (loop_step unit Z)) :
  lex (loop_step unit Z) :=
  b ← match_ m; if b : bool then mret (Break (code y)) else k.

(** The shared tail of the cases [+ * % ^] (and [/] and [-], which fall
    through to it). *)
Definition scan_arith : lex (loop_step unit Z) :=
  c1 ← index 1;
  if decide (c1 = "="%char) then
    c ← popChar; append_match c;; c ← popChar; append_match c;; mret (Break (code ASSIGN))
  else return_popChar.

Definition scan_minus : lex (loop_step unit Z) := or_match "->" ARROW scan_arith.

(** The second [switch]: operators, white space and comments. *)
Definition scan_operator (fuel : nat) : lex (loop_step unit Z) :=
  c ← peekChar;
  match c with
  | "|"%char => or_match "||" LOR (or_match "|>" PIPE_ARROW return_popChar)
  | "&"%char => or_match "&&" LAND return_popChar
  | "="%char => or_match "==" EQ return_popChar
  | "!"%char => or_match "!=" EQ return_popChar
  | "<"%char => or_match "<<" SHIFT (or_match "<=" ASSIGN return_popChar)
  | ">"%char => or_match ">>" SHIFT (or_match ">=" ASSIGN return_popChar)
  | " "%char | "009"%char => _ ← popChar; mret (Next tt)
  | "010"%char => modify bump_lineno;; _ ← popChar; mret (Next tt)
  | "/"%char =>
      b ← match_ "//";
      if b : bool then handleComment fuel true;; mret (Next tt)
      else
        b ← match_ "/*";
        if b : bool then handleComment fuel false;; mret (Next tt)
        else scan_minus
  | "-"%char => scan_minus
  | "+"%char | "*"%char | "%"%char | "^"%char => scan_arith
  | "."%char => or_match "..." ELLIPSIS (or_match ".." RANGE return_popChar)
  | "?"%char => _ ← popChar; mret (Break (code QUESTION_MARK))
  | "@"%char => _ ← popChar; mret (Break (code AT_SIGN))
  | _ => return_popChar
  end.

(** One pass of the [while ( !mReader->isEOF() )] loop of
    [getSymbolFromFile] on a stream that is not at its end. *)
Definition scan_token (fuel : nat) : lex (loop_step unit Z) :=
  c ← peekChar;
  kw ← try_keywords (keyword_cases c);
  match kw with
  | Some y => mret (Break (code y))
  | None =>
      c ← peekChar;
      if isAlpha c then
        readSymbol fuel;;
        m ← gets mMatchString;
        mret (Break (code (if decide (m = "_") then WILDCARD else SYMBOL)))
      else
        c ← peekChar;
        if decide (c = dquote) then
          readStringConst fuel;; mret (Break (code CONSTANT_STRING))
        else
          c ← peekChar;
          if decide (c = squote) then
            readCharacterConst fuel;; mret (Break (code CONSTANT_CHAR))
          else
            c ← peekChar;
            if isDigit c then
              isFloat ← readConst fuel;
              mret (Break (code (if isFloat : bool then CONSTANT_FLOAT else CONSTANT_NUMBER)))
            else scan_operator fuel
  end.

Definition snapshot : lex unit :=
  modify (fun s => set_scan (rd_getLine (mReader s)) (rd_getCol (mReader s)) s).

Definition getSymbolFromFile (fuel : nat) : lex Z :=
  modify (set_match "");; modify (set_last (-1));;
  snapshot;;
  loop fuel (fun _ =>
    eof ← reader_isEOF;
    if eof : bool then mret (Break (-1)%Z)
    else snapshot;; scan_token fuel) tt.
End scanner.
