(* ===== verification/LexerLogic.v ===== *)
(** The program logic of the scanner: what each primitive of [Lexer.v] does to
    the text still to be read, for any lawful reader, and the automation that
    steps a [wp] goal through the code. *)

From S2P Require Import Prelude SourceLocation Reader Lexer.

Section logic.
Context {R : Type} `{LexerReaderLaws R}.
Implicit Types (s : Lexer R) (t ate rest : list ascii) (m : string).

(** From [s] to [s'] the scanner consumed [ate], now stands before [rest]
    with [mMatchString = m], and left its replay state alone. *)
Record moved (s : Lexer R) (ate rest : list ascii) (m : string) (s' : Lexer R) : Prop := {
  mv_rep : rd_rep (mReader s') rest;
  mv_line : rd_getLine (mReader s') = line_after ate (rd_getLine (mReader s));
  mv_col : rd_getCol (mReader s') = col_after ate (rd_getCol (mReader s));
  mv_file : rd_getFileName (mReader s') = rd_getFileName (mReader s);
  mv_match : mMatchString s' = m;
  mv_last : mLastSym s' = mLastSym s;
  mv_scan : (mScanLine s', mScanCol s') = (mScanLine s, mScanCol s);
  mv_symbols : mSymbolList s' = mSymbolList s;
  mv_pos : mCurrentPos s' = mCurrentPos s
}.

Lemma moved_refl s t : rd_rep (mReader s) t -> moved s [] t (mMatchString s) s.
Proof. by constructor. Qed.

Lemma moved_trans s a1 r1 m1 s1 a2 r2 m2 s2 :
  moved s a1 r1 m1 s1 -> moved s1 a2 r2 m2 s2 -> moved s (a1 ++ a2) r2 m2 s2.
Proof.
  intros [] []. constructor; try congruence.
  - rewrite line_after_app. congruence.
  - rewrite col_after_app. congruence.
Qed.

Lemma moved_set_match s ate rest m m' s' :
  moved s ate rest m s' -> moved s ate rest m' (set_match m' s').
Proof. intros []. by constructor. Qed.

Lemma moved_bump s ate rest m s' :
  moved s ate rest m s' -> moved s ate rest m (bump_lineno s').
Proof. intros []. by constructor. Qed.

Lemma moved_nil_l s a r1 m1 s1 a2 r2 m2 s2 :
  moved s [] r1 m1 s1 -> moved s1 a2 r2 m2 s2 -> a = a2 -> moved s a r2 m2 s2.
Proof. intros H1 H2 ->. exact (moved_trans _ _ _ _ _ _ _ _ _ H1 H2). Qed.

(** ** The primitives *)

Lemma wp_isEOF s ate t m s0 Q :
  moved s0 ate t m s ->
  (forall s', moved s0 ate t m s' -> Q (bool_decide (t = [])) s') ->
  wp reader_isEOF Q s.
Proof.
  intros [] HQ. destruct (rd_isEOF_law _ _ mv_rep0) as (Hb & Hr & Hl & Hk & Hf).
  unfold wp, reader_isEOF, on_reader. destruct (rd_isEOF (mReader s)) as [b r].
  simpl in *. subst b. apply HQ. constructor; simpl; congruence.
Qed.

Lemma wp_peekChar s ate c t m s0 Q :
  moved s0 ate (c :: t) m s ->
  (forall s', moved s0 ate (c :: t) m s' -> Q c s') ->
  wp peekChar Q s.
Proof.
  intros [] HQ. destruct (rd_peek_law _ _ _ mv_rep0) as (Hb & Hr & Hl & Hk & Hf).
  unfold wp, peekChar, on_reader. destruct (rd_peekChar (mReader s)) as [b r].
  simpl in *. subst b. apply HQ. constructor; simpl; congruence.
Qed.

Lemma wp_index i s ate c t m s0 Q :
  moved s0 ate (c :: t) m s ->
  (forall s', moved s0 ate (c :: t) m s' -> Q (default kEof ((c :: t) !! i)) s') ->
  wp (index i) Q s.
Proof.
  intros [] HQ. destruct (rd_index_law i _ _ _ mv_rep0) as (Hb & Hr & Hl & Hk & Hf).
  unfold wp, index, on_reader. destruct (rd_index i (mReader s)) as [b r].
  simpl in *. subst b. apply HQ. constructor; simpl; congruence.
Qed.

Lemma wp_popChar s ate c t m s0 Q :
  moved s0 ate (c :: t) m s ->
  (forall s', moved s0 (ate ++ [c]) t m s' -> Q c s') ->
  wp popChar Q s.
Proof.
  intros Hm HQ. destruct (rd_pop_law _ _ _ (mv_rep _ _ _ _ _ Hm)) as (Hb & Hr & Hl & Hk & Hf).
  unfold wp, popChar, on_reader. destruct (rd_popChar (mReader s)) as [b r].
  simpl in *. subst b. apply HQ. eapply moved_trans; [exact Hm|].
  destruct Hm. constructor; simpl; congruence.
Qed.

Lemma wp_popChars n s ate t1 t2 m s0 Q :
  length t1 = n ->
  moved s0 ate (t1 ++ t2) m s ->
  (forall s', moved s0 (ate ++ t1) t2 m s' -> Q tt s') ->
  wp (popChars n) Q s.
Proof.
  intros <- Hm HQ. destruct (rd_pops_law _ _ _ (mv_rep _ _ _ _ _ Hm)) as (Hr & Hl & Hk & Hf).
  unfold wp, popChars, on_reader. simpl. apply HQ. eapply moved_trans; [exact Hm|].
  destruct Hm. constructor; simpl; congruence.
Qed.

Lemma wp_append_match c s ate t m s0 Q :
  moved s0 ate t m s ->
  (forall s', moved s0 ate t (append1 m c) s' -> Q tt s') ->
  wp (append_match c) Q s.
Proof.
  intros Hm HQ. apply wp_modify, HQ. rewrite (mv_match _ _ _ _ _ Hm).
  by eapply moved_set_match.
Qed.

Lemma wp_set_match m' s ate t m s0 Q :
  moved s0 ate t m s ->
  (forall s', moved s0 ate t m' s' -> Q tt s') ->
  wp (modify (set_match m')) Q s.
Proof. intros Hm HQ. apply wp_modify, HQ. by eapply moved_set_match. Qed.

Lemma wp_bump_lineno s ate t m s0 Q :
  moved s0 ate t m s ->
  (forall s', moved s0 ate t m s' -> Q tt s') ->
  wp (modify bump_lineno) Q s.
Proof. intros Hm HQ. apply wp_modify, HQ. by apply moved_bump. Qed.

Lemma wp_get_match s ate t m s0 Q :
  moved s0 ate t m s -> Q m s -> wp (gets mMatchString) Q s.
Proof. intros Hm HQ. apply wp_gets. by rewrite (mv_match _ _ _ _ _ Hm). Qed.
End logic.

Arguments moved {R _ _} s ate rest m s'.

(** One step of a [wp] goal: decompose a bind, or apply the rule of the
    primitive at the head, naming the fact about the new state [Hm]. *)
Ltac lex_step Hm :=
  lazymatch goal with
  | |- wp (mbind _ _) _ _ => apply wp_bind
  | |- wp (mret _) _ _ => apply wp_ret
  | |- wp reader_isEOF _ _ => eapply wp_isEOF; [exact Hm|]; clear Hm; (let st := fresh "st" in intros st Hm)
  | |- wp peekChar _ _ => eapply wp_peekChar; [exact Hm|]; clear Hm; (let st := fresh "st" in intros st Hm)
  | |- wp (index _) _ _ => eapply wp_index; [exact Hm|]; clear Hm; (let st := fresh "st" in intros st Hm)
  | |- wp popChar _ _ => eapply wp_popChar; [exact Hm|]; clear Hm; (let st := fresh "st" in intros st Hm)
  | |- wp (append_match _) _ _ => eapply wp_append_match; [exact Hm|]; clear Hm; (let st := fresh "st" in intros st Hm)
  | |- wp (modify (set_match _)) _ _ => eapply wp_set_match; [exact Hm|]; clear Hm; (let st := fresh "st" in intros st Hm)
  | |- wp (modify bump_lineno) _ _ => eapply wp_bump_lineno; [exact Hm|]; clear Hm; (let st := fresh "st" in intros st Hm)
  | |- wp (gets mMatchString) _ _ => eapply wp_get_match; [exact Hm|]
  end.
Ltac lex_steps Hm := repeat (lex_step Hm; simpl).
