(* ===== verification/LexerScan.v ===== *)
(** What the scanner of [Lexer.v] recognizes: specifications of its loops,
    the totality and losslessness of the scan of a token, identifiers against
    the keyword table, string constants, and the operator symbols. *)

From S2P Require Import Prelude SourceLocation Reader Lexer LexerLogic.

(** The longest prefix of characters that satisfy [p], and the rest. *)
Fixpoint span (p : ascii -> bool) (t : list ascii) : list ascii * list ascii :=
  match t with
  | [] => ([], [])
  | c :: t' => if p c then let '(a, b) := span p t' in (c :: a, b) else ([], t)
  end.

Lemma span_app p t : (span p t).1 ++ (span p t).2 = t.
Proof. induction t as [|c t IH]; simpl; [done|]. destruct (p c), (span p t); simpl in *; by rewrite ?IH. Qed.

(** [rest] does not go on with a character that satisfies [p]. *)
Definition stops (p : ascii -> bool) (rest : list ascii) : Prop :=
  match rest with [] => True | c :: _ => p c = false end.

Lemma span_unique p a b : Forall (fun c => p c = true) a -> stops p b -> span p (a ++ b) = (a, b).
Proof.
  intros Ha Hb. induction Ha as [|c a Hc Ha IH]; simpl.
  - destruct b as [|c b]; simpl in *; [done|]. by rewrite Hb.
  - by rewrite Hc, IH.
Qed.

Lemma isAlpha_isAlphaNum c : isAlpha c = true -> isAlphaNum c = true.
Proof. unfold isAlpha, isAlphaNum. rewrite !orb_true_iff. tauto. Qed.

Lemma isAlphaNum_not_eof c : isAlphaNum c = true -> c <> kEof.
Proof. by intros Hc ->. Qed.

Definition hd_eof (t : list ascii) : ascii := default kEof (t !! 0).

Lemma stops_hd_eof rest : stops isAlphaNum rest <-> isAlphaNum (hd_eof rest) = false.
Proof. by destruct rest. Qed.

(** The text of a string constant after its opening quote: the characters it
    denotes, and what follows its closing quote (nothing when it has none). *)
Fixpoint string_body (t : list ascii) : list ascii * list ascii :=
  match t with
  | [] => ([], [])
  | c :: t' =>
      if decide (c = backslash) then
        match t' with
        | [] => ([backslash], [])
        | e :: t'' =>
            match escape_char e with
            | Some x => let '(a, r) := string_body t'' in (x :: a, r)
            | None => let '(a, r) := string_body t' in (backslash :: a, r)
            end
        end
      else if decide (c = dquote) then ([], t')
      else let '(a, r) := string_body t' in (c :: a, r)
  end.

Lemma string_body_bad_escape e t : escape_char e = None ->
  string_body (backslash :: e :: t) =
    (backslash :: (string_body (e :: t)).1, (string_body (e :: t)).2).
Proof.
  intros He. transitivity (let '(a, r) := string_body (e :: t) in (backslash :: a, r)).
  - simpl. by rewrite He.
  - by destruct (string_body (e :: t)).
Qed.

(** After [//]: everything up to and with the end of the line, or the rest of
    the file. *)
Definition line_comment_body (a u : list ascii) : Prop :=
  (exists b, newline ∉ b /\ a = b ++ [newline]) \/ (u = [] /\ newline ∉ a).

(** No [*/] starts inside [a] when [a] is followed by [u]. *)
Definition unclosed (a u : list ascii) : Prop :=
  forall x y, a = x ++ y -> y <> [] -> ~ (chars "*/" `prefix_of` (y ++ u)).

(** After [/*]: everything up to and with the first [*/], or the rest of the
    file. *)
Definition block_comment_body (a u : list ascii) : Prop :=
  (exists b, a = b ++ chars "*/" /\ unclosed b (chars "*/" ++ u)) \/ (u = [] /\ unclosed a []).

Lemma unclosed_nil u : unclosed [] u.
Proof. intros x y Hxy Hy. symmetry in Hxy. by apply app_nil in Hxy as [_ ->]. Qed.

Lemma unclosed_snoc a x u :
  unclosed a (x :: u) -> ~ (chars "*/" `prefix_of` (x :: u)) -> unclosed (a ++ [x]) u.
Proof.
  intros Ha Hx p q Hpq Hq. destruct q as [|z q _] using rev_ind; [done|].
  rewrite app_assoc in Hpq. apply app_inj_tail in Hpq as [-> ->].
  rewrite <- app_assoc. simpl. destruct q as [|y q]; [done|]. by apply (Ha p).
Qed.

(** White space and comments: [a] is skipped when [u] follows it. *)
Inductive trivia : list ascii -> list ascii -> Prop :=
  | trivia_nil u : trivia [] u
  | trivia_blank c a u :
      c ∈ [" "%char; tab; newline] -> trivia a u -> trivia (c :: a) u
  | trivia_line b a u :
      line_comment_body b (a ++ u) -> trivia a u -> trivia (chars "//" ++ b ++ a) u
  | trivia_block b a u :
      block_comment_body b (a ++ u) -> trivia a u -> trivia (chars "/*" ++ b ++ a) u.

Lemma trivia_app a b u : trivia a (b ++ u) -> trivia b u -> trivia (a ++ b) u.
Proof.
  intros Ha Hb. remember (b ++ u) as v eqn:Hv. induction Ha as [v|c a v Hc Ha IH|l a v Hl Ha IH|l a v Hl Ha IH]; subst v; simpl.
  - done.
  - apply trivia_blank; auto.
  - rewrite <- !app_assoc. apply trivia_line; [by rewrite <- app_assoc|auto].
  - rewrite <- !app_assoc. apply trivia_block; [by rewrite <- app_assoc|auto].
Qed.

Section specs.
Context {R : Type} `{LexerReaderLaws R}.
Implicit Types (s : Lexer R) (t ate rest : list ascii) (m : string).

(** ** Literal matches *)

Lemma wp_match_chars l : forall i s ate c t m s0 Q,
  kEof ∉ l ->
  moved s0 ate (c :: t) m s ->
  (forall s', moved s0 ate (c :: t) m s' -> Q (bool_decide (l `prefix_of` drop i (c :: t))) s') ->
  wp (match_chars i l) Q s.
Proof.
  induction l as [|x l IH]; intros i s ate c t m s0 Q Hl Hm HQ; simpl.
  { apply wp_ret. rewrite <- (bool_decide_eq_true_2 ([] `prefix_of` drop i (c :: t))).
    - by apply HQ. - apply prefix_nil. }
  apply not_elem_of_cons in Hl as [Hx Hl].
  lex_step Hm. lex_step Hm.
  assert (default kEof ((c :: t) !! i) = x <-> exists u, drop i (c :: t) = x :: u) as Heq.
  { destruct ((c :: t) !! i) as [y|] eqn:Hy; simpl.
    - rewrite (drop_S _ _ _ Hy). split; [intros ->; by eexists|by intros (? & [= ? ?])].
    - rewrite drop_ge by (by apply lookup_ge_None_1).
      split; [by intros <-|by intros (? & ?)]. }
  destruct (decide (default kEof ((c :: t) !! i) = x)) as [Hd|Hd].
  - apply Heq in Hd as [u Hu]. eapply IH; [done|exact Hm|]. intros s' Hm'.
    assert (drop (S i) (c :: t) = u) as Hu'.
    { replace (S i) with (i + 1) by lia. by rewrite <- drop_drop, Hu. }
    rewrite Hu'. rewrite (bool_decide_ext _ (x :: l `prefix_of` drop i (c :: t))); [by apply HQ|].
    rewrite Hu. split; [by apply prefix_cons|by apply prefix_cons_inv_2].
  - lex_step Hm. rewrite <- (bool_decide_eq_false_2 (x :: l `prefix_of` drop i (c :: t))); [by apply HQ|].
    intros [u Hu]. apply Hd, Heq. rewrite Hu. by eexists.
Qed.

(** A literal that contains no end-of-file character. *)
Definition plain (w : string) : Prop := kEof ∉ chars w.

Lemma wp_match w s ate c t m s0 Q :
  plain w ->
  moved s0 ate (c :: t) m s ->
  (forall rest s', c :: t = chars w ++ rest ->
     moved s0 (ate ++ chars w) rest w s' -> Q true s') ->
  (forall s', ~ (chars w `prefix_of` (c :: t)) -> moved s0 ate (c :: t) m s' -> Q false s') ->
  wp (match_ w) Q s.
Proof.
  intros Hw Hm HT HF. unfold match_. lex_step Hm.
  eapply wp_match_chars; [exact Hw|exact Hm|]. clear Hm. intros s1 Hm. simpl drop in *.
  case_bool_decide as Hp; [|lex_step Hm; by apply HF].
  destruct Hp as [rest Hrest]. lex_step Hm. lex_step Hm. lex_step Hm.
  rewrite Hrest in Hm. eapply wp_popChars; [apply length_chars|exact Hm|].
  intros s' Hm'. lex_step Hm'. by eapply HT.
Qed.

Lemma wp_matchKeyword w s ate c t m s0 Q :
  plain w ->
  moved s0 ate (c :: t) m s ->
  (forall rest s', c :: t = chars w ++ rest -> stops isAlphaNum rest ->
     moved s0 (ate ++ chars w) rest w s' -> Q true s') ->
  (forall s', (forall rest, c :: t = chars w ++ rest -> ~ stops isAlphaNum rest) ->
     moved s0 ate (c :: t) m s' -> Q false s') ->
  wp (matchKeyword w) Q s.
Proof.
  intros Hw Hm HT HF. unfold matchKeyword. lex_step Hm.
  eapply wp_match_chars; [exact Hw|exact Hm|]. clear Hm. intros s1 Hm. simpl drop in *.
  case_bool_decide as Hp.
  - destruct Hp as [rest Hrest]. lex_step Hm. lex_step Hm.
    assert (default kEof ((c :: t) !! String.length w) = hd_eof rest) as ->.
    { rewrite Hrest, <- length_chars, lookup_app_r, Nat.sub_diag by lia. done. }
    destruct (isAlphaNum (hd_eof rest)) eqn:He.
    + lex_step Hm. apply HF; [|done]. intros rest' Hr'. rewrite Hr' in Hrest.
      apply app_inv_head in Hrest as ->. rewrite stops_hd_eof. congruence.
    + lex_step Hm. lex_step Hm. lex_step Hm.
      rewrite Hrest in Hm. eapply wp_popChars; [apply length_chars|exact Hm|].
      intros s' Hm'. lex_step Hm'. eapply HT; [done| |done]. by rewrite stops_hd_eof.
  - lex_step Hm. apply HF; [|done]. intros rest Hr. contradict Hp. by exists rest.
Qed.

(** ** Loops *)

(** [readSymbol] consumes the first character and the longest run of
    identifier characters after it. *)
Lemma wp_readSymbol fuel s ate c t m s0 Q :
  length (c :: t) < fuel ->
  moved s0 ate (c :: t) m s ->
  (forall s', moved s0 (ate ++ c :: (span isAlphaNum t).1) (span isAlphaNum t).2
                (m +:+ str (c :: (span isAlphaNum t).1)) s' -> Q tt s') ->
  wp (readSymbol fuel) Q s.
Proof.
  intros Hf Hm HQ. unfold readSymbol. lex_step Hm. lex_step Hm. lex_step Hm. lex_step Hm.
  apply (wp_loop (fun n _ s => exists a u, t = a ++ u /\ n = length u /\
      span isAlphaNum t = (a ++ (span isAlphaNum u).1, (span isAlphaNum u).2) /\
      moved s0 ((ate ++ [c]) ++ a) u ((append1 m c) +:+ str a) s)) with (n := length t).
  - clear Hm. intros n _ s2 (a & u & -> & -> & Hsp & Hm). lex_step Hm. lex_step Hm.
    assert (forall s', moved s0 ((ate ++ [c]) ++ a) u ((append1 m c) +:+ str a) s' ->
              stops isAlphaNum u -> Q tt s') as Hdone.
    { intros s' Hm' Hst. apply HQ. rewrite Hsp. simpl.
      replace (span isAlphaNum u) with (([] : list ascii), u)
        by (symmetry; apply (span_unique _ [] u); done).
      simpl. rewrite app_nil_r. rewrite <- append1_str. by rewrite <- app_assoc in Hm'. }
    destruct u as [|x u]; simpl; [by lex_step Hm; apply Hdone|].
    lex_step Hm. lex_step Hm. destruct (isAlphaNum x) eqn:Hx.
    + lex_step Hm. lex_step Hm. lex_step Hm. lex_step Hm. lex_step Hm.
      exists (length u). split; [lia|]. exists (a ++ [x]), u. rewrite <- !app_assoc. simpl.
      split; [done|]. split; [done|]. split.
      * rewrite Hsp. simpl. rewrite Hx. by destruct (span isAlphaNum u).
      * rewrite <- !app_assoc in Hm. simpl in Hm.
        by rewrite str_app, <- string_app_assoc.
    + lex_step Hm. by apply Hdone.
  - exists [], t. simpl. rewrite !app_nil_r, string_app_nil_r.
    split_and!; [done|done|by destruct (span isAlphaNum t)|done].
  - simpl in *. lia.
Qed.

(** ** Loops that consume text

  The invariant shared by the loops below: from the state [s0] before the
  loop, part [a] of the text [t] has been consumed and [n] characters are
  left. *)
Definition consuming (s0 : Lexer R) (ate t : list ascii) (n : nat) (s : Lexer R) : Prop :=
  exists a u m, t = a ++ u /\ n = length u /\ moved s0 (ate ++ a) u m s.

Lemma consuming_start s0 ate t m s : moved s0 ate t m s -> consuming s0 ate t (length t) s.
Proof. intros Hm. exists [], t, m. rewrite app_nil_r. by split_and!. Qed.

Lemma consuming_step s0 ate t a x u m s n0 :
  t = a ++ x ++ u -> n0 = length (x ++ u) -> x <> [] -> moved s0 ((ate ++ a) ++ x) u m s ->
  exists n, n < n0 /\ consuming s0 ate t n s.
Proof.
  intros -> -> Hx Hm. exists (length u). split.
  - rewrite length_app. destruct x; simpl; [done|lia].
  - exists (a ++ x), u, m. by rewrite <- !app_assoc in *.
Qed.

(** What such a procedure guarantees: it ends, having consumed some prefix. *)
Definition ends_consuming (s0 : Lexer R) (ate t : list ascii) {A} (Q : A -> Lexer R -> Prop) :=
  forall a u m s r, t = a ++ u -> moved s0 (ate ++ a) u m s -> Q r s.

(** ** String constants *)

Definition reading_string s0 ate t m (n : nat) (s : Lexer R) : Prop :=
  exists a b u, t = a ++ u /\ n = length u /\
    string_body t = (b ++ (string_body u).1, (string_body u).2) /\
    moved s0 (ate ++ a) u (m +:+ str b) s.

Lemma reading_string_step s0 ate t m a b u x w y s n0 :
  t = a ++ u -> n0 = length u ->
  string_body t = (b ++ (string_body u).1, (string_body u).2) ->
  x <> [] -> u = x ++ w ->
  string_body u = (y :: (string_body w).1, (string_body w).2) ->
  moved s0 ((ate ++ a) ++ x) w (append1 (m +:+ str b) y) s ->
  exists n, n < n0 /\ reading_string s0 ate t m n s.
Proof.
  intros Ht -> Hsp Hx Hu Hsu Hm. exists (length w). split.
  - rewrite Hu, length_app. destruct x; simpl; [done|lia].
  - exists (a ++ x), (b ++ [y]), w. rewrite Hsp, Hsu, <- !app_assoc in *. simpl.
    split_and!; [by rewrite Ht, Hu|done|done|].
    by rewrite str_app, <- string_app_assoc.
Qed.

Lemma wp_readStringConst fuel s ate t m s0 Q :
  length (dquote :: t) < fuel ->
  moved s0 ate (dquote :: t) m s ->
  (forall a s', t = a ++ (string_body t).2 ->
     moved s0 (ate ++ dquote :: a) (string_body t).2 (m +:+ str (string_body t).1) s' ->
     Q tt s') ->
  wp (readStringConst fuel) Q s.
Proof.
  intros Hf Hm HQ. unfold readStringConst. lex_step Hm. lex_step Hm.
  assert (forall a b u x w s', t = a ++ u -> u = x ++ w ->
            string_body t = (b, w) ->
            moved s0 (((ate ++ [dquote]) ++ a) ++ x) w (m +:+ str b) s' -> Q tt s') as Hdone.
  { intros a b u x w s' Ht Hu Hsp Hm'. apply (HQ (a ++ x)); rewrite Hsp; simpl.
    - by rewrite Ht, Hu, app_assoc.
    - by rewrite <- !app_assoc in Hm'. }
  apply (wp_loop (fun n _ s => reading_string s0 (ate ++ [dquote]) t m n s))
    with (n := length t); [clear Hm|exists [], [], t|simpl in *; lia].
  - intros n _ s2 (a & b & u & Ht & -> & Hsp & Hm). lex_step Hm. lex_step Hm.
    destruct u as [|x u]; simpl.
    { lex_step Hm. eapply (Hdone a b [] []); [done..| |by rewrite app_nil_r].
      by rewrite Hsp, app_nil_r. }
    lex_step Hm. lex_step Hm. destruct (decide (x = backslash)) as [->|Hx].
    + lex_step Hm. lex_step Hm. simpl. destruct u as [|e u]; simpl.
      * do 5 lex_step Hm. by eapply (reading_string_step _ _ _ _ a b _ [backslash] []).
      * destruct (escape_char e) as [y|] eqn:He.
        -- do 3 lex_step Hm. eapply (wp_popChars 2 _ _ [backslash; e]); [done|exact Hm|].
           clear Hm. intros s' Hm. lex_step Hm.
           eapply (reading_string_step _ _ _ _ a b _ [backslash; e] u); [done..| |done].
           simpl. rewrite He. by destruct (string_body u).
        -- do 5 lex_step Hm.
           eapply (reading_string_step _ _ _ _ a b _ [backslash] (e :: u)); [done..| |done].
           by apply string_body_bad_escape.
    + lex_step Hm. lex_step Hm. destruct (decide (x <> dquote)) as [Hq|Hq%dec_stable].
      * do 5 lex_step Hm. eapply (reading_string_step _ _ _ _ a b _ [x] u); [done..| |done].
        simpl. rewrite !decide_False by done. by destruct (string_body u).
      * subst x. do 3 lex_step Hm. eapply (Hdone a b (dquote :: u) [dquote]); [done..| |done].
        rewrite Hsp. simpl. by rewrite app_nil_r.
  - simpl. rewrite !app_nil_r. unfold str at 1; simpl. rewrite string_app_nil_r.
    split_and!; [done|done|by destruct (string_body t)|done].
Qed.

(** ** The other loops *)

Lemma wp_readCharacterConst fuel s ate t m s0 (Q : unit -> Lexer R -> Prop) :
  length (squote :: t) < fuel ->
  moved s0 ate (squote :: t) m s ->
  ends_consuming s0 (ate ++ [squote]) t Q ->
  wp (readCharacterConst fuel) Q s.
Proof.
  intros Hf Hm HQ. unfold readCharacterConst. lex_step Hm. lex_step Hm.
  apply (wp_loop (fun n _ s => consuming s0 (ate ++ [squote]) t n s))
    with (n := length t); [clear Hm|exact (consuming_start _ _ _ _ _ Hm)|simpl in *; lia].
  intros n _ s2 (a & u & m2 & Ht & -> & Hm). lex_step Hm. lex_step Hm.
  destruct u as [|x u]; simpl; [lex_step Hm; by eapply HQ|].
  lex_step Hm. lex_step Hm. destruct (decide (x <> squote)).
  - do 5 lex_step Hm. by eapply (consuming_step _ _ _ a [x] u); [..|exact Hm].
  - do 3 lex_step Hm. eapply (HQ (a ++ [x]) u); [by rewrite Ht, <- app_assoc|].
    by rewrite app_assoc.
Qed.

Lemma digit_not_dot : isDigit "." = false.
Proof. done. Qed.

Lemma wp_readConst_loop fuel hex n b s s0 ate t (Q : bool -> Lexer R -> Prop) :
  n < fuel -> consuming s0 ate t n s ->
  (exists c t', t = c :: t' /\ isDigit c = true) ->
  (forall a u m r s, t = a ++ u -> a <> [] -> moved s0 (ate ++ a) u m s -> Q r s) ->
  wp (loop fuel (readConst_pass hex) b) Q s.
Proof.
  intros Hn Hs (c & t' & Hc & Hd) HQ.
  apply (wp_loop (fun n _ s => consuming s0 ate t n s)) with (n := n); [|done|done].
  clear s n b Hn Hs. intros n [oct fl] s (a & u & m2 & Ht & -> & Hm).
  unfold readConst_pass. lex_step Hm. lex_step Hm.
  assert (forall r s', moved s0 (ate ++ a) u m2 s' -> (a = [] -> u <> c :: t') -> Q r s') as Hdone.
  { intros r s' Hm' Hne. eapply (HQ a u); [done| |exact Hm'].
    intros ->. apply Hne; [done|]. by rewrite <- Hc, Ht. }
  destruct u as [|x u]; simpl; [lex_step Hm; by apply (Hdone _ _ Hm)|].
  assert (isDigit x = false \/ x = "."%char -> a = [] -> x :: u <> c :: t') as Hne.
  { intros Hx _ [= <- _]. destruct Hx as [Hx|Hx]; [congruence|].
    by rewrite Hx, digit_not_dot in Hd. }
  lex_step Hm. lex_step Hm.
  repeat (case_match || lex_step Hm);
    try (eapply (consuming_step _ _ _ a [x] u); [done..|exact Hm]);
    apply (Hdone _ _ Hm), Hne; auto.
  right. repeat match goal with E : _ && _ = true |- _ => apply andb_true_iff in E as [E _] end.
  by eapply bool_decide_eq_true_1.
Qed.

Lemma wp_readConst fuel s ate c t m s0 (Q : bool -> Lexer R -> Prop) :
  length (c :: t) < fuel -> isDigit c = true ->
  moved s0 ate (c :: t) m s ->
  (forall a u m r s, c :: t = a ++ u -> a <> [] -> moved s0 (ate ++ a) u m s -> Q r s) ->
  wp (readConst fuel) Q s.
Proof.
  intros Hf Hc Hm HQ. unfold readConst. lex_step Hm. lex_step Hm.
  destruct (decide (c = "0"%char)) as [->|Hc0].
  - lex_step Hm. lex_step Hm. simpl.
    destruct (bool_decide (default kEof (t !! 0) = "x"%char) ||
              bool_decide (default kEof (t !! 0) = "X"%char)) eqn:Hx.
    + destruct t as [|x t]; [done|]. lex_step Hm.
      eapply (wp_popChars 2 _ _ ["0"%char; x]); [done|exact Hm|]. clear Hm. intros s' Hm.
      lex_step Hm. lex_step Hm. eapply (wp_readConst_loop _ _ (length t)); [simpl in *; lia| |by eauto|exact HQ].
      exists ["0"%char; x], t, "0x". by split_and!.
    + lex_step Hm. eapply (wp_popChars 1 _ _ ["0"%char]); [done|exact Hm|]. clear Hm. intros s' Hm.
      lex_step Hm. lex_step Hm. eapply (wp_readConst_loop _ _ (length t)); [simpl in *; lia| |by eauto|exact HQ].
      exists ["0"%char], t, "0". by split_and!.
  - eapply wp_readConst_loop; [exact Hf|by eapply consuming_start|by eauto|exact HQ].
Qed.

(** ** Comments and white space *)

Lemma wp_handleComment_line fuel s ate t m s0 (Q : unit -> Lexer R -> Prop) :
  length t < fuel ->
  moved s0 ate t m s ->
  (forall a u m s, t = a ++ u -> line_comment_body a u -> moved s0 (ate ++ a) u m s -> Q tt s) ->
  wp (handleComment fuel true) Q s.
Proof.
  intros Hf Hm HQ. unfold handleComment.
  apply (wp_loop (fun n _ s => exists a u m, t = a ++ u /\ n = length u /\ newline ∉ a /\
                                 moved s0 (ate ++ a) u m s)) with (n := length t); [clear Hm| |lia].
  - intros n _ s2 (a & u & m2 & Ht & -> & Ha & Hm). lex_step Hm. lex_step Hm.
    destruct u as [|x u]; simpl.
    { lex_step Hm. eapply (HQ a []); [done| |done]. by right. }
    do 4 lex_step Hm. destruct (decide (x = newline)) as [->|Hx].
    + do 6 lex_step Hm. eapply (HQ (a ++ [newline]) u); [by rewrite Ht, <- app_assoc| |by rewrite app_assoc].
      left. by exists a.
    + do 3 lex_step Hm. exists (length u). split; [lia|]. exists (a ++ [x]), u, m2.
      rewrite Ht, <- !app_assoc in *. split_and!; [done|done| |done]. set_solver.
  - exists [], t, m. rewrite app_nil_r. split_and!; [done|done|set_solver|done].
Qed.

Lemma wp_handleComment_block fuel s ate t m s0 (Q : unit -> Lexer R -> Prop) :
  length t < fuel ->
  moved s0 ate t m s ->
  (forall a u m s, t = a ++ u -> block_comment_body a u -> moved s0 (ate ++ a) u m s -> Q tt s) ->
  wp (handleComment fuel false) Q s.
Proof.
  intros Hf Hm HQ. unfold handleComment.
  apply (wp_loop (fun n _ s => exists a u m, t = a ++ u /\ n = length u /\ unclosed a u /\
                                 moved s0 (ate ++ a) u m s)) with (n := length t); [clear Hm| |lia].
  - intros n _ s2 (a & u & m2 & Ht & -> & Ha & Hm). lex_step Hm. lex_step Hm.
    destruct u as [|x u]; simpl.
    { lex_step Hm. eapply (HQ a []); [done| |done]. right. split; [done|]. exact Ha. }
    lex_step Hm. eapply wp_match; [|exact Hm| |]; clear Hm; [by vm_compute; set_solver| |].
    + intros rest s' Hr Hm. do 3 lex_step Hm.
      eapply (HQ (a ++ chars "*/") rest); [by rewrite Ht, Hr, <- app_assoc| |by rewrite app_assoc].
      left. exists a. split; [done|]. by rewrite Hr in Ha.
    + intros s' Hp Hm. lex_step Hm. lex_step Hm.
      assert (unclosed (a ++ [x]) u) as Ha' by by apply unclosed_snoc.
      destruct (decide (x = newline)) as [->|Hx].
      * do 5 lex_step Hm. exists (length u). split; [lia|]. exists (a ++ [newline]), u, m2.
        rewrite Ht, <- !app_assoc in *. by split_and!.
      * do 3 lex_step Hm. exists (length u). split; [lia|]. exists (a ++ [x]), u, m2.
        rewrite Ht, <- !app_assoc in *. by split_and!.
  - exists [], t, m. rewrite app_nil_r. split_and!; [done|done|apply unclosed_nil|done].
Qed.

(** ** Keywords *)

Definition keyword_entry_ok (e : string * LexerSymbol) : Prop :=
  plain e.1 /\ e.1 <> "".

Lemma wp_try_keywords l : forall s ate c t m s0 Q,
  Forall keyword_entry_ok l ->
  moved s0 ate (c :: t) m s ->
  (forall kw y rest s', (kw, y) ∈ l -> c :: t = chars kw ++ rest -> stops isAlphaNum rest ->
     moved s0 (ate ++ chars kw) rest kw s' -> Q (Some y) s') ->
  (forall s', (forall kw y rest, (kw, y) ∈ l -> c :: t = chars kw ++ rest ->
                 ~ stops isAlphaNum rest) ->
     moved s0 ate (c :: t) m s' -> Q None s') ->
  wp (try_keywords l) Q s.
Proof.
  induction l as [|[kw y] l IH]; intros s ate c t m s0 Q Hl Hm HS HN; simpl.
  { lex_step Hm. apply HN; [|done]. intros kw y rest Hin. by apply elem_of_nil in Hin. }
  apply Forall_cons in Hl as [[Hkw _] Hl]. lex_step Hm.
  eapply wp_matchKeyword; [exact Hkw|exact Hm| |]; clear Hm.
  - intros rest s' Hr Hst Hm. lex_step Hm. eapply HS; [by left|done..].
  - intros s' Hno Hm. eapply IH; [done|exact Hm| |].
    + intros kw' y' rest s'' Hin. apply HS. by right.
    + intros s'' Hno' Hm''. apply HN; [|done]. intros kw' y' rest [[= -> ->]|Hin]%elem_of_cons Hr.
      * by apply Hno.
      * by eapply Hno'.
Qed.
End specs.

(** ** One token *)
Section token.
Context {R : Type} `{LexerReaderLaws R}.
Variables (s0 : Lexer R) (ate : list ascii) (c : ascii) (t : list ascii).
Variable Q : loop_step unit Z -> Lexer R -> Prop.

(** What the caller of a scanning procedure accepts: a symbol once something
    has been consumed, and another round once white space or comments have. *)
Hypothesis accept_symbol : forall a u m r s,
  c :: t = a ++ u -> a <> [] -> moved s0 (ate ++ a) u m s -> Q (Break r) s.
Hypothesis accept_trivia : forall a u m s,
  c :: t = a ++ u -> a <> [] -> trivia a u -> moved s0 (ate ++ a) u m s -> Q (Next tt) s.

Lemma wp_return_popChar m s : moved s0 ate (c :: t) m s -> wp return_popChar Q s.
Proof.
  intros Hm. unfold return_popChar. do 3 lex_step Hm. by eapply (accept_symbol [c] t).
Qed.

Lemma wp_or_match w y k m s :
  plain w -> chars w <> [] ->
  moved s0 ate (c :: t) m s ->
  (forall s', moved s0 ate (c :: t) m s' -> wp k Q s') ->
  wp (or_match w y k) Q s.
Proof.
  intros Hw Hne Hm Hk. unfold or_match. lex_step Hm.
  eapply wp_match; [exact Hw|exact Hm| |]; clear Hm.
  - intros rest s' Hr Hm. lex_step Hm. by eapply accept_symbol.
  - intros s' _ Hm. by apply Hk.
Qed.

Lemma wp_scan_arith m s : moved s0 ate (c :: t) m s -> wp scan_arith Q s.
Proof.
  intros Hm. unfold scan_arith. lex_step Hm. lex_step Hm. simpl.
  destruct (decide _) as [Hd|Hd]; [|by eapply wp_return_popChar].
  assert (exists u, t = "="%char :: u) as [u Hu] by (destruct t; simplify_eq/=; eauto).
  rewrite Hu in Hm. do 9 lex_step Hm. eapply (accept_symbol [c; "="%char] u); [by rewrite Hu|done|].
  by rewrite <- app_assoc in Hm.
Qed.

Lemma wp_scan_minus m s : moved s0 ate (c :: t) m s -> wp scan_minus Q s.
Proof.
  intros Hm. eapply wp_or_match; [by vm_compute; set_solver|done|exact Hm|].
  intros s' Hm'. by eapply wp_scan_arith.
Qed.

Lemma wp_blank m s :
  c ∈ [" "%char; tab; newline] -> moved s0 ate (c :: t) m s ->
  wp (_ ← popChar; mret (Next tt)) Q s.
Proof.
  intros Hc Hm. do 3 lex_step Hm. eapply (accept_trivia [c] t); [done..| |exact Hm].
  apply trivia_blank; [done|constructor].
Qed.

Lemma wp_scan_slash fuel m s :
  length (c :: t) < fuel -> moved s0 ate (c :: t) m s ->
  wp (b ← match_ "//";
      if b : bool then handleComment fuel true;; mret (Next tt)
      else
        b ← match_ "/*";
        if b : bool then handleComment fuel false;; mret (Next tt)
        else scan_minus) Q s.
Proof.
  intros Hf Hm. lex_step Hm. eapply wp_match; [by vm_compute; set_solver|exact Hm| |]; clear Hm.
  - intros u s' Hu Hm. lex_step Hm.
    eapply wp_handleComment_line; [|exact Hm|].
    { rewrite Hu, length_app in Hf. lia. }
    clear Hm. intros a v m' s'' -> Ha Hm. lex_step Hm.
    eapply (accept_trivia (chars "//" ++ a) v); [by rewrite Hu, app_assoc|done| |by rewrite app_assoc].
    rewrite <- (app_nil_r a). by apply trivia_line; [|constructor].
  - intros s' _ Hm. lex_step Hm. eapply wp_match; [by vm_compute; set_solver|exact Hm| |]; clear Hm.
    + intros u s'' Hu Hm. lex_step Hm.
      eapply wp_handleComment_block; [|exact Hm|].
      { rewrite Hu, length_app in Hf. lia. }
      clear Hm. intros a v m' s3 -> Ha Hm. lex_step Hm.
      eapply (accept_trivia (chars "/*" ++ a) v); [by rewrite Hu, app_assoc|done| |by rewrite app_assoc].
      rewrite <- (app_nil_r a). by apply trivia_block; [|constructor].
    + intros s'' _ Hm. by eapply wp_scan_minus.
Qed.

End token.

(** Closes one case of the operator switch. *)
Ltac operator_case HB HN Hm :=
  repeat (eapply wp_or_match; [exact HB|by vm_compute; set_solver|done|exact Hm|];
          clear Hm; (let st := fresh "st" in intros st Hm));
  first
    [ by eapply wp_return_popChar; [exact HB|exact Hm]
    | by eapply wp_scan_arith; [exact HB|exact HN|exact Hm]
    | by eapply wp_scan_minus; [exact HB|exact HN|exact Hm]
    | by eapply wp_scan_slash; [exact HB|exact HN| |exact Hm]
    | by eapply wp_blank; [exact HN|vm_compute; set_solver|exact Hm]
    | lex_step Hm; lex_step Hm; by eapply wp_blank; [exact HN|vm_compute; set_solver|exact Hm]
    | do 3 lex_step Hm; by eapply (HB [_]); [..|exact Hm] ].

Section scan.
Context {R : Type} `{LexerReaderLaws R}.

Definition accepts_symbol (s0 : Lexer R) ate t (Q : loop_step unit Z -> Lexer R -> Prop) : Prop :=
  forall a u m r s, t = a ++ u -> a <> [] -> moved s0 (ate ++ a) u m s -> Q (Break r) s.
Definition accepts_trivia (s0 : Lexer R) ate t (Q : loop_step unit Z -> Lexer R -> Prop) : Prop :=
  forall a u m s, t = a ++ u -> a <> [] -> trivia a u -> moved s0 (ate ++ a) u m s -> Q (Next tt) s.

Lemma wp_scan_operator fuel s0 ate c t m s Q :
  accepts_symbol s0 ate (c :: t) Q -> accepts_trivia s0 ate (c :: t) Q ->
  length (c :: t) < fuel -> moved s0 ate (c :: t) m s -> wp (scan_operator fuel) Q s.
Proof.
  intros HB HN Hf Hm. unfold scan_operator. do 2 lex_step Hm.
  destruct c as [b0 b1 b2 b3 b4 b5 b6 b7].
  repeat case_match; subst; operator_case HB HN Hm.
Qed.

Lemma keyword_cases_ok c : Forall keyword_entry_ok (keyword_cases c).
Proof.
  unfold keyword_entry_ok, plain.
  assert (Is_true (bool_decide (Forall (fun e => kEof ∉ chars e.1 /\ e.1 <> "") (keyword_cases c))));
    [|by eapply bool_decide_unpack].
  destruct c as [[] [] [] [] [] [] [] []]; exact I.
Qed.

Lemma wp_scan_token fuel s0 ate c t m s Q :
  accepts_symbol s0 ate (c :: t) Q -> accepts_trivia s0 ate (c :: t) Q ->
  length (c :: t) < fuel -> moved s0 ate (c :: t) m s -> wp (scan_token fuel) Q s.
Proof.
  intros HB HN Hf Hm. unfold scan_token. do 3 lex_step Hm.
  eapply wp_try_keywords; [apply keyword_cases_ok|exact Hm| |]; clear Hm.
  { intros kw y rest s' Hin Hr _ Hm. lex_step Hm. eapply HB; [exact Hr| |exact Hm].
    pose proof (keyword_cases_ok c) as Hok. rewrite Forall_forall in Hok.
    destruct (Hok _ Hin) as [_ Hne]. by destruct kw. }
  intros s' _ Hm. do 2 lex_step Hm. destruct (isAlpha c) eqn:Ha.
  { lex_step Hm. eapply wp_readSymbol; [exact Hf|exact Hm|]. clear Hm. intros s'' Hm.
    do 3 lex_step Hm. eapply (HB (c :: _)); [|done|exact Hm]. simpl. by rewrite span_app. }
  do 2 lex_step Hm. destruct (decide (c = dquote)) as [->|_].
  { lex_step Hm. eapply wp_readStringConst; [exact Hf|exact Hm|]. clear Hm.
    intros a s'' Ht Hm. lex_step Hm. eapply (HB (dquote :: a)); [|done|exact Hm]. simpl. congruence. }
  do 2 lex_step Hm. destruct (decide (c = squote)) as [->|_].
  { lex_step Hm. eapply wp_readCharacterConst; [exact Hf|exact Hm|]. clear Hm.
    intros a u m' s'' [] Ht Hm. lex_step Hm.
    eapply (HB (squote :: a)); [by rewrite Ht|done|by rewrite <- app_assoc in Hm]. }
  do 2 lex_step Hm. destruct (isDigit c) eqn:Hd; [|by eapply wp_scan_operator].
  lex_step Hm. eapply wp_readConst; [exact Hf|exact Hd|exact Hm|]. clear Hm.
  intros a u m' r s'' Ht Hne Hm. lex_step Hm. by eapply HB.
Qed.
End scan.
