(* ===== verification/LexerSpec.v ===== *)
(** The contract of [Lexer::getSymbolFromFile] ([src/FileLexer.cpp]): the scan
    is total and lossless on every text, an identifier is recognized against
    the keyword table, and a string constant denotes the characters it was
    written for. *)

From S2P Require Import Prelude SourceLocation Reader Lexer LexerLogic LexerScan.

(** * The scan of one token *)

Section decompose.
Context {R : Type} `{LexerReaderLaws R}.

(** [s'] is [s] after the scanner skipped the trivia [tr], consumed the token
    [tok] and stopped before [rest].  A token's position is that of its first
    character. *)
Record scanned (s : Lexer R) (tr tok rest : list ascii) (s' : Lexer R) : Prop := {
  sc_rep : rd_rep (mReader s') rest;
  sc_line : rd_getLine (mReader s') = line_after (tr ++ tok) (rd_getLine (mReader s));
  sc_col : rd_getCol (mReader s') = col_after (tr ++ tok) (rd_getCol (mReader s));
  sc_file : rd_getFileName (mReader s') = rd_getFileName (mReader s);
  sc_start : tok <> [] ->
    mScanLine s' = line_after tr (rd_getLine (mReader s)) /\
    mScanCol s' = col_after tr (rd_getCol (mReader s));
  sc_last : mLastSym s' = (-1)%Z;
  sc_symbols : mSymbolList s' = mSymbolList s;
  sc_pos : mCurrentPos s' = mCurrentPos s
}.

(** The scanner's state while it looks for a token: [a] is behind it, and the
    token under consideration started at line [l] and column [k]. *)
Definition looking (s : Lexer R) (l k : Z) (a u : list ascii) (s' : Lexer R) : Prop :=
  exists m, moved (set_scan l k (set_last (-1) s)) a u m s'.

Lemma looking_snapshot s l k a u s' :
  looking s l k a u s' ->
  looking s (line_after a (rd_getLine (mReader s))) (col_after a (rd_getCol (mReader s))) a u
    (set_scan (rd_getLine (mReader s')) (rd_getCol (mReader s')) s').
Proof.
  intros (m & []). exists m. simpl in *. constructor; simpl; congruence.
Qed.

Lemma looking_scanned s a tok u m s' :
  moved (set_scan (line_after a (rd_getLine (mReader s))) (col_after a (rd_getCol (mReader s)))
           (set_last (-1) s)) (a ++ tok) u m s' ->
  scanned s a tok u s'.
Proof. intros []. simpl in *. constructor; simpl in *; try congruence. intros _. split; congruence. Qed.

(** The state in which the loop of [getSymbolFromFile] starts. *)
Lemma looking_start s t :
  rd_rep (mReader s) t ->
  looking s (rd_getLine (mReader s)) (rd_getCol (mReader s)) [] t
    (set_scan (rd_getLine (mReader s)) (rd_getCol (mReader s)) (set_last (-1) (set_match "" s))).
Proof. intros Hr. exists "". by constructor. Qed.

Lemma wp_getSymbolFromFile fuel s t (Q : Z -> Lexer R -> Prop) :
  length t < fuel ->
  rd_rep (mReader s) t ->
  (forall tr tok rest y s', t = tr ++ tok ++ rest -> trivia tr (tok ++ rest) ->
     scanned s tr tok rest s' ->
     (tok = [] -> rest = [] /\ y = (-1)%Z) -> Q y s') ->
  wp (getSymbolFromFile fuel) Q s.
Proof.
  intros Hf Hr HQ. unfold getSymbolFromFile, snapshot.
  do 3 (apply wp_bind; apply wp_modify).
  apply (wp_loop (fun n _ s' => exists a u l k, t = a ++ u /\ n = length u /\ trivia a u /\
                                  looking s l k a u s')) with (n := length t); [| |done].
  - intros n _ s2 (a & u & l & k & Ht & -> & Htr & m & Hm). lex_step Hm. lex_step Hm.
    destruct u as [|c u]; simpl.
    { lex_step Hm. apply (HQ a [] []); simpl; [done..| |done].
      destruct Hm. simpl in *. rewrite ?app_nil_r. by constructor; rewrite ?app_nil_r. }
    apply wp_bind, wp_modify. pose proof (looking_snapshot s l k a (c :: u) _ (ex_intro _ _ Hm)) as (m' & Hm').
    eapply wp_scan_token; [| | |exact Hm'].
    + intros b v m3 y s3 Hb Hne Hm3. apply (HQ a b v); [congruence|congruence| |done].
      by eapply looking_scanned.
    + intros b v m3 s3 Hb Hne Htb Hm3. exists (length v). split.
      { change (S (length u)) with (length (c :: u)). rewrite Hb, length_app.
        destruct b; simpl; [done|lia]. }
      eexists (a ++ b), v, _, _. split_and!; [by rewrite Ht, Hb, app_assoc|done| |by eexists].
      apply trivia_app; [congruence|done].
    + rewrite Ht, length_app in Hf. lia.
  - eexists [], t, _, _. split_and!; [done|done|apply trivia_nil|exact (looking_start s t Hr)].
Qed.
End decompose.

(** * Identifiers and keywords *)

Definition keyword_assoc (id : string) (l : list (string * LexerSymbol)) : option LexerSymbol :=
  snd <$> (list_find (fun e => e.1 = id) l ≫= fun '(_, e) => Some e).

(** The symbol a word scans to: the keyword table decides, [_] is the wildcard
    and anything else is an identifier. *)
Definition word_symbol (id : string) : LexerSymbol :=
  match id with
  | EmptyString => SYMBOL
  | String c _ =>
      match keyword_assoc id (keyword_cases c) with
      | Some y => y
      | None => if decide (id = "_") then WILDCARD else SYMBOL
      end
  end.

(** A word: a letter or underscore, then letters, digits and underscores. *)
Definition is_word (id : string) : bool :=
  match id with
  | EmptyString => false
  | String c t => isAlpha c && forallb isAlphaNum (chars t)
  end.

Lemma is_word_alnum id : is_word id = true -> Forall (fun c => isAlphaNum c = true) (chars id).
Proof.
  destruct id as [|c t]; [done|]. simpl. intros [Hc Ht]%andb_true_iff.
  constructor; [by apply isAlpha_isAlphaNum|]. apply Forall_forall. intros x Hx.
  by eapply forallb_forall, list_elem_of_In.
Qed.

Lemma keyword_cases_words c : Forall (fun e => is_word e.1 = true) (keyword_cases c).
Proof.
  assert (Is_true (bool_decide (Forall (fun e => is_word e.1 = true) (keyword_cases c))));
    [|by eapply bool_decide_unpack].
  destruct c as [[] [] [] [] [] [] [] []]; exact I.
Qed.

Lemma keyword_cases_nodup c : NoDup (keyword_cases c).*1.
Proof.
  assert (Is_true (bool_decide (NoDup (keyword_cases c).*1))); [|by eapply bool_decide_unpack].
  destruct c as [[] [] [] [] [] [] [] []]; vm_compute; exact I.
Qed.

Lemma keyword_assoc_elem id y l : NoDup l.*1 -> (id, y) ∈ l -> keyword_assoc id l = Some y.
Proof.
  intros Hnd Hin. unfold keyword_assoc.
  apply list_elem_of_lookup in Hin as [i Hi].
  assert (list_find (fun e => e.1 = id) l = Some (i, (id, y))) as ->; [|done].
  apply list_find_Some. split_and!; [done|done|]. intros j [k z] Hj Hlt Hk. simpl in Hk. subst k.
  assert (j = i); [|lia]. eapply (NoDup_lookup l.*1); [done|..]; by rewrite list_lookup_fmap, ?Hj, ?Hi.
Qed.

Lemma keyword_assoc_not_elem id l :
  (forall y, (id, y) ∉ l) -> keyword_assoc id l = None.
Proof.
  intros Hn. unfold keyword_assoc. destruct (list_find _ l) as [[i [k y]]|] eqn:E; [|done].
  apply list_find_Some in E as (Hi & Hk & _). simpl in Hk. subst k.
  by apply list_elem_of_lookup_2, Hn in Hi.
Qed.

(** Two words before text that does not continue them are equal. *)
Lemma word_prefix_unique a b u v :
  Forall (fun c => isAlphaNum c = true) a -> Forall (fun c => isAlphaNum c = true) b ->
  stops isAlphaNum u -> stops isAlphaNum v -> a ++ u = b ++ v -> a = b /\ u = v.
Proof.
  intros Ha Hb Hu Hv E. apply (f_equal (span isAlphaNum)) in E.
  rewrite !span_unique in E by done. by simplify_eq.
Qed.

Section words.
Context {R : Type} `{LexerReaderLaws R}.

Lemma wp_scan_word fuel s0 s ate id rest Q :
  is_word id = true -> stops isAlphaNum rest ->
  length (chars id ++ rest) < fuel ->
  moved s0 ate (chars id ++ rest) "" s ->
  (forall s', moved s0 (ate ++ chars id) rest id s' -> Q (Break (code (word_symbol id))) s') ->
  wp (scan_token fuel) Q s.
Proof.
  intros Hw Hst Hf Hm HQ. pose proof (is_word_alnum _ Hw) as Hid.
  destruct id as [|c id]; [done|]. simpl in Hw. apply andb_true_iff in Hw as [Hc _].
  change (chars (String c id) ++ rest) with (c :: (chars id ++ rest)) in *.
  unfold scan_token. do 3 lex_step Hm.
  eapply wp_try_keywords; [apply keyword_cases_ok|exact Hm| |]; clear Hm.
  - intros kw y rest' s' Hin Hr Hst' Hm. lex_step Hm.
    pose proof (keyword_cases_words c) as Hkw. rewrite Forall_forall in Hkw.
    destruct (word_prefix_unique (chars kw) (chars (String c id)) rest' rest) as [Heq <-];
      [by apply is_word_alnum, (Hkw _ Hin)|done..|].
    apply (f_equal str) in Heq. rewrite !str_chars in Heq. subst kw.
    apply (keyword_assoc_elem _ _ _ (keyword_cases_nodup c)) in Hin.
    unfold word_symbol in HQ. rewrite Hin in HQ. by apply HQ.
  - intros s' Hno Hm. do 2 lex_step Hm. rewrite Hc. lex_step Hm.
    eapply wp_readSymbol; [exact Hf|exact Hm|]. clear Hm. intros s'' Hm.
    apply Forall_cons in Hid as [_ Hid].
    rewrite (span_unique isAlphaNum (chars id) rest) in Hm by done. simpl in Hm.
    change (c :: chars id) with (chars (String c id)) in Hm. rewrite str_chars in Hm.
    do 3 lex_step Hm. unfold word_symbol in HQ.
    rewrite keyword_assoc_not_elem in HQ; [by apply HQ|].
    intros y Hin. by apply (Hno _ y rest Hin).
Qed.
End words.

(** * String constants *)

(** How a character is written inside a string constant. *)
Definition quote_char (c : ascii) : list ascii :=
  if decide (c = ascii_of_N 7) then [backslash; "a"%char]
  else if decide (c = ascii_of_N 8) then [backslash; "b"%char]
  else if decide (c = ascii_of_N 9) then [backslash; "t"%char]
  else if decide (c = ascii_of_N 10) then [backslash; "n"%char]
  else if decide (c = ascii_of_N 11) then [backslash; "v"%char]
  else if decide (c = ascii_of_N 12) then [backslash; "f"%char]
  else if decide (c = ascii_of_N 13) then [backslash; "r"%char]
  else if decide (c = ascii_of_N 0) then [backslash; "0"%char]
  else if decide (c = backslash) then [backslash; backslash]
  else if decide (c = dquote) then [backslash; dquote]
  else [c].

Definition quote (l : list ascii) : list ascii := concat (quote_char <$> l).

Lemma string_body_quote_char c rest :
  string_body (quote_char c ++ rest) = (c :: (string_body rest).1, (string_body rest).2).
Proof.
  unfold quote_char.
  repeat (destruct (decide _); [subst; simpl; by destruct (string_body rest)|]).
  simpl. rewrite !decide_False by done. by destruct (string_body rest).
Qed.

Lemma string_body_quote l rest : string_body (quote l ++ dquote :: rest) = (l, rest).
Proof.
  induction l as [|c l IH]; [done|].
  change (quote (c :: l)) with (quote_char c ++ quote l).
  by rewrite <- app_assoc, string_body_quote_char, IH.
Qed.

Section strings.
Context {R : Type} `{LexerReaderLaws R}.

Lemma wp_scan_string fuel s0 s ate l rest Q :
  length (dquote :: quote l ++ dquote :: rest) < fuel ->
  moved s0 ate (dquote :: quote l ++ dquote :: rest) "" s ->
  (forall s', moved s0 (ate ++ dquote :: quote l ++ [dquote]) rest (str l) s' ->
     Q (Break (code CONSTANT_STRING)) s') ->
  wp (scan_token fuel) Q s.
Proof.
  intros Hf Hm HQ. unfold scan_token. do 3 lex_step Hm. simpl. lex_step Hm.
  do 2 lex_step Hm. simpl. do 2 lex_step Hm. simpl. lex_step Hm.
  eapply wp_readStringConst; [exact Hf|exact Hm|]. clear Hm.
  rewrite string_body_quote. simpl. intros a s' Ha Hm. lex_step Hm. apply HQ.
  assert (a = quote l ++ [dquote]) as ->; [|done].
  apply (app_inv_tail rest). by rewrite <- Ha, <- app_assoc.
Qed.
End strings.

(** A scan that finds its token at once. *)
Section first_token.
Context {R : Type} `{LexerReaderLaws R}.

Lemma wp_first_token fuel s c t y tok rest m :
  rd_rep (mReader s) (c :: t) -> 0 < fuel ->
  (forall s0 s1 Q, moved s0 [] (c :: t) "" s1 ->
     (forall s', moved s0 tok rest m s' -> Q (Break y) s') -> wp (scan_token fuel) Q s1) ->
  wp (getSymbolFromFile fuel)
     (fun y' s' => y' = y /\ mMatchString s' = m /\ scanned s [] tok rest s') s.
Proof.
  intros Hr Hf Hscan. unfold getSymbolFromFile, snapshot.
  do 3 (apply wp_bind; apply wp_modify).
  pose proof (looking_start s _ Hr) as (m0 & Hm).
  assert (m0 = "") as -> by (by destruct Hm).
  apply wp_loop_unfold; [done|]. lex_step Hm. lex_step Hm. simpl.
  apply wp_bind, wp_modify.
  pose proof (looking_snapshot s _ _ [] (c :: t) _ (ex_intro _ _ Hm)) as (m' & Hm').
  assert (m' = "") as -> by (destruct Hm, Hm'; simpl in *; congruence).
  eapply Hscan; [exact Hm'|]. intros s' Hs'. split; [done|].
  split; [by destruct Hs'|]. by apply (looking_scanned s [] tok rest m).
Qed.
End first_token.
