(* ===== verification/LexerReplay.v ===== *)
(** The token buffer of [class Lexer] ([src/FileLexer.cpp]): tokens are kept in
    [mSymbolList] with their positions, so the parser can peek, backtrack and
    ask where a token is. *)

From S2P Require Import Prelude SourceLocation Reader Lexer LexerLogic LexerScan LexerSpec.

(** [(size_t)mCurrentPos]: the conversion of an [int]. *)
Definition size_of_int (z : Z) : Z := (z mod 2 ^ 64)%Z.

Definition INT_MAX : Z := 2147483647.

(** [mSymbolList[ i ]]: outside the vector the access is undefined. *)
Definition symbol_at (i : Z) (l : list SymbolInfo) : option SymbolInfo :=
  if decide (0 <= i)%Z then l !! Z.to_nat i else None.

Section replay.
Context {R : Type} `{LexerReader R}.

Definition symbols_size : lex (R := R) Z := gets (fun s : Lexer R => Z.of_nat (length (mSymbolList s))).

(** The trace output of [getSymbolInternal] is not part of the state. *)
Definition getSymbolInternal (fuel : nat) : lex (R := R) Z :=
  pos ← gets mCurrentPos;
  n ← symbols_size;
  if decide (size_of_int pos = n) then
    sym ← getSymbolFromFile fuel;
    modify (fun s : Lexer R => set_symbols (mSymbolList s ++
      [mkSymbolInfo sym (mMatchString s) (mScanLine s) (mScanCol s)]) s);;
    mret sym
  else
    l ← gets mSymbolList;
    match symbol_at pos l with
    | Some info => modify (set_match (symbolText info));; mret (symbol info)
    | None => undefined
    end.

Definition peekSymbol (fuel : nat) : lex (R := R) Z :=
  last ← gets mLastSym;
  if decide (last = (-1)%Z) then
    sym ← getSymbolInternal fuel; modify (set_last sym);; mret sym
  else mret last.

(** [mCurrentPos += 1] on an [int]. *)
Definition next_pos : lex (R := R) unit :=
  pos ← gets mCurrentPos;
  if decide (pos = INT_MAX) then undefined else modify (set_pos (pos + 1)).

Definition getSymbol (fuel : nat) : lex (R := R) Z :=
  last ← gets mLastSym;
  sym ← (if decide (last <> (-1)%Z) then modify (set_last (-1));; mret last
         else getSymbolInternal fuel);
  next_pos;;
  mret sym.

Definition getSymbolText : lex (R := R) string := gets mMatchString.

Definition splitShiftIntoCloseAngles (fuel : nat) : lex (R := R) unit :=
  peekSymbol fuel;;
  pos ← gets mCurrentPos;
  l ← gets mSymbolList;
  if decide (Z.of_nat (length l) <= size_of_int pos)%Z then mret tt
  else
    match symbol_at pos l with
    | None => undefined
    | Some info =>
        if bool_decide (symbol info <> code SHIFT) || bool_decide (symbolText info <> ">>")
        then mret tt
        else
          let first := mkSymbolInfo (char_to_int ">") ">" (info_line info) (info_col info) in
          let second := mkSymbolInfo (char_to_int ">") ">" (info_line info) (u32 (info_col info + 1)) in
          modify (set_symbols (take (Z.to_nat pos) l ++ first :: second :: drop (S (Z.to_nat pos)) l));;
          modify (set_last (-1))
    end.

Definition getCurrentPos : lex (R := R) Z := gets mCurrentPos.

(** The guard is a disjunction: every non-negative position passes it. *)
Definition setCurrentPos (pos : Z) : lex (R := R) unit :=
  n ← symbols_size;
  (if bool_decide (0 <= pos)%Z || bool_decide (size_of_int pos < n)%Z
   then modify (set_pos pos) else modify (set_pos (n - 1)));;
  modify (set_last (-1)).

Definition isEOF : lex (R := R) bool :=
  last ← gets mLastSym;
  if decide (last <> (-1)%Z) then mret false
  else
    pos ← gets mCurrentPos;
    l ← gets mSymbolList;
    if decide (size_of_int pos < Z.of_nat (length l))%Z then
      match symbol_at pos l with
      | Some info => mret (bool_decide (symbol info = (-1)%Z))
      | None => undefined
      end
    else reader_isEOF.

Definition getTokenLocation (fuel : nat) : lex (R := R) SourceLocation :=
  peekSymbol fuel;;
  pos ← gets mCurrentPos;
  l ← gets mSymbolList;
  r ← gets mReader;
  if bool_decide (0 <= pos)%Z && bool_decide (size_of_int pos < Z.of_nat (length l))%Z then
    match symbol_at pos l with
    | Some info => mret (mkLocation (rd_getFileName r) (info_line info) (info_col info))
    | None => undefined
    end
  else mret (mkLocation (rd_getFileName r) (rd_getLine r) (rd_getCol r)).

Definition getLineNumber (fuel : nat) : lex (R := R) Z := l ← getTokenLocation fuel; mret (loc_line l).
Definition getLinePosition (fuel : nat) : lex (R := R) Z := l ← getTokenLocation fuel; mret (loc_col l).

(** The tokens the next [n] calls of [getSymbol] deliver, with their texts. *)
Fixpoint getSymbols (fuel n : nat) : lex (R := R) (list (Z * string)) :=
  match n with
  | 0 => mret []
  | S n => y ← getSymbol fuel; m ← getSymbolText; l ← getSymbols fuel n; mret ((y, m) :: l)
  end.
End replay.

(** * The invariant of the buffer *)
Section invariant.
Context {R : Type} `{LexerReaderLaws R}.

(** The token the cursor stands at, once it has been scanned. *)
Definition current (s : Lexer R) : option SymbolInfo := symbol_at (mCurrentPos s) (mSymbolList s).

(** The reader stands before some text that [fuel] suffices for, the cursor is
    within the buffer or just behind it, and a cached peek is the token at the
    cursor. *)
Record lexer_ok (fuel : nat) (s : Lexer R) : Prop := {
  ok_text : exists t, rd_rep (mReader s) t /\ length t < fuel;
  ok_pos : (0 <= mCurrentPos s <= Z.of_nat (length (mSymbolList s)))%Z;
  ok_size : (Z.of_nat (length (mSymbolList s)) < INT_MAX)%Z;
  ok_last : mLastSym s = (-1)%Z \/
    exists info, current s = Some info /\ symbol info = mLastSym s /\
                 symbolText info = mMatchString s
}.

(** [s'] has buffered at least what [s] has, and has scanned nothing if the
    token at the cursor was in the buffer. *)
Record extends (fuel : nat) (s s' : Lexer R) : Prop := {
  ex_symbols : mSymbolList s `prefix_of` mSymbolList s';
  ex_grow : length (mSymbolList s') <= S (length (mSymbolList s));
  ex_same : is_Some (current s) ->
    mSymbolList s' = mSymbolList s /\ mReader s' = mReader s;
  ex_text : exists t, rd_rep (mReader s') t /\ length t < fuel
}.

Lemma size_of_int_small z : (0 <= z <= INT_MAX)%Z -> size_of_int z = z.
Proof. unfold size_of_int, INT_MAX. intros. apply Z.mod_small. lia. Qed.

Lemma current_none s : (0 <= mCurrentPos s)%Z ->
  current s = None <-> (Z.of_nat (length (mSymbolList s)) <= mCurrentPos s)%Z.
Proof.
  intros Hp. unfold current, symbol_at. rewrite decide_True by done.
  rewrite lookup_ge_None. lia.
Qed.

Lemma current_some s info : (0 <= mCurrentPos s)%Z ->
  current s = Some info <-> mSymbolList s !! Z.to_nat (mCurrentPos s) = Some info.
Proof. intros Hp. unfold current, symbol_at. by rewrite decide_True by done. Qed.

Lemma extends_refl fuel s : lexer_ok fuel s -> extends fuel s s.
Proof. intros []. constructor; try done; lia. Qed.

(** The token at the cursor is in the buffer afterwards, its text is the
    current text and its symbol the result. *)
Lemma wp_getSymbolInternal fuel s :
  lexer_ok fuel s -> mLastSym s = (-1)%Z ->
  wp (getSymbolInternal fuel) (fun y s' => exists info, current s' = Some info /\
    y = symbol info /\ mMatchString s' = symbolText info /\ mLastSym s' = (-1)%Z /\
    mCurrentPos s' = mCurrentPos s /\ extends fuel s s') s.
Proof.
  intros [(t & Ht & Hf) Hp Hs _] Hl. unfold getSymbolInternal, symbols_size.
  apply wp_bind, wp_gets, wp_bind, wp_gets.
  rewrite size_of_int_small by lia.
  destruct (decide (mCurrentPos s = Z.of_nat (length (mSymbolList s)))) as [Hd|Hd].
  - apply wp_bind. eapply wp_getSymbolFromFile; [exact Hf|exact Ht|].
    intros tr tok rest y s' Htt Htr [] _. apply wp_bind, wp_modify, wp_ret.
    exists (mkSymbolInfo y (mMatchString s') (mScanLine s') (mScanCol s')).
    split_and!; [|done|done|done|done|].
    + apply current_some; simpl; [lia|]. rewrite sc_pos, sc_symbols, lookup_app_r by lia.
      by replace (_ - _) with 0 by lia.
    + constructor; simpl.
      * rewrite sc_symbols. by apply prefix_app_r.
      * rewrite sc_symbols, length_app. simpl. lia.
      * intros [info Hi]. assert (current s = None) by (apply current_none; lia). congruence.
      * exists rest. split; [done|]. rewrite Htt, !length_app in Hf. lia.
  - apply wp_bind, wp_gets.
    destruct (symbol_at (mCurrentPos s) (mSymbolList s)) as [info|] eqn:Hi.
    + apply wp_bind, wp_modify, wp_ret. exists info. split_and!; try done.
      constructor; simpl; [done|lia|done|by exists t].
    + exfalso. assert (Z.of_nat (length (mSymbolList s)) <= mCurrentPos s)%Z; [|lia].
      apply current_none; [lia|done].
Qed.

Lemma current_in_buffer s : (0 <= mCurrentPos s)%Z ->
  Z.to_nat (mCurrentPos s) < length (mSymbolList s) -> is_Some (current s).
Proof.
  intros Hp Hl. unfold current, symbol_at. rewrite decide_True by done.
  by apply lookup_lt_is_Some.
Qed.

Lemma extends_grow fuel s s' :
  lexer_ok fuel s -> extends fuel s s' ->
  length (mSymbolList s') <= Nat.max (length (mSymbolList s)) (Z.to_nat (mCurrentPos s) + 1).
Proof.
  intros [] []. destruct (decide (Z.to_nat (mCurrentPos s) < length (mSymbolList s))) as [Hd|Hd]; [|lia].
  destruct ex_same0 as [-> _]; [by apply current_in_buffer; [lia|]|lia].
Qed.

Lemma extends_ok fuel s s' :
  lexer_ok fuel s -> extends fuel s s' ->
  (mCurrentPos s + 1 < INT_MAX)%Z ->
  (0 <= mCurrentPos s' <= Z.of_nat (length (mSymbolList s')))%Z ->
  (mLastSym s' = (-1)%Z \/ exists info, current s' = Some info /\ symbol info = mLastSym s' /\
     symbolText info = mMatchString s') ->
  lexer_ok fuel s'.
Proof.
  intros Hok Hx Hs Hp Hl. pose proof (extends_grow _ _ _ Hok Hx).
  destruct Hok, Hx. constructor; [done|done|lia|done].
Qed.

(** Peeking keeps the cursor and caches the token at it. *)
Lemma wp_peekSymbol fuel s :
  lexer_ok fuel s ->
  wp (peekSymbol fuel) (fun y s' => exists info, current s' = Some info /\
    y = symbol info /\ mMatchString s' = symbolText info /\ mLastSym s' = y /\
    mCurrentPos s' = mCurrentPos s /\ extends fuel s s') s.
Proof.
  intros Hok. unfold peekSymbol. apply wp_bind, wp_gets.
  destruct (decide (mLastSym s = (-1)%Z)) as [Hl|Hl].
  - apply wp_bind. eapply wp_mono; [by apply wp_getSymbolInternal|].
    intros y s' (info & Hi & -> & Ht & _ & Hp & Hx). apply wp_bind, wp_modify, wp_ret.
    exists info. split_and!; try done. by destruct Hx.
  - apply wp_ret. destruct (ok_last _ _ Hok) as [?|(info & Hi & Hy & Ht)]; [done|].
    exists info. split_and!; try done. by apply extends_refl.
Qed.

(** Consuming a token yields the one at the cursor and moves the cursor. *)
Lemma wp_getSymbol fuel s :
  lexer_ok fuel s ->
  wp (getSymbol fuel) (fun y s' => exists info,
    mSymbolList s' !! Z.to_nat (mCurrentPos s) = Some info /\
    y = symbol info /\ mMatchString s' = symbolText info /\ mLastSym s' = (-1)%Z /\
    mCurrentPos s' = (mCurrentPos s + 1)%Z /\ extends fuel s s') s.
Proof.
  intros Hok. pose proof (ok_pos _ _ Hok). pose proof (ok_size _ _ Hok).
  unfold getSymbol, next_pos. apply wp_bind, wp_gets, wp_bind.
  destruct (decide (mLastSym s <> (-1)%Z)) as [Hl|Hl%dec_stable].
  - apply wp_bind, wp_modify, wp_ret, wp_bind, wp_bind, wp_gets. simpl.
    rewrite decide_False by lia. apply wp_modify, wp_ret.
    destruct (ok_last _ _ Hok) as [?|(info & Hi & Hy & Ht)]; [done|].
    exists info. apply current_some in Hi; [|lia]. split_and!; try done.
    pose proof (extends_refl _ _ Hok) as []. by constructor.
  - eapply wp_mono; [by apply wp_getSymbolInternal|].
    intros y s' (info & Hi & -> & Ht & Hl' & Hp & Hx).
    apply wp_bind, wp_bind, wp_gets. simpl. rewrite decide_False by lia.
    apply wp_modify, wp_ret. exists info. rewrite <- Hp.
    apply current_some in Hi; [|lia]. split_and!; try done. by destruct Hx.
Qed.

Definition token_of (info : SymbolInfo) : Z * string := (symbol info, symbolText info).

(** [n] tokens from the cursor on are in the buffer afterwards; if they all
    were before, nothing is scanned. *)
Record delivers (fuel n : nat) (s : Lexer R) (ts : list (Z * string)) (s' : Lexer R) : Prop := {
  dl_tokens : ts = take n (drop (Z.to_nat (mCurrentPos s)) (token_of <$> mSymbolList s'));
  dl_count : length ts = n;
  dl_pos : mCurrentPos s' = (mCurrentPos s + Z.of_nat n)%Z;
  dl_symbols : mSymbolList s `prefix_of` mSymbolList s';
  dl_grow : length (mSymbolList s') <=
    Nat.max (length (mSymbolList s)) (Z.to_nat (mCurrentPos s) + n);
  dl_same : Z.to_nat (mCurrentPos s) + n <= length (mSymbolList s) ->
    mSymbolList s' = mSymbolList s /\ mReader s' = mReader s;
  dl_ok : lexer_ok fuel s'
}.

Lemma wp_getSymbols fuel n : forall s,
  lexer_ok fuel s -> (mCurrentPos s + Z.of_nat n < INT_MAX)%Z ->
  wp (getSymbols fuel n) (delivers fuel n s) s.
Proof.
  induction n as [|n IH]; intros s Hok Hn; simpl.
  { apply wp_ret. constructor; try done; try lia. }
  pose proof (ok_pos _ _ Hok) as Hp.
  apply wp_bind. eapply wp_mono; [by apply wp_getSymbol|].
  intros y s1 (info & Hi & -> & Ht & Hl1 & Hp1 & Hx). pose proof Hx as [Hpre Hgrow Hsame Htext].
  pose proof (lookup_lt_Some _ _ _ Hi) as Hlt.
  pose proof (extends_grow _ _ _ Hok Hx) as Hgrow1.
  assert (lexer_ok fuel s1) as Hok1.
  { eapply extends_ok; [exact Hok|exact Hx|lia|lia|by left]. }
  apply wp_bind, wp_gets, wp_bind. eapply wp_mono; [apply IH; [done|lia]|].
  intros ts s2 []. apply wp_ret.
  assert (token_of <$> mSymbolList s2 !! Z.to_nat (mCurrentPos s) = Some (token_of info)) as Hi2.
  { destruct dl_symbols0 as [k ->]. by rewrite lookup_app_l, Hi by lia. }
  constructor.
  - rewrite <- list_lookup_fmap in Hi2. rewrite (drop_S _ _ _ Hi2). simpl.
    unfold token_of at 1. rewrite Ht, dl_tokens0, Hp1. do 3 f_equal. lia.
  - simpl. by rewrite dl_count0.
  - lia.
  - by etrans.
  - lia.
  - intros Hle. destruct Hsame as [E1 E2]; [apply current_in_buffer; lia|].
    rewrite <- E1, <- E2. apply dl_same0. rewrite E1. lia.
  - done.
Qed.

(** Putting the cursor back to a position it has been at. *)
Lemma wp_setCurrentPos fuel p s (Q : unit -> Lexer R -> Prop) :
  lexer_ok fuel s -> (0 <= p <= Z.of_nat (length (mSymbolList s)))%Z ->
  (forall s', lexer_ok fuel s' -> mCurrentPos s' = p -> mSymbolList s' = mSymbolList s ->
     mReader s' = mReader s -> Q tt s') ->
  wp (setCurrentPos p) Q s.
Proof.
  intros [] Hp HQ. unfold setCurrentPos, symbols_size. apply wp_bind, wp_gets.
  rewrite bool_decide_eq_true_2 by lia. apply wp_bind, wp_modify, wp_modify.
  apply HQ; [|done..]. constructor; simpl; [done|lia|done|by left].
Qed.
End invariant.
