(* ===== verification/LexerTheorems.v ===== *)
(** Properties of the lexer ([src/FileLexer.cpp]) over any lawful character
    source, each with an instance on the in-memory or the file reader. *)

From S2P Require Import Prelude SourceLocation Reader Lexer LexerLogic LexerScan LexerSpec LexerReplay.

(** A lexer over an in-memory text, as the language server builds it. *)
Definition string_lexer (text : string) : Lexer StringReader.StringLexerReader :=
  Lexer_new (StringReader.StringLexerReader_new (chars text) "a.b").

(** A lexer over a file, as the compiler builds it. *)
Definition file_lexer (text : string) : Lexer FileReader.FileLexerReader :=
  Lexer_new (FileReader.LexerReader_new "a.b" (Some (chars text))).

(** C22. The scan of a token is total and lossless: on every text, with fuel
    for its length, [getSymbolFromFile] ends without undefined behaviour,
    having split the text into white space and comments it skipped, the token
    it consumed and the rest it stands before; line and column moved over
    exactly what was consumed, the recorded start is the position of the
    token's first character, the replay buffer is untouched, and no token is
    found only at the end of the text, where the result is -1. *)
Theorem getSymbolFromFile_total_lossless {R} `{LexerReaderLaws R}
  (fuel : nat) (s : Lexer R) (t : list ascii)
  (Hrep : rd_rep (mReader s) t) (Hfuel : length t < fuel) :
  exists y s', getSymbolFromFile fuel s = Done (y, s') /\
    exists tr tok rest, t = tr ++ tok ++ rest /\ trivia tr (tok ++ rest) /\
      scanned s tr tok rest s' /\
      (tok = [] -> rest = [] /\ y = (-1)%Z).
Proof.
  apply wp_done. eapply wp_getSymbolFromFile; [exact Hfuel|exact Hrep|].
  intros tr tok rest y s' Ht Htr Hs He. exists tr, tok, rest. by split_and!.
Qed.

Lemma getSymbolFromFile_total_lossless_witness :
  let s := string_lexer " /*c*/ x+1" in
  exists y s', getSymbolFromFile 20 s = Done (y, s') /\
    exists tr tok rest, chars " /*c*/ x+1" = tr ++ tok ++ rest /\ trivia tr (tok ++ rest) /\
      scanned s tr tok rest s' /\ (tok = [] -> rest = [] /\ y = (-1)%Z).
Proof.
  apply (getSymbolFromFile_total_lossless 20 (string_lexer " /*c*/ x+1"));
    [reflexivity|vm_compute; lia].
Defined.

(** Keyword recognition: a word (a letter or underscore, then letters,
    digits and underscores) that the following text does not continue scans to
    the keyword table's symbol for it, to the wildcard if it is [_], and to an
    identifier otherwise, with the whole word as its text; a word that only
    starts with a keyword is an identifier. *)
Theorem word_scans_to_its_symbol {R} `{LexerReaderLaws R}
  (fuel : nat) (s : Lexer R) (id : string) (rest : list ascii)
  (Hword : is_word id = true) (Hstop : stops isAlphaNum rest)
  (Hrep : rd_rep (mReader s) (chars id ++ rest))
  (Hfuel : length (chars id ++ rest) < fuel) :
  exists s', getSymbolFromFile fuel s = Done (code (word_symbol id), s') /\
    mMatchString s' = id /\ scanned s [] (chars id) rest s'.
Proof.
  destruct id as [|c id]; [done|].
  destruct (wp_done (getSymbolFromFile fuel)
    (fun y' s' => y' = code (word_symbol (String c id)) /\ mMatchString s' = String c id /\
                  scanned s [] (chars (String c id)) rest s') s) as (y & s' & E & -> & Hs); eauto.
  apply (wp_first_token _ _ c (chars id ++ rest)); [done|lia|].
  intros s0 s1 Q Hm HQ. by eapply (wp_scan_word _ _ _ []).
Qed.

Lemma word_scans_to_its_symbol_witness :
  (exists s', getSymbolFromFile 20 (string_lexer "format(") = Done (code SYMBOL, s') /\
    mMatchString s' = "format" /\ scanned (string_lexer "format(") [] (chars "format") ["("%char] s') /\
  (exists s', getSymbolFromFile 20 (string_lexer "for x") = Done (code KEYWORD_FOR, s') /\
    mMatchString s' = "for" /\ scanned (string_lexer "for x") [] (chars "for") (chars " x") s').
Proof.
  split.
  - apply (word_scans_to_its_symbol 20 (string_lexer "format(") "format" ["("%char]);
      [reflexivity|reflexivity|reflexivity|vm_compute; lia].
  - apply (word_scans_to_its_symbol 20 (string_lexer "for x") "for" (chars " x"));
      [reflexivity|reflexivity|reflexivity|vm_compute; lia].
Defined.

(** C23. String constants round trip: the text of any character sequence
    written with the escapes of the language scans back to a string constant
    that denotes exactly those characters, and the scan stops behind the
    closing quote. *)
Theorem string_constant_roundtrip {R} `{LexerReaderLaws R}
  (fuel : nat) (s : Lexer R) (l rest : list ascii)
  (Hrep : rd_rep (mReader s) (dquote :: quote l ++ dquote :: rest))
  (Hfuel : length (dquote :: quote l ++ dquote :: rest) < fuel) :
  exists s', getSymbolFromFile fuel s = Done (code CONSTANT_STRING, s') /\
    mMatchString s' = str l /\ scanned s [] (dquote :: quote l ++ [dquote]) rest s'.
Proof.
  destruct (wp_done (getSymbolFromFile fuel)
    (fun y' s' => y' = code CONSTANT_STRING /\ mMatchString s' = str l /\
                  scanned s [] (dquote :: quote l ++ [dquote]) rest s') s)
    as (y & s' & E & -> & Hs); eauto.
  apply (wp_first_token _ _ dquote (quote l ++ dquote :: rest)); [done|lia|].
  intros s0 s1 Q Hm HQ. by eapply (wp_scan_string _ _ _ []).
Qed.

Lemma string_constant_roundtrip_witness :
  let l := [newline; dquote; backslash; "x"%char] in
  let s := Lexer_new (FileReader.LexerReader_new "a.b"
             (Some (dquote :: quote l ++ dquote :: chars ";"))) in
  exists s', getSymbolFromFile 20 s = Done (code CONSTANT_STRING, s') /\
    mMatchString s' = str l /\ scanned s [] (dquote :: quote l ++ [dquote]) (chars ";") s'.
Proof.
  intros l s. apply (string_constant_roundtrip 20 s l (chars ";")).
  - split; [reflexivity|]. split; [intros _; split; reflexivity|intros E; discriminate E].
  - vm_compute. lia.
Defined.

(** Backtracking replays: after any [n] tokens have been delivered, putting
    the cursor back and asking for [n] tokens again delivers the same symbols
    and texts, without scanning, and leaves the buffer and the reader as they
    were. *)
Theorem backtracking_replays {R} `{LexerReaderLaws R} (fuel n : nat) (s : Lexer R)
  (Hok : lexer_ok fuel s) (Hsize : (mCurrentPos s + Z.of_nat n < INT_MAX)%Z) :
  wp (getSymbols fuel n) (fun ts s1 =>
    length ts = n /\
    wp (setCurrentPos (mCurrentPos s);; getSymbols fuel n) (fun ts' s2 =>
      ts' = ts /\ mCurrentPos s2 = mCurrentPos s1 /\
      mSymbolList s2 = mSymbolList s1 /\ mReader s2 = mReader s1) s1) s.
Proof.
  pose proof (ok_pos _ _ Hok) as Hp.
  eapply wp_mono; [by apply wp_getSymbols|]. intros ts s1 [Hts Hlen Hpos Hpre Hgrow _ Hok1].
  split; [done|]. apply prefix_length in Hpre as Hle. pose proof (ok_pos _ _ Hok1) as Hp1.
  apply wp_bind. eapply wp_setCurrentPos; [exact Hok1|lia|].
  intros s2 Hok2 Hpos2 Hl2 Hr2.
  eapply wp_mono; [apply wp_getSymbols; [done|lia]|]. intros ts2 s3 [Hts2 _ Hpos3 _ _ Hsame _].
  destruct Hsame as [E1 E2]; [rewrite Hl2; lia|].
  split_and!; [|lia|congruence|congruence].
  by rewrite Hts, Hts2, E1, Hl2, Hpos2.
Qed.

Lemma string_lexer_ok fuel text :
  length (chars text) < fuel -> lexer_ok fuel (string_lexer text).
Proof.
  intros Hf. constructor; [by exists (chars text)|simpl; lia|by vm_compute|by left].
Qed.

Lemma backtracking_replays_witness :
  let s := string_lexer "a >> 1 // c" in
  wp (getSymbols 20 4) (fun ts s1 =>
    length ts = 4 /\
    wp (setCurrentPos 0;; getSymbols 20 4) (fun ts' s2 =>
      ts' = ts /\ mCurrentPos s2 = mCurrentPos s1 /\
      mSymbolList s2 = mSymbolList s1 /\ mReader s2 = mReader s1) s1) s.
Proof.
  apply (backtracking_replays 20 4 (string_lexer "a >> 1 // c"));
    [apply string_lexer_ok; vm_compute; lia|vm_compute; reflexivity].
Defined.

(** A token's location is exact: [getTokenLocation] yields, without moving
    the cursor, the file name with the line and column that the buffer holds
    for the very token the next [getSymbol] delivers, also after
    backtracking. *)
Theorem getTokenLocation_is_next_token {R} `{LexerReaderLaws R} (fuel : nat) (s : Lexer R)
  (Hok : lexer_ok fuel s) (Hsize : (mCurrentPos s + 1 < INT_MAX)%Z) :
  wp (getTokenLocation fuel) (fun loc s1 =>
    mCurrentPos s1 = mCurrentPos s /\
    wp (getSymbol fuel) (fun y s2 => exists info,
      mSymbolList s2 = mSymbolList s1 /\
      mSymbolList s2 !! Z.to_nat (mCurrentPos s) = Some info /\
      y = symbol info /\ mMatchString s2 = symbolText info /\
      loc = mkLocation (rd_getFileName (mReader s1)) (info_line info) (info_col info)) s1) s.
Proof.
  pose proof (ok_pos _ _ Hok) as Hp. pose proof (ok_size _ _ Hok) as Hs.
  unfold getTokenLocation. apply wp_bind. eapply wp_mono; [by apply wp_peekSymbol|].
  intros y s1 (info & Hi & -> & Ht & Hl & Hpos & Hx).
  do 3 (apply wp_bind, wp_gets). pose proof Hi as Hi1.
  apply current_some in Hi1; [|lia]. pose proof (lookup_lt_Some _ _ _ Hi1) as Hlt.
  assert (lexer_ok fuel s1) as Hok1.
  { eapply extends_ok; [exact Hok|exact Hx|lia|lia|right; eauto]. }
  rewrite bool_decide_eq_true_2 by lia. pose proof (ok_size _ _ Hok1).
  rewrite bool_decide_eq_true_2 by (rewrite size_of_int_small; lia). simpl.
  change (symbol_at (mCurrentPos s1) (mSymbolList s1)) with (current s1). rewrite Hi.
  apply wp_ret. split; [done|]. eapply wp_mono; [by apply wp_getSymbol|].
  intros y s2 (info2 & Hi2 & -> & Ht2 & Hl2 & Hpos2 & Hx2).
  destruct (ex_same _ _ _ Hx2) as [E _]; [done|]. rewrite E, Hi1 in Hi2. simplify_eq.
  exists info2. rewrite <- Hpos, E. by split_and!.
Qed.

Lemma getTokenLocation_is_next_token_witness :
  let s := string_lexer "
 a" in
  wp (getTokenLocation 20) (fun loc s1 =>
    mCurrentPos s1 = 0%Z /\
    wp (getSymbol 20) (fun y s2 => exists info,
      mSymbolList s2 = mSymbolList s1 /\
      mSymbolList s2 !! 0 = Some info /\
      y = symbol info /\ mMatchString s2 = symbolText info /\
      loc = mkLocation (rd_getFileName (mReader s1)) (info_line info) (info_col info)) s1) s.
Proof.
  apply (getTokenLocation_is_next_token 20 (string_lexer "
 a"));
    [apply string_lexer_ok; vm_compute; lia|vm_compute; reflexivity].
Defined.

(** End of input is sound: when [isEOF] answers true, the token at the
    cursor is the end-of-file symbol, also when the cursor was put back into
    the buffer. *)
Theorem isEOF_sound {R} `{LexerReaderLaws R} (fuel : nat) (s : Lexer R)
  (Hok : lexer_ok fuel s) :
  wp isEOF (fun b s1 => b = true -> wp (peekSymbol fuel) (fun y _ => y = (-1)%Z) s1) s.
Proof.
  pose proof (ok_pos _ _ Hok) as Hp. pose proof (ok_size _ _ Hok) as Hs.
  unfold isEOF. apply wp_bind, wp_gets.
  destruct (decide (mLastSym s <> (-1)%Z)) as [Hl|Hl%dec_stable]; [by apply wp_ret|].
  do 2 apply wp_bind, wp_gets. rewrite size_of_int_small by lia.
  destruct (decide (mCurrentPos s < Z.of_nat (length (mSymbolList s)))%Z) as [Hd|Hd].
  - destruct (current_in_buffer s) as [info Hi]; [lia..|].
    change (symbol_at (mCurrentPos s) (mSymbolList s)) with (current s).
    rewrite Hi. apply wp_ret. intros Hb%bool_decide_eq_true_1.
    eapply wp_mono; [by apply wp_peekSymbol|].
    intros y s1 (info' & Hi' & -> & _ & _ & Hpos & Hx).
    destruct (ex_same _ _ _ Hx) as [E _]; [done|].
    unfold current in *. rewrite E, Hpos, Hi in Hi'. by simplify_eq.
  - destruct Hok as [(t & Ht & Hf) _ _ _].
    pose proof (moved_refl _ _ Ht) as Hm. eapply wp_isEOF; [exact Hm|].
    intros s1 Hm1 ->%bool_decide_eq_true_1. unfold peekSymbol, getSymbolInternal, symbols_size.
    destruct Hm1 as [Hr _ _ _ _ Hl1 _ Hsy Hpo].
    apply wp_bind, wp_gets. rewrite Hl1, decide_True by done.
    do 2 apply wp_bind. apply wp_gets, wp_bind, wp_gets.
    rewrite Hpo, Hsy, size_of_int_small, decide_True by lia.
    apply wp_bind. eapply wp_getSymbolFromFile; [exact Hf|exact Hr|].
    intros tr tok rest y s2 E _ _ Hy.
    symmetry in E. apply app_nil in E as [_ [-> _]%app_nil].
    destruct Hy as [_ ->]; [done|]. by apply wp_bind, wp_modify, wp_ret, wp_bind, wp_modify, wp_ret.
Qed.

Lemma isEOF_sound_witness :
  wp isEOF (fun b s1 => b = true -> wp (peekSymbol 5) (fun y _ => y = (-1)%Z) s1) (string_lexer "").
Proof. apply (isEOF_sound 5 (string_lexer "")). apply string_lexer_ok. vm_compute. lia. Defined.

(** Splitting [>>]: when the token at the cursor is the shift [>>],
    [splitShiftIntoCloseAngles] replaces exactly that buffer entry by two [>]
    tokens in adjacent columns, which the next two calls of [getSymbol]
    deliver without scanning. *)
Theorem splitShift_two_angles {R} `{LexerReaderLaws R} (fuel : nat) (s : Lexer R)
  (line col : Z) (l1 l2 : list SymbolInfo)
  (Hok : lexer_ok fuel s)
  (Hbuf : mSymbolList s = l1 ++ mkSymbolInfo (code SHIFT) ">>" line col :: l2)
  (Hpos : mCurrentPos s = Z.of_nat (length l1))
  (Hsize : (Z.of_nat (S (length (mSymbolList s))) < INT_MAX)%Z) :
  wp (splitShiftIntoCloseAngles fuel;; getSymbols fuel 2) (fun ts s' =>
    ts = [(char_to_int ">", ">"); (char_to_int ">", ">")] /\
    mSymbolList s' = l1 ++ mkSymbolInfo (char_to_int ">") ">" line col ::
                          mkSymbolInfo (char_to_int ">") ">" line (u32 (col + 1)) :: l2 /\
    mReader s' = mReader s /\ mCurrentPos s' = (mCurrentPos s + 2)%Z) s.
Proof.
  pose proof (ok_pos _ _ Hok) as Hp. pose proof (ok_size _ _ Hok) as Hs.
  assert (current s = Some (mkSymbolInfo (code SHIFT) ">>" line col)) as Hc.
  { apply current_some; [lia|]. rewrite Hbuf, Hpos, Nat2Z.id. by apply list_lookup_middle. }
  unfold splitShiftIntoCloseAngles. do 2 apply wp_bind.
  eapply wp_mono; [by apply wp_peekSymbol|].
  intros y s1 (info & Hi & -> & _ & _ & Hpos1 & Hx). pose proof Hx as [_ _ Hsame Htext].
  destruct Hsame as [E Er]; [done|]. do 2 apply wp_bind, wp_gets.
  change (symbol_at (mCurrentPos s1) (mSymbolList s1)) with (current s1). rewrite Hi.
  assert (current s1 = current s) as Ecur by (unfold current; by rewrite Hpos1, E).
  rewrite Hi, Hc in Ecur. injection Ecur as ->.
  pose proof Hp as Hp'. rewrite Hbuf, length_app in Hp'. simpl in Hp'.
  rewrite decide_False
    by (rewrite size_of_int_small by lia; rewrite E, Hbuf, length_app; simpl; lia).
  simpl. apply wp_bind, wp_modify, wp_modify.
  rewrite E, Hbuf, Hpos1, Hpos, Nat2Z.id, take_app_length.
  replace (drop (S (length l1)) _) with l2
    by (rewrite cons_middle, app_assoc, drop_app_length' by (rewrite length_app; simpl; lia); done).
  match goal with |- wp _ _ ?x => set (s2 := x) end.
  assert (lexer_ok fuel s2) as Hok2.
  { rewrite Hbuf, length_app in Hsize. simpl in Hsize.
    constructor; simpl; rewrite ?length_app; simpl; [done|lia|lia|by left]. }
  eapply wp_mono; [apply (wp_getSymbols fuel 2); [exact Hok2|]|].
  { simpl. rewrite Hbuf, length_app in Hsize. simpl in Hsize. lia. }
  intros ts s3 [Hts _ Hpos3 _ _ Hsame3 _].
  destruct Hsame3 as [E3 Er3]; [simpl; rewrite length_app; simpl; lia|].
  split_and!; [|done|by rewrite Er3|simpl in *; lia].
  rewrite Hts, E3. simpl. rewrite Hpos1, Hpos, Nat2Z.id, fmap_app.
  by rewrite drop_app_length' by (symmetry; apply length_fmap).
Qed.

Lemma splitShift_two_angles_witness :
  let tok y m k := mkSymbolInfo y m 1 k in
  let s := set_symbols [tok 5%Z "x" 1%Z; tok (code SHIFT) ">>" 2%Z; tok 59%Z "" 4%Z]
             (set_pos 1 (string_lexer "")) in
  wp (splitShiftIntoCloseAngles 5;; getSymbols 5 2) (fun ts s' =>
    ts = [(char_to_int ">", ">"); (char_to_int ">", ">")] /\
    mSymbolList s' = [tok 5%Z "x" 1%Z] ++ tok (char_to_int ">") ">" 2%Z ::
                       tok (char_to_int ">") ">" (u32 (2 + 1)) :: [tok 59%Z "" 4%Z] /\
    mReader s' = mReader s /\ mCurrentPos s' = (1 + 2)%Z) s.
Proof.
  intros tok s. apply (splitShift_two_angles 5 s 1 2 [tok 5%Z "x" 1%Z] [tok 59%Z "" 4%Z]).
  - constructor; [exists []; split; [reflexivity|simpl; lia]|simpl; lia|by vm_compute|by left].
  - reflexivity.
  - reflexivity.
  - vm_compute. reflexivity.
Defined.
