(* ===== verification/Diagnostics.v ===== *)
(** The diagnostic collector ([src/DiagnosticEngine.h],
    [src/DiagnosticEngine.cpp]) and the compile error it adapts
    ([src/CompilerHelpers.h]): reports are buffered with duplicates dropped and
    a cap, and rendered once as text or as a JSON array. *)

From stdpp Require Import pretty.
From S2P Require Import Prelude SourceLocation.

Inductive Severity := Warning | Error.

#[export] Instance Severity_eq_dec : EqDecision Severity.
Proof. solve_decision. Defined.

Record Note := mkNote {
  note_location : SourceLocation;
  note_message : string
}.

Record Diagnostic := mkDiagnostic {
  severity : Severity;
  location : SourceLocation;
  message : string;
  diag_code : string;
  notes : list Note
}.

Record CompileError := mkCompileError {
  mLocation : SourceLocation;
  mMessage : string;
  mInternalFile : string;
  mInternalLine : Z
}.

(** [mOut] is what has been written to the output stream. *)
Record DiagnosticEngine := mkEngine {
  mOut : string;
  mDiags : list Diagnostic;
  mDebugCompiler : bool;
  mJson : bool;
  mWerror : bool;
  mFinished : bool;
  mTruncated : bool;
  mDebugTail : string
}.

Definition DiagnosticEngine_new : DiagnosticEngine :=
  mkEngine "" [] false false false false false "".

Definition kMaxDiags : nat := 50.

Section setters.
Variable e : DiagnosticEngine.
Definition set_out (o : string) : DiagnosticEngine :=
  mkEngine o (mDiags e) (mDebugCompiler e) (mJson e) (mWerror e) (mFinished e) (mTruncated e)
    (mDebugTail e).
Definition set_diags (l : list Diagnostic) : DiagnosticEngine :=
  mkEngine (mOut e) l (mDebugCompiler e) (mJson e) (mWerror e) (mFinished e) (mTruncated e)
    (mDebugTail e).
Definition set_truncated : DiagnosticEngine :=
  mkEngine (mOut e) (mDiags e) (mDebugCompiler e) (mJson e) (mWerror e) (mFinished e) true
    (mDebugTail e).
Definition set_finished : DiagnosticEngine :=
  mkEngine (mOut e) (mDiags e) (mDebugCompiler e) (mJson e) (mWerror e) true (mTruncated e)
    (mDebugTail e).
Definition set_tail (t : string) : DiagnosticEngine :=
  mkEngine (mOut e) (mDiags e) (mDebugCompiler e) (mJson e) (mWerror e) (mFinished e)
    (mTruncated e) t.
Definition setDebugCompiler (b : bool) : DiagnosticEngine :=
  mkEngine (mOut e) (mDiags e) b (mJson e) (mWerror e) (mFinished e) (mTruncated e) (mDebugTail e).
Definition setJson (b : bool) : DiagnosticEngine :=
  mkEngine (mOut e) (mDiags e) (mDebugCompiler e) b (mWerror e) (mFinished e) (mTruncated e)
    (mDebugTail e).
Definition setWerror (b : bool) : DiagnosticEngine :=
  mkEngine (mOut e) (mDiags e) (mDebugCompiler e) (mJson e) b (mFinished e) (mTruncated e)
    (mDebugTail e).
End setters.

(** Same file, line, column and class: the engine keeps one of them. *)
Definition same_report (a b : Diagnostic) : bool :=
  bool_decide (loc_file (location a) = loc_file (location b)) &&
  bool_decide (loc_line (location a) = loc_line (location b)) &&
  bool_decide (loc_col (location a) = loc_col (location b)) &&
  bool_decide (diag_code a = diag_code b).

Definition report (diag : Diagnostic) (e : DiagnosticEngine) : DiagnosticEngine :=
  if existsb (fun existing => same_report existing diag) (mDiags e) then e
  else if decide (kMaxDiags <= length (mDiags e)) then set_truncated e
  else set_diags e (mDiags e ++ [diag]).

Definition error (loc : SourceLocation) (msg : string) (e : DiagnosticEngine) : DiagnosticEngine :=
  report (mkDiagnostic Error loc msg "sema" []) e.

Definition warning (loc : SourceLocation) (msg code : string) (e : DiagnosticEngine) :
  DiagnosticEngine :=
  report (mkDiagnostic Warning loc msg code []) e.

Definition reportCompileError (err : CompileError) (e : DiagnosticEngine) : DiagnosticEngine :=
  let e := report (mkDiagnostic Error (mLocation err) (mMessage err) "syntax" []) e in
  if mDebugCompiler e && bool_decide (mDebugTail e = "")
  then set_tail e ("[debug] thrown at " +:+ mInternalFile err +:+ ":" +:+ pretty (mInternalLine err))
  else e.

Definition effectiveSeverity (d : Diagnostic) (e : DiagnosticEngine) : Severity :=
  if mWerror e && bool_decide (severity d = Warning) then Error else severity d.

Definition hasErrors (e : DiagnosticEngine) : bool :=
  existsb (fun d => bool_decide (effectiveSeverity d e = Error)) (mDiags e).

Definition diagnosticCount (e : DiagnosticEngine) : nat := length (mDiags e).

Definition severityLabel (s : Severity) : string :=
  match s with Error => "error" | Warning => "warning" end.

(** * Rendering *)

(** [snprintf( "%04x" )] of a character below 32. *)
Definition hex_digit (n : N) : ascii :=
  if decide (n < 10)%N then ascii_of_N (48 + n) else ascii_of_N (87 + n).

Definition unicode_escape (c : ascii) : list ascii :=
  let n := N_of_ascii c in
  [backslash; "u"; hex_digit (n / 4096); hex_digit (n / 256 mod 16);
   hex_digit (n / 16 mod 16); hex_digit (n mod 16)]%char.

Definition jsonEscape_char (c : ascii) : list ascii :=
  match c with
  | "034"%char => [backslash; dquote]
  | "\"%char => [backslash; backslash]
  | "010"%char => [backslash; "n"%char]
  | "013"%char => [backslash; "r"%char]
  | "009"%char => [backslash; "t"%char]
  | _ => if decide (N_of_ascii c < 32)%N then unicode_escape c else [c]
  end.

Fixpoint jsonEscape_chars (l : list ascii) : list ascii :=
  match l with [] => [] | c :: l' => jsonEscape_char c ++ jsonEscape_chars l' end.

Definition jsonEscape (s : string) : string := str (jsonEscape_chars (chars s)).

Definition endl : string := String newline "".

Definition show_location (l : SourceLocation) : string :=
  loc_file l +:+ ":" +:+ pretty (loc_line l) +:+ ":" +:+ pretty (loc_col l).

Definition human_note (n : Note) : string :=
  show_location (note_location n) +:+ ": note: " +:+ note_message n +:+ endl.

Definition human_diagnostic (d : Diagnostic) : string :=
  show_location (location d) +:+ ": " +:+ severityLabel (severity d) +:+ ": " +:+ message d +:+
  endl +:+ String.concat "" (human_note <$> notes d).

Definition renderHuman (e : DiagnosticEngine) : DiagnosticEngine :=
  set_out e (mOut e +:+ String.concat "" (human_diagnostic <$> mDiags e) +:+
    (if mTruncated e then "note: too many diagnostics; further reports suppressed" +:+ endl else "") +:+
    (if decide (mDebugTail e = "") then "" else mDebugTail e +:+ endl)).

(** A string between double quotes. *)
Definition dq (s : string) : string := String dquote s +:+ String dquote "".

Definition json_diagnostic (d : Diagnostic) : string :=
  "{" +:+ dq "severity" +:+ ":" +:+ dq (severityLabel (severity d)) +:+ "," +:+
  dq "file" +:+ ":" +:+ dq (jsonEscape (loc_file (location d))) +:+ "," +:+
  dq "line" +:+ ":" +:+ pretty (loc_line (location d)) +:+ "," +:+
  dq "col" +:+ ":" +:+ pretty (loc_col (location d)) +:+ "," +:+
  dq "message" +:+ ":" +:+ dq (jsonEscape (message d)) +:+ "," +:+
  dq "code" +:+ ":" +:+ dq (jsonEscape (diag_code d)) +:+ "}".

Definition renderJson (e : DiagnosticEngine) : DiagnosticEngine :=
  set_out e (mOut e +:+ "[" +:+ String.concat "," (json_diagnostic <$> mDiags e) +:+ "]" +:+ endl).

Definition finish (e : DiagnosticEngine) : DiagnosticEngine :=
  if mFinished e then e
  else
    let e := set_finished e in
    if mJson e then renderJson e else renderHuman e.

(** * Specification of the buffer *)

Definition report_key (d : Diagnostic) : SourceLocation * string := (location d, diag_code d).

Lemma same_report_key a b : same_report a b = bool_decide (report_key a = report_key b).
Proof.
  unfold same_report, report_key. destruct (location a) as [f l k], (location b) as [f' l' k'].
  simpl. apply eq_bool_prop_intro. rewrite !andb_True, !bool_decide_spec.
  split; [by intros [[[-> ->] ->] ->]|by intros [= -> -> -> ->]].
Qed.

(** The first report of each key, in order. *)
Fixpoint distinct (l : list Diagnostic) : list Diagnostic :=
  match l with
  | [] => []
  | d :: l' => d :: filter (fun x => report_key x <> report_key d) (distinct l')
  end.

Lemma distinct_key d l : report_key d ∈ report_key <$> distinct l <-> report_key d ∈ report_key <$> l.
Proof.
  induction l as [|x l IH]; [done|]. simpl distinct. rewrite !fmap_cons, !elem_of_cons.
  destruct (decide (report_key d = report_key x)) as [->|Hne]; [tauto|].
  rewrite <- IH. rewrite !list_elem_of_fmap. split; (intros [?|(y & Hy & Hin)]; [done|right]).
  - apply list_elem_of_filter in Hin as [_ Hin]. eauto.
  - exists y. split; [done|]. apply list_elem_of_filter. split; [congruence|done].
Qed.

Lemma distinct_snoc l d :
  distinct (l ++ [d]) =
    if decide (report_key d ∈ report_key <$> l) then distinct l else distinct l ++ [d].
Proof.
  induction l as [|x l IH].
  { by rewrite decide_False by (apply not_elem_of_nil). }
  cbn [app distinct]. rewrite IH, fmap_cons.
  destruct (decide (report_key d ∈ report_key x :: (report_key <$> l))) as [Hin|Hin];
    rewrite elem_of_cons in Hin; case_decide as Hl; try tauto.
  - destruct Hin as [Hx|Hin]; [|done]. rewrite filter_app, filter_cons_False by (intros Hn; by apply Hn).
    by rewrite filter_nil, app_nil_r.
  - rewrite filter_app, filter_cons_True by tauto. by rewrite filter_nil.
Qed.

Lemma NoDup_distinct l : NoDup (report_key <$> distinct l).
Proof.
  induction l as [|x l IH]; simpl; [constructor|]. constructor.
  - rewrite list_elem_of_fmap. intros (y & Hy & Hin).
    apply list_elem_of_filter in Hin as [Hne _]. by apply Hne.
  - eapply sublist_NoDup; [exact IH|]. apply fmap_sublist, sublist_filter.
Qed.

Lemma existsb_same_report d l :
  existsb (fun x => same_report x d) l = bool_decide (report_key d ∈ report_key <$> l).
Proof.
  induction l as [|x l IH]; [done|]. simpl. rewrite IH, same_report_key.
  apply eq_bool_prop_intro. rewrite orb_True, !bool_decide_spec, elem_of_cons. intuition congruence.
Qed.

Definition report_all (l : list Diagnostic) (e : DiagnosticEngine) : DiagnosticEngine :=
  foldl (fun e d => report d e) e l.

(** The buffer represents the sequence [l] of reports. *)
Definition buffers (l : list Diagnostic) (e : DiagnosticEngine) : Prop :=
  mDiags e = take kMaxDiags (distinct l) /\
  mTruncated e = bool_decide (kMaxDiags < length (distinct l)).

Lemma buffers_report l d e : buffers l e -> buffers (l ++ [d]) (report d e).
Proof.
  intros [Hd Ht]. unfold report. rewrite existsb_same_report, Hd.
  unfold buffers. rewrite distinct_snoc.
  destruct (decide (report_key d ∈ report_key <$> take kMaxDiags (distinct l))) as [Hin|Hin].
  - rewrite bool_decide_eq_true_2 by done. rewrite decide_True; [done|].
    rewrite <- distinct_key, <- (take_drop kMaxDiags (distinct l)), fmap_app. apply elem_of_app; by left.
  - rewrite bool_decide_eq_false_2 by done. rewrite length_take.
    destruct (decide (kMaxDiags <= _ `min` _)) as [Hc|Hc].
    + cbn [mDiags mTruncated set_truncated]. rewrite Hd. destruct (decide (report_key d ∈ report_key <$> l)) as [Hl|Hl].
      * split; [done|]. symmetry. apply bool_decide_eq_true_2.
        apply distinct_key in Hl. destruct (decide (kMaxDiags < length (distinct l))); [done|].
        contradict Hin. by rewrite take_ge by lia.
      * rewrite take_app_le by lia. split; [done|]. symmetry. apply bool_decide_eq_true_2.
        rewrite length_app. simpl. lia.
    + cbn [mDiags mTruncated set_diags]. rewrite Ht. rewrite take_ge in Hin |- * by lia.
      rewrite decide_False by (by rewrite <- distinct_key).
      rewrite take_ge by (rewrite length_app; simpl; lia).
      split; [done|]. rewrite !bool_decide_eq_false_2; [done|rewrite length_app; simpl; lia|lia].
Qed.

Lemma buffers_report_all l2 : forall l1 e, buffers l1 e -> buffers (l1 ++ l2) (report_all l2 e).
Proof.
  induction l2 as [|d l2 IH]; intros l1 e Hb; simpl; [by rewrite app_nil_r|].
  rewrite cons_middle, app_assoc. by apply IH, buffers_report.
Qed.

(** Reports never change the modes, the output or the severity rule. *)
Lemma report_frame d e :
  mWerror (report d e) = mWerror e /\ mJson (report d e) = mJson e /\
  mFinished (report d e) = mFinished e /\ mOut (report d e) = mOut e /\
  mDebugCompiler (report d e) = mDebugCompiler e /\ mDebugTail (report d e) = mDebugTail e.
Proof. unfold report. repeat case_match; done. Qed.

Lemma report_diags_prefix d e : mDiags e `prefix_of` mDiags (report d e).
Proof. unfold report. repeat case_match; simpl; [done|done|by apply prefix_app_r]. Qed.

(** * Specification of the JSON escapes: how a JSON reader decodes them *)

Definition hex_value (c : ascii) : N :=
  let n := N_of_ascii c in if decide (n < 58)%N then (n - 48)%N else (n - 87)%N.

Fixpoint json_unescape (fuel : nat) (l : list ascii) : option (list ascii) :=
  match fuel, l with
  | _, [] => Some []
  | 0, _ => None
  | S fuel, c :: l' =>
      if decide (c = backslash) then
        match l' with
        | "n"%char :: r => cons newline <$> json_unescape fuel r
        | "r"%char :: r => cons (ascii_of_N 13) <$> json_unescape fuel r
        | "t"%char :: r => cons tab <$> json_unescape fuel r
        | "u"%char :: a :: b :: d :: e :: r =>
            cons (ascii_of_N (hex_value a * 4096 + hex_value b * 256 + hex_value d * 16 + hex_value e))
              <$> json_unescape fuel r
        | x :: r => if decide (x = dquote \/ x = backslash) then cons x <$> json_unescape fuel r
                    else None
        | [] => None
        end
      else if decide (c = dquote \/ N_of_ascii c < 32)%N then None
      else cons c <$> json_unescape fuel l'
  end.

Lemma json_unescape_char fuel c r :
  json_unescape (S fuel) (jsonEscape_char c ++ r) = cons c <$> json_unescape fuel r.
Proof. destruct c as [[] [] [] [] [] [] [] []]; done. Qed.

Lemma json_unescape_chars l : forall fuel, length l <= fuel ->
  json_unescape fuel (jsonEscape_chars l) = Some l.
Proof.
  induction l as [|c l IH]; intros [|fuel] Hf; simpl in Hf; try lia; try done.
  change (jsonEscape_chars (c :: l)) with (jsonEscape_char c ++ jsonEscape_chars l).
  rewrite json_unescape_char, IH by lia. done.
Qed.

(** * Properties *)

(** C24. The buffer is exactly the specification: whatever is reported to a
    fresh engine, it holds the first report of every (file, line, column,
    class), in order, cut off after fifty, and it is marked truncated exactly
    when something was cut off. *)
Theorem report_all_spec (l : list Diagnostic) :
  let e := report_all l DiagnosticEngine_new in
  mDiags e = take kMaxDiags (distinct l) /\
  mTruncated e = bool_decide (kMaxDiags < length (distinct l)) /\
  NoDup (report_key <$> mDiags e) /\ length (mDiags e) <= kMaxDiags.
Proof.
  intros e. destruct (buffers_report_all l [] DiagnosticEngine_new) as [Hd Ht]; [done|].
  fold e in Hd, Ht. simpl in Hd, Ht.
  split_and!; [exact Hd|exact Ht| |].
  - rewrite Hd. eapply sublist_NoDup; [apply (NoDup_distinct l)|].
    apply fmap_sublist, sublist_take.
  - rewrite Hd, length_take. lia.
Qed.

(** The exit status: as long as nothing was cut off, [hasErrors] answers
    true exactly when some reported diagnostic that was kept is an error, or,
    under -Werror, when anything was reported at all. *)
Theorem hasErrors_spec (l : list Diagnostic) (werror : bool)
  (Hroom : length (distinct l) <= kMaxDiags) :
  hasErrors (report_all l (setWerror DiagnosticEngine_new werror)) = true <->
  if werror then l <> [] else Exists (fun d => severity d = Error) (distinct l).
Proof.
  set (e := report_all l _).
  assert (buffers l e) as [Hd _] by (by apply (buffers_report_all l [])).
  assert (mWerror e = werror) as Hw.
  { subst e. clear Hd Hroom. generalize (eq_refl : mWerror (setWerror DiagnosticEngine_new werror) = werror).
    generalize (setWerror DiagnosticEngine_new werror). induction l as [|d l IH]; intros e He; [done|].
    apply IH. by destruct (report_frame d e) as [-> _]. }
  rewrite take_ge in Hd by done. unfold hasErrors. rewrite Hd, existsb_exists.
  unfold effectiveSeverity. rewrite Hw. destruct werror; simpl.
  - split; [intros (d & Hin & _) ->; done|]. intros Hl. destruct l as [|d l]; [done|].
    exists d. split; [by left|]. by destruct (severity d).
  - rewrite Exists_exists. split; intros (d & Hin & Hs); exists d.
    + split; [by apply list_elem_of_In|]. by apply bool_decide_eq_true_1 in Hs.
    + split; [by apply list_elem_of_In|]. by rewrite Hs.
Qed.

Lemma hasErrors_spec_witness :
  let d s k := mkDiagnostic s (mkLocation "a.b" 1 k) "m" "c" [] in
  hasErrors (report_all [d Warning 1%Z; d Error 2%Z] (setWerror DiagnosticEngine_new false)) = true <->
  Exists (fun d => severity d = Error) (distinct [d Warning 1%Z; d Error 2%Z]).
Proof.
  intros d. apply (hasErrors_spec [d Warning 1%Z; d Error 2%Z] false). vm_compute. lia.
Defined.

(** Rendering happens once: after [finish], any further reports and calls
    of [finish] write nothing more. *)
Theorem finish_idempotent (l : list Diagnostic) (e : DiagnosticEngine) :
  mOut (finish (report_all l (finish e))) = mOut (finish e).
Proof.
  assert (mFinished (finish e) = true) as Hf by (unfold finish; repeat case_match; done).
  revert Hf. generalize (finish e). induction l as [|d l IH]; intros e1 Hf; simpl.
  - unfold finish. by rewrite Hf.
  - destruct (report_frame d e1) as (_ & _ & Hfin & Hout & _). rewrite IH by congruence. done.
Qed.

(** JSON escaping loses nothing: a JSON reader decodes the escaped form of
    every byte string to that string, and rejects none (so no raw quote or
    control character is left in it). *)
Theorem jsonEscape_roundtrip (s : string) :
  json_unescape (String.length s) (chars (jsonEscape s)) = Some (chars s).
Proof.
  unfold jsonEscape. rewrite chars_str. apply json_unescape_chars.
  unfold chars. induction s as [|c s IH]; simpl; lia.
Qed.
