(* ===== verification/Ast.v ===== *)
(** The syntax tree the parser hands to the semantic pass and to code
    generation ([src/Type.h], [src/Expression.h]).

    A definition that other nodes point to carries an identity ([vid], [fid],
    [s_id], [e_id], [p_id]); what the passes mutate through such a pointer (a
    variable's type, an expression's resolved type) is kept in stores keyed by
    it, so that every alias sees the change.  A pointer the code tests for null is an [option]. *)

From Stdlib Require Export Floats.SpecFloat.
From S2P Require Import Prelude SourceLocation.

(** * Types *)

(** [class Type]: a name with type arguments; [class FunctionType] derives from
    it with the name ["fn"]. *)
Inductive Ty :=
  | Type_ (name : string) (params : list Ty)
  | FunctionType (ret : option Ty) (params : list Ty).

Definition ty_name (t : Ty) : string :=
  match t with Type_ n _ => n | FunctionType _ _ => "fn" end.

(** Induction over the type arguments of a type. *)
Lemma Ty_args_ind (P : Ty -> Prop) :
  (forall name params, Forall P params -> P (Type_ name params)) ->
  (forall ret params, P (FunctionType ret params)) -> forall t, P t.
Proof.
  intros HT HF. fix IH 1. intros [name params|ret params]; [|apply HF].
  apply HT. induction params as [|p params IHp]; constructor; [apply IH|exact IHp].
Qed.

(** The type arguments; a function type has none. *)
Definition ty_params (t : Ty) : list Ty :=
  match t with Type_ _ ps => ps | FunctionType _ _ => [] end.

Definition getNumTypeParams (t : Ty) : nat := length (ty_params t).
Definition getTypeParam (t : Ty) (i : nat) : option Ty := ty_params t !! i.

(** * Definitions *)

Inductive OwnershipQualifier :=
  | kOwnership_Value | kOwnership_Own | kOwnership_Shared | kOwnership_Sync.

#[export] Instance OwnershipQualifier_eq_dec : EqDecision OwnershipQualifier.
Proof. solve_decision. Defined.

(** [class VariableDefinition] without its type, which the semantic pass
    assigns: [vid] is the key of the type store. *)
Record VariableDefinition := mkVariable {
  vid : nat;
  v_name : string;
  v_location : SourceLocation;
  v_const : bool;
  v_ownership : OwnershipQualifier
}.

#[export] Instance VariableDefinition_eq_dec : EqDecision VariableDefinition.
Proof. solve_decision. Defined.

Record GenericParam := mkGenericParam {
  gp_name : string;
  gp_constraint : string
}.

Record AnnotationNode := mkAnnotation {
  ann_name : string;
  ann_args : list string
}.

(** [class FunctionDefinition] without its body and contract clauses, which are
    found under [fid] in the module. *)
Record FunctionDefinition := mkFunction {
  fid : nat;
  f_name : string;
  f_location : SourceLocation;
  f_return : option Ty;
  f_params : list VariableDefinition;
  f_extern : bool;
  f_variadic : bool;
  f_public : bool;
  f_async : bool;
  f_builtin : bool;
  f_static : bool;
  f_init : bool;
  f_generics : list GenericParam;
  f_annotations : list AnnotationNode
}.

Definition isGeneric_function (f : FunctionDefinition) : bool :=
  bool_decide (f_generics f <> []).

Record StructDefinition := mkStruct {
  s_id : nat;
  s_name : string;
  s_location : SourceLocation;
  s_fields : list VariableDefinition;
  s_methods : list FunctionDefinition;
  s_init : option FunctionDefinition;
  s_generics : list GenericParam;
  s_annotations : list AnnotationNode;
  s_public : bool;
  s_table : bool;
  s_from_interface : bool;
  s_conformed : list string;
  s_defining_file : string;
  s_digest : string
}.

(** [StructDefinition::addConformedProtocol]. *)
Definition addConformedProtocol (name : string) (sd : StructDefinition) : StructDefinition :=
  if decide (name ∈ s_conformed sd) then sd
  else mkStruct (s_id sd) (s_name sd) (s_location sd) (s_fields sd) (s_methods sd) (s_init sd)
         (s_generics sd) (s_annotations sd) (s_public sd) (s_table sd) (s_from_interface sd)
         (s_conformed sd ++ [name]) (s_defining_file sd) (s_digest sd).

Record Variant := mkVariant {
  variant_name : string;
  variant_types : list Ty;
  variant_location : SourceLocation
}.

Record EnumDefinition := mkEnum {
  e_id : nat;
  e_name : string;
  e_location : SourceLocation;
  e_variants : list Variant;
  e_generics : list GenericParam;
  e_public : bool;
  e_annotations : list AnnotationNode
}.

(** The built-in [Option<T>] and [Result<T, E>]. *)
Definition CreateBuiltinOption (id : nat) : EnumDefinition :=
  mkEnum id "Option" no_location
    [mkVariant "some" [Type_ "T" []] no_location; mkVariant "none" [] no_location]
    [mkGenericParam "T" ""] true [].

Definition CreateBuiltinResult (id : nat) : EnumDefinition :=
  mkEnum id "Result" no_location
    [mkVariant "ok" [Type_ "T" []] no_location; mkVariant "err" [Type_ "E" []] no_location]
    [mkGenericParam "T" ""; mkGenericParam "E" ""] true [].

Record ProtocolDefinition := mkProtocol {
  p_id : nat;
  p_name : string;
  p_location : SourceLocation;
  p_methods : list FunctionDefinition;
  p_generics : list GenericParam;
  p_public : bool
}.

(** A built-in protocol is exported by definition. *)
Definition CreateBuiltin_protocol (id : nat) (name : string) (methods : list FunctionDefinition) :
  ProtocolDefinition :=
  mkProtocol id name no_location methods [] true.

(** The classes derived from [class Symbol]. *)
Inductive Symbol :=
  | SymVariable (v : VariableDefinition)
  | SymFunction (f : FunctionDefinition)
  | SymStruct (s : StructDefinition)
  | SymEnum (e : EnumDefinition)
  | SymProtocol (p : ProtocolDefinition).

Inductive SymbolType := TypeVariable | TypeFunction.

#[export] Instance SymbolType_eq_dec : EqDecision SymbolType.
Proof. solve_decision. Defined.

(** [getSymbolType]: protocols answer like functions, structs and enums like
    variables. *)
Definition getSymbolType (s : Symbol) : SymbolType :=
  match s with
  | SymFunction _ | SymProtocol _ => TypeFunction
  | SymVariable _ | SymStruct _ | SymEnum _ => TypeVariable
  end.

Definition symbol_name (s : Symbol) : string :=
  match s with
  | SymVariable v => v_name v
  | SymFunction f => f_name f
  | SymStruct s => s_name s
  | SymEnum e => e_name e
  | SymProtocol p => p_name p
  end.

(** [dynamic_cast] of a possibly null [Symbol *]. *)
Definition as_struct (s : option Symbol) : option StructDefinition :=
  match s with Some (SymStruct d) => Some d | _ => None end.
Definition as_enum (s : option Symbol) : option EnumDefinition :=
  match s with Some (SymEnum d) => Some d | _ => None end.
Definition as_protocol (s : option Symbol) : option ProtocolDefinition :=
  match s with Some (SymProtocol d) => Some d | _ => None end.
Definition as_variable (s : option Symbol) : option VariableDefinition :=
  match s with Some (SymVariable d) => Some d | _ => None end.

(** * Expressions and statements *)

(** What every node has: its identity and [mLocation]. *)
Record Node := mkNode {
  node_id : nat;
  getLocation : SourceLocation
}.

Inductive StepType := WHERE | ORDER_BY | LIMIT | JOIN | FIRST | SET.

#[export] Instance StepType_eq_dec : EqDecision StepType.
Proof. solve_decision. Defined.

Inductive Expr : Type :=
  | ConstInteger (n : Node) (mValue : Z)
  | ConstFloat (n : Node) (mValue : spec_float)
  | ConstString (n : Node) (mValue : string)
  | ConstChar (n : Node) (mValue : string)
  | StringInterpolation (n : Node) (mParts : list Expr)
  | VariableExpression (n : Node) (mVariable : option VariableDefinition)
  | CallExpression (n : Node) (mFunction : option FunctionDefinition) (mTypeArgs : list Ty)
      (mParams : list Expr)
  | IndirectCallExpression (n : Node) (mFnVariable : option VariableDefinition)
      (mParams : list Expr)
  | QueryExpression (n : Node) (mTableName : string) (mSteps : list QueryPipelineStep)
  | UpdateExpression (n : Node) (mTableName : string) (mSteps : list QueryPipelineStep)
  | DeleteExpression (n : Node) (mTableName : string) (mSteps : list QueryPipelineStep)
  | InsertExpression (n : Node) (mTableName : string) (mFieldNames : list string)
      (mFieldValues : list Expr)
  | QueryFieldExpression (n : Node) (mFieldName : string)
  | FieldAccessExpression (n : Node) (mObject : Expr) (mFieldName : string)
  | MethodCallExpression (n : Node) (mObject : Expr) (mMethodName : string) (mArgs : list Expr)
  | IndexExpression (n : Node) (mObject mIndex : Expr)
  | OperationsExpression (n : Node) (mOperation : string) (mOp1 mOp2 : Expr)
  | UnaryExpression (n : Node) (mOperation : string) (mOperand : Expr)
  | AssignmentExpression (n : Node) (mOperation : string)
      (mVariable : option VariableDefinition) (mValue : Expr)
  | FieldAssignmentExpression (n : Node) (mOperation : string) (mObject : Expr)
      (mFieldName : string) (mValue : Expr)
  | IndexAssignmentExpression (n : Node) (mOperation : string) (mObject mIndex mValue : Expr)
  | ArrayLiteralExpression (n : Node) (mElements : list Expr)
  | RangeExpression (n : Node) (mStart mEnd : Expr)
  | StructLiteralExpression (n : Node) (mTypeName : string) (mTypeArgs : list Ty)
      (mFieldNames : list string) (mFieldValues : list Expr)
  | ConstructExpression (n : Node) (mStructDef : option StructDefinition) (mTypeArgs : list Ty)
      (mArgs : list Expr)
  | EnumConstructExpression (n : Node) (mEnumDef : option EnumDefinition) (mVariantIndex : Z)
      (mArgs : list Expr)
  | TryExpression (n : Node) (mOperand : Expr)
  | AwaitExpression (n : Node) (mOperand : Expr)
  | PipelineExpression (n : Node) (mInput mTransform : Expr)
  | FunctionRefExpression (n : Node) (mFunction : option FunctionDefinition)
  | MatchExpression (n : Node) (mSubject : Expr) (mArms : list MatchArm) (mExprMode : bool)
  | LambdaExpression (n : Node) (mReturnType : option Ty) (mParameters : list VariableDefinition)
      (mBody : option Block)
  | SpawnStatement (n : Node) (mBody : option Block)
with QueryPipelineStep : Type :=
  | mkStep (mType : StepType) (mExpression : option Expr) (mJoinTable : string)
      (mSetFields : list (string * Expr))
with MatchArm : Type :=
  | mkArm (mPattern : string) (mBindingNames : list string) (mBody : option Block)
      (mValue : option Expr) (mScope : option nat) (mIsWildcard mPatternIsString : bool)
with Block : Type :=
  | mkBlock (n : Node) (mScope : option nat) (mStatementList : list Stmt)
with Stmt : Type :=
  | SExpression (e : Expr)
  | SBlock (b : Block)
  | ReturnStatement (n : Node) (mExpression : option Expr)
  | IfStatement (n : Node) (mIfExpression : Expr) (mStatement mElseStatement : option Stmt)
  | WhileStatement (n : Node) (mLoopExpression : Expr) (mLoopStatement : option Stmt)
  | ForStatement (n : Node) (mInitialExpression mTestExpression mIterationExpression : option Expr)
      (mStatement : option Stmt)
  | ForInStatement (n : Node) (mVariableName mSecondVariableName : string)
      (mIterableExpression : option Expr) (mBody : option Stmt) (mIsInfinite : bool)
  | VariableDeclaration (n : Node) (mVariables : list DeclData)
  | AssertStatement (n : Node) (mExpression : Expr) (mMessage : string)
  | WaitStatement (n : Node) (mExpr : Expr)
  | WaitAllStatement (n : Node)
  | BreakStatement (n : Node)
  | ContinueStatement (n : Node)
  | EventHandler (n : Node) (mEventExpression : Expr) (mBody : option Block)
with DeclData : Type :=
  | mkDecl (mVaribale : option VariableDefinition) (mInitialValue : option Expr).

Definition expr_node (e : Expr) : Node :=
  match e with
  | ConstInteger n _ | ConstFloat n _ | ConstString n _ | ConstChar n _
  | StringInterpolation n _ | VariableExpression n _ | CallExpression n _ _ _
  | IndirectCallExpression n _ _ | QueryExpression n _ _ | UpdateExpression n _ _
  | DeleteExpression n _ _ | InsertExpression n _ _ _ | QueryFieldExpression n _
  | FieldAccessExpression n _ _ | MethodCallExpression n _ _ _ | IndexExpression n _ _
  | OperationsExpression n _ _ _ | UnaryExpression n _ _ | AssignmentExpression n _ _ _
  | FieldAssignmentExpression n _ _ _ _ | IndexAssignmentExpression n _ _ _ _
  | ArrayLiteralExpression n _ | RangeExpression n _ _ | StructLiteralExpression n _ _ _ _
  | ConstructExpression n _ _ _ | EnumConstructExpression n _ _ _ | TryExpression n _
  | AwaitExpression n _ | PipelineExpression n _ _ | FunctionRefExpression n _
  | MatchExpression n _ _ _ | LambdaExpression n _ _ _ | SpawnStatement n _ => n
  end.

Definition expr_location (e : Expr) : SourceLocation := getLocation (expr_node e).

Definition step_type (s : QueryPipelineStep) : StepType := match s with mkStep t _ _ _ => t end.
Definition step_expression (s : QueryPipelineStep) : option Expr :=
  match s with mkStep _ e _ _ => e end.
Definition step_sets (s : QueryPipelineStep) : list (string * Expr) :=
  match s with mkStep _ _ _ l => l end.

Definition arm_pattern (a : MatchArm) : string := match a with mkArm p _ _ _ _ _ _ => p end.
Definition arm_wildcard (a : MatchArm) : bool := match a with mkArm _ _ _ _ _ w _ => w end.
Definition block_scope (b : Block) : option nat := match b with mkBlock _ s _ => s end.

(** A function's contract clauses and body; none for an interface declaration. *)
Record FunctionBody := mkBody {
  mRequiresClauses : list Expr;
  mEnsuresClauses : list Expr;
  mFuncBody : option Block
}.

(** [import x as y;]: the alias is empty without [as]. *)
Record ImportStatement := mkImport {
  imp_module : string;
  imp_alias : string;
  imp_location : SourceLocation
}.

Record TestBlock := mkTestBlock {
  test_name : string;
  test_location : SourceLocation;
  test_body : Block
}.

(** [class Module], with the bodies of the functions and methods it defines. *)
Record Module_ := mkModule {
  mFunctionList : list FunctionDefinition;
  mStructList : list StructDefinition;
  mEnumList : list EnumDefinition;
  mProtocolList : list ProtocolDefinition;
  mImports : list ImportStatement;
  mTestBlocks : list TestBlock;
  mIsExtern : bool;
  mDefiningFile : string;
  mBodies : gmap nat FunctionBody
}.
