(* ===== verification/Scope.v ===== *)
(** Lexical scopes ([class Scope], [src/Type.h]): symbols and types by name,
    module namespaces, imports and their usage.  Scopes are shared objects that
    point to their parent, so they live in a heap and are named by a number. *)

From stdpp Require Import sorting.
From S2P Require Import Prelude SourceLocation Ast.

Inductive ScopeType :=
  | kScope_Global | kScope_Module | kScope_Namespace | kScope_Class
  | kScope_Function | kScope_Anonymous | kScope_IfElse | kScope_Loop.

Record Scope := mkScope {
  mScopeType : ScopeType;
  mParent : option nat;
  mSymbolList : gmap string Symbol;
  mTypeList : gmap string Ty;
  mNamespaceMap : gmap string nat;
  mImportedModules : gset string;
  mUsedModules : gset string;
  mImportedTypeOwner : gmap string string;
  mAmbiguousImports : gmap string (gset string);
  mModuleAliases : gmap string string;
  mGrantsNameCapability : bool
}.

Definition Scope_new (type : ScopeType) : Scope :=
  mkScope type None ∅ ∅ ∅ ∅ ∅ ∅ ∅ ∅ false.

Section setters.
Variable s : Scope.
Definition set_parent (p : option nat) : Scope :=
  mkScope (mScopeType s) p (mSymbolList s) (mTypeList s) (mNamespaceMap s) (mImportedModules s)
    (mUsedModules s) (mImportedTypeOwner s) (mAmbiguousImports s) (mModuleAliases s)
    (mGrantsNameCapability s).
Definition set_symbols (m : gmap string Symbol) : Scope :=
  mkScope (mScopeType s) (mParent s) m (mTypeList s) (mNamespaceMap s) (mImportedModules s)
    (mUsedModules s) (mImportedTypeOwner s) (mAmbiguousImports s) (mModuleAliases s)
    (mGrantsNameCapability s).
Definition set_types (m : gmap string Ty) : Scope :=
  mkScope (mScopeType s) (mParent s) (mSymbolList s) m (mNamespaceMap s) (mImportedModules s)
    (mUsedModules s) (mImportedTypeOwner s) (mAmbiguousImports s) (mModuleAliases s)
    (mGrantsNameCapability s).
Definition set_namespaces (m : gmap string nat) : Scope :=
  mkScope (mScopeType s) (mParent s) (mSymbolList s) (mTypeList s) m (mImportedModules s)
    (mUsedModules s) (mImportedTypeOwner s) (mAmbiguousImports s) (mModuleAliases s)
    (mGrantsNameCapability s).
Definition set_imported (m : gset string) : Scope :=
  mkScope (mScopeType s) (mParent s) (mSymbolList s) (mTypeList s) (mNamespaceMap s) m
    (mUsedModules s) (mImportedTypeOwner s) (mAmbiguousImports s) (mModuleAliases s)
    (mGrantsNameCapability s).
Definition set_used (m : gset string) : Scope :=
  mkScope (mScopeType s) (mParent s) (mSymbolList s) (mTypeList s) (mNamespaceMap s)
    (mImportedModules s) m (mImportedTypeOwner s) (mAmbiguousImports s) (mModuleAliases s)
    (mGrantsNameCapability s).
Definition set_owners (m : gmap string string) : Scope :=
  mkScope (mScopeType s) (mParent s) (mSymbolList s) (mTypeList s) (mNamespaceMap s)
    (mImportedModules s) (mUsedModules s) m (mAmbiguousImports s) (mModuleAliases s)
    (mGrantsNameCapability s).
Definition set_ambiguous (m : gmap string (gset string)) : Scope :=
  mkScope (mScopeType s) (mParent s) (mSymbolList s) (mTypeList s) (mNamespaceMap s)
    (mImportedModules s) (mUsedModules s) (mImportedTypeOwner s) m (mModuleAliases s)
    (mGrantsNameCapability s).
Definition set_aliases (m : gmap string string) : Scope :=
  mkScope (mScopeType s) (mParent s) (mSymbolList s) (mTypeList s) (mNamespaceMap s)
    (mImportedModules s) (mUsedModules s) (mImportedTypeOwner s) (mAmbiguousImports s) m
    (mGrantsNameCapability s).
Definition setGrantsNameCapability (b : bool) : Scope :=
  mkScope (mScopeType s) (mParent s) (mSymbolList s) (mTypeList s) (mNamespaceMap s)
    (mImportedModules s) (mUsedModules s) (mImportedTypeOwner s) (mAmbiguousImports s)
    (mModuleAliases s) b.
End setters.

(** * The heap of scopes *)

Notation heap := (gmap nat Scope).

(** The recursion [mParent->find...( str )] the lookups share: the first scope
    on the way up for which [f] answers.  A parent is created before its
    children, so the scope's own number bounds the way up. *)
Fixpoint climb {A} (fuel : nat) (f : nat -> Scope -> option A) (h : heap) (id : nat) : option A :=
  match fuel with
  | 0 => None
  | S fuel =>
      match h !! id with
      | None => None
      | Some s =>
          match f id s with
          | Some a => Some a
          | None => match mParent s with Some p => climb fuel f h p | None => None end
          end
      end
  end.

Definition ascend {A} (f : nat -> Scope -> option A) (h : heap) (id : nat) : option A :=
  climb (S id) f h id.

Definition update (f : Scope -> Scope) (id : nat) (h : heap) : heap := alter f id h.

(** ** Symbols and types *)

Definition addSymbol (sym : Symbol) (id : nat) (h : heap) : bool * heap :=
  match h !! id with
  | None => (false, h)
  | Some s =>
      match mSymbolList s !! symbol_name sym with
      | Some _ => (false, h)
      | None => (true, <[id := set_symbols s (<[symbol_name sym := sym]> (mSymbolList s))]> h)
      end
  end.

Definition addType (type : Ty) : nat -> heap -> heap :=
  update (fun s => set_types s (<[ty_name type := type]> (mTypeList s))).

Definition findSymbol (h : heap) (id : nat) (str : string) : option Symbol :=
  ascend (fun _ s => mSymbolList s !! str) h id.

Definition findType (h : heap) (id : nat) (str : string) : option Ty :=
  ascend (fun _ s => mTypeList s !! str) h id.

Definition setParent (parent : nat) : nat -> heap -> heap :=
  update (fun s => set_parent s (Some parent)).

(** ** Namespaces and aliases *)

Definition addNamespace (name : string) (ns : nat) : nat -> heap -> heap :=
  update (fun s => set_namespaces s (<[name := ns]> (mNamespaceMap s))).

Definition findNamespace (h : heap) (id : nat) (name : string) : option nat :=
  ascend (fun _ s => mNamespaceMap s !! name) h id.

Definition addModuleAlias (alias real : string) : nat -> heap -> heap :=
  update (fun s => set_aliases s (<[alias := real]> (mModuleAliases s))).

Definition realModuleName (h : heap) (id : nat) (qualifier : string) : string :=
  default qualifier (ascend (fun _ s => mModuleAliases s !! qualifier) h id).

(** ** Imports *)

Definition addImportedModule (name : string) : nat -> heap -> heap :=
  update (fun s => set_imported s ({[name]} ∪ mImportedModules s)).

(** The scope that imported [name], on the way up from [id]. *)
Definition importing_scope (h : heap) (id : nat) (name : string) : option nat :=
  ascend (fun i s => if decide (name ∈ mImportedModules s) then Some i else None) h id.

Definition isModuleImported (h : heap) (id : nat) (name : string) : bool :=
  bool_decide (is_Some (importing_scope h id name)).

Definition markModuleUsed (name : string) (id : nat) (h : heap) : heap :=
  match importing_scope h id name with
  | Some i => update (fun s => set_used s ({[name]} ∪ mUsedModules s)) i h
  | None => h
  end.

Definition wasModuleUsed (h : heap) (id : nat) (name : string) : bool :=
  match h !! id with Some s => bool_decide (name ∈ mUsedModules s) | None => false end.

(** [markModuleUsed] is called on the scope that holds the owner table. *)
Definition markTypeUsed (typeName : string) (id : nat) (h : heap) : heap :=
  match ascend (fun i s => pair i <$> mImportedTypeOwner s !! typeName) h id with
  | Some (i, owner) => markModuleUsed owner i h
  | None => h
  end.

(** The entries of a [std::map] in its order. *)
Definition items {A} (m : gmap string A) : list (string * A) :=
  merge_sort (fun a b => String.le a.1 b.1) (map_to_list m).

(** One turn of the first loop of [importTypeNamesFrom], over the symbols. *)
Definition import_symbol (moduleName : string) (dst : Scope) (kv : string * Symbol) : Scope :=
  let '(key, sym) := kv in
  if decide (getSymbolType sym = TypeFunction) then dst
  else
    match mAmbiguousImports dst !! key with
    | Some mods => set_ambiguous dst (<[key := {[moduleName]} ∪ mods]> (mAmbiguousImports dst))
    | None =>
        let import_it :=
          match mSymbolList dst !! key with
          | None =>
              let dst := set_symbols dst (<[key := sym]> (mSymbolList dst)) in
              set_owners dst (<[key := moduleName]> (mImportedTypeOwner dst))
          | Some _ => dst
          end in
        match mImportedTypeOwner dst !! key with
        | Some owner =>
            if decide (owner <> moduleName) then
              let dst := set_ambiguous dst
                (<[key := {[owner; moduleName]}]> (mAmbiguousImports dst)) in
              let dst := set_symbols dst (delete key (mSymbolList dst)) in
              let dst := set_types dst (delete key (mTypeList dst)) in
              set_owners dst (delete key (mImportedTypeOwner dst))
            else import_it
        | None => import_it
        end
    end.

(** One turn of the second loop, over the types. *)
Definition import_type (dst : Scope) (kv : string * Ty) : Scope :=
  let '(key, type) := kv in
  match mAmbiguousImports dst !! key with
  | Some _ => dst
  | None =>
      match mTypeList dst !! key with
      | None => set_types dst (<[key := type]> (mTypeList dst))
      | Some _ => dst
      end
  end.

Definition importTypeNamesFrom (src : Scope) (moduleName : string) (dst : Scope) : Scope :=
  foldl import_type (foldl (import_symbol moduleName) dst (items (mSymbolList src)))
    (items (mTypeList src)).

(** ** Searching the namespaces *)

Definition exports (h : heap) (name : string) (ns : nat) : bool :=
  match h !! ns with Some s => bool_decide (is_Some (mSymbolList s !! name)) | None => false end.

Definition moduleExporting (h : heap) (id : nat) (name : string) : string :=
  default "" (ascend (fun _ s =>
    fst <$> (snd <$> list_find (fun kv => exports h name kv.2 = true) (items (mNamespaceMap s)))) h id).

Definition ambiguousImportModules (h : heap) (id : nat) (name : string) : gset string :=
  default ∅ (ascend (fun _ s => mAmbiguousImports s !! name) h id).
