(* ===== verification/ScopeTheorems.v ===== *)
(** Properties of [class Scope] ([src/Type.h]): lexical resolution, imports
    name by name, and the bookkeeping behind the unused-import lint. *)

From stdpp Require Import sorting.
From S2P Require Import Prelude SourceLocation Ast Scope.

(** A parent scope is created before its children. *)
Definition parents_before (h : heap) : Prop :=
  forall i s p, h !! i = Some s -> mParent s = Some p -> p < i.

Section ascend.
Context {A : Type}.
Implicit Types (f : nat -> Scope -> option A).

Lemma climb_enough f h : parents_before h ->
  forall fuel id, id < fuel -> climb fuel f h id = ascend f h id.
Proof.
  intros Hh. unfold ascend.
  assert (forall n m id, id < n -> id < m -> climb n f h id = climb m f h id) as Hgen.
  { induction n as [|n IH]; intros [|m] id Hn Hm; [lia..|]. simpl.
    destruct (h !! id) as [s|] eqn:Hs; [|done]. destruct (f id s); [done|].
    destruct (mParent s) as [p|] eqn:Hp; [|done].
    pose proof (Hh _ _ _ Hs Hp). apply IH; lia. }
  intros fuel id Hid. apply Hgen; lia.
Qed.

Lemma ascend_eq f h id : parents_before h ->
  ascend f h id =
    match h !! id with
    | None => None
    | Some s =>
        match f id s with
        | Some a => Some a
        | None => match mParent s with Some p => ascend f h p | None => None end
        end
    end.
Proof.
  intros Hh. unfold ascend at 1. simpl.
  destruct (h !! id) as [s|] eqn:Hs; [|done]. destruct (f id s); [done|].
  destruct (mParent s) as [p|] eqn:Hp; [|done].
  apply climb_enough; [done|]. by eapply Hh.
Qed.

Lemma ascend_some f h id a : parents_before h ->
  ascend f h id = Some a -> exists i s, h !! i = Some s /\ f i s = Some a.
Proof.
  intros Hh. induction id as [id IH] using lt_wf_ind. rewrite ascend_eq by done.
  destruct (h !! id) as [s|] eqn:Hs; [|done]. destruct (f id s) eqn:Hf.
  - intros [= ->]. eauto.
  - destruct (mParent s) as [p|] eqn:Hp; [|done]. apply IH. by eapply Hh.
Qed.

(** Two lookups agree when they agree scope by scope. *)
Lemma ascend_ext f g h h' id :
  parents_before h -> parents_before h' ->
  (forall i, mParent <$> h !! i = mParent <$> h' !! i) ->
  (forall i s s', h !! i = Some s -> h' !! i = Some s' -> f i s = g i s') ->
  ascend f h id = ascend g h' id.
Proof.
  intros Hh Hh' Hpar Hfg. induction id as [id IH] using lt_wf_ind.
  rewrite (ascend_eq f), (ascend_eq g) by done. specialize (Hpar id).
  destruct (h !! id) as [s|] eqn:Hs, (h' !! id) as [s'|] eqn:Hs'; try done.
  simpl in Hpar. injection Hpar as Hpar. rewrite (Hfg _ _ _ Hs Hs').
  destruct (g id s'); [done|]. rewrite <- Hpar.
  destruct (mParent s) as [p|] eqn:Hp; [|done]. apply IH. by eapply Hh.
Qed.
End ascend.

Lemma parents_before_alter f id h :
  (forall s, mParent (f s) = mParent s) -> parents_before h -> parents_before (alter f id h).
Proof.
  intros Hf Hh i s p. destruct (decide (i = id)) as [->|Hne].
  - rewrite lookup_alter_eq. intros (s0 & Hs0 & ->)%fmap_Some. rewrite Hf. by apply Hh.
  - rewrite lookup_alter_ne by done. apply Hh.
Qed.

Lemma parents_before_insert id s h :
  (forall p, mParent s = Some p -> p < id) -> parents_before h -> parents_before (<[id := s]> h).
Proof.
  intros Hs Hh i s' p. rewrite lookup_insert_Some. intros [[<- <-]|[_ Hi]]; [apply Hs|by apply Hh].
Qed.

(** * Lexical resolution *)

(** From scope [j], the search for [name] reaches scope [id] before any other
    scope that binds it. *)
Definition reaches (h : heap) (j id : nat) (name : string) : Prop :=
  ascend (fun i s => if decide (i = id) then Some true
                     else if mSymbolList s !! name then Some false else None) h j = Some true.

#[export] Instance reaches_dec h j id name : Decision (reaches h j id name).
Proof. unfold reaches. apply _. Defined.

Lemma findSymbol_eq h j name : parents_before h ->
  findSymbol h j name =
    match h !! j with
    | None => None
    | Some s =>
        match mSymbolList s !! name with
        | Some y => Some y
        | None => match mParent s with Some p => findSymbol h p name | None => None end
        end
    end.
Proof. intros Hh. unfold findSymbol at 1. by rewrite ascend_eq. Qed.

Lemma reaches_eq h j id name : parents_before h ->
  reaches h j id name <->
    match h !! j with
    | None => False
    | Some s => j = id \/ (j <> id /\ mSymbolList s !! name = None /\
                  match mParent s with Some p => reaches h p id name | None => False end)
    end.
Proof.
  intros Hh. unfold reaches at 1. rewrite ascend_eq by done.
  destruct (h !! j) as [s|]; [|done]. destruct (decide (j = id)) as [->|Hj]; [tauto|].
  destruct (mSymbolList s !! name).
  - split; [done|]. by intros [?|(_ & ? & _)].
  - fold (reaches h). destruct (mParent s) as [p|]; [|naive_solver]. unfold reaches at 1. naive_solver.
Qed.

(** C21. Declaring a symbol: a duplicate is rejected and changes nothing;
    otherwise exactly the lookups of that name whose search reaches the scope
    see the new symbol, and every other lookup from every scope answers as
    before. *)
Theorem addSymbol_scoping (h h' : heap) (id : nat) (s : Scope) (sym : Symbol) (b : bool)
  (Hh : parents_before h) (Hid : h !! id = Some s) (Hadd : addSymbol sym id h = (b, h')) :
  b = bool_decide (mSymbolList s !! symbol_name sym = None) /\
  (b = false -> h' = h) /\
  (b = true -> forall j name, findSymbol h' j name =
     if decide (name = symbol_name sym /\ reaches h j id name) then Some sym
     else findSymbol h j name).
Proof.
  unfold addSymbol in Hadd. rewrite Hid in Hadd.
  destruct (mSymbolList s !! symbol_name sym) as [old|] eqn:Hold; simplify_eq.
  { split_and!; [|done|done]. symmetry. by apply bool_decide_eq_false. }
  split_and!; [by rewrite bool_decide_eq_true_2|done|]. intros _ j name.
  assert (parents_before (<[id := set_symbols s (<[symbol_name sym := sym]> (mSymbolList s))]> h)) as Hh'.
  { apply parents_before_insert; [|done]. intros p Hp. by eapply Hh. }
  induction j as [j IH] using lt_wf_ind. pose proof (reaches_eq h j id name Hh) as Hr.
  rewrite !(findSymbol_eq _ j) by done.
  destruct (decide (j = id)) as [->|Hj].
  - rewrite lookup_insert_eq, Hid in *. simpl. destruct (decide (name = symbol_name sym)) as [->|Hn].
    + rewrite lookup_insert_eq, decide_True by tauto. done.
    + rewrite lookup_insert_ne by done. rewrite decide_False by tauto.
      destruct (mSymbolList s !! name); [done|].
      destruct (mParent s) as [p|] eqn:Hp; [|done]. rewrite IH by (by eapply Hh).
      by rewrite decide_False by tauto.
  - rewrite lookup_insert_ne by done. destruct (h !! j) as [sj|] eqn:Hsj; simpl.
    2:{ by rewrite decide_False by tauto. }
    destruct (mSymbolList sj !! name) as [x|] eqn:Hx.
    { rewrite decide_False; [done|]. intros [_ ?%Hr]. naive_solver. }
    destruct (mParent sj) as [p|] eqn:Hp.
    + rewrite IH by (by eapply Hh). apply decide_ext. naive_solver.
    + rewrite decide_False; [done|]. intros [_ ?%Hr]. naive_solver.
Qed.

Lemma addSymbol_scoping_witness :
  let v n k := mkVariable k n no_location false kOwnership_Value in
  let h : heap := {[ 0 := Scope_new kScope_Global; 1 := set_parent (Scope_new kScope_Function) (Some 0) ]} in
  let h' := (addSymbol (SymVariable (v "x" 7)) 0 h).2 in
  findSymbol h' 1 "x" =
    if decide ("x" = "x" /\ reaches h 1 0 "x") then Some (SymVariable (v "x" 7)) else findSymbol h 1 "x".
Proof.
  intros v h h'.
  refine (proj2 (proj2 (addSymbol_scoping h h' 0 (Scope_new kScope_Global) (SymVariable (v "x" 7)) true
    _ _ _)) _ 1 "x"); try reflexivity.
  intros i s p. unfold h. rewrite lookup_insert_Some.
  intros [[<- <-]|[_ Hi]] Hp; [discriminate Hp|].
  apply lookup_singleton_Some in Hi as [<- <-]. injection Hp as <-. lia.
Defined.

(** * Imports *)

(** What a scope knows about one name. *)
Record entry := mkEntry {
  en_symbol : option Symbol;
  en_type : option Ty;
  en_owner : option string;
  en_ambiguous : option (gset string)
}.

Definition entry_of (d : Scope) (k : string) : entry :=
  mkEntry (mSymbolList d !! k) (mTypeList d !! k) (mImportedTypeOwner d !! k)
    (mAmbiguousImports d !! k).

(** Specification: what importing a module does to one name it exports. *)
Definition entry_import_symbol (m : string) (e : entry) (sym : Symbol) : entry :=
  match getSymbolType sym, en_ambiguous e, en_owner e, en_symbol e with
  | TypeFunction, _, _, _ => e
  | TypeVariable, Some mods, _, _ =>
      mkEntry (en_symbol e) (en_type e) (en_owner e) (Some ({[m]} ∪ mods))
  | TypeVariable, None, Some o, None =>
      if decide (o = m) then mkEntry (Some sym) (en_type e) (Some m) None
      else mkEntry None None None (Some {[o; m]})
  | TypeVariable, None, Some o, Some _ =>
      if decide (o = m) then e else mkEntry None None None (Some {[o; m]})
  | TypeVariable, None, None, None => mkEntry (Some sym) (en_type e) (Some m) None
  | TypeVariable, None, None, Some _ => e
  end.

Definition entry_import_type (e : entry) (t : Ty) : entry :=
  match en_ambiguous e, en_type e with
  | None, None => mkEntry (en_symbol e) (Some t) (en_owner e) None
  | _, _ => e
  end.

Definition entry_import (m : string) (sym : option Symbol) (t : option Ty) (e : entry) : entry :=
  let e := match sym with Some y => entry_import_symbol m e y | None => e end in
  match t with Some t => entry_import_type e t | None => e end.

(** A loop over the entries of a map whose turns only concern their own key
    works key by key. *)
Lemma foldl_items {A D E} (step : D -> string * A -> D) (get : D -> string -> E) (on : E -> A -> E) :
  (forall d k' a k, get (step d (k', a)) k = if decide (k' = k) then on (get d k) a else get d k) ->
  forall (m : gmap string A) d k,
    get (foldl step d (items m)) k =
      match m !! k with Some a => on (get d k) a | None => get d k end.
Proof.
  intros Hstep m.
  assert (forall l : list (string * A), NoDup l.*1 -> forall d k, get (foldl step d l) k =
            match list_to_map (M := gmap string A) l !! k with
            | Some a => on (get d k) a | None => get d k end) as Hl.
  { induction l as [|[k' a] l IH]; intros Hnd d k; [done|]. simpl.
    rewrite fmap_cons in Hnd. apply NoDup_cons in Hnd as [Hni Hnd]. rewrite IH, Hstep by done.
    destruct (decide (k' = k)) as [->|Hne].
    - rewrite lookup_insert_eq, not_elem_of_list_to_map_1 by done. done.
    - by rewrite lookup_insert_ne by done. }
  intros d k. unfold items. set (R := fun a b : string * A => String.le a.1 b.1).
  assert (merge_sort R (map_to_list m) ≡ₚ map_to_list m) as HP by apply merge_sort_Permutation.
  assert (NoDup (merge_sort R (map_to_list m)).*1) as Hnd.
  { rewrite HP. apply NoDup_fst_map_to_list. }
  rewrite Hl by done.
  assert (list_to_map (M := gmap string A) (merge_sort R (map_to_list m)) = m) as ->; [|done].
  rewrite <- (list_to_map_to_list m) at 2. by apply list_to_map_proper.
Qed.

Lemma entry_import_symbol_eq m d k' sym k :
  entry_of (import_symbol m d (k', sym)) k =
    if decide (k' = k) then entry_import_symbol m (entry_of d k) sym else entry_of d k.
Proof.
  unfold import_symbol, entry_import_symbol, entry_of. simpl.
  destruct (decide (k' = k)) as [->|Hne].
  - destruct (getSymbolType sym); simpl; [|done].
    destruct (mAmbiguousImports d !! k) as [mods|] eqn:Ha; simpl.
    { by rewrite lookup_insert_eq. }
    destruct (mImportedTypeOwner d !! k) as [o|] eqn:Ho, (mSymbolList d !! k) as [y|] eqn:Hy; simpl;
      repeat case_decide; simplify_eq/=;
      rewrite ?lookup_insert_eq, ?lookup_delete_eq, ?Ha, ?Ho, ?Hy; done.
  - repeat (case_match; simpl; rewrite ?lookup_insert_ne, ?lookup_delete_ne by done; try done).
Qed.

Lemma entry_import_type_eq d k' t k :
  entry_of (import_type d (k', t)) k =
    if decide (k' = k) then entry_import_type (entry_of d k) t else entry_of d k.
Proof.
  unfold import_type, entry_import_type, entry_of. simpl.
  destruct (decide (k' = k)) as [->|Hne].
  - destruct (mAmbiguousImports d !! k) eqn:Ha, (mTypeList d !! k) eqn:Ht; simpl;
      rewrite ?lookup_insert_eq, ?Ha, ?Ht; done.
  - repeat (case_match; simpl; rewrite ?lookup_insert_ne by done; try done).
Qed.

Lemma entry_of_import src m d k :
  entry_of (importTypeNamesFrom src m d) k =
    entry_import m (mSymbolList src !! k) (mTypeList src !! k) (entry_of d k).
Proof.
  unfold importTypeNamesFrom, entry_import.
  rewrite (foldl_items import_type entry_of entry_import_type) by apply entry_import_type_eq.
  rewrite (foldl_items (import_symbol m) entry_of (entry_import_symbol m))
    by apply entry_import_symbol_eq. done.
Qed.

(** An import works name by name and only through what the module itself
    exports: the loops of [importTypeNamesFrom] compute, for every name, the
    specification [entry_import]; in particular functions and protocols are
    never imported, a local definition is never overwritten, and a name the
    module does not export is untouched. *)
Theorem importTypeNamesFrom_by_name (src d : Scope) (m k : string) :
  let d' := importTypeNamesFrom src m d in
  entry_of d' k = entry_import m (mSymbolList src !! k) (mTypeList src !! k) (entry_of d k) /\
  (forall sym, mSymbolList src !! k = Some sym -> getSymbolType sym = TypeFunction ->
     mSymbolList d' !! k = mSymbolList d !! k) /\
  (forall y, mSymbolList d !! k = Some y -> mImportedTypeOwner d !! k = None ->
     mAmbiguousImports d !! k = None -> mSymbolList d' !! k = Some y) /\
  (mSymbolList src !! k = None -> mTypeList src !! k = None -> entry_of d' k = entry_of d k).
Proof.
  intros d'. pose proof (entry_of_import src m d k) as He. fold d' in He.
  pose proof (f_equal en_symbol He) as Hs. cbn [entry_of en_symbol] in Hs.
  split_and!; [done|..].
  - intros sym Hsym Hf. rewrite Hs, Hsym. unfold entry_import, entry_import_symbol, entry_import_type.
    rewrite Hf. by repeat case_match.
  - intros y Hy Ho Ha. rewrite Hs.
    unfold entry_import, entry_import_symbol, entry_import_type, entry_of. simpl.
    rewrite Hy, Ho, Ha. by repeat (case_match; simplify_eq/=).
  - intros H1 H2. by rewrite He, H1, H2.
Qed.

(** Conflicting imports: when two modules export the same type name and the
    scope has no definition of it, importing both, in either order, leaves the
    bare name unbound and recorded as ambiguous between exactly these two. *)
Theorem conflicting_imports_unbound (src1 src2 d : Scope) (m1 m2 k : string) (y1 y2 : Symbol)
  (Hfree : entry_of d k = mkEntry None None None None)
  (Hne : m1 <> m2)
  (H1 : mSymbolList src1 !! k = Some y1) (Ht1 : getSymbolType y1 = TypeVariable)
  (H2 : mSymbolList src2 !! k = Some y2) (Ht2 : getSymbolType y2 = TypeVariable) :
  let d12 := importTypeNamesFrom src2 m2 (importTypeNamesFrom src1 m1 d) in
  let d21 := importTypeNamesFrom src1 m1 (importTypeNamesFrom src2 m2 d) in
  entry_of d12 k = mkEntry None None None (Some {[m1; m2]}) /\ entry_of d21 k = entry_of d12 k.
Proof.
  intros d12 d21. unfold d12, d21. rewrite !entry_of_import, Hfree, H1, H2.
  assert (forall a b x y t1 t2, a <> b -> getSymbolType x = TypeVariable -> getSymbolType y = TypeVariable ->
    entry_import b (Some y) t2 (entry_import a (Some x) t1 (mkEntry None None None None)) =
      mkEntry None None None (Some {[a; b]})) as Hgen.
  { intros a b x y t1 t2 Hab Hx Hy. unfold entry_import, entry_import_symbol, entry_import_type.
    rewrite Hx, Hy. simpl. destruct t1, t2; simpl; by rewrite decide_False by done. }
  rewrite !Hgen by done. split; [done|]. by rewrite (union_comm_L {[m2]}).
Qed.

Lemma conflicting_imports_unbound_witness :
  let box l := SymStruct (mkStruct 1 "Box" no_location [] [] None [] [] true false l [] "" "") in
  let src l := set_types (set_symbols (Scope_new kScope_Module) {["Box" := box l]}) {["Box" := Type_ "Box" []]} in
  let d := Scope_new kScope_Module in
  let d12 := importTypeNamesFrom (src false) "b" (importTypeNamesFrom (src true) "a" d) in
  let d21 := importTypeNamesFrom (src true) "a" (importTypeNamesFrom (src false) "b" d) in
  entry_of d12 "Box" = mkEntry None None None (Some {["a"; "b"]}) /\ entry_of d21 "Box" = entry_of d12 "Box".
Proof.
  intros box src d.
  apply (conflicting_imports_unbound (src true) (src false) d "a" "b" "Box" (box true) (box false));
    try reflexivity. discriminate.
Defined.

(** Import usage: marking a module used from any scope marks it exactly in
    the scope that imported it, on the way up, and nowhere else; it never
    changes what a name resolves to. *)
Theorem markModuleUsed_exact (h : heap) (id j : nat) (name m' : string) (Hh : parents_before h) :
  let h' := markModuleUsed name id h in
  (wasModuleUsed h' j m' = true <->
     wasModuleUsed h j m' = true \/ (importing_scope h id name = Some j /\ m' = name)) /\
  (forall x, findSymbol h' j x = findSymbol h j x) /\
  isModuleImported h' j m' = isModuleImported h j m'.
Proof.
  intros h'. unfold h', markModuleUsed.
  destruct (importing_scope h id name) as [i|] eqn:Hi.
  2:{ split_and!; [|done|done]. split; [by left|by intros [?|[? _]]]. }
  assert (is_Some (h !! i)) as [s Hs].
  { unfold importing_scope in Hi. apply ascend_some in Hi as (i' & s & Hs & Hf); [|done].
    case_decide; simplify_eq. eauto. }
  set (f := fun s => set_used s ({[name]} ∪ mUsedModules s)).
  assert (parents_before (update f i h)) as Hh' by (by apply parents_before_alter).
  assert (forall k, mParent <$> h !! k = mParent <$> update f i h !! k) as Hpar.
  { intros k. unfold update. destruct (decide (k = i)) as [->|Hk].
    - rewrite lookup_alter_eq. by destruct (h !! i).
    - by rewrite lookup_alter_ne by done. }
  assert (forall k s1 s2, h !! k = Some s1 -> update f i h !! k = Some s2 ->
            mSymbolList s2 = mSymbolList s1 /\ mImportedModules s2 = mImportedModules s1) as Hsame.
  { intros k s1 s2 H1. unfold update. destruct (decide (k = i)) as [->|Hk].
    - rewrite lookup_alter_eq, H1. by intros [= <-].
    - rewrite lookup_alter_ne by done. intros; by simplify_eq. }
  split_and!.
  - unfold wasModuleUsed, update. destruct (decide (j = i)) as [->|Hj].
    + rewrite lookup_alter_eq, Hs. simpl. rewrite !bool_decide_eq_true. set_solver.
    + rewrite lookup_alter_ne by done. split; [by left|intros [?|[[= <-] _]]; [done|by destruct Hj]].
  - intros x. unfold findSymbol. symmetry.
    apply ascend_ext; [done..|].
    intros k s1 s2 H1 H2. by destruct (Hsame _ _ _ H1 H2) as [-> _].
  - unfold isModuleImported. f_equal.
    assert (importing_scope (update f i h) j m' = importing_scope h j m') as ->; [|done].
    unfold importing_scope. symmetry. apply ascend_ext; [done..|].
    intros k s1 s2 H1 H2. by destruct (Hsame _ _ _ H1 H2) as [_ ->].
Qed.

Lemma markModuleUsed_exact_witness :
  let h : heap := {[ 0 := set_imported (Scope_new kScope_Module) {["net"]};
                     1 := set_parent (Scope_new kScope_Function) (Some 0) ]} in
  let h' := markModuleUsed "net" 1 h in
  (wasModuleUsed h' 0 "net" = true <->
     wasModuleUsed h 0 "net" = true \/ (importing_scope h 1 "net" = Some 0 /\ "net" = "net")) /\
  (forall x, findSymbol h' 0 x = findSymbol h 0 x) /\
  isModuleImported h' 0 "net" = isModuleImported h 0 "net".
Proof.
  intros h. apply (markModuleUsed_exact h 1 0 "net" "net").
  intros i s p. unfold h. rewrite lookup_insert_Some.
  intros [[<- <-]|[_ Hi]] Hp; [discriminate Hp|].
  apply lookup_singleton_Some in Hi as [<- <-]. injection Hp as <-. lia.
Defined.
