(* ===== verification/SemaTypes.v ===== *)
(** The type-level judgements of the semantic pass ([src/Sema.cpp]): which types
    are compatible, what names a struct, an enum or a protocol, and what
    mentions a generic parameter. *)

From S2P Require Import Prelude SourceLocation Ast Scope.

(** What the pass asks of the symbol table: what a name resolves to, seen from
    a scope. *)
Class SymbolTable (T : Type) := {
  lookup_symbol : T -> nat -> string -> option Symbol;
  lookup_type : T -> nat -> string -> option Ty
}.

#[export] Instance scope_table : SymbolTable (heap) := {
  lookup_symbol := findSymbol;
  lookup_type := findType
}.

Definition isGenericParamName (structDef : option StructDefinition) (typeName : string) : bool :=
  match structDef with
  | None => false
  | Some sd => existsb (fun gp => bool_decide (gp_name gp = typeName)) (s_generics sd)
  end.

(** A function type has no type arguments and is named [fn]. *)
Fixpoint mentionsGenericParam (structDef : option StructDefinition) (t : Ty) : bool :=
  match t with
  | Type_ name params =>
      isGenericParamName structDef name || existsb (mentionsGenericParam structDef) params
  | FunctionType _ _ => isGenericParamName structDef "fn"
  end.

Definition isScalarTypeName (n : string) : bool :=
  bool_decide (n ∈ ["int"; "long"; "short"; "byte"; "char"; "bool"; "float"; "double"]).

Definition looksGenericParam (n : string) : bool :=
  match n with String c EmptyString => isupper c | _ => false end.

Definition isContainerKind (n : string) : bool :=
  bool_decide (n ∈ ["Array"; "Option"; "Result"; "Buffer"; "Map"; "Set"]).

Definition typeName (t : option Ty) : string :=
  match t with
  | Some t => if decide (ty_name t = "") then "<unknown>" else ty_name t
  | None => "<unknown>"
  end.

Section types.
Context {T : Type} `{SymbolTable T} (table : T) (mScope : nat).

Definition find (name : string) : option Symbol := lookup_symbol table mScope name.

Definition isCheckableType (t : option Ty) : bool :=
  match t with
  | None => false
  | Some t =>
      let n := ty_name t in
      if decide (n = "") then false
      else if isScalarTypeName n || bool_decide (n = "string") then true
      else bool_decide (is_Some (as_struct (find n)))
  end.

Definition typesCompatible (from to : option Ty) : bool :=
  match from, to with
  | Some from, Some to =>
      let f := ty_name from in
      let t := ty_name to in
      if bool_decide (f = "") || bool_decide (t = "") then true
      else if decide (f = t) then true
      else if looksGenericParam f || looksGenericParam t then true
      else if isContainerKind f && isContainerKind t then false
      else if negb (isCheckableType (Some from)) || negb (isCheckableType (Some to)) then true
      else if isScalarTypeName f && isScalarTypeName t then true
      else false
  | _, _ => true
  end.

Definition structForType (baseType : option Ty) : option StructDefinition :=
  match baseType with None => None | Some t => as_struct (find (ty_name t)) end.

Definition enumForType (t : option Ty) : option EnumDefinition :=
  match t with None => None | Some t => as_enum (find (ty_name t)) end.

Definition isHeapType (t : option Ty) : bool :=
  match t with
  | None => false
  | Some t =>
      let n := ty_name t in
      if bool_decide (n = "string") || bool_decide (n = "Array") || bool_decide (n = "Buffer")
      then true
      else bool_decide (is_Some (as_struct (find n)))
  end.
End types.

Definition hasJson (sd : StructDefinition) : bool :=
  existsb (fun ann => bool_decide (ann_name ann = "json")) (s_annotations sd).

Definition isExportedDataContract (structDef : StructDefinition) : bool :=
  if s_table structDef then true else hasJson structDef.
