(* ===== verification/Sema.v ===== *)
(** The semantic pass ([class Sema], [src/Sema.h], [src/Sema.cpp]): a walk over
    the syntax tree of a module that resolves members, records types and
    reports errors, as functions on an explicit state.  Each case of
    [visitExpr] and [visitStmt] is a definition that takes the visits of the
    node's children as computations; the walk itself ties them together. *)

From stdpp Require Import pretty.
From S2P Require Import Prelude SourceLocation Diagnostics Ast Scope SemaTypes.

(** The members of [class Sema], and the fields of the tree it writes: the
    types of variables, and resolved types, fields and methods by node. *)
Record Sema := mkSema {
  mDiag : DiagnosticEngine;
  mReported : bool;
  mCurrentFunc : option FunctionDefinition;
  mMoved : gset nat;
  mDeclLoopDepth : gmap nat Z;
  mDeclSpawnDepth : gmap nat Z;
  mLoopDepth : Z;
  mSpawnDepth : Z;
  mLocalDecls : list VariableDefinition;
  mReferencedNames : gset string;
  mVarTypes : gmap nat Ty;
  mResolvedTypes : gmap nat Ty;
  mResolvedFields : gmap nat VariableDefinition;
  mResolvedMethods : gmap nat FunctionDefinition
}.

Section setters.
Variable s : Sema.
Definition with_report (d : DiagnosticEngine) (r : bool) : Sema :=
  mkSema d r (mCurrentFunc s) (mMoved s) (mDeclLoopDepth s) (mDeclSpawnDepth s) (mLoopDepth s)
    (mSpawnDepth s) (mLocalDecls s) (mReferencedNames s) (mVarTypes s) (mResolvedTypes s)
    (mResolvedFields s) (mResolvedMethods s).
Definition with_func (f : option FunctionDefinition) : Sema :=
  mkSema (mDiag s) (mReported s) f (mMoved s) (mDeclLoopDepth s) (mDeclSpawnDepth s)
    (mLoopDepth s) (mSpawnDepth s) (mLocalDecls s) (mReferencedNames s) (mVarTypes s)
    (mResolvedTypes s) (mResolvedFields s) (mResolvedMethods s).
Definition with_moved (m : gset nat) : Sema :=
  mkSema (mDiag s) (mReported s) (mCurrentFunc s) m (mDeclLoopDepth s) (mDeclSpawnDepth s)
    (mLoopDepth s) (mSpawnDepth s) (mLocalDecls s) (mReferencedNames s) (mVarTypes s)
    (mResolvedTypes s) (mResolvedFields s) (mResolvedMethods s).
Definition with_decl_depths (l p : gmap nat Z) : Sema :=
  mkSema (mDiag s) (mReported s) (mCurrentFunc s) (mMoved s) l p (mLoopDepth s) (mSpawnDepth s)
    (mLocalDecls s) (mReferencedNames s) (mVarTypes s) (mResolvedTypes s) (mResolvedFields s)
    (mResolvedMethods s).
Definition with_depths (l p : Z) : Sema :=
  mkSema (mDiag s) (mReported s) (mCurrentFunc s) (mMoved s) (mDeclLoopDepth s)
    (mDeclSpawnDepth s) l p (mLocalDecls s) (mReferencedNames s) (mVarTypes s)
    (mResolvedTypes s) (mResolvedFields s) (mResolvedMethods s).
Definition with_locals (l : list VariableDefinition) : Sema :=
  mkSema (mDiag s) (mReported s) (mCurrentFunc s) (mMoved s) (mDeclLoopDepth s)
    (mDeclSpawnDepth s) (mLoopDepth s) (mSpawnDepth s) l (mReferencedNames s) (mVarTypes s)
    (mResolvedTypes s) (mResolvedFields s) (mResolvedMethods s).
Definition with_names (n : gset string) : Sema :=
  mkSema (mDiag s) (mReported s) (mCurrentFunc s) (mMoved s) (mDeclLoopDepth s)
    (mDeclSpawnDepth s) (mLoopDepth s) (mSpawnDepth s) (mLocalDecls s) n (mVarTypes s)
    (mResolvedTypes s) (mResolvedFields s) (mResolvedMethods s).
Definition with_tree (v r : gmap nat Ty) (f : gmap nat VariableDefinition)
  (m : gmap nat FunctionDefinition) : Sema :=
  mkSema (mDiag s) (mReported s) (mCurrentFunc s) (mMoved s) (mDeclLoopDepth s)
    (mDeclSpawnDepth s) (mLoopDepth s) (mSpawnDepth s) (mLocalDecls s) (mReferencedNames s)
    v r f m.
End setters.

(** The constructor; [types] holds the types the parser gave the variables. *)
Definition Sema_new (diag : DiagnosticEngine) (types : gmap nat Ty) : Sema :=
  mkSema diag false None ∅ ∅ ∅ 0 0 [] ∅ types ∅ ∅ ∅.

Notation sema := (st Sema).

(** * Primitive effects *)

(** [mDiag.error( loc, msg ); mReported = true]. *)
Definition report_error (loc : SourceLocation) (msg : string) : sema unit :=
  st_modify (fun s => with_report s (error loc msg (mDiag s)) true).

Definition report_warning (loc : SourceLocation) (msg code : string) : sema unit :=
  st_modify (fun s => with_report s (warning loc msg code (mDiag s)) (mReported s)).

Definition getVariableType (v : VariableDefinition) : sema (option Ty) :=
  st_get (fun s => mVarTypes s !! vid v).

Definition setType (v : VariableDefinition) (t : Ty) : sema unit :=
  st_modify (fun s => with_tree s (<[vid v := t]> (mVarTypes s)) (mResolvedTypes s)
                        (mResolvedFields s) (mResolvedMethods s)).

Definition setResolvedType (n : Node) (t : option Ty) : sema unit :=
  st_modify (fun s => with_tree s (mVarTypes s) (partial_alter (fun _ => t) (node_id n) (mResolvedTypes s))
                        (mResolvedFields s) (mResolvedMethods s)).

Definition getResolvedType (n : Node) : sema (option Ty) :=
  st_get (fun s => mResolvedTypes s !! node_id n).

Definition setResolvedField (n : Node) (f : VariableDefinition) : sema unit :=
  st_modify (fun s => with_tree s (mVarTypes s) (mResolvedTypes s)
                        (<[node_id n := f]> (mResolvedFields s)) (mResolvedMethods s)).

Definition setResolvedMethod (n : Node) (f : FunctionDefinition) : sema unit :=
  st_modify (fun s => with_tree s (mVarTypes s) (mResolvedTypes s) (mResolvedFields s)
                        (<[node_id n := f]> (mResolvedMethods s))).

(** [expr->setResolvedType( t ); return t]. *)
Definition resolved (n : Node) (t : option Ty) : sema (option Ty) := setResolvedType n t;; mret t.

Definition reference (v : VariableDefinition) : sema unit :=
  st_modify (fun s => with_names s ({[v_name v]} ∪ mReferencedNames s)).

Definition move (v : VariableDefinition) : sema unit :=
  st_modify (fun s => with_moved s ({[vid v]} ∪ mMoved s)).

Definition unmove (v : VariableDefinition) : sema unit :=
  st_modify (fun s => with_moved s (mMoved s ∖ {[vid v]})).

(** [mLoopDepth++; ...; mLoopDepth--], and the same for spawn bodies. *)
Definition in_loop (m : sema unit) : sema unit :=
  st_modify (fun s => with_depths s (mLoopDepth s + 1) (mSpawnDepth s));;
  m;;
  st_modify (fun s => with_depths s (mLoopDepth s - 1) (mSpawnDepth s)).

Definition in_spawn (m : sema unit) : sema unit :=
  st_modify (fun s => with_depths s (mLoopDepth s) (mSpawnDepth s + 1));;
  m;;
  st_modify (fun s => with_depths s (mLoopDepth s) (mSpawnDepth s - 1)).

(** [saved = mCurrentFunc; mCurrentFunc = f; ...; mCurrentFunc = saved]. *)
Definition in_function (f : option FunctionDefinition) (m : sema unit) : sema unit :=
  saved ← st_get mCurrentFunc;
  st_modify (fun s => with_func s f);;
  m;;
  st_modify (fun s => with_func s saved).

Definition show_int (z : Z) : string := pretty z.
Definition show_size (n : nat) : string := pretty (N.of_nat n).

Definition own (v : VariableDefinition) : bool := bool_decide (v_ownership v = kOwnership_Own).

(** [dynamic_cast<VariableExpression *>( e )->getVariable()]. *)
Definition variable_of (e : Expr) : option VariableDefinition :=
  match e with VariableExpression _ v => v | _ => None end.

(** * Declaration checks *)
Section pass.
Context {T : Type} `{SymbolTable T} (table : T) (mScope : nat) (mModuleId : string).
(** Where the variables live: a [std::set] of pointers is ordered by address. *)
Variable address : nat -> N.

Let find_ := find table mScope.

Definition checkReservedName (name : string) (loc : SourceLocation) (kind : string) : sema unit :=
  match name with
  | String "_" (String "_" _) =>
      report_error loc (kind +:+ " name '" +:+ name +:+
        "' is reserved: names beginning with '__' belong to the compiler's generated-symbol family")
  | _ => st_skip
  end.

(** The part of [checkExportedTypeRef] that concerns the type's own name. *)
Definition checkExportedName (name : string) (loc : SourceLocation) (what : string) : sema unit :=
  let check isPublic kind :=
    if isPublic : bool then st_skip
    else report_error loc (what +:+ " references " +:+ kind +:+ " '" +:+ name +:+
      "', which is not exported; add 'pub' to " +:+ kind +:+ " '" +:+ name +:+
      "' or remove it from the exported signature") in
  match find_ name with
  | Some (SymStruct sd) => check (s_public sd) "struct"
  | Some (SymEnum ed) => check (e_public ed) "enum"
  | Some (SymProtocol pd) => check (p_public pd) "protocol"
  | _ => st_skip
  end.

Fixpoint checkExportedTypeRef (type : Ty) (loc : SourceLocation) (what : string) : sema unit :=
  match type with
  | Type_ name params =>
      if bool_decide (name = "") || bool_decide (name = "self") || bool_decide (name = "void")
      then st_skip
      else
        st_each (fun t => checkExportedTypeRef t loc what) params;;
        checkExportedName name loc what
  | FunctionType _ _ => checkExportedName "fn" loc what
  end.

(** [checkExportedTypeRef] on a possibly null type. *)
Definition checkExportedTypePtr (type : option Ty) (loc : SourceLocation) (what : string) : sema unit :=
  match type with Some t => checkExportedTypeRef t loc what | None => st_skip end.

Definition checkExportedSignature (func : FunctionDefinition) (what : string) : sema unit :=
  st_each (fun param =>
    pt ← getVariableType param;
    match pt with
    | Some t => if decide (ty_name t = "self") then st_skip
                else checkExportedTypeRef t (f_location func) what
    | None => st_skip
    end) (f_params func);;
  checkExportedTypePtr (f_return func) (f_location func) what.

Definition checkBodylessMember (func : FunctionDefinition) (body : option Block) (ownerName : string) :
  sema unit :=
  if f_extern func then st_skip
  else
    match body with
    | Some _ => st_skip
    | None =>
        report_error (f_location func)
          (if f_init func then
             "constructor of struct '" +:+ ownerName +:+ "' has no body; " +:+
             "a bodyless 'init' is only valid in a .bmod interface file"
           else if decide (ownerName = "") then
             "function '" +:+ f_name func +:+ "' has no body; a bodyless " +:+
             "declaration is only valid in a .bmod interface file (use " +:+
             "'extern fn' to declare a foreign symbol)"
           else
             "method '" +:+ f_name func +:+ "' of struct '" +:+ ownerName +:+
             "' has no body; a bodyless method is only valid in a .bmod interface file")
    end.

(** A generic argument against the protocol that constrains its parameter. *)
Definition find_method (name : string) (l : list FunctionDefinition) : option FunctionDefinition :=
  snd <$> list_find (fun m => f_name m = name) l.

Fixpoint checkRequiredMethods (argName constraint paramName : string) (loc : SourceLocation)
  (methods required : list FunctionDefinition) : sema unit :=
  let prefix := "type '" +:+ argName +:+ "' does not satisfy constraint '" +:+ constraint +:+
                "' on generic parameter '" +:+ paramName in
  match required with
  | [] => st_skip
  | req :: required' =>
      match find_method (f_name req) methods with
      | None => report_error loc (prefix +:+ "': missing method '" +:+ f_name req +:+ "'")
      | Some m =>
          if decide (length (f_params m) <> length (f_params req)) then
            report_error loc (prefix +:+ "': method '" +:+ f_name req +:+ "' takes " +:+
              show_size (length (f_params m)) +:+ " parameter(s) but the protocol requires " +:+
              show_size (length (f_params req)))
          else checkRequiredMethods argName constraint paramName loc methods required'
      end
  end.

Definition checkConstraint (arg : Ty) (constraint paramName : string) (loc : SourceLocation) :
  sema unit :=
  if decide (constraint = "") then st_skip
  else
    match as_struct (find_ (ty_name arg)), as_protocol (find_ constraint) with
    | Some sd, Some pd =>
        checkRequiredMethods (ty_name arg) constraint paramName loc (s_methods sd) (p_methods pd)
    | _, _ => st_skip
    end.

(** * Database columns *)

Definition tableStructFor (tableName : string) (node : Node) : sema (option StructDefinition) :=
  match as_struct (find_ tableName) with
  | None => report_error (getLocation node) ("unknown table '" +:+ tableName +:+ "'");; mret None
  | Some sd =>
      if negb (s_table sd) then
        report_error (getLocation node)
          ("'" +:+ tableName +:+ "' is not a table struct (use `table struct`)");; mret None
      else mret (Some sd)
  end.

Definition checkTableField (tbl : StructDefinition) (field : string) (loc : SourceLocation) :
  sema unit :=
  if existsb (fun f => bool_decide (v_name f = field)) (s_fields tbl) then st_skip
  else report_error loc ("table '" +:+ s_name tbl +:+ "' has no field '" +:+ field +:+ "'").

Fixpoint collectQueryFieldExprs (e : Expr) : list (string * SourceLocation) :=
  match e with
  | QueryFieldExpression n name => [(name, getLocation n)]
  | OperationsExpression _ _ e1 e2 => collectQueryFieldExprs e1 ++ collectQueryFieldExprs e2
  | _ => []
  end.

Definition checkTableStep (tbl : StructDefinition) (node : Node) (step : QueryPipelineStep) :
  sema unit :=
  if decide (step_type step = SET) then
    st_each (fun sf => checkTableField tbl sf.1 (getLocation node)) (step_sets step)
  else
    st_each (fun r => checkTableField tbl r.1 r.2)
      (match step_expression step with Some e => collectQueryFieldExprs e | None => [] end).

Definition validateTableSteps (tableName : string) (steps : list QueryPipelineStep) (node : Node) :
  sema unit :=
  tbl ← tableStructFor tableName node;
  match tbl with
  | None => st_skip
  | Some tbl =>
      if existsb (fun step => bool_decide (step_type step = JOIN)) steps then st_skip
      else st_each (checkTableStep tbl node) steps
  end.

(** * Member resolution *)

Definition is_imported (structDef : StructDefinition) : bool :=
  let defMod := s_defining_file structDef in
  s_from_interface structDef ||
  (bool_decide (defMod <> "") && bool_decide (mModuleId <> "") && bool_decide (defMod <> mModuleId)).

Definition find_field (name : string) (l : list VariableDefinition) : option VariableDefinition :=
  snd <$> list_find (fun f => v_name f = name) l.

Definition private_field (n : Node) (name typename : string) : sema unit :=
  report_error (getLocation n)
    ("field '" +:+ name +:+ "' of type '" +:+ typename +:+ "' is private to its defining module").

Definition resolveFieldAccess (n : Node) (name : string) (baseType : option Ty) : sema unit :=
  match baseType, structForType table mScope baseType with
  | Some base, Some structDef =>
      match find_field name (s_fields structDef) with
      | Some field =>
          if is_imported structDef then private_field n name (ty_name base)
          else
            setResolvedField n field;;
            ft ← getVariableType field;
            st_when (negb (match ft with
                           | Some t => mentionsGenericParam (Some structDef) t
                           | None => false end))
              (setResolvedType n ft)
      | None =>
          match find_method name (s_methods structDef) with
          | Some _ => st_skip
          | None =>
              if is_imported structDef then private_field n name (ty_name base)
              else report_error (getLocation n)
                     ("type '" +:+ ty_name base +:+ "' has no field '" +:+ name +:+ "'")
          end
      end
  | _, _ => st_skip
  end.

(** The first generic parameter called [name] whose argument [base] has. *)
Fixpoint generic_argument (gps : list GenericParam) (args : list Ty) (name : string) : option Ty :=
  match gps, args with
  | gp :: gps', arg :: args' =>
      if decide (gp_name gp = name) then Some arg else generic_argument gps' args' name
  | _, _ => None
  end.

Definition resolveChannelCall (n : Node) (name : string) (nargs : nat) (base : Ty) : sema unit :=
  st_when (bool_decide (name = "recv") && bool_decide (nargs = 0))
    (setResolvedType n (Some (Type_ "Option" (take 1 (ty_params base))))).

Definition resolveMethodCall (n : Node) (name : string) (nargs : nat) (baseType : option Ty) :
  sema unit :=
  match baseType with
  | None => st_skip
  | Some base =>
      if decide (ty_name base = "chan") then resolveChannelCall n name nargs base
      else
        match structForType table mScope baseType with
        | None => st_skip
        | Some structDef =>
            match find_method name (s_methods structDef) with
            | Some method =>
                setResolvedMethod n method;;
                match f_return method with
                | None => st_skip
                | Some rt =>
                    if isGenericParamName (Some structDef) (ty_name rt) then
                      match generic_argument (s_generics structDef) (ty_params base) (ty_name rt) with
                      | Some arg => setResolvedType n (Some arg)
                      | None => st_skip
                      end
                    else setResolvedType n (Some rt)
                end
            | None =>
                match find_field name (s_fields structDef) with
                | Some _ => st_skip
                | None => report_error (getLocation n)
                            ("type '" +:+ ty_name base +:+ "' has no method '" +:+ name +:+ "'")
                end
            end
        end
  end.
End pass.
