(* ===== verification/SemaExpr.v ===== *)
(** The cases of [Sema::visitExpr] ([src/Sema.cpp]), each as a definition over
    the visits of the node's children. *)

From stdpp Require Import pretty.
From S2P Require Import Prelude SourceLocation Diagnostics Ast Scope SemaTypes Sema.

Section cases.
Context {T : Type} `{SymbolTable T} (table : T) (mScope : nat) (mModuleId : string).

Definition findType_ (name : string) : option Ty := lookup_type table mScope name.

(** ** Variables *)

Definition visit_variable (n : Node) (var : option VariableDefinition) : sema (option Ty) :=
  match var with
  | None => resolved n None
  | Some v =>
      reference v;;
      st_when (own v) (
        moved ← st_get mMoved;
        st_when (bool_decide (vid v ∈ moved))
          (report_error (getLocation n) ("use of moved variable '" +:+ v_name v +:+ "'"));;
        declSpawn ← st_get (fun s => default 0%Z (mDeclSpawnDepth s !! vid v));
        depth ← st_get mSpawnDepth;
        st_when (bool_decide (declSpawn < depth)%Z)
          (report_error (getLocation n)
             ("cannot capture own variable '" +:+ v_name v +:+ "' across a spawn boundary")));;
      t ← getVariableType v;
      resolved n t
  end.

(** ** Calls *)

Definition json_arg_type (arg : Expr) : sema string :=
  match arg with
  | StructLiteralExpression _ typeName _ _ _ => mret typeName
  | VariableExpression _ var =>
      match var with
      | Some v => t ← getVariableType v; mret (match t with Some t => ty_name t | None => "" end)
      | None => mret ""
      end
  | _ => t ← getResolvedType (expr_node arg); mret (match t with Some t => ty_name t | None => "" end)
  end.

Definition validateToJsonArg (n : Node) (params : list Expr) : sema unit :=
  match params with
  | [arg] =>
      name ← json_arg_type arg;
      match as_struct (find table mScope name) with
      | None => st_skip
      | Some sd =>
          st_when (negb (hasJson sd))
            (report_error (expr_location arg)
               ("to_json requires a @json-annotated struct, but '" +:+ name +:+
                "' is not annotated @json"))
      end
  | _ => report_error (getLocation n) "to_json expects exactly one argument"
  end.

(** Argument [i] of the call against the parameter's type. *)
Fixpoint check_arguments (name : string) (i : nat) (args : list Expr) (params : list VariableDefinition) :
  sema unit :=
  match args, params with
  | arg :: args', param :: params' =>
      at_ ← getResolvedType (expr_node arg);
      pt ← getVariableType param;
      st_when (bool_decide (is_Some pt) && negb (typesCompatible table mScope at_ pt))
        (report_error (expr_location arg)
           ("argument " +:+ show_size (i + 1) +:+ " to '" +:+ name +:+ "': cannot pass '" +:+
            typeName at_ +:+ "' as '" +:+ typeName pt +:+ "'"));;
      check_arguments name (S i) args' params'
  | _, _ => st_skip
  end.

Definition check_call (n : Node) (callee : FunctionDefinition) (args : list Expr) : sema unit :=
  if f_variadic callee || isGeneric_function callee || f_builtin callee then st_skip
  else if decide (length args <> length (f_params callee)) then
    report_error (getLocation n)
      ("wrong number of arguments to '" +:+ f_name callee +:+ "': expected " +:+
       show_size (length (f_params callee)) +:+ ", got " +:+ show_size (length args))
  else if f_extern callee then st_skip
  else check_arguments (f_name callee) 0 args (f_params callee).

(** An [own] variable passed for an [own] parameter is moved. *)
Definition move_argument (arg : Expr) (param : VariableDefinition) : sema unit :=
  if own param then
    match variable_of arg with
    | Some v => st_when (own v) (move v)
    | None => st_skip
    end
  else st_skip.

Fixpoint move_arguments (args : list Expr) (params : list VariableDefinition) : sema unit :=
  match args, params with
  | arg :: args', param :: params' => move_argument arg param;; move_arguments args' params'
  | _, _ => st_skip
  end.

Fixpoint check_constraints (n : Node) (gps : list GenericParam) (targs : list Ty) : sema unit :=
  match gps, targs with
  | gp :: gps', t :: targs' =>
      checkConstraint table mScope t (gp_constraint gp) (gp_name gp) (getLocation n);;
      check_constraints n gps' targs'
  | _, _ => st_skip
  end.

Definition visit_call (n : Node) (callee : option FunctionDefinition) (targs : list Ty)
  (args : list Expr) (visit_args : sema unit) : sema (option Ty) :=
  visit_args;;
  match callee with
  | None => resolved n None
  | Some callee =>
      t ← resolved n (f_return callee);
      if f_builtin callee && bool_decide (f_name callee = "to_json") then
        validateToJsonArg n args;; mret t
      else
        check_call n callee args;;
        move_arguments args (f_params callee);;
        st_when (isGeneric_function callee) (check_constraints n (f_generics callee) targs);;
        mret t
  end.

Definition visit_indirect_call (n : Node) (fnVar : option VariableDefinition)
  (visit_args : sema unit) : sema (option Ty) :=
  visit_args;;
  match fnVar with
  | None => resolved n None
  | Some v =>
      reference v;;
      vt ← getVariableType v;
      resolved n (match vt with Some (FunctionType ret _) => ret | _ => None end)
  end.

(** ** Queries *)

Definition visit_query (n : Node) (tableName : string) (steps : list QueryPipelineStep) :
  sema (option Ty) :=
  validateTableSteps table mScope tableName steps n;;
  let hasFirst := existsb (fun step => bool_decide (step_type step = FIRST)) steps in
  resolved n (Some (Type_ (if hasFirst : bool then "Option" else "Array") [Type_ tableName []])).

Definition visit_insert (n : Node) (tableName : string) (fieldNames : list string) :
  sema (option Ty) :=
  tbl ← tableStructFor table mScope tableName n;
  match tbl with
  | None => mret None
  | Some tbl => st_each (fun name => checkTableField tbl name (getLocation n)) fieldNames;; mret None
  end.

(** ** Members, indexing, operators *)

Definition visit_field_access (n : Node) (name : string) (visit_object : sema (option Ty)) :
  sema (option Ty) :=
  baseType ← visit_object;
  resolveFieldAccess table mScope mModuleId n name baseType;;
  getResolvedType n.

Definition visit_method_call (n : Node) (name : string) (nargs : nat)
  (visit_object : sema (option Ty)) (visit_args : sema unit) : sema (option Ty) :=
  baseType ← visit_object;
  visit_args;;
  resolveMethodCall table mScope n name nargs baseType;;
  getResolvedType n.

Definition element_type (t : option Ty) : option Ty :=
  match t with
  | Some t => if decide (ty_name t = "Array") then getTypeParam t 0 else None
  | None => None
  end.

Definition visit_index (n : Node) (visit_object visit_index : sema (option Ty)) : sema (option Ty) :=
  baseType ← visit_object; visit_index;; resolved n (element_type baseType).

Definition isArith (oper : string) : bool := bool_decide (oper ∈ ["+"; "-"; "*"; "/"; "%"]).
Definition isBoolResult (oper : string) : bool :=
  bool_decide (oper ∈ ["=="; "!="; "<"; ">"; "<="; ">="; "&&"; "||"]).

(** An operand of a user struct type. *)
Definition bad_operand (o : option Ty) : bool :=
  match o with
  | None => false
  | Some t =>
      bool_decide (ty_name t <> "") && negb (isScalarTypeName (ty_name t)) &&
      bool_decide (ty_name t <> "string") && bool_decide (ty_name t <> "Array") &&
      negb (looksGenericParam (ty_name t)) &&
      bool_decide (is_Some (structForType table mScope o))
  end.

Definition check_operands (n : Node) (oper : string) (lt rt : option Ty) : sema unit :=
  let reject o := report_error (getLocation n)
    ("operator '" +:+ oper +:+ "' cannot be applied to a value of type '" +:+ typeName o +:+ "'") in
  if bad_operand lt then reject lt else if bad_operand rt then reject rt else st_skip.

Definition concatenable (t : Ty) : bool :=
  bool_decide (ty_name t <> "") && negb (looksGenericParam (ty_name t)).

Definition check_concat (n : Node) (lt rt : option Ty) : sema unit :=
  match lt, rt with
  | Some l, Some r =>
      let lStr := bool_decide (ty_name l = "string") in
      let rStr := bool_decide (ty_name r = "string") in
      st_when (concatenable l && concatenable r && negb (Bool.eqb lStr rStr))
        (report_error (getLocation n)
           ("operator '+' cannot be applied to 'string' and '" +:+
            typeName (if lStr : bool then rt else lt) +:+ "' (use string interpolation)"))
  | _, _ => st_skip
  end.

Definition visit_operation (n : Node) (oper : string) (visit_left visit_right : sema (option Ty)) :
  sema (option Ty) :=
  lt ← visit_left;
  rt ← visit_right;
  st_when (isArith oper) (check_operands n oper lt rt);;
  st_when (bool_decide (oper = "+")) (check_concat n lt rt);;
  resolved n (if isBoolResult oper then findType_ "bool" else lt).

(** ** Assignments *)

Definition visit_assignment (n : Node) (var : option VariableDefinition)
  (visit_value : sema (option Ty)) : sema (option Ty) :=
  visit_value;;
  match var with
  | None => resolved n None
  | Some v => reference v;; unmove v;; t ← getVariableType v; resolved n t
  end.

Definition visit_field_assignment (n : Node) (object : Expr) (fieldName : string)
  (visit_object visit_value : sema (option Ty)) : sema (option Ty) :=
  visit_object;;
  visit_value;;
  match variable_of object with
  | Some v =>
      st_when (bool_decide (v_ownership v = kOwnership_Shared))
        (report_error (getLocation n)
           ("cannot assign to field '" +:+ fieldName +:+ "' through shared value '" +:+
            v_name v +:+ "'"))
  | None => st_skip
  end;;
  mret None.

(** ** Construction *)

Fixpoint comma_names (l : list Ty) : string :=
  match l with
  | [] => ""
  | [t] => ty_name t
  | t :: l' => ty_name t +:+ ", " +:+ comma_names l'
  end.

Definition constructor_spelling (typeName : string) (targs : list Ty) : string :=
  typeName +:+ match targs with [] => "" | _ => "<" +:+ comma_names targs +:+ ">" end.

Definition visit_struct_literal (n : Node) (name : string) (targs : list Ty)
  (visit_values : sema unit) : sema (option Ty) :=
  visit_values;;
  match as_struct (find table mScope name) with
  | Some sd =>
      st_when (s_from_interface sd)
        (report_error (getLocation n)
           ("struct literal for imported type '" +:+ name +:+
            "' is not permitted; construct it with " +:+ constructor_spelling name targs +:+ "(...)"))
  | None => st_skip
  end;;
  resolved n (findType_ name).

Definition visit_construct (n : Node) (structDef : option StructDefinition) (visit_args : sema unit) :
  sema (option Ty) :=
  visit_args;;
  match structDef with
  | None => resolved n None
  | Some csd =>
      match s_init csd with
      | Some init =>
          st_when (s_from_interface csd && negb (f_public init))
            (report_error (getLocation n)
               ("constructor of struct '" +:+ s_name csd +:+
                "' is private to its defining module; it cannot be constructed here"))
      | None => st_skip
      end;;
      resolved n (findType_ (s_name csd))
  end.

(** ** Match *)

(** The concrete type of a payload declared with type [at_]: the subject's
    argument when it is one of the enum's generic parameters. *)
Definition payload_type (ed : EnumDefinition) (subjType : Ty) (at_ : Ty) : Ty :=
  default at_ (generic_argument (e_generics ed) (ty_params subjType) (ty_name at_)).

Fixpoint bind_payloads (ed : EnumDefinition) (subjType : Ty) (scope : nat) (names : list string)
  (types : list Ty) : sema unit :=
  match names, types with
  | name :: names', at_ :: types' =>
      match as_variable (lookup_symbol table scope name) with
      | Some vd => setType vd (payload_type ed subjType at_)
      | None => st_skip
      end;;
      bind_payloads ed subjType scope names' types'
  | _, _ => st_skip
  end.

(** The variant an arm destructures. *)
Definition find_variant (pattern : string) (vs : list Variant) : option Variant :=
  snd <$> list_find (fun v => variant_name v = pattern /\ variant_types v <> []) vs.

Definition bind_arm (n : Node) (ed : EnumDefinition) (subjType : Ty) (arm : MatchArm) : sema unit :=
  match arm with
  | mkArm pattern names body _ scope _ _ =>
      match names, match body with Some b => block_scope b | None => scope end with
      | _ :: _, Some armScope =>
          match find_variant pattern (e_variants ed) with
          | Some v =>
              st_when (bool_decide (length (variant_types v) < length names))
                (report_error (getLocation n)
                   ("match pattern '" +:+ pattern +:+ "' binds " +:+ show_size (length names) +:+
                    " values but variant has " +:+ show_size (length (variant_types v)) +:+
                    " associated type(s)"));;
              bind_payloads ed subjType armScope names (variant_types v)
          | None => st_skip
          end
      | _, _ => st_skip
      end
  end.

Definition bind_arms (n : Node) (subjType : option Ty) (arms : list MatchArm) : sema unit :=
  match subjType, enumForType table mScope subjType with
  | Some t, Some ed => st_each (bind_arm n ed t) arms
  | _, _ => st_skip
  end.

(** One arm of the walk; the accumulator is [unified]. *)
Definition visit_arm (unified : option Ty) (visit_body : option (sema unit)) (value : option Expr)
  (visit_value : sema (option Ty)) : sema (option Ty) :=
  match visit_body with
  | Some visit => visit;; mret unified
  | None =>
      at_ ← visit_value;
      match at_, unified with
      | None, _ => mret unified
      | Some _, None => mret at_
      | Some a, Some u =>
          st_when (negb (typesCompatible table mScope at_ unified))
            (report_error (match value with Some e => expr_location e | None => no_location end)
               ("match arms have incompatible types: '" +:+ ty_name a +:+ "' vs '" +:+
                ty_name u +:+ "'"));;
          mret unified
      end
  end.

Definition has_wildcard (arms : list MatchArm) : bool := existsb arm_wildcard arms.

Definition covered (arms : list MatchArm) (name : string) : bool :=
  existsb (fun arm => negb (arm_wildcard arm) && bool_decide (arm_pattern arm = name)) arms.

Definition first_uncovered (arms : list MatchArm) (vs : list Variant) : option Variant :=
  snd <$> list_find (fun v => covered arms (variant_name v) = false) vs.

Definition check_exhaustive (n : Node) (ed : option EnumDefinition) (arms : list MatchArm) :
  sema unit :=
  match ed with
  | Some ed =>
      if has_wildcard arms then st_skip
      else
        match first_uncovered arms (e_variants ed) with
        | Some v => report_error (getLocation n)
                      ("non-exhaustive match: variant '" +:+ variant_name v +:+ "' of enum '" +:+
                       e_name ed +:+ "' is not handled")
        | None => st_skip
        end
  | None => st_skip
  end.

Definition check_match_value (n : Node) (ed : option EnumDefinition) (arms : list MatchArm) :
  sema unit :=
  st_when (bool_decide (ed = None) && negb (has_wildcard arms))
    (report_error (getLocation n)
       "match used as an expression on a non-enum subject must have a wildcard '_' arm");;
  st_when (bool_decide (arms = []))
    (report_error (getLocation n) "match used as an expression must have at least one arm").

Definition visit_match (n : Node) (arms : list MatchArm) (exprMode : bool)
  (visit_subject : sema (option Ty)) (visit_arms : sema (option Ty)) : sema (option Ty) :=
  subjType ← visit_subject;
  let ed := enumForType table mScope subjType in
  bind_arms n subjType arms;;
  unified ← visit_arms;
  check_exhaustive n ed arms;;
  if exprMode then check_match_value n ed arms;; resolved n unified
  else mret None.
End cases.
