(* ===== verification/SemaWalk.v ===== *)
(** The cases of [Sema::visitStmt], the captures of a spawn body, the walk over
    the tree, and the entry point [Sema::analyze] ([src/Sema.cpp]). *)

From S2P Require Import Prelude SourceLocation Diagnostics Ast Scope SemaTypes Sema SemaExpr.

Section walk.
Context {T : Type} `{SymbolTable T} (table : T) (mScope : nat) (mModuleId : string).
Variable address : nat -> N.

(** ** Statements *)

Definition visit_return (n : Node) (value : option Expr) (visit_value : sema (option Ty)) :
  sema unit :=
  vt ← visit_value;
  func ← st_get mCurrentFunc;
  match func with
  | None => st_skip
  | Some func =>
      match f_return func, value with
      | None, _ => st_skip
      | Some rt, None =>
          report_error (getLocation n)
            ("return with no value in function '" +:+ f_name func +:+ "' returning '" +:+
             typeName (Some rt) +:+ "'")
      | Some rt, Some _ =>
          st_when (negb (typesCompatible table mScope vt (Some rt)))
            (report_error (getLocation n)
               ("cannot return '" +:+ typeName vt +:+ "' from function '" +:+ f_name func +:+
                "' returning '" +:+ typeName (Some rt) +:+ "'"))
      end
  end.

(** The type of a [for] variable over the iterable. *)
Definition loop_element (iterable : option Expr) (iterType : option Ty) : option Ty :=
  match element_type iterType with
  | Some t => Some t
  | None =>
      match iterable with
      | Some (RangeExpression _ _ _) => Some (Type_ "int" [])
      | _ => None
      end
  end.

Definition type_loop_variable (variableName secondVariableName : string) (iterable : option Expr)
  (body : option Stmt) (isInfinite : bool) (iterType : option Ty) : sema unit :=
  if isInfinite || bool_decide (secondVariableName <> "") then st_skip
  else
    match loop_element iterable iterType, body with
    | Some elemType, Some (SBlock b) =>
        match block_scope b with
        | Some scope =>
            match as_variable (lookup_symbol table scope variableName) with
            | Some lv =>
                cur ← getVariableType lv;
                st_when (match cur with None => true | Some c => bool_decide (ty_name c = "var") end)
                  (setType lv elemType)
            | None => st_skip
            end
        | None => st_skip
        end
    | _, _ => st_skip
    end.

Definition declare_local (var : VariableDefinition) : sema unit :=
  st_modify (fun s => with_locals s (mLocalDecls s ++ [var]));;
  checkReservedName (v_name var) (v_location var) "variable".

(** [var] takes the type of its initializer. *)
Definition infer_var (var : VariableDefinition) (initType : option Ty) : sema unit :=
  match initType with
  | Some t =>
      if decide (ty_name t = "var") then st_skip
      else
        declType ← getVariableType var;
        match declType with
        | Some d => st_when (bool_decide (ty_name d = "var")) (setType var t)
        | None => st_skip
        end
  | None => st_skip
  end.

Definition check_initializer (var : VariableDefinition) (initial : option Expr)
  (initType : option Ty) : sema unit :=
  match initial with
  | Some e =>
      declType ← getVariableType var;
      st_when (bool_decide (is_Some declType) && negb (typesCompatible table mScope initType declType))
        (report_error (expr_location e)
           ("cannot initialize '" +:+ typeName declType +:+ "' from a value of type '" +:+
            typeName initType +:+ "'"))
  | None => st_skip
  end.

Definition check_channel (n : Node) (var : VariableDefinition) : sema unit :=
  vt ← getVariableType var;
  match vt with
  | Some t =>
      let elem := getTypeParam t 0 in
      st_when (bool_decide (ty_name t = "chan") && isHeapType table mScope elem)
        (report_error (getLocation n)
           ("channel element type '" +:+ typeName elem +:+
            "' is not supported: channels carry value types only " +:+
            "(a refcounted element would be copied without ownership)"))
  | None => st_skip
  end.

Definition record_depths (var : VariableDefinition) : sema unit :=
  st_modify (fun s => with_decl_depths s
    (<[vid var := mLoopDepth s]> (mDeclLoopDepth s))
    (<[vid var := mSpawnDepth s]> (mDeclSpawnDepth s))).

(** An initializer that is an [own] variable moves it, but not inside a loop
    that the variable was declared outside of. *)
Definition move_initializer (initial : option Expr) : sema unit :=
  match initial with
  | Some e =>
      match variable_of e with
      | Some src =>
          st_when (own src) (
            declDepth ← st_get (fun s => default 0%Z (mDeclLoopDepth s !! vid src));
            depth ← st_get mLoopDepth;
            if decide (declDepth < depth)%Z then
              report_error (expr_location e)
                ("move of own variable '" +:+ v_name src +:+ "' inside a loop")
            else move src)
      | None => st_skip
      end
  | None => st_skip
  end.

Definition visit_declaration (n : Node) (var : option VariableDefinition) (initial : option Expr)
  (visit_initial : sema (option Ty)) : sema unit :=
  match var with
  | None => visit_initial;; move_initializer initial
  | Some v =>
      declare_local v;;
      initType ← visit_initial;
      infer_var v initType;;
      check_initializer v initial initType;;
      check_channel n v;;
      record_depths v;;
      move_initializer initial
  end.

(** ** Captures of a spawn body *)

(** [std::set<VariableDefinition *>], ordered by address. *)
Fixpoint ptr_insert (v : VariableDefinition) (l : list VariableDefinition) : list VariableDefinition :=
  match l with
  | [] => [v]
  | w :: l' =>
      if decide (address (vid v) = address (vid w)) then l
      else if decide (address (vid v) < address (vid w))%N then v :: l
      else w :: ptr_insert v l'
  end.

Definition ptr_insert_opt (v : option VariableDefinition) (l : list VariableDefinition) :=
  match v with Some v => ptr_insert v l | None => l end.

(** [refs] and [locals]. *)
Notation captures := (list VariableDefinition * list VariableDefinition)%type.

Definition collect_opt {A} (f : A -> captures -> captures) (o : option A) (acc : captures) : captures :=
  match o with Some a => f a acc | None => acc end.

Definition collect_all {A} (f : A -> captures -> captures) : list A -> captures -> captures :=
  fix go l acc := match l with [] => acc | a :: l' => go l' (f a acc) end.

Fixpoint collect_expr (e : Expr) (acc : captures) {struct e} : captures :=
  match e with
  | VariableExpression _ v => (ptr_insert_opt v acc.1, acc.2)
  | AssignmentExpression _ _ v value => collect_expr value (ptr_insert_opt v acc.1, acc.2)
  | IndirectCallExpression _ v params =>
      collect_all collect_expr params (ptr_insert_opt v acc.1, acc.2)
  | CallExpression _ _ _ params => collect_all collect_expr params acc
  | MethodCallExpression _ object _ args => collect_all collect_expr args (collect_expr object acc)
  | FieldAccessExpression _ object _ => collect_expr object acc
  | FieldAssignmentExpression _ _ object _ value => collect_expr value (collect_expr object acc)
  | IndexExpression _ object index => collect_expr index (collect_expr object acc)
  | IndexAssignmentExpression _ _ object index value =>
      collect_expr value (collect_expr index (collect_expr object acc))
  | OperationsExpression _ _ op1 op2 => collect_expr op2 (collect_expr op1 acc)
  | UnaryExpression _ _ operand => collect_expr operand acc
  | ArrayLiteralExpression _ elements => collect_all collect_expr elements acc
  | StringInterpolation _ parts => collect_all collect_expr parts acc
  | ConstructExpression _ _ _ args => collect_all collect_expr args acc
  | _ => acc
  end.

Fixpoint collect_stmt (s : Stmt) (acc : captures) {struct s} : captures :=
  match s with
  | SExpression e => collect_expr e acc
  | SBlock b => collect_block b acc
  | VariableDeclaration _ decls => collect_all collect_decl decls acc
  | IfStatement _ cond body orelse =>
      collect_opt collect_stmt orelse (collect_opt collect_stmt body (collect_expr cond acc))
  | WhileStatement _ cond body => collect_opt collect_stmt body (collect_expr cond acc)
  | ForInStatement _ _ _ iterable body _ =>
      collect_opt collect_stmt body (collect_opt collect_expr iterable acc)
  | ReturnStatement _ value => collect_opt collect_expr value acc
  | AssertStatement _ e _ => collect_expr e acc
  | _ => acc
  end
with collect_block (b : Block) (acc : captures) {struct b} : captures :=
  match b with mkBlock _ _ stmts => collect_all collect_stmt stmts acc end
with collect_decl (d : DeclData) (acc : captures) {struct d} : captures :=
  match d with
  | mkDecl var initial => collect_opt collect_expr initial (acc.1, ptr_insert_opt var acc.2)
  end.

Definition check_capture (n : Node) (locals : list VariableDefinition) (v : VariableDefinition) :
  sema unit :=
  if decide (vid v ∈ vid <$> locals) then st_skip
  else if decide (v_ownership v <> kOwnership_Value) then st_skip
  else
    vt ← getVariableType v;
    st_when (isHeapType table mScope vt)
      (report_error (getLocation n)
         ("captured variable '" +:+ v_name v +:+
          "' must be declared shared or sync to cross a spawn boundary")).

Definition visit_spawn (n : Node) (body : option Block) (visit_body : sema unit) : sema (option Ty) :=
  in_spawn visit_body;;
  let '(refs, locals) := collect_opt collect_block body ([], []) in
  st_each (check_capture n locals) refs;;
  mret None.

(** ** The walk *)

Definition visit_opt {A} (visit : A -> sema unit) (o : option A) : sema unit :=
  match o with Some a => visit a | None => st_skip end.

Definition visit_value_opt (visit : Expr -> sema (option Ty)) (o : option Expr) : sema (option Ty) :=
  match o with Some e => visit e | None => mret None end.

Definition visit_args (visit : Expr -> sema (option Ty)) : list Expr -> sema unit :=
  st_each (fun e => visit e;; st_skip).

Fixpoint visitExpr (e : Expr) {struct e} : sema (option Ty) :=
  match e with
  | ConstInteger n _ => resolved n (findType_ table mScope "int")
  | ConstFloat n _ => resolved n (findType_ table mScope "double")
  | ConstString n _ => resolved n (findType_ table mScope "string")
  | StringInterpolation n parts =>
      visit_args visitExpr parts;; resolved n (findType_ table mScope "string")
  | ConstChar n _ => resolved n (findType_ table mScope "char")
  | VariableExpression n var => visit_variable n var
  | CallExpression n callee targs args =>
      visit_call table mScope n callee targs args (visit_args visitExpr args)
  | IndirectCallExpression n fnVar args => visit_indirect_call n fnVar (visit_args visitExpr args)
  | QueryExpression n tableName steps => visit_query table mScope n tableName steps
  | UpdateExpression n tableName steps | DeleteExpression n tableName steps =>
      validateTableSteps table mScope tableName steps n;; mret None
  | InsertExpression n tableName fieldNames _ => visit_insert table mScope n tableName fieldNames
  | FieldAccessExpression n object name =>
      visit_field_access table mScope mModuleId n name (visitExpr object)
  | MethodCallExpression n object name args =>
      visit_method_call table mScope n name (length args) (visitExpr object)
        (visit_args visitExpr args)
  | IndexExpression n object index => visit_index n (visitExpr object) (visitExpr index)
  | OperationsExpression n oper op1 op2 =>
      visit_operation table mScope n oper (visitExpr op1) (visitExpr op2)
  | UnaryExpression n _ operand => t ← visitExpr operand; resolved n t
  | AssignmentExpression n _ var value => visit_assignment n var (visitExpr value)
  | FieldAssignmentExpression n _ object fieldName value =>
      visit_field_assignment n object fieldName (visitExpr object) (visitExpr value)
  | IndexAssignmentExpression _ _ object index value =>
      visitExpr object;; visitExpr index;; visitExpr value;; mret None
  | ArrayLiteralExpression n elements =>
      visit_args visitExpr elements;; resolved n (findType_ table mScope "Array")
  | RangeExpression _ start stop => visitExpr start;; visitExpr stop;; mret None
  | StructLiteralExpression n name targs _ values =>
      visit_struct_literal table mScope n name targs (visit_args visitExpr values)
  | ConstructExpression n structDef _ args =>
      visit_construct table mScope n structDef (visit_args visitExpr args)
  | EnumConstructExpression n enumDef _ args =>
      visit_args visitExpr args;;
      resolved n (match enumDef with Some ed => findType_ table mScope (e_name ed) | None => None end)
  | TryExpression _ operand | AwaitExpression _ operand => visitExpr operand;; mret None
  | PipelineExpression _ input transform => visitExpr input;; visitExpr transform;; mret None
  | MatchExpression n subject arms exprMode =>
      visit_match table mScope n arms exprMode (visitExpr subject)
        (st_fold (fun unified arm =>
           match arm with
           | mkArm _ _ body value _ _ _ =>
               visit_arm table mScope unified (visitBlock <$> body) value
                 (visit_value_opt visitExpr value)
           end) arms None)
  | LambdaExpression _ _ _ body => in_function None (visit_opt visitBlock body);; mret None
  | SpawnStatement n body => visit_spawn n body (visit_opt visitBlock body)
  | QueryFieldExpression _ _ | FunctionRefExpression _ _ => mret None
  end
with visitStmt (s : Stmt) {struct s} : sema unit :=
  match s with
  | SExpression e => visitExpr e;; st_skip
  | SBlock b => visitBlock b
  | ReturnStatement n value => visit_return n value (visit_value_opt visitExpr value)
  | IfStatement _ cond body orelse =>
      visitExpr cond;; visit_opt visitStmt body;; visit_opt visitStmt orelse
  | WhileStatement _ cond body => visitExpr cond;; in_loop (visit_opt visitStmt body)
  | ForInStatement _ name second iterable body isInfinite =>
      iterType ← visit_value_opt visitExpr iterable;
      type_loop_variable name second iterable body isInfinite iterType;;
      in_loop (visit_opt visitStmt body)
  | VariableDeclaration n decls =>
      st_each (fun decl =>
        match decl with
        | mkDecl var initial => visit_declaration n var initial (visit_value_opt visitExpr initial)
        end) decls
  | AssertStatement _ e _ => visitExpr e;; st_skip
  | WaitStatement _ e => visitExpr e;; st_skip
  | EventHandler _ e body => visitExpr e;; visit_opt visitBlock body
  | ForStatement _ _ _ _ _ | WaitAllStatement _ | BreakStatement _ | ContinueStatement _ => st_skip
  end
with visitBlock (b : Block) {struct b} : sema unit :=
  match b with mkBlock _ _ stmts => st_each visitStmt stmts end.
End walk.
