(* ===== verification/SemaModule.v ===== *)
(** The declaration walk and the entry point of the semantic pass
    ([Sema::visitFunction], [Sema::visitStruct], [Sema::analyze],
    [src/Sema.cpp]). *)

From S2P Require Import Prelude SourceLocation Diagnostics Ast Scope SemaTypes Sema SemaExpr SemaWalk.

Section module.
Context {T : Type} `{SymbolTable T} (table : T) (mScope : nat) (mModuleId : string).
Variable address : nat -> N.
(** The bodies of the module's functions, by their identity. *)
Variable bodies : gmap nat FunctionBody.

Definition no_body : FunctionBody := mkBody [] [] None.
Definition body_of (func : FunctionDefinition) : FunctionBody := default no_body (bodies !! fid func).

Notation visitExpr := (visitExpr table mScope mModuleId address).
Notation visitBlock := (visitBlock table mScope mModuleId address).

(** The per-function state is reset before a body is walked. *)
Definition enter_function : sema unit :=
  st_modify (fun s => with_moved s ∅);;
  st_modify (fun s => with_decl_depths s ∅ ∅);;
  st_modify (fun s => with_locals s []);;
  st_modify (fun s => with_names s ∅);;
  st_modify (fun s => with_depths s 0 0).

Definition warn_unused : sema unit :=
  locals ← st_get mLocalDecls;
  names ← st_get mReferencedNames;
  st_each (fun v => st_when (bool_decide (v_name v ∉ names))
    (report_warning (v_location v) ("unused variable '" +:+ v_name v +:+ "'") "unused-variable"))
    locals.

Definition visitFunction (func : FunctionDefinition) : sema unit :=
  if f_extern func then st_skip
  else
    let body := body_of func in
    visit_args visitExpr (mRequiresClauses body);;
    visit_args visitExpr (mEnsuresClauses body);;
    in_function (Some func) (
      enter_function;;
      visit_opt visitBlock (mFuncBody body);;
      warn_unused).

(** ** Structs *)

Definition check_table_column (structDef : StructDefinition) (f : VariableDefinition) : sema unit :=
  ft ← getVariableType f;
  let fn := match ft with Some t => ty_name t | None => "" end in
  st_when (negb (isScalarTypeName fn) && bool_decide (fn <> "string"))
    (report_error (s_location structDef)
       ("table struct '" +:+ s_name structDef +:+ "' field '" +:+ v_name f +:+ "' has type '" +:+
        fn +:+ "', which has no SQL column mapping (columns support " +:+
        "int/long/short/char/bool/float/double/string)")).

Definition check_contract_field (structDef : StructDefinition) (f : VariableDefinition) : sema unit :=
  ft ← getVariableType f;
  checkExportedTypePtr table mScope ft (s_location structDef)
    ("field '" +:+ v_name f +:+ "' of exported data-contract struct '" +:+ s_name structDef +:+ "'").

(** The method that satisfies a requirement of an exported conformance. *)
Definition check_conformance_method (structDef : StructDefinition) (proto : string)
  (req : FunctionDefinition) : sema unit :=
  match find_method (f_name req) (s_methods structDef) with
  | Some m =>
      st_when (negb (f_public m))
        (report_error (f_location m)
           ("method '" +:+ f_name m +:+ "' of exported struct '" +:+ s_name structDef +:+
            "' implements exported conformance to protocol '" +:+ proto +:+
            "', so it must be 'pub'; otherwise the interface promises a " +:+
            "conformance a consumer cannot call"))
  | None => st_skip
  end.

Definition check_conformance (structDef : StructDefinition) (proto : string) : sema unit :=
  match as_protocol (find table mScope proto) with
  | None => st_skip
  | Some pd =>
      if negb (p_public pd) then
        report_error (s_location structDef)
          ("exported struct '" +:+ s_name structDef +:+ "' conforms to protocol '" +:+ proto +:+
           "', which is not exported; add 'pub' to protocol '" +:+ proto +:+
           "' or drop the conformance")
      else if bool_decide (s_generics structDef <> []) then st_skip
      else st_each (check_conformance_method structDef proto) (p_methods pd)
  end.

Definition check_exported_struct (structDef : StructDefinition) : sema unit :=
  st_when (s_public structDef) (
    st_when (isExportedDataContract structDef)
      (st_each (check_contract_field structDef) (s_fields structDef));;
    st_each (check_conformance structDef) (s_conformed structDef)).

Definition visit_method (structDef : StructDefinition) (method : FunctionDefinition) : sema unit :=
  checkBodylessMember method (mFuncBody (body_of method)) (s_name structDef);;
  st_when (s_public structDef && f_public method)
    (checkExportedSignature table mScope method
       ((if f_init method then "constructor" else "method '" +:+ f_name method +:+ "'") +:+
        " of exported struct '" +:+ s_name structDef +:+ "'"));;
  st_when (negb (f_init method))
    (checkReservedName (f_name method) (f_location method) "method");;
  visitFunction method.

Definition visitStruct (structDef : StructDefinition) : sema unit :=
  st_when (s_table structDef) (st_each (check_table_column structDef) (s_fields structDef));;
  checkReservedName (s_name structDef) (s_location structDef) "struct";;
  check_exported_struct structDef;;
  st_each (fun f => checkReservedName (v_name f) (v_location f) "field") (s_fields structDef);;
  st_each (visit_method structDef) (s_methods structDef);;
  visit_opt visitFunction (s_init structDef).

(** ** The other declarations *)

Definition check_variant (e : EnumDefinition) (v : Variant) : sema unit :=
  st_each (fun pt => checkExportedTypeRef table mScope pt (e_location e)
    ("payload of exported enum '" +:+ e_name e +:+ "' variant '" +:+ variant_name v +:+ "'"))
    (variant_types v).

Definition check_enum (e : EnumDefinition) : sema unit :=
  checkReservedName (e_name e) (e_location e) "enum";;
  st_when (e_public e) (st_each (check_variant e) (e_variants e)).

Definition check_protocol (p : ProtocolDefinition) : sema unit :=
  checkReservedName (p_name p) (p_location p) "protocol".

Definition analyze_function (f : FunctionDefinition) : sema unit :=
  st_when (negb (f_extern f)) (
    checkReservedName (f_name f) (f_location f) "function";;
    st_when (f_public f)
      (checkExportedSignature table mScope f ("exported function '" +:+ f_name f +:+ "'")));;
  checkBodylessMember f (mFuncBody (body_of f)) "";;
  visitFunction f.

Definition analyze_module (m : Module_) : sema unit :=
  st_each visitStruct (mStructList m);;
  st_each check_enum (mEnumList m);;
  st_each check_protocol (mProtocolList m);;
  st_each analyze_function (mFunctionList m).
End module.

(** [Sema::analyze]: the verdict, and the state with the diagnostics and the
    annotated tree.  An interface module is not analyzed. *)
Definition analyze {T} `{SymbolTable T} (table : T) (address : nat -> N) (module : Module_)
  (scope : nat) (diag : DiagnosticEngine) (types : gmap nat Ty) : bool * Sema :=
  let s := Sema_new diag types in
  if mIsExtern module then (true, s)
  else
    let s := (analyze_module table scope (mDefiningFile module) address (mBodies module) module s).2 in
    (negb (mReported s), s).
