(* ===== verification/AstInduction.v ===== *)
(** Induction over the syntax tree through the children of a node that the
    semantic pass visits. *)

From S2P Require Import Prelude SourceLocation Ast.

Definition of_option {A} (o : option A) : list A := match o with Some a => [a] | None => [] end.

(** An arm with a block body has no value. *)
Definition arm_exprs (a : MatchArm) : list Expr :=
  match a with
  | mkArm _ _ body value _ _ _ => match body with Some _ => [] | None => of_option value end
  end.
Definition arm_blocks (a : MatchArm) : list Block :=
  match a with mkArm _ _ body _ _ _ _ => of_option body end.
Definition decl_exprs (d : DeclData) : list Expr :=
  match d with mkDecl _ initial => of_option initial end.

Fixpoint flat {A B} (f : A -> list B) (l : list A) : list B :=
  match l with [] => [] | a :: l' => f a ++ flat f l' end.

Lemma elem_of_flat {A B} (f : A -> list B) l a b : a ∈ l -> b ∈ f a -> b ∈ flat f l.
Proof.
  induction l as [|x l IH]; [by intros ?%elem_of_nil|]. simpl. rewrite elem_of_app, elem_of_cons.
  intros [->|Hin] Hb; auto.
Qed.

Lemma flat_inv {A B} (f : A -> list B) l b : b ∈ flat f l -> exists a, a ∈ l /\ b ∈ f a.
Proof.
  induction l as [|a l IH]; simpl; [by intros ?%elem_of_nil|].
  intros [Hb|Hb]%elem_of_app; [exists a; set_solver|]. destruct (IH Hb) as (c & ? & ?).
  exists c. set_solver.
Qed.

(** The expressions directly below an expression. *)
Definition expr_exprs (e : Expr) : list Expr :=
  match e with
  | StringInterpolation _ l | CallExpression _ _ _ l | IndirectCallExpression _ _ l
  | ArrayLiteralExpression _ l | StructLiteralExpression _ _ _ _ l | ConstructExpression _ _ _ l
  | EnumConstructExpression _ _ _ l => l
  | FieldAccessExpression _ a _ | UnaryExpression _ _ a | AssignmentExpression _ _ _ a
  | TryExpression _ a | AwaitExpression _ a => [a]
  | MethodCallExpression _ a _ l => a :: l
  | IndexExpression _ a b | OperationsExpression _ _ a b | FieldAssignmentExpression _ _ a _ b
  | RangeExpression _ a b | PipelineExpression _ a b => [a; b]
  | IndexAssignmentExpression _ _ a b c => [a; b; c]
  | MatchExpression _ subject arms _ => subject :: flat arm_exprs arms
  | _ => []
  end.

(** The blocks directly below an expression. *)
Definition expr_blocks (e : Expr) : list Block :=
  match e with
  | MatchExpression _ _ arms _ => flat arm_blocks arms
  | LambdaExpression _ _ _ b | SpawnStatement _ b => of_option b
  | _ => []
  end.

Definition stmt_exprs (s : Stmt) : list Expr :=
  match s with
  | SExpression e | AssertStatement _ e _ | WaitStatement _ e | EventHandler _ e _
  | IfStatement _ e _ _ | WhileStatement _ e _ => [e]
  | ReturnStatement _ o | ForInStatement _ _ _ o _ _ => of_option o
  | VariableDeclaration _ decls => flat decl_exprs decls
  | _ => []
  end.

Definition stmt_stmts (s : Stmt) : list Stmt :=
  match s with
  | IfStatement _ _ a b => of_option a ++ of_option b
  | WhileStatement _ _ a | ForInStatement _ _ _ _ a _ => of_option a
  | _ => []
  end.

Definition stmt_blocks (s : Stmt) : list Block :=
  match s with SBlock b => [b] | EventHandler _ _ b => of_option b | _ => [] end.

Definition block_stmts (b : Block) : list Stmt := match b with mkBlock _ _ l => l end.

(** Below, the recursive calls of the induction are on the elements of the
    node's lists and options. *)
Ltac child_of IHe IHs IHb :=
  repeat match goal with
  | Hin : _ ∈ [] |- _ => case (not_elem_of_nil _ Hin)
  | Hin : _ ∈ match ?o with Some _ => _ | None => _ end |- _ => destruct o
  | Hin : _ ∈ of_option ?o |- _ => destruct o; simpl in Hin
  | Hin : _ ∈ _ :: _ |- _ => apply elem_of_cons in Hin as [->|Hin]
  | Hin : _ ∈ _ ++ _ |- _ => apply elem_of_app in Hin as [Hin|Hin]
  | Hin : _ ∈ ?l |- _ => is_var l; let IHl := fresh "IHl" in
      induction l as [|? ? IHl]; [case (not_elem_of_nil _ Hin)|];
      apply elem_of_cons in Hin as [->|Hin]; [|exact (IHl Hin)]
  | Hin : _ ∈ flat ?f ?l |- _ => let IHl := fresh "IHl" in
      induction l as [|[] ? IHl]; simpl in Hin; [case (not_elem_of_nil _ Hin)|];
      apply elem_of_app in Hin as [Hin|Hin]; [|exact (IHl Hin)]
  end; first [apply IHe|apply IHs|apply IHb].

Section induction.
Variables (PE : Expr -> Prop) (PS : Stmt -> Prop) (PB : Block -> Prop).
Hypothesis HE : forall e, (forall x, x ∈ expr_exprs e -> PE x) -> (forall b, b ∈ expr_blocks e -> PB b) -> PE e.
Hypothesis HS : forall s, (forall x, x ∈ stmt_exprs s -> PE x) -> (forall x, x ∈ stmt_stmts s -> PS x) ->
  (forall b, b ∈ stmt_blocks s -> PB b) -> PS s.
Hypothesis HB : forall b, (forall x, x ∈ block_stmts b -> PS x) -> PB b.

Lemma ast_induction : (forall e, PE e) /\ (forall s, PS s) /\ (forall b, PB b).
Proof.
  assert (forall e, PE e) as He.
  { fix IHe 1 with (IHs (s : Stmt) {struct s} : PS s) (IHb (b : Block) {struct b} : PB b).
    - intros e. apply HE; destruct e; simpl; intros x Hin; child_of IHe IHs IHb.
    - intros s. apply HS; destruct s; simpl; intros x Hin; child_of IHe IHs IHb.
    - intros b. apply HB; destruct b; simpl; intros x Hin; child_of IHe IHs IHb. }
  assert (forall b, PB b) as Hb.
  { fix IHb 1 with (IHs (s : Stmt) {struct s} : PS s).
    - intros b. apply HB; destruct b; simpl; intros x Hin; child_of He IHs IHb.
    - intros s. apply HS; destruct s; simpl; intros x Hin; child_of He IHs IHb. }
  assert (forall s, PS s) as Hs.
  { fix IHs 1. intros s. apply HS; destruct s; simpl; intros x Hin; child_of He IHs Hb. }
  done.
Qed.
End induction.

(** ** Occurrences: [P] holds of the node or of a visited descendant. *)
Section occurs.
Variable P : Expr -> Prop.

Inductive in_expr : Expr -> Prop :=
  | in_here e : P e -> in_expr e
  | in_expr_expr e x : x ∈ expr_exprs e -> in_expr x -> in_expr e
  | in_expr_block e b : b ∈ expr_blocks e -> in_block b -> in_expr e
with in_stmt : Stmt -> Prop :=
  | in_stmt_expr s x : x ∈ stmt_exprs s -> in_expr x -> in_stmt s
  | in_stmt_stmt s x : x ∈ stmt_stmts s -> in_stmt x -> in_stmt s
  | in_stmt_block s b : b ∈ stmt_blocks s -> in_block b -> in_stmt s
with in_block : Block -> Prop :=
  | in_block_stmt b x : x ∈ block_stmts b -> in_stmt x -> in_block b.
End occurs.

(** A weaker predicate occurs wherever a stronger one does. *)
Section occurs_impl.
Variables (P Q : Expr -> Prop).
Hypothesis HPQ : forall e, P e -> Q e.

Scheme in_expr_rec := Minimality for in_expr Sort Prop
  with in_stmt_rec := Minimality for in_stmt Sort Prop
  with in_block_rec := Minimality for in_block Sort Prop.

Lemma in_stmt_impl s : in_stmt P s -> in_stmt Q s.
Proof.
  apply (in_stmt_rec P (in_expr Q) (in_stmt Q) (in_block Q)); intros; eauto using in_expr, in_stmt, in_block.
Qed.

Lemma in_block_impl b : in_block P b -> in_block Q b.
Proof.
  apply (in_block_rec P (in_expr Q) (in_stmt Q) (in_block Q)); intros; eauto using in_expr, in_stmt, in_block.
Qed.
End occurs_impl.

(** ** Blocks that are walked: the block [b0] is the node or lies below it. *)
Section holds.
Variable b0 : Block.

Inductive holds_expr : Expr -> Prop :=
  | holds_expr_expr e x : x ∈ expr_exprs e -> holds_expr x -> holds_expr e
  | holds_expr_block e b : b ∈ expr_blocks e -> holds_block b -> holds_expr e
with holds_stmt : Stmt -> Prop :=
  | holds_stmt_expr s x : x ∈ stmt_exprs s -> holds_expr x -> holds_stmt s
  | holds_stmt_stmt s x : x ∈ stmt_stmts s -> holds_stmt x -> holds_stmt s
  | holds_stmt_block s b : b ∈ stmt_blocks s -> holds_block b -> holds_stmt s
with holds_block : Block -> Prop :=
  | holds_here : holds_block b0
  | holds_block_stmt b x : x ∈ block_stmts b -> holds_stmt x -> holds_block b.

Scheme holds_expr_rec := Minimality for holds_expr Sort Prop
  with holds_stmt_rec := Minimality for holds_stmt Sort Prop
  with holds_block_rec := Minimality for holds_block Sort Prop.
End holds.

(** * Every child

    The children the pass does not walk: the expressions of a query's steps, the values
    of an insert, the value of an arm that has a block, and the parts of a [for] with
    three expressions, which no parse function makes. *)
Definition pipeline_exprs (s : QueryPipelineStep) : list Expr :=
  match s with mkStep _ e _ sets => of_option e ++ map snd sets end.

Definition arm_unwalked (a : MatchArm) : list Expr :=
  match a with
  | mkArm _ _ body value _ _ _ => match body with Some _ => of_option value | None => [] end
  end.

Definition unwalked_exprs (e : Expr) : list Expr :=
  match e with
  | QueryExpression _ _ steps | UpdateExpression _ _ steps | DeleteExpression _ _ steps => flat pipeline_exprs steps
  | InsertExpression _ _ _ values => values
  | MatchExpression _ _ arms _ => flat arm_unwalked arms
  | _ => []
  end.

Definition for_exprs (s : Stmt) : list Expr :=
  match s with ForStatement _ a b c _ => of_option a ++ of_option b ++ of_option c | _ => [] end.
Definition for_stmts (s : Stmt) : list Stmt :=
  match s with ForStatement _ _ _ _ body => of_option body | _ => [] end.

Section everywhere.
Variable P : Expr -> Prop.

(** [P] holds of the node or of any descendant. *)
Inductive deep_expr : Expr -> Prop :=
  | deep_here e : P e -> deep_expr e
  | deep_expr_expr e x : x ∈ expr_exprs e ++ unwalked_exprs e -> deep_expr x -> deep_expr e
  | deep_expr_block e b : b ∈ expr_blocks e -> deep_block b -> deep_expr e
with deep_stmt : Stmt -> Prop :=
  | deep_stmt_expr s x : x ∈ stmt_exprs s ++ for_exprs s -> deep_expr x -> deep_stmt s
  | deep_stmt_stmt s x : x ∈ stmt_stmts s ++ for_stmts s -> deep_stmt x -> deep_stmt s
  | deep_stmt_block s b : b ∈ stmt_blocks s -> deep_block b -> deep_stmt s
with deep_block : Block -> Prop :=
  | deep_block_stmt b x : x ∈ block_stmts b -> deep_stmt x -> deep_block b.

(** [P] holds of a descendant that lies below a child which is not walked. *)
Inductive skipped_expr : Expr -> Prop :=
  | skipped_here e x : x ∈ unwalked_exprs e -> deep_expr x -> skipped_expr e
  | skipped_expr_expr e x : x ∈ expr_exprs e -> skipped_expr x -> skipped_expr e
  | skipped_expr_block e b : b ∈ expr_blocks e -> skipped_block b -> skipped_expr e
with skipped_stmt : Stmt -> Prop :=
  | skipped_for_expr s x : x ∈ for_exprs s -> deep_expr x -> skipped_stmt s
  | skipped_for_stmt s x : x ∈ for_stmts s -> deep_stmt x -> skipped_stmt s
  | skipped_stmt_expr s x : x ∈ stmt_exprs s -> skipped_expr x -> skipped_stmt s
  | skipped_stmt_stmt s x : x ∈ stmt_stmts s -> skipped_stmt x -> skipped_stmt s
  | skipped_stmt_block s b : b ∈ stmt_blocks s -> skipped_block b -> skipped_stmt s
with skipped_block : Block -> Prop :=
  | skipped_block_stmt b x : x ∈ block_stmts b -> skipped_stmt x -> skipped_block b.

Scheme deep_expr_rec := Minimality for deep_expr Sort Prop
  with deep_stmt_rec := Minimality for deep_stmt Sort Prop
  with deep_block_rec := Minimality for deep_block Sort Prop.

Ltac split_cases := intros;
  repeat match goal with
  | H : _ ∈ _ ++ _ |- _ => apply elem_of_app in H as [H|H]
  | H : _ \/ _ |- _ => destruct H
  end; eauto using in_expr, in_stmt, in_block, skipped_expr, skipped_stmt, skipped_block.

(** What lies in a node is walked, or below a child that is not. *)
Lemma deep_expr_split e : deep_expr e -> in_expr P e \/ skipped_expr e.
Proof.
  apply (deep_expr_rec (fun e => in_expr P e \/ skipped_expr e) (fun s => in_stmt P s \/ skipped_stmt s)
    (fun b => in_block P b \/ skipped_block b)); split_cases.
Qed.

Lemma deep_block_split b : deep_block b -> in_block P b \/ skipped_block b.
Proof.
  apply (deep_block_rec (fun e => in_expr P e \/ skipped_expr e) (fun s => in_stmt P s \/ skipped_stmt s)
    (fun b => in_block P b \/ skipped_block b)); split_cases.
Qed.

(** What is walked lies in the node. *)
Lemma in_block_deep b : in_block P b -> deep_block b.
Proof.
  apply (in_block_rec P deep_expr deep_stmt deep_block); intros; econstructor; try eassumption; apply elem_of_app; by left.
Qed.
End everywhere.
