(* ===== verification/SemaLogic.v ===== *)
(** The logic of the semantic pass: a relation between states that the
    primitive effects preserve is preserved by every visit, and a visit of a
    node passes through the visit of each of its children. *)

From S2P Require Import Prelude SourceLocation Diagnostics Ast Scope SemaTypes Sema SemaExpr SemaWalk AstInduction.

(** What a relation must tolerate of the primitive effects; [ok] restricts the
    variables that may be assigned to, [okr] those that may be named at all. *)
Class VisitRel (ok okr : VariableDefinition -> Prop) (Rel : Sema -> Sema -> Prop) := {
  vr_preorder : PreOrder Rel;
  vr_error loc msg : keeps Rel (report_error loc msg);
  vr_tree s v r f m : Rel s (with_tree s v r f m);
  vr_reference v : okr v -> keeps Rel (reference v);
  vr_move v : keeps Rel (move v);
  vr_unmove v : ok v -> keeps Rel (unmove v);
  vr_local s v : Rel s (with_locals s (mLocalDecls s ++ [v]));
  vr_depths s l p : Rel s (with_decl_depths s l p);
  vr_in_loop m : keeps Rel m -> keeps Rel (in_loop m);
  vr_in_spawn m : keeps Rel m -> keeps Rel (in_spawn m);
  vr_in_function f m : keeps Rel m -> keeps Rel (in_function f m)
}.

(** A relation that does not look at the nesting depths and the current
    function. *)
Class FlatRel (Rel : Sema -> Sema -> Prop) := {
  fr_depths s l p : Rel s (with_depths s l p);
  fr_func s f : Rel s (with_func s f)
}.

#[export] Existing Instance vr_preorder.

Section flat.
Context (Rel : Sema -> Sema -> Prop) `{!PreOrder Rel} `{!FlatRel Rel}.

Lemma flat_depths f g : keeps Rel (st_modify (fun s => with_depths s (f s) (g s))).
Proof. apply keeps_modify. intros s. apply fr_depths. Qed.

Lemma flat_func f : keeps Rel (st_modify (fun s => with_func s f)).
Proof. apply keeps_modify. intros s. apply fr_func. Qed.

Lemma flat_in_loop m : keeps Rel m -> keeps Rel (in_loop m).
Proof using PreOrder0 FlatRel0.
  intros Hm. repeat (apply keeps_bind; [done|by auto using flat_depths|intros _]). apply flat_depths.
Qed.

Lemma flat_in_spawn m : keeps Rel m -> keeps Rel (in_spawn m).
Proof using PreOrder0 FlatRel0.
  intros Hm. repeat (apply keeps_bind; [done|by auto using flat_depths|intros _]). apply flat_depths.
Qed.

Lemma flat_in_function f m : keeps Rel m -> keeps Rel (in_function f m).
Proof using PreOrder0 FlatRel0.
  intros Hm. apply keeps_bind; [done|by apply keeps_get|intros saved].
  repeat (apply keeps_bind; [done|by auto using flat_func|intros _]). apply flat_func.
Qed.
End flat.
#[export] Hint Resolve flat_in_loop flat_in_spawn flat_in_function : blang.

(** A relation that only looks at what it says: every other effect is a case
    that computes. *)
Ltac flat_cases := constructor; try typeclasses eauto; eauto with blang typeclass_instances;
  try (intros; apply keeps_modify; intros).

Ltac keep_step :=
  lazymatch goal with
  | |- keeps _ (mbind _ _) => apply keeps_bind; [typeclasses eauto| |intro]
  | |- keeps _ (mret _) => apply keeps_ret; typeclasses eauto
  | |- keeps _ st_skip => apply keeps_ret; typeclasses eauto
  | |- keeps _ (st_get _) => apply keeps_get; typeclasses eauto
  | |- keeps _ (st_when _ _) => apply keeps_when; [typeclasses eauto|]
  | |- keeps _ (report_error _ _) => apply vr_error
  | |- keeps _ (reference _) => apply vr_reference; auto
  | |- keeps _ (move _) => apply vr_move
  | |- keeps _ (setType _ _) => apply keeps_modify; intro; apply vr_tree
  | |- keeps _ (setResolvedType _ _) => apply keeps_modify; intro; apply vr_tree
  | |- keeps _ (setResolvedField _ _) => apply keeps_modify; intro; apply vr_tree
  | |- keeps _ (setResolvedMethod _ _) => apply keeps_modify; intro; apply vr_tree
  | |- keeps _ (getVariableType _) => apply keeps_get; typeclasses eauto
  | |- keeps _ (getResolvedType _) => apply keeps_get; typeclasses eauto
  | |- keeps _ (st_each _ _) => apply keeps_each; [typeclasses eauto|apply Forall_forall; intros]
  | |- keeps _ (match ?x with _ => _ end) => destruct x
  | |- keeps _ (if ?x then _ else _) => destruct x
  | |- keeps _ (let _ := _ in _) => simpl
  | |- keeps _ (resolved _ _) => unfold resolved
  end.
Ltac keep := repeat (keep_step || assumption); eauto 3 with blang.

Section keeps_cases.
Context {T : Type} `{SymbolTable T} (table : T) (mScope : nat) (mModuleId : string).
Variable address : nat -> N.
Context {ok okr : VariableDefinition -> Prop} {Rel : Sema -> Sema -> Prop} `{!VisitRel ok okr Rel}.

Lemma keeps_checkReservedName name loc kind : keeps Rel (checkReservedName name loc kind).
Proof. unfold checkReservedName. keep; repeat case_match; keep. Qed.

Lemma keeps_checkExportedName name loc what : keeps Rel (checkExportedName table mScope name loc what).
Proof. unfold checkExportedName. keep. Qed.

Lemma keeps_checkRequiredMethods a c p loc ms req :
  keeps Rel (checkRequiredMethods a c p loc ms req).
Proof. induction req as [|r req IH]; simpl; keep. Qed.
Hint Resolve keeps_checkReservedName keeps_checkExportedName keeps_checkRequiredMethods : blang.

Lemma keeps_checkConstraint t c p loc : keeps Rel (checkConstraint table mScope t c p loc).
Proof. unfold checkConstraint. keep. Qed.

Lemma keeps_tableStructFor name n : keeps Rel (tableStructFor table mScope name n).
Proof. unfold tableStructFor. keep. Qed.

Lemma keeps_checkTableField t f loc : keeps Rel (checkTableField t f loc).
Proof. unfold checkTableField. keep. Qed.
Hint Resolve keeps_checkConstraint keeps_tableStructFor keeps_checkTableField : blang.

Lemma keeps_validateTableSteps name steps n : keeps Rel (validateTableSteps table mScope name steps n).
Proof. unfold validateTableSteps, checkTableStep. keep. Qed.

Lemma keeps_resolveFieldAccess n name t :
  keeps Rel (resolveFieldAccess table mScope mModuleId n name t).
Proof. unfold resolveFieldAccess, private_field. keep. Qed.

Lemma keeps_resolveMethodCall n name k t : keeps Rel (resolveMethodCall table mScope n name k t).
Proof. unfold resolveMethodCall, resolveChannelCall. keep. Qed.
Hint Resolve keeps_validateTableSteps keeps_resolveFieldAccess keeps_resolveMethodCall : blang.

Lemma keeps_visit_variable n v :
  (forall w, v = Some w -> okr w) -> keeps Rel (visit_variable n v).
Proof. intros Hv. unfold visit_variable. keep. Qed.

Lemma keeps_validateToJsonArg n l : keeps Rel (validateToJsonArg table mScope n l).
Proof. unfold validateToJsonArg, json_arg_type. keep. Qed.

Lemma keeps_check_arguments name l : forall i ps, keeps Rel (check_arguments table mScope name i l ps).
Proof. induction l as [|a l IH]; intros i [|p ps]; simpl; keep. Qed.
Hint Resolve keeps_check_arguments keeps_validateToJsonArg : blang.

Lemma keeps_move_arguments l : forall ps, keeps Rel (move_arguments l ps).
Proof. induction l as [|a l IH]; intros [|p ps]; simpl; unfold move_argument; keep. Qed.

Lemma keeps_check_constraints n gps : forall ts, keeps Rel (check_constraints table mScope n gps ts).
Proof. induction gps as [|g gps IH]; intros [|t ts]; simpl; keep. Qed.
Hint Resolve keeps_move_arguments keeps_check_constraints : blang.

(** What the call does after its arguments were visited. *)
Lemma keeps_visit_call n f ts args m : keeps Rel m -> keeps Rel (visit_call table mScope n f ts args m).
Proof. intros Hm. unfold visit_call, check_call. keep. Qed.

Lemma keeps_visit_indirect_call n v m :
  (forall w, v = Some w -> okr w) -> keeps Rel m -> keeps Rel (visit_indirect_call n v m).
Proof. intros Hv Hm. unfold visit_indirect_call. keep. Qed.

Lemma keeps_visit_query n name steps : keeps Rel (visit_query table mScope n name steps).
Proof. unfold visit_query. keep. Qed.

Lemma keeps_visit_insert n name fs : keeps Rel (visit_insert table mScope n name fs).
Proof. unfold visit_insert. keep. Qed.

Lemma keeps_check_operands n oper l r : keeps Rel (check_operands table mScope n oper l r).
Proof. unfold check_operands. keep. Qed.

Lemma keeps_check_concat n l r : keeps Rel (check_concat n l r).
Proof. unfold check_concat. keep. Qed.
Hint Resolve keeps_visit_query keeps_visit_insert keeps_check_operands keeps_check_concat : blang.

Lemma keeps_visit_operation n oper ml mr :
  keeps Rel ml -> keeps Rel mr -> keeps Rel (visit_operation table mScope n oper ml mr).
Proof. intros Hl Hr. unfold visit_operation. keep. Qed.

Lemma keeps_visit_assignment n v m :
  (forall w, v = Some w -> ok w /\ okr w) -> keeps Rel m -> keeps Rel (visit_assignment n v m).
Proof.
  intros Hv Hm. unfold visit_assignment. destruct v as [v|]; [|keep].
  destruct (Hv v eq_refl). keep. by eapply vr_unmove.
Qed.

Lemma keeps_bind_payloads ed t sc names : forall ts,
  keeps Rel (bind_payloads table ed t sc names ts).
Proof. induction names as [|x names IH]; intros [|y ts]; simpl; keep. Qed.
Hint Resolve keeps_bind_payloads : blang.

Lemma keeps_bind_arms n t arms : keeps Rel (bind_arms table mScope n t arms).
Proof. unfold bind_arms, bind_arm. keep. Qed.

Lemma keeps_check_exhaustive n ed arms : keeps Rel (check_exhaustive n ed arms).
Proof. unfold check_exhaustive. keep. Qed.

Lemma keeps_check_match_value n ed arms : keeps Rel (check_match_value n ed arms).
Proof. unfold check_match_value. keep. Qed.

Lemma keeps_type_loop_variable a b it body i t :
  keeps Rel (type_loop_variable table a b it body i t).
Proof. unfold type_loop_variable. keep. Qed.

Lemma keeps_record_depths v : keeps Rel (record_depths v).
Proof. apply keeps_modify. intros s. apply vr_depths. Qed.

Lemma keeps_declare_local v : keeps Rel (declare_local v).
Proof. unfold declare_local. keep. apply keeps_modify. intros s. apply vr_local. Qed.

Lemma keeps_move_initializer e : keeps Rel (move_initializer e).
Proof. unfold move_initializer. keep. Qed.
Hint Resolve keeps_record_depths keeps_declare_local keeps_move_initializer : blang.

(** What a declaration does after its initializer was visited. *)
Lemma keeps_after_initializer n v e t :
  keeps Rel (infer_var v t;; check_initializer table mScope v e t;; check_channel table mScope n v;;
             record_depths v;; move_initializer e).
Proof. unfold infer_var, check_initializer, check_channel. keep. Qed.

Lemma keeps_visit_declaration n v e m :
  keeps Rel m -> keeps Rel (visit_declaration table mScope n v e m).
Proof.
  intros Hm. unfold visit_declaration. destruct v; keep.
  all: unfold infer_var, check_initializer, check_channel; keep.
Qed.

Lemma keeps_captures n l refs : keeps Rel (st_each (check_capture table mScope n l) refs).
Proof. unfold check_capture. keep. Qed.
End keeps_cases.

#[export] Hint Resolve keeps_checkReservedName keeps_checkExportedName keeps_checkRequiredMethods
  keeps_checkConstraint keeps_tableStructFor keeps_checkTableField keeps_validateTableSteps
  keeps_resolveFieldAccess keeps_resolveMethodCall keeps_check_arguments keeps_validateToJsonArg
  keeps_move_arguments keeps_check_constraints keeps_visit_query
  keeps_visit_insert keeps_check_operands keeps_check_concat keeps_bind_arms
  keeps_check_exhaustive keeps_check_match_value keeps_type_loop_variable keeps_record_depths
  keeps_declare_local keeps_move_initializer keeps_captures : blang.

(** The node is an assignment to a variable that satisfies [P]. *)
Definition assigns (P : VariableDefinition -> Prop) (e : Expr) : Prop :=
  match e with AssignmentExpression _ _ (Some w) _ => P w | _ => False end.

Lemma assigns_impl (P Q : VariableDefinition -> Prop) e :
  (forall w, P w -> Q w) -> assigns P e -> assigns Q e.
Proof. intros HPQ. destruct e; simpl; try done. destruct mVariable; auto. Qed.

(** The node reads, calls or assigns a variable that satisfies [P]. *)
Definition mentions (P : VariableDefinition -> Prop) (e : Expr) : Prop :=
  match e with
  | VariableExpression _ (Some w) | IndirectCallExpression _ (Some w) _
  | AssignmentExpression _ _ (Some w) _ => P w
  | _ => False
  end.

(** Applies the lemma of a case, leaving the visits of the children. *)
Tactic Notation "case_by" uconstr(lem) := eapply lem; try typeclasses eauto.

Section keeps_walk.
Context {T : Type} `{SymbolTable T} (table : T) (mScope : nat) (mModuleId : string).
Variable address : nat -> N.
Context {ok okr : VariableDefinition -> Prop} {Rel : Sema -> Sema -> Prop} `{!VisitRel ok okr Rel}.
Notation visitExpr := (visitExpr table mScope mModuleId address).
Notation visitStmt := (visitStmt table mScope mModuleId address).
Notation visitBlock := (visitBlock table mScope mModuleId address).

Definition good_expr (e : Expr) : Prop :=
  forall w, (in_expr (assigns (eq w)) e -> ok w) /\ (in_expr (mentions (eq w)) e -> okr w).
Definition good_stmt (s : Stmt) : Prop :=
  forall w, (in_stmt (assigns (eq w)) s -> ok w) /\ (in_stmt (mentions (eq w)) s -> okr w).
Definition good_block (b : Block) : Prop :=
  forall w, (in_block (assigns (eq w)) b -> ok w) /\ (in_block (mentions (eq w)) b -> okr w).

Lemma keeps_visit_args l : (forall x, x ∈ l -> keeps Rel (visitExpr x)) -> keeps Rel (visit_args visitExpr l).
Proof. intros Hl. unfold visit_args. keep. Qed.

Lemma keeps_visit_opt [A] (visit : A -> sema unit) o :
  (forall x, x ∈ of_option o -> keeps Rel (visit x)) -> keeps Rel (visit_opt visit o).
Proof using VisitRel0.
  intros Ho. destruct o; simpl; [by apply Ho, list_elem_of_singleton|].
  apply keeps_ret. typeclasses eauto.
Qed.

Lemma keeps_visit_value_opt o :
  (forall x, x ∈ of_option o -> keeps Rel (visitExpr x)) -> keeps Rel (visit_value_opt visitExpr o).
Proof using VisitRel0.
  intros Ho. destruct o; simpl; [by apply Ho, list_elem_of_singleton|].
  apply keeps_ret. typeclasses eauto.
Qed.

Lemma keeps_visit_arm unified body value :
  (forall x, x ∈ of_option body -> keeps Rel (visitBlock x)) ->
  (body = None -> forall x, x ∈ of_option value -> keeps Rel (visitExpr x)) ->
  keeps Rel (visit_arm table mScope unified (visitBlock <$> body) value (visit_value_opt visitExpr value)).
Proof.
  intros Hb Hv. unfold visit_arm. destruct body as [b|]; simpl.
  - apply keeps_bind; [typeclasses eauto|apply Hb; set_solver|]. intros. keep.
  - apply keeps_bind; [typeclasses eauto|by apply keeps_visit_value_opt, Hv|]. intros. keep.
Qed.

Lemma keeps_visit_arms arms :
  (forall x, x ∈ flat arm_exprs arms -> keeps Rel (visitExpr x)) ->
  (forall b, b ∈ flat arm_blocks arms -> keeps Rel (visitBlock b)) ->
  forall u, keeps Rel (st_fold (fun unified arm =>
    match arm with
    | mkArm _ _ body value _ _ _ =>
        visit_arm table mScope unified (visitBlock <$> body) value (visit_value_opt visitExpr value)
    end) arms u).
Proof.
  intros He Hb u. apply keeps_fold; [typeclasses eauto|]. apply Forall_forall. intros arm Harm u'.
  destruct arm as [p names body value sc w str]. apply keeps_visit_arm.
  - intros x Hx. apply Hb. by eapply elem_of_flat.
  - intros -> x Hx. apply He. by eapply elem_of_flat.
Qed.

Lemma keeps_visit_match n arms mode ms ma :
  keeps Rel ms -> keeps Rel ma -> keeps Rel (visit_match table mScope n arms mode ms ma).
Proof. intros Hs Ha. unfold visit_match. keep. Qed.

Lemma keeps_visit_spawn n body m : keeps Rel m -> keeps Rel (visit_spawn table mScope address n body m).
Proof.
  intros Hm. unfold visit_spawn. apply keeps_bind; [typeclasses eauto|by apply vr_in_spawn|].
  intros _. destruct (collect_opt _ _ _).
  apply keeps_bind; [typeclasses eauto|by eapply keeps_captures|]. intros _. keep.
Qed.

Lemma visitExpr_keeps_step e :
  good_expr e ->
  (forall x, x ∈ expr_exprs e -> keeps Rel (visitExpr x)) ->
  (forall b, b ∈ expr_blocks e -> keeps Rel (visitBlock b)) -> keeps Rel (visitExpr e).
Proof.
  intros Hok He Hb. destruct e; simpl in *; keep.
  all: try (apply keeps_visit_args; auto).
  all: try (apply He; set_solver).
  - case_by keeps_visit_variable. intros w ->. apply Hok. by constructor.
  - case_by keeps_visit_call. apply keeps_visit_args; auto.
  - case_by keeps_visit_indirect_call; [|by apply keeps_visit_args].
    intros w ->. apply Hok. by constructor.
  - unfold visit_field_access. keep. apply He; set_solver.
  - unfold visit_method_call. keep; [apply He; set_solver|]. apply keeps_visit_args. set_solver.
  - unfold visit_index. keep; apply He; set_solver.
  - case_by keeps_visit_operation; apply He; set_solver.
  - case_by keeps_visit_assignment; [|apply He; set_solver]. intros w ->.
    split; apply Hok; by constructor.
  - unfold visit_field_assignment. keep; apply He; set_solver.
  - unfold visit_struct_literal. keep. apply keeps_visit_args; auto.
  - unfold visit_construct. keep; apply keeps_visit_args; auto.
  - apply keeps_visit_match; [apply He; set_solver|].
    apply keeps_visit_arms; [|done]. intros x Hx. apply He. set_solver.
  - case_by vr_in_function. by apply keeps_visit_opt.
  - by apply keeps_visit_spawn, keeps_visit_opt.
Qed.

Lemma visitStmt_keeps_step s :
  (forall x, x ∈ stmt_exprs s -> keeps Rel (visitExpr x)) ->
  (forall x, x ∈ stmt_stmts s -> keeps Rel (visitStmt x)) ->
  (forall b, b ∈ stmt_blocks s -> keeps Rel (visitBlock b)) -> keeps Rel (visitStmt s).
Proof.
  intros He Hs Hb. destruct s; simpl in *; keep.
  all: try (apply He; set_solver).
  all: try (case_by vr_in_loop).
  all: try (apply keeps_visit_opt; set_solver).
  - apply Hb; set_solver.
  - unfold visit_return. keep. by apply keeps_visit_value_opt.
  - by apply keeps_visit_value_opt.
  - case_by keeps_visit_declaration. apply keeps_visit_value_opt. intros x Hx.
    apply He. by eapply elem_of_flat.
Qed.

Lemma visit_keeps :
  (forall e, good_expr e -> keeps Rel (visitExpr e)) /\
  (forall s, good_stmt s -> keeps Rel (visitStmt s)) /\
  (forall b, good_block b -> keeps Rel (visitBlock b)).
Proof.
  apply ast_induction.
  - intros e He Hb Hok. apply visitExpr_keeps_step; [done|..].
    + intros x Hx. apply He; [done|]. intros w. destruct (Hok w). split; eauto using in_expr_expr.
    + intros x Hx. apply Hb; [done|]. intros w. destruct (Hok w). split; eauto using in_expr_block.
  - intros s He Hs Hb Hok. apply visitStmt_keeps_step.
    + intros x Hx. apply He; [done|]. intros w. destruct (Hok w). split; eauto using in_stmt_expr.
    + intros x Hx. apply Hs; [done|]. intros w. destruct (Hok w). split; eauto using in_stmt_stmt.
    + intros x Hx. apply Hb; [done|]. intros w. destruct (Hok w). split; eauto using in_stmt_block.
  - intros [n sc l] Hs Hok. simpl in *. keep. apply Hs; [done|]. intros w. destruct (Hok w).
    split; eauto using in_block_stmt.
Qed.
End keeps_walk.
