(* ===== verification/SemaPasses.v ===== *)
(** A visit of a node passes through the visits of its children: from any state
    there is a later one in which the child is visited and after which the rest
    of the node's visit happens.  Facts about a descendant thereby reach the
    whole tree. *)

From S2P Require Import Prelude SourceLocation Diagnostics Ast Scope SemaTypes Sema SemaExpr SemaWalk AstInduction SemaLogic.

Section passes.
Context {S : Type} (Rel : S -> S -> Prop) `{!PreOrder Rel}.

Definition passes {A B} (m : st S A) (v : st S B) : Prop :=
  forall s, exists s1, Rel s s1 /\ Rel (v s1).2 (m s).2.

Lemma passes_here {A} (m : st S A) : passes m m.
Proof. intros s. exists s. split; reflexivity. Qed.

Lemma passes_l {A B C} (m : st S A) (k : A -> st S B) (v : st S C) :
  passes m v -> (forall a, keeps Rel (k a)) -> passes (m ≫= k) v.
Proof.
  intros Hm Hk s. destruct (Hm s) as (s1 & H1 & H2). exists s1. split; [done|].
  unfold mbind, st_bind. destruct (m s) as [a s2]. simpl in *.
  etransitivity; [exact H2|apply Hk].
Qed.

Lemma passes_r {A B C} (m : st S A) (k : A -> st S B) (v : st S C) :
  keeps Rel m -> (forall a, passes (k a) v) -> passes (m ≫= k) v.
Proof.
  intros Hm Hk s. unfold mbind, st_bind. specialize (Hm s). destruct (m s) as [a s2]. simpl in Hm.
  destruct (Hk a s2) as (s1 & H1 & H2). exists s1. split; [|done]. etransitivity; [exact Hm|exact H1].
Qed.

Lemma passes_trans {A B C} (m : st S A) (v : st S B) (w : st S C) : passes m v -> passes v w -> passes m w.
Proof.
  intros Hm Hv s. destruct (Hm s) as (s1 & H1 & H2). destruct (Hv s1) as (s2 & H3 & H4).
  exists s2. split; [by transitivity s1|by transitivity (v s1).2].
Qed.

(** What [v] establishes from any state and later effects keep, [m] does. *)
Lemma passes_establishes {A B} (U : S -> Prop) (m : st S A) (v : st S B) s :
  (forall s s', Rel s s' -> U s -> U s') -> passes m v -> (forall s1, U (v s1).2) -> U (m s).2.
Proof using PreOrder0. intros HU Hm Hv. destruct (Hm s) as (s1 & _ & H2). eauto. Qed.

Lemma passes_each {A C} (f : A -> st S unit) (l : list A) (v : st S C) a :
  a ∈ l -> (forall x, x ∈ l -> keeps Rel (f x)) -> passes (f a) v -> passes (st_each f l) v.
Proof.
  intros Ha Hl Hv. induction l as [|x l IH]; [by apply elem_of_nil in Ha|]. simpl.
  apply elem_of_cons in Ha as [->|Ha].
  - apply passes_l; [done|]. intros _. apply keeps_each; [done|]. apply Forall_forall. set_solver.
  - apply passes_r; [apply Hl; set_solver|]. intros _. apply IH; [done|]. set_solver.
Qed.

Lemma passes_fold {A B C} (f : B -> A -> st S B) (l : list A) (v : st S C) a :
  a ∈ l -> (forall x b, x ∈ l -> keeps Rel (f b x)) -> (forall b, passes (f b a) v) ->
  forall b, passes (st_fold f l b) v.
Proof.
  intros Ha Hl Hv. induction l as [|x l IH]; [by apply elem_of_nil in Ha|]. intros b. simpl.
  apply elem_of_cons in Ha as [->|Ha].
  - apply passes_l; [done|]. intros b'. apply keeps_fold; [done|]. apply Forall_forall.
    intros y Hy c. apply Hl. set_solver.
  - apply passes_r; [apply Hl; set_solver|]. intros b'. apply IH; [done|]. intros; apply Hl. set_solver.
Qed.
End passes.

Section walk.
Context {T : Type} `{SymbolTable T} (table : T) (mScope : nat) (mModuleId : string).
Variable address : nat -> N.
Context {ok okr : VariableDefinition -> Prop} {Rel : Sema -> Sema -> Prop}
  `{!VisitRel ok okr Rel} `{!FlatRel Rel}.
Notation visitExpr := (visitExpr table mScope mModuleId address).
Notation visitStmt := (visitStmt table mScope mModuleId address).
Notation visitBlock := (visitBlock table mScope mModuleId address).
Notation good_expr := (good_expr (ok := ok) (okr := okr)).
Notation good_stmt := (good_stmt (ok := ok) (okr := okr)).
Notation good_block := (good_block (ok := ok) (okr := okr)).
Notation passes := (passes Rel).

Lemma passes_in_loop {C} m (v : sema C) : passes m v -> passes (in_loop m) v.
Proof.
  intros Hm. apply passes_r; [typeclasses eauto|apply keeps_modify; intros; apply fr_depths|]. intros _.
  apply passes_l; [typeclasses eauto|done|]. intros _. apply keeps_modify. intros; apply fr_depths.
Qed.

Lemma passes_in_spawn {C} m (v : sema C) : passes m v -> passes (in_spawn m) v.
Proof.
  intros Hm. apply passes_r; [typeclasses eauto|apply keeps_modify; intros; apply fr_depths|]. intros _.
  apply passes_l; [typeclasses eauto|done|]. intros _. apply keeps_modify. intros; apply fr_depths.
Qed.

Lemma passes_in_function {C} f m (v : sema C) : passes m v -> passes (in_function f m) v.
Proof.
  intros Hm. apply passes_r; [typeclasses eauto|keep|]. intros saved.
  apply passes_r; [typeclasses eauto|apply keeps_modify; intros; apply fr_func|]. intros _.
  apply passes_l; [typeclasses eauto|done|]. intros _. apply keeps_modify. intros; apply fr_func.
Qed.

Lemma passes_visit_args l x : x ∈ l -> (forall y, y ∈ l -> keeps Rel (visitExpr y)) ->
  passes (visit_args visitExpr l) (visitExpr x).
Proof.
  intros Hx Hl. eapply (passes_each _ (fun e => visitExpr e;; st_skip)); [done| |].
  - intros y Hy. keep.
  - apply passes_l; [typeclasses eauto|by apply passes_here; typeclasses eauto|]. intros _. keep.
Qed.

(** Discharges what is not the visit in question. *)
Ltac rest He := intros; unfold infer_var, check_initializer, check_channel; keep;
  eauto with blang; try (apply He; set_solver); try (by case_by keeps_visit_args; auto).
Ltac at_left He := apply passes_l; [typeclasses eauto| |rest He].
Ltac at_right He := apply passes_r; [typeclasses eauto|rest He|intro].
Ltac here := by apply passes_here; typeclasses eauto.

Lemma passes_visit_arms arms :
  (forall y, y ∈ flat arm_exprs arms -> keeps Rel (visitExpr y)) ->
  (forall b, b ∈ flat arm_blocks arms -> keeps Rel (visitBlock b)) ->
  (forall x, x ∈ flat arm_exprs arms -> forall u, passes (st_fold (fun unified arm =>
    match arm with
    | mkArm _ _ body value _ _ _ =>
        visit_arm table mScope unified (visitBlock <$> body) value (visit_value_opt visitExpr value)
    end) arms u) (visitExpr x)) /\
  (forall x, x ∈ flat arm_blocks arms -> forall u, passes (st_fold (fun unified arm =>
    match arm with
    | mkArm _ _ body value _ _ _ =>
        visit_arm table mScope unified (visitBlock <$> body) value (visit_value_opt visitExpr value)
    end) arms u) (visitBlock x)).
Proof.
  intros He Hb.
  assert (forall arm b, arm ∈ arms -> keeps Rel
    match arm with
    | mkArm _ _ body value _ _ _ =>
        visit_arm table mScope b (visitBlock <$> body) value (visit_value_opt visitExpr value)
    end) as Hk.
  { intros [p ns body value sc w str] u Harm. case_by keeps_visit_arm.
    - intros x Hx. apply Hb. by eapply elem_of_flat.
    - intros -> x Hx. apply He. by eapply elem_of_flat. }
  split; intros x Hx u; apply flat_inv in Hx as ([p ns body value sc w str] & Harm & Hx);
    eapply passes_fold; [typeclasses eauto|exact Harm|intros; by apply Hk| |typeclasses eauto|exact Harm|intros; by apply Hk|];
    intros u'; simpl in Hx; unfold visit_arm.
  - destruct body; [by apply elem_of_nil in Hx|]. destruct value; simpl in *; [|by apply elem_of_nil in Hx].
    apply list_elem_of_singleton in Hx as ->. at_left He. here.
  - destruct body; simpl in *; [|by apply elem_of_nil in Hx].
    apply list_elem_of_singleton in Hx as ->. at_left He. here.
Qed.
Section children.
Variable e : Expr.
Hypothesis He : forall x, x ∈ expr_exprs e -> keeps Rel (visitExpr x).
Hypothesis Hb : forall b, b ∈ expr_blocks e -> keeps Rel (visitBlock b).
Hypothesis Hok : good_expr e.

Lemma expr_passes_expr x : x ∈ expr_exprs e -> passes (visitExpr e) (visitExpr x).
Proof.
  intros Hx. destruct e; simpl in *; try (by apply elem_of_nil in Hx);
    repeat (apply elem_of_cons in Hx as [->|Hx]; [|try by apply elem_of_nil in Hx]);
    try (at_left He; here); try (at_left He; by apply passes_visit_args).
  - unfold visit_call. apply passes_l; [typeclasses eauto|by apply passes_visit_args|].
    intros. unfold check_call. keep.
  - unfold visit_indirect_call. apply passes_l; [typeclasses eauto|by apply passes_visit_args|].
    intros. destruct mFnVariable; keep. apply Hok. by constructor.
  - unfold visit_method_call. at_left He; [here|]. case_by keeps_visit_args. set_solver.
  - unfold visit_method_call. at_right He. apply passes_l; [typeclasses eauto| |rest He].
    apply passes_visit_args; [done|]. set_solver.
  - unfold visit_index. at_right He. at_left He. here.
  - unfold visit_operation. at_right He. at_left He. here.
  - unfold visit_assignment. apply passes_l; [typeclasses eauto|here|]. intros.
    destruct mVariable as [w|]; keep; [apply Hok; by constructor|].
    case_by vr_unmove. apply Hok. by constructor.
  - unfold visit_field_assignment. at_right He. at_left He. here.
  - at_right He. at_left He. here.
  - at_right He. at_right He. at_left He. here.
  - at_right He. at_left He. here.
  - at_right He. at_left He. here.
  - unfold visit_match. apply passes_l; [typeclasses eauto|here|]. intros. keep.
    case_by keeps_visit_arms; [|done]. set_solver.
  - unfold visit_match. at_right He. at_right He. at_left He.
    destruct (passes_visit_arms mArms) as [Ha _]; [set_solver|done|]. by apply Ha.
Qed.

Lemma expr_passes_block x : x ∈ expr_blocks e -> passes (visitExpr e) (visitBlock x).
Proof.
  intros Hx. destruct e; simpl in *; try (by apply elem_of_nil in Hx).
  - unfold visit_match. at_right He. at_right He. at_left He.
    destruct (passes_visit_arms mArms) as [_ Ha]; [set_solver|done|]. by apply Ha.
  - destruct mBody as [b|]; [|by apply elem_of_nil in Hx].
    apply list_elem_of_singleton in Hx as ->. at_left He. apply passes_in_function. here.
  - destruct mBody as [b|]; [|by apply elem_of_nil in Hx].
    apply list_elem_of_singleton in Hx as ->. unfold visit_spawn.
    apply passes_l; [typeclasses eauto|apply passes_in_spawn; here|]. intros _.
    destruct (collect_opt _ _ _). apply keeps_bind; [typeclasses eauto|by eapply keeps_captures|].
    intros. keep.
Qed.
End children.

Section stmt_children.
Variable st : Stmt.
Hypothesis He : forall x, x ∈ stmt_exprs st -> keeps Rel (visitExpr x).
Hypothesis Hs : forall x, x ∈ stmt_stmts st -> keeps Rel (visitStmt x).
Hypothesis Hb : forall b, b ∈ stmt_blocks st -> keeps Rel (visitBlock b).

Lemma stmt_passes_expr x : x ∈ stmt_exprs st -> passes (visitStmt st) (visitExpr x).
Proof.
  intros Hx. destruct st; simpl in *; try (by apply elem_of_nil in Hx);
    try (apply list_elem_of_singleton in Hx as ->).
  all: try (apply passes_l; [typeclasses eauto|here|]; intros;
            repeat (keep; try case_by vr_in_loop; try case_by keeps_visit_opt); by auto).
  - destruct mExpression; [|by apply elem_of_nil in Hx]. apply list_elem_of_singleton in Hx as ->.
    unfold visit_return. at_left He. here.
  - apply passes_l; [typeclasses eauto|here|]. intros.
    repeat (keep; try case_by keeps_visit_opt); intros; apply Hs; set_solver.
  - destruct mIterableExpression; [|by apply elem_of_nil in Hx].
    apply list_elem_of_singleton in Hx as ->. apply passes_l; [typeclasses eauto|here|]. intros.
    keep. case_by vr_in_loop. by case_by keeps_visit_opt.
  - apply flat_inv in Hx as ([var initial] & Hd & Hx).
    eapply passes_each; [typeclasses eauto|exact Hd| |]; simpl in *.
    + intros [v i] Hin. case_by keeps_visit_declaration. case_by keeps_visit_value_opt.
      intros y Hy. apply He. by eapply elem_of_flat.
    + destruct initial as [i|]; [|by apply elem_of_nil in Hx].
      apply list_elem_of_singleton in Hx as ->. unfold visit_declaration. destruct var as [v|].
      * at_right He. at_left He. here.
      * at_left He. here.
Qed.

Lemma stmt_passes_stmt x : x ∈ stmt_stmts st -> passes (visitStmt st) (visitStmt x).
Proof.
  intros Hx. destruct st; simpl in *; try (by apply elem_of_nil in Hx).
  - apply elem_of_app in Hx as [Hx|Hx]; at_right He.
    + destruct mStatement; [|by apply elem_of_nil in Hx]. apply list_elem_of_singleton in Hx as ->.
      apply passes_l; [typeclasses eauto|here|]. intros. case_by keeps_visit_opt. set_solver.
    + destruct mElseStatement; [|by apply elem_of_nil in Hx]. apply list_elem_of_singleton in Hx as ->.
      apply passes_r; [typeclasses eauto| |intro; here]. case_by keeps_visit_opt. set_solver.
  - destruct mLoopStatement; [|by apply elem_of_nil in Hx]. apply list_elem_of_singleton in Hx as ->.
    at_right He. apply passes_in_loop. here.
  - destruct mBody; [|by apply elem_of_nil in Hx]. apply list_elem_of_singleton in Hx as ->.
    apply passes_r; [typeclasses eauto|by case_by keeps_visit_value_opt|intro].
    at_right He. apply passes_in_loop. here.
Qed.

Lemma stmt_passes_block x : x ∈ stmt_blocks st -> passes (visitStmt st) (visitBlock x).
Proof.
  intros Hx. destruct st; simpl in *; try (by apply elem_of_nil in Hx).
  - apply list_elem_of_singleton in Hx as ->. here.
  - destruct mBody; [|by apply elem_of_nil in Hx]. apply list_elem_of_singleton in Hx as ->.
    at_right He. here.
Qed.
End stmt_children.

Lemma block_passes b x :
  (forall y, y ∈ block_stmts b -> keeps Rel (visitStmt y)) ->
  x ∈ block_stmts b -> passes (visitBlock b) (visitStmt x).
Proof.
  intros Hs Hx. destruct b as [n sc l]. simpl in *. eapply passes_each; [typeclasses eauto|done|done|here].
Qed.
(** ** What a descendant does, the whole does

  [U] is something the visit of a node that satisfies [P] establishes from a
  state in [I], and that later effects keep. *)
Section descendants.
Variables (P : Expr -> Prop) (I U : Sema -> Prop).
Hypothesis HI : forall s s', Rel s s' -> I s -> I s'.
Hypothesis HU : forall s s', Rel s s' -> U s -> U s'.
Hypothesis HP : forall e s, P e -> good_expr e -> I s -> U (visitExpr e s).2.

Lemma through {A B} (m : sema A) (v : sema B) s :
  passes m v -> I s -> (forall s1, I s1 -> U (v s1).2) -> U (m s).2.
Proof. intros Hm Hs Hv. destruct (Hm s) as (s1 & H1 & H2). eauto. Qed.

Lemma good_expr_child e x : good_expr e -> x ∈ expr_exprs e -> good_expr x.
Proof. intros Hok Hx w. destruct (Hok w). split; eauto using in_expr_expr. Qed.
Lemma good_expr_block e b : good_expr e -> b ∈ expr_blocks e -> good_block b.
Proof. intros Hok Hx w. destruct (Hok w). split; eauto using in_expr_block. Qed.
Lemma good_stmt_expr s x : good_stmt s -> x ∈ stmt_exprs s -> good_expr x.
Proof. intros Hok Hx w. destruct (Hok w). split; eauto using in_stmt_expr. Qed.
Lemma good_stmt_stmt s x : good_stmt s -> x ∈ stmt_stmts s -> good_stmt x.
Proof. intros Hok Hx w. destruct (Hok w). split; eauto using in_stmt_stmt. Qed.
Lemma good_stmt_block s b : good_stmt s -> b ∈ stmt_blocks s -> good_block b.
Proof. intros Hok Hx w. destruct (Hok w). split; eauto using in_stmt_block. Qed.
Lemma good_block_stmt b x : good_block b -> x ∈ block_stmts b -> good_stmt x.
Proof. intros Hok Hx w. destruct (Hok w). split; eauto using in_block_stmt. Qed.

Lemma descendant_establishes :
  (forall e, good_expr e -> in_expr P e -> forall s, I s -> U (visitExpr e s).2) /\
  (forall s0, good_stmt s0 -> in_stmt P s0 -> forall s, I s -> U (visitStmt s0 s).2) /\
  (forall b, good_block b -> in_block P b -> forall s, I s -> U (visitBlock b s).2).
Proof.
  destruct (visit_keeps table mScope mModuleId address (ok := ok) (okr := okr) (Rel := Rel)) as (Ke & Ks & Kb).
  apply ast_induction.
  - intros e IHe IHb Hok Hin s Hs. inversion Hin as [? Hp|? x Hx Hin'|? b Hb Hin']; subst.
    + by apply HP.
    + eapply through; [apply (expr_passes_expr e); eauto using good_expr_child, good_expr_block|exact Hs|].
      intros s1. apply IHe; eauto using good_expr_child.
    + eapply through; [apply (expr_passes_block e); eauto using good_expr_child, good_expr_block|exact Hs|].
      intros s1. apply IHb; eauto using good_expr_block.
  - intros s0 IHe IHs IHb Hok Hin s Hs.
    inversion Hin as [? x Hx Hin'|? x Hx Hin'|? b Hb Hin']; subst.
    + eapply through; [apply (stmt_passes_expr s0);
        eauto using good_stmt_expr, good_stmt_stmt, good_stmt_block|exact Hs|].
      intros s1. apply IHe; eauto using good_stmt_expr.
    + eapply through; [apply (stmt_passes_stmt s0);
        eauto using good_stmt_expr, good_stmt_stmt, good_stmt_block|exact Hs|].
      intros s1. apply IHs; eauto using good_stmt_stmt.
    + eapply through; [apply (stmt_passes_block s0);
        eauto using good_stmt_expr, good_stmt_stmt, good_stmt_block|exact Hs|].
      intros s1. apply IHb; eauto using good_stmt_block.
  - intros b IHs Hok Hin s Hs. inversion Hin as [? x Hx Hin']; subst.
    eapply through; [apply (block_passes b x); eauto using good_block_stmt|exact Hs|].
    intros s1. apply IHs; eauto using good_block_stmt.
Qed.
End descendants.
End walk.

(** The visit of a block passes through that of each block that is walked in it. *)
Section blocks.
Context {T : Type} `{SymbolTable T} (table : T) (mScope : nat) (mModuleId : string).
Variable address : nat -> N.
Context {Rel : Sema -> Sema -> Prop} `{!VisitRel (fun _ => True) (fun _ => True) Rel} `{!FlatRel Rel}.

Lemma block_passes_block b0 b :
  holds_block b0 b ->
  passes Rel (visitBlock table mScope mModuleId address b) (visitBlock table mScope mModuleId address b0).
Proof.
  destruct (visit_keeps table mScope mModuleId address (ok := fun _ => True) (okr := fun _ => True) (Rel := Rel)) as (Ke & Ks & Kb).
  assert (forall e, keeps Rel (visitExpr table mScope mModuleId address e)) as Ke' by (intros e; by apply Ke).
  assert (forall s, keeps Rel (visitStmt table mScope mModuleId address s)) as Ks' by (intros s; by apply Ks).
  assert (forall b, keeps Rel (visitBlock table mScope mModuleId address b)) as Kb' by (intros b1; by apply Kb).
  apply (holds_block_rec b0
    (fun e => passes Rel (visitExpr table mScope mModuleId address e) (visitBlock table mScope mModuleId address b0))
    (fun s => passes Rel (visitStmt table mScope mModuleId address s) (visitBlock table mScope mModuleId address b0))
    (fun b => passes Rel (visitBlock table mScope mModuleId address b) (visitBlock table mScope mModuleId address b0)));
    intros; try (eapply (passes_trans Rel); [|eassumption]).
  - by eapply expr_passes_expr; auto.
  - by eapply expr_passes_block; auto.
  - by eapply stmt_passes_expr; auto.
  - by eapply stmt_passes_stmt; auto.
  - by eapply stmt_passes_block; auto.
  - apply passes_here. typeclasses eauto.
  - by eapply block_passes; auto.
Qed.
End blocks.
