(* ===== verification/SemaModuleLogic.v ===== *)
(** The logic of the declaration walk ([Sema::analyze], [Sema::visitStruct],
    [Sema::visitFunction]): a relation that every visit preserves is preserved
    by the whole pass, and the pass goes through the body of every function,
    method and constructor. *)

From S2P Require Import Prelude SourceLocation Diagnostics Ast Scope SemaTypes Sema SemaExpr SemaWalk SemaModule AstInduction SemaLogic SemaPasses.

(** * The walk over the declarations, for a relation that holds of every visit *)

(** What the declaration walk does besides visiting bodies. *)
Class ModuleRel (Rel : Sema -> Sema -> Prop) := {
  mr_visit :: VisitRel (fun _ => True) (fun _ => True) Rel;
  mr_enter : keeps Rel enter_function;
  mr_warning loc msg : keeps Rel (report_warning loc msg "unused-variable")
}.

(** A function, method or constructor that the module defines. *)
Definition defines (m : Module_) (f : FunctionDefinition) : Prop :=
  f_extern f = false /\
  (f ∈ mFunctionList m \/
   exists d, d ∈ mStructList m /\ (f ∈ s_methods d \/ s_init d = Some f)).

(** An expression in the body or in a contract clause of such a function. *)
Definition in_module (P : Expr -> Prop) (m : Module_) : Prop :=
  exists f, defines m f /\
    let body := body_of (mBodies m) f in
    ((exists b, mFuncBody body = Some b /\ in_block P b) \/
     (exists e, e ∈ mRequiresClauses body ++ mEnsuresClauses body /\ in_expr P e)).

(** The same, of any expression there is, and of those the pass does not walk. *)
Definition anywhere_in (P : Expr -> Prop) (m : Module_) : Prop :=
  exists f, defines m f /\
    let body := body_of (mBodies m) f in
    ((exists b, mFuncBody body = Some b /\ deep_block P b) \/
     (exists e, e ∈ mRequiresClauses body ++ mEnsuresClauses body /\ deep_expr P e)).

Definition skipped_in (P : Expr -> Prop) (m : Module_) : Prop :=
  exists f, defines m f /\
    let body := body_of (mBodies m) f in
    ((exists b, mFuncBody body = Some b /\ skipped_block P b) \/
     (exists e, e ∈ mRequiresClauses body ++ mEnsuresClauses body /\ skipped_expr P e)).

Lemma anywhere_split P m : anywhere_in P m -> in_module P m \/ skipped_in P m.
Proof.
  intros (f & Hf & [(b & Hb & Hin)|(e & He & Hin)]).
  - apply deep_block_split in Hin as [Hin|Hin]; [left|right]; exists f; split; [done|left; by exists b|done|left; by exists b].
  - apply deep_expr_split in Hin as [Hin|Hin]; [left|right]; exists f; split; [done|right; by exists e|done|right; by exists e].
Qed.

Section module_keeps.
Context {T : Type} `{SymbolTable T} (table : T) (mScope : nat) (mModuleId : string).
Variables (address : nat -> N) (bodies : gmap nat FunctionBody).
Context {Rel : Sema -> Sema -> Prop} `{!ModuleRel Rel}.

Lemma module_visitExpr e : keeps Rel (visitExpr table mScope mModuleId address e).
Proof. by apply (proj1 (visit_keeps (Rel := Rel) table mScope mModuleId address)). Qed.

Lemma module_visitBlock b : keeps Rel (visitBlock table mScope mModuleId address b).
Proof. by apply (proj2 (proj2 (visit_keeps (Rel := Rel) table mScope mModuleId address))). Qed.

Lemma module_reserved name loc kind : keeps Rel (checkReservedName name loc kind).
Proof. by case_by keeps_checkReservedName. Qed.

Lemma module_visit_args l : keeps Rel (visit_args (visitExpr table mScope mModuleId address) l).
Proof. unfold visit_args. repeat keep_step. apply module_visitExpr. Qed.
Hint Resolve module_visitExpr module_visitBlock module_reserved module_visit_args mr_enter mr_warning : blang.

Lemma module_exported_ref t loc what : keeps Rel (checkExportedTypeRef table mScope t loc what).
Proof.
  induction t as [name params IH|ret params] using Ty_args_ind; simpl.
  - destruct (_ || _); [by keep|]. apply keeps_bind; [typeclasses eauto|by apply keeps_each; [typeclasses eauto|]|].
    intros _. by case_by keeps_checkExportedName.
  - by case_by keeps_checkExportedName.
Qed.
Hint Resolve module_exported_ref : blang.

Lemma module_signature f what : keeps Rel (checkExportedSignature table mScope f what).
Proof. unfold checkExportedSignature, checkExportedTypePtr. keep. Qed.

Lemma module_bodyless f body owner : keeps Rel (checkBodylessMember f body owner).
Proof. unfold checkBodylessMember. keep. Qed.

Lemma module_warn_unused : keeps Rel warn_unused.
Proof. unfold warn_unused. keep. Qed.

Lemma module_function_body f body :
  keeps Rel (in_function (Some f) (enter_function;; visit_opt (visitBlock table mScope mModuleId address) body;; warn_unused)).
Proof.
  case_by vr_in_function. unfold visit_opt. keep. apply module_warn_unused.
Qed.
Hint Resolve module_signature module_bodyless module_function_body : blang.

Lemma module_visitFunction f : keeps Rel (visitFunction table mScope mModuleId address bodies f).
Proof. unfold visitFunction. destruct (f_extern f); keep. Qed.
Hint Resolve module_visitFunction : blang.

Lemma module_visit_method d f : keeps Rel (visit_method table mScope mModuleId address bodies d f).
Proof. unfold visit_method. keep. Qed.
Hint Resolve module_visit_method : blang.

Lemma module_visitStruct d : keeps Rel (visitStruct table mScope mModuleId address bodies d).
Proof.
  unfold visitStruct, check_table_column, check_exported_struct, check_contract_field,
    check_conformance, check_conformance_method, checkExportedTypePtr, visit_opt. keep.
Qed.

Lemma module_analyze_function f : keeps Rel (analyze_function table mScope mModuleId address bodies f).
Proof. unfold analyze_function. keep. Qed.
Hint Resolve module_visitStruct module_analyze_function : blang.

Lemma module_keeps m : keeps Rel (analyze_module table mScope mModuleId address bodies m).
Proof. unfold analyze_module, check_enum, check_variant, check_protocol. keep. Qed.
(** ** What the pass goes through *)
Context `{!FlatRel Rel}.
Notation visitExpr := (visitExpr table mScope mModuleId address).
Notation visitBlock := (visitBlock table mScope mModuleId address).
Notation visitFunction := (visitFunction table mScope mModuleId address bodies).
Notation analyze_module := (analyze_module table mScope mModuleId address bodies).

Lemma function_passes_body f b :
  f_extern f = false -> mFuncBody (body_of bodies f) = Some b ->
  passes Rel (visitFunction f) (visitBlock b).
Proof.
  intros Hf Hb. unfold SemaModule.visitFunction. rewrite Hf, Hb. simpl.
  apply passes_r; [typeclasses eauto|case_by module_visit_args|intros _].
  apply passes_r; [typeclasses eauto|case_by module_visit_args|intros _].
  apply passes_in_function. apply passes_r; [typeclasses eauto|case_by mr_enter|intros _].
  apply passes_l; [typeclasses eauto|by apply passes_here; typeclasses eauto|].
  intros _. case_by module_warn_unused.
Qed.

Lemma function_passes_clause f e :
  f_extern f = false -> e ∈ mRequiresClauses (body_of bodies f) ++ mEnsuresClauses (body_of bodies f) ->
  passes Rel (visitFunction f) (visitExpr e).
Proof.
  intros Hf He. unfold SemaModule.visitFunction. rewrite Hf. apply elem_of_app in He as [He|He].
  - apply passes_l; [typeclasses eauto|case_by passes_visit_args; [done|intros; case_by module_visitExpr]|]. intros _.
    keep.
  - apply passes_r; [typeclasses eauto|case_by module_visit_args|intros _].
    apply passes_l; [typeclasses eauto|case_by passes_visit_args; [done|intros; case_by module_visitExpr]|].
    intros _. case_by module_function_body.
Qed.

Lemma struct_passes_function d f :
  f ∈ s_methods d \/ s_init d = Some f ->
  passes Rel (visitStruct table mScope mModuleId address bodies d) (visitFunction f).
Proof.
  intros Hf. unfold visitStruct, check_table_column, check_exported_struct, check_contract_field,
    check_conformance, check_conformance_method, checkExportedTypePtr.
  do 4 (apply passes_r; [typeclasses eauto|keep|intros _]). destruct Hf as [Hf|Hf].
  - apply passes_l; [typeclasses eauto| |unfold visit_opt; intros _; keep].
    eapply passes_each; [typeclasses eauto|exact Hf|intros; case_by module_visit_method|].
    unfold visit_method. do 3 (apply passes_r; [typeclasses eauto|keep|intros _]).
    apply passes_here. typeclasses eauto.
  - apply passes_r; [typeclasses eauto|keep|intros _]. rewrite Hf. simpl.
    apply passes_here. typeclasses eauto.
Qed.

Lemma module_passes_function m f : defines m f -> passes Rel (analyze_module m) (visitFunction f).
Proof.
  intros [_ [Hf|(d & Hd & Hf)]];
    unfold SemaModule.analyze_module, check_enum, check_variant, check_protocol.
  - do 3 (apply passes_r; [typeclasses eauto|keep|intros _]).
    eapply passes_each; [typeclasses eauto|exact Hf|keep|].
    unfold analyze_function. do 2 (apply passes_r; [typeclasses eauto|keep|intros _]).
    apply passes_here. typeclasses eauto.
  - apply passes_l; [typeclasses eauto| |intros _; keep].
    eapply passes_each; [typeclasses eauto|exact Hd|keep|by apply struct_passes_function].
Qed.

(** What the visit of an expression that satisfies [P] establishes from any
    state, the pass over a module that holds such an expression establishes. *)
Lemma module_establishes (P : Expr -> Prop) (U : Sema -> Prop) m s :
  bodies = mBodies m ->
  (forall s s', Rel s s' -> U s -> U s') ->
  (forall e s, P e -> U (visitExpr e s).2) ->
  in_module P m -> U (analyze_module m s).2.
Proof.
  intros Hbodies HU HP (f & Hf & Hin). rewrite <- Hbodies in Hin.
  destruct (descendant_establishes table mScope mModuleId address (ok := fun _ => True)
    (okr := fun _ => True) (Rel := Rel) P (fun _ => True) U) as (De & _ & Db); [done|done|auto|].
  eapply (passes_establishes Rel U); [done|by apply module_passes_function|]. intros s1.
  destruct Hin as [(b & Hb & Hin)|(e & He & Hin)]; eapply (passes_establishes Rel U); try exact HU.
  - by apply function_passes_body; [apply Hf|].
  - intros s2. by apply Db.
  - by apply function_passes_clause; [apply Hf|].
  - intros s2. by apply De.
Qed.
End module_keeps.
