(* ===== verification/SemaTheorems.v ===== *)
(** The verdict of the semantic pass, and a sample program for its theorems. *)

From S2P Require Import Prelude SourceLocation Diagnostics Ast Scope SemaTypes Sema SemaExpr SemaWalk SemaModule AstInduction SemaLogic SemaPasses SemaModuleLogic.

Definition node (i : nat) : Node := mkNode i (mkLocation "m.b" (Z.of_nat i) 1).
Definition variable (i : nat) (name : string) (o : OwnershipQualifier) : VariableDefinition :=
  mkVariable i name (mkLocation "m.b" (Z.of_nat i) 1) false o.

(** [table struct User { id: int; age: int; }] *)
Definition User : StructDefinition :=
  mkStruct 11 "User" no_location
    [variable 1 "id" kOwnership_Value; variable 2 "age" kOwnership_Value] [] None [] []
    true true false [] "" "".

(** [enum Color { red; green; }], [struct Secret { key: int; }] *)
Definition Color : EnumDefinition :=
  mkEnum 12 "Color" no_location [mkVariant "red" [] no_location; mkVariant "green" [] no_location] [] true [].
Definition Secret : StructDefinition :=
  mkStruct 13 "Secret" no_location [variable 3 "key" kOwnership_Value] [] None [] []
    false false true [] "other.b" "".

Definition sample_scope : Scope :=
  set_types (set_symbols (Scope_new kScope_Module)
    {["User" := SymStruct User; "Color" := SymEnum Color; "Secret" := SymStruct Secret]})
    {["int" := Type_ "int" []; "bool" := Type_ "bool" []; "string" := Type_ "string" [];
      "double" := Type_ "double" []; "User" := Type_ "User" []; "Color" := Type_ "Color" []]}.

Definition sample_heap : heap := {[ 0 := sample_scope ]}.

(** [fn consume(own p: Handle)], of any type. *)
Definition consume : FunctionDefinition :=
  mkFunction 20 "consume" no_location None [variable 4 "p" kOwnership_Own] false false false false
    false false false [] [].

(** [fn main()] with the given statements as its body. *)
Definition sample_main : FunctionDefinition :=
  mkFunction 10 "main" no_location None [] false false false false false false false [] [].

Definition sample_module (stmts : list Stmt) : Module_ :=
  mkModule [sample_main] [User] [Color] [] [] [] false "m.b"
    {[ 10 := mkBody [] [] (Some (mkBlock (node 100) None stmts)) ]}.

Definition sample_types : gmap nat Ty := {[1 := Type_ "int" []; 2 := Type_ "int" []]}.

(** [User |> where( age > 3 )], with an arbitrary column. *)
Definition sample_query (column : string) : Expr :=
  QueryExpression (node 30) "User"
    [mkStep WHERE (Some (OperationsExpression (node 31) ">" (QueryFieldExpression (node 32) column)
                           (ConstInteger (node 33) 3))) "" []].

(** [m |> ...] run as a module: the verdict. *)
Definition accepted (stmts : list Stmt) : bool :=
  (analyze sample_heap N.of_nat (sample_module stmts) 0 DiagnosticEngine_new sample_types).1.

Example accepts_known_column : accepted [SExpression (sample_query "age")] = true.
Proof. vm_compute. reflexivity. Qed.

Example rejects_unknown_column : accepted [SExpression (sample_query "agee")] = false.
Proof. vm_compute. reflexivity. Qed.

(** Nothing of the kind occurs in a concrete tree. *)
Ltac absent := repeat (simpl in *; match goal with
  | Hin : _ ∈ [] |- _ => by apply elem_of_nil in Hin
  | Hin : _ ∈ _ :: _ |- _ => apply elem_of_cons in Hin as [Hin|Hin]; subst
  | Hin : in_stmt _ _ |- _ => inversion Hin; clear Hin; subst
  | Hin : in_expr _ _ |- _ => inversion Hin; clear Hin; subst
  | Hin : in_block _ _ |- _ => inversion Hin; clear Hin; subst
  end).

(** * The verdict *)

(** * What the pass reports *)

Definition is_error (d : Diagnostic) : bool := bool_decide (severity d = Error).

(** The pass reports errors of the class [sema] and one kind of warning. *)
Definition sema_diagnostic (d : Diagnostic) : Prop :=
  (severity d = Error /\ diag_code d = "sema") \/
  (severity d = Warning /\ diag_code d = "unused-variable").

(** From [s] to [s'] exactly [l] was reported to the engine, and the verdict
    turned negative exactly when [l] holds an error. *)
Definition reports (s s' : Sema) : Prop := exists l,
  Forall sema_diagnostic l /\ mDiag s' = report_all l (mDiag s) /\
  mReported s' = mReported s || existsb is_error l.

Lemma reports_same s s' : mDiag s' = mDiag s -> mReported s' = mReported s -> reports s s'.
Proof.
  intros Hd Hr. exists []. rewrite Hd, Hr.
  split_and!; [constructor|done|by rewrite orb_false_r].
Qed.

#[export] Instance reports_preorder : PreOrder reports.
Proof.
  split; [by intros s; apply reports_same|].
  intros s1 s2 s3 (l1 & H1 & D1 & R1) (l2 & H2 & D2 & R2). exists (l1 ++ l2).
  rewrite D2, D1, R2, R1. unfold report_all. rewrite foldl_app, existsb_app, orb_assoc.
  split_and!; [by apply Forall_app|done|done].
Qed.

Lemma reports_error loc msg : keeps reports (report_error loc msg).
Proof.
  intros s. exists [mkDiagnostic Error loc msg "sema" []]. simpl.
  split_and!; [by repeat constructor|done|by rewrite orb_true_r].
Qed.

Lemma reports_warning loc msg : keeps reports (report_warning loc msg "unused-variable").
Proof.
  intros s. exists [mkDiagnostic Warning loc msg "unused-variable" []]. simpl.
  split_and!; [|done|by rewrite orb_false_r]. constructor; [by right|constructor].
Qed.

Ltac same_reports := apply keeps_modify; intros; by apply reports_same.

#[export] Instance reports_flat : FlatRel reports.
Proof. by split; intros; apply reports_same. Qed.

#[export] Instance reports_visit : VisitRel (fun _ => True) (fun _ => True) reports.
Proof. flat_cases; try by (intros; apply reports_same). apply reports_error. Qed.

#[export] Instance reports_module : ModuleRel reports.
Proof.
  split; [typeclasses eauto| |apply reports_warning].
  unfold enter_function. repeat (apply keeps_bind; [typeclasses eauto|same_reports|intros _]). same_reports.
Qed.

(** C17. The verdict is what was reported: [analyze] reports a list of
    diagnostics, errors of class [sema] and unused-variable warnings only, to
    the engine, and answers true exactly when that list holds no error, whatever
    the engine deduplicates or cuts off; an interface module is not touched. *)
Theorem analyze_verdict {T} `{SymbolTable T} (table : T) (address : nat -> N) (module : Module_)
  (scope : nat) (diag : DiagnosticEngine) (types : gmap nat Ty) :
  let '(verdict, s) := analyze table address module scope diag types in
  exists l, Forall sema_diagnostic l /\ mDiag s = report_all l diag /\
    verdict = negb (existsb is_error l) /\
    (mIsExtern module = true -> l = [] /\ s = Sema_new diag types).
Proof.
  unfold analyze. destruct (mIsExtern module).
  - exists []. by split_and!.
  - destruct (module_keeps (Rel := reports) table scope (mDefiningFile module) address (mBodies module) module
                (Sema_new diag types)) as (l & Hl & Hd & Hr).
    exists l. rewrite Hd, Hr. by split_and!.
Qed.
