(* ===== verification/SemaAccept.v ===== *)
(** What acceptance by the semantic pass means ([Sema::analyze],
    [src/Sema.cpp]): the verdict never recovers once an error was reported, the
    walk reaches every expression of every function, and so an accepted module
    holds no offending expression where the pass walks. *)

From S2P Require Import Prelude SourceLocation Diagnostics Ast Scope SemaTypes Sema SemaExpr SemaWalk SemaModule AstInduction SemaLogic SemaPasses SemaModuleLogic SemaTheorems.

(** * The verdict only turns negative *)

Definition verdict_mono (s s' : Sema) : Prop := mReported s = true -> mReported s' = true.

#[export] Instance verdict_preorder : PreOrder verdict_mono.
Proof. unfold verdict_mono. split; [by intros s|by intros s1 s2 s3; auto]. Qed.

Ltac same_verdict := apply keeps_modify; intros s Hs; exact Hs.

#[export] Instance verdict_flat : FlatRel verdict_mono.
Proof. split; intros; intros Hs; exact Hs. Qed.

#[export] Instance verdict_visit : VisitRel (fun _ => True) (fun _ => True) verdict_mono.
Proof. flat_cases; intros; intros Hs; solve [exact Hs|done]. Qed.

#[export] Instance verdict_module : ModuleRel verdict_mono.
Proof.
  split; [typeclasses eauto| |]; [|intros; same_verdict].
  unfold enter_function. repeat (apply keeps_bind; [typeclasses eauto|same_verdict|intros _]). same_verdict.
Qed.


(** * What acceptance demands

  [m] ends without an error having been reported only if [Q]. *)
Definition demands {A} (Q : Prop) (m : sema A) : Prop := forall s, mReported (m s).2 = false -> Q.

Section demands.
Context (Q : Prop).

Lemma demands_now {A} (m : sema A) : Q -> demands Q m.
Proof. by intros HQ s _. Qed.

Lemma demands_l {A B} (m : sema A) (k : A -> sema B) :
  demands Q m -> (forall a, keeps verdict_mono (k a)) -> demands Q (m ≫= k).
Proof.
  intros Hm Hk s. unfold mbind, st_bind. specialize (Hm s). destruct (m s) as [a s1]. simpl in *.
  intros Hr. apply Hm. destruct (mReported s1) eqn:H1; [|done]. by rewrite (Hk a s1 H1) in Hr.
Qed.

Lemma demands_r {A B} (m : sema A) (k : A -> sema B) : (forall a, demands Q (k a)) -> demands Q (m ≫= k).
Proof. intros Hk s. unfold mbind, st_bind. destruct (m s) as [a s1]. apply Hk. Qed.

Lemma demands_error loc msg : demands Q (report_error loc msg).
Proof. done. Qed.

Lemma demands_when b (m : sema unit) :
  (b = true -> demands Q m) -> (b = false -> Q) -> demands Q (st_when b m).
Proof. intros Ht Hf. destruct b; [by apply Ht|]. intros s _. by apply Hf. Qed.

Lemma demands_each {A} (f : A -> sema unit) l a :
  a ∈ l -> (forall x, keeps verdict_mono (f x)) -> demands Q (f a) -> demands Q (st_each f l).
Proof.
  intros Ha Hf HQ. induction l as [|x l IH]; [by apply elem_of_nil in Ha|]. simpl.
  apply elem_of_cons in Ha as [->|Ha].
  - apply demands_l; [done|]. intros _. apply keeps_each; [typeclasses eauto|].
    apply Forall_forall. intros. apply Hf.
  - apply demands_r. intros _. by apply IH.
Qed.
End demands.

Lemma demands_all {A} (P : A -> Prop) (f : A -> sema unit) l :
  (forall x, keeps verdict_mono (f x)) -> (forall x, demands (P x) (f x)) ->
  demands (Forall P l) (st_each f l).
Proof.
  intros Hf HP s Hs. apply Forall_forall. intros x Hx.
  by apply (demands_each (P x) f l x Hx Hf (HP x) s).
Qed.

(** * Well-formed expressions, by the declarations alone *)

(** Some arm handles every variant, or each variant has an arm of its name. *)
Definition exhaustive (ed : EnumDefinition) (arms : list MatchArm) : Prop :=
  (exists arm, arm ∈ arms /\ arm_wildcard arm = true) \/
  (forall v, v ∈ e_variants ed ->
     exists arm, arm ∈ arms /\ arm_wildcard arm = false /\ arm_pattern arm = variant_name v).

Lemma has_wildcard_spec arms :
  has_wildcard arms = true <-> exists arm, arm ∈ arms /\ arm_wildcard arm = true.
Proof. unfold has_wildcard. rewrite existsb_exists. by setoid_rewrite list_elem_of_In. Qed.

Lemma covered_spec arms name :
  covered arms name = true <->
  exists arm, arm ∈ arms /\ arm_wildcard arm = false /\ arm_pattern arm = name.
Proof.
  unfold covered. rewrite existsb_exists. setoid_rewrite list_elem_of_In.
  setoid_rewrite andb_true_iff. setoid_rewrite negb_true_iff. by setoid_rewrite bool_decide_eq_true.
Qed.

Lemma check_exhaustive_demands n ed arms :
  demands (exhaustive ed arms) (check_exhaustive n (Some ed) arms).
Proof.
  unfold check_exhaustive, exhaustive. destruct (has_wildcard arms) eqn:Hw.
  - apply demands_now. left. by apply has_wildcard_spec.
  - unfold first_uncovered. destruct (list_find _ _) as [[i v]|] eqn:Hf; simpl; [done|].
    apply demands_now. right. intros v Hv. apply covered_spec.
    apply list_find_None in Hf. rewrite Forall_forall in Hf. apply Hf in Hv. by apply not_false_is_true.
Qed.

(** A query expression [e] reads column [c]. *)
Inductive names_column (c : string) : Expr -> Prop :=
  | names_field n : names_column c (QueryFieldExpression n c)
  | names_left n oper e1 e2 : names_column c e1 -> names_column c (OperationsExpression n oper e1 e2)
  | names_right n oper e1 e2 : names_column c e2 -> names_column c (OperationsExpression n oper e1 e2).

(** A step of a pipeline mentions column [c]: a [SET] in its assignments, the
    other steps in their expression. *)
Definition step_names (c : string) (step : QueryPipelineStep) : Prop :=
  if decide (step_type step = SET) then c ∈ (step_sets step).*1
  else exists e, step_expression step = Some e /\ names_column c e.

Definition has_column (tbl : StructDefinition) (c : string) : Prop := c ∈ v_name <$> s_fields tbl.

Section accepted.
Context {T : Type} `{SymbolTable T} (table : T) (mScope : nat).

(** [name] is a declared table struct. *)
Definition is_table (name : string) (tbl : StructDefinition) : Prop :=
  find table mScope name = Some (SymStruct tbl) /\ s_table tbl = true.

Definition good_steps (name : string) (steps : list QueryPipelineStep) : Prop :=
  exists tbl, is_table name tbl /\
    ((forall step, step ∈ steps -> step_type step <> JOIN) ->
     forall step c, step ∈ steps -> step_names c step -> has_column tbl c).

(** A match that is used as a value has an arm, and covers what it is given: some arm
    is a wildcard, or the arms are those of an enum. *)
Definition covers (arms : list MatchArm) : Prop :=
  arms <> [] /\
  ((exists arm, arm ∈ arms /\ arm_wildcard arm = true) \/
   exists name ed, find table mScope name = Some (SymEnum ed) /\ exhaustive ed arms).

Definition accepted_expr (e : Expr) : Prop :=
  match e with
  | CallExpression _ (Some f) _ args =>
      (f_builtin f = true -> f_name f = "to_json" -> length args = 1) /\
      (f_builtin f = false -> f_variadic f = false -> isGeneric_function f = false ->
       length args = length (f_params f))
  | QueryExpression _ name steps | UpdateExpression _ name steps | DeleteExpression _ name steps =>
      good_steps name steps
  | InsertExpression _ name cols _ =>
      exists tbl, is_table name tbl /\ forall c, c ∈ cols -> has_column tbl c
  | FieldAssignmentExpression _ _ (VariableExpression _ (Some v)) _ _ =>
      v_ownership v <> kOwnership_Shared
  | StructLiteralExpression _ name _ _ _ =>
      forall sd, find table mScope name = Some (SymStruct sd) -> s_from_interface sd = false
  | ConstructExpression _ (Some sd) _ _ =>
      forall init, s_init sd = Some init -> s_from_interface sd = true -> f_public init = true
  | MatchExpression _ _ arms true => covers arms
  | _ => True
  end.
End accepted.

(** * Every check demands its clause *)

Section demanded.
Context {T : Type} `{SymbolTable T} (table : T) (mScope : nat) (mModuleId : string).
Variable address : nat -> N.
Notation visitExpr := (visitExpr table mScope mModuleId address).

Lemma tableStructFor_demands {B} name n (k : option StructDefinition -> sema B) Q :
  (forall o, keeps verdict_mono (k o)) ->
  (forall tbl, is_table table mScope name tbl -> demands Q (k (Some tbl))) ->
  demands Q (tableStructFor table mScope name n ≫= k).
Proof.
  intros Hk HQ. unfold tableStructFor.
  destruct (find table mScope name) as [[]|] eqn:Hf; simpl;
    try (apply demands_l; [|done]; apply demands_l; [done|intros _; keep]).
  destruct (s_table s) eqn:Ht; simpl.
  - intros st. unfold mbind, mret, st_bind, st_ret. by apply HQ.
  - apply demands_l; [|done]; apply demands_l; [done|intros _; keep].
Qed.

Lemma checkTableField_demands tbl c loc : demands (has_column tbl c) (checkTableField tbl c loc).
Proof.
  unfold checkTableField. destruct (existsb _ _) eqn:He; [|done]. intros s _.
  apply existsb_exists in He as (f & Hf & Hn). apply bool_decide_eq_true in Hn as <-.
  unfold has_column. by apply list_elem_of_fmap_2, list_elem_of_In.
Qed.

Lemma keeps_checkTableField_verdict tbl c loc : keeps verdict_mono (checkTableField tbl c loc).
Proof. by case_by keeps_checkTableField. Qed.
Hint Resolve keeps_checkTableField_verdict : blang.

Lemma collects_column e c :
  names_column c e -> exists loc, (c, loc) ∈ collectQueryFieldExprs e.
Proof.
  induction 1 as [n|n oper e1 e2 _ (loc & IH)|n oper e1 e2 _ (loc & IH)]; simpl.
  - eexists. by apply list_elem_of_singleton.
  - exists loc. apply elem_of_app. by left.
  - exists loc. apply elem_of_app. by right.
Qed.

Lemma checkTableStep_demands tbl n step c :
  step_names c step -> demands (has_column tbl c) (checkTableStep tbl n step).
Proof.
  unfold step_names, checkTableStep. destruct (decide _).
  - intros (sf & -> & Hsf)%list_elem_of_fmap. eapply demands_each; [exact Hsf|intros; keep|].
    apply checkTableField_demands.
  - intros (e & -> & He). destruct (collects_column e c He) as [loc Hc].
    eapply demands_each; [exact Hc|intros; keep|]. apply checkTableField_demands.
Qed.

Lemma validateTableSteps_demands name steps n :
  demands (good_steps table mScope name steps) (validateTableSteps table mScope name steps n).
Proof.
  unfold validateTableSteps. apply tableStructFor_demands; [intros [tbl|]; unfold checkTableStep; keep|].
  intros tbl Ht. destruct (existsb _ steps) eqn:Hj.
  - apply demands_now. exists tbl. split; [done|]. intros Hno.
    apply existsb_exists in Hj as (step & Hs & Hd). apply bool_decide_eq_true in Hd.
    by destruct (Hno step (proj2 (list_elem_of_In _ _) Hs)).
  - intros s Hs. exists tbl. split; [done|]. intros _ step c Hin Hc. revert s Hs.
    eapply demands_each; [exact Hin|intros; unfold checkTableStep; keep|by apply checkTableStep_demands].
Qed.

Lemma insert_demands name cols n :
  demands (exists tbl, is_table table mScope name tbl /\ forall c, c ∈ cols -> has_column tbl c)
    (visit_insert table mScope n name cols).
Proof.
  unfold visit_insert. apply tableStructFor_demands; [intros [tbl|]; keep|].
  intros tbl Ht s Hs. exists tbl. split; [done|]. intros c Hc. revert s Hs.
  apply demands_l; [|intros; keep]. eapply demands_each; [exact Hc|intros; keep|].
  apply checkTableField_demands.
Qed.

Lemma check_call_demands n f args :
  demands (f_builtin f = false -> f_variadic f = false -> isGeneric_function f = false ->
           length args = length (f_params f)) (check_call table mScope n f args).
Proof.
  unfold check_call. destruct (f_variadic f) eqn:Hv; [by apply demands_now|].
  destruct (isGeneric_function f) eqn:Hg; [by apply demands_now|].
  destruct (f_builtin f) eqn:Hb; [by apply demands_now|]. simpl.
  destruct (decide _) as [Hn|Hn]; [done|]. apply demands_now. intros. lia.
Qed.

Lemma json_demands n args :
  demands (length args = 1) (validateToJsonArg table mScope n args).
Proof. unfold validateToJsonArg. by destruct args as [|a [|b l]]. Qed.

Lemma match_demands n subject arms (k : sema (option Ty)) :
  keeps verdict_mono k ->
  demands (covers table mScope arms)
    (check_exhaustive n (enumForType table mScope subject) arms;;
     check_match_value n (enumForType table mScope subject) arms;; k).
Proof.
  intros Hk s Hs. split.
  - revert s Hs. apply demands_r. intros _. apply demands_l; [|done]. unfold check_match_value.
    apply demands_r. intros _. apply demands_when; [done|]. apply bool_decide_eq_false.
  - destruct (enumForType table mScope subject) as [d|] eqn:He.
    + assert (exhaustive d arms) as [Hw|Hv].
      { revert s Hs. apply demands_l; [apply check_exhaustive_demands|]. intros _. keep. case_by keeps_check_match_value. }
      * by left.
      * right. unfold enumForType in He. destruct subject as [t|]; [|done].
        destruct (find table mScope (ty_name t)) as [[]|] eqn:Hf; try done. injection He as ->.
        exists (ty_name t), d. split; [done|by right].
    + left. apply has_wildcard_spec. revert s Hs. apply demands_r. intros _. apply demands_l; [|done].
      unfold check_match_value. apply demands_l; [|intros; keep]. apply demands_when; [done|]. cbn.
      by destruct (has_wildcard arms).
Qed.

(** The clause of a node holds when its visit ends without an error. *)
Lemma visit_demands e : demands (accepted_expr table mScope e) (visitExpr e).
Proof.
  assert (forall l, keeps verdict_mono (visit_args visitExpr l)) as Ka.
  { intros l. case_by module_visit_args. }
  assert (forall x, keeps verdict_mono (visitExpr x)) as Ke.
  { intros x. case_by module_visitExpr. }
  destruct e; simpl; try (by apply demands_now).
  - destruct mFunction as [f|]; [|by apply demands_now]. apply demands_r. intros _.
    apply demands_r. intros t. destruct (f_builtin f) eqn:Hb; simpl.
    + destruct (bool_decide (f_name f = "to_json")) eqn:Hj.
      * apply demands_l; [|intros; keep]. intros s Hs. split; [|done]. intros _ _. revert s Hs.
        apply json_demands.
      * apply bool_decide_eq_false in Hj. by apply demands_now.
    + apply demands_l; [|intros; keep; [case_by keeps_move_arguments|case_by keeps_check_constraints]].
      intros s Hs. split; [done|]. intros _ Hva Hg. by eapply check_call_demands.
  - apply demands_l; [apply validateTableSteps_demands|intros; keep].
  - apply demands_l; [apply validateTableSteps_demands|intros; keep].
  - apply demands_l; [apply validateTableSteps_demands|intros; keep].
  - apply insert_demands.
  - destruct e1; try (by apply demands_now). destruct mVariable as [v|]; [|by apply demands_now].
    unfold visit_field_assignment. do 2 (apply demands_r; intros _). simpl.
    apply demands_l; [|intros; keep]. apply demands_when; [done|]. apply bool_decide_eq_false.
  - unfold visit_struct_literal. apply demands_r. intros _. apply demands_l; [|intros; keep].
    destruct (find table mScope mTypeName) as [[]|]; simpl; try (by apply demands_now).
    apply demands_when; [done|]. by intros Hs ? [= <-].
  - destruct mStructDef as [sd|]; [|by apply demands_now]. unfold visit_construct.
    apply demands_r. intros _. destruct (s_init sd) as [init|]; [|by apply demands_now].
    apply demands_l; [|intros; keep]. apply demands_when; [done|].
    intros Hp ? [= <-] Hi. rewrite Hi in Hp. by destruct (f_public init).
  - destruct mExprMode; [|by apply demands_now]. unfold visit_match. apply demands_r. intros subject.
    do 2 (apply demands_r; intros ?). apply match_demands. keep.
Qed.
End demanded.

Lemma accepted_everywhere {T} `{SymbolTable T} (table : T) (address : nat -> N)
  (module : Module_) (scope : nat) (diag : DiagnosticEngine) (types : gmap nat Ty) (e : Expr) :
  mIsExtern module = false ->
  (analyze table address module scope diag types).1 = true ->
  in_module (eq e) module ->
  accepted_expr table scope e.
Proof.
  intros Hx Hv Hin. unfold analyze in Hv. rewrite Hx in Hv. simpl in Hv.
  destruct (module_establishes (Rel := verdict_mono) table scope (mDefiningFile module) address
    (mBodies module) (eq e) (fun s => mReported s = true \/ accepted_expr table scope e) module
    (Sema_new diag types)) as [Hr|Ha]; try done.
  - intros s s' Hr [Hs|Ha]; [left; by apply Hr|by right].
  - intros ? s <-.
    destruct (mReported (visitExpr table scope (mDefiningFile module) address e s).2) eqn:Hr; [by left|].
    right. by eapply visit_demands.
  - by rewrite Hr in Hv.
Qed.

(** C1. Accepted programs are well formed wherever the pass walks: when [analyze]
    answers true for a module that is not an interface, every expression anywhere in
    the body or a contract clause of any function, method or constructor it defines
    passes the checks, or lies below one of the children that are not walked - an
    expression of a query's step, a value of an insert, the value of an arm that has a
    block too, a part of a [for] with three expressions. The checks: calls of ordinary
    functions have one argument per parameter and [to_json] one, queries, updates,
    deletes and inserts name a declared table and only its columns, no field is
    assigned through a shared variable, imported structs are not built by a literal
    and only by a public constructor, and a match used as a value has an arm, and a
    wildcard or an arm for every variant of a declared enum. *)
Theorem accepted_module_well_formed {T} `{SymbolTable T} (table : T) (address : nat -> N)
  (module : Module_) (scope : nat) (diag : DiagnosticEngine) (types : gmap nat Ty) (e : Expr) :
  mIsExtern module = false ->
  (analyze table address module scope diag types).1 = true ->
  anywhere_in (eq e) module ->
  accepted_expr table scope e \/ skipped_in (eq e) module.
Proof. intros Hx Hv [Hin|Hin]%anywhere_split; [left|by right]. by eapply accepted_everywhere. Qed.

Lemma accepted_module_well_formed_witness :
  let m := sample_module [SExpression (sample_query "age")] in
  accepted_expr sample_heap 0 (sample_query "age") \/ skipped_in (eq (sample_query "age")) m.
Proof.
  apply (accepted_module_well_formed sample_heap N.of_nat
           (sample_module [SExpression (sample_query "age")]) 0 DiagnosticEngine_new sample_types).
  - reflexivity.
  - vm_compute. reflexivity.
  - exists sample_main. split.
    + split; [reflexivity|]. left. by apply list_elem_of_singleton.
    + left. eexists. split; [reflexivity|]. econstructor; [by apply list_elem_of_singleton|].
      econstructor; [by apply list_elem_of_singleton|]. by constructor.
Defined.
