(* ===== verification/SemaLint.v ===== *)
(** The unused-variable lint of the semantic pass ([Sema::visitFunction],
    [src/Sema.cpp]): the names it collects over a body are exactly the names of
    the variables the visited tree mentions. *)

From S2P Require Import Prelude SourceLocation Diagnostics Ast Scope SemaTypes Sema SemaExpr SemaWalk SemaModule AstInduction SemaLogic SemaPasses SemaModuleLogic SemaTheorems.

(** * The collected names *)

(** Names are only added, and only those that satisfy [P]. *)
Definition names_within (P : string -> Prop) (s s' : Sema) : Prop :=
  mReferencedNames s ⊆ mReferencedNames s' /\
  forall x, x ∈ mReferencedNames s' -> x ∈ mReferencedNames s \/ P x.

#[export] Instance names_preorder P : PreOrder (names_within P).
Proof.
  split; [by intros s; split; auto|]. intros s1 s2 s3 [L1 U1] [L2 U2]. split; [by transitivity (mReferencedNames s2)|].
  intros x Hx. destruct (U2 x Hx); auto.
Qed.

#[export] Instance names_flat P : FlatRel (names_within P).
Proof. by split; intros; split; auto. Qed.

#[export] Instance names_visit P : VisitRel (fun _ => True) (fun v => P (v_name v)) (names_within P).
Proof.
  flat_cases; intros; try (by split; auto).
  split; simpl; [set_solver|]. intros x. rewrite elem_of_union, elem_of_singleton.
  intros [->|]; auto.
Qed.

#[export] Instance names_any : VisitRel (fun _ => True) (fun _ => True) (names_within (fun _ => True)) :=
  names_visit (fun _ => True).

Section names.
Context {T : Type} `{SymbolTable T} (table : T) (mScope : nat) (mModuleId : string).
Variable address : nat -> N.
Notation visitExpr := (visitExpr table mScope mModuleId address).
Notation visitBlock := (visitBlock table mScope mModuleId address).

(** Reads, calls or assigns a variable called [x]. *)
Definition names (x : string) (e : Expr) : Prop := mentions (fun v => v_name v = x) e.

Notation any := (names_within (fun _ => True)).

Lemma any_visitExpr e : keeps any (visitExpr e).
Proof. by apply (proj1 (visit_keeps (Rel := any) (ok := fun _ => True) (okr := fun _ => True) table mScope mModuleId address)). Qed.

Lemma any_visit_args l : keeps any (visit_args visitExpr l).
Proof. unfold visit_args. keep. apply any_visitExpr. Qed.
Hint Resolve any_visitExpr any_visit_args : blang.

Lemma names_passes x e : names x e -> exists v, v_name v = x /\ passes any (visitExpr e) (reference v).
Proof.
  assert (forall v (k : sema (option Ty)), keeps any k -> passes any (reference v;; k) (reference v)) as Hr.
  { intros v k Hk. apply passes_l; [typeclasses eauto|apply passes_here; typeclasses eauto|done]. }
  unfold names. intros Hm. destruct e; try done; simpl in *.
  - destruct mVariable as [v|]; [|done]. exists v. split; [done|]. apply Hr. keep.
  - destruct mFnVariable as [v|]; [|done]. exists v. split; [done|].
    apply passes_r; [typeclasses eauto|keep|intros _]. apply Hr. keep.
  - destruct mVariable as [v|]; [|done]. exists v. split; [done|].
    apply passes_r; [typeclasses eauto|keep|intros _]. apply Hr. keep. by case_by vr_unmove.
Qed.

Lemma names_referenced x e s : names x e -> x ∈ mReferencedNames (visitExpr e s).2.
Proof.
  intros (v & <- & Hp)%names_passes. eapply (passes_establishes any); [|exact Hp|].
  - intros s1 s2 [Hsub _]. apply Hsub.
  - intros s1. simpl. set_solver.
Qed.

Lemma mentions_impl (P Q : VariableDefinition -> Prop) e :
  (forall w, P w -> Q w) -> mentions P e -> mentions Q e.
Proof.
  intros HPQ. destruct e; simpl; try done; [destruct mVariable|destruct mFnVariable|destruct mVariable]; auto.
Qed.

(** The names after a block are the names before and the ones it mentions. *)
Lemma block_names b s x :
  x ∈ mReferencedNames (visitBlock b s).2 <-> x ∈ mReferencedNames s \/ in_block (names x) b.
Proof.
  split.
  - pose proof (names_visit (fun y => in_block (names y) b)) as HV. simpl in HV.
    destruct (visit_keeps (ok := fun _ => True) (okr := fun v => in_block (names (v_name v)) b)
      (Rel := names_within (fun y => in_block (names y) b)) table mScope mModuleId address) as (_ & _ & Kb).
    apply Kb. intros w. split; [done|]. apply in_block_impl. intros e. apply mentions_impl. by intros ? <-.
  - intros [Hx|Hx].
    + destruct (visit_keeps (ok := fun _ => True) (okr := fun _ => True) (Rel := any)
        table mScope mModuleId address) as (_ & _ & Kb). by apply Kb.
    + destruct (descendant_establishes table mScope mModuleId address (ok := fun _ => True)
        (okr := fun _ => True) (Rel := any) (names x) (fun _ => True)
        (fun s => x ∈ mReferencedNames s)) as (_ & _ & Db); [done| | |by apply Db].
      * intros s1 s2 [Hsub _]. apply Hsub.
      * intros. by apply names_referenced.
Qed.
End names.

(** * The warnings *)

Lemma filter_sublist_of {A} (f : A -> bool) l : List.filter f l `sublist_of` l.
Proof. induction l as [|a l IH]; simpl; [constructor|]. destruct (f a); by constructor. Qed.

Definition unused_warning (v : VariableDefinition) : Diagnostic :=
  mkDiagnostic Warning (v_location v) ("unused variable '" +:+ v_name v +:+ "'") "unused-variable" [].

Lemma warn_each l (names : gset string) s :
  (st_each (fun v => st_when (bool_decide (v_name v ∉ names))
    (report_warning (v_location v) ("unused variable '" +:+ v_name v +:+ "'") "unused-variable")) l s).2
  = with_report s (report_all (map unused_warning (List.filter (fun v => bool_decide (v_name v ∉ names)) l)) (mDiag s))
      (mReported s).
Proof.
  revert s. induction l as [|v l IH]; intros s; [by destruct s|]. simpl. unfold mbind, st_bind.
  destruct (bool_decide (v_name v ∉ names)); simpl; [|apply IH]. by rewrite IH.
Qed.

(** C18. The lint is exact: visiting a function reports, after what its body
    reports and in the order of declaration, one unused-variable warning for
    each local recorded in the body whose name no visited expression of the
    body mentions, and no other; the verdict is not affected. *)
Theorem unused_lint_exact {T} `{SymbolTable T} (table : T) (scope : nat) (mModuleId : string)
  (address : nat -> N) (bodies : gmap nat FunctionBody) (f : FunctionDefinition) (b : Block) (s : Sema) :
  f_extern f = false ->
  body_of bodies f = mkBody [] [] (Some b) ->
  let body := (visitBlock table scope mModuleId address b (enter_function (with_func s (Some f))).2).2 in
  let s' := (visitFunction table scope mModuleId address bodies f s).2 in
  exists unused,
    mDiag s' = report_all (map unused_warning unused) (mDiag body) /\
    mReported s' = mReported body /\
    unused `sublist_of` mLocalDecls body /\
    forall v, v ∈ unused <-> v ∈ mLocalDecls body /\ ~ in_block (names (v_name v)) b.
Proof.
  intros Hx Hb body s'.
  set (unused := List.filter (fun v => bool_decide (v_name v ∉ mReferencedNames body)) (mLocalDecls body)).
  assert (s' = with_func (with_report body (report_all (map unused_warning unused) (mDiag body)) (mReported body))
                 (mCurrentFunc s)) as ->.
  { unfold s', visitFunction. rewrite Hx, Hb. unfold in_function, visit_args. simpl.
    pose proof (warn_each (mLocalDecls body) (mReferencedNames body) body) as Hw. fold unused in Hw.
    rewrite <- Hw. unfold body, warn_unused. unfold mbind, st_bind at 1 2 3 4 5 6 7. simpl.
    destruct (visitBlock _ _ _ _ b _) as [[] s1]. simpl.
    unfold st_bind. simpl. by destruct (st_each _ (mLocalDecls s1) s1) as [[] s2]. }
  exists unused. split_and!; [done|done|by apply filter_sublist_of|]. intros v. unfold unused.
  rewrite list_elem_of_In, filter_In, <- list_elem_of_In, bool_decide_eq_true.
  unfold body at 2. rewrite block_names. simpl. set_solver.
Qed.

Lemma unused_lint_exact_witness :
  let x := variable 6 "x" kOwnership_Value in
  let b := mkBlock (node 100) None [VariableDeclaration (node 50) [mkDecl (Some x) None]] in
  exists unused, unused = [x] /\
    mDiag (visitFunction sample_heap 0 "m.b" N.of_nat {[ 10 := mkBody [] [] (Some b) ]} sample_main
             (Sema_new DiagnosticEngine_new sample_types)).2 = report_all (map unused_warning unused) DiagnosticEngine_new.
Proof.
  intros x b.
  destruct (unused_lint_exact sample_heap 0 "m.b" N.of_nat {[ 10 := mkBody [] [] (Some b) ]} sample_main b
    (Sema_new DiagnosticEngine_new sample_types)) as (unused & Hd & _ & Hsub & Hu); [reflexivity|reflexivity|].
  exists unused. split; [|exact Hd].
  assert (unused = [x] \/ unused = []) as [-> | ->].
  { change (unused `sublist_of` [x]) in Hsub. apply sublist_cons_r in Hsub as [Hn|(l & -> & Hn)];
      apply sublist_nil_r in Hn; subst; auto. }
  - reflexivity.
  - exfalso. apply (not_elem_of_nil x), Hu. split; [by apply list_elem_of_singleton|].
    intros Hin. by absent.
Defined.

(** The lint does not look inside queries: a local whose only use is in a
    step of a query pipeline, or among the values of an insert, is warned about
    as unused although the program uses it. *)
Theorem unused_lint_ignores_queries :
  let x := variable 6 "x" kOwnership_Value in
  let use := VariableExpression (node 60) (Some x) in
  let declare := VariableDeclaration (node 50) [mkDecl (Some x) (Some (ConstInteger (node 51) 3))] in
  let query := QueryExpression (node 30) "User"
    [mkStep WHERE (Some (OperationsExpression (node 31) ">" (QueryFieldExpression (node 32) "age") use)) "" []] in
  let insert := InsertExpression (node 34) "User" ["age"] [use] in
  let diagnostics stmt :=
    mDiags (mDiag (analyze sample_heap N.of_nat (sample_module [declare; stmt]) 0 DiagnosticEngine_new
                     sample_types).2) in
  diagnostics (SExpression query) = [unused_warning x] /\
  diagnostics (SExpression insert) = [unused_warning x] /\
  diagnostics (SExpression use) = [].
Proof. vm_compute. done. Qed.
