(* ===== verification/SemaChecks.v ===== *)
(** Properties of the single checks of the semantic pass ([src/Sema.cpp]): type
    compatibility, exported signatures, generic constraints, match
    exhaustiveness, call arguments and the privacy of imported fields. *)

From S2P Require Import Prelude SourceLocation Diagnostics Ast Scope SemaTypes Sema SemaExpr SemaWalk SemaModule SemaLogic SemaModuleLogic SemaTheorems SemaAccept.

(** * Type compatibility *)
Section types.
Context {T : Type} `{SymbolTable T} (table : T) (mScope : nat).
Notation typesCompatible := (typesCompatible table mScope).
Notation isCheckableType := (isCheckableType table mScope).

(** A type whose spelling the check takes at its word. *)
Definition concrete (t : Ty) : Prop := ty_name t <> "" /\ looksGenericParam (ty_name t) = false.

(** Two types of which one cannot be used for the other. *)
Definition clash (a b : Ty) : Prop :=
  concrete a /\ concrete b /\ ty_name a <> ty_name b /\
  ((isContainerKind (ty_name a) = true /\ isContainerKind (ty_name b) = true) \/
   (isCheckableType (Some a) = true /\ isCheckableType (Some b) = true /\
    ~ (isScalarTypeName (ty_name a) = true /\ isScalarTypeName (ty_name b) = true))).

(** Type compatibility: an assignment, argument or return is rejected for
    its types exactly when both types are known and concrete, have different
    names, and are either two container kinds or two checkable types that are
    not both scalars; in particular the relation is reflexive and symmetric,
    and an unknown type is compatible with every type. *)
Theorem typesCompatible_spec (from to : option Ty) :
  (typesCompatible from to = false <-> exists a b, from = Some a /\ to = Some b /\ clash a b) /\
  typesCompatible from to = typesCompatible to from /\
  typesCompatible from from = true.
Proof.
  assert (forall x y, typesCompatible x y = false <-> exists a b, x = Some a /\ y = Some b /\ clash a b) as Hc.
  { intros [a|] [b|]; try (split; [done|by intros (? & ? & ? & ? & _)]).
    unfold typesCompatible. split.
    - intros Hf. exists a, b. split_and!; [done..|]. unfold clash, concrete.
      destruct (bool_decide (ty_name a = "")) eqn:Ha; [done|].
      destruct (bool_decide (ty_name b = "")) eqn:Hb; [done|].
      apply bool_decide_eq_false in Ha, Hb. cbn [orb] in Hf.
      destruct (decide (ty_name a = ty_name b)); [done|].
      destruct (looksGenericParam (ty_name a)), (looksGenericParam (ty_name b)); cbn [orb] in Hf; try done.
      split_and!; try done. revert Hf.
      destruct (isContainerKind (ty_name a)), (isContainerKind (ty_name b)),
        (SemaTypes.isCheckableType table mScope (Some a)), (SemaTypes.isCheckableType table mScope (Some b)),
        (isScalarTypeName (ty_name a)), (isScalarTypeName (ty_name b)); intros [=]; intuition congruence.
    - intros (? & ? & [= <-] & [= <-] & (Ha & Ga) & (Hb & Gb) & Hn & Hk).
      rewrite !bool_decide_eq_false_2 by done. cbn [orb].
      rewrite decide_False by done. rewrite Ga, Gb. cbn [orb].
      destruct Hk as [[-> ->]|(Ka & Kb & Hs)]; [done|].
      destruct (_ && _); [done|]. rewrite Ka, Kb. cbn [negb orb].
      destruct (isScalarTypeName (ty_name a)), (isScalarTypeName (ty_name b)); try done. by destruct Hs. }
  assert (forall x y, typesCompatible x y = false -> typesCompatible y x = false) as Hs.
  { intros x y (a & b & -> & -> & Ca & Cb & Hn & Hk)%Hc. apply Hc. exists b, a.
    split_and!; [done..|]. split_and!; [done..|]. destruct Hk as [[? ?]|(? & ? & Hs)]; [auto|right].
    split_and!; [done..|]. intros [? ?]. by apply Hs. }
  split; [apply Hc|]. split.
  - destruct (typesCompatible from to) eqn:H1, (typesCompatible to from) eqn:H2; try done;
      [by apply Hs in H2; rewrite H1 in H2|by apply Hs in H1; rewrite H2 in H1].
  - destruct (typesCompatible from from) eqn:H1; [done|].
    apply Hc in H1 as (a & b & -> & [= <-] & _ & _ & Hn & _). done.
Qed.
End types.

(** * Exported signatures *)
Section exported.
Context {T : Type} `{SymbolTable T} (table : T) (mScope : nat).

(** The names a type spells that the check looks up: not inside a function type,
    and not below the spellings it takes for "no type". *)
Inductive mentions_type (x : string) : Ty -> Prop :=
  | mention_head params : x ∉ [""; "self"; "void"] -> mentions_type x (Type_ x params)
  | mention_argument name params t : name ∉ [""; "self"; "void"] -> t ∈ params ->
      mentions_type x t -> mentions_type x (Type_ name params)
  | mention_function ret params : x = "fn" -> mentions_type x (FunctionType ret params).

(** [x] is a declared type that is not exported. *)
Definition private_type (x : string) : Prop :=
  match find table mScope x with
  | Some (SymStruct sd) => s_public sd = false
  | Some (SymEnum ed) => e_public ed = false
  | Some (SymProtocol pd) => p_public pd = false
  | _ => False
  end.

Lemma checkExportedName_verdict name loc what s :
  mReported (checkExportedName table mScope name loc what s).2 = true <->
  mReported s = true \/ private_type name.
Proof.
  unfold checkExportedName, private_type. destruct (find table mScope name) as [[]|]; simpl;
    [tauto|tauto| | | |tauto]; (destruct (s_public _) + destruct (e_public _) + destruct (p_public _));
    simpl; intuition congruence.
Qed.

Lemma each_verdict {A} (f : A -> sema unit) (P : A -> Prop) l s :
  (forall a s, a ∈ l -> mReported (f a s).2 = true <-> mReported s = true \/ P a) ->
  mReported (st_each f l s).2 = true <-> mReported s = true \/ exists a, a ∈ l /\ P a.
Proof.
  revert s. induction l as [|a l IH]; intros s Hf; simpl.
  - split; [auto|]. intros [?|(? & ?%elem_of_nil & _)]; done.
  - unfold mbind, st_bind. specialize (Hf a s ltac:(set_solver)) as Ha. destruct (f a s) as [[] s1]. simpl in Ha.
    rewrite IH by (intros; apply Hf; set_solver). rewrite Ha. split.
    + intros [[?|?]|(b & ? & ?)]; [auto|right; exists a; set_solver|right; exists b; set_solver].
    + intros [?|(b & [->|?]%elem_of_cons & ?)]; eauto.
Qed.

(** Exported types are closed: the check of a type in an exported signature
    turns the verdict negative exactly when the type mentions, as its head or
    anywhere in its type arguments, a struct, enum or protocol that is not
    exported. *)
Theorem checkExportedTypeRef_spec (t : Ty) (loc : SourceLocation) (what : string) (s : Sema) :
  mReported (checkExportedTypeRef table mScope t loc what s).2 = true <->
  mReported s = true \/ exists x, mentions_type x t /\ private_type x.
Proof.
  revert s. induction t as [name params IH|ret params] using Ty_args_ind; intros s.
  - assert (bool_decide (name = "") || bool_decide (name = "self") || bool_decide (name = "void") = true
            <-> name ∈ ["" : string; "self"; "void"]) as Hskip.
    { rewrite !orb_true_iff, !bool_decide_eq_true, !elem_of_cons, elem_of_nil. tauto. }
    simpl. destruct (_ || _) eqn:Hn.
    + split; [auto|]. intros [Hs|(x & Hx & _)]; [done|].
      inversion Hx as [? Hno|? ? ? Hno|]; subst; by destruct Hno; apply Hskip.
    + assert (name ∉ ["" : string; "self"; "void"]) as Hno by (rewrite <- Hskip; congruence).
      unfold mbind, st_bind.
      pose proof (each_verdict (fun t => checkExportedTypeRef table mScope t loc what)
        (fun t => exists x, mentions_type x t /\ private_type x) params s) as He.
      destruct (st_each _ params s) as [[] s1]. simpl in He. rewrite checkExportedName_verdict, He.
      * split.
        -- intros [[?|(t & Ht & x & Hx & Hp)]|Hp]; [auto| |]; right; [exists x|exists name];
             (split; [|done]); [by eapply mention_argument|by constructor].
        -- intros [?|(x & Hx & Hp)]; [auto|]. inversion Hx; subst; [by right|left; right]; eauto.
      * intros t s2 Ht. rewrite Forall_forall in IH. by apply IH.
  - simpl. rewrite checkExportedName_verdict. split; (intros [?|Hx]; [auto|right]).
    + exists "fn". by split; [constructor|].
    + destruct Hx as (x & Hx & Hp). by inversion Hx; subst.
Qed.
End exported.

(** Function types escape the check: an exported function may take or
    return a function over a type that is not exported, at any depth, and the
    signature is accepted, although an exported declaration is meant to refer
    to exported types only. *)
Theorem function_type_signature_unchecked {T} `{SymbolTable T} (table : T) (mScope : nat) (ret : option Ty)
  (params : list Ty) (loc : SourceLocation) (what : string) (s : Sema) :
  find table mScope "fn" = None ->
  checkExportedTypeRef table mScope (FunctionType ret params) loc what s = (tt, s).
Proof. intros Hf. simpl. unfold checkExportedName. by rewrite Hf. Qed.

Lemma function_type_signature_unchecked_witness :
  let secret := Type_ "Secret" [] in
  let s := Sema_new DiagnosticEngine_new sample_types in
  private_type sample_heap 0 "Secret" /\
  mReported (checkExportedTypeRef sample_heap 0 (Type_ "Array" [secret]) no_location "f" s).2 = true /\
  checkExportedTypeRef sample_heap 0 (FunctionType (Some secret) [secret]) no_location "f" s = (tt, s).
Proof.
  split; [reflexivity|split; [vm_compute; reflexivity|]].
  apply (function_type_signature_unchecked sample_heap 0). reflexivity.
Defined.

(** * Match *)
Section matches.
Context {T : Type} `{SymbolTable T} (table : T) (mScope : nat) (mModuleId : string).
Variable address : nat -> N.

(** Accepted matches are exhaustive: when the visit of a match ends without
    an error and the subject's type, as the visit of the subject computed it,
    is a declared enum, then some arm is a wildcard or every variant has an
    arm; a match used as a value over any other subject has a wildcard. *)
Theorem accepted_match_exhaustive (n : Node) (subject : Expr) (arms : list MatchArm) (mode : bool)
  (s : Sema) :
  mReported (visitExpr table mScope mModuleId address (MatchExpression n subject arms mode) s).2 = false ->
  match enumForType table mScope (visitExpr table mScope mModuleId address subject s).1 with
  | Some ed => exhaustive ed arms
  | None => mode = true -> exists arm, arm ∈ arms /\ arm_wildcard arm = true
  end.
Proof.
  simpl. unfold visit_match. unfold mbind at 1, st_bind at 1.
  destruct (visitExpr table mScope mModuleId address subject s) as [t s1]. simpl. revert s1.
  change (demands match enumForType table mScope t with
    | Some ed => exhaustive ed arms
    | None => mode = true -> exists arm, arm ∈ arms /\ arm_wildcard arm = true
    end (bind_arms table mScope n t arms;;
         unified ← st_fold (fun unified arm =>
           match arm with
           | mkArm _ _ body value _ _ _ =>
               visit_arm table mScope unified (visitBlock table mScope mModuleId address <$> body) value
                 (visit_value_opt (visitExpr table mScope mModuleId address) value)
           end) arms None;
         check_exhaustive n (enumForType table mScope t) arms;;
         (if mode then check_match_value n (enumForType table mScope t) arms;; resolved n unified
          else mret None))).
  apply demands_r. intros _. apply demands_r. intros unified.
  destruct (enumForType table mScope t) as [ed|].
  - apply demands_l; [apply check_exhaustive_demands|]. intros _. destruct mode; keep. case_by keeps_check_match_value.
  - apply demands_r. intros _. destruct mode; [|by apply demands_now].
    apply demands_l; [|intros; keep]. apply demands_l; [|intros; keep].
    apply demands_when; [done|]. intros Hw _. apply has_wildcard_spec.
    by destruct (has_wildcard arms).
Qed.
End matches.

Lemma accepted_match_exhaustive_witness :
  let arm p := mkArm p [] None (Some (ConstInteger (node 71) 1)) None false false in
  let subject := VariableExpression (node 72) (Some (variable 7 "c" kOwnership_Value)) in
  let s := Sema_new DiagnosticEngine_new {[ 7 := Type_ "Color" [] ]} in
  let visit arms := visitExpr sample_heap 0 "m.b" N.of_nat (MatchExpression (node 70) subject arms true) s in
  exhaustive Color [arm "red"; arm "green"] /\ mReported (visit [arm "red"]).2 = true.
Proof.
  intros arm subject s visit. split; [|vm_compute; reflexivity].
  assert (enumForType sample_heap 0 (visitExpr sample_heap 0 "m.b" N.of_nat subject s).1 = Some Color) as He
    by reflexivity.
  pose proof (accepted_match_exhaustive sample_heap 0 "m.b" N.of_nat (node 70) subject
    [arm "red"; arm "green"] true s) as Ht.
  rewrite He in Ht. apply Ht. vm_compute. reflexivity.
Defined.

(** * Generic constraints *)
Section constraints.
Context {T : Type} `{SymbolTable T} (table : T) (mScope : nat).

(** The struct's methods have each method the protocol requires, with as many
    parameters. *)
Definition satisfies (methods required : list FunctionDefinition) : Prop :=
  forall req, req ∈ required -> exists m,
    find_method (f_name req) methods = Some m /\ length (f_params m) = length (f_params req).

Lemma checkRequiredMethods_verdict a c p loc methods required s :
  mReported (checkRequiredMethods a c p loc methods required s).2 = false <->
  mReported s = false /\ satisfies methods required.
Proof.
  induction required as [|req required IH]; simpl.
  - split; [|by intros [? _]]. intros Hs. split; [done|]. by intros ? ?%elem_of_nil.
  - destruct (find_method (f_name req) methods) as [m|] eqn:Hm.
    + destruct (decide _) as [Hl|Hl].
      * split; [done|]. intros [_ Hs]. destruct (Hs req) as (m' & Hm' & Hl'); [set_solver|]. congruence.
      * rewrite IH. split; intros [Hs Hr]; (split; [done|]); intros r Hin; [|apply Hr; set_solver].
        apply elem_of_cons in Hin as [->|Hin]; [|by apply Hr]. exists m. split; [done|lia].
    + split; [done|]. intros [_ Hs]. destruct (Hs req) as (m' & Hm' & _); [set_solver|]. congruence.
Qed.

(** Constraint checking is exact: an argument for a constrained generic
    parameter is rejected exactly when it names a struct, the constraint names
    a protocol, and some method the protocol requires is missing from the
    struct or takes another number of parameters. *)
Theorem checkConstraint_spec (arg : Ty) (constraint paramName : string) (loc : SourceLocation) (s : Sema) :
  mReported (checkConstraint table mScope arg constraint paramName loc s).2 = false <->
  mReported s = false /\
  forall sd pd, constraint <> "" -> find table mScope (ty_name arg) = Some (SymStruct sd) ->
    find table mScope constraint = Some (SymProtocol pd) -> satisfies (s_methods sd) (p_methods pd).
Proof.
  unfold checkConstraint. destruct (decide (constraint = "")) as [Hc|Hc]; simpl; [naive_solver|].
  destruct (find table mScope (ty_name arg)) as [[]|]; simpl; try naive_solver.
  destruct (find table mScope constraint) as [[]|]; simpl; try naive_solver.
  rewrite checkRequiredMethods_verdict. naive_solver.
Qed.
End constraints.

(** * Member access *)
Section members.
Context {T : Type} `{SymbolTable T} (table : T) (mScope : nat) (mModuleId : string).

(** Member access and privacy: on a base of a declared struct type, a
    struct of this module resolves the field of that name when it has one,
    without a report; of an imported struct no field is ever resolved or
    typed, and naming one is an error unless the name is only a method's; a
    name that is neither field nor method is always an error. *)
Theorem resolveFieldAccess_spec (n : Node) (name : string) (base : Ty) (sd : StructDefinition) (s : Sema) :
  find table mScope (ty_name base) = Some (SymStruct sd) ->
  let s' := (resolveFieldAccess table mScope mModuleId n name (Some base) s).2 in
  match find_field name (s_fields sd), find_method name (s_methods sd) with
  | Some f, _ =>
      if is_imported mModuleId sd then
        mReported s' = true /\ mResolvedFields s' = mResolvedFields s /\ mResolvedTypes s' = mResolvedTypes s
      else
        mReported s' = mReported s /\ mResolvedFields s' = <[node_id n := f]> (mResolvedFields s) /\
        mDiag s' = mDiag s
  | None, Some _ => s' = s
  | None, None =>
      mReported s' = true /\ mResolvedFields s' = mResolvedFields s /\ mResolvedTypes s' = mResolvedTypes s
  end.
Proof.
  intros Hf s'. unfold s', resolveFieldAccess, structForType. rewrite Hf. simpl.
  destruct (find_field name (s_fields sd)) as [f|].
  - destruct (is_imported mModuleId sd); [done|]. simpl.
    destruct (mVarTypes s !! vid f) as [t|] eqn:Ht; unfold mbind, st_bind; simpl; rewrite Ht; simpl; [|done].
    by destruct (mentionsGenericParam _ _).
  - destruct (find_method name (s_methods sd)); [done|]. by destruct (is_imported mModuleId sd).
Qed.
End members.

Lemma resolveFieldAccess_spec_witness :
  let s := Sema_new DiagnosticEngine_new sample_types in
  let access base name := (resolveFieldAccess sample_heap 0 "m.b" (node 80) name (Some (Type_ base [])) s).2 in
  (mReported (access "Secret" "key") = true /\ mResolvedFields (access "Secret" "key") = ∅ /\
   mResolvedTypes (access "Secret" "key") = ∅) /\
  mReported (access "User" "id") = false.
Proof.
  intros s access. split; [|reflexivity].
  apply (resolveFieldAccess_spec sample_heap 0 "m.b" (node 80) "key" (Type_ "Secret" []) Secret s).
  reflexivity.
Defined.

(** * Call arguments *)
Section arguments.
Context {T : Type} `{SymbolTable T} (table : T) (mScope : nat).

(** Argument [a] may be passed for parameter [p], by the types recorded in [s]. *)
Definition fits (s : Sema) (a : Expr) (p : VariableDefinition) : Prop :=
  typesCompatible table mScope (mResolvedTypes s !! node_id (expr_node a)) (mVarTypes s !! vid p) = true.

Lemma typesCompatible_unknown t : typesCompatible table mScope t None = true.
Proof. by destruct t. Qed.

Lemma check_arguments_verdict name args : forall i params s,
  let s' := (check_arguments table mScope name i args params s).2 in
  mReported s' = false <-> mReported s = false /\
    forall j a p, args !! j = Some a -> params !! j = Some p -> fits s a p.
Proof.
  induction args as [|a args IH]; intros i [|p params] s;
    try (simpl; split; [intros Hs; split; [exact Hs|by intros [|j]]|by intros [? _]]).
  simpl. unfold mbind, st_bind. simpl.
  set (bad := bool_decide (is_Some (mVarTypes s !! vid p)) && _).
  assert (bad = false <-> fits s a p) as Hbad.
  { unfold bad, fits. rewrite andb_false_iff, negb_false_iff, bool_decide_eq_false.
    destruct (mVarTypes s !! vid p); [|rewrite typesCompatible_unknown; split; [done|by intros _; left; intros []]].
    split; [intros [[]|?]; [eauto|done]|auto]. }
  clearbody bad. destruct bad; simpl.
  - specialize (IH (S i) params (with_report s (error (expr_location a)
      ("argument " +:+ show_size (i + 1) +:+ " to '" +:+ name +:+ "': cannot pass '" +:+
       typeName (mResolvedTypes s !! node_id (expr_node a)) +:+ "' as '" +:+ typeName (mVarTypes s !! vid p) +:+ "'")
      (mDiag s)) true)). simpl in IH.
    split; [intros [? _]%IH; done|]. intros [_ Hf]. specialize (Hf 0 a p eq_refl eq_refl).
    by apply Hbad in Hf.
  - rewrite IH. split; intros [Hs Hf]; (split; [done|]).
    + intros [|j] a' p' Ha Hp; simplify_eq/=; [by apply Hbad|eauto].
    + intros j a' p' Ha Hp. by apply (Hf (S j)).
Qed.

(** Call checking is exact: the call of a function that is neither
    variadic, generic, built in nor foreign is rejected exactly when the number
    of arguments differs from the number of parameters or some argument's type
    is incompatible with its parameter's. *)
Theorem check_call_spec (n : Node) (callee : FunctionDefinition) (args : list Expr) (s : Sema) :
  f_variadic callee || isGeneric_function callee || f_builtin callee || f_extern callee = false ->
  mReported (check_call table mScope n callee args s).2 = false <->
  mReported s = false /\ Forall2 (fits s) args (f_params callee).
Proof.
  intros [[Hg Hb]%orb_false_iff Hx]%orb_false_iff. unfold check_call. rewrite Hg, Hb, Hx. simpl.
  destruct (decide _) as [Hl|Hl].
  - split; [done|]. intros [_ Hf]. by apply Forall2_length in Hf.
  - rewrite check_arguments_verdict, Forall2_lookup. split; intros [Hs Hf]; (split; [done|]).
    + intros j. destruct (args !! j) as [a|] eqn:Ha, (f_params callee !! j) as [p|] eqn:Hp.
      * constructor. by apply (Hf j).
      * apply lookup_lt_Some in Ha. apply lookup_ge_None in Hp. lia.
      * apply lookup_lt_Some in Hp. apply lookup_ge_None in Ha. lia.
      * constructor.
    + intros j a p Ha Hp. specialize (Hf j). rewrite Ha, Hp in Hf. by inversion Hf.
Qed.
End arguments.

Lemma check_call_spec_witness :
  let s := Sema_new DiagnosticEngine_new sample_types in
  let call args := (check_call sample_heap 0 (node 90) consume args s).2 in
  Forall2 (fits sample_heap 0 s) [ConstInteger (node 91) 3] (f_params consume) /\ mReported (call []) = true.
Proof.
  intros s call. split; [|reflexivity].
  refine (proj2 (proj1 (check_call_spec sample_heap 0 (node 90) consume [ConstInteger (node 91) 3] s _) _)).
  - reflexivity.
  - vm_compute. reflexivity.
Defined.
