(* ===== verification/Tokens.v ===== *)
(** The token stream the parser reads: what [peekSymbol], [getSymbol],
    [getSymbolText], [getCurrentPos], [setCurrentPos], [isEOF],
    [getTokenLocation] and [splitShiftIntoCloseAngles] of [class Lexer]
    ([src/FileLexer.cpp], [src/FileLexer.h]) do, told in terms of the tokens a
    text scans to instead of the text. *)

From S2P Require Import Prelude SourceLocation Lexer.

(** [st_tokens] is what the text scans to; [st_end] is scanned behind the last
    token and [st_eof] ever after: behind white space or a comment the first
    stands where that starts.  [st_scanned] tokens are in the lexer's buffer, [st_trailing] says that
    white space or a comment follows the last token, [st_peeked] that a token
    is cached, and [st_text] is [mMatchString]. *)
Record stream := mkStream {
  st_tokens : list SymbolInfo;
  st_end : SymbolInfo;
  st_eof : SymbolInfo;
  st_file : string;
  st_cursor : nat;
  st_scanned : nat;
  st_trailing : bool;
  st_peeked : bool;
  st_text : string
}.

Definition stream_new (file : string) (tokens : list SymbolInfo) (end_ eof : SymbolInfo) (trailing : bool) : stream :=
  mkStream tokens end_ eof file 0 0 trailing false "".

(** The end of the text is scanned again and again. *)
Definition token_at (s : stream) (i : nat) : SymbolInfo :=
  default (if decide (i = length (st_tokens s)) then st_end s else st_eof s) (st_tokens s !! i).

Definition move (cursor : nat) (peeked : bool) (text : string) (s : stream) : stream :=
  mkStream (st_tokens s) (st_end s) (st_eof s) (st_file s) cursor (Nat.max (st_scanned s) (S (st_cursor s)))
    (st_trailing s) peeked text.

Definition stream_peek (s : stream) : Z * stream :=
  let t := token_at s (st_cursor s) in
  if st_peeked s then (symbol t, s)
  else (symbol t, move (st_cursor s) (bool_decide (symbol t <> (-1)%Z)) (symbolText t) s).

Definition stream_get (s : stream) : Z * stream :=
  let t := token_at s (st_cursor s) in
  (symbol t, move (S (st_cursor s)) false (symbolText t) s).

Definition stream_set_pos (pos : nat) (s : stream) : stream :=
  mkStream (st_tokens s) (st_end s) (st_eof s) (st_file s) pos (st_scanned s) (st_trailing s) false (st_text s).

Definition stream_isEOF (s : stream) : bool :=
  if st_peeked s then false
  else if bool_decide (st_cursor s < st_scanned s) then
    bool_decide (symbol (token_at s (st_cursor s)) = (-1)%Z)
  else
    bool_decide (length (st_tokens s) < st_scanned s) ||
    (bool_decide (st_scanned s = length (st_tokens s)) && negb (st_trailing s)).

Definition stream_location (s : stream) : SourceLocation * stream :=
  let s := (stream_peek s).2 in
  let t := token_at s (st_cursor s) in
  (mkLocation (st_file s) (info_line t) (info_col t), s).

(** [">>"] before the cursor's next token becomes two [">"]. *)
Definition stream_split (s : stream) : stream :=
  let s := (stream_peek s).2 in
  let t := token_at s (st_cursor s) in
  if bool_decide (symbol t <> code SHIFT) || bool_decide (symbolText t <> ">>") then s
  else
    let first := mkSymbolInfo (char_to_int ">") ">" (info_line t) (info_col t) in
    let second := mkSymbolInfo (char_to_int ">") ">" (info_line t) (u32 (info_col t + 1)) in
    mkStream (take (st_cursor s) (st_tokens s) ++ first :: second :: drop (S (st_cursor s)) (st_tokens s))
      (st_end s) (st_eof s) (st_file s) (st_cursor s) (S (st_scanned s)) (st_trailing s) false (st_text s).
