(* ===== verification/LexerStream.v ===== *)
(** The tokens a text scans to, and that the lexer's operations over the text
    ([LexerReplay.v]) do what the operations over its tokens do ([Tokens.v]). *)

From S2P Require Import Prelude SourceLocation Reader Lexer LexerLogic LexerScan LexerSpec LexerReplay LexerTheorems Tokens.

Notation text_lexer := (Lexer StringReader.StringLexerReader).

(** One token from the text, with its position. *)
Definition scan_one (fuel : nat) : lex (R := StringReader.StringLexerReader) SymbolInfo :=
  sym ← getSymbolFromFile fuel;
  s ← gets (fun s : text_lexer => s);
  mret (mkSymbolInfo sym (mMatchString s) (mScanLine s) (mScanCol s)).

(** All tokens; what is scanned at the end; and whether anything stood before
    the end. *)
Fixpoint scan_tokens (fuel n : nat) : lex (R := StringReader.StringLexerReader) (list SymbolInfo * SymbolInfo * bool) :=
  match n with
  | 0 => fun _ => OutOfFuel
  | S n =>
      before ← reader_isEOF;
      t ← scan_one fuel;
      after ← reader_isEOF;
      if bool_decide (symbol t = (-1)%Z) && after then mret ([], t, negb before)
      else '(l, e, b) ← scan_tokens fuel n; mret (t :: l, e, b)
  end.

(** The stream of a document, before anything is read. *)
Definition document_stream (path text : string) : option stream :=
  let fuel := S (String.length text) in
  let lexer := Lexer_new (StringReader.StringLexerReader_new (chars text) path) in
  match (r ← scan_tokens fuel fuel; eof ← scan_one fuel; mret (r, eof)) lexer with
  | Done ((l, e, b, eof), s) => Some (stream_new (rd_getFileName (mReader s)) l e eof b)
  | _ => None
  end.

Definition text_stream : string -> option stream := document_stream "a.b".

Example text_stream_sample :
  (fun s => (map symbolText (st_tokens s), st_trailing s)) <$> text_stream "a >> b; // end" =
  Some (["a"; ">>"; "b"; ""], true).
Proof. vm_compute. reflexivity. Qed.

(** * Every text has its tokens *)

Notation text_left s t := (rd_rep (mReader s) t).

Lemma wp_reader_isEOF (s : text_lexer) t Q :
  text_left s t -> (forall s', text_left s' t -> Q (bool_decide (t = [])) s') -> wp reader_isEOF Q s.
Proof.
  intros Hr HQ. destruct (rd_isEOF_law _ _ Hr) as (Hb & Hr' & _). unfold wp, reader_isEOF, on_reader.
  destruct (rd_isEOF (mReader s)) as [b r]. cbn in Hb. subst b. by apply HQ.
Qed.

(** A token takes something from the text, except at its end. *)
Lemma wp_scan_one fuel (s : text_lexer) t Q :
  text_left s t -> length t < fuel ->
  (forall i t' s', text_left s' t' -> length t' <= length t ->
     (length t' = length t \/ t = [] -> symbol i = (-1)%Z /\ t' = []) -> Q i s') ->
  wp (scan_one fuel) Q s.
Proof.
  intros Hr Hf HQ. unfold scan_one. apply wp_bind.
  eapply wp_getSymbolFromFile; [exact Hf|exact Hr|].
  intros tr tok rest y s' -> Htr Hs He. apply wp_bind, wp_gets, wp_ret.
  apply (HQ _ rest); [apply Hs|rewrite !length_app; lia|]. cbn.
  intros Hc. assert (tok = []) as [-> ->]%He; [|done].
  destruct Hc as [Hl|Hl%app_eq_nil].
  - rewrite !length_app in Hl. destruct tok; [done|cbn in Hl; lia].
  - by destruct Hl as [_ [-> _]%app_eq_nil].
Qed.

Lemma wp_scan_tokens fuel n : forall (s : text_lexer) t Q,
  text_left s t -> length t < fuel -> length t < n ->
  (forall l e b s', text_left s' [] -> length l <= length t -> symbol e = (-1)%Z -> Q (l, e, b) s') ->
  wp (scan_tokens fuel n) Q s.
Proof.
  induction n as [|n IH]; intros s t Q Hr Hf Hn HQ; [lia|]. cbn [scan_tokens].
  apply wp_bind. eapply wp_reader_isEOF; [exact Hr|]. intros s1 H1.
  apply wp_bind. eapply wp_scan_one; [exact H1|done|]. intros i t2 s2 H2 Hl2 He2.
  apply wp_bind. eapply wp_reader_isEOF; [exact H2|]. intros s3 H3.
  destruct (bool_decide (symbol i = (-1)%Z) && bool_decide (t2 = [])) eqn:E.
  - apply andb_prop in E as [Ei%bool_decide_eq_true ->%bool_decide_eq_true]. apply wp_ret. apply HQ; [done|cbn; lia|done].
  - assert (length t2 < length t) as Hlt.
    { destruct (decide (length t2 = length t)) as [Hq|]; [|lia]. destruct He2 as [Hs ->]; [by left|].
      by rewrite !bool_decide_true in E. }
    apply wp_bind. apply (IH s3 t2); [done|lia|lia|].
    intros l e b s4 H4 Hl He. apply wp_ret, HQ; [done|cbn; lia|done].
Qed.

(** The stream of a document: no more tokens than characters, and only the end
    of the text behind them. *)
Lemma document_stream_total path text :
  exists st, document_stream path text = Some st /\ st_cursor st = 0 /\ st_peeked st = false /\
    length (st_tokens st) <= String.length text /\
    symbol (st_end st) = (-1)%Z /\ symbol (st_eof st) = (-1)%Z.
Proof.
  unfold document_stream. set (s := Lexer_new _).
  assert (length (chars text) = String.length text) as Hlen by apply length_chars.
  assert (wp (r ← scan_tokens (S (String.length text)) (S (String.length text));
              eof ← scan_one (S (String.length text)); mret (r, eof))
    (fun r _ => length r.1.1.1 <= String.length text /\ symbol r.1.1.2 = (-1)%Z /\ symbol r.2 = (-1)%Z) s) as H.
  { apply wp_bind. apply (wp_scan_tokens _ _ s (chars text)); [done|lia|lia|].
    intros l e b s1 H1 Hl He. apply wp_bind. apply (wp_scan_one _ s1 []); [done|cbn; lia|].
    intros i t' s2 H2 _ Hi. apply wp_ret. cbn. split; [lia|]. split; [done|]. by apply Hi; right. }
  apply wp_done in H as ([[[l e] b] eof] & s' & -> & Hl & He & Ho). eexists. by split.
Qed.
