(* ===== verification/ParserBase.v ===== *)
(** What the parse functions ([src/Q*.cpp]) share: the state they work on, the
    exceptions they throw ([COMPILE_ERROR], [src/CompilerHelpers.h]), the
    operations of the lexer and of the scopes, and the nodes they create. *)

From stdpp Require Import sorting.
From S2P Require Import Prelude SourceLocation Lexer Tokens Diagnostics Ast Scope.

(** A top-level function whose body is parsed after all declarations: the
    function, its scope ([mFuncScope]) and where the body starts ([mBodyPos]). *)
Record deferred_body := mkDeferred {
  db_function : FunctionDefinition;
  db_scope : nat;
  db_pos : nat
}.

(** The module that is being parsed, the functions with deferred bodies, and the
    definitions by their identity, as they are now: what a pointer points to. *)
Record declared := mkDeclared {
  dc_module : Module_;
  dc_deferred : list deferred_body;
  dc_objects : gmap nat Symbol
}.

(** [new Module()]. *)
Definition Module_new : Module_ := mkModule [] [] [] [] [] [] false "" ∅.
Definition nothing_declared : declared := mkDeclared Module_new [] ∅.

(** The token stream; the heap of scopes with the number of the next scope; the
    numbers of the next node and of the next definition; the types of the
    variables; the diagnostic engine; and what has been declared. *)
Record pstate := mkParser {
  ps_stream : stream;
  ps_heap : heap;
  ps_next_scope : nat;
  ps_next_node : nat;
  ps_next_def : nat;
  ps_types : gmap nat Ty;
  ps_diag : DiagnosticEngine;
  ps_declared : declared
}.

Definition with_stream (f : stream -> stream) (s : pstate) : pstate :=
  mkParser (f (ps_stream s)) (ps_heap s) (ps_next_scope s) (ps_next_node s) (ps_next_def s) (ps_types s)
    (ps_diag s) (ps_declared s).
Definition with_heap (f : heap -> heap) (s : pstate) : pstate :=
  mkParser (ps_stream s) (f (ps_heap s)) (ps_next_scope s) (ps_next_node s) (ps_next_def s) (ps_types s)
    (ps_diag s) (ps_declared s).
Definition with_diag (f : DiagnosticEngine -> DiagnosticEngine) (s : pstate) : pstate :=
  mkParser (ps_stream s) (ps_heap s) (ps_next_scope s) (ps_next_node s) (ps_next_def s) (ps_types s)
    (f (ps_diag s)) (ps_declared s).
Definition with_declared (f : declared -> declared) (s : pstate) : pstate :=
  mkParser (ps_stream s) (ps_heap s) (ps_next_scope s) (ps_next_node s) (ps_next_def s) (ps_types s)
    (ps_diag s) (f (ps_declared s)).

(** * Runs that return or throw *)

Inductive presult (A : Type) :=
  | Returns (a : A)
  | Throws (err : CompileError).
Arguments Returns {A} a.
Arguments Throws {A} err.

(** The effects of a run that throws stay. *)
Definition parser (A : Type) : Type := run pstate (presult A).

#[export] Instance parser_ret : MRet parser := fun A a s => Done (Returns a, s).
#[export] Instance parser_bind : MBind parser := fun A B k m s =>
  match m s with
  | Done (Returns a, s') => k a s'
  | Done (Throws err, s') => Done (Throws err, s')
  | UndefinedBehaviour => UndefinedBehaviour
  | OutOfFuel => OutOfFuel
  end.

Definition throw {A} (err : CompileError) : parser A := fun s => Done (Throws err, s).
Definition parser_undefined {A} : parser A := fun _ => UndefinedBehaviour.

(** [try { m } catch ( CompileError &err ) { k }]. *)
Definition try_catch {A} (m : parser A) (k : CompileError -> parser A) : parser A := fun s =>
  match m s with
  | Done (Throws err, s') => k err s'
  | r => r
  end.

(** A loop; its body returns what to do next or throws. *)
Fixpoint parser_loop {B A} (fuel : nat) (body : B -> parser (loop_step B A)) (b : B) : parser A :=
  match fuel with
  | 0 => fun _ => OutOfFuel
  | S n => step ← body b; match step with Next b' => parser_loop n body b' | Break a => mret a end
  end.

(** [for ( auto &x : l )]. *)
Fixpoint parser_each {A} (f : A -> parser unit) (l : list A) : parser unit :=
  match l with [] => mret tt | a :: l' => f a;; parser_each f l' end.

Definition observe {A} (f : pstate -> A) : parser A := fun s => Done (Returns (f s), s).
Definition change (f : pstate -> pstate) : parser unit := fun s => Done (Returns tt, f s).

(** * The lexer *)

Definition on_stream {A} (f : stream -> A * stream) : parser A := fun s =>
  let '(a, st) := f (ps_stream s) in Done (Returns a, with_stream (fun _ => st) s).

Definition peekSymbol : parser Z := on_stream stream_peek.
Definition getSymbol : parser Z := on_stream stream_get.
Definition getSymbolText : parser string := observe (fun s => st_text (ps_stream s)).
Definition getCurrentPos : parser nat := observe (fun s => st_cursor (ps_stream s)).
Definition setCurrentPos (pos : nat) : parser unit := change (with_stream (stream_set_pos pos)).
Definition lexer_isEOF : parser bool := observe (fun s => stream_isEOF (ps_stream s)).
Definition getTokenLocation : parser SourceLocation := on_stream stream_location.
Definition splitShiftIntoCloseAngles : parser unit := change (with_stream stream_split).

(** The symbol of a token that is a single character. *)
Definition chr (c : ascii) : Z := char_to_int c.

(** [COMPILE_ERROR( l, message )] at a line of a file. *)
Definition COMPILE_ERROR {A} (file : string) (line : Z) (message : string) : parser A :=
  loc ← getTokenLocation;
  throw (mkCompileError loc message file line).

(** [if ( b ) COMPILE_ERROR( l, message );]. *)
Definition error_if (b : bool) (file : string) (line : Z) (message : string) : parser unit :=
  if b then COMPILE_ERROR file line message else mret tt.

(** [if ( l.getSymbol() != c ) COMPILE_ERROR( l, message );]. *)
Definition expect (sym : Z) (file : string) (line : Z) (message : string) : parser unit :=
  found ← getSymbol;
  error_if (bool_decide (found <> sym)) file line message.

(** A name; its text follows. *)
Definition expect_name (file : string) (line : Z) (message : string) : parser string :=
  expect (code SYMBOL) file line message;; getSymbolText.

(** A pointer that must not be null. *)
Definition or_error {A} (o : option A) (file : string) (line : Z) (message : string) : parser A :=
  match o with Some a => mret a | None => COMPILE_ERROR file line message end.

(** * Scopes *)

Definition find_symbol (scope : nat) (name : string) : parser (option Symbol) :=
  observe (fun s => findSymbol (ps_heap s) scope name).
Definition find_type (scope : nat) (name : string) : parser (option Ty) :=
  observe (fun s => findType (ps_heap s) scope name).
Definition find_namespace (scope : nat) (name : string) : parser (option nat) :=
  observe (fun s => findNamespace (ps_heap s) scope name).
Definition module_imported (scope : nat) (name : string) : parser bool :=
  observe (fun s => isModuleImported (ps_heap s) scope name).
Definition mark_module_used (scope : nat) (name : string) : parser unit :=
  change (with_heap (markModuleUsed name scope)).
Definition mark_type_used (scope : nat) (name : string) : parser unit :=
  change (with_heap (markTypeUsed name scope)).
(** A [std::set] in its order. *)
Definition sorted_strings (X : gset string) : list string := merge_sort String.le (elements X).

Definition ambiguous_modules (scope : nat) (name : string) : parser (list string) :=
  observe (fun s => sorted_strings (ambiguousImportModules (ps_heap s) scope name)).
Definition module_exporting (scope : nat) (name : string) : parser string :=
  observe (fun s => moduleExporting (ps_heap s) scope name).

(** The result of [addSymbol] is not used. *)
Definition add_symbol (scope : nat) (sym : Symbol) : parser unit :=
  change (with_heap (fun h => (addSymbol sym scope h).2)).

(** [new Scope( type ); setParent( parent )]. *)
Definition new_scope (type : ScopeType) (parent : nat) : parser nat := fun s =>
  let id := ps_next_scope s in
  Done (Returns id,
    mkParser (ps_stream s) (setParent parent id (<[id := Scope_new type]> (ps_heap s))) (S id)
      (ps_next_node s) (ps_next_def s) (ps_types s) (ps_diag s) (ps_declared s)).

(** * Nodes and definitions *)

Definition new_node (loc : SourceLocation) : parser Node := fun s =>
  Done (Returns (mkNode (ps_next_node s) loc),
    mkParser (ps_stream s) (ps_heap s) (ps_next_scope s) (S (ps_next_node s)) (ps_next_def s)
      (ps_types s) (ps_diag s) (ps_declared s)).

(** [new VariableDefinition( type, name )] with what is set on it. *)
Definition new_variable (type : Ty) (name : string) (loc : SourceLocation) (is_const : bool)
  (ownership : OwnershipQualifier) : parser VariableDefinition := fun s =>
  let v := mkVariable (ps_next_def s) name loc is_const ownership in
  Done (Returns v,
    mkParser (ps_stream s) (ps_heap s) (ps_next_scope s) (ps_next_node s) (S (ps_next_def s))
      (<[vid v := type]> (ps_types s)) (ps_diag s) (ps_declared s)).

(** [v->getVariableType()]. *)
Definition variable_type (v : VariableDefinition) : parser (option Ty) :=
  observe (fun s => ps_types s !! vid v).

(** * Definitions as shared objects

    A definition is registered in a scope while it is still being filled in, and
    others find it there; so each change is written through: to the store of
    definitions, and to every scope that holds the definition. *)

(** What a definition is numbered. *)
Definition symbol_id (s : Symbol) : nat :=
  match s with
  | SymVariable v => vid v
  | SymFunction f => fid f
  | SymStruct s => s_id s
  | SymEnum e => e_id e
  | SymProtocol p => p_id p
  end.

(** The same C++ object: of the same class, with the same number. *)
Definition same_object (a b : Symbol) : bool :=
  match a, b with
  | SymVariable _, SymVariable _ | SymFunction _, SymFunction _ | SymStruct _, SymStruct _
  | SymEnum _, SymEnum _ | SymProtocol _, SymProtocol _ => bool_decide (symbol_id a = symbol_id b)
  | _, _ => false
  end.

(** What the scopes hold of an object after it changed. *)
Definition refresh (sym : Symbol) (s : Scope) : Scope :=
  set_symbols s ((fun o => if same_object o sym then sym else o) <$> mSymbolList s).

Definition write_object (sym : Symbol) : parser unit :=
  change (with_heap (fmap (refresh sym)));;
  change (with_declared (fun d => mkDeclared (dc_module d) (dc_deferred d) (<[symbol_id sym := sym]> (dc_objects d)))).

Definition new_id : parser nat := fun s =>
  Done (Returns (ps_next_def s),
    mkParser (ps_stream s) (ps_heap s) (ps_next_scope s) (ps_next_node s) (S (ps_next_def s)) (ps_types s)
      (ps_diag s) (ps_declared s)).

(** The struct a pointer points to. *)
Definition current_struct (sd : StructDefinition) : parser StructDefinition :=
  observe (fun s => match dc_objects (ps_declared s) !! s_id sd with Some (SymStruct d) => d | _ => sd end).

Definition add_type (scope : nat) (t : Ty) : parser unit := change (with_heap (addType t scope)).

(** [addSymbol] with its result. *)
Definition try_add_symbol (scope : nat) (sym : Symbol) : parser bool := fun s =>
  let '(b, h) := addSymbol sym scope (ps_heap s) in Done (Returns b, with_heap (fun _ => h) s).

Definition change_module (f : Module_ -> Module_) : parser unit :=
  change (with_declared (fun d => mkDeclared (f (dc_module d)) (dc_deferred d) (dc_objects d))).

(** [mRequiresClauses], [mEnsuresClauses] and [mFuncBody] of a function. *)
Definition set_body (id : nat) (b : FunctionBody) : parser unit :=
  change_module (fun m => mkModule (mFunctionList m) (mStructList m) (mEnumList m) (mProtocolList m) (mImports m)
    (mTestBlocks m) (mIsExtern m) (mDefiningFile m) (<[id := b]> (mBodies m))).

Definition with_node (f : Node -> Node) (e : Expr) : Expr :=
  match e with
  | ConstInteger n a => ConstInteger (f n) a
  | ConstFloat n a => ConstFloat (f n) a
  | ConstString n a => ConstString (f n) a
  | ConstChar n a => ConstChar (f n) a
  | StringInterpolation n a => StringInterpolation (f n) a
  | VariableExpression n a => VariableExpression (f n) a
  | CallExpression n a b c => CallExpression (f n) a b c
  | IndirectCallExpression n a b => IndirectCallExpression (f n) a b
  | QueryExpression n a b => QueryExpression (f n) a b
  | UpdateExpression n a b => UpdateExpression (f n) a b
  | DeleteExpression n a b => DeleteExpression (f n) a b
  | InsertExpression n a b c => InsertExpression (f n) a b c
  | QueryFieldExpression n a => QueryFieldExpression (f n) a
  | FieldAccessExpression n a b => FieldAccessExpression (f n) a b
  | MethodCallExpression n a b c => MethodCallExpression (f n) a b c
  | IndexExpression n a b => IndexExpression (f n) a b
  | OperationsExpression n a b c => OperationsExpression (f n) a b c
  | UnaryExpression n a b => UnaryExpression (f n) a b
  | AssignmentExpression n a b c => AssignmentExpression (f n) a b c
  | FieldAssignmentExpression n a b c d => FieldAssignmentExpression (f n) a b c d
  | IndexAssignmentExpression n a b c d => IndexAssignmentExpression (f n) a b c d
  | ArrayLiteralExpression n a => ArrayLiteralExpression (f n) a
  | RangeExpression n a b => RangeExpression (f n) a b
  | StructLiteralExpression n a b c d => StructLiteralExpression (f n) a b c d
  | ConstructExpression n a b c => ConstructExpression (f n) a b c
  | EnumConstructExpression n a b c => EnumConstructExpression (f n) a b c
  | TryExpression n a => TryExpression (f n) a
  | AwaitExpression n a => AwaitExpression (f n) a
  | PipelineExpression n a b => PipelineExpression (f n) a b
  | FunctionRefExpression n a => FunctionRefExpression (f n) a
  | MatchExpression n a b c => MatchExpression (f n) a b c
  | LambdaExpression n a b c => LambdaExpression (f n) a b c
  | SpawnStatement n a => SpawnStatement (f n) a
  end.

(** The lambda [S] of [ParsePrimary] and [ParseExpr]: gives a node without a
    location this one. *)
Definition stamp (loc : SourceLocation) (e : Expr) : Expr :=
  if isSet (expr_location e) then e else with_node (fun n => mkNode (node_id n) loc) e.

(** * The recursion

    The parse functions that call each other in circles; each is defined over
    the ones of the next smaller depth.  An expression's [minPrec] and a type's
    [allow_void] come after the scope. *)
Record parsers := mkParsers {
  rec_Type : nat -> bool -> parser (option Ty);
  rec_Primary : nat -> parser (option Expr);
  rec_Expr : nat -> Z -> parser (option Expr);
  rec_Block : nat -> parser Block;
  rec_Statement : nat -> parser (option Stmt)
}.

Definition no_parsers : parsers :=
  mkParsers (fun _ _ _ => OutOfFuel) (fun _ _ => OutOfFuel) (fun _ _ _ => OutOfFuel) (fun _ _ => OutOfFuel)
    (fun _ _ => OutOfFuel).

(** [do { x; next = l.getSymbol(); if ( next == close ) break;
    if ( next != ',' ) COMPILE_ERROR( ... ) } while ( true )]: the items up to
    the closing symbol. *)
Definition items_until {A} (fuel : nat) (item : parser A) (close : Z) (file : string) (line : Z)
  (message : string) : parser (list A) :=
  parser_loop fuel (fun l =>
    a ← item;
    next ← getSymbol;
    if decide (next = close) then mret (Break (l ++ [a]))
    else error_if (bool_decide (next <> chr ",")) file line message;; mret (Next (l ++ [a]))) [].

(** The same between a closing symbol that may come first and one that must
    come last. *)
Definition items_or_none {A} (fuel : nat) (item : parser A) (close : Z) (file : string) (line : Z)
  (message : string) : parser (list A) :=
  next ← peekSymbol;
  if decide (next = close) then getSymbol;; mret []
  else items_until fuel item close file line message.
