(* ===== verification/ParseTypes.v ===== *)
(** The parser of types ([Type::Parse], [src/QType.cpp]). *)

From S2P Require Import Prelude SourceLocation Lexer Tokens Diagnostics Ast Scope ParserBase.

Section types.
Variable rec : parsers.
Variable fuel : nat.

Definition type_error {A} (line : Z) (message : string) : parser A := COMPILE_ERROR "QType.cpp" line message.

(** A nested type that must resolve. *)
Definition nested_type (scope : nat) (line : Z) (message : string) : parser Ty :=
  t ← rec_Type rec scope false;
  or_error t "QType.cpp" line message.

(** [carray<T>] and [chan<T>]: the name, and the messages' lines. *)
Definition element_type (scope : nat) (name : string) (line : Z) : parser (option Ty) :=
  next ← peekSymbol;
  error_if (bool_decide (next <> chr "<")) "QType.cpp" line
    (name +:+ " requires a type argument: " +:+ name +:+ "<T>");;
  getSymbol;;
  elem ← nested_type scope (line + 4) ("Expected type argument for " +:+ name);
  expect (chr ">") "QType.cpp" (line + 9) ("Expected '>' after " +:+ name +:+ " type argument");;
  mret (Some (Type_ name [elem])).

(** [fn( ParamTypes ) -> RetType]. *)
Definition function_type (scope : nat) : parser (option Ty) :=
  expect (chr "(") "QType.cpp" 87 "Expected '(' in function type";;
  params ← items_or_none fuel (nested_type scope 93 "Expected parameter type in function type")
    (chr ")") "QType.cpp" 98 "Expected ',' or ')' in function type";
  next ← peekSymbol;
  if decide (next = code ARROW) then
    getSymbol;;
    ret ← rec_Type rec scope false;
    mret (Some (FunctionType ret params))
  else mret (Some (FunctionType None params)).

(** [net.Socket]: a type of an imported module. *)
Definition qualified_type (scope ns : nat) (symName : string) : parser (option Ty) :=
  mark_module_used scope symName;;
  getSymbol;;
  memberName ← expect_name "QType.cpp" 124 ("Expected type name after '" +:+ symName +:+ ".'");
  t ← find_type ns memberName;
  t ← or_error t "QType.cpp" 128 ("Module '" +:+ symName +:+ "' has no type '" +:+ memberName +:+ "'");
  mret (Some t).

Definition ambiguous_message (symName : string) (mods : list string) : string :=
  "type '" +:+ symName +:+ "' is ambiguous " +:+
  String (ascii_of_N 226) (String (ascii_of_N 128) (String (ascii_of_N 148) "")) +:+
  " exported by " +:+ String.concat " and " (map (fun m => m +:+ "." +:+ symName) mods) +:+
  "; qualify the value's source or remove one import".

(** A name: a type in scope, or none. *)
Definition bare_type (scope : nat) (symName : string) : parser (option Ty) :=
  t ← find_type scope symName;
  match t with
  | Some t => mark_type_used scope symName;; mret (Some t)
  | None =>
      amb ← ambiguous_modules scope symName;
      match amb with
      | [] => mret None
      | _ => type_error 149 (ambiguous_message symName amb)
      end
  end.

Definition named_type (scope : nat) : parser (option Ty) :=
  symName ← getSymbolText;
  nsScope ← find_namespace scope symName;
  imported ← module_imported scope symName;
  match nsScope with
  | Some ns =>
      if imported : bool then
        next ← peekSymbol;
        if decide (next = chr ".") then qualified_type scope ns symName else bare_type scope symName
      else bare_type scope symName
  | None => bare_type scope symName
  end.

(** One type argument; the symbol after it may be a [">>"] to split. *)
Definition type_argument (scope : nat) : parser Ty :=
  param ← nested_type scope 170 "Expected type argument";
  next ← peekSymbol;
  (if decide (next = code SHIFT) then splitShiftIntoCloseAngles else mret tt);;
  mret param.

(** The type arguments that may follow a type. *)
Definition generic_arguments (scope : nat) (t : option Ty) : parser (option Ty) :=
  match t with
  | None => mret None
  | Some t =>
      next ← peekSymbol;
      if decide (next = chr "<") then
        getSymbol;;
        params ← items_until fuel (type_argument scope) (chr ">") "QType.cpp" 185
          "Expected ',' or '>' in type arguments";
        mret (Some (Type_ (ty_name t) params))
      else mret (Some t)
  end.

(** The first symbol that is not a type modifier. *)
Definition skip_modifiers : parser Z :=
  sym ← getSymbol;
  parser_loop fuel (fun sym =>
    if decide (sym = code TYPE_MODIFIER) then sym ← getSymbol; mret (Next sym)
    else mret (Break sym)) sym.

Definition Type_Parse (scope : nat) (allow_void : bool) : parser (option Ty) :=
  sym ← skip_modifiers;
  if bool_decide (sym = code BUILTIN_TYPE) || bool_decide (sym = code BOOL) ||
     (allow_void && bool_decide (sym = code VOID)) then
    name ← getSymbolText;
    t ← find_type scope name;
    generic_arguments scope t
  else if decide (sym = code KEYWORD_CSTRING) then generic_arguments scope (Some (Type_ "cstring" []))
  else if decide (sym = code KEYWORD_CARRAY) then element_type scope "carray" 54
  else if decide (sym = code KEYWORD_CHAN) then element_type scope "chan" 70
  else if decide (sym = code KEYWORD_FN) then function_type scope
  else if decide (sym = code SYMBOL) then
    t ← named_type scope;
    generic_arguments scope t
  else type_error 158 "Parse Error".
End types.
