(* ===== verification/ParseExpressions.v ===== *)
(** The parser of expressions ([src/QExpression.cpp]): primaries with their
    postfix operators, binary operators by precedence climbing, assignments,
    constants and string interpolation. *)

From Stdlib Require Import Floats.SpecFloat.
From S2P Require Import Prelude SourceLocation Lexer Tokens Diagnostics Ast Scope ParserBase ParseTypes.

Definition expr_error {A} (line : Z) (message : string) : parser A := COMPILE_ERROR "QExpression.cpp" line message.

(** * Operators *)

Definition comparison_text (symText : string) : bool :=
  bool_decide (symText = "<=") || bool_decide (symText = ">=").

Definition getOperatorPrec (sym : Z) (symText : string) : Z :=
  if decide (sym = code RANGE) then 0
  else if decide (sym = code LOR) then 1
  else if decide (sym = code LAND) then 2
  else if decide (sym = chr "|") then 3
  else if decide (sym = chr "^") then 4
  else if decide (sym = chr "&") then 5
  else if decide (sym = code EQ) then 6
  else if bool_decide (sym = chr "<") || bool_decide (sym = chr ">") then 7
  else if bool_decide (sym = code ASSIGN) && comparison_text symText then 7
  else if decide (sym = code SHIFT) then 8
  else if bool_decide (sym = chr "+") || bool_decide (sym = chr "-") then 9
  else if bool_decide (sym = chr "*") || bool_decide (sym = chr "/") || bool_decide (sym = chr "%") then 10
  else -1.

Definition getOperatorString (sym : Z) (symText : string) : string :=
  if decide (sym = chr "+") then "+"
  else if decide (sym = chr "-") then "-"
  else if decide (sym = chr "*") then "*"
  else if decide (sym = chr "/") then "/"
  else if decide (sym = chr "%") then "%"
  else if decide (sym = chr "^") then "^"
  else if decide (sym = chr "|") then "|"
  else if decide (sym = chr "&") then "&"
  else if decide (sym = chr "<") then "<"
  else if decide (sym = chr ">") then ">"
  else if decide (sym = code LOR) then "||"
  else if decide (sym = code LAND) then "&&"
  else if decide (sym = code EQ) then symText
  else if decide (sym = code SHIFT) then symText
  else if decide (sym = code ASSIGN) then symText
  else if decide (sym = code RANGE) then ".."
  else "".

(** * Constants *)

(** The digits [atoi] reads, as a number. *)
Fixpoint leading_number (l : list ascii) (acc : Z) : Z :=
  match l with
  | c :: l' => if isDigit c then leading_number l' (acc * 10 + (char_to_int c - char_to_int "0")) else acc
  | [] => acc
  end.

(** [atoi] of a constant's text, which has no sign; a number that does not fit
    an [int] is undefined. *)
Definition atoi (text : string) : parser Z :=
  let n := leading_number (chars text) 0 in
  if decide (n < 2 ^ 31)%Z then mret n else parser_undefined.

Fixpoint leading_digits (l : list ascii) : list ascii :=
  match l with c :: l' => if isDigit c then c :: leading_digits l' else [] | [] => [] end.

(** The [double] nearest to [m / 10 ^ k]. *)
Definition nearest_double (m : Z) (k : nat) : spec_float :=
  if decide (m = 0%Z) then S754_zero false
  else
    let '(q, e, l) := SFdiv_core_binary 53 1024 m 0 (10 ^ Z.of_nat k) 0 in
    binary_round_aux 53 1024 false q e l.

(** [atof] of digits, a point and digits. *)
Definition atof (text : string) : spec_float :=
  let whole := leading_digits (chars text) in
  let fraction :=
    match drop (length whole) (chars text) with
    | c :: l => if decide (c = "."%char) then leading_digits l else []
    | [] => []
    end in
  nearest_double (leading_number (whole ++ fraction) 0) (length fraction).

Definition ConstExpression_Parse : parser (option Expr) :=
  loc ← getTokenLocation;
  sym ← getSymbol;
  text ← getSymbolText;
  if decide (sym = code CONSTANT_STRING) then n ← new_node loc; mret (Some (ConstString n text))
  else if decide (sym = code CONSTANT_CHAR) then n ← new_node loc; mret (Some (ConstChar n text))
  else if decide (sym = code CONSTANT_NUMBER) then
    v ← atoi text; n ← new_node loc; mret (Some (ConstInteger n v))
  else if decide (sym = code CONSTANT_FLOAT) then n ← new_node loc; mret (Some (ConstFloat n (atof text)))
  else if decide (sym = code CONSTANT_BOOL) then
    n ← new_node loc; mret (Some (ConstInteger n (if decide (text = "true") then 1 else 0)))
  else mret None.

(** * String interpolation *)

Fixpoint before_char (c : ascii) (l : list ascii) : option (list ascii * list ascii) :=
  match l with
  | [] => None
  | d :: l' =>
      if decide (d = c) then Some ([], l')
      else '(a, b) ← before_char c l'; Some (d :: a, b)
  end.

(** The segments of a placeholder between its points. *)
Fixpoint segments (l : list ascii) : list (list ascii) :=
  match l with
  | [] => [[]]
  | c :: l' =>
      match segments l' with
      | [] => [[c]]
      | seg :: segs => if decide (c = "."%char) then [] :: seg :: segs else (c :: seg) :: segs
      end
  end.

(** [isalpha( c ) || c == '_'], and the same with [isalnum]: in the C locale
    the lexer's classes. *)
Definition is_identifier (seg : list ascii) : bool :=
  match seg with [] => false | c :: _ => isAlpha c && forallb isAlphaNum seg end.

Definition looksLikePath (varName : list ascii) : bool :=
  negb (bool_decide (varName = [])) && forallb is_identifier (segments varName).

(** A variable with the fields of a path. *)
Fixpoint field_path (loc : SourceLocation) (base : Expr) (segs : list (list ascii)) : parser Expr :=
  match segs with
  | [] => mret base
  | seg :: segs' =>
      n ← new_node loc;
      field_path loc (FieldAccessExpression n base (str seg)) segs'
  end.

Definition literal_part (loc : SourceLocation) (text : list ascii) : parser Expr :=
  n ← new_node loc; mret (ConstString n (str text)).

Definition interpolated_part (scope : nat) (loc : SourceLocation) (varName : list ascii) : parser Expr :=
  if looksLikePath varName then
    let seg0 := default [] (head (segments varName)) in
    sym ← find_symbol scope (str seg0);
    match as_variable sym with
    | Some v =>
        n ← new_node loc;
        field_path loc (VariableExpression n (Some v)) (tail (segments varName))
    | None =>
        expr_error 1289 ("cannot interpolate '{" +:+ str varName +:+ "}': '" +:+ str seg0 +:+
          "' is not a variable in scope")
    end
  else literal_part loc ("{"%char :: varName ++ ["}"%char]).

Definition interpolation_pass (scope : nat) (loc : SourceLocation) (b : list ascii * list Expr) :
  parser (loop_step (list ascii * list Expr) (list Expr)) :=
  let '(rest, parts) := b in
  match rest with
  | [] => mret (Break parts)
  | _ =>
      match before_char "{" rest with
      | None => p ← literal_part loc rest; mret (Break (parts ++ [p]))
      | Some (before, after) =>
          parts ← (match before with
                   | [] => mret parts
                   | _ => p ← literal_part loc before; mret (parts ++ [p])
                   end);
          match before_char "}" after with
          | None => p ← literal_part loc ("{"%char :: after); mret (Break (parts ++ [p]))
          | Some (varName, rest') =>
              p ← interpolated_part scope loc varName;
              mret (Next (rest', parts ++ [p]))
          end
      end
  end.

(** Every pass reads a character of the text. *)
Definition StringInterpolation_Parse (scope : nat) (rawString : string) : parser Expr :=
  loc ← getTokenLocation;
  n ← new_node loc;
  parts ← parser_loop (S (String.length rawString)) (interpolation_pass scope loc) (chars rawString, []);
  mret (StringInterpolation n parts).

(** * Names *)

Definition VariableExpression_Parse (scope : nat) : parser (option Expr) :=
  loc ← getTokenLocation;
  sym ← getSymbol;
  if decide (sym = code SYMBOL) then
    name ← getSymbolText;
    s ← find_symbol scope name;
    match s with
    | None =>
        owner ← module_exporting scope name;
        error_if (bool_decide (owner <> "")) "QExpression.cpp" 1046
          ("undefined symbol '" +:+ name +:+ "' " +:+
           String (ascii_of_N 226) (String (ascii_of_N 128) (String (ascii_of_N 148) "")) +:+
           " did you mean '" +:+ owner +:+ "." +:+ name +:+
           "'? (a dependency's names are reached qualified after `import " +:+ owner +:+ ";`)");;
        expr_error 1050 ("undefined symbol '" +:+ name +:+ "'")
    | Some (SymVariable v) => n ← new_node loc; mret (Some (VariableExpression n (Some v)))
    | Some _ => mret None
    end
  else mret None.

(** [dynamic_cast<FunctionDefinition *>]. *)
Definition as_function (s : option Symbol) : option FunctionDefinition :=
  match s with Some (SymFunction f) => Some f | _ => None end.

Definition is_function (s : option Symbol) : bool :=
  match s with Some s => bool_decide (getSymbolType s = TypeFunction) | None => false end.

Definition isFunctionType (t : Ty) : bool := match t with FunctionType _ _ => true | Type_ _ _ => false end.
Definition hasInit (sd : StructDefinition) : bool := bool_decide (is_Some (s_init sd)).

Section expressions.
Variable rec : parsers.
Variable fuel : nat.

(** An expression that must be there. *)
Definition operand (scope : nat) (minPrec : Z) (file : string) (line : Z) (message : string) : parser Expr :=
  e ← rec_Expr rec scope minPrec;
  or_error e file line message.

(** The arguments of a call, after its opening parenthesis. *)
Definition arguments (scope : nat) (item_line : Z) (item_message : string) (line : Z) (message : string) :
  parser (list Expr) :=
  items_or_none fuel (operand scope 0 "QExpression.cpp" item_line item_message) (chr ")")
    "QExpression.cpp" line message.

(** [name: value, ...] up to a closing brace, which is peeked at. *)
Definition field_values (scope : nat) (file : string) (name_line colon_line value_line : Z)
  (name_message colon_message value_message : string) : parser (list (string * Expr)) :=
  next ← peekSymbol;
  if decide (next = chr "}") then mret []
  else
    parser_loop fuel (fun l =>
      fieldName ← expect_name file name_line name_message;
      expect (chr ":") file colon_line colon_message;;
      value ← operand scope 0 file value_line value_message;
      next ← peekSymbol;
      (if decide (next = chr ",") then getSymbol;; mret tt else mret tt);;
      next ← peekSymbol;
      mret (if decide (next = chr "}") then Break (l ++ [(fieldName, value)])
            else Next (l ++ [(fieldName, value)]))) [].

(** Type arguments after ['<'] that must resolve. *)
Definition type_arguments (scope : nat) (item_line : Z) (item_message : string) (line : Z) : parser (list Ty) :=
  items_until fuel (t ← rec_Type rec scope false; or_error t "QExpression.cpp" item_line item_message)
    (chr ">") "QExpression.cpp" line "Expected ',' or '>' in generic type arguments".

(** ** Calls *)

Definition CallExpression_Parse (scope : nat) : parser (option Expr) :=
  loc ← getTokenLocation;
  sym ← getSymbol;
  if decide (sym = code SYMBOL) then
    name ← getSymbolText;
    s ← find_symbol scope name;
    s ← or_error s "QExpression.cpp" 1079 "Failed to find Symbol";
    if decide (getSymbolType s = TypeFunction) then
      n ← new_node loc;
      next ← peekSymbol;
      targs ← (if decide (next = chr "<") then
                 getSymbol;;
                 type_arguments scope 1095 "Expected type argument in generic function call" 1101
               else mret []);
      sym ← getSymbol;
      if decide (sym <> chr "(") then mret None
      else
        next ← peekSymbol;
        if decide (next = chr ")") then
          getSymbol;; mret (Some (CallExpression n (as_function (Some s)) targs []))
        else
          args ← parser_loop fuel (fun l =>
            param ← rec_Expr rec scope 0;
            match param with
            | None => mret (Break None)
            | Some param =>
                sym ← getSymbol;
                if decide (sym = chr ",") then mret (Next (l ++ [param]))
                else
                  error_if (bool_decide (sym <> chr ")")) "QExpression.cpp" 1128 "Expected ',' or ')' in function call";;
                  mret (Break (Some (l ++ [param])))
            end) [];
          mret (CallExpression n (as_function (Some s)) targs <$> args)
    else mret None
  else mret None.

Definition StructLiteralExpression_Parse (scope : nat) (typeName : string) : parser Expr :=
  loc ← getTokenLocation;
  expect (code SYMBOL) "QExpression.cpp" 1315 "Expected struct type name";;
  next ← peekSymbol;
  typeArgs ← (if decide (next = chr "<") then
                getSymbol;;
                type_arguments scope 1325 "Expected type argument in generic struct literal" 1331
              else mret []);
  expect (chr "{") "QExpression.cpp" 1338 "Expected '{' in struct literal";;
  n ← new_node loc;
  fields ← field_values scope "QExpression.cpp" 1354 1360 1365 "Expected field name in struct literal"
    "Expected ':' after field name in struct literal" "Expected expression for field value in struct literal";
  expect (chr "}") "QExpression.cpp" 1379 "Expected '}' in struct literal";;
  mret (StructLiteralExpression n typeName typeArgs fields.*1 fields.*2).

(** ** Names of imported modules: [sys.args], [sys.exit( 1 )], [net.Socket { }] *)

(** A call, or the property-style call without arguments. *)
Definition qualified_call (scope : nat) (funcDef : FunctionDefinition) : parser Expr :=
  next ← peekSymbol;
  n ← new_node no_location;
  if decide (next = chr "(") then
    getSymbol;;
    args ← arguments scope 305 "Expected expression in function call" 310 "Expected ',' or ')' in function call";
    mret (CallExpression n (Some funcDef) [] args)
  else mret (CallExpression n (Some funcDef) [] []).

Definition qualified_literal (scope : nat) (memberName : string) : parser Expr :=
  getSymbol;;
  n ← new_node no_location;
  fields ← field_values scope "QExpression.cpp" 348 352 355 "Expected field name in struct literal"
    "Expected ':' after field name in struct literal" "Expected expression for field value";
  expect (chr "}") "QExpression.cpp" 363 "Expected '}' in struct literal";;
  mret (StructLiteralExpression n memberName [] fields.*1 fields.*2).

Definition qualified_member (scope ns : nat) (identName : string) : parser Expr :=
  memberName ← expect_name "QExpression.cpp" 262 ("Expected member name after '" +:+ identName +:+ ".'");
  resolved ← find_symbol ns memberName;
  resolved ← or_error resolved "QExpression.cpp" 267
    ("Module '" +:+ identName +:+ "' has no member '" +:+ memberName +:+ "'");
  match resolved with
  | SymFunction f => qualified_call scope f
  | SymStruct sd =>
      next ← peekSymbol;
      if decide (next = chr "{") then qualified_literal scope memberName
      else expr_error 369 ("'" +:+ identName +:+ "." +:+ memberName +:+ "' is a type, not an expression")
  | _ =>
      expr_error 373 ("Module '" +:+ identName +:+ "' member '" +:+ memberName +:+
        "' is not a function or struct")
  end.

(** The cursor stands at the name, at [pos], and stays there unless the name is
    a module's and a member follows. *)
Definition qualified_access (scope pos : nat) (identName : string) : parser (option Expr) :=
  nsScope ← find_namespace scope identName;
  imported ← module_imported scope identName;
  match nsScope with
  | Some ns =>
      if imported : bool then
        mark_module_used scope identName;;
        getSymbol;;
        next ← peekSymbol;
        if decide (next = chr ".") then
          getSymbol;;
          e ← qualified_member scope ns identName;
          mret (Some e)
        else setCurrentPos pos;; mret None
      else mret None
  | None => mret None
  end.

(** ** Names of structs and enums *)

(** The type arguments of a struct literal or construction; without any the
    cursor is back at [pos]. *)
Definition struct_type_arguments (scope pos : nat) : parser (list Ty) :=
  parser_loop fuel (fun l =>
    param ← rec_Type rec scope false;
    match param with
    | None => setCurrentPos pos;; mret (Break [])
    | Some param =>
        next ← getSymbol;
        if decide (next = chr ">") then mret (Break (l ++ [param]))
        else if decide (next <> chr ",") then setCurrentPos pos;; mret (Break [])
        else mret (Next (l ++ [param]))
    end) [].

(** [Box<int> { ... }], [Map<string, int>( args )]. *)
Definition generic_struct (scope pos : nat) (identName : string) (sd : StructDefinition) : parser (option Expr) :=
  getSymbol;;
  typeArgs ← struct_type_arguments scope pos;
  match typeArgs with
  | [] => mret None
  | _ =>
      next ← peekSymbol;
      if decide (next = chr "{") then
        setCurrentPos pos;;
        e ← StructLiteralExpression_Parse scope identName;
        mret (Some e)
      else if decide (next = chr "(") then
        if hasInit sd then
          getSymbol;;
          n ← new_node no_location;
          args ← arguments scope 451 "Expected expression in constructor call" 457
            "Expected ')' in constructor call";
          mret (Some (ConstructExpression n (Some sd) typeArgs args))
        else setCurrentPos pos;; mret None
      else setCurrentPos pos;; mret None
  end.

(** A struct literal at the name of a struct; otherwise the cursor is back. *)
Definition struct_literal (scope pos : nat) (identName : string) (sd : StructDefinition) : parser (option Expr) :=
  getSymbol;;
  next ← peekSymbol;
  if decide (next = chr "{") then
    setCurrentPos pos;;
    e ← StructLiteralExpression_Parse scope identName;
    mret (Some e)
  else if decide (next = chr "<") then generic_struct scope pos identName sd
  else setCurrentPos pos;; mret None.

(** [StructName( args )]. *)
Definition constructor_call (scope pos : nat) (sd : StructDefinition) : parser (option Expr) :=
  if hasInit sd then
    getSymbol;;
    next ← peekSymbol;
    if decide (next = chr "(") then
      getSymbol;;
      n ← new_node no_location;
      args ← arguments scope 502 "Expected expression in constructor call" 507
        "Expected ')' in constructor call";
      mret (Some (ConstructExpression n (Some sd) [] args))
    else setCurrentPos pos;; mret None
  else mret None.

(** The static method of a name, or the deserializer of a [@json] struct. *)
Definition static_method (scope : nat) (sd : StructDefinition) (methodName : string) :
  parser (option FunctionDefinition) :=
  match List.find (fun m => bool_decide (f_name m = methodName) && f_static m) (s_methods sd) with
  | Some m => mret (Some m)
  | None =>
      if decide (methodName = "from_json") then
        fjSym ← find_symbol scope (s_name sd +:+ "_from_json");
        mret (as_function fjSym)
      else mret None
  end.

(** What follows a name and a point: [f] on the member's name, or back. *)
Definition after_dot {A} (pos : nat) (f : string -> parser (option A)) : parser (option A) :=
  getSymbol;;
  next ← peekSymbol;
  if decide (next = chr ".") then
    getSymbol;;
    fieldSym ← getSymbol;
    if decide (fieldSym = code SYMBOL) then
      name ← getSymbolText;
      f name
    else setCurrentPos pos;; mret None
  else setCurrentPos pos;; mret None.

(** [StructName.staticMethod( args )]. *)
Definition static_call (scope pos : nat) (sd : StructDefinition) : parser (option Expr) :=
  after_dot pos (fun methodName =>
    m ← static_method scope sd methodName;
    match m with
    | Some m =>
        next ← peekSymbol;
        if decide (next = chr "(") then
          getSymbol;;
          n ← new_node no_location;
          args ← arguments scope 574 "Expected expression in static method call" 579
            "Expected ')' in static method call";
          mret (Some (CallExpression n (Some m) [] args))
        else setCurrentPos pos;; mret None
    | None => setCurrentPos pos;; mret None
    end).

(** [EnumName.variant], [EnumName.variant( args )]. *)
Definition enum_variant (scope pos : nat) (ed : EnumDefinition) : parser (option Expr) :=
  after_dot pos (fun variantName =>
    match list_find (fun v => variant_name v = variantName) (e_variants ed) with
    | Some (idx, _) =>
        n ← new_node no_location;
        next ← peekSymbol;
        if decide (next = chr "(") then
          getSymbol;;
          args ← arguments scope 642 "Expected expression in enum variant argument" 647
            "Expected ',' or ')' in enum variant arguments";
          mret (Some (EnumConstructExpression n (Some ed) (Z.of_nat idx) args))
        else mret (Some (EnumConstructExpression n (Some ed) (Z.of_nat idx) []))
    | None => setCurrentPos pos;; mret None
    end).

(** ** Functions and variables *)

(** A bare function name; otherwise the cursor is back at the name, or past it
    for a name without a definition. *)
Definition function_reference (scope pos : nat) : parser (option Expr) :=
  setCurrentPos pos;;
  getSymbol;;
  symName ← getSymbolText;
  symLookup ← find_symbol scope symName;
  if is_function symLookup then
    next ← peekSymbol;
    if decide (next <> chr "(") then
      match as_function symLookup with
      | Some f => n ← new_node no_location; mret (Some (FunctionRefExpression n (Some f)))
      | None => mret None
      end
    else setCurrentPos pos;; mret None
  else setCurrentPos pos;; mret None.

(** A variable, or the call of a variable that holds a function. *)
Definition variable_or_indirect_call (scope pos : nat) : parser (option Expr) :=
  setCurrentPos pos;;
  result ← VariableExpression_Parse scope;
  match result with
  | Some (VariableExpression n (Some v)) =>
      t ← variable_type v;
      match t with
      | None => parser_undefined
      | Some t =>
          if isFunctionType t then
            next ← peekSymbol;
            if decide (next = chr "(") then
              getSymbol;;
              n' ← new_node no_location;
              args ← arguments scope 725 "Expected expression in indirect call" 730
                "Expected ',' or ')' in indirect call";
              mret (Some (IndirectCallExpression n' (Some v) args))
            else mret result
          else mret result
      end
  | _ => mret result
  end.

(** [if ( result == nullptr ) result = m]. *)
Definition or_else (result : option Expr) (m : parser (option Expr)) : parser (option Expr) :=
  match result with Some e => mret (Some e) | None => m end.

(** A primary that starts with a name. *)
Definition name_primary (scope : nat) : parser (option Expr) :=
  pos ← getCurrentPos;
  getSymbol;;
  identName ← getSymbolText;
  setCurrentPos pos;;
  result ← qualified_access scope pos identName;
  structSym ← find_symbol scope identName;
  result ← (match as_struct structSym with
            | Some sd => e ← struct_literal scope pos identName sd; mret (match e with Some e => Some e | None => result end)
            | None => mret result
            end);
  result ← or_else result (match as_struct structSym with
                           | Some sd => constructor_call scope pos sd
                           | None => mret None
                           end);
  result ← or_else result (match as_struct structSym with
                           | Some sd => static_call scope pos sd
                           | None => mret None
                           end);
  result ← or_else result (match as_enum structSym with
                           | Some ed => enum_variant scope pos ed
                           | None => mret None
                           end);
  result ← or_else result (try_catch (CallExpression_Parse scope) (fun _ => mret None));
  result ← or_else result (function_reference scope pos);
  or_else result (variable_or_indirect_call scope pos).

(** ** Primaries *)

(** [ParsePrimary( l, scope )] after a prefix. *)
Definition primary_operand (scope : nat) (line : Z) (message : string) : parser Expr :=
  e ← rec_Primary rec scope;
  or_error e "QExpression.cpp" line message.

Definition array_literal (scope : nat) : parser (option Expr) :=
  getSymbol;;
  n ← new_node no_location;
  elements ← items_or_none fuel (operand scope 0 "QExpression.cpp" 191 "Expected expression in array literal")
    (chr "]") "QExpression.cpp" 197 "Expected ',' or ']' in array literal";
  mret (Some (ArrayLiteralExpression n elements)).

Definition contains (c : ascii) (s : string) : bool := existsb (fun d => bool_decide (d = c)) (chars s).

Definition string_primary (scope : nat) : parser (option Expr) :=
  pos ← getCurrentPos;
  getSymbol;;
  text ← getSymbolText;
  setCurrentPos pos;;
  if contains "{" text then
    getSymbol;;
    e ← StringInterpolation_Parse scope text;
    mret (Some e)
  else ConstExpression_Parse.

Definition self_primary (scope : nat) : parser (option Expr) :=
  getSymbol;;
  selfSym ← find_symbol scope "self";
  selfSym ← or_error selfSym "QExpression.cpp" 233 "'self' can only be used inside methods";
  match selfSym with
  | SymVariable v => n ← new_node no_location; mret (Some (VariableExpression n (Some v)))
  | _ => mret None
  end.

Definition parenthesized (scope : nat) : parser (option Expr) :=
  getSymbol;;
  e ← operand scope 0 "QExpression.cpp" 168 "Expected expression after '('";
  expect (chr ")") "QExpression.cpp" 171 "Expected ')'";;
  mret (Some e).

Definition query_field : parser (option Expr) :=
  getSymbol;;
  name ← expect_name "QExpression.cpp" 147 "Expected field name after '.'";
  n ← new_node no_location;
  mret (Some (QueryFieldExpression n name)).

(** The primary before its postfix operators. *)
Definition base_primary (scope : nat) (sym : Z) : parser (option Expr) :=
  if decide (sym = chr ".") then query_field
  else if decide (sym = chr "(") then parenthesized scope
  else if decide (sym = chr "[") then array_literal scope
  else if decide (sym = code CONSTANT_STRING) then string_primary scope
  else if bool_decide (sym = code CONSTANT_NUMBER) || bool_decide (sym = code CONSTANT_FLOAT) ||
          bool_decide (sym = code CONSTANT_CHAR) || bool_decide (sym = code CONSTANT_BOOL)
  then ConstExpression_Parse
  else if decide (sym = code KEYWORD_SELF) then self_primary scope
  else if decide (sym = code SYMBOL) then name_primary scope
  else mret None.

(** [.field], [.method( args )]. *)
Definition member_access (scope : nat) (object : Expr) : parser Expr :=
  getSymbol;;
  memberLoc ← getTokenLocation;
  fieldName ← expect_name "QExpression.cpp" 762 "Expected field name after '.'";
  next ← peekSymbol;
  n ← new_node memberLoc;
  if decide (next = chr "(") then
    getSymbol;;
    args ← arguments scope 784 "Expected expression in method call" 790 "Expected ',' or ')' in method call";
    mret (MethodCallExpression n object fieldName args)
  else mret (FieldAccessExpression n object fieldName).

Definition index_access (scope : nat) (ploc : SourceLocation) (object : Expr) : parser Expr :=
  getSymbol;;
  index ← operand scope 0 "QExpression.cpp" 806 "Expected expression in index";
  expect (chr "]") "QExpression.cpp" 809 "Expected ']'";;
  n ← new_node ploc;
  mret (IndexExpression n object index).

(** One pass of the loop over the postfix operators. *)
Definition postfix_pass (scope : nat) (ploc : SourceLocation) (e : Expr) : parser (loop_step Expr Expr) :=
  next ← peekSymbol;
  if decide (next = chr ".") then e ← member_access scope e; mret (Next e)
  else if decide (next = chr "[") then e ← index_access scope ploc e; mret (Next e)
  else if decide (next = code QUESTION_MARK) then
    getSymbol;;
    n ← new_node ploc;
    mret (Next (TryExpression n e))
  else mret (Break e).

(** The prefix operators [- ! ~]. *)
Definition is_prefix (sym : Z) : bool :=
  bool_decide (sym = chr "-") || bool_decide (sym = chr "!") || bool_decide (sym = chr "~").

Definition prefix_text (sym : Z) : string := String (ascii_of_N (Z.to_N sym)) "".

(** The parse functions of other files that a primary may start with. *)
Variable MatchExpression_Parse : nat -> bool -> parser Expr.
Variable LambdaExpression_Parse : nat -> parser Expr.
Variable SpawnStatement_Parse : nat -> parser Expr.
Variable QueryExpression_Parse InsertExpression_Parse UpdateExpression_Parse DeleteExpression_Parse :
  nat -> parser Expr.

Definition ParsePrimary (scope : nat) : parser (option Expr) :=
  ploc ← getTokenLocation;
  sym ← peekSymbol;
  if decide (sym = code KEYWORD_AWAIT) then
    getSymbol;;
    e ← primary_operand scope 98 "Expected expression after 'await'";
    n ← new_node ploc;
    mret (Some (AwaitExpression n e))
  else if decide (sym = code KEYWORD_MATCH) then
    e ← MatchExpression_Parse scope true; mret (Some (stamp ploc e))
  else if decide (sym = code KEYWORD_FN) then
    getSymbol;; e ← LambdaExpression_Parse scope; mret (Some e)
  else if decide (sym = code KEYWORD_SPAWN) then e ← SpawnStatement_Parse scope; mret (Some e)
  else if decide (sym = code KEYWORD_QUERY) then e ← QueryExpression_Parse scope; mret (Some e)
  else if decide (sym = code KEYWORD_INSERT) then e ← InsertExpression_Parse scope; mret (Some e)
  else if decide (sym = code KEYWORD_UPDATE) then e ← UpdateExpression_Parse scope; mret (Some e)
  else if decide (sym = code KEYWORD_DELETE) then e ← DeleteExpression_Parse scope; mret (Some e)
  else if is_prefix sym then
    getSymbol;;
    e ← primary_operand scope 158 "Expected expression after unary operator";
    n ← new_node ploc;
    mret (Some (UnaryExpression n (prefix_text sym) e))
  else
    base ← base_primary scope sym;
    match base with
    | None => mret None
    | Some e => e ← parser_loop fuel (postfix_pass scope ploc) (stamp ploc e); mret (Some e)
    end.

(** ** Binary operators *)

(** [expr |> fn], [expr |> fn( args )] and [expr |> primary]; [startLoc] is the
    location of the leftmost operand. *)
Definition pipeline (scope : nat) (startLoc : SourceLocation) (left_ : Expr) : parser Expr :=
  getSymbol;;
  rhsSym ← peekSymbol;
  if decide (rhsSym = code SYMBOL) then
    pos ← getCurrentPos;
    getSymbol;;
    name ← getSymbolText;
    funcSym ← find_symbol scope name;
    if is_function funcSym then
      n ← new_node startLoc;
      next ← peekSymbol;
      if decide (next = chr "(") then
        getSymbol;;
        args ← arguments scope 884 "Expected expression in pipeline call arguments" 889
          "Expected ',' or ')' in pipeline call";
        mret (CallExpression n (as_function funcSym) [] (left_ :: args))
      else mret (CallExpression n (as_function funcSym) [] [left_])
    else
      setCurrentPos pos;;
      e ← primary_operand scope 906 "Expected expression after '|>'";
      n ← new_node startLoc;
      mret (PipelineExpression n left_ e)
  else
    e ← primary_operand scope 915 "Expected expression after '|>'";
    n ← new_node no_location;
    mret (PipelineExpression n left_ e).

(** One pass of the loop of [ParseExpr]. *)
Definition binary_pass (scope : nat) (minPrec : Z) (startLoc : SourceLocation) (left_ : Expr) :
  parser (loop_step Expr Expr) :=
  nextSym ← peekSymbol;
  nextText ← getSymbolText;
  if decide (nextSym = code PIPE_ARROW) then
    if decide (0 < minPrec)%Z then mret (Break left_)
    else e ← pipeline scope startLoc left_; mret (Next e)
  else
    let prec := getOperatorPrec nextSym nextText in
    if decide (prec < 0 \/ prec < minPrec)%Z then mret (Break left_)
    else
      getSymbol;;
      let opStr := getOperatorString nextSym nextText in
      if decide (nextSym = code RANGE) then
        right_ ← operand scope (prec + 1) "QExpression.cpp" 935 "Expected expression after '..'";
        n ← new_node startLoc;
        mret (Next (RangeExpression n left_ right_))
      else
        right_ ← operand scope (prec + 1) "QExpression.cpp" 943 "Expected expression after operator";
        n ← new_node startLoc;
        mret (Next (OperationsExpression n opStr left_ right_)).

Definition ParseExpr (scope : nat) (minPrec : Z) : parser (option Expr) :=
  left_ ← rec_Primary rec scope;
  match left_ with
  | None => mret None
  | Some e =>
      e ← parser_loop fuel (binary_pass scope minPrec (expr_location e)) e;
      mret (Some e)
  end.

(** ** Assignments *)

Definition assigned_value (scope : nat) (line : Z) : parser Expr :=
  getSymbol;;
  operand scope 0 "QExpression.cpp" line "Expected expression after assignment operator".

(** The assignment an expression is the target of. *)
Definition assignment (scope : nat) (assignOp : string) (target : Expr) : parser Expr :=
  match target with
  | VariableExpression n v =>
      value ← assigned_value scope 992;
      n' ← new_node (getLocation n);
      mret (AssignmentExpression n' assignOp v value)
  | FieldAccessExpression n object fieldName =>
      value ← assigned_value scope 1001;
      n' ← new_node (getLocation n);
      mret (FieldAssignmentExpression n' assignOp object fieldName value)
  | IndexExpression n object index =>
      value ← assigned_value scope 1010;
      n' ← new_node (getLocation n);
      mret (IndexAssignmentExpression n' assignOp object index value)
  | _ => expr_error 1016 "Left side of assignment must be a variable, field, or index expression"
  end.

(** [Expression::Parse] with its terminal, which is [';'] at every call. *)
Definition Expression_Parse (scope : nat) : parser (option Expr) :=
  exp ← rec_Expr rec scope 0;
  match exp with
  | None => mret None
  | Some e =>
      nextSym ← peekSymbol;
      nextText ← getSymbolText;
      e ← (if decide (nextSym = chr "=") then assignment scope "=" e
           else if bool_decide (nextSym = code ASSIGN) && negb (comparison_text nextText)
           then assignment scope nextText e
           else mret e);
      next ← peekSymbol;
      (if decide (next = chr ";") then getSymbol;; mret tt else mret tt);;
      mret (Some e)
  end.
End expressions.
