(* ===== verification/ParseStatements.v ===== *)
(** The parsers of statements, blocks and of the expressions that hold blocks
    ([src/QStatement.cpp], [src/QBlock.cpp], [src/QVariableDefinition.cpp],
    [src/QMatchExpression.cpp], [src/QLambdaExpression.cpp],
    [src/QSpawnStatement.cpp], [src/QQueryExpression.cpp],
    [src/QForInStatement.cpp], [src/QReturnStatement.cpp],
    [src/QAssertStatement.cpp], [src/QBreakContinue.cpp],
    [src/QEventHandler.cpp], and the loops and conditionals of
    [src/QModule.cpp]). *)

From stdpp Require Import pretty.
From S2P Require Import Prelude SourceLocation Lexer Diagnostics Ast Scope Tokens ParserBase ParseTypes ParseExpressions.

Section statements.
Variable rec : parsers.
Variable fuel : nat.

(** * Variables *)

(** An ownership qualifier, if one stands there. *)
Definition ownership_qualifier : parser OwnershipQualifier :=
  next ← peekSymbol;
  if decide (next = code KEYWORD_OWN) then getSymbol;; mret kOwnership_Own
  else
    next ← peekSymbol;
    if decide (next = code KEYWORD_SHARED) then getSymbol;; mret kOwnership_Shared
    else
      next ← peekSymbol;
      if decide (next = code KEYWORD_SYNC) then getSymbol;; mret kOwnership_Sync
      else mret kOwnership_Value.

(** [cstring] and [carray] are for extern declarations. *)
Definition c_only (t : Ty) : bool :=
  bool_decide (ty_name t = "cstring") || bool_decide (ty_name t = "carray").

Definition c_only_message (t : Ty) : string :=
  "'" +:+ ty_name t +:+ "' type can only be used in extern fn declarations".

Definition ParseFuncParam (scope : nat) (isExtern : bool) (paramIndex : Z) : parser (option VariableDefinition) :=
  loc ← getTokenLocation;
  next ← peekSymbol;
  if decide (next = code KEYWORD_SELF) then
    getSymbol;;
    def ← new_variable (Type_ "self" []) "self" loc false kOwnership_Value;
    add_symbol scope (SymVariable def);;
    mret (Some def)
  else
    ownership ← ownership_qualifier;
    t ← rec_Type rec scope false;
    match t with
    | None => mret None
    | Some t =>
        error_if (negb isExtern && c_only t) "QVariableDefinition.cpp" 62 (c_only_message t);;
        sym ← peekSymbol;
        if decide (sym = code SYMBOL) then
          getSymbol;;
          name ← getSymbolText;
          def ← new_variable t name loc false ownership;
          add_symbol scope (SymVariable def);;
          mret (Some def)
        else if isExtern && (bool_decide (sym = chr ",") || bool_decide (sym = chr ")")) then
          def ← new_variable t ("_arg" +:+ pretty paramIndex) loc false ownership;
          add_symbol scope (SymVariable def);;
          mret (Some def)
        else COMPILE_ERROR "QVariableDefinition.cpp" 83 "Expected parameter name"
    end.

Definition decl_error {A} (line : Z) (message : string) : parser A := COMPILE_ERROR "QVariableDefinition.cpp" line message.

(** [const] and [var] in front of a declaration. *)
Definition declaration_modifier : parser (bool * bool) :=
  next ← peekSymbol;
  if decide (next = code TYPE_MODIFIER) then
    getSymbol;;
    modText ← getSymbolText;
    mret (bool_decide (modText = "const"), bool_decide (modText = "var"))
  else mret (false, false).

(** The declared type, with the name it starts with. *)
Definition declared_type (scope : nat) (isVar : bool) : parser (option Ty * string) :=
  if isVar then mret (Some (Type_ "var" []), "")
  else
    typePos ← getCurrentPos;
    sym ← getSymbol;
    candidateType ← (if decide (sym = code SYMBOL) then getSymbolText else mret "");
    setCurrentPos typePos;;
    t ← rec_Type rec scope false;
    mret (t, candidateType).

Definition unknown_type (scope : nat) (candidateType : string) : parser DeclData :=
  if decide (candidateType <> "") then
    owner ← module_exporting scope candidateType;
    error_if (bool_decide (owner <> "")) "QVariableDefinition.cpp" 183
      ("unknown type '" +:+ candidateType +:+ "' " +:+
       String (ascii_of_N 226) (String (ascii_of_N 128) (String (ascii_of_N 148) "")) +:+
       " did you mean to `import " +:+ owner +:+
       ";`? (naming a foreign type requires importing its module)");;
    decl_error 186 ("unknown type '" +:+ candidateType +:+ "' in variable declaration")
  else decl_error 189 "expected a type in variable declaration".

(** The initial value behind ['=']. *)
Definition initial_value (scope : nat) : parser (option Expr) :=
  next ← peekSymbol;
  if decide (next = chr "=") then
    getSymbol;;
    value ← Expression_Parse rec scope;
    value ← or_error value "QVariableDefinition.cpp" 207 "Failed parse value";
    mret (Some value)
  else mret None.

(** One declared variable. *)
Definition declared_variable (scope : nat) (loc : SourceLocation) (t : option Ty) (candidateType : string)
  (isConst isVar : bool) (ownership : OwnershipQualifier) : parser DeclData :=
  sym ← getSymbol;
  match t with
  | None => unknown_type scope candidateType
  | Some t =>
      if decide (sym = code SYMBOL) then
        name ← getSymbolText;
        v ← new_variable t name loc isConst ownership;
        add_symbol scope (SymVariable v);;
        value ← initial_value scope;
        error_if (isConst && bool_decide (value = None)) "QVariableDefinition.cpp" 214 "const variable must be initialized";;
        error_if (isVar && bool_decide (value = None)) "QVariableDefinition.cpp" 220 "var variable must be initialized";;
        mret (mkDecl (Some v) value)
      else decl_error 194 ("expected a variable name after type '" +:+ ty_name t +:+ "'")
  end.

Definition VariableDeclaration_Parse (scope : nat) : parser Stmt :=
  loc ← getTokenLocation;
  n ← new_node loc;
  ownership ← ownership_qualifier;
  '(isConst, isVar) ← declaration_modifier;
  '(t, candidateType) ← declared_type scope isVar;
  error_if (match t with Some t => c_only t | None => false end) "QVariableDefinition.cpp" 163
    (match t with Some t => c_only_message t | None => "" end);;
  l ← parser_loop fuel (fun l =>
    d ← declared_variable scope loc t candidateType isConst isVar ownership;
    next ← peekSymbol;
    if decide (next <> chr ",") then mret (Break (l ++ [d]))
    else getSymbol;; mret (Next (l ++ [d]))) [];
  mret (VariableDeclaration n l).

(** * Expressions that hold blocks *)

Definition LambdaExpression_Parse (scope : nat) : parser Expr :=
  loc ← getTokenLocation;
  expect (chr "(") "QLambdaExpression.cpp" 19 "Expected '(' in lambda expression";;
  n ← new_node loc;
  lambdaScope ← new_scope kScope_Function scope;
  params ← items_or_none fuel
    (p ← ParseFuncParam lambdaScope false 0; or_error p "QLambdaExpression.cpp" 35 "Expected parameter in lambda expression")
    (chr ")") "QLambdaExpression.cpp" 40 "Expected ',' or ')' in lambda parameters";
  next ← peekSymbol;
  ret ← (if decide (next = code ARROW) then
           getSymbol;;
           t ← rec_Type rec lambdaScope false;
           t ← or_error t "QLambdaExpression.cpp" 54 "Expected return type after '->' in lambda";
           mret (Some t)
         else mret None);
  body ← rec_Block rec lambdaScope;
  mret (LambdaExpression n ret params (Some body)).

Definition SpawnStatement_Parse (scope : nat) : parser Expr :=
  loc ← getTokenLocation;
  expect (code KEYWORD_SPAWN) "QSpawnStatement.cpp" 28 "Internal Error: expected 'spawn' keyword";;
  n ← new_node loc;
  spawn_scope ← new_scope kScope_Anonymous scope;
  next ← peekSymbol;
  error_if (bool_decide (next <> chr "{")) "QSpawnStatement.cpp" 41 "Expected '{' after 'spawn'";;
  body ← rec_Block rec spawn_scope;
  mret (SpawnStatement n (Some body)).

(** ** Match *)

Definition match_error {A} (line : Z) (message : string) : parser A := COMPILE_ERROR "QMatchExpression.cpp" line message.

(** The names between the parentheses of a pattern. *)
Definition binding_names : parser (list string) :=
  sym ← getSymbol;
  '(names, sym) ← parser_loop fuel (fun b =>
    let '(names, sym) := b in
    if decide (sym = code SYMBOL) then
      name ← getSymbolText;
      sym ← getSymbol;
      if decide (sym = chr ",") then sym ← getSymbol; mret (Next (names ++ [name], sym))
      else mret (Break (names ++ [name], sym))
    else mret (Break (names, sym))) ([], sym);
  error_if (bool_decide (sym <> chr ")")) "QMatchExpression.cpp" 93 "Expected ')' after binding name(s) in match pattern";;
  mret names.

(** A pattern: its text, the names it binds, whether it is the wildcard and
    whether it is a string. *)
Definition match_pattern : parser (string * list string * bool * bool) :=
  sym ← peekSymbol;
  if bool_decide (sym = code CONSTANT_NUMBER) || bool_decide (sym = code CONSTANT_FLOAT) ||
     bool_decide (sym = code CONSTANT_STRING) || bool_decide (sym = code CONSTANT_CHAR) then
    getSymbol;;
    text ← getSymbolText;
    mret (text, [], false, bool_decide (sym = code CONSTANT_STRING))
  else if decide (sym = code WILDCARD) then getSymbol;; mret ("_", [], true, false)
  else if decide (sym = code SYMBOL) then
    getSymbol;;
    text ← getSymbolText;
    next ← peekSymbol;
    if decide (next = chr "(") then
      getSymbol;;
      names ← binding_names;
      mret (text, names, false, false)
    else mret (text, [], false, false)
  else match_error 98 "Expected pattern in match arm (constant, identifier, or '_')".

(** Adds a variable of the placeholder type [var]. *)
Definition bind_var (scope : nat) (name : string) : parser unit :=
  v ← new_variable (Type_ "var" []) name no_location false kOwnership_Value;
  add_symbol scope (SymVariable v).

Definition match_arm (scope : nat) (exprMode : bool) : parser MatchArm :=
  '(pattern, names, wildcard, is_string) ← match_pattern;
  armScope ← new_scope kScope_Anonymous scope;
  parser_each (bind_var armScope) names;;
  if exprMode then
    expect (chr "{") "QMatchExpression.cpp" 119 "Expected '{' after match arm pattern";;
    value ← operand rec armScope 0 "QMatchExpression.cpp" 122
      "Expected expression in match arm (a value-producing match arm holds a single expression)";
    expect (chr "}") "QMatchExpression.cpp" 125
      "Expected '}' after match arm expression (a value-producing match arm holds a single expression, no ';')";;
    mret (mkArm pattern names None (Some value) (Some armScope) wildcard is_string)
  else
    body ← rec_Block rec armScope;
    mret (mkArm pattern names (Some body) None None wildcard is_string).

Definition MatchExpression_Parse (scope : nat) (exprMode : bool) : parser Expr :=
  loc ← getTokenLocation;
  expect (code KEYWORD_MATCH) "QMatchExpression.cpp" 27 "Internal Error: expected 'match' keyword";;
  n ← new_node loc;
  subject ← rec_Primary rec scope;
  subject ← or_error subject "QMatchExpression.cpp" 38 "Expected expression after 'match'";
  expect (chr "{") "QMatchExpression.cpp" 45 "Expected '{' after match subject";;
  arms ← parser_loop fuel (fun l =>
    next ← peekSymbol;
    if decide (next = chr "}") then mret (Break l)
    else arm ← match_arm scope exprMode; mret (Next (l ++ [arm]))) [];
  getSymbol;;
  mret (MatchExpression n subject arms exprMode).

(** ** Queries *)

Definition query_operand (scope : nat) (line : Z) (message : string) : parser Expr :=
  operand rec scope 0 "QQueryExpression.cpp" line message.

Definition query_expect (sym : Z) (line : Z) (message : string) : parser unit :=
  expect sym "QQueryExpression.cpp" line message.

Definition parseStepBody (scope : nat) : parser Expr :=
  query_expect (chr "{") 25 "Expected '{' in query pipeline step";;
  e ← query_operand scope 29 "Expected expression in query pipeline step body";
  query_expect (chr "}") 33 "Expected '}' in query pipeline step";;
  mret e.

Definition parseSetStep (scope : nat) : parser QueryPipelineStep :=
  query_expect (chr "{") 46 "Expected '{' after 'set'";;
  fields ← parser_loop fuel (fun l =>
    query_expect (chr ".") 52 "Expected '.field' in set clause";;
    fieldName ← expect_name "QQueryExpression.cpp" 56 "Expected field name after '.' in set clause";
    query_expect (chr "=") 63 "Expected '=' after field name in set clause";;
    value ← query_operand scope 68 "Expected expression after '=' in set clause";
    next ← peekSymbol;
    (if decide (next = chr ",") then getSymbol;; mret tt else mret tt);;
    next ← peekSymbol;
    mret (if decide (next = chr "}") then Break (l ++ [(fieldName, value)])
          else Next (l ++ [(fieldName, value)]))) [];
  getSymbol;;
  mret (mkStep SET None "" fields).

Definition pipeline_step (scope : nat) (stepName : string) : parser QueryPipelineStep :=
  if decide (stepName = "where") then e ← parseStepBody scope; mret (mkStep WHERE (Some e) "" [])
  else if decide (stepName = "order_by") then e ← parseStepBody scope; mret (mkStep ORDER_BY (Some e) "" [])
  else if decide (stepName = "limit") then
    query_expect (chr "(") 114 "Expected '(' after 'limit'";;
    e ← query_operand scope 117 "Expected expression in limit()";
    query_expect (chr ")") 120 "Expected ')' after limit expression";;
    mret (mkStep LIMIT (Some e) "" [])
  else if decide (stepName = "first") then mret (mkStep FIRST None "" [])
  else if decide (stepName = "join") then
    table ← expect_name "QQueryExpression.cpp" 132 "Expected table name after 'join'";
    query_expect (code KEYWORD_ON) 138 "Expected 'on' after join table name";;
    e ← parseStepBody scope;
    mret (mkStep JOIN (Some e) table [])
  else if decide (stepName = "set") then parseSetStep scope
  else COMPILE_ERROR "QQueryExpression.cpp" 148 ("Unknown query pipeline step '" +:+ stepName +:+ "'").

Definition parsePipelineSteps (scope : nat) : parser (list QueryPipelineStep) :=
  parser_loop fuel (fun l =>
    next ← peekSymbol;
    if decide (next = code PIPE_ARROW) then
      getSymbol;;
      stepName ← expect_name "QQueryExpression.cpp" 94 "Expected pipeline step name after '|>'";
      step ← pipeline_step scope stepName;
      mret (Next (l ++ [step]))
    else mret (Break l)) [].

(** The table of a query, insert, update or delete, after its keyword. *)
Definition query_table (line : Z) (what : string) : parser (Node * string) :=
  loc ← getTokenLocation;
  getSymbol;;
  table ← expect_name "QQueryExpression.cpp" line ("Expected table name after '" +:+ what +:+ "'");
  n ← new_node loc;
  mret (n, table).

Definition QueryExpression_Parse (scope : nat) : parser Expr :=
  '(n, table) ← query_table 166 "query";
  steps ← parsePipelineSteps scope;
  mret (QueryExpression n table steps).

Definition UpdateExpression_Parse (scope : nat) : parser Expr :=
  '(n, table) ← query_table 242 "update";
  steps ← parsePipelineSteps scope;
  mret (UpdateExpression n table steps).

Definition DeleteExpression_Parse (scope : nat) : parser Expr :=
  '(n, table) ← query_table 265 "delete";
  steps ← parsePipelineSteps scope;
  mret (DeleteExpression n table steps).

Definition InsertExpression_Parse (scope : nat) : parser Expr :=
  '(n, table) ← query_table 189 "insert";
  query_expect (chr "{") 197 "Expected '{' after table name in insert expression";;
  fields ← field_values rec fuel scope "QQueryExpression.cpp" 205 210 214
    "Expected field name in insert expression" "Expected ':' after field name in insert expression"
    "Expected expression for field value in insert";
  query_expect (chr "}") 225 "Expected '}' in insert expression";;
  mret (InsertExpression n table fields.*1 fields.*2).

(** * Statements *)

(** The body of a loop or a conditional, in its scope. *)
Definition body_statement (scope : nat) : parser (option Stmt) :=
  next ← peekSymbol;
  if decide (next = chr "{") then b ← rec_Block rec scope; mret (Some (SBlock b))
  else rec_Statement rec scope.

Definition WhileStatement_Parse (scope : nat) : parser Stmt :=
  loc ← getTokenLocation;
  expect (code KEYWORD_WHILE) "QModule.cpp" 503 "Internal Compiler Error";;
  n ← new_node loc;
  cond ← operand rec scope 0 "QModule.cpp" 513 "Expected expression in while condition";
  loop_scope ← new_scope kScope_Loop scope;
  body ← body_statement loop_scope;
  mret (WhileStatement n cond body).

Definition IfStatement_Parse (scope : nat) : parser Stmt :=
  loc ← getTokenLocation;
  expect (code KEYWORD_IF) "QModule.cpp" 533 "Internal Compiler Error";;
  n ← new_node loc;
  cond ← operand rec scope 0 "QModule.cpp" 543 "Expected expression in if condition";
  if_scope ← new_scope kScope_IfElse scope;
  then_ ← body_statement if_scope;
  next ← peekSymbol;
  if decide (next = code KEYWORD_ELSE) then
    else_scope ← new_scope kScope_IfElse scope;
    getSymbol;;
    else_ ← body_statement else_scope;
    mret (IfStatement n cond then_ else_)
  else mret (IfStatement n cond then_ None).

Definition for_error {A} (line : Z) (message : string) : parser A := COMPILE_ERROR "QForInStatement.cpp" line message.

(** The second variable of [for key, value in ...], or the empty name. *)
Definition second_variable : parser string :=
  next ← peekSymbol;
  if decide (next = chr ",") then
    getSymbol;;
    expect_name "QForInStatement.cpp" 62 "Expected second variable name after ',' in for-in loop"
  else mret "".

Definition ForInStatement_Parse (scope : nat) : parser Stmt :=
  loc ← getTokenLocation;
  expect (code KEYWORD_FOR) "QForInStatement.cpp" 30 "Internal Error: expected 'for' keyword";;
  n ← new_node loc;
  loop_scope ← new_scope kScope_Loop scope;
  next ← peekSymbol;
  if decide (next = chr "{") then
    b ← rec_Block rec loop_scope;
    mret (ForInStatement n "" "" None (Some (SBlock b)) true)
  else
    name ← expect_name "QForInStatement.cpp" 51 "Expected variable name in for-in loop";
    second ← second_variable;
    expect (code KEYWORD_IN) "QForInStatement.cpp" 71 "Expected 'in' keyword in for-in loop";;
    bind_var loop_scope name;;
    (if decide (second <> "") then bind_var loop_scope second else mret tt);;
    iterable ← operand rec loop_scope 0 "QForInStatement.cpp" 89 "Expected expression after 'in' in for-in loop";
    body ← body_statement loop_scope;
    mret (ForInStatement n name second (Some iterable) body false).

Definition ReturnStatement_Parse (scope : nat) : parser Stmt :=
  loc ← getTokenLocation;
  expect (code KEYWORD_RETURN) "QReturnStatement.cpp" 22 "Internal Error";;
  n ← new_node loc;
  next ← peekSymbol;
  if decide (next = chr ";") then getSymbol;; mret (ReturnStatement n None)
  else
    e ← Expression_Parse rec scope;
    e ← or_error e "QReturnStatement.cpp" 39 "Failed to parse expression in return";
    mret (ReturnStatement n (Some e)).

Definition BreakStatement_Parse : parser Stmt :=
  loc ← getTokenLocation;
  expect (code KEYWORD_BREAK) "QBreakContinue.cpp" 24 "Internal Error";;
  expect (chr ";") "QBreakContinue.cpp" 30 "Expected ';' after break";;
  n ← new_node loc;
  mret (BreakStatement n).

Definition ContinueStatement_Parse : parser Stmt :=
  loc ← getTokenLocation;
  expect (code KEYWORD_CONTINUE) "QBreakContinue.cpp" 44 "Internal Error";;
  expect (chr ";") "QBreakContinue.cpp" 50 "Expected ';' after continue";;
  n ← new_node loc;
  mret (ContinueStatement n).

Definition AssertStatement_Parse (scope : nat) : parser Stmt :=
  loc ← getTokenLocation;
  expect (code KEYWORD_ASSERT) "QAssertStatement.cpp" 24 "Internal Error";;
  n ← new_node loc;
  e ← operand rec scope 0 "QAssertStatement.cpp" 33 "Expected expression after 'assert'";
  next ← peekSymbol;
  message ← (if decide (next = chr ",") then
               getSymbol;;
               expect (code CONSTANT_STRING) "QAssertStatement.cpp" 44 "Expected string literal for assert message";;
               getSymbolText
             else mret "");
  expect (chr ";") "QAssertStatement.cpp" 53 "Expected ';' after assert statement";;
  mret (AssertStatement n e message).

Definition WaitStatement_Parse (scope : nat) : parser Stmt :=
  loc ← getTokenLocation;
  expect (code KEYWORD_WAIT) "QSpawnStatement.cpp" 60 "Internal Error: expected 'wait' keyword";;
  n ← new_node loc;
  e ← operand rec scope 0 "QSpawnStatement.cpp" 70 "Expected expression after 'wait'";
  expect (chr ";") "QSpawnStatement.cpp" 77 "Expected ';' after wait expression";;
  mret (WaitStatement n e).

Definition WaitAllStatement_Parse : parser Stmt :=
  loc ← getTokenLocation;
  expect (code KEYWORD_WAIT_ALL) "QSpawnStatement.cpp" 94 "Internal Error: expected 'wait_all' keyword";;
  n ← new_node loc;
  expect (chr ";") "QSpawnStatement.cpp" 104 "Expected ';' after wait_all";;
  mret (WaitAllStatement n).

Definition EventHandler_Parse (scope : nat) : parser Stmt :=
  loc ← getTokenLocation;
  expect (code KEYWORD_ON) "QEventHandler.cpp" 28 "Internal Error: expected 'on' keyword";;
  n ← new_node loc;
  e ← operand rec scope 0 "QEventHandler.cpp" 38 "Expected event expression after 'on'";
  handler_scope ← new_scope kScope_Anonymous scope;
  next ← peekSymbol;
  error_if (bool_decide (next <> chr "{")) "QEventHandler.cpp" 48
    "Expected '{' after event expression in 'on' handler";;
  body ← rec_Block rec handler_scope;
  mret (EventHandler n e (Some body)).

(** Of two attempts' errors, the one that got further. *)
Definition deeperError (a b : CompileError) : CompileError :=
  let la := mLocation a in
  let lb := mLocation b in
  if bool_decide (loc_line la < loc_line lb)%Z ||
     (bool_decide (loc_line lb = loc_line la) && bool_decide (loc_col la < loc_col lb)%Z)
  then b else a.

(** [if ( err.getLocation().isSet() ) throw err; COMPILE_ERROR( ... )]. *)
Definition rethrow {A} (err : CompileError) (line : Z) : parser A :=
  if isSet (mLocation err) then throw err else COMPILE_ERROR "QStatement.cpp" line "Unexpected token".

(** A declaration or, from the same position, an expression. *)
Definition declaration_or_expression (scope pos : nat) : parser (option Stmt) :=
  try_catch (d ← VariableDeclaration_Parse scope; mret (Some d)) (fun declErr =>
    setCurrentPos pos;;
    e ← try_catch (Expression_Parse rec scope) (fun exprErr =>
      setCurrentPos pos;;
      rethrow (deeperError declErr exprErr) 101);
    match e with
    | Some e => mret (Some (SExpression e))
    | None => setCurrentPos pos;; rethrow declErr 117
    end).

Definition some_stmt (m : parser Stmt) : parser (option Stmt) := s ← m; mret (Some s).

Definition Statement_Parse (scope : nat) : parser (option Stmt) :=
  pos ← getCurrentPos;
  sym ← peekSymbol;
  if decide (sym = code KEYWORD_WHILE) then some_stmt (WhileStatement_Parse scope)
  else if decide (sym = code KEYWORD_IF) then some_stmt (IfStatement_Parse scope)
  else if decide (sym = code KEYWORD_FOR) then some_stmt (ForInStatement_Parse scope)
  else if decide (sym = code KEYWORD_RETURN) then some_stmt (ReturnStatement_Parse scope)
  else if decide (sym = code KEYWORD_BREAK) then some_stmt BreakStatement_Parse
  else if decide (sym = code KEYWORD_CONTINUE) then some_stmt ContinueStatement_Parse
  else if decide (sym = code KEYWORD_MATCH) then some_stmt (e ← MatchExpression_Parse scope false; mret (SExpression e))
  else if decide (sym = code KEYWORD_SPAWN) then some_stmt (e ← SpawnStatement_Parse scope; mret (SExpression e))
  else if decide (sym = code KEYWORD_WAIT) then some_stmt (WaitStatement_Parse scope)
  else if decide (sym = code KEYWORD_WAIT_ALL) then some_stmt WaitAllStatement_Parse
  else if decide (sym = code KEYWORD_ASSERT) then some_stmt (AssertStatement_Parse scope)
  else if decide (sym = code KEYWORD_ON) then some_stmt (EventHandler_Parse scope)
  else if decide (sym = chr "{") then some_stmt (b ← rec_Block rec scope; mret (SBlock b))
  else if decide (sym = chr ";") then getSymbol;; mret None
  else declaration_or_expression scope pos.

(** * Blocks *)

(** One pass of the loop of [resyncStatement]; the braces that are open. *)
Definition resync_pass (depth : Z) : parser (loop_step Z unit) :=
  eof ← lexer_isEOF;
  if eof : bool then mret (Break tt)
  else
    p ← peekSymbol;
    if decide (p = (-1)%Z) then mret (Break tt)
    else if bool_decide (depth = 0%Z) && bool_decide (p = chr "}") then mret (Break tt)
    else
      sym ← getSymbol;
      if decide (sym = chr "{") then mret (Next (depth + 1)%Z)
      else if decide (sym = chr "}") then mret (Next (depth - 1)%Z)
      else if bool_decide (sym = chr ";") && bool_decide (depth = 0%Z) then mret (Break tt)
      else mret (Next depth).

Definition resyncStatement : parser unit := parser_loop fuel resync_pass 0%Z.

(** The diagnostic engine is the one the driver installed. *)
Definition report_parse_error (err : CompileError) : parser unit :=
  change (with_diag (reportCompileError err)).

(** The statement at the cursor, if it parses; otherwise its error is reported
    and the cursor moves on. *)
Definition block_statement (scope : nat) (l : list Stmt) : parser (list Stmt) :=
  pos_before ← getCurrentPos;
  try_catch (
    statement ← rec_Statement rec scope;
    match statement with
    | Some s => mret (l ++ [s])
    | None =>
        pos ← getCurrentPos;
        error_if (bool_decide (pos = pos_before)) "QBlock.cpp" 64 "Failed to parse statement";;
        mret l
    end)
    (fun err => report_parse_error err;; resyncStatement;; mret l).

Definition block_pass (scope : nat) (l : list Stmt) : parser (loop_step (list Stmt) (list Stmt)) :=
  eof ← lexer_isEOF;
  if eof : bool then mret (Break l)
  else
    next ← peekSymbol;
    if decide (next = chr "}") then mret (Break l)
    else l ← block_statement scope l; mret (Next l).

Definition Block_Parse (block_scope : nat) : parser Block :=
  loc ← getTokenLocation;
  n ← new_node loc;
  expect (chr "{") "QBlock.cpp" 53 "expected '{'";;
  l ← parser_loop fuel (block_pass block_scope) [];
  next ← peekSymbol;
  error_if (bool_decide (next <> chr "}")) "QBlock.cpp" 88 "expected '}'";;
  getSymbol;;
  mret (mkBlock n (Some block_scope) l).
End statements.

(** * The parser, tied together: each parse function over those of the next smaller depth *)

(** [depth] bounds the nesting of the calls and the passes of each loop. *)
Fixpoint parsers_at (depth : nat) : parsers :=
  match depth with
  | 0 => no_parsers
  | S depth =>
      let rec := parsers_at depth in
      mkParsers
        (Type_Parse rec depth)
        (ParsePrimary rec depth
           (MatchExpression_Parse rec depth) (LambdaExpression_Parse rec depth) (SpawnStatement_Parse rec)
           (QueryExpression_Parse rec depth) (InsertExpression_Parse rec depth)
           (UpdateExpression_Parse rec depth) (DeleteExpression_Parse rec depth))
        (ParseExpr rec depth)
        (Block_Parse rec depth)
        (Statement_Parse rec depth)
  end.

Definition initial (st : stream) (h : heap) (next_scope next_def : nat) (types : gmap nat Ty)
  (diag : DiagnosticEngine) : pstate := mkParser st h next_scope 0 next_def types diag nothing_declared.
