(* ===== verification/ParseDeclarations.v ===== *)
(** The parsers of declarations ([src/QFunctionDefinition.cpp],
    [src/QStructDefinition.cpp], [src/QEnumDefinition.cpp],
    [src/QProtocolDefinition.cpp], [src/QImplBlock.cpp],
    [src/QTestBlock.cpp]).

    A function is registered in its scope while it is still being filled in, and
    a struct gets its methods from [impl] blocks that come later, so that each
    change is written through ([write_object]). *)

From stdpp Require Import pretty.
From S2P Require Import Prelude SourceLocation Lexer Tokens Diagnostics Ast Scope ParserBase ParseTypes ParseExpressions ParseStatements.

(** * What is set on a definition *)

(** ** On a function *)

Section function_setters.
Variable f : FunctionDefinition.
Definition add_generic (g : GenericParam) : FunctionDefinition :=
  mkFunction (fid f) (f_name f) (f_location f) (f_return f) (f_params f) (f_extern f) (f_variadic f) (f_public f)
    (f_async f) (f_builtin f) (f_static f) (f_init f) (f_generics f ++ [g]) (f_annotations f).
Definition add_param (p : VariableDefinition) : FunctionDefinition :=
  mkFunction (fid f) (f_name f) (f_location f) (f_return f) (f_params f ++ [p]) (f_extern f) (f_variadic f)
    (f_public f) (f_async f) (f_builtin f) (f_static f) (f_init f) (f_generics f) (f_annotations f).
Definition set_variadic : FunctionDefinition :=
  mkFunction (fid f) (f_name f) (f_location f) (f_return f) (f_params f) (f_extern f) true (f_public f)
    (f_async f) (f_builtin f) (f_static f) (f_init f) (f_generics f) (f_annotations f).
Definition set_return (t : option Ty) : FunctionDefinition :=
  mkFunction (fid f) (f_name f) (f_location f) t (f_params f) (f_extern f) (f_variadic f) (f_public f)
    (f_async f) (f_builtin f) (f_static f) (f_init f) (f_generics f) (f_annotations f).
Definition setStatic (b : bool) : FunctionDefinition :=
  mkFunction (fid f) (f_name f) (f_location f) (f_return f) (f_params f) (f_extern f) (f_variadic f) (f_public f)
    (f_async f) (f_builtin f) b (f_init f) (f_generics f) (f_annotations f).
Definition setAnnotations_function (l : list AnnotationNode) : FunctionDefinition :=
  mkFunction (fid f) (f_name f) (f_location f) (f_return f) (f_params f) (f_extern f) (f_variadic f) (f_public f)
    (f_async f) (f_builtin f) (f_static f) (f_init f) (f_generics f) l.
End function_setters.

(** ** On a struct *)

Section struct_setters.
Variable sd : StructDefinition.
Definition addMethod (m : FunctionDefinition) : StructDefinition :=
  mkStruct (s_id sd) (s_name sd) (s_location sd) (s_fields sd) (s_methods sd ++ [m]) (s_init sd) (s_generics sd)
    (s_annotations sd) (s_public sd) (s_table sd) (s_from_interface sd) (s_conformed sd) (s_defining_file sd)
    (s_digest sd).
Definition setInitMethod (m : FunctionDefinition) : StructDefinition :=
  mkStruct (s_id sd) (s_name sd) (s_location sd) (s_fields sd) (s_methods sd) (Some m) (s_generics sd)
    (s_annotations sd) (s_public sd) (s_table sd) (s_from_interface sd) (s_conformed sd) (s_defining_file sd)
    (s_digest sd).
Definition setIsTable (b : bool) : StructDefinition :=
  mkStruct (s_id sd) (s_name sd) (s_location sd) (s_fields sd) (s_methods sd) (s_init sd) (s_generics sd)
    (s_annotations sd) (s_public sd) b (s_from_interface sd) (s_conformed sd) (s_defining_file sd) (s_digest sd).
Definition setAnnotations_struct (l : list AnnotationNode) : StructDefinition :=
  mkStruct (s_id sd) (s_name sd) (s_location sd) (s_fields sd) (s_methods sd) (s_init sd) (s_generics sd)
    l (s_public sd) (s_table sd) (s_from_interface sd) (s_conformed sd) (s_defining_file sd) (s_digest sd).
Definition setDefiningFile_struct (file : string) : StructDefinition :=
  mkStruct (s_id sd) (s_name sd) (s_location sd) (s_fields sd) (s_methods sd) (s_init sd) (s_generics sd)
    (s_annotations sd) (s_public sd) (s_table sd) (s_from_interface sd) (s_conformed sd) file (s_digest sd).
End struct_setters.

Definition setAnnotations_enum (l : list AnnotationNode) (e : EnumDefinition) : EnumDefinition :=
  mkEnum (e_id e) (e_name e) (e_location e) (e_variants e) (e_generics e) (e_public e) l.

(** A null pointer among a function's parameters, which [FunctionDefinition::Parse]
    leaves there for a parameter of an unknown type. *)
Definition null_variable : VariableDefinition := mkVariable 0 "" no_location false kOwnership_Value.
Definition is_null (v : VariableDefinition) : bool := bool_decide (v_name v = "").

Section declarations.
Variable rec : parsers.
Variable fuel : nat.

(** [assert( l.getSymbol() == '}' )]. *)
Definition assert_close : parser unit :=
  sym ← getSymbol;
  if decide (sym = chr "}") then mret tt else parser_undefined.

(** * Type parameters *)

(** [: Protocol], if it is there. *)
Definition constraint_name (file : string) (line : Z) : parser string :=
  next ← peekSymbol;
  if decide (next = chr ":") then getSymbol;; expect_name file line "Expected constraint name after ':'"
  else mret "".

(** One type parameter, and the symbol after it. *)
Definition generic_param (scope : nat) (file : string) (line1 line2 : Z) (l : list GenericParam) :
  parser (loop_step (list GenericParam) (list GenericParam * Z)) :=
  name ← expect_name file line1 "Expected type parameter name";
  c ← constraint_name file line2;
  add_type scope (Type_ name []);;
  sym ← getSymbol;
  let l := l ++ [mkGenericParam name c] in
  if decide (sym = chr ",") then mret (Next l) else mret (Break (l, sym)).

Definition generic_params (scope : nat) (file : string) (line1 line2 line3 : Z) : parser (list GenericParam) :=
  next ← peekSymbol;
  if decide (next = chr "<") then
    getSymbol;;
    r ← parser_loop fuel (generic_param scope file line1 line2) [];
    let '(l, sym) := r in
    error_if (bool_decide (sym <> chr ">")) file line3 "Expected '>' after generic parameters";;
    mret l
  else mret [].

(** * Structs *)

Definition struct_field (scope : nat) (l : list VariableDefinition) :
  parser (loop_step (list VariableDefinition) (list VariableDefinition)) :=
  next ← peekSymbol;
  if decide (next = chr "}") then mret (Break l)
  else
    loc ← getTokenLocation;
    t ← rec_Type rec scope false;
    t ← or_error t "QStructDefinition.cpp" 82 "Expected field type in struct definition";
    error_if (c_only t) "QStructDefinition.cpp" 87 (c_only_message t);;
    name ← expect_name "QStructDefinition.cpp" 92 "Expected field name in struct definition";
    field ← new_variable t name loc false kOwnership_Value;
    expect (chr ";") "QStructDefinition.cpp" 102 "Expected ';' after struct field";;
    mret (Next (l ++ [field])).

(** All of [StructDefinition::Parse] before the struct is registered. *)
Definition struct_header (scope : nat) (isPublic : bool) : parser StructDefinition :=
  loc ← getTokenLocation;
  expect (code KEYWORD_STRUCT) "QStructDefinition.cpp" 22 "Internal Compiler Error";;
  name ← expect_name "QStructDefinition.cpp" 28 "Expected struct name";
  id ← new_id;
  generics ← generic_params scope "QStructDefinition.cpp" 43 54 67;
  expect (chr "{") "QStructDefinition.cpp" 73 "Expected '{' in struct definition";;
  fields ← parser_loop fuel (struct_field scope) [];
  assert_close;;
  mret (mkStruct id name loc fields [] None generics [] isPublic false false [] "" "").

Definition StructDefinition_Parse (scope : nat) (isPublic : bool) : parser StructDefinition :=
  structDef ← struct_header scope isPublic;
  add_symbol scope (SymStruct structDef);;
  add_type scope (Type_ (s_name structDef) []);;
  mret structDef.

(** * Enums *)

(** [( Type, ... )] after a variant's name. *)
Definition associated_types (scope : nat) : parser (list Ty) :=
  next ← peekSymbol;
  if decide (next = chr "(") then
    getSymbol;;
    items_or_none fuel
      (t ← rec_Type rec scope false; or_error t "QEnumDefinition.cpp" 116 "Expected type in enum variant")
      (chr ")") "QEnumDefinition.cpp" 123 "Expected ')' after variant types"
  else mret [].

Definition enum_variant_declaration (scope : nat) (l : list Variant) :
  parser (loop_step (list Variant) (list Variant)) :=
  next ← peekSymbol;
  if decide (next = chr "}") then mret (Break l)
  else
    loc ← getTokenLocation;
    name ← expect_name "QEnumDefinition.cpp" 102 "Expected variant name in enum";
    types ← associated_types scope;
    next ← peekSymbol;
    (if decide (next = chr ",") then getSymbol;; mret tt else mret tt);;
    mret (Next (l ++ [mkVariant name types loc])).

Definition EnumDefinition_Parse (scope : nat) (isPublic : bool) : parser EnumDefinition :=
  loc ← getTokenLocation;
  expect (code KEYWORD_ENUM) "QEnumDefinition.cpp" 29 "Internal Error: expected 'enum' keyword";;
  name ← expect_name "QEnumDefinition.cpp" 36 "Expected enum name";
  id ← new_id;
  generics ← generic_params scope "QEnumDefinition.cpp" 52 63 76;
  add_type scope (Type_ name []);;
  expect (chr "{") "QEnumDefinition.cpp" 89 "Expected '{' after enum name";;
  variants ← parser_loop fuel (enum_variant_declaration scope) [];
  assert_close;;
  let enumDef := mkEnum id name loc variants generics isPublic [] in
  add_symbol scope (SymEnum enumDef);;
  mret enumDef.

(** * Functions *)

(** [new FunctionDefinition( name )] with what is set on it at once. *)
Definition new_function (name : string) (loc : SourceLocation) (ret : option Ty) (params : list VariableDefinition)
  (isExtern isPublic isAsync isInit : bool) : parser FunctionDefinition :=
  id ← new_id;
  mret (mkFunction id name loc ret params isExtern false isPublic isAsync false false isInit [] []).

(** A new function, bound in the scope, with a scope of its own. *)
Definition register_function (scope : nat) (name : string) (loc : SourceLocation) (isExtern isPublic isAsync : bool) :
  parser (FunctionDefinition * nat) :=
  func ← new_function name loc None [] isExtern isPublic isAsync false;
  func_scope ← new_scope kScope_Function scope;
  added ← try_add_symbol scope (SymFunction func);
  error_if (negb added) "QFunctionDefinition.cpp" 80 ("Duplicate function definition: '" +:+ name +:+ "'");;
  mret (func, func_scope).

(** The protocol that constrains a function's type parameter. *)
Definition known_constraint (scope : nat) (c : string) : parser unit :=
  sym ← find_symbol scope c;
  error_if (bool_decide (sym = None)) "QFunctionDefinition.cpp" 114 ("Unknown protocol constraint: '" +:+ c +:+ "'");;
  error_if (bool_decide (as_protocol sym = None)) "QFunctionDefinition.cpp" 116
    ("Constraint '" +:+ c +:+ "' is not a protocol").

(** One type parameter of a function, and the symbol after it. *)
Definition function_generic (scope : nat) (func : FunctionDefinition) :
  parser (loop_step FunctionDefinition (FunctionDefinition * Z)) :=
  name ← expect_name "QFunctionDefinition.cpp" 90 "Expected type parameter name";
  error_if (bool_decide (name ∈ map gp_name (f_generics func))) "QFunctionDefinition.cpp" 99
    ("Duplicate generic parameter name: '" +:+ name +:+ "'");;
  next ← peekSymbol;
  c ← (if decide (next = chr ":") then
         getSymbol;;
         c ← expect_name "QFunctionDefinition.cpp" 108 "Expected constraint name after ':'";
         known_constraint scope c;;
         mret c
       else mret "");
  let func := add_generic func (mkGenericParam name c) in
  write_object (SymFunction func);;
  add_type scope (Type_ name []);;
  sym ← getSymbol;
  if decide (sym = chr ",") then mret (Next func) else mret (Break (func, sym)).

Definition function_generics (scope : nat) (func : FunctionDefinition) : parser FunctionDefinition :=
  next ← peekSymbol;
  if decide (next = chr "<") then
    getSymbol;;
    r ← parser_loop fuel (function_generic scope) func;
    let '(func, sym) := r in
    error_if (bool_decide (sym <> chr ">")) "QFunctionDefinition.cpp" 128 "Expected '>' after generic parameters";;
    mret func
  else mret func.

(** One parameter, or the dots of a variadic function, and the symbol after it. *)
Definition function_param (func_scope : nat) (isExtern : bool) (func : FunctionDefinition) :
  parser (loop_step FunctionDefinition (FunctionDefinition * Z)) :=
  next ← peekSymbol;
  if decide (next = code ELLIPSIS) then
    getSymbol;;
    let func := set_variadic func in
    write_object (SymFunction func);;
    sym ← getSymbol;
    mret (Break (func, sym))
  else
    def ← ParseFuncParam rec func_scope isExtern (Z.of_nat (length (f_params func)));
    let func := add_param func (default null_variable def) in
    write_object (SymFunction func);;
    sym ← getSymbol;
    if decide (sym = chr ",") then mret (Next func) else mret (Break (func, sym)).

Definition function_params (func_scope : nat) (isExtern : bool) (func : FunctionDefinition) :
  parser FunctionDefinition :=
  expect (chr "(") "QFunctionDefinition.cpp" 134 "Expected '(' after function name";;
  sym ← peekSymbol;
  if decide (sym = chr ")") then getSymbol;; mret func
  else
    r ← parser_loop fuel (function_param func_scope isExtern) func;
    let '(func, sym) := r in
    error_if (bool_decide (sym <> chr ")")) "QFunctionDefinition.cpp" 157 "expected ',' or ')'";;
    mret func.

(** [-> Type]; no type, or an unknown one, is void. *)
Definition return_type (scope : nat) (isExtern : bool) (func : FunctionDefinition) : parser FunctionDefinition :=
  sym ← peekSymbol;
  if decide (sym = code ARROW) then
    getSymbol;;
    retType ← rec_Type rec scope false;
    match retType with
    | Some t => error_if (negb isExtern && c_only t) "QFunctionDefinition.cpp" 173 (c_only_message t)
    | None => mret tt
    end;;
    let func := set_return func retType in
    write_object (SymFunction func);;
    mret func
  else mret func.

(** The variable [result] of [ensures] clauses. *)
Definition result_variable (func_scope : nat) (func : FunctionDefinition) : parser unit :=
  match f_return func with
  | None => mret tt
  | Some t =>
      sym ← find_symbol func_scope "result";
      match sym with
      | Some _ => mret tt
      | None =>
          v ← new_variable t "result" no_location false kOwnership_Value;
          add_symbol func_scope (SymVariable v)
      end
  end.

(** One [requires] or [ensures] clause. *)
Definition contract_clause (func_scope : nat) (func : FunctionDefinition) (cs : list Expr * list Expr) :
  parser (loop_step (list Expr * list Expr) (list Expr * list Expr)) :=
  let '(reqs, enss) := cs in
  next ← peekSymbol;
  if bool_decide (next = code KEYWORD_REQUIRES) || bool_decide (next = code KEYWORD_ENSURES) then
    getSymbol;;
    let isRequires := bool_decide (next = code KEYWORD_REQUIRES) in
    (if isRequires then mret tt else result_variable func_scope func);;
    e ← operand rec func_scope 0 "QFunctionDefinition.cpp" 203
      ("Expected expression after '" +:+ (if isRequires then "requires" else "ensures") +:+ "'");
    mret (Next (if isRequires then (reqs ++ [e], enss) else (reqs, enss ++ [e])))
  else mret (Break (reqs, enss)).

(** One symbol of a body that is skipped; the braces that are open. *)
Definition skip_pass (depth : Z) : parser (loop_step Z unit) :=
  if decide (0 < depth)%Z then
    eof ← lexer_isEOF;
    error_if eof "QFunctionDefinition.cpp" 240 "Unterminated function body";;
    sym ← getSymbol;
    if decide (sym = chr "{") then mret (Next (depth + 1)%Z)
    else if decide (sym = chr "}") then mret (Next (depth - 1)%Z)
    else mret (Next depth)
  else mret (Break tt).

(** Where the body stands, which is skipped. *)
Definition skip_body : parser nat :=
  pos ← getCurrentPos;
  expect (chr "{") "QFunctionDefinition.cpp" 235 "Expected '{' to begin function body";;
  parser_loop fuel skip_pass 1%Z;;
  mret pos.

(** What ends a function: [;], a body, or a body that is put off. *)
Definition function_body (func_scope : nat) (isExtern deferBody : bool) :
  parser (option Block * option nat) :=
  if isExtern then
    expect (chr ";") "QFunctionDefinition.cpp" 216 "Expected ';' after extern function declaration";;
    mret (None, None)
  else
    next ← peekSymbol;
    if decide (next = chr ";") then getSymbol;; mret (None, None)
    else if deferBody then pos ← skip_body; mret (None, Some pos)
    else b ← rec_Block rec func_scope; mret (Some b, None).

(** The function, its scope, and where its body was put off. *)
Definition FunctionDefinition_Parse (scope : nat) (isExtern isPublic deferBody : bool) :
  parser (FunctionDefinition * nat * option nat) :=
  loc ← getTokenLocation;
  next ← peekSymbol;
  isAsync ← (if decide (next = code KEYWORD_ASYNC) then getSymbol;; mret true else mret false);
  next ← peekSymbol;
  error_if (bool_decide (next <> code KEYWORD_FN)) "QFunctionDefinition.cpp" 63 "Expected 'fn' keyword";;
  getSymbol;;
  name ← expect_name "QFunctionDefinition.cpp" 70 "Expected function name after 'fn'";
  registered ← register_function scope name loc isExtern isPublic isAsync;
  let '(func, func_scope) := registered in
  func ← function_generics scope func;
  func ← function_params func_scope isExtern func;
  func ← return_type scope isExtern func;
  cs ← parser_loop fuel (contract_clause func_scope func) ([], []);
  set_body (fid func) (mkBody cs.1 cs.2 None);;
  r ← function_body func_scope isExtern deferBody;
  set_body (fid func) (mkBody cs.1 cs.2 r.1);;
  mret (func, func_scope, r.2).

(** A parameter of a constructor enters the scope twice; a null one has no name. *)
Definition init_param (func_scope : nat) : parser VariableDefinition :=
  param ← ParseFuncParam rec func_scope false 0;
  match param with
  | None => parser_undefined
  | Some p => add_symbol func_scope (SymVariable p);; mret p
  end.

Definition FunctionDefinition_ParseInit (scope : nat) (isPublic : bool) : parser FunctionDefinition :=
  loc ← getTokenLocation;
  func ← new_function "init" loc None [] false isPublic false true;
  func_scope ← new_scope kScope_Function scope;
  selfParam ← new_variable (Type_ "self" []) "self" loc false kOwnership_Value;
  add_symbol func_scope (SymVariable selfParam);;
  expect (chr "(") "QFunctionDefinition.cpp" 301 "Expected '(' after 'init'";;
  params ← items_or_none fuel (init_param func_scope) (chr ")") "QFunctionDefinition.cpp" 315
    "Expected ')' after init parameters";
  let func := foldl add_param func (selfParam :: params) in
  next ← peekSymbol;
  if decide (next = chr ";") then getSymbol;; set_body (fid func) (mkBody [] [] None);; mret func
  else
    b ← rec_Block rec func_scope;
    set_body (fid func) (mkBody [] [] (Some b));;
    mret func.

(** * Protocols *)

Definition protocol_method (protoScope : nat) (l : list FunctionDefinition) :
  parser (loop_step (list FunctionDefinition) (list FunctionDefinition)) :=
  next ← peekSymbol;
  if decide (next = chr "}") then mret (Break l)
  else
    next ← peekSymbol;
    error_if (bool_decide (next <> code KEYWORD_FN)) "QProtocolDefinition.cpp" 86
      "Expected 'fn' for method signature in protocol";;
    r ← FunctionDefinition_Parse protoScope false false false;
    mret (Next (l ++ [r.1.1])).

Definition ProtocolDefinition_Parse (scope : nat) (isPublic : bool) : parser ProtocolDefinition :=
  loc ← getTokenLocation;
  expect (code KEYWORD_PROTOCOL) "QProtocolDefinition.cpp" 22 "Internal Compiler Error";;
  name ← expect_name "QProtocolDefinition.cpp" 28 "Expected protocol name";
  id ← new_id;
  generics ← generic_params scope "QProtocolDefinition.cpp" 43 54 67;
  expect (chr "{") "QProtocolDefinition.cpp" 73 "Expected '{' in protocol definition";;
  protoScope ← new_scope kScope_Class scope;
  methods ← parser_loop fuel (protocol_method protoScope) [];
  assert_close;;
  let protoDef := mkProtocol id name loc methods generics isPublic in
  add_symbol scope (SymProtocol protoDef);;
  mret protoDef.

(** * Test blocks *)

Definition TestBlock_Parse (scope : nat) : parser TestBlock :=
  loc ← getTokenLocation;
  expect (code KEYWORD_TEST) "QTestBlock.cpp" 25 "Internal Error";;
  expect (code CONSTANT_STRING) "QTestBlock.cpp" 31 "Expected test name string after 'test'";;
  name ← getSymbolText;
  testScope ← new_scope kScope_Function scope;
  body ← rec_Block rec testScope;
  mret (mkTestBlock name loc body).

(** * Impl blocks *)

Notation impl_file := "QImplBlock.cpp".

(** [impl Protocol for Struct] or [impl Struct]: the names of the struct and of
    the protocol, which is empty without one. *)
Definition impl_names : parser (string * string) :=
  firstName ← expect_name impl_file 28 "Expected identifier after 'impl'";
  sym ← peekSymbol;
  if decide (sym = code KEYWORD_FOR) then
    getSymbol;;
    structName ← expect_name impl_file 46 "Expected struct name after 'for'";
    mret (structName, firstName)
  else mret (firstName, "").

Definition impl_struct (scope : nat) (structName : string) : parser StructDefinition :=
  sym ← find_symbol scope structName;
  error_if (bool_decide (sym = None)) impl_file 61 ("Unknown struct '" +:+ structName +:+ "' in impl block");;
  or_error (as_struct sym) impl_file 67 ("'" +:+ structName +:+ "' is not a struct").

Definition check_protocol_name (scope : nat) (protocolName : string) : parser unit :=
  if decide (protocolName = "") then mret tt
  else
    sym ← find_symbol scope protocolName;
    error_if (bool_decide (sym = None)) impl_file 76 ("Unknown protocol '" +:+ protocolName +:+ "' in impl block");;
    error_if (bool_decide (as_protocol sym = None)) impl_file 82 ("'" +:+ protocolName +:+ "' is not a protocol").

(** A keyword that may stand there. *)
Definition optional_symbol (sym : Z) : parser bool :=
  next ← peekSymbol;
  if decide (next = sym) then getSymbol;; mret true else mret false.

(** A parameter of a static method. *)
Definition check_static_param (param : VariableDefinition) : parser unit :=
  if is_null param then parser_undefined
  else
    t ← variable_type param;
    error_if (bool_decide (ty_name <$> t = Some "self")) impl_file 153 "Static methods cannot have 'self' parameter".

Definition impl_init (implScope : nat) (sd : StructDefinition) (structName : string) (isPublic : bool) : parser unit :=
  now ← current_struct sd;
  error_if (hasInit now) impl_file 127 ("Duplicate 'init' constructor for struct '" +:+ structName +:+ "'");;
  initFunc ← FunctionDefinition_ParseInit implScope isPublic;
  now ← current_struct sd;
  write_object (SymStruct (setInitMethod (addMethod now initFunc) initFunc)).

Definition impl_method (implScope : nat) (sd : StructDefinition) (isPublic isStatic : bool) : parser unit :=
  r ← FunctionDefinition_Parse implScope false isPublic false;
  let method := setStatic r.1.1 isStatic in
  write_object (SymFunction method);;
  (if isStatic then parser_each check_static_param (f_params method) else mret tt);;
  now ← current_struct sd;
  write_object (SymStruct (addMethod now method)).

Definition impl_member (implScope : nat) (sd : StructDefinition) (structName : string) (_ : unit) :
  parser (loop_step unit unit) :=
  next ← peekSymbol;
  if decide (next = chr "}") then mret (Break tt)
  else
    isPublic ← optional_symbol (code KEYWORD_PUB);
    isStatic ← optional_symbol (code KEYWORD_STATIC);
    next ← peekSymbol;
    if decide (next = code KEYWORD_INIT) then
      getSymbol;;
      impl_init implScope sd structName isPublic;;
      mret (Next tt)
    else
      next ← peekSymbol;
      error_if (bool_decide (next <> code KEYWORD_FN)) impl_file 137
        "Expected 'fn', 'init', 'static fn', or a 'pub' form of one of those, in impl block";;
      impl_method implScope sd isPublic isStatic;;
      mret (Next tt).

(** ** Conformance *)

Definition isProtoWildcard (protoDef : ProtocolDefinition) (t : option Ty) : bool :=
  match t with
  | None => false
  | Some t => bool_decide (ty_name t ∈ map gp_name (p_generics protoDef))
  end.

Definition typeText (t : option Ty) : string :=
  match t with None => "void" | Some t => ty_name t end.

(** One parameter of a method against the protocol's. *)
Definition conforming_param (protoDef : ProtocolDefinition) (structName protocolName name : string)
  (i : nat) (rp ip : VariableDefinition) : parser unit :=
  if is_null rp || is_null ip then mret tt
  else if bool_decide (v_name rp = "self") || bool_decide (v_name ip = "self") then mret tt
  else
    rt ← variable_type rp;
    it ← variable_type ip;
    if isProtoWildcard protoDef rt then mret tt
    else
      match rt, it with
      | Some r, Some t =>
          error_if (bool_decide (ty_name r <> ty_name t)) impl_file 233
            ("method '" +:+ name +:+ "' of struct '" +:+ structName +:+ "': parameter " +:+ pretty i +:+
             " is '" +:+ typeText it +:+ "' but protocol '" +:+ protocolName +:+ "' requires '" +:+
             typeText rt +:+ "'")
      | _, _ => mret tt
      end.

Fixpoint conforming_params (protoDef : ProtocolDefinition) (structName protocolName name : string) (i : nat)
  (required implemented : list VariableDefinition) : parser unit :=
  match required, implemented with
  | rp :: required, ip :: implemented =>
      conforming_param protoDef structName protocolName name i rp ip;;
      conforming_params protoDef structName protocolName name (S i) required implemented
  | _, _ => mret tt
  end.

(** One required method. *)
Definition conforming_method (protoDef : ProtocolDefinition) (structName protocolName : string)
  (methods : list FunctionDefinition) (req : FunctionDefinition) : parser unit :=
  let name := f_name req in
  m ← or_error (List.find (fun impl => bool_decide (f_name impl = name)) methods) impl_file 207
    ("Struct '" +:+ structName +:+ "' does not implement method '" +:+ name +:+ "' required by protocol '" +:+
     protocolName +:+ "'");
  error_if (bool_decide (length (f_params m) <> length (f_params req))) impl_file 213
    ("method '" +:+ name +:+ "' of struct '" +:+ structName +:+ "' takes " +:+ pretty (length (f_params m)) +:+
     " parameter(s) but protocol '" +:+ protocolName +:+ "' requires " +:+ pretty (length (f_params req)));;
  conforming_params protoDef structName protocolName name 0 (f_params req) (f_params m);;
  let rn := typeText (f_return req) in
  let inn := typeText (f_return m) in
  error_if (negb (isProtoWildcard protoDef (f_return req)) && bool_decide (rn <> inn)) impl_file 246
    ("method '" +:+ name +:+ "' of struct '" +:+ structName +:+ "' returns '" +:+ inn +:+ "' but protocol '" +:+
     protocolName +:+ "' requires '" +:+ rn +:+ "'").

Definition check_conforms (scope : nat) (sd : StructDefinition) (structName protocolName : string) : parser unit :=
  sym ← find_symbol scope protocolName;
  match as_protocol sym with
  | None => parser_undefined
  | Some protoDef =>
      now ← current_struct sd;
      parser_each (conforming_method protoDef structName protocolName (s_methods now)) (p_methods protoDef);;
      write_object (SymStruct (addConformedProtocol protocolName now))
  end.

Definition ParseImplBlock (scope : nat) : parser unit :=
  expect (code KEYWORD_IMPL) impl_file 21 "Internal Compiler Error";;
  names ← impl_names;
  let '(structName, protocolName) := names in
  sd ← impl_struct scope structName;
  check_protocol_name scope protocolName;;
  expect (chr "{") impl_file 90 "Expected '{' in impl block";;
  implScope ← new_scope kScope_Class scope;
  parser_loop fuel (impl_member implScope sd structName) tt;;
  assert_close;;
  if decide (protocolName = "") then mret tt else check_conforms scope sd structName protocolName.
End declarations.
