(* ===== verification/ParseModule.v ===== *)
(** The parser of a module ([Module::Parse] of [src/QModule.cpp]): the
    declarations one by one, each with recovery from its errors, and then the
    bodies of the top-level functions. *)

From S2P Require Import Prelude SourceLocation Lexer Tokens Diagnostics Ast Scope ParserBase ParseTypes ParseExpressions ParseStatements ParseDeclarations.

Section module.
Variable rec : parsers.
Variable fuel : nat.

Notation module_file := "QModule.cpp".

(** * Recovery *)

Definition isTopLevelStarter (sym : Z) : bool :=
  bool_decide (sym ∈ map code [KEYWORD_IMPORT; KEYWORD_PUB; KEYWORD_TABLE; KEYWORD_STRUCT; KEYWORD_PROTOCOL;
    KEYWORD_IMPL; KEYWORD_ENUM; KEYWORD_TEST; KEYWORD_ON; KEYWORD_FN; KEYWORD_ASYNC; TYPE_MODIFIER; AT_SIGN]).

(** One pass of [resyncTopLevel]; the braces that are open, and whether it is
    the first pass. *)
Definition resync_top_pass (st : Z * bool) : parser (loop_step (Z * bool) unit) :=
  let '(depth, first) := st in
  eof ← lexer_isEOF;
  if eof : bool then mret (Break tt)
  else
    p ← peekSymbol;
    if decide (p = (-1)%Z) then mret (Break tt)
    else if negb first && bool_decide (depth = 0%Z) && isTopLevelStarter p then mret (Break tt)
    else
      sym ← getSymbol;
      let depth :=
        if decide (sym = chr "{") then (depth + 1)%Z
        else if bool_decide (sym = chr "}") && bool_decide (0 < depth)%Z then (depth - 1)%Z
        else depth in
      mret (Next (depth, false)).

Definition resyncTopLevel : parser unit := parser_loop fuel resync_top_pass (0%Z, true).

(** * Imports *)

(** The rest of a dotted module name. *)
Definition dotted_pass (moduleName : string) : parser (loop_step string string) :=
  next ← peekSymbol;
  if decide (next = chr ".") then
    getSymbol;;
    name ← expect_name module_file 160 "Expected module name after '.'";
    mret (Next (moduleName +:+ "." +:+ name))
  else mret (Break moduleName).

(** [as y], or the empty alias. *)
Definition import_alias : parser string :=
  next ← peekSymbol;
  if decide (next = code SYMBOL) then
    savedPos ← getCurrentPos;
    getSymbol;;
    text ← getSymbolText;
    if decide (text = "as") then
      alias ← expect_name module_file 179 "Expected an alias name after 'as'";
      error_if (contains "." alias) module_file 182 "an import alias must be a single name";;
      mret alias
    else setCurrentPos savedPos;; mret ""
  else mret "".

Definition push_import (imp : ImportStatement) : parser unit :=
  change_module (fun m => mkModule (mFunctionList m) (mStructList m) (mEnumList m) (mProtocolList m)
    (mImports m ++ [imp]) (mTestBlocks m) (mIsExtern m) (mDefiningFile m) (mBodies m)).

(** What an import makes known in the scope; an unknown module is allowed. *)
Definition bind_import (scope : nat) (moduleName alias : string) : parser unit :=
  let localQ := if decide (alias = "") then moduleName else alias in
  ns ← find_namespace scope moduleName;
  match ns with
  | None => mret tt
  | Some ns =>
      change (with_heap (addImportedModule localQ scope));;
      (if decide (alias = "") then mret tt
       else
         change (with_heap (addNamespace localQ ns scope));;
         change (with_heap (addModuleAlias localQ moduleName scope)));;
      change (with_heap (fun h =>
        match h !! ns with
        | Some src =>
            if mGrantsNameCapability src then update (importTypeNamesFrom src localQ) scope h else h
        | None => h
        end))
  end.

Definition import_statement (scope : nat) : parser unit :=
  importLoc ← getTokenLocation;
  getSymbol;;
  name ← expect_name module_file 150 "Expected module name after 'import'";
  moduleName ← parser_loop fuel dotted_pass name;
  alias ← import_alias;
  expect (chr ";") module_file 191 "Expected ';' after import statement";;
  push_import (mkImport moduleName alias importLoc);;
  bind_import scope moduleName alias.

(** * Annotations *)

(** One argument of an annotation. *)
Definition annotation_arg (l : list string) : parser (loop_step (list string) (list string)) :=
  next ← peekSymbol;
  if decide (next = chr ")") then mret (Break l)
  else
    argSym ← getSymbol;
    text ← getSymbolText;
    if bool_decide (argSym = code CONSTANT_STRING) || bool_decide (argSym = code SYMBOL) then
      next ← peekSymbol;
      (if decide (next = chr ",") then getSymbol;; mret tt else mret tt);;
      mret (Next (l ++ [text]))
    else COMPILE_ERROR module_file 270 "Expected string or identifier in annotation argument".

(** One annotation, [@name] or [@name( ... )]; then the symbol after them. *)
Definition annotation (st : list AnnotationNode * Z) :
  parser (loop_step (list AnnotationNode * Z) (list AnnotationNode * Z)) :=
  let '(l, nextSym) := st in
  if decide (nextSym = code AT_SIGN) then
    getSymbol;;
    name ← expect_name module_file 252 "Expected annotation name after '@'";
    next ← peekSymbol;
    args ← (if decide (next = chr "(") then
              getSymbol;;
              args ← parser_loop fuel annotation_arg [];
              getSymbol;;
              mret args
            else mret []);
    next ← peekSymbol;
    mret (Next (l ++ [mkAnnotation name args], next))
  else mret (Break (l, nextSym)).

(** * Declarations *)

Definition push_struct (sd : StructDefinition) : parser unit :=
  change_module (fun m => mkModule (mFunctionList m) (mStructList m ++ [sd]) (mEnumList m) (mProtocolList m)
    (mImports m) (mTestBlocks m) (mIsExtern m) (mDefiningFile m) (mBodies m)).
Definition push_enum (e : EnumDefinition) : parser unit :=
  change_module (fun m => mkModule (mFunctionList m) (mStructList m) (mEnumList m ++ [e]) (mProtocolList m)
    (mImports m) (mTestBlocks m) (mIsExtern m) (mDefiningFile m) (mBodies m)).
Definition push_protocol (p : ProtocolDefinition) : parser unit :=
  change_module (fun m => mkModule (mFunctionList m) (mStructList m) (mEnumList m) (mProtocolList m ++ [p])
    (mImports m) (mTestBlocks m) (mIsExtern m) (mDefiningFile m) (mBodies m)).
Definition push_test (t : TestBlock) : parser unit :=
  change_module (fun m => mkModule (mFunctionList m) (mStructList m) (mEnumList m) (mProtocolList m)
    (mImports m) (mTestBlocks m ++ [t]) (mIsExtern m) (mDefiningFile m) (mBodies m)).
Definition push_function (f : FunctionDefinition) : parser unit :=
  change_module (fun m => mkModule (mFunctionList m ++ [f]) (mStructList m) (mEnumList m) (mProtocolList m)
    (mImports m) (mTestBlocks m) (mIsExtern m) (mDefiningFile m) (mBodies m)).
Definition push_deferred (d : deferred_body) : parser unit :=
  change (with_declared (fun dc => mkDeclared (dc_module dc) (dc_deferred dc ++ [d]) (dc_objects dc))).

(** The first annotation of a name decides. *)
Definition has_annotation (name : string) (l : list AnnotationNode) : bool :=
  existsb (fun ann => bool_decide (ann_name ann = name)) l.

(** The functions a [@json] struct gets from code generation. *)
Definition json_functions (scope : nat) (sd : StructDefinition) : parser unit :=
  let t := Type_ (s_name sd) [] in
  selfv ← new_variable t "self" no_location false kOwnership_Value;
  toJson ← new_function (s_name sd +:+ "_to_json") no_location (Some (Type_ "string" [])) [selfv]
             true false false false;
  add_symbol scope (SymFunction toJson);;
  input ← new_variable (Type_ "string" []) "input" no_location false kOwnership_Value;
  fromJson ← new_function (s_name sd +:+ "_from_json") no_location (Some t) [input] true false false false;
  add_symbol scope (SymFunction fromJson).

Definition declare_struct (scope : nat) (isPublic isTable : bool) (line : Z) (annotations : list AnnotationNode) :
  parser unit :=
  structDef ← StructDefinition_Parse rec fuel scope isPublic;
  let structDef := setAnnotations_struct (setIsTable structDef isTable) annotations in
  write_object (SymStruct structDef);;
  push_struct structDef;;
  if has_annotation "json" annotations then
    error_if (bool_decide (s_generics structDef <> [])) module_file line
      ("@json is not yet supported on generic struct '" +:+ s_name structDef +:+ "' (requires monomorphization)");;
    json_functions scope structDef
  else mret tt.

(** [@format] is for variadic functions whose first parameter is a string. *)
Definition check_format (func : FunctionDefinition) (annotations : list AnnotationNode) : parser unit :=
  if has_annotation "format" annotations then
    match f_params func with
    | [] => COMPILE_ERROR module_file 446 "@format requires first parameter to be type 'string'"
    | p :: _ =>
        t ← variable_type p;
        match t with
        | None => parser_undefined
        | Some t => error_if (bool_decide (ty_name t <> "string")) module_file 446
                      "@format requires first parameter to be type 'string'"
        end
    end;;
    error_if (negb (f_variadic func)) module_file 448 "@format requires function to be variadic (...)"
  else mret tt.

Definition declare_function (scope : nat) (isPublic : bool) (nextSym : Z) (annotations : list AnnotationNode) :
  parser unit :=
  isExtern ← (if decide (nextSym = code TYPE_MODIFIER) then
                getSymbol;;
                modText ← getSymbolText;
                error_if (bool_decide (modText <> "extern")) module_file 418
                  ("Unexpected modifier '" +:+ modText +:+ "' at top level");;
                mret true
              else mret false);
  next ← peekSymbol;
  error_if (bool_decide (next <> code KEYWORD_FN) && bool_decide (next <> code KEYWORD_ASYNC)) module_file 423
    "Expected 'fn' or 'async fn' for function declaration";;
  r ← FunctionDefinition_Parse rec fuel scope isExtern isPublic true;
  let '(def, func_scope, pos) := r in
  let def := setAnnotations_function def annotations in
  write_object (SymFunction def);;
  match pos with Some pos => push_deferred (mkDeferred def func_scope pos) | None => mret tt end;;
  check_format def annotations;;
  push_function def.

(** One declaration, whose first symbol is known. *)
Definition declaration (scope : nat) (nextSym : Z) : parser unit :=
  if decide (nextSym = code KEYWORD_IMPORT) then import_statement scope
  else
    r ← parser_loop fuel annotation ([], nextSym);
    let '(annotations, nextSym) := r in
    isPublic ← (if decide (nextSym = code KEYWORD_PUB) then getSymbol;; mret true else mret false);
    nextSym ← (if isPublic : bool then peekSymbol else mret nextSym);
    if decide (nextSym = code KEYWORD_TABLE) then
      getSymbol;;
      nextSym ← peekSymbol;
      error_if (bool_decide (nextSym <> code KEYWORD_STRUCT)) module_file 298 "Expected 'struct' after 'table'";;
      declare_struct scope isPublic true 313 annotations
    else if decide (nextSym = code KEYWORD_STRUCT) then declare_struct scope isPublic false 346 annotations
    else if decide (nextSym = code KEYWORD_PROTOCOL) then
      p ← ProtocolDefinition_Parse rec fuel scope isPublic; push_protocol p
    else if decide (nextSym = code KEYWORD_IMPL) then ParseImplBlock rec fuel scope
    else if decide (nextSym = code KEYWORD_ENUM) then
      e ← EnumDefinition_Parse rec fuel scope isPublic;
      let e := setAnnotations_enum annotations e in
      write_object (SymEnum e);;
      push_enum e
    else if decide (nextSym = code KEYWORD_TEST) then t ← TestBlock_Parse rec scope; push_test t
    else if decide (nextSym = code KEYWORD_ON) then EventHandler_Parse rec scope;; mret tt
    else declare_function scope isPublic nextSym annotations.

(** * Modules *)

(** One declaration, or the recovery from its error. *)
Definition module_pass (scope : nat) (_ : unit) : parser (loop_step unit unit) :=
  eof ← lexer_isEOF;
  if eof : bool then mret (Break tt)
  else
    nextSym ← peekSymbol;
    if decide (nextSym = (-1)%Z) then mret (Break tt)
    else
      try_catch (declaration scope nextSym) (fun err => report_parse_error err;; resyncTopLevel);;
      mret (Next tt).

(** [FunctionDefinition::ParseDeferredBody]. *)
Definition ParseDeferredBody (d : deferred_body) : parser unit :=
  setCurrentPos (db_pos d);;
  b ← rec_Block rec (db_scope d);
  change_module (fun m => mkModule (mFunctionList m) (mStructList m) (mEnumList m) (mProtocolList m) (mImports m)
    (mTestBlocks m) (mIsExtern m) (mDefiningFile m)
    (alter (fun body => mkBody (mRequiresClauses body) (mEnsuresClauses body) (Some b)) (fid (db_function d)) (mBodies m))).

Definition deferred_body_pass (d : deferred_body) : parser unit :=
  try_catch (ParseDeferredBody d) report_parse_error.

Definition begin_module : parser unit :=
  change (with_declared (fun d => mkDeclared Module_new [] (dc_objects d))).

(** The body of the last function comes first: no body moves the places of those
    that are still to come. *)
Definition body_order (l : list deferred_body) : list deferred_body := reverse l.

(** The declarations; and the bodies that are left, as they will be parsed. *)
Definition read_declarations (scope : nat) : parser (list deferred_body) :=
  begin_module;;
  parser_loop fuel (module_pass scope) tt;;
  observe (fun s => body_order (dc_deferred (ps_declared s))).

Definition Module_Parse (scope : nat) : parser unit :=
  deferred ← read_declarations scope;
  parser_each deferred_body_pass deferred.
End module.
