(* ===== verification/Frontend.v ===== *)
(** The front end put together: the global scope
    ([createGlobalScope], [src/QModule.cpp]), the resolver's scopes
    ([src/Resolver.cpp]), and the compilation of one document
    ([src/lsp/Compile.cpp]): scan, parse, stamp, analyze. *)

From S2P Require Import Prelude SourceLocation Lexer Tokens LexerStream Diagnostics Ast Scope SemaTypes Sema SemaExpr SemaWalk SemaModule ParserBase ParseTypes ParseExpressions ParseStatements ParseDeclarations ParseModule.

(** * What pointers point to in the end

    A node of the tree holds a copy of the definition it points to; [sealed_...]
    replaces the copies by what the definitions are at the end. *)

Section sealing.
Variable objects : gmap nat Symbol.

Definition sealed_struct (sd : StructDefinition) : StructDefinition :=
  match objects !! s_id sd with Some (SymStruct d) => d | _ => sd end.
Definition sealed_function (f : FunctionDefinition) : FunctionDefinition :=
  match objects !! fid f with Some (SymFunction d) => d | _ => f end.
Definition sealed_enum (e : EnumDefinition) : EnumDefinition :=
  match objects !! e_id e with Some (SymEnum d) => d | _ => e end.

Fixpoint seal_expr (e : Expr) : Expr :=
  match e with
  | ConstInteger _ _ | ConstFloat _ _ | ConstString _ _ | ConstChar _ _ | VariableExpression _ _
  | QueryFieldExpression _ _ => e
  | StringInterpolation n l => StringInterpolation n (map seal_expr l)
  | CallExpression n f ts l => CallExpression n (option_map sealed_function f) ts (map seal_expr l)
  | IndirectCallExpression n v l => IndirectCallExpression n v (map seal_expr l)
  | QueryExpression n t l => QueryExpression n t (map seal_step l)
  | UpdateExpression n t l => UpdateExpression n t (map seal_step l)
  | DeleteExpression n t l => DeleteExpression n t (map seal_step l)
  | InsertExpression n t fs l => InsertExpression n t fs (map seal_expr l)
  | FieldAccessExpression n a f => FieldAccessExpression n (seal_expr a) f
  | MethodCallExpression n a m l => MethodCallExpression n (seal_expr a) m (map seal_expr l)
  | IndexExpression n a b => IndexExpression n (seal_expr a) (seal_expr b)
  | OperationsExpression n o a b => OperationsExpression n o (seal_expr a) (seal_expr b)
  | UnaryExpression n o a => UnaryExpression n o (seal_expr a)
  | AssignmentExpression n o v a => AssignmentExpression n o v (seal_expr a)
  | FieldAssignmentExpression n o a f b => FieldAssignmentExpression n o (seal_expr a) f (seal_expr b)
  | IndexAssignmentExpression n o a b c => IndexAssignmentExpression n o (seal_expr a) (seal_expr b) (seal_expr c)
  | ArrayLiteralExpression n l => ArrayLiteralExpression n (map seal_expr l)
  | RangeExpression n a b => RangeExpression n (seal_expr a) (seal_expr b)
  | StructLiteralExpression n t ts fs l => StructLiteralExpression n t ts fs (map seal_expr l)
  | ConstructExpression n sd ts l => ConstructExpression n (option_map sealed_struct sd) ts (map seal_expr l)
  | EnumConstructExpression n ed i l => EnumConstructExpression n (option_map sealed_enum ed) i (map seal_expr l)
  | TryExpression n a => TryExpression n (seal_expr a)
  | AwaitExpression n a => AwaitExpression n (seal_expr a)
  | PipelineExpression n a b => PipelineExpression n (seal_expr a) (seal_expr b)
  | FunctionRefExpression n f => FunctionRefExpression n (option_map sealed_function f)
  | MatchExpression n a l m => MatchExpression n (seal_expr a) (map seal_arm l) m
  | LambdaExpression n r ps b => LambdaExpression n r ps (option_map seal_block b)
  | SpawnStatement n b => SpawnStatement n (option_map seal_block b)
  end
with seal_step (s : QueryPipelineStep) : QueryPipelineStep :=
  match s with
  | mkStep t e j fs => mkStep t (option_map seal_expr e) j (map (fun p => (p.1, seal_expr p.2)) fs)
  end
with seal_arm (a : MatchArm) : MatchArm :=
  match a with
  | mkArm p bs b v s w q => mkArm p bs (option_map seal_block b) (option_map seal_expr v) s w q
  end
with seal_block (b : Block) : Block :=
  match b with mkBlock n s l => mkBlock n s (map seal_stmt l) end
with seal_stmt (s : Stmt) : Stmt :=
  match s with
  | SExpression e => SExpression (seal_expr e)
  | SBlock b => SBlock (seal_block b)
  | ReturnStatement n e => ReturnStatement n (option_map seal_expr e)
  | IfStatement n e a b => IfStatement n (seal_expr e) (option_map seal_stmt a) (option_map seal_stmt b)
  | WhileStatement n e a => WhileStatement n (seal_expr e) (option_map seal_stmt a)
  | ForStatement n a b c d =>
      ForStatement n (option_map seal_expr a) (option_map seal_expr b) (option_map seal_expr c) (option_map seal_stmt d)
  | ForInStatement n v w e a i => ForInStatement n v w (option_map seal_expr e) (option_map seal_stmt a) i
  | VariableDeclaration n l => VariableDeclaration n (map seal_decl l)
  | AssertStatement n e m => AssertStatement n (seal_expr e) m
  | WaitStatement n e => WaitStatement n (seal_expr e)
  | WaitAllStatement _ | BreakStatement _ | ContinueStatement _ => s
  | EventHandler n e b => EventHandler n (seal_expr e) (option_map seal_block b)
  end
with seal_decl (d : DeclData) : DeclData :=
  match d with mkDecl v e => mkDecl v (option_map seal_expr e) end.

Definition seal_body (b : FunctionBody) : FunctionBody :=
  mkBody (map seal_expr (mRequiresClauses b)) (map seal_expr (mEnsuresClauses b))
    (option_map seal_block (mFuncBody b)).

Definition seal_module (m : Module_) : Module_ :=
  mkModule (map sealed_function (mFunctionList m)) (map sealed_struct (mStructList m))
    (map sealed_enum (mEnumList m)) (mProtocolList m) (mImports m)
    (map (fun t => mkTestBlock (test_name t) (test_location t) (seal_block (test_body t))) (mTestBlocks m))
    (mIsExtern m) (mDefiningFile m) (seal_body <$> mBodies m).
End sealing.

(** The module as its pointers show it. *)
Definition the_module (s : pstate) : Module_ :=
  seal_module (dc_objects (ps_declared s)) (dc_module (ps_declared s)).

(** * Calls of functions with null parameters

    [Sema] asks for the type of each parameter of a function that is called with
    the right number of arguments, and a null parameter has none to give. *)

Section anywhere.
Variable p : Expr -> bool.

Definition any_opt {A} (f : A -> bool) (o : option A) : bool := match o with Some a => f a | None => false end.

Fixpoint any_expr (e : Expr) : bool :=
  p e ||
  match e with
  | ConstInteger _ _ | ConstFloat _ _ | ConstString _ _ | ConstChar _ _ | VariableExpression _ _
  | QueryFieldExpression _ _ | FunctionRefExpression _ _ => false
  | StringInterpolation _ l | CallExpression _ _ _ l | IndirectCallExpression _ _ l | InsertExpression _ _ _ l
  | ArrayLiteralExpression _ l | StructLiteralExpression _ _ _ _ l | ConstructExpression _ _ _ l
  | EnumConstructExpression _ _ _ l => existsb any_expr l
  | QueryExpression _ _ l | UpdateExpression _ _ l | DeleteExpression _ _ l => existsb any_step l
  | FieldAccessExpression _ a _ | UnaryExpression _ _ a | AssignmentExpression _ _ _ a | TryExpression _ a
  | AwaitExpression _ a => any_expr a
  | MethodCallExpression _ a _ l => any_expr a || existsb any_expr l
  | IndexExpression _ a b | OperationsExpression _ _ a b | FieldAssignmentExpression _ _ a _ b
  | RangeExpression _ a b | PipelineExpression _ a b => any_expr a || any_expr b
  | IndexAssignmentExpression _ _ a b c => any_expr a || any_expr b || any_expr c
  | MatchExpression _ a l _ => any_expr a || existsb any_arm l
  | LambdaExpression _ _ _ b | SpawnStatement _ b => any_opt any_block b
  end
with any_step (s : QueryPipelineStep) : bool :=
  match s with mkStep _ e _ fs => any_opt any_expr e || existsb (fun kv => any_expr kv.2) fs end
with any_arm (a : MatchArm) : bool :=
  match a with mkArm _ _ b v _ _ _ => any_opt any_block b || any_opt any_expr v end
with any_block (b : Block) : bool := match b with mkBlock _ _ l => existsb any_stmt l end
with any_stmt (s : Stmt) : bool :=
  match s with
  | SExpression e | AssertStatement _ e _ | WaitStatement _ e => any_expr e
  | SBlock b => any_block b
  | ReturnStatement _ e => any_opt any_expr e
  | IfStatement _ e a b => any_expr e || any_opt any_stmt a || any_opt any_stmt b
  | WhileStatement _ e a => any_expr e || any_opt any_stmt a
  | ForStatement _ a b c d => any_opt any_expr a || any_opt any_expr b || any_opt any_expr c || any_opt any_stmt d
  | ForInStatement _ _ _ e a _ => any_opt any_expr e || any_opt any_stmt a
  | VariableDeclaration _ l => existsb any_decl l
  | WaitAllStatement _ | BreakStatement _ | ContinueStatement _ => false
  | EventHandler _ e b => any_expr e || any_opt any_block b
  end
with any_decl (d : DeclData) : bool := match d with mkDecl _ e => any_opt any_expr e end.

Definition any_body (b : FunctionBody) : bool :=
  existsb any_expr (mRequiresClauses b) || existsb any_expr (mEnsuresClauses b) || any_opt any_block (mFuncBody b).
End anywhere.

(** [callee->getParamType( i )] with a null parameter. *)
Definition null_dereference (e : Expr) : bool :=
  match e with
  | CallExpression _ (Some f) _ args =>
      negb (f_variadic f || isGeneric_function f || f_builtin f || f_extern f) &&
      bool_decide (length args = length (f_params f)) && existsb is_null (f_params f)
  | _ => false
  end.

(** A call that no visit reaches is counted, too. *)
Definition calls_null (m : Module_) : bool :=
  existsb (fun kv : nat * FunctionBody => any_body null_dereference kv.2) (map_to_list (mBodies m)).

(** * The global scope *)

(** [new Scope( kScope_Global )]. *)
Definition new_global_scope : parser nat := fun s =>
  let id := ps_next_scope s in
  Done (Returns id,
    mkParser (ps_stream s) (<[id := Scope_new kScope_Global]> (ps_heap s)) (S id)
      (ps_next_node s) (ps_next_def s) (ps_types s) (ps_diag s) (ps_declared s)).

(** [FunctionDefinition::CreateBuiltin]. *)
Definition CreateBuiltin (name : string) (returnType : Ty) (params : list VariableDefinition) (isVariadic : bool) :
  parser FunctionDefinition :=
  id ← new_id;
  mret (mkFunction id name no_location (Some returnType) params false isVariadic false false true false false [] []).

Definition builtin_variable (type name : string) : parser VariableDefinition :=
  new_variable (Type_ type []) name no_location false kOwnership_Value.

Definition builtin_printer (global : nat) (name : string) : parser unit :=
  fmt ← builtin_variable "string" "fmt";
  f ← CreateBuiltin name (Type_ "void" []) [fmt] true;
  add_symbol global (SymFunction f).

Definition createGlobalScope : parser nat :=
  global ← new_global_scope;
  parser_each (fun name => add_type global (Type_ name []))
    ["int"; "char"; "string"; "bool"; "float"; "double"; "long"; "short"; "byte"; "Task"; "Array"];;
  builtin_printer global "print";;
  builtin_printer global "println";;
  to_json ← CreateBuiltin "to_json" (Type_ "string" []) [] true;
  add_symbol global (SymFunction to_json);;
  self ← builtin_variable "self" "self";
  toStr ← CreateBuiltin "to_string" (Type_ "string" []) [self] false;
  id ← new_id;
  add_symbol global (SymProtocol (CreateBuiltin_protocol id "Printable" [toStr]));;
  add_type global (Type_ "Option" []);;
  id ← new_id;
  add_symbol global (SymEnum (CreateBuiltinOption id));;
  add_type global (Type_ "Result" []);;
  id ← new_id;
  add_symbol global (SymEnum (CreateBuiltinResult id));;
  mret global.

(** [Resolver::newModuleScope] with the global scope as its parent. *)
Definition newModuleScope (global : nat) : parser nat := new_scope kScope_Module global.

(** ** The resolver

    It owns the global scope, which [gScope] leads to as long as it lives, and knows
    modules by name. [gScope] is a variable of the process; a module may be registered
    as a null pointer. *)

Record Resolver := mkResolver {
  mGlobalScope : nat;
  mPrevGScope : option nat;
  rs_namespaces : gmap string (option nat)
}.

(** The constructor: a resolver, and what [gScope] is then. *)
Definition Resolver_new (gScope : option nat) : parser (Resolver * option nat) :=
  global ← createGlobalScope;
  mret (mkResolver global gScope ∅, Some global).

(** The destructor: what [gScope] is then. *)
Definition Resolver_delete (r : Resolver) : option nat := mPrevGScope r.

Definition Resolver_newModuleScope (r : Resolver) (parent : option nat) : parser nat :=
  newModuleScope (default (mGlobalScope r) parent).

Definition registerNamespace (r : Resolver) (name : string) (ns : option nat) : Resolver :=
  mkResolver (mGlobalScope r) (mPrevGScope r) (<[name := ns]> (rs_namespaces r)).

Definition resolveNamespace (r : Resolver) (name : string) : option nat :=
  match rs_namespaces r !! name with Some ns => ns | None => None end.

(** * Origins *)

(** [s.substr( s.rfind( c ) + 1 )], and the part before the last [c]; a string
    without [c] stays. *)
Definition after_last (c : ascii) (s : string) : string :=
  match list_find (fun d => d = c) (reverse (chars s)) with
  | Some (i, _) => str (reverse (take i (reverse (chars s))))
  | None => s
  end.
Definition before_last (c : ascii) (s : string) : string :=
  match list_find (fun d => d = c) (reverse (chars s)) with
  | Some (i, _) => str (reverse (drop (S i) (reverse (chars s))))
  | None => s
  end.

Definition origin_of (path : string) : string := before_last "." (after_last "/" path).

(** A struct that has no defining file yet gets the origin. *)
Definition stamp_struct (origin : string) (sd : StructDefinition) : parser unit :=
  now ← current_struct sd;
  if decide (s_defining_file now = "") then write_object (SymStruct (setDefiningFile_struct now origin)) else mret tt.

Definition stampDefiningOrigin (path : string) : parser unit :=
  let origin := origin_of path in
  change_module (fun m => mkModule (mFunctionList m) (mStructList m) (mEnumList m) (mProtocolList m) (mImports m)
    (mTestBlocks m) (mIsExtern m) (if decide (mDefiningFile m = "") then origin else mDefiningFile m) (mBodies m));;
  structs ← observe (fun s => mStructList (dc_module (ps_declared s)));
  parser_each (stamp_struct origin) structs.

(** * One document *)

(** Parse and stamp a document; the scope of the file. *)
Definition parse_document (depth : nat) (path : string) : parser nat :=
  global ← createGlobalScope;
  fileScope ← newModuleScope global;
  Module_Parse (parsers_at depth) depth fileScope;;
  stampDefiningOrigin path;;
  mret fileScope.

(** Before anything is parsed; definitions are numbered from 1. *)
Definition document_state (st : stream) : pstate := initial st ∅ 0 1 ∅ DiagnosticEngine_new.

Record CompileResult := mkCompiled {
  cr_module : Module_;
  cr_scope : nat;
  cr_heap : heap;
  cr_verdict : bool;
  cr_diagnostics : list Diagnostic;
  cr_sema : Sema
}.

(** A document that calls a function with a null parameter is given no result.
    [address] is where the variables a task captures lie in memory. *)
Definition compileDocument (depth : nat) (address : nat -> N) (path text : string) : outcome CompileResult :=
  match document_stream path text with
  | None => OutOfFuel
  | Some st =>
      match parse_document depth path (document_state st) with
      | Done (Returns fileScope, s) =>
          let m := the_module s in
          if calls_null m then UndefinedBehaviour
          else
            let '(verdict, sema) := analyze (ps_heap s) address m fileScope (ps_diag s) (ps_types s) in
            Done (mkCompiled m fileScope (ps_heap s) verdict (mDiags (mDiag sema)) sema)
      | Done (Throws _, _) | UndefinedBehaviour => UndefinedBehaviour
      | OutOfFuel => OutOfFuel
      end
  end.

Definition reports (r : outcome CompileResult) : option (list (Z * string)) :=
  match r with Done c => Some (map (fun d => (loc_line (Diagnostics.location d), message d)) (cr_diagnostics c)) | _ => None end.

(** * The resolver *)

Lemma resolveNamespace_registered r name ns name' :
  resolveNamespace (registerNamespace r name ns) name' = if decide (name = name') then ns else resolveNamespace r name'.
Proof.
  unfold resolveNamespace, registerNamespace. cbn [rs_namespaces]. destruct (decide (name = name')) as [->|Hne].
  - by rewrite lookup_insert_eq.
  - by rewrite lookup_insert_ne.
Qed.
