(* ===== verification/ParserLogic.v ===== *)
(** The logic for the parser's termination: how much of the token stream is
    left, that a run only moves the cursor forward or back to a mark, and the
    rules that count what each step consumes. *)

From S2P Require Import Prelude SourceLocation Lexer Tokens Diagnostics Ast Scope ParserBase.

(** * What is left of a stream *)

(** A [SHIFT] counts for the two tokens it may become. *)
Definition weight (t : SymbolInfo) : nat := if decide (symbol t = code SHIFT) then 2 else 1.
Definition weights (l : list SymbolInfo) : nat := sum_list_with weight l.

(** The weight of the tokens from a position, or from the cursor. *)
Definition rest_at (s : stream) (p : nat) : nat := weights (drop p (st_tokens s)).
Definition rest (s : pstate) : nat := rest_at (ps_stream s) (st_cursor (ps_stream s)).

Definition symbol_at (s : stream) (p : nat) : Z := symbol (token_at s p).
Definition upcoming (s : pstate) : Z := symbol_at (ps_stream s) (st_cursor (ps_stream s)).

(** What reading a symbol consumes. *)
Definition real (z : Z) : nat := if decide (z = (-1)%Z) then 0 else 1.

Lemma weights_app l k : weights (l ++ k) = weights l + weights k.
Proof. apply sum_list_with_app. Qed.

Lemma weight_pos t : 1 <= weight t.
Proof. unfold weight. case_decide; lia. Qed.

(** [b] is reached from [a]: the cursor is not before [a]'s, and what stands
    up to [a]'s cursor is there, a [">>"] at it perhaps split. *)
Record forward (a b : stream) : Prop := {
  forward_cursor : st_cursor a <= st_cursor b;
  forward_rest : forall p, p <= st_cursor a -> rest_at b p = rest_at a p;
  forward_take : forall p, p <= st_cursor a -> take p (st_tokens b) = take p (st_tokens a);
  forward_symbol : forall p, p <= st_cursor a ->
    symbol_at b p = symbol_at a p \/ (symbol_at a p = code SHIFT /\ symbol_at b p = chr ">")
}.

#[export] Instance forward_preorder : PreOrder forward.
Proof.
  split.
  - intros a. split; auto.
  - intros a b c [c1 r1 t1 s1] [c2 r2 t2 s2].
    assert (forall p, p <= st_cursor a -> p <= st_cursor b) as Hle by (intros; lia).
    split; [lia| | |].
    + intros p Hp. rewrite r2, r1; auto.
    + intros p Hp. rewrite t2, t1; auto.
    + intros p Hp. destruct (s1 p Hp) as [H1|[H1 H1']]; destruct (s2 p (Hle p Hp)) as [H2|[H2 H2']].
      * left. congruence.
      * right. split; congruence.
      * right. split; congruence.
      * rewrite H1' in H2. discriminate H2.
Qed.

Lemma rest_at_token s p t : st_tokens s !! p = Some t -> rest_at s p = weight t + rest_at s (S p).
Proof. intros H. unfold rest_at. by rewrite (drop_S _ _ _ H). Qed.

Lemma rest_at_end s p : length (st_tokens s) <= p -> rest_at s p = 0.
Proof. intros H. unfold rest_at. by rewrite drop_ge by done. Qed.

Lemma rest_at_le s p q : p <= q -> rest_at s q <= rest_at s p.
Proof.
  intros H. unfold rest_at. replace q with (p + (q - p)) by lia. rewrite <-drop_drop.
  set (l := drop p (st_tokens s)). pose proof (weights_app (take (q - p) l) (drop (q - p) l)) as E.
  rewrite take_drop in E. lia.
Qed.

(** The weight that is left tells positions of real tokens apart. *)
Lemma rest_at_lt s p q : p < q -> p < length (st_tokens s) -> rest_at s q < rest_at s p.
Proof.
  intros H Hp. destruct (lookup_lt_is_Some_2 _ _ Hp) as [t Ht].
  rewrite (rest_at_token _ _ _ Ht). pose proof (weight_pos t). pose proof (rest_at_le s (S p) q). lia.
Qed.

Lemma rest_at_next s p : rest_at s (S p) + real (symbol_at s p) <= rest_at s p \/ st_tokens s !! p = None.
Proof.
  destruct (st_tokens s !! p) as [t|] eqn:Ht; [left|by right].
  rewrite (rest_at_token _ _ _ Ht). pose proof (weight_pos t). unfold real. case_decide; lia.
Qed.

(** A stream whose end is the end-of-file symbol, which is never cached. *)
Definition stream_ok (s : stream) : Prop :=
  (symbol (st_end s) = (-1)%Z /\ symbol (st_eof s) = (-1)%Z) /\ (st_peeked s = true -> symbol_at s (st_cursor s) <> (-1)%Z).

Lemma symbol_at_end s p : stream_ok s -> length (st_tokens s) <= p -> symbol_at s p = (-1)%Z.
Proof.
  intros [[Hd He] _] Hp. unfold symbol_at, token_at. rewrite lookup_ge_None_2 by done. cbn. by case_decide.
Qed.

Lemma symbol_at_token s p t : st_tokens s !! p = Some t -> symbol_at s p = symbol t.
Proof. intros H. unfold symbol_at, token_at. by rewrite H. Qed.

Lemma symbol_at_fmap s p z : symbol <$> st_tokens s !! p = Some z -> symbol_at s p = z.
Proof. unfold symbol_at, token_at. destruct (_ !! p); [by intros [= <-]|done]. Qed.

Lemma rest_at_get s p : stream_ok s -> rest_at s (S p) + real (symbol_at s p) <= rest_at s p.
Proof.
  intros Ho. destruct (rest_at_next s p) as [H|H]; [done|]. apply lookup_ge_None in H.
  rewrite (symbol_at_end s p Ho H), (rest_at_end s (S p)), (rest_at_end s p) by lia. done.
Qed.

(** ** The operations *)

Ltac same_stream := split; cbn; intros; auto; lia.

Lemma forward_peek s : forward s (stream_peek s).2.
Proof. unfold stream_peek. destruct (st_peeked s); [done|]. same_stream. Qed.

Lemma ok_peek s : stream_ok s -> stream_ok (stream_peek s).2.
Proof.
  intros [He Hp]. unfold stream_peek. destruct (st_peeked s) eqn:E; [split; cbn; auto|].
  split; [done|]. cbn. intros H. by apply bool_decide_eq_true in H.
Qed.

Lemma cursor_peek s : st_cursor (stream_peek s).2 = st_cursor s.
Proof. unfold stream_peek. by destruct (st_peeked s). Qed.

Lemma forward_get s : forward s (stream_get s).2.
Proof. same_stream. Qed.

Lemma ok_get s : stream_ok s -> stream_ok (stream_get s).2.
Proof. intros [He Hp]. by split. Qed.

Lemma tokens_peek s : st_tokens (stream_peek s).2 = st_tokens s.
Proof. unfold stream_peek. by destruct (st_peeked s). Qed.

(** Going back to a mark. *)
Lemma forward_back a b : forward a b -> forward a (stream_set_pos (st_cursor a) b).
Proof. intros []. by split. Qed.

Lemma ok_back p s : stream_ok s -> stream_ok (stream_set_pos p s).
Proof. intros [He Hp]. by split. Qed.

Lemma forward_split s : stream_ok s -> forward s (stream_split s).
Proof.
  intros Hok.
  etrans; [apply forward_peek|]. unfold stream_split. set (s1 := (stream_peek s).2).
  destruct (_ || _) eqn:E; [done|].
  apply orb_false_iff in E as [E _]. apply bool_decide_eq_false, dec_stable in E.
  set (c := st_cursor s1) in *.
  destruct (st_tokens s1 !! c) as [t|] eqn:Ht.
  - change (symbol_at s1 c = code SHIFT) in E. rewrite (symbol_at_token _ _ _ Ht) in E.
    assert (c < length (st_tokens s1)) as Hlt by eauto using lookup_lt_Some.
    assert (Hlen : length (take c (st_tokens s1)) = c) by (rewrite length_take; lia).
    assert (Hl : st_tokens s1 = take c (st_tokens s1) ++ t :: drop (S c) (st_tokens s1))
      by (by rewrite take_drop_middle).
    set (l := take c (st_tokens s1)) in *. set (k := drop (S c) (st_tokens s1)) in *.
    split; cbn; fold c; [done| | |].
    + intros p Hp. unfold rest_at. cbn. rewrite Hl, !drop_app, Hlen.
      rewrite !weights_app. f_equal. replace (p - c) with 0 by lia.
      cbn [drop weights sum_list_with]. replace (weight t) with 2 by (unfold weight; by rewrite decide_True).
      unfold weights. cbn. done.
    + intros p Hp. rewrite Hl, !take_app_le by lia. done.
    + intros p Hp. destruct (decide (p = c)) as [->|Hne].
      * right. split; [by rewrite (symbol_at_token _ _ _ Ht)|].
        apply symbol_at_fmap. cbn. by rewrite lookup_app_r, Hlen, Nat.sub_diag by lia.
      * left. destruct (lookup_lt_is_Some_2 l p) as [t' Ht']; [lia|].
        erewrite !symbol_at_token; [reflexivity|..]; cbn; rewrite ?Hl; by apply lookup_app_l_Some.
  - exfalso. change (symbol_at s1 c = code SHIFT) in E. apply lookup_ge_None in Ht.
    rewrite symbol_at_end in E; [discriminate E|by apply ok_peek|done].
Qed.

Lemma ok_split s : stream_ok s -> stream_ok (stream_split s).
Proof.
  intros H. unfold stream_split. destruct (_ || _); [by apply ok_peek|].
  destruct (ok_peek s H) as [He _]. by split.
Qed.

(** After a look at the next symbol, the end of the text is recognised. *)
Lemma isEOF_at_end s :
  stream_ok s -> symbol_at s (st_cursor s) = (-1)%Z ->
  st_cursor s < st_scanned s \/ length (st_tokens s) < st_scanned s -> stream_isEOF s = true.
Proof.
  intros [He Hp] Hz Hs. unfold stream_isEOF. destruct (st_peeked s) eqn:E; [by destruct Hp|].
  case_bool_decide; [by apply bool_decide_eq_true|].
  destruct Hs; [done|]. by rewrite bool_decide_true.
Qed.

Lemma peeked_isEOF s : stream_ok s -> symbol_at s (st_cursor s) = (-1)%Z -> stream_isEOF (stream_peek s).2 = true.
Proof.
  intros H Hz. apply isEOF_at_end; [by apply ok_peek| |].
  - rewrite cursor_peek. unfold symbol_at, token_at, stream_peek. by destruct (st_peeked s).
  - rewrite cursor_peek. left. unfold stream_peek. destruct (st_peeked s) eqn:E; cbn; [|lia].
    destruct H as [_ Hp]. by destruct Hp.
Qed.

(** * Scopes without clashes *)

(** No imported module has the name of a struct: [name_primary] reads
    [name.member] as the module's and then looks the name up again. *)
Definition clash_free (h : heap) : Prop :=
  forall i j s t name, h !! i = Some s -> h !! j = Some t -> name ∈ mImportedModules s ->
    as_struct (mSymbolList t !! name) = None.

Lemma climb_some {A} fuel (f : nat -> Scope -> option A) h id a :
  climb fuel f h id = Some a -> exists i s, h !! i = Some s /\ f i s = Some a.
Proof.
  revert id. induction fuel as [|fuel IH]; intros id H; [done|]. cbn in H.
  destruct (h !! id) as [s|] eqn:Hs; [|done].
  destruct (f id s) eqn:Hf; [simplify_eq; eauto|].
  destruct (mParent s); [eauto|done].
Qed.

(** A change of a scope that adds no imports, no namespaces and no structs, and
    loses no symbols. *)
Record calm (s s' : Scope) : Prop := {
  calm_imports : mImportedModules s' = mImportedModules s;
  calm_namespaces : mNamespaceMap s' = mNamespaceMap s;
  calm_parent : mParent s' = mParent s;
  calm_structs : forall name, as_struct (mSymbolList s !! name) = None -> as_struct (mSymbolList s' !! name) = None;
  calm_symbols : forall name sym, mSymbolList s !! name = Some sym ->
    exists sym', mSymbolList s' !! name = Some sym' /\ same_object sym sym' = true
}.

Lemma same_object_refl a : same_object a a = true.
Proof. destruct a; cbn; by rewrite bool_decide_true. Qed.

Lemma same_object_trans a b c : same_object a b = true -> same_object b c = true -> same_object a c = true.
Proof.
  destruct a, b; try done; destruct c; try done; cbn; intros ->%bool_decide_eq_true ->%bool_decide_eq_true;
    by rewrite bool_decide_true.
Qed.

#[export] Instance calm_preorder : PreOrder calm.
Proof.
  split.
  - intros s. split; try done. intros name sym H. exists sym. by rewrite same_object_refl.
  - intros a b c [i1 n1 p1 s1 k1] [i2 n2 p2 s2 k2]. split; [by rewrite i2|by rewrite n2|by rewrite p2|auto|].
    intros name sym H. destruct (k1 _ _ H) as (x & Hx & E). destruct (k2 _ _ Hx) as (y & Hy & E').
    exists y. split; [done|by eapply same_object_trans].
Qed.

(** Nothing named so is a struct. *)
Definition structless (h : heap) (name : string) : Prop :=
  forall i s, h !! i = Some s -> as_struct (mSymbolList s !! name) = None.

(** All imported modules, and all namespaces, have such names. *)
Definition imports_in (Q : string -> Prop) (h : heap) : Prop :=
  forall i s name, h !! i = Some s -> name ∈ mImportedModules s -> Q name.
Definition namespaces_in (Q : string -> Prop) (h : heap) : Prop :=
  forall i s name, h !! i = Some s -> is_Some (mNamespaceMap s !! name) -> Q name.

(** Each scope of [h'] is a calm change of one of [h], or holds nothing. *)
Definition calm_heap (h h' : heap) : Prop :=
  forall i s', h' !! i = Some s' ->
    (exists s, h !! i = Some s /\ calm s s') \/
    (mImportedModules s' = ∅ /\ mNamespaceMap s' = ∅ /\ mSymbolList s' = ∅).

(** Each scope of [h] is in [h'], calmly changed. *)
Definition keeps (h h' : heap) : Prop := forall i s, h !! i = Some s -> exists s', h' !! i = Some s' /\ calm s s'.

(** The same scopes, calmly changed. *)
Definition steady (h h' : heap) : Prop := forall i, option_Forall2 calm (h !! i) (h' !! i).

#[export] Instance keeps_preorder : PreOrder keeps.
Proof.
  split; [by intros h i s H; exists s|]. intros a b c Hab Hbc i s H.
  destruct (Hab _ _ H) as (x & Hx & ?). destruct (Hbc _ _ Hx) as (y & Hy & ?). exists y. split; [done|by etrans].
Qed.

#[export] Instance steady_refl : Reflexive steady.
Proof. intros h i. by destruct (h !! i); constructor. Qed.

Lemma steady_calm h h' : steady h h' -> calm_heap h h'.
Proof. intros Hs i s' Hi. left. specialize (Hs i). rewrite Hi in Hs. inv Hs. eauto. Qed.

Lemma steady_keeps h h' : steady h h' -> keeps h h'.
Proof. intros Hs i s Hi. specialize (Hs i). rewrite Hi in Hs. inv Hs. eauto. Qed.

Lemma steady_none h h' i : steady h h' -> h !! i = None -> h' !! i = None.
Proof. intros Hs Hi. specialize (Hs i). rewrite Hi in Hs. by inv Hs. Qed.

Lemma calm_structless h h' name : calm_heap h h' -> structless h name -> structless h' name.
Proof. intros Hh Hs i s' Hi. destruct (Hh _ _ Hi) as [(s & ? & [])|(_ & _ & ->)]; eauto. Qed.

Lemma calm_imports_in Q h h' : calm_heap h h' -> imports_in Q h -> imports_in Q h'.
Proof.
  intros Hh Hs i s' name Hi Hn. destruct (Hh _ _ Hi) as [(s & ? & [E])|(E & _)]; rewrite E in Hn; [eauto|set_solver].
Qed.

Lemma calm_namespaces_in Q h h' : calm_heap h h' -> namespaces_in Q h -> namespaces_in Q h'.
Proof.
  intros Hh Hs i s' name Hi Hn. destruct (Hh _ _ Hi) as [(s & ? & [_ E])|(_ & E & _)]; rewrite E in Hn; [eauto|].
  rewrite lookup_empty in Hn. by destruct Hn.
Qed.

(** Clash-freeness, by the names of the modules. *)
Lemma clash_free_apart h :
  clash_free h <-> exists Q : string -> Prop, imports_in Q h /\ forall name, Q name -> structless h name.
Proof.
  split.
  - intros Hc. exists (fun name => exists i s, h !! i = Some s /\ name ∈ mImportedModules s).
    split; [intros i s name Hi Hn; eauto|]. intros name (i & s & Hi & Hn) j t Hj. exact (Hc _ _ _ _ _ Hi Hj Hn).
  - intros (Q & HQ & Hs) i j s t name Hi Hj Hn. exact (Hs name (HQ _ _ _ Hi Hn) _ _ Hj).
Qed.

Lemma calm_clash_free h h' : calm_heap h h' -> clash_free h -> clash_free h'.
Proof.
  intros Hh (Q & HQ & Hs)%clash_free_apart. apply clash_free_apart. exists Q.
  split; [by eapply calm_imports_in|]. intros name Hn. eapply calm_structless; eauto.
Qed.

#[export] Instance calm_heap_refl : Reflexive calm_heap.
Proof. intros h i s Hi. left. by exists s. Qed.

Lemma steady_insert h i s s' : h !! i = Some s -> calm s s' -> steady h (<[i := s']> h).
Proof.
  intros Hi Hs j. destruct (decide (j = i)) as [->|].
  - rewrite lookup_insert_eq, Hi. by constructor.
  - rewrite lookup_insert_ne by done. apply steady_refl.
Qed.

Lemma steady_alter h i (f : Scope -> Scope) : (forall s, calm s (f s)) -> steady h (update f i h).
Proof.
  intros Hf j. unfold update. rewrite lookup_alter. case_decide; [|apply steady_refl].
  subst. destruct (h !! _); [by constructor|constructor].
Qed.

Ltac calm_fields := split; try done; cbn; intros ? ? H; eexists; (split; [exact H|apply same_object_refl]).

Ltac steadily := first [done | apply steady_refl].

Lemma steady_mark_module h name scope : steady h (markModuleUsed name scope h).
Proof.
  unfold markModuleUsed. destruct (importing_scope h scope name); [|steadily]. apply steady_alter. intros s. calm_fields.
Qed.

Lemma steady_mark_type h name scope : steady h (markTypeUsed name scope h).
Proof.
  unfold markTypeUsed. destruct (ascend _ h scope) as [[i owner]|]; [apply steady_mark_module|steadily].
Qed.

Lemma steady_add_type h t scope : steady h (addType t scope h).
Proof. apply steady_alter. intros s. calm_fields. Qed.

Lemma steady_symbol h scope sym : as_struct (Some sym) = None -> steady h (addSymbol sym scope h).2.
Proof.
  intros Hn. unfold addSymbol. destruct (h !! scope) as [s|] eqn:Hs; [|steadily].
  destruct (mSymbolList s !! _) eqn:Hl; [steadily|]. cbn. apply (steady_insert _ _ s); [done|].
  split; try done; cbn; intros name.
  - intros Hs'. destruct (decide (name = symbol_name sym)) as [->|].
    + by rewrite lookup_insert_eq.
    + by rewrite lookup_insert_ne by done.
  - intros o Ho. exists o. split; [|apply same_object_refl]. rewrite lookup_insert_ne by congruence. done.
Qed.

(** An object stays what it was when it is written. *)
Lemma steady_refresh h sym : steady h (refresh sym <$> h).
Proof.
  intros i. rewrite lookup_fmap. destruct (h !! i) as [s|]; [|constructor]. constructor.
  split; try done; cbn; intros name.
  - rewrite lookup_fmap. destruct (mSymbolList s !! name) as [o|]; [|done]. cbn.
    destruct (same_object o sym) eqn:E; [|done]. by destruct o, sym.
  - intros o Ho. rewrite lookup_fmap, Ho. cbn. destruct (same_object o sym) eqn:E; [by exists sym|].
    exists o. by rewrite same_object_refl.
Qed.

Lemma calm_new h i type parent : calm_heap h (setParent parent i (<[i := Scope_new type]> h)).
Proof.
  intros j x. unfold setParent, update. rewrite lookup_alter. case_decide.
  - subst. rewrite lookup_insert_eq. intros [= <-]. by right.
  - rewrite lookup_insert_ne by done. apply calm_heap_refl.
Qed.

Lemma keeps_new h i type parent : h !! i = None -> keeps h (setParent parent i (<[i := Scope_new type]> h)).
Proof.
  intros Hi j s Hj. exists s. split; [|done]. unfold setParent, update.
  rewrite lookup_alter_ne, lookup_insert_ne by congruence. done.
Qed.

Lemma imported_structless h scope name :
  clash_free h -> isModuleImported h scope name = true -> structless h name.
Proof.
  intros Hc Hi j t Ht. apply bool_decide_eq_true in Hi as [i Hi].
  apply climb_some in Hi as (i' & s & Hs & Hn). case_decide; [|done]. eauto.
Qed.

Lemma structless_lookup h scope name : structless h name -> as_struct (findSymbol h scope name) = None.
Proof.
  intros Hs. destruct (findSymbol h scope name) as [sym|] eqn:Hf; [|done].
  apply climb_some in Hf as (j & t & Ht & <-). eauto.
Qed.

(** * Runs *)

Definition ok (s : pstate) : Prop := stream_ok (ps_stream s) /\ clash_free (ps_heap s).

(** Scopes are numbered from where the heap ends. *)
Definition fresh (s : pstate) : Prop := forall i, ps_next_scope s <= i -> ps_heap s !! i = None.

(** What only a module's loop adds to, and what only its driver sets. *)
Definition outer (s : pstate) : list deferred_body * bool :=
  (dc_deferred (ps_declared s), mIsExtern (dc_module (ps_declared s))).

Record reached (s s' : pstate) : Prop := {
  reached_stream : forward (ps_stream s) (ps_stream s');
  reached_heap : forall name, structless (ps_heap s) name -> structless (ps_heap s') name;
  reached_imports : forall Q, imports_in Q (ps_heap s) -> imports_in Q (ps_heap s');
  reached_namespaces : forall Q, namespaces_in Q (ps_heap s) -> namespaces_in Q (ps_heap s');
  reached_keeps : fresh s -> fresh s' /\ keeps (ps_heap s) (ps_heap s');
  reached_outer : outer s' = outer s
}.

#[export] Instance reached_preorder : PreOrder reached.
Proof.
  split; [by split|]. intros a b c [] []. split; [by etrans|auto..| |congruence].
  intros Hf. destruct reached_keeps0 as [Hb ?]; [done|]. destruct reached_keeps1 as [Hc ?]; [done|].
  split; [done|by etrans].
Qed.

Lemma reached_deferred s s' : reached s s' -> dc_deferred (ps_declared s') = dc_deferred (ps_declared s).
Proof. intros H. pose proof (reached_outer _ _ H) as E. by injection E. Qed.

Lemma reached_extern s s' : reached s s' -> mIsExtern (dc_module (ps_declared s')) = mIsExtern (dc_module (ps_declared s)).
Proof. intros H. pose proof (reached_outer _ _ H) as E. by injection E. Qed.

Lemma reached_rest s s' : reached s s' -> rest s' <= rest s.
Proof.
  intros [[Hc Hr _ _]]. unfold rest.
  rewrite <-(Hr (st_cursor (ps_stream s))) by done. by apply rest_at_le.
Qed.

Lemma upcoming_end s : ok s -> length (st_tokens (ps_stream s)) <= st_cursor (ps_stream s) -> upcoming s = (-1)%Z.
Proof.
  intros [Ho _] Hl. by apply symbol_at_end.
Qed.

Lemma reached_cursor s s' :
  reached s s' -> rest s' < rest s -> st_cursor (ps_stream s) < st_cursor (ps_stream s').
Proof.
  intros [[Hc Hr _ _]] Hlt. destruct (decide (st_cursor (ps_stream s) = st_cursor (ps_stream s'))) as [E|]; [|lia].
  unfold rest in Hlt. rewrite <-E, Hr in Hlt by done. lia.
Qed.

(** While nothing is consumed, no closing brace comes up. *)
Lemma stuck_upcoming s s' :
  reached s s' -> ok s' -> rest s' = rest s -> upcoming s <> chr "}" -> upcoming s' <> chr "}".
Proof.
  intros [Hw] Ho Hr Hu. set (c := st_cursor (ps_stream s)).
  assert (rest_at (ps_stream s') c = rest s') as Hc by (rewrite Hr; by apply (forward_rest _ _ Hw)).
  pose proof (forward_cursor _ _ Hw) as Hle. fold c in Hle. unfold rest in Hc.
  destruct (decide (length (st_tokens (ps_stream s')) <= c)) as [Hl|Hl].
  - rewrite upcoming_end; [discriminate|done|lia].
  - assert (st_cursor (ps_stream s') = c) as Heq.
    { destruct (decide (c < st_cursor (ps_stream s'))) as [Hlt|]; [|lia].
      assert (c < length (st_tokens (ps_stream s'))) as Hl' by lia.
      pose proof (rest_at_lt _ _ _ Hlt Hl'). lia. }
    unfold upcoming. rewrite Heq. destruct (forward_symbol _ _ Hw c ltac:(done)) as [->|[_ ->]]; [done|discriminate].
Qed.

(** The run returns or throws, or the program has no meaning; it does not run
    on. *)
Definition ends {A} (m : parser A) (s : pstate) (Q : presult A -> pstate -> Prop) : Prop :=
  match m s with Done (r, s') => Q r s' | UndefinedBehaviour => True | OutOfFuel => False end.

Lemma ends_mono {A} (m : parser A) s (P Q : presult A -> pstate -> Prop) :
  ends m s P -> (forall r s', P r s' -> Q r s') -> ends m s Q.
Proof. unfold ends. destruct (m s) as [[r s']| |]; auto. Qed.

Lemma ends_bind {A B} (m : parser A) (f : A -> parser B) s Q :
  ends m s (fun r s' => match r with Returns a => ends (f a) s' Q | Throws e => Q (Throws e) s' end) ->
  ends (m ≫= f) s Q.
Proof. unfold ends, mbind, parser_bind. by destruct (m s) as [[[a|e] s']| |]. Qed.

Lemma ends_try {A} (m : parser A) k s Q :
  ends m s (fun r s' => match r with Returns a => Q (Returns a) s' | Throws e => ends (k e) s' Q end) ->
  ends (try_catch m k) s Q.
Proof. unfold ends, try_catch. by destruct (m s) as [[[a|e] s']| |]. Qed.

Lemma ends_change {B} (g : pstate -> pstate) (f : unit -> parser B) s Q : ends (f tt) (g s) Q -> ends (change g ≫= f) s Q.
Proof. done. Qed.

Lemma ends_observe {A B} (g : pstate -> A) (f : A -> parser B) s Q : ends (f (g s)) s Q -> ends (observe g ≫= f) s Q.
Proof. done. Qed.

(** The loop rule: an invariant and a measure that every pass that goes on makes
    smaller. *)
Lemma ends_loop {B A} (body : B -> parser (loop_step B A)) (I : B -> pstate -> Prop) (measure : B -> pstate -> nat)
  (Q : presult A -> pstate -> Prop) :
  (forall b s, I b s -> ends (body b) s (fun r s' => match r with
     | Returns (Next b') => I b' s' /\ measure b' s' < measure b s
     | Returns (Break a) => Q (Returns a) s'
     | Throws e => Q (Throws e) s'
     end)) ->
  forall fuel b s, I b s -> measure b s < fuel -> ends (parser_loop fuel body b) s Q.
Proof.
  intros Hbody. induction fuel as [|fuel IH]; intros b s HI Hm; [lia|]. cbn [parser_loop].
  apply ends_bind. eapply ends_mono; [by apply Hbody|].
  intros [[b'|a]|e] s'; [|done..]. intros [HI' Hlt]. apply IH; [done|lia].
Qed.

(** What a run that started at [s0] has done: it consumed [d a] when it
    returned [a]. *)
Definition within {A} (s0 : pstate) (d : A -> nat) (r : presult A) (s' : pstate) : Prop :=
  reached s0 s' /\ ok s' /\ match r with Returns a => rest s' + d a <= rest s0 | Throws _ => True end.

Definition known (nx : option Z) (z : Z) : Prop := match nx with Some y => z = y | None => True end.

(** From [s0] on, [c] consumed so far and the next symbol perhaps known, [m]
    ends with [d] consumed. *)
Definition from {A} (s0 : pstate) (c : nat) (nx : option Z) (m : parser A) (d : A -> nat) : Prop :=
  forall s, reached s0 s -> ok s -> rest s + c <= rest s0 -> known nx (upcoming s) -> ends m s (within s0 d).

(** What [m] does wherever at most [b] is left. *)
Definition spec {A} (b : nat) (nx : option Z) (m : parser A) (d : A -> nat) : Prop :=
  forall s0, rest s0 <= b -> from s0 0 nx m d.

(** [m] leaves the cursor and the next symbol as they are. *)
Definition still {A} (m : parser A) : Prop :=
  forall s, ok s -> exists a s', m s = Done (Returns a, s') /\ reached s s' /\ ok s' /\
    rest s' = rest s /\ upcoming s' = upcoming s.

Section rules.
Context {A : Type} (s0 : pstate) (c : nat) (nx : option Z).

Lemma from_ret (a : A) d : d a <= c -> from s0 c nx (mret a) d.
Proof. intros Hd s Hs Ho Hc _. split; [done|]. split; [done|lia]. Qed.

Lemma from_throw (err : CompileError) (d : A -> nat) : from s0 c nx (throw err) d.
Proof. intros s Hs Ho Hc _. by split. Qed.

Lemma from_undefined (d : A -> nat) : from s0 c nx parser_undefined d.
Proof. by intros s. Qed.

Lemma from_count (m : parser A) d : (c <= rest s0 -> from s0 c nx m d) -> from s0 c nx m d.
Proof. intros H s Hs Ho Hc Hn. apply H; [lia|done..]. Qed.

Lemma from_weaken (m : parser A) c' nx' d :
  from s0 c' nx' m d -> c' <= c -> (nx' = None \/ nx' = nx) -> from s0 c nx m d.
Proof. intros H Hle Hx s Hs Ho Hc Hn. apply H; [done..|lia|]. by destruct Hx as [-> | ->]. Qed.

Lemma from_mono (m : parser A) d d' : from s0 c nx m d -> (forall a, d' a <= d a) -> from s0 c nx m d'.
Proof.
  intros H Hd s Hs Ho Hc Hn. eapply ends_mono; [by apply H|].
  intros [a|e] s' (? & ? & Hr); split; [done| |done|done]. split; [done|]. specialize (Hd a). lia.
Qed.

Lemma from_spec b (m : parser A) d d' :
  spec b nx m d -> rest s0 <= b + c -> (forall a, d' a <= c + d a) -> from s0 c nx m d'.
Proof.
  intros H Hb Hd s Hs Ho Hc Hn.
  eapply ends_mono; [apply (H s); [lia|done|done|lia|done]|].
  intros [a|e] s' (Hs' & ? & Hr); (split; [by etrans|split; [done|]]); [|done]. specialize (Hd a). lia.
Qed.

Lemma from_bind {B} (m : parser B) (f : B -> parser A) d1 d :
  from s0 c nx m d1 -> (forall a, from s0 (d1 a) None (f a) d) -> from s0 c nx (m ≫= f) d.
Proof.
  intros Hm Hf s Hs Ho Hc Hn. apply ends_bind. eapply ends_mono; [by apply Hm|].
  intros [a|e] s' (Hs' & Ho' & Hr); [|by split]. by apply Hf.
Qed.

Lemma from_still {B} (m : parser B) (f : B -> parser A) d :
  still m -> (forall a, from s0 c nx (f a) d) -> from s0 c nx (m ≫= f) d.
Proof.
  intros Hm Hf s Hs Ho Hc Hn. apply ends_bind. destruct (Hm s Ho) as (a & s' & E & Hs' & Ho' & Hr & Hu).
  unfold ends. rewrite E. apply Hf; [by etrans|done|lia|by rewrite Hu].
Qed.

Lemma from_try (m : parser A) k d :
  from s0 c nx m d -> (forall e, from s0 0 None (k e) d) -> from s0 c nx (try_catch m k) d.
Proof.
  intros Hm Hk s Hs Ho Hc Hn. specialize (Hm s Hs Ho Hc Hn). unfold ends, try_catch in *.
  destruct (m s) as [[[a|e] s']| |]; try done. destruct Hm as (Hs' & Ho' & _).
  apply Hk; try done. rewrite Nat.add_0_r. by apply reached_rest.
Qed.

(** A pass may go on without consuming when the pass before it consumed for
    both. *)
Lemma from_loop_credit {B} (credit : B -> nat) fuel (body : B -> parser (loop_step B A)) b d :
  (forall b c', c <= c' -> from s0 c' None (body b)
     (fun r => match r with Next b' => c' + 1 + credit b' - credit b | Break a => d a end)) ->
  (forall b, credit b <= 1) ->
  rest s0 + credit b < fuel + c -> from s0 c nx (parser_loop fuel body b) d.
Proof.
  intros Hbody Hcredit Hf s Hs Ho Hc _.
  apply (ends_loop body (fun _ s => reached s0 s /\ ok s /\ rest s + c <= rest s0)
           (fun b s => rest s + credit b)); [|done|lia].
  clear -Hbody Hcredit. intros b s (Hs & Ho & Hc).
  pose proof (Hbody b (rest s0 - rest s) ltac:(lia) s Hs Ho ltac:(pose proof (reached_rest _ _ Hs); lia) I) as H.
  pose proof (Hcredit b). eapply ends_mono; [exact H|].
  intros [[b'|a]|e] s' (Hs' & Ho' & Hr); [|by split|by split]. 
  split; [split; [done|split; [done|lia]]|lia].
Qed.

Lemma from_loop {B} fuel (body : B -> parser (loop_step B A)) b d :
  (forall b c', c <= c' ->
     from s0 c' None (body b) (fun r => match r with Next _ => S c' | Break a => d a end)) ->
  rest s0 < fuel + c -> from s0 c nx (parser_loop fuel body b) d.
Proof.
  intros Hbody Hf. apply (from_loop_credit (fun _ => 0)); [|lia|lia].
  intros b' c' Hc. intros s Hs Ho Hr Hn. eapply ends_mono; [by apply (Hbody b' c')|].
  intros [[b2|a]|e] s' (? & ? & ?); (split; [done|split; [done|]]); lia || done.
Qed.
(** A loop that consumes nothing, over a value that gets smaller; a count that
    cannot be reached says that it does. *)
Lemma from_loop_size {B} (size : B -> nat) fuel (body : B -> parser (loop_step B A)) b d :
  (forall b, from s0 c None (body b) (fun r => match r with
     | Next b' => if decide (size b' < size b) then c else S (rest s0)
     | Break a => d a
     end)) ->
  size b < fuel -> from s0 c nx (parser_loop fuel body b) d.
Proof.
  intros Hbody Hf s Hs Ho Hc _.
  apply (ends_loop body (fun _ s => reached s0 s /\ ok s /\ rest s + c <= rest s0) (fun b _ => size b));
    [|done|lia].
  clear -Hbody. intros b s (Hs & Ho & Hc).
  eapply ends_mono; [by apply (Hbody b s)|]. intros [[b'|a]|e] s' (Hs' & Ho' & Hr); [|by split|by split].
  case_decide; [|lia]. split; [by split|lia].
Qed.
End rules.

(** * The operations *)

(** ** Those that leave the cursor alone *)

Lemma still_observe {A} (f : pstate -> A) : still (observe f).
Proof. intros s Ho. by exists (f s), s. Qed.

(** What leaves the scopes alone. *)
Lemma reached_same s s' :
  forward (ps_stream s) (ps_stream s') -> ps_heap s' = ps_heap s -> ps_next_scope s' = ps_next_scope s ->
  outer s' = outer s -> reached s s'.
Proof. intros Hf Hh Hn Hd. split; rewrite ?Hh; auto. unfold fresh. rewrite Hn, Hh. done. Qed.

Lemma reached_with_stream s0 s f :
  reached s0 s -> forward (ps_stream s0) (f (ps_stream s)) -> reached s0 (with_stream f s).
Proof. intros [] Hf. by split. Qed.

Lemma still_run s s' :
  ps_stream s' = ps_stream s -> reached s s' -> clash_free (ps_heap s') -> ok s ->
  reached s s' /\ ok s' /\ rest s' = rest s /\ upcoming s' = upcoming s.
Proof. intros Hs Hr Hc [Ho Hh]. unfold rest, upcoming, ok. rewrite Hs. by split; [|split]. Qed.

Lemma still_change s s' :
  ps_stream s' = ps_stream s -> steady (ps_heap s) (ps_heap s') -> ps_next_scope s' = ps_next_scope s ->
  outer s' = outer s -> ok s ->
  reached s s' /\ ok s' /\ rest s' = rest s /\ upcoming s' = upcoming s.
Proof.
  intros Hs Hh Hn Hd Ho. pose proof (steady_calm _ _ Hh) as Hc. apply still_run; [done| |by eapply calm_clash_free, Ho|done].
  split; [by rewrite Hs|intros name; by apply calm_structless|intros Q; by apply calm_imports_in|
    intros Q; by apply calm_namespaces_in| |done].
  intros Hf. split; [|by apply steady_keeps]. intros i Hi. rewrite Hn in Hi. eapply steady_none; [done|by apply Hf].
Qed.

Lemma still_heap (f : heap -> heap) : (forall h, steady h (f h)) -> still (change (with_heap f)).
Proof. intros Hf s Ho. eexists _, _. split; [done|]. by apply still_change. Qed.

Lemma still_new_scope type parent : still (new_scope type parent).
Proof.
  intros s Ho. eexists _, _. split; [done|]. pose proof (calm_new (ps_heap s) (ps_next_scope s) type parent) as Hc.
  apply still_run; [done| |by eapply calm_clash_free, Ho|done].
  split; cbn; [done|intros name; by apply calm_structless|intros Q; by apply calm_imports_in|
    intros Q; by apply calm_namespaces_in| |done].
  intros Hf. split; [|apply keeps_new, Hf; lia]. intros i Hi. cbn in *.
  unfold setParent, update. rewrite lookup_alter_ne, lookup_insert_ne by lia. apply Hf. lia.
Qed.

(** What changes neither the stream nor the scopes. *)
Lemma still_same {A} (m : parser A) :
  (forall s, exists a s', m s = Done (Returns a, s') /\ ps_stream s' = ps_stream s /\ ps_heap s' = ps_heap s /\
     ps_next_scope s' = ps_next_scope s /\ outer s' = outer s) -> still m.
Proof.
  intros H s Ho. destruct (H s) as (a & s' & E & Hs & Hh & Hn & Hd). exists a, s'. split; [done|].
  apply still_change; [done|by rewrite Hh|done..].
Qed.

Lemma still_new_node loc : still (new_node loc).
Proof. apply still_same. intros s. by eexists _, _. Qed.

Lemma still_new_variable t name loc cst own : still (new_variable t name loc cst own).
Proof. apply still_same. intros s. by eexists _, _. Qed.

Lemma still_new_id : still new_id.
Proof. apply still_same. intros s. by eexists _, _. Qed.

Lemma still_declared f :
  (forall d, dc_deferred (f d) = dc_deferred d /\ mIsExtern (dc_module (f d)) = mIsExtern (dc_module d)) ->
  still (change (with_declared f)).
Proof. intros Hf. apply still_same. intros s. eexists _, _. split; [done|]. unfold outer. cbn. by destruct (Hf (ps_declared s)) as [-> ->]. Qed.

Lemma still_change_module f : (forall m, mIsExtern (f m) = mIsExtern m) -> still (change_module f).
Proof. intros Hf. apply still_declared. intros d. split; [done|apply Hf]. Qed.

Lemma still_bind {A B} (m : parser A) (f : A -> parser B) : still m -> (forall a, still (f a)) -> still (m ≫= f).
Proof.
  intros Hm Hf s Ho. destruct (Hm s Ho) as (a & s1 & E1 & H1 & Ho1 & Hr1 & Hu1).
  destruct (Hf a s1 Ho1) as (b & s2 & E2 & H2 & Ho2 & Hr2 & Hu2). exists b, s2.
  split; [unfold mbind, parser_bind; by rewrite E1|].
  split; [by etrans|]. split; [done|]. split; congruence.
Qed.

Lemma still_write_object sym : still (write_object sym).
Proof. apply still_bind; [apply still_heap; intros h; apply steady_refresh|intros _; by apply still_declared]. Qed.

Lemma still_stream {A} (f : stream -> A * stream) :
  (forall s, stream_ok s -> forward s (f s).2 /\ stream_ok (f s).2 /\
     rest_at (f s).2 (st_cursor (f s).2) = rest_at s (st_cursor s) /\
     symbol_at (f s).2 (st_cursor (f s).2) = symbol_at s (st_cursor s)) -> still (on_stream f).
Proof.
  intros Hf s [Ho Hh]. destruct (Hf _ Ho) as (H1 & H2 & H3 & H4). unfold on_stream.
  destruct (f (ps_stream s)) as [a st]. eexists _, _. split; [done|]. by split; [apply reached_same|].
Qed.

Lemma peek_same s :
  rest_at (stream_peek s).2 (st_cursor (stream_peek s).2) = rest_at s (st_cursor s) /\
  symbol_at (stream_peek s).2 (st_cursor (stream_peek s).2) = symbol_at s (st_cursor s).
Proof. unfold stream_peek. by destruct (st_peeked s). Qed.

Lemma still_location : still getTokenLocation.
Proof.
  apply still_stream. intros s Ho. cbn.
  split; [apply forward_peek|]. split; [by apply ok_peek|]. apply peek_same.
Qed.

Lemma peek_result s : (stream_peek s).1 = symbol_at s (st_cursor s).
Proof. unfold stream_peek. by destruct (st_peeked s). Qed.

Create HintDb still.
#[export] Hint Resolve still_observe still_new_scope still_new_node still_new_variable still_location : still.
#[export] Hint Extern 2 (still _) => apply still_observe : still.
#[export] Hint Extern 1 (still (mark_module_used _ _)) => apply still_heap; intros; apply steady_mark_module : still.
#[export] Hint Extern 1 (still (mark_type_used _ _)) => apply still_heap; intros; apply steady_mark_type : still.
#[export] Hint Extern 1 (still (add_type _ _)) => apply still_heap; intros; apply steady_add_type : still.
#[export] Hint Extern 1 (still (add_symbol _ _)) => apply still_heap; intros; apply steady_symbol; reflexivity : still.
#[export] Hint Resolve still_new_id still_write_object : still.
#[export] Hint Extern 1 (still (change_module _)) => apply still_change_module; reflexivity : still.

(** ** Those that read *)

Section reading.
Context {A : Type} (s0 : pstate) (c : nat) (nx : option Z).

Lemma from_peek (f : Z -> parser A) d :
  (forall z, known nx z -> from s0 c (Some z) (f z) d) -> from s0 c nx (peekSymbol ≫= f) d.
Proof.
  intros Hf s Hs [Ho Hh] Hc Hn. apply ends_bind. unfold ends, peekSymbol, on_stream.
  pose proof (peek_result (ps_stream s)) as Hz. pose proof (forward_peek (ps_stream s)) as Hw.
  pose proof (ok_peek _ Ho) as Ho'. pose proof (peek_same (ps_stream s)) as [Hr Hu].
  destruct (stream_peek (ps_stream s)) as [z st]. cbn in *. subst z.
  apply Hf; [done|apply reached_with_stream; [done|etrans; [exact (reached_stream _ _ Hs)|done]]|by split|by unfold rest; cbn; rewrite Hr|done].
Qed.

Lemma from_get (f : Z -> parser A) d :
  (forall z, known nx z -> from s0 (c + real z) None (f z) d) -> from s0 c nx (getSymbol ≫= f) d.
Proof.
  intros Hf s Hs [Ho Hh] Hc Hn. apply ends_bind. unfold ends, getSymbol, on_stream. cbn.
  pose proof (rest_at_get _ (st_cursor (ps_stream s)) Ho) as Hg.
  pose proof (forward_get (ps_stream s)) as Hw. pose proof (ok_get _ Ho) as Ho'. cbn in Hw, Ho'.
  apply Hf; [done|apply reached_with_stream; [done|etrans; [exact (reached_stream _ _ Hs)|done]]|by split| |done].
  unfold rest, rest_at, symbol_at in *. cbn [ps_stream with_stream st_tokens st_cursor move] in *. lia.
Qed.

Lemma from_mark (f : nat -> parser A) d :
  (forall s1, rest s1 + c <= rest s0 -> known nx (upcoming s1) -> reached s0 s1 ->
     from s1 0 nx (f (st_cursor (ps_stream s1))) (fun a => d a - c)) ->
  from s0 c nx (getCurrentPos ≫= f) d.
Proof.
  intros Hf s Hs Ho Hc Hn. apply ends_bind. unfold ends, getCurrentPos, observe.
  eapply ends_mono; [apply (Hf s); [done|done|done|done|done|lia|done]|].
  intros [a|e] s' (Hs' & Ho' & Hr); (split; [by etrans|split; [done|]]); [lia|done].
Qed.

Lemma from_split (f : unit -> parser A) d :
  from s0 c None (f tt) d -> from s0 c nx (splitShiftIntoCloseAngles ≫= f) d.
Proof.
  intros Hf s Hs [Ho Hh] Hc Hn. apply ends_bind. unfold ends, splitShiftIntoCloseAngles, change.
  pose proof (forward_split _ Ho) as Hw. pose proof (ok_split _ Ho) as Ho'.
  assert (st_cursor (stream_split (ps_stream s)) = st_cursor (ps_stream s)) as Hcur.
  { unfold stream_split. destruct (_ || _); cbn; apply cursor_peek. }
  apply Hf; [apply reached_with_stream; [done|etrans; [exact (reached_stream _ _ Hs)|done]]|by split| |done].
  unfold rest in *. cbn. rewrite Hcur, (forward_rest _ _ Hw) by done. done.
Qed.

(** The look leaves a state at which the end of the text is known. *)
Lemma ends_peek (f : Z -> parser A) s Q :
  ok s ->
  (forall s', reached s s' -> ok s' -> rest s' = rest s -> upcoming s' = upcoming s ->
     (upcoming s = (-1)%Z -> stream_isEOF (ps_stream s') = true) -> ends (f (upcoming s)) s' Q) ->
  ends (peekSymbol ≫= f) s Q.
Proof.
  intros [Ho Hh] Hf. apply ends_bind. unfold ends, peekSymbol, on_stream.
  pose proof (peek_result (ps_stream s)) as Hz. pose proof (forward_peek (ps_stream s)) as Hw.
  pose proof (ok_peek _ Ho) as Ho'. pose proof (peek_same (ps_stream s)) as [Hr Hu].
  pose proof (peeked_isEOF _ Ho) as He.
  destruct (stream_peek (ps_stream s)) as [z st]. cbn in Hz, Hw, Ho', Hr, Hu, He. subst z. by apply Hf.
Qed.

(** Back to where the run started. *)
Lemma back_state s :
  let s' := with_stream (stream_set_pos (st_cursor (ps_stream s0))) s in
  reached s0 s -> ok s ->
  reached s0 s' /\ ok s' /\ rest s' = rest s0 /\ (upcoming s0 <> code SHIFT -> upcoming s' = upcoming s0).
Proof.
  intros s' Hs [Ho Hh]. pose proof (forward_back _ _ (reached_stream _ _ Hs)) as Hw.
  split; [by apply (reached_with_stream s0 s (stream_set_pos _))|]. split; [split; [by apply ok_back|done]|]. split.
  - apply (forward_rest _ _ Hw (st_cursor (ps_stream s0))). done.
  - intros Hne. destruct (forward_symbol _ _ Hw (st_cursor (ps_stream s0)) ltac:(done)) as [H|[H _]]; [done|].
    by destruct Hne.
Qed.

Lemma from_back (f : unit -> parser A) nx' d :
  (nx' = None \/ (nx' = Some (upcoming s0) /\ upcoming s0 <> code SHIFT)) ->
  from s0 0 nx' (f tt) d -> from s0 c nx (setCurrentPos (st_cursor (ps_stream s0)) ≫= f) d.
Proof.
  intros Hx Hf s Hs Ho Hc Hn. apply ends_bind. destruct (back_state s Hs Ho) as (Hs' & Ho' & Hr & Hu).
  apply Hf; [done|done|rewrite Hr; lia|]. destruct Hx as [->|[-> Hne]]; [done|by apply Hu].
Qed.

(** Back, for a new start. *)
Lemma from_restart (f : unit -> parser A) d :
  upcoming s0 <> code SHIFT ->
  (forall s, st_cursor (ps_stream s) = st_cursor (ps_stream s0) -> upcoming s = upcoming s0 ->
     rest s = rest s0 -> ok s -> ends (f tt) s (within s d)) ->
  from s0 c nx (setCurrentPos (st_cursor (ps_stream s0)) ≫= f) d.
Proof.
  intros Hne Hf s Hs Ho Hc Hn. apply ends_bind. destruct (back_state s Hs Ho) as (Hs' & Ho' & Hr & Hu).
  eapply (ends_mono (f tt)); [apply Hf; [done|by apply Hu|done|done]|].
  intros r s2 (H1 & H2 & H3). split; [by etrans|]. split; [done|]. by rewrite <-Hr.
Qed.
End reading.

(** ** What the parse functions are made of *)

Section combinators.
Context {A : Type} (s0 : pstate) (c : nat) (nx : option Z).

Lemma from_eta (m : parser A) d : from s0 c nx (m ≫= mret) d -> from s0 c nx m d.
Proof.
  intros H s Hs Ho Hc Hn. specialize (H s Hs Ho Hc Hn). unfold ends, mbind, parser_bind in H |- *.
  by destruct (m s) as [[[a|e] s']| |].
Qed.

Lemma from_error file line message (d : A -> nat) : from s0 c nx (COMPILE_ERROR file line message) d.
Proof. apply from_still; [auto with still|]. intros loc. apply from_throw. Qed.

(** What follows an error is not run. *)
Lemma from_error_bind {B} file line message (f : B -> parser A) d :
  from s0 c nx (COMPILE_ERROR file line message ≫= f) d.
Proof.
  eapply from_bind.
  - apply from_still; [auto with still|]. intros loc. apply (from_throw _ _ _ _ (fun _ => S (rest s0))).
  - intros b. apply from_count. lia.
Qed.

Lemma from_error_if b file line message (f : unit -> parser A) d :
  (b = false -> from s0 c nx (f tt) d) -> from s0 c nx (error_if b file line message ≫= f) d.
Proof.
  intros Hf. destruct b; cbn [error_if]; [apply from_error_bind|].
  intros s Hs Ho Hc Hn. by apply (Hf eq_refl s).
Qed.

Lemma from_or_error {B} (o : option B) file line message (f : B -> parser A) d :
  (forall b, o = Some b -> from s0 c nx (f b) d) -> from s0 c nx (or_error o file line message ≫= f) d.
Proof.
  intros Hf. destruct o as [b|]; cbn [or_error]; [|apply from_error_bind].
  intros s Hs Ho Hc Hn. by apply (Hf b eq_refl s).
Qed.

Lemma from_return {B} (b : B) (f : B -> parser A) d : from s0 c nx (f b) d -> from s0 c nx (mret b ≫= f) d.
Proof. intros H s. apply H. Qed.

Lemma from_assoc {B C} (m : parser B) (g : B -> parser C) (f : C -> parser A) d :
  from s0 c nx (m ≫= (fun b => g b ≫= f)) d -> from s0 c nx ((m ≫= g) ≫= f) d.
Proof.
  intros H s Hs Ho Hc Hn. specialize (H s Hs Ho Hc Hn). unfold ends, mbind, parser_bind in H |- *.
  by destruct (m s) as [[[a|e] s']| |].
Qed.

End combinators.

Section expecting.
Context {A : Type} (s0 : pstate) (c : nat) (nx : option Z).

Lemma from_expect sym file line message (f : unit -> parser A) d :
  from s0 (c + real sym) None (f tt) d -> from s0 c nx (expect sym file line message ≫= f) d.
Proof.
  intros Hf. apply from_assoc, from_get. intros z _. apply from_error_if. intros Hz.
  apply bool_decide_eq_false, dec_stable in Hz as ->. done.
Qed.

Lemma from_expect_name file line message (f : string -> parser A) d :
  (forall name, from s0 (c + 1) None (f name) d) -> from s0 c nx (expect_name file line message ≫= f) d.
Proof. intros Hf. apply from_assoc, from_expect, from_still; [auto with still|done]. Qed.

Lemma from_find_symbol scope name (f : option Symbol -> parser A) d :
  (forall sym, (structless (ps_heap s0) name -> as_struct sym = None) -> from s0 c nx (f sym) d) ->
  from s0 c nx (find_symbol scope name ≫= f) d.
Proof.
  intros Hf s Hs Ho Hc Hn. apply ends_bind. apply Hf; [|done..].
  intros Hn'. apply structless_lookup. by apply (reached_heap _ _ Hs).
Qed.
End expecting.

(** A call of what has a specification, and what follows it. *)
Lemma from_call {A B} s0 c nx nx' b (m : parser B) (f : B -> parser A) d1 d :
  spec b nx' m d1 -> (nx' = None \/ nx' = nx) -> (c <= rest s0 -> rest s0 <= b + c) ->
  (forall a, from s0 (c + d1 a) None (f a) d) -> from s0 c nx (m ≫= f) d.
Proof.
  intros Hm Hx Hb Hf. apply from_count. intros Hc. eapply from_bind; [|exact Hf].
  eapply from_weaken; [|done|exact Hx]. eapply from_spec; [exact Hm|auto|done].
Qed.

(** A result that is there stands for something consumed. *)
Definition found {A} (o : option A) : nat := match o with Some _ => 1 | None => 0 end.

(** A pass of a loop consumes something to go on. *)
Definition onward {B A} (r : loop_step B A) : nat := match r with Next _ => 1 | Break _ => 0 end.

(** Arithmetic on what is consumed; a known symbol counts. *)
Ltac reals := repeat match goal with
  | |- context [real ?z] => let v := eval vm_compute in (real z) in
      match v with O => change (real z) with v | S O => change (real z) with v end
  | H : context [real ?z] |- _ => let v := eval vm_compute in (real z) in
      match v with O => change (real z) with v in H | S O => change (real z) with v in H end
  end.
Ltac count := reals; cbn beta iota zeta delta [found onward] in *; lia.

Lemma real_close close : close <> (-1)%Z -> real close = 1.
Proof. intros H. unfold real. by rewrite decide_False. Qed.

(** Items up to a closing symbol; the symbol between two items is consumed, so
    an item need not be. *)
Lemma spec_items_until {A} b fuel (item : parser A) close file line message :
  b < fuel -> close <> (-1)%Z -> (forall b', b' <= b -> spec b' None item (fun _ => 0)) ->
  spec b None (items_until fuel item close file line message) (fun _ => 1).
Proof.
  intros Hfuel Hclose Hitem s0 Hb. apply from_loop; [|lia]. intros l c _.
  eapply from_call; [by apply (Hitem b)|by left|lia|]. intros a.
  apply from_get. intros z _. case_decide as Hz.
  - apply from_ret. subst. rewrite real_close by done. count.
  - apply from_error_if. intros Hne%bool_decide_eq_false%dec_stable. subst.
    apply from_ret. count.
Qed.

Lemma spec_items_or_none {A} b fuel (item : parser A) close file line message :
  b < fuel -> close <> (-1)%Z -> (forall b', b' <= b -> spec b' None item (fun _ => 0)) ->
  spec b None (items_or_none fuel item close file line message) (fun _ => 1).
Proof.
  intros Hfuel Hclose Hitem s0 Hb. apply from_peek. intros z _. case_decide as Hz.
  - apply from_get. intros y Hy. cbn in Hy. apply from_ret. subst.
    unfold real. rewrite decide_False by done. lia.
  - eapply from_weaken; [|done|by left]. apply from_spec with (b := b) (d := fun _ => 1); [|lia|done].
    by apply spec_items_until.
Qed.
