(* ===== verification/ParserTotal.v ===== *)
(** What each parse function consumes: each lemma counts one function, over the
    counts of the functions of the next smaller depth. *)

From S2P Require Import Prelude SourceLocation Lexer Tokens Diagnostics Ast Scope ParserBase ParserLogic ParseTypes ParseExpressions ParseStatements.

Lemma from_run {A B} s0 c nx nx' (m : parser B) (f : B -> parser A) d1 d :
  (c <= rest s0 -> spec (rest s0 - c) nx' m d1) -> (nx' = None \/ nx' = nx) ->
  (forall a, from s0 (c + d1 a) None (f a) d) -> from s0 c nx (m ≫= f) d.
Proof.
  intros Hm Hx Hf. apply from_count. intros Hc. eapply from_call; [by apply Hm|done|lia|done].
Qed.

Lemma from_last {A} s0 c nx nx' (m : parser A) d1 d :
  (c <= rest s0 -> spec (rest s0 - c) nx' m d1) -> (nx' = None \/ nx' = nx) ->
  (forall a, d a <= c + d1 a) -> from s0 c nx m d.
Proof.
  intros Hm Hx Hd. apply from_eta. eapply from_run; [exact Hm|done|]. intros a. by apply from_ret.
Qed.

Create HintDb parse.
#[export] Hint Resolve spec_items_until spec_items_or_none : parse.
#[export] Hint Extern 1 (_ <= _) => count : parse.
#[export] Hint Extern 1 (_ < _) => count : parse.
#[export] Hint Extern 1 (_ <> _) => discriminate : parse.

Ltac same_or_none := first [by left | by right].

(** What a look, a read or a check tells of a symbol. *)
Ltac learn H :=
  cbn [known] in H;
  try (apply bool_decide_eq_false, dec_stable in H);
  first [subst | idtac].

Lemma found_le {A} (o : option A) : found o <= 1.
Proof. destruct o; cbn; lia. Qed.

(** What a branch tells. *)
Ltac branch := repeat match goal with H : ~ (_ <> _) |- _ => apply dec_stable in H end; subst.

(** One of several symbols. *)
Ltac alternatives :=
  repeat match goal with H : (_ || _) = true |- _ => apply orb_prop in H as [H|H] end;
  match goal with H : bool_decide _ = true |- _ => apply bool_decide_eq_true in H end; subst; count.

Lemma real_prefix z : is_prefix z = true -> real z = 1.
Proof.
  unfold is_prefix. intros H. repeat apply orb_prop in H as [H|H]; apply bool_decide_eq_true in H; by subst.
Qed.

Lemma real_operator z text : ~ (getOperatorPrec z text < 0)%Z -> real z = 1.
Proof. unfold real. case_decide; [|done]. subst. intros H. by destruct H. Qed.

(** One rule, chosen by the program's first operation. *)
Ltac parse_bind m :=
  lazymatch m with
  | peekSymbol => let z := fresh "z" in let H := fresh in apply from_peek; intros z H; learn H
  | getSymbol => let z := fresh "z" in let H := fresh in apply from_get; intros z H; learn H
  | splitShiftIntoCloseAngles => apply from_split
  | error_if _ _ _ _ => let H := fresh in apply from_error_if; intros H; learn H
  | or_error _ _ _ _ => apply from_or_error; intros ? ?
  | expect _ _ _ _ => apply from_expect
  | expect_name _ _ _ => apply from_expect_name; intros ?
  | find_symbol _ _ => apply from_find_symbol; intros ? ?
  | setCurrentPos _ => match goal with
      | H : upcoming ?s0 = ?y |- from ?s0 _ _ _ _ =>
          apply (from_back _ _ _ _ (Some y)); [right; rewrite H; split; [done|discriminate]|]
      | _ => apply (from_back _ _ _ _ None); [by left|]
      end
  | getCurrentPos => let H := fresh in apply from_mark; intros ? ? H ?; cbn [known] in H
  | mret _ => apply from_return
  | COMPILE_ERROR _ _ _ => apply from_error_bind
  | _ ≫= _ => apply from_assoc
  | parser_loop _ _ _ => match goal with |- from ?s0 ?c ?nx _ ?d =>
      eapply (from_bind s0 c nx _ _ (fun _ => c)); [apply from_loop; [intros ? ? ?|count]|intros ?] end
  | if ?b then _ else _ => match goal with |- from ?s0 ?c ?nx _ ?d =>
      eapply (from_bind s0 c nx _ _ (fun _ => c)); [destruct b; branch|intros ?] end
  | match ?x with _ => _ end => match goal with |- from ?s0 ?c ?nx _ ?d =>
      eapply (from_bind s0 c nx _ _ (fun _ => c)); [destruct x; branch|intros ?] end
  | _ => first
      [ apply from_still; [solve [auto with still]|intros ?]
      | eapply from_run; [intros ?; solve [eauto with parse]|same_or_none|intros ?] ]
  end.

Ltac parse_step :=
  cbv beta iota delta [type_error expr_error decl_error match_error for_error query_expect or_else];
  lazymatch goal with
  | |- from _ _ _ (?m ≫= _) _ => parse_bind m
  | |- from _ _ _ (mret _) _ => apply from_ret; subst; first [count | eapply Nat.le_trans; [apply found_le|count] | repeat case_decide; subst; count | alternatives | idtac]
  | |- from _ _ _ (parser_loop _ _ _) _ => apply from_loop; [intros ? ? ?|count]
  | |- from _ _ _ (COMPILE_ERROR _ _ _) _ => apply from_error
  | |- from _ _ _ (throw _) _ => apply from_throw
  | |- from _ _ _ (try_catch _ _) _ => apply from_try; [|intros ?]
  | |- from _ _ _ parser_undefined _ => apply from_undefined
  | |- from _ _ _ (let '(_, _) := ?x in _) _ => destruct x
  | |- from _ _ _ (if is_prefix ?z then _ else _) _ =>
      let E := fresh in destruct (is_prefix z) eqn:E; [apply real_prefix in E|clear E]
  | |- from _ _ _ (if (?x || ?y)%bool then _ else _) _ => let E := fresh in destruct (x || y)%bool eqn:E
  | |- from _ _ _ (if ?b then _ else _) _ => destruct b; branch
  | |- from _ _ _ (match ?x with _ => _ end) _ => destruct x; branch
  | |- from _ _ _ ?m _ => first
      [ eapply from_last; [intros ?; solve [eauto with parse]|same_or_none|let a := fresh in intros a; first [count|destruct a; count|idtac]]
      | apply from_eta; parse_bind m ]
  end.
Ltac parsing := repeat parse_step.

(** * Types *)

Section total.
Variable rec : parsers.
Variable depth : nat.
Hypothesis HT : forall b scope v, 5 * b + 5 <= depth -> spec b None (rec_Type rec scope v) (fun _ => 0).
Hypothesis HP : forall b scope, 5 * b + 6 <= depth -> spec b None (rec_Primary rec scope) found.
Hypothesis HE : forall b scope p, 5 * b + 7 <= depth -> spec b None (rec_Expr rec scope p) found.
Hypothesis HB : forall b scope, 5 * b + 8 <= depth -> spec b None (rec_Block rec scope) (fun _ => 1).
Hypothesis HS : forall b scope, 5 * b + 9 <= depth -> spec b None (rec_Statement rec scope) (fun _ => 1).
Hint Resolve HT HP HE HB HS : parse.

Ltac begin := let s := fresh "s0" in let H := fresh "Hs0" in intros s H; cbn beta.

Lemma spec_nested_type b scope line message :
  5 * b + 5 <= depth -> spec b None (nested_type rec scope line message) (fun _ => 0).
Proof. intros Hb. begin. unfold nested_type. parsing. Qed.
Hint Resolve spec_nested_type : parse.

Lemma spec_element_type b scope name line :
  5 * b + 5 <= S depth -> spec b None (ParseTypes.element_type rec scope name line) (fun _ => 1).
Proof. intros Hb. begin. unfold ParseTypes.element_type. parsing. Qed.

Lemma spec_function_type b scope :
  5 * b + 5 <= S depth -> spec b None (function_type rec depth scope) (fun _ => 1).
Proof. intros Hb. begin. unfold function_type. parsing. Qed.

Lemma spec_bare_type b scope name : spec b None (bare_type scope name) (fun _ => 0).
Proof. begin. unfold bare_type. parsing. Qed.
Hint Resolve spec_element_type spec_function_type spec_bare_type : parse.

Lemma spec_qualified_type b scope ns name : spec b None (qualified_type scope ns name) (fun _ => 0).
Proof. begin. unfold qualified_type. parsing. Qed.
Hint Resolve spec_qualified_type : parse.

Lemma spec_named_type b scope : spec b None (named_type scope) (fun _ => 0).
Proof. begin. unfold named_type. parsing. Qed.

Lemma spec_type_argument b scope :
  5 * b + 5 <= depth -> spec b None (type_argument rec scope) (fun _ => 0).
Proof. intros Hb. begin. unfold type_argument. parsing. Qed.
Hint Resolve spec_named_type spec_type_argument : parse.

Lemma spec_generic_arguments b scope t :
  5 * b + 5 <= S depth -> spec b None (generic_arguments rec depth scope t) (fun _ => 0).
Proof. intros Hb. begin. unfold generic_arguments. parsing. Qed.

Lemma spec_skip_modifiers b : S b < depth -> spec b None (skip_modifiers depth) (fun _ => 0).
Proof.
  intros Hb. begin. unfold skip_modifiers. parse_step.
  apply (from_loop_credit _ _ _ (fun sym => if decide (sym = code TYPE_MODIFIER) then 1 else 0)).
  - intros sym c Hc. parsing. all: repeat case_decide; subst; count.
  - intros sym. case_decide; lia.
  - case_decide; lia.
Qed.
Hint Resolve spec_generic_arguments spec_skip_modifiers : parse.

Lemma spec_Type_Parse b scope v :
  5 * b + 5 <= S depth -> spec b None (Type_Parse rec depth scope v) (fun _ => 0).
Proof. intros Hb. begin. unfold Type_Parse. parsing. Qed.
Hint Resolve spec_Type_Parse : parse.

(** * Expressions *)

Lemma spec_atoi b text : spec b None (atoi text) (fun _ => 0).
Proof. begin. unfold atoi. parsing. Qed.
Hint Resolve spec_atoi : parse.

Lemma spec_ConstExpression b : spec b None ConstExpression_Parse found.
Proof. begin. unfold ConstExpression_Parse. parsing. Qed.

Lemma spec_VariableExpression b scope : spec b None (VariableExpression_Parse scope) found.
Proof. begin. unfold VariableExpression_Parse. parsing. Qed.

Lemma spec_operand b scope p file line message :
  5 * b + 7 <= depth -> spec b None (operand rec scope p file line message) (fun _ => 1).
Proof. intros Hb. begin. unfold operand. parsing. Qed.
Hint Resolve spec_ConstExpression spec_VariableExpression spec_operand : parse.

Lemma spec_item {A} b (m : parser A) d : spec b None m d -> spec b None m (fun _ => 0).
Proof. intros H s0 Hs0. eapply from_mono; [by apply H|]. cbn. lia. Qed.

Lemma spec_arguments b scope l1 m1 l2 m2 :
  5 * b + 7 <= depth -> spec b None (arguments rec depth scope l1 m1 l2 m2) (fun _ => 1).
Proof. intros Hb. apply spec_items_or_none; [lia|done|]. intros b' Hb'. eapply spec_item, spec_operand. lia. Qed.

Lemma spec_field_values b scope file l1 l2 l3 m1 m2 m3 :
  5 * b + 2 <= depth -> spec b None (field_values rec depth scope file l1 l2 l3 m1 m2 m3) (fun _ => 0).
Proof. intros Hb. begin. unfold field_values. parsing. Qed.

Lemma spec_type_arguments b scope l1 m1 l2 :
  5 * b + 5 <= depth -> spec b None (type_arguments rec depth scope l1 m1 l2) (fun _ => 1).
Proof. intros Hb. apply spec_items_until; [lia|done|]. intros b' Hb'. begin. parsing. Qed.
Hint Resolve spec_arguments spec_field_values spec_type_arguments : parse.

Lemma spec_CallExpression b scope :
  5 * b + 6 <= S depth -> spec b None (CallExpression_Parse rec depth scope) found.
Proof. intros Hb. begin. unfold CallExpression_Parse. parsing. Qed.

Lemma spec_StructLiteral b scope name :
  5 * b + 6 <= S depth -> spec b None (StructLiteralExpression_Parse rec depth scope name) (fun _ => 1).
Proof. intros Hb. begin. unfold StructLiteralExpression_Parse. parsing. Qed.
Hint Resolve spec_CallExpression spec_StructLiteral : parse.

Lemma spec_qualified_call b scope f :
  5 * b + 6 <= S depth -> spec b None (qualified_call rec depth scope f) (fun _ => 0).
Proof. intros Hb. begin. unfold qualified_call. parsing. Qed.

Lemma spec_qualified_literal b scope name :
  5 * b + 6 <= S depth -> spec b (Some (chr "{")) (qualified_literal rec depth scope name) (fun _ => 1).
Proof. intros Hb. begin. unfold qualified_literal. parsing. Qed.
Hint Resolve spec_qualified_call spec_qualified_literal : parse.

Lemma spec_qualified_member b scope ns name :
  5 * b + 6 <= S depth -> spec b None (qualified_member rec depth scope ns name) (fun _ => 1).
Proof. intros Hb. begin. unfold qualified_member. parsing. Qed.
Hint Resolve spec_qualified_member : parse.

(** Functions that go back to the mark they start from, where a name stands. *)
Definition spec_back {A} (b : nat) (m : nat -> parser A) (d : A -> nat) : Prop :=
  forall s0, rest s0 <= b -> upcoming s0 = code SYMBOL -> from s0 0 None (m (st_cursor (ps_stream s0))) d.

Ltac begin_back := intros s0 Hs0 Hu; cbn beta.

Lemma from_spec_back {A B} s0 c nx b m (n : parser A) (f : A -> parser B) d1 d :
  spec_back b m d1 -> n = m (st_cursor (ps_stream s0)) -> rest s0 <= b -> upcoming s0 = code SYMBOL ->
  (forall a, from s0 (d1 a) None (f a) d) -> from s0 c nx (n ≫= f) d.
Proof.
  intros Hm -> Hb Hu Hf. eapply from_bind; [|exact Hf].
  eapply from_weaken; [by apply Hm| |by left]. lia.
Qed.

(** A call of a function that goes back, by its lemma. *)
Ltac parse_back lemma := lazymatch goal with |- from ?s0 ?c ?nx _ _ =>
  eapply (from_spec_back s0 c nx (rest s0)); [eapply lemma; lia|reflexivity|done|done|intros ?] end.

Lemma back_struct_type_arguments b scope :
  5 * b + 5 <= depth -> spec_back b (struct_type_arguments rec depth scope) (fun _ => 0).
Proof. intros Hb. begin_back. unfold struct_type_arguments. parsing. Qed.

Lemma back_generic_struct b scope name sd :
  5 * b + 6 <= S depth -> spec_back b (fun pos => generic_struct rec depth scope pos name sd) found.
Proof. intros Hb. begin_back. unfold generic_struct. parse_step. parse_back back_struct_type_arguments. parsing. Qed.

Lemma back_struct_literal b scope name sd :
  5 * b + 6 <= S depth -> spec_back b (fun pos => struct_literal rec depth scope pos name sd) found.
Proof. intros Hb. begin_back. unfold struct_literal. parsing. apply from_eta. parse_back back_generic_struct. parsing. Qed.

Lemma back_constructor_call b scope sd :
  5 * b + 6 <= S depth -> spec_back b (fun pos => constructor_call rec depth scope pos sd) found.
Proof. intros Hb. begin_back. unfold constructor_call. parsing. Qed.

Lemma spec_static_method b scope sd name : spec b None (static_method scope sd name) (fun _ => 0).
Proof. begin. unfold static_method. parsing. Qed.
Hint Resolve spec_static_method : parse.

Lemma back_static_call b scope sd :
  5 * b + 6 <= S depth -> spec_back b (fun pos => static_call rec depth scope pos sd) found.
Proof. intros Hb. begin_back. unfold static_call, after_dot. parsing. Qed.

Lemma back_enum_variant b scope ed :
  5 * b + 6 <= S depth -> spec_back b (fun pos => enum_variant rec depth scope pos ed) found.
Proof. intros Hb. begin_back. unfold enum_variant, after_dot. parsing. Qed.

Lemma back_function_reference b scope : spec_back b (function_reference scope) found.
Proof. begin_back. unfold function_reference. parsing. Qed.

Lemma back_variable_or_indirect_call b scope :
  5 * b + 6 <= S depth -> spec_back b (variable_or_indirect_call rec depth scope) found.
Proof. intros Hb. begin_back. unfold variable_or_indirect_call. parsing. Qed.

(** ** Names *)

Lemma from_or_else s0 c nx r (m : parser (option Expr)) :
  found r <= c -> from s0 0 None m found -> from s0 c nx (or_else r m) found.
Proof.
  intros Hr Hm. destruct r as [e|]; cbn [or_else]; [by apply from_ret|].
  eapply from_weaken; [exact Hm|lia|by left].
Qed.

Lemma from_or_else_bind {A} s0 c nx r (m : parser (option Expr)) (f : option Expr -> parser A) d :
  found r <= c -> from s0 0 None m found -> (forall r, from s0 (found r) None (f r) d) ->
  from s0 c nx (or_else r m ≫= f) d.
Proof. intros Hr Hm Hf. eapply from_bind; [by apply from_or_else|exact Hf]. Qed.

(** A module's name followed by a member, or nothing done. *)
Lemma start_qualified_access {A} b s scope name (f : option Expr -> parser A) d :
  5 * b + 6 <= S depth -> rest s <= b -> upcoming s = code SYMBOL ->
  from s 0 None (f None) d ->
  (structless (ps_heap s) name -> forall e, from s 1 None (f (Some e)) d) ->
  ok s -> ends (qualified_access rec depth scope (st_cursor (ps_stream s)) name ≫= f) s (within s d).
Proof.
  intros Hb Hs Hu Hnone Hsome Ho. unfold qualified_access.
  apply ends_bind. apply ends_observe, ends_observe.
  pose proof (Hnone s ltac:(done) Ho ltac:(lia) I) as Hret.
  destruct (findNamespace (ps_heap s) scope name) as [ns|]; [|exact Hret].
  destruct (isModuleImported (ps_heap s) scope name) eqn:Hi; [|exact Hret].
  apply (imported_structless _ _ _ (proj2 Ho)) in Hi.
  eapply ends_mono.
  - assert (from s 0 None (mark_module_used scope name;; getSymbol;; next ← peekSymbol;
      if decide (next = chr ".") then getSymbol;; e ← qualified_member rec depth scope ns name; mret (Some e)
      else setCurrentPos (st_cursor (ps_stream s));; mret None) found) as Hm by parsing.
    apply Hm; (done || lia).
  - intros [[e|]|e] s' (H1 & H2 & H3); [by apply Hsome|by apply Hnone|by split].
Qed.

(** What is tried at a name that is not a module's member, one after another. *)
Lemma back_name_attempts b scope name structSym :
  5 * b + 6 <= S depth ->
  spec_back b (fun pos =>
    result ← (match as_struct structSym with
              | Some sd => e ← struct_literal rec depth scope pos name sd; mret (match e with Some e => Some e | None => None end)
              | None => mret None
              end);
    result ← or_else result (match as_struct structSym with
                             | Some sd => constructor_call rec depth scope pos sd
                             | None => mret None
                             end);
    result ← or_else result (match as_struct structSym with
                             | Some sd => static_call rec depth scope pos sd
                             | None => mret None
                             end);
    result ← or_else result (match as_enum structSym with
                             | Some ed => enum_variant rec depth scope pos ed
                             | None => mret None
                             end);
    result ← or_else result (try_catch (CallExpression_Parse rec depth scope) (fun _ => mret None));
    result ← or_else result (function_reference scope pos);
    or_else result (variable_or_indirect_call rec depth scope pos)) found.
Proof.
  intros Hb s0 Hs Hu.
  apply (from_bind _ _ _ _ _ found).
  { destruct (as_struct structSym) as [sd|]; [|parsing]. parse_back back_struct_literal. parsing. by destruct a. }
  intros r1. apply from_or_else_bind; [done| |intros r2].
  { destruct (as_struct structSym); [by apply (back_constructor_call b)|parsing]. }
  apply from_or_else_bind; [done| |intros r3].
  { destruct (as_struct structSym); [by apply (back_static_call b)|parsing]. }
  apply from_or_else_bind; [done| |intros r4].
  { destruct (as_enum structSym); [by apply (back_enum_variant b)|parsing]. }
  apply from_or_else_bind; [done|parsing|intros r5].
  apply from_or_else_bind; [done|by apply (back_function_reference b)|intros r6].
  apply from_or_else; [done|by apply (back_variable_or_indirect_call b)].
Qed.

Lemma spec_name_primary b scope :
  5 * b + 6 <= S depth -> spec b (Some (code SYMBOL)) (name_primary rec depth scope) found.
Proof.
  intros Hb. begin. unfold name_primary. parse_step. do 2 parse_step.
  apply from_restart; [rewrite H; discriminate|]. intros s2 <- Hu Hr Ho.
  apply (start_qualified_access b); [done|lia|congruence| | |done].
  - apply from_find_symbol. intros structSym _.
    eapply from_mono; [apply (back_name_attempts b); [lia..|congruence]|]. cbn. intros; lia.
  - intros Hn e. apply from_find_symbol. intros structSym Hstruct. rewrite Hstruct by done. parsing.
Qed.
Hint Resolve spec_name_primary : parse.

(** * Variables and parameters *)

Lemma spec_ownership b : spec b None ownership_qualifier (fun _ => 0).
Proof. begin. unfold ownership_qualifier. parsing. Qed.
Hint Resolve spec_ownership : parse.

Lemma spec_ParseFuncParam b scope ext i :
  5 * b + 5 <= depth -> spec b None (ParseFuncParam rec scope ext i) (fun _ => 0).
Proof. intros Hb. begin. unfold ParseFuncParam. parsing. Qed.

Lemma spec_bind_var b scope name : spec b None (bind_var scope name) (fun _ => 0).
Proof. begin. unfold bind_var. parsing. Qed.

Lemma spec_each {A} b (f : A -> parser unit) l :
  (forall a b', b' <= b -> spec b' None (f a) (fun _ => 0)) -> spec b None (parser_each f l) (fun _ => 0).
Proof.
  intros Hf. induction l as [|a l IH]; begin; cbn [parser_each]; [by apply from_ret|].
  eapply from_call; [by apply (Hf a b)|by left|lia|]. intros [].
  eapply from_weaken; [by apply IH|lia|by left].
Qed.
Hint Resolve spec_ParseFuncParam spec_bind_var spec_each : parse.

(** * Expressions that hold blocks, and queries *)

Lemma spec_Lambda b scope :
  5 * b + 6 <= S depth -> spec b None (LambdaExpression_Parse rec depth scope) (fun _ => 1).
Proof.
  intros Hb. begin. unfold LambdaExpression_Parse. do 4 parse_step.
  eapply from_run; [intros Hc; apply spec_items_or_none; [count|discriminate|]|same_or_none|].
  - intros b' Hb'. begin. parsing.
  - intros params. parsing.
Qed.

Lemma spec_Spawn b scope :
  5 * b + 6 <= S depth -> spec b None (SpawnStatement_Parse rec scope) (fun _ => 1).
Proof. intros Hb. begin. unfold SpawnStatement_Parse. parsing. Qed.

Lemma spec_binding_names b : S b < depth -> spec b None (binding_names depth) (fun _ => 0).
Proof.
  intros Hb. begin. unfold binding_names. parse_step.
  apply (from_bind _ _ _ _ _ (fun _ => 0)); [|intros [names sym]; parsing].
  apply (from_loop_credit _ _ _ (fun b => if decide (b.2 = code SYMBOL) then 1 else 0)).
  - intros [names sym] c Hc. cbn [snd]. parsing. all: repeat case_decide; subst; count.
  - intros [names sym]. case_decide; lia.
  - case_decide; lia.
Qed.
Hint Resolve spec_binding_names : parse.

Lemma spec_match_pattern b : S b < depth -> spec b None (match_pattern depth) (fun _ => 1).
Proof. intros Hb. begin. unfold match_pattern. parsing. Qed.
Hint Resolve spec_match_pattern : parse.

Lemma spec_match_arm b scope mode :
  5 * b + 6 <= S depth -> spec b None (match_arm rec depth scope mode) (fun _ => 1).
Proof. intros Hb. begin. unfold match_arm. parsing. Qed.
Hint Resolve spec_match_arm : parse.

Lemma spec_Match b scope mode :
  5 * b + 6 <= S depth -> spec b None (MatchExpression_Parse rec depth scope mode) (fun _ => 1).
Proof. intros Hb. begin. unfold MatchExpression_Parse. parsing. Qed.

Lemma spec_step_body b scope :
  5 * b + 5 <= S depth -> spec b None (parseStepBody rec scope) (fun _ => 1).
Proof. intros Hb. begin. unfold parseStepBody, query_operand. parsing. Qed.

Lemma spec_set_step b scope :
  5 * b + 5 <= S depth -> spec b None (parseSetStep rec depth scope) (fun _ => 1).
Proof. intros Hb. begin. unfold parseSetStep, query_operand. parsing. Qed.
Hint Resolve spec_step_body spec_set_step : parse.

Lemma spec_pipeline_step b scope name :
  5 * b + 5 <= S depth -> spec b None (pipeline_step rec depth scope name) (fun _ => 0).
Proof. intros Hb. begin. unfold pipeline_step, query_operand. parsing. Qed.
Hint Resolve spec_pipeline_step : parse.

Lemma spec_pipeline_steps b scope :
  5 * b + 5 <= S depth -> spec b None (parsePipelineSteps rec depth scope) (fun _ => 0).
Proof. intros Hb. begin. unfold parsePipelineSteps. parsing. Qed.

Lemma spec_query_table b line what : spec b None (query_table line what) (fun _ => 1).
Proof. begin. unfold query_table. parsing. Qed.
Hint Resolve spec_pipeline_steps spec_query_table : parse.

Lemma spec_Query b scope :
  5 * b + 6 <= S depth -> spec b None (QueryExpression_Parse rec depth scope) (fun _ => 1).
Proof. intros Hb. begin. unfold QueryExpression_Parse. parsing. Qed.

Lemma spec_Update b scope :
  5 * b + 6 <= S depth -> spec b None (UpdateExpression_Parse rec depth scope) (fun _ => 1).
Proof. intros Hb. begin. unfold UpdateExpression_Parse. parsing. Qed.

Lemma spec_Delete b scope :
  5 * b + 6 <= S depth -> spec b None (DeleteExpression_Parse rec depth scope) (fun _ => 1).
Proof. intros Hb. begin. unfold DeleteExpression_Parse. parsing. Qed.

Lemma spec_Insert b scope :
  5 * b + 6 <= S depth -> spec b None (InsertExpression_Parse rec depth scope) (fun _ => 1).
Proof. intros Hb. begin. unfold InsertExpression_Parse. parsing. Qed.
Hint Resolve spec_Lambda spec_Spawn spec_Match spec_Query spec_Update spec_Delete spec_Insert : parse.

(** * Primaries *)

(** A string's placeholders: the text gets shorter with every pass. *)
Lemma before_char_shorter c l a k : before_char c l = Some (a, k) -> length k < length l.
Proof.
  revert a k. induction l as [|d l IH]; intros a k H; [done|]. cbn in H |- *.
  case_decide; [by simplify_eq; lia|].
  destruct (before_char c l) as [[a' k']|] eqn:E; [|done]. simplify_option_eq.
  specialize (IH _ _ eq_refl). lia.
Qed.

Lemma spec_field_path b loc base segs : spec b None (field_path loc base segs) (fun _ => 0).
Proof.
  revert base. induction segs as [|seg segs IH]; intros base; begin; cbn [field_path]; parsing.
  eapply from_weaken; [by apply IH|lia|by left].
Qed.
Hint Resolve spec_field_path : parse.

Lemma spec_literal_part b loc text : spec b None (literal_part loc text) (fun _ => 0).
Proof. begin. unfold literal_part. parsing. Qed.
Hint Resolve spec_literal_part : parse.

Lemma spec_interpolated_part b scope loc name : spec b None (interpolated_part scope loc name) (fun _ => 0).
Proof. begin. unfold interpolated_part. parsing. Qed.
Hint Resolve spec_interpolated_part : parse.

Lemma spec_StringInterpolation b scope text : spec b None (StringInterpolation_Parse scope text) (fun _ => 0).
Proof.
  begin. unfold StringInterpolation_Parse. do 2 parse_step.
  apply (from_bind _ _ _ _ _ (fun _ => 0)); [|intros parts; parsing].
  apply (from_loop_size _ _ _ (fun b => length b.1)); [|cbn [fst]; rewrite length_chars; lia].
  intros [l parts]. unfold interpolation_pass. destruct l as [|c l]; [parsing|].
  destruct (before_char "{" (c :: l)) as [[before after]|] eqn:E1; [|parsing].
  apply (from_bind _ _ _ _ _ (fun _ => 0)); [destruct before; parsing|intros parts'].
  destruct (before_char "}" after) as [[name l']|] eqn:E2; parsing.
  apply before_char_shorter in E1. apply before_char_shorter in E2. rewrite decide_True by (cbn [fst]; lia). lia.
Qed.
Hint Resolve spec_StringInterpolation : parse.

Lemma spec_array_literal b scope :
  5 * b + 6 <= S depth -> spec b (Some (chr "[")) (array_literal rec depth scope) found.
Proof.
  intros Hb. begin. unfold array_literal. do 2 parse_step.
  eapply from_run; [intros Hc; apply spec_items_or_none; [count|discriminate|]|same_or_none|].
  - intros b' Hb'. begin. parsing.
  - intros l. parsing.
Qed.

Lemma spec_string_primary b scope :
  spec b (Some (code CONSTANT_STRING)) (string_primary scope) found.
Proof. begin. unfold string_primary. parsing. Qed.

Lemma spec_self_primary b scope : spec b (Some (code KEYWORD_SELF)) (self_primary scope) found.
Proof. begin. unfold self_primary. parsing. Qed.

Lemma spec_parenthesized b scope :
  5 * b + 6 <= S depth -> spec b (Some (chr "(")) (parenthesized rec scope) found.
Proof. intros Hb. begin. unfold parenthesized. parsing. Qed.

Lemma spec_query_field b : spec b None query_field found.
Proof. begin. unfold query_field. parsing. Qed.
Hint Resolve spec_array_literal spec_string_primary spec_self_primary spec_parenthesized spec_query_field : parse.

Lemma spec_base_primary b scope sym :
  5 * b + 6 <= S depth -> spec b (Some sym) (base_primary rec depth scope sym) found.
Proof. intros Hb. begin. unfold base_primary. parsing. Qed.
Hint Resolve spec_base_primary : parse.

Lemma spec_member_access b scope e :
  5 * b + 6 <= S depth -> spec b (Some (chr ".")) (member_access rec depth scope e) (fun _ => 1).
Proof. intros Hb. begin. unfold member_access. parsing. Qed.

Lemma spec_index_access b scope loc e :
  5 * b + 6 <= S depth -> spec b (Some (chr "[")) (index_access rec scope loc e) (fun _ => 1).
Proof. intros Hb. begin. unfold index_access. parsing. Qed.
Hint Resolve spec_member_access spec_index_access : parse.

Lemma spec_postfix_pass b scope loc e :
  5 * b + 6 <= S depth -> spec b None (postfix_pass rec depth scope loc e) onward.
Proof. intros Hb. begin. unfold postfix_pass, onward. parsing. Qed.

Lemma spec_primary_operand b scope line message :
  5 * b + 6 <= depth -> spec b None (primary_operand rec scope line message) (fun _ => 1).
Proof. intros Hb. begin. unfold primary_operand. parsing. Qed.
Hint Resolve spec_postfix_pass spec_primary_operand : parse.

Lemma spec_ParsePrimary b scope :
  5 * b + 6 <= S depth ->
  spec b None (ParsePrimary rec depth
    (MatchExpression_Parse rec depth) (LambdaExpression_Parse rec depth) (SpawnStatement_Parse rec)
    (QueryExpression_Parse rec depth) (InsertExpression_Parse rec depth)
    (UpdateExpression_Parse rec depth) (DeleteExpression_Parse rec depth) scope) found.
Proof. intros Hb. begin. unfold ParsePrimary. parsing. Qed.

(** * Binary operators and assignments *)

Lemma spec_pipeline b scope loc e :
  5 * b + 6 <= S depth -> spec b (Some (code PIPE_ARROW)) (pipeline rec depth scope loc e) (fun _ => 1).
Proof. intros Hb. begin. unfold pipeline. parsing. Qed.
Hint Resolve spec_pipeline : parse.

Lemma spec_binary_pass b scope p loc e :
  5 * b + 6 <= S depth -> spec b None (binary_pass rec depth scope p loc e) onward.
Proof.
  intros Hb. begin. unfold binary_pass, onward. do 3 parse_step; [parsing|].
  cbv zeta. parse_step; [parsing|]. match goal with H : ~ (_ \/ _) |- _ => apply Decidable.not_or in H as [H _];
    apply real_operator in H end. parsing.
Qed.
Hint Resolve spec_binary_pass : parse.

Lemma spec_ParseExpr b scope p :
  5 * b + 7 <= S depth -> spec b None (ParseExpr rec depth scope p) found.
Proof. intros Hb. begin. unfold ParseExpr. parsing. Qed.

Lemma spec_assignment b scope op e :
  5 * b + 7 <= depth -> spec b None (assignment rec scope op e) (fun _ => 0).
Proof. intros Hb. begin. unfold assignment, assigned_value. parsing. Qed.
Hint Resolve spec_assignment : parse.

Lemma spec_Expression_Parse b scope :
  5 * b + 7 <= depth -> spec b None (Expression_Parse rec scope) found.
Proof. intros Hb. begin. unfold Expression_Parse. parsing. Qed.
Hint Resolve spec_Expression_Parse : parse.

(** * Statements *)

Lemma spec_declaration_modifier b : spec b None declaration_modifier (fun _ => 0).
Proof. begin. unfold declaration_modifier. parsing. Qed.

Lemma spec_declared_type b scope var :
  5 * b + 5 <= depth -> spec b None (declared_type rec scope var) (fun _ => 0).
Proof. intros Hb. begin. unfold declared_type. parsing. Qed.

Lemma spec_unknown_type b scope name : spec b None (unknown_type scope name) (fun _ => 1).
Proof. begin. unfold unknown_type. parsing. Qed.

Lemma spec_initial_value b scope :
  5 * b + 7 <= depth -> spec b None (initial_value rec scope) (fun _ => 0).
Proof. intros Hb. begin. unfold initial_value. parsing. Qed.
Hint Resolve spec_declaration_modifier spec_declared_type spec_unknown_type spec_initial_value : parse.

Lemma spec_declared_variable b scope loc t name cst var own :
  5 * b + 7 <= depth -> spec b None (declared_variable rec scope loc t name cst var own) (fun _ => 1).
Proof. intros Hb. begin. unfold declared_variable. parsing. Qed.
Hint Resolve spec_declared_variable : parse.

Lemma spec_VariableDeclaration b scope :
  5 * b + 8 <= depth -> spec b None (VariableDeclaration_Parse rec depth scope) (fun _ => 1).
Proof.
  intros Hb. begin. unfold VariableDeclaration_Parse. do 8 parse_step.
  apply (from_bind _ _ _ _ _ (fun _ => 1)); [|intros l; parsing].
  apply from_loop; [intros l c Hc; parsing|lia].
Qed.

Lemma spec_body_statement b scope :
  5 * b + 9 <= depth -> spec b None (body_statement rec scope) (fun _ => 0).
Proof. intros Hb. begin. unfold body_statement. parsing. Qed.
Hint Resolve spec_VariableDeclaration spec_body_statement : parse.

Lemma spec_While b scope : 5 * b + 9 <= S depth -> spec b None (WhileStatement_Parse rec scope) (fun _ => 1).
Proof. intros Hb. begin. unfold WhileStatement_Parse. parsing. Qed.

Lemma spec_If b scope : 5 * b + 9 <= S depth -> spec b None (IfStatement_Parse rec scope) (fun _ => 1).
Proof. intros Hb. begin. unfold IfStatement_Parse. parsing. Qed.

Lemma spec_second_variable b : spec b None second_variable (fun _ => 0).
Proof. begin. unfold second_variable. parsing. Qed.
Hint Resolve spec_second_variable : parse.

Lemma spec_ForIn b scope : 5 * b + 9 <= S depth -> spec b None (ForInStatement_Parse rec scope) (fun _ => 1).
Proof. intros Hb. begin. unfold ForInStatement_Parse. parsing. Qed.

Lemma spec_Return b scope : 5 * b + 9 <= S depth -> spec b None (ReturnStatement_Parse rec scope) (fun _ => 1).
Proof. intros Hb. begin. unfold ReturnStatement_Parse. parsing. Qed.

Lemma spec_Break b : spec b None BreakStatement_Parse (fun _ => 1).
Proof. begin. unfold BreakStatement_Parse. parsing. Qed.

Lemma spec_Continue b : spec b None ContinueStatement_Parse (fun _ => 1).
Proof. begin. unfold ContinueStatement_Parse. parsing. Qed.

Lemma spec_Assert b scope : 5 * b + 9 <= S depth -> spec b None (AssertStatement_Parse rec scope) (fun _ => 1).
Proof. intros Hb. begin. unfold AssertStatement_Parse. parsing. Qed.

Lemma spec_Wait b scope : 5 * b + 9 <= S depth -> spec b None (WaitStatement_Parse rec scope) (fun _ => 1).
Proof. intros Hb. begin. unfold WaitStatement_Parse. parsing. Qed.

Lemma spec_WaitAll b : spec b None WaitAllStatement_Parse (fun _ => 1).
Proof. begin. unfold WaitAllStatement_Parse. parsing. Qed.

Lemma spec_EventHandler b scope : 5 * b + 9 <= S depth -> spec b None (EventHandler_Parse rec scope) (fun _ => 1).
Proof. intros Hb. begin. unfold EventHandler_Parse. parsing. Qed.
Hint Resolve spec_While spec_If spec_ForIn spec_Return spec_Break spec_Continue spec_Assert spec_Wait
  spec_WaitAll spec_EventHandler : parse.

Lemma spec_rethrow {A} b err line : spec b None (rethrow (A := A) err line) (fun _ => 1).
Proof. begin. unfold rethrow. parsing. Qed.
Hint Resolve spec_rethrow : parse.

Lemma spec_declaration_or_expression b scope s0 :
  5 * b + 9 <= S depth -> rest s0 <= b ->
  from s0 0 None (declaration_or_expression rec depth scope (st_cursor (ps_stream s0))) (fun _ => 1).
Proof.
  intros Hb Hs. unfold declaration_or_expression. parse_step; [parsing|]. parse_step.
  apply (from_bind _ _ _ _ _ found); [parsing|intros []; parsing].
Qed.

Lemma spec_Statement b scope :
  5 * b + 9 <= S depth -> spec b None (Statement_Parse rec depth scope) (fun _ => 1).
Proof.
  intros Hb. begin. unfold Statement_Parse, some_stmt. parse_step.
  apply (from_mono _ _ _ _ (fun _ => 1)); [|intros ?; cbn; lia]. parsing.
  eapply from_weaken; [apply (spec_declaration_or_expression b); lia|done|by left].
Qed.
Hint Resolve spec_Statement : parse.

(** * Blocks *)

Lemma spec_resync_pass b d : spec b None (resync_pass d) onward.
Proof.
  begin. unfold resync_pass. parse_step. parse_step; [parsing|]. parse_step.
  parse_step; [parsing|]. parse_step; [parsing|]. parse_step. rewrite real_close by done. parsing.
Qed.
Hint Resolve spec_resync_pass : parse.

Lemma spec_resync_loop b d fuel : b < fuel -> spec b None (parser_loop fuel resync_pass d) (fun _ => 0).
Proof. intros Hb. begin. parsing. Qed.

(** Resynchronising consumes a symbol that is neither the end nor a closing
    brace, and knows the end when it is there. *)
Lemma ends_resync s :
  rest s < depth -> ok s -> upcoming s <> chr "}" ->
  ends (resyncStatement depth) s (fun r s' => reached s s' /\ ok s' /\ match r with
    | Returns _ => rest s' < rest s \/ stream_isEOF (ps_stream s') = true
    | Throws _ => True
    end).
Proof.
  intros Hd Ho Hu. unfold resyncStatement. destruct depth as [|fuel]; [lia|]. cbn [parser_loop].
  unfold resync_pass at 1. apply ends_bind, ends_observe.
  destruct (stream_isEOF (ps_stream s)) eqn:He; [by split; [|split; [|right]]|].
  apply ends_peek; [done|]. intros s1 H1 Ho1 Hr1 Hu1 He1.
  case_decide as Hz; [by split; [|split; [|right; apply He1]]|].
  rewrite (bool_decide_eq_false_2 _ Hu), andb_false_r.
  eapply ends_mono.
  - assert (from s1 0 (Some (upcoming s)) (sym ← getSymbol;
      if decide (sym = chr "{") then mret (Next (0 + 1)%Z) else if decide (sym = chr "}") then mret (Next (0 - 1)%Z)
      else if bool_decide (sym = chr ";") && bool_decide (0%Z = 0%Z) then mret (Break tt) else mret (Next 0%Z))
      (fun _ => 1)) as Hget.
    { parse_step. rewrite real_close by done. parsing. }
    apply Hget; [done|done|lia|by rewrite Hu1].
  - intros [[d|[]]|e] s2 (H2 & Ho2 & Hr2).
    + eapply ends_mono; [apply (spec_resync_loop (rest s2) d fuel); [lia|done|done|done|lia|done]|].
      intros r s3 (H3 & Ho3 & Hr3). split; [by do 2 (etrans; [done|])|]. split; [done|].
      destruct r; [left; pose proof (reached_rest _ _ H3); lia|done].
    + split; [by etrans|]. split; [done|left; lia].
    + split; [by etrans|by split].
Qed.

(** A pass over a statement consumes something, or the end is there. *)
Lemma ends_block_statement s scope l :
  5 * rest s + 9 <= depth -> ok s -> upcoming s <> chr "}" ->
  ends (block_statement rec depth scope l) s (fun r s' => reached s s' /\ ok s' /\ match r with
    | Returns _ => rest s' < rest s \/ (rest s' <= rest s /\ stream_isEOF (ps_stream s') = true)
    | Throws _ => True
    end).
Proof.
  intros Hd Ho Hu. unfold block_statement. apply ends_observe. 
  assert (from s 0 None (statement ← rec_Statement rec scope;
    match statement with
    | Some st => mret (l ++ [st])
    | None => pos ← getCurrentPos;
        error_if (bool_decide (pos = st_cursor (ps_stream s))) "QBlock.cpp" 64 "Failed to parse statement";; mret l
    end) (fun _ => 1)) as Hm.
  { parsing. }
  apply ends_try. eapply ends_mono; [apply (Hm s); [done|done|lia|done]|].
  intros [l'|err] s1 (H1 & Ho1 & Hr1).
  - split; [done|split; [done|left; lia]].
  - clear Hr1. pose proof (reached_rest _ _ H1) as Hr1. apply ends_change.
    set (s2 := with_diag (reportCompileError err) s1).
    assert (Hs2 : reached s1 s2 /\ ok s2 /\ rest s2 = rest s1 /\ upcoming s2 = upcoming s1)
      by (by apply still_change).
    destruct Hs2 as (H2 & Ho2 & Hr2 & Hu2).
    apply ends_bind. destruct (decide (upcoming s2 = chr "}")) as [Hb|Hb].
    + assert (rest s2 < rest s) as Hlt.
      { destruct (decide (rest s2 = rest s)); [|lia]. exfalso. eapply (stuck_upcoming s s2); [by etrans|done..]. }
      eapply ends_mono; [apply (spec_resync_loop (rest s2)); [lia|done|done|done|lia|done]|].
      intros [a|e] s3 (H3 & Ho3 & Hr3); (split; [by do 2 (etrans; [done|])|split; [done|]]); [|done]. cbn. left. lia.
    + eapply ends_mono; [apply ends_resync; [lia|done|done]|].
      intros [a|e] s3 (H3 & Ho3 & Hr3); (split; [by do 2 (etrans; [done|])|split; [done|]]); [|done].
      pose proof (reached_rest _ _ H3). cbn. destruct Hr3; [left; lia|right; split; [lia|done]].
Qed.

(** What is left for a block's loop, which may find the end only by looking. *)
Definition block_rest (s : pstate) : nat := 2 * rest s + if stream_isEOF (ps_stream s) then 0 else 1.

Lemma ends_block_pass s scope l :
  5 * rest s + 9 <= depth -> ok s ->
  ends (block_pass rec depth scope l) s (fun r s' => reached s s' /\ ok s' /\ match r with
    | Returns (Next _) => block_rest s' < block_rest s
    | _ => True
    end).
Proof.
  intros Hd Ho. unfold block_pass. apply ends_observe.
  destruct (stream_isEOF (ps_stream s)) eqn:He; [by split|].
  apply ends_peek; [done|]. intros s1 H1 Ho1 Hr1 Hu1 He1.
  case_decide as Hz; [by split|]. apply ends_bind.
  eapply ends_mono; [apply ends_block_statement; [lia|done|by rewrite Hu1]|].
  intros [l'|e] s2 (H2 & Ho2 & Hr2); (split; [by etrans|split; [done|]]); [|done].
  unfold block_rest. rewrite He. destruct Hr2 as [Hr2|[Hr2 Hq]]; [|rewrite Hq; lia]. destruct (stream_isEOF (ps_stream s2)); lia.
Qed.

Lemma from_block_loop s0 c nx scope l :
  5 * rest s0 + 9 <= depth + 5 * c -> from s0 c nx (parser_loop depth (block_pass rec depth scope) l) (fun _ => c).
Proof.
  intros Hd s Hs Ho Hc _.
  apply (ends_loop _ (fun _ s => reached s0 s /\ ok s /\ rest s + c <= rest s0) (fun _ s => block_rest s)).
  - clear l s Hs Ho Hc. intros l s (Hs & Ho & Hc). eapply ends_mono; [apply ends_block_pass; [lia|done]|].
    intros [[l'|a]|e] s' (Hs' & Ho' & Hr'); pose proof (reached_rest _ _ Hs').
    + split; [|done]. split; [by etrans|]. split; [done|lia].
    + split; [by etrans|]. split; [done|lia].
    + by split; [etrans|].
  - done.
  - unfold block_rest. destruct (stream_isEOF _); lia.
Qed.

Lemma spec_Block b scope :
  5 * b + 8 <= S depth -> spec b None (Block_Parse rec depth scope) (fun _ => 1).
Proof.
  intros Hb. begin. unfold Block_Parse. do 3 parse_step.
  eapply from_bind; [apply from_block_loop; count|]. intros l. parsing.
Qed.
End total.

(** * All of them *)

Definition counted (rec : parsers) (depth : nat) : Prop :=
  (forall b scope v, 5 * b + 5 <= depth -> spec b None (rec_Type rec scope v) (fun _ => 0)) /\
  (forall b scope, 5 * b + 6 <= depth -> spec b None (rec_Primary rec scope) found) /\
  (forall b scope p, 5 * b + 7 <= depth -> spec b None (rec_Expr rec scope p) found) /\
  (forall b scope, 5 * b + 8 <= depth -> spec b None (rec_Block rec scope) (fun _ => 1)) /\
  (forall b scope, 5 * b + 9 <= depth -> spec b None (rec_Statement rec scope) (fun _ => 1)).

Lemma parsers_at_counted depth : counted (parsers_at depth) depth.
Proof.
  induction depth as [|depth (HT & HP & HE & HB & HS)]; [repeat split; intros; lia|].
  repeat split; intros; cbn [parsers_at rec_Type rec_Primary rec_Expr rec_Block rec_Statement].
  - by apply spec_Type_Parse.
  - by apply spec_ParsePrimary.
  - by apply spec_ParseExpr.
  - by apply spec_Block.
  - by apply spec_Statement.
Qed.
