(* ===== verification/ParserDeclared.v ===== *)
(** What the parsers of declarations consume, over the counts of the parsers of
    statements. *)

From stdpp Require Import pretty.
From S2P Require Import Prelude SourceLocation Lexer Tokens Diagnostics Ast Scope ParserBase ParserLogic ParseTypes ParseExpressions ParseStatements ParserTotal ParseDeclarations ParseModule.

Lemma still_try_add scope sym : as_struct (Some sym) = None -> still (try_add_symbol scope sym).
Proof.
  intros Hn s Ho. unfold try_add_symbol. pose proof (steady_symbol (ps_heap s) scope sym Hn) as Hs.
  destruct (addSymbol sym scope (ps_heap s)) as [b h]. eexists _, _. split; [done|]. by apply still_change.
Qed.
#[export] Hint Extern 1 (still (try_add_symbol _ _)) => apply still_try_add; reflexivity : still.

Lemma still_set_body id b : still (set_body id b).
Proof. by apply still_change_module. Qed.
#[export] Hint Resolve still_set_body : still.

Section declared.
Variable rec : parsers.
Variable depth : nat.
Hypothesis HT : forall b scope v, 5 * b + 5 <= depth -> spec b None (rec_Type rec scope v) (fun _ => 0).
Hypothesis HP : forall b scope, 5 * b + 6 <= depth -> spec b None (rec_Primary rec scope) found.
Hypothesis HE : forall b scope p, 5 * b + 7 <= depth -> spec b None (rec_Expr rec scope p) found.
Hypothesis HB : forall b scope, 5 * b + 8 <= depth -> spec b None (rec_Block rec scope) (fun _ => 1).
Hypothesis HS : forall b scope, 5 * b + 9 <= depth -> spec b None (rec_Statement rec scope) (fun _ => 1).
Hint Resolve HT HP HE HB HS : parse.
Hint Resolve spec_operand : parse.

Ltac begin := let s := fresh "s0" in let H := fresh "Hs0" in intros s H; cbn beta.

Lemma spec_assert_close b : spec b None assert_close (fun _ => 1).
Proof. begin. unfold assert_close. parsing. Qed.

Lemma spec_constraint_name b file line : spec b None (constraint_name file line) (fun _ => 0).
Proof. begin. unfold constraint_name. parsing. Qed.
Hint Resolve spec_assert_close spec_constraint_name : parse.

Lemma spec_generic_params b scope file l1 l2 l3 :
  b < depth -> spec b None (generic_params depth scope file l1 l2 l3) (fun _ => 0).
Proof. intros Hb. begin. unfold generic_params, generic_param. parsing. Qed.
Hint Resolve spec_generic_params : parse.

Lemma spec_struct_field b scope l :
  5 * b + 9 <= depth -> spec b None (struct_field rec scope l) onward.
Proof. intros Hb. begin. unfold struct_field, onward. parsing. Qed.
Hint Resolve spec_struct_field : parse.

Lemma spec_struct_header b scope pub :
  5 * b + 9 <= depth -> spec b None (struct_header rec depth scope pub) (fun _ => 1).
Proof. intros Hb. begin. unfold struct_header. parsing. Qed.

Hint Resolve spec_struct_header spec_ParseFuncParam spec_EventHandler : parse.

(** * Enums *)

Lemma spec_associated_types b scope :
  5 * b + 9 <= depth -> spec b None (associated_types rec depth scope) (fun _ => 0).
Proof.
  intros Hb. begin. unfold associated_types. parse_step. parse_step; [|parsing]. parse_step.
  eapply from_last; [intros Hc; apply spec_items_or_none; [lia|done|]|by left|intros; count].
  intros b' Hb'. begin. parsing.
Qed.
Hint Resolve spec_associated_types : parse.

Lemma spec_enum_variant b scope l :
  5 * b + 9 <= depth -> spec b None (enum_variant_declaration rec depth scope l) onward.
Proof. intros Hb. begin. unfold enum_variant_declaration, onward. parsing. Qed.
Hint Resolve spec_enum_variant : parse.

Lemma spec_EnumDefinition b scope pub :
  5 * b + 9 <= depth -> spec b None (EnumDefinition_Parse rec depth scope pub) (fun _ => 1).
Proof. intros Hb. begin. unfold EnumDefinition_Parse. parsing. Qed.

(** * Functions *)

Lemma spec_new_function b name loc ret params e p a i :
  spec b None (new_function name loc ret params e p a i) (fun _ => 0).
Proof. begin. unfold new_function. parsing. Qed.

Lemma spec_register_function b scope name loc e p a :
  spec b None (register_function scope name loc e p a) (fun _ => 0).
Proof. begin. unfold register_function, new_function. parsing. Qed.

Lemma spec_known_constraint b scope c : spec b None (known_constraint scope c) (fun _ => 0).
Proof. begin. unfold known_constraint. parsing. Qed.
Hint Resolve spec_new_function spec_register_function spec_known_constraint : parse.

Lemma spec_function_generics b scope f :
  b < depth -> spec b None (function_generics depth scope f) (fun _ => 0).
Proof. intros Hb. begin. unfold function_generics, function_generic. parsing. Qed.

Lemma spec_function_param b scope ext f :
  5 * b + 9 <= depth -> spec b None (function_param rec scope ext f) onward.
Proof. intros Hb. begin. unfold function_param, onward. parsing. Qed.
Hint Resolve spec_function_generics spec_function_param : parse.

Lemma spec_function_params b scope ext f :
  5 * b + 9 <= depth -> spec b None (function_params rec depth scope ext f) (fun _ => 1).
Proof. intros Hb. begin. unfold function_params. parsing. Qed.

Lemma spec_return_type b scope ext f :
  5 * b + 9 <= depth -> spec b None (return_type rec scope ext f) (fun _ => 0).
Proof. intros Hb. begin. unfold return_type. parsing. Qed.

Lemma spec_result_variable b scope f : spec b None (result_variable scope f) (fun _ => 0).
Proof. begin. unfold result_variable. parsing. Qed.
Hint Resolve spec_function_params spec_return_type spec_result_variable : parse.

Lemma spec_contract_clause b scope f cs :
  5 * b + 9 <= depth -> spec b None (contract_clause rec scope f cs) onward.
Proof. intros Hb. begin. unfold contract_clause, onward. parsing. Qed.
Hint Resolve spec_contract_clause : parse.

(** Reading a symbol: it is consumed, or the end is known. *)
Lemma ends_get {A} (f : Z -> parser A) s Q :
  ok s ->
  (forall s', reached s s' -> ok s' -> rest s' <= rest s ->
     (rest s' < rest s \/ stream_isEOF (ps_stream s') = true) -> ends (f (upcoming s)) s' Q) ->
  ends (getSymbol ≫= f) s Q.
Proof.
  intros [Ho Hh] Hf. apply ends_bind. unfold ends, getSymbol, on_stream. cbn.
  pose proof (rest_at_get _ (st_cursor (ps_stream s)) Ho) as Hg.
  pose proof (forward_get (ps_stream s)) as Hw. pose proof (ok_get _ Ho) as Ho'. cbn in Hw, Ho'.
  set (s' := with_stream _ s).
  assert (reached s s') as Hr by (apply reached_with_stream; [done|exact Hw]).
  apply Hf; [done|by split|by apply reached_rest|].
  destruct (st_tokens (ps_stream s) !! st_cursor (ps_stream s)) as [t|] eqn:Ht.
  - left. pose proof (rest_at_token _ _ _ Ht) as E. pose proof (weight_pos t).
    change (rest s') with (rest_at (ps_stream s) (S (st_cursor (ps_stream s)))). unfold rest. lia.
  - right. apply lookup_ge_None in Ht. apply isEOF_at_end; [done| |].
    + apply symbol_at_end; [done|]. cbn. lia.
    + cbn. lia.
Qed.

Lemma ends_error_if {A} b file line message (f : unit -> parser A) s Q :
  ok s -> (b = false -> ends (f tt) s Q) ->
  (b = true -> forall e s', reached s s' -> ok s' -> rest s' = rest s -> Q (Throws e) s') ->
  ends (error_if b file line message ≫= f) s Q.
Proof.
  intros Ho Hf Ht. destruct b; cbn [error_if]; [|by apply Hf].
  destruct (still_location s Ho) as (loc & s' & E & Hs' & Ho' & Hr & Hu).
  apply ends_bind, ends_bind. unfold ends. rewrite E. cbn. by apply Ht.
Qed.

(** A pass over a skipped body ends it, or moves on. *)
Lemma ends_skip_pass s n :
  ok s ->
  ends (skip_pass n) s (fun r s' => reached s s' /\ ok s' /\ match r with
    | Returns (Next _) => block_rest s' < block_rest s
    | _ => True
    end).
Proof.
  intros Ho. unfold skip_pass. case_decide; [|by split]. apply ends_observe.
  apply ends_error_if; [done| |by intros _ e s' ? ? ?; split].
  intros He. apply ends_get; [done|]. intros s1 H1 Ho1 Hr1 Hq.
  assert (block_rest s1 < block_rest s) as Hlt.
  { unfold block_rest. rewrite He. destruct Hq as [Hq|Hq]; [destruct (stream_isEOF (ps_stream s1)); lia|rewrite Hq; lia]. }
  repeat case_decide; by split.
Qed.

Lemma from_skip_loop s0 c nx n :
  2 * rest s0 + 2 <= depth + 2 * c -> from s0 c nx (parser_loop depth skip_pass n) (fun _ => c).
Proof.
  intros Hd s Hs Ho Hc _.
  apply (ends_loop _ (fun _ s => reached s0 s /\ ok s /\ rest s + c <= rest s0) (fun _ s => block_rest s)).
  - clear n s Hs Ho Hc. intros n s (Hs & Ho & Hc). eapply ends_mono; [by apply ends_skip_pass|].
    intros [[n'|a]|e] s' (Hs' & Ho' & Hr'); pose proof (reached_rest _ _ Hs').
    + split; [|done]. split; [by etrans|]. split; [done|lia].
    + split; [by etrans|]. split; [done|lia].
    + by split; [etrans|].
  - done.
  - unfold block_rest. destruct (stream_isEOF _); lia.
Qed.

Lemma spec_skip_body b : 5 * b + 9 <= depth -> spec b None (skip_body depth) (fun _ => 1).
Proof.
  intros Hb s0 Hs. unfold skip_body. do 2 parse_step. eapply from_bind; [apply from_skip_loop; count|].
  intros []. parsing.
Qed.
Hint Resolve spec_skip_body : parse.

Lemma spec_function_body b scope ext defer :
  5 * b + 9 <= depth -> spec b None (function_body rec depth scope ext defer) (fun _ => 1).
Proof. intros Hb. begin. unfold function_body. parsing. Qed.
Hint Resolve spec_function_body : parse.

Lemma spec_FunctionDefinition b scope ext pub defer :
  5 * b + 9 <= depth -> spec b None (FunctionDefinition_Parse rec depth scope ext pub defer) (fun _ => 1).
Proof. intros Hb. begin. unfold FunctionDefinition_Parse. parsing. Qed.

Lemma spec_init_param b scope :
  5 * b + 9 <= depth -> spec b None (init_param rec scope) (fun _ => 0).
Proof. intros Hb. begin. unfold init_param. parsing. Qed.

Lemma spec_init_params b scope line message :
  5 * b + 9 <= depth ->
  spec b None (items_or_none depth (init_param rec scope) (chr ")") "QFunctionDefinition.cpp" line message) (fun _ => 1).
Proof. intros Hb. apply spec_items_or_none; [lia|done|]. intros b' Hb'. apply spec_init_param. lia. Qed.
Hint Resolve spec_FunctionDefinition spec_init_params : parse.

Lemma spec_ParseInit b scope pub :
  5 * b + 9 <= depth -> spec b None (FunctionDefinition_ParseInit rec depth scope pub) (fun _ => 1).
Proof. intros Hb. begin. unfold FunctionDefinition_ParseInit. parsing. Qed.
Hint Resolve spec_ParseInit : parse.

(** * Protocols and test blocks *)

Lemma spec_protocol_method b scope l :
  5 * b + 9 <= depth -> spec b None (protocol_method rec depth scope l) onward.
Proof. intros Hb. begin. unfold protocol_method, onward. parsing. Qed.
Hint Resolve spec_protocol_method : parse.

Lemma spec_ProtocolDefinition b scope pub :
  5 * b + 9 <= depth -> spec b None (ProtocolDefinition_Parse rec depth scope pub) (fun _ => 1).
Proof. intros Hb. begin. unfold ProtocolDefinition_Parse. parsing. Qed.

Lemma spec_TestBlock b scope :
  5 * b + 9 <= depth -> spec b None (TestBlock_Parse rec scope) (fun _ => 1).
Proof. intros Hb. begin. unfold TestBlock_Parse. parsing. Qed.

(** * Impl blocks *)

Lemma spec_impl_names b : spec b None impl_names (fun _ => 1).
Proof. begin. unfold impl_names. parsing. Qed.

Lemma spec_impl_struct b scope name : spec b None (impl_struct scope name) (fun _ => 0).
Proof. begin. unfold impl_struct. parsing. Qed.

Lemma spec_check_protocol_name b scope name : spec b None (check_protocol_name scope name) (fun _ => 0).
Proof. begin. unfold check_protocol_name. parsing. Qed.

Lemma spec_optional_symbol b sym : spec b None (optional_symbol sym) (fun _ => 0).
Proof. begin. unfold optional_symbol. parsing. Qed.

Lemma spec_check_static_param b p : spec b None (check_static_param p) (fun _ => 0).
Proof. begin. unfold check_static_param, variable_type. parsing. Qed.

Lemma spec_check_static_params b l : spec b None (parser_each check_static_param l) (fun _ => 0).
Proof. apply spec_each. intros p b' _. apply spec_check_static_param. Qed.
Hint Resolve spec_impl_names spec_impl_struct spec_check_protocol_name spec_optional_symbol
  spec_check_static_params : parse.

Lemma spec_impl_init b scope sd name pub :
  5 * b + 9 <= depth -> spec b None (impl_init rec depth scope sd name pub) (fun _ => 1).
Proof. intros Hb. begin. unfold impl_init, current_struct. parsing. Qed.

Lemma spec_impl_method b scope sd pub static :
  5 * b + 9 <= depth -> spec b None (impl_method rec depth scope sd pub static) (fun _ => 1).
Proof. intros Hb. begin. unfold impl_method, current_struct. parsing. Qed.
Hint Resolve spec_impl_init spec_impl_method : parse.

Lemma spec_impl_member b scope sd name u :
  5 * b + 9 <= depth -> spec b None (impl_member rec depth scope sd name u) onward.
Proof. intros Hb. begin. unfold impl_member, onward. parsing. Qed.
Hint Resolve spec_impl_member : parse.

Lemma spec_conforming_param b p s1 s2 s3 i rp ip : spec b None (conforming_param p s1 s2 s3 i rp ip) (fun _ => 0).
Proof. begin. unfold conforming_param, variable_type. parsing. Qed.
Hint Resolve spec_conforming_param : parse.

Lemma spec_conforming_params b p s1 s2 s3 l : forall i l', spec b None (conforming_params p s1 s2 s3 i l l') (fun _ => 0).
Proof.
  induction l as [|rp l IH]; intros i l'; begin; cbn [conforming_params]; [parsing|]. destruct l' as [|ip l']; [parsing|].
  eapply from_call; [by apply (spec_conforming_param b)|by left|lia|]. intros [].
  eapply from_weaken; [by apply IH|lia|by left].
Qed.
Hint Resolve spec_conforming_params : parse.

Lemma spec_conforming_method b p s1 s2 ms req : spec b None (conforming_method p s1 s2 ms req) (fun _ => 0).
Proof. begin. unfold conforming_method. cbv zeta. parsing. Qed.

Lemma spec_conforming_methods b p s1 s2 ms l :
  spec b None (parser_each (conforming_method p s1 s2 ms) l) (fun _ => 0).
Proof. apply spec_each. intros req b' _. apply spec_conforming_method. Qed.
Hint Resolve spec_conforming_methods : parse.

Lemma spec_check_conforms b scope sd s1 s2 : spec b None (check_conforms scope sd s1 s2) (fun _ => 0).
Proof. begin. unfold check_conforms, current_struct. parsing. Qed.
Hint Resolve spec_check_conforms : parse.

Lemma spec_ParseImplBlock b scope :
  5 * b + 9 <= depth -> spec b None (ParseImplBlock rec depth scope) (fun _ => 1).
Proof. intros Hb. begin. unfold ParseImplBlock. parsing. Qed.

(** * What stands at the top level *)

Lemma spec_resync_top_pass b st : spec b None (resync_top_pass st) onward.
Proof.
  begin. unfold resync_top_pass, onward. parse_step. parse_step. parse_step; [parsing|].
  parse_step. parse_step; [parsing|]. parse_step; [parsing|]. parse_step. rewrite real_close by done. parsing.
Qed.
Hint Resolve spec_resync_top_pass : parse.

Lemma spec_resyncTopLevel b : b < depth -> spec b None (resyncTopLevel depth) (fun _ => 0).
Proof. intros Hb. begin. unfold resyncTopLevel. parsing. Qed.

Lemma spec_dotted_pass b name : spec b None (dotted_pass name) onward.
Proof. begin. unfold dotted_pass, onward. parsing. Qed.

Lemma spec_import_alias b : spec b None import_alias (fun _ => 0).
Proof. begin. unfold import_alias. parsing. Qed.

Lemma spec_annotation_arg b l : spec b None (annotation_arg l) onward.
Proof. begin. unfold annotation_arg, onward. parsing. Qed.
Hint Resolve spec_resyncTopLevel spec_dotted_pass spec_import_alias spec_annotation_arg : parse.

Lemma spec_annotation b st : b < depth -> spec b None (annotation depth st) onward.
Proof. intros Hb. begin. unfold annotation, onward. parsing. Qed.
Hint Resolve spec_annotation : parse.

Lemma spec_check_format b f l : spec b None (check_format f l) (fun _ => 0).
Proof. begin. unfold check_format, variable_type. parsing. Qed.
Hint Resolve spec_check_format : parse.

End declared.
