(* ===== verification/ParserModule.v ===== *)
(** What [Module::Parse] does to the stream and the scopes: it ends, never
    throws, and finds each deferred body where its function was declared. *)

From stdpp Require Import sorting.
From S2P Require Import Prelude SourceLocation Lexer Tokens Diagnostics Ast Scope ParserBase ParserLogic ParseTypes ParseExpressions ParseStatements ParserTotal ParseDeclarations ParseModule ParserDeclared.

(** * What a scope keeps *)

(** The parent stays and no symbol is lost. *)
Record kept_scope (s s' : Scope) : Prop := {
  kept_parent : mParent s' = mParent s;
  kept_symbols : forall name sym, mSymbolList s !! name = Some sym ->
    exists sym', mSymbolList s' !! name = Some sym' /\ same_object sym sym' = true
}.

#[export] Instance kept_scope_preorder : PreOrder kept_scope.
Proof.
  split; [intros s; split; [done|]; intros name sym H; exists sym; by rewrite same_object_refl|].
  intros a b c [p1 k1] [p2 k2]. split; [congruence|]. intros name sym H.
  destruct (k1 _ _ H) as (x & Hx & E). destruct (k2 _ _ Hx) as (y & Hy & E').
  exists y. split; [done|by eapply same_object_trans].
Qed.

Definition kept (h h' : heap) : Prop := forall i s, h !! i = Some s -> exists s', h' !! i = Some s' /\ kept_scope s s'.

#[export] Instance kept_preorder : PreOrder kept.
Proof.
  split; [by intros h i s H; exists s|]. intros a b c Hab Hbc i s H.
  destruct (Hab _ _ H) as (x & Hx & ?). destruct (Hbc _ _ Hx) as (y & Hy & ?). exists y. split; [done|by etrans].
Qed.

Lemma keeps_kept h h' : keeps h h' -> kept h h'.
Proof. intros Hk i s Hi. destruct (Hk i s Hi) as (s' & Hs & []). exists s'. by split. Qed.

Lemma steady_kept h h' : steady h h' -> kept h h'.
Proof. intros. by apply keeps_kept, steady_keeps. Qed.

Lemma kept_add_symbol h scope sym : kept h (addSymbol sym scope h).2.
Proof.
  unfold addSymbol. destruct (h !! scope) as [s|] eqn:Hs; [|done].
  destruct (mSymbolList s !! _) eqn:Hl; [done|]. cbn. intros i t Hi.
  destruct (decide (i = scope)) as [->|].
  - rewrite lookup_insert_eq. eexists. split; [done|]. replace t with s in * by congruence. split; [done|].
    cbn. intros name o Ho. exists o. rewrite lookup_insert_ne by congruence. by rewrite same_object_refl.
  - rewrite lookup_insert_ne by done. by exists t.
Qed.

(** * Going forward *)

(** No module is imported, and there is none to import. *)
Definition no_modules (h : heap) : Prop := imports_in (fun _ => False) h /\ namespaces_in (fun _ => False) h.

Record advance (s s' : pstate) : Prop := {
  advance_stream : forward (ps_stream s) (ps_stream s');
  advance_kept : kept (ps_heap s) (ps_heap s')
}.

#[export] Instance advance_preorder : PreOrder advance.
Proof. split; [by split|]. intros a b c [] []. split; by etrans. Qed.

Lemma no_modules_clash_free h : no_modules h -> clash_free h.
Proof. intros [H _]. apply clash_free_apart. by exists (fun _ => False). Qed.

Lemma no_modules_namespace h scope name : no_modules h -> findNamespace h scope name = None.
Proof.
  intros [_ Hn]. destruct (findNamespace h scope name) eqn:E; [|done].
  apply climb_some in E as (i & s & Hi & Hs). by destruct (Hn i s name Hi).
Qed.

Lemma no_modules_add_symbol h scope sym : no_modules h -> no_modules (addSymbol sym scope h).2.
Proof.
  intros [Hi Hn]. unfold addSymbol. destruct (h !! scope) as [s|] eqn:Hs; [|by split].
  destruct (mSymbolList s !! _) eqn:Hl; [by split|]. cbn.
  split; intros i t name; (destruct (decide (i = scope)) as [->|];
    [rewrite lookup_insert_eq; intros [= <-]; cbn; eauto|rewrite lookup_insert_ne by done; eauto]).
Qed.

(** The function whose body is put off is bound in the module's scope, and its
    body stands behind what was read, at an opening brace. *)
Record deferred_ok (scope : nat) (s : pstate) (d : deferred_body) : Prop := {
  do_pos : db_pos d <= st_cursor (ps_stream s);
  do_brace : symbol_at (ps_stream s) (db_pos d) = chr "{";
  do_bound : exists sc f, ps_heap s !! scope = Some sc /\
    mSymbolList sc !! f_name (db_function d) = Some (SymFunction f) /\ fid f = fid (db_function d);
  do_scope : exists sc, ps_heap s !! db_scope d = Some sc /\ mParent sc = Some scope
}.

Lemma same_function f o : same_object (SymFunction f) o = true -> exists g, o = SymFunction g /\ fid g = fid f.
Proof. destruct o; cbn; try done. intros ->%bool_decide_eq_true. eauto. Qed.

Lemma bound_kept h h' scope name id :
  kept h h' ->
  (exists sc f, h !! scope = Some sc /\ mSymbolList sc !! name = Some (SymFunction f) /\ fid f = id) ->
  exists sc f, h' !! scope = Some sc /\ mSymbolList sc !! name = Some (SymFunction f) /\ fid f = id.
Proof.
  intros Hk (sc & f & Hs & Hf & <-). destruct (Hk _ _ Hs) as (sc' & Hs' & [_ Hk']).
  destruct (Hk' _ _ Hf) as (o & Ho & (g & -> & E)%same_function). by exists sc', g.
Qed.

Lemma parent_kept h h' i p :
  kept h h' -> (exists sc, h !! i = Some sc /\ mParent sc = p) -> exists sc, h' !! i = Some sc /\ mParent sc = p.
Proof. intros Hk (sc & Hs & <-). destruct (Hk _ _ Hs) as (sc' & Hs' & [E _]). by exists sc'. Qed.

Lemma deferred_ok_advance scope s s' d : advance s s' -> deferred_ok scope s d -> deferred_ok scope s' d.
Proof.
  intros [Hf Hk] []. split.
  - pose proof (forward_cursor _ _ Hf). lia.
  - destruct (forward_symbol _ _ Hf (db_pos d) do_pos0) as [->|[E _]]; [done|]. rewrite do_brace0 in E. discriminate E.
  - by eapply bound_kept.
  - by eapply parent_kept.
Qed.

(** What holds between two declarations. *)
Record between (scope : nat) (s : pstate) : Prop := {
  bt_stream : stream_ok (ps_stream s);
  bt_modules : no_modules (ps_heap s);
  bt_fresh : fresh s;
  bt_scope : is_Some (ps_heap s !! scope);
  bt_source : mIsExtern (dc_module (ps_declared s)) = false;
  bt_deferred : Forall (deferred_ok scope s) (dc_deferred (ps_declared s));
  bt_sorted : StronglySorted (fun a b => db_pos a <= db_pos b) (dc_deferred (ps_declared s))
}.

Lemma between_ok scope s : between scope s -> ok s.
Proof. intros []. split; [done|by apply no_modules_clash_free]. Qed.

Lemma reached_advance s s' : fresh s -> reached s s' -> advance s s'.
Proof. intros Hf []. split; [done|]. apply keeps_kept. by apply reached_keeps. Qed.

Lemma scope_kept h h' scope : kept h h' -> is_Some (h !! scope) -> is_Some (h' !! scope).
Proof. intros Hk [s Hs]. destruct (Hk _ _ Hs) as (s' & ? & _). by exists s'. Qed.

Lemma reached_between scope s s' : reached s s' -> ok s' -> between scope s -> between scope s'.
Proof.
  intros Hr [Ho _] []. pose proof (reached_advance _ _ bt_fresh0 Hr) as Ha.
  split; [done| |by apply (reached_keeps _ _ Hr)| |by rewrite (reached_extern _ _ Hr)|rewrite (reached_deferred _ _ Hr)..]; try done.
  - split; [apply (reached_imports _ _ Hr), bt_modules0|apply (reached_namespaces _ _ Hr), bt_modules0].
  - eapply scope_kept; [apply Ha|done].
  - eapply Forall_impl; [done|]. intros d. by apply deferred_ok_advance.
Qed.

(** From [s0] on, [c] consumed so far, [m] ends with [d] consumed. *)
Definition mfrom {A} (scope : nat) (s0 : pstate) (c : nat) (m : parser A) (d : A -> nat) : Prop :=
  forall s, advance s0 s -> between scope s -> rest s + c <= rest s0 ->
  ends m s (fun r s' => advance s0 s' /\ between scope s' /\
    match r with Returns a => rest s' + d a <= rest s0 | Throws _ => True end).

Section rules.
Context (scope : nat) (s0 : pstate).

Lemma mfrom_ret {A} c (a : A) (d : A -> nat) : d a <= c -> mfrom scope s0 c (mret a) d.
Proof. intros Hd s Ha Hb Hc. split; [done|]. split; [done|]. lia. Qed.

Lemma mfrom_bind {A B} c (m : parser A) (f : A -> parser B) d1 d :
  mfrom scope s0 c m d1 -> (forall a, mfrom scope s0 (d1 a) (f a) d) -> mfrom scope s0 c (m ≫= f) d.
Proof.
  intros Hm Hf s Ha Hb Hc. apply ends_bind. eapply ends_mono; [by apply Hm|].
  intros [a|e] s' (Ha' & Hb' & Hr); [by apply Hf|done].
Qed.

Lemma mfrom_spec {A} c b (m : parser A) d d' :
  spec b None m d -> rest s0 <= b + c -> (forall a, d' a <= c + d a) -> mfrom scope s0 c m d'.
Proof.
  intros Hm Hb Hd s Ha Hs Hc. eapply ends_mono; [apply (Hm s); [lia|done|by eapply between_ok|lia|done]|].
  intros r s' (Hr & Ho & Hq). split; [etrans; [done|apply reached_advance; [apply Hs|done]]|].
  split; [by eapply reached_between|]. destruct r as [a|e]; [|done]. specialize (Hd a). lia.
Qed.

(** Something that has a specification, and what follows it. *)
Lemma mfrom_call {A B} c b (m : parser A) (f : A -> parser B) d1 d :
  spec b None m d1 -> rest s0 <= b + c -> (forall a, mfrom scope s0 (c + d1 a) (f a) d) ->
  mfrom scope s0 c (m ≫= f) d.
Proof. intros Hm Hb Hf. apply (mfrom_bind _ _ _ (fun a => c + d1 a)); [by eapply mfrom_spec|exact Hf]. Qed.

Lemma mfrom_assoc {A B C} c (m : parser B) (g : B -> parser C) (f : C -> parser A) d :
  mfrom scope s0 c (m ≫= (fun b => g b ≫= f)) d -> mfrom scope s0 c ((m ≫= g) ≫= f) d.
Proof.
  intros H s Ha Hb Hc. specialize (H s Ha Hb Hc). unfold ends, mbind, parser_bind in H |- *.
  by destruct (m s) as [[[a|e] s']| |].
Qed.

(** A struct is registered. *)
Lemma mfrom_add_symbol {B} c i sym (f : unit -> parser B) d :
  mfrom scope s0 c (f tt) d -> mfrom scope s0 c (add_symbol i sym ≫= f) d.
Proof.
  intros Hf s Ha Hb Hc. apply ends_bind. unfold ends, add_symbol, change.
  set (s' := with_heap _ s). assert (advance s s') as Has by (split; [done|apply kept_add_symbol]).
  apply Hf; [by etrans| |done]. destruct Hb. split; [done|by apply no_modules_add_symbol| | |done| |done].
  - intros j Hj. specialize (bt_fresh0 j Hj). cbn. unfold addSymbol.
    destruct (ps_heap s !! i) as [t|] eqn:E; [|done]. destruct (mSymbolList t !! _); [done|]. cbn. rewrite lookup_insert_ne by congruence. done.
  - eapply scope_kept; [apply Has|done].
  - eapply Forall_impl; [done|]. intros d'. by apply deferred_ok_advance.
Qed.

(** Without modules there is nothing to import. *)
Lemma mfrom_find_namespace {B} c name (f : option nat -> parser B) d :
  mfrom scope s0 c (f None) d -> mfrom scope s0 c (find_namespace scope name ≫= f) d.
Proof.
  intros Hf s Ha Hb Hc. apply ends_observe. rewrite (no_modules_namespace _ _ _ (bt_modules _ _ Hb)). by apply Hf.
Qed.
End rules.

(** * What a run returns *)

Definition yields {A} (m : parser A) (P : A -> Prop) : Prop := forall s a s', m s = Done (Returns a, s') -> P a.

Lemma yields_ret {A} (a : A) (P : A -> Prop) : P a -> yields (mret a) P.
Proof. by intros H s a' s' [= <- _]. Qed.

Lemma yields_seq {A B} (m : parser A) (f : A -> parser B) (P : A -> Prop) (Q : B -> Prop) :
  yields m P -> (forall a, P a -> yields (f a) Q) -> yields (m ≫= f) Q.
Proof.
  intros Hm Hf s b s'. unfold mbind, parser_bind. destruct (m s) as [[[a|e] s1]| |] eqn:E; try done.
  by apply Hf, (Hm s a s1).
Qed.

Lemma yields_any {A} (m : parser A) : yields m (fun _ => True).
Proof. done. Qed.

Lemma yields_bind {A B} (m : parser A) (f : A -> parser B) (Q : B -> Prop) :
  (forall a, yields (f a) Q) -> yields (m ≫= f) Q.
Proof. intros Hf. eapply yields_seq; [apply yields_any|auto]. Qed.

Lemma yields_throw {A} file line message (P : A -> Prop) : yields (COMPILE_ERROR file line message) P.
Proof.
  intros s a s'. unfold COMPILE_ERROR, mbind, parser_bind. by destruct (getTokenLocation s) as [[[]]| |].
Qed.

Lemma yields_loop {B A} fuel (body : B -> parser (loop_step B A)) (I : B -> Prop) (P : A -> Prop) b :
  I b -> (forall b, I b -> yields (body b) (fun r => match r with Next b' => I b' | Break a => P a end)) ->
  yields (parser_loop fuel body b) P.
Proof.
  intros Hb Hbody. revert b Hb. induction fuel as [|fuel IH]; intros b Hb; [done|]. cbn [parser_loop].
  eapply yields_seq; [by apply Hbody|]. intros [b'|a]; [apply IH|apply yields_ret].
Qed.

(** The same object under the same name. *)
Definition same_func (f g : FunctionDefinition) : Prop := fid g = fid f /\ f_name g = f_name f.

Ltac yielding := repeat first
  [ match goal with |- yields (parser_loop _ _ _ ≫= _) _ => fail 2 end
  | apply yields_bind; intros ?
  | match goal with |- yields (if ?b then _ else _) _ => destruct b end
  | match goal with |- yields (match ?x with _ => _ end) _ => destruct x end
  | apply yields_ret ].

Lemma yields_generics fuel scope f : yields (function_generics fuel scope f) (same_func f).
Proof.
  unfold function_generics. yielding; try done.
  eapply (yields_seq _ _ (fun r => same_func f r.1)).
  - apply (yields_loop _ _ (same_func f)); [done|]. intros g [Hg Hn]. unfold function_generic. yielding; done.
  - intros [g sym] Hg. by yielding.
Qed.

Lemma yields_params rec fuel scope ext f : yields (function_params rec fuel scope ext f) (same_func f).
Proof.
  unfold function_params. yielding; try done.
  eapply (yields_seq _ _ (fun r => same_func f r.1)).
  - apply (yields_loop _ _ (same_func f)); [done|]. intros g [Hg Hn]. unfold function_param. yielding; done.
  - intros [g sym] Hg. by yielding.
Qed.

Lemma yields_return rec scope ext f : yields (return_type rec scope ext f) (same_func f).
Proof. unfold return_type. by yielding. Qed.

(** * Functions *)

Lemma ends_next {A B} b (m : parser A) d P (f : A -> parser B) s Q :
  ok s -> spec b None m d -> rest s <= b -> yields m P ->
  (forall a s', reached s s' -> ok s' -> rest s' + d a <= rest s -> P a -> ends (f a) s' Q) ->
  (forall e s', reached s s' -> ok s' -> Q (Throws e) s') ->
  ends (m ≫= f) s Q.
Proof.
  intros Ho Hm Hb Hy Hf Ht. apply ends_bind.
  assert (ends m s (within s d)) as He by (apply (Hm s); [done|done|done|lia|done]).
  unfold ends in *. destruct (m s) as [[[a|e] s']| |] eqn:E; [| |done..]; destruct He as (H1 & H2 & H3); [|by apply Ht].
  apply Hf; [done..|]. by eapply Hy.
Qed.

Lemma spec_still {A} b (m : parser A) : still m -> spec b None m (fun _ => 0).
Proof. intros Hm s0 Hs. apply from_eta, from_still; [done|]. intros a. by apply from_ret. Qed.

Lemma returns_bind {A B} (m : parser A) (f : A -> parser B) s b s' :
  (m ≫= f) s = Done (Returns b, s') -> exists a s1, m s = Done (Returns a, s1) /\ f a s1 = Done (Returns b, s').
Proof. unfold mbind, parser_bind. destruct (m s) as [[[a|e] s1]| |]; intros H; try done. by exists a, s1. Qed.

Lemma still_peek : still peekSymbol.
Proof.
  apply still_stream. intros s Ho.
  split; [apply forward_peek|]. split; [by apply ok_peek|]. apply peek_same.
Qed.

(** A run of something still. *)
Lemma still_returns {A} (m : parser A) s a s' :
  still m -> ok s -> m s = Done (Returns a, s') -> reached s s' /\ ok s' /\ rest s' = rest s /\ upcoming s' = upcoming s.
Proof. intros Hm Ho E. destruct (Hm s Ho) as (a' & s1 & E' & H). rewrite E in E'. by injection E' as <- <-. Qed.

(** And of something with a specification. *)
Lemma spec_returns {A} b (m : parser A) d s a s' :
  spec b None m d -> ok s -> rest s <= b -> m s = Done (Returns a, s') -> reached s s' /\ ok s' /\ rest s' + d a <= rest s.
Proof.
  intros Hm Ho Hb E. assert (ends m s (within s d)) as He by (apply (Hm s); [done|done|done|lia|done]).
  unfold ends in He. by rewrite E in He.
Qed.

Section total.
Variable rec : parsers.
Variable depth : nat.
Hypothesis HT : forall b scope v, 5 * b + 5 <= depth -> spec b None (rec_Type rec scope v) (fun _ => 0).
Hypothesis HE : forall b scope p, 5 * b + 7 <= depth -> spec b None (rec_Expr rec scope p) found.
Hypothesis HB : forall b scope, 5 * b + 8 <= depth -> spec b None (rec_Block rec scope) (fun _ => 1).
Hint Resolve HT HE HB : parse.
Hint Resolve spec_register_function spec_function_generics spec_function_params spec_return_type
  spec_contract_clause spec_function_body : parse.

(** Where a body is put off, a brace stands. *)
Definition body_found (s s' : pstate) (pos : option nat) : Prop :=
  forall p, pos = Some p -> st_cursor (ps_stream s) <= p <= st_cursor (ps_stream s') /\
    symbol_at (ps_stream s') p = chr "{".

Lemma skip_body_found s p s' :
  ok s -> 5 * rest s + 9 <= depth -> skip_body depth s = Done (Returns p, s') -> body_found s s' (Some p).
Proof.
  intros Ho Hd E. destruct (spec_returns (rest s) _ _ _ _ _ (spec_skip_body depth (rest s) Hd) Ho ltac:(done) E) as (Hr & _).
  pose proof (reached_stream _ _ Hr) as Hw.
  apply returns_bind in E as (pos & s1 & [= <- <-] & E). apply returns_bind in E as ([] & s1 & E1 & E).
  apply returns_bind in E as ([] & s2 & _ & [= <- <-]).
  apply returns_bind in E1 as (z & s3 & E1 & E2). injection E1 as <- <-.
  intros q [= <-]. pose proof (forward_cursor _ _ Hw). split; [lia|].
  assert (upcoming s = chr "{") as Hu.
  { destruct (decide (upcoming s = chr "{")) as [|Hn]; [done|]. rewrite bool_decide_true in E2 by done.
    by destruct (yields_throw _ _ _ (fun _ => False) _ _ _ E2). }
  destruct (forward_symbol _ _ Hw (st_cursor (ps_stream s)) ltac:(done)) as [->|[E _]]; [done|].
  unfold upcoming in Hu. rewrite Hu in E. discriminate E.
Qed.

Lemma function_body_found s func_scope ext defer b p s' :
  ok s -> 5 * rest s + 9 <= depth -> function_body rec depth func_scope ext defer s = Done (Returns (b, p), s') ->
  body_found s s' p.
Proof.
  intros Ho Hd E. destruct p as [p|]; [|by intros q]. unfold function_body in E. destruct ext.
  { by apply returns_bind in E as ([] & s1 & _ & [=]). }
  apply returns_bind in E as (z & s1 & E1 & E). apply still_returns in E1 as (H1 & Ho1 & Hr1 & _); [|apply still_peek|done].
  case_decide. { by apply returns_bind in E as (? & ? & _ & [=]). }
  destruct defer; apply returns_bind in E as (q & s2 & E & E2); [|done]. injection E2 as <- <- <-.
  intros q' [= <-]. destruct (skip_body_found s1 q s2 Ho1 ltac:(lia) E q eq_refl) as [[Hc ?] ?].
  pose proof (forward_cursor _ _ (reached_stream _ _ H1)). split; [lia|done].
Qed.

(** One operation of a run that returns: the run has gone on to a state that is
    reached, and what the operation returned is known by its equation. *)
Ltac run_on E E1 := lazymatch type of E with
  (?m ≫= _) ?s = Done (Returns _, _) =>
    let a := fresh "a" in let s1 := fresh "s" in let Hr := fresh in let Ho := fresh in
    apply returns_bind in E as (a & s1 & E1 & E);
    lazymatch goal with Hok : ok s, Hsr : reached ?o s |- _ =>
      let Hsp := fresh in
      assert (spec (rest s) None m (fun _ => 0)) as Hsp by
        (pose proof (reached_rest _ _ Hsr);
         let t := fresh in let Ht := fresh in intros t Ht; cbn beta; unfold new_function; parsing);
      destruct (spec_returns _ _ _ _ _ _ Hsp Hok (Nat.le_refl _) E1) as (Hr & Ho & _); clear Hsp Hok;
      apply (transitivity Hsr) in Hr; clear Hsr
    end
  end.

(** The scope binds the name, and the function's own scope lies below it. *)
Definition registered (h : heap) (scope : nat) (f : FunctionDefinition) (fs : nat) : Prop :=
  (exists sc g, h !! scope = Some sc /\ mSymbolList sc !! f_name f = Some (SymFunction g) /\ fid g = fid f) /\
  exists sc, h !! fs = Some sc /\ mParent sc = Some scope.

Lemma registered_kept h h' scope f g fs : kept h h' -> same_func f g -> registered h scope f fs -> registered h' scope g fs.
Proof.
  intros Hk [Hi Hn] [Hb Hp]. split; [rewrite Hi, Hn; by eapply bound_kept|by eapply parent_kept].
Qed.

Lemma register_returns s scope name loc ext pub async f fs s' :
  fresh s -> is_Some (ps_heap s !! scope) ->
  register_function scope name loc ext pub async s = Done (Returns (f, fs), s') -> registered (ps_heap s') scope f fs.
Proof.
  intros Hf [sc Hs] E. unfold register_function in E.
  apply returns_bind in E as (g & s1 & E1 & E). unfold new_function in E1. cbn in E1. injection E1 as <- <-.
  apply returns_bind in E as (i & s2 & E1 & E). injection E1 as <- <-.
  apply returns_bind in E as (b & s3 & E1 & E). apply returns_bind in E as ([] & s4 & E2 & E). injection E as <- <- <-.
  set (n := ps_next_scope s) in *. assert (n <> scope) as Hne by (intros <-; by rewrite Hf in Hs by done).
  destruct b; [|by destruct (yields_throw _ _ _ (fun _ => False) _ _ _ E2)]. injection E2 as <-.
  unfold try_add_symbol in E1. cbn [ps_heap] in E1.
  set (h := setParent scope n (<[n:=Scope_new kScope_Function]> (ps_heap s))) in *.
  assert (h !! scope = Some sc) as Hsc.
  { unfold h, setParent, update. by rewrite lookup_alter_ne, lookup_insert_ne. }
  assert (h !! n = Some (set_parent (Scope_new kScope_Function) (Some scope))) as Hn.
  { unfold h, setParent, update. by rewrite lookup_alter_eq, lookup_insert_eq. }
  unfold addSymbol in E1. rewrite Hsc in E1. destruct (mSymbolList sc !! _); [done|]. injection E1 as <-.
  split; cbn [with_heap ps_heap].
  - eexists _, _. rewrite lookup_insert_eq. split; [done|]. cbn. by rewrite lookup_insert_eq.
  - eexists. rewrite lookup_insert_ne by done. by split.
Qed.

Lemma FunctionDefinition_returns s scope ext pub defer f fs p s' :
  ok s -> fresh s -> is_Some (ps_heap s !! scope) -> 5 * rest s + 9 <= depth ->
  FunctionDefinition_Parse rec depth scope ext pub defer s = Done (Returns (f, fs, p), s') ->
  registered (ps_heap s') scope f fs /\ body_found s s' p.
Proof.
  intros Hos Hf Hs Hd E. unfold FunctionDefinition_Parse in E.
  assert (reached s s) as Hr by done. assert (ok s) as Ho by done.
  do 7 (let H := fresh in run_on E H; clear H).
  match goal with H : reached s ?t |- _ => rename t into t1, H into Hr1 end.
  pose proof (reached_advance _ _ Hf Hr1) as Ha. destruct (reached_keeps _ _ Hr1 Hf) as [Hf1 _].
  run_on E Ereg. match goal with H : reached s ?t |- _ => rename t into t2, H into Hr2 end.
  destruct a6 as [f0 fs0]. apply register_returns in Ereg; [|done|by eapply scope_kept, Hs; apply Ha].
  destruct (reached_keeps _ _ Hr2 Hf) as [Hf2 _]. pose proof (forward_cursor _ _ (reached_stream _ _ Hr2)) as Hc2.
  assert (5 * rest t2 + 9 <= depth) as Hd2 by (pose proof (reached_rest _ _ Hr2); lia). clear Hr2.
  assert (reached t2 t2) as Hr2 by done.
  run_on E E1. apply yields_generics in E1. run_on E E2. apply yields_params in E2. run_on E E3. apply yields_return in E3.
  run_on E E4. clear E4. run_on E E4. clear E4.
  match goal with H : reached t2 ?t, Ho : ok ?t |- _ => rename t into t3, H into Hr3, Ho into Ho3 end.
  pose proof (reached_rest _ _ Hr3).  pose proof (forward_cursor _ _ (reached_stream _ _ Hr3)) as Hc3.
  apply returns_bind in E as ([b q] & t4 & E4 & E).
  destruct (spec_returns (rest t3) _ _ _ _ _ (spec_function_body rec depth HB (rest t3) fs0 ext defer ltac:(lia)) Ho3 ltac:(done) E4)
    as (Hr4 & _).
  apply function_body_found in E4; [|done|lia].
  apply returns_bind in E as ([] & t5 & E6 & E). injection E6 as <-. injection E as <- <- <- <-. split.
  - eapply (registered_kept (ps_heap t2)); [|..|exact Ereg].
    + apply keeps_kept. by apply (reached_keeps t2 t4); [etrans|].
    + destruct E1, E2, E3. split; congruence.
  - intros p' Hp. destruct (E4 p' Hp) as [[? ?] ?]. split; [cbn; lia|done].
Qed.
End total.

(** * One declaration *)

Section declaring.
Variable rec : parsers.
Variable depth : nat.
Hypothesis HT : forall b scope v, 5 * b + 5 <= depth -> spec b None (rec_Type rec scope v) (fun _ => 0).
Hypothesis HE : forall b scope p, 5 * b + 7 <= depth -> spec b None (rec_Expr rec scope p) found.
Hypothesis HB : forall b scope, 5 * b + 8 <= depth -> spec b None (rec_Block rec scope) (fun _ => 1).
Hint Resolve HT HE HB : parse.
Hint Resolve spec_struct_header spec_dotted_pass spec_import_alias spec_annotation spec_check_format
  spec_ProtocolDefinition spec_ParseImplBlock spec_EnumDefinition spec_TestBlock spec_EventHandler
  spec_FunctionDefinition : parse.

Variable scope : nat.

Ltac specified := let t := fresh in let Ht := fresh in intros t Ht; cbn beta; parsing.

Lemma mfrom_declare_struct s0 pub table line l :
  5 * rest s0 + 9 <= depth -> mfrom scope s0 0 (declare_struct rec depth scope pub table line l) (fun _ => 1).
Proof.
  intros Hd. unfold declare_struct, StructDefinition_Parse. apply mfrom_assoc.
  eapply (mfrom_call _ _ _ (rest s0)); [apply (spec_struct_header rec depth HT); lia|lia|intros sd].
  apply mfrom_assoc, mfrom_add_symbol.
  eapply (mfrom_spec _ _ _ (rest s0) _ (fun _ => 0)); [|lia|lia].
  unfold json_functions, new_function, push_struct. specified.
Qed.

Ltac call d := lazymatch goal with |- mfrom _ ?s0 _ _ _ =>
  eapply (mfrom_call scope s0 _ (rest s0) _ _ d); [specified|lia|intros ?; cbn beta] end.

Lemma mfrom_import s0 : 5 * rest s0 + 9 <= depth -> mfrom scope s0 0 (import_statement depth scope) (fun _ => 1).
Proof.
  intros Hd. unfold import_statement.
  call (fun _ : SourceLocation => 0). call (fun _ : Z => 0). call (fun _ : string => 1). call (fun _ : string => 0).
  call (fun _ : string => 0). call (fun _ : unit => 0). unfold push_import. call (fun _ : unit => 0).
  unfold bind_import. cbv zeta. apply mfrom_find_namespace, mfrom_ret. lia.
Qed.

(** A body that is put off joins the others. *)
Lemma between_push s f fs p :
  between scope s -> registered (ps_heap s) scope f fs ->
  p <= st_cursor (ps_stream s) -> symbol_at (ps_stream s) p = chr "{" ->
  Forall (fun d => db_pos d <= p) (dc_deferred (ps_declared s)) ->
  let s' := with_declared (fun dc => mkDeclared (dc_module dc) (dc_deferred dc ++ [mkDeferred f fs p]) (dc_objects dc)) s in
  advance s s' /\ between scope s'.
Proof.
  intros [] [Hb Hs] Hp Hz Hl s'. assert (advance s s') as Ha by (by split). split; [done|].
  split; cbn; [done|done|done|done|done| |].
  - apply Forall_app. split; [eapply Forall_impl; [exact bt_deferred0|]; intros d; exact (deferred_ok_advance scope s s' d Ha)|].
    apply Forall_singleton. split; [exact Hp|exact Hz|exact Hb|exact Hs].
  - apply StronglySorted_app. split; [|split]; [|done|by repeat constructor].
    intros x y Hx ->%list_elem_of_singleton. rewrite Forall_forall in Hl. by apply Hl.
Qed.

Lemma mfrom_declare_function s0 pub sym l :
  5 * rest s0 + 9 <= depth -> mfrom scope s0 0 (declare_function rec depth scope pub sym l) (fun _ => 1).
Proof.
  intros Hd. unfold declare_function.
  call (fun _ : bool => 0). call (fun _ : Z => 0). call (fun _ : unit => 0).
  intros s Ha Hb Hc. pose proof (between_ok _ _ Hb) as Ho.
  assert (5 * rest s + 9 <= depth) as Hds by lia.
  pose proof (spec_FunctionDefinition rec depth HT HE HB (rest s) scope a pub true Hds) as Hsp.
  apply ends_bind. pose proof (mfrom_spec scope s0 0 (rest s0) _ _ (fun _ => 1)
    (spec_FunctionDefinition rec depth HT HE HB (rest s0) scope a pub true Hd) ltac:(lia) ltac:(cbn; lia) s Ha Hb ltac:(lia)) as He.
  unfold ends in He |- *.
  destruct (FunctionDefinition_Parse rec depth scope a pub true s) as [[[[[f fs] p]|e] s1]| |] eqn:E; try done.
  destruct (FunctionDefinition_returns rec depth HT HE HB s scope a pub true f fs p s1 Ho (bt_fresh _ _ Hb)
    (bt_scope _ _ Hb) Hds E) as [Hreg Hfound].
  destruct (spec_returns _ _ _ _ _ _ Hsp Ho ltac:(done) E) as (Hr1 & Ho1 & _).
  destruct He as (Ha1 & Hb1 & Hc1). cbn beta iota.
  set (g := setAnnotations_function f l).
  destruct (still_write_object (SymFunction g) s1 Ho1) as (u & s2 & E2 & Hr2 & Ho2 & Hq2 & _).
  unfold mbind at 1, parser_bind at 1. rewrite E2.
  pose proof (reached_between _ _ _ Hr2 Ho2 Hb1) as Hb2. pose proof (reached_advance _ _ (bt_fresh _ _ Hb1) Hr2) as Ha2.
  apply (registered_kept _ _ _ f g fs (advance_kept _ _ Ha2) ltac:(done)) in Hreg.
  assert (mfrom scope s0 1 (check_format g l;; push_function g) (fun _ => 1)) as Hm.
  { unfold push_function. eapply (mfrom_spec _ _ _ (rest s0) _ (fun _ => 0)); [specified|lia|lia]. }
  destruct p as [p|].
  - destruct (Hfound p eq_refl) as [[Hp1 Hp2] Hz].
    pose proof (advance_stream _ _ Ha2) as Hw. pose proof (forward_cursor _ _ Hw).
    destruct (between_push s2 g fs p) as [Ha3 Hb3]; [done|done|lia| | |].
    + destruct (forward_symbol _ _ Hw p Hp2) as [->|[E3 _]]; [done|]. rewrite Hz in E3. discriminate E3.
    + rewrite (reached_deferred _ _ Hr2), (reached_deferred _ _ Hr1).
      eapply Forall_impl; [apply (bt_deferred _ _ Hb)|]. intros d [Hdp _ _ _]. lia.
    + unfold push_deferred. apply (Hm (with_declared _ s2)); [by do 2 (etrans; [done|])|done|]. 
      change (rest s2 + 1 <= rest s0). lia.
  - apply Hm; [by etrans|done|lia].
Qed.

(** Any declaration consumes something. *)
Lemma mfrom_declaration s0 sym :
  5 * rest s0 + 9 <= depth -> mfrom scope s0 0 (declaration rec depth scope sym) (fun _ => 1).
Proof.
  intros Hd. unfold declaration. destruct (decide _); [by apply mfrom_import|].
  call (fun _ : list AnnotationNode * Z => 0). destruct a as [l z]. call (fun _ : bool => 0). call (fun _ : Z => 0).
  destruct (decide _).
  { call (fun _ : Z => 0). call (fun _ : Z => 0). call (fun _ : unit => 0). by apply mfrom_declare_struct. }
  destruct (decide _); [by apply mfrom_declare_struct|].
  do 5 (destruct (decide _); [
    try unfold push_protocol; try unfold push_enum; try unfold push_test;
    eapply (mfrom_spec _ _ _ (rest s0) _ (fun _ => 1)); [specified|lia|lia]|]).
  by apply mfrom_declare_function.
Qed.
End declaring.

(** * Recovery *)

(** What reading a symbol that is not the end consumes. *)
Lemma ends_get_real {A} (f : Z -> parser A) s Q :
  ok s -> upcoming s <> (-1)%Z ->
  (forall s', reached s s' -> ok s' -> rest s' < rest s -> ends (f (upcoming s)) s' Q) ->
  ends (getSymbol ≫= f) s Q.
Proof.
  intros [Ho Hh] Hu Hf. apply ends_bind. unfold ends, getSymbol, on_stream. cbn.
  pose proof (rest_at_get _ (st_cursor (ps_stream s)) Ho) as Hg.
  pose proof (forward_get (ps_stream s)) as Hw. pose proof (ok_get _ Ho) as Ho'. cbn in Hw, Ho'.
  set (s' := with_stream _ s).
  assert (reached s s') as Hr by (apply reached_with_stream; [done|exact Hw]).
  apply Hf; [done|by split|]. rewrite real_close in Hg by exact Hu.
  change (rest s') with (rest_at (ps_stream s) (S (st_cursor (ps_stream s)))). unfold rest. lia.
Qed.

(** A pass that goes on has consumed a symbol. *)
Lemma ends_resync_top_pass s0 st :
  ok s0 ->
  ends (resync_top_pass st) s0 (fun r s' => reached s0 s' /\ ok s' /\ match r with
    | Returns (Next st') => st'.2 = false /\ rest s' < rest s0
    | Returns (Break _) => rest s' = rest s0 /\ (stream_isEOF (ps_stream s') = true \/ st.2 = false)
    | Throws _ => False
    end).
Proof.
  intros Ho. destruct st as [n first]. unfold resync_top_pass. apply ends_observe.
  destruct (stream_isEOF (ps_stream s0)) eqn:He; [by repeat (split; [done|]); left|].
  apply ends_peek; [done|]. intros s1 H1 Ho1 Hr1 Hu1 He1.
  case_decide as Hz; [by repeat (split; [done|]); left; apply He1|].
  destruct (_ && _) eqn:E.
  - repeat (split; [done|]). right. by destruct first.
  - rewrite <-Hu1 in *. apply ends_get_real; [done..|]. intros s2 H2 Ho2 Hr2. split; [by etrans|]. split; [done|]. 
    split; [done|lia].
Qed.

(** Recovery never throws, and it gets away from where it started unless that
    is the end. *)
Lemma ends_resync_top fuel s :
  ok s -> rest s < fuel ->
  ends (resyncTopLevel fuel) s (fun r s' => reached s s' /\ ok s' /\ match r with
    | Returns _ => rest s' < rest s \/ stream_isEOF (ps_stream s') = true
    | Throws _ => False
    end).
Proof.
  intros Ho Hf. unfold resyncTopLevel.
  apply (ends_loop _ (fun st s' => reached s s' /\ ok s' /\ rest s' <= rest s /\ (st.2 = false -> rest s' < rest s)) (fun _ => rest)); [|by split_and!|done].
  intros st s1 (H1 & Ho1 & Hr1 & Hl1). eapply ends_mono; [by apply ends_resync_top_pass|].
  intros [[st'|[]]|e] s2 (H2 & Ho2 & Hq); [| |done].
  - destruct Hq as [_ Hq]. split; [|done]. split; [by etrans|]. split; [done|]. split; [lia|]. intros _. lia.
  - split; [by etrans|]. split; [done|]. destruct Hq as [Hq [|Hb]]; [by right|left]. specialize (Hl1 Hb). lia.
Qed.

(** * The declarations of a module *)

Lemma advance_rest s s' : advance s s' -> rest s' <= rest s.
Proof.
  intros [[Hc Hr _ _] _]. unfold rest. rewrite <-(Hr (st_cursor (ps_stream s))) by done. by apply rest_at_le.
Qed.

(** Something that leaves the stream and the scopes alone. *)
Lemma between_still scope s s' : reached s s' -> ok s' -> between scope s -> advance s s' /\ between scope s'.
Proof. intros Hr Ho Hb. split; [apply reached_advance; [apply Hb|done]|by eapply reached_between]. Qed.

Lemma report_state err s :
  ok s -> let s' := with_diag (reportCompileError err) s in reached s s' /\ ok s' /\ rest s' = rest s.
Proof. intros Ho s'. destruct (still_change s s') as (? & ? & ? & _); done. Qed.

Section modules.
Variable rec : parsers.
Variable depth : nat.
Hypothesis HT : forall b scope v, 5 * b + 5 <= depth -> spec b None (rec_Type rec scope v) (fun _ => 0).
Hypothesis HE : forall b scope p, 5 * b + 7 <= depth -> spec b None (rec_Expr rec scope p) found.
Hypothesis HB : forall b scope, 5 * b + 8 <= depth -> spec b None (rec_Block rec scope) (fun _ => 1).
Variable scope : nat.

(** A pass reads a declaration, or recovers from its error; either way it gets
    on, unless it ends the loop. *)
Lemma ends_module_pass s u :
  between scope s -> 5 * rest s + 9 <= depth ->
  ends (module_pass rec depth scope u) s (fun r s' => advance s s' /\ between scope s' /\ match r with
    | Returns (Next _) => block_rest s' < block_rest s
    | Returns (Break _) => True
    | Throws _ => False
    end).
Proof.
  intros Hb Hd. pose proof (between_ok _ _ Hb) as Ho. unfold module_pass. apply ends_observe.
  destruct (stream_isEOF (ps_stream s)) eqn:He; [by split|].
  apply ends_peek; [done|]. intros s1 H1 Ho1 Hr1 _ _.
  destruct (between_still _ _ _ H1 Ho1 Hb) as [Ha1 Hb1].
  case_decide as Hz; [by split|]. apply ends_bind, ends_try.
  eapply ends_mono; [apply (mfrom_declaration rec depth HT HE HB scope s); [done|done|done|lia]|].
  intros [[]|err] s2 (Ha2 & Hb2 & Hr2).
  - split; [done|]. split; [done|]. cbn beta in Hr2. unfold block_rest. rewrite He. destruct (stream_isEOF (ps_stream s2)); lia.
  - unfold report_parse_error. apply ends_change.
    destruct (report_state err s2 (between_ok _ _ Hb2)) as (H3 & Ho3 & Hr3).
    destruct (between_still _ _ _ H3 Ho3 Hb2) as [Ha3 Hb3]. pose proof (advance_rest _ _ Ha2).
    eapply ends_mono; [apply ends_resync_top; [done|lia]|].
    intros [[]|e] s4 (H4 & Ho4 & Hr4); [|done].
    destruct (between_still _ _ _ H4 Ho4 Hb3) as [Ha4 Hb4]. split; [by do 2 (etrans; [done|])|]. split; [done|].
    pose proof (reached_rest _ _ H4). unfold block_rest. rewrite He.
    destruct Hr4 as [Hr4|Hq]; [destruct (stream_isEOF (ps_stream s4)); lia|rewrite Hq; lia].
Qed.

Lemma ends_module_loop s :
  between scope s -> 5 * rest s + 9 <= depth ->
  ends (parser_loop depth (module_pass rec depth scope) tt) s (fun r s' => advance s s' /\ between scope s' /\ exists u, r = Returns u).
Proof.
  intros Hb Hd. apply (ends_loop _ (fun _ s' => advance s s' /\ between scope s') (fun _ => block_rest)); [|done|].
  - intros u s1 [Ha1 Hb1]. pose proof (advance_rest _ _ Ha1).
    eapply ends_mono; [apply ends_module_pass; [done|lia]|].
    intros [[u'|u']|e] s2 (Ha2 & Hb2 & Hr2); [| |done].
    + split; [|done]. by split; [etrans|].
    + split; [by etrans|]. split; [done|by exists u'].
  - unfold block_rest. destruct (stream_isEOF _); lia.
Qed.

(** * The bodies that were put off *)

(** Up to a body's opening brace the stream is as it was. *)
Record in_place (s s' : pstate) (d : deferred_body) : Prop := {
  ip_brace : symbol_at (ps_stream s') (db_pos d) = chr "{";
  ip_before : take (db_pos d) (st_tokens (ps_stream s')) = take (db_pos d) (st_tokens (ps_stream s));
  ip_rest : rest_at (ps_stream s') (db_pos d) = rest_at (ps_stream s) (db_pos d)
}.

(** Since the declarations were read, at [s]: the bodies [l] are still to be
    parsed. *)
Record bodies_ready (s : pstate) (l : list deferred_body) (s' : pstate) : Prop := {
  br_ok : ok s';
  br_fresh : fresh s';
  br_source : mIsExtern (dc_module (ps_declared s')) = false;
  br_kept : kept (ps_heap s) (ps_heap s');
  br_place : Forall (in_place s s') l
}.

Lemma in_place_before s s1 s2 d' :
  forward (ps_stream s1) (ps_stream s2) -> db_pos d' <= st_cursor (ps_stream s1) ->
  in_place s s1 d' -> in_place s s2 d'.
Proof.
  intros Hf Hle []. split.
  - destruct (forward_symbol _ _ Hf (db_pos d') Hle) as [->|[E _]]; [done|]. rewrite ip_brace0 in E. discriminate E.
  - by rewrite (forward_take _ _ Hf).
  - by rewrite (forward_rest _ _ Hf).
Qed.

Lemma bodies_run s d l s1 s2 :
  st_cursor (ps_stream s1) = db_pos d -> Forall (fun d' => db_pos d' <= db_pos d) l ->
  bodies_ready s l s1 -> reached s1 s2 -> ok s2 -> bodies_ready s l s2.
Proof.
  intros Hc Hl [] Hr Ho. destruct (reached_keeps _ _ Hr br_fresh0) as [Hf Hk].
  split; [done|done|by rewrite (reached_extern _ _ Hr)|etrans; [done|by apply keeps_kept]|].
  eapply Forall_impl; [apply Forall_and; exact (conj br_place0 Hl)|]. intros d' [Hp Hd].
  eapply in_place_before; [apply Hr|by rewrite Hc|done].
Qed.

(** A body is parsed at its brace, whatever it then throws. *)
Lemma ends_deferred_body s d l s1 :
  bodies_ready s (d :: l) s1 -> Forall (fun d' => db_pos d' <= db_pos d) l ->
  5 * rest_at (ps_stream s) (db_pos d) + 8 <= depth ->
  ends (deferred_body_pass rec d) s1 (fun r s2 => bodies_ready s l s2 /\ exists u, r = Returns u).
Proof.
  intros [Ho Hf Hx Hk Hp] Hl Hd. apply Forall_cons in Hp as [Hd1 Hp].
  unfold deferred_body_pass, ParseDeferredBody. apply ends_try, ends_change.
  set (s2 := with_stream _ s1).
  assert (rest s2 = rest_at (ps_stream s) (db_pos d)) as Hr by (apply Hd1).
  assert (ok s2) as Ho2 by (split; [apply ok_back, Ho|apply Ho]).
  assert (bodies_ready s l s2) as Hb2.
  { split; [done|done|done|done|]. eapply Forall_impl; [exact Hp|]. intros d' []. by split. }
  apply ends_bind. eapply ends_mono; [apply (HB (rest s2) (db_scope d)); [lia|done|done|done|lia|done]|].
  intros [b|err] s3 (H3 & Ho3 & _).
  - destruct (still_change_module (fun m => mkModule (mFunctionList m) (mStructList m) (mEnumList m) (mProtocolList m)
      (mImports m) (mTestBlocks m) (mIsExtern m) (mDefiningFile m)
      (alter (fun body => mkBody (mRequiresClauses body) (mEnsuresClauses body) (Some b)) (fid (db_function d)) (mBodies m)))
      ltac:(done) s3 Ho3) as (u & s4 & E & H4 & Ho4 & _).
    unfold ends. rewrite E. split; [|by exists u]. eapply (bodies_run s d l s2); [done..|by etrans|done].
  - destruct (report_state err s3 Ho3) as (H4 & Ho4 & _).
    split; [|by exists tt]. apply (bodies_run s d l s2); [done|done|done|by etrans|done].
Qed.

Lemma ends_earlier_bodies s l k s1 :
  bodies_ready s (l ++ k) s1 -> StronglySorted (fun a b => db_pos b <= db_pos a) (l ++ k) ->
  (forall d, d ∈ l -> 5 * rest_at (ps_stream s) (db_pos d) + 8 <= depth) ->
  ends (parser_each (deferred_body_pass rec) l) s1 (fun r s2 => bodies_ready s k s2 /\ exists u, r = Returns u).
Proof.
  intros Hb Hs Hd. revert s1 Hb Hs Hd. induction l as [|d l IH]; intros s1 Hb Hs Hd; [by split; [|exists tt]|].
  inv Hs. cbn [parser_each]. apply ends_bind.
  eapply ends_mono; [apply (ends_deferred_body s d (l ++ k)); [done|done|apply Hd; set_solver]|].
  intros r s2 [Hb2 [u ->]]. apply IH; [done..|]. intros d' Hd'. apply Hd. set_solver.
Qed.

Lemma ends_bodies s l s1 :
  bodies_ready s l s1 -> StronglySorted (fun a b => db_pos b <= db_pos a) l ->
  (forall d, d ∈ l -> 5 * rest_at (ps_stream s) (db_pos d) + 8 <= depth) ->
  ends (parser_each (deferred_body_pass rec) l) s1 (fun r s2 => bodies_ready s [] s2 /\ exists u, r = Returns u).
Proof. intros Hb Hs Hd. apply ends_earlier_bodies; by rewrite ?app_nil_r. Qed.

Lemma sorted_reverse (l : list deferred_body) :
  StronglySorted (fun a b => db_pos a <= db_pos b) l -> StronglySorted (fun a b => db_pos b <= db_pos a) (body_order l).
Proof.
  unfold body_order. induction 1 as [|d l Hs IH Hd]; [constructor|]. rewrite reverse_cons. apply StronglySorted_app.
  split; [|split; [done|by repeat constructor]]. intros x y Hx ->%list_elem_of_singleton.
  rewrite Forall_forall in Hd. apply Hd. by apply elem_of_reverse.
Qed.

(** After the declarations, all bodies are ready. *)
Lemma between_bodies s : between scope s -> bodies_ready s (body_order (dc_deferred (ps_declared s))) s.
Proof.
  intros Hb. split; [by eapply between_ok|apply Hb|apply Hb|done|]. apply Forall_reverse.
  eapply Forall_impl; [apply (bt_deferred _ _ Hb)|]. intros d []. by split.
Qed.

Definition module_start (s : pstate) : Prop :=
  stream_ok (ps_stream s) /\ no_modules (ps_heap s) /\ fresh s /\ is_Some (ps_heap s !! scope).

Lemma module_start_between s :
  module_start s -> between scope (with_declared (fun d => mkDeclared Module_new [] (dc_objects d)) s).
Proof. intros (? & ? & ? & ?). split; [done..|by constructor|by constructor]. Qed.

(** All declarations are read. *)
Lemma ends_read_declarations s :
  module_start s -> 5 * rest_at (ps_stream s) 0 + 9 <= depth ->
  ends (read_declarations rec depth scope) s (fun r s' => r = Returns (body_order (dc_deferred (ps_declared s'))) /\
    between scope s' /\ kept (ps_heap s) (ps_heap s') /\
    forall p, 5 * rest_at (ps_stream s') p + 9 <= depth).
Proof.
  intros Hs Hd. unfold read_declarations, begin_module. apply ends_change.
  pose proof (module_start_between _ Hs) as Hb. set (s1 := with_declared _ s) in *.
  assert (rest s1 <= rest_at (ps_stream s) 0) as Hr by (apply rest_at_le; lia).
  apply ends_bind. eapply ends_mono; [apply ends_module_loop; [done|lia]|].
  intros r s2 (Ha & Hb2 & [u ->]). split; [done|]. split; [done|]. split; [apply Ha|]. intros p.
  pose proof (rest_at_le (ps_stream s2) 0 p). pose proof (forward_rest _ _ (advance_stream _ _ Ha) 0 ltac:(lia)) as E.
  change (ps_stream s1) with (ps_stream s) in E. lia.
Qed.

(** [Module::Parse] returns. *)
Lemma ends_Module_Parse s :
  module_start s -> 5 * rest_at (ps_stream s) 0 + 9 <= depth ->
  ends (Module_Parse rec depth scope) s (fun r s' => (exists u, r = Returns u) /\ ok s' /\
    mIsExtern (dc_module (ps_declared s')) = false /\ kept (ps_heap s) (ps_heap s')).
Proof.
  intros Hs Hd. unfold Module_Parse. apply ends_bind.
  eapply ends_mono; [by apply ends_read_declarations|]. intros r s2 (-> & Hb2 & Hk & Hd2).
  eapply ends_mono; [apply (ends_bodies s2); [by apply between_bodies|apply sorted_reverse, Hb2|]|].
  - intros d _. specialize (Hd2 (db_pos d)). lia.
  - intros r s3 [[Ho _ Hx Hk3 _] Hr3]. split; [done|]. split; [done|]. split; [done|]. by etrans.
Qed.
End modules.
