(* ===== verification/ParserTheorems.v ===== *)
(** The theorems about the parser: it ends, and it moves forward. *)

From S2P Require Import Prelude SourceLocation Lexer Tokens LexerStream Diagnostics Ast Scope ParserBase ParserLogic ParseTypes ParseExpressions ParseStatements ParserTotal.

Lemma weights_le l : weights l <= 2 * length l.
Proof.
  induction l as [|t l IH]; [done|]. cbn [weights sum_list_with length]. unfold weights in IH.
  assert (weight t <= 2) by (unfold weight; case_decide; lia). lia.
Qed.

Lemma rest_le s : rest s <= 2 * (length (st_tokens (ps_stream s)) - st_cursor (ps_stream s)).
Proof.
  unfold rest, rest_at. etrans; [apply weights_le|]. by rewrite length_drop.
Qed.

(** A run that ends. *)
Definition finishes {A} (r : outcome (presult A * pstate)) : Prop := r <> OutOfFuel.

Lemma ends_finishes {A} (m : parser A) s Q : ends m s Q -> finishes (m s).
Proof. unfold ends, finishes. by destruct (m s). Qed.

(** What a specification says at one state. *)
Lemma spec_ends {A} (m : parser A) d s : ok s -> spec (rest s) None m d -> ends m s (within s d).
Proof. intros Ho H. apply (H s); [done..|lia|done]. Qed.

(** C19. The parser ends: every parse function of types, primaries,
    expressions, blocks and statements, run on any token stream with any
    scopes, returns, throws or meets undefined behaviour within a depth of ten
    for each token that is left, as long as no imported module has the name of
    a struct. *)
Theorem parse_terminates (depth : nat) (s : pstate)
  (Hstream : stream_ok (ps_stream s)) (Hclash : clash_free (ps_heap s))
  (Hdepth : 10 * (length (st_tokens (ps_stream s)) - st_cursor (ps_stream s)) + 9 <= depth) :
  (forall scope allow_void, finishes (rec_Type (parsers_at depth) scope allow_void s)) /\
  (forall scope, finishes (rec_Primary (parsers_at depth) scope s)) /\
  (forall scope minPrec, finishes (rec_Expr (parsers_at depth) scope minPrec s)) /\
  (forall scope, finishes (rec_Block (parsers_at depth) scope s)) /\
  (forall scope, finishes (rec_Statement (parsers_at depth) scope s)).
Proof.
  pose proof (rest_le s) as Hr. assert (ok s) as Ho by done.
  destruct (parsers_at_counted depth) as (HT & HP & HE & HB & HS).
  repeat split; intros; eapply ends_finishes, spec_ends; [done|apply HT; lia|done|apply HP; lia|
    done|apply HE; lia|done|apply HB; lia|done|apply HS; lia].
Qed.

(** The parser moves forward: a statement or a block that is parsed has
    consumed a token of the text and has left the tokens before the cursor it
    found as they were (a [>>] at the cursor apart), and an expression that is
    found has consumed one too. *)
Theorem parse_consumes (depth scope : nat) (minPrec : Z) (s : pstate)
  (Hstream : stream_ok (ps_stream s)) (Hclash : clash_free (ps_heap s))
  (Hdepth : 10 * (length (st_tokens (ps_stream s)) - st_cursor (ps_stream s)) + 9 <= depth) :
  let moved (s' : pstate) := st_cursor (ps_stream s) < st_cursor (ps_stream s') /\
    take (st_cursor (ps_stream s)) (st_tokens (ps_stream s')) = take (st_cursor (ps_stream s)) (st_tokens (ps_stream s)) in
  (forall r s', rec_Statement (parsers_at depth) scope s = Done (Returns r, s') -> moved s') /\
  (forall r s', rec_Block (parsers_at depth) scope s = Done (Returns r, s') -> moved s') /\
  (forall e s', rec_Expr (parsers_at depth) scope minPrec s = Done (Returns (Some e), s') -> moved s').
Proof.
  intros moved. pose proof (rest_le s) as Hr. assert (ok s) as Ho by done.
  assert (forall {A} (m : parser A) d a s', spec (rest s) None m d -> 1 <= d a -> m s = Done (Returns a, s') -> moved s')
    as Hmoved.
  { intros A m d a s' Hm Hd E. pose proof (spec_ends m d s Ho Hm) as He. unfold ends in He. rewrite E in He.
    destruct He as (H & _ & Hlt). split; [apply reached_cursor; [done|lia]|].
    by apply (forward_take _ _ (reached_stream _ _ H)). }
  destruct (parsers_at_counted depth) as (HT & HP & HE & HB & HS).
  split; [|split]; intros r s'; eapply Hmoved; [apply HS; lia|done|apply HB; lia|done|apply HE; lia|done].
Qed.

(** * Samples *)

(** One scope with the type [int] and a variable [x] of it. *)
Definition sample_scope : Scope :=
  set_types (set_symbols (Scope_new kScope_Global)
    {["x" := SymVariable (mkVariable 0 "x" no_location false kOwnership_Value)]})
    {["int" := Type_ "int" []]}.

Definition no_stream : stream := stream_new "" [] (mkSymbolInfo (-1) "" 0 0) (mkSymbolInfo (-1) "" 0 0) false.

Definition sample_state (scopes : heap) (text : string) : pstate :=
  initial (default no_stream (text_stream text)) scopes 2 1 {[0 := Type_ "int" []]} DiagnosticEngine_new.

Definition sample_block : pstate :=
  sample_state {[0 := sample_scope]} "{ int y = x + 2 * 3; while y < 9 { y = y + x; } return (y); }".

Lemma sample_clash_free : clash_free {[0 := sample_scope]}.
Proof. intros i j s t name [<- <-]%lookup_singleton_Some _ Hin. cbn in Hin. set_solver. Qed.

Lemma parse_terminates_witness :
  (forall scope, finishes (rec_Block (parsers_at 309) scope sample_block)) /\
  finishes (rec_Block (parsers_at 309) 0 sample_block).
Proof.
  assert (stream_ok (ps_stream sample_block)) as Hs by (vm_compute; split; [split; reflexivity|discriminate]).
  destruct (parse_terminates 309 sample_block Hs sample_clash_free ltac:(vm_compute; lia)) as (_ & _ & _ & H & _).
  split; [exact H|apply H].
Defined.

Lemma parse_consumes_witness :
  (exists b s', rec_Block (parsers_at 309) 0 sample_block = Done (Returns b, s') /\ (let (_, _, l) := b in length l) = 3) /\
  forall r s', rec_Block (parsers_at 309) 0 sample_block = Done (Returns r, s') ->
    st_cursor (ps_stream sample_block) < st_cursor (ps_stream s') /\
    take (st_cursor (ps_stream sample_block)) (st_tokens (ps_stream s')) =
    take (st_cursor (ps_stream sample_block)) (st_tokens (ps_stream sample_block)).
Proof.
  assert (stream_ok (ps_stream sample_block)) as Hs by (vm_compute; split; [split; reflexivity|discriminate]).
  split; [|apply (parse_consumes 309 0 0 sample_block Hs sample_clash_free); vm_compute; lia].
  eexists _, _. split; vm_compute; reflexivity.
Defined.

(** With a struct of an imported module's name the parser comes back to the
    name with an expression in hand, and a block runs on. *)
Definition clashing_scopes : heap :=
  <[0 := set_imported (set_namespaces (set_symbols (Scope_new kScope_Global)
      {["m" := SymStruct (mkStruct 1 "m" no_location [] [] None [] [] true false false [] "" "")]}) {["m" := 1]}) {["m"]}]>
  {[1 := set_symbols (Scope_new kScope_Namespace)
      {["f" := SymFunction (mkFunction 0 "f" no_location None [] false false true false false false false [] [])]}]}.

Lemma clash_runs_on : rec_Block (parsers_at 400) 0 (sample_state clashing_scopes "{ m.f; }") = OutOfFuel.
Proof. vm_compute. reflexivity. Qed.
