(* ===== verification/FrontendTheorems.v ===== *)
(** The theorems about the front end: a document is compiled whatever it holds,
    the bodies of its functions see all its functions, and what the semantic pass
    accepts of it is well formed. *)

From S2P Require Import Prelude SourceLocation Lexer Diagnostics Ast Scope SemaTypes Sema SemaExpr SemaWalk SemaModule AstInduction SemaLogic SemaPasses SemaModuleLogic SemaAccept Tokens LexerStream ParserBase ParseTypes ParseExpressions ParseStatements ParseDeclarations ParseModule Frontend ParserLogic ParserTotal ParserDeclared ParserModule ParserTheorems.

(** * The global scope *)

Lemma still_new_global : still new_global_scope.
Proof.
  intros s Ho. eexists _, _. split; [done|].
  assert (calm_heap (ps_heap s) (<[ps_next_scope s := Scope_new kScope_Global]> (ps_heap s))) as Hc.
  { intros i t Hi. destruct (decide (i = ps_next_scope s)) as [->|].
    - rewrite lookup_insert_eq in Hi. injection Hi as <-. by right.
    - rewrite lookup_insert_ne in Hi by done. left. by exists t. }
  apply still_run; [done| |by eapply calm_clash_free, Ho|done].
  split; cbn; [done|intros name; by apply calm_structless|intros Q; by apply calm_imports_in|
    intros Q; by apply calm_namespaces_in| |done].
  intros Hf. split.
  - intros i Hi. cbn in *. rewrite lookup_insert_ne by lia. apply Hf. lia.
  - intros i t Hi. exists t. rewrite lookup_insert_ne; [done|]. intros <-. by rewrite Hf in Hi.
Qed.

Lemma still_each {A} (f : A -> parser unit) l : (forall a, still (f a)) -> still (parser_each f l).
Proof.
  intros Hf. induction l as [|a l IH]; cbn [parser_each].
  - intros s Ho. by exists tt, s.
  - by apply still_bind.
Qed.

Lemma still_return {A} (a : A) : still (mret a).
Proof. intros s Ho. by exists a, s. Qed.
#[export] Hint Resolve still_return still_new_global : still.

Ltac stilling := repeat first
  [ match goal with |- still (_ ≫= _) => apply still_bind; [|intros ?] end
  | match goal with |- still (parser_each _ _) => apply still_each; intros ? end
  | match goal with |- still (if ?b then _ else _) => destruct b end
  | solve [auto with still] ].

Lemma still_createGlobalScope : still createGlobalScope.
Proof. unfold createGlobalScope, builtin_printer, CreateBuiltin, builtin_variable. stilling. Qed.

Lemma still_stamp path : still (stampDefiningOrigin path).
Proof. unfold stampDefiningOrigin, stamp_struct, current_struct. cbv zeta. stilling. Qed.

(** * What is parsed *)

(** Before a document's declarations: its scope is there, below the global one,
    and nothing is imported. *)
Lemma document_scopes st :
  stream_ok st ->
  exists global fileScope s, createGlobalScope (document_state st) = Done (Returns global, s) /\
    exists s', newModuleScope global s = Done (Returns fileScope, s') /\
      module_start fileScope s' /\ forward st (ps_stream s').
Proof.
  intros Hst.
  assert (exists s0, s0 = document_state st /\ ok s0 /\ no_modules (ps_heap s0) /\ fresh s0 /\ ps_stream s0 = st)
    as (s0 & <- & Ho & Hn & Hfr & <-).
  { eexists. split; [done|]. split; [split; [done|by intros i j t t' name Hi]|].
    split; [split; by intros i t name Hi|]. by split. }
  destruct (still_createGlobalScope s0 Ho) as (global & s & E & Hr & Hos & _).
  destruct (still_new_scope kScope_Module global s Hos) as (scope & s' & E' & Hr' & Hos' & _).
  exists global, scope, s. split; [done|]. exists s'. split; [done|].
  assert (reached s0 s') as H by (by etrans).
  split; [|apply (reached_stream _ _ H)]. split; [apply Hos'|]. split; [split|split].
  - exact (reached_imports _ _ H _ (proj1 Hn)).
  - exact (reached_namespaces _ _ H _ (proj2 Hn)).
  - exact (proj1 (reached_keeps _ _ H Hfr)).
  - injection E' as <- <-. cbn. unfold setParent, update. rewrite lookup_alter_eq, lookup_insert_eq. by eexists.
Qed.

(** The tokens of a document fit a depth of ten for each of its characters. *)
Lemma document_depth path text st :
  document_stream path text = Some st ->
  stream_ok st /\ rest_at st 0 <= 2 * String.length text.
Proof.
  destruct (document_stream_total path text) as (st' & E & Hc & Hp & Hl & He & Ho). intros E'.
  rewrite E in E'. injection E' as <-. split; [split; [done|by rewrite Hp]|].
  unfold rest_at. pose proof (weights_le (st_tokens st')). change (drop 0 (st_tokens st')) with (st_tokens st'). lia.
Qed.

(** Parsing a document ends without an exception, with a module that is not an
    interface. *)
Lemma ends_parse_document depth path text st :
  document_stream path text = Some st -> 10 * String.length text + 9 <= depth ->
  ends (parse_document depth path) (document_state st) (fun r s => (exists scope, r = Returns scope) /\
    mIsExtern (dc_module (ps_declared s)) = false).
Proof.
  intros Hst Hd. destruct (document_depth _ _ _ Hst) as [Hok Hr].
  destruct (document_scopes st Hok) as (global & scope & s1 & E1 & s2 & E2 & Hs & Hf).
  destruct (parsers_at_counted depth) as (HT & _ & HE & HB & _).
  unfold parse_document. apply ends_bind. unfold ends at 1. rewrite E1. cbn beta iota.
  apply ends_bind. unfold ends at 1. rewrite E2. cbn beta iota. apply ends_bind.
  eapply ends_mono; [apply (ends_Module_Parse _ _ HT HE HB scope s2 Hs)|].
  - rewrite (forward_rest _ _ Hf 0) by lia. lia.
  - intros r s3 ([u ->] & Ho3 & Hx & Hk). apply ends_bind.
    destruct (still_stamp path s3 Ho3) as ([] & s4 & E4 & H4 & _). unfold ends at 1. rewrite E4. cbn beta iota.
    split; [by eexists|]. by rewrite (reached_extern _ _ H4).
Qed.

Lemma ends_cases {A} (m : parser A) s Q :
  ends m s Q -> m s = UndefinedBehaviour \/ exists r s', m s = Done (r, s') /\ Q r s'.
Proof. unfold ends. destruct (m s) as [[r s']| |]; [right; by exists r, s'|by left|done]. Qed.

(** What a compilation consists of. *)
Lemma compile_steps depth address path text :
  10 * String.length text + 9 <= depth ->
  compileDocument depth address path text = UndefinedBehaviour \/
  exists st scope s r, document_stream path text = Some st /\
    parse_document depth path (document_state st) = Done (Returns scope, s) /\
    mIsExtern (dc_module (ps_declared s)) = false /\
    compileDocument depth address path text = Done r /\
    cr_module r = the_module s /\ cr_scope r = scope /\ cr_heap r = ps_heap s /\
    (cr_verdict r, cr_diagnostics r) =
    (let '(verdict, sema) := analyze (ps_heap s) address (the_module s) scope (ps_diag s) (ps_types s) in
     (verdict, mDiags (mDiag sema))).
Proof.
  intros Hd. destruct (document_stream_total path text) as (st & Hst & _).
  pose proof (ends_parse_document depth path text st Hst Hd) as He.
  unfold compileDocument. rewrite Hst.
  apply ends_cases in He as [E|(r & s & E & [scope ->] & Hx)]; rewrite E; [left; reflexivity|].
  destruct (calls_null (the_module s)); [left; reflexivity|]. right.
  exists st, scope, s. destruct (analyze _ _ _ _ _ _) as [v sema]. eexists.
  split; [reflexivity|]. split; [exact E|]. split; [exact Hx|]. split; [reflexivity|]. repeat (split; [reflexivity|]). reflexivity.
Qed.

(** C2. Every text is compiled: parsing a document's declarations and bodies,
    recovering from their errors, and analysing the module comes to an end
    within a depth of ten for each character, whatever the document holds, and
    gives a module that is analysed, not an interface; only where the C++
    program has no defined behaviour (an integer constant out of range, a null
    pointer) is there no result. *)
Theorem compileDocument_total (depth : nat) (address : nat -> N) (path text : string)
  (Hdepth : 10 * String.length text + 9 <= depth) :
  compileDocument depth address path text = UndefinedBehaviour \/
  exists r, compileDocument depth address path text = Done r /\ mIsExtern (cr_module r) = false.
Proof.
  destruct (compile_steps depth address path text Hdepth) as [E|(st & scope & s & r & _ & _ & Hx & E & Em & _)];
    rewrite E; [left; reflexivity|].
  right. exists r. split; [reflexivity|]. rewrite Em. exact Hx.
Qed.

(** C3. A document that is accepted is well formed wherever the pass walks: when a
    compiled document's verdict is true, every expression in a body or a contract
    clause of any function, method or constructor of its module passes the checks on
    arity, table columns, shared fields, constructors and matches, in the scopes its
    own parsing has built, or lies below a child that is not walked, as the expressions
    of a query's steps and the values of an insert do ([insert_value_unchecked]). *)
Theorem compiled_document_well_formed (depth : nat) (address : nat -> N) (path text : string) (r : CompileResult) (e : Expr)
  (Hdepth : 10 * String.length text + 9 <= depth)
  (Hcompiled : compileDocument depth address path text = Done r)
  (Haccepted : cr_verdict r = true) (Hin : anywhere_in (eq e) (cr_module r)) :
  accepted_expr (cr_heap r) (cr_scope r) e \/ skipped_in (eq e) (cr_module r).
Proof.
  destruct (compile_steps depth address path text Hdepth)
    as [E|(st & scope & s & r' & _ & _ & Hx & E & Em & Es & Eh & Ev)]; rewrite E in Hcompiled; [discriminate Hcompiled|].
  injection Hcompiled as ->. apply anywhere_split in Hin as [Hin|Hin]; [left|right; exact Hin].
  rewrite Eh, Es. rewrite Em in Hin.
  destruct (analyze _ _ _ _ _ _) as [v sema] eqn:Ea. injection Ev as Hv _. rewrite Haccepted in Hv. subst v.
  eapply (accepted_everywhere (ps_heap s) address (the_module s) scope (ps_diag s) (ps_types s)); [exact Hx| |exact Hin].
  by rewrite Ea.
Qed.

(** C4. A body sees every function of its document, whatever the order: when the
    bodies that were put off are parsed, the last first, each one starts at the
    opening brace its function was declared with, with the tokens before it as
    the declarations left them, although bodies that were parsed before it may
    have split [>>] tokens; and at that time the module's scope, which is the
    parent of the body's, binds every function with a body. *)
Theorem bodies_see_declarations (depth scope : nat) (s s1 s2 : pstate) (deferred earlier later : list deferred_body)
  (d : deferred_body)
  (Hstart : module_start scope s) (Hdepth : 10 * length (st_tokens (ps_stream s)) + 9 <= depth)
  (Hdeclared : read_declarations (parsers_at depth) depth scope s = Done (Returns deferred, s1))
  (Hsplit : deferred = earlier ++ d :: later)
  (Hparsed : parser_each (deferred_body_pass (parsers_at depth)) earlier s1 = Done (Returns tt, s2)) :
  upcoming (with_stream (stream_set_pos (db_pos d)) s2) = chr "{" /\
  take (db_pos d) (st_tokens (ps_stream s2)) = take (db_pos d) (st_tokens (ps_stream s1)) /\
  (exists sc, ps_heap s2 !! db_scope d = Some sc /\ mParent sc = Some scope) /\
  forall d', d' ∈ deferred -> exists sc f, ps_heap s2 !! scope = Some sc /\
    mSymbolList sc !! f_name (db_function d') = Some (SymFunction f) /\ fid f = fid (db_function d').
Proof.
  destruct (parsers_at_counted depth) as (HT & _ & HE & HB & _).
  assert (rest_at (ps_stream s) 0 <= 2 * length (st_tokens (ps_stream s))) as Hr by apply weights_le.
  pose proof (ends_read_declarations _ _ HT HE HB scope s Hstart ltac:(lia)) as H1. unfold ends in H1.
  rewrite Hdeclared in H1. destruct H1 as ([= ->] & Hb & _ & Hd).
  pose proof (between_bodies _ _ Hb) as Hready. pose proof (sorted_reverse _ (bt_sorted _ _ Hb)) as Hs.
  fold (body_order (dc_deferred (ps_declared s1))) in Hready, Hs. rewrite Hsplit in Hready, Hs.
  pose proof (ends_earlier_bodies _ _ HT HE HB s1 earlier (d :: later) s1 Hready Hs) as H2.
  unfold ends in H2. rewrite Hparsed in H2. destruct H2 as [H2 _]; [intros d' _; specialize (Hd (db_pos d')); lia|].
  pose proof (proj1 (Forall_cons _ _ _) (br_place _ _ _ H2)) as [[Hz Ht _] _].
  assert (Forall (deferred_ok scope s1) (body_order (dc_deferred (ps_declared s1)))) as Hall
    by (apply Forall_reverse, Hb).
  rewrite Forall_forall in Hall. split; [exact Hz|]. split; [exact Ht|]. split.
  - eapply parent_kept; [apply H2|]. apply (Hall d). rewrite Hsplit. set_solver.
  - intros d' Hin. eapply bound_kept; [apply H2|]. by apply (Hall d').
Qed.

(** * Recovery *)

(** How deep the braces are after these symbols; a closing brace too many does
    not count. *)
Definition brace_step (n z : Z) : Z :=
  if decide (z = chr "{") then (n + 1)%Z
  else if bool_decide (z = chr "}") && bool_decide (0 < n)%Z then (n - 1)%Z else n.
Definition brace_depth (l : list Z) : Z := foldl brace_step 0%Z l.

(** The symbols of a stream between two positions. *)
Definition symbols_between (st : stream) (a b : nat) : list Z := map symbol (take (b - a) (drop a (st_tokens st))).

(** Where recovery that starts at [a] may stop at [b]: [b] is not the start, no
    brace is open and a declaration may begin there. *)
Definition restart_at (st : stream) (a b : nat) : Prop :=
  a < b /\ brace_depth (symbols_between st a b) = 0%Z /\ isTopLevelStarter (symbol_at st b) = true.

(** A run that returns. *)
Definition returns {A} (m : parser A) (s : pstate) (Q : A -> pstate -> Prop) : Prop :=
  exists a s', m s = Done (Returns a, s') /\ Q a s'.

Lemma returns_loop {B A} (body : B -> parser (loop_step B A)) (I : B -> pstate -> Prop) (measure : pstate -> nat) Q :
  (forall b s, I b s -> returns (body b) s (fun r s' => match r with
     | Next b' => I b' s' /\ measure s' < measure s
     | Break a => Q a s'
     end)) ->
  forall fuel b s, I b s -> measure s < fuel -> returns (parser_loop fuel body b) s Q.
Proof.
  intros Hbody. induction fuel as [|fuel IH]; intros b s HI Hm; [lia|].
  destruct (Hbody b s HI) as (r & s1 & E & Hr). unfold returns. cbn [parser_loop].
  unfold mbind, parser_bind. rewrite E. destruct r as [b'|a]; [|by exists a, s1].
  destruct Hr as [HI' Hlt]. apply IH; [done|lia].
Qed.

Lemma symbols_between_S st a b t :
  a <= b -> st_tokens st !! b = Some t -> symbols_between st a (S b) = symbols_between st a b ++ [symbol t].
Proof.
  intros Hle Ht. unfold symbols_between. replace (S b - a) with (S (b - a)) by lia.
  rewrite (take_S_r _ _ t) by (rewrite lookup_drop; by replace (a + (b - a)) with b by lia).
  by rewrite map_app.
Qed.

(** While recovery runs from [s0]. *)
Record recovering (s0 : pstate) (st : Z * bool) (s : pstate) : Prop := {
  rv_state : exists w, s = with_stream (fun _ => w) s0 /\ stream_ok w /\
    st_tokens w = st_tokens (ps_stream s0) /\ st_end w = st_end (ps_stream s0) /\ st_eof w = st_eof (ps_stream s0);
  rv_cursor : st_cursor (ps_stream s0) <= st_cursor (ps_stream s);
  rv_braces : st.1 = brace_depth (symbols_between (ps_stream s0) (st_cursor (ps_stream s0)) (st_cursor (ps_stream s)));
  rv_first : st.2 = bool_decide (st_cursor (ps_stream s) = st_cursor (ps_stream s0));
  rv_none : forall q, q < st_cursor (ps_stream s) -> ~ restart_at (ps_stream s0) (st_cursor (ps_stream s0)) q
}.

(** A stream of the same tokens. *)
Lemma symbol_at_same w w' p :
  st_tokens w' = st_tokens w -> st_end w' = st_end w -> st_eof w' = st_eof w -> symbol_at w' p = symbol_at w p.
Proof. unfold symbol_at, token_at. by intros -> -> ->. Qed.

Lemma isEOF_end w : stream_ok w -> stream_isEOF w = true -> symbol_at w (st_cursor w) = (-1)%Z.
Proof.
  intros Ho. unfold stream_isEOF. destruct (st_peeked w); [done|]. case_bool_decide as Hc; [by intros ?%bool_decide_eq_true|].
  intros [Hl%bool_decide_eq_true|[Hl%bool_decide_eq_true _]%andb_prop]%orb_prop; (apply symbol_at_end; [done|lia]).
Qed.

Lemma recovering_pass s0 st s :
  recovering s0 st s ->
  returns (resync_top_pass st) s (fun r s' => match r with
    | Next st' => recovering s0 st' s' /\ rest s' < rest s
    | Break _ => recovering s0 st s' /\
        (upcoming s' = (-1)%Z \/ restart_at (ps_stream s0) (st_cursor (ps_stream s0)) (st_cursor (ps_stream s')))
    end).
Proof.
  intros [(w & -> & Ho & Ht & He & Hf) Hc Hb Hfi Hn]. cbn in Hc, Hb, Hfi, Hn. destruct st as [n first]. cbn in Hb, Hfi.
  unfold returns, resync_top_pass, mbind, parser_bind, lexer_isEOF, observe. cbn [ps_stream with_stream].
  destruct (stream_isEOF w) eqn:Hend.
  { eexists _, _. split; [reflexivity|]. split; [split; [by exists w|done..]|]. left. by apply isEOF_end. }
  unfold peekSymbol, on_stream. cbn [ps_stream with_stream].
  pose proof (peek_result w) as Hpr. pose proof (ok_peek _ Ho) as Ho1.
  assert (st_tokens (stream_peek w).2 = st_tokens w /\ st_end (stream_peek w).2 = st_end w /\
    st_eof (stream_peek w).2 = st_eof w /\ st_cursor (stream_peek w).2 = st_cursor w) as (Ht1 & He1 & Hf1 & Hc1)
    by (unfold stream_peek; by destruct (st_peeked w)).
  destruct (stream_peek w) as [p w1]. cbn in Hpr, Ho1, Ht1, He1, Hf1, Hc1. subst p.
  assert (forall q, symbol_at w1 q = symbol_at w q) as Hz by (intros; by apply symbol_at_same).
  assert (forall q, symbol_at (ps_stream s0) q = symbol_at w q) as Hz0 by (intros; by apply symbol_at_same).
  assert (recovering s0 (n, first) (with_stream (fun _ => w1) s0)) as Hsame.
  { split; cbn; rewrite ?Hc1; [|done..]. exists w1. split; [done|]. split; [done|]. split_and!; congruence. }
  destruct (decide (symbol_at w (st_cursor w) = (-1)%Z)) as [E|Hne].
  { eexists _, _. split; [reflexivity|]. split; [exact Hsame|]. left. unfold upcoming. cbn. by rewrite Hc1, Hz. }
  destruct (negb first && bool_decide (n = 0%Z) && isTopLevelStarter (symbol_at w (st_cursor w))) eqn:E.
  { eexists _, _. split; [reflexivity|]. split; [exact Hsame|]. right. cbn. rewrite Hc1.
    apply andb_prop in E as [[Ef En%bool_decide_eq_true]%andb_prop Es]. rewrite Hfi in Ef.
    apply negb_true_iff, bool_decide_eq_false in Ef. split; [lia|]. split; [by rewrite <-Hb|]. by rewrite Hz0. }
  unfold getSymbol, on_stream. cbn [ps_stream with_stream stream_get].
  change (symbol (token_at w1 (st_cursor w1))) with (symbol_at w1 (st_cursor w1)). rewrite Hz, Hc1.
  destruct (st_tokens w !! st_cursor w) as [t|] eqn:Hl; [|destruct Hne; apply symbol_at_end; [done|by apply lookup_ge_None]].
  assert (Hlt : st_cursor w < length (st_tokens w)) by by eapply lookup_lt_Some.
  eexists _, _. split; [reflexivity|]. split; [split|]; cbn [ps_stream with_stream Tokens.move st_cursor fst snd].
  - eexists. split; [reflexivity|]. split; [split; [apply Ho1|done]|]. cbn. split_and!; congruence.
  - lia.
  - rewrite (symbols_between_S _ _ _ t) by (lia || congruence).
    unfold brace_depth in *. rewrite foldl_app, <-Hb. cbn. by rewrite (symbol_at_token _ _ _ Hl).
  - symmetry. apply bool_decide_eq_false. lia.
  - intros q Hq. destruct (decide (q = st_cursor w)) as [->|]; [|apply Hn; lia].
    intros (Hlt' & Hd & Hs). rewrite <-Hb in Hd. rewrite Hz0 in Hs.
    rewrite Hs, Hfi, Hd, bool_decide_eq_false_2 in E by lia. discriminate E.
  - unfold rest. cbn. unfold rest_at. cbn. rewrite Ht1. apply (rest_at_lt w); lia.
Qed.

(** C5. Recovery at the top level: when a declaration throws, its error is
    reported and the tokens behind it are skipped up to the first one, after at
    least one, at which a declaration may begin and that stands outside every
    brace opened since, or up to the end; nothing else of the parser's state
    changes, and the loop over the declarations goes on there. *)
Theorem declaration_error_recovered (depth scope : nat) (sym : Z) (err : CompileError) (s s1 s2 : pstate)
  (Hmore : stream_isEOF (ps_stream s) = false) (Hpeek : peekSymbol s = Done (Returns sym, s1)) (Hsym : sym <> (-1)%Z)
  (Herror : declaration (parsers_at depth) depth scope sym s1 = Done (Throws err, s2))
  (Hstream : stream_ok (ps_stream s2))
  (Hdepth : 2 * (length (st_tokens (ps_stream s2)) - st_cursor (ps_stream s2)) < depth) :
  exists w, module_pass (parsers_at depth) depth scope tt s =
      Done (Returns (Next tt), with_stream (fun _ => w) (with_diag (reportCompileError err) s2)) /\
    st_tokens w = st_tokens (ps_stream s2) /\ st_cursor (ps_stream s2) <= st_cursor w /\
    (symbol_at w (st_cursor w) = (-1)%Z \/ restart_at (ps_stream s2) (st_cursor (ps_stream s2)) (st_cursor w)) /\
    forall q, q < st_cursor w -> ~ restart_at (ps_stream s2) (st_cursor (ps_stream s2)) q.
Proof.
  set (s3 := with_diag (reportCompileError err) s2).
  destruct (returns_loop resync_top_pass (recovering s3) rest
    (fun _ s' => exists st, recovering s3 st s' /\
       (upcoming s' = (-1)%Z \/ restart_at (ps_stream s3) (st_cursor (ps_stream s3)) (st_cursor (ps_stream s'))))) with
    (fuel := depth) (b := (0%Z, true)) (s := s3) as ([] & s4 & E & st & Hr & Hq).
  - intros st s4 Hr. destruct (recovering_pass s3 st s4 Hr) as (r & s5 & E & Hs5). exists r, s5. split; [done|].
    destruct r as [st'|[]]; [done|]. by exists st.
  - split; cbn; [|done| |by rewrite bool_decide_true|intros q Hlt (? & _); lia].
    + exists (ps_stream s2). split; [by destruct s2|done].
    + unfold symbols_between. by rewrite Nat.sub_diag.
  - pose proof (rest_le s2). change (rest s3) with (rest s2). lia.
  - destruct Hr as [(w & -> & Ho & Ht & He & Hf) Hc _ _ Hn]. exists w. split.
    + unfold module_pass, mbind, parser_bind, lexer_isEOF, observe. rewrite Hmore, Hpeek, decide_False by done.
      unfold try_catch. rewrite Herror. unfold report_parse_error, change, resyncTopLevel. fold s3. by rewrite E.
    + split; [exact Ht|]. split; [exact Hc|]. split; [exact Hq|exact Hn].
Qed.

(** * A document *)

(** Two functions: the first calls the second, in whose body a type closes with
    [>>]. *)
Definition sample_text : string :=
  "fn f(int n) -> int { return g(n, 1); } fn g(int a, int b) -> int { Array<Array<int>> l = []; return a + b; }".

Definition no_result : CompileResult := mkCompiled Module_new 0 ∅ false [] (Sema_new DiagnosticEngine_new ∅).
Definition result_of (r : outcome CompileResult) : CompileResult := match r with Done r => r | _ => no_result end.
Definition sample_result : CompileResult := result_of (compileDocument 1200 N.of_nat "dir/a.b" sample_text).

(** The value a function's last statement returns. *)
Definition returned (m : Module_) (name : string) : option Expr :=
  match list_find (fun f => f_name f = name) (mFunctionList m) with
  | Some (_, f) =>
      match mFuncBody (body_of (mBodies m) f) with
      | Some (mkBlock _ _ l) => match last l with Some (ReturnStatement _ e) => e | _ => None end
      | None => None
      end
  | None => None
  end.

Lemma sample_accepted :
  compileDocument 1200 N.of_nat "dir/a.b" sample_text = Done sample_result /\ cr_verdict sample_result = true.
Proof. vm_compute. split; reflexivity. Qed.

Lemma compileDocument_total_witness :
  compileDocument 1200 N.of_nat "dir/a.b" sample_text = UndefinedBehaviour \/
  exists r, compileDocument 1200 N.of_nat "dir/a.b" sample_text = Done r /\ mIsExtern (cr_module r) = false.
Proof. apply (compileDocument_total 1200 N.of_nat "dir/a.b" sample_text). vm_compute. lia. Defined.

Definition sample_call : Expr := default (ConstInteger (mkNode 0 no_location) 0) (returned (cr_module sample_result) "f").

Lemma sample_call_inside : anywhere_in (eq sample_call) (cr_module sample_result).
Proof.
  assert (exists f b st, f ∈ mFunctionList (cr_module sample_result) /\ f_extern f = false /\
    mFuncBody (body_of (mBodies (cr_module sample_result)) f) = Some b /\ st ∈ block_stmts b /\ sample_call ∈ stmt_exprs st)
    as (f & b & st & Hf & Hx & Hb & Hs & He).
  { do 3 eexists. split; [|split; [|split; [|split]]]; vm_compute; [constructor 1|reflexivity..|constructor 1|constructor 1]. }
  exists f. split; [by split; [|left]|]. left. exists b. split; [done|].
  econstructor; [exact Hs|]. econstructor; [apply elem_of_app; left; exact He|]. by constructor.
Qed.

Lemma compiled_document_well_formed_witness :
  (exists f args, sample_call = CallExpression (expr_node sample_call) (Some f) [] args) /\
  (accepted_expr (cr_heap sample_result) (cr_scope sample_result) sample_call \/ skipped_in (eq sample_call) (cr_module sample_result)).
Proof.
  destruct sample_accepted as [Hc Hv]. split; [do 2 eexists; vm_compute; reflexivity|].
  apply (compiled_document_well_formed 1200 N.of_nat "dir/a.b" sample_text);
    [vm_compute; lia|exact Hc|exact Hv|exact sample_call_inside].
Defined.

(** The state before the declarations of the document, and what its runs give. *)
Definition sample_stream : stream := default no_stream (document_stream "dir/a.b" sample_text).
Definition run_of {A} (a : A) (r : outcome (presult A * pstate)) : A * pstate :=
  match r with Done (Returns a, s) => (a, s) | _ => (a, document_state no_stream) end.
Definition sample_start : nat * pstate :=
  run_of 0 ((global ← createGlobalScope; newModuleScope global) (document_state sample_stream)).
Definition sample_declared : list deferred_body * pstate :=
  run_of [] (read_declarations (parsers_at 500) 500 sample_start.1 sample_start.2).

Lemma sample_start_ok : module_start sample_start.1 sample_start.2.
Proof.
  assert (stream_ok sample_stream) as Ho by (vm_compute; split; [split; reflexivity|discriminate]).
  destruct (document_scopes sample_stream Ho) as (global & scope & s & E & s' & E' & H & _).
  unfold sample_start, mbind, parser_bind. rewrite E, E'. exact H.
Qed.

Lemma bodies_see_declarations_witness :
  exists f g s2,
    sample_declared.1 = [g; f] /\ (f_name (db_function f), f_name (db_function g)) = ("f", "g") /\
    length (st_tokens (ps_stream s2)) = S (length (st_tokens (ps_stream sample_declared.2))) /\
    upcoming (with_stream (stream_set_pos (db_pos f)) s2) = chr "{" /\
    exists sc h, ps_heap s2 !! sample_start.1 = Some sc /\ mSymbolList sc !! "g" = Some (SymFunction h).
Proof.
  set (l := sample_declared.1). 
  assert (exists g f, l = [g; f] /\ (f_name (db_function f), f_name (db_function g)) = ("f", "g")) as (g & f & El & En)
    by (do 2 eexists; split; vm_compute; reflexivity).
  assert (exists s2, parser_each (deferred_body_pass (parsers_at 500)) (take 1 l) sample_declared.2 = Done (Returns tt, s2) /\
    length (st_tokens (ps_stream s2)) = S (length (st_tokens (ps_stream sample_declared.2)))) as (s2 & E2 & Hl)
    by (eexists; split; vm_compute; reflexivity).
  rewrite El in E2. injection En as Ef Eg.
  assert (read_declarations (parsers_at 500) 500 sample_start.1 sample_start.2 = Done (Returns l, sample_declared.2)) as E1
    by (vm_compute; reflexivity).
  destruct (bodies_see_declarations 500 sample_start.1 sample_start.2 sample_declared.2 s2 l [g] [] f sample_start_ok
    ltac:(vm_compute; lia) E1 El E2) as (Hz & _ & _ & Hall).
  exists f, g, s2. split; [exact El|]. split; [by rewrite Ef, Eg|]. split; [exact Hl|]. split; [exact Hz|].
  destruct (Hall g) as (sc & h & Hs & Hh & _); [rewrite El; by constructor|]. exists sc, h. rewrite <-Eg. split; [exact Hs|exact Hh].
Defined.

(** A struct without a name; its body holds the keyword [fn], the first
    declaration behind it is the import. *)
Definition broken_start : pstate :=
  document_state (default no_stream (document_stream "a.b" "struct { fn x; } } 1 import m;")).

Lemma declaration_error_recovered_witness :
  exists err s1 s2 w,
    declaration (parsers_at 40) 40 0 (code KEYWORD_STRUCT) s1 = Done (Throws err, s2) /\
    module_pass (parsers_at 40) 40 0 tt broken_start =
      Done (Returns (Next tt), with_stream (fun _ => w) (with_diag (reportCompileError err) s2)) /\
    (symbol_at w (st_cursor w) = (-1)%Z \/ restart_at (ps_stream s2) (st_cursor (ps_stream s2)) (st_cursor w)) /\
    forall q, q < st_cursor w -> ~ restart_at (ps_stream s2) (st_cursor (ps_stream s2)) q.
Proof.
  assert (exists s1 err s2, peekSymbol broken_start = Done (Returns (code KEYWORD_STRUCT), s1) /\
    declaration (parsers_at 40) 40 0 (code KEYWORD_STRUCT) s1 = Done (Throws err, s2) /\
    bool_decide (upcoming s2 = (-1)%Z) = false /\ (symbol (st_end (ps_stream s2)), symbol (st_eof (ps_stream s2))) = (-1, -1)%Z /\
    length (st_tokens (ps_stream s2)) = 11)
    as (s1 & err & s2 & E1 & E2 & Hp%bool_decide_eq_false & [= Hd He] & Hl) by (do 3 eexists; do 4 (split; [vm_compute; reflexivity|]); vm_compute; reflexivity).
  assert (stream_isEOF (ps_stream broken_start) = false) as Hmore by (vm_compute; reflexivity).
  assert (stream_ok (ps_stream s2)) as Ho by (split; [exact (conj Hd He)|intros _; exact Hp]).
  destruct (declaration_error_recovered 40 0 (code KEYWORD_STRUCT) err broken_start s1 s2 Hmore E1 ltac:(discriminate) E2 Ho
    ltac:(rewrite Hl; lia)) as (w & E & _ & _ & Hw & Hn).
  exists err, s1, s2, w. split; [exact E2|]. split; [exact E|]. split; [exact Hw|exact Hn].
Defined.

(** Recovery stops at the import. *)
Example recovery_stops :
  match module_pass (parsers_at 40) 40 0 tt broken_start with
  | Done (_, s) => upcoming s = code KEYWORD_IMPORT
  | _ => False
  end.
Proof. vm_compute. reflexivity. Qed.

(** * Sample documents *)

Definition compiled (text : string) : option (list (Z * string)) :=
  reports (compileDocument 600 N.of_nat "src/a.b" text).

(** Mutual recursion, a struct with a method, an enum: nothing to report. *)
Lemma forward_references :
  compiled "fn even(int n) -> bool { return odd(n - 1); } fn odd(int n) -> bool { return even(n - 1); }" = Some [].
Proof. vm_compute. reflexivity. Qed.

(** One error per declaration, and the declarations between them count. *)
Lemma each_error_reported :
  compiled "struct { int x; } fn f(int n) -> int { return n; } pub 1; fn g() -> int { return f(); }" =
  Some [(1, "Expected struct name"); (1, "Expected 'fn' or 'async fn' for function declaration");
        (1, "wrong number of arguments to 'f': expected 1, got 0")]%Z.
Proof. vm_compute. reflexivity. Qed.

(** ** What goes unreported *)

Lemma duplicate_function : compiled "fn f() { } fn f() { }" = Some [(1%Z, "Duplicate function definition: 'f'")].
Proof. vm_compute. reflexivity. Qed.

Lemma duplicate_struct : compiled "struct S { int a; } struct S { string b; }" = Some [].
Proof. vm_compute. reflexivity. Qed.

Lemma unknown_return_type : compiled "fn f() -> Foo { }" = Some [].
Proof. vm_compute. reflexivity. Qed.

(** The parameter is a null pointer, which a call makes the pass dereference. *)
Lemma unknown_parameter_type :
  compiled "fn f(Foo) { }" = Some [] /\
  compileDocument 600 N.of_nat "src/a.b" "fn f(Foo) { } fn g() { f(1); }" = UndefinedBehaviour.
Proof. split; vm_compute; reflexivity. Qed.

Lemma type_parameter_leaks :
  compiled "fn id<T>(T x) -> T { return x; } fn g(T y) -> T { return y; }" = Some [].
Proof. vm_compute. reflexivity. Qed.

(** A call with a wrong number of arguments is rejected, but not as a value of an
    insert, nor in a test. *)
Lemma insert_value_unchecked :
  let quote := String "034" "" in
  let decls := "table struct User { int id; } fn one(int a) -> int { return a; } " in
  compiled (decls +:+ "fn f() { int n = one(1, 2); }") <> Some [] /\
  compiled (decls +:+ "fn f() { insert User { id: one(1, 2) }; }") = Some [] /\
  compiled (decls +:+ "test " +:+ quote +:+ "t" +:+ quote +:+ " { int n = one(1, 2); }") = Some [].
Proof. vm_compute. split; [discriminate|split; reflexivity]. Qed.

(** A variable that was handed over is read as a value of an insert, and handed over
    again when a loop goes round; only a declaration is checked for being in a loop. *)
Lemma moved_value_read :
  let decls := "table struct User { string name; } fn consume(own string s) -> int { return 0; } " in
  compiled (decls +:+ "fn f(own string a) { consume(a); consume(a); }") <> Some [] /\
  compiled (decls +:+ "fn f(own string a) { consume(a); insert User { name: a }; }") = Some [] /\
  compiled (decls +:+ "fn f(own string a) { for i in 0..3 { own string b = a; } }") <> Some [] /\
  compiled (decls +:+ "fn f(own string a) { for i in 0..3 { consume(a); } }") = Some [].
Proof. vm_compute. split; [discriminate|split; [reflexivity|split; [discriminate|reflexivity]]]. Qed.
