(* ===== verification/ExpressionRoundtrip.v ===== *)
(** How an operator tree is printed and parsed back: the exact effect of the parser on
    tokens that are known, and what the text of an operator tree is parsed as. *)

From S2P Require Import Prelude SourceLocation Lexer Diagnostics Ast Scope Tokens LexerStream ParserBase ParseTypes ParseExpressions ParseStatements ParserLogic ParserTotal ParserTheorems.

(** A token as the parser sees it. *)
Notation lexeme := (Z * string)%type.
Definition lexeme_of (t : SymbolInfo) : lexeme := (symbol t, symbolText t).

Definition first_symbol (l : list lexeme) : Z := match l with (y, _) :: _ => y | [] => (-1)%Z end.
Definition first_text (l : list lexeme) : string := match l with (_, x) :: _ => x | [] => "" end.

(** The run, if it ends, returns or throws as [Q] says. *)
Definition reads {A} (m : parser A) (s : pstate) (Q : presult A -> pstate -> Prop) : Prop :=
  match m s with Done (r, s') => Q r s' | UndefinedBehaviour => False | OutOfFuel => True end.

(** Nothing but the cursor and what the lexer caches differs from [s0], and
    [l] comes next. *)
Record here (s0 : pstate) (l : list lexeme) (s : pstate) : Prop := {
  here_ok : stream_ok (ps_stream s);
  here_tokens : st_tokens (ps_stream s) = st_tokens (ps_stream s0);
  here_heap : ps_heap s = ps_heap s0;
  here_types : ps_types s = ps_types s0;
  here_next : lexeme_of <$> drop (st_cursor (ps_stream s)) (st_tokens (ps_stream s)) = l;
  here_text : st_peeked (ps_stream s) = true -> st_text (ps_stream s) = symbolText (token_at (ps_stream s) (st_cursor (ps_stream s)))
}.

(** The lexer's text is that of the token that comes next. *)
Definition text_of (l : list lexeme) (s : pstate) : Prop :=
  match l with (_, x) :: _ => st_text (ps_stream s) = x | [] => True end.

(** * Rules *)

Lemma reads_mono {A} (m : parser A) s (P Q : presult A -> pstate -> Prop) :
  reads m s P -> (forall r s', P r s' -> Q r s') -> reads m s Q.
Proof. unfold reads. destruct (m s) as [[r s']| |]; auto. Qed.

Lemma reads_bind {A B} (m : parser B) (f : B -> parser A) s Q :
  reads m s (fun r s' => match r with Returns a => reads (f a) s' Q | Throws e => Q (Throws e) s' end) ->
  reads (m ≫= f) s Q.
Proof. unfold reads, mbind, parser_bind. by destruct (m s) as [[[a|e] s']| |]. Qed.

Lemma reads_try {A} (m : parser A) k s Q :
  reads m s (fun r s' => match r with Returns a => Q (Returns a) s' | Throws e => reads (k e) s' Q end) ->
  reads (try_catch m k) s Q.
Proof. unfold reads, try_catch. by destruct (m s) as [[[a|e] s']| |]. Qed.

(** A run known to the end. *)
Lemma reads_exact {A B} (m : parser A) (f : A -> parser B) s a s' Q :
  m s = Done (Returns a, s') -> reads (f a) s' Q -> reads (m ≫= f) s Q.
Proof. intros E Hf. apply reads_bind. unfold reads at 1. by rewrite E. Qed.

(** One pass of a loop. *)
Lemma reads_loop {A B} fuel (body : B -> parser (loop_step B A)) b s Q :
  (forall n, reads (body b) s (fun r s' => match r with
     | Returns (Next b') => reads (parser_loop n body b') s' Q
     | Returns (Break a) => Q (Returns a) s'
     | Throws e => Q (Throws e) s' end)) ->
  reads (parser_loop fuel body b) s Q.
Proof.
  intros H. destruct fuel as [|fuel]; [done|]. cbn [parser_loop]. apply reads_bind.
  eapply reads_mono; [apply (H fuel)|]. by intros [[b'|a]|e] s'.
Qed.

Lemma token_next s0 s y x l :
  here s0 ((y, x) :: l) s ->
  st_tokens (ps_stream s) !! st_cursor (ps_stream s) =
    Some (token_at (ps_stream s) (st_cursor (ps_stream s))) /\
  lexeme_of (token_at (ps_stream s) (st_cursor (ps_stream s))) = (y, x) /\
  lexeme_of <$> drop (S (st_cursor (ps_stream s))) (st_tokens (ps_stream s)) = l.
Proof.
  intros [_ _ _ _ Hn _]. unfold token_at.
  destruct (st_tokens (ps_stream s) !! st_cursor (ps_stream s)) as [t|] eqn:E.
  - rewrite (drop_S _ _ _ E) in Hn. cbn in Hn. injection Hn as Ht Hl. cbn. split; [done|]. by split; [unfold lexeme_of; congruence|].
  - rewrite drop_ge in Hn by (by apply lookup_ge_None). done.
Qed.

Lemma token_last s0 s :
  here s0 [] s -> symbol (token_at (ps_stream s) (st_cursor (ps_stream s))) = (-1)%Z.
Proof.
  intros [Ho _ _ _ Hn _]. apply symbol_at_end; [done|].
  apply (f_equal length) in Hn. rewrite length_fmap, length_drop in Hn. cbn in Hn. lia.
Qed.

Lemma next_symbol s0 s l :
  here s0 l s -> symbol (token_at (ps_stream s) (st_cursor (ps_stream s))) = first_symbol l.
Proof.
  intros H. destruct l as [|[y x] l]; [by apply (token_last s0)|].
  destruct (token_next _ _ _ _ _ H) as (_ & E & _). unfold lexeme_of in E. cbn. congruence.
Qed.

Section rules.
Context {A : Type} (s0 : pstate).

Lemma here_peek l s :
  here s0 l s -> let s' := with_stream (fun _ => (stream_peek (ps_stream s)).2) s in
  here s0 l s' /\ text_of l s' /\ (stream_peek (ps_stream s)).1 = first_symbol l.
Proof.
  intros H s'. pose proof H as [Ho Ht Hh Hty Hn Hx].
  split; [|split].
  - split; cbn; [by apply ok_peek|by rewrite tokens_peek|done|done|by rewrite tokens_peek, cursor_peek|].
    unfold stream_peek. destruct (st_peeked (ps_stream s)) eqn:E; [intros _; by apply Hx|done].
  - destruct l as [|[y x] l]; [done|]. destruct (token_next _ _ _ _ _ H) as (_ & E & _).
    cbn. unfold stream_peek. destruct (st_peeked (ps_stream s)) eqn:Ep; cbn.
    + rewrite Hx by done. unfold lexeme_of in E. congruence.
    + unfold lexeme_of in E. congruence.
  - rewrite peek_result. by apply (next_symbol s0).
Qed.

Lemma reads_peek l (f : Z -> parser A) s Q :
  here s0 l s -> (forall s', here s0 l s' -> text_of l s' -> reads (f (first_symbol l)) s' Q) ->
  reads (peekSymbol ≫= f) s Q.
Proof.
  intros H Hf. destruct (here_peek l s H) as (H' & Hx & Hz). apply reads_bind.
  unfold reads, peekSymbol, on_stream. destruct (stream_peek (ps_stream s)) as [z st]. cbn in Hz. subst z. by apply Hf.
Qed.

Lemma reads_location l (f : SourceLocation -> parser A) s Q :
  here s0 l s -> (forall loc s', here s0 l s' -> reads (f loc) s' Q) -> reads (getTokenLocation ≫= f) s Q.
Proof. intros H Hf. destruct (here_peek l s H) as (H' & Hx & Hz). apply reads_bind. by apply Hf. Qed.

Lemma reads_get y x l (f : Z -> parser A) s Q :
  here s0 ((y, x) :: l) s ->
  (forall s', here s0 l s' -> st_text (ps_stream s') = x -> st_cursor (ps_stream s') = S (st_cursor (ps_stream s)) ->
     reads (f y) s' Q) ->
  reads (getSymbol ≫= f) s Q.
Proof.
  intros H Hf. destruct (token_next _ _ _ _ _ H) as (_ & E & Hl). destruct H as [Ho Ht Hh Hty Hn Hx].
  apply reads_bind. unfold reads, getSymbol, on_stream. cbn.
  replace (symbol (token_at _ _)) with y by (unfold lexeme_of in E; congruence).
  apply Hf; [|unfold lexeme_of in E; cbn; congruence|done].
  split; cbn; [by apply ok_get|done..].
Qed.

(** What leaves the stream, the scopes and the types alone. *)
Lemma reads_aside {B} (m : parser B) l (f : B -> parser A) s a s' Q :
  here s0 l s -> m s = Done (Returns a, s') ->
  ps_stream s' = ps_stream s -> ps_heap s' = ps_heap s -> ps_types s' = ps_types s ->
  (here s0 l s' -> reads (f a) s' Q) -> reads (m ≫= f) s Q.
Proof.
  intros [] E Hs Hh Ht Hf. apply reads_bind. unfold reads. rewrite E. apply Hf. split; rewrite ?Hs; congruence || done.
Qed.

Lemma reads_node loc l (f : Node -> parser A) s Q :
  here s0 l s -> (forall n s', here s0 l s' -> getLocation n = loc -> reads (f n) s' Q) -> reads (new_node loc ≫= f) s Q.
Proof. intros H Hf. eapply reads_aside; [done..|]. intros H'. by apply Hf. Qed.

Lemma reads_ret (a : A) s (Q : presult A -> pstate -> Prop) : Q (Returns a) s -> reads (mret a) s Q.
Proof. done. Qed.

Lemma reads_return {B} (b : B) (f : B -> parser A) s Q : reads (f b) s Q -> reads (mret b ≫= f) s Q.
Proof. done. Qed.

Lemma reads_find_symbol l scope name (f : option Symbol -> parser A) s Q :
  here s0 l s -> reads (f (findSymbol (ps_heap s0) scope name)) s Q -> reads (find_symbol scope name ≫= f) s Q.
Proof. intros H Hf. unfold find_symbol. unfold observe, reads, mbind, parser_bind. by rewrite (here_heap _ _ _ H). Qed.

Lemma reads_observe {B} (g : pstate -> B) (f : B -> parser A) s Q :
  reads (f (g s)) s Q -> reads (observe g ≫= f) s Q.
Proof. done. Qed.

Lemma reads_back l pos (f : unit -> parser A) k s Q :
  here s0 k s -> lexeme_of <$> drop pos (st_tokens (ps_stream s0)) = l ->
  (forall s', here s0 l s' -> st_cursor (ps_stream s') = pos -> reads (f tt) s' Q) -> reads (setCurrentPos pos ≫= f) s Q.
Proof.
  intros [Ho Ht Hh Hty Hn Hx] Hl Hf. apply reads_bind. unfold reads, setCurrentPos, change.
  apply Hf; [|done]. split; cbn; [by apply ok_back|done..|by rewrite Ht|done].
Qed.
End rules.

Lemma reads_expect {A} s0 y x l file line message (f : unit -> parser A) s Q :
  here s0 ((y, x) :: l) s -> (forall s', here s0 l s' -> st_text (ps_stream s') = x -> reads (f tt) s' Q) ->
  reads (expect y file line message ≫= f) s Q.
Proof.
  intros Hs Hf. apply reads_bind. unfold expect. eapply reads_get; [exact Hs|]. intros s' Hs' Hx _.
  rewrite bool_decide_eq_false_2 by (intros []; done). by apply Hf.
Qed.

Lemma reads_expect_name {A} s0 x l file line message (f : string -> parser A) s Q :
  here s0 ((code SYMBOL, x) :: l) s -> (forall s', here s0 l s' -> reads (f x) s' Q) ->
  reads (expect_name file line message ≫= f) s Q.
Proof.
  intros Hs Hf. apply reads_bind. unfold expect_name. eapply reads_expect; [exact Hs|]. intros s' Hs' Hx.
  unfold getSymbolText, observe, reads. rewrite Hx. by apply Hf.
Qed.

(** * The text of an operator tree *)

(** * Trees and their text *)

Inductive tree :=
  | TNumber (text : string)
  | TName (name : string)
  | TUnary (op : Z) (t : tree)
  | TBinary (op : Z) (text : string) (l r : tree)
  | TField (t : tree) (field : string)
  | TIndex (t i : tree).

Definition mark (c : ascii) : lexeme := (chr c, "").

(** In parentheses when the place binds tighter than the operator. *)
Definition wrap (level prec : Z) (l : list lexeme) : list lexeme :=
  if decide (prec < level)%Z then mark "(" :: l ++ [mark ")"] else l.

(** Binary operators bind with 0 to 10, prefix operators with 11, postfix
    operators with 12. *)
Fixpoint print (level : Z) (t : tree) : list lexeme :=
  match t with
  | TNumber x => [(code CONSTANT_NUMBER, x)]
  | TName x => [(code SYMBOL, x)]
  | TUnary y t => wrap level 11 ((y, "") :: print 11 t)
  | TBinary y x l r =>
      let prec := getOperatorPrec y x in
      wrap level prec (print prec l ++ (y, x) :: print (prec + 1) r)
  | TField t f => print 12 t ++ [mark "."; (code SYMBOL, f)]
  | TIndex t i => print 12 t ++ mark "[" :: print 0 i ++ [mark "]"]
  end.

Section meaning.
Variables (h : heap) (types : gmap nat Ty) (scope : nat).

(** A name that is a variable and nothing else. *)
Definition variable_named (x : string) (v : VariableDefinition) : Prop :=
  findSymbol h scope x = Some (SymVariable v) /\
  (exists t, types !! vid v = Some t /\ isFunctionType t = false) /\
  (findNamespace h scope x = None \/ isModuleImported h scope x = false).

Fixpoint well_formed (t : tree) : Prop :=
  match t with
  | TNumber x => (leading_number (chars x) 0 < 2 ^ 31)%Z
  | TName x => exists v, variable_named x v
  | TUnary y t => is_prefix y = true /\ well_formed t
  | TBinary y x l r => (0 <= getOperatorPrec y x)%Z /\ well_formed l /\ well_formed r
  | TField t f => well_formed t
  | TIndex t i => well_formed t /\ well_formed i
  end.

(** The expression is the tree's, wherever its nodes are. *)
Fixpoint denotes (t : tree) (e : Expr) : Prop :=
  match t with
  | TNumber x => exists n, e = ConstInteger n (leading_number (chars x) 0)
  | TName x => exists n v, e = VariableExpression n (Some v) /\ findSymbol h scope x = Some (SymVariable v)
  | TUnary y t => exists n e1, e = UnaryExpression n (prefix_text y) e1 /\ denotes t e1
  | TBinary y x l r => exists n e1 e2,
      e = (if decide (y = code RANGE) then RangeExpression n e1 e2
           else OperationsExpression n (getOperatorString y x) e1 e2) /\ denotes l e1 /\ denotes r e2
  | TField t f => exists n e1, e = FieldAccessExpression n e1 f /\ denotes t e1
  | TIndex t i => exists n e1 e2, e = IndexExpression n e1 e2 /\ denotes t e1 /\ denotes i e2
  end.
End meaning.

(** What may come after an expression printed at a level: no postfix operator, no
    arguments, no pipe, no operator that binds tighter. *)
Definition postfix_free (l : list lexeme) : Prop :=
  first_symbol l <> chr "(" /\ first_symbol l <> chr "." /\ first_symbol l <> chr "[" /\
  first_symbol l <> code QUESTION_MARK.
Definition follows (level : Z) (l : list lexeme) : Prop :=
  postfix_free l /\ first_symbol l <> code PIPE_ARROW /\
  (getOperatorPrec (first_symbol l) (first_text l) <= level)%Z.

Lemma denotes_stamp h scope t loc e : denotes h scope t e -> denotes h scope t (stamp loc e).
Proof.
  unfold stamp. destruct (isSet _); [done|].
  destruct t; cbn; intros H.
  - destruct H as [n ->]. by eexists.
  - destruct H as (n & v & -> & H). by eexists _, _.
  - destruct H as (n & e1 & -> & H). by eexists _, _.
  - destruct H as (n & e1 & e2 & -> & H). exists (mkNode (node_id n) loc), e1, e2. by case_decide.
  - destruct H as (n & e1 & -> & H). by eexists _, _.
  - destruct H as (n & e1 & e2 & -> & H). by eexists _, _, _.
Qed.

Lemma operator_bounds y x : (0 <= getOperatorPrec y x)%Z -> (getOperatorPrec y x <= 10)%Z /\
  y <> chr "(" /\ y <> chr "." /\ y <> chr "[" /\ y <> code QUESTION_MARK /\ y <> code PIPE_ARROW.
Proof.
  intros H. split; [unfold getOperatorPrec; repeat case_match; lia|].
  repeat split; intros ->; vm_compute in H; by destruct H.
Qed.

(** * Parsing *)

Section roundtrip.
Variables (s0 : pstate) (scope : nat).
Notation denote := (denotes (ps_heap s0) scope).
Notation well := (well_formed (ps_heap s0) (ps_types s0) scope).

(** What a part's result becomes of the whole. *)
Definition lifted (Q : presult (option Expr) -> pstate -> Prop) (r : presult Expr) (s : pstate) : Prop :=
  match r with Returns e => Q (Returns (Some e)) s | Throws err => Q (Throws err) s end.

(** ** Constants and names *)

Lemma reads_number x rest s Q :
  (leading_number (chars x) 0 < 2 ^ 31)%Z -> here s0 ((code CONSTANT_NUMBER, x) :: rest) s ->
  (forall n s', here s0 rest s' -> Q (Returns (Some (ConstInteger n (leading_number (chars x) 0)))) s') ->
  reads ConstExpression_Parse s Q.
Proof.
  intros Hx Hs HQ. unfold ConstExpression_Parse.
  eapply reads_location; [eassumption|]. intros loc s1 H1.
  eapply reads_get; [eassumption|]. intros s2 H2 Ht _. apply reads_observe. rewrite Ht.
  rewrite !decide_False by discriminate. rewrite decide_True by done.
  unfold atoi. rewrite decide_True by done. 
  eapply reads_aside; [done..|]. intros H2'.
  eapply reads_node; [eassumption|]. intros n s3 H3 _. by apply HQ.
Qed.

(** One step over what comes next. *)
Ltac read_step :=
  cbv beta iota delta [or_else];
  lazymatch goal with
  | |- reads (getTokenLocation ≫= _) _ _ => eapply reads_location; [eassumption|intros ? ? ?]
  | |- reads (peekSymbol ≫= _) _ _ =>
      eapply reads_peek; [eassumption|intros ? ? ?]; cbn [first_symbol first_text text_of] in *
  | |- reads (getSymbol ≫= _) _ _ => eapply reads_get; [eassumption|intros ? ? ? ?]
  | |- reads (getSymbolText ≫= _) _ _ =>
      apply reads_observe; match goal with E : st_text (ps_stream ?s) = _ |- reads _ ?s _ => rewrite E end
  | |- reads (new_node _ ≫= _) _ _ => eapply reads_node; [eassumption|intros ? ? ? ?]
  | |- reads (expect _ _ _ _ ≫= _) _ _ => eapply reads_expect; [eassumption|intros ? ? ?]
  | |- reads (expect_name _ _ _ ≫= _) _ _ => eapply reads_expect_name; [eassumption|intros ? ?]
  | |- reads (find_symbol _ _ ≫= _) _ _ => eapply reads_find_symbol; [eassumption|]
  | |- reads (getCurrentPos ≫= _) _ _ => apply reads_observe
  | |- reads (setCurrentPos _ ≫= _) _ _ => eapply reads_back; [eassumption|eassumption|intros ? ? ?]
  | |- reads (mret _ ≫= _) _ _ => apply reads_return
  | |- reads (or_error (Some _) _ _ _ ≫= _) _ _ => apply reads_return
  | |- reads (or_error (Some _) _ _ _) _ _ => apply reads_ret
  | |- reads (try_catch _ _ ≫= _) _ _ => apply reads_bind, reads_try
  | |- reads (mret _) _ _ => apply reads_ret
  | |- reads (if decide _ then _ else _) _ _ => first [rewrite decide_True by done | rewrite decide_False by done]
  | |- reads (if bool_decide _ then _ else _) _ _ =>
      first [rewrite bool_decide_eq_true_2 by done | rewrite bool_decide_eq_false_2 by done]
  | |- reads (if decide _ then _ else _ ≫= _) _ _ => first [rewrite decide_True by done | rewrite decide_False by done]
  | |- reads ((if decide _ then _ else _) ≫= _) _ _ => first [rewrite decide_True by done | rewrite decide_False by done]
  end.

Lemma reads_qualified_access x v rest depth fuel pos (f : option Expr -> parser (option Expr)) s Q :
  variable_named (ps_heap s0) (ps_types s0) scope x v -> here s0 rest s ->
  reads (f None) s Q -> reads (qualified_access depth fuel scope pos x ≫= f) s Q.
Proof.
  intros (_ & _ & Hns) Hs Hf. eapply (reads_exact _ f s None s); [|exact Hf].
  unfold qualified_access, find_namespace, module_imported, observe, mbind, parser_bind.
  rewrite (here_heap _ _ _ Hs). destruct Hns as [-> | ->]; [done|by case_match].
Qed.

(** The attempts before the last find no struct, enum, call or function. *)
Lemma reads_name x v rest depth fuel s Q :
  variable_named (ps_heap s0) (ps_types s0) scope x v -> here s0 ((code SYMBOL, x) :: rest) s ->
  (forall n s', here s0 rest s' -> Q (Returns (Some (VariableExpression n (Some v)))) s') ->
  reads (name_primary depth fuel scope) s Q.
Proof.
  intros Hx Hs HQ. pose proof Hx as (Hv & (t & Ht & Hft) & _). unfold name_primary.
  assert (lexeme_of <$> drop (st_cursor (ps_stream s)) (st_tokens (ps_stream s0)) = (code SYMBOL, x) :: rest) as Hpos.
  { rewrite <-(here_tokens _ _ _ Hs). apply Hs. }
  repeat read_step. eapply reads_qualified_access; [exact Hx|eassumption|].
  read_step. rewrite Hv. cbn [as_struct as_enum]. repeat read_step.
  unfold CallExpression_Parse. repeat read_step. rewrite Hv. repeat read_step.
  apply reads_bind. unfold function_reference. repeat read_step. rewrite Hv. cbn [is_function]. repeat read_step.
  unfold variable_or_indirect_call. repeat read_step. apply reads_bind. unfold VariableExpression_Parse.
  repeat read_step. rewrite Hv. repeat read_step.
  apply reads_observe. rewrite (here_types s0 rest), Ht by eassumption. rewrite Hft. by apply HQ.
Qed.

(** ** Loops that stop *)

Lemma reads_postfix_stop rec fuel loc e n rest s Q :
  here s0 rest s -> postfix_free rest -> (forall s', here s0 rest s' -> Q (Returns e) s') ->
  reads (parser_loop n (postfix_pass rec fuel scope loc) e) s Q.
Proof.
  intros Hs (_ & H1 & H2 & H3) HQ. apply reads_loop. intros n'. unfold postfix_pass. repeat read_step. by apply HQ.
Qed.

Lemma no_operator x : getOperatorPrec (-1) x = (-1)%Z.
Proof. reflexivity. Qed.

Lemma reads_binary_stop rec fuel level loc e n q rest s Q :
  here s0 rest s -> follows q rest -> (q < level)%Z -> (forall s', here s0 rest s' -> Q (Returns e) s') ->
  reads (parser_loop n (binary_pass rec fuel scope level loc) e) s Q.
Proof.
  intros Hs (_ & H2 & H3) Hq HQ. apply reads_loop. intros n'. unfold binary_pass.
  read_step. apply reads_observe. read_step. cbv zeta. rewrite decide_True.
  - by apply HQ.
  - destruct rest as [|[y x] rest]; cbn in *; [left; by rewrite no_operator|]. subst. right. lia.
Qed.

(** ** Primaries *)

(** The base of a primary and its postfix operators. *)
Definition base_and_postfix (depth fuel : nat) (loc : SourceLocation) (y : Z) : parser (option Expr) :=
  base ← base_primary (parsers_at depth) fuel scope y;
  match base with
  | None => mret None
  | Some e => e ← parser_loop fuel (postfix_pass (parsers_at depth) fuel scope loc) (stamp loc e); mret (Some e)
  end.

Definition plain_start (y : Z) : Prop := y = code CONSTANT_NUMBER \/ y = code SYMBOL \/ y = chr "(".

Lemma print_start t rest : well t -> plain_start (first_symbol (print 12 t ++ rest)).
Proof.
  revert rest. induction t as [x|x|y t IH|y x l IHl r IHr|t IH f|t IHt i IHi]; intros rest Hw; cbn.
  - by left.
  - by right; left.
  - by right; right.
  - unfold wrap. destruct (operator_bounds y x (proj1 Hw)) as [Hq _]. rewrite decide_True by lia. by right; right.
  - rewrite <-app_assoc. by apply IH.
  - rewrite <-app_assoc. by apply IHt, Hw.
Qed.

Definition primary_keywords : list LexerSymbol :=
  [KEYWORD_AWAIT; KEYWORD_MATCH; KEYWORD_FN; KEYWORD_SPAWN; KEYWORD_QUERY; KEYWORD_INSERT; KEYWORD_UPDATE; KEYWORD_DELETE].

Lemma plain_not_keyword y : plain_start y -> Forall (fun k => y <> code k) primary_keywords.
Proof. intros [-> | [-> | ->]]; repeat constructor; discriminate. Qed.

Lemma prefix_not_keyword y : is_prefix y = true -> Forall (fun k => y <> code k) primary_keywords.
Proof.
  unfold is_prefix. intros H. repeat apply orb_prop in H as [H|H]; apply bool_decide_eq_true in H as ->;
    repeat constructor; discriminate.
Qed.

Lemma reads_primary l depth s Q :
  here s0 l s -> plain_start (first_symbol l) ->
  (forall depth' fuel loc s', here s0 l s' -> reads (base_and_postfix depth' fuel loc (first_symbol l)) s' Q) ->
  reads (rec_Primary (parsers_at depth) scope) s Q.
Proof.
  intros Hs Hy Hbase. destruct depth as [|depth]; [done|]. cbn [parsers_at rec_Primary]. unfold ParsePrimary.
  do 2 read_step. assert (is_prefix (first_symbol l) = false) as Hp by (by destruct Hy as [-> | [-> | ->]]).
  pose proof (plain_not_keyword _ Hy) as Hk. repeat apply Forall_cons_1 in Hk as [? Hk].
  rewrite !decide_False by done. rewrite Hp. by apply Hbase.
Qed.

(** ** The three ways a tree is read *)

(** As the base of postfix operators, as a primary, and as an expression; the
    first and the last are told by what the loop does from there. *)
Definition base_read (t : tree) : Prop := forall depth fuel loc rest s Q,
  here s0 (print 12 t ++ rest) s -> first_symbol rest <> chr "(" ->
  (forall e n s', denote t e -> here s0 rest s' ->
     reads (parser_loop n (postfix_pass (parsers_at depth) fuel scope loc) e) s' (lifted Q)) ->
  reads (base_and_postfix depth fuel loc (first_symbol (print 12 t ++ rest))) s Q.

Definition primary_read (t : tree) : Prop := forall depth rest s Q,
  here s0 (print 11 t ++ rest) s -> postfix_free rest ->
  (forall e s', denote t e -> here s0 rest s' -> Q (Returns (Some e)) s') ->
  reads (rec_Primary (parsers_at depth) scope) s Q.

Definition climb (depth fuel n : nat) (level : Z) : parser (option Expr) :=
  left_ ← rec_Primary (parsers_at depth) scope;
  match left_ with
  | None => mret None
  | Some e => e ← parser_loop n (binary_pass (parsers_at depth) fuel scope level (expr_location e)) e; mret (Some e)
  end.

Definition expr_read_at (level : Z) (t : tree) : Prop := forall outer depth fuel n rest s Q,
  (outer <= level)%Z -> here s0 (print level t ++ rest) s -> follows level rest ->
  (forall loc e n s', denote t e -> here s0 rest s' ->
     reads (parser_loop n (binary_pass (parsers_at depth) fuel scope outer loc) e) s' (lifted Q)) ->
  reads (climb depth fuel n outer) s Q.

Definition expr_read (t : tree) : Prop := forall level, (level <= 11)%Z -> expr_read_at level t.

(** A loop whose result is wrapped. *)
Lemma reads_lifted {B} n (body : B -> parser (loop_step B Expr)) b s Q :
  reads (parser_loop n body b) s (lifted Q) -> reads (e ← parser_loop n body b; mret (Some e)) s Q.
Proof. intros H. apply reads_bind. eapply reads_mono; [exact H|]. by intros [e|e] s'. Qed.

(** A whole expression, up to what may follow it. *)
Lemma reads_expr t q depth rest s Q :
  expr_read_at (q + 1) t -> here s0 (print (q + 1) t ++ rest) s -> follows q rest ->
  (forall e s', denote t e -> here s0 rest s' -> Q (Returns (Some e)) s') ->
  reads (rec_Expr (parsers_at depth) scope (q + 1)) s Q.
Proof.
  intros Ht Hs Hf HQ. destruct depth as [|depth]; [done|]. cbn [parsers_at rec_Expr].
  change (reads (climb depth depth depth (q + 1)) s Q). eapply Ht; [|exact Hs| |].
  - lia.
  - destruct Hf as (? & ? & ?). split; [done|split; [done|lia]].
  - intros loc e n s' He Hs'. eapply reads_binary_stop; [exact Hs'|exact Hf|lia|]. intros s2 Hs2. by apply HQ.
Qed.

Lemma reads_operand t q depth file line message rest s Q :
  expr_read_at (q + 1) t -> here s0 (print (q + 1) t ++ rest) s -> follows q rest ->
  (forall e s', denote t e -> here s0 rest s' -> Q (Returns e) s') ->
  reads (operand (parsers_at depth) scope (q + 1) file line message) s Q.
Proof.
  intros Ht Hs Hf HQ. unfold operand. apply reads_bind. eapply reads_expr; [done..|].
  intros e s' He Hs'. by apply HQ.
Qed.

Lemma follows_mark c rest :
  c = ")"%char \/ c = "]"%char -> follows (-1) (mark c :: rest).
Proof. by intros [-> | ->]. Qed.

(** In parentheses. *)
Lemma base_read_parens t : expr_read_at 0 t -> forall depth fuel loc rest s Q,
  here s0 (mark "(" :: print 0 t ++ mark ")" :: rest) s ->
  (forall e n s', denote t e -> here s0 rest s' ->
     reads (parser_loop n (postfix_pass (parsers_at depth) fuel scope loc) e) s' (lifted Q)) ->
  reads (base_and_postfix depth fuel loc (chr "(")) s Q.
Proof.
  intros Ht depth fuel loc rest s Q Hs HQ. unfold base_and_postfix, base_primary.
  apply reads_bind. repeat read_step. unfold parenthesized. repeat read_step.
  apply reads_bind. eapply (reads_operand t (-1)); [done|eassumption|by apply follows_mark; left|].
  intros e s1 He Hs1. apply reads_bind. unfold expect. eapply reads_get; [exact Hs1|].
  intros s2 Hs2 _ _. cbn. apply reads_lifted, HQ; [by apply denotes_stamp|done].
Qed.

(** A base with its postfix operators is a primary when none follows. *)
Lemma base_primary_read t : well t -> print 11 t = print 12 t -> base_read t -> primary_read t.
Proof.
  intros Hw Hp Hb depth rest s Q Hs Hf HQ. rewrite Hp in Hs.
  eapply reads_primary; [exact Hs|by apply print_start|]. intros depth' fuel loc s' Hs'.
  eapply Hb; [exact Hs'|apply Hf|]. intros e n s2 He Hs2.
  eapply reads_postfix_stop; [exact Hs2|done|]. intros s3 Hs3. by apply HQ.
Qed.

(** A primary is an expression at every level. *)
Lemma primary_expr_read t : (forall level, (level <= 11)%Z -> print level t = print 11 t) -> primary_read t -> expr_read t.
Proof.
  intros Hp Ht level Hlevel outer depth fuel n rest s Q Hl Hs Hf HQ. rewrite Hp in Hs by lia.
  unfold climb. apply reads_bind. eapply Ht; [exact Hs|apply Hf|]. intros e s' He Hs'.
  apply reads_lifted. by apply HQ.
Qed.

(** ** Each kind of tree *)

Lemma base_read_number x : well (TNumber x) -> base_read (TNumber x).
Proof.
  intros Hw depth fuel loc rest s Q Hs _ HQ. unfold base_and_postfix, base_primary.
  apply reads_bind. repeat read_step. eapply reads_number; [exact Hw|exact Hs|]. intros n s' Hs'.
  apply reads_lifted, HQ; [apply denotes_stamp; by eexists|done].
Qed.

Lemma base_read_name x : well (TName x) -> base_read (TName x).
Proof.
  intros [v Hv] depth fuel loc rest s Q Hs _ HQ. unfold base_and_postfix, base_primary.
  apply reads_bind. repeat read_step. eapply reads_name; [exact Hv|exact Hs|]. intros n s' Hs'.
  apply reads_lifted, HQ; [|done]. apply denotes_stamp. exists n, v. split; [done|apply Hv].
Qed.

Lemma base_read_field t f : base_read t -> base_read (TField t f).
Proof.
  intros Ht depth fuel loc rest s Q Hs Hrest HQ. cbn [print] in Hs |- *. rewrite <-app_assoc in Hs |- *.
  eapply Ht; [exact Hs|done|]. intros e n s1 He Hs1.
  apply reads_loop. intros n'. unfold postfix_pass. cbn [app mark] in Hs1. repeat read_step.
  unfold member_access. apply reads_bind. repeat read_step.
  apply HQ; [|done]. by eexists _, _.
Qed.

Lemma base_read_index t i : base_read t -> expr_read_at 0 i -> base_read (TIndex t i).
Proof.
  intros Ht Hi depth fuel loc rest s Q Hs Hrest HQ. cbn [print] in Hs |- *.
  rewrite <-app_assoc in Hs |- *. cbn [app] in Hs |- *. rewrite <-app_assoc in Hs |- *. cbn [app] in Hs |- *.
  eapply Ht; [exact Hs|done|]. intros e n s1 He Hs1.
  apply reads_loop. intros n'. unfold postfix_pass. cbn [mark] in Hs1. repeat read_step.
  unfold index_access. apply reads_bind. repeat read_step.
  apply reads_bind. eapply (reads_operand i (-1)); [done|eassumption|by apply follows_mark; right|].
  intros e' s2 He' Hs2. cbn [mark] in Hs2. repeat read_step. apply HQ; [|done]. by eexists _, _, _.
Qed.

Lemma primary_read_unary y t : is_prefix y = true -> primary_read t -> primary_read (TUnary y t).
Proof.
  intros Hy Ht depth rest s Q Hs Hf HQ. cbn [print] in Hs. unfold wrap in Hs.
  rewrite decide_False in Hs by lia. cbn [app] in Hs.
  destruct depth as [|depth]; [done|]. cbn [parsers_at rec_Primary]. unfold ParsePrimary. do 2 read_step.
  pose proof (prefix_not_keyword _ Hy) as Hk. repeat apply Forall_cons_1 in Hk as [? Hk].
  rewrite !decide_False by done. rewrite Hy. read_step.
  unfold primary_operand. apply reads_bind, reads_bind. eapply Ht; [eassumption|done|].
  intros e s2 He Hs2. repeat read_step. apply HQ; [|done]. by eexists _, _.
Qed.

Lemma expr_read_binary y x l r level :
  (0 <= getOperatorPrec y x)%Z -> expr_read l -> expr_read r -> (level <= getOperatorPrec y x)%Z ->
  expr_read_at level (TBinary y x l r).
Proof.
  intros Hq Hl Hr Hlevel outer depth fuel n rest s Q Houter Hs Hf HQ. cbn [print] in Hs. unfold wrap in Hs.
  destruct (operator_bounds y x Hq) as (Hq' & Hp1 & Hp2 & Hp3 & Hp4 & Hp5).
  set (q := getOperatorPrec y x) in *. rewrite decide_False in Hs by lia.
  rewrite <-app_assoc in Hs. cbn [app] in Hs.
  eapply (Hl q); [lia| |exact Hs| |]; [lia|by repeat split|]. intros loc e1 n1 s1 He1 Hs1.
  apply reads_loop. intros n2. unfold binary_pass. read_step. apply reads_observe.
  match goal with E : st_text _ = x |- _ => rewrite E end.
  rewrite decide_False by done. cbv zeta. fold q. rewrite decide_False by lia. read_step.
  assert (follows q rest) as Hfq by (destruct Hf as (? & ? & ?); split; [done|split; [done|lia]]).
  case_decide as Hrange; apply reads_bind;
    (eapply (reads_operand r q); [apply Hr; lia|eassumption|exact Hfq|]); intros e2 s2 He2 Hs2; repeat read_step;
    (apply HQ; [|done]); eexists _, e1, e2; by rewrite ?decide_True, ?decide_False by done.
Qed.

(** ** Every tree *)

Lemma wrap_yes level prec l : (prec < level)%Z -> wrap level prec l = mark "(" :: l ++ [mark ")"].
Proof. intros H. unfold wrap. by rewrite decide_True. Qed.

Lemma wrap_no level prec l : (level <= prec)%Z -> wrap level prec l = l.
Proof. intros H. unfold wrap. rewrite decide_False by lia. done. Qed.

(** A tree that stands in parentheses where it would not bind. *)
Lemma base_read_wrapped t : print 12 t = mark "(" :: print 0 t ++ [mark ")"] -> expr_read_at 0 t -> base_read t.
Proof.
  intros Hp Ht depth fuel loc rest s Q Hs _ HQ. rewrite Hp in Hs |- *. cbn [app] in Hs |- *.
  rewrite <-app_assoc in Hs. cbn [app] in Hs. by apply (base_read_parens t Ht depth fuel loc rest).
Qed.

Lemma tree_read t : well t -> base_read t /\ primary_read t /\ expr_read t.
Proof.
  induction t as [x|x|y t IH|y x l IHl r IHr|t IH f|t IHt i IHi]; intros Hw.
  1,2,5,6: assert (forall u, well u -> (forall level, print level u = print 12 u) -> base_read u ->
    base_read u /\ primary_read u /\ expr_read u) as Hplain by
    (intros u Hu Hp Hb; split; [done|]; assert (primary_read u) by (by apply base_primary_read); split; [done|];
     apply primary_expr_read; [intros; by rewrite !Hp|done]); apply Hplain; [done|done|].
  - by apply base_read_number.
  - by apply base_read_name.
  - by apply base_read_field, IH.
  - destruct Hw. apply base_read_index; [by apply IHt|]. apply IHi; [done|lia].
  - destruct Hw as [Hy Hw]. assert (primary_read (TUnary y t)) as Hp by (apply primary_read_unary; [done|by apply IH]).
    assert (expr_read (TUnary y t)) as He.
    { apply primary_expr_read; [|done]. intros level Hl. cbn [print]. by rewrite !wrap_no by lia. }
    split; [|done]. apply base_read_wrapped; [|apply He; lia]. cbn [print]. by rewrite wrap_yes, wrap_no by lia.
  - destruct Hw as (Hq & Hl & Hr). destruct (operator_bounds y x Hq) as [Hq' _].
    assert (forall level, (level <= getOperatorPrec y x)%Z -> expr_read_at level (TBinary y x l r)) as He.
    { intros level Hlevel. apply expr_read_binary; [done|by apply IHl|by apply IHr|done]. }
    assert (base_read (TBinary y x l r)) as Hb.
    { apply base_read_wrapped; [|by apply He]. cbn [print]. by rewrite wrap_yes, wrap_no by lia. }
    assert (primary_read (TBinary y x l r)) as Hp.
    { apply base_primary_read; [done| |done]. cbn [print]. by rewrite !wrap_yes by lia. }
    split; [done|split; [done|]]. intros level Hlevel.
    destruct (decide (level <= getOperatorPrec y x)%Z) as [?|Hn]; [by apply He|].
    intros outer depth fuel n rest s Q Houter Hs Hf HQ.
    assert (print level (TBinary y x l r) = print 11 (TBinary y x l r)) as E by (cbn [print]; by rewrite !wrap_yes by lia).
    rewrite E in Hs. unfold climb. apply reads_bind. eapply Hp; [exact Hs|apply Hf|]. intros e s' He' Hs'.
    apply reads_lifted. by apply HQ.
Qed.
End roundtrip.

(** C20. Operator precedence round trip: a tree of constants, variables, prefix,
    binary and postfix operators, printed with no parentheses but those its
    precedences need, is parsed back as that tree; the parser stops exactly
    where the text of the tree ends and leaves the tokens and scopes as they
    are. *)
Theorem expression_roundtrip (depth scope : nat) (t : tree) (rest : list lexeme) (s : pstate)
  (Hstream : stream_ok (ps_stream s)) (Hpeeked : st_peeked (ps_stream s) = false)
  (Hclash : clash_free (ps_heap s))
  (Hwell : well_formed (ps_heap s) (ps_types s) scope t)
  (Hnext : lexeme_of <$> drop (st_cursor (ps_stream s)) (st_tokens (ps_stream s)) = print 0 t ++ rest)
  (Hrest : follows (-1) rest)
  (Hdepth : 10 * (length (st_tokens (ps_stream s)) - st_cursor (ps_stream s)) + 9 <= depth) :
  exists e s', rec_Expr (parsers_at depth) scope 0 s = Done (Returns (Some e), s') /\
    denotes (ps_heap s) scope t e /\
    lexeme_of <$> drop (st_cursor (ps_stream s')) (st_tokens (ps_stream s')) = rest /\
    st_tokens (ps_stream s') = st_tokens (ps_stream s) /\ ps_heap s' = ps_heap s.
Proof.
  assert (ends (rec_Expr (parsers_at depth) scope 0) s (within s found)) as Hends.
  { apply spec_ends; [done|]. apply parsers_at_counted. pose proof (rest_le s). lia. }
  assert (here s (print 0 t ++ rest) s) as Hs by (split; [done..|by rewrite Hpeeked]).
  pose proof (tree_read s scope t Hwell) as (_ & _ & He).
  pose proof (reads_expr s scope t (-1) depth rest s
    (fun r s' => exists e, r = Returns (Some e) /\ denotes (ps_heap s) scope t e /\ here s rest s')
    (He 0%Z ltac:(lia)) Hs Hrest ltac:(by intros e s' ? ?; exists e)) as Hr.
  change (-1 + 1)%Z with 0%Z in Hr. unfold reads in Hr. unfold ends in Hends.
  destruct (rec_Expr (parsers_at depth) scope 0 s) as [[r s']| |]; [|done..].
  destruct Hr as (e & -> & Hd & H'). exists e, s'. split_and!; [done|done|apply H'..].
Qed.

(** [-x.y[1] * (x + 2) << 3 < 9], with [x]'s type left out of sight. *)
Definition sample_tree : tree :=
  TBinary (chr "<") ""
    (TBinary (code SHIFT) "<<"
      (TBinary (chr "*") "" (TUnary (chr "-") (TIndex (TField (TName "x") "y") (TNumber "1")))
        (TBinary (chr "+") "" (TName "x") (TNumber "2")))
      (TNumber "3"))
    (TNumber "9").

Definition sample_expression : pstate :=
  sample_state {[0 := sample_scope]} "-x.y[1] * (x + 2) << 3 < 9;".

Lemma sample_x : exists v, variable_named {[0 := sample_scope]} {[0 := Type_ "int" []]} 0 "x" v.
Proof.
  exists (mkVariable 0 "x" no_location false kOwnership_Value). split; [reflexivity|]. split; [|by left].
  by exists (Type_ "int" []).
Qed.

Lemma sample_well_formed : well_formed {[0 := sample_scope]} {[0 := Type_ "int" []]} 0 sample_tree.
Proof. pose proof sample_x. cbn [well_formed sample_tree]. split_and!; by vm_compute. Qed.

Lemma expression_roundtrip_witness :
  exists e s', rec_Expr (parsers_at 249) 0 0 sample_expression = Done (Returns (Some e), s') /\
    denotes {[0 := sample_scope]} 0 sample_tree e /\
    lexeme_of <$> drop (st_cursor (ps_stream s')) (st_tokens (ps_stream s')) = [(chr ";", "")] /\
    st_tokens (ps_stream s') = st_tokens (ps_stream sample_expression) /\ ps_heap s' = {[0 := sample_scope]}.
Proof.
  apply (expression_roundtrip 249 0 sample_tree [(chr ";", "")] sample_expression).
  - vm_compute. split; [split; reflexivity|discriminate].
  - vm_compute. reflexivity.
  - exact sample_clash_free.
  - exact sample_well_formed.
  - vm_compute. reflexivity.
  - vm_compute. repeat split; discriminate.
  - vm_compute. lia.
Defined.
