(* ===== verification/Numbers.v ===== *)
(** Decimal numerals ([std::to_string]): their characters. *)

From stdpp Require Import pretty.
From S2P Require Import Prelude.

Definition numeral_char (c : ascii) : Prop := c = "-"%char \/ char_between "0" "9" c = true.

Lemma pretty_N_char_digit n : numeral_char (pretty_N_char n).
Proof. right. unfold pretty_N_char. by repeat case_match. Qed.

Lemma pretty_N_go_chars n : forall s, exists l,
  chars (pretty_N_go n s) = l ++ chars s /\ Forall numeral_char l /\ ((0 < n)%N -> l <> []).
Proof.
  induction (N.lt_wf_0 n) as [n _ IH]. intros s. destruct (decide (n = 0%N)) as [->|Hn].
  - exists []. by rewrite pretty_N_go_0.
  - rewrite pretty_N_go_step by lia.
    destruct (IH (n / 10)%N ltac:(apply N.div_lt; lia) (String (pretty_N_char (n mod 10)) s))
      as (l & Hl & Hd & _).
    exists (l ++ [pretty_N_char (n mod 10)]). rewrite Hl. split_and!.
    + rewrite <- app_assoc. done.
    + apply Forall_app. split; [done|]. constructor; [apply pretty_N_char_digit|constructor].
    + by destruct l.
Qed.

Lemma pretty_N_chars (n : N) : Forall numeral_char (chars (pretty n)) /\ pretty n <> "".
Proof.
  unfold pretty, pretty_N. destruct (decide _) as [->|Hn].
  - split; [|done]. constructor; [by right|constructor].
  - destruct (pretty_N_go_chars n "") as (l & Hl & Hd & Hne). rewrite app_nil_r in Hl. split.
    + by rewrite Hl.
    + intros Hp. rewrite Hp in Hl. simpl in Hl. apply Hne; [lia|]. by rewrite <- Hl.
Qed.

(** A numeral is made of digits and a sign, and is not empty. *)
Lemma pretty_Z_chars (z : Z) : Forall numeral_char (chars (pretty z)) /\ pretty z <> "".
Proof.
  destruct z as [|p|p]; [split; [constructor; [by right|constructor]|done]|apply (pretty_N_chars (Npos p))|].
  split; [|done]. change (chars (pretty (Zneg p))) with ("-"%char :: chars (pretty (Npos p))).
  constructor; [by left|]. apply pretty_N_chars.
Qed.
