(* ===== verification/SQLGen.v ===== *)
(** The SQL generator ([src/SQLGen.h], [src/SQLGen.cpp]): query expressions to
    statements with [?] placeholders and the list of expressions bound to
    them, and the DDL of table structs. *)

From stdpp Require Import pretty.
From S2P Require Import Prelude SourceLocation Ast.

(** * Names and types *)

Definition tolower (c : ascii) : ascii := if isupper c then ascii_of_N (N_of_ascii c + 32) else c.

Fixpoint table_chars (first : bool) (l : list ascii) : list ascii :=
  match l with
  | [] => []
  | c :: l' =>
      (if isupper c then (if first then [] else ["_"%char]) ++ [tolower c] else [c]) ++
      table_chars false l'
  end.

Definition tableNameToSQL (structName : string) : string := str (table_chars true (chars structName)).

Definition blangTypeToSQL (blangType : string) : string :=
  if bool_decide (blangType ∈ ["int"; "long"; "short"]) then "INTEGER"
  else if bool_decide (blangType ∈ ["float"; "double"]) then "REAL"
  else if decide (blangType = "string") then "TEXT"
  else if decide (blangType = "bool") then "INTEGER"
  else if decide (blangType = "char") then "TEXT"
  else "TEXT".

(** * Numbers

    [std::to_string] of an integer, and of a double: [printf( "%f" )], the exact
    value rounded half to even at six decimals. *)
Definition to_string_int (z : Z) : string := pretty z.

Definition round_half_even (n d : Z) : Z :=
  let q := (n / d)%Z in
  let r := (n mod d)%Z in
  if bool_decide (2 * r > d)%Z || (bool_decide (2 * r = d)%Z && Z.odd q) then (q + 1)%Z else q.

(** [n] millionths. *)
Definition show_fixed (n : Z) : string :=
  pretty (n / 1000000)%Z +:+ "." +:+
  match pretty (1000000 + n mod 1000000)%Z with String _ digits => digits | EmptyString => "" end.

Definition sign_string (s : bool) : string := if s then "-" else "".

Definition to_string_double (x : spec_float) : string :=
  match x with
  | S754_zero s => sign_string s +:+ "0.000000"
  | S754_infinity s => sign_string s +:+ "inf"
  | S754_nan => "nan"
  | S754_finite s m e =>
      sign_string s +:+ show_fixed
        (if decide (0 <= e)%Z then Z.pos m * 2 ^ e * 1000000
         else round_half_even (Z.pos m * 1000000) (2 ^ (- e)))%Z
  end.

(** * Expressions *)

Record SQLStatement := mkSQL {
  sql : string;
  paramExprs : list (option Expr)
}.

Definition sql_operator (op : string) : string :=
  if decide (op = "==") then "="
  else if decide (op = "!=") then "<>"
  else if decide (op = "&&") then "AND"
  else if decide (op = "||") then "OR"
  else op.

(** The rendering, and [paramExprs] after it. *)
Fixpoint exprToSQL (expr : Expr) (paramExprs : list (option Expr)) : string * list (option Expr) :=
  match expr with
  | QueryFieldExpression _ name => (name, paramExprs)
  | OperationsExpression _ oper op1 op2 =>
      let '(lhs, ps) := exprToSQL op1 paramExprs in
      let '(rhs, ps) := exprToSQL op2 ps in
      (lhs +:+ " " +:+ sql_operator oper +:+ " " +:+ rhs, ps)
  | ConstInteger _ value => (to_string_int value, paramExprs)
  | ConstFloat _ value => (to_string_double value, paramExprs)
  | _ => ("?", paramExprs ++ [Some expr])
  end.

(** A null expression is not an instance of any class. *)
Definition exprToSQL_ptr (expr : option Expr) (paramExprs : list (option Expr)) :
  string * list (option Expr) :=
  match expr with Some e => exprToSQL e paramExprs | None => ("?", paramExprs ++ [None]) end.

(** * Statements *)

(** [if ( !clause.empty() ) clause += sep; clause += text]. *)
Definition append_clause (sep clause text : string) : string :=
  (if decide (clause = "") then "" else clause +:+ sep) +:+ text.

(** [if ( !clause.empty() ) ss << head << clause]. *)
Definition emit (head clause : string) : string :=
  if decide (clause = "") then "" else head +:+ clause.

Record SelectClauses := mkSelect {
  joinClause : string;
  whereClause : string;
  orderByClause : string;
  limitClause : string;
  joinParams : list (option Expr);
  whereParams : list (option Expr);
  orderParams : list (option Expr);
  limitParams : list (option Expr)
}.

Definition step_join_table (s : QueryPipelineStep) : string :=
  match s with mkStep _ _ t _ => t end.

Definition select_step (c : SelectClauses) (step : QueryPipelineStep) : SelectClauses :=
  match c with
  | mkSelect j w o l jp wp op lp =>
      match step_type step with
      | WHERE =>
          let '(text, wp) := exprToSQL_ptr (step_expression step) wp in
          mkSelect j (append_clause " AND " w text) o l jp wp op lp
      | ORDER_BY =>
          let '(text, op) := exprToSQL_ptr (step_expression step) op in
          mkSelect j w text l jp wp op lp
      | LIMIT =>
          match step_expression step with
          | Some (ConstInteger _ value) => mkSelect j w o (to_string_int value) jp wp op lp
          | e => mkSelect j w o "?" jp wp op (lp ++ [e])
          end
      | JOIN =>
          let '(text, jp) := exprToSQL_ptr (step_expression step) jp in
          mkSelect (j +:+ " JOIN " +:+ tableNameToSQL (step_join_table step) +:+ " ON " +:+ text)
            w o l jp wp op lp
      | FIRST => mkSelect j w o "1" jp wp op lp
      | SET => c
      end
  end.

Definition generateSelect (tableName : string) (steps : list QueryPipelineStep) : SQLStatement :=
  match foldl select_step (mkSelect "" "" "" "" [] [] [] []) steps with
  | mkSelect j w o l jp wp op lp =>
      mkSQL ("SELECT * FROM " +:+ tableNameToSQL tableName +:+ j +:+ emit " WHERE " w +:+
             emit " ORDER BY " o +:+ emit " LIMIT " l)
        (jp ++ wp ++ op ++ lp)
  end.

(** [a, b, c]. *)
Fixpoint comma_list (l : list string) : string :=
  match l with
  | [] => ""
  | [x] => x
  | x :: l' => x +:+ ", " +:+ comma_list l'
  end.

Definition generateInsert (tableName : string) (fieldNames : list string) (fieldValues : list Expr) :
  SQLStatement :=
  mkSQL ("INSERT INTO " +:+ tableNameToSQL tableName +:+ " (" +:+ comma_list fieldNames +:+
         ") VALUES (" +:+ comma_list (map (fun _ => "?") fieldValues) +:+ ")")
    (map Some fieldValues).

Record UpdateClauses := mkUpdate {
  setClauses : string;
  updateWhere : string;
  setParams : list (option Expr);
  updateWhereParams : list (option Expr)
}.

Definition set_field (acc : string * list (option Expr)) (field : string * Expr) :
  string * list (option Expr) :=
  let '(text, ps) := exprToSQL field.2 acc.2 in
  (append_clause ", " acc.1 (field.1 +:+ " = " +:+ text), ps).

Definition update_step (c : UpdateClauses) (step : QueryPipelineStep) : UpdateClauses :=
  match c with
  | mkUpdate s w sp wp =>
      match step_type step with
      | WHERE =>
          let '(text, wp) := exprToSQL_ptr (step_expression step) wp in
          mkUpdate s (append_clause " AND " w text) sp wp
      | SET =>
          let '(s, sp) := foldl set_field (s, sp) (step_sets step) in mkUpdate s w sp wp
      | _ => c
      end
  end.

Definition generateUpdate (tableName : string) (steps : list QueryPipelineStep) : SQLStatement :=
  match foldl update_step (mkUpdate "" "" [] []) steps with
  | mkUpdate s w sp wp =>
      mkSQL ("UPDATE " +:+ tableNameToSQL tableName +:+ emit " SET " s +:+ emit " WHERE " w)
        (sp ++ wp)
  end.

Definition delete_step (acc : string * list (option Expr)) (step : QueryPipelineStep) :
  string * list (option Expr) :=
  match step_type step with
  | WHERE =>
      let '(text, ps) := exprToSQL_ptr (step_expression step) acc.2 in
      (append_clause " AND " acc.1 text, ps)
  | _ => acc
  end.

Definition generateDelete (tableName : string) (steps : list QueryPipelineStep) : SQLStatement :=
  let '(w, ps) := foldl delete_step ("", []) steps in
  mkSQL ("DELETE FROM " +:+ tableNameToSQL tableName +:+ emit " WHERE " w) ps.

(** * Tables *)

(** A column: the field's name and the name of its type. *)
Definition column_definition (field : string * string) : string :=
  field.1 +:+ " " +:+ blangTypeToSQL field.2 +:+
  if decide (field.1 = "id") then " PRIMARY KEY" else "".

Definition create_table (sqlName : string) (fields : list (string * string)) : string :=
  "CREATE TABLE IF NOT EXISTS " +:+ sqlName +:+ " (" +:+ comma_list (map column_definition fields) +:+ ")".

(** [types] holds the type the parser gave each field; the code dereferences it,
    so that there is no answer for a field without one. *)
Definition field_column (types : gmap nat Ty) (f : VariableDefinition) : option (string * string) :=
  (fun t => (v_name f, ty_name t)) <$> types !! vid f.

Definition generateCreateTable (types : gmap nat Ty) (structDef : StructDefinition) : option string :=
  create_table (tableNameToSQL (s_name structDef)) <$> mapM (field_column types) (s_fields structDef).

Definition generateAddColumn (tableName columnName columnType : string) : string :=
  "ALTER TABLE " +:+ tableNameToSQL tableName +:+ " ADD COLUMN " +:+ columnName +:+ " " +:+
  blangTypeToSQL columnType.

Example to_string_double_ex :
  map to_string_double [S754_finite false 5404319552844595 (-54); S754_finite true 7 (-1); S754_zero false]
  = ["0.300000"; "-3.500000"; "0.000000"].
Proof. vm_compute. reflexivity. Qed.

Example table_names : map tableNameToSQL ["User"; "UserPost"; "user"] = ["user"; "user_post"; "user"].
Proof. reflexivity. Qed.
