(* ===== verification/SQLTheorems.v ===== *)
(** Properties of the SQL generator ([src/SQLGen.cpp]): the parameters are the
    placeholders in order, the conditions mean in SQL what the pipeline says where their
    grouping needs no parentheses, and what the text loses. *)

From stdpp Require Import pretty.
From S2P Require Import Prelude SourceLocation Ast Numbers SQLGen.

(** * Statements as text with holes *)

Inductive piece :=
  | Text (s : string)
  | Param (e : option Expr).

(** The statement with [value e] for each bound expression [e]. *)
Fixpoint fill_pieces (value : option Expr -> string) (l : list piece) : string :=
  match l with
  | [] => ""
  | Text s :: l' => s +:+ fill_pieces value l'
  | Param e :: l' => value e +:+ fill_pieces value l'
  end.

Definition render (l : list piece) : string := fill_pieces (fun _ => "?") l.

Fixpoint params (l : list piece) : list (option Expr) :=
  match l with
  | [] => []
  | Text _ :: l' => params l'
  | Param e :: l' => e :: params l'
  end.

Lemma fill_pieces_app value l1 l2 : fill_pieces value (l1 ++ l2) = fill_pieces value l1 +:+ fill_pieces value l2.
Proof. induction l1 as [|[s|e] l1 IH]; simpl; [done|..]; by rewrite IH, string_app_assoc. Qed.

Lemma render_app l1 l2 : render (l1 ++ l2) = render l1 +:+ render l2.
Proof. apply fill_pieces_app. Qed.

Lemma params_app l1 l2 : params (l1 ++ l2) = params l1 ++ params l2.
Proof. induction l1 as [|[s|e] l1 IH]; simpl; [done|done|]. by rewrite IH. Qed.

(** What the database does with a statement: the values take the places of the
    [?]s, left to right. *)
Fixpoint fill_chars (l : list ascii) (values : list string) : string :=
  match l with
  | [] => ""
  | c :: l' =>
      if decide (c = "?"%char) then
        match values with
        | v :: values' => v +:+ fill_chars l' values'
        | [] => String c (fill_chars l' [])
        end
      else String c (fill_chars l' values)
  end.

Definition fill (text : string) (values : list string) : string := fill_chars (chars text) values.

(** No [?] in the text of a name. *)
Definition plain (s : string) : Prop := "?"%char ∉ chars s.
Definition plain_piece (p : piece) : Prop := match p with Text s => plain s | Param _ => True end.

Lemma fill_chars_plain l rest values :
  "?"%char ∉ l -> fill_chars (l ++ rest) values = str l +:+ fill_chars rest values.
Proof.
  induction l as [|c l IH]; [done|]. intros [Hc Hl]%not_elem_of_cons. simpl.
  rewrite decide_False by done. rewrite IH by done. done.
Qed.

Lemma fill_render value l rest values :
  Forall plain_piece l ->
  fill_chars (chars (render l) ++ rest) (map value (params l) ++ values) =
  fill_pieces value l +:+ fill_chars rest values.
Proof.
  induction 1 as [|[s|e] l Hp _ IH]; simpl; [done|..].
  - unfold render in *. simpl. autorewrite with blang. rewrite <- app_assoc, fill_chars_plain by done.
    rewrite IH. autorewrite with blang. by rewrite string_app_assoc.
  - unfold render in *. simpl. rewrite chars_app. simpl. rewrite IH. by rewrite string_app_assoc.
Qed.

(** The statement is the text of [l] with its expressions as parameters: the
    same number as placeholders, and filled in, the text with their values. *)
Definition binds (st : SQLStatement) (l : list piece) : Prop :=
  sql st = render l /\ paramExprs st = params l /\
  forall value, fill (sql st) (map value (paramExprs st)) = fill_pieces value l.

Lemma binds_intro l : Forall plain_piece l -> binds (mkSQL (render l) (params l)) l.
Proof.
  intros Hl. split_and!; [done|done|]. intros value. simpl.
  pose proof (fill_render value l [] [] Hl) as Hf. rewrite !app_nil_r in Hf.
  unfold fill. rewrite Hf. apply string_app_nil_r.
Qed.

(** * Expressions as text *)

Fixpoint expr_pieces (e : Expr) : list piece :=
  match e with
  | QueryFieldExpression _ name => [Text name]
  | OperationsExpression _ oper op1 op2 =>
      expr_pieces op1 ++ [Text (" " +:+ sql_operator oper +:+ " ")] ++ expr_pieces op2
  | ConstInteger _ value => [Text (to_string_int value)]
  | ConstFloat _ value => [Text (to_string_double value)]
  | _ => [Param (Some e)]
  end.

Definition ptr_pieces (e : option Expr) : list piece :=
  match e with Some e => expr_pieces e | None => [Param None] end.

Lemma exprToSQL_pieces e : forall ps,
  exprToSQL e ps = (render (expr_pieces e), ps ++ params (expr_pieces e)).
Proof.
  revert e. fix IH 1. intros e ps.
  destruct e; simpl; try (unfold render; simpl; by rewrite ?app_nil_r, ?string_app_nil_r).
  rewrite IH, IH, render_app, params_app. simpl. unfold render. simpl.
  by rewrite !string_app_assoc, app_assoc.
Qed.

Lemma exprToSQL_ptr_pieces e ps :
  exprToSQL_ptr e ps = (render (ptr_pieces e), ps ++ params (ptr_pieces e)).
Proof. destruct e; [apply exprToSQL_pieces|done]. Qed.

(** ** Clauses *)

(** The pieces of a clause joined by [sep], as [append_clause] joins their text. *)
Definition append_pieces (sep : string) (clause text : list piece) : list piece :=
  match clause with [] => text | _ => clause ++ [Text sep] ++ text end.

Definition head_pieces (head : string) (clause : list piece) : list piece :=
  match clause with [] => [] | _ => Text head :: clause end.

(** The rendering is not empty, so that the code's test for an empty clause
    sees whether there is one. *)
Definition solid (l : list piece) : Prop := l <> [] -> render l <> "".

Lemma render_nil l : solid l -> render l = "" <-> l = [].
Proof. intros Hl. split; [|by intros ->]. destruct l; [done|]. intros Hr. by destruct Hl. Qed.

Lemma append_render sep c t :
  solid c -> append_clause sep (render c) (render t) = render (append_pieces sep c t).
Proof.
  intros Hc. unfold append_clause. destruct c as [|p c]; [done|].
  rewrite decide_False by (by apply Hc). unfold append_pieces. rewrite render_app.
  unfold render at 4. simpl. by rewrite string_app_assoc.
Qed.

Lemma append_params sep c t : params (append_pieces sep c t) = params c ++ params t.
Proof. destruct c; [done|]. unfold append_pieces. by rewrite params_app. Qed.

Lemma string_app_empty a b : a +:+ b = "" -> a = "" /\ b = "".
Proof. by destruct a. Qed.

Lemma append_solid sep c t : solid c -> t <> [] -> solid t -> solid (append_pieces sep c t).
Proof.
  intros Hc Hn Ht _. destruct c as [|p c]; [by apply Ht|]. unfold append_pieces. rewrite render_app.
  intros [Hr _]%string_app_empty. by apply Hc in Hr.
Qed.

Lemma emit_render head c : solid c -> emit head (render c) = render (head_pieces head c).
Proof.
  intros Hc. unfold emit. destruct c as [|p c]; [done|]. by rewrite decide_False by (by apply Hc).
Qed.

Lemma head_params head c : params (head_pieces head c) = params c.
Proof. by destruct c. Qed.


(** ** Well-formed queries: identifiers and operators have a spelling, without [?] *)

Fixpoint sane_expr (e : Expr) : Prop :=
  match e with
  | QueryFieldExpression _ name => name <> "" /\ plain name
  | OperationsExpression _ oper op1 op2 => sane_expr op1 /\ plain oper /\ sane_expr op2
  | _ => True
  end.

Definition sane_ptr (e : option Expr) : Prop := match e with Some e => sane_expr e | None => True end.

Definition sane_step (step : QueryPipelineStep) : Prop :=
  sane_ptr (step_expression step) /\ plain (tableNameToSQL (step_join_table step)) /\
  Forall (fun f => plain f.1 /\ sane_expr f.2) (step_sets step).

Lemma plain_app a b : plain (a +:+ b) <-> plain a /\ plain b.
Proof. unfold plain. rewrite chars_app, not_elem_of_app. done. Qed.

Lemma plain_numeral s : Forall numeral_char (chars s) -> plain s.
Proof.
  intros Hs Hin. rewrite Forall_forall in Hs. by destruct (Hs _ Hin) as [[=]|[=]].
Qed.

Lemma plain_int z : plain (to_string_int z).
Proof. apply plain_numeral, pretty_Z_chars. Qed.

Lemma plain_double x : plain (to_string_double x).
Proof.
  assert (forall s, plain (sign_string s)) as Hs by (intros []; apply (bool_decide_unpack _); vm_compute; exact I).
  assert (forall n, plain (show_fixed n)) as Hf.
  { intros n. unfold show_fixed. rewrite !plain_app. split_and!; [apply (plain_int (n / 1000000))| |].
    - apply (bool_decide_unpack _); vm_compute; exact I.
    - pose proof (plain_int (1000000 + n mod 1000000)) as Hp. unfold to_string_int in Hp.
      destruct (pretty (1000000 + n mod 1000000)%Z) as [|c d]; [done|].
      unfold plain in *. change (chars (String c d)) with (c :: chars d) in Hp. set_solver. }
  destruct x; simpl; rewrite ?plain_app; try done;
    try (split; [apply Hs|]); try apply Hf; apply (bool_decide_unpack _); vm_compute; exact I.
Qed.

Lemma double_nonempty x : to_string_double x <> "".
Proof.
  destruct x as [[]|[]| |[] m e]; simpl; try done. unfold show_fixed.
  intros [_ [Hz _]%string_app_empty]%string_app_empty. by apply (proj2 (pretty_Z_chars _)) in Hz.
Qed.

Lemma plain_operator oper : plain oper -> plain (sql_operator oper).
Proof.
  intros Hp. unfold sql_operator. repeat case_decide; try done; apply (bool_decide_unpack _); vm_compute; exact I.
Qed.

Lemma expr_pieces_sane e :
  sane_expr e -> Forall plain_piece (expr_pieces e) /\ expr_pieces e <> [] /\ render (expr_pieces e) <> "".
Proof.
  revert e. fix IH 1. intros e He.
  destruct e; try (split_and!; [by repeat constructor|done|done]); simpl in *.
  - split_and!; [constructor; [apply plain_int|constructor]|done|].
    intros [Hz _]%string_app_empty. by apply (proj2 (pretty_Z_chars _)) in Hz.
  - split_and!; [constructor; [apply plain_double|constructor]|done|].
    intros [Hz _]%string_app_empty. by apply double_nonempty in Hz.
  - destruct He as [Hn Hp]. split_and!; [by repeat constructor|done|]. by intros [? _]%string_app_empty.
  - destruct He as (H1 & Ho & H2). apply IH in H1 as (P1 & N1 & R1), H2 as (P2 & N2 & R2). split_and!.
    + apply Forall_app. split; [done|]. constructor; [|done]. simpl. rewrite !plain_app.
      split_and!; [|by apply plain_operator|]; apply (bool_decide_unpack _); vm_compute; exact I.
    + by destruct (expr_pieces e1).
    + rewrite render_app. by intros [? _]%string_app_empty.
Qed.

Lemma ptr_pieces_sane e :
  sane_ptr e -> Forall plain_piece (ptr_pieces e) /\ ptr_pieces e <> [] /\ solid (ptr_pieces e).
Proof.
  destruct e as [e|]; simpl.
  - intros (? & ? & ?)%expr_pieces_sane. by split_and!; [| |intros _].
  - intros _. split_and!; [constructor; [exact I|constructor]|discriminate|intros _; discriminate].
Qed.

(** ** The text by clauses *)

Definition has_type (t : StepType) (step : QueryPipelineStep) : bool := bool_decide (step_type step = t).

(** The expressions of the steps of a kind, in pipeline order. *)
Definition step_exprs (t : StepType) (steps : list QueryPipelineStep) : list (list piece) :=
  map (fun step => ptr_pieces (step_expression step)) (List.filter (has_type t) steps).

Definition conjunction (sep : string) (l : list (list piece)) : list piece := foldl (append_pieces sep) [] l.

Definition where_pieces (steps : list QueryPipelineStep) : list piece :=
  conjunction " AND " (step_exprs WHERE steps).

Definition join_step (step : QueryPipelineStep) : list piece :=
  match step_type step with
  | JOIN => Text " JOIN " :: Text (tableNameToSQL (step_join_table step)) :: Text " ON " ::
            ptr_pieces (step_expression step)
  | _ => []
  end.

Definition order_step (step : QueryPipelineStep) : list piece :=
  match step_type step with ORDER_BY => ptr_pieces (step_expression step) | _ => [] end.

Definition limit_step (step : QueryPipelineStep) : list piece :=
  match step_type step with
  | FIRST => [Text "1"]
  | LIMIT =>
      match step_expression step with
      | Some (ConstInteger _ value) => [Text (to_string_int value)]
      | e => [Param e]
      end
  | _ => []
  end.

Definition select_pieces (tableName : string) (steps : list QueryPipelineStep) : list piece :=
  Text "SELECT * FROM " :: Text (tableNameToSQL tableName) ::
  concat (map join_step steps) ++
  head_pieces " WHERE " (where_pieces steps) ++
  head_pieces " ORDER BY " (concat (map order_step steps)) ++
  head_pieces " LIMIT " (concat (map limit_step steps)).

(** At most one step orders, and at most one limits. *)
Definition contributes (f : QueryPipelineStep -> list piece) (step : QueryPipelineStep) : bool :=
  match f step with [] => false | _ => true end.
Definition single (f : QueryPipelineStep -> list piece) (steps : list QueryPipelineStep) : Prop :=
  length (List.filter (contributes f) steps) <= 1.

Lemma conjunction_sane sep l :
  plain sep -> Forall (fun c => Forall plain_piece c /\ c <> [] /\ solid c) l ->
  Forall plain_piece (conjunction sep l) /\ solid (conjunction sep l).
Proof.
  intros Hsep Hl. unfold conjunction. induction l as [|c l IH] using rev_ind;
    [simpl; split; [constructor|by intros []]|].
  apply Forall_app in Hl as [Hl (Hp & Hn & Hs)%Forall_singleton]. destruct (IH Hl) as [IHp IHs].
  rewrite foldl_app. simpl. split; [|by apply append_solid].
  unfold append_pieces. destruct (foldl _ [] l); [done|]. apply Forall_app. split; [done|]. by constructor.
Qed.

Lemma step_exprs_sane t steps :
  Forall sane_step steps -> Forall (fun c => Forall plain_piece c /\ c <> [] /\ solid c) (step_exprs t steps).
Proof.
  intros Hs. unfold step_exprs. apply Forall_map, Forall_forall. intros step Hin.
  apply list_elem_of_In, filter_In in Hin as [Hin _]. apply list_elem_of_In in Hin.
  rewrite Forall_forall in Hs. apply ptr_pieces_sane, (Hs _ Hin).
Qed.

Lemma plain_literal s : bool_decide ("?"%char ∉ chars s) = true -> plain s.
Proof. apply bool_decide_eq_true. Qed.

Lemma where_sane steps :
  Forall sane_step steps -> Forall plain_piece (where_pieces steps) /\ solid (where_pieces steps).
Proof. intros Hs. apply conjunction_sane; [by apply plain_literal|by apply step_exprs_sane]. Qed.

Lemma single_snoc f l x :
  single f (l ++ [x]) -> single f l /\ (f x <> [] -> concat (map f l) = []).
Proof.
  unfold single. rewrite List.filter_app, length_app. simpl. intros Hl. split; [lia|]. intros Hx.
  assert (contributes f x = true) as Hc by (unfold contributes; by destruct (f x)).
  rewrite Hc in Hl. simpl in Hl.
  assert (List.filter (contributes f) l = []) as Hf
    by (destruct (List.filter _ l); [done|simpl in Hl; lia]).
  clear Hl. induction l as [|y l IH]; [done|]. simpl in *. destruct (contributes f y) eqn:Hy; [done|].
  rewrite IH by done. unfold contributes in Hy. by destruct (f y).
Qed.

Lemma concat_snoc {A} (f : QueryPipelineStep -> list A) l x :
  concat (map f (l ++ [x])) = concat (map f l) ++ f x.
Proof. rewrite map_app, concat_app. simpl. by rewrite app_nil_r. Qed.

Lemma step_exprs_snoc t l x :
  step_exprs t (l ++ [x]) =
  step_exprs t l ++ if has_type t x then [ptr_pieces (step_expression x)] else [].
Proof. unfold step_exprs. rewrite List.filter_app, map_app. simpl. by destruct (has_type t x). Qed.

Lemma where_snoc l x :
  where_pieces (l ++ [x]) =
  if has_type WHERE x then append_pieces " AND " (where_pieces l) (ptr_pieces (step_expression x))
  else where_pieces l.
Proof.
  unfold where_pieces, conjunction. rewrite step_exprs_snoc, foldl_app. by destruct (has_type WHERE x).
Qed.

(** The state of the select loop after [steps]. *)
Definition select_state (steps : list QueryPipelineStep) : SelectClauses :=
  let joins := concat (map join_step steps) in
  let order := concat (map order_step steps) in
  let limit := concat (map limit_step steps) in
  mkSelect (render joins) (render (where_pieces steps)) (render order) (render limit)
    (params joins) (params (where_pieces steps)) (params order) (params limit).

Lemma select_fold steps :
  Forall sane_step steps -> single order_step steps -> single limit_step steps ->
  foldl select_step (mkSelect "" "" "" "" [] [] [] []) steps = select_state steps.
Proof.
  induction steps as [|step steps IH] using rev_ind; [done|].
  intros [Hs (Hsane & _)%Forall_singleton]%Forall_app [Ho Ho']%single_snoc [Hl Hl']%single_snoc.
  rewrite foldl_app, IH by done. simpl. clear IH.
  destruct (where_sane steps Hs) as [_ Hw]. unfold select_state. rewrite !concat_snoc, where_snoc.
  unfold select_step, has_type.
  destruct step as [t e table sets]. cbn [step_type step_expression step_join_table] in *.
  destruct t; rewrite ?bool_decide_eq_true_2, ?bool_decide_eq_false_2 by done;
    unfold join_step, order_step, limit_step in *; cbn [step_type step_expression step_join_table] in *;
    rewrite ?app_nil_r; try done.
  - by rewrite exprToSQL_ptr_pieces, append_render, append_params.
  - destruct (ptr_pieces_sane e Hsane) as (_ & Hn & _). rewrite (Ho' Hn). by rewrite exprToSQL_ptr_pieces.
  - destruct e as [[]|]; rewrite Hl' by done; simpl; unfold render; simpl; by rewrite ?string_app_nil_r.
  - rewrite exprToSQL_ptr_pieces, render_app, params_app. unfold render at 4. simpl. done.
  - by rewrite Hl'.
Qed.

Lemma single_solid f steps :
  (forall step, step ∈ steps -> solid (f step)) -> single f steps -> solid (concat (map f steps)).
Proof.
  intros Hf. induction steps as [|step steps IH] using rev_ind; [by intros _ []|].
  intros [Hs Hx]%single_snoc. rewrite concat_snoc. destruct (f step) as [|p l] eqn:Hp.
  - rewrite app_nil_r. apply IH; [|done]. intros; apply Hf. set_solver.
  - rewrite Hx by done. simpl. rewrite <- Hp. apply Hf. set_solver.
Qed.

Lemma order_solid steps : Forall sane_step steps -> single order_step steps ->
  solid (concat (map order_step steps)).
Proof.
  intros Hs. apply single_solid. intros step Hin. rewrite Forall_forall in Hs.
  unfold order_step. destruct (step_type step); try by intros [].
  apply ptr_pieces_sane, (Hs _ Hin).
Qed.

Lemma limit_solid steps : single limit_step steps -> solid (concat (map limit_step steps)).
Proof.
  apply single_solid. intros step _. unfold limit_step.
  destruct (step_type step); try (by intros []); try (intros _; discriminate).
  destruct (step_expression step) as [[]|]; try (intros _; discriminate).
  intros _. unfold render. simpl. rewrite string_app_nil_r. apply (proj2 (pretty_Z_chars _)).
Qed.

Lemma concat_plain (f : QueryPipelineStep -> list piece) steps :
  (forall step, step ∈ steps -> Forall plain_piece (f step)) -> Forall plain_piece (concat (map f steps)).
Proof.
  intros Hf. induction steps as [|step steps IH]; simpl; [constructor|].
  apply Forall_app. split; [apply Hf; set_solver|]. apply IH. intros; apply Hf. set_solver.
Qed.

Lemma head_plain head c : plain head -> Forall plain_piece c -> Forall plain_piece (head_pieces head c).
Proof. intros Hh Hc. destruct c; [done|]. by constructor. Qed.

Lemma join_plain step : sane_step step -> Forall plain_piece (join_step step).
Proof.
  intros (He & Ht & _). unfold join_step. destruct (step_type step); try by constructor.
  repeat constructor; try by apply plain_literal. done. by apply ptr_pieces_sane.
Qed.

Lemma order_plain step : sane_step step -> Forall plain_piece (order_step step).
Proof.
  intros (He & _). unfold order_step. destruct (step_type step); try by constructor. by apply ptr_pieces_sane.
Qed.

Lemma limit_plain step : Forall plain_piece (limit_step step).
Proof.
  unfold limit_step. destruct (step_type step); try by constructor.
  - destruct (step_expression step) as [[]|]; repeat constructor. apply plain_int.
  - repeat constructor. by apply plain_literal.
Qed.

Lemma select_plain tableName steps :
  plain (tableNameToSQL tableName) -> Forall sane_step steps -> Forall plain_piece (select_pieces tableName steps).
Proof.
  intros Ht Hs. rewrite Forall_forall in Hs. unfold select_pieces.
  constructor; [by apply plain_literal|]. constructor; [done|].
  rewrite !Forall_app. split_and!.
  - apply concat_plain. intros step Hin. apply join_plain, (Hs _ Hin).
  - apply head_plain; [by apply plain_literal|]. apply where_sane. by apply Forall_forall.
  - apply head_plain; [by apply plain_literal|]. apply concat_plain. intros step Hin. apply order_plain, (Hs _ Hin).
  - apply head_plain; [by apply plain_literal|]. apply concat_plain. intros step _. apply limit_plain.
Qed.

(** ** What SQL reads

    An expression without parentheses is operands between operators, which SQL groups by
    its precedence, from the left. *)
Inductive token :=
  | Operand (p : piece)
  | Operator (op : string).

Definition token_piece (t : token) : piece :=
  match t with Operand p => p | Operator op => Text (" " +:+ op +:+ " ") end.

(** The precedence of SQLite's operators; 0 for what is none. *)
Definition sql_level (op : string) : nat :=
  if decide (op = "OR") then 1
  else if decide (op = "AND") then 2
  else if bool_decide (op ∈ ["="; "<>"]) then 4
  else if bool_decide (op ∈ ["<"; "<="; ">"; ">="]) then 5
  else if bool_decide (op ∈ ["&"; "|"; "<<"; ">>"]) then 6
  else if bool_decide (op ∈ ["+"; "-"]) then 7
  else if bool_decide (op ∈ ["*"; "/"; "%"]) then 8
  else 0.

Definition bound_by (P : nat -> Prop) (l : list token) : Prop :=
  Forall (fun t => match t with Operator op => P (sql_level op) | Operand _ => True end) l.

Section reading.
Context {V : Type} (value : piece -> V) (apply : string -> V -> V -> V).

(** The value of an expression: its last operator of the lowest precedence is applied to
    the values of what is before and behind it. *)
Inductive reads : list token -> V -> Prop :=
  | reads_operand p : reads [Operand p] (value p)
  | reads_operator op l r a b :
      1 <= sql_level op -> bound_by (fun n => sql_level op <= n) l -> bound_by (fun n => sql_level op < n) r ->
      reads l a -> reads r b -> reads (l ++ Operator op :: r) (apply op a b).

(** What a condition of the program means. *)
Fixpoint meaning (e : Expr) : V :=
  match e with
  | OperationsExpression _ oper op1 op2 => apply (sql_operator oper) (meaning op1) (meaning op2)
  | QueryFieldExpression _ name => value (Text name)
  | ConstInteger _ z => value (Text (to_string_int z))
  | ConstFloat _ x => value (Text (to_string_double x))
  | _ => value (Param (Some e))
  end.

Definition meaning_ptr (e : option Expr) : V := match e with Some e => meaning e | None => value (Param None) end.

(** The pieces, as SQL reads them, have the value [v]. *)
Definition read_as (l : list piece) (v : V) : Prop := exists tokens, l = map token_piece tokens /\ reads tokens v.
End reading.

(** There is one reading. *)
Lemma operator_split l1 : forall r1 l2 r2 o1 o2,
  l1 ++ Operator o1 :: r1 = l2 ++ Operator o2 :: r2 ->
  (l1 = l2 /\ o1 = o2 /\ r1 = r2) \/ (Operator o1 ∈ l2 /\ Operator o2 ∈ r1) \/ (Operator o2 ∈ l1 /\ Operator o1 ∈ r2).
Proof.
  induction l1 as [|t l1 IH]; intros r1 [|u l2] r2 o1 o2; cbn [app]; intros [= H1 H2]; subst.
  - by left.
  - right; left. set_solver.
  - right; right. set_solver.
  - destruct (IH _ _ _ _ _ H2) as [(-> & -> & ->)|[[? ?]|[? ?]]]; set_solver.
Qed.

Lemma bound_operator P l op : bound_by P l -> Operator op ∈ l -> P (sql_level op).
Proof. unfold bound_by. rewrite Forall_forall. intros H Hin. apply (H _ Hin). Qed.

Lemma reads_unique {V} value (apply : string -> V -> V -> V) l v :
  reads value apply l v -> forall w, reads value apply l w -> v = w.
Proof.
  induction 1 as [p|op l r a b Hop Hl Hr _ IHa _ IHb]; intros w Hw.
  - inversion Hw as [|op l r a b Hop Hl Hr Ha Hb E]; [done|]. destruct l as [|? []]; discriminate.
  - inversion Hw as [p E|op' l' r' a' b' Hop' Hl' Hr' Ha' Hb' E]; [destruct l as [|? []]; discriminate|]; subst.
    apply operator_split in E as [(-> & -> & ->)|[[H1 H2]|[H1 H2]]].
    + by rewrite (IHa a'), (IHb b').
    + apply (bound_operator _ _ _ Hl) in H1. apply (bound_operator _ _ _ Hr') in H2. cbn in *. lia.
    + apply (bound_operator _ _ _ Hl') in H1. apply (bound_operator _ _ _ Hr) in H2. cbn in *. lia.
Qed.

(** ** Grouping

    The precedence of an expression's own operator. An expression is grouped if it needs
    no parentheses in SQL: its left operand does not bind weaker than its operator, and
    its right operand binds stronger, or as strong when the operator is [AND] or [OR]. *)
Definition binding (e : Expr) : nat :=
  match e with OperationsExpression _ oper _ _ => sql_level (sql_operator oper) | _ => 9 end.

Fixpoint grouped (e : Expr) : Prop :=
  match e with
  | OperationsExpression _ oper op1 op2 =>
      let level := sql_level (sql_operator oper) in
      1 <= level <= binding op1 /\ (level < binding op2 \/ level = binding op2 /\ level <= 2) /\ grouped op1 /\ grouped op2
  | _ => True
  end.

Definition binding_ptr (e : option Expr) : nat := match e with Some e => binding e | None => 9 end.
Definition grouped_ptr (e : option Expr) : Prop := match e with Some e => grouped e | None => True end.

Definition filters (steps : list QueryPipelineStep) : list (option Expr) :=
  map step_expression (List.filter (has_type WHERE) steps).

(** No filter needs parentheses, between the [AND]s either. *)
Definition grouped_filters (l : list (option Expr)) : Prop :=
  Forall grouped_ptr l /\ (length l <= 1 \/ Forall (fun e => 2 <= binding_ptr e) l).

Section meaning.
Context {V : Type} (value : piece -> V) (apply : string -> V -> V -> V).

Definition connective (op : string) : Prop := forall a b c, apply op (apply op a b) c = apply op a (apply op b c).

(** The conditions of the steps mean what the pipeline says: the filters hold together,
    and the other conditions are what they are. *)
Definition means (steps : list QueryPipelineStep) : Prop :=
  (grouped_filters (filters steps) ->
   match filters steps with
   | [] => where_pieces steps = []
   | f :: fs => read_as value apply (where_pieces steps)
       (foldl (fun v g => apply "AND" v (meaning_ptr value apply g)) (meaning_ptr value apply f) fs)
   end) /\
  forall step, step ∈ steps -> grouped_ptr (step_expression step) ->
    read_as value apply (ptr_pieces (step_expression step)) (meaning_ptr value apply (step_expression step)).

Lemma bound_app P l1 l2 : bound_by P (l1 ++ l2) <-> bound_by P l1 /\ bound_by P l2.
Proof. apply Forall_app. Qed.

Lemma bound_cons P op l : bound_by P (Operator op :: l) <-> P (sql_level op) /\ bound_by P l.
Proof. unfold bound_by. by rewrite Forall_cons. Qed.

Lemma bound_weaken (P Q : nat -> Prop) l : (forall n, P n -> Q n) -> bound_by P l -> bound_by Q l.
Proof. intros HPQ Hl. eapply Forall_impl; [exact Hl|]. intros [p|op]; [done|apply HPQ]. Qed.

Definition and_or (op : string) : Prop := op = "AND" \/ op = "OR".

Lemma level_and_or op : 1 <= sql_level op <= 2 -> and_or op.
Proof. unfold sql_level, and_or. repeat case_match; try lia; naive_solver. Qed.

Lemma and_or_level op : and_or op -> (op = "AND" /\ sql_level op = 2) \/ (op = "OR" /\ sql_level op = 1).
Proof. intros [-> | ->]; [left|right]; by split. Qed.

(** What binds as strong as a connective may stand at its right. *)
Lemma reads_connective op r b :
  and_or op -> connective op -> reads value apply r b -> bound_by (fun n => sql_level op <= n) r ->
  forall l a, reads value apply l a -> bound_by (fun n => sql_level op <= n) l ->
  reads value apply (l ++ Operator op :: r) (apply op a b).
Proof.
  intros Ho Hc Hr. apply and_or_level in Ho. assert (1 <= sql_level op) as Hop by (destruct Ho as [[_ E]|[_ E]]; rewrite E; lia).
  induction Hr as [p|op' l' r' a' b' Hop' Hl' Hr' Ha' IHa Hb' _]; intros Hb l a Hla Hl.
  - apply reads_operator; [done|done|repeat constructor|done|constructor].
  - apply bound_app in Hb as [Hb1 [Hb2 Hb3]%bound_cons].
    destruct (decide (sql_level op < sql_level op')) as [Hlt|Hge].
    + apply reads_operator; [done|done| |done|by apply reads_operator].
      rewrite bound_app, bound_cons.
      split_and!; [eapply bound_weaken; [|exact Hl']|done|eapply bound_weaken; [|exact Hr']]; cbn; lia.
    + assert (op' = op) as ->.
      { assert (sql_level op' = sql_level op) as E by (cbn in Hb2; lia).
        assert (and_or op') as Ho'%and_or_level by (apply level_and_or; destruct Ho as [[_ E']|[_ E']]; lia).
        destruct Ho as [[-> Ea]|[-> Ea]], Ho' as [[-> Eb]|[-> Eb]]; done || lia. }
      rewrite <-Hc. change (l ++ Operator op :: l' ++ Operator op :: r') with (l ++ (Operator op :: l') ++ Operator op :: r').
      rewrite app_assoc. apply reads_operator; [done| |done|by apply IHa|done].
      rewrite bound_app, bound_cons. by split_and!.
Qed.

(** The tokens of an expression. *)
Fixpoint tokens (e : Expr) : list token :=
  match e with
  | OperationsExpression _ oper op1 op2 => tokens op1 ++ Operator (sql_operator oper) :: tokens op2
  | _ => map Operand (expr_pieces e)
  end.

Definition tokens_ptr (e : option Expr) : list token := match e with Some e => tokens e | None => [Operand (Param None)] end.

Lemma tokens_pieces e : expr_pieces e = map token_piece (tokens e).
Proof.
  revert e. fix IH 1. intros e. destruct e; try reflexivity.
  cbn [expr_pieces tokens]. rewrite map_app. cbn [map token_piece app]. by rewrite <-!IH.
Qed.

Lemma tokens_ptr_pieces e : ptr_pieces e = map token_piece (tokens_ptr e).
Proof. destruct e; [apply tokens_pieces|done]. Qed.

Hypothesis and_connects : connective "AND".
Hypothesis or_connects : connective "OR".

Lemma grouped_reads e :
  grouped e -> reads value apply (tokens e) (meaning value apply e) /\ bound_by (fun n => binding e <= n) (tokens e).
Proof.
  revert e. fix IH 1. intros e. destruct e; try (intros _; split; [cbn; apply reads_operand|constructor; [exact I|constructor]]).
  cbn [grouped]. intros ([H1 H2] & H3 & [R1 B1]%IH & [R2 B2]%IH). cbn [tokens meaning binding].
  assert (forall n, bound_by (fun m => binding e1 <= m) (tokens e1) -> n <= binding e1 -> bound_by (fun m => n <= m) (tokens e1)) as W1.
  { intros m Hb Hm. eapply bound_weaken; [|exact Hb]. cbn. lia. }
  split; [|rewrite bound_app, bound_cons; split_and!; [by apply W1|done|eapply bound_weaken; [|exact B2]; cbn; lia]].
  destruct H3 as [Hlt|[Heq Hle]].
  - apply reads_operator; [done|by apply W1| |done|done]. eapply bound_weaken; [|exact B2]. cbn. lia.
  - assert (and_or (sql_operator mOperation)) as Ho by (by apply level_and_or).
    apply reads_connective; [done| |done| |done|by apply W1].
    + by destruct Ho as [-> | ->].
    + eapply bound_weaken; [|exact B2]. cbn. lia.
Qed.

Lemma grouped_ptr_reads e :
  grouped_ptr e -> reads value apply (tokens_ptr e) (meaning_ptr value apply e) /\ bound_by (fun n => binding_ptr e <= n) (tokens_ptr e).
Proof. destruct e; [apply grouped_reads|]. intros _. split; [cbn; apply reads_operand|constructor; [exact I|constructor]]. Qed.

Lemma filters_read fs : forall l v,
  reads value apply l v -> bound_by (fun n => 2 <= n) l ->
  Forall grouped_ptr fs -> Forall (fun e => 2 <= binding_ptr e) fs ->
  read_as value apply (foldl (append_pieces " AND ") (map token_piece l) (map ptr_pieces fs))
    (foldl (fun v g => apply "AND" v (meaning_ptr value apply g)) v fs).
Proof.
  induction fs as [|e fs IH]; intros l v Hl Hb Hg H2; cbn [foldl map]; [by exists l|].
  apply Forall_cons in Hg as [[Hr Hbe]%grouped_ptr_reads Hg], H2 as [Hbind H2].
  assert (append_pieces " AND " (map token_piece l) (ptr_pieces e) = map token_piece (l ++ Operator "AND" :: tokens_ptr e)) as ->.
  { rewrite map_app, tokens_ptr_pieces. destruct l; [|done]. inversion Hl as [|? l]. by destruct l. }
  assert (bound_by (fun n => 2 <= n) (tokens_ptr e)) as Hbe' by (eapply bound_weaken; [|exact Hbe]; cbn; lia).
  apply IH; [|rewrite bound_app, bound_cons; by split_and!; [|vm_compute; lia|]|done|done].
  apply reads_connective; [by left|done|done|done|done|done].
Qed.

Lemma steps_mean steps : means steps.
Proof.
  split.
  - unfold where_pieces, conjunction, step_exprs. rewrite <-(map_map step_expression ptr_pieces). fold (filters steps).
    destruct (filters steps) as [|f fs]; [done|]. intros [[Hf Hfs]%Forall_cons Hb]. cbn [map foldl append_pieces].
    apply grouped_ptr_reads in Hf as [Hr Hbf]. rewrite tokens_ptr_pieces. destruct Hb as [Hlen|[H2 Hb]%Forall_cons].
    + destruct fs; [by exists (tokens_ptr f)|cbn in Hlen; lia].
    + apply filters_read; try done. eapply bound_weaken; [|exact Hbf]. cbn. lia.
  - intros step _ Hg. exists (tokens_ptr (step_expression step)). split; [apply tokens_ptr_pieces|by apply grouped_ptr_reads].
Qed.
End meaning.

(** C25. A SELECT binds its parameters in order and means what the pipeline says: for a
    pipeline with at most one ordering and one limiting step, the parameter list holds
    exactly the expressions of the [?]s of the text, left to right, whatever the order of
    the steps, and filling them in gives the joins, all filters between [AND]s, the
    ordering and the limit. For any meaning of names, values and operators in which [AND]
    and [OR] are associative, the value of the text behind WHERE, grouped by the precedence
    of SQL, is that of the first filter and the second and so on, if no filter needs
    parentheses; and the value of a join's or an ordering's text is that of its
    expression, if that needs none. The generator writes no parentheses: where they are
    needed the text means something else ([conditions_lose_grouping]); and with a second
    limit a parameter is left over ([repeated_limit_leaves_parameter]). *)
Theorem generateSelect_binds (tableName : string) (steps : list QueryPipelineStep) :
  plain (tableNameToSQL tableName) -> Forall sane_step steps ->
  single order_step steps -> single limit_step steps ->
  binds (generateSelect tableName steps) (select_pieces tableName steps) /\
  forall V (value : piece -> V) apply, connective apply "AND" -> connective apply "OR" -> means value apply steps.
Proof.
  intros Ht Hs Ho Hl. split; [|intros; by apply steps_mean].
  assert (generateSelect tableName steps =
          mkSQL (render (select_pieces tableName steps)) (params (select_pieces tableName steps))) as ->;
    [|by apply binds_intro, select_plain].
  unfold generateSelect. rewrite select_fold by done. unfold select_state.
  rewrite !emit_render by (first [apply where_sane|apply order_solid|apply limit_solid]; done).
  unfold select_pieces. unfold render at 5. simpl. fold (render (concat (map join_step steps) ++
    head_pieces " WHERE " (where_pieces steps) ++
    head_pieces " ORDER BY " (concat (map order_step steps)) ++
    head_pieces " LIMIT " (concat (map limit_step steps)))).
  by rewrite !render_app, !params_app, !head_params.
Qed.

Lemma generateSelect_binds_witness :
  let n i := mkNode i no_location in
  let x := VariableExpression (n 1) None in
  let y := ConstString (n 2) "bob" in
  let column name := QueryFieldExpression (n 3) name in
  let age := OperationsExpression (n 4) ">" (column "age") x in
  let name := OperationsExpression (n 5) "&&" (OperationsExpression (n 6) "==" (column "name") y) (column "here") in
  let steps := [mkStep LIMIT (Some x) "" []; mkStep WHERE (Some age) "" [];
                mkStep ORDER_BY (Some (column "age")) "" []; mkStep WHERE (Some name) "" []] in
  let st := generateSelect "UserPost" steps in
  let row p := match p with Text "age" => 20%Z | Text "name" => 18%Z | Text "here" => 1%Z | Param _ => 18%Z | Text _ => 0%Z end in
  let op o a b := if decide (o = "AND") then Z.min a b else if decide (o = "OR") then Z.max a b
                  else if decide (o = ">") then Z.b2z (b <? a)%Z else Z.b2z (a =? b)%Z in
  binds st (select_pieces "UserPost" steps) /\
  sql st = "SELECT * FROM user_post WHERE age > ? AND name = ? AND here ORDER BY age LIMIT ?" /\
  paramExprs st = [Some x; Some y; Some x] /\
  read_as row op (where_pieces steps) 1%Z.
Proof.
  intros n x y column age name steps st row op.
  destruct (generateSelect_binds "UserPost" steps) as [Hb Hm].
  - by apply plain_literal.
  - repeat constructor; by (apply plain_literal || done).
  - unfold single. simpl. lia.
  - unfold single. simpl. lia.
  - split; [exact Hb|]. split; [reflexivity|]. split; [reflexivity|].
    destruct (Hm Z row op) as [Hw _]; [exact (fun a b c => eq_sym (Z.min_assoc a b c))|exact (fun a b c => eq_sym (Z.max_assoc a b c))|].
    apply Hw. split; [|right]; repeat constructor; vm_compute; lia.
Defined.

(** ** Updates, deletes and inserts *)

Definition assignment_pieces (field : string * Expr) : list piece :=
  Text field.1 :: Text " = " :: expr_pieces field.2.

(** The assignments of the SET steps, in pipeline order. *)
Definition set_steps (steps : list QueryPipelineStep) : list (string * Expr) :=
  concat (map step_sets (List.filter (has_type SET) steps)).

Definition update_pieces (tableName : string) (steps : list QueryPipelineStep) : list piece :=
  Text "UPDATE " :: Text (tableNameToSQL tableName) ::
  head_pieces " SET " (conjunction ", " (map assignment_pieces (set_steps steps))) ++
  head_pieces " WHERE " (where_pieces steps).

Definition delete_pieces (tableName : string) (steps : list QueryPipelineStep) : list piece :=
  Text "DELETE FROM " :: Text (tableNameToSQL tableName) :: head_pieces " WHERE " (where_pieces steps).

Definition named (field : string * Expr) : Prop := field.1 <> "" /\ plain field.1 /\ sane_expr field.2.

Lemma assignment_sane field :
  named field -> Forall plain_piece (assignment_pieces field) /\ assignment_pieces field <> [] /\
  solid (assignment_pieces field).
Proof.
  intros (Hn & Hp & He). split_and!; [|done|].
  - constructor; [done|]. constructor; [by apply plain_literal|]. by apply expr_pieces_sane.
  - intros _. unfold assignment_pieces, render. simpl. by intros [? _]%string_app_empty.
Qed.

Lemma set_fields_fold fields : forall c,
  solid c -> Forall named fields ->
  foldl set_field (render c, params c) fields =
  (render (foldl (append_pieces ", ") c (map assignment_pieces fields)),
   params (foldl (append_pieces ", ") c (map assignment_pieces fields))).
Proof.
  induction fields as [|field fields IH]; intros c Hc Hf; [done|].
  apply Forall_cons in Hf as [Hn Hf]. destruct (assignment_sane field Hn) as (_ & Hne & Hs).
  cbn [foldl map]. rewrite <- IH by (try apply append_solid; done). f_equal.
  unfold set_field. rewrite exprToSQL_pieces. cbn [fst snd].
  by rewrite <- append_render, append_params by done.
Qed.

Lemma set_steps_snoc l x :
  set_steps (l ++ [x]) = set_steps l ++ if has_type SET x then step_sets x else [].
Proof.
  unfold set_steps. rewrite List.filter_app, map_app, concat_app. simpl.
  destruct (has_type SET x); simpl; by rewrite ?app_nil_r.
Qed.

Lemma update_fold steps :
  Forall sane_step steps -> Forall named (set_steps steps) ->
  let set := conjunction ", " (map assignment_pieces (set_steps steps)) in
  solid set /\
  foldl update_step (mkUpdate "" "" [] []) steps =
  mkUpdate (render set) (render (where_pieces steps)) (params set) (params (where_pieces steps)).
Proof.
  induction steps as [|step steps IH] using rev_ind; [intros _ _; split; [by intros []|done]|].
  rewrite set_steps_snoc. intros [Hs (Hsane & _)%Forall_singleton]%Forall_app [Hn Hx]%Forall_app.
  destruct (IH Hs Hn) as [Hset IHf]. split.
  - apply (conjunction_sane ", "); [by apply plain_literal|]. apply Forall_map, Forall_app.
    split; eapply Forall_impl; eauto using assignment_sane.
  - rewrite foldl_app, IHf, where_snoc. simpl. unfold update_step. destruct (where_sane steps Hs) as [_ Hw].
    unfold has_type in *. destruct (step_type step); simpl in *; try (by rewrite app_nil_r).
    + rewrite app_nil_r, exprToSQL_ptr_pieces. by rewrite append_render, append_params.
    + rewrite set_fields_fold by done. unfold conjunction. by rewrite map_app, foldl_app.
Qed.

Lemma delete_fold steps :
  Forall sane_step steps ->
  foldl delete_step ("", []) steps = (render (where_pieces steps), params (where_pieces steps)).
Proof.
  induction steps as [|step steps IH] using rev_ind; [done|]. intros [Hs (Hsane & _)%Forall_singleton]%Forall_app.
  rewrite foldl_app, IH, where_snoc by done. simpl. unfold delete_step, has_type.
  destruct (where_sane steps Hs) as [_ Hw].
  destruct (step_type step); try done. simpl. rewrite exprToSQL_ptr_pieces.
  by rewrite append_render, append_params.
Qed.

Definition hole (e : Expr) : list piece := [Param (Some e)].

Lemma holes_after c l :
  c <> [] -> Forall plain_piece c ->
  let c' := foldl (append_pieces ", ") c (map hole l) in
  render c' = render c +:+ match l with [] => "" | _ => ", " +:+ comma_list (map (fun _ => "?") l) end /\
  params c' = params c ++ map Some l /\ Forall plain_piece c'.
Proof.
  revert c. induction l as [|e l IH]; intros c Hn Hp; simpl.
  - by rewrite string_app_nil_r, app_nil_r.
  - assert (append_pieces ", " c (hole e) = c ++ [Text ", "; Param (Some e)]) as -> by (by destruct c).
    destruct (IH (c ++ [Text ", "; Param (Some e)])) as (H1 & H2 & H3).
    + by destruct c.
    + apply Forall_app. split; [done|]. repeat constructor. by apply plain_literal.
    + rewrite H1, H2, render_app, params_app, <- app_assoc. split_and!; [|done|done].
      rewrite string_app_assoc. by destruct l.
Qed.

Lemma holes l :
  let c := conjunction ", " (map hole l) in
  render c = comma_list (map (fun _ => "?") l) /\ params c = map Some l /\ Forall plain_piece c.
Proof.
  destruct l as [|e l]; [by split_and!|].
  destruct (holes_after (hole e) l) as (H1 & H2 & H3); [done|by repeat constructor|].
  split_and!; [|exact H2|exact H3]. etransitivity; [exact H1|]. by destruct l.
Qed.

Definition insert_pieces (tableName : string) (fieldNames : list string) (fieldValues : list Expr) : list piece :=
  Text "INSERT INTO " :: Text (tableNameToSQL tableName) :: Text " (" :: Text (comma_list fieldNames) ::
  Text ") VALUES (" :: conjunction ", " (map hole fieldValues) ++ [Text ")"].

Lemma plain_comma_list l : Forall plain l -> plain (comma_list l).
Proof.
  induction 1 as [|x l Hx Hl IH]; [by apply plain_literal|]. destruct l as [|y l]; [done|].
  change (comma_list (x :: y :: l)) with (x +:+ ", " +:+ comma_list (y :: l)).
  rewrite !plain_app. split_and!; [done|by apply plain_literal|done].
Qed.

(** C26. Updates, deletes and inserts bind their parameters in order, without
    exception: assignments come before filters in text and parameters alike,
    wherever the pipeline had them, the filters of all steps stand between [AND]s, and
    an insert has one placeholder per value; filling in gives that statement. As for
    SELECT, the filters mean in SQL what the pipeline says if none needs parentheses,
    and so does the value of an assignment that needs none. *)
Theorem modifications_bind (tableName : string) (steps : list QueryPipelineStep)
  (fieldNames : list string) (fieldValues : list Expr) :
  plain (tableNameToSQL tableName) -> Forall sane_step steps -> Forall named (set_steps steps) ->
  Forall plain fieldNames ->
  binds (generateUpdate tableName steps) (update_pieces tableName steps) /\
  binds (generateDelete tableName steps) (delete_pieces tableName steps) /\
  binds (generateInsert tableName fieldNames fieldValues) (insert_pieces tableName fieldNames fieldValues) /\
  forall V (value : piece -> V) apply, connective apply "AND" -> connective apply "OR" ->
    means value apply steps /\
    forall field, field ∈ set_steps steps -> grouped field.2 ->
      read_as value apply (expr_pieces field.2) (meaning value apply field.2).
Proof.
  intros Ht Hs Hn Hf. destruct (where_sane steps Hs) as [Hwp Hw].
  assert (Forall plain_piece (conjunction ", " (map assignment_pieces (set_steps steps)))) as Hset.
  { apply (conjunction_sane ", "); [by apply plain_literal|]. apply Forall_map.
    eapply Forall_impl; eauto using assignment_sane. }
  split_and!.
  - destruct (update_fold steps Hs Hn) as [Hss Hu]. unfold generateUpdate. rewrite Hu.
    rewrite !emit_render by done. unfold update_pieces.
    pose proof (binds_intro (update_pieces tableName steps)) as Hb. unfold update_pieces, render in *.
    simpl in *. rewrite fill_pieces_app, params_app, !head_params in Hb. apply Hb.
    constructor; [by apply plain_literal|]. constructor; [done|]. apply Forall_app.
    split; (apply head_plain; [by apply plain_literal|done]).
  - unfold generateDelete. rewrite delete_fold by done. rewrite emit_render by done.
    pose proof (binds_intro (delete_pieces tableName steps)) as Hb. unfold delete_pieces, render in *.
    simpl in *. rewrite head_params in Hb. apply Hb.
    constructor; [by apply plain_literal|]. constructor; [done|]. apply head_plain; [by apply plain_literal|done].
  - destruct (holes fieldValues) as (Hr & Hp & Hq).
    pose proof (binds_intro (insert_pieces tableName fieldNames fieldValues)) as Hb.
    unfold insert_pieces, generateInsert, render in *. simpl in *.
    rewrite fill_pieces_app, params_app in Hb. simpl in Hb. rewrite Hr, Hp, app_nil_r in Hb. apply Hb.
    constructor; [by apply plain_literal|]. constructor; [done|]. constructor; [by apply plain_literal|].
    constructor; [by apply plain_comma_list|]. constructor; [by apply plain_literal|].
    apply Forall_app. split; [done|]. repeat constructor. by apply plain_literal.
  - intros V value apply Ha Ho. split; [by apply steps_mean|]. intros field _ Hg.
    exists (tokens field.2). split; [apply tokens_pieces|by apply grouped_reads].
Qed.

Lemma modifications_bind_witness :
  let n i := mkNode i no_location in
  let x := VariableExpression (n 1) None in
  let y := ConstString (n 2) "bob" in
  let by_id := OperationsExpression (n 3) "==" (QueryFieldExpression (n 4) "id") x in
  let steps := [mkStep WHERE (Some by_id) "" []; mkStep SET None "" [("name", y); ("age", ConstInteger (n 5) 7)]] in
  binds (generateUpdate "User" steps) (update_pieces "User" steps) /\
  sql (generateUpdate "User" steps) = "UPDATE user SET name = ?, age = 7 WHERE id = ?" /\
  paramExprs (generateUpdate "User" steps) = [Some y; Some x].
Proof.
  intros n x y by_id steps. split; [|by split].
  apply (modifications_bind "User" steps [] []).
  - by apply plain_literal.
  - repeat constructor; by (apply plain_literal || done).
  - repeat constructor; by (apply plain_literal || done).
  - constructor.
Defined.

(** Grouping is lost: a nested condition and two filters of a pipeline are
    written without parentheses, so that conditions that mean different things
    have the same SQL text: a disjunction under a conjunction, a disjunction
    over it, and the two filters [where( a || b ) |> where( c )]. *)
Theorem conditions_lose_grouping (n : Node) (a b c : Expr) (tableName : string) :
  let AND x y := OperationsExpression n "&&" x y in
  let OR x y := OperationsExpression n "||" x y in
  let filter e := mkStep WHERE (Some e) "" [] in
  sane_expr a -> sane_expr b -> sane_expr c ->
  exprToSQL (AND (OR a b) c) [] = exprToSQL (OR a (AND b c)) [] /\
  generateSelect tableName [filter (OR a b); filter c] =
    generateSelect tableName [filter (OR a (AND b c))].
Proof.
  intros AND OR filter Ha Hb Hc.
  assert (exprToSQL (AND (OR a b) c) [] = exprToSQL (OR a (AND b c)) []) as He.
  { rewrite !exprToSQL_pieces. unfold AND, OR. simpl. rewrite <- !app_assoc. done. }
  split; [done|]. unfold generateSelect.
  assert (forall e, sane_expr e -> sane_step (filter e)) as Hf.
  { intros e Hs. split_and!; [done|by apply plain_literal|constructor]. }
  assert (plain "||" /\ plain "&&") as [Po Pa] by (split; by apply plain_literal).
  assert (Forall sane_step [filter (OR a b); filter c]) as H1 by (repeat apply Forall_cons_2; try apply Hf; by simpl).
  assert (Forall sane_step [filter (OR a (AND b c))]) as H2 by (repeat apply Forall_cons_2; try apply Hf; by simpl).
  rewrite !select_fold by (first [done|unfold single; simpl; lia]).
  unfold select_state.
  assert (where_pieces [filter (OR a b); filter c] = where_pieces [filter (OR a (AND b c))]) as ->; [|done].
  unfold where_pieces, step_exprs, conjunction, OR, AND. simpl. unfold append_pieces.
  destruct (expr_pieces_sane a Ha) as (_ & Hn & _). destruct (expr_pieces a); [done|]. simpl.
  by rewrite <- !app_assoc.
Qed.

Lemma conditions_lose_grouping_witness :
  let n := mkNode 0 no_location in
  let eq name := OperationsExpression n "==" (QueryFieldExpression n name) (ConstInteger n 1) in
  let filter e := mkStep WHERE (Some e) "" [] in
  generateSelect "User" [filter (OperationsExpression n "||" (eq "a") (eq "b")); filter (eq "c")] =
    generateSelect "User" [filter (OperationsExpression n "||" (eq "a")
                                     (OperationsExpression n "&&" (eq "b") (eq "c")))] /\
  sql (generateSelect "User" [filter (OperationsExpression n "||" (eq "a") (eq "b")); filter (eq "c")]) =
    "SELECT * FROM user WHERE a = 1 OR b = 1 AND c = 1".
Proof.
  intros n eq filter. split; [|reflexivity].
  apply (conditions_lose_grouping n (eq "a") (eq "b") (eq "c") "User"); repeat constructor; try done; by apply plain_literal.
Defined.

(** A limit that is not a constant, followed by [first] or another limit,
    leaves a parameter without a placeholder: the later step replaces the text
    of the clause but not its parameters. *)
Theorem repeated_limit_leaves_parameter (n : Node) (e : Expr) (tableName : string) :
  (forall m v, e <> ConstInteger m v) ->
  let st := generateSelect tableName [mkStep LIMIT (Some e) "" []; mkStep FIRST None "" []] in
  sql st = sql (generateSelect tableName [mkStep FIRST None "" []]) /\
  paramExprs st = [Some e].
Proof. intros He st. unfold st. destruct e; try by split. by destruct (He n0 mValue). Qed.

Lemma repeated_limit_leaves_parameter_witness :
  let n := mkNode 0 no_location in
  let st := generateSelect "User" [mkStep LIMIT (Some (VariableExpression n None)) "" []; mkStep FIRST None "" []] in
  sql st = "SELECT * FROM user LIMIT 1" /\ paramExprs st = [Some (VariableExpression n None)].
Proof.
  intros n. apply (repeated_limit_leaves_parameter n (VariableExpression n None) "User"). intros m v. discriminate.
Defined.

(** * Table names *)

(** A struct name in the usual spelling: an upper-case letter first, and no
    underscore. *)
Definition pascal (s : string) : Prop :=
  match chars s with
  | [] => False
  | c :: l => isupper c = true /\ "_"%char ∉ l
  end.

Definition islower (c : ascii) : bool := char_between "a" "z" c.

Lemma tolower_upper c d : isupper c = true -> isupper d = true -> tolower c = tolower d -> c = d.
Proof.
  unfold tolower. intros Hc Hd. rewrite Hc, Hd. unfold isupper, char_between in *.
  apply andb_true_iff in Hc as [Hc1 Hc2], Hd as [Hd1 Hd2]. rewrite !N.leb_le in *. simpl in *.
  intros He. apply (f_equal N_of_ascii) in He. rewrite !Stdlib.Strings.Ascii.N_ascii_embedding in He by lia.
  rewrite <- (Stdlib.Strings.Ascii.ascii_N_embedding c), <- (Stdlib.Strings.Ascii.ascii_N_embedding d). f_equal. lia.
Qed.

Lemma table_chars_inj l1 : forall l2,
  "_"%char ∉ l1 -> "_"%char ∉ l2 -> table_chars false l1 = table_chars false l2 -> l1 = l2.
Proof.
  induction l1 as [|c l1 IH]; intros [|d l2] H1 H2; simpl; try done; try (by case_match).
  apply not_elem_of_cons in H1 as [Hc H1], H2 as [Hd H2].
  destruct (isupper c) eqn:Uc, (isupper d) eqn:Ud; simpl; intros [=]; subst; try done.
  - f_equal; [by apply tolower_upper|by apply IH].
  - f_equal. by apply IH.
Qed.

(** Table names do not collide: two table structs in the usual spelling
    with different names have different SQL tables. *)
Theorem tableNameToSQL_injective (a b : string) :
  pascal a -> pascal b -> tableNameToSQL a = tableNameToSQL b -> a = b.
Proof.
  unfold pascal, tableNameToSQL. intros Ha Hb He. apply (f_equal chars) in He. rewrite !chars_str in He.
  rewrite <- (str_chars a), <- (str_chars b). f_equal.
  destruct (chars a) as [|c l1]; [done|]. destruct (chars b) as [|d l2]; [done|].
  destruct Ha as [Uc H1], Hb as [Ud H2]. simpl in He. rewrite Uc, Ud in He. simpl in He. injection He as Hc Hl.
  f_equal; [by apply tolower_upper|by apply table_chars_inj].
Qed.

Lemma tableNameToSQL_injective_witness :
  tableNameToSQL "UserPost" <> tableNameToSQL "Userpost" /\ tableNameToSQL "User" = tableNameToSQL "user".
Proof.
  split; [|reflexivity]. intros He.
  assert ("UserPost" = "Userpost") as Hf; [|discriminate Hf].
  apply (tableNameToSQL_injective "UserPost" "Userpost"); [| |exact He];
    (split; [reflexivity|]; by apply (bool_decide_unpack _); vm_compute).
Defined.
