(* ===== verification/FormatString.v ===== *)
(** Format strings ([ParsedFormatString::parse], [src/FormatString.h],
    [src/FormatString.cpp]): the parser of the text before the arguments of a
    formatted print, and the exact language it accepts.  Argument indices and
    precisions are [int]s: a value that does not fit is an overflow, which is
    undefined behaviour. *)

From S2P Require Import Prelude.

Record FormatPlaceholder := mkPlaceholder {
  argIndex : Z;
  specifier : string;
  ph_type : ascii;
  precision : Z
}.

Record ParsedFormatString := mkParsed {
  literals : list string;
  placeholders : list FormatPlaceholder;
  fmt_error : string
}.

(** ['\0'], the type of a placeholder without a conversion. *)
Definition nul : ascii := ascii_of_N 0.

(** A run's state is the format string from index [i] on. *)
Notation formatter := (run (list ascii)).

(** The result of an [int] operation. *)
Definition int_result {S} (z : Z) : run S Z :=
  if decide (-2 ^ 31 <= z < 2 ^ 31)%Z then mret z else undefined.

(** [i < fmt.size() && fmt[i] == c], and two characters at once. *)
Definition looks_at (c : ascii) (l : list ascii) : bool :=
  match l with d :: _ => bool_decide (d = c) | [] => false end.

Definition looks_at_two (c : ascii) (l : list ascii) : bool :=
  looks_at c l && looks_at c (tail l).

Definition digit_value (c : ascii) : Z := char_to_int c - char_to_int "0".

(** The loop over the digits of a precision; [None] when it meets another
    character. *)
Fixpoint read_precision {S} (digits : list ascii) (prec : Z) : run S (option Z) :=
  match digits with
  | [] => mret (Some prec)
  | d :: digits' =>
      if negb (char_between "0" "9" d) then mret None
      else prec' ← int_result (prec * 10 + digit_value d); read_precision digits' prec'
  end.

Definition is_conversion (c : ascii) : bool :=
  bool_decide (c ∈ ["x"%char; "X"%char; "o"%char; "b"%char]).

(** The type and the precision a specifier stands for, or the error. *)
Definition read_specifier {S} (spec : list ascii) : run S (ascii * Z + string) :=
  let last_ := default nul (last spec) in
  if is_conversion last_ then mret (inl (last_, (-1)%Z))
  else if decide (last_ = "f"%char) then
    if bool_decide (2 <= length spec) && looks_at "." spec then
      let digits := take (length spec - 2) (drop 1 spec) in
      prec ← read_precision digits 0;
      match prec with
      | Some prec => mret (inl ("f"%char, prec))
      | None => mret (inr ("invalid precision in format specifier: '" +:+ str spec +:+ "'"))
      end
    else mret (inl ("f"%char, (-1)%Z))
  else if decide (last_ = "e"%char) then mret (inl ("e"%char, (-1)%Z))
  else mret (inr ("unknown format specifier: '" +:+ str spec +:+ "'")).

(** The characters up to the next ['}'], and the rest from it on. *)
Fixpoint before_brace (l : list ascii) : list ascii * list ascii :=
  match l with
  | [] => ([], [])
  | c :: l' =>
      if decide (c = "}"%char) then ([], l)
      else let '(a, b) := before_brace l' in (c :: a, b)
  end.

(** What follows the ['{'] of a placeholder, up to its ['}']: the specifier
    (empty when there is none), the type and the precision, or the error. *)
Definition read_placeholder : formatter (string * ascii * Z + string) :=
  colon ← gets (looks_at ":");
  spec ←
    (if colon : bool then
       modify tail;;
       r ← gets before_brace;
       modify (fun _ => r.2);;
       if decide (r.1 = []) then mret (inr "empty format specifier after ':'")
       else
         meaning ← read_specifier r.1;
         match meaning with
         | inl (type, prec) => mret (inl (str r.1, type, prec))
         | inr err => mret (inr err)
         end
     else mret (inl ("", nul, (-1)%Z)));
  match spec with
  | inr err => mret (inr err)
  | inl spec =>
      closed ← gets (looks_at "}");
      if closed : bool then modify tail;; mret (inl spec)
      else mret (inr "unterminated format placeholder, expected '}'")
  end.

(** The local variables of the loop. *)
Record format_state := mkFormat {
  result : ParsedFormatString;
  current : string;
  next_arg : Z
}.

Definition format_fail (r : ParsedFormatString) (err : string) :
  loop_step format_state ParsedFormatString :=
  Break (mkParsed (literals r) (placeholders r) err).

Definition format_step (b : format_state) : formatter (loop_step format_state ParsedFormatString) :=
  let r := result b in
  rest ← gets id;
  match rest with
  | [] => mret (Break (mkParsed (literals r ++ [current b]) (placeholders r) (fmt_error r)))
  | c :: _ =>
      if looks_at_two "{" rest then
        modify (drop 2);; mret (Next (mkFormat r (append1 (current b) "{") (next_arg b)))
      else if looks_at_two "}" rest then
        modify (drop 2);; mret (Next (mkFormat r (append1 (current b) "}") (next_arg b)))
      else if decide (c = "{"%char) then
        let r := mkParsed (literals r ++ [current b]) (placeholders r) (fmt_error r) in
        next ← int_result (next_arg b + 1);
        modify tail;;
        ph ← read_placeholder;
        match ph with
        | inr err => mret (format_fail r err)
        | inl (spec, type, prec) =>
            mret (Next (mkFormat
              (mkParsed (literals r)
                 (placeholders r ++ [mkPlaceholder (next_arg b) spec type prec]) (fmt_error r))
              "" next))
        end
      else if decide (c = "}"%char) then
        mret (format_fail r "unexpected '}' in format string (use '}}' for literal '}')")
      else modify tail;; mret (Next (mkFormat r (append1 (current b) c) (next_arg b)))
  end.

(** Every pass of the loop that goes on reads a character. *)
Definition parse (fmt : string) : outcome ParsedFormatString :=
  match loop (S (String.length fmt)) format_step (mkFormat (mkParsed [] [] "") "" 0) (chars fmt) with
  | Done (r, _) => Done r
  | UndefinedBehaviour => UndefinedBehaviour
  | OutOfFuel => OutOfFuel
  end.

Example parse_example :
  parse "a{{{:.3f}b{}}}" =
  Done (mkParsed ["a{"; "b"; "}"]
          [mkPlaceholder 0 ".3f" "f" 3; mkPlaceholder 1 "" nul (-1)] "").
Proof. vm_compute. reflexivity. Qed.

Example parse_overflow : parse "{:.2147483648f}" = UndefinedBehaviour.
Proof. vm_compute. reflexivity. Qed.

(** * What the parser accepts and returns *)

(** * What is rendered *)

Definition decimal (ds : list ascii) : Z := foldl (fun v d => v * 10 + digit_value d)%Z 0%Z ds.

Definition is_digit (c : ascii) : Prop := char_between "0" "9" c = true.

(** The type and the precision of a specifier. *)
Inductive means : list ascii -> ascii -> Z -> Prop :=
  | means_default : means [] nul (-1)
  | means_conversion p c : is_conversion c = true -> means (p ++ [c]) c (-1)
  | means_exponent p : means (p ++ ["e"%char]) "e" (-1)
  | means_float p : head p <> Some "."%char -> means (p ++ ["f"%char]) "f" (-1)
  | means_fixed ds : Forall is_digit ds -> (decimal ds < 2 ^ 31)%Z ->
      means ("."%char :: ds ++ ["f"%char]) "f" (decimal ds).

(** A literal segment with its braces doubled. *)
Definition escape (l : list ascii) : list ascii :=
  flat_map (fun c => if bool_decide (c = "{"%char \/ c = "}"%char) then [c; c] else [c]) l.

Definition spec_text (spec : list ascii) : list ascii :=
  match spec with [] => [] | _ => ":"%char :: spec end.

(** The literal segment [l] followed by placeholders, each with the literal
    segment after it. *)
Fixpoint render (l : string) (rest : list (FormatPlaceholder * string)) : list ascii :=
  escape (chars l) ++
  match rest with
  | [] => []
  | (ph, l') :: rest' =>
      "{"%char :: spec_text (chars (specifier ph)) ++ "}"%char :: render l' rest'
  end.

(** Placeholders numbered from [n] on, with what their specifiers mean. *)
Fixpoint numbered (n : Z) (rest : list (FormatPlaceholder * string)) : Prop :=
  match rest with
  | [] => True
  | (ph, _) :: rest' =>
      argIndex ph = n /\ (n + 1 < 2 ^ 31)%Z /\ "}"%char ∉ chars (specifier ph) /\
      means (chars (specifier ph)) (ph_type ph) (precision ph) /\ numbered (n + 1) rest'
  end.

(** * Specifiers *)

Lemma int_result_ok {S} z (s : S) : (-2 ^ 31 <= z < 2 ^ 31)%Z -> int_result z s = Done (z, s).
Proof. intros Hz. unfold int_result. by rewrite decide_True. Qed.

Lemma int_result_done {S} z (s : S) z' s' :
  int_result z s = Done (z', s') -> z' = z /\ s' = s /\ (-2 ^ 31 <= z < 2 ^ 31)%Z.
Proof. unfold int_result, undefined. case_decide; intros Hr; [|done]. injection Hr as <- <-. done. Qed.

Lemma digit_value_range c : is_digit c -> (0 <= digit_value c <= 9)%Z.
Proof.
  unfold is_digit, char_between, digit_value. intros [H1 H2]%andb_prop.
  apply N.leb_le in H1, H2. change (N_of_ascii "0") with 48%N in *. change (N_of_ascii "9") with 57%N in *.
  change (char_to_int "0") with 48%Z. unfold char_to_int. rewrite decide_True by lia. lia.
Qed.

Definition decimal_from (v : Z) (ds : list ascii) : Z :=
  foldl (fun v d => v * 10 + digit_value d)%Z v ds.

Lemma decimal_from_ge v ds : Forall is_digit ds -> (0 <= v)%Z -> (v <= decimal_from v ds)%Z.
Proof.
  intros Hd. revert v. induction Hd as [|d ds Hd _ IH]; intros v Hv; simpl; [lia|].
  apply digit_value_range in Hd. specialize (IH (v * 10 + digit_value d)%Z). unfold decimal_from in *. lia.
Qed.

Lemma read_precision_ok {S} ds : forall v (s : S),
  Forall is_digit ds -> (0 <= v)%Z -> (decimal_from v ds < 2 ^ 31)%Z ->
  read_precision ds v s = Done (Some (decimal_from v ds), s).
Proof.
  induction ds as [|d ds IH]; intros v s Hd Hv Hb; simpl; [done|].
  apply Forall_cons in Hd as [Hd Hds]. rewrite Hd. simpl. apply digit_value_range in Hd.
  pose proof (decimal_from_ge (v * 10 + digit_value d) ds Hds ltac:(lia)). simpl in Hb. unfold decimal_from in *.
  unfold mbind, run_bind. rewrite int_result_ok by lia. apply IH; [done|lia|done].
Qed.

Lemma read_precision_done {S} ds : forall v (s : S) p s',
  (0 <= v < 2 ^ 31)%Z ->
  read_precision ds v s = Done (p, s') ->
  s' = s /\ (forall q, p = Some q ->
    Forall is_digit ds /\ q = decimal_from v ds /\ (decimal_from v ds < 2 ^ 31)%Z).
Proof.
  induction ds as [|d ds IH]; intros v s p s' Hv; simpl.
  { intros Hp. injection Hp as <- <-. split; [done|]. intros q [= <-]. split_and!; [constructor|done|apply Hv]. }
  destruct (char_between "0" "9" d) eqn:Hd; simpl; [|by intros [= <- <-]].
  unfold mbind, run_bind. destruct (int_result _ s) as [[z s1]| |] eqn:Hz; [|done..].
  apply int_result_done in Hz as (-> & -> & Hz). pose proof (digit_value_range d Hd). intros Hr.
  apply IH in Hr as [-> Hq]; [|lia]. split; [done|]. intros q ->.
  destruct (Hq q eq_refl) as (Hds & Hq1 & Hq2). split_and!; [by constructor|done|done].
Qed.

Lemma default_last (p : list ascii) c : default nul (last (p ++ [c])) = c.
Proof. by rewrite last_snoc. Qed.

Lemma read_specifier_means {S} spec t p (s : S) :
  means spec t p -> spec <> [] -> read_specifier spec s = Done (inl (t, p), s).
Proof.
  intros Hm Hne. unfold read_specifier. destruct Hm as [|q c Hc|q|q Hq|ds Hds Hb]; [done|..].
  - by rewrite default_last, Hc.
  - by rewrite default_last.
  - rewrite default_last. simpl.
    destruct (bool_decide (2 <= length (q ++ ["f"%char])) && looks_at "." (q ++ ["f"%char])) eqn:Hl; [|done].
    apply andb_prop in Hl as [_ Hl]. destruct q as [|c q]; [done|]. simpl in *. apply bool_decide_eq_true in Hl. by subst.
  - change ("."%char :: ds ++ ["f"%char]) with (("."%char :: ds) ++ ["f"%char]). rewrite default_last. simpl.
    rewrite bool_decide_true by (rewrite length_app; simpl; lia). simpl.
    rewrite length_app, Nat.add_sub, drop_0, take_app_length. simpl.
    unfold mbind, run_bind. rewrite (read_precision_ok ds 0 s Hds ltac:(lia) Hb). done.
Qed.

Lemma read_specifier_done {S} spec (s : S) r s' :
  read_specifier spec s = Done (r, s') -> spec <> [] ->
  s' = s /\ match r with inl (t, p) => means spec t p | inr err => err <> "" end.
Proof.
  intros Hr Hne. destruct (exists_last Hne) as (q & c & ->). clear Hne. unfold read_specifier in Hr.
  rewrite default_last in Hr. destruct (is_conversion c) eqn:Hc; [injection Hr as <- <-; split; [done|by constructor]|].
  destruct (decide (c = "f"%char)) as [->|Hf].
  - destruct (bool_decide (2 <= length (q ++ ["f"%char])) && looks_at "." (q ++ ["f"%char])) eqn:Hl.
    + apply andb_prop in Hl as [H2 Hl]. apply bool_decide_eq_true in H2. destruct q as [|d ds]; [simpl in H2; lia|].
      simpl in Hl. apply bool_decide_eq_true in Hl as ->. simpl in Hr.
      rewrite length_app, Nat.add_sub, drop_0, take_app_length in Hr.
      unfold mbind, run_bind in Hr. destruct (read_precision ds 0 s) as [[p s1]| |] eqn:Hp; [|done..].
      apply read_precision_done in Hp as [-> Hp]; [|lia].
      destruct p as [p|]; injection Hr as <- <-; (split; [done|]); [|done].
      destruct (Hp p eq_refl) as (Hds & -> & Hb). by apply means_fixed.
    + injection Hr as <- <-. split; [done|]. apply means_float. destruct q as [|d q]; [done|]. simpl in *.
      intros [= ->]. rewrite bool_decide_true in Hl by (rewrite length_app; simpl; lia). done.
  - destruct (decide (c = "e"%char)) as [->|He]; injection Hr as <- <-; (split; [done|]); [apply means_exponent|done].
Qed.

(** * Placeholders *)

Lemma before_brace_app a l : "}"%char ∉ a -> before_brace (a ++ "}"%char :: l) = (a, "}"%char :: l).
Proof.
  induction a as [|c a IH]; intros Ha; simpl; [done|]. apply not_elem_of_cons in Ha as [Hc Ha].
  rewrite decide_False by congruence. by rewrite IH.
Qed.

Lemma before_brace_split l a b : before_brace l = (a, b) -> l = a ++ b /\ "}"%char ∉ a.
Proof.
  revert a b. induction l as [|c l IH]; intros a b; simpl; [intros; simplify_eq/=; split; [done|apply not_elem_of_nil]|].
  case_decide as Hc; [intros; simplify_eq/=; split; [done|apply not_elem_of_nil]|].
  destruct (before_brace l) as [a' b']. intros; simplify_eq/=. destruct (IH a' b eq_refl) as [-> Ha].
  split; [done|]. apply not_elem_of_cons. split; [congruence|done].
Qed.

Lemma looks_at_true c l : looks_at c l = true -> exists l', l = c :: l'.
Proof. destruct l as [|d l]; simpl; [done|]. intros ->%bool_decide_eq_true. by exists l. Qed.

Lemma looks_at_cons c l : looks_at c (c :: l) = true.
Proof. simpl. by apply bool_decide_eq_true. Qed.

Lemma read_placeholder_ok spec t p l :
  "}"%char ∉ spec -> means spec t p ->
  read_placeholder (spec_text spec ++ "}"%char :: l) = Done (inl (str spec, t, p), l).
Proof.
  intros Hb Hm. unfold read_placeholder. destruct spec as [|c spec].
  { inversion Hm as [| q ? ? Hq | q Hq | q ? Hq |]; subst; try (by destruct q). done. }
  pose proof (before_brace_app (c :: spec) l Hb) as Hbb. unfold spec_text. cbn [app] in *.
  unfold mbind, run_bind, gets, modify. cbn [looks_at]. rewrite bool_decide_true by done. cbn [tl fst snd].
  rewrite Hbb. cbn [fst snd]. rewrite decide_False by done.
  rewrite (read_specifier_means _ _ _ _ Hm) by done. cbn. done.
Qed.

Lemma read_placeholder_done l r l' : read_placeholder l = Done (r, l') ->
  match r with
  | inl (spec, t, p) =>
      l = spec_text (chars spec) ++ "}"%char :: l' /\ "}"%char ∉ chars spec /\ means (chars spec) t p
  | inr err => err <> ""
  end.
Proof.
  assert (forall x s1, (closed ← gets (looks_at "}");
                  (if closed : bool then modify tail;; mret (inl x : string * ascii * Z + string)
                  else mret (inr "unterminated format placeholder, expected '}'"))) s1 = Done (r, l') ->
     match r with inl y => y = x /\ s1 = "}"%char :: l' | inr err => err <> "" end) as Hclose.
  { intros x s1. unfold mbind, run_bind, gets, modify. simpl.
    destruct (looks_at "}" s1) eqn:Hc; intros [= <- <-]; [|done]. apply looks_at_true in Hc as [s2 ->]. done. }
  unfold read_placeholder, mbind, run_bind in *. simpl in *.
  destruct (looks_at ":" l) eqn:Hl.
  - apply looks_at_true in Hl as [l1 ->]. simpl. destruct (before_brace l1) as [spec l2] eqn:Hb. simpl.
    apply before_brace_split in Hb as [-> Hn]. case_decide as Hne; [intros [= <- _]; done|].
    destruct (read_specifier spec l2) as [[m s1]| |] eqn:Hs; [|done..].
    apply read_specifier_done in Hs as [-> Hm]; [|done]. destruct m as [[t p]|err]; simpl; [|by intros [= <- _]].
    intros Hr. apply Hclose in Hr. destruct r as [[[spec' t'] p']|err]; [|done]. destruct Hr as [[= -> -> ->] ->].
    autorewrite with blang. destruct spec; done.
  - simpl. intros Hr. apply Hclose in Hr. destruct r as [[[spec' t'] p']|err]; [|done].
    destruct Hr as [[= -> -> ->] ->]. split_and!; [done|apply not_elem_of_nil|constructor].
Qed.

(** * The loop *)

Lemma looks_at_two_true c l : looks_at_two c l = true -> exists l', l = c :: c :: l'.
Proof.
  unfold looks_at_two. intros [(l1 & ->)%looks_at_true H2]%andb_prop.
  apply looks_at_true in H2 as [l2 H2]. simpl in H2. subst. by exists l2.
Qed.

Lemma escape_app a b : escape (a ++ b) = escape a ++ escape b.
Proof. apply flat_map_app. Qed.

Lemma render_cons c l rest : render (String c l) rest = escape [c] ++ render l rest.
Proof.
  destruct rest as [|[ph l'] rest]; cbn [render];
    (change (chars (String c l)) with ([c] ++ chars l); by rewrite escape_app, <- !app_assoc).
Qed.

Lemma append1_shift s c l : append1 s c +:+ l = s +:+ String c l.
Proof. apply append1_app. Qed.

Lemma loop_accepts fuel : forall l r cur n res s,
  loop fuel format_step (mkFormat r cur n) l = Done (res, s) -> fmt_error res = "" ->
  exists l0 rest, l = render l0 rest /\ numbered n rest /\
    res = mkParsed (literals r ++ (cur +:+ l0) :: map snd rest) (placeholders r ++ map fst rest) "".
Proof.
  induction fuel as [|fuel IH]; intros l r cur n res s; [done|]. rewrite loop_S.
  destruct l as [|c l].
  { intros [= <- _] He. exists "", []. cbn in *. rewrite string_app_nil_r, !app_nil_r, He. done. }
  (* a character [c] of a literal, written [e] *)
  assert (forall d, loop fuel format_step (mkFormat r (append1 cur d) n) (drop (length (escape [d])) (c :: l))
      = Done (res, s) -> c :: l = escape [d] ++ drop (length (escape [d])) (c :: l) -> fmt_error res = "" ->
    exists l0 rest, c :: l = render l0 rest /\ numbered n rest /\
      res = mkParsed (literals r ++ (cur +:+ l0) :: map snd rest) (placeholders r ++ map fst rest) "") as Hlit.
  { intros d Hl Hc He. destruct (IH _ _ _ _ _ _ Hl He) as (l0 & rest & Hr & Hn & ->).
    exists (String d l0), rest. rewrite render_cons, <- Hr, <- Hc, append1_app. done. }
  unfold format_step, mbind, run_bind, gets, modify, id. cbn -[looks_at_two read_placeholder drop].
  destruct (looks_at_two "{" (c :: l)) eqn:H2.
  { apply looks_at_two_true in H2 as [l' [= -> ->]]. intros Hl. by apply (Hlit "{"%char Hl). }
  destruct (looks_at_two "}" (c :: l)) eqn:H3.
  { apply looks_at_two_true in H3 as [l' [= -> ->]]. intros Hl. by apply (Hlit "}"%char Hl). }
  case_decide as Ho; [subst c|case_decide as Hcl].
  - destruct (int_result (n + 1) _) as [[n' s1]| |] eqn:Hn; [|done..].
    apply int_result_done in Hn as (-> & -> & Hn). cbn -[read_placeholder].
    destruct (read_placeholder l) as [[ph s1]| |] eqn:Hp; [|done..]. apply read_placeholder_done in Hp.
    destruct ph as [[[spec t] p]|err]; [|intros [= <- _]; done]. destruct Hp as (-> & Hb & Hm).
    intros Hl He. destruct (IH _ _ _ _ _ _ Hl He) as (l0 & rest & -> & Hr & ->).
    exists "", ((mkPlaceholder n spec t p, l0) :: rest). cbn. split_and!; try done; [lia|].
    by rewrite string_app_nil_r, <- !app_assoc.
  - by intros [= <- _].
  - intros Hl He. assert (escape [c] = [c]) as Hc by (cbn; by rewrite bool_decide_false by naive_solver).
    apply (Hlit c); rewrite ?Hc; done.
Qed.

Lemma escape_char_length c : 1 <= length (escape [c]).
Proof. cbn. case_bool_decide; simpl; lia. Qed.

Lemma step_literal r cur n c l :
  format_step (mkFormat r cur n) (escape [c] ++ l) = Done (Next (mkFormat r (append1 cur c) n), l).
Proof.
  unfold format_step, mbind, run_bind, gets, modify, id. cbn -[looks_at_two read_placeholder drop].
  case_bool_decide as Hc; cbn -[looks_at_two read_placeholder drop].
  - by destruct Hc as [-> | ->].
  - assert (forall d, c <> d -> looks_at_two d (c :: l) = false) as Hno
      by (intros d Hd; unfold looks_at_two; simpl; by rewrite bool_decide_false).
    rewrite !Hno by naive_solver. rewrite decide_False by naive_solver. by rewrite decide_False by naive_solver.
Qed.

Lemma step_placeholder r cur n spec t p l :
  "}"%char ∉ spec -> means spec t p -> (0 <= n)%Z -> (n + 1 < 2 ^ 31)%Z ->
  format_step (mkFormat r cur n) ("{"%char :: spec_text spec ++ "}"%char :: l) =
  Done (Next (mkFormat (mkParsed (literals r ++ [cur])
                          (placeholders r ++ [mkPlaceholder n (str spec) t p]) (fmt_error r))
                "" (n + 1)), l).
Proof.
  intros Hb Hm H0 Hn. unfold format_step, mbind, run_bind, gets, modify, id.
  cbn -[looks_at_two read_placeholder drop spec_text int_result].
  assert (looks_at_two "{" ("{"%char :: spec_text spec ++ "}"%char :: l) = false) as -> by by destruct spec.
  change (looks_at_two "}" ("{"%char :: spec_text spec ++ "}"%char :: l)) with false.
  cbn [negb]. rewrite decide_True by done. rewrite int_result_ok by lia. cbn [tl].
  by rewrite (read_placeholder_ok spec t p l Hb Hm).
Qed.

Lemma loop_renders rest : forall l0 r cur n fuel,
  numbered n rest -> (0 <= n)%Z -> length (render l0 rest) < fuel ->
  loop fuel format_step (mkFormat r cur n) (render l0 rest) =
  Done (mkParsed (literals r ++ (cur +:+ l0) :: map snd rest) (placeholders r ++ map fst rest) (fmt_error r), []).
Proof.
  induction rest as [|[ph l1] rest IH]; intros l0; induction l0 as [|c l0 IHl]; intros r cur n fuel Hn H0 Hf;
    (destruct fuel as [|fuel]; [lia|]); rewrite loop_S;
    try (rewrite render_cons in Hf |- *; rewrite step_literal, IHl, append1_app;
         [done..|rewrite length_app in Hf; pose proof (escape_char_length c); lia]).
  - cbn. by rewrite string_app_nil_r, !app_nil_r.
  - cbn in Hn. destruct Hn as (Hi & Hn & Hb & Hm & Hr).
    change (render "" ((ph, l1) :: rest)) with
      ("{"%char :: spec_text (chars (specifier ph)) ++ "}"%char :: render l1 rest) in *.
    rewrite (step_placeholder _ _ _ _ _ _ _ Hb Hm) by done. simpl in Hf. rewrite length_app in Hf. simpl in Hf.
    rewrite IH by (done || lia). cbn. rewrite str_chars, string_app_nil_r, <- !app_assoc, <- Hi. by destruct ph.
Qed.

(** * The language *)

(** [r] is what the format string [fmt] writes: its segments and its
    placeholders, numbered from 0. *)
Definition formatted (fmt : string) (r : ParsedFormatString) : Prop :=
  exists l rest, chars fmt = render l rest /\ numbered 0 rest /\
    r = mkParsed (l :: map snd rest) (map fst rest) "".

(** C38. The format parser accepts exactly the strings that write literal
    segments, with braces doubled, around placeholders whose specifiers have a
    meaning; it returns those segments and those placeholders, numbered from 0
    and with the type and precision their specifiers mean. *)
Theorem parse_language (fmt : string) (r : ParsedFormatString) :
  (parse fmt = Done r /\ fmt_error r = "") <-> formatted fmt r.
Proof.
  unfold parse. split.
  - intros [Hp He]. destruct (loop _ _ _ _) as [[r' s]| |] eqn:Hl; [|done..]. injection Hp as ->.
    apply loop_accepts in Hl as (l & rest & Hr & Hn & ->); [|done]. by exists l, rest.
  - intros (l & rest & Hr & Hn & ->). rewrite Hr, loop_renders; [done|done|lia|].
    rewrite <- Hr, length_chars. lia.
Qed.

(** * Every string has an answer *)

(** Wherever digits follow ["{:."], their value fits an [int]. *)
Definition precisions_fit (fmt : string) : Prop :=
  forall a ds b, chars fmt = a ++ ["{"; ":"; "."]%char ++ ds ++ b -> Forall is_digit ds ->
    (decimal ds < 2 ^ 31)%Z.

Lemma wp_int_result {S} z Q (s : S) : (-2 ^ 31 <= z < 2 ^ 31)%Z -> Q z s -> wp (int_result z) Q s.
Proof. intros Hz HQ. unfold wp. by rewrite int_result_ok. Qed.

Lemma wp_read_precision {S} ds : forall v (s : S) Q,
  (0 <= v)%Z ->
  (forall d1 d2, ds = d1 ++ d2 -> Forall is_digit d1 -> (decimal_from v d1 < 2 ^ 31)%Z) ->
  (forall p, Q p s) -> wp (read_precision ds v) Q s.
Proof.
  induction ds as [|d ds IH]; intros v s Q Hv Hd HQ; simpl; [by apply wp_ret|].
  destruct (char_between "0" "9" d) eqn:Hc; simpl; [|by apply wp_ret].
  pose proof (digit_value_range d Hc). pose proof (Hd [d] ds eq_refl ltac:(by constructor)) as H1. simpl in H1.
  apply wp_bind, wp_int_result; [lia|]. apply IH; [lia| |done].
  intros d1 d2 -> Hd1. apply (Hd (d :: d1) d2); [done|by constructor].
Qed.

Lemma wp_read_specifier {S} spec (s : S) Q :
  (forall d1 d2, spec = "."%char :: d1 ++ d2 -> Forall is_digit d1 -> (decimal d1 < 2 ^ 31)%Z) ->
  (forall m, Q m s) -> wp (read_specifier spec) Q s.
Proof.
  intros Hd HQ. unfold read_specifier. destruct (is_conversion _); [by apply wp_ret|].
  case_decide; [|by case_decide; apply wp_ret].
  destruct (bool_decide _ && looks_at "." spec) eqn:Hl; [|by apply wp_ret].
  apply andb_prop in Hl as [_ [l ->]%looks_at_true]. simpl.
  apply wp_bind, wp_read_precision; [lia| |intros [p|]; by apply wp_ret].
  intros d1 d2 Hl Hd1. rewrite drop_0 in Hl.
  apply (Hd d1 (d2 ++ drop (length l - 1) l)); [|done].
  by rewrite app_assoc, <- Hl, take_drop.
Qed.

(** Every pass reads a character of what the format string holds. *)
Lemma wp_read_placeholder l Q :
  (forall d1 d2, l = ":"%char :: "."%char :: d1 ++ d2 -> Forall is_digit d1 -> (decimal d1 < 2 ^ 31)%Z) ->
  (forall r a l', l = a ++ l' -> Q r l') -> wp read_placeholder Q l.
Proof.
  intros Hd HQ.
  assert (forall a (x : string * ascii * Z) l', l = a ++ l' ->
     wp (closed ← gets (looks_at "}");
         if closed : bool then modify tail;; mret (inl x)
         else mret (inr "unterminated format placeholder, expected '}'")) Q l') as Hclose.
  { intros a x l' Hl. apply wp_bind, wp_gets. destruct (looks_at "}" l') eqn:Hc; [|by apply wp_ret, (HQ _ a)].
    apply looks_at_true in Hc as [l2 ->]. apply wp_bind, wp_modify, wp_ret, (HQ _ (a ++ ["}"%char])).
    by rewrite <- app_assoc. }
  unfold read_placeholder. apply wp_bind, wp_gets. destruct (looks_at ":" l) eqn:Hl; [|by apply wp_bind, wp_ret, (Hclose [])].
  apply looks_at_true in Hl as [l1 ->].
  apply wp_bind, wp_bind, wp_modify, wp_bind, wp_gets, wp_bind, wp_modify. simpl.
  destruct (before_brace l1) as [spec l2] eqn:Hb. apply before_brace_split in Hb as [-> _]. simpl.
  case_decide; [by apply wp_ret, wp_ret, (HQ _ (":"%char :: spec))|].
  apply wp_bind, wp_read_specifier; [|intros [[t p]|err]].
  - intros d1 d2 -> Hd1. by apply (Hd d1 (d2 ++ l2)); [simpl; rewrite <- app_assoc|].
  - by apply wp_ret, (Hclose (":"%char :: spec)).
  - by apply wp_ret, wp_ret, (HQ _ (":"%char :: spec)).
Qed.

Lemma decimal_from_bound ds : forall v, (0 <= v)%Z -> Forall is_digit ds ->
  (decimal_from v ds < (v + 1) * 10 ^ Z.of_nat (length ds))%Z.
Proof.
  induction ds as [|d ds IH]; intros v Hv Hds; [simpl; lia|]. apply Forall_cons in Hds as [Hd Hds].
  apply digit_value_range in Hd. change (decimal_from v (d :: ds)) with (decimal_from (v * 10 + digit_value d) ds).
  specialize (IH (v * 10 + digit_value d)%Z ltac:(lia) Hds). simpl length. rewrite Nat2Z.inj_succ, Z.pow_succ_r by lia. nia.
Qed.

(** A short format string has no room for a precision that does not fit. *)
Lemma short_precisions_fit fmt : String.length fmt <= 12 -> precisions_fit fmt.
Proof.
  intros Hs a ds b Hc Hds. apply (f_equal length) in Hc. rewrite length_chars, !length_app in Hc. simpl in Hc.
  pose proof (decimal_from_bound ds 0 ltac:(lia) Hds) as Hb. change (decimal_from 0 ds) with (decimal ds) in Hb.
  assert (10 ^ Z.of_nat (length ds) <= 10 ^ 9)%Z by (apply Z.pow_le_mono_r; lia). lia.
Qed.

Section total.
Variable fmt : string.
Hypothesis Hfit : precisions_fit fmt.
Hypothesis Hlen : (Z.of_nat (String.length fmt) < 2 ^ 31)%Z.

(** [l] is left to read, and no more placeholders than characters were read. *)
Definition at_rest (n : nat) (b : format_state) (l : list ascii) : Prop :=
  length l = n /\ exists a, chars fmt = a ++ l /\ (0 <= next_arg b <= Z.of_nat (length a))%Z.

Lemma at_rest_read a l1 l r cur k :
  chars fmt = a ++ l1 ++ l -> l1 <> [] -> (0 <= k <= Z.of_nat (length a) + 1)%Z ->
  exists n, n < length (l1 ++ l) /\ at_rest n (mkFormat r cur k) l.
Proof.
  intros Hl Hne Hk. destruct l1 as [|c l1]; [done|]. exists (length l). split; [simpl; rewrite length_app; lia|].
  split; [done|]. exists (a ++ c :: l1). rewrite <- app_assoc. split; [done|]. simpl.
  rewrite length_app. simpl. lia.
Qed.

Lemma wp_format_step n b l : at_rest n b l ->
  wp (format_step b) (fun r l' => match r with
                                  | Next b' => exists n', n' < n /\ at_rest n' b' l'
                                  | Break _ => True
                                  end) l.
Proof.
  destruct b as [r cur k]. intros (<- & a & Hl & Hk). simpl in Hk. unfold format_step. apply wp_bind, wp_gets. unfold id.
  assert (Z.of_nat (length a) + Z.of_nat (length l) < 2 ^ 31)%Z as Hsz
    by (rewrite <- length_chars, Hl, length_app in Hlen; lia).
  destruct l as [|c l]; [by apply wp_ret|].
  destruct (looks_at_two "{" (c :: l)) eqn:H2.
  { apply looks_at_two_true in H2 as [l' [= -> ->]]. apply wp_bind, wp_modify, wp_ret.
    apply (at_rest_read a ["{"; "{"]%char l'); [done..|simpl; lia]. }
  destruct (looks_at_two "}" (c :: l)) eqn:H3.
  { apply looks_at_two_true in H3 as [l' [= -> ->]]. apply wp_bind, wp_modify, wp_ret.
    apply (at_rest_read a ["}"; "}"]%char l'); [done..|simpl; lia]. }
  case_decide as Ho; [subst c|case_decide; [by apply wp_ret|]].
  - apply wp_bind, wp_int_result; [simpl in *; lia|]. apply wp_bind, wp_modify, wp_bind, wp_read_placeholder; simpl.
    + intros d1 d2 ->. by apply (Hfit a d1 d2).
    + intros [[[spec t] p]|err] l1 l' ->; apply wp_ret; [|done].
      apply (at_rest_read a ("{"%char :: l1) l'); [done..|simpl; lia].
  - apply wp_bind, wp_modify, wp_ret. apply (at_rest_read a [c] l); [done..|simpl; lia].
Qed.
End total.

(** C39. The format parser returns, with a result or an error, on every format
    string whose precisions fit an [int]: it never reads past the end and never
    goes round its loop without reading a character. *)
Theorem parse_total (fmt : string) :
  precisions_fit fmt -> (Z.of_nat (String.length fmt) < 2 ^ 31)%Z -> exists r, parse fmt = Done r.
Proof.
  intros Hp Hlen.
  destruct (wp_done _ _ _ (wp_loop (at_rest fmt) (fun _ _ => True) format_step
    (wp_format_step fmt Hp Hlen) (length (chars fmt)) (mkFormat (mkParsed [] [] "") "" 0) (chars fmt)
    (S (String.length fmt)) ltac:(split; [done|by exists []]) ltac:(rewrite length_chars; lia)))
    as (r & s & Hd & _).
  exists r. unfold parse. by rewrite Hd.
Qed.

Lemma parse_total_witness :
  precisions_fit "{:.2f} %" /\ exists r, parse "{:.2f} %" = Done r.
Proof.
  assert (precisions_fit "{:.2f} %") as Hf by (apply short_precisions_fit; vm_compute; lia).
  split; [exact Hf|]. apply parse_total; [exact Hf|done].
Defined.
