(* ===== verification/ProjectConfig.v ===== *)
(** Project files ([class ProjectConfig], [src/ProjectConfig.h],
    [src/ProjectConfig.cpp]): the reader of a [blang.toml].  A file is the text
    it holds, or nothing when it cannot be opened; what the reader writes to
    the error stream is part of its state. *)

From stdpp Require Import pretty.
From S2P Require Import Prelude.

Record Dependency := mkDependency {
  dep_name : string;
  dep_path : string;
  gitUrl : string;
  dep_tag : string;
  dep_rev : string
}.

Record DbConnConfig := mkConn {
  conn_name : string;
  conn_driver : string;
  conn_url : string
}.

Record ProjectConfig := mkConfig {
  mName : string;
  mVersion : string;
  mType : string;
  mDeps : list Dependency;
  mDbDriver : string;
  mDbUrl : string;
  mNamedDbConns : list DbConnConfig
}.

Definition ProjectConfig_new : ProjectConfig := mkConfig "" "" "bin" [] "" "" [].

Definition isLibrary (c : ProjectConfig) : bool := bool_decide (mType c = "lib").
Definition isBinary (c : ProjectConfig) : bool := bool_decide (mType c = "bin").

(** * Text *)

(** The characters [trim] removes. *)
Definition is_blank (c : ascii) : bool :=
  bool_decide (c ∈ [" "%char; tab; ascii_of_N 13; newline]).

Fixpoint drop_blanks (l : list ascii) : list ascii :=
  match l with c :: l' => if is_blank c then drop_blanks l' else l | [] => [] end.

(** From the first character that is not blank to the last one. *)
Definition trim (s : list ascii) : list ascii := reverse (drop_blanks (reverse (drop_blanks s))).

Definition unquote (s : list ascii) : list ascii :=
  let t := trim s in
  if bool_decide (2 <= length t) && bool_decide (head t = Some dquote) && bool_decide (last t = Some dquote)
  then take (length t - 2) (drop 1 t)
  else t.

(** The text before the first [stop] that is outside quotes and, where there
    is one, the text after it. *)
Fixpoint cut_unquoted (stop : ascii) (inQuote : bool) (l : list ascii) : list ascii * option (list ascii) :=
  match l with
  | [] => ([], None)
  | c :: l' =>
      if decide (c = dquote) then
        let '(a, b) := cut_unquoted stop (negb inQuote) l' in (c :: a, b)
      else if bool_decide (c = stop) && negb inQuote then ([], Some l')
      else let '(a, b) := cut_unquoted stop inQuote l' in (c :: a, b)
  end.

(** The text before and after the first [c]. *)
Fixpoint cut_at (c : ascii) (l : list ascii) : option (list ascii * list ascii) :=
  match l with
  | [] => None
  | d :: l' =>
      if decide (d = c) then Some ([], l')
      else '(a, b) ← cut_at c l'; Some (d :: a, b)
  end.

(** * Dependencies *)

Definition set_dep (key value : string) (dep : Dependency) : Dependency :=
  if decide (key = "path") then mkDependency (dep_name dep) value (gitUrl dep) (dep_tag dep) (dep_rev dep)
  else if decide (key = "git") then mkDependency (dep_name dep) (dep_path dep) value (dep_tag dep) (dep_rev dep)
  else if decide (key = "tag") then mkDependency (dep_name dep) (dep_path dep) (gitUrl dep) value (dep_rev dep)
  else if decide (key = "rev") then mkDependency (dep_name dep) (dep_path dep) (gitUrl dep) (dep_tag dep) value
  else dep.

(** One [key = value] of an inline table. *)
Definition inline_pair (item : list ascii) (dep : Dependency) : Dependency :=
  match cut_at "=" item with
  | None => dep
  | Some (key, value) => set_dep (str (trim key)) (str (unquote value)) dep
  end.

(** The loop over an inline table; [fuel] bounds the pairs by the characters. *)
Fixpoint inline_pairs (fuel : nat) (content : list ascii) (dep : Dependency) : option Dependency :=
  match content with
  | [] => Some dep
  | _ =>
      match fuel with
      | 0 => None
      | S fuel =>
          match cut_unquoted "," false content with
          | (item, Some content) => inline_pairs fuel content (inline_pair item dep)
          | (item, None) => inline_pairs fuel [] (inline_pair item dep)
          end
      end
  end.

(** The dependency that [parseInlineTable] appends to the list. *)
Definition parseInlineTable (name : string) (body : list ascii) : option Dependency :=
  inline_pairs (length body) body (mkDependency name "" "" "" "").

(** * Lines *)

(** The variables of [loadFromFile], and the lines written to [cerr]. *)
Record load_state := mkLoad {
  config : ProjectConfig;
  currentSection : string;
  lineNum : Z;
  cerr : list string
}.

Definition with_config (f : ProjectConfig -> ProjectConfig) (s : load_state) : load_state :=
  mkLoad (f (config s)) (currentSection s) (lineNum s) (cerr s).

Section load.
Variable path : string.

Definition complain (message : string) (s : load_state) : load_state :=
  mkLoad (config s) (currentSection s) (lineNum s)
    (cerr s ++ [path +:+ ":" +:+ pretty (lineNum s) +:+ ": parse error: " +:+ message]).

Definition set_project (key val : string) (c : ProjectConfig) : ProjectConfig :=
  if decide (key = "name") then mkConfig val (mVersion c) (mType c) (mDeps c) (mDbDriver c) (mDbUrl c) (mNamedDbConns c)
  else if decide (key = "version") then mkConfig (mName c) val (mType c) (mDeps c) (mDbDriver c) (mDbUrl c) (mNamedDbConns c)
  else if decide (key = "type") then mkConfig (mName c) (mVersion c) val (mDeps c) (mDbDriver c) (mDbUrl c) (mNamedDbConns c)
  else c.

Definition set_database (key val : string) (c : ProjectConfig) : ProjectConfig :=
  if decide (key = "driver") then mkConfig (mName c) (mVersion c) (mType c) (mDeps c) val (mDbUrl c) (mNamedDbConns c)
  else if decide (key = "url") then mkConfig (mName c) (mVersion c) (mType c) (mDeps c) (mDbDriver c) val (mNamedDbConns c)
  else c.

Definition set_conn (key val : string) (conn : DbConnConfig) : DbConnConfig :=
  if decide (key = "driver") then mkConn (conn_name conn) val (conn_url conn)
  else if decide (key = "url") then mkConn (conn_name conn) (conn_driver conn) val
  else conn.

(** The first connection of the name, or a new one at the end, is updated. *)
Fixpoint update_conn (connName key val : string) (conns : list DbConnConfig) : list DbConnConfig :=
  match conns with
  | [] => [set_conn key val (mkConn connName "" "")]
  | c :: conns' =>
      if decide (conn_name c = connName) then set_conn key val c :: conns'
      else c :: update_conn connName key val conns'
  end.

Definition set_named (connName key val : string) (c : ProjectConfig) : ProjectConfig :=
  mkConfig (mName c) (mVersion c) (mType c) (mDeps c) (mDbDriver c) (mDbUrl c)
    (update_conn connName key val (mNamedDbConns c)).

Definition add_dependency (dep : Dependency) (c : ProjectConfig) : ProjectConfig :=
  mkConfig (mName c) (mVersion c) (mType c) (mDeps c ++ [dep]) (mDbDriver c) (mDbUrl c) (mNamedDbConns c).

(** What [prefix] is followed by in [s]. *)
Fixpoint after_prefix (prefix s : list ascii) : option (list ascii) :=
  match prefix, s with
  | [], _ => Some s
  | p :: prefix', c :: s' => if decide (c = p) then after_prefix prefix' s' else None
  | _ :: _, [] => None
  end.

(** The text between the first ['{'] and the last ['}'] that follows it. *)
Definition braces (value : list ascii) : option (list ascii) :=
  '(_, after) ← cut_at "{" value;
  '(_, body) ← cut_at "}" (reverse after);
  Some (reverse body).

(** [key = value] in the current section; [None] when a loop exceeds its fuel. *)
Definition entry (key : string) (value : list ascii) (s : load_state) : option load_state :=
  if decide (currentSection s = "project") then
    Some (with_config (set_project key (str (unquote value))) s)
  else if decide (currentSection s = "database") then
    Some (with_config (set_database key (str (unquote value))) s)
  else
    match after_prefix (chars "database.") (chars (currentSection s)) with
    | Some connName => Some (with_config (set_named (str connName) key (str (unquote value))) s)
    | None =>
        if decide (currentSection s = "deps") then
          match braces value with
          | Some body =>
              dep ← parseInlineTable key body;
              Some (with_config (add_dependency dep) s)
          | None => Some (complain ("expected inline table for dependency '" +:+ key +:+ "'") s)
          end
        else Some s
    end.

(** One pass of the loop over the lines. *)
Definition config_line (s : load_state) (line : list ascii) : option load_state :=
  let s := mkLoad (config s) (currentSection s) (lineNum s + 1) (cerr s) in
  let line := trim (cut_unquoted "#" false line).1 in
  if decide (line = []) then Some s
  else if bool_decide (head line = Some "["%char) && bool_decide (last line = Some "]"%char) then
    Some (mkLoad (config s) (str (trim (take (length line - 2) (drop 1 line)))) (lineNum s) (cerr s))
  else
    match cut_at "=" line with
    | None => Some (complain "expected key = value" s)
    | Some (key, value) => entry (str (trim key)) (trim value) s
    end.

(** The lines [getline] delivers. *)
Fixpoint lines_of (l : list ascii) : list (list ascii) :=
  match l with
  | [] => []
  | c :: l' =>
      if decide (c = newline) then [] :: lines_of l'
      else match lines_of l' with [] => [[c]] | x :: xs => (c :: x) :: xs end
  end.

Fixpoint config_lines (s : load_state) (ls : list (list ascii)) : option load_state :=
  match ls with
  | [] => Some s
  | line :: ls' => s' ← config_line s line; config_lines s' ls'
  end.

(** The null pointer is [Some None]. *)
Definition loadFromFile (file : option (list ascii)) : option (option load_state) :=
  match file with
  | None => Some None
  | Some text => Some <$> config_lines (mkLoad ProjectConfig_new "" 0 []) (lines_of text)
  end.
End load.

(** The path [loadFromDirectory] opens. *)
Definition directory_file (dir : string) : string :=
  match last (chars dir) with
  | Some c => if decide (c = "/"%char) then dir +:+ "blang.toml" else dir +:+ "/blang.toml"
  | None => "blang.toml"
  end.

(** * Project files are read back *)

(** * The reader answers *)

Lemma cut_unquoted_shorter stop l : forall q a b,
  cut_unquoted stop q l = (a, Some b) -> length b < length l.
Proof.
  induction l as [|c l IH]; intros q a b; simpl; [done|]. case_decide.
  - destruct (cut_unquoted stop (negb q) l) as [x y] eqn:He. intros [= <- ->]. apply IH in He. lia.
  - destruct (_ && _); [intros [= <- <-]; lia|].
    destruct (cut_unquoted stop q l) as [x y] eqn:He. intros [= <- ->]. apply IH in He. lia.
Qed.

Lemma inline_pairs_total fuel : forall content dep,
  length content <= fuel -> is_Some (inline_pairs fuel content dep).
Proof.
  induction fuel as [|fuel IH]; intros [|c content] dep Hf; simpl in Hf; [done|lia|done|].
  cbn -[cut_unquoted]. destruct (cut_unquoted "," false (c :: content)) as [item [rest|]] eqn:Hc; apply IH; simpl; [|lia].
  apply cut_unquoted_shorter in Hc. simpl in Hc. lia.
Qed.

Lemma config_line_total path s line : is_Some (config_line path s line).
Proof.
  unfold config_line. case_decide; [done|]. destruct (_ && _); [done|].
  destruct (cut_at _ _) as [[key value]|]; [|done]. unfold entry.
  repeat first [case_decide; [done|] | done]. destruct (after_prefix _ _); [done|].
  case_decide; [|done]. destruct (braces _) as [body|]; [|done].
  unfold parseInlineTable. destruct (inline_pairs_total (length body) body
    (mkDependency (str (trim key)) "" "" "" "") ltac:(done)) as [dep Hd]. by rewrite Hd.
Qed.

(** The project file reader answers on every text: each line is read, and
    the loop over an inline table ends because every pass uses up text. *)
Theorem loadFromFile_total (path : string) (file : option (list ascii)) :
  is_Some (loadFromFile path file).
Proof.
  destruct file as [text|]; [|done]. unfold loadFromFile. apply fmap_is_Some.
  generalize (mkLoad ProjectConfig_new "" 0 []). induction (lines_of text) as [|line ls IH]; intros s; [done|].
  simpl. destruct (config_line_total path s line) as [s' Hs]. rewrite Hs. simpl. apply IH.
Qed.

(** * Text *)

Definition quote (v : list ascii) : list ascii := dquote :: v ++ [dquote].

(** Neither end is blank, and there is one. *)
Definition solid (l : list ascii) : Prop :=
  (exists c l', l = c :: l' /\ is_blank c = false) /\ (exists c l', l = l' ++ [c] /\ is_blank c = false).

Lemma drop_blanks_solid l : solid l -> drop_blanks l = l.
Proof. intros [(c & l' & -> & Hc) _]. simpl. by rewrite Hc. Qed.

Lemma solid_reverse l : solid l -> solid (reverse l).
Proof.
  intros [(c & l1 & -> & Hc) (d & l2 & Hl & Hd)]. split.
  - exists d, (reverse l2). split; [by rewrite Hl, reverse_snoc|done].
  - exists c, (reverse l1). split; [by rewrite reverse_cons|done].
Qed.

Lemma drop_blanks_app b l : Forall (fun c => is_blank c = true) b -> drop_blanks (b ++ l) = drop_blanks l.
Proof. induction 1 as [|c b Hc _ IH]; simpl; [done|]. by rewrite Hc. Qed.

(** Trimming finds what is solid between blanks. *)
Lemma trim_solid a l b :
  Forall (fun c => is_blank c = true) a -> Forall (fun c => is_blank c = true) b -> solid l ->
  trim (a ++ l ++ b) = l.
Proof.
  intros Ha Hb Hl. unfold trim. rewrite drop_blanks_app by done.
  assert (drop_blanks (l ++ b) = l ++ b) as -> by (destruct Hl as [(c & l' & -> & Hc) _]; simpl; by rewrite Hc).
  rewrite reverse_app, drop_blanks_app by by apply Forall_reverse.
  by rewrite drop_blanks_solid, reverse_involutive by by apply solid_reverse.
Qed.

Lemma trim_id l : solid l -> trim l = l.
Proof. intros Hl. rewrite <- (app_nil_r l) at 1. by apply (trim_solid [] l []). Qed.

Lemma solid_app a b : solid a -> solid b -> forall m, solid (a ++ m ++ b).
Proof.
  intros [(c & l1 & -> & Hc) _] [_ (d & l2 & -> & Hd)] m. split.
  - by exists c, (l1 ++ m ++ l2 ++ [d]).
  - exists d, ((c :: l1) ++ m ++ l2). by rewrite <- !app_assoc.
Qed.

Lemma solid_quote v : solid (quote v).
Proof. split; [exists dquote, (v ++ [dquote])|exists dquote, (dquote :: v)]; done. Qed.

Lemma last_quote v : last (quote v) = Some dquote.
Proof. apply (last_snoc dquote (dquote :: v)). Qed.

Lemma unquote_quote v : unquote (quote v) = v.
Proof.
  unfold unquote. rewrite trim_id by apply solid_quote. unfold quote.
  rewrite bool_decide_true by (simpl; rewrite length_app; simpl; lia).
  assert (last (dquote :: v ++ [dquote]) = Some dquote) as -> by apply last_quote. simpl.
  rewrite length_app, Nat.add_sub, drop_0. by rewrite take_app_length.
Qed.

Lemma cut_plain stop a l : dquote ∉ a -> stop ∉ a ->
  cut_unquoted stop false (a ++ l) =
  ((a ++ (cut_unquoted stop false l).1), (cut_unquoted stop false l).2).
Proof.
  induction a as [|c a IH]; intros Hd Hs; simpl; [by destruct (cut_unquoted stop false l)|].
  apply not_elem_of_cons in Hd as [Hd1 Hd], Hs as [Hs1 Hs].
  rewrite decide_False, bool_decide_false by congruence. simpl. by rewrite IH.
Qed.

Lemma cut_inside stop v l : dquote ∉ v ->
  cut_unquoted stop true (v ++ dquote :: l) =
  ((v ++ dquote :: (cut_unquoted stop false l).1), (cut_unquoted stop false l).2).
Proof.
  induction v as [|c v IH]; intros Hd; simpl; [by destruct (cut_unquoted stop false l)|].
  apply not_elem_of_cons in Hd as [Hd1 Hd].
  rewrite decide_False by congruence. rewrite andb_false_r. by rewrite IH.
Qed.

Lemma cut_quote stop v l : dquote ∉ v ->
  cut_unquoted stop false (quote v ++ l) =
  ((quote v ++ (cut_unquoted stop false l).1), (cut_unquoted stop false l).2).
Proof.
  intros Hv. unfold quote. simpl. rewrite <- !app_assoc. simpl. by rewrite cut_inside.
Qed.

Lemma cut_at_first c a b : c ∉ a -> cut_at c (a ++ c :: b) = Some (a, b).
Proof.
  induction a as [|d a IH]; intros Ha; simpl; [by rewrite decide_True|].
  apply not_elem_of_cons in Ha as [H1 Ha]. rewrite decide_False by congruence. by rewrite IH.
Qed.

(** Lines joined by newlines are delivered one by one. *)
Definition text_of (ls : list (list ascii)) : list ascii := flat_map (fun l => l ++ [newline]) ls.

Lemma lines_of_text ls : Forall (fun l => newline ∉ l) ls -> lines_of (text_of ls) = ls.
Proof.
  induction 1 as [|l ls Hl _ IH]; [done|]. change (text_of (l :: ls)) with ((l ++ [newline]) ++ text_of ls).
  rewrite <- app_assoc. simpl. revert Hl. induction l as [|c l IHl]; intros Hl; simpl; [by rewrite IH|].
  apply not_elem_of_cons in Hl as [Hc Hl]. rewrite decide_False by congruence. by rewrite IHl.
Qed.

(** * Lines *)

Definition name_ok (n : list ascii) : Prop := solid n /\ dquote ∉ n /\ "#"%char ∉ n /\ newline ∉ n.
Definition value_ok (v : list ascii) : Prop := dquote ∉ v /\ newline ∉ v.

Definition section_line (n : list ascii) : list ascii := "["%char :: n ++ ["]"%char].
Definition entry_line (k w : list ascii) : list ascii := k ++ chars " = " ++ w.

Definition next_line (s : load_state) : load_state :=
  mkLoad (config s) (currentSection s) (lineNum s + 1) (cerr s).

Lemma blank_space : is_blank " " = true.
Proof. done. Qed.

Lemma config_section path s n : name_ok n ->
  config_line path s (section_line n) =
  Some (mkLoad (config s) (str n) (lineNum s + 1) (cerr s)).
Proof.
  intros (Hn & Hd & Hh & _). unfold config_line, section_line.
  assert (cut_unquoted "#" false ("["%char :: n ++ ["]"%char]) = ("["%char :: n ++ ["]"%char], None)) as Hc.
  { change ("["%char :: n ++ ["]"%char]) with (["["%char] ++ n ++ ["]"%char]).
    rewrite cut_plain by (vm_compute; set_solver). by rewrite cut_plain. }
  rewrite Hc. cbn [fst].
  assert (solid ("["%char :: n ++ ["]"%char])) as Hs
    by (split; [by exists "["%char, (n ++ ["]"%char])|by exists "]"%char, ("["%char :: n)]).
  rewrite (trim_id _ Hs). rewrite decide_False by done.
  assert (last ("["%char :: n ++ ["]"%char]) = Some "]"%char) as -> by apply (last_snoc _ ("["%char :: n)).
  simpl. rewrite length_app, Nat.add_sub, drop_0, take_app_length. by rewrite (trim_id n Hn).
Qed.

Lemma config_entry path s k w :
  name_ok k -> "="%char ∉ k -> solid w -> last w <> Some "]"%char -> (cut_unquoted "#" false w).1 = w ->
  config_line path s (entry_line k w) = entry path (str k) w (next_line s).
Proof.
  intros (Hk & Hd & Hh & _) He Hw Hl Hc. unfold config_line, entry_line.
  rewrite cut_plain by done. cbn [fst]. rewrite (cut_plain _ (chars " = ")) by (vm_compute; set_solver). cbn [fst].
  rewrite Hc. rewrite (trim_id (k ++ _ ++ w)) by by apply solid_app.
  rewrite decide_False by (destruct Hk as [(c & k' & -> & _) _]; done).
  assert (last (k ++ chars " = " ++ w) = last w) as ->.
  { destruct Hw as [_ (c & w' & -> & _)]. by rewrite !app_assoc, !last_snoc. }
  rewrite (bool_decide_false (last w = _)) by done. rewrite andb_false_r.
  change (chars " = " ++ w) with ([" "%char] ++ "="%char :: [" "%char] ++ w). rewrite app_assoc.
  rewrite cut_at_first by (apply not_elem_of_app; split; [done|vm_compute; set_solver]).
  pose proof (trim_solid [] k [" "%char] ltac:(constructor) ltac:(by repeat constructor) Hk) as H1. simpl in H1. rewrite H1.
  pose proof (trim_solid [" "%char] w [] ltac:(by repeat constructor) ltac:(constructor) Hw) as H2.
  rewrite app_nil_r in H2. by rewrite H2.
Qed.

Lemma config_quoted path s k v :
  name_ok k -> "="%char ∉ k -> dquote ∉ v ->
  config_line path s (entry_line k (quote v)) = entry path (str k) (quote v) (next_line s).
Proof.
  intros Hk He Hv. apply config_entry; [done..|apply solid_quote| |].
  - by rewrite last_quote.
  - pose proof (cut_quote "#" v [] Hv) as H. rewrite app_nil_r in H. rewrite H. simpl. by rewrite app_nil_r.
Qed.

(** * A configuration written out *)

Definition entry_of (k v : string) : list ascii := entry_line (chars k) (quote (chars v)).

(** The fields of a dependency between its braces, and between the commas. *)
Definition dep_body (d : Dependency) : list ascii :=
  [" "%char] ++ entry_of "path" (dep_path d) ++ ","%char ::
  [" "%char] ++ entry_of "git" (gitUrl d) ++ ","%char ::
  [" "%char] ++ entry_of "tag" (dep_tag d) ++ ","%char ::
  [" "%char] ++ entry_of "rev" (dep_rev d) ++ [" "%char].

Definition dep_line (d : Dependency) : list ascii :=
  entry_line (chars (dep_name d)) ("{"%char :: dep_body d ++ ["}"%char]).

Definition conn_lines (c : DbConnConfig) : list (list ascii) :=
  [section_line (chars "database." ++ chars (conn_name c));
   entry_of "driver" (conn_driver c); entry_of "url" (conn_url c)].

Definition project_lines (c : ProjectConfig) : list (list ascii) :=
  [section_line (chars "project"); entry_of "name" (mName c);
   entry_of "version" (mVersion c); entry_of "type" (mType c)] ++
  [section_line (chars "database"); entry_of "driver" (mDbDriver c); entry_of "url" (mDbUrl c)] ++
  flat_map conn_lines (mNamedDbConns c) ++
  [section_line (chars "deps")] ++ map dep_line (mDeps c).

(** Values without quotes or line ends; names that trimming and the comment
    sign leave alone, distinct among the connections. *)
Definition config_ok (c : ProjectConfig) : Prop :=
  Forall (fun v => value_ok (chars v)) [mName c; mVersion c; mType c; mDbDriver c; mDbUrl c] /\
  Forall (fun d => name_ok (chars (conn_name d)) /\
            Forall (fun v => value_ok (chars v)) [conn_driver d; conn_url d]) (mNamedDbConns c) /\
  NoDup (map conn_name (mNamedDbConns c)) /\
  Forall (fun d => name_ok (chars (dep_name d)) /\ "="%char ∉ chars (dep_name d) /\
            Forall (fun v => value_ok (chars v)) [dep_path d; gitUrl d; dep_tag d; dep_rev d]) (mDeps c).

Lemma inline_pair_quoted k v b dep :
  solid k -> "="%char ∉ k -> Forall (fun c => is_blank c = true) b ->
  inline_pair ([" "%char] ++ entry_line k (quote v) ++ b) dep = set_dep (str k) (str v) dep.
Proof.
  intros Hk He Hb. unfold inline_pair, entry_line.
  assert ([" "%char] ++ (k ++ chars " = " ++ quote v) ++ b =
    ([" "%char] ++ k ++ [" "%char]) ++ "="%char :: [" "%char] ++ quote v ++ b) as ->.
  { rewrite <- !app_assoc. done. }
  rewrite cut_at_first by (rewrite !elem_of_app; vm_compute; set_solver).
  rewrite (trim_solid [" "%char] k [" "%char]) by (done || by repeat constructor).
  assert (unquote ([" "%char] ++ quote v ++ b) = unquote (quote v)) as ->.
  { unfold unquote. rewrite (trim_solid [" "%char] (quote v) b) by (done || apply solid_quote || by repeat constructor).
    by rewrite (trim_id (quote v)) by apply solid_quote. }
  by rewrite unquote_quote.
Qed.

Lemma inline_pairs_S fuel content dep : content <> [] ->
  inline_pairs (S fuel) content dep =
  inline_pairs fuel (default [] (cut_unquoted "," false content).2)
    (inline_pair (cut_unquoted "," false content).1 dep).
Proof.
  intros Hc. destruct content as [|c content]; [done|]. cbn -[cut_unquoted].
  by destruct (cut_unquoted "," false (c :: content)) as [item [rest|]].
Qed.

(** One field of an inline table is cut out and stored. *)
Lemma inline_pairs_field fuel k v rest dep :
  solid k -> dquote ∉ k -> "="%char ∉ k -> ","%char ∉ k -> dquote ∉ v ->
  inline_pairs (S fuel) ([" "%char] ++ entry_line k (quote v) ++ ","%char :: rest) dep =
    inline_pairs fuel rest (set_dep (str k) (str v) dep) /\
  inline_pairs (S fuel) ([" "%char] ++ entry_line k (quote v) ++ [" "%char]) dep =
    inline_pairs fuel [] (set_dep (str k) (str v) dep).
Proof.
  intros Hk Hd He Hc Hv.
  assert (forall l, cut_unquoted "," false ([" "%char] ++ entry_line k (quote v) ++ l) =
    ([" "%char] ++ entry_line k (quote v) ++ (cut_unquoted "," false l).1, (cut_unquoted "," false l).2)) as Hcut.
  { intros l. unfold entry_line. rewrite cut_plain by (vm_compute; set_solver).
    rewrite <- app_assoc, cut_plain by done. rewrite <- app_assoc, (cut_plain _ (chars " = ")) by (vm_compute; set_solver).
    rewrite cut_quote by done. cbn [fst snd]. by rewrite <- !app_assoc. }
  split; (rewrite inline_pairs_S by done); rewrite Hcut; cbn [fst snd];
    (rewrite inline_pair_quoted by (done || by repeat constructor)); done.
Qed.

Definition solidb (l : list ascii) : bool :=
  match head l, last l with
  | Some c, Some d => negb (is_blank c) && negb (is_blank d)
  | _, _ => false
  end.

Lemma solidb_solid l : solidb l = true -> solid l.
Proof.
  unfold solidb. destruct (head l) as [c|] eqn:Hh; [|done]. destruct (last l) as [d|] eqn:Hl; [|done].
  intros [Hc%negb_true_iff Hd%negb_true_iff]%andb_prop. split.
  - destruct l as [|x l]; [done|]. injection Hh as ->. by exists c, l.
  - apply last_Some in Hl as [l' ->]. by exists d, l'.
Qed.

(** The keys the reader knows. *)
Definition plain_key (k : string) : bool :=
  solidb (chars k) &&
  bool_decide (Forall (fun c => c <> dquote /\ c <> "#"%char /\ c <> newline /\ c <> "="%char /\ c <> ","%char) (chars k)).

Lemma plain_key_ok k : plain_key k = true ->
  name_ok (chars k) /\ "="%char ∉ chars k /\ ","%char ∉ chars k.
Proof.
  intros [Hs%solidb_solid Hf%bool_decide_eq_true]%andb_prop.
  assert (forall x, (forall c, In c (chars k) -> c <> x) -> x ∉ chars k) as Hx
    by (intros x Hc Hin%list_elem_of_In; by apply (Hc x)).
  rewrite List.Forall_forall in Hf. unfold name_ok. split_and!; [done|apply Hx..]; intros c Hc; by apply Hf in Hc as (?&?&?&?&?).
Qed.

(** A field whose key the reader knows. *)
Lemma inline_pairs_known fuel (k v : string) rest dep :
  plain_key k = true -> value_ok (chars v) ->
  inline_pairs (S fuel) ([" "%char] ++ entry_of k v ++ ","%char :: rest) dep =
    inline_pairs fuel rest (set_dep k v dep) /\
  inline_pairs (S fuel) ([" "%char] ++ entry_of k v ++ [" "%char]) dep =
    inline_pairs fuel [] (set_dep k v dep).
Proof.
  intros ((Hs & Hd & _) & He & Hc)%plain_key_ok [Hv _].
  pose proof (inline_pairs_field fuel (chars k) (chars v) rest dep Hs Hd He Hc Hv) as H.
  by rewrite !str_chars in H.
Qed.

Lemma parse_dep_body d :
  Forall (fun v => value_ok (chars v)) [dep_path d; gitUrl d; dep_tag d; dep_rev d] ->
  parseInlineTable (dep_name d) (dep_body d) = Some d.
Proof.
  rewrite !Forall_cons. intros (Hp & Hg & Ht & Hr & _). unfold parseInlineTable.
  assert (exists n, length (dep_body d) = S (S (S (S n)))) as [n ->]
    by (exists (length (dep_body d) - 4); unfold dep_body; rewrite !length_app; simpl; rewrite !length_app; simpl;
        rewrite !length_app; simpl; lia).
  unfold dep_body.
  rewrite (proj1 (inline_pairs_known _ "path" _ _ _ eq_refl Hp)), (proj1 (inline_pairs_known _ "git" _ _ _ eq_refl Hg)),
    (proj1 (inline_pairs_known _ "tag" _ _ _ eq_refl Ht)), (proj2 (inline_pairs_known _ "rev" _ [] _ eq_refl Hr)).
  destruct d; by destruct n.
Qed.

(** * Reading the lines back *)

Section reading.
Variable path : string.

(** From the configuration [c] in section [sec], the lines [ls] lead to [c'] in
    section [sec'] without a complaint. *)
Definition leads (ls : list (list ascii)) (c : ProjectConfig) (sec : string) (c' : ProjectConfig) (sec' : string) : Prop :=
  forall n, exists n', config_lines path (mkLoad c sec n []) ls = Some (mkLoad c' sec' n' []).

Lemma leads_nil c sec : leads [] c sec c sec.
Proof. intros n. by exists n. Qed.

Lemma leads_app l1 l2 c1 s1 c2 s2 c3 s3 :
  leads l1 c1 s1 c2 s2 -> leads l2 c2 s2 c3 s3 -> leads (l1 ++ l2) c1 s1 c3 s3.
Proof.
  intros H1 H2 n. destruct (H1 n) as [n1 E1]. destruct (H2 n1) as [n2 E2]. exists n2.
  rewrite <- E2. clear E2 H1 H2. revert E1. generalize (mkLoad c1 s1 n []).
  induction l1 as [|l l1 IH]; intros s; simpl; [by intros [= ->]|].
  destruct (config_line path s l) as [s'|]; [apply IH|done].
Qed.

Lemma leads_cons l ls c1 s1 c2 s2 c3 s3 :
  leads [l] c1 s1 c2 s2 -> leads ls c2 s2 c3 s3 -> leads (l :: ls) c1 s1 c3 s3.
Proof. apply (leads_app [l]). Qed.

Lemma leads_line l c1 s1 c2 s2 :
  (forall n, config_line path (mkLoad c1 s1 n []) l = Some (mkLoad c2 s2 (n + 1) [])) -> leads [l] c1 s1 c2 s2.
Proof. intros H n. exists (n + 1)%Z. simpl. by rewrite H. Qed.

Lemma leads_section (n : list ascii) c s : name_ok n -> leads [section_line n] c s c (str n).
Proof. intros Hn. apply leads_line. intros k. by rewrite config_section. Qed.

(** An entry with a quoted value leads where [entry] says. *)
Lemma leads_entry k v c s c' :
  plain_key k = true -> value_ok (chars v) ->
  (forall n, entry path k (quote (chars v)) (mkLoad c s n []) = Some (mkLoad c' s n [])) ->
  leads [entry_of k v] c s c' s.
Proof.
  intros (Hk & He & _)%plain_key_ok [Hv _] H. apply leads_line. intros n. unfold entry_of.
  rewrite config_quoted by done. rewrite str_chars. apply H.
Qed.

Definition conn_section (name : string) : string := "database." +:+ name.

Lemma entry_project k v c n :
  entry path k (quote (chars v)) (mkLoad c "project" n []) = Some (mkLoad (set_project k v c) "project" n []).
Proof. unfold entry. simpl. by rewrite unquote_quote, str_chars. Qed.

Lemma entry_database k v c n :
  entry path k (quote (chars v)) (mkLoad c "database" n []) = Some (mkLoad (set_database k v c) "database" n []).
Proof. unfold entry. simpl. by rewrite unquote_quote, str_chars. Qed.

Lemma after_prefix_app p l : after_prefix p (p ++ l) = Some l.
Proof. induction p as [|c p IH]; [by destruct l|]. simpl. by rewrite decide_True. Qed.

Lemma entry_conn name k v c n :
  entry path k (quote (chars v)) (mkLoad c (conn_section name) n []) =
  Some (mkLoad (set_named name k v c) (conn_section name) n []).
Proof.
  unfold entry. cbn [currentSection].
  assert (forall s, conn_section name = s -> chars "database." ++ chars name = chars s) as Hs
    by (intros s <-; unfold conn_section; by rewrite chars_app).
  rewrite decide_False by (intros H; by apply Hs in H).
  rewrite decide_False by (intros H; by apply Hs in H).
  rewrite <- (Hs _ eq_refl), after_prefix_app. by rewrite unquote_quote, !str_chars.
Qed.

Lemma update_conn_new name k v l : name ∉ map conn_name l ->
  update_conn name k v l = l ++ [set_conn k v (mkConn name "" "")].
Proof.
  induction l as [|d l IH]; [done|]. simpl. intros [H1 H2]%not_elem_of_cons.
  rewrite decide_False by congruence. by rewrite IH.
Qed.

Lemma update_conn_last k v l d : conn_name d ∉ map conn_name l ->
  update_conn (conn_name d) k v (l ++ [d]) = l ++ [set_conn k v d].
Proof.
  induction l as [|e l IH]; simpl; [by rewrite decide_True|]. intros [H1 H2]%not_elem_of_cons.
  rewrite decide_False by congruence. by rewrite IH.
Qed.

Lemma value_oks v1 v2 : Forall (fun v => value_ok (chars v)) [v1; v2] -> value_ok (chars v1) /\ value_ok (chars v2).
Proof. rewrite !Forall_cons. tauto. Qed.

Lemma leads_conn d c s :
  conn_name d ∉ map conn_name (mNamedDbConns c) -> name_ok (chars (conn_name d)) ->
  Forall (fun v => value_ok (chars v)) [conn_driver d; conn_url d] ->
  leads (conn_lines d) c s
    (mkConfig (mName c) (mVersion c) (mType c) (mDeps c) (mDbDriver c) (mDbUrl c) (mNamedDbConns c ++ [d]))
    (conn_section (conn_name d)).
Proof.
  intros Hn (Hs & Hq & Hh & Hnl) [Hd Hu]%value_oks.
  assert (name_ok (chars "database." ++ chars (conn_name d))) as Hname.
  { pose proof (solidb_solid (chars "database.") eq_refl) as Hp. split_and!.
    - exact (solid_app _ _ Hp Hs []).
    - apply not_elem_of_app. split; [vm_compute; set_solver|done].
    - apply not_elem_of_app. split; [vm_compute; set_solver|done].
    - apply not_elem_of_app. split; [vm_compute; set_solver|done]. }
  eapply leads_cons; [by apply leads_section|]. rewrite <- chars_app, str_chars.
  eapply leads_cons; [apply leads_entry; [done..|intros n; apply entry_conn]|].
  eapply leads_entry; [done..|]. intros n. rewrite entry_conn. do 2 f_equal. unfold set_named. cbn -[update_conn].
  rewrite (update_conn_new _ "driver") by done.
  pose proof (update_conn_last "url" (conn_url d) (mNamedDbConns c) (mkConn (conn_name d) (conn_driver d) "") Hn) as H.
  change (set_conn "driver" (conn_driver d) (mkConn (conn_name d) "" "")) with (mkConn (conn_name d) (conn_driver d) "").
  cbn [conn_name] in H. rewrite H. by destruct d.
Qed.

Lemma leads_conns ds : forall c s,
  NoDup (map conn_name (mNamedDbConns c ++ ds)) ->
  Forall (fun d => name_ok (chars (conn_name d)) /\
            Forall (fun v => value_ok (chars v)) [conn_driver d; conn_url d]) ds ->
  exists s', leads (flat_map conn_lines ds) c s
    (mkConfig (mName c) (mVersion c) (mType c) (mDeps c) (mDbDriver c) (mDbUrl c) (mNamedDbConns c ++ ds)) s'.
Proof.
  induction ds as [|d ds IH]; intros c s Hnd Hok.
  { exists s. rewrite app_nil_r. destruct c. apply leads_nil. }
  apply Forall_cons in Hok as [[Hn Hv] Hok]. rewrite map_app in Hnd. apply NoDup_app in Hnd as Hd.
  destruct Hd as (_ & Hd & _).
  set (c1 := mkConfig (mName c) (mVersion c) (mType c) (mDeps c) (mDbDriver c) (mDbUrl c) (mNamedDbConns c ++ [d])).
  destruct (IH c1 (conn_section (conn_name d))) as [s' Hs']; [|done|].
  { cbn. by rewrite <- app_assoc, map_app. }
  exists s'. cbn [flat_map]. eapply leads_app; [apply leads_conn; [|done..]|].
  - intros Hin. apply (Hd _ Hin). left.
  - cbn in Hs'. by rewrite <- app_assoc in Hs'.
Qed.

(** The text between the braces of a dependency is found again. *)
Lemma braces_around body : braces ("{"%char :: body ++ ["}"%char]) = Some body.
Proof. unfold braces. simpl. rewrite reverse_snoc. simpl. by rewrite reverse_involutive. Qed.

Lemma entry_of_cut k v : plain_key k = true -> value_ok (chars v) -> forall l,
  (cut_unquoted "#" false (entry_of k v ++ l)).1 = entry_of k v ++ (cut_unquoted "#" false l).1.
Proof.
  intros ((_ & Hd & Hh & _) & _ & _)%plain_key_ok [Hv _] l. unfold entry_of, entry_line.
  rewrite <- app_assoc, cut_plain by done. cbn [fst]. rewrite <- app_assoc, (cut_plain _ (chars " = ")) by (vm_compute; set_solver).
  cbn [fst]. rewrite cut_quote by done. cbn [fst]. by rewrite <- !app_assoc.
Qed.

Lemma cut_hash_plain a l : dquote ∉ a -> "#"%char ∉ a ->
  (cut_unquoted "#" false (a ++ l)).1 = a ++ (cut_unquoted "#" false l).1.
Proof. intros. by rewrite cut_plain. Qed.

Lemma dep_value_cut d : Forall (fun v => value_ok (chars v)) [dep_path d; gitUrl d; dep_tag d; dep_rev d] ->
  (cut_unquoted "#" false ("{"%char :: dep_body d ++ ["}"%char])).1 = "{"%char :: dep_body d ++ ["}"%char].
Proof.
  rewrite !Forall_cons. intros (Hp & Hg & Ht & Hr & _).
  assert ("{"%char :: dep_body d ++ ["}"%char] =
    chars "{ " ++ entry_of "path" (dep_path d) ++ chars ", " ++ entry_of "git" (gitUrl d) ++
    chars ", " ++ entry_of "tag" (dep_tag d) ++ chars ", " ++ entry_of "rev" (dep_rev d) ++ chars " }") as ->.
  { change (chars "{ ") with ["{"; " "]%char. change (chars ", ") with [","; " "]%char.
    change (chars " }") with [" "; "}"]%char. unfold dep_body. by repeat (rewrite <- ?app_assoc; cbn [app]). }
  rewrite (cut_hash_plain (chars "{ ")) by (vm_compute; set_solver).
  rewrite (entry_of_cut "path") by done. rewrite (cut_hash_plain (chars ", ")) by (vm_compute; set_solver).
  rewrite (entry_of_cut "git") by done. rewrite (cut_hash_plain (chars ", ")) by (vm_compute; set_solver).
  rewrite (entry_of_cut "tag") by done. rewrite (cut_hash_plain (chars ", ")) by (vm_compute; set_solver).
  by rewrite (entry_of_cut "rev").
Qed.

Lemma entry_deps k w c n :
  entry path k w (mkLoad c "deps" n []) =
  match braces w with
  | Some body => dep ← parseInlineTable k body; Some (mkLoad (add_dependency dep c) "deps" n [])
  | None => Some (complain path ("expected inline table for dependency '" +:+ k +:+ "'") (mkLoad c "deps" n []))
  end.
Proof. done. Qed.

Lemma leads_dep d c :
  name_ok (chars (dep_name d)) -> "="%char ∉ chars (dep_name d) ->
  Forall (fun v => value_ok (chars v)) [dep_path d; gitUrl d; dep_tag d; dep_rev d] ->
  leads [dep_line d] c "deps" (add_dependency d c) "deps".
Proof.
  intros Hn He Hv. apply leads_line. intros n. unfold dep_line. rewrite config_entry; [|done|done| | |by apply dep_value_cut].
  - unfold next_line. cbn [config currentSection lineNum cerr].
    by rewrite entry_deps, braces_around, str_chars, (parse_dep_body d Hv).
  - split; [by exists "{"%char, (dep_body d ++ ["}"%char])|by exists "}"%char, ("{"%char :: dep_body d)].
  - assert (last ("{"%char :: dep_body d ++ ["}"%char]) = Some "}"%char) as -> by apply (last_snoc _ ("{"%char :: dep_body d)).
    done.
Qed.

Lemma leads_deps ds : forall c,
  Forall (fun d => name_ok (chars (dep_name d)) /\ "="%char ∉ chars (dep_name d) /\
            Forall (fun v => value_ok (chars v)) [dep_path d; gitUrl d; dep_tag d; dep_rev d]) ds ->
  leads (map dep_line ds) c "deps"
    (mkConfig (mName c) (mVersion c) (mType c) (mDeps c ++ ds) (mDbDriver c) (mDbUrl c) (mNamedDbConns c)) "deps".
Proof.
  induction ds as [|d ds IH]; intros c Hok; cbn [map].
  { rewrite app_nil_r. destruct c. apply leads_nil. }
  apply Forall_cons in Hok as [(Hn & He & Hv) Hok]. eapply leads_cons; [by apply leads_dep|].
  pose proof (IH (add_dependency d c) Hok) as H. cbn in H. by rewrite <- app_assoc in H.
Qed.
End reading.

(** * The file as a whole *)

Definition one_line (l : list ascii) : Prop := newline ∉ l.

Lemma one_line_app a b : one_line a -> one_line b -> one_line (a ++ b).
Proof. unfold one_line. rewrite elem_of_app. tauto. Qed.

Lemma one_line_cons c a : c <> newline -> one_line a -> one_line (c :: a).
Proof. unfold one_line. rewrite elem_of_cons. intros ? ? [?|?]; congruence. Qed.

Lemma one_line_nil : one_line [].
Proof. apply not_elem_of_nil. Qed.

Lemma one_line_entry k v : plain_key k = true -> value_ok (chars v) -> one_line (entry_of k v).
Proof.
  intros ((_ & _ & _ & Hk) & _)%plain_key_ok [_ Hv]. unfold entry_of, entry_line, quote.
  apply one_line_app; [done|]. apply one_line_app; [unfold one_line; vm_compute; set_solver|].
  apply one_line_cons; [done|]. apply one_line_app; [done|]. by apply one_line_cons, one_line_nil.
Qed.

Lemma one_line_section n : one_line n -> one_line (section_line n).
Proof. intros Hn. apply one_line_cons; [done|]. apply one_line_app; [done|]. by apply one_line_cons, one_line_nil. Qed.

Hint Resolve one_line_app one_line_cons one_line_nil one_line_entry one_line_section : blang.

Lemma one_line_dep d : name_ok (chars (dep_name d)) ->
  Forall (fun v => value_ok (chars v)) [dep_path d; gitUrl d; dep_tag d; dep_rev d] -> one_line (dep_line d).
Proof.
  rewrite !Forall_cons. intros (_ & _ & _ & Hn) (Hp & Hg & Ht & Hr & _).
  assert (one_line (chars " = ")) by (unfold one_line; vm_compute; set_solver).
  assert (forall k, plain_key k = true -> forall v, value_ok (chars v) -> one_line (entry_of k v)) as He by auto with blang.
  unfold dep_line, entry_line, dep_body. cbn [app].
  repeat first [done | apply He; [done|done] | apply one_line_app | apply one_line_cons; [done|] | apply one_line_nil].
Qed.

Lemma project_lines_one_line c : config_ok c -> Forall one_line (project_lines c).
Proof.
  intros (Hv & Hc & _ & Hd). rewrite !Forall_cons in Hv. destruct Hv as (H1 & H2 & H3 & H4 & H5 & _).
  assert (forall s, bool_decide (newline ∉ chars s) = true -> one_line (chars s)) as Hs by (intros s ?%bool_decide_eq_true; done).
  unfold project_lines. repeat apply Forall_app_2; repeat (apply Forall_cons; split); try apply Forall_nil_2;
    try (apply one_line_entry; done); try (apply one_line_section, Hs; done).
  - apply Forall_flat_map. eapply Forall_impl; [exact Hc|]. intros d [(_ & _ & _ & Hn) [Hd1 Hd2]%value_oks].
    repeat (apply Forall_cons; split); [|by apply one_line_entry..|apply Forall_nil_2].
    apply one_line_section, one_line_app; [by apply Hs|done].
  - apply Forall_fmap. eapply Forall_impl; [exact Hd|]. intros d (Hn & _ & Hw). by apply one_line_dep.
Qed.

(** C40. A configuration written out as a project file, with quoted values, is
    read back exactly as it was, and the reader complains about nothing, also
    when a value holds commas, braces, number signs or equals signs. *)
Theorem project_file_roundtrip (path : string) (c : ProjectConfig) :
  config_ok c ->
  exists n, loadFromFile path (Some (text_of (project_lines c))) = Some (Some (mkLoad c "deps" n [])).
Proof.
  intros Hok. unfold loadFromFile. rewrite lines_of_text by by apply project_lines_one_line.
  destruct Hok as (Hv & Hc & Hnd & Hd). rewrite !Forall_cons in Hv. destruct Hv as (H1 & H2 & H3 & H4 & H5 & _).
  assert (forall k, plain_key k = true -> name_ok (chars k)) as Hk by (intros k H; by apply plain_key_ok in H as [H _]).
  set (c0 := mkConfig (mName c) (mVersion c) (mType c) [] (mDbDriver c) (mDbUrl c) []).
  destruct (leads_conns path (mNamedDbConns c) c0 "database" Hnd Hc) as [s Hs].
  assert (leads path (project_lines c) ProjectConfig_new "" c "deps") as Hl.
  { unfold project_lines. eapply leads_app; [|eapply leads_app; [|eapply leads_app; [exact Hs|]]].
    - eapply leads_cons; [by apply leads_section, Hk|].
      do 2 (eapply leads_cons; [apply leads_entry; [done..|intros n; apply entry_project]|]).
      apply leads_entry; [done..|intros n; apply entry_project].
    - eapply leads_cons; [by apply leads_section, Hk|].
      eapply leads_cons; [apply leads_entry; [done..|intros n; apply entry_database]|].
      apply leads_entry; [done..|intros n; apply entry_database].
    - eapply leads_app; [by apply leads_section, Hk|]. pose proof (leads_deps path (mDeps c)
        (mkConfig (mName c) (mVersion c) (mType c) [] (mDbDriver c) (mDbUrl c) (mNamedDbConns c)) Hd) as Hds.
      cbn in Hds. by destruct c. }
  destruct (Hl 0%Z) as [n Hn]. exists n. by rewrite Hn.
Qed.

Definition sample_config : ProjectConfig :=
  mkConfig "demo" "1.0" "lib" [mkDependency "net" "../a,b}={#" "" "v1" ""] "sqlite" "env:DB"
    [mkConn "log" "postgres" "host=x"; mkConn "aux" "" ""].

Lemma project_file_roundtrip_witness :
  config_ok sample_config /\
  exists n, loadFromFile "blang.toml" (Some (text_of (project_lines sample_config))) =
    Some (Some (mkLoad sample_config "deps" n [])).
Proof.
  assert (config_ok sample_config) as Hok.
  { assert (forall s, bool_decide (dquote ∉ chars s /\ newline ∉ chars s) = true -> value_ok (chars s)) as Hv
      by (intros s ?%bool_decide_eq_true; done).
    assert (forall k, plain_key k = true -> name_ok (chars k)) as Hk by (intros k H; by apply plain_key_ok in H as [H _]).
    unfold config_ok, sample_config. cbn. split_and!; repeat (apply Forall_cons; split_and!);
      try apply Forall_nil_2; try (by apply Hv); try (by apply Hk).
    - apply (bool_decide_unpack (NoDup ["log"; "aux"])). vm_compute. exact I.
    - apply (bool_decide_unpack ("="%char ∉ chars "net")). vm_compute. exact I. }
  split; [exact Hok|]. exact (project_file_roundtrip "blang.toml" sample_config Hok).
Defined.
