(* ===== verification/Migration.v ===== *)
(** Schema migration ([class SchemaMigration], [src/SchemaMigration.h],
    [src/SchemaMigration.cpp]): the schema file, the difference of two schemas
    and the SQL that carries it out.  A file is the string it holds, or nothing
    when it cannot be opened. *)

From S2P Require Import Prelude SourceLocation Ast SQLGen.

Record SchemaField := mkField {
  field_name : string;
  field_type : string
}.

Record SchemaTable := mkTable {
  table_name : string;
  table_fields : list SchemaField
}.

(** The members of [class SchemaMigration]. *)
Record SchemaMigration := mkMigration {
  mStoredSchema : list SchemaTable;
  mCurrentSchema : list SchemaTable
}.

(** * Reading a schema file

    The state is the text from [pos] on. *)
Notation reader := (run (list ascii)).

Fixpoint drop_spaces (l : list ascii) : list ascii :=
  match l with c :: l' => if isspace c then drop_spaces l' else l | [] => [] end.

Definition skipWs : reader unit := modify drop_spaces.

(** [pos < content.size() && content[pos] == c]. *)
Definition at_char (c : ascii) (l : list ascii) : bool :=
  match l with d :: _ => bool_decide (d = c) | [] => false end.

Definition expectChar (c : ascii) : reader bool :=
  skipWs;;
  found ← gets (at_char c);
  if found : bool then modify tail;; mret true else mret false.

(** The characters of a string and what follows its closing quote. *)
Fixpoint read_string (l : list ascii) : list ascii * list ascii :=
  match l with
  | [] => ([], [])
  | c :: l' =>
      if decide (c = dquote) then ([], l')
      else if decide (c = backslash) then
        match l' with
        | [] => ([], [])
        | d :: l'' => let '(r, rest) := read_string l'' in (d :: r, rest)
        end
      else let '(r, rest) := read_string l' in (c :: r, rest)
  end.

Definition parseString : reader string :=
  skipWs;;
  found ← gets (at_char dquote);
  if found : bool then
    modify tail;;
    r ← gets read_string;
    modify (fun _ => r.2);;
    mret (str r.1)
  else mret "".

(** [if ( pos < content.size() && content[pos] == ',' ) pos++]. *)
Definition skip_comma : reader unit :=
  skipWs;;
  found ← gets (at_char ",");
  if found : bool then modify tail else mret tt.

#[global] Arguments expectChar : simpl never.
#[global] Arguments parseString : simpl never.
#[global] Arguments skip_comma : simpl never.

(** [pos < content.size() && content[pos] != c], a loop's condition. *)
Definition before (c : ascii) (l : list ascii) : bool :=
  match l with d :: _ => bool_decide (d <> c) | [] => false end.

(** [return false] leaves a loop with [None]. *)
Definition field_member (field : SchemaField) : reader (loop_step SchemaField (option SchemaField)) :=
  more ← gets (before "}");
  if negb more then mret (Break (Some field))
  else
    skipWs;;
    fk ← parseString;
    colon ← expectChar ":";
    if negb colon then mret (Break None)
    else
      fv ← parseString;
      skip_comma;;
      mret (Next (if decide (fk = "name") then mkField fv (field_type field)
                  else if decide (fk = "type") then mkField (field_name field) fv
                  else field)).

Section parser.
Variable fuel : nat.

Definition field_object (fields : list SchemaField) :
  reader (loop_step (list SchemaField) (option (list SchemaField))) :=
  more ← gets (before "]");
  if negb more then mret (Break (Some fields))
  else
    brace ← expectChar "{";
    if negb brace then mret (Break None)
    else
      field ← loop fuel field_member (mkField "" "");
      match field with
      | None => mret (Break None)
      | Some field => expectChar "}";; skip_comma;; mret (Next (fields ++ [field]))
      end.

Definition table_member (table : SchemaTable) : reader (loop_step SchemaTable (option SchemaTable)) :=
  more ← gets (before "}");
  if negb more then mret (Break (Some table))
  else
    skipWs;;
    fieldKey ← parseString;
    colon ← expectChar ":";
    if negb colon then mret (Break None)
    else if decide (fieldKey = "name") then
      name ← parseString; skip_comma;; mret (Next (mkTable name (table_fields table)))
    else if decide (fieldKey = "fields") then
      bracket ← expectChar "[";
      if negb bracket then mret (Break None)
      else
        skipWs;;
        fields ← loop fuel field_object (table_fields table);
        match fields with
        | None => mret (Break None)
        | Some fields =>
            expectChar "]";; skip_comma;; mret (Next (mkTable (table_name table) fields))
        end
    else skip_comma;; mret (Next table).

(** The second component is what [out] holds when the loop is left. *)
Definition table_object (out : list SchemaTable) :
  reader (loop_step (list SchemaTable) (bool * list SchemaTable)) :=
  more ← gets (before "]");
  if negb more then mret (Break (true, out))
  else
    brace ← expectChar "{";
    if negb brace then mret (Break (false, out))
    else
      table ← loop fuel table_member (mkTable "" []);
      match table with
      | None => mret (Break (false, out))
      | Some table => expectChar "}";; skip_comma;; mret (Next (out ++ [table]))
      end.

Definition schema_file : reader (bool * list SchemaTable) :=
  brace ← expectChar "{";
  if negb brace then mret (false, [])
  else
    key ← parseString;
    if decide (key <> "tables") then mret (false, [])
    else
      colon ← expectChar ":";
      if negb colon then mret (false, [])
      else
        bracket ← expectChar "[";
        if negb bracket then mret (false, [])
        else skipWs;; loop fuel table_object [].
End parser.

(** [parseSchemaFile]: the verdict and [out].  Every pass through a loop reads a
    character, so that the length of the text bounds the passes. *)
Definition parseSchemaFile (content : option string) : outcome (bool * list SchemaTable) :=
  match content with
  | None => Done (true, [])
  | Some content =>
      match schema_file (S (String.length content)) (chars content) with
      | Done (r, _) => Done r
      | UndefinedBehaviour => UndefinedBehaviour
      | OutOfFuel => OutOfFuel
      end
  end.

Definition loadSchema (content : option string) (m : SchemaMigration) : outcome (bool * SchemaMigration) :=
  match parseSchemaFile content with
  | Done (ok, out) => Done (ok, mkMigration out (mCurrentSchema m))
  | UndefinedBehaviour => UndefinedBehaviour
  | OutOfFuel => OutOfFuel
  end.

Definition loadCurrentSchema (content : option string) (m : SchemaMigration) :
  outcome (bool * SchemaMigration) :=
  match parseSchemaFile content with
  | Done (ok, out) => Done (ok, mkMigration (mStoredSchema m) out)
  | UndefinedBehaviour => UndefinedBehaviour
  | OutOfFuel => OutOfFuel
  end.

(** * Writing a schema file *)

Definition quoted (s : string) : string := String dquote (s +:+ String dquote "").
#[global] Arguments quoted : simpl never.
Definition line : string := String newline "".

Fixpoint separated (sep : string) (l : list string) : string :=
  match l with
  | [] => ""
  | [x] => x
  | x :: l' => x +:+ sep +:+ separated sep l'
  end.

Definition save_field (f : SchemaField) : string :=
  "        { " +:+ quoted "name" +:+ ": " +:+ quoted (field_name f) +:+ ", " +:+
  quoted "type" +:+ ": " +:+ quoted (field_type f) +:+ " }".

Definition save_table (t : SchemaTable) : string :=
  "    {" +:+ line +:+
  "      " +:+ quoted "name" +:+ ": " +:+ quoted (table_name t) +:+ "," +:+ line +:+
  "      " +:+ quoted "fields" +:+ ": [" +:+ line +:+
  separated ("," +:+ line) (map save_field (table_fields t)) +:+
  line +:+ "      ]" +:+ line +:+ "    }".

(** What [saveSchema] writes to the file. *)
Definition saveSchema (m : SchemaMigration) : string :=
  "{" +:+ line +:+ "  " +:+ quoted "tables" +:+ ": [" +:+ line +:+
  separated ("," +:+ line) (map save_table (mCurrentSchema m)) +:+
  line +:+ "  ]" +:+ line +:+ "}" +:+ line.

(** * The current schema *)

(** [extractSchema]; as in the table definitions, a field without a type has no
    answer. *)
Definition extract_table (types : gmap nat Ty) (d : StructDefinition) : option SchemaTable :=
  (fun cols => mkTable (s_name d) (map (fun c => mkField c.1 c.2) cols)) <$>
  mapM (field_column types) (s_fields d).

Definition extractSchema (types : gmap nat Ty) (structs : list StructDefinition) (m : SchemaMigration) :
  option SchemaMigration :=
  (fun tables => mkMigration (mStoredSchema m) tables) <$>
  mapM (extract_table types) (List.filter s_table structs).

(** * The difference *)

Inductive MigrationStepType := CREATE_TABLE | ADD_COLUMN | DROP_COLUMN | DROP_TABLE.

Record MigrationStep := mkMigrationStep {
  migration_type : MigrationStepType;
  migration_sql : string;
  description : string;
  isDestructive : bool
}.

(** [map[ x.name ] = x] over a list: of two entries of a name, the later one. *)
Definition table_map (l : list SchemaTable) : gmap string SchemaTable :=
  foldl (fun m t => <[table_name t := t]> m) ∅ l.

Definition field_map (l : list SchemaField) : gmap string string :=
  foldl (fun m f => <[field_name f := field_type f]> m) ∅ l.

Definition column (f : SchemaField) : string * string := (field_name f, field_type f).

Definition create_step (t : SchemaTable) : MigrationStep :=
  mkMigrationStep CREATE_TABLE
    (create_table (tableNameToSQL (table_name t)) (map column (table_fields t)))
    ("Create table " +:+ table_name t) false.

Definition add_step (t : SchemaTable) (f : SchemaField) : MigrationStep :=
  mkMigrationStep ADD_COLUMN (generateAddColumn (table_name t) (field_name f) (field_type f))
    ("Add column " +:+ field_name f +:+ " to " +:+ table_name t) false.

(** The bytes of the dash of the messages. *)
Definition em_dash : string :=
  String (ascii_of_N 226) (String (ascii_of_N 128) (String (ascii_of_N 148) "")).

Definition destructive_note : string := " (DESTRUCTIVE " +:+ em_dash +:+ " requires @drop)".

Definition drop_table_step (t : SchemaTable) : MigrationStep :=
  mkMigrationStep DROP_TABLE ("DROP TABLE " +:+ tableNameToSQL (table_name t))
    ("Drop table " +:+ table_name t +:+ destructive_note) true.

Definition drop_column_step (t : SchemaTable) (f : SchemaField) : MigrationStep :=
  mkMigrationStep DROP_COLUMN
    ("ALTER TABLE " +:+ tableNameToSQL (table_name t) +:+ " DROP COLUMN " +:+ field_name f)
    ("Drop column " +:+ field_name f +:+ " from " +:+ table_name t +:+ destructive_note) true.

Definition lacks {A} (m : gmap string A) (name : string) : bool :=
  match m !! name with Some _ => false | None => true end.

Definition create_steps (stored : gmap string SchemaTable) (t : SchemaTable) : list MigrationStep :=
  if lacks stored (table_name t) then [create_step t] else [].

Definition missing_columns (there : list SchemaField) (here : list SchemaField) : list SchemaField :=
  List.filter (fun f => lacks (field_map there) (field_name f)) here.

Definition add_steps (stored : gmap string SchemaTable) (t : SchemaTable) : list MigrationStep :=
  match stored !! table_name t with
  | None => []
  | Some s => map (add_step t) (missing_columns (table_fields s) (table_fields t))
  end.

Definition drop_table_steps (current : gmap string SchemaTable) (t : SchemaTable) : list MigrationStep :=
  if lacks current (table_name t) then [drop_table_step t] else [].

Definition drop_column_steps (current : gmap string SchemaTable) (t : SchemaTable) : list MigrationStep :=
  match current !! table_name t with
  | None => []
  | Some c => map (drop_column_step t) (missing_columns (table_fields c) (table_fields t))
  end.

Definition computeDiff (m : SchemaMigration) : list MigrationStep :=
  let stored := table_map (mStoredSchema m) in
  let current := table_map (mCurrentSchema m) in
  flat_map (create_steps stored) (mCurrentSchema m) ++
  flat_map (add_steps stored) (mCurrentSchema m) ++
  flat_map (drop_table_steps current) (mStoredSchema m) ++
  flat_map (drop_column_steps current) (mStoredSchema m).

(** * Reports *)

Definition sql_step (step : MigrationStep) : string :=
  (if isDestructive step then "-- DESTRUCTIVE: " else "-- ") +:+ description step +:+ line +:+
  migration_sql step +:+ ";" +:+ line +:+ line.

Definition generateSQL (m : SchemaMigration) : string :=
  String.concat "" (map sql_step (computeDiff m)).

Definition preview_step (step : MigrationStep) : string :=
  (if isDestructive step then "  [DESTRUCTIVE] " else "  ") +:+ description step +:+ line +:+
  "    SQL: " +:+ migration_sql step +:+ line.

Definition preview (m : SchemaMigration) : string :=
  match computeDiff m with
  | [] => "No schema changes detected." +:+ line
  | steps => "Migration preview:" +:+ line +:+ String.concat "" (map preview_step steps)
  end.

Definition hasDestructiveChanges (m : SchemaMigration) : bool :=
  existsb isDestructive (computeDiff m).

Definition sample_schema : list SchemaTable :=
  [mkTable "User" [mkField "id" "int"; mkField "name" "string"]; mkTable "Tag" []].

Example save_then_load :
  parseSchemaFile (Some (saveSchema (mkMigration [] sample_schema))) = Done (true, sample_schema).
Proof. vm_compute. reflexivity. Qed.
