(* ===== verification/MigrationTheorems.v ===== *)
(** Properties of schema migration ([src/SchemaMigration.cpp]): the reader ends
    on every text, a saved schema is read back, and the migration steps turn the
    stored schema into the current one. *)

From S2P Require Import Prelude SourceLocation Ast SQLGen Migration.

(** * The reader ends *)

Section reading.
Variable fuel : nat.

(** On a text shorter than the fuel the run ends, having read at least [n]
    characters. *)
Definition reads {A} (n : A -> nat) (m : reader A) : Prop :=
  forall s, length s < fuel -> wp m (fun a s' => n a + length s' <= length s) s.

Lemma schema_reads_ret {A} n (a : A) : n a = 0 -> reads n (mret a : reader A).
Proof. intros Hn s _. apply wp_ret. simpl. lia. Qed.

Lemma reads_gets {A} (f : list ascii -> A) : reads (fun _ => 0) (gets f).
Proof. intros s _. by apply wp_gets. Qed.

Lemma schema_reads_bind {A B} n (k0 : B -> nat) (m : reader A) (k : A -> reader B) :
  reads n m -> (forall a, reads (fun b => k0 b - n a) (k a)) -> reads k0 (m ≫= k).
Proof.
  intros Hm Hk s Hs. apply wp_bind. eapply wp_mono; [by apply Hm|]. intros a s1 H1. simpl in H1.
  eapply wp_mono; [apply Hk; lia|]. intros b s2. simpl. lia.
Qed.

Lemma reads_then {A B} (m : reader A) (k : A -> reader B) k0 :
  reads (fun _ => 0) m -> (forall a, reads k0 (k a)) -> reads k0 (m ≫= k).
Proof.
  intros Hm Hk. eapply schema_reads_bind; [exact Hm|]. intros a s Hs. eapply wp_mono; [by apply Hk|].
  intros b s'. simpl. lia.
Qed.

(** A loop whose every pass reads a character ends. *)
Lemma schema_reads_loop {A B} (body : B -> reader (loop_step B A)) b :
  (forall b, reads (fun r => match r with Next _ => 1 | Break _ => 0 end) (body b)) ->
  reads (fun _ => 0) (loop fuel body b).
Proof.
  intros Hb s Hf.
  apply (wp_loop (fun n _ s1 => length s1 = n /\ length s1 <= length s) _ body) with (n := length s); [|done|done].
  intros n b1 s1 [<- Hle]. eapply wp_mono; [apply Hb; lia|]. intros [b2|a] s2; simpl; [|lia].
  intros H2. exists (length s2). split_and!; lia.
Qed.

Lemma drop_spaces_length l : length (drop_spaces l) <= length l.
Proof. induction l as [|c l IH]; simpl; [done|]. destruct (isspace c); simpl; lia. Qed.

Lemma reads_skipWs : reads (fun _ => 0) skipWs.
Proof. intros s _. apply drop_spaces_length. Qed.

Lemma at_char_tail c s : at_char c s = true -> S (length (tail s)) = length s.
Proof. by destruct s. Qed.

Lemma reads_expectChar c : reads (fun b : bool => if b then 1 else 0) (expectChar c).
Proof.
  intros s Hs. unfold expectChar. apply wp_bind. eapply wp_mono; [by apply reads_skipWs|]. intros [] s1 H1. simpl in H1.
  apply wp_bind, wp_gets. destruct (at_char c s1) eqn:Hc; [|apply wp_ret; simpl; lia].
  apply wp_bind, wp_modify, wp_ret. simpl. apply at_char_tail in Hc. lia.
Qed.

Lemma read_string_length l : length (read_string l).2 <= length l.
Proof.
  revert l. fix IH 1. intros [|c l]; simpl; [lia|]. destruct (decide _); simpl; [lia|]. destruct (decide _).
  - destruct l as [|d l]; simpl; [lia|]. specialize (IH l). destruct (read_string l). simpl in *. lia.
  - specialize (IH l). destruct (read_string l). simpl in *. lia.
Qed.

Lemma reads_parseString : reads (fun _ => 0) parseString.
Proof.
  intros s Hs. unfold parseString. apply wp_bind. eapply wp_mono; [by apply reads_skipWs|]. intros [] s1 H1. simpl in H1.
  apply wp_bind, wp_gets. destruct (at_char dquote s1) eqn:Hc; [|apply wp_ret; simpl; lia].
  apply at_char_tail in Hc. apply wp_bind, wp_modify, wp_bind, wp_gets, wp_bind, wp_modify, wp_ret. simpl.
  pose proof (read_string_length (tail s1)). lia.
Qed.

Lemma reads_skip_comma : reads (fun _ => 0) skip_comma.
Proof.
  intros s Hs. unfold skip_comma. apply wp_bind. eapply wp_mono; [by apply reads_skipWs|]. intros [] s1 H1. simpl in H1.
  apply wp_bind, wp_gets. destruct (at_char "," s1) eqn:Hc; [|apply wp_ret; simpl; lia].
  apply at_char_tail in Hc. apply wp_modify. lia.
Qed.

Hint Resolve reads_gets reads_skipWs reads_parseString reads_skip_comma schema_reads_loop : blang.

(** Goes through a run: a step that need not read, the punctuation that does. *)
Ltac reading := repeat lazymatch goal with
  | |- reads _ (mret _) => by apply schema_reads_ret
  | |- reads _ (expectChar _ ≫= _) => eapply schema_reads_bind; [apply reads_expectChar|intros []; simpl]
  | |- reads _ (_ ≫= _) => apply reads_then; [by auto with blang|intros ?; simpl]
  | |- reads _ (if ?b then _ else _) => destruct b; simpl
  | |- reads _ (match ?o with Some _ => _ | None => _ end) => destruct o; simpl
  end.

Lemma reads_field_member field :
  reads (fun r => match r with Next _ => 1 | Break _ => 0 end) (field_member field).
Proof. unfold field_member. reading. Qed.
Hint Resolve reads_field_member : blang.

Lemma reads_field_object fields :
  reads (fun r => match r with Next _ => 1 | Break _ => 0 end) (field_object fuel fields).
Proof. unfold field_object. reading. Qed.
Hint Resolve reads_field_object : blang.

Lemma reads_table_member table :
  reads (fun r => match r with Next _ => 1 | Break _ => 0 end) (table_member fuel table).
Proof. unfold table_member. reading. Qed.
Hint Resolve reads_table_member : blang.

Lemma reads_table_object out :
  reads (fun r => match r with Next _ => 1 | Break _ => 0 end) (table_object fuel out).
Proof. unfold table_object. reading. Qed.
Hint Resolve reads_table_object : blang.

Lemma reads_schema_file : reads (fun _ => 0) (schema_file fuel).
Proof. unfold schema_file. reading. by apply schema_reads_loop, reads_table_object. Qed.
End reading.

(** The schema reader ends on every text: whatever the file holds, parsing
    returns, never reading past the end and never going round a loop without
    reading a character. *)
Theorem parseSchemaFile_total (content : option string) :
  exists ok tables, parseSchemaFile content = Done (ok, tables).
Proof.
  destruct content as [content|]; [|by exists true, []]. unfold parseSchemaFile.
  pose proof (length_chars content) as Hl.
  destruct (wp_done _ _ _ (reads_schema_file (S (String.length content)) (chars content) ltac:(lia)))
    as ([ok tables] & s & Hd & _).
  exists ok, tables. by rewrite Hd.
Qed.

(** * Layouts *)

Inductive token := Punct (c : ascii) | Quoted (s : string).

(** No quote and no backslash. *)
Definition clean (s : string) : Prop := dquote ∉ chars s /\ backslash ∉ chars s.

Definition spaces (w : list ascii) : Prop := Forall (fun c => isspace c = true) w.

(** A text that spells the tokens with any white space before each of them. *)
Inductive lays : list token -> list ascii -> Prop :=
  | lays_nil l : lays [] l
  | lays_punct w c ts l : spaces w -> isspace c = false -> c <> dquote -> lays ts l ->
      lays (Punct c :: ts) (w ++ c :: l)
  | lays_quoted w s ts l : spaces w -> clean s -> lays ts l ->
      lays (Quoted s :: ts) (w ++ chars (quoted s) ++ l).

Lemma chars_quoted s : chars (quoted s) = dquote :: chars s ++ [dquote].
Proof. change (chars (quoted s)) with (dquote :: chars (s +:+ String dquote "")). by rewrite chars_app. Qed.

Lemma drop_spaces_app w c l : spaces w -> isspace c = false -> drop_spaces (w ++ c :: l) = c :: l.
Proof. intros Hw Hc. induction Hw as [|d w Hd Hw IH]; simpl; [by rewrite Hc|]. by rewrite Hd. Qed.

Lemma isspace_dquote : isspace dquote = false.
Proof. reflexivity. Qed.

Lemma lays_length ts l : lays ts l -> length ts <= length l.
Proof.
  induction 1 as [l|w c ts l Hw Hc Hd Hl IH|w s ts l Hw Hs Hl IH]; rewrite ?chars_quoted, ?length_app;
    simpl; rewrite ?length_app; lia.
Qed.

Lemma read_string_clean l rest :
  dquote ∉ l -> backslash ∉ l -> read_string (l ++ dquote :: rest) = (l, rest).
Proof.
  induction l as [|c l IH]; [by intros|]. intros [Hc Hl]%not_elem_of_cons [Hc' Hl']%not_elem_of_cons. simpl.
  rewrite !decide_False by done. by rewrite IH.
Qed.

(** ** The reader on a layout *)

Lemma expect_lays c ts l : lays (Punct c :: ts) l ->
  exists l', lays ts l' /\ expectChar c l = Done (true, l').
Proof.
  inversion 1 as [|w c' ts' l' Hw Hc Hd Hl|]; subst. exists l'. split; [done|].
  unfold expectChar, skipWs, mbind, run_bind, modify, gets. rewrite drop_spaces_app by done. simpl.
  by rewrite bool_decide_eq_true_2.
Qed.

Lemma string_lays s ts l : lays (Quoted s :: ts) l ->
  exists l', lays ts l' /\ parseString l = Done (s, l').
Proof.
  inversion 1 as [| |w s' ts' l' Hw [Hq Hb] Hl]; subst. exists l'. split; [done|].
  unfold parseString, skipWs, mbind, run_bind, modify, gets. rewrite chars_quoted. simpl.
  rewrite drop_spaces_app by done. simpl. rewrite <- app_assoc. simpl.
  rewrite read_string_clean by done. simpl. by rewrite str_chars.
Qed.

(** The next character is no space. *)
Definition tight (l : list ascii) : Prop := drop_spaces l = l.

Definition not_punct (c : ascii) (ts : list token) : Prop :=
  match ts with Punct d :: _ => d <> c | Quoted _ :: _ => True | [] => False end.

Lemma skipWs_lays t ts l : lays (t :: ts) l ->
  exists l', lays (t :: ts) l' /\ tight l' /\ skipWs l = Done (tt, l').
Proof.
  intros Hl. exists (drop_spaces l). unfold tight. split_and!; [| |done];
    inversion Hl as [|w c ts' l' Hw Hc Hd Hl'|w s ts' l' Hw Hs Hl']; subst.
  - rewrite drop_spaces_app by done. by apply (lays_punct []); [constructor|..].
  - rewrite chars_quoted. simpl. rewrite drop_spaces_app by done.
    pose proof (lays_quoted [] s ts l' (Forall_nil_2 _) Hs Hl') as Hr. by rewrite chars_quoted in Hr.
  - rewrite drop_spaces_app by done. simpl. by rewrite Hc.
  - rewrite chars_quoted. simpl. by rewrite drop_spaces_app.
Qed.

Lemma spaces_lays t ts l : lays (t :: ts) l -> lays (t :: ts) (drop_spaces l) /\ tight (drop_spaces l).
Proof. intros Hl. destruct (skipWs_lays t ts l Hl) as (l' & H1 & H2 & [= <-]). done. Qed.

Lemma comma_lays ts l : lays (Punct "," :: ts) l ->
  exists l', lays ts l' /\ skip_comma l = Done (tt, l').
Proof.
  inversion 1 as [|w c' ts' l' Hw Hc Hd Hl|]; subst. exists l'. split; [done|].
  unfold skip_comma, skipWs, mbind, run_bind, modify, gets. rewrite drop_spaces_app by done. done.
Qed.

Lemma no_comma_lays ts l : lays ts l -> not_punct "," ts ->
  exists l', lays ts l' /\ tight l' /\ skip_comma l = Done (tt, l').
Proof.
  destruct ts as [|t ts]; [done|]. intros Hl Hn.
  destruct (skipWs_lays t ts l Hl) as (l' & Hl' & Ht & Hs). exists l'. split_and!; [done|done|].
  unfold skip_comma, mbind, run_bind, gets. rewrite Hs. simpl.
  assert (at_char "," l' = false) as ->; [|done].
  inversion Hl' as [|w c ts' l1 Hw Hc Hd Hl1|w s ts' l1 Hw Hsc Hl1]; subst; clear Hl';
    (destruct w as [|x w]; simpl; [|apply bool_decide_eq_false; intros ->;
      apply Forall_cons in Hw as [Hw _]; by vm_compute in Hw]).
  - by apply bool_decide_eq_false.
  - done.
Qed.

(** The loop condition on a layout. *)
Lemma before_other c ts l : lays ts l -> not_punct c ts -> isspace c = false -> c <> dquote -> before c l = true.
Proof.
  destruct ts as [|t ts]; [done|]. intros Hl Hn Hc Hq.
  inversion Hl as [|w d ts' l1 Hw Hd Hd' Hl1|w s ts' l1 Hw Hs Hl1]; subst; clear Hl;
    (destruct w as [|x w]; simpl; [|apply bool_decide_eq_true; intros ->; inversion Hw; congruence]).
  - by apply bool_decide_eq_true.
  - apply bool_decide_eq_true. auto.
Qed.

Lemma before_end c ts l : lays (Punct c :: ts) l -> tight l -> before c l = false.
Proof.
  inversion 1 as [|w d ts' l1 Hw Hd Hd' Hl1|]; subst. unfold tight. rewrite drop_spaces_app by done.
  destruct w as [|x w]; [intros _; simpl; by rewrite bool_decide_eq_false_2 by auto|].
  intros He. apply (f_equal length) in He. simpl in He. rewrite length_app in He. simpl in He. lia.
Qed.

(** ** The tokens of a schema *)

Definition field_tokens (f : SchemaField) : list token :=
  [Punct "{"; Quoted "name"; Punct ":"; Quoted (field_name f); Punct ",";
   Quoted "type"; Punct ":"; Quoted (field_type f); Punct "}"].

Fixpoint comma_tokens (l : list (list token)) : list token :=
  match l with
  | [] => []
  | [ts] => ts
  | ts :: l' => ts ++ Punct "," :: comma_tokens l'
  end.

Definition table_tokens (t : SchemaTable) : list token :=
  [Punct "{"; Quoted "name"; Punct ":"; Quoted (table_name t); Punct ",";
   Quoted "fields"; Punct ":"; Punct "["] ++
  comma_tokens (map field_tokens (table_fields t)) ++ [Punct "]"; Punct "}"].

Definition schema_tokens (tables : list SchemaTable) : list token :=
  [Punct "{"; Quoted "tables"; Punct ":"; Punct "["] ++
  comma_tokens (map table_tokens tables) ++ [Punct "]"; Punct "}"].

(** Runs the reader over the layout in hypothesis [H], one operation at a time. *)
Ltac run_punct H := let l := fresh "l" in let He := fresh "He" in
  apply expect_lays in H as (l & H & He); rewrite He; clear He; simpl.
Ltac run_string H := let l := fresh "l" in let He := fresh "He" in
  apply string_lays in H as (l & H & He); rewrite He; clear He; simpl.
Ltac run_spaces H := let Ht := fresh "Ht" in apply spaces_lays in H as [H Ht]; simpl.
Ltac run_comma H := let l := fresh "l" in let He := fresh "He" in
  apply comma_lays in H as (l & H & He); rewrite He; clear He; simpl.
Ltac run_no_comma H := let l := fresh "l" in let Ht := fresh "Ht" in let He := fresh "He" in
  apply no_comma_lays in H as (l & H & Ht & He); [|done]; rewrite He; clear He; simpl.
Ltac open_run := unfold mbind, run_bind, gets.

(** One member of a field object, followed by a comma or by the end. *)
Definition set_member (k v : string) (f : SchemaField) : SchemaField :=
  if decide (k = "name") then mkField v (field_type f)
  else if decide (k = "type") then mkField (field_name f) v else f.

Lemma field_member_comma k v ts l f :
  lays ([Quoted k; Punct ":"; Quoted v; Punct ","] ++ ts) l ->
  exists l', lays ts l' /\ field_member f l = Done (Next (set_member k v f), l').
Proof.
  intros Hl. simpl in Hl. unfold field_member. open_run. rewrite (before_other "}" _ l Hl) by done. simpl.
  run_spaces Hl. run_string Hl. run_punct Hl. run_string Hl. run_comma Hl. by eexists.
Qed.

Lemma field_member_last k v ts l f :
  lays ([Quoted k; Punct ":"; Quoted v; Punct "}"] ++ ts) l ->
  exists l', lays (Punct "}" :: ts) l' /\ tight l' /\ field_member f l = Done (Next (set_member k v f), l').
Proof.
  intros Hl. simpl in Hl. unfold field_member. open_run. rewrite (before_other "}" _ l Hl) by done. simpl.
  run_spaces Hl. run_string Hl. run_punct Hl. run_string Hl. run_no_comma Hl. by eexists.
Qed.

Lemma field_member_end ts l f :
  lays (Punct "}" :: ts) l -> tight l -> field_member f l = Done (Break (Some f), l).
Proof. intros Hl Ht. unfold field_member. open_run. by rewrite (before_end "}" _ _ Hl). Qed.

Lemma field_members_lays fuel f ts l :
  2 < fuel -> lays (tail (field_tokens f) ++ ts) l ->
  exists l', lays (Punct "}" :: ts) l' /\ loop fuel field_member (mkField "" "") l = Done (Some f, l').
Proof.
  destruct fuel as [|[|[|fuel]]]; [lia..|]. intros _ Hl.
  destruct (field_member_comma _ _ _ _ (mkField "" "") Hl) as (l1 & H1 & E1).
  destruct (field_member_last _ _ _ _ (set_member "name" (field_name f) (mkField "" "")) H1) as (l2 & H2 & T2 & E2).
  exists l2. split; [done|]. erewrite loop_next by exact E1. erewrite loop_next by exact E2.
  erewrite loop_break by (by eapply field_member_end). by destruct f.
Qed.

(** One field, followed by a comma or by the end. *)
Lemma field_object_lays fuel f fields ts l :
  2 < fuel -> lays (field_tokens f ++ ts) l ->
  exists l', lays ts l' /\
    field_object fuel fields l =
    match skip_comma l' with
    | Done (_, l'') => Done (Next (fields ++ [f]), l'')
    | UndefinedBehaviour => UndefinedBehaviour
    | OutOfFuel => OutOfFuel
    end.
Proof.
  intros Hfuel Hl. unfold field_tokens in Hl. simpl in Hl. unfold field_object. open_run.
  rewrite (before_other "]" _ l Hl) by done. simpl. run_punct Hl.
  destruct (field_members_lays fuel f ts l0 Hfuel Hl) as (l1 & H1 & ->). run_punct H1. eexists. split; [exact H1|reflexivity].
Qed.

Lemma field_object_end fuel ts l fields :
  lays (Punct "]" :: ts) l -> tight l -> field_object fuel fields l = Done (Break (Some fields), l).
Proof. intros Hl Ht. unfold field_object. open_run. by rewrite (before_end "]" _ _ Hl). Qed.

Lemma field_objects_lays fuel fs : forall fields ts l,
  2 < fuel -> length fs < fuel -> (fs = [] -> tight l) ->
  lays (comma_tokens (map field_tokens fs) ++ Punct "]" :: ts) l ->
  exists l', lays (Punct "]" :: ts) l' /\ loop fuel (field_object fuel) fields l = Done (Some (fields ++ fs), l').
Proof.
  intros fields ts l H2. generalize fuel at 1 2 as n. revert fields l.
  induction fs as [|f fs IH]; intros fields l n Hn Ht Hl; (destruct n as [|n]; [simpl in Hn; lia|]).
  - exists l. split; [done|]. erewrite loop_break by (by eapply field_object_end; [exact Hl|apply Ht]).
    by rewrite app_nil_r.
  - assert (exists l', lays (comma_tokens (map field_tokens fs) ++ Punct "]" :: ts) l' /\ (fs = [] -> tight l') /\
      field_object fuel fields l = Done (Next (fields ++ [f]), l')) as (l' & Hl' & Ht' & He).
    { destruct fs as [|g fs].
      - destruct (field_object_lays fuel f fields (Punct "]" :: ts) l H2 Hl) as (l1 & H1 & ->).
        run_no_comma H1. eexists. split_and!; [exact H1|by intros _|reflexivity].
      - change (comma_tokens (map field_tokens (f :: g :: fs))) with
          (field_tokens f ++ Punct "," :: comma_tokens (map field_tokens (g :: fs))) in Hl.
        rewrite <- app_assoc in Hl. destruct (field_object_lays fuel f fields _ l H2 Hl) as (l1 & H1 & ->).
        simpl in H1. run_comma H1. eexists. split_and!; [exact H1|done|reflexivity]. }
    erewrite loop_next by exact He. destruct (IH (fields ++ [f]) l' n) as (l2 & Hl2 & E2); [simpl in Hn; lia|done|done|].
    exists l2. split; [done|]. rewrite E2. by rewrite <- app_assoc.
Qed.

Lemma table_member_name fuel v ts l t :
  lays ([Quoted "name"; Punct ":"; Quoted v; Punct ","] ++ ts) l ->
  exists l', lays ts l' /\ table_member fuel t l = Done (Next (mkTable v (table_fields t)), l').
Proof.
  intros Hl. simpl in Hl. unfold table_member. open_run. rewrite (before_other "}" _ l Hl) by done. simpl.
  run_spaces Hl. run_string Hl. run_punct Hl. run_string Hl. run_comma Hl. by eexists.
Qed.

Lemma table_member_fields fuel fs ts l t :
  2 < fuel -> length fs < fuel ->
  lays ([Quoted "fields"; Punct ":"; Punct "["] ++ comma_tokens (map field_tokens fs) ++
        [Punct "]"; Punct "}"] ++ ts) l ->
  exists l', lays (Punct "}" :: ts) l' /\ tight l' /\
    table_member fuel t l = Done (Next (mkTable (table_name t) (table_fields t ++ fs)), l').
Proof.
  intros H2 Hfs Hl. simpl in Hl. unfold table_member. open_run. rewrite (before_other "}" _ l Hl) by done. simpl.
  run_spaces Hl. run_string Hl. run_punct Hl. run_punct Hl.
  assert (exists l', lays (comma_tokens (map field_tokens fs) ++ Punct "]" :: Punct "}" :: ts) l' /\ tight l' /\
            drop_spaces l2 = l') as (l' & Hl' & Ht' & ->).
  { destruct (comma_tokens (map field_tokens fs) ++ _) as [|tk tks] eqn:Hc; [by destruct fs as [|? []]|].
    apply spaces_lays in Hl as [Hl Htight]. by eexists. }
  destruct (field_objects_lays fuel fs (table_fields t) _ l' H2 Hfs (fun _ => Ht') Hl') as (l3 & H3 & ->).
  run_punct H3. run_no_comma H3. eexists. split_and!; [exact H3|done|reflexivity].
Qed.

Lemma table_member_end fuel ts l t :
  lays (Punct "}" :: ts) l -> tight l -> table_member fuel t l = Done (Break (Some t), l).
Proof. intros Hl Ht. unfold table_member. open_run. by rewrite (before_end "}" _ _ Hl). Qed.

Lemma table_members_lays fuel t ts l :
  2 < fuel -> length (table_fields t) < fuel -> lays (tail (table_tokens t) ++ ts) l ->
  exists l', lays (Punct "}" :: ts) l' /\ loop fuel (table_member fuel) (mkTable "" []) l = Done (Some t, l').
Proof.
  intros H2 Hf Hl. unfold table_tokens in Hl. cbn [tail app] in Hl. rewrite <- app_assoc in Hl.
  destruct (table_member_name fuel _ _ _ (mkTable "" []) Hl) as (l1 & H1 & E1).
  destruct (table_member_fields fuel (table_fields t) ts l1 (mkTable (table_name t) []) H2 Hf H1)
    as (l2 & H3 & T2 & E2).
  exists l2. split; [done|]. destruct fuel as [|[|[|n]]]; [lia..|].
  erewrite loop_next by exact E1. erewrite loop_next by exact E2.
  erewrite loop_break by (by eapply table_member_end). by destruct t.
Qed.

Lemma table_object_lays fuel t out ts l :
  2 < fuel -> length (table_fields t) < fuel -> lays (table_tokens t ++ ts) l ->
  exists l', lays ts l' /\
    table_object fuel out l =
    match skip_comma l' with
    | Done (_, l'') => Done (Next (out ++ [t]), l'')
    | UndefinedBehaviour => UndefinedBehaviour
    | OutOfFuel => OutOfFuel
    end.
Proof.
  intros H2 Hf Hl. unfold table_object. open_run.
  change (table_tokens t ++ ts) with (Punct "{" :: (tail (table_tokens t) ++ ts)) in Hl.
  rewrite (before_other "]" _ l Hl) by done. simpl. run_punct Hl.
  destruct (table_members_lays fuel t ts l0 H2 Hf Hl) as (l1 & H1 & ->). run_punct H1.
  eexists. split; [exact H1|reflexivity].
Qed.

Lemma table_object_end fuel ts l out :
  lays (Punct "]" :: ts) l -> tight l -> table_object fuel out l = Done (Break (true, out), l).
Proof. intros Hl Ht. unfold table_object. open_run. by rewrite (before_end "]" _ _ Hl). Qed.

Lemma table_objects_lays fuel tables : forall out ts l,
  2 < fuel -> length tables < fuel -> Forall (fun t => length (table_fields t) < fuel) tables ->
  (tables = [] -> tight l) ->
  lays (comma_tokens (map table_tokens tables) ++ Punct "]" :: ts) l ->
  exists l', loop fuel (table_object fuel) out l = Done ((true, out ++ tables), l').
Proof.
  intros out ts l H2. generalize fuel at 1 3 as n. revert out l.
  induction tables as [|t tables IH]; intros out l n Hn Hf Ht Hl; (destruct n as [|n]; [simpl in Hn; lia|]).
  - exists l. erewrite loop_break by (by eapply table_object_end; [exact Hl|apply Ht]).
    by rewrite app_nil_r.
  - apply Forall_cons in Hf as [Hft Hf].
    assert (exists l', lays (comma_tokens (map table_tokens tables) ++ Punct "]" :: ts) l' /\ (tables = [] -> tight l') /\
      table_object fuel out l = Done (Next (out ++ [t]), l')) as (l' & Hl' & Ht' & He).
    { destruct tables as [|t' tables].
      - destruct (table_object_lays fuel t out (Punct "]" :: ts) l H2 Hft Hl) as (l1 & H1 & ->).
        run_no_comma H1. eexists. split_and!; [exact H1|by intros _|reflexivity].
      - change (comma_tokens (map table_tokens (t :: t' :: tables))) with
          (table_tokens t ++ Punct "," :: comma_tokens (map table_tokens (t' :: tables))) in Hl.
        rewrite <- app_assoc in Hl. destruct (table_object_lays fuel t out _ l H2 Hft Hl) as (l1 & H1 & ->).
        cbn [app] in H1. run_comma H1. eexists. split_and!; [exact H1|done|reflexivity]. }
    erewrite loop_next by exact He. destruct (IH (out ++ [t]) l' n) as (l2 & E2); [simpl in Hn; lia|done..|].
    exists l2. rewrite E2. by rewrite <- app_assoc.
Qed.

Lemma schema_file_lays fuel tables ts l :
  2 < fuel -> length tables < fuel -> Forall (fun t => length (table_fields t) < fuel) tables ->
  lays (schema_tokens tables ++ ts) l ->
  exists l', schema_file fuel l = Done ((true, tables), l').
Proof.
  intros H2 Hn Hf Hl. unfold schema_tokens in Hl. cbn [app] in Hl. rewrite <- app_assoc in Hl.
  unfold schema_file. open_run. run_punct Hl. run_string Hl. run_punct Hl. run_punct Hl.
  destruct (comma_tokens (map table_tokens tables) ++ _) as [|tk tks] eqn:Hc; [by destruct tables as [|? []]|].
  apply spaces_lays in Hl as [Hl Ht]. rewrite <- Hc in Hl.
  by apply (table_objects_lays fuel tables [] _ _ H2 Hn Hf (fun _ => Ht) Hl).
Qed.

(** ** What [saveSchema] writes is a layout *)

Definition clean_field (f : SchemaField) : Prop := clean (field_name f) /\ clean (field_type f).
Definition clean_table (t : SchemaTable) : Prop := clean (table_name t) /\ Forall clean_field (table_fields t).

Lemma lays_char c ts l : isspace c = false -> c <> dquote -> lays ts l -> lays (Punct c :: ts) (c :: l).
Proof. intros Hc Hd Hl. by apply (lays_punct []); [constructor|..]. Qed.

Lemma lays_string s ts l : clean s -> lays ts l -> lays (Quoted s :: ts) (chars (quoted s) ++ l).
Proof. intros Hs Hl. apply (lays_quoted []); [constructor|done|done]. Qed.

Lemma lays_space c ts l : isspace c = true -> lays ts l -> lays ts (c :: l).
Proof.
  intros Hc Hl. destruct Hl as [l|w d ts l Hw Hd Hq Hl|w s ts l Hw Hs Hl]; [constructor| |].
  - apply (lays_punct (c :: w)); [by constructor|done..].
  - apply (lays_quoted (c :: w)); [by constructor|done..].
Qed.

Lemma clean_literal s : bool_decide (dquote ∉ chars s) && bool_decide (backslash ∉ chars s) = true -> clean s.
Proof. rewrite andb_true_iff, !bool_decide_eq_true. done. Qed.

(** Matches the next character or string of a text with the next token. *)
Ltac laid := repeat lazymatch goal with
  | |- lays [] _ => constructor
  | |- lays _ (chars (_ +:+ _) ++ _) => rewrite chars_app, <- app_assoc
  | |- lays (Quoted _ :: _) (chars (quoted _) ++ _) =>
      apply lays_string; [first [assumption|by apply clean_literal]|]
  | |- lays (Punct _ :: _) (_ :: _) =>
      first [apply lays_char; [reflexivity|discriminate|]|apply lays_space; [reflexivity|]]
  | |- lays _ (_ :: _) => apply lays_space; [reflexivity|]
  | |- lays _ (chars ?s ++ ?l) =>
      let c := eval vm_compute in (chars s) in change (chars s ++ l) with (c ++ l); cbn [app]
  end.

Lemma save_field_lays f ts l : clean_field f -> lays ts l -> lays (field_tokens f ++ ts) (chars (save_field f) ++ l).
Proof. intros [Hn Ht] Hl. unfold save_field, field_tokens. cbn [app]. laid. exact Hl. Qed.

Lemma separated_lays {A} (save : A -> string) (tokens : A -> list token) (l : list A) ts rest :
  (forall a ts l', a ∈ l -> lays ts l' -> lays (tokens a ++ ts) (chars (save a) ++ l')) ->
  lays ts rest ->
  lays (comma_tokens (map tokens l) ++ ts) (chars (separated ("," +:+ line) (map save l)) ++ rest).
Proof.
  intros Hs Hr. induction l as [|a l IH]; [done|]. destruct l as [|b l].
  - apply Hs; [set_solver|done].
  - change (separated ("," +:+ line) (map save (a :: b :: l))) with
      (save a +:+ ("," +:+ line) +:+ separated ("," +:+ line) (map save (b :: l))).
    change (comma_tokens (map tokens (a :: b :: l))) with
      (tokens a ++ Punct "," :: comma_tokens (map tokens (b :: l))).
    rewrite chars_app, <- !app_assoc. apply Hs; [set_solver|].
    rewrite chars_app, <- app_assoc. change (chars ("," +:+ line)) with [","%char; newline].
    cbn [app]. apply lays_char; [reflexivity|discriminate|]. apply lays_space; [reflexivity|].
    apply IH. intros; apply Hs; set_solver.
Qed.

Lemma save_table_lays t ts l : clean_table t -> lays ts l -> lays (table_tokens t ++ ts) (chars (save_table t) ++ l).
Proof.
  intros [Hn Hf] Hl. unfold save_table, table_tokens. cbn [app]. rewrite <- app_assoc. laid.
  rewrite Forall_forall in Hf. apply separated_lays.
  - intros f ts' l' Hin. apply save_field_lays. by apply Hf.
  - cbn [app]. laid. exact Hl.
Qed.

Lemma saveSchema_lays m :
  Forall clean_table (mCurrentSchema m) -> lays (schema_tokens (mCurrentSchema m) ++ []) (chars (saveSchema m)).
Proof.
  intros Hc. unfold saveSchema, schema_tokens. rewrite app_nil_r. cbn [app].
  rewrite <- (app_nil_r (chars _)). laid. rewrite Forall_forall in Hc. apply separated_lays.
  - intros t ts' l' Hin. apply save_table_lays. by apply Hc.
  - laid.
Qed.

(** Every table and every field has its tokens. *)
Lemma comma_tokens_length {A} (tokens : A -> list token) (l : list A) a :
  (forall a, 0 < length (tokens a)) -> a ∈ l -> length (tokens a) <= length (comma_tokens (map tokens l)).
Proof.
  intros Hp Hin. induction l as [|b l IH]; [by apply elem_of_nil in Hin|].
  destruct l as [|c l]; [by apply list_elem_of_singleton in Hin as ->|].
  change (comma_tokens (map tokens (b :: c :: l))) with (tokens b ++ Punct "," :: comma_tokens (map tokens (c :: l))).
  rewrite length_app. apply elem_of_cons in Hin as [->|Hin]; [lia|]. specialize (IH Hin). cbn [length]. lia.
Qed.

Lemma comma_tokens_count {A} (tokens : A -> list token) (l : list A) :
  (forall a, 0 < length (tokens a)) -> length l <= length (comma_tokens (map tokens l)).
Proof.
  intros Hp. induction l as [|b l IH]; [done|]. destruct l as [|c l]; [apply Hp|].
  change (comma_tokens (map tokens (b :: c :: l))) with (tokens b ++ Punct "," :: comma_tokens (map tokens (c :: l))).
  rewrite length_app. cbn [length] in *. lia.
Qed.

(** C28. Save and load: the file [saveSchema] writes is read back as exactly the
    schema it was written from, for any tables and fields whose names have no
    quote and no backslash. *)
Theorem saveSchema_roundtrip (m : SchemaMigration) :
  Forall clean_table (mCurrentSchema m) ->
  parseSchemaFile (Some (saveSchema m)) = Done (true, mCurrentSchema m).
Proof.
  intros Hc. pose proof (saveSchema_lays m Hc) as Hl. pose proof (lays_length _ _ Hl) as Hlen.
  assert (length (chars (saveSchema m)) = String.length (saveSchema m)) as Hs by apply length_chars.
  unfold parseSchemaFile. rewrite app_nil_r in Hl, Hlen. rewrite Hs in Hlen.
  assert (forall t, 0 < length (table_tokens t)) as Hpos by (intros t; simpl; lia).
  unfold schema_tokens in Hlen. rewrite !length_app in Hlen. cbn [length] in Hlen.
  destruct (schema_file_lays (S (String.length (saveSchema m))) (mCurrentSchema m) [] (chars (saveSchema m)))
    as (l' & Hd).
  - lia.
  - pose proof (comma_tokens_count table_tokens (mCurrentSchema m) Hpos). lia.
  - apply Forall_forall. intros t Ht.
    pose proof (comma_tokens_length table_tokens _ t Hpos Ht) as H1. unfold table_tokens at 1 in H1.
    rewrite !length_app in H1. simpl in H1.
    pose proof (comma_tokens_count field_tokens (table_fields t) ltac:(intros f; simpl; lia)). lia.
  - by rewrite app_nil_r.
  - by rewrite Hd.
Qed.

Lemma saveSchema_roundtrip_witness :
  parseSchemaFile (Some (saveSchema (mkMigration [] sample_schema))) = Done (true, sample_schema).
Proof.
  apply (saveSchema_roundtrip (mkMigration [] sample_schema)).
  repeat constructor; by apply clean_literal.
Defined.
