(* ===== verification/MigrationDiff.v ===== *)
(** What the difference of two schemas does ([SchemaMigration::computeDiff],
    [src/SchemaMigration.cpp]): its statements, read and carried out in order by a
    database that has the stored schema, leave it with the current one. *)

From S2P Require Import Prelude SourceLocation Ast SQLGen Migration.

(** * What a database does with a statement

    Tables by their names, and of each its columns by their names with the SQL type and
    whether it is the primary key. Names are compared regardless of case. *)

Notation columns_of := (gmap string (string * bool)).
Notation database := (gmap string columns_of).

Inductive ddl :=
  | SqlCreate (t : string) (cols : list (string * (string * bool)))
  | SqlAdd (t c type : string)
  | SqlDropTable (t : string)
  | SqlDropColumn (t c : string).

(** The words of a statement; parentheses and commas are words. *)
Definition flush (cur : list ascii) (words : list string) : list string :=
  match cur with [] => words | _ => str cur :: words end.

Fixpoint sql_words (cur l : list ascii) : list string :=
  match l with
  | [] => flush cur []
  | c :: l =>
      if decide (c = " "%char) then flush cur (sql_words [] l)
      else if decide (c ∈ ["("; ")"; ","]%char) then flush cur (str [c] :: sql_words [] l)
      else sql_words (cur ++ [c]) l
  end.

Definition lower (s : string) : string := str (map tolower (chars s)).
Definition name_char (c : ascii) : bool := isalnum c || bool_decide (c = "_"%char).

Section database.
(** The words that are not names, in lower case. *)
Variable reserved : string -> bool.

Definition sql_name (w : string) : option string :=
  match chars w with
  | [] => None
  | c :: l => if negb (isdigit c) && forallb name_char (c :: l) && negb (reserved (lower w)) then Some (lower w) else None
  end.

Definition read_column (l : list string) : option (string * (string * bool)) :=
  match l with
  | [c; type] => c ← sql_name c; Some (c, (type, false))
  | [c; type; p; k] => if decide (p = "PRIMARY" /\ k = "KEY") then c ← sql_name c; Some (c, (type, true)) else None
  | _ => None
  end.

(** Columns between commas, up to the parenthesis that ends the statement. *)
Fixpoint read_columns (column l : list string) : option (list (string * (string * bool))) :=
  match l with
  | [] => None
  | w :: l =>
      if decide (w = ")") then if decide (l = []) then c ← read_column column; Some [c] else None
      else if decide (w = ",") then c ← read_column column; cols ← read_columns [] l; Some (c :: cols)
      else read_columns (column ++ [w]) l
  end.

Definition read_sql (text : string) : option ddl :=
  let words := sql_words [] (chars text) in
  if decide (take 5 words = ["CREATE"; "TABLE"; "IF"; "NOT"; "EXISTS"]) then
    match drop 5 words with
    | t :: o :: l => if decide (o = "(") then t ← sql_name t; cols ← read_columns [] l; Some (SqlCreate t cols) else None
    | _ => None
    end
  else if decide (take 2 words = ["DROP"; "TABLE"]) then
    match drop 2 words with [t] => t ← sql_name t; Some (SqlDropTable t) | _ => None end
  else if decide (take 2 words = ["ALTER"; "TABLE"]) then
    match drop 2 words with
    | [t; a; b; c; type] =>
        if decide (a = "ADD" /\ b = "COLUMN") then t ← sql_name t; c ← sql_name c; Some (SqlAdd t c type) else None
    | [t; a; b; c] =>
        if decide (a = "DROP" /\ b = "COLUMN") then t ← sql_name t; c ← sql_name c; Some (SqlDropColumn t c) else None
    | _ => None
    end
  else None.

Definition ddl_table (d : ddl) : string :=
  match d with SqlCreate t _ | SqlAdd t _ _ | SqlDropTable t | SqlDropColumn t _ => t end.

(** The effect on the table; nothing if the statement fails: a table or column that is
    not there is altered or dropped, a column is there already, the last column or the
    primary key is dropped. *)
Definition ddl_effect (d : ddl) (t : option columns_of) : option (option columns_of) :=
  match d, t with
  | SqlCreate _ _, Some cols => Some (Some cols)
  | SqlCreate _ cols, None => if decide (NoDup (cols.*1)) then Some (Some (list_to_map cols)) else None
  | SqlAdd _ c type, Some cols =>
      match cols !! c with None => Some (Some (<[c := (type, false)]> cols)) | Some _ => None end
  | SqlDropTable _, Some _ => Some None
  | SqlDropColumn _ c, Some cols =>
      match cols !! c with
      | Some (_, false) => if decide (delete c cols = ∅) then None else Some (Some (delete c cols))
      | _ => None
      end
  | _, None => None
  end.

Definition execute (text : string) (db : database) : option database :=
  d ← read_sql text;
  t ← ddl_effect d (db !! ddl_table d);
  Some (partial_alter (fun _ => t) (ddl_table d) db).

(** Statements in order; none is carried out behind one that fails. *)
Fixpoint run_sql (texts : list string) (db : database) : option database :=
  match texts with [] => Some db | text :: texts => db ← execute text db; run_sql texts db end.

(** ** The database of a schema *)

Definition table_key (t : SchemaTable) : string := lower (tableNameToSQL (table_name t)).
Definition field_key (f : SchemaField) : string := lower (field_name f).
Definition column_of (f : SchemaField) : string * (string * bool) :=
  (field_key f, (blangTypeToSQL (field_type f), bool_decide (field_name f = "id"))).
Definition columns (t : SchemaTable) : columns_of := list_to_map (map column_of (table_fields t)).
Definition database_of (l : list SchemaTable) : database := list_to_map (map (fun t => (table_key t, columns t)) l).

(** Names are SQL names; those of two tables, and of two columns of a table, differ not
    only in case. *)
Definition named_in_sql (l : list SchemaTable) : Prop :=
  NoDup (table_key <$> l) /\
  Forall (fun t => sql_name (tableNameToSQL (table_name t)) = Some (table_key t) /\
    Forall (fun f => sql_name (field_name f) = Some (field_key f)) (table_fields t) /\
    NoDup (field_key <$> table_fields t)) l.

(** What two schemas name alike in SQL is named alike; a column of both has the same SQL
    type in both, and the primary key is in both or in neither; a table has a column. *)
Definition comparable (stored current : list SchemaTable) : Prop :=
  Forall (fun c => table_fields c <> []) current /\
  forall s c, s ∈ stored -> c ∈ current -> table_key s = table_key c ->
    table_name s = table_name c /\
    ("id" ∈ field_name <$> table_fields s <-> "id" ∈ field_name <$> table_fields c) /\
    forall f g, f ∈ table_fields s -> g ∈ table_fields c -> field_key f = field_key g ->
      field_name f = field_name g /\ blangTypeToSQL (field_type f) = blangTypeToSQL (field_type g).

(** * Changes: what a step does, and the step of it *)

Inductive change :=
  | CreateTable (t : SchemaTable)
  | AddColumn (t : SchemaTable) (f : SchemaField)
  | DropTable (t : SchemaTable)
  | DropColumn (t : SchemaTable) (f : SchemaField).

Definition step_of (c : change) : MigrationStep :=
  match c with
  | CreateTable t => create_step t
  | AddColumn t f => add_step t f
  | DropTable t => drop_table_step t
  | DropColumn t f => drop_column_step t f
  end.

Definition changed_table (c : change) : SchemaTable :=
  match c with CreateTable t | AddColumn t _ | DropTable t | DropColumn t _ => t end.

Definition ddl_of (c : change) : ddl :=
  match c with
  | CreateTable t => SqlCreate (table_key t) (map column_of (table_fields t))
  | AddColumn t f => SqlAdd (table_key t) (field_key f) (blangTypeToSQL (field_type f))
  | DropTable t => SqlDropTable (table_key t)
  | DropColumn t f => SqlDropColumn (table_key t) (field_key f)
  end.

(** ** Reading the statements back *)

Lemma name_char_break c : name_char c = true -> c <> " "%char /\ c ∉ ["("; ")"; ","]%char.
Proof.
  intros Hc. split; [by intros ->|]. rewrite !elem_of_cons. by intros [-> |[-> |[-> |?%elem_of_nil]]].
Qed.

Lemma words_of w : Forall (fun c => name_char c = true) w -> forall cur l, sql_words cur (w ++ l) = sql_words (cur ++ w) l.
Proof.
  induction 1 as [|c w Hc _ IH]; intros cur l; cbn [app sql_words]; [by rewrite app_nil_r|].
  destruct (name_char_break c Hc). rewrite decide_False, decide_False by done. by rewrite IH, <-app_assoc.
Qed.

Lemma flush_name w words : w <> "" -> flush (chars w) words = w :: words.
Proof. intros Hw. unfold flush. destruct (chars w) eqn:E; [|by rewrite <-E, str_chars]. by destruct w. Qed.

Definition a_word (w : string) : Prop := w <> "" /\ Forall (fun c => name_char c = true) (chars w).

Lemma words_space w l : a_word w -> sql_words [] (chars w ++ " "%char :: l) = w :: sql_words [] l.
Proof. intros [Hn Hw]. rewrite words_of by done. cbn [app sql_words]. rewrite decide_True by done. by apply flush_name. Qed.

Lemma words_mark w c l : a_word w -> c ∈ ["("; ")"; ","]%char -> sql_words [] (chars w ++ c :: l) = w :: str [c] :: sql_words [] l.
Proof.
  intros [Hn Hw] Hc. rewrite words_of by done. cbn [app sql_words]. rewrite decide_False, decide_True by (set_solver || done).
  by apply flush_name.
Qed.

Lemma words_last w : a_word w -> sql_words [] (chars w) = [w].
Proof. intros [Hn Hw]. rewrite <-(app_nil_r (chars w)), words_of by done. by apply flush_name. Qed.

Lemma name_word w k : sql_name w = Some k -> a_word w.
Proof.
  unfold sql_name, a_word. destruct (chars w) as [|c l] eqn:E; [done|]. intros H. split; [by intros ->|].
  destruct (negb (isdigit c) && forallb name_char (c :: l)) eqn:Hb; [|done]. apply andb_prop in Hb as [_ Hb].
  apply Forall_forall. intros x Hx. rewrite forallb_forall in Hb. by apply Hb, list_elem_of_In.
Qed.

Lemma type_word t : a_word (blangTypeToSQL t).
Proof.
  unfold a_word, blangTypeToSQL. repeat case_match; (split; [done|]); apply (bool_decide_unpack _); vm_compute; exact I.
Qed.

(** The words of a column's definition, and of all of them. *)
Definition column_words (f : SchemaField) : list string :=
  [field_name f; blangTypeToSQL (field_type f)] ++ if decide (field_name f = "id") then ["PRIMARY"; "KEY"] else [].

Lemma words_column f k c l :
  sql_name (field_name f) = Some k -> c ∈ [")"; ","]%char ->
  sql_words [] (chars (column_definition (column f)) ++ c :: l) = column_words f ++ str [c] :: sql_words [] l.
Proof.
  intros Hf Hc. unfold column_definition, column_words. cbn [column fst snd]. rewrite !chars_app, <-!app_assoc.
  change (chars " " ++ ?x) with (" "%char :: x). rewrite words_space by by eapply name_word. cbn [app]. f_equal.
  assert (c ∈ ["("; ")"; ","]%char) as Hc' by set_solver. case_decide as Hid.
  - change (chars " PRIMARY KEY" ++ c :: l) with (" "%char :: chars "PRIMARY" ++ " "%char :: chars "KEY" ++ c :: l).
    rewrite words_space by apply type_word. f_equal. rewrite words_space by by (split; [done|]; apply (bool_decide_unpack _); vm_compute).
    cbn [app]. f_equal. apply words_mark; [|done]. by (split; [done|]; apply (bool_decide_unpack _); vm_compute).
  - cbn [app]. by apply words_mark; [apply type_word|].
Qed.

Fixpoint columns_words (l : list SchemaField) : list string :=
  match l with
  | [] => [")"]
  | [f] => column_words f ++ [")"]
  | f :: l => column_words f ++ "," :: columns_words l
  end.

Definition field_named (f : SchemaField) : Prop := sql_name (field_name f) = Some (field_key f).

Lemma words_columns l :
  l <> [] -> Forall field_named l ->
  sql_words [] (chars (comma_list (map column_definition (map column l)) +:+ ")")) = columns_words l.
Proof.
  intros Hl Hn. induction Hn as [|f l Hf Hls IH]; [done|]. destruct l as [|g l].
  - cbn [map comma_list columns_words]. rewrite chars_app. change (chars ")") with [")"%char]. by rewrite (words_column _ _ _ [] Hf) by set_solver.
  - change (comma_list (map column_definition (map column (f :: g :: l)))) with
      (column_definition (column f) +:+ ", " +:+ comma_list (map column_definition (map column (g :: l)))).
    rewrite !chars_app, <-!app_assoc. change (chars ", " ++ ?x) with (","%char :: " "%char :: x).
    rewrite (words_column _ _ _ _ Hf) by set_solver. cbn [columns_words]. f_equal. f_equal. cbn [sql_words]. rewrite decide_True by done.
    cbn [flush]. rewrite <-chars_app. by apply IH.
Qed.

Lemma read_columns_word w column l : a_word w -> read_columns column (w :: l) = read_columns (column ++ [w]) l.
Proof.
  intros [_ Hw]. cbn [read_columns]. rewrite !decide_False; [done|intros ->; inversion Hw; discriminate..].
Qed.

Lemma read_column_words f : field_named f -> read_column (column_words f) = Some (column_of f).
Proof.
  unfold field_named, column_words, column_of. intros Hf. case_decide; cbn [app read_column].
  - rewrite decide_True, Hf, bool_decide_true by done. done.
  - rewrite Hf, bool_decide_false by done. done.
Qed.

Lemma read_columns_words f l :
  field_named f -> read_columns [] (column_words f ++ l) = read_columns (column_words f) l.
Proof.
  intros Hf. assert (Forall a_word (column_words f)) as Hw.
  { unfold column_words. apply Forall_app. split.
    - constructor; [by eapply name_word|]. constructor; [apply type_word|constructor].
    - case_decide; repeat constructor; apply (bool_decide_unpack _); vm_compute; exact I. }
  assert (forall column, read_columns column (column_words f ++ l) = read_columns (column ++ column_words f) l) as H; [|apply H].
  induction Hw as [|w ws Hw _ IH]; intros column; cbn [app]; [by rewrite app_nil_r|].
  by rewrite read_columns_word, IH, <-app_assoc.
Qed.

Lemma read_columns_all l : l <> [] -> Forall field_named l -> read_columns [] (columns_words l) = Some (map column_of l).
Proof.
  intros Hl Hn. induction Hn as [|f l Hf Hls IH]; [done|]. destruct l as [|g l].
  - cbn [columns_words]. rewrite read_columns_words by done. cbn [read_columns map]. by rewrite decide_True, decide_True, read_column_words.
  - change (columns_words (f :: g :: l)) with (column_words f ++ "," :: columns_words (g :: l)).
    rewrite read_columns_words by done. cbn [read_columns]. rewrite decide_False, decide_True, read_column_words, IH by done. done.
Qed.

(** What is assumed of the names in a change. *)
Definition change_named (c : change) : Prop :=
  sql_name (tableNameToSQL (table_name (changed_table c))) = Some (table_key (changed_table c)) /\
  match c with
  | CreateTable t => table_fields t <> [] /\ Forall field_named (table_fields t)
  | AddColumn _ f | DropColumn _ f => field_named f
  | DropTable _ => True
  end.

Lemma read_step c : change_named c -> read_sql (migration_sql (step_of c)) = Some (ddl_of c).
Proof.
  intros [Ht Hc]. unfold read_sql. pose proof (name_word _ _ Ht) as Htw. destruct c as [t|t f|t|t f]; cbn [step_of migration_sql changed_table ddl_of] in *.
  - destruct Hc as [Hn Hf]. unfold create_step, create_table. cbn [migration_sql].
    assert (sql_words [] (chars ("CREATE TABLE IF NOT EXISTS " +:+ tableNameToSQL (table_name t) +:+ " (" +:+
      comma_list (map column_definition (map column (table_fields t))) +:+ ")")) =
      ["CREATE"; "TABLE"; "IF"; "NOT"; "EXISTS"] ++ tableNameToSQL (table_name t) :: "(" :: columns_words (table_fields t)) as ->.
    { rewrite chars_app. change (sql_words [] (chars "CREATE TABLE IF NOT EXISTS " ++ ?x)) with (["CREATE"; "TABLE"; "IF"; "NOT"; "EXISTS"] ++ sql_words [] x).
      f_equal. rewrite !chars_app. change (chars " (" ++ ?x) with (" "%char :: "("%char :: x). rewrite words_space by done. f_equal.
      cbn [sql_words]. rewrite decide_False, decide_True by set_solver. cbn [flush]. change (str ["("%char]) with "(". f_equal.
      rewrite <-chars_app. by apply words_columns. }
    cbn [app take drop]. rewrite decide_True, decide_True, Ht, read_columns_all by done. done.
  - pose proof (name_word _ _ Hc) as Hfw. unfold add_step, generateAddColumn. cbn [migration_sql].
    assert (sql_words [] (chars ("ALTER TABLE " +:+ tableNameToSQL (table_name t) +:+ " ADD COLUMN " +:+ field_name f +:+ " " +:+ blangTypeToSQL (field_type f))) =
      ["ALTER"; "TABLE"; tableNameToSQL (table_name t); "ADD"; "COLUMN"; field_name f; blangTypeToSQL (field_type f)]) as ->.
    { rewrite chars_app. change (sql_words [] (chars "ALTER TABLE " ++ ?x)) with (["ALTER"; "TABLE"] ++ sql_words [] x). cbn [app]. do 2 f_equal.
      rewrite !chars_app. change (chars " ADD COLUMN " ++ ?x) with (" "%char :: chars "ADD" ++ " "%char :: chars "COLUMN" ++ " "%char :: x).
      change (chars " " ++ ?x) with (" "%char :: x).
      rewrite !words_space by (done || (split; [done|]; apply (bool_decide_unpack _); vm_compute; exact I)). do 4 f_equal. apply words_last, type_word. }
    cbn [take drop]. rewrite decide_False, decide_False, decide_True, decide_True, Ht, Hc by done. done.
  - unfold drop_table_step. cbn [migration_sql].
    assert (sql_words [] (chars ("DROP TABLE " +:+ tableNameToSQL (table_name t))) = ["DROP"; "TABLE"; tableNameToSQL (table_name t)]) as ->.
    { rewrite chars_app. change (sql_words [] (chars "DROP TABLE " ++ ?x)) with (["DROP"; "TABLE"] ++ sql_words [] x). cbn [app]. do 2 f_equal. by apply words_last. }
    cbn [take drop]. rewrite decide_False, decide_True, Ht by done. done.
  - pose proof (name_word _ _ Hc) as Hfw. unfold drop_column_step. cbn [migration_sql].
    assert (sql_words [] (chars ("ALTER TABLE " +:+ tableNameToSQL (table_name t) +:+ " DROP COLUMN " +:+ field_name f)) =
      ["ALTER"; "TABLE"; tableNameToSQL (table_name t); "DROP"; "COLUMN"; field_name f]) as ->.
    { rewrite chars_app. change (sql_words [] (chars "ALTER TABLE " ++ ?x)) with (["ALTER"; "TABLE"] ++ sql_words [] x). cbn [app]. do 2 f_equal.
      rewrite !chars_app. change (chars " DROP COLUMN " ++ ?x) with (" "%char :: chars "DROP" ++ " "%char :: chars "COLUMN" ++ " "%char :: x).
      rewrite !words_space by (done || (split; [done|]; apply (bool_decide_unpack _); vm_compute; exact I)). do 3 f_equal. by apply words_last. }
    cbn [take drop]. rewrite decide_False, decide_False, decide_True, decide_True, Ht, Hc by done. done.
Qed.

(** * Maps built from lists *)

Lemma table_map_lookup l x t :
  NoDup (table_name <$> l) -> table_map l !! x = Some t <-> t ∈ l /\ table_name t = x.
Proof.
  unfold table_map. induction l as [|u l IH] using rev_ind.
  - simpl. rewrite lookup_empty. split; [done|]. by intros [?%elem_of_nil _].
  - rewrite fmap_app, foldl_app. intros (Hl & Hd & _)%NoDup_app. simpl. specialize (IH Hl).
    rewrite elem_of_app, list_elem_of_singleton. destruct (decide (table_name u = x)) as [<-|Hx].
    + rewrite lookup_insert_eq. split; [intros [= <-]; auto|]. intros [[Ht| ->] He]; [|done].
      exfalso. apply (Hd (table_name u)); [rewrite <- He; by apply list_elem_of_fmap_2|set_solver].
    + rewrite lookup_insert_ne by done. rewrite IH. split; [intros [??]; auto|].
      intros [[Ht| ->] He]; [auto|done].
Qed.

Lemma field_map_lookup l x : is_Some (field_map l !! x) <-> x ∈ field_name <$> l.
Proof.
  unfold field_map. induction l as [|f l IH] using rev_ind.
  - simpl. rewrite lookup_empty, elem_of_nil. split; [by intros []|done].
  - rewrite foldl_app, fmap_app, elem_of_app. simpl. rewrite list_elem_of_singleton.
    destruct (decide (field_name f = x)) as [<-|Hx].
    + rewrite lookup_insert_eq. split; [auto|]. by eexists.
    + rewrite lookup_insert_ne by done. rewrite IH. split; [auto|]. by intros [?| ->].
Qed.

Lemma missing_columns_spec there here f :
  f ∈ missing_columns there here <-> f ∈ here /\ field_name f ∉ field_name <$> there.
Proof.
  unfold missing_columns. rewrite list_elem_of_In, filter_In, <- list_elem_of_In, <- field_map_lookup.
  unfold lacks. destruct (field_map there !! field_name f); split; intros [? Hf]; split; try done.
  destruct Hf. by eexists.
Qed.

(** * The changes of a difference *)

Definition create_changes (stored : gmap string SchemaTable) (t : SchemaTable) : list change :=
  if lacks stored (table_name t) then [CreateTable t] else [].
Definition add_changes (stored : gmap string SchemaTable) (t : SchemaTable) : list change :=
  match stored !! table_name t with
  | None => []
  | Some s => map (AddColumn t) (missing_columns (table_fields s) (table_fields t))
  end.
Definition drop_table_changes (current : gmap string SchemaTable) (t : SchemaTable) : list change :=
  if lacks current (table_name t) then [DropTable t] else [].
Definition drop_column_changes (current : gmap string SchemaTable) (t : SchemaTable) : list change :=
  match current !! table_name t with
  | None => []
  | Some c => map (DropColumn t) (missing_columns (table_fields c) (table_fields t))
  end.

Definition changes (m : SchemaMigration) : list change :=
  flat_map (create_changes (table_map (mStoredSchema m))) (mCurrentSchema m) ++
  flat_map (add_changes (table_map (mStoredSchema m))) (mCurrentSchema m) ++
  flat_map (drop_table_changes (table_map (mCurrentSchema m))) (mStoredSchema m) ++
  flat_map (drop_column_changes (table_map (mCurrentSchema m))) (mStoredSchema m).

Lemma map_flat_map {A} (g : A -> list change) (h : A -> list MigrationStep) l :
  (forall a, h a = map step_of (g a)) -> flat_map h l = map step_of (flat_map g l).
Proof. intros Hg. induction l as [|a l IH]; [done|]. simpl. by rewrite map_app, Hg, IH. Qed.

Lemma computeDiff_changes m : computeDiff m = map step_of (changes m).
Proof.
  unfold computeDiff, changes. rewrite !map_app. f_equal; [|f_equal; [|f_equal]]; apply map_flat_map; intros t.
  - unfold create_steps, create_changes. by destruct (lacks _ _).
  - unfold add_steps, add_changes. destruct (_ !! _); [|done]. by rewrite map_map.
  - unfold drop_table_steps, drop_table_changes. by destruct (lacks _ _).
  - unfold drop_column_steps, drop_column_changes. destruct (_ !! _); [|done]. by rewrite map_map.
Qed.

Lemma existsb_flat_map {A B} (p : B -> bool) (f : A -> list B) l :
  existsb p (flat_map f l) = true <-> exists a, a ∈ l /\ existsb p (f a) = true.
Proof.
  rewrite existsb_exists. setoid_rewrite in_flat_map. setoid_rewrite existsb_exists.
  setoid_rewrite list_elem_of_In. naive_solver.
Qed.

Lemma existsb_map_false {A B} (p : B -> bool) (f : A -> B) l :
  (forall a, p (f a) = false) -> existsb p (map f l) = false.
Proof. intros Hp. induction l as [|a l IH]; [done|]. simpl. by rewrite Hp. Qed.

(** ** One table at a time *)

Fixpoint run_table (l : list change) (t : option columns_of) : option (option columns_of) :=
  match l with [] => Some t | c :: l => t ← ddl_effect (ddl_of c) t; run_table l t end.

(** The changes about the table of a SQL name. *)
Definition concerns (x : string) (c : change) : bool := bool_decide (table_key (changed_table c) = x).
Definition about (x : string) (l : list change) : list change := List.filter (concerns x) l.

Lemma ddl_of_table c : ddl_table (ddl_of c) = table_key (changed_table c).
Proof. by destruct c. Qed.

Lemma run_changes l : forall db db' : database,
  Forall change_named l -> (forall x, run_table (about x l) (db !! x) = Some (db' !! x)) ->
  run_sql (map migration_sql (map step_of l)) db = Some db'.
Proof.
  induction l as [|c l IH]; intros db db' Hn Hr; cbn [map run_sql].
  - f_equal. apply map_eq. intros x. by injection (Hr x).
  - apply Forall_cons in Hn as [Hc Hn]. unfold execute. rewrite read_step by done. cbn. rewrite ddl_of_table.
    set (k := table_key (changed_table c)). pose proof (Hr k) as Hk. unfold about in Hk. cbn [List.filter] in Hk.
    unfold concerns at 1 in Hk. fold k in Hk. rewrite bool_decide_true in Hk by done. cbn [run_table] in Hk.
    destruct (ddl_effect (ddl_of c) (db !! k)) as [t|]; [|done]. cbn in *. apply IH; [done|]. intros x.
    destruct (decide (k = x)) as [<-|Hx]; [by rewrite lookup_partial_alter_eq|]. rewrite lookup_partial_alter_ne by done.
    specialize (Hr x). unfold about in Hr. cbn [List.filter] in Hr. unfold concerns at 1 in Hr. fold k in Hr.
    by rewrite bool_decide_false in Hr by done.
Qed.

Lemma about_app x l1 l2 : about x (l1 ++ l2) = about x l1 ++ about x l2.
Proof. apply List.filter_app. Qed.

Lemma about_all x b l : (forall c, c ∈ l -> concerns x c = b) -> about x l = if b then l else [].
Proof.
  intros Hl. induction l as [|c l IH]; [by destruct b|]. unfold about in *. cbn [List.filter]. rewrite (Hl c) by set_solver.
  rewrite IH by (intros; apply Hl; set_solver). by destruct b.
Qed.

(** The table of a SQL name. *)
Definition key_map (l : list SchemaTable) : gmap string SchemaTable := list_to_map (map (fun t => (table_key t, t)) l).

Lemma keys_fst {A} (f : SchemaTable -> A) (l : list SchemaTable) : (map (fun t => (table_key t, f t)) l).*1 = table_key <$> l.
Proof. induction l as [|t l IH]; [done|]. cbn. by f_equal. Qed.

Lemma key_map_lookup l x t : NoDup (table_key <$> l) -> key_map l !! x = Some t <-> t ∈ l /\ table_key t = x.
Proof.
  intros Hd. unfold key_map. rewrite <-elem_of_list_to_map by by rewrite keys_fst. rewrite list_elem_of_fmap.
  split; [by intros (t' & [= -> ->] & Ht)|]. intros [Ht <-]. by exists t.
Qed.

(** Of the changes each table contributes about itself, those about [x] are the ones of
    the table of that name. *)
Lemma about_flat_map (g : SchemaTable -> list change) l x :
  NoDup (table_key <$> l) -> (forall t c, c ∈ g t -> table_key (changed_table c) = table_key t) ->
  about x (flat_map g l) = match key_map l !! x with Some t => g t | None => [] end.
Proof.
  intros Hd Hg. assert (forall t, about x (g t) = if bool_decide (table_key t = x) then g t else []) as Ha.
  { intros t. apply about_all. intros c Hc. unfold concerns. by rewrite (Hg t c Hc). }
  unfold key_map. revert Hd. induction l as [|t l IH]; [done|]. intros [Ht Hd]%NoDup_cons. cbn [flat_map map list_to_map foldr].
  rewrite about_app, Ha, (IH Hd). destruct (decide (table_key t = x)) as [<-|Hx].
  - rewrite bool_decide_true, lookup_insert_eq by done.
    rewrite not_elem_of_list_to_map_1; [apply app_nil_r|by rewrite keys_fst].
  - by rewrite bool_decide_false, lookup_insert_ne by done.
Qed.

Lemma changes_tables m t c :
  c ∈ create_changes (table_map (mStoredSchema m)) t \/ c ∈ drop_table_changes (table_map (mCurrentSchema m)) t \/
  c ∈ drop_column_changes (table_map (mCurrentSchema m)) t \/ c ∈ add_changes (table_map (mStoredSchema m)) t ->
  changed_table c = t.
Proof.
  unfold create_changes, add_changes, drop_table_changes, drop_column_changes.
  intros [Hc|[Hc|[Hc|Hc]]]; revert Hc; case_match;
    try (by intros ?%elem_of_nil); try (by intros ->%list_elem_of_singleton); by intros (f & -> & _)%list_elem_of_fmap.
Qed.

(** The changes about one table. *)
Definition table_changes (stored current : option SchemaTable) : list change :=
  match stored, current with
  | None, None => []
  | None, Some c => [CreateTable c]
  | Some s, None => [DropTable s]
  | Some s, Some c =>
      map (AddColumn c) (missing_columns (table_fields s) (table_fields c)) ++
      map (DropColumn s) (missing_columns (table_fields c) (table_fields s))
  end.

Lemma about_changes m x :
  NoDup (table_key <$> mStoredSchema m) -> NoDup (table_key <$> mCurrentSchema m) ->
  comparable (mStoredSchema m) (mCurrentSchema m) ->
  about x (changes m) = table_changes (key_map (mStoredSchema m) !! x) (key_map (mCurrentSchema m) !! x).
Proof.
  intros Hs Hc [_ Hsame]. unfold changes. rewrite !about_app, !about_flat_map by (try done; intros; f_equal; eapply changes_tables; eauto).
  assert (forall l, NoDup (table_key <$> l) -> NoDup (table_name <$> l)) as Hnames.
  { intros l Hd. apply (NoDup_fmap_1 (fun n => lower (tableNameToSQL n))). by rewrite <-list_fmap_compose. }
  pose proof (fun t n => table_map_lookup (mStoredSchema m) n t (Hnames _ Hs)) as Ls.
  pose proof (fun t n => table_map_lookup (mCurrentSchema m) n t (Hnames _ Hc)) as Lc.
  unfold create_changes, add_changes, drop_table_changes, drop_column_changes, lacks.
  destruct (key_map (mStoredSchema m) !! x) as [s|] eqn:Es, (key_map (mCurrentSchema m) !! x) as [c|] eqn:Ec; cbn [table_changes]; [| | |done].
  - apply key_map_lookup in Es as [Hin <-]; [|done]. apply key_map_lookup in Ec as [Hin' Hk]; [|done].
    destruct (Hsame s c Hin Hin' (eq_sym Hk)) as (Hn & _).
    rewrite (proj2 (Ls s (table_name c))), (proj2 (Lc c (table_name s))) by done. done.
  - apply key_map_lookup in Es as [Hin <-]; [|done].
    destruct (table_map (mCurrentSchema m) !! table_name s) as [c|] eqn:E; [|by rewrite app_nil_r].
    apply Lc in E as [Hin' Hn]. assert (key_map (mCurrentSchema m) !! table_key s = Some c) as E; [|by rewrite E in Ec].
    apply key_map_lookup; [done|]. split; [done|]. unfold table_key. by rewrite Hn.
  - apply key_map_lookup in Ec as [Hin <-]; [|done].
    destruct (table_map (mStoredSchema m) !! table_name c) as [s|] eqn:E; [|done].
    apply Ls in E as [Hin' Hn]. assert (key_map (mStoredSchema m) !! table_key c = Some s) as E; [|by rewrite E in Es].
    apply key_map_lookup; [done|]. split; [done|]. unfold table_key. by rewrite Hn.
Qed.

(** ** The columns of a table *)

Lemma run_table_app l1 : forall l2 t, run_table (l1 ++ l2) t = (t ← run_table l1 t; run_table l2 t).
Proof.
  induction l1 as [|c l1 IH]; intros l2 t; [done|]. cbn [app run_table]. destruct (ddl_effect _ _) as [t'|]; [|done]. apply IH.
Qed.

Lemma columns_fst l : (map column_of l).*1 = field_key <$> l.
Proof. induction l as [|f l IH]; [done|]. cbn. by f_equal. Qed.

Lemma columns_lookup l x v :
  NoDup (field_key <$> l) ->
  (list_to_map (map column_of l) : columns_of) !! x = Some v <-> exists f, f ∈ l /\ column_of f = (x, v).
Proof.
  intros Hd. rewrite <-elem_of_list_to_map by by rewrite columns_fst. rewrite list_elem_of_fmap. naive_solver.
Qed.

Lemma columns_none l x : (list_to_map (map column_of l) : columns_of) !! x = None <-> x ∉ field_key <$> l.
Proof.
  rewrite <-columns_fst. split; [apply not_elem_of_list_to_map_2|apply not_elem_of_list_to_map_1].
Qed.

Lemma run_adds t fs : forall cols,
  NoDup (field_key <$> fs) -> (forall f, f ∈ fs -> cols !! field_key f = None /\ field_name f <> "id") ->
  run_table (map (AddColumn t) fs) (Some cols) = Some (Some (list_to_map (map column_of fs) ∪ cols)).
Proof.
  induction fs as [|f fs IH]; intros cols; cbn [map run_table list_to_map foldr]; [by rewrite map_empty_union|].
  intros [Hf Hd]%NoDup_cons Hc. destruct (Hc f) as [Hn Hid]; [set_solver|]. cbn [ddl_of ddl_effect]. rewrite Hn. cbn. rewrite IH.
  - do 2 f_equal. unfold column_of at 2. rewrite bool_decide_false by done. cbn [uncurry fst snd].
    rewrite <-insert_union_r by by apply columns_none. by rewrite insert_union_l.
  - done.
  - intros g Hg. rewrite lookup_insert_ne; [apply Hc; set_solver|]. intros E. apply Hf. rewrite E. by apply list_elem_of_fmap_2.
Qed.

Lemma run_drops t fs : forall cols : columns_of,
  NoDup (field_key <$> fs) -> (forall f, f ∈ fs -> exists ty, cols !! field_key f = Some (ty, false)) ->
  (exists k, is_Some (cols !! k) /\ k ∉ field_key <$> fs) ->
  exists cols' : columns_of, run_table (map (DropColumn t) fs) (Some cols) = Some (Some cols') /\
    forall x, cols' !! x = if decide (x ∈ field_key <$> fs) then None else cols !! x.
Proof.
  induction fs as [|f fs IH]; intros cols; cbn [map run_table fmap list_fmap].
  - intros _ _ _. exists cols. split; [done|]. intros x. rewrite decide_False; [done|]. by intros ?%elem_of_nil.
  - intros [Hf Hd]%NoDup_cons Hc (k & Hk & [Hkf Hkn]%not_elem_of_cons). destruct (Hc f) as [ty Hty]; [set_solver|].
    cbn [ddl_of ddl_effect]. rewrite Hty. assert (is_Some (delete (field_key f) cols !! k)) as Hk' by by rewrite lookup_delete_ne.
    rewrite decide_False by (intros E; rewrite E, lookup_empty in Hk'; by destruct Hk'). cbn.
    destruct (IH (delete (field_key f) cols)) as (cols' & E & Hl); [done| |by exists k|].
    + intros g Hg. destruct (Hc g) as [tg Htg]; [set_solver|]. exists tg. rewrite lookup_delete_ne; [done|].
      intros E. apply Hf. rewrite E. by apply list_elem_of_fmap_2.
    + exists cols'. split; [done|]. intros x. rewrite Hl. destruct (decide (field_key f = x)) as [<-|Hx].
      * rewrite lookup_delete_eq, (decide_True (P := field_key f ∈ field_key f :: _)) by set_solver. by case_decide.
      * rewrite lookup_delete_ne by done. apply decide_ext. set_solver.
Qed.

Lemma missing_keys there here : NoDup (field_key <$> here) -> NoDup (field_key <$> missing_columns there here).
Proof.
  unfold missing_columns. induction here as [|f l IH]; [done|]. intros [Hf Hd]%NoDup_cons. cbn [List.filter].
  destruct (lacks _ _); [|by apply IH]. apply NoDup_cons. split; [|by apply IH]. intros Hin. apply Hf.
  apply list_elem_of_fmap in Hin as (g & -> & Hg). apply list_elem_of_fmap_2. apply list_elem_of_In, filter_In in Hg as [Hg _].
  by apply list_elem_of_In.
Qed.

Lemma common_table s c :
  NoDup (field_key <$> table_fields s) -> NoDup (field_key <$> table_fields c) -> table_fields c <> [] ->
  ("id" ∈ field_name <$> table_fields s <-> "id" ∈ field_name <$> table_fields c) ->
  (forall f g, f ∈ table_fields s -> g ∈ table_fields c -> field_key f = field_key g ->
     field_name f = field_name g /\ blangTypeToSQL (field_type f) = blangTypeToSQL (field_type g)) ->
  run_table (table_changes (Some s) (Some c)) (Some (columns s)) = Some (Some (columns c)).
Proof.
  intros Hs Hc Hne Hid Hsame. cbn [table_changes]. set (new := missing_columns (table_fields s) (table_fields c)).
  set (old := missing_columns (table_fields c) (table_fields s)).
  assert (forall f, f ∈ new <-> f ∈ table_fields c /\ field_name f ∉ field_name <$> table_fields s) as Hnew by (intros f; apply missing_columns_spec).
  assert (forall f, f ∈ old <-> f ∈ table_fields s /\ field_name f ∉ field_name <$> table_fields c) as Hold by (intros f; apply missing_columns_spec).
  assert (forall f, f ∈ new -> field_key f ∉ field_key <$> table_fields s) as Hfar.
  { intros f [Hf Hn]%Hnew (g & Hk & Hg)%list_elem_of_fmap. destruct (Hsame g f Hg Hf (eq_sym Hk)) as [E _].
    apply Hn. rewrite <-E. by apply list_elem_of_fmap_2. }
  assert (forall f g, f ∈ old -> g ∈ table_fields c -> field_key f <> field_key g) as Hgone.
  { intros f g [Hf Hn]%Hold Hg Hk. destruct (Hsame f g Hf Hg Hk) as [E _]. apply Hn. rewrite E. by apply list_elem_of_fmap_2. }
  rewrite run_table_app, run_adds; [|by apply missing_keys|].
  2: { intros f Hf. split; [by apply columns_none, Hfar|]. intros E. apply Hnew in Hf as [Hf Hn]. apply Hn. rewrite E. apply Hid.
       rewrite <-E. by apply list_elem_of_fmap_2. }
  cbn. fold new old. set (both := list_to_map (map column_of new) ∪ columns s).
  assert (forall g, g ∈ table_fields c -> both !! field_key g = Some (column_of g).2) as Hboth.
  { intros g Hg. destruct (decide (field_name g ∈ field_name <$> table_fields s)) as [Hin|Hn].
    - unfold both. apply list_elem_of_fmap in Hin as (f & E & Hf). assert (field_key f = field_key g) as Hk by (unfold field_key; by rewrite E).
      destruct (Hsame f g Hf Hg Hk) as [_ Ety]. rewrite lookup_union_r.
      + apply columns_lookup; [done|]. exists f. split; [done|]. unfold column_of. cbn [snd]. by rewrite Hk, E, Ety.
      + apply columns_none. intros (h & Hkh & Hh)%list_elem_of_fmap. apply (Hfar h Hh). rewrite <-Hkh, <-Hk. by apply list_elem_of_fmap_2.
    - unfold both. apply lookup_union_Some_l, columns_lookup; [by apply missing_keys|]. exists g. split; [by apply Hnew|done]. }
  destruct (run_drops s old both) as (cols & E & Hl).
  - by apply missing_keys.
  - intros f Hf. pose proof Hf as [Hin Hn]%Hold. exists (blangTypeToSQL (field_type f)). unfold both. rewrite lookup_union_r.
    + apply columns_lookup; [done|]. exists f. split; [done|]. unfold column_of. rewrite bool_decide_false; [done|].
      intros Ei. apply Hn. rewrite Ei. apply Hid. rewrite <-Ei. by apply list_elem_of_fmap_2.
    + apply columns_none. intros (h & Hkh & [Hh _]%Hnew)%list_elem_of_fmap. by apply (Hgone f h).
  - destruct (table_fields c) as [|g l] eqn:Ec; [done|]. exists (field_key g). split; [by eexists; apply Hboth; left|].
    intros (f & Hk & Hf)%list_elem_of_fmap. apply (Hgone f g Hf); [by left|done].
  - rewrite E. do 2 f_equal. apply map_eq. intros x. rewrite Hl. destruct (columns c !! x) as [v|] eqn:Ex.
    + apply columns_lookup in Ex as (g & Hg & [= <- <-]); [|done]. rewrite decide_False; [by apply Hboth|].
      intros (f & Hk & Hf)%list_elem_of_fmap. by apply (Hgone f g).
    + apply columns_none in Ex. case_decide as Hx; [done|]. unfold both. apply lookup_union_None. split; apply columns_none.
      * intros (h & -> & [Hh _]%Hnew)%list_elem_of_fmap. apply Ex. by apply list_elem_of_fmap_2.
      * intros (f & -> & Hf)%list_elem_of_fmap. apply Hx. apply list_elem_of_fmap_2, Hold. split; [done|].
        intros (g & En & Hg)%list_elem_of_fmap. apply Ex. unfold field_key. rewrite En. by apply (list_elem_of_fmap_2 field_key).
Qed.

Lemma changes_named m :
  named_in_sql (mStoredSchema m) -> named_in_sql (mCurrentSchema m) -> comparable (mStoredSchema m) (mCurrentSchema m) ->
  Forall change_named (changes m).
Proof.
  intros [_ Hs] [_ Hc] [Hne _]. rewrite Forall_forall in Hs, Hc, Hne. apply Forall_forall. unfold changes. intros c.
  rewrite !elem_of_app. setoid_rewrite list_elem_of_In. rewrite !in_flat_map. setoid_rewrite <-list_elem_of_In.
  intros [(t & Ht & Hin)|[(t & Ht & Hin)|[(t & Ht & Hin)|(t & Ht & Hin)]]]; revert Hin;
    unfold create_changes, add_changes, drop_table_changes, drop_column_changes; case_match; try (by intros ?%elem_of_nil).
  - intros ->%list_elem_of_singleton. destruct (Hc t Ht) as (Hn & Hf & _). split; [done|]. split; [by apply Hne|done].
  - intros (f & -> & [Hf _]%missing_columns_spec)%list_elem_of_fmap. destruct (Hc t Ht) as (Hn & Hfs & _). split; [done|].
    rewrite Forall_forall in Hfs. by apply Hfs.
  - intros ->%list_elem_of_singleton. by destruct (Hs t Ht).
  - intros (f & -> & [Hf _]%missing_columns_spec)%list_elem_of_fmap. destruct (Hs t Ht) as (Hn & Hfs & _). split; [done|].
    rewrite Forall_forall in Hfs. by apply Hfs.
Qed.

Lemma database_lookup l x : database_of l !! x = columns <$> key_map l !! x.
Proof.
  unfold database_of, key_map. induction l as [|t l IH]; [done|]. cbn [map list_to_map foldr uncurry fst snd].
  destruct (decide (table_key t = x)) as [<-|Hx]; [by rewrite !lookup_insert_eq|by rewrite !lookup_insert_ne].
Qed.
End database.

(** C27. Migration is right: the statements of [computeDiff], as texts that a database
    reads and carries out in their order, none of which fails, turn a database that has
    the stored schema into one that has the current schema: its tables by their SQL names,
    and their columns with SQL types and primary keys. It is assumed that the names are
    SQL names, of tables and of a table's columns different not only in case; that what
    both schemas call alike in SQL, they call alike; that a column of both schemas has
    the same SQL type in both, and that [id] is in both or neither; and that a table of
    the current schema has a column. Each of these is needed: see below. *)
Theorem computeDiff_migrates (reserved : string -> bool) (m : SchemaMigration) :
  named_in_sql reserved (mStoredSchema m) -> named_in_sql reserved (mCurrentSchema m) ->
  comparable (mStoredSchema m) (mCurrentSchema m) ->
  run_sql reserved (map migration_sql (computeDiff m)) (database_of (mStoredSchema m)) = Some (database_of (mCurrentSchema m)).
Proof.
  intros Hs Hc Hcmp. rewrite computeDiff_changes. apply run_changes; [by apply changes_named|]. intros x.
  destruct Hs as [Hds Hs], Hc as [Hdc Hc]. rewrite about_changes, !database_lookup by done. rewrite Forall_forall in Hs, Hc.
  destruct (key_map (mStoredSchema m) !! x) as [s|] eqn:Es, (key_map (mCurrentSchema m) !! x) as [c|] eqn:Ec; [| | |done].
  - apply key_map_lookup in Es as [Hins <-]; [|done]. apply key_map_lookup in Ec as [Hinc Hk]; [|done].
    destruct Hcmp as [Hne Hsame]. rewrite Forall_forall in Hne. destruct (Hsame s c Hins Hinc (eq_sym Hk)) as (_ & Hid & Hf).
    destruct (Hs s Hins) as (_ & _ & Hds'), (Hc c Hinc) as (_ & _ & Hdc'). by apply common_table; [..|apply Hne| |].
  - done.
  - apply key_map_lookup in Ec as [Hinc <-]; [|done]. destruct (Hc c Hinc) as (_ & _ & Hd). cbn [table_changes run_table ddl_of ddl_effect fmap option_fmap option_map].
    rewrite decide_True by by rewrite columns_fst. done.
Qed.

(** Some words that are not names. *)
Definition keyword (w : string) : bool := bool_decide (w ∈ ["create"; "drop"; "group"; "index"; "order"; "select"; "table"; "values"; "where"]).

Lemma computeDiff_migrates_witness :
  let int name := mkField name "int" in
  let m := mkMigration [mkTable "User" [int "id"; int "age"]; mkTable "OldTag" [int "id"]]
                       [mkTable "User" [mkField "id" "long"; mkField "fullName" "string"]; mkTable "NewTag" [int "id"]] in
  map migration_sql (computeDiff m) =
    ["CREATE TABLE IF NOT EXISTS new_tag (id INTEGER PRIMARY KEY)"; "ALTER TABLE user ADD COLUMN fullName TEXT";
     "DROP TABLE old_tag"; "ALTER TABLE user DROP COLUMN age"] /\
  run_sql keyword (map migration_sql (computeDiff m)) (database_of (mStoredSchema m)) = Some (database_of (mCurrentSchema m)).
Proof.
  intros int m. split; [vm_compute; reflexivity|].
  assert (forall l, NoDup (table_key <$> l) -> forallb (fun t =>
      bool_decide (sql_name keyword (tableNameToSQL (table_name t)) = Some (table_key t)) &&
      forallb (fun f => bool_decide (sql_name keyword (field_name f) = Some (field_key f))) (table_fields t) &&
      bool_decide (NoDup (field_key <$> table_fields t))) l = true -> named_in_sql keyword l) as Hnamed.
  { intros l Hd Hl. split; [exact Hd|]. rewrite forallb_forall in Hl. apply Forall_forall. intros t Ht.
    apply list_elem_of_In, Hl in Ht. apply andb_prop in Ht as [[H1 H2]%andb_prop H3].
    apply bool_decide_eq_true in H1, H3. rewrite forallb_forall in H2. split; [exact H1|]. split; [|exact H3].
    apply Forall_forall. intros f Hf. by apply list_elem_of_In, H2, bool_decide_eq_true in Hf. }
  apply (computeDiff_migrates keyword m).
  - apply Hnamed; [by apply (bool_decide_unpack _); vm_compute|vm_compute; reflexivity].
  - apply Hnamed; [by apply (bool_decide_unpack _); vm_compute|vm_compute; reflexivity].
  - split; [by repeat constructor|]. cbn [m mStoredSchema mCurrentSchema].
    intros s c [-> |[-> |?%elem_of_nil]%elem_of_cons]%elem_of_cons [-> |[-> |?%elem_of_nil]%elem_of_cons]%elem_of_cons; try done.
    intros _. split; [done|]. split; [split; intros _; cbn; set_solver|].
    intros f g [-> |[-> |?%elem_of_nil]%elem_of_cons]%elem_of_cons [-> |[-> |?%elem_of_nil]%elem_of_cons]%elem_of_cons; done.
Defined.

(** ** What is not migrated *)

(** A table struct that is renamed so that its SQL name stays is dropped, with its rows. *)
Lemma renamed_table_dropped :
  let user name := [mkTable name [mkField "id" "int"]] in
  let m := mkMigration (user "user") (user "User") in
  run_sql keyword (map migration_sql (computeDiff m)) (database_of (mStoredSchema m)) = Some ∅ /\
  map migration_sql (computeDiff m) = ["CREATE TABLE IF NOT EXISTS user (id INTEGER PRIMARY KEY)"; "DROP TABLE user"].
Proof. vm_compute. split; reflexivity. Qed.

(** A field [id] that is added later is not the primary key it is in a new table. *)
Lemma added_id_not_primary :
  let m := mkMigration [mkTable "User" [mkField "age" "int"]] [mkTable "User" [mkField "age" "int"; mkField "id" "int"]] in
  run_sql keyword (map migration_sql (computeDiff m)) (database_of (mStoredSchema m)) <> Some (database_of (mCurrentSchema m)) /\
  map migration_sql (computeDiff m) = ["ALTER TABLE user ADD COLUMN id INTEGER"].
Proof. split; [apply (bool_decide_unpack _); vm_compute; exact I|vm_compute; reflexivity]. Qed.

(** The statement for a table struct named as a word of SQL is not read. *)
Lemma reserved_table_name :
  let m := mkMigration [] [mkTable "Order" [mkField "id" "int"]] in
  run_sql keyword (map migration_sql (computeDiff m)) ∅ = None /\
  map migration_sql (computeDiff m) = ["CREATE TABLE IF NOT EXISTS order (id INTEGER PRIMARY KEY)"].
Proof. vm_compute. split; reflexivity. Qed.

(** Destruction is flagged: the difference has a destructive step exactly
    when some stored table, or some column of a table in both schemas, is
    missing from the current schema. *)
Theorem hasDestructiveChanges_spec (m : SchemaMigration) :
  NoDup (table_name <$> mStoredSchema m) -> NoDup (table_name <$> mCurrentSchema m) ->
  hasDestructiveChanges m = true <->
  exists t, t ∈ mStoredSchema m /\
    ((forall c, c ∈ mCurrentSchema m -> table_name c <> table_name t) \/
     exists c f, c ∈ mCurrentSchema m /\ table_name c = table_name t /\
       f ∈ table_fields t /\ field_name f ∉ field_name <$> table_fields c).
Proof.
  intros Hs Hc. unfold hasDestructiveChanges, computeDiff. rewrite !existsb_app, !orb_true_iff, !existsb_flat_map.
  split.
  - intros [(t & _ & Hd)|[(t & _ & Hd)|[(t & Ht & Hd)|(t & Ht & Hd)]]].
    + unfold create_steps in Hd. by destruct (lacks _ _).
    + unfold add_steps in Hd. destruct (_ !! _); [|done]. by rewrite existsb_map_false in Hd.
    + exists t. split; [done|]. left. intros c Hin Heq. unfold drop_table_steps, lacks in Hd.
      by rewrite (proj2 (table_map_lookup _ _ c Hc)) in Hd.
    + exists t. split; [done|]. right. unfold drop_column_steps in Hd.
      destruct (table_map (mCurrentSchema m) !! table_name t) as [c|] eqn:Hl; [|done].
      apply table_map_lookup in Hl as [Hin Heq]; [|done].
      destruct (missing_columns (table_fields c) (table_fields t)) as [|f l] eqn:Hm; [done|].
      assert (f ∈ missing_columns (table_fields c) (table_fields t)) as [Hf Hn]%missing_columns_spec
        by (rewrite Hm; set_solver). by exists c, f.
  - intros (t & Ht & [Hno|(c & f & Hin & Heq & Hf & Hn)]); right; right.
    + left. exists t. split; [done|]. unfold drop_table_steps, lacks.
      destruct (table_map (mCurrentSchema m) !! table_name t) as [c|] eqn:Hl; [|done].
      apply table_map_lookup in Hl as [Hin Heq]; [|done]. by destruct (Hno c Hin).
    + right. exists t. split; [done|]. unfold drop_column_steps.
      rewrite (proj2 (table_map_lookup _ (table_name t) c Hc)) by done.
      assert (f ∈ missing_columns (table_fields c) (table_fields t)) as Hm by by apply missing_columns_spec.
      destruct (missing_columns _ _); [by apply elem_of_nil in Hm|done].
Qed.

Lemma hasDestructiveChanges_spec_witness :
  let int name := mkField name "int" in
  let m := mkMigration [mkTable "User" [int "id"; int "age"]] [mkTable "User" [int "id"]] in
  hasDestructiveChanges m = true.
Proof.
  intros int m. apply (hasDestructiveChanges_spec m); try (by apply (bool_decide_unpack _); vm_compute).
  exists (mkTable "User" [int "id"; int "age"]). split; [by apply list_elem_of_singleton|]. right.
  exists (mkTable "User" [int "id"]), (int "age"). split_and!; [by apply list_elem_of_singleton|done| |].
  - simpl. set_solver.
  - by apply (bool_decide_unpack _); vm_compute.
Defined.

(** A change of a column's type is not migrated: two schemas that differ only
    in the types of their columns have no difference. *)
Theorem type_changes_not_migrated (stored current : list SchemaTable) :
  map (fun t => (table_name t, map field_name (table_fields t))) stored =
  map (fun t => (table_name t, map field_name (table_fields t))) current ->
  NoDup (table_name <$> stored) ->
  computeDiff (mkMigration stored current) = [].
Proof.
  intros Heq Hs. set (shape t := (table_name t, map field_name (table_fields t))) in *.
  assert (forall l, table_name <$> l = map fst (map shape l)) as Hnames by (intros l; by rewrite map_map).
  assert (NoDup (table_name <$> current)) as Hc by by rewrite Hnames, <- Heq, <- Hnames.
  assert (forall l l', map shape l = map shape l' -> forall t, t ∈ l -> exists t', t' ∈ l' /\
    table_name t' = table_name t /\ map field_name (table_fields t') = map field_name (table_fields t)) as Hsame.
  { intros l l' He t Ht. assert (shape t ∈ map shape l') as Hin by (rewrite <- He; by apply list_elem_of_fmap_2).
    apply list_elem_of_fmap in Hin as (t' & [= Hn Hf] & Ht'). by exists t'. }
  assert (forall l l', NoDup (table_name <$> l') -> map shape l = map shape l' -> forall t, t ∈ l ->
    exists t', table_map l' !! table_name t = Some t' /\ missing_columns (table_fields t') (table_fields t) = [])
    as Hfound.
  { intros l l' Hd He t Ht. destruct (Hsame l l' He t Ht) as (t' & Ht' & Hn & Hf). exists t'.
    split; [by apply table_map_lookup|]. destruct (missing_columns _ _) as [|f fs] eqn:Hm; [done|].
    assert (f ∈ missing_columns (table_fields t') (table_fields t)) as [Hin Hno]%missing_columns_spec
      by (rewrite Hm; set_solver).
    destruct Hno. change (field_name f ∈ map field_name (table_fields t')). rewrite Hf. by apply list_elem_of_fmap_2. }
  assert (forall (l : list SchemaTable) (g : SchemaTable -> list MigrationStep),
    (forall t, t ∈ l -> g t = []) -> flat_map g l = []) as Hnil.
  { intros l g Hg. induction l as [|t l IH]; [done|]. simpl. rewrite Hg by set_solver. apply IH. intros; apply Hg. set_solver. }
  unfold computeDiff. cbn [mStoredSchema mCurrentSchema].
  rewrite !Hnil; try done; intros t Ht.
  - unfold drop_column_steps. by destruct (Hfound stored current Hc Heq t Ht) as (t' & -> & ->).
  - unfold drop_table_steps, lacks. by destruct (Hfound stored current Hc Heq t Ht) as (t' & -> & _).
  - unfold add_steps. by destruct (Hfound current stored Hs (eq_sym Heq) t Ht) as (t' & -> & ->).
  - unfold create_steps, lacks. by destruct (Hfound current stored Hs (eq_sym Heq) t Ht) as (t' & -> & _).
Qed.

Lemma type_changes_not_migrated_witness :
  preview (mkMigration [mkTable "User" [mkField "age" "int"]] [mkTable "User" [mkField "age" "string"]]) =
  "No schema changes detected." +:+ line.
Proof.
  assert (computeDiff (mkMigration [mkTable "User" [mkField "age" "int"]] [mkTable "User" [mkField "age" "string"]]) = [])
    as Hd.
  { apply (type_changes_not_migrated [mkTable "User" [mkField "age" "int"]] [mkTable "User" [mkField "age" "string"]]);
      [reflexivity|]. by apply (bool_decide_unpack _); vm_compute. }
  unfold preview. rewrite Hd. reflexivity.
Defined.
