(* ===== verification/Json.v ===== *)
(** The JSON values of the language server ([class Json], [src/lsp/Json.h],
    [src/lsp/Json.cpp]): the values, their text, and the parser. *)

From stdpp Require Import pretty.
From Stdlib Require Import Floats.SpecFloat.
From S2P Require Import Prelude Lexer Diagnostics.

(** * Values *)

(** An object keeps its members in the order they were set in. *)
Inductive Json :=
  | JNull
  | JBool (mBool : bool)
  | JNumber (mNumber : spec_float)
  | JString (mString : string)
  | JArray (mArray : list Json)
  | JObject (mObject : list (string * Json)).

(** [Json( int )]: an [int] is a [double]. *)
Definition double_of_Z (n : Z) : spec_float := binary_normalize 53 1024 n 0 false.
Definition json_int (n : Z) : Json := JNumber (double_of_Z n).

Definition isObject (j : Json) : bool := match j with JObject _ => true | _ => false end.
Definition isArray (j : Json) : bool := match j with JArray _ => true | _ => false end.

(** The part of a double before the point, for a double that has one. *)
Definition double_trunc (d : spec_float) : option Z :=
  match d with
  | S754_zero _ => Some 0%Z
  | S754_finite s m e =>
      let n := if decide (0 <= e)%Z then (Z.pos m * 2 ^ e)%Z else (Z.pos m / 2 ^ (- e))%Z in
      Some (if s then (- n)%Z else n)
  | S754_infinity _ | S754_nan => None
  end.

Definition asNumber (j : Json) : spec_float := match j with JNumber d => d | _ => S754_zero false end.

(** The conversion of a double that does not fit an [int] is undefined. *)
Definition asInt (j : Json) : outcome Z :=
  match double_trunc (asNumber j) with
  | Some n => if decide (-2 ^ 31 <= n < 2 ^ 31)%Z then Done n else UndefinedBehaviour
  | None => UndefinedBehaviour
  end.

Definition asString (j : Json) : string := match j with JString s => s | _ => "" end.

Definition push (j v : Json) : Json := match j with JArray l => JArray (l ++ [v]) | _ => j end.

Definition json_size (j : Json) : nat :=
  match j with JArray l => length l | JObject l => length l | _ => 0 end.

Definition json_at (j : Json) (i : nat) : Json :=
  match j with JArray l => default JNull (l !! i) | _ => JNull end.

(** [set]: in place, or behind the others. *)
Fixpoint set_member (key : string) (v : Json) (l : list (string * Json)) : list (string * Json) :=
  match l with
  | [] => [(key, v)]
  | (k, w) :: l' => if decide (k = key) then (k, v) :: l' else (k, w) :: set_member key v l'
  end.
Definition json_set (key : string) (v j : Json) : Json :=
  match j with JObject l => JObject (set_member key v l) | _ => j end.

Fixpoint find_member (key : string) (l : list (string * Json)) : option Json :=
  match l with
  | [] => None
  | (k, w) :: l' => if decide (k = key) then Some w else find_member key l'
  end.
Definition json_has (key : string) (j : Json) : bool :=
  match j with JObject l => bool_decide (is_Some (find_member key l)) | _ => false end.
Definition json_get (key : string) (j : Json) : Json :=
  match j with JObject l => default JNull (find_member key l) | _ => JNull end.

(** * Numbers as text *)

(** [modf( d, ... ) == 0.0]. *)
Definition is_integral (d : spec_float) : bool :=
  match d with
  | S754_zero _ | S754_infinity _ => true
  | S754_nan => false
  | S754_finite _ m e => bool_decide (0 <= e)%Z || bool_decide (Z.pos m mod 2 ^ (- e) = 0)%Z
  end.

(** The decimal exponent of [n / d], given enough fuel: [10 ^ x <= n / d < 10 ^ (x + 1)]. *)
Fixpoint decimal_exponent (fuel : nat) (n d x : Z) : Z :=
  match fuel with
  | 0 => x
  | S fuel =>
      if decide (n < d)%Z then decimal_exponent fuel (n * 10) d (x - 1)
      else if decide (10 * d <= n)%Z then decimal_exponent fuel n (d * 10) (x + 1)
      else x
  end.

(** [n / d] rounded, to the even one of two that are as near. *)
Definition round_div (n d : Z) : Z :=
  let q := (n / d)%Z in
  match (2 * (n mod d) ?= d)%Z with
  | Lt => q
  | Gt => (q + 1)%Z
  | Eq => if Z.even q then q else (q + 1)%Z
  end.

Definition strip_zeros (l : list ascii) : list ascii :=
  let fix go l := match l with c :: l' => if decide (c = "0"%char) then go l' else l | [] => [] end in
  reverse (go (reverse l)).

(** Digits behind a point, without it when there are none. *)
Definition fraction (l : list ascii) : string :=
  let l := strip_zeros l in if decide (l = []) then "" else "." +:+ str l.

Definition two_digits (n : Z) : string := if decide (n < 10)%Z then "0" +:+ pretty n else pretty n.

(** [printf( "%.17g" )]. *)
Definition format_g17 (d : spec_float) : string :=
  match d with
  | S754_zero s => if s then "-0" else "0"
  | S754_infinity s => if s then "-inf" else "inf"
  | S754_nan => "nan"
  | S754_finite s m e =>
      let n := if decide (0 <= e)%Z then (Z.pos m * 2 ^ e)%Z else Z.pos m in
      let k := if decide (0 <= e)%Z then 1%Z else (2 ^ (- e))%Z in
      let x := decimal_exponent 700 n k 0 in
      let digits := if decide (x <= 16)%Z then round_div (n * 10 ^ (16 - x)) k else round_div n (k * 10 ^ (x - 16)) in
      let '(digits, x) := if decide (digits = 10 ^ 17)%Z then ((10 ^ 16)%Z, (x + 1)%Z) else (digits, x) in
      let l := chars (pretty digits) in
      (if s then "-" else "") +:+
      (if bool_decide (x < -4)%Z || bool_decide (17 <= x)%Z then
         str (take 1 l) +:+ fraction (drop 1 l) +:+ "e" +:+
         (if decide (x < 0)%Z then "-" +:+ two_digits (- x) else "+" +:+ two_digits x)
       else if decide (0 <= x)%Z then
         str (take (S (Z.to_nat x)) l) +:+ fraction (drop (S (Z.to_nat x)) l)
       else "0" +:+ fraction (replicate (Z.to_nat (- x) - 1) "0"%char ++ l))
  end.

Definition number_text (d : spec_float) : string :=
  match double_trunc d with
  | Some n => if is_integral d && bool_decide (Z.abs n < 9007199254740992)%Z then pretty n else format_g17 d
  | None => format_g17 d
  end.

Example number_text_samples :
  map (fun '(m, e) => number_text (binary_normalize 53 1024 m e false))
    [(1, 0); (-7, 0); (3, -1); (1, 53); (-1, -20); (7205759403792794, -56); (1, 200)]%Z =
  ["1"; "-7"; "1.5"; "9007199254740992"; "-9.5367431640625e-07"; "0.10000000000000001"; "1.6069380442589903e+60"].
Proof. vm_compute. reflexivity. Qed.

(** * Serialization *)

Definition appendEscaped_char (c : ascii) : list ascii :=
  match c with
  | "034"%char => [backslash; dquote]
  | "\"%char => [backslash; backslash]
  | "008"%char => [backslash; "b"%char]
  | "012"%char => [backslash; "f"%char]
  | "010"%char => [backslash; "n"%char]
  | "013"%char => [backslash; "r"%char]
  | "009"%char => [backslash; "t"%char]
  | _ => if decide (N_of_ascii c < 32)%N then unicode_escape c else [c]
  end.

Fixpoint appendEscaped_chars (l : list ascii) : list ascii :=
  match l with [] => [] | c :: l' => appendEscaped_char c ++ appendEscaped_chars l' end.

Definition appendEscaped (s : string) : list ascii := dquote :: appendEscaped_chars (chars s) ++ [dquote].

(** Texts with commas between them. *)
Fixpoint commas (l : list (list ascii)) : list ascii :=
  match l with [] => [] | [t] => t | t :: l' => t ++ ","%char :: commas l' end.

Fixpoint serializeTo (j : Json) : list ascii :=
  match j with
  | JNull => chars "null"
  | JBool b => chars (if b then "true" else "false")
  | JNumber d => chars (number_text d)
  | JString s => appendEscaped s
  | JArray l => "["%char :: commas (map serializeTo l) ++ ["]"%char]
  | JObject l =>
      "{"%char :: commas (map (fun '(k, v) => appendEscaped k ++ ":"%char :: serializeTo v) l) ++ ["}"%char]
  end.

Definition serialize (j : Json) : string := str (serializeTo j).

(** * Parsing

    [struct Parser]: where it stands and what is left of the text. A function
    that fails leaves a message and a position, with which everything fails that
    called it. *)

Record cursor := mkCursor { cu_pos : nat; cu_rest : list ascii }.

(** A result, or the message. *)
Definition jparse (A : Type) : Type := cursor -> outcome ((A + string) * cursor).

#[export] Instance jparse_ret : MRet jparse := fun A a c => Done (inl a, c).
#[export] Instance jparse_bind : MBind jparse := fun A B k m c =>
  match m c with
  | Done (inl a, c') => k a c'
  | Done (inr e, c') => Done (inr e, c')
  | UndefinedBehaviour => UndefinedBehaviour
  | OutOfFuel => OutOfFuel
  end.

Definition fail {A} (message : string) : jparse A := fun c =>
  Done (inr (message +:+ " at byte " +:+ pretty (N.of_nat (cu_pos c))), c).

Fixpoint json_loop {B A} (fuel : nat) (body : B -> jparse (loop_step B A)) (b : B) : jparse A :=
  match fuel with
  | 0 => fun _ => OutOfFuel
  | S n => step ← body b; match step with Next b' => json_loop n body b' | Break a => mret a end
  end.

Definition json_rest : jparse (list ascii) := fun c => Done (inl (cu_rest c), c).

(** [pos += n]. *)
Definition skip (n : nat) : jparse unit := fun c => Done (inl tt, mkCursor (cu_pos c + n) (drop n (cu_rest c))).

(** The length of the longest prefix of such characters. *)
Fixpoint prefix_length (p : ascii -> bool) (l : list ascii) : nat :=
  match l with c :: l' => if p c then S (prefix_length p l') else 0 | [] => 0 end.

Definition json_space (c : ascii) : bool :=
  bool_decide (c ∈ [" "%char; ascii_of_N 9; ascii_of_N 10; ascii_of_N 13]).

Definition skipWhitespace : jparse unit := l ← json_rest; skip (prefix_length json_space l).

Definition consume (c : ascii) : jparse bool :=
  l ← json_rest;
  match l with
  | d :: _ => if decide (d = c) then skip 1;; mret true else mret false
  | [] => mret false
  end.

(** [text.compare( pos, len, word ) == 0]. *)
Definition literal (word : string) : jparse unit :=
  l ← json_rest;
  if decide (take (String.length word) l = chars word) then skip (String.length word) else fail "invalid literal".

Definition byte (n : N) : ascii := ascii_of_N n.

(** A code point as UTF-8. *)
Definition appendCodepoint (cp : N) : list ascii :=
  if decide (cp < 0x80)%N then [byte cp]
  else if decide (cp < 0x800)%N then
    [byte (N.lor 0xC0 (N.shiftr cp 6)); byte (N.lor 0x80 (N.land cp 0x3F))]
  else if decide (cp < 0x10000)%N then
    [byte (N.lor 0xE0 (N.shiftr cp 12)); byte (N.lor 0x80 (N.land (N.shiftr cp 6) 0x3F));
     byte (N.lor 0x80 (N.land cp 0x3F))]
  else
    [byte (N.lor 0xF0 (N.shiftr cp 18)); byte (N.lor 0x80 (N.land (N.shiftr cp 12) 0x3F));
     byte (N.lor 0x80 (N.land (N.shiftr cp 6) 0x3F)); byte (N.lor 0x80 (N.land cp 0x3F))].

Definition hex_value (c : ascii) : option N :=
  let n := N_of_ascii c in
  if char_between "0" "9" c then Some (n - 48)%N
  else if char_between "a" "f" c then Some (n - 87)%N
  else if char_between "A" "F" c then Some (n - 55)%N
  else None.

(** [out <<= 4; out |= digit]. *)
Fixpoint hex_number (l : list ascii) (acc : N) : option N :=
  match l with
  | [] => Some acc
  | c :: l' => d ← hex_value c; hex_number l' (N.lor (N.shiftl acc 4) d)
  end.

Definition parseHex4 : jparse N :=
  l ← json_rest;
  if decide (length l < 4) then fail "truncated \u escape"
  else
    match hex_number (take 4 l) 0 with
    | Some n => skip 4;; mret n
    | None => fail "invalid \u escape"
    end.

(** Behind [\u]: a code point, from one unit or from a pair of surrogates. *)
Definition unicode_character : jparse (list ascii) :=
  cp ← parseHex4;
  if bool_decide (0xD800 <= cp)%N && bool_decide (cp <= 0xDBFF)%N then
    l ← json_rest;
    match l with
    | a :: b :: _ =>
        if bool_decide (a = backslash) && bool_decide (b = "u"%char) then
          skip 2;;
          low ← parseHex4;
          if bool_decide (low < 0xDC00)%N || bool_decide (0xDFFF < low)%N then fail "invalid low surrogate"
          else mret (appendCodepoint (0x10000 + N.shiftl (cp - 0xD800) 10 + (low - 0xDC00)))
        else fail "unpaired high surrogate"
    | _ => fail "unpaired high surrogate"
    end
  else if bool_decide (0xDC00 <= cp)%N && bool_decide (cp <= 0xDFFF)%N then fail "unpaired low surrogate"
  else mret (appendCodepoint cp).

(** What an escape stands for. *)
Definition simple_escape (e : ascii) : option ascii :=
  match e with
  | "034"%char => Some dquote
  | "\"%char => Some backslash
  | "/"%char => Some "/"%char
  | "b"%char => Some (ascii_of_N 8)
  | "f"%char => Some (ascii_of_N 12)
  | "n"%char => Some (ascii_of_N 10)
  | "r"%char => Some (ascii_of_N 13)
  | "t"%char => Some (ascii_of_N 9)
  | _ => None
  end.

(** One pass of [parseString]'s loop. *)
Definition string_pass (out : list ascii) : jparse (loop_step (list ascii) string) :=
  l ← json_rest;
  match l with
  | [] => fail "unterminated string"
  | c :: _ =>
      if decide (c = dquote) then skip 1;; mret (Break (str out))
      else if decide (c = backslash) then
        skip 1;;
        l ← json_rest;
        match l with
        | [] => fail "truncated escape"
        | e :: _ =>
            skip 1;;
            match simple_escape e with
            | Some d => mret (Next (out ++ [d]))
            | None =>
                if decide (e = "u"%char) then u ← unicode_character; mret (Next (out ++ u))
                else fail "invalid escape"
            end
        end
      else if decide (N_of_ascii c < 0x20)%N then fail "unescaped control character in string"
      else skip 1;; mret (Next (out ++ [c]))
  end.

Definition parseString (fuel : nat) : jparse string :=
  q ← consume dquote;
  if q : bool then json_loop fuel string_pass [] else fail "expected string".

(** ** Numbers *)

Definition digit_value (c : ascii) : Z := (Z.of_N (N_of_ascii c) - 48)%Z.
Definition decimal (l : list ascii) : Z := foldl (fun n c => (n * 10 + digit_value c)%Z) 0%Z l.

(** A sign, which may be missing. *)
Definition take_sign (l : list ascii) : bool * list ascii :=
  match l with
  | "-"%char :: l' => (true, l')
  | "+"%char :: l' => (false, l')
  | _ => (false, l)
  end.

Definition take_digits (l : list ascii) : list ascii * list ascii :=
  let n := prefix_length isDigit l in (take n l, drop n l).

(** The longest prefix that [strtod] reads as a decimal number: its sign, its
    digits as an integer, the power of ten they are to be multiplied with, and
    what follows. *)
Definition read_decimal (l : list ascii) : option (bool * Z * Z * list ascii) :=
  let '(neg, l1) := take_sign l in
  let '(whole, l2) := take_digits l1 in
  let '(frac, l3) :=
    match l2 with "."%char :: l' => let '(f, l'') := take_digits l' in (f, if decide (whole ++ f = []) then l2 else l'') | _ => ([], l2) end in
  if decide (whole ++ frac = []) then None
  else
    let e := (- Z.of_nat (length frac))%Z in
    let m := decimal (whole ++ frac) in
    match l3 with
    | c :: l4 =>
        if bool_decide (c = "e"%char) || bool_decide (c = "E"%char) then
          let '(eneg, l5) := take_sign l4 in
          let '(ds, l6) := take_digits l5 in
          if decide (ds = []) then Some (neg, m, e, l3)
          else Some (neg, m, (e + (if eneg then - decimal ds else decimal ds))%Z, l6)
        else Some (neg, m, e, l3)
    | [] => Some (neg, m, e, l3)
    end.

(** The double nearest to [m * 10 ^ e]. *)
Definition scaled_double (neg : bool) (m e : Z) : spec_float :=
  if decide (m = 0%Z) then S754_zero neg
  else if decide (0 <= e)%Z then
    binary_normalize 53 1024 (if neg then - (m * 10 ^ e) else m * 10 ^ e)%Z 0 neg
  else
    let '(q, e', l) := SFdiv_core_binary 53 1024 m 0 (10 ^ (- e)) 0 in
    binary_round_aux 53 1024 neg q e' l.

(** A result that overflows, or one that is not normal and not exact: [ERANGE]. *)
Definition out_of_range (m e : Z) (d : spec_float) : bool :=
  match d with
  | S754_infinity _ => true
  | S754_zero _ => bool_decide (m <> 0%Z)
  | S754_finite _ q e' =>
      bool_decide (Z.log2 (Z.pos q) < 52)%Z &&
      negb (bool_decide (Z.pos q * 10 ^ Z.max 0 (- e) * 2 ^ Z.max 0 e' = m * 10 ^ Z.max 0 e * 2 ^ Z.max 0 (- e'))%Z)
  | S754_nan => false
  end.

(** [std::stod]: the number and how much was used; it throws where there is no
    number and where it is out of range. *)
Definition stod (l : list ascii) : option (spec_float * nat) :=
  match read_decimal l with
  | Some (neg, m, e, l') =>
      let d := scaled_double neg m e in
      if out_of_range m e d then None else Some (d, length l - length l')
  | None => None
  end.

Definition number_char (c : ascii) : bool :=
  isDigit c || bool_decide (c ∈ ["."%char; "e"%char; "E"%char; "+"%char; "-"%char]).

Definition parseNumber : jparse Json :=
  l ← json_rest;
  let sign := match l with "-"%char :: _ => 1 | _ => 0 end in
  let n := sign + prefix_length number_char (drop sign l) in
  if decide (n = 0) then fail "expected number"
  else
    match stod (take n l) with
    | Some (d, used) => if decide (used = n) then skip n;; mret (JNumber d) else fail "invalid number"
    | None => fail "invalid number"
    end.

(** ** Values *)

Section values.
Variable fuel : nat.
(** The parser of a value one level deeper. *)
Variable deeper : jparse Json.

(** One member and what follows it. *)
Definition member_pass (l : list (string * Json)) : jparse (loop_step (list (string * Json)) Json) :=
  skipWhitespace;;
  key ← parseString fuel;
  skipWhitespace;;
  colon ← consume ":"%char;
  if colon : bool then
    value ← deeper;
    let l := set_member key value l in
    skipWhitespace;;
    comma ← consume ","%char;
    if comma : bool then mret (Next l)
    else
      close ← consume "}"%char;
      if close : bool then mret (Break (JObject l)) else fail "expected ',' or '}'"
  else fail "expected ':'".

Definition element_pass (l : list Json) : jparse (loop_step (list Json) Json) :=
  value ← deeper;
  let l := l ++ [value] in
  skipWhitespace;;
  comma ← consume ","%char;
  if comma : bool then mret (Next l)
  else
    close ← consume "]"%char;
    if close : bool then mret (Break (JArray l)) else fail "expected ',' or ']'".

Definition value_body : jparse Json :=
  skipWhitespace;;
  l ← json_rest;
  match l with
  | [] => fail "unexpected end of input"
  | c :: _ =>
      if decide (c = "{"%char) then
        skip 1;;
        skipWhitespace;;
        close ← consume "}"%char;
        if close : bool then mret (JObject []) else json_loop fuel member_pass []
      else if decide (c = "["%char) then
        skip 1;;
        skipWhitespace;;
        close ← consume "]"%char;
        if close : bool then mret (JArray []) else json_loop fuel element_pass []
      else if decide (c = dquote) then s ← parseString fuel; mret (JString s)
      else if decide (c = "t"%char) then literal "true";; mret (JBool true)
      else if decide (c = "f"%char) then literal "false";; mret (JBool false)
      else if decide (c = "n"%char) then literal "null";; mret JNull
      else parseNumber
  end.
End values.

Definition kMaxDepth : nat := 128.

(** [parseValue( out, depth )], where [room] is [kMaxDepth + 1 - depth]. *)
Fixpoint parseValue (fuel room : nat) : jparse Json :=
  match room with
  | 0 => fail "nesting too deep"
  | S room => value_body fuel (parseValue fuel room)
  end.

(** [Json::parse]: the value, or the message. *)
Definition parse_document_value (fuel : nat) : jparse Json :=
  result ← parseValue fuel (S kMaxDepth);
  skipWhitespace;;
  l ← json_rest;
  if decide (l = []) then mret result else fail "trailing garbage".

Definition Json_parse (text : string) : outcome (Json + string) :=
  match parse_document_value (S (String.length text)) (mkCursor 0 (chars text)) with
  | Done (r, _) => Done r
  | UndefinedBehaviour => UndefinedBehaviour
  | OutOfFuel => OutOfFuel
  end.
