(* ===== verification/JsonTheorems.v ===== *)
(** Whole numbers as doubles, and back: an integer below two to the 53 is its
    double, and its numeral is read as it. *)

From stdpp Require Import pretty.
From Stdlib Require Import Floats.SpecFloat.
From S2P Require Import Prelude Lexer Numbers Json.

(** * Doubles *)

Lemma digits2_log2 p : Z.pos (digits2_pos p) = (Z.log2 (Z.pos p) + 1)%Z.
Proof.
  assert (digits2_pos p = Pos.size p) as -> by (induction p as [p IH|p IH|]; cbn; by rewrite ?IH).
  destruct p as [p|p|]; cbn; lia.
Qed.

Lemma digits2_iter p d : Z.pos (digits2_pos (Pos.iter xO p d)) = (Z.pos (digits2_pos p) + Z.pos d)%Z.
Proof.
  induction d as [|d IH] using Pos.peano_ind; [cbn; lia|]. rewrite Pos.iter_succ. cbn [digits2_pos]. lia.
Qed.

Lemma pos_iter_shift p d : Z.pos (Pos.iter xO p d) = (Z.pos p * 2 ^ Z.pos d)%Z.
Proof.
  induction d as [|d IH] using Pos.peano_ind; [cbn; lia|].
  rewrite Pos.iter_succ, Pos2Z.inj_succ, Z.pow_succ_r by lia. rewrite Pos2Z.inj_xO, IH. lia.
Qed.

(** A mantissa of 53 bits is left as it is. *)
Lemma round_aux_exact s m e :
  Z.pos (digits2_pos m) = 53%Z -> (-1074 <= e <= 971)%Z ->
  binary_round_aux 53 1024 s (Z.pos m) e loc_Exact = S754_finite s m e.
Proof.
  intros Hm He. unfold binary_round_aux, shr_fexp. cbn [Zdigits2]. rewrite Hm.
  assert (fexp 53 1024 (53 + e) - e = 0)%Z as -> by (unfold fexp, emin; lia).
  cbn [shr shr_record_of_loc loc_of_shr_record round_nearest_even shr_m]. cbn [Zdigits2]. rewrite Hm.
  assert (fexp 53 1024 (53 + e) - e = 0)%Z as -> by (unfold fexp, emin; lia).
  cbn [shr shr_record_of_loc shr_m]. by destruct (Z.leb_spec e (1024 - 53)); [|lia].
Qed.

(** The double of a positive integer below two to the 53. *)
Lemma round_small s p :
  (Z.pos p < 2 ^ 53)%Z ->
  exists m e, binary_round 53 1024 s p 0 = S754_finite s m e /\ Z.log2 (Z.pos m) = 52%Z /\
    (-52 <= e <= 0)%Z /\ Z.pos m = (Z.pos p * 2 ^ (- e))%Z.
Proof.
  intros Hp. pose proof (digits2_log2 p) as Hd. pose proof (Z.log2_nonneg (Z.pos p)).
  assert (Z.log2 (Z.pos p) < 53)%Z by (apply Z.log2_lt_pow2; lia).
  unfold binary_round. assert (fexp 53 1024 (Z.pos (digits2_pos p) + 0) = (Z.log2 (Z.pos p) - 52)%Z) as -> by (unfold fexp, emin; lia).
  unfold shl_align. rewrite Z.sub_0_r.
  destruct (Z.log2 (Z.pos p) - 52)%Z as [|d|d] eqn:E; [|lia|].
  - exists p, 0%Z. rewrite round_aux_exact by lia. split_and!; try done; lia.
  - pose proof (digits2_iter p d) as Hi. pose proof (digits2_log2 (Pos.iter xO p d)) as Hl.
    exists (Pos.iter xO p d), (Z.neg d). rewrite round_aux_exact by lia.
    split; [done|]. split; [lia|]. split; [lia|]. by rewrite pos_iter_shift.
Qed.

(** The double of an integer: its parts. *)
Lemma double_small n :
  (Z.abs n < 2 ^ 53)%Z ->
  double_trunc (double_of_Z n) = Some n /\ is_integral (double_of_Z n) = true /\
  out_of_range (Z.abs n) 0 (double_of_Z n) = false /\
  scaled_double (bool_decide (n < 0)%Z) (Z.abs n) 0 = double_of_Z n.
Proof.
  intros Hn.
  assert (forall p s, (Z.pos p < 2 ^ 53)%Z ->
    let d := binary_round 53 1024 s p 0 in
    double_trunc d = Some (if s then Z.neg p else Z.pos p) /\ is_integral d = true /\
    out_of_range (Z.pos p) 0 d = false) as H.
  { intros p s Hp. destruct (round_small s p Hp) as (m & e & -> & Hm & He & Hv). cbn zeta.
    cbn [double_trunc is_integral out_of_range].
    assert (0 < 2 ^ (- e))%Z by (apply Z.pow_pos_nonneg; lia).
    assert (Z.pos m / 2 ^ (- e) = Z.pos p)%Z as Hdiv by (rewrite Hv; apply Z.div_mul; lia).
    split; [|split].
    - case_decide.
      + assert (e = 0)%Z as -> by lia. rewrite Z.pow_0_r, Z.mul_1_r in *. rewrite Hv. by destruct s.
      + rewrite Hdiv. by destruct s.
    - rewrite Hv, Z.mod_mul by lia. by rewrite orb_true_r.
    - by rewrite Hm. }
  destruct n as [|p|p]; [done|..]; cbn [Z.abs] in *; [destruct (H p false Hn) as (H1 & H2 & H3)|destruct (H p true Hn) as (H1 & H2 & H3)];
    (split; [exact H1|split; [exact H2|split; [exact H3|]]]);
    unfold scaled_double, double_of_Z; rewrite decide_False, decide_True by done; rewrite Z.pow_0_r, Z.mul_1_r;
    first [by rewrite bool_decide_false|by rewrite bool_decide_true].
Qed.

Lemma number_text_int n : (Z.abs n < 2 ^ 53)%Z -> number_text (double_of_Z n) = pretty n.
Proof.
  intros Hn. destruct (double_small n Hn) as (Ht & Hi & _). unfold number_text. rewrite Ht, Hi.
  by rewrite bool_decide_true.
Qed.

(** * Numerals *)

Lemma digit_of n : (n < 10)%N -> isDigit (pretty_N_char n) = true /\ digit_value (pretty_N_char n) = Z.of_N n.
Proof.
  intros Hn. assert (n ∈ [0; 1; 2; 3; 4; 5; 6; 7; 8; 9]%N) as Hin.
  { rewrite !elem_of_cons. lia. }
  repeat (apply elem_of_cons in Hin as [->|Hin]; [by vm_compute|]). by apply elem_of_nil in Hin.
Qed.

Lemma decimal_app l c : decimal (l ++ [c]) = (decimal l * 10 + digit_value c)%Z.
Proof. unfold decimal. by rewrite foldl_app. Qed.

Lemma pretty_N_go_decimal n : forall s, exists l,
  chars (pretty_N_go n s) = l ++ chars s /\ Forall (fun c => isDigit c = true) l /\ decimal l = Z.of_N n /\
  ((0 < n)%N -> l <> []).
Proof.
  induction (N.lt_wf_0 n) as [n _ IH]. intros s. destruct (decide (n = 0%N)) as [->|Hn].
  - exists []. by rewrite pretty_N_go_0.
  - rewrite pretty_N_go_step by lia.
    destruct (IH (n / 10)%N ltac:(apply N.div_lt; lia) (String (pretty_N_char (n mod 10)) s)) as (l & Hl & Hd & Hv & _).
    destruct (digit_of (n mod 10)) as [Hc Hcv]; [by apply N.mod_lt|].
    exists (l ++ [pretty_N_char (n mod 10)]). rewrite Hl. split_and!.
    + by rewrite <-app_assoc.
    + apply Forall_app. by repeat constructor.
    + rewrite decimal_app, Hv, Hcv. pose proof (N.div_mod n 10 ltac:(done)). lia.
    + by destruct l.
Qed.

Lemma pretty_N_decimal (n : N) :
  Forall (fun c => isDigit c = true) (chars (pretty n)) /\ decimal (chars (pretty n)) = Z.of_N n /\
  chars (pretty n) <> [].
Proof.
  unfold pretty, pretty_N. destruct (decide _) as [->|Hn].
  - split; [|done]. by repeat constructor.
  - destruct (pretty_N_go_decimal n "") as (l & Hl & Hd & Hv & Hne). rewrite app_nil_r in Hl. rewrite Hl.
    split_and!; [done|done|]. apply Hne. lia.
Qed.

(** The numeral of an integer: its sign and its digits. *)
Lemma pretty_Z_decimal (n : Z) : exists l,
  chars (pretty n) = (if decide (n < 0)%Z then ["-"%char] else []) ++ l /\
  Forall (fun c => isDigit c = true) l /\ decimal l = Z.abs n /\ l <> [].
Proof.
  destruct n as [|p|p].
  - exists ["0"%char]. split; [done|]. by repeat constructor.
  - destruct (pretty_N_decimal (Npos p)) as (Hd & Hv & Hne). exists (chars (pretty (Npos p))).
    by rewrite decide_False by lia.
  - destruct (pretty_N_decimal (Npos p)) as (Hd & Hv & Hne). exists (chars (pretty (Npos p))).
    by rewrite decide_True by lia.
Qed.

(** * Reading a numeral *)

Lemma prefix_all (p : ascii -> bool) l r :
  Forall (fun c => p c = true) l -> (forall c r', r = c :: r' -> p c = false) -> prefix_length p (l ++ r) = length l.
Proof.
  intros Hl Hr. induction Hl as [|c l Hc _ IH]; cbn.
  - destruct r as [|c r]; [done|]. cbn. by rewrite (Hr c r).
  - by rewrite Hc, IH.
Qed.

Lemma take_digits_all l r :
  Forall (fun c => isDigit c = true) l -> (forall c r', r = c :: r' -> isDigit c = false) -> take_digits (l ++ r) = (l, r).
Proof. intros Hl Hr. unfold take_digits. by rewrite prefix_all, take_app_length, drop_app_length. Qed.

Lemma take_sign_digit l : Forall (fun c => isDigit c = true) l -> take_sign l = (false, l).
Proof. intros Hl. destruct l as [|c l]; [done|]. apply Forall_cons in Hl as [Hc _]. destruct c as [[] [] [] [] [] [] [] []]; done. Qed.

Lemma stod_int n : (Z.abs n < 2 ^ 53)%Z -> stod (chars (pretty n)) = Some (double_of_Z n, length (chars (pretty n))).
Proof.
  intros Hn. destruct (pretty_Z_decimal n) as (l & El & Hl & Hv & Hne). destruct (double_small n Hn) as (_ & _ & Ho & Hs).
  assert (read_decimal (chars (pretty n)) = Some (bool_decide (n < 0)%Z, Z.abs n, 0%Z, [])) as Hr.
  { rewrite El. unfold read_decimal.
    assert (take_sign ((if decide (n < 0)%Z then ["-"%char] else []) ++ l) = (bool_decide (n < 0)%Z, l)) as ->.
    { destruct (decide (n < 0)%Z); [by rewrite bool_decide_true|rewrite bool_decide_false by done]. by apply take_sign_digit. }
    pose proof (take_digits_all l [] Hl ltac:(done)) as Ht. rewrite app_nil_r in Ht. rewrite Ht, app_nil_r.
    rewrite decide_False by done. by rewrite Hv. }
  unfold stod. rewrite Hr, Hs, Ho. cbn [length]. by rewrite Nat.sub_0_r.
Qed.

(** What may follow a number. *)
Definition number_ends (r : list ascii) : Prop := forall c r', r = c :: r' -> number_char c = false.

Lemma digit_number c : isDigit c = true -> number_char c = true.
Proof. unfold number_char. by intros ->. Qed.

(** The numeral is read as its number. *)
Lemma parseNumber_int n p r :
  (Z.abs n < 2 ^ 53)%Z -> number_ends r ->
  parseNumber (mkCursor p (chars (pretty n) ++ r)) =
  Done (inl (json_int n), mkCursor (p + length (chars (pretty n))) r).
Proof.
  intros Hn Hr. pose proof (stod_int n Hn) as Hs. destruct (pretty_Z_decimal n) as (l & El & Hl & _ & Hne).
  unfold parseNumber, mbind, jparse_bind, json_rest. cbn [cu_rest].
  assert (forall l' : list ascii, (match l' with "-"%char :: _ => 1 | _ => 0 end) = if decide (head l' = Some "-"%char) then 1 else 0) as Hsign.
  { intros [|[[] [] [] [] [] [] [] []] l']; done. }
  rewrite Hsign. set (sign := if decide _ then 1 else 0).
  assert (sign + prefix_length number_char (drop sign (chars (pretty n) ++ r)) = length (chars (pretty n))) as ->.
  { assert (Forall (fun c => number_char c = true) l) as Hnc by (eapply Forall_impl; [exact Hl|apply digit_number]).
    subst sign. rewrite El. destruct (decide (n < 0)%Z).
    - cbn [app head]. rewrite decide_True by done. cbn. by rewrite drop_0, prefix_all.
    - cbn [app]. assert (head (l ++ r) <> Some "-"%char) as Hh.
      { destruct l as [|c l]; [done|]. cbn. intros [= ->]. apply Forall_cons in Hl as [Hl _]. discriminate Hl. }
      rewrite decide_False by done. cbn. by rewrite drop_0, prefix_all. }
  rewrite decide_False by (rewrite El; destruct l; [done|]; rewrite length_app; cbn; lia).
  rewrite take_app_length, Hs, decide_True by done.
  unfold skip. cbn [cu_pos cu_rest]. by rewrite drop_app_length.
Qed.

(** * Values and texts *)

(** * The parser ends

    [shortens l m k]: with [l] before it, [m] ends, and where it succeeds it has
    used [k] characters at least. *)

Definition shortens {A} (l : list ascii) (m : jparse A) (k : nat) : Prop :=
  forall p, exists r c, m (mkCursor p l) = Done (r, c) /\ forall a, r = inl a -> length (cu_rest c) + k <= length l.

(** On every text shorter than [n]. *)
Definition within {A} (n : nat) (m : jparse A) (k : nat) : Prop :=
  forall l, length l < n -> shortens l m k.

Section shortens.
Context {A B : Type}.
Implicit Types (l : list ascii) (m : jparse A) (n k : nat).

Lemma shortens_ret l (a : A) : shortens l (mret a) 0.
Proof. intros p. eexists _, _. split; [reflexivity|]. cbn. lia. Qed.

Lemma shortens_fail l e k : shortens l (fail (A := A) e) k.
Proof. intros p. eexists _, _. by split. Qed.

Lemma shortens_weaken l m k k' : shortens l m k -> k' <= k -> shortens l m k'.
Proof. intros H ? p. destruct (H p) as (r & c & ? & Hl). exists r, c. split; [done|]. intros a ->. specialize (Hl a eq_refl). lia. Qed.

Lemma shortens_bind n l m (f : A -> jparse B) k k' :
  length l < n -> shortens l m k -> (forall a, within n (f a) k') -> shortens l (m ≫= f) (k + k').
Proof.
  intros Hn Hm Hf p. destruct (Hm p) as (r & [p1 l1] & E & Hl). unfold mbind, jparse_bind. rewrite E. destruct r as [a|e].
  - specialize (Hl a eq_refl). cbn in Hl. destruct (Hf a l1 ltac:(lia) p1) as (r' & c' & E' & Hl').
    exists r', c'. split; [done|]. intros b ->. specialize (Hl' b eq_refl). lia.
  - eexists _, _. by split.
Qed.

Lemma shortens_rest l (f : list ascii -> jparse B) k : shortens l (f l) k -> shortens l (json_rest ≫= f) k.
Proof. intros H p. apply H. Qed.

Lemma shortens_skip l i (f : unit -> jparse B) k :
  i <= length l -> shortens (drop i l) (f tt) k -> shortens l (skip i ≫= f) (i + k).
Proof.
  intros Hi H p. destruct (H (p + i)) as (r & c & E & Hl). exists r, c. split; [exact E|].
  intros b ->. specialize (Hl b eq_refl). rewrite length_drop in Hl. lia.
Qed.

Lemma within_bind n m (f : A -> jparse B) k k' :
  within n m k -> (forall a, within n (f a) k') -> within n (m ≫= f) (k + k').
Proof. intros Hm Hf l Hl. eapply shortens_bind; eauto. Qed.

Lemma within_ret n (a : A) : within n (mret a) 0.
Proof. intros l _. apply shortens_ret. Qed.

Lemma within_fail n e k : within n (fail (A := A) e) k.
Proof. intros l _. apply shortens_fail. Qed.
End shortens.

(** A loop whose passes all use a character. *)
Lemma within_loop {A B} n (body : B -> jparse (loop_step B A)) :
  (forall b, within n (body b) 1) -> forall f b l, length l < f -> f <= n -> shortens l (json_loop f body b) 1.
Proof.
  intros Hb f. induction f as [|f IH]; intros b l Hl Hf; [lia|]. intros p. cbn [json_loop].
  destruct (Hb b l ltac:(lia) p) as (r & [p1 l1] & E & Hl1). unfold mbind, jparse_bind. rewrite E.
  destruct r as [s|e]; [|eexists _, _; by split]. specialize (Hl1 s eq_refl). cbn in Hl1. destruct s as [b'|a].
  - destruct (IH b' l1 ltac:(lia) ltac:(lia) p1) as (r' & c' & E' & Hl'). exists r', c'. split; [done|].
    intros a ->. specialize (Hl' a eq_refl). lia.
  - eexists _, _. split; [reflexivity|]. intros ? [= <-]. cbn. lia.
Qed.

Lemma within_loop_self {A B} n (body : B -> jparse (loop_step B A)) b :
  (forall b, within n (body b) 1) -> within n (json_loop n body b) 1.
Proof. intros Hb l Hl. by eapply within_loop. Qed.

Lemma prefix_length_le p l : prefix_length p l <= length l.
Proof. induction l as [|c l IH]; cbn; [done|]. case_match; lia. Qed.

Lemma within_skipWhitespace n : within n skipWhitespace 0.
Proof.
  intros l _ p. eexists _, _. split; [reflexivity|]. cbn. rewrite length_drop. intros _ _. lia.
Qed.

Lemma within_consume n c : within n (consume c) 0.
Proof.
  intros l _. apply shortens_rest. destruct l as [|d l]; [apply shortens_ret|]. case_decide; [|apply shortens_ret].
  eapply shortens_weaken; [apply shortens_skip; [cbn; lia|apply shortens_ret]|lia].
Qed.

(** A [consume] that must succeed. *)
Lemma within_expect {A} n c (m m' : jparse A) k k' :
  within n m k -> within n m' (S k) -> k' <= S k -> within n (b ← consume c; if b : bool then m else m') k'.
Proof.
  intros Hm Hm' Hk l Hl p. unfold consume, mbind, jparse_bind, json_rest. cbn [cu_rest].
  assert (exists r c, m' (mkCursor p l) = Done (r, c) /\ forall a, r = inl a -> length (cu_rest c) + k' <= length l) as H.
  { by eapply shortens_weaken; [apply Hm'|]. }
  destruct l as [|d l]; [exact H|]. case_decide; [|exact H]. cbn.
  destruct (Hm l ltac:(cbn in Hl; lia) (p + 1)) as (r & c' & E & Hl'). exists r, c'. split; [by rewrite drop_0|].
  intros a ->. specialize (Hl' a eq_refl). lia.
Qed.

Lemma within_literal n w : w <> "" -> within n (literal w) 1.
Proof.
  intros Hw l _. apply shortens_rest. case_decide as E; [|apply shortens_fail].
  assert (String.length w <= length l) as Hle.
  { apply (f_equal length) in E. rewrite length_take, length_chars in E. lia. }
  intros p. eexists _, _. split; [reflexivity|]. cbn. rewrite length_drop. destruct w; [done|]. cbn in *. lia.
Qed.

Lemma within_parseHex4 n : within n parseHex4 4.
Proof.
  intros l _. apply shortens_rest. case_decide; [apply shortens_fail|]. destruct (hex_number _ _); [|apply shortens_fail].
  apply (shortens_skip _ 4 _ 0); [lia|apply shortens_ret].
Qed.

Lemma within_unicode_character n : within n unicode_character 0.
Proof.
  apply (within_bind _ _ _ 0 0).
  - intros l Hl. eapply shortens_weaken; [by apply (within_parseHex4 n)|lia].
  - intros cp. case_match; [|case_match; [apply within_fail|apply within_ret]].
    intros l Hl. apply shortens_rest. destruct l as [|a [|b l]]; [apply shortens_fail..|].
    case_match; [|apply shortens_fail].
    eapply shortens_weaken; [apply shortens_skip; [cbn; lia|]|apply Nat.le_0_l].
    cbn [drop]. rewrite drop_0. eapply (shortens_bind n); [cbn in *; lia|apply (within_parseHex4 n); cbn in *; lia|].
    intros low. case_match; [apply within_fail|apply within_ret].
Qed.

Lemma within_string_pass n out : within n (string_pass out) 1.
Proof.
  intros l Hl. apply shortens_rest. destruct l as [|c l]; [apply shortens_fail|]. cbn in Hl.
  case_decide; [apply (shortens_skip _ 1 _ 0); [cbn; lia|apply shortens_ret]|].
  case_decide; [|case_decide; [apply shortens_fail|apply (shortens_skip _ 1 _ 0); [cbn; lia|apply shortens_ret]]].
  apply (shortens_skip _ 1 _ 0); [cbn; lia|]. apply shortens_rest. cbn [drop]. rewrite drop_0.
  destruct l as [|e l]; [apply shortens_fail|].
  eapply shortens_weaken; [apply (shortens_skip _ 1 _ 0); [cbn; lia|]|lia]. cbn [drop]. rewrite drop_0.
  destruct (simple_escape e); [apply shortens_ret|]. case_decide; [|apply shortens_fail].
  apply (shortens_bind n _ _ _ 0 0); [cbn in *; lia|apply (within_unicode_character n); cbn in *; lia|].
  intros u. apply within_ret.
Qed.

Lemma within_parseString n : within n (parseString n) 1.
Proof.
  apply within_expect with (k := 1); [|apply within_fail|lia].
  apply within_loop_self, within_string_pass.
Qed.

Lemma within_parseNumber n : within n parseNumber 1.
Proof.
  intros l _. apply shortens_rest. cbn zeta. set (sign := match l with "-"%char :: _ => 1 | _ => 0 end).
  case_decide as Hz; [apply shortens_fail|]. destruct (stod _) as [[d used]|]; [|apply shortens_fail].
  case_decide; [|apply shortens_fail]. eapply shortens_weaken; [apply (shortens_skip _ _ _ 0); [|apply shortens_ret]|lia].
  pose proof (prefix_length_le number_char (drop sign l)) as Hp. rewrite length_drop in Hp.
  assert (sign <= length l); [|lia]. subst sign. repeat case_match; cbn; lia.
Qed.

(** A member, an element: with a parser of values that uses a character. *)
Section values.
Variables (n : nat) (deeper : jparse Json).
Hypothesis deeper_within : within n deeper 1.

Lemma within_tail (A : Type) (m m' : jparse A) c :
  within n m 0 -> within n m' 0 -> within n (skipWhitespace;; b ← consume c; if b : bool then m else m') 0.
Proof.
  intros Hm Hm'. apply (within_bind _ _ _ 0 0); [apply within_skipWhitespace|]. intros _.
  apply (within_bind _ _ _ 0 0); [apply within_consume|]. intros b. by destruct b.
Qed.

Lemma within_close (A : Type) (m m' : jparse A) c :
  within n m 0 -> within n m' 0 -> within n (b ← consume c; if b : bool then m else m') 0.
Proof.
  intros Hm Hm'. apply (within_bind _ _ _ 0 0); [apply within_consume|]. intros b. by destruct b.
Qed.

Lemma within_element_pass l : within n (element_pass deeper l) 1.
Proof.
  apply (within_bind _ _ _ 1 0); [exact deeper_within|]. intros v.
  apply within_tail; [apply within_ret|apply within_close; [apply within_ret|apply within_fail]].
Qed.

Lemma within_member_pass l : within n (member_pass n deeper l) 1.
Proof.
  apply (within_bind _ _ _ 0 1); [apply within_skipWhitespace|]. intros _.
  apply (within_bind _ _ _ 1 0); [apply within_parseString|]. intros key.
  apply within_tail; [|apply within_fail].
  intros s Hs. eapply shortens_weaken; [|apply Nat.le_0_1].
  apply (shortens_bind n _ _ _ 1 0); [done|by apply deeper_within|]. intros v.
  apply within_tail; [apply within_ret|apply within_close; [apply within_ret|apply within_fail]].
Qed.

Lemma within_value_body : within n (value_body n deeper) 1.
Proof.
  apply (within_bind _ _ _ 0 1); [apply within_skipWhitespace|]. intros _ l Hl. apply shortens_rest.
  destruct l as [|c l]; [apply shortens_fail|].
  case_decide; [|case_decide].
  - apply (shortens_skip _ 1 _ 0); [cbn; lia|]. cbn [drop]. rewrite drop_0.
    apply within_tail; [apply within_ret| |cbn in *; lia]. intros s Hs. eapply shortens_weaken; [|apply Nat.le_0_1].
    apply (within_loop_self n); [apply within_member_pass|done].
  - apply (shortens_skip _ 1 _ 0); [cbn; lia|]. cbn [drop]. rewrite drop_0.
    apply within_tail; [apply within_ret| |cbn in *; lia]. intros s Hs. eapply shortens_weaken; [|apply Nat.le_0_1].
    apply (within_loop_self n); [apply within_element_pass|done].
  - assert (forall w v, w <> "" -> shortens (c :: l) (literal w;; mret (v : Json)) 1) as Hlit.
    { intros w v Hw. apply (shortens_bind n _ _ _ 1 0); [done|by apply (within_literal n)|intros; apply within_ret]. }
    case_decide; [|repeat (case_decide; [by apply Hlit|]); by apply (within_parseNumber n)].
    apply (shortens_bind n _ _ _ 1 0); [done|by apply within_parseString|intros; apply within_ret].
Qed.
End values.

Lemma within_parseValue n room : within n (parseValue n room) 1.
Proof.
  induction room as [|room IH]; [apply within_fail|]. by apply within_value_body.
Qed.

(** [Json::parse] ends on every text, with a value or with a message: its
    loops use a character in every pass, and the depth of its recursion is
    bounded. *)
Lemma Json_parse_ends (text : string) : exists r, Json_parse text = Done r.
Proof.
  unfold Json_parse, parse_document_value. set (n := S (String.length text)).
  assert (within n (result ← parseValue n (S kMaxDepth); skipWhitespace;; l ← json_rest;
                    if decide (l = []) then mret result else fail "trailing garbage") 1) as H.
  { apply (within_bind _ _ _ 1 0); [apply within_parseValue|]. intros v.
    apply (within_bind _ _ _ 0 0); [apply within_skipWhitespace|]. intros _ l _. apply shortens_rest.
    case_decide; [apply shortens_ret|apply shortens_fail]. }
  destruct (H (chars text) ltac:(rewrite length_chars; unfold n; lia) 0) as (r & c & E & _).
  exists r. by rewrite E.
Qed.

(** * What is written is read back

    [json_reads n m t r a]: on a text of less than [n] characters that starts with [t],
    [m] gives [a] and leaves what follows. *)

Definition json_reads {A} (n : nat) (m : jparse A) (t r : list ascii) (a : A) : Prop :=
  length (t ++ r) < n -> forall p, exists p', m (mkCursor p (t ++ r)) = Done (inl a, mkCursor p' r).

Lemma json_reads_ret {A} n r (a : A) : json_reads n (mret a) [] r a.
Proof. intros _ p. by eexists. Qed.

Lemma json_reads_bind {A B} n (m : jparse A) (f : A -> jparse B) t t' r a b :
  json_reads n m t (t' ++ r) a -> json_reads n (f a) t' r b -> json_reads n (m ≫= f) (t ++ t') r b.
Proof.
  intros Hm Hf Hn p. unfold mbind, jparse_bind. rewrite <-app_assoc in *.
  destruct (Hm Hn p) as (p1 & ->). apply Hf. rewrite length_app in Hn. lia.
Qed.

(** Something that uses nothing, before the rest. *)
Lemma json_reads_bind_nil {A B} n (m : jparse A) (f : A -> jparse B) t r a b :
  json_reads n m [] (t ++ r) a -> json_reads n (f a) t r b -> json_reads n (m ≫= f) t r b.
Proof. apply (json_reads_bind n m f [] t). Qed.

Lemma json_reads_rest {B} n (f : list ascii -> jparse B) t r b :
  json_reads n (f (t ++ r)) t r b -> json_reads n (json_rest ≫= f) t r b.
Proof. intros H Hn p. by apply H. Qed.

Lemma json_reads_skip n t r : json_reads n (skip (length t)) t r tt.
Proof. intros _ p. eexists. unfold skip. cbn. by rewrite drop_app_length. Qed.

(** What follows does not start with a blank. *)
Definition no_blank (l : list ascii) : Prop := forall c l', l = c :: l' -> json_space c = false.

Lemma json_reads_skipWhitespace n r : no_blank r -> json_reads n skipWhitespace [] r tt.
Proof.
  intros Hr _ p. eexists. unfold skipWhitespace, mbind, jparse_bind, json_rest, skip. cbn.
  destruct r as [|c r]; [done|]. cbn. rewrite (Hr c r eq_refl). by rewrite drop_0.
Qed.

Lemma json_reads_consume n c r : json_reads n (consume c) [c] r true.
Proof. intros _ p. eexists. unfold consume, mbind, jparse_bind, json_rest. cbn. by rewrite decide_True. Qed.

Lemma json_reads_consume_other n c r : head r <> Some c -> json_reads n (consume c) [] r false.
Proof.
  intros Hr _ p. eexists. unfold consume, mbind, jparse_bind, json_rest. cbn.
  destruct r as [|d r]; [done|]. rewrite decide_False; [done|]. by intros ->.
Qed.

Lemma json_reads_loop {A B} n f (body : B -> jparse (loop_step B A)) b b' t t' r a :
  json_reads n (body b) t (t' ++ r) (Next b') -> t <> [] -> json_reads f (json_loop f body b') t' r a -> f < n ->
  json_reads (S f) (json_loop (S f) body b) (t ++ t') r a.
Proof.
  intros Hb Ht Hl Hn Hf p. cbn [json_loop]. unfold mbind, jparse_bind. rewrite <-app_assoc in *.
  destruct (Hb ltac:(lia) p) as (p1 & ->). apply Hl. rewrite length_app in Hf. destruct t; [done|]. cbn in Hf. lia.
Qed.

Lemma json_reads_loop_last {A B} n f (body : B -> jparse (loop_step B A)) b t r a :
  json_reads n (body b) t r (Break a) -> f < n -> json_reads (S f) (json_loop (S f) body b) t r a.
Proof.
  intros Hb Hn Hf p. cbn [json_loop]. unfold mbind, jparse_bind. destruct (Hb ltac:(lia) p) as (p1 & ->). by eexists.
Qed.

(** ** Strings *)

Lemma json_reads_escaped n c r out :
  json_reads n (string_pass out) (appendEscaped_char c) r (Next (out ++ [c])).
Proof. intros _ p. destruct c as [[] [] [] [] [] [] [] []]; eexists; reflexivity. Qed.

Lemma appendEscaped_char_ne c : appendEscaped_char c <> [].
Proof. by destruct c as [[] [] [] [] [] [] [] []]. Qed.

Lemma json_reads_string_loop s r : forall f out,
  json_reads f (json_loop f string_pass out) (appendEscaped_chars s ++ [dquote]) r (str (out ++ s)).
Proof.
  induction s as [|c s IH]; intros [|f] out; try (intros ?; lia).
  - apply (json_reads_loop_last (S f)); [|lia]. rewrite app_nil_r. intros _ p. eexists. reflexivity.
  - cbn [appendEscaped_chars]. rewrite <-app_assoc.
    eapply (json_reads_loop (S f)); [apply json_reads_escaped|apply appendEscaped_char_ne| |lia].
    replace (out ++ c :: s) with ((out ++ [c]) ++ s) by by rewrite <-app_assoc. apply IH.
Qed.

Lemma json_reads_string n s r : json_reads n (parseString n) (appendEscaped s) r s.
Proof.
  unfold parseString, appendEscaped. apply (json_reads_bind n _ _ [dquote] _ r true); [apply json_reads_consume|].
  cbn [app]. assert (str ([] ++ chars s) = s) as Hs by apply str_chars.
  rewrite <-Hs at 2. apply json_reads_string_loop.
Qed.

(** ** Values *)

(** What the writer writes and the parser reads back: whole numbers below two to
    the 53, the keys of an object distinct, and no more than [room] values inside
    one another. *)
Fixpoint writable (room : nat) (j : Json) : Prop :=
  match room with
  | 0 => False
  | S room =>
      match j with
      | JNull | JBool _ | JString _ => True
      | JNumber d => exists z, d = double_of_Z z /\ (Z.abs z < 2 ^ 53)%Z
      | JArray l => Forall (writable room) l
      | JObject l => NoDup l.*1 /\ Forall (fun m => writable room m.2) l
      end
  end.

(** How a value starts. *)
Definition value_start (c : ascii) : bool :=
  negb (json_space c) && negb (bool_decide (c ∈ ["]"%char; "}"%char; ","%char; ":"%char])).

Lemma serializeTo_start room j :
  writable room j -> exists c t, serializeTo j = c :: t /\ value_start c = true.
Proof.
  destruct room as [|room]; [done|]. cbn [writable]. destruct j as [|[]|d|s|l|l]; cbn [serializeTo]; intros H;
    try (eexists _, _; split; [reflexivity|reflexivity]).
  destruct H as (z & -> & Hz). rewrite number_text_int by done.
  destruct (pretty_Z_decimal z) as (l & -> & Hl & _ & Hne). case_decide; cbn [app].
  - by eexists _, _.
  - destruct l as [|c l]; [done|]. exists c, l. split; [done|]. apply Forall_cons in Hl as [Hl _].
    by destruct c as [[] [] [] [] [] [] [] []].
Qed.

Lemma value_start_no_blank room j r : writable room j -> no_blank (serializeTo j ++ r).
Proof.
  intros H. destruct (serializeTo_start room j H) as (c & t & -> & Hc). intros ? ? [= <- <-].
  unfold value_start in Hc. by destruct (json_space c).
Qed.

(** What follows a value inside an array or an object, and behind the text. *)
Definition value_follows (r : list ascii) : Prop := number_ends r /\ no_blank r.

Lemma follows_nil : value_follows [].
Proof. by split. Qed.

Lemma follows_cons c r : c ∈ [","%char; "]"%char; "}"%char; ":"%char; dquote] -> value_follows (c :: r).
Proof. intros H. repeat (apply elem_of_cons in H as [->|H]; [by split; intros ? ? [= <- <-]|]). by apply elem_of_nil in H. Qed.

Lemma set_member_new key v l : key ∉ l.*1 -> set_member key v l = l ++ [(key, v)].
Proof.
  induction l as [|[k w] l IH]; intros H; [done|]. cbn in *. apply not_elem_of_cons in H as [H1 H2].
  rewrite decide_False by congruence. by rewrite IH.
Qed.

Section read_values.
Variables (n room : nat).
Let deeper := parseValue n room.
Hypothesis deeper_reads : forall j r,
  writable room j -> value_follows r -> json_reads n deeper (serializeTo j) r j.

Lemma json_reads_comma (A : Type) (m m' : jparse A) t r a :
  json_reads n m t r a -> json_reads n (skipWhitespace;; b ← consume ","%char; if b : bool then m else m') (","%char :: t) r a.
Proof.
  intros H. apply (json_reads_bind_nil n _ _ _ _ tt).
  - apply json_reads_skipWhitespace, follows_cons. set_solver.
  - by apply (json_reads_bind n _ _ [","%char] t r true); [apply json_reads_consume|].
Qed.

Lemma json_reads_close (A : Type) (m m' m'' : jparse A) c r a :
  c ∈ ["]"%char; "}"%char] -> json_reads n m' [] r a ->
  json_reads n (skipWhitespace;; b ← consume ","%char;
           if b : bool then m else b ← consume c; if b : bool then m' else m'') [c] r a.
Proof.
  intros Hc H. apply (json_reads_bind_nil n _ _ _ _ tt).
  - apply json_reads_skipWhitespace, follows_cons. set_solver.
  - apply (json_reads_bind_nil n _ _ _ _ false).
    + apply json_reads_consume_other. cbn. intros [= ->]. set_solver.
    + by apply (json_reads_bind n _ _ [c] [] r true); [apply json_reads_consume|].
Qed.

Definition member_text (m : string * Json) : list ascii := appendEscaped m.1 ++ ":"%char :: serializeTo m.2.

Lemma commas_cons t l : l <> [] -> commas (t :: l) = t ++ ","%char :: commas l.
Proof. by destruct l. Qed.

Lemma json_reads_elements r : forall l f acc, f <= n -> l <> [] -> Forall (writable room) l ->
  json_reads f (json_loop f (element_pass deeper) acc) (commas (map serializeTo l) ++ ["]"%char]) r (JArray (acc ++ l)).
Proof.
  induction l as [|j l IH]; intros f acc Hf Hne Hl; [done|]. destruct f as [|f]; [intros ?; lia|].
  apply Forall_cons in Hl as [Hj Hl]. destruct l as [|j' l].
  - apply (json_reads_loop_last n); [|lia]. apply (json_reads_bind n _ _ _ _ _ j).
    + apply deeper_reads; [done|]. apply follows_cons. set_solver.
    + apply json_reads_close; [set_solver|apply json_reads_ret].
  - set (rest := j' :: l) in *. cbn [map]. rewrite commas_cons by done.
    replace (_ ++ ["]"%char]) with ((serializeTo j ++ [","%char]) ++ commas (map serializeTo rest) ++ ["]"%char])
      by by rewrite <-!app_assoc.
    replace (acc ++ j :: rest) with ((acc ++ [j]) ++ rest) by by rewrite <-app_assoc.
    eapply (json_reads_loop n); [| |apply IH; [lia|done|done]|lia].
    + apply (json_reads_bind n _ _ _ _ _ j).
      * apply deeper_reads; [done|]. apply follows_cons. set_solver.
      * apply json_reads_comma, json_reads_ret.
    + by destruct (serializeTo j).
Qed.

(** What a pass does behind a member. *)
Definition member_tail (l : list (string * Json)) : jparse (loop_step (list (string * Json)) Json) :=
  skipWhitespace;; comma ← consume ","%char;
  if comma : bool then mret (Next l)
  else close ← consume "}"%char; if close : bool then mret (Break (JObject l)) else fail "expected ',' or '}'".

Lemma json_reads_member m r acc t s :
  writable room m.2 -> m.1 ∉ acc.*1 -> value_follows (t ++ r) -> json_reads n (member_tail (acc ++ [m])) t r s ->
  json_reads n (member_pass n deeper acc) (member_text m ++ t) r s.
Proof.
  intros Hm Hk Ht H. unfold member_text, member_pass. rewrite <-app_assoc. apply (json_reads_bind_nil n _ _ _ _ tt).
  { apply json_reads_skipWhitespace, follows_cons. set_solver. }
  apply (json_reads_bind n _ _ _ _ _ m.1); [apply json_reads_string|].
  apply (json_reads_bind_nil n _ _ _ _ tt). { apply json_reads_skipWhitespace, follows_cons. set_solver. }
  cbn [app]. apply (json_reads_bind n _ _ [":"%char] _ r true); [apply json_reads_consume|].
  apply (json_reads_bind n _ _ _ _ _ m.2); [by apply deeper_reads|].
  rewrite set_member_new by done. by destruct m.
Qed.

Lemma json_reads_members r : forall l f acc, f <= n -> l <> [] -> NoDup (acc ++ l).*1 -> Forall (fun m => writable room m.2) l ->
  json_reads f (json_loop f (member_pass n deeper) acc) (commas (map member_text l) ++ ["}"%char]) r (JObject (acc ++ l)).
Proof.
  induction l as [|m l IH]; intros f acc Hf Hne Hd Hl; [done|]. destruct f as [|f]; [intros ?; lia|].
  apply Forall_cons in Hl as [Hm Hl].
  assert (m.1 ∉ acc.*1) as Hk.
  { rewrite fmap_app in Hd. apply NoDup_app in Hd as (_ & Hd & _). intros Hin. apply (Hd _ Hin). cbn. left. }
  destruct l as [|m' l].
  - apply (json_reads_loop_last n); [|lia]. apply json_reads_member; [done..| |].
    + apply follows_cons. set_solver.
    + apply json_reads_close; [set_solver|apply json_reads_ret].
  - set (rest := m' :: l) in *. cbn [map]. rewrite commas_cons by done.
    replace (_ ++ ["}"%char]) with ((member_text m ++ [","%char]) ++ commas (map member_text rest) ++ ["}"%char])
      by by rewrite <-!app_assoc.
    replace (acc ++ m :: rest) with ((acc ++ [m]) ++ rest) in * by by rewrite <-app_assoc.
    eapply (json_reads_loop n); [| |apply IH; [lia|done|done|done]|lia].
    + apply json_reads_member; [done..| |].
      * apply follows_cons. set_solver.
      * apply json_reads_comma, json_reads_ret.
    + unfold member_text, appendEscaped. done.
Qed.
End read_values.

Lemma json_reads_literal n w r (v : Json) : json_reads n (literal w;; mret v) (chars w) r v.
Proof.
  rewrite <-(app_nil_r (chars w)). apply (json_reads_bind n _ _ _ _ _ tt); [|apply json_reads_ret]. cbn [app].
  apply json_reads_rest. rewrite <-length_chars, take_app_length, decide_True by done. apply json_reads_skip.
Qed.

Lemma json_reads_number n z r : (Z.abs z < 2 ^ 53)%Z -> number_ends r -> json_reads n parseNumber (chars (pretty z)) r (json_int z).
Proof. intros Hz Hr _ p. eexists. by apply parseNumber_int. Qed.

(** An opening bracket, and what is behind it when that is not its closing one. *)
Lemma json_reads_open n (c d : ascii) (m m' : jparse Json) t r a :
  no_blank (t ++ r) -> head (t ++ r) <> Some d -> json_reads n m' t r a ->
  json_reads n (skip 1;; skipWhitespace;; close ← consume d; if close : bool then m else m') (c :: t) r a.
Proof.
  intros Hb Hd H. apply (json_reads_bind n _ _ [c] t r tt); [apply (json_reads_skip n [c])|].
  apply (json_reads_bind_nil n _ _ _ _ tt); [by apply json_reads_skipWhitespace|].
  apply (json_reads_bind_nil n _ _ _ _ false); [by apply json_reads_consume_other|done].
Qed.

Lemma json_reads_empty n (c d : ascii) (m m' : jparse Json) r a :
  json_space d = false -> json_reads n m [] r a ->
  json_reads n (skip 1;; skipWhitespace;; close ← consume d; if close : bool then m else m') [c; d] r a.
Proof.
  intros Hd H. apply (json_reads_bind n _ _ [c] [d] r tt); [apply (json_reads_skip n [c])|].
  apply (json_reads_bind_nil n _ _ _ _ tt); [apply json_reads_skipWhitespace; by intros ? ? [= <- <-]|].
  by apply (json_reads_bind n _ _ [d] [] r true); [apply json_reads_consume|].
Qed.

Lemma value_start_not c l d :
  value_start c = true -> d ∈ ["]"%char; "}"%char] -> head (c :: l) <> Some d.
Proof. intros Hc Hd. cbn. intros [= ->]. repeat (apply elem_of_cons in Hd as [->|Hd]; [done|]). by apply elem_of_nil in Hd. Qed.

Lemma json_reads_value n : forall room j r,
  writable room j -> value_follows r -> json_reads n (parseValue n room) (serializeTo j) r j.
Proof.
  induction room as [|room IH]; intros j r Hj [Hr _]; [done|]. cbn [parseValue]. unfold value_body.
  apply (json_reads_bind_nil n _ _ _ _ tt); [by apply json_reads_skipWhitespace, (value_start_no_blank (S room))|].
  apply json_reads_rest. cbn [writable] in Hj. destruct j as [|[]|d|s|l|l]; cbn [serializeTo].
  - apply json_reads_literal.
  - apply json_reads_literal.
  - apply json_reads_literal.
  - destruct Hj as (z & -> & Hz). rewrite number_text_int by done.
    pose proof (json_reads_number n z r Hz Hr) as H.
    destruct (pretty_Z_decimal z) as (l & E & Hl & _ & Hne). rewrite E in *. case_decide; [exact H|].
    cbn [app] in *. destruct l as [|c l]; [done|]. cbn [app]. apply Forall_cons in Hl as [Hl _].
    by destruct c as [[] [] [] [] [] [] [] []].
  - unfold appendEscaped at 1. cbn [app]. do 2 rewrite decide_False by done. rewrite decide_True by done.
    rewrite <-(app_nil_r (appendEscaped s)). apply (json_reads_bind n _ _ _ _ _ s); [apply json_reads_string|apply json_reads_ret].
  - cbn [app]. rewrite decide_False by done. rewrite decide_True by done.
    destruct l as [|j l]; [by apply json_reads_empty; [|apply json_reads_ret]|].
    assert (exists c t, commas (map serializeTo (j :: l)) = c :: t /\ value_start c = true) as (c & t & E & Hc).
    { apply Forall_cons in Hj as [Hj _]. destruct (serializeTo_start room j Hj) as (c & t & E & Hc).
      destruct l as [|j' l]; cbn [map commas]; rewrite E; by eexists _, _. }
    apply json_reads_open; [| |by apply (json_reads_elements n room IH)].
    + rewrite E. intros ? ? [= <- <-]. unfold value_start in Hc. by destruct (json_space c).
    + rewrite E. apply value_start_not; [done|set_solver].
  - cbn [app]. rewrite decide_True by done. destruct Hj as [Hd Hj].
    destruct l as [|m l]; [by apply json_reads_empty; [|apply json_reads_ret]|].
    assert (map (fun '(k, v) => appendEscaped k ++ ":"%char :: serializeTo v) (m :: l) = map member_text (m :: l)) as ->.
    { apply map_ext. by intros []. }
    assert (exists t, commas (map member_text (m :: l)) = dquote :: t) as (t & E).
    { destruct l as [|m' l]; by eexists. }
    apply json_reads_open; [| |by apply (json_reads_members n room IH)].
    + rewrite E. by intros ? ? [= <- <-].
    + rewrite E. done.
Qed.

(** C14. What [Json::serialize] writes, [Json::parse] reads back as the value it
    was written from: strings with every byte, arrays, objects in the order of their
    members; for whole numbers below two to the 53, distinct keys in an object, and
    a depth of at most 129. *)
Theorem serialize_parse (j : Json) :
  writable (S kMaxDepth) j -> Json_parse (serialize j) = Done (inl j).
Proof.
  intros Hj. unfold Json_parse, serialize. rewrite chars_str, <-length_chars, chars_str.
  set (n := S (length (serializeTo j))).
  assert (json_reads n (parse_document_value n) (serializeTo j) [] j) as H.
  { unfold parse_document_value. rewrite <-(app_nil_r (serializeTo j)).
    apply (json_reads_bind n _ _ _ _ _ j); [by apply json_reads_value; [|apply follows_nil]|].
    apply (json_reads_bind_nil n _ _ _ _ tt); [by apply json_reads_skipWhitespace|]. apply json_reads_rest, json_reads_ret. }
  destruct (H ltac:(rewrite app_nil_r; unfold n; lia) 0) as (p & E). rewrite app_nil_r in E. by rewrite E.
Qed.

Definition sample_value : Json :=
  JObject [("id", json_int (-32002)); ("list", JArray [JNull; JBool true; JArray []; JObject []]);
           ("text", JString (str ["a"%char; dquote; backslash; ascii_of_N 10; ascii_of_N 1; ascii_of_N 200]))].

Lemma sample_writable n : writable (S (S (S n))) sample_value.
Proof.
  split.
  - repeat (constructor; [set_solver|]). constructor.
  - constructor; [|repeat constructor]. exists (-32002)%Z. split; [reflexivity|lia].
Qed.

Lemma serialize_parse_witness :
  writable (S kMaxDepth) sample_value /\ Json_parse (serialize sample_value) = Done (inl sample_value).
Proof. exact (conj (sample_writable 126) (serialize_parse sample_value (sample_writable 126))). Defined.
