(* ===== verification/Transport.v ===== *)
(** The messages of the language server as bytes: frames ([src/lsp/Transport.cpp]), and
    the file URIs that name its documents ([src/lsp/Server.cpp]). *)

From stdpp Require Import pretty.
From S2P Require Import Prelude Lexer Json JsonTheorems.

Definition kMaxFrameBytes : Z := 16 * 1024 * 1024.

Definition carriage_return : ascii := ascii_of_N 13.

(** A line without the [\r] at its end. *)
Definition chop (line : list ascii) : list ascii :=
  match last line with
  | Some c => if decide (c = carriage_return) then removelast line else line
  | None => line
  end.

(** [readHeaderLine]: the line, if there is one, and what follows it. *)
Fixpoint readHeaderLine (line l : list ascii) : option (list ascii) * list ascii :=
  match l with
  | [] => (if decide (line = []) then None else Some line, [])
  | c :: l' => if decide (c = newline) then (Some (chop line), l') else readHeaderLine (line ++ [c]) l'
  end.

(** The digits of a length: the number and what follows; nothing above the cap. *)
Fixpoint content_digits (contentLength : Z) (l : list ascii) : option (Z * list ascii) :=
  match l with
  | c :: l' =>
      if isDigit c then
        let contentLength := (contentLength * 10 + digit_value c)%Z in
        if decide (kMaxFrameBytes < contentLength)%Z then None else content_digits contentLength l'
      else Some (contentLength, l)
  | [] => Some (contentLength, [])
  end.

(** What a header line says of the length: nothing, a length, or an error. *)
Definition header_length (line : list ascii) : option (Z + string) :=
  let prefix := chars "Content-Length:" in
  let malformed := inr ("malformed Content-Length header: " +:+ str line) in
  if decide (take (length prefix) line = prefix) then
    let value := drop (length prefix) line in
    let value := drop (prefix_length (fun c => bool_decide (c = " "%char)) value) value in
    match value with
    | c :: _ =>
        if isDigit c then
          match content_digits 0 value with
          | Some (n, []) => Some (inl n)
          | Some (_, _) => Some malformed
          | None => Some (inr "Content-Length exceeds frame cap")
          end
        else Some malformed
    | [] => Some malformed
    end
  else None.

(** The stream ends between two messages, or the reader throws. *)
Inductive no_frame :=
  | CleanEof
  | TransportError (message : string).

(** The headers up to the blank line: the length, below zero when there was none,
    and what follows. *)
Fixpoint readHeaders (fuel : nat) (contentLength : Z) (sawHeader : bool) (l : list ascii) :
  outcome ((Z * list ascii) + no_frame) :=
  match fuel with
  | 0 => OutOfFuel
  | S fuel =>
      match readHeaderLine [] l with
      | (None, _) =>
          Done (inr (if sawHeader then TransportError "unexpected EOF inside frame headers" else CleanEof))
      | (Some line, l') =>
          if decide (line = []) then Done (inl (contentLength, l'))
          else
            match header_length line with
            | Some (inl n) => readHeaders fuel n true l'
            | Some (inr e) => Done (inr (TransportError e))
            | None => readHeaders fuel contentLength true l'
            end
      end
  end.

(** A payload and what follows it. *)
Definition readFrame (fuel : nat) (l : list ascii) : outcome ((list ascii * list ascii) + no_frame) :=
  match readHeaders fuel (-1) false l with
  | Done (inl (contentLength, l')) =>
      if decide (contentLength < 0)%Z then Done (inr (TransportError "frame headers missing Content-Length"))
      else
        let n := Z.to_nat contentLength in
        if decide (length l' < n) then Done (inr (TransportError "truncated frame payload"))
        else Done (inl (take n l', drop n l'))
  | Done (inr r) => Done (inr r)
  | UndefinedBehaviour => UndefinedBehaviour
  | OutOfFuel => OutOfFuel
  end.

(** What [writeFrame] writes. *)
Definition writeFrame (payload : string) : list ascii :=
  chars "Content-Length: " ++ chars (pretty (Z.of_nat (String.length payload))) ++
  [carriage_return; newline; carriage_return; newline] ++ chars payload.

(** * Reading ends *)

Lemma readHeaderLine_shorter l : forall line line' l',
  readHeaderLine line l = (Some line', l') -> l' = [] /\ l = [] \/ length l' < length l.
Proof.
  induction l as [|c l IH]; intros line line' l'; cbn.
  - intros [= _ <-]. by left.
  - case_decide; [intros [= _ <-]; right; lia|]. intros [[-> ->]|?]%IH; right; cbn; lia.
Qed.

Lemma readHeaderLine_first l line' l' : readHeaderLine [] l = (Some line', l') -> length l' < length l.
Proof. intros H. destruct (readHeaderLine_shorter l [] line' l' H) as [[-> ->]|?]; done. Qed.

Lemma readHeaders_ends fuel : forall n saw l, length l < fuel ->
  exists r, readHeaders fuel n saw l = Done r /\ forall m l', r = inl (m, l') -> length l' < length l.
Proof.
  induction fuel as [|fuel IH]; intros n saw l Hl; [lia|]. cbn [readHeaders].
  destruct (readHeaderLine [] l) as [[line|] l1] eqn:E; [|by eexists].
  apply readHeaderLine_first in E. case_decide.
  { eexists. split; [done|]. by intros m l' [= _ <-]. }
  assert (forall z, exists r, readHeaders fuel z true l1 = Done r /\ forall m l', r = inl (m, l') -> length l' < length l) as Hgo.
  { intros z. destruct (IH z true l1 ltac:(lia)) as (r & Er & Hr). exists r. split; [done|]. intros m l' ->. specialize (Hr m l' eq_refl). lia. }
  destruct (header_length line) as [[z|e]|]; [apply Hgo|by eexists|apply Hgo].
Qed.

(** Reading ends, and a frame that was read has used a character. *)
Lemma readFrame_ends fuel l : length l < fuel ->
  exists r, readFrame fuel l = Done r /\ forall payload rest, r = inl (payload, rest) -> length rest < length l.
Proof.
  intros Hl. unfold readFrame. destruct (readHeaders_ends fuel (-1) false l Hl) as (r & -> & Hr).
  destruct r as [[n l']|r]; [|by eexists]. specialize (Hr n l' eq_refl).
  repeat case_decide; eexists; (split; [reflexivity|]); [done..|]. intros payload rest [= <- <-]. rewrite length_drop. lia.
Qed.

(** * What is written is read *)

Lemma readHeaderLine_line l rest : forall line, newline ∉ l ->
  readHeaderLine line (l ++ newline :: rest) = (Some (chop (line ++ l)), rest).
Proof.
  induction l as [|c l IH]; intros line H; cbn.
  - by rewrite decide_True, app_nil_r.
  - apply not_elem_of_cons in H as [Hc H]. rewrite decide_False by (intros ->; done). rewrite IH by done. by rewrite <-app_assoc.
Qed.

Lemma chop_snoc l : chop (l ++ [carriage_return]) = l.
Proof. unfold chop. rewrite last_snoc, decide_True by done. apply removelast_last. Qed.

Lemma foldl_digits_le l : forall n, (0 <= n)%Z -> Forall (fun c => isDigit c = true) l ->
  (n <= foldl (fun n c => n * 10 + digit_value c) n l)%Z.
Proof.
  induction l as [|c l IH]; intros n Hn Hl; cbn; [done|]. apply Forall_cons in Hl as [Hc Hl].
  assert (0 <= digit_value c)%Z by (unfold isDigit, char_between in Hc; unfold digit_value; destruct c as [[] [] [] [] [] [] [] []]; done).
  specialize (IH (n * 10 + digit_value c)%Z ltac:(lia) Hl). lia.
Qed.

Lemma content_digits_all l : forall n, (0 <= n)%Z -> Forall (fun c => isDigit c = true) l ->
  (foldl (fun n c => n * 10 + digit_value c) n l <= kMaxFrameBytes)%Z ->
  content_digits n l = Some (foldl (fun n c => n * 10 + digit_value c)%Z n l, []).
Proof.
  induction l as [|c l IH]; intros n Hn Hl Hm; [done|]. apply Forall_cons in Hl as [Hc Hl]. cbn. rewrite Hc.
  assert (0 <= digit_value c)%Z by (unfold isDigit, char_between in Hc; unfold digit_value; destruct c as [[] [] [] [] [] [] [] []]; done).
  pose proof (foldl_digits_le l (n * 10 + digit_value c)%Z ltac:(lia) Hl). cbn in Hm.
  rewrite decide_False by lia. apply IH; [lia|done|done].
Qed.

Lemma header_length_pretty n : (0 <= n <= kMaxFrameBytes)%Z ->
  header_length (chars "Content-Length: " ++ chars (pretty n)) = Some (inl n).
Proof.
  intros Hn. destruct (pretty_Z_decimal n) as (l & -> & Hl & Hv & Hne). rewrite decide_False by lia. cbn [app].
  unfold header_length. set (prefix := chars "Content-Length:"). rewrite decide_True by done.
  destruct l as [|c l]; [done|].
  assert (drop (length prefix) (chars "Content-Length: " ++ c :: l) = " "%char :: c :: l) as -> by done.
  assert (isDigit c = true) as Hc by by apply Forall_cons in Hl as [Hl _].
  assert (prefix_length (fun c => bool_decide (c = " "%char)) (" "%char :: c :: l) = 1) as ->.
  { cbn. rewrite bool_decide_true, bool_decide_false by (done || by intros ->). done. }
  cbn [drop]. rewrite ?drop_0, Hc. unfold decimal in Hv.
  rewrite content_digits_all by (done || lia). rewrite Hv. f_equal. f_equal. lia.
Qed.

(** A frame is read back as its payload, whatever follows it. *)
Lemma readFrame_writeFrame fuel payload rest :
  2 <= fuel -> (Z.of_nat (String.length payload) <= kMaxFrameBytes)%Z ->
  readFrame fuel (writeFrame payload ++ rest) = Done (inl (chars payload, rest)).
Proof.
  intros Hf Hn. destruct fuel as [|[|fuel]]; [lia..|]. unfold readFrame, writeFrame.
  set (n := Z.of_nat (String.length payload)) in *. set (h := chars "Content-Length: " ++ chars (pretty n)).
  replace ((chars "Content-Length: " ++ _) ++ rest)
    with ((h ++ [carriage_return]) ++ newline :: ([carriage_return] ++ newline :: chars payload ++ rest))
    by (subst h; by rewrite <-!app_assoc).
  assert (newline ∉ h ++ [carriage_return]) as Hh.
  { subst h. destruct (pretty_Z_decimal n) as (l & -> & Hl & _). rewrite decide_False by lia. cbn [app].
    rewrite !elem_of_app. intros [[H|H]|H].
    - revert H. apply (bool_decide_eq_false_1 (newline ∈ chars "Content-Length: ")). by vm_compute.
    - rewrite Forall_forall in Hl. by specialize (Hl _ H).
    - by apply list_elem_of_singleton in H. }
  cbn [readHeaders]. rewrite readHeaderLine_line by done. cbn [app]. rewrite chop_snoc.
  rewrite decide_False by done. subst h. rewrite header_length_pretty by lia.
  change (carriage_return :: newline :: chars payload ++ rest) with ([carriage_return] ++ newline :: chars payload ++ rest).
  rewrite readHeaderLine_line by (intros H; by apply list_elem_of_singleton in H).
  cbn [app]. assert (chop [carriage_return] = []) as -> by apply (chop_snoc []). rewrite decide_True by done.
  rewrite decide_False by lia. assert (Z.to_nat n = length (chars payload)) as -> by (rewrite length_chars; lia).
  rewrite decide_False by (rewrite length_app; lia). by rewrite take_app_length, drop_app_length.
Qed.

(** * Streams of frames *)

(** All the frames of a stream. *)
Fixpoint read_frames (fuel : nat) (l : list ascii) : outcome (list (list ascii) * no_frame) :=
  match fuel with
  | 0 => OutOfFuel
  | S fuel' =>
      match readFrame fuel l with
      | Done (inl (payload, rest)) =>
          match read_frames fuel' rest with
          | Done (frames, e) => Done (payload :: frames, e)
          | UndefinedBehaviour => UndefinedBehaviour
          | OutOfFuel => OutOfFuel
          end
      | Done (inr e) => Done ([], e)
      | UndefinedBehaviour => UndefinedBehaviour
      | OutOfFuel => OutOfFuel
      end
  end.

(** C15. Framing: a stream of messages that were written one after another is read
    as these messages and nothing else, and ends between two of them, whatever
    bytes the messages hold, if none is longer than 16 MiB. *)
Theorem frames_roundtrip (payloads : list string)
  (Hsize : Forall (fun p => Z.of_nat (String.length p) <= kMaxFrameBytes)%Z payloads) :
  read_frames (S (length (concat (map writeFrame payloads)))) (concat (map writeFrame payloads)) =
  Done (map chars payloads, CleanEof).
Proof.
  assert (forall fuel, length (concat (map writeFrame payloads)) < fuel ->
    read_frames fuel (concat (map writeFrame payloads)) = Done (map chars payloads, CleanEof)) as H; [|apply H; lia].
  induction Hsize as [|p l Hp Hl IH]; intros fuel Hf; (destruct fuel as [|fuel]; [lia|]).
  - by destruct fuel.
  - cbn [map concat] in *. assert (2 <= length (writeFrame p)) as H2 by (unfold writeFrame; rewrite !length_app; cbn; lia).
    rewrite length_app in Hf. cbn [read_frames]. rewrite readFrame_writeFrame by (done || lia). by rewrite IH by lia.
Qed.

Lemma frames_roundtrip_witness :
  read_frames (S (length (concat (map writeFrame ["a"; ""; "Content-Length: 1"]))))
    (concat (map writeFrame ["a"; ""; "Content-Length: 1"])) =
  Done (map chars ["a"; ""; "Content-Length: 1"], CleanEof).
Proof. apply frames_roundtrip. repeat (constructor; [vm_compute; discriminate|]). constructor. Defined.

(** * File URIs *)

(** A byte that is left as it is. *)
Definition unreserved (c : ascii) : bool :=
  isalnum c || bool_decide (c ∈ ["/"; "-"; "_"; "."; "~"]%char).

Definition upper_hex (n : N) : ascii := ascii_of_N (if decide (n < 10)%N then 48 + n else 55 + n).

Definition pathToUri_char (c : ascii) : list ascii :=
  if unreserved c then [c]
  else let n := N_of_ascii c in ["%"%char; upper_hex (n / 16); upper_hex (n mod 16)].

Fixpoint pathToUri_chars (l : list ascii) : list ascii :=
  match l with [] => [] | c :: l' => pathToUri_char c ++ pathToUri_chars l' end.

Definition pathToUri (path : string) : string := "file://" +:+ str (pathToUri_chars (chars path)).

(** The loop that decodes. *)
Fixpoint percent_decode (l : list ascii) : list ascii :=
  match l with
  | [] => []
  | c :: l' =>
      match l' with
      | a :: b :: l'' =>
          match hex_value a, hex_value b with
          | Some x, Some y => if decide (c = "%"%char) then ascii_of_N (x * 16 + y) :: percent_decode l'' else c :: percent_decode l'
          | _, _ => c :: percent_decode l'
          end
      | _ => c :: percent_decode l'
      end
  end.

(** What begins with the first [/]. *)
Fixpoint from_slash (l : list ascii) : list ascii :=
  match l with [] => [] | c :: l' => if decide (c = "/"%char) then l else from_slash l' end.

Definition uriToPath (uri : string) : string :=
  let l := chars uri in
  let scheme := chars "file://" in
  if decide (take (length scheme) l = scheme) then
    match from_slash (drop (length scheme) l) with
    | [] => "/"
    | rest => str (percent_decode rest)
    end
  else uri.

Lemma percent_decode_char c l :
  percent_decode (pathToUri_char c ++ l) = c :: percent_decode l.
Proof.
  unfold pathToUri_char. destruct (unreserved c) eqn:E.
  - assert (c <> "%"%char) as Hc by by intros ->. cbn [app percent_decode].
    repeat case_match; try done; by destruct Hc.
  - by destruct c as [[] [] [] [] [] [] [] []].
Qed.

(** A path that starts with a slash is the path of its URI, whatever bytes it
    holds. *)
Lemma uriToPath_pathToUri (path : string) (Hroot : head (chars path) = Some "/"%char) :
  uriToPath (pathToUri path) = path.
Proof.
  unfold uriToPath, pathToUri. rewrite chars_app, chars_str, take_app_length, decide_True, drop_app_length by done.
  rewrite <-(str_chars path) at 2. destruct (chars path) as [|c l]; [done|]. injection Hroot as ->.
  cbn [pathToUri_chars]. assert (from_slash (pathToUri_char "/" ++ pathToUri_chars l) = pathToUri_char "/" ++ pathToUri_chars l) as -> by done.
  assert (forall l, percent_decode (pathToUri_chars l) = l) as H.
  { intros l'. induction l' as [|c l' IH]; [done|]. cbn [pathToUri_chars]. by rewrite percent_decode_char, IH. }
  change (str (percent_decode (pathToUri_char "/" ++ pathToUri_chars l)) = str ("/"%char :: l)).
  by rewrite percent_decode_char, H.
Qed.

Lemma uriToPath_pathToUri_witness :
  pathToUri "/a b/100%/x.b" = "file:///a%20b/100%25/x.b" /\ uriToPath (pathToUri "/a b/100%/x.b") = "/a b/100%/x.b".
Proof. split; [vm_compute; reflexivity|]. apply uriToPath_pathToUri. reflexivity. Defined.

Example uriToPath_samples :
  map uriToPath ["file://host/a%2Fb"; "file://host"; "untitled:1"; "file:///a%2"; "file:///%zz"] =
  ["/a/b"; "/"; "untitled:1"; "/a%2"; "/%zz"].
Proof. vm_compute. reflexivity. Qed.
