(* ===== verification/AstLocator.v ===== *)
(** What is under the cursor ([src/lsp/AstLocator.cpp]): the node a position in
    the text belongs to, the definition it goes to, and the text shown for it. *)

From S2P Require Import Prelude SourceLocation Diagnostics Ast AstInduction Sema ParseDeclarations.

(** * Walking the tree

    A [Statement *] points to a statement or to an expression, which is one. *)

Definition stmt_location (s : Stmt) : SourceLocation :=
  match s with
  | SExpression e => expr_location e
  | SBlock (mkBlock n _ _) => getLocation n
  | ReturnStatement n _ | IfStatement n _ _ _ | WhileStatement n _ _ | ForStatement n _ _ _ _
  | ForInStatement n _ _ _ _ _ | VariableDeclaration n _ | AssertStatement n _ _ | WaitStatement n _
  | WaitAllStatement n | BreakStatement n | ContinueStatement n | EventHandler n _ _ => getLocation n
  end.

Section AstLocator.
Variables mLine mCol : Z.

(** [mBest] before and after a node. *)
Definition consider (stmt : Stmt) (mBest : option Stmt) : option Stmt :=
  let loc := stmt_location stmt in
  if bool_decide (loc_line loc <> mLine) || bool_decide (mCol < loc_col loc)%Z then mBest
  else
    match mBest with
    | None => Some stmt
    | Some best => if decide (loc_col (stmt_location best) <= loc_col loc)%Z then Some stmt else mBest
    end.

(** The nodes of a list, one after another; a null pointer is passed over. *)
Definition visit_all {A} (visit : A -> option Stmt -> option Stmt) (l : list A) (mBest : option Stmt) : option Stmt :=
  fold_left (fun best a => visit a best) l mBest.
Definition visit_pointer {A} (visit : A -> option Stmt -> option Stmt) (o : option A) (mBest : option Stmt) : option Stmt :=
  match o with Some a => visit a mBest | None => mBest end.

(** [visitStatement], for an expression, a block and a statement. *)
Fixpoint visit_expr (e : Expr) (mBest : option Stmt) : option Stmt :=
  let mBest := consider (SExpression e) mBest in
  match e with
  | OperationsExpression _ _ a b | IndexExpression _ a b | RangeExpression _ a b | PipelineExpression _ a b
  | FieldAssignmentExpression _ _ a _ b => visit_expr b (visit_expr a mBest)
  | UnaryExpression _ _ a | AssignmentExpression _ _ _ a | FieldAccessExpression _ a _ | TryExpression _ a
  | AwaitExpression _ a => visit_expr a mBest
  | IndexAssignmentExpression _ _ a b c => visit_expr c (visit_expr b (visit_expr a mBest))
  | CallExpression _ _ _ l | ArrayLiteralExpression _ l | StringInterpolation _ l | StructLiteralExpression _ _ _ _ l
  | ConstructExpression _ _ _ l | EnumConstructExpression _ _ _ l | IndirectCallExpression _ _ l => visit_all visit_expr l mBest
  | MethodCallExpression _ a _ l => visit_all visit_expr l (visit_expr a mBest)
  | LambdaExpression _ _ _ b | SpawnStatement _ b => visit_pointer visit_block b mBest
  | MatchExpression _ subject arms _ =>
      visit_all (fun arm => match arm with mkArm _ _ body _ _ _ _ => visit_pointer visit_block body end) arms
        (visit_expr subject mBest)
  | _ => mBest
  end
with visit_block (b : Block) (mBest : option Stmt) : option Stmt :=
  let mBest := consider (SBlock b) mBest in
  match b with mkBlock _ _ l => visit_all visitStatement l mBest end
with visitStatement (stmt : Stmt) (mBest : option Stmt) : option Stmt :=
  match stmt with
  | SExpression e => visit_expr e mBest
  | SBlock b => visit_block b mBest
  | _ =>
      let mBest := consider stmt mBest in
      match stmt with
      | ReturnStatement _ o => visit_pointer visit_expr o mBest
      | IfStatement _ e a b => visit_pointer visitStatement b (visit_pointer visitStatement a (visit_expr e mBest))
      | WhileStatement _ e a => visit_pointer visitStatement a (visit_expr e mBest)
      | ForInStatement _ _ _ o a _ => visit_pointer visitStatement a (visit_pointer visit_expr o mBest)
      | VariableDeclaration _ l =>
          visit_all (fun decl => match decl with mkDecl _ initial => visit_pointer visit_expr initial end) l mBest
      | AssertStatement _ e _ | WaitStatement _ e => visit_expr e mBest
      | EventHandler _ e b => visit_pointer visit_block b (visit_expr e mBest)
      | _ => mBest
      end
  end.

Definition body_of_function (m : Module_) (f : FunctionDefinition) : FunctionBody :=
  default (mkBody [] [] None) (mBodies m !! fid f).

Definition locator_visitFunction (m : Module_) (f : FunctionDefinition) (mBest : option Stmt) : option Stmt :=
  let body := body_of_function m f in
  let mBest := visit_all visit_expr (mRequiresClauses body) mBest in
  let mBest := visit_all visit_expr (mEnsuresClauses body) mBest in
  visit_pointer visit_block (mFuncBody body) mBest.

Definition locator_visitModule (m : Module_) (mBest : option Stmt) : option Stmt :=
  let mBest := visit_all (fun s => visit_all (locator_visitFunction m) (s_methods s)) (mStructList m) mBest in
  let mBest := visit_all (locator_visitFunction m) (mFunctionList m) mBest in
  visit_all (fun t => visit_block (test_body t)) (mTestBlocks m) mBest.

End AstLocator.

Definition locate (m : Module_) (line col : Z) : option Stmt := locator_visitModule line col m None.

(** * Definitions *)

Section definitions.
(** What the semantic pass has stamped on the nodes. *)
Variable sema : Sema.

Definition resolved_method (e : Expr) : option FunctionDefinition := mResolvedMethods sema !! node_id (expr_node e).
Definition resolved_field (e : Expr) : option VariableDefinition := mResolvedFields sema !! node_id (expr_node e).
Definition resolved_type (e : Expr) : option Ty := mResolvedTypes sema !! node_id (expr_node e).

(** [located]. *)
Definition located (loc : SourceLocation) : option SourceLocation := if isSet loc then Some loc else None.

(** [variants[ i ]] with the check of its bounds. *)
Definition variant_at (ed : EnumDefinition) (i : Z) : option Variant :=
  if bool_decide (0 <= i)%Z then e_variants ed !! Z.to_nat i else None.

Definition definitionLocation (node : option Stmt) : option SourceLocation :=
  match node with
  | Some (SExpression e) =>
      match e with
      | VariableExpression _ def | IndirectCallExpression _ def _ => def ≫= fun d => located (v_location d)
      | CallExpression _ def _ _ | FunctionRefExpression _ def => def ≫= fun d => located (f_location d)
      | ConstructExpression _ def _ _ => def ≫= fun d => located (s_location d)
      | EnumConstructExpression _ def i _ =>
          def ≫= fun d =>
            match variant_at d i ≫= fun v => located (variant_location v) with
            | Some loc => Some loc
            | None => located (e_location d)
            end
      | MethodCallExpression _ _ _ _ => resolved_method e ≫= fun d => located (f_location d)
      | FieldAccessExpression _ _ _ => resolved_field e ≫= fun d => located (v_location d)
      | _ => None
      end
  | _ => None
  end.

(** * Hover text *)

(** [operator<<] for a [Type]; a function type has no type arguments. *)
Fixpoint type_text (t : Ty) : string :=
  match t with
  | Type_ name [] => name
  | Type_ name (p :: ps) =>
      name +:+ "<" +:+ type_text p +:+ fold_right (fun p s => ", " +:+ type_text p +:+ s) ">" ps
  | FunctionType _ _ => "fn"
  end.

Definition typeText (t : option Ty) : string := match t with Some t => type_text t | None => "void" end.

Definition variable_type (v : VariableDefinition) : option Ty := mVarTypes sema !! vid v.

Definition declText (def : option VariableDefinition) : string :=
  match def with Some d => typeText (variable_type d) +:+ " " +:+ v_name d | None => "" end.

Definition parameter_text (param : VariableDefinition) : string :=
  if is_null param then ""
  else
    match variable_type param with
    | Some pt => if decide (ty_name pt = "self") then "self" else declText (Some param)
    | None => declText (Some param)
    end.

(** The parameters, with commas between them. *)
Definition parameters_text (l : list VariableDefinition) : string :=
  match l with
  | [] => ""
  | p :: ps => fold_left (fun s p => s +:+ ", " +:+ parameter_text p) ps (parameter_text p)
  end.

Definition signatureText (fn : option FunctionDefinition) : string :=
  match fn with
  | Some f =>
      "fn " +:+ f_name f +:+ "(" +:+ parameters_text (f_params f) +:+ ")" +:+
      match f_return f with Some t => " -> " +:+ type_text t | None => "" end
  | None => ""
  end.

(** The text that the type of an expression gives. *)
Definition fallback_text (e : Expr) : string := match resolved_type e with Some t => type_text t | None => "" end.

Definition hoverText (node : option Stmt) : string :=
  match node with
  | Some (SExpression e) =>
      match e with
      | VariableExpression _ def => declText def
      | CallExpression _ def _ _ | FunctionRefExpression _ def => signatureText def
      | MethodCallExpression _ _ _ _ =>
          match resolved_method e with Some f => signatureText (Some f) | None => fallback_text e end
      | FieldAccessExpression _ _ _ =>
          match resolved_field e with Some v => declText (Some v) | None => fallback_text e end
      | ConstructExpression _ def _ _ =>
          match def with Some s => "struct " +:+ s_name s | None => fallback_text e end
      | EnumConstructExpression _ def i _ =>
          match def with
          | Some d =>
              match variant_at d i with
              | Some v => "enum " +:+ e_name d +:+ "." +:+ variant_name v
              | None => "enum " +:+ e_name d
              end
          | None => fallback_text e
          end
      | IndirectCallExpression _ def _ => declText def
      | _ => fallback_text e
      end
  | _ => ""
  end.
End definitions.

(** * What is considered

    The nodes in the order they are visited in. *)

Fixpoint expr_nodes (e : Expr) : list Stmt :=
  SExpression e ::
  match e with
  | OperationsExpression _ _ a b | IndexExpression _ a b | RangeExpression _ a b | PipelineExpression _ a b
  | FieldAssignmentExpression _ _ a _ b => expr_nodes a ++ expr_nodes b
  | UnaryExpression _ _ a | AssignmentExpression _ _ _ a | FieldAccessExpression _ a _ | TryExpression _ a
  | AwaitExpression _ a => expr_nodes a
  | IndexAssignmentExpression _ _ a b c => expr_nodes a ++ expr_nodes b ++ expr_nodes c
  | CallExpression _ _ _ l | ArrayLiteralExpression _ l | StringInterpolation _ l | StructLiteralExpression _ _ _ _ l
  | ConstructExpression _ _ _ l | EnumConstructExpression _ _ _ l | IndirectCallExpression _ _ l => flat expr_nodes l
  | MethodCallExpression _ a _ l => expr_nodes a ++ flat expr_nodes l
  | LambdaExpression _ _ _ b | SpawnStatement _ b => match b with Some b => block_nodes b | None => [] end
  | MatchExpression _ subject arms _ =>
      expr_nodes subject ++
      flat (fun arm => match arm with mkArm _ _ body _ _ _ _ => match body with Some b => block_nodes b | None => [] end end) arms
  | _ => []
  end
with block_nodes (b : Block) : list Stmt := SBlock b :: match b with mkBlock _ _ l => flat stmt_nodes l end
with stmt_nodes (s : Stmt) : list Stmt :=
  match s with
  | SExpression e => expr_nodes e
  | SBlock b => block_nodes b
  | _ =>
      s ::
      match s with
      | ReturnStatement _ o => match o with Some e => expr_nodes e | None => [] end
      | IfStatement _ e a b =>
          expr_nodes e ++ match a with Some a => stmt_nodes a | None => [] end ++
          match b with Some b => stmt_nodes b | None => [] end
      | WhileStatement _ e a => expr_nodes e ++ match a with Some a => stmt_nodes a | None => [] end
      | ForInStatement _ _ _ o a _ =>
          match o with Some e => expr_nodes e | None => [] end ++ match a with Some a => stmt_nodes a | None => [] end
      | VariableDeclaration _ l =>
          flat (fun decl => match decl with mkDecl _ initial => match initial with Some e => expr_nodes e | None => [] end end) l
      | AssertStatement _ e _ | WaitStatement _ e => expr_nodes e
      | EventHandler _ e b => expr_nodes e ++ match b with Some b => block_nodes b | None => [] end
      | _ => []
      end
  end.

Definition function_nodes (m : Module_) (f : FunctionDefinition) : list Stmt :=
  let body := body_of_function m f in
  flat expr_nodes (mRequiresClauses body) ++ flat expr_nodes (mEnsuresClauses body) ++
  flat block_nodes (of_option (mFuncBody body)).

Definition method_nodes (m : Module_) : list Stmt := flat (fun s => flat (function_nodes m) (s_methods s)) (mStructList m).
Definition free_nodes (m : Module_) : list Stmt :=
  flat (function_nodes m) (mFunctionList m) ++ flat (fun t => block_nodes (test_body t)) (mTestBlocks m).
