(* ===== verification/LocatorTheorems.v ===== *)
(** What the locator finds: of the nodes on the line that start at or before the
    cursor, the last one visited among those that start last. *)

From S2P Require Import Prelude SourceLocation Diagnostics Ast AstInduction Sema AstLocator.

(** * The walk is a fold over the nodes *)

Section walk.
Variables mLine mCol : Z.

Definition walk (l : list Stmt) (mBest : option Stmt) : option Stmt := fold_left (fun b s => consider mLine mCol s b) l mBest.

Lemma walk_app l l' b : walk (l ++ l') b = walk l' (walk l b).
Proof. apply fold_left_app. Qed.

Lemma visit_all_walk {A} (visit : A -> option Stmt -> option Stmt) (nodes : A -> list Stmt) l :
  (forall a, a ∈ l -> forall b, visit a b = walk (nodes a) b) -> forall b, visit_all visit l b = walk (flat nodes l) b.
Proof.
  induction l as [|a l IH]; intros H b; [done|]. cbn. rewrite walk_app, <-H by set_solver. apply IH. set_solver.
Qed.

Lemma walk_cons s l b : walk (s :: l) b = walk l (consider mLine mCol s b).
Proof. done. Qed.

Lemma visit_pointer_walk {A} (visit : A -> option Stmt -> option Stmt) (nodes : A -> list Stmt) o :
  (forall a, a ∈ of_option o -> forall b, visit a b = walk (nodes a) b) ->
  forall b, visit_pointer visit o b = walk (match o with Some a => nodes a | None => [] end) b.
Proof. destruct o as [a|]; [|done]. intros H b. cbn. apply H. by left. Qed.

Definition expr_walks (e : Expr) : Prop := forall b, visit_expr mLine mCol e b = walk (expr_nodes e) b.
Definition stmt_walks (s : Stmt) : Prop := forall b, visitStatement mLine mCol s b = walk (stmt_nodes s) b.
Definition block_walks (bl : Block) : Prop := forall b, visit_block mLine mCol bl b = walk (block_nodes bl) b.

Lemma exprs_walk l : (forall x, x ∈ l -> expr_walks x) -> forall b, visit_all (visit_expr mLine mCol) l b = walk (flat expr_nodes l) b.
Proof. apply visit_all_walk. Qed.

Lemma arms_walk arms : (forall bl, bl ∈ flat arm_blocks arms -> block_walks bl) -> forall b,
  visit_all (fun arm => match arm with mkArm _ _ body _ _ _ _ => visit_pointer (visit_block mLine mCol) body end) arms b =
  walk (flat (fun arm => match arm with mkArm _ _ body _ _ _ _ => match body with Some b => block_nodes b | None => [] end end) arms) b.
Proof.
  intros H. apply visit_all_walk. intros [p bs body v sc w q] Ha b. apply visit_pointer_walk. intros bl Hbl.
  apply H. by eapply elem_of_flat.
Qed.

Lemma decls_walk l : (forall e, e ∈ flat decl_exprs l -> expr_walks e) -> forall b,
  visit_all (fun decl => match decl with mkDecl _ initial => visit_pointer (visit_expr mLine mCol) initial end) l b =
  walk (flat (fun decl => match decl with mkDecl _ initial => match initial with Some e => expr_nodes e | None => [] end end) l) b.
Proof.
  intros H. apply visit_all_walk. intros [v initial] Ha b. apply visit_pointer_walk. intros e He.
  apply H. by eapply elem_of_flat.
Qed.

(** The walk of a node, from the walks of its children. *)
Ltac walks IHe IHs IHb :=
  rewrite walk_cons, ?walk_app;
  repeat first
    [ reflexivity
    | rewrite (visit_pointer_walk (visit_expr mLine mCol) expr_nodes) by (intros ? ?; apply IHe; set_solver)
    | rewrite (visit_pointer_walk (visitStatement mLine mCol) stmt_nodes) by (intros ? ?; apply IHs; set_solver)
    | rewrite (visit_pointer_walk (visit_block mLine mCol) block_nodes) by (intros ? ?; apply IHb; set_solver)
    | rewrite exprs_walk by (intros ? ?; apply IHe; set_solver)
    | rewrite arms_walk by (intros ? ?; apply IHb; set_solver)
    | rewrite decls_walk by (intros ? ?; apply IHe; set_solver)
    | rewrite IHe by set_solver ].

Lemma walk_nodes : (forall e, expr_walks e) /\ (forall s, stmt_walks s) /\ (forall bl, block_walks bl).
Proof.
  apply ast_induction.
  - intros e IHe IHb b. destruct e; cbn [visit_expr expr_nodes expr_exprs expr_blocks] in *; walks IHe IHe IHb.
  - intros s IHe IHs IHb b.
    destruct s; cbn [visitStatement stmt_nodes stmt_exprs stmt_stmts stmt_blocks] in *;
      [apply IHe; set_solver|apply IHb; set_solver|walks IHe IHs IHb..].
  - intros [n sc l] IHs b. cbn [visit_block block_nodes block_stmts] in *. rewrite walk_cons. by apply visit_all_walk.
Qed.

Lemma function_walk m f b : locator_visitFunction mLine mCol m f b = walk (function_nodes m f) b.
Proof.
  destruct walk_nodes as (He & _ & Hb). unfold locator_visitFunction, function_nodes. rewrite !walk_app.
  rewrite !exprs_walk by (intros ? _; apply He).
  rewrite (visit_pointer_walk _ block_nodes) by (intros ? _; apply Hb).
  destruct (mFuncBody _); cbn [flat of_option]; by rewrite ?app_nil_r.
Qed.

Lemma module_walk m b : locator_visitModule mLine mCol m b = walk (method_nodes m ++ free_nodes m) b.
Proof.
  destruct walk_nodes as (_ & _ & Hb). unfold locator_visitModule, method_nodes, free_nodes. rewrite !walk_app.
  rewrite <-(visit_all_walk (fun s => visit_all (locator_visitFunction mLine mCol m) (s_methods s)))
    by (intros; apply visit_all_walk; intros; apply function_walk).
  rewrite <-(visit_all_walk (locator_visitFunction mLine mCol m)) by (intros; apply function_walk).
  rewrite <-(visit_all_walk (fun t => visit_block mLine mCol (test_body t))) by (intros; apply Hb). done.
Qed.
End walk.

(** * The node that is found *)

(** On the line, and not behind the cursor. *)
Definition under_cursor (line col : Z) (s : Stmt) : Prop :=
  loc_line (stmt_location s) = line /\ (loc_col (stmt_location s) <= col)%Z.

(** The last one of those with the greatest column. *)
Definition last_greatest (line col : Z) (l : list Stmt) (found : option Stmt) : Prop :=
  match found with
  | None => forall s, s ∈ l -> ~ under_cursor line col s
  | Some s => exists before behind, l = before ++ s :: behind /\ under_cursor line col s /\
      (forall t, t ∈ before -> under_cursor line col t -> loc_col (stmt_location t) <= loc_col (stmt_location s))%Z /\
      (forall t, t ∈ behind -> under_cursor line col t -> loc_col (stmt_location t) < loc_col (stmt_location s))%Z
  end.

Lemma consider_spec line col l s found :
  last_greatest line col l found -> last_greatest line col (l ++ [s]) (consider line col s found).
Proof.
  intros H. unfold consider.
  destruct (bool_decide_reflect (loc_line (stmt_location s) = line)) as [Hl|Hl].
  - rewrite bool_decide_false by auto. case_bool_decide as Hc; cbn [orb].
    + assert (~ under_cursor line col s) as Hn by (intros [_ ?]; lia). destruct found as [t|]; cbn in *.
      * destruct H as (b & e & -> & Ht & Hb & He). exists b, (e ++ [s]). rewrite <-app_assoc. split_and!; [done..|].
        intros t' [?| ->%list_elem_of_singleton]%elem_of_app Ht'; [by apply He|done].
      * intros t [?| ->%list_elem_of_singleton]%elem_of_app; [by apply H|done].
    + assert (under_cursor line col s) as Hs by (split; [done|lia]). destruct found as [t|]; cbn in *.
      * destruct H as (b & e & -> & Ht & Hb & He). case_decide as Hd; cbn.
        -- exists (b ++ t :: e), []. split_and!; [done..| |set_solver].
           intros t' [?|[->|?]%elem_of_cons]%elem_of_app Ht'; [|done|]; [specialize (Hb t')|specialize (He t')]; naive_solver lia.
        -- exists b, (e ++ [s]). rewrite <-app_assoc. split_and!; [done..|].
           intros t' [?| ->%list_elem_of_singleton]%elem_of_app Ht'; [by apply He|lia].
      * exists l, []. split_and!; [done..| |set_solver]. intros t Ht Hu. by destruct (H t Ht).
  - rewrite bool_decide_true by done. cbn [orb]. assert (~ under_cursor line col s) as Hn by by intros [? _].
    destruct found as [t|]; cbn in *.
    + destruct H as (b & e & -> & Ht & Hb & He). exists b, (e ++ [s]). rewrite <-app_assoc. split_and!; [done..|].
      intros t' [?| ->%list_elem_of_singleton]%elem_of_app Ht'; [by apply He|done].
    + intros t [?| ->%list_elem_of_singleton]%elem_of_app; [by apply H|done].
Qed.

Lemma walk_spec line col l : last_greatest line col l (walk line col l None).
Proof.
  induction l as [|s l IH] using rev_ind; [by intros ? ?%elem_of_nil|]. rewrite walk_app. by apply consider_spec.
Qed.

(** The node under the cursor: of the statements and expressions in the bodies
    and clauses of methods, then of functions, then in tests, those that start on
    the cursor's line and not behind it, the one that starts last, and of several
    that start there the one visited last, which is the innermost; none only if
    there is none. *)
Lemma locate_spec (m : Module_) (line col : Z) :
  last_greatest line col (method_nodes m ++ free_nodes m) (locate m line col).
Proof. unfold locate. rewrite module_walk. apply walk_spec. Qed.
