(* ===== verification/LocationDumper.v ===== *)
(** The dump of the locations of a module's nodes ([src/LocationDumper.cpp]), and
    that the locator of the language server walks as it does. *)

From stdpp Require Import pretty.
From S2P Require Import Prelude SourceLocation Diagnostics Ast AstInduction Sema ParseDeclarations Frontend FrontendTheorems AstLocator LocatorTheorems.

(** * The dump *)

(** The lines that have been written. *)
Notation lines := (list (SourceLocation * string)).

Definition emit (loc : SourceLocation) (kind : string) : run lines unit := modify (fun l => l ++ [(loc, kind)]).

(** [nodeKind( typeid( ... ) )]: the name of a node's class. *)
Definition expr_kind (e : Expr) : string :=
  match e with
  | ConstInteger _ _ => "ConstInteger" | ConstFloat _ _ => "ConstFloat" | ConstString _ _ => "ConstString"
  | ConstChar _ _ => "ConstChar" | StringInterpolation _ _ => "StringInterpolation"
  | VariableExpression _ _ => "VariableExpression" | CallExpression _ _ _ _ => "CallExpression"
  | IndirectCallExpression _ _ _ => "IndirectCallExpression" | QueryExpression _ _ _ => "QueryExpression"
  | UpdateExpression _ _ _ => "UpdateExpression" | DeleteExpression _ _ _ => "DeleteExpression"
  | InsertExpression _ _ _ _ => "InsertExpression" | QueryFieldExpression _ _ => "QueryFieldExpression"
  | FieldAccessExpression _ _ _ => "FieldAccessExpression" | MethodCallExpression _ _ _ _ => "MethodCallExpression"
  | IndexExpression _ _ _ => "IndexExpression" | OperationsExpression _ _ _ _ => "OperationsExpression"
  | UnaryExpression _ _ _ => "UnaryExpression" | AssignmentExpression _ _ _ _ => "AssignmentExpression"
  | FieldAssignmentExpression _ _ _ _ _ => "FieldAssignmentExpression"
  | IndexAssignmentExpression _ _ _ _ _ => "IndexAssignmentExpression"
  | ArrayLiteralExpression _ _ => "ArrayLiteralExpression" | RangeExpression _ _ _ => "RangeExpression"
  | StructLiteralExpression _ _ _ _ _ => "StructLiteralExpression" | ConstructExpression _ _ _ _ => "ConstructExpression"
  | EnumConstructExpression _ _ _ _ => "EnumConstructExpression" | TryExpression _ _ => "TryExpression"
  | AwaitExpression _ _ => "AwaitExpression" | PipelineExpression _ _ _ => "PipelineExpression"
  | FunctionRefExpression _ _ => "FunctionRefExpression" | MatchExpression _ _ _ _ => "MatchExpression"
  | LambdaExpression _ _ _ _ => "LambdaExpression" | SpawnStatement _ _ => "SpawnStatement"
  end.

Definition stmt_kind (s : Stmt) : string :=
  match s with
  | SExpression e => expr_kind e | SBlock _ => "Block" | ReturnStatement _ _ => "ReturnStatement"
  | IfStatement _ _ _ _ => "IfStatement" | WhileStatement _ _ _ => "WhileStatement"
  | ForStatement _ _ _ _ _ => "ForStatement" | ForInStatement _ _ _ _ _ _ => "ForInStatement"
  | VariableDeclaration _ _ => "VariableDeclaration" | AssertStatement _ _ _ => "AssertStatement"
  | WaitStatement _ _ => "WaitStatement" | WaitAllStatement _ => "WaitAllStatement"
  | BreakStatement _ => "BreakStatement" | ContinueStatement _ => "ContinueStatement"
  | EventHandler _ _ _ => "EventHandler"
  end.

Definition emit_node (s : Stmt) : run lines unit := emit (stmt_location s) (stmt_kind s).

(** Loops over lists, and the tests for null. *)
Definition dump_all {A} (visit : A -> run lines unit) (l : list A) : run lines unit :=
  fold_right (fun a k => visit a;; k) (mret tt) l.
Definition dump_pointer {A} (visit : A -> run lines unit) (o : option A) : run lines unit :=
  match o with Some a => visit a | None => mret tt end.

(** [visitVariableDef]; of a null parameter there is no location. *)
Definition dump_variable (v : VariableDefinition) : run lines unit :=
  if is_null v then undefined else emit (v_location v) "VariableDefinition".

(** [visitStatement]. *)
Fixpoint dump_expr (e : Expr) : run lines unit :=
  emit_node (SExpression e);;
  match e with
  | OperationsExpression _ _ a b | IndexExpression _ a b | RangeExpression _ a b | PipelineExpression _ a b
  | FieldAssignmentExpression _ _ a _ b => dump_expr a;; dump_expr b
  | UnaryExpression _ _ a | AssignmentExpression _ _ _ a | FieldAccessExpression _ a _ | TryExpression _ a
  | AwaitExpression _ a => dump_expr a
  | IndexAssignmentExpression _ _ a b c => dump_expr a;; dump_expr b;; dump_expr c
  | CallExpression _ _ _ l | ArrayLiteralExpression _ l | StringInterpolation _ l | StructLiteralExpression _ _ _ _ l
  | ConstructExpression _ _ _ l | EnumConstructExpression _ _ _ l | IndirectCallExpression _ _ l => dump_all dump_expr l
  | MethodCallExpression _ a _ l => dump_expr a;; dump_all dump_expr l
  | LambdaExpression _ _ ps b => dump_all dump_variable ps;; dump_pointer dump_block b
  | SpawnStatement _ b => dump_pointer dump_block b
  | MatchExpression _ subject arms _ =>
      dump_expr subject;;
      dump_all (fun arm => match arm with mkArm _ _ body _ _ _ _ => dump_pointer dump_block body end) arms
  | _ => mret tt
  end
with dump_block (b : Block) : run lines unit :=
  emit_node (SBlock b);; match b with mkBlock _ _ l => dump_all dump_stmt l end
with dump_stmt (s : Stmt) : run lines unit :=
  match s with
  | SExpression e => dump_expr e
  | SBlock b => dump_block b
  | _ =>
      emit_node s;;
      match s with
      | ReturnStatement _ o => dump_pointer dump_expr o
      | IfStatement _ e a b => dump_expr e;; dump_pointer dump_stmt a;; dump_pointer dump_stmt b
      | WhileStatement _ e a => dump_expr e;; dump_pointer dump_stmt a
      | ForInStatement _ _ _ o a _ => dump_pointer dump_expr o;; dump_pointer dump_stmt a
      | VariableDeclaration _ l =>
          dump_all (fun decl => match decl with mkDecl v initial => dump_pointer dump_variable v;; dump_pointer dump_expr initial end) l
      | AssertStatement _ e _ | WaitStatement _ e => dump_expr e
      | EventHandler _ e b => dump_expr e;; dump_pointer dump_block b
      | _ => mret tt
      end
  end.

Section module.
Variable m : Module_.

Definition dump_function (f : FunctionDefinition) : run lines unit :=
  let body := body_of_function m f in
  emit (f_location f) "FunctionDefinition";;
  dump_all dump_variable (f_params f);;
  dump_all dump_expr (mRequiresClauses body);;
  dump_all dump_expr (mEnsuresClauses body);;
  dump_pointer dump_block (mFuncBody body).

Definition dump_struct (s : StructDefinition) : run lines unit :=
  emit (s_location s) "StructDefinition";;
  dump_all dump_variable (s_fields s);;
  dump_all dump_function (s_methods s).

Definition dump_enum (e : EnumDefinition) : run lines unit :=
  emit (e_location e) "EnumDefinition";;
  dump_all (fun v => emit (variant_location v) "EnumVariant") (e_variants e).

Definition dump_protocol (p : ProtocolDefinition) : run lines unit :=
  emit (p_location p) "ProtocolDefinition";;
  dump_all dump_function (p_methods p).

Definition dump_test (t : TestBlock) : run lines unit :=
  emit (test_location t) "TestBlock";;
  dump_block (test_body t).

Definition dump_module : run lines unit :=
  dump_all (fun i => emit (imp_location i) "ImportStatement") (mImports m);;
  dump_all dump_struct (mStructList m);;
  dump_all dump_enum (mEnumList m);;
  dump_all dump_protocol (mProtocolList m);;
  dump_all dump_function (mFunctionList m);;
  dump_all dump_test (mTestBlocks m).
End module.

(** The text of the lines. *)
Definition line_text (l : SourceLocation * string) : string :=
  loc_file l.1 +:+ ":" +:+ pretty (loc_line l.1) +:+ ":" +:+ pretty (loc_col l.1) +:+ " " +:+ l.2 +:+ str [newline].

(** What [dump] writes. *)
Definition dump (m : Module_) : outcome string :=
  match dump_module m [] with
  | Done (_, l) => Done (fold_right (fun line s => line_text line +:+ s) "" l)
  | UndefinedBehaviour => UndefinedBehaviour
  | OutOfFuel => OutOfFuel
  end.

(** * The same walk *)

(** The lines of statements and expressions. *)
Definition definition_kinds : list string :=
  ["ImportStatement"; "FunctionDefinition"; "VariableDefinition"; "StructDefinition"; "EnumDefinition"; "EnumVariant";
   "ProtocolDefinition"; "TestBlock"].
Definition statement_lines (l : lines) : lines := filter (fun line => line.2 ∉ definition_kinds) l.

Definition node_lines (l : list Stmt) : lines := map (fun s => (stmt_location s, stmt_kind s)) l.

(** Where it ends, a run adds lines, those of these nodes and of definitions. *)
Definition dumps (r : run lines unit) (nodes : list Stmt) : Prop := forall l,
  r l = UndefinedBehaviour \/ exists added, r l = Done (tt, l ++ added) /\ statement_lines added = node_lines nodes.

Lemma dumps_ret : dumps (mret tt) [].
Proof. intros l. right. exists []. by rewrite app_nil_r. Qed.

Lemma dumps_bind r r' n n' : dumps r n -> dumps r' n' -> dumps (r;; r') (n ++ n').
Proof.
  intros H H' l. destruct (H l) as [E|(a & E & Ha)]; unfold mbind, run_bind; rewrite E; [by left|].
  destruct (H' (l ++ a)) as [E'|(a' & E' & Ha')]; rewrite E'; [by left|]. right. exists (a ++ a').
  unfold statement_lines, node_lines in *. by rewrite <-app_assoc, filter_app, Ha, Ha', map_app.
Qed.

Lemma dumps_definition loc kind : kind ∈ definition_kinds -> dumps (emit loc kind) [].
Proof. intros Hk l. right. exists [(loc, kind)]. split; [done|]. unfold statement_lines. by rewrite filter_cons_False by (intros Hn; by apply Hn). Qed.

Lemma dumps_node s : dumps (emit_node s) [s].
Proof.
  intros l. right. eexists. split; [done|]. unfold statement_lines. rewrite filter_cons_True; [done|].
  apply (bool_decide_eq_false_1 _). by destruct s as [[]| | | | | | | | | | | | |].
Qed.

Lemma dumps_undefined : dumps undefined [].
Proof. intros l. by left. Qed.

Lemma dumps_variable v : dumps (dump_variable v) [].
Proof. unfold dump_variable. destruct (is_null v); [apply dumps_undefined|apply dumps_definition; set_solver]. Qed.

Lemma dumps_all {A} (visit : A -> run lines unit) (nodes : A -> list Stmt) l :
  (forall a, a ∈ l -> dumps (visit a) (nodes a)) -> dumps (dump_all visit l) (flat nodes l).
Proof.
  induction l as [|a l IH]; intros H; [apply dumps_ret|]. cbn. apply dumps_bind; [apply H; set_solver|]. apply IH. set_solver.
Qed.

Lemma dumps_none {A} (visit : A -> run lines unit) l : (forall a, dumps (visit a) []) -> dumps (dump_all visit l) [].
Proof.
  intros H. assert (flat (fun _ : A => [] : list Stmt) l = []) as <- by by induction l. apply dumps_all. auto.
Qed.

Lemma dumps_pointer {A} (visit : A -> run lines unit) (nodes : A -> list Stmt) o :
  (forall a, a ∈ of_option o -> dumps (visit a) (nodes a)) ->
  dumps (dump_pointer visit o) (match o with Some a => nodes a | None => [] end).
Proof. intros H. destruct o as [a|]; [apply H; set_solver|apply dumps_ret]. Qed.

Definition expr_dumps (e : Expr) : Prop := dumps (dump_expr e) (expr_nodes e).
Definition stmt_dumps (s : Stmt) : Prop := dumps (dump_stmt s) (stmt_nodes s).
Definition block_dumps (b : Block) : Prop := dumps (dump_block b) (block_nodes b).

Lemma arms_dump arms : (forall b, b ∈ flat arm_blocks arms -> block_dumps b) ->
  dumps (dump_all (fun arm => match arm with mkArm _ _ body _ _ _ _ => dump_pointer dump_block body end) arms)
    (flat (fun arm => match arm with mkArm _ _ body _ _ _ _ => match body with Some b => block_nodes b | None => [] end end) arms).
Proof.
  intros H. apply dumps_all. intros [p bs body v sc w q] Ha. apply dumps_pointer. intros b Hb. apply H. by eapply elem_of_flat.
Qed.

Lemma decls_dump l : (forall e, e ∈ flat decl_exprs l -> expr_dumps e) ->
  dumps (dump_all (fun decl => match decl with mkDecl v initial => dump_pointer dump_variable v;; dump_pointer dump_expr initial end) l)
    (flat (fun decl => match decl with mkDecl _ initial => match initial with Some e => expr_nodes e | None => [] end end) l).
Proof.
  intros H. apply dumps_all. intros [v initial] Ha.
  rewrite <-(app_nil_l (match initial with Some e => _ | None => _ end)). apply dumps_bind.
  - destruct v; [apply dumps_variable|apply dumps_ret].
  - apply dumps_pointer. intros e He. apply H. by eapply elem_of_flat.
Qed.

(** What a node dumps, from what its children do. *)
Ltac dumping IHe IHs IHb :=
  match goal with |- dumps _ (?s :: ?l) => change (s :: l) with ([s] ++ l) end;
  apply dumps_bind; [apply dumps_node|];
  repeat first
    [ apply dumps_ret
    | apply IHe; set_solver
    | apply (dumps_all dump_expr expr_nodes); intros ? ?; apply IHe; set_solver
    | apply (dumps_pointer dump_expr expr_nodes); intros ? ?; apply IHe; set_solver
    | apply (dumps_pointer dump_stmt stmt_nodes); intros ? ?; apply IHs; set_solver
    | apply (dumps_pointer dump_block block_nodes); intros ? ?; apply IHb; set_solver
    | apply arms_dump; intros ? ?; apply IHb; set_solver
    | apply decls_dump; intros ? ?; apply IHe; set_solver
    | apply dumps_bind ].

Lemma nodes_dump : (forall e, expr_dumps e) /\ (forall s, stmt_dumps s) /\ (forall b, block_dumps b).
Proof.
  apply ast_induction.
  - intros e IHe IHb. unfold expr_dumps.
    destruct e; cbn [dump_expr expr_nodes expr_exprs expr_blocks] in *; [dumping IHe IHe IHb..| |dumping IHe IHe IHb].
    change (?s :: ?l) with ([s] ++ l). apply dumps_bind; [apply dumps_node|].
    rewrite <-(app_nil_l (match mBody with Some b => _ | None => _ end)). apply dumps_bind; [apply dumps_none, dumps_variable|].
    apply (dumps_pointer dump_block block_nodes). intros b Hb. apply IHb. set_solver.
  - intros s IHe IHs IHb. unfold stmt_dumps.
    destruct s; cbn [dump_stmt stmt_nodes stmt_exprs stmt_stmts stmt_blocks] in *;
      [apply IHe; set_solver|apply IHb; set_solver|dumping IHe IHs IHb..].
  - intros [n sc l] IHs. unfold block_dumps. cbn [dump_block block_nodes block_stmts] in *.
    change (?s :: ?l) with ([s] ++ l). apply dumps_bind; [apply dumps_node|]. by apply dumps_all.
Qed.

Lemma function_dumps m f : dumps (dump_function m f) (function_nodes m f).
Proof.
  destruct nodes_dump as (He & _ & Hb). unfold dump_function, function_nodes.
  rewrite <-(app_nil_l (_ ++ _)). apply dumps_bind; [apply dumps_definition; set_solver|].
  rewrite <-(app_nil_l (_ ++ _)). apply dumps_bind; [apply dumps_none, dumps_variable|].
  apply dumps_bind; [apply dumps_all; intros ? _; apply He|].
  apply dumps_bind; [apply dumps_all; intros ? _; apply He|].
  assert (flat block_nodes (of_option (mFuncBody (body_of_function m f))) =
    match mFuncBody (body_of_function m f) with Some b => block_nodes b | None => [] end) as ->
    by (destruct (mFuncBody _); [apply app_nil_r|done]).
  apply dumps_pointer. intros ? _. apply Hb.
Qed.

(** The nodes of the clauses of protocols' methods. *)
Definition protocol_nodes (m : Module_) : list Stmt := flat (fun p => flat (function_nodes m) (p_methods p)) (mProtocolList m).

Lemma module_dumps m : dumps (dump_module m) (method_nodes m ++ protocol_nodes m ++ free_nodes m).
Proof.
  destruct nodes_dump as (_ & _ & Hb). unfold dump_module, free_nodes.
  apply (dumps_bind _ _ []); [apply dumps_none; intros i; apply dumps_definition; set_solver|].
  apply dumps_bind.
  { apply dumps_all. intros s _. apply (dumps_bind _ _ []); [apply dumps_definition; set_solver|].
    apply (dumps_bind _ _ []); [apply dumps_none, dumps_variable|]. apply dumps_all. intros f _. apply function_dumps. }
  apply (dumps_bind _ _ []).
  { apply dumps_none. intros e. apply (dumps_bind _ _ [] []); [apply dumps_definition; set_solver|].
    apply dumps_none. intros v. apply dumps_definition. set_solver. }
  apply dumps_bind.
  { apply dumps_all. intros p _. apply (dumps_bind _ _ []); [apply dumps_definition; set_solver|].
    apply dumps_all. intros f _. apply function_dumps. }
  apply dumps_bind; [apply dumps_all; intros f _; apply function_dumps|].
  apply dumps_all. intros t _. apply (dumps_bind _ _ []); [apply dumps_definition; set_solver|]. apply Hb.
Qed.

Lemma flat_none {A B} (f : A -> list B) l : (forall a, a ∈ l -> f a = []) -> flat f l = [].
Proof. induction l as [|a l IH]; intros H; [done|]. cbn. rewrite H by set_solver. apply IH. set_solver. Qed.

(** The locator of the language server and the location dump walk alike: for a
    module whose protocols only declare their methods, the statements and
    expressions that the dump prints are, in this order, those the locator looks
    for the cursor among; the node it finds is one of the lines printed, and no
    printed node on the cursor's line starts between that node and the cursor. *)
Theorem locator_walks_as_dumper (m : Module_) (l : lines) (line col : Z)
  (Hdump : dump_module m [] = Done (tt, l))
  (Hprotocols : forall p f, p ∈ mProtocolList m -> f ∈ p_methods p -> mBodies m !! fid f = None) :
  statement_lines l = node_lines (method_nodes m ++ free_nodes m) /\
  forall s, locate m line col = Some s ->
    (stmt_location s, stmt_kind s) ∈ l /\
    forall loc kind, (loc, kind) ∈ statement_lines l -> loc_line loc = line -> (loc_col loc <= col)%Z ->
      (loc_col loc <= loc_col (stmt_location s))%Z.
Proof.
  destruct (module_dumps m []) as [E|(added & E & Ha)]; rewrite Hdump in E; [done|]. injection E as <-.
  assert (protocol_nodes m = []) as Hp.
  { apply flat_none. intros p Hp. apply flat_none. intros f Hf. unfold function_nodes, body_of_function. by rewrite (Hprotocols p f). }
  rewrite Hp in Ha. cbn [app] in Ha. split; [exact Ha|]. intros s Hs.
  pose proof (locate_spec m line col) as Hl. rewrite Hs in Hl. destruct Hl as (before & behind & El & Hu & Hb & Hh).
  rewrite El in Ha. split.
  - assert ((stmt_location s, stmt_kind s) ∈ statement_lines l) as Hin.
    { rewrite Ha. unfold node_lines. rewrite map_app. set_solver. }
    by apply list_elem_of_filter in Hin as [_ Hin].
  - intros loc kind Hin Hline Hcol. rewrite Ha in Hin.
    apply list_elem_of_fmap in Hin as (t & [= -> ->] & Ht). apply elem_of_app in Ht as [Ht|[->|Ht]%elem_of_cons].
    + by apply Hb.
    + done.
    + specialize (Hh t Ht). apply Z.lt_le_incl. by apply Hh.
Qed.

Definition sample_lines : lines :=
  match dump_module (cr_module sample_result) [] with Done (_, l) => l | _ => [] end.

Lemma locator_walks_as_dumper_witness :
  exists s, locate (cr_module sample_result) 1 29 = Some s /\ stmt_kind s = "CallExpression" /\
    (stmt_location s, stmt_kind s) ∈ sample_lines.
Proof.
  assert (dump_module (cr_module sample_result) [] = Done (tt, sample_lines)) as Hd by (vm_compute; reflexivity).
  assert (mProtocolList (cr_module sample_result) = []) as Hp by (vm_compute; reflexivity).
  assert (exists s, locate (cr_module sample_result) 1 29 = Some s /\ stmt_kind s = "CallExpression") as (s & Hs & Hk)
    by (eexists; split; vm_compute; reflexivity).
  exists s. split; [exact Hs|]. split; [exact Hk|].
  apply (locator_walks_as_dumper (cr_module sample_result) sample_lines 1 29 Hd); [|exact Hs].
  rewrite Hp. intros p f Hin. destruct (not_elem_of_nil p Hin).
Defined.
