(* ===== verification/Server.v ===== *)
(** The language server ([class Server], [src/lsp/Server.cpp], and
    [class DocumentStore], [src/lsp/DocumentStore.h]): it reads messages, keeps the
    open documents and what their last compilations gave, and answers. *)

From stdpp Require Import pretty.
From S2P Require Import Prelude SourceLocation Diagnostics Ast Frontend Json Transport AstLocator.

(** * The server's state *)

Record Server := mkServer {
  sv_in : list ascii;
  sv_out : list ascii;
  sv_docs : gmap string string;
  sv_compiles : gmap string CompileResult;
  sv_initialized : bool;
  sv_shutdown : bool;
  sv_exit : bool;
  sv_code : Z
}.

Definition Server_new (input : list ascii) : Server := mkServer input [] ∅ ∅ false false false 0.

Section setters.
Variable s : Server.
Definition set_input (l : list ascii) : Server :=
  mkServer l (sv_out s) (sv_docs s) (sv_compiles s) (sv_initialized s) (sv_shutdown s) (sv_exit s) (sv_code s).
Definition add_output (l : list ascii) : Server :=
  mkServer (sv_in s) (sv_out s ++ l) (sv_docs s) (sv_compiles s) (sv_initialized s) (sv_shutdown s) (sv_exit s) (sv_code s).
Definition set_docs (d : gmap string string) : Server :=
  mkServer (sv_in s) (sv_out s) d (sv_compiles s) (sv_initialized s) (sv_shutdown s) (sv_exit s) (sv_code s).
Definition set_compiles (c : gmap string CompileResult) : Server :=
  mkServer (sv_in s) (sv_out s) (sv_docs s) c (sv_initialized s) (sv_shutdown s) (sv_exit s) (sv_code s).
Definition set_initialized : Server :=
  mkServer (sv_in s) (sv_out s) (sv_docs s) (sv_compiles s) true (sv_shutdown s) (sv_exit s) (sv_code s).
Definition set_shutdown : Server :=
  mkServer (sv_in s) (sv_out s) (sv_docs s) (sv_compiles s) (sv_initialized s) true (sv_exit s) (sv_code s).
Definition set_exit (code : Z) : Server :=
  mkServer (sv_in s) (sv_out s) (sv_docs s) (sv_compiles s) (sv_initialized s) (sv_shutdown s) true code.
End setters.

(** [DocumentStore::text]. *)
Definition document_text (s : Server) (uri : string) : string := default "" (sv_docs s !! uri).

(** * Sending *)

(** [Json::object()] with members set one after another. *)
Definition json_object (l : list (string * Json)) : Json :=
  fold_left (fun j kv => json_set kv.1 kv.2 j) l (JObject []).

Definition sendMessage (msg : Json) : run Server unit := modify (fun s => add_output s (writeFrame (serialize msg))).

Definition result_message (id result : Json) : Json :=
  json_object [("jsonrpc", JString "2.0"); ("id", id); ("result", result)].
Definition sendResult (id result : Json) : run Server unit := sendMessage (result_message id result).

Definition error_message (id : Json) (code : Z) (message : string) : Json :=
  json_object [("jsonrpc", JString "2.0"); ("id", id);
    ("error", json_object [("code", json_int code); ("message", JString message)])].
Definition sendError (id : Json) (code : Z) (message : string) : run Server unit := sendMessage (error_message id code message).

Definition notification_message (method : string) (params : Json) : Json :=
  json_object [("jsonrpc", JString "2.0"); ("method", JString method); ("params", params)].
Definition sendNotification (method : string) (params : Json) : run Server unit :=
  sendMessage (notification_message method params).

Definition kParseError : Z := -32700.
Definition kInvalidRequest : Z := -32600.
Definition kMethodNotFound : Z := -32601.
Definition kServerNotInitialized : Z := -32002.

(** * Positions

    [(int)n - 1] for a 32-bit unsigned [n]: the subtraction overflows for one. *)
Definition zero_based (n : Z) : run Server Z :=
  let i := if decide (n < 2 ^ 31)%Z then n else (n - 2 ^ 32)%Z in
  if decide (i = - 2 ^ 31)%Z then undefined else mret (i - 1)%Z.

Definition clamped (n : Z) : run Server Z := if decide (0 < n)%Z then zero_based n else mret 0%Z.

Definition position (line character : Z) : Json :=
  json_object [("line", json_int line); ("character", json_int character)].

(** A range without an extent. *)
Definition range_at (pos : Json) : Json := json_object [("start", pos); ("end", pos)].

Definition clamped_range (loc : SourceLocation) : run Server Json :=
  line ← clamped (loc_line loc);
  character ← clamped (loc_col loc);
  mret (range_at (position line character)).

(** A list of messages, one for each element. *)
Fixpoint json_each {A} (f : A -> run Server Json) (l : list A) : run Server (list Json) :=
  match l with
  | [] => mret []
  | a :: l' => j ← f a; js ← json_each f l'; mret (j :: js)
  end.

(** * Documents *)

Section server.
(** Where the variables a task captures lie in memory. *)
Variable address : nat -> N.

(** Enough for the text. *)
Definition depth_of (text : string) : nat := 10 * String.length text + 9.

Definition compile (uri text : string) : run Server CompileResult := fun s =>
  match compileDocument (depth_of text) address (uriToPath uri) text with
  | Done r => Done (r, s)
  | UndefinedBehaviour => UndefinedBehaviour
  | OutOfFuel => OutOfFuel
  end.

Definition related_json (uri : string) (note : Note) : run Server Json :=
  nrange ← clamped_range (note_location note);
  let file := loc_file (note_location note) in
  mret (json_object
    [("location", json_object [("uri", JString (if decide (file = "") then uri else pathToUri file)); ("range", nrange)]);
     ("message", JString (note_message note))]).

Definition diagnostic_json (uri : string) (d : Diagnostic) : run Server Json :=
  range ← clamped_range (Diagnostics.location d);
  let diag := json_object
    [("range", range); ("severity", json_int (match severity d with Error => 1 | Warning => 2 end));
     ("code", JString (diag_code d)); ("source", JString "blang"); ("message", JString (message d))] in
  if decide (notes d = []) then mret diag
  else
    related ← json_each (related_json uri) (notes d);
    mret (json_set "relatedInformation" (JArray related) diag).

Definition publishDiagnostics (uri text : string) : run Server unit :=
  r ← compile uri text;
  modify (fun s => set_compiles s (<[uri := r]> (sv_compiles s)));;
  list ← json_each (diagnostic_json uri) (cr_diagnostics r);
  sendNotification "textDocument/publishDiagnostics" (json_object [("uri", JString uri); ("diagnostics", JArray list)]).

Definition uri_of (params : Json) : string := asString (json_get "uri" (json_get "textDocument" params)).

Definition openDocument (params : Json) : run Server unit :=
  let doc := json_get "textDocument" params in
  let uri := asString (json_get "uri" doc) in
  if decide (uri = "") then mret tt
  else
    modify (fun s => set_docs s (<[uri := asString (json_get "text" doc)]> (sv_docs s)));;
    text ← gets (fun s => document_text s uri);
    publishDiagnostics uri text.

Definition changeDocument (params : Json) : run Server unit :=
  let uri := uri_of params in
  known ← gets (fun s => bool_decide (is_Some (sv_docs s !! uri)));
  if bool_decide (uri = "") || negb known then mret tt
  else
    let changes := json_get "contentChanges" params in
    if negb (isArray changes) || bool_decide (json_size changes = 0) then mret tt
    else
      let text := asString (json_get "text" (json_at changes (json_size changes - 1))) in
      modify (fun s => set_docs s (<[uri := text]> (sv_docs s)));;
      text ← gets (fun s => document_text s uri);
      publishDiagnostics uri text.

Definition closeDocument (params : Json) : run Server unit :=
  let uri := uri_of params in
  if decide (uri = "") then mret tt
  else
    modify (fun s => set_docs s (delete uri (sv_docs s)));;
    modify (fun s => set_compiles s (delete uri (sv_compiles s)));;
    sendNotification "textDocument/publishDiagnostics" (json_object [("uri", JString uri); ("diagnostics", JArray [])]).

(** * Navigation *)

(** [(uint32_t)j.asInt() + 1]. *)
Definition one_based (j : Json) : run Server Z := fun s =>
  match asInt j with
  | Done n => Done (u32 (n + 1), s)
  | UndefinedBehaviour => UndefinedBehaviour
  | OutOfFuel => OutOfFuel
  end.

(** The node, with the compilation it belongs to. *)
Definition nodeAt (params : Json) : run Server (option (CompileResult * option Stmt)) :=
  compiled ← gets (fun s => sv_compiles s !! uri_of params);
  match compiled with
  | None => mret None
  | Some r =>
      let pos := json_get "position" params in
      line ← one_based (json_get "line" pos);
      col ← one_based (json_get "character" pos);
      mret (Some (r, locate (cr_module r) line col))
  end.

Definition definition_target (node : option (CompileResult * option Stmt)) : option SourceLocation :=
  match node with Some (r, node) => definitionLocation (cr_sema r) node | None => None end.

Definition definition (id params : Json) : run Server unit :=
  node ← nodeAt params;
  match definition_target node with
  | None => sendResult id JNull
  | Some target =>
      line ← zero_based (loc_line target);
      character ← zero_based (loc_col target);
      sendResult id (json_object
        [("uri", JString (pathToUri (loc_file target))); ("range", range_at (position line character))])
  end.

Definition hover_text (node : option (CompileResult * option Stmt)) : string :=
  match node with Some (r, node) => hoverText (cr_sema r) node | None => "" end.

(** Three backquotes. *)
Definition fence : string := "```".

Definition hover (id params : Json) : run Server unit :=
  node ← nodeAt params;
  let text := hover_text node in
  if decide (text = "") then sendResult id JNull
  else
    sendResult id (json_object
      [("contents", json_object
         [("kind", JString "markdown");
          ("value", JString (fence +:+ "blang" +:+ str [newline] +:+ text +:+ str [newline] +:+ fence))])]).

(** Kinds of symbols. *)
Definition kMethod : Z := 6.
Definition kField : Z := 8.
Definition kEnum : Z := 10.
Definition kInterface : Z := 11.
Definition kFunction : Z := 12.
Definition kEnumMember : Z := 22.
Definition kStruct : Z := 23.

Definition makeSymbol (name : string) (kind : Z) (loc : SourceLocation) : run Server Json :=
  range ← clamped_range loc;
  mret (json_object [("name", JString name); ("kind", json_int kind); ("range", range); ("selectionRange", range)]).

Definition addChild (parent child : Json) : Json :=
  let parent := if json_has "children" parent then parent else json_set "children" (JArray []) parent in
  json_set "children" (push (json_get "children" parent) child) parent.

Definition with_children (node : Json) (children : list Json) : Json := fold_left addChild children node.

Definition struct_symbol (s : StructDefinition) : run Server Json :=
  node ← makeSymbol (s_name s) kStruct (s_location s);
  fields ← json_each (fun f => makeSymbol (v_name f) kField (v_location f)) (s_fields s);
  methods ← json_each (fun f => makeSymbol (f_name f) kMethod (f_location f)) (s_methods s);
  mret (with_children (with_children node fields) methods).

Definition enum_symbol (e : EnumDefinition) : run Server Json :=
  node ← makeSymbol (e_name e) kEnum (e_location e);
  variants ← json_each (fun v => makeSymbol (variant_name v) kEnumMember (variant_location v)) (e_variants e);
  mret (with_children node variants).

Definition protocol_symbol (p : ProtocolDefinition) : run Server Json :=
  node ← makeSymbol (p_name p) kInterface (p_location p);
  methods ← json_each (fun f => makeSymbol (f_name f) kMethod (f_location f)) (p_methods p);
  mret (with_children node methods).

Definition test_symbol (t : TestBlock) : run Server Json :=
  makeSymbol ("test " +:+ str [dquote] +:+ test_name t +:+ str [dquote]) kFunction (test_location t).

Definition documentSymbol (id params : Json) : run Server unit :=
  compiled ← gets (fun s => sv_compiles s !! uri_of params);
  match compiled with
  | None => sendResult id JNull
  | Some r =>
      let m := cr_module r in
      structs ← json_each struct_symbol (mStructList m);
      enums ← json_each enum_symbol (mEnumList m);
      protocols ← json_each protocol_symbol (mProtocolList m);
      functions ← json_each (fun f => makeSymbol (f_name f) kFunction (f_location f)) (mFunctionList m);
      tests ← json_each test_symbol (mTestBlocks m);
      sendResult id (JArray (structs ++ enums ++ protocols ++ functions ++ tests))
  end.

(** * Dispatch *)

Definition initializeResult : Json :=
  let sync := json_object [("openClose", JBool true); ("change", json_int 1)] in
  let caps := json_object
    [("positionEncoding", JString "utf-8"); ("textDocumentSync", sync); ("definitionProvider", JBool true);
     ("hoverProvider", JBool true); ("documentSymbolProvider", JBool true)] in
  let info := json_object [("name", JString "blangd"); ("version", JString "0.1")] in
  json_object [("capabilities", caps); ("serverInfo", info)].

Definition handleRequest (id : Json) (method : string) (params : Json) : run Server unit :=
  if decide (method = "initialize") then modify set_initialized;; sendResult id initializeResult
  else
    initialized ← gets sv_initialized;
    if negb initialized then sendError id kServerNotInitialized "server not initialized"
    else if decide (method = "shutdown") then modify set_shutdown;; sendResult id JNull
    else if decide (method = "textDocument/definition") then definition id params
    else if decide (method = "textDocument/hover") then hover id params
    else if decide (method = "textDocument/documentSymbol") then documentSymbol id params
    else sendError id kMethodNotFound ("method not found: " +:+ method).

Definition handleNotification (method : string) (params : Json) : run Server unit :=
  if decide (method = "exit") then modify (fun s => set_exit s (if sv_shutdown s then 0 else 1))
  else
    initialized ← gets sv_initialized;
    shutdown ← gets sv_shutdown;
    if negb initialized || shutdown then mret tt
    else if decide (method = "initialized") then mret tt
    else if decide (method = "textDocument/didOpen") then openDocument params
    else if decide (method = "textDocument/didChange") then changeDocument params
    else if decide (method = "textDocument/didClose") then closeDocument params
    else mret tt.

Definition handleMessage (msg : Json) : run Server unit :=
  if isObject msg then
    let method := asString (json_get "method" msg) in
    let params := json_get "params" msg in
    if json_has "id" msg then
      if decide (method = "") then mret tt else handleRequest (json_get "id" msg) method params
    else handleNotification method params
  else sendError JNull kInvalidRequest "message is not an object".

(** * The loop *)

(** A payload's message. *)
Definition handlePayload (payload : list ascii) : run Server unit := fun s =>
  match Json_parse (str payload) with
  | Done (inl msg) => handleMessage msg s
  | Done (inr err) => sendError JNull kParseError ("parse error: " +:+ err) s
  | UndefinedBehaviour => UndefinedBehaviour
  | OutOfFuel => OutOfFuel
  end.

(** [readFrame( mIn, payload )]. *)
Definition next_frame : run Server (list ascii + no_frame) := fun s =>
  match readFrame (S (length (sv_in s))) (sv_in s) with
  | Done (inl (payload, rest)) => Done (inl payload, set_input s rest)
  | Done (inr e) => Done (inr e, s)
  | UndefinedBehaviour => UndefinedBehaviour
  | OutOfFuel => OutOfFuel
  end.

(** One pass of [run]'s loop; its result is the exit code. *)
Definition run_pass (_ : unit) : run Server (loop_step unit Z) :=
  exiting ← gets sv_exit;
  if exiting : bool then code ← gets sv_code; mret (Break code)
  else
    frame ← next_frame;
    match frame with
    | inr CleanEof => shutdown ← gets sv_shutdown; mret (Break (if shutdown : bool then 0 else 1)%Z)
    | inr (TransportError _) => mret (Break 1%Z)
    | inl payload => handlePayload payload;; mret (Next tt)
    end.

Definition Server_run (fuel : nat) : run Server Z := loop fuel run_pass tt.

End server.
