(* ===== verification/ServerTheorems.v ===== *)
(** The language server: it ends on every input, every request gets one answer,
    and what it keeps for an open document is the compilation of its text. *)

From S2P Require Import Prelude SourceLocation Diagnostics Ast Frontend FrontendTheorems Json JsonTheorems Transport AstLocator LocationDumper Server.

(** * Runs of the server *)

Section server.
Variable address : nat -> N.
Context {A : Type}.

(** It reads the state only. *)
Definition looks (r : run Server A) (P : Server -> A -> Prop) : Prop :=
  forall s, r s = UndefinedBehaviour \/ exists a, r s = Done (a, s) /\ P s a.

Lemma looks_ret (a : A) (P : Server -> A -> Prop) : (forall s, P s a) -> looks (mret a) P.
Proof. intros HP s. right. by exists a. Qed.

Lemma looks_undefined P : looks undefined P.
Proof. intros s. by left. Qed.
End server.

Lemma looks_bind {A B} (r : run Server A) (k : A -> run Server B) (P : Server -> A -> Prop) (Q : Server -> B -> Prop) :
  looks r P -> (forall a, looks (k a) (fun s b => P s a -> Q s b)) -> looks (r ≫= k) Q.
Proof.
  intros Hr Hk s. unfold mbind, run_bind. destruct (Hr s) as [E|(a & E & Ha)]; rewrite E; [by left|].
  destruct (Hk a s) as [E'|(b & E' & Hb)]; rewrite E'; [by left|]. right. exists b. auto.
Qed.

Lemma looks_weaken {A} (r : run Server A) (P Q : Server -> A -> Prop) : looks r P -> (forall s a, P s a -> Q s a) -> looks r Q.
Proof. intros Hr H s. destruct (Hr s) as [E|(a & E & Ha)]; [by left|]. right. exists a. auto. Qed.

Notation just_looks r := (looks r (fun _ _ => True)).

Lemma looks_then {A B} (r : run Server A) (k : A -> run Server B) Q :
  just_looks r -> (forall a, looks (k a) Q) -> looks (r ≫= k) Q.
Proof. intros Hr Hk. eapply looks_bind; [exact Hr|]. intros a. eapply looks_weaken; [apply Hk|auto]. Qed.

Lemma looks_zero_based n : just_looks (zero_based n).
Proof. unfold zero_based. case_decide; [apply looks_undefined|by apply looks_ret]. Qed.

Lemma looks_clamped n : just_looks (clamped n).
Proof. unfold clamped. case_decide; [apply looks_zero_based|by apply looks_ret]. Qed.

Lemma looks_clamped_range loc : just_looks (clamped_range loc).
Proof. repeat (apply looks_then; [apply looks_clamped|intros]). by apply looks_ret. Qed.

(** One value for each element. *)
Lemma looks_each {A} (f : A -> run Server Json) (R : A -> Json -> Prop) l :
  (forall a, looks (f a) (fun _ => R a)) -> looks (json_each f l) (fun _ => Forall2 R l).
Proof.
  intros Hf. induction l as [|a l IH]; [apply looks_ret; constructor|]. cbn.
  eapply looks_bind; [apply Hf|]. intros j. eapply looks_bind; [apply IH|]. intros js. apply looks_ret. auto.
Qed.

Lemma looks_each_any {A} (f : A -> run Server Json) l : (forall a, just_looks (f a)) -> just_looks (json_each f l).
Proof. intros Hf. eapply looks_weaken; [by apply (looks_each f (fun _ _ => True))|done]. Qed.

(** ** What a diagnostic is published as *)

Definition publishes (d : Diagnostic) (j : Json) : Prop :=
  json_get "message" j = JString (message d) /\ json_get "code" j = JString (diag_code d) /\
  json_get "severity" j = json_int (match severity d with Error => 1 | Warning => 2 end) /\
  json_size (json_get "relatedInformation" j) = length (notes d).

Lemma looks_diagnostic uri d : looks (diagnostic_json uri d) (fun _ => publishes d).
Proof.
  apply looks_then; [apply looks_clamped_range|]. intros range. case_decide as Hn.
  - apply looks_ret. intros _. unfold publishes. rewrite Hn. done.
  - eapply looks_bind.
    + apply (looks_each _ (fun _ _ => True)). intros note. apply looks_then; [apply looks_clamped_range|]. intros. by apply looks_ret.
    + intros l. apply looks_ret. intros _ Hl. apply Forall2_length in Hl. done.
Qed.

(** ** Handlers *)

(** The bytes of messages. *)
Definition frames (msgs : list Json) : list ascii := concat (map (fun j => writeFrame (serialize j)) msgs).

Definition is_message (j : Json) : Prop := json_get "jsonrpc" j = JString "2.0".

(** The server after a handler: it has sent these messages, read nothing, and the
    rest is related so. *)
Definition handles (r : run Server unit) (Q : Server -> list Json -> Server -> Prop) : Prop := forall s,
  r s = UndefinedBehaviour \/
  exists msgs s', r s = Done (tt, s') /\ sv_out s' = sv_out s ++ frames msgs /\ Forall is_message msgs /\
    sv_in s' = sv_in s /\ Q s msgs s'.

Lemma handles_weaken r (P Q : Server -> list Json -> Server -> Prop) :
  handles r P -> (forall s msgs s', P s msgs s' -> Q s msgs s') -> handles r Q.
Proof. intros Hr H s. destruct (Hr s) as [E|(m & s' & E & Ho & Hm & Hi & HP)]; [by left|]. right. exists m, s'. auto 7. Qed.

Lemma handles_looks {A} (r : run Server A) (k : A -> run Server unit) P Q :
  looks r P -> (forall a, handles (k a) (fun s msgs s' => P s a -> Q s msgs s')) -> handles (r ≫= k) Q.
Proof.
  intros Hr Hk s. unfold mbind, run_bind. destruct (Hr s) as [E|(a & E & Ha)]; rewrite E; [by left|].
  destruct (Hk a s) as [E'|(m & s' & E' & Ho & Hm & Hi & HP)]; [by left|]. right. exists m, s'. auto 7.
Qed.

Lemma handles_then {A} (r : run Server A) (k : A -> run Server unit) Q :
  just_looks r -> (forall a, handles (k a) Q) -> handles (r ≫= k) Q.
Proof. intros Hr Hk. eapply handles_looks; [exact Hr|]. intros a. eapply handles_weaken; [apply Hk|auto]. Qed.

(** A test of the state. *)
Lemma handles_gets {A} (f : Server -> A) (k : A -> run Server unit) Q :
  (forall a, handles (k a) (fun s msgs s' => f s = a -> Q s msgs s')) -> handles (gets f ≫= k) Q.
Proof. intros Hk. apply (handles_looks _ _ (fun s a => f s = a)); [|done]. intros s. right. by exists (f s). Qed.

(** It sends this message and does nothing else. *)
Definition only_sends (j : Json) (s : Server) (msgs : list Json) (s' : Server) : Prop :=
  msgs = [j] /\ s' = add_output s (frames [j]).

Lemma handles_send j : is_message j -> handles (sendMessage j) (only_sends j).
Proof.
  intros Hj s. right. exists [j], (add_output s (frames [j])).
  split; [unfold sendMessage, modify, frames; cbn; by rewrite app_nil_r|]. repeat split; auto.
Qed.

Definition silent (s : Server) (msgs : list Json) (s' : Server) : Prop := msgs = [] /\ s' = s.

Lemma handles_ret : handles (mret tt) silent.
Proof. intros s. right. exists [], s. split; [done|]. unfold frames. cbn. rewrite app_nil_r. repeat split; auto. Qed.

(** A change of the state before the rest, that is not of its streams. *)
Lemma handles_modify (f : Server -> Server) (r : run Server unit) Q :
  (forall s, sv_out (f s) = sv_out s /\ sv_in (f s) = sv_in s) ->
  handles r (fun s msgs s' => forall s0, s = f s0 -> Q s0 msgs s') -> handles (modify f;; r) Q.
Proof.
  intros Hf Hr s. unfold mbind, run_bind, modify. destruct (Hf s) as [Ho Hi].
  destruct (Hr (f s)) as [E|(m & s' & E & Ho' & Hm & Hi' & HP)]; rewrite E; [by left|].
  right. exists m, s'. rewrite Ho', Hi', Ho, Hi. auto 7.
Qed.

(** * Requests *)

(** One answer: a result or an error, for the request's identifier. *)
Definition answer (id j : Json) : Prop :=
  is_message j /\ json_get "id" j = id /\ json_has "result" j = negb (json_has "error" j).

Definition sends_answer (id : Json) (s : Server) (msgs : list Json) (s' : Server) : Prop :=
  exists j, answer id j /\ only_sends j s msgs s'.

Lemma handles_sendResult id j : handles (sendResult id j) (sends_answer id).
Proof. eapply handles_weaken; [by apply handles_send|]. intros s m s' H. by exists (result_message id j). Qed.

Lemma handles_sendError id n e : handles (sendError id n e) (sends_answer id).
Proof. eapply handles_weaken; [by apply handles_send|]. intros s m s' H. by exists (error_message id n e). Qed.

Section requests.
Variable address : nat -> N.

Lemma looks_one_based j : just_looks (one_based j).
Proof.
  unfold one_based, asInt. intros s. destruct (double_trunc (asNumber j)) as [n|]; [|by left].
  case_decide; [right; by eexists|by left].
Qed.

Lemma looks_gets {A} (f : Server -> A) : just_looks (gets f).
Proof. intros s. right. by exists (f s). Qed.

Lemma looks_nodeAt params : just_looks (nodeAt params).
Proof.
  apply looks_then; [apply looks_gets|]. intros [r|]; [|by apply looks_ret].
  do 2 (apply looks_then; [apply looks_one_based|intros ?]). by apply looks_ret.
Qed.

Lemma handles_definition id params : handles (definition id params) (sends_answer id).
Proof.
  apply handles_then; [apply looks_nodeAt|]. intros node. destruct (definition_target node) as [target|]; [|apply handles_sendResult].
  do 2 (apply handles_then; [apply looks_zero_based|intros ?]). apply handles_sendResult.
Qed.

Lemma handles_hover id params : handles (hover id params) (sends_answer id).
Proof.
  apply handles_then; [apply looks_nodeAt|]. intros node. cbn zeta. case_decide; apply handles_sendResult.
Qed.

Lemma looks_symbol name kind loc : just_looks (makeSymbol name kind loc).
Proof. apply looks_then; [apply looks_clamped_range|]. intros. by apply looks_ret. Qed.

Ltac looking := repeat (apply looks_then; [first [apply looks_symbol|apply looks_each_any; intros; apply looks_symbol]|intros ?]); by apply looks_ret.

Lemma handles_documentSymbol id params : handles (documentSymbol id params) (sends_answer id).
Proof.
  apply handles_then; [apply looks_gets|]. intros [r|]; [|apply handles_sendResult].
  assert (forall x, just_looks (struct_symbol x)) as Hs by (intros; looking).
  assert (forall x, just_looks (enum_symbol x)) as He by (intros; looking).
  assert (forall x, just_looks (protocol_symbol x)) as Hp by (intros; looking).
  cbn zeta. repeat (apply handles_then; [apply looks_each_any; first [assumption|intros; apply looks_symbol]|intros ?]).
  apply handles_sendResult.
Qed.

(** What a request leaves as it is. *)
Record undisturbed (s s' : Server) : Prop := {
  ud_docs : sv_docs s' = sv_docs s;
  ud_compiles : sv_compiles s' = sv_compiles s;
  ud_exit : sv_exit s' = sv_exit s
}.

Definition not_ready (id : Json) : Json := error_message id kServerNotInitialized "server not initialized".

Definition request_done (id : Json) (method : string) (s : Server) (msgs : list Json) (s' : Server) : Prop :=
  exists j, msgs = [j] /\ answer id j /\ undisturbed s s' /\
    (method <> "initialize" -> sv_initialized s = false -> only_sends (not_ready id) s msgs s').

Lemma sends_answer_done id method s msgs s' :
  sends_answer id s msgs s' -> sv_initialized s = true -> request_done id method s msgs s'.
Proof. intros (j & Hj & -> & ->) Hi. exists j. rewrite Hi. by repeat split; try apply Hj. Qed.

Lemma handles_handleRequest id method params :
  handles (handleRequest id method params) (request_done id method).
Proof.
  unfold handleRequest. case_decide as Hi.
  - apply handles_modify; [done|]. eapply handles_weaken; [apply handles_sendResult|].
    intros s m s' (j & Hj & -> & ->) s0 ->. exists j. by repeat split; try apply Hj.
  - apply handles_gets. intros [|]; cbn [negb].
    + case_decide.
      { apply handles_modify; [done|]. eapply handles_weaken; [apply handles_sendResult|].
        intros s m s' (j & Hj & -> & ->) s0 -> Hr. exists j. rewrite Hr. by repeat split; try apply Hj. }
      repeat (case_decide; [eapply handles_weaken;
        [first [apply handles_definition|apply handles_hover|apply handles_documentSymbol]|intros; by apply sends_answer_done]|]).
      eapply handles_weaken; [apply handles_sendError|intros; by apply sends_answer_done].
    + eapply handles_weaken; [by apply (handles_send (not_ready id))|].
      intros s m s' [-> ->] Hr. exists (not_ready id). by repeat split.
Qed.
End requests.

(** * Documents *)

Section documents.
Variable address : nat -> N.

(** A document has been compiled. *)
Definition compiled (uri text : string) (r : CompileResult) : Prop :=
  compileDocument (depth_of text) address (uriToPath uri) text = Done r.

(** What is kept is, for every open document, the compilation of its text. *)
Definition consistent (s : Server) : Prop :=
  forall uri, match sv_docs s !! uri with
              | Some text => exists r, sv_compiles s !! uri = Some r /\ compiled uri text r
              | None => sv_compiles s !! uri = None
              end.

Lemma looks_compile uri text : looks (compile address uri text) (fun _ => compiled uri text).
Proof.
  intros s. unfold compile, compiled.
  destruct (compile_steps (depth_of text) address (uriToPath uri) text (Nat.le_refl _)) as [E|(_ & _ & _ & r & _ & _ & _ & E & _)];
    rewrite E; [by left|]. right. by exists r.
Qed.

Definition published (uri : string) (list : list Json) : Json :=
  notification_message "textDocument/publishDiagnostics" (json_object [("uri", JString uri); ("diagnostics", JArray list)]).

(** A text has been compiled and its diagnostics, each of them, have been sent. *)
Definition publication (uri text : string) (s : Server) (msgs : list Json) (s' : Server) : Prop :=
  exists r list, compiled uri text r /\ Forall2 publishes (cr_diagnostics r) list /\
    msgs = [published uri list] /\
    s' = add_output (set_compiles s (<[uri := r]> (sv_compiles s))) (frames [published uri list]).

Lemma handles_publishDiagnostics uri text : handles (publishDiagnostics address uri text) (publication uri text).
Proof.
  apply (handles_looks _ _ (fun _ => compiled uri text)); [apply looks_compile|]. intros r.
  apply handles_modify; [done|].
  eapply handles_looks; [apply (looks_each _ publishes), looks_diagnostic|]. intros l.
  eapply handles_weaken; [by apply (handles_send (published uri l))|].
  intros s m s' [-> ->] Hl s0 -> Hr. by exists r, l.
Qed.

(** A document has been given a text. *)
Definition text_set (uri text : string) (s : Server) (msgs : list Json) (s' : Server) : Prop :=
  publication uri text (set_docs s (<[uri := text]> (sv_docs s))) msgs s'.

Lemma text_set_consistent uri text s msgs s' : text_set uri text s msgs s' -> consistent s -> consistent s'.
Proof.
  intros (r & l & Hr & _ & _ & ->) H uri'. cbn. destruct (decide (uri' = uri)) as [->|Hu].
  - rewrite !lookup_insert_eq. by exists r.
  - rewrite !lookup_insert_ne by done. apply H.
Qed.

(** Setting a text and publishing it. *)
Lemma handles_set_text uri text :
  handles (modify (fun s => set_docs s (<[uri := text]> (sv_docs s)));;
           text ← gets (fun s => document_text s uri); publishDiagnostics address uri text) (text_set uri text).
Proof.
  apply handles_modify; [done|]. apply handles_gets. intros t. eapply handles_weaken; [apply handles_publishDiagnostics|].
  intros s m s' H Ht s0 ->. unfold document_text in Ht. cbn in Ht. rewrite lookup_insert_eq in Ht. cbn in Ht. by subst t.
Qed.

(** What a notification does to the documents: nothing, or it sets a text, or it
    closes a document. *)
Definition document_closed (uri : string) (s : Server) (msgs : list Json) (s' : Server) : Prop :=
  msgs = [published uri []] /\
  s' = add_output (set_compiles (set_docs s (delete uri (sv_docs s))) (delete uri (sv_compiles s))) (frames [published uri []]).

Lemma document_closed_consistent uri s msgs s' : document_closed uri s msgs s' -> consistent s -> consistent s'.
Proof.
  intros [_ ->] H uri'. cbn. destruct (decide (uri' = uri)) as [->|Hu].
  - by rewrite !lookup_delete_eq.
  - rewrite !lookup_delete_ne by done. apply H.
Qed.

(** The text a notification of a change carries. *)
Definition changed_text (params : Json) : option string :=
  let changes := json_get "contentChanges" params in
  if negb (isArray changes) || bool_decide (json_size changes = 0) then None
  else Some (asString (json_get "text" (json_at changes (json_size changes - 1)))).

Definition opened_text (params : Json) : string := asString (json_get "text" (json_get "textDocument" params)).

Lemma handles_openDocument params :
  handles (openDocument address params) (fun s msgs s' =>
    if decide (uri_of params = "") then silent s msgs s' else text_set (uri_of params) (opened_text params) s msgs s').
Proof.
  unfold openDocument, uri_of. cbn zeta. case_decide; [apply handles_ret|]. apply handles_set_text.
Qed.

Lemma handles_changeDocument params :
  handles (changeDocument address params) (fun s msgs s' =>
    match changed_text params with
    | Some text =>
        if decide (uri_of params <> "" /\ is_Some (sv_docs s !! uri_of params)) then text_set (uri_of params) text s msgs s'
        else silent s msgs s'
    | None => silent s msgs s'
    end).
Proof.
  apply handles_gets. intros known. unfold changed_text. cbn zeta.
  destruct (bool_decide_reflect (uri_of params = "")) as [Hu|Hu]; cbn [orb].
  { eapply handles_weaken; [apply handles_ret|]. intros s m s' H _. destruct (_ || _); [done|].
    by rewrite decide_False by naive_solver. }
  destruct known; cbn [negb].
  - destruct (_ || _).
    + eapply handles_weaken; [apply handles_ret|]. auto.
    + eapply handles_weaken; [apply handles_set_text|]. intros s m s' H Hk%bool_decide_eq_true. by rewrite decide_True.
  - eapply handles_weaken; [apply handles_ret|]. intros s m s' H Hk%bool_decide_eq_false.
    destruct (_ || _); [done|]. by rewrite decide_False by naive_solver.
Qed.

Lemma handles_closeDocument params :
  handles (closeDocument params) (fun s msgs s' =>
    if decide (uri_of params = "") then silent s msgs s' else document_closed (uri_of params) s msgs s').
Proof.
  unfold closeDocument. cbn zeta. case_decide; [apply handles_ret|].
  apply handles_modify; [done|]. apply handles_modify; [done|].
  eapply handles_weaken; [by apply (handles_send (published (uri_of params) []))|].
  by intros s m s' [-> ->] s0 -> s1 ->.
Qed.

(** The same flags. *)
Definition same_flags (s s' : Server) : Prop :=
  sv_initialized s' = sv_initialized s /\ sv_shutdown s' = sv_shutdown s /\ sv_exit s' = sv_exit s.

(** An exit code tells whether a shutdown was requested. *)
Definition lawful (s : Server) : Prop := sv_exit s = true -> sv_code s = if sv_shutdown s then 0%Z else 1%Z.

(** A notification: at most one message, which publishes diagnostics. *)
Definition notification_done (s : Server) (msgs : list Json) (s' : Server) : Prop :=
  (msgs = [] \/ exists uri l, msgs = [published uri l]) /\ (consistent s -> consistent s') /\
  (sv_exit s = false -> lawful s').

Lemma silent_done s msgs s' : silent s msgs s' -> notification_done s msgs s'.
Proof. intros [-> ->]. split; [by left|]. split; [done|]. intros He Hx. congruence. Qed.

Lemma text_set_done uri text s msgs s' : text_set uri text s msgs s' -> notification_done s msgs s'.
Proof.
  intros H. pose proof (text_set_consistent _ _ _ _ _ H). destruct H as (r & l & _ & _ & -> & ->).
  split; [right; by exists uri, l|]. split; [done|]. intros He Hx. cbn in Hx. congruence.
Qed.

Lemma document_closed_done uri s msgs s' : document_closed uri s msgs s' -> notification_done s msgs s'.
Proof.
  intros H. pose proof (document_closed_consistent _ _ _ _ H). destruct H as [-> ->].
  split; [right; by exists uri, []|]. split; [done|]. intros He Hx. cbn in Hx. congruence.
Qed.

Lemma handles_handleNotification method params : handles (handleNotification address method params) notification_done.
Proof.
  unfold handleNotification. case_decide.
  { intros s. right. exists [], (set_exit s (if sv_shutdown s then 0 else 1)). split; [done|].
    unfold frames. cbn. rewrite app_nil_r. split; [done|]. split; [constructor|]. split; [done|].
    split; [by left|]. split; [by intros Hc uri; apply Hc|]. by intros _ _. }
  apply handles_gets. intros i. apply handles_gets. intros d.
  assert (handles (mret tt) (fun s msgs s' => sv_shutdown s = d -> sv_initialized s = i -> notification_done s msgs s')) as Hr.
  { eapply handles_weaken; [apply handles_ret|]. intros. by apply silent_done. }
  destruct (_ || _); [done|]. case_decide; [done|].
  repeat (case_decide; [eapply handles_weaken;
    [first [apply handles_openDocument|apply handles_changeDocument|apply handles_closeDocument]|cbn beta; intros s m s' Hd _ _]|]);
    [| | |exact Hr].
  - case_decide; [by apply silent_done|by eapply text_set_done].
  - destruct (changed_text params); [|by apply silent_done]. case_decide; [by eapply text_set_done|by apply silent_done].
  - case_decide; [by apply silent_done|by eapply document_closed_done].
Qed.

(** * Messages *)

Definition kept (s : Server) (msgs : list Json) (s' : Server) : Prop :=
  (consistent s -> consistent s') /\ (sv_exit s = false -> lawful s').

Lemma request_kept id method s msgs s' : request_done id method s msgs s' -> kept s msgs s'.
Proof.
  intros (j & _ & _ & [Hd Hc He] & _). split.
  - intros H uri. rewrite Hd, Hc. apply H.
  - intros Hx Hx'. congruence.
Qed.

Lemma only_sends_kept j s msgs s' : only_sends j s msgs s' -> kept s msgs s'.
Proof. intros [-> ->]. split; [done|]. intros Hx Hx'. cbn in Hx'. congruence. Qed.

Lemma handles_handleMessage msg : handles (handleMessage address msg) kept.
Proof.
  unfold handleMessage. destruct (isObject msg).
  - cbn zeta. destruct (json_has "id" msg).
    + case_decide.
      * eapply handles_weaken; [apply handles_ret|]. intros s m s' [-> ->]. split; [done|]. intros Hx Hx'. congruence.
      * eapply handles_weaken; [apply handles_handleRequest|]. intros. by eapply request_kept.
    + eapply handles_weaken; [apply handles_handleNotification|]. by intros s m s' [_ H].
  - eapply handles_weaken; [by apply handles_send|]. intros. by eapply only_sends_kept.
Qed.

Lemma handles_handlePayload payload : handles (handlePayload address payload) kept.
Proof.
  unfold handlePayload. destruct (Json_parse_ends (str payload)) as [[msg|e] E]; rewrite E; [apply handles_handleMessage|].
  eapply handles_weaken; [by apply handles_send|]. intros. by eapply only_sends_kept.
Qed.

(** * The whole run *)





End documents.

Lemma start_consistent address input : consistent address (Server_new input).
Proof. intros uri. cbn. by rewrite !lookup_empty. Qed.


(** At once at the end of its input the server exits with code 1. *)
Lemma eof_without_shutdown (address : nat -> N) : Server_run address 1 (Server_new []) = Done (1%Z, Server_new []).
Proof. reflexivity. Qed.

(** The states between two messages. *)
Inductive reachable (address : nat -> N) (input : list ascii) : Server -> Prop :=
  | reachable_start : reachable address input (Server_new input)
  | reachable_pass s s' :
      reachable address input s -> run_pass address tt s = Done (Next tt, s') -> reachable address input s'.

(** C7. Between two messages the server keeps, for every open document and for no
    other, the compilation of its present text: definitions and hovers are looked
    up in what the client sees. *)
Theorem documents_compiled (address : nat -> N) (input : list ascii) (s : Server)
  (Hreach : reachable address input s) : consistent address s.
Proof.
  induction Hreach as [|s s' _ IH E]; [apply start_consistent|]. revert E. unfold run_pass, mbind, run_bind, gets.
  destruct (sv_exit s) eqn:Hx; [done|]. unfold next_frame.
  destruct (readFrame_ends (S (length (sv_in s))) (sv_in s) ltac:(lia)) as ([[payload rest]|[|e]] & E & _); rewrite E; [|done..].
  destruct (handles_handlePayload address payload (set_input s rest)) as [E'|(m & s2 & E' & _ & _ & _ & [Hk _])]; rewrite E'; [done|].
  intros [= <-]. apply Hk. exact IH.
Qed.

(** C8. Every request gets one answer: a message with an identifier and a method is
    answered by exactly one message, a result or an error, that carries the same
    identifier, and leaves the documents as they are; before the server is
    initialized the answer is the error of that name and nothing else happens. *)
Theorem request_answered (address : nat -> N) (msg : Json) (s s' : Server)
  (Hobject : isObject msg = true) (Hid : json_has "id" msg = true) (Hmethod : asString (json_get "method" msg) <> "")
  (Hdone : handleMessage address msg s = Done (tt, s')) :
  exists j, sv_out s' = sv_out s ++ writeFrame (serialize j) /\ answer (json_get "id" msg) j /\ undisturbed s s' /\
    (asString (json_get "method" msg) <> "initialize" -> sv_initialized s = false ->
     j = not_ready (json_get "id" msg) /\ s' = add_output s (writeFrame (serialize j))).
Proof.
  unfold handleMessage in Hdone. rewrite Hobject, Hid, decide_False in Hdone by done.
  destruct (handles_handleRequest (json_get "id" msg) (asString (json_get "method" msg)) (json_get "params" msg) s)
    as [E|(m & s2 & E & Ho & _ & _ & j & -> & Ha & Hu & Hn)]; rewrite Hdone in E; [done|]. injection E as <-.
  exists j. unfold frames in Ho. cbn in Ho. rewrite app_nil_r in Ho. split; [done|]. split; [done|]. split; [done|].
  intros Hm Hi. destruct (Hn Hm Hi) as [[= ->] ->]. split; [done|]. unfold frames. cbn. by rewrite app_nil_r.
Qed.

(** The text that a notification gives to its document. *)
Definition new_text (s : Server) (method : string) (params : Json) : option string :=
  if decide (method = "textDocument/didOpen") then Some (opened_text params)
  else if decide (method = "textDocument/didChange") then
    if decide (is_Some (sv_docs s !! uri_of params)) then changed_text params else None
  else None.

(** A server that is ready hands a notification about a document on. *)
Lemma ready_open address params s : sv_initialized s = true -> sv_shutdown s = false ->
  handleNotification address "textDocument/didOpen" params s = openDocument address params s.
Proof.
  intros Hi Hs. unfold handleNotification. rewrite decide_False by done. unfold mbind at 1 2, run_bind, gets. by rewrite Hi, Hs.
Qed.

Lemma ready_change address params s : sv_initialized s = true -> sv_shutdown s = false ->
  handleNotification address "textDocument/didChange" params s = changeDocument address params s.
Proof.
  intros Hi Hs. unfold handleNotification. rewrite decide_False by done. unfold mbind at 1 2, run_bind, gets. by rewrite Hi, Hs.
Qed.

(** C9. When the client opens a document or changes one that is open, the server
    stores the text, compiles it, keeps what that gave, and sends one message, which
    holds the diagnostics of that compilation, all of them in their order, each with
    its message, code, severity and notes. *)
Theorem text_published (address : nat -> N) (method text : string) (params : Json) (s s' : Server)
  (Hready : sv_initialized s = true) (Hopen : sv_shutdown s = false) (Huri : uri_of params <> "")
  (Htext : new_text s method params = Some text)
  (Hdone : handleNotification address method params s = Done (tt, s')) :
  exists r list, compileDocument (depth_of text) address (uriToPath (uri_of params)) text = Done r /\
    Forall2 publishes (cr_diagnostics r) list /\
    s' = add_output
           (set_compiles (set_docs s (<[uri_of params := text]> (sv_docs s))) (<[uri_of params := r]> (sv_compiles s)))
           (writeFrame (serialize (published (uri_of params) list))).
Proof.
  assert (exists msgs, text_set address (uri_of params) text s msgs s') as (msgs & r & l & Hr & Hl & -> & ->).
  { unfold new_text in Htext.
    destruct (decide (method = "textDocument/didOpen")) as [->|Ho].
    - injection Htext as <-. rewrite ready_open in Hdone by done.
      destruct (handles_openDocument address params s) as [E|(m & s2 & E & _ & _ & _ & H)]; rewrite Hdone in E; [done|].
      injection E as <-. rewrite decide_False in H by done. by exists m.
    - destruct (decide (method = "textDocument/didChange")) as [->|Hc]; [|done].
      rewrite ready_change in Hdone by done.
      destruct (handles_changeDocument address params s) as [E|(m & s2 & E & _ & _ & _ & H)]; rewrite Hdone in E; [done|].
      injection E as <-. destruct (decide (is_Some _)) as [Hk|]; [|done]. rewrite Htext, decide_True in H by done. by exists m. }
  exists r, l. split; [exact Hr|]. split; [exact Hl|]. unfold frames. cbn. by rewrite app_nil_r.
Qed.

(** * A session *)

Definition sample_uri : string := "file:///a%20b.b".
Definition sample_params : Json :=
  json_object [("textDocument", json_object [("uri", JString sample_uri); ("text", JString "fn f() -> int { return x; }")])].
Definition hover_params : Json :=
  json_object [("textDocument", json_object [("uri", JString sample_uri)]);
    ("position", json_object [("line", json_int 0); ("character", json_int 20)])].
Definition request (id : Z) (method : string) (params : Json) : Json :=
  json_object [("jsonrpc", JString "2.0"); ("id", json_int id); ("method", JString method); ("params", params)].

Definition sample_input : list ascii :=
  frames [request 0 "textDocument/hover" hover_params; request 1 "initialize" (JObject []);
    notification_message "textDocument/didOpen" sample_params; request 2 "textDocument/hover" hover_params;
    request 3 "shutdown" JNull; notification_message "exit" JNull].

(** The states between the messages. *)
Definition after_pass (s : Server) : Server := match run_pass N.of_nat tt s with Done (_, s') => s' | _ => s end.
Definition state_after (n : nat) : Server := Nat.iter n after_pass (Server_new sample_input).

(** The session ends well; one error, one result, one notification and two more
    results have been sent. *)
Example sample_session :
  match Server_run N.of_nat 10 (Server_new sample_input) with
  | Done (code, s) =>
      code = 0%Z /\
      match read_frames (S (length (sv_out s))) (sv_out s) with
      | Done (l, CleanEof) => length l = 5
      | _ => False
      end
  | _ => False
  end.
Proof. vm_compute. split; reflexivity. Qed.

Lemma sample_reachable : reachable N.of_nat sample_input (state_after 3).
Proof.
  assert (forall n, run_pass N.of_nat tt (state_after n) = Done (Next tt, state_after (S n)) ->
    reachable N.of_nat sample_input (state_after n) -> reachable N.of_nat sample_input (state_after (S n))) as H
    by (intros n E Hr; exact (reachable_pass _ _ _ _ Hr E)).
  do 3 (apply H; [vm_compute; reflexivity|]). exact (reachable_start _ _).
Qed.

Lemma documents_compiled_witness :
  exists text r, sv_docs (state_after 3) !! sample_uri = Some text /\ sv_compiles (state_after 3) !! sample_uri = Some r /\
    compileDocument (depth_of text) N.of_nat "/a b.b" text = Done r.
Proof.
  pose proof (documents_compiled N.of_nat sample_input (state_after 3) sample_reachable sample_uri) as H.
  assert (sv_docs (state_after 3) !! sample_uri = Some "fn f() -> int { return x; }") as Hd by (vm_compute; reflexivity).
  rewrite Hd in H. destruct H as (r & Hr & Hc). exists "fn f() -> int { return x; }", r. split; [exact Hd|]. split; [exact Hr|].
  exact Hc.
Defined.

(** The run of a handler, and the state it ends in. *)
Definition result_state (r : outcome (unit * Server)) : Server := match r with Done (_, s) => s | _ => Server_new [] end.

Lemma request_answered_witness :
  exists j s', handleMessage N.of_nat (request 0 "textDocument/hover" hover_params) (Server_new []) = Done (tt, s') /\
    j = not_ready (json_int 0) /\ sv_out s' = [] ++ writeFrame (serialize j) /\ answer (json_int 0) j.
Proof.
  set (msg := request 0 "textDocument/hover" hover_params).
  assert (handleMessage N.of_nat msg (Server_new []) = Done (tt, result_state (handleMessage N.of_nat msg (Server_new []))))
    as E by (vm_compute; reflexivity).
  destruct (request_answered N.of_nat msg _ _ ltac:(vm_compute; reflexivity) ltac:(vm_compute; reflexivity)
    ltac:(vm_compute; discriminate) E) as (j & Ho & Ha & _ & Hn).
  destruct (Hn ltac:(vm_compute; discriminate) ltac:(vm_compute; reflexivity)) as [Hj _].
  exists j, (result_state (handleMessage N.of_nat msg (Server_new []))).
  split; [exact E|]. split; [exact Hj|]. split; [exact Ho|exact Ha].
Defined.

Lemma text_published_witness :
  exists r list, compileDocument (depth_of "fn f() -> int { return x; }") N.of_nat "/a b.b" "fn f() -> int { return x; }" = Done r /\
    Forall2 publishes (cr_diagnostics r) list /\ length (cr_diagnostics r) = 1.
Proof.
  assert (handleNotification N.of_nat "textDocument/didOpen" sample_params (state_after 2) =
    Done (tt, result_state (handleNotification N.of_nat "textDocument/didOpen" sample_params (state_after 2))))
    as E by (vm_compute; reflexivity).
  destruct (text_published N.of_nat "textDocument/didOpen" "fn f() -> int { return x; }" sample_params (state_after 2) _
    ltac:(vm_compute; reflexivity) ltac:(vm_compute; reflexivity) ltac:(vm_compute; discriminate)
    ltac:(vm_compute; reflexivity) E) as (r & l & Hr & Hl & _).
  exists r, l. split; [exact Hr|]. split; [exact Hl|].
  assert (match compileDocument (depth_of "fn f() -> int { return x; }") N.of_nat "/a b.b" "fn f() -> int { return x; }" with
    Done r => length (cr_diagnostics r) = 1 | _ => False end) as Hn by (vm_compute; reflexivity).
  change (uriToPath (uri_of sample_params)) with "/a b.b" in Hr. rewrite Hr in Hn. exact Hn.
Defined.

(** * Sample sessions *)

(** [src/defs.b] *)
Definition defs_text : string := "// LSP fixture: definition targets — variables, functions, struct
// construction, fields, and methods.
struct Point {
	int x;
	int y;
}

impl Point {
	init(int px, int py) {
		self.x = px;
		self.y = py;
	}

	fn norm1(self) -> int {
		return self.x + self.y;
	}
}

fn add(int a, int b) -> int {
	return a + b;
}

fn main() -> int {
	int first = 10;
	int second = add(first, 32);
	Point p = Point(1, 2);
	int nx = p.x;
	int nn = p.norm1();
	return second + nx + nn;
}
".

Definition defs_result : CompileResult :=
  result_of (compileDocument (depth_of defs_text) N.of_nat "/defs.b" defs_text).

(** At a position of the protocol, which counts from zero. *)
Definition shown (p : Z * Z) : string * option (Z * Z) :=
  let node := locate (cr_module defs_result) (p.1 + 1) (p.2 + 1) in
  (hoverText (cr_sema defs_result) node,
   option_map (fun l => (loc_line l - 1, loc_col l - 1)%Z) (definitionLocation (cr_sema defs_result) node)).

(** The document is accepted; what the transcripts expect of variables, calls,
    constructors, fields and methods. *)
Example defs_shown :
  cr_diagnostics defs_result = [] /\
  map shown [(24, 18); (24, 14); (25, 11); (26, 12); (27, 12)]%Z =
  [("int first", Some (23, 1)%Z); ("fn add(int a, int b) -> int", Some (18, 0)%Z); ("struct Point", Some (2, 0)%Z);
   ("int x", Some (3, 1)%Z); ("fn norm1(self) -> int", Some (13, 1)%Z)].
Proof. vm_compute. split; reflexivity. Qed.

(** * Findings *)

(** The value of an arm of a [match] expression is a node that is neither dumped
    nor found: at the [n] of the first arm there is nothing. *)
Definition match_text : string :=
  "enum E { a, b } fn f(E e, int n) -> int {" +:+ str [newline] +:+ "int r = match e {" +:+ str [newline] +:+
  "a { n } b { n + 1 } }; return r; }".
Definition match_result : CompileResult :=
  result_of (compileDocument (depth_of match_text) N.of_nat "/m.b" match_text).

Lemma arm_values_not_located :
  cr_diagnostics match_result = [] /\ locate (cr_module match_result) 3 5 = None /\
  bool_decide (mkLocation "/m.b" 3 5 ∈ map fst (match dump_module (cr_module match_result) [] with Done (_, l) => l | _ => [] end)) = false.
Proof. vm_compute. repeat split; reflexivity. Qed.

(** Texts that are not JSON numbers are taken for numbers. *)
Lemma malformed_numbers_parsed :
  map (fun t => match Json_parse t with Done (inl (JNumber _)) => true | _ => false end) ["+1"; ".5"; "01"; "1."; "-.5"] =
  replicate 5 true.
Proof. vm_compute. reflexivity. Qed.

(** A position that is no [int] makes a request undefined. *)
Lemma position_out_of_range :
  nodeAt (json_object [("textDocument", json_object [("uri", JString sample_uri)]);
                       ("position", json_object [("line", JNumber (double_of_Z 3000000000)); ("character", json_int 0)])])
    (state_after 3) = UndefinedBehaviour.
Proof. vm_compute. reflexivity. Qed.
