(* ===== verification/Sha256.v ===== *)
(** SHA-256 ([src/sha256.c]), which the keys of the build cache and the digests of
    modules are made with: the streaming implementation, and that it computes the
    digest of everything it was given. *)

From S2P Require Import Prelude.

(** Four constants of a line. *)
Definition row (a b c d : Z) : list Z := [a; b; c; d].

Definition k : list Z :=
  concat
    [row 0x428a2f98 0x71374491 0xb5c0fbcf 0xe9b5dba5;
     row 0x3956c25b 0x59f111f1 0x923f82a4 0xab1c5ed5;
     row 0xd807aa98 0x12835b01 0x243185be 0x550c7dc3;
     row 0x72be5d74 0x80deb1fe 0x9bdc06a7 0xc19bf174;
     row 0xe49b69c1 0xefbe4786 0x0fc19dc6 0x240ca1cc;
     row 0x2de92c6f 0x4a7484aa 0x5cb0a9dc 0x76f988da;
     row 0x983e5152 0xa831c66d 0xb00327c8 0xbf597fc7;
     row 0xc6e00bf3 0xd5a79147 0x06ca6351 0x14292967;
     row 0x27b70a85 0x2e1b2138 0x4d2c6dfc 0x53380d13;
     row 0x650a7354 0x766a0abb 0x81c2c92e 0x92722c85;
     row 0xa2bfe8a1 0xa81a664b 0xc24b8b70 0xc76c51a3;
     row 0xd192e819 0xd6990624 0xf40e3585 0x106aa070;
     row 0x19a4c116 0x1e376c08 0x2748774c 0x34b0bcb5;
     row 0x391c0cb3 0x4ed8aa4a 0x5b9cca4f 0x682e6ff3;
     row 0x748f82ee 0x78a5636f 0x84c87814 0x8cc70208;
     row 0x90befffa 0xa4506ceb 0xbef9a3f7 0xc67178f2]%Z.

(** * Operations on 32-bit words *)

Definition ROTR (x n : Z) : Z := Z.lor (Z.shiftr x n) (u32 (Z.shiftl x (32 - n))).
Definition CH (x y z : Z) : Z := Z.lxor (Z.land x y) (Z.land (Z.lxor x 0xffffffff) z).
Definition MAJ (x y z : Z) : Z := Z.lxor (Z.lxor (Z.land x y) (Z.land x z)) (Z.land y z).
Definition EP0 (x : Z) : Z := Z.lxor (Z.lxor (ROTR x 2) (ROTR x 13)) (ROTR x 22).
Definition EP1 (x : Z) : Z := Z.lxor (Z.lxor (ROTR x 6) (ROTR x 11)) (ROTR x 25).
Definition SIG0 (x : Z) : Z := Z.lxor (Z.lxor (ROTR x 7) (ROTR x 18)) (Z.shiftr x 3).
Definition SIG1 (x : Z) : Z := Z.lxor (Z.lxor (ROTR x 17) (ROTR x 19)) (Z.shiftr x 10).

(** Element [i] of an array; the code stays inside its arrays. *)
Definition at_index (l : list Z) (i : nat) : Z := nth i l 0%Z.

(** * The transformation of a block *)

Record words8 := mkWords { wa : Z; wb : Z; wc : Z; wd : Z; we : Z; wf : Z; wg : Z; wh : Z }.

(** Four bytes, the first the highest. *)
Definition word_of (data : list Z) (i : nat) : Z :=
  Z.lor (Z.lor (Z.lor (Z.shiftl (at_index data (i * 4)) 24) (Z.shiftl (at_index data (i * 4 + 1)) 16))
    (Z.shiftl (at_index data (i * 4 + 2)) 8)) (at_index data (i * 4 + 3)).

(** [n] more words of the schedule. *)
Fixpoint extend (n : nat) (w : list Z) : list Z :=
  match n with
  | 0 => w
  | S n =>
      let i := length w in
      extend n (w ++ [u32 (SIG1 (at_index w (i - 2)) + at_index w (i - 7) + SIG0 (at_index w (i - 15)) + at_index w (i - 16))])
  end.

Definition schedule (data : list Z) : list Z := extend 48 (map (word_of data) (seq 0 16)).

Definition round (s : words8) (kw : Z * Z) : words8 :=
  let t1 := u32 (wh s + EP1 (we s) + CH (we s) (wf s) (wg s) + kw.1 + kw.2) in
  let t2 := u32 (EP0 (wa s) + MAJ (wa s) (wb s) (wc s)) in
  mkWords (u32 (t1 + t2)) (wa s) (wb s) (wc s) (u32 (wd s + t1)) (we s) (wf s) (wg s).

Definition sha256_transform (s : words8) (data : list Z) : words8 :=
  let r := fold_left round (zip k (schedule data)) s in
  mkWords (u32 (wa s + wa r)) (u32 (wb s + wb r)) (u32 (wc s + wc r)) (u32 (wd s + wd r))
    (u32 (we s + we r)) (u32 (wf s + wf r)) (u32 (wg s + wg r)) (u32 (wh s + wh r)).

(** * The streaming interface *)

Record SHA256_CTX := mkCtx {
  ctx_data : list Z;
  ctx_datalen : nat;
  ctx_bitlen : Z;
  ctx_state : words8
}.

Definition u64 (z : Z) : Z := (z mod 2 ^ 64)%Z.

Definition initial_state : words8 :=
  mkWords 0x6a09e667 0xbb67ae85 0x3c6ef372 0xa54ff53a 0x510e527f 0x9b05688c 0x1f83d9ab 0x5be0cd19.

(** [data] is left as it was in memory. *)
Definition sha256_init (data : list Z) : SHA256_CTX := mkCtx data 0 0 initial_state.

(** One byte. *)
Definition update_byte (ctx : SHA256_CTX) (b : Z) : SHA256_CTX :=
  let data := <[ctx_datalen ctx := b]> (ctx_data ctx) in
  let datalen := S (ctx_datalen ctx) in
  if decide (datalen = 64) then mkCtx data 0 (u64 (ctx_bitlen ctx + 512)) (sha256_transform (ctx_state ctx) data)
  else mkCtx data datalen (ctx_bitlen ctx) (ctx_state ctx).

Definition sha256_update (ctx : SHA256_CTX) (data : list Z) : SHA256_CTX := fold_left update_byte data ctx.

(** [while ( i < n ) data[i++] = 0], for [n - i] elements. *)
Fixpoint zero_fill (n i : nat) (data : list Z) : list Z :=
  match n with 0 => data | S n => zero_fill n (S i) (<[i := 0%Z]> data) end.

Definition low_byte (z : Z) : Z := (z mod 256)%Z.

(** The length in bits, the highest byte first. *)
Definition length_bytes (bitlen : Z) : list Z :=
  map (fun i => low_byte (Z.shiftr bitlen (8 * (7 - Z.of_nat i)))) (seq 0 8).

(** The eight bytes of the length at the end of the block. *)
Definition put_length (bitlen : Z) (data : list Z) : list Z := take 56 data ++ length_bytes bitlen.

Definition word_bytes (w : Z) : list Z :=
  [low_byte (Z.shiftr w 24); low_byte (Z.shiftr w 16); low_byte (Z.shiftr w 8); low_byte w].

Definition state_bytes (s : words8) : list Z :=
  concat (map word_bytes [wa s; wb s; wc s; wd s; we s; wf s; wg s; wh s]).

Definition sha256_final (ctx : SHA256_CTX) : list Z :=
  let i := ctx_datalen ctx in
  let data := <[i := 0x80%Z]> (ctx_data ctx) in
  let '(data, state) :=
    if decide (i < 56) then (zero_fill (55 - i) (S i) data, ctx_state ctx)
    else
      let data := zero_fill (63 - i) (S i) data in
      (zero_fill 56 0 data, sha256_transform (ctx_state ctx) data) in
  let bitlen := u64 (ctx_bitlen ctx + 8 * Z.of_nat i) in
  state_bytes (sha256_transform state (put_length bitlen data)).

(** * The digest of a message

    The message with a bit, zeros and its length behind it, cut into blocks. *)

Fixpoint blocks (n : nat) (l : list Z) : list (list Z) :=
  match n with 0 => [] | S n => take 64 l :: blocks n (drop 64 l) end.

(** The zeros make the length a multiple of 64 bytes. *)
Definition padding (m : list Z) : list Z :=
  let r := length m mod 64 in
  0x80%Z :: replicate (if decide (r < 56) then 55 - r else 119 - r) 0%Z ++ length_bytes (u64 (8 * Z.of_nat (length m))).

Definition digest (m : list Z) : list Z :=
  let padded := m ++ padding m in
  state_bytes (fold_left sha256_transform (blocks (length padded / 64) padded) initial_state).

(** Bytes of a text. *)
Definition text_bytes (s : string) : list Z := map (fun c => Z.of_N (N_of_ascii c)) (chars s).

(** The examples of the standard. *)
Example digest_samples :
  map (fun s => fold_left (fun n b => n * 256 + b)%Z (digest (text_bytes s)) 0%Z)
    [""; "abc"; "abcdbcdecdefdefgefghfghighijhijkijkljklmklmnlmnomnopnopq"] =
  [0xe3b0c44298fc1c149afbf4c8996fb92427ae41e4649b934ca495991b7852b855;
   0xba7816bf8f01cfea414140de5dae2223b00361a396177a9cb410ff61f20015ad;
   0x248d6a61d20638b8e5c026930c3e6039a33ce45964ff2167f6ecedd419db06c1]%Z.
Proof. vm_compute. reflexivity. Qed.

(** * Streaming *)

Lemma blocks_length n : forall l, length (blocks n l) = n.
Proof. induction n as [|n IH]; intros l; cbn; [done|]. by rewrite IH. Qed.

Lemma blocks_app n : forall l r, 64 * n <= length l -> blocks n (l ++ r) = blocks n l.
Proof.
  induction n as [|n IH]; intros l r H; cbn [blocks]; [done|].
  rewrite take_app_le, drop_app_le by lia. rewrite IH; [done|]. rewrite length_drop. lia.
Qed.

Lemma blocks_add n n' : forall l, blocks (n + n') l = blocks n l ++ blocks n' (drop (64 * n) l).
Proof.
  induction n as [|n IH]; intros l; [by rewrite drop_0|]. cbn [blocks Nat.add app]. rewrite IH, drop_drop.
  by replace (64 + 64 * n) with (64 * S n) by lia.
Qed.

Lemma blocks_snoc n l : blocks (S n) l = blocks n l ++ [take 64 (drop (64 * n) l)].
Proof. replace (S n) with (n + 1) by lia. by rewrite blocks_add. Qed.

(** What has been taken in: the whole blocks, transformed, and the rest. *)
Record absorbed (ctx : SHA256_CTX) (m : list Z) : Prop := {
  ab_size : length (ctx_data ctx) = 64;
  ab_len : ctx_datalen ctx = length m mod 64;
  ab_data : take (ctx_datalen ctx) (ctx_data ctx) = drop (64 * (length m / 64)) m;
  ab_bits : ctx_bitlen ctx = u64 (512 * Z.of_nat (length m / 64));
  ab_state : ctx_state ctx = fold_left sha256_transform (blocks (length m / 64) m) initial_state
}.

Lemma u64_add_idemp a b : u64 (u64 a + b) = u64 (a + b).
Proof. apply Zplus_mod_idemp_l. Qed.

Lemma take_insert_snoc {A} (l : list A) i (b : A) : i < length l -> take (S i) (<[i := b]> l) = take i l ++ [b].
Proof.
  intros Hi. rewrite (take_S_r _ _ b) by (by apply list_lookup_insert_eq). by rewrite take_insert_ge.
Qed.

Lemma absorbed_init data : length data = 64 -> absorbed (sha256_init data) [].
Proof. intros H. by split. Qed.

Lemma absorbed_byte ctx m b : absorbed ctx m -> absorbed (update_byte ctx b) (m ++ [b]).
Proof.
  intros [Hs Hl Hd Hb Ht]. pose proof (Nat.div_mod (length m) 64 ltac:(done)) as Hdm.
  pose proof (Nat.mod_upper_bound (length m) 64 ltac:(done)) as Hr.
  assert (take (S (ctx_datalen ctx)) (<[ctx_datalen ctx := b]> (ctx_data ctx)) = drop (64 * (length m / 64)) (m ++ [b])) as Hd'.
  { rewrite take_insert_snoc by lia. rewrite Hd, drop_app_le by lia. done. }
  unfold update_byte. case_decide as Hc.
  - assert (length (m ++ [b]) / 64 = S (length m / 64)) as Hq.
    { symmetry. apply (Nat.div_unique _ _ _ 0); rewrite ?length_app; cbn [length]; lia. }
    assert (length (m ++ [b]) mod 64 = 0) as Hm.
    { symmetry. apply (Nat.mod_unique _ _ (S (length m / 64))); rewrite ?length_app; cbn [length]; lia. }
    split; cbn [ctx_data ctx_datalen ctx_bitlen ctx_state].
    + by rewrite length_insert.
    + by rewrite Hm.
    + rewrite Hq, drop_ge; [done|]. rewrite length_app. cbn [length]. lia.
    + rewrite Hb, u64_add_idemp, Hq. f_equal. lia.
    + rewrite Hq, blocks_snoc, fold_left_app, blocks_app by lia. rewrite <-Ht. cbn [fold_left].
      apply (f_equal2 sha256_transform eq_refl). rewrite <-Hd', Hc, take_take, Nat.min_id. symmetry. apply take_ge. rewrite length_insert. lia.
  - assert (length (m ++ [b]) / 64 = length m / 64) as Hq.
    { symmetry. apply (Nat.div_unique _ _ _ (S (length m mod 64))); rewrite ?length_app; cbn [length]; lia. }
    assert (length (m ++ [b]) mod 64 = S (length m mod 64)) as Hm.
    { symmetry. apply (Nat.mod_unique _ _ (length m / 64)); rewrite ?length_app; cbn [length]; lia. }
    split; cbn [ctx_data ctx_datalen ctx_bitlen ctx_state]; rewrite ?Hq, ?Hm.
    + by rewrite length_insert.
    + by rewrite Hl.
    + done.
    + done.
    + rewrite blocks_app by lia. done.
Qed.

Lemma absorbed_update data : forall ctx m, absorbed ctx m -> absorbed (sha256_update ctx data) (m ++ data).
Proof.
  induction data as [|b data IH]; intros ctx m H; [by rewrite app_nil_r|].
  replace (m ++ b :: data) with ((m ++ [b]) ++ data) by by rewrite <-app_assoc. by apply IH, absorbed_byte.
Qed.

Lemma zero_fill_spec n : forall i data, i + n <= length data ->
  zero_fill n i data = take i data ++ replicate n 0%Z ++ drop (i + n) data.
Proof.
  induction n as [|n IH]; intros i data H; cbn [zero_fill].
  - cbn. by rewrite Nat.add_0_r, take_drop.
  - rewrite IH by (rewrite length_insert; lia). rewrite take_insert_snoc by lia.
    rewrite drop_insert_lt by lia. rewrite <-app_assoc. cbn. by replace (i + S n) with (S (i + n)) by lia.
Qed.

(** The end of a block behind the message. *)
Lemma filled_block ctx m n :
  absorbed ctx m -> ctx_datalen ctx + S n <= 64 ->
  take (ctx_datalen ctx + S n) (zero_fill n (S (ctx_datalen ctx)) (<[ctx_datalen ctx := 0x80%Z]> (ctx_data ctx))) =
  drop (64 * (length m / 64)) m ++ 0x80%Z :: replicate n 0%Z.
Proof.
  intros [Hs Hl Hd _ _] Hn. rewrite zero_fill_spec by (rewrite length_insert; lia).
  rewrite take_insert_snoc, Hd by lia. rewrite <-app_assoc.
  assert (length (drop (64 * (length m / 64)) m) = ctx_datalen ctx) as Hlen by (rewrite <-Hd, length_take; lia).
  rewrite take_app_ge by lia. f_equal. rewrite Hlen, Nat.add_comm, Nat.add_sub. cbn. f_equal.
  rewrite take_app_le by (rewrite length_replicate; lia). apply take_ge. by rewrite length_replicate.
Qed.

(** Finishing gives the digest of what was taken in. *)
Lemma absorbed_final ctx m : absorbed ctx m -> sha256_final ctx = digest m.
Proof.
  intros H. pose proof (Nat.div_mod (length m) 64 ltac:(done)) as Hdm.
  pose proof (Nat.mod_upper_bound (length m) 64 ltac:(done)) as Hr.
  pose proof (filled_block ctx m) as Hf. pose proof H as [Hs Hl Hd Hb Ht].
  unfold sha256_final, digest, padding. set (q := length m / 64) in *. set (r := length m mod 64) in *.
  assert (u64 (ctx_bitlen ctx + 8 * Z.of_nat (ctx_datalen ctx)) = u64 (8 * Z.of_nat (length m))) as ->.
  { rewrite Hb, u64_add_idemp. f_equal. lia. }
  set (len := length_bytes _). assert (length len = 8) as Hlen by done. rewrite Hl in *.
  assert (length (drop (64 * q) m) = r) as Htail by (rewrite length_drop; lia).
  case_decide as Hc.
  - assert (length (m ++ 0x80%Z :: replicate (55 - r) 0%Z ++ len) = 64 * S q) as Hlp.
    { rewrite length_app. cbn [length]. rewrite length_app, length_replicate. lia. }
    rewrite Hlp, (Nat.mul_comm 64), Nat.div_mul by done.
    rewrite blocks_snoc, fold_left_app, blocks_app by lia. rewrite <-Ht. cbn [fold_left].
    apply (f_equal state_bytes), (f_equal2 sha256_transform eq_refl). unfold put_length. replace 56 with (r + S (55 - r)) at 1 by lia. rewrite Hf by (done || lia).
    rewrite drop_app_le by lia. rewrite take_ge; [by rewrite <-app_assoc|].
    rewrite length_app. cbn [length]. rewrite length_app, length_replicate. lia.
  - assert (length (m ++ 0x80%Z :: replicate (119 - r) 0%Z ++ len) = 64 * S (S q)) as Hlp.
    { rewrite length_app. cbn [length]. rewrite length_app, length_replicate. lia. }
    rewrite Hlp, (Nat.mul_comm 64), Nat.div_mul by done.
    rewrite blocks_snoc, blocks_snoc, !fold_left_app, blocks_app by lia. rewrite <-Ht. cbn [fold_left].
    replace (119 - r) with ((63 - r) + 56) by lia. rewrite replicate_add.
    replace (m ++ 0x80%Z :: (replicate (63 - r) 0%Z ++ replicate 56 0%Z) ++ len)
      with ((m ++ 0x80%Z :: replicate (63 - r) 0%Z) ++ replicate 56 0%Z ++ len) by by rewrite <-!app_assoc.
    assert (length (m ++ 0x80%Z :: replicate (63 - r) 0%Z) = 64 * S q) as Hl1
      by (rewrite length_app; cbn [length]; rewrite length_replicate; lia).
    set (data := zero_fill _ _ _). assert (take 64 data = data) as Hdata.
    { apply take_ge. subst data. rewrite zero_fill_spec by (rewrite length_insert; lia).
      rewrite !length_app, length_take, length_replicate, length_drop, length_insert. lia. }
    apply (f_equal state_bytes), (f_equal2 sha256_transform); [apply (f_equal2 sha256_transform eq_refl)|].
    + rewrite <-Hdata. subst data. replace 64 with (r + S (63 - r)) at 1 by lia. rewrite Hf by (done || lia).
      rewrite (drop_app_le (m ++ _)) by lia. rewrite take_app_le, drop_app_le by (rewrite ?length_drop; lia).
      rewrite take_ge; [done|]. rewrite length_app. cbn [length]. rewrite length_replicate. lia.
    + unfold put_length. rewrite zero_fill_spec; [|subst data; rewrite zero_fill_spec by (rewrite length_insert; lia);
        rewrite !length_app, length_take, length_replicate, length_drop, length_insert; lia].
      rewrite take_0. cbn [app]. rewrite take_app_le, (take_ge (replicate 56 0%Z)) by (by rewrite length_replicate).
      rewrite drop_app_ge by lia. rewrite Hl1, Nat.sub_diag, drop_0. rewrite take_ge; [done|].
      rewrite length_app, length_replicate. lia.
Qed.

(** The pieces of a message. *)
Lemma sha256_streamed (data : list Z) (pieces : list (list Z)) :
  length data = 64 -> sha256_final (fold_left sha256_update pieces (sha256_init data)) = digest (concat pieces).
Proof.
  intros Hdata. assert (forall l ctx m, absorbed ctx m -> absorbed (fold_left sha256_update l ctx) (m ++ concat l)) as H.
  { intros l. induction l as [|p l IH]; intros ctx m Hm; [by rewrite app_nil_r|]. cbn. rewrite app_assoc.
    by apply IH, absorbed_update. }
  apply absorbed_final, (H pieces (sha256_init data) []), absorbed_init, Hdata.
Qed.

(** C12. The streaming hash is the hash of the whole: whatever pieces a message is
    given in, and whatever the memory of the context held before, the result is the
    SHA-256 digest of the pieces one behind another. *)
Theorem sha256_streams (data : list Z) (pieces : list (list Z)) (Hdata : length data = 64) :
  sha256_final (fold_left sha256_update pieces (sha256_init data)) = digest (concat pieces).
Proof. by apply sha256_streamed. Qed.

Lemma sha256_streams_witness :
  sha256_final (fold_left sha256_update [text_bytes "a"; []; text_bytes "bc"] (sha256_init (replicate 64 7%Z))) =
  digest (text_bytes "abc").
Proof. exact (sha256_streams (replicate 64 7%Z) [text_bytes "a"; []; text_bytes "bc"] eq_refl). Defined.
