(* ===== verification/BuildCache.v ===== *)
(** The build cache's keys and entries ([src/BuildCache.cpp]): what a key is made
    from, where an entry lies, which of its files are found, how it is written and how
    the cache is emptied. The file system is a parameter ([FileSystem]). *)

From stdpp Require Import pretty.
From S2P Require Import Prelude Sha256.

(** [BlangBmod::kFormatVersion], [src/BmodFormat.h]. *)
Definition kFormatVersion : Z := 5.

(** * Keys *)

Definition hex_digit (n : Z) : ascii :=
  ascii_of_N (if decide (n < 10)%Z then Z.to_N (48 + n) else Z.to_N (87 + n)).

Definition hashToHex (hash : list Z) : string :=
  str (concat (map (fun b => [hex_digit (b / 16); hex_digit (b mod 16)]) hash)).

Section cache.
(** The contents of the files that can be read. *)
Variable files : string -> option string.

Definition readFileContent (path : string) : string := default "" (files path).

Definition formatSalt (formatVersion : Z) : string := "bmod-format:" +:+ pretty formatVersion +:+ str [newline].

(** [memory] is what the context holds before it is initialized. *)
Definition computeKey (memory : list Z) (sourceFiles : list string) (tomlContent : string)
    (depHashes : list string) (formatVersion : Z) : string :=
  let formatVersion := if decide (formatVersion < 0)%Z then kFormatVersion else formatVersion in
  let ctx := sha256_init memory in
  let ctx := sha256_update ctx (text_bytes (formatSalt formatVersion)) in
  let ctx := fold_left (fun ctx file => sha256_update ctx (text_bytes (readFileContent file))) sourceFiles ctx in
  let ctx := sha256_update ctx (text_bytes tomlContent) in
  let ctx := fold_left (fun ctx dep => sha256_update ctx (text_bytes dep)) depHashes ctx in
  hashToHex (sha256_final ctx).

(** What a key depends on: the texts one behind another. *)
Definition key_text (sourceFiles : list string) (tomlContent : string) (depHashes : list string) (formatVersion : Z) : string :=
  formatSalt (if decide (formatVersion < 0)%Z then kFormatVersion else formatVersion) +:+
  fold_right (fun file s => readFileContent file +:+ s) (tomlContent +:+ fold_right (fun d s => d +:+ s) "" depHashes) sourceFiles.

End cache.

(** * Entries *)

(** [getCacheDir], for the two variables of the environment. *)
Definition getCacheDir (xdg home : option string) : string :=
  match xdg, home with
  | Some (String c x), _ => String c x +:+ "/blang/objects"
  | _, Some (String c h) => String c h +:+ "/.cache/blang/objects"
  | _, _ => "/tmp/.cache/blang/objects"
  end.

(** [name.substr( len - n ) == suffix] for a name that is longer. *)
Definition has_suffix (suffix name : string) : bool :=
  let n := String.length suffix in
  let len := String.length name in
  bool_decide (n < len) && bool_decide (drop (len - n) (chars name) = chars suffix).

(** What [lookup] has found: the paths of the two files, if there are any. *)
Definition entry_pass (dir : string) (found : option string * option string) (name : string) :
  option string * option string :=
  if has_suffix ".a" name then (Some (dir +:+ "/" +:+ name), found.2)
  else if has_suffix ".bmod" name then (found.1, Some (dir +:+ "/" +:+ name))
  else found.

(** [directory] lists the entries of a directory that can be opened. *)
Definition lookup_entry (directory : string -> option (list string)) (cacheDir hash : string) :
  bool * (option string * option string) :=
  let dir := cacheDir +:+ "/" +:+ hash in
  match directory dir with
  | None => (false, (None, None))
  | Some names =>
      let found := fold_left (entry_pass dir) names (None, None) in
      (bool_decide (is_Some found.1) && bool_decide (is_Some found.2), found)
  end.

(** The part of a path behind its last slash. *)
Definition extractFilename (path : string) : string :=
  match list_find (fun c => c = "/"%char) (reverse (chars path)) with
  | Some (i, _) => str (reverse (take i (reverse (chars path))))
  | None => path
  end.

(** * Files *)

(** What the cache asks of a file system: names lead to files and directories, and
    every operation may fail. [open_out] empties the file, [write] says whether all of
    the text is in it. *)
Class FileSystem (F : Type) := {
  access : string -> F -> bool;
  is_directory : string -> F -> bool;
  mkdir : string -> F -> F;
  open_in : string -> F -> bool;
  contents : string -> F -> string;
  open_out : string -> F -> option F;
  write : string -> string -> F -> F * bool;
  opendir : string -> F -> option (list string);
  rmdir : string -> F -> F * bool;
  unlink : string -> F -> F * bool
}.

Section files.
Context {F : Type} `{FileSystem F}.

Definition fileExists (path : string) : run F bool := gets (access path).

(** Every part of the path that ends in a slash, but for the first character, and then
    the path. *)
Definition mkdir_pass (current : list ascii) (l : list ascii) : run F (list ascii) :=
  fold_left (fun (r : run F (list ascii)) c =>
    current ← r;
    let current := current ++ [c] in
    (if decide (c = "/"%char /\ 1 < length current) then modify (mkdir (str current)) else mret tt);;
    mret current) l (mret current).

Definition mkdirRecursive (path : string) : run F bool :=
  mkdir_pass [] (chars path);;
  modify (mkdir path);;
  fileExists path.

(** The result of an operation that changes the file system. *)
Definition perform (op : F -> F * bool) : run F bool := fun f => let '(f, ok) := op f in Done (ok, f).

(** [out << in.rdbuf()] sets the failure bit when it inserts nothing. *)
Definition copyFile (src dst : string) : run F bool :=
  opened ← gets (open_in src);
  if negb opened then mret false
  else
    out ← gets (open_out dst);
    match out with
    | None => mret false
    | Some f =>
        modify (fun _ => f);;
        text ← gets (contents src);
        if decide (text = "") then mret false else perform (write dst text)
    end.

(** What follows for each name in turn, as long as it succeeds. *)
Fixpoint while_ok (body : string -> run F bool) (names : list string) : run F bool :=
  match names with
  | [] => mret true
  | name :: names => ok ← body name; if ok : bool then while_ok body names else mret false
  end.

(** The fuel is the depth of the directories. The names are those the directory had
    when it was opened. *)
Fixpoint removeRecursive (fuel : nat) (path : string) : run F bool :=
  match fuel with
  | 0 => fun _ => OutOfFuel
  | S fuel =>
      there ← gets (access path);
      if negb there then mret true
      else
        dir ← gets (is_directory path);
        if dir : bool then
          names ← gets (opendir path);
          match names with
          | None => mret false
          | Some names =>
              ok ← while_ok (fun name =>
                if decide (name = "." \/ name = "..") then mret true
                else removeRecursive fuel (path +:+ "/" +:+ name)) names;
              if ok : bool then perform (rmdir path) else mret false
          end
        else perform (unlink path)
  end.

(** [store], in the directory of the cache *)
Definition store (cacheDir hash aFile bmodFile : string) : run F bool :=
  let dir := cacheDir +:+ "/" +:+ hash in
  ok ← mkdirRecursive dir;
  if negb ok then mret false
  else
    let aDst := dir +:+ "/" +:+ extractFilename aFile in
    let bmodDst := dir +:+ "/" +:+ extractFilename bmodFile in
    ok ← copyFile aFile aDst;
    if negb ok then mret false else copyFile bmodFile bmodDst.

(** [lookup], with the files as they are *)
Definition lookup_in_cache (cacheDir hash : string) : run F (bool * (option string * option string)) :=
  there ← fileExists (cacheDir +:+ "/" +:+ hash);
  if negb there then mret (false, (None, None)) else gets (fun f => lookup_entry (fun d => opendir d f) cacheDir hash).

(** [clean] *)
Definition clean_cache (fuel : nat) (cacheDir : string) : run F bool := removeRecursive fuel cacheDir.
End files.

(** * Theorems *)

Lemma text_bytes_app s t : text_bytes (s +:+ t) = text_bytes s ++ text_bytes t.
Proof. unfold text_bytes. by rewrite chars_app, map_app. Qed.

Lemma update_each {A} (f : A -> string) l : forall ctx,
  fold_left (fun ctx a => sha256_update ctx (text_bytes (f a))) l ctx =
  fold_left sha256_update (map (fun a => text_bytes (f a)) l) ctx.
Proof. induction l as [|a l IH]; intros ctx; [done|]. apply IH. Qed.

Lemma bytes_each {A} (f : A -> string) l t :
  text_bytes (fold_right (fun a s => f a +:+ s) t l) = concat (map (fun a => text_bytes (f a)) l) ++ text_bytes t.
Proof. induction l as [|a l IH]; [done|]. cbn. by rewrite text_bytes_app, IH, app_assoc. Qed.

Lemma computeKey_digest files memory sources toml deps version :
  length memory = 64 ->
  computeKey files memory sources toml deps version = hashToHex (digest (text_bytes (key_text files sources toml deps version))).
Proof.
  intros Hm. unfold computeKey, key_text. cbn zeta. set (salt := formatSalt _). f_equal.
  rewrite !update_each.
  assert (forall a l1 b l2 (c : SHA256_CTX), fold_left sha256_update l2 (sha256_update (fold_left sha256_update l1 (sha256_update c a)) b) =
    fold_left sha256_update (a :: l1 ++ b :: l2) c) as Hf.
  { intros a l1 b l2 c. cbn. by rewrite fold_left_app. }
  rewrite Hf, sha256_streamed by done. f_equal. cbn [concat]. rewrite concat_app, !text_bytes_app, bytes_each.
  cbn [concat]. by rewrite !text_bytes_app, bytes_each, app_nil_r.
Qed.

Lemma hex_digit_inj a b : (0 <= a < 16)%Z -> (0 <= b < 16)%Z -> hex_digit a = hex_digit b -> a = b.
Proof.
  intros Ha Hb.
  assert (forall x, (0 <= x < 16)%Z -> x ∈ [0; 1; 2; 3; 4; 5; 6; 7; 8; 9; 10; 11; 12; 13; 14; 15]%Z) as H
    by (intros x Hx; rewrite !elem_of_cons; lia).
  apply H in Ha, Hb.
  repeat (apply elem_of_cons in Ha as [->|Ha];
    [repeat (apply elem_of_cons in Hb as [->|Hb]; [done|]); by apply elem_of_nil in Hb|]). by apply elem_of_nil in Ha.
Qed.

(** The text of a hash tells its bytes. *)
Lemma hashToHex_inj l : forall l',
  Forall (fun b => 0 <= b < 256)%Z l -> Forall (fun b => 0 <= b < 256)%Z l' -> hashToHex l = hashToHex l' -> l = l'.
Proof.
  unfold hashToHex. induction l as [|a l IH]; intros l' Hl Hl' E; apply (f_equal chars) in E; rewrite !chars_str in E.
  - by destruct l'.
  - destruct l' as [|b l']; [done|]. apply Forall_cons in Hl as [Ha Hl]. apply Forall_cons in Hl' as [Hb Hl'].
    cbn in E. injection E as E1 E2 E. f_equal.
    + apply hex_digit_inj in E1; [|split; [apply Z.div_pos|apply Z.div_lt_upper_bound]; lia..].
      apply hex_digit_inj in E2; [|apply Z.mod_pos_bound; lia..].
      rewrite (Z.div_mod a 16), (Z.div_mod b 16) by done. lia.
    + apply IH; [done..|]. by rewrite E.
Qed.

Lemma digest_bytes m : Forall (fun b => 0 <= b < 256)%Z (digest m).
Proof.
  unfold digest, state_bytes. generalize (fold_left sha256_transform (blocks (length (m ++ padding m) / 64) (m ++ padding m)) initial_state).
  intros s. cbn. repeat (constructor; [apply Z.mod_pos_bound; lia|]). constructor.
Qed.

(** C13. The key of a build is the digest of the interface format's version, the
    contents of the sources in their order, the project file and the keys of the
    dependencies, one behind another: two builds have the same key exactly if these
    texts have the same digest, whatever the memory the digests are made in. *)
Theorem computeKey_exact (files files' : string -> option string) (memory memory' : list Z)
  (sources sources' : list string) (toml toml' : string) (deps deps' : list string) (version version' : Z)
  (Hmemory : length memory = 64) (Hmemory' : length memory' = 64) :
  computeKey files memory sources toml deps version = computeKey files' memory' sources' toml' deps' version' <->
  digest (text_bytes (key_text files sources toml deps version)) =
  digest (text_bytes (key_text files' sources' toml' deps' version')).
Proof.
  rewrite !computeKey_digest by done. split; [|by intros ->]. apply hashToHex_inj; apply digest_bytes.
Qed.

Definition sample_files (path : string) : option string := if decide (path = "a.b") then Some "fn f() { }" else None.

(** The version takes part, and the boundary between two texts does not. *)
Lemma computeKey_exact_witness :
  computeKey sample_files (replicate 64 1%Z) ["a.b"; "none.b"] "t" ["d"] (-1) =
  computeKey sample_files (replicate 64 2%Z) ["a.b"] "" ["td"] 5 /\
  bool_decide (computeKey sample_files (replicate 64 1%Z) ["a.b"] "t" [] 5 = computeKey sample_files (replicate 64 1%Z) ["a.b"] "t" [] 6) = false.
Proof. split; [apply computeKey_exact; [reflexivity..|vm_compute; reflexivity]|vm_compute; reflexivity]. Defined.

(** An entry is served when it has an archive and an interface. *)
Lemma lookup_found directory cacheDir hash names :
  directory (cacheDir +:+ "/" +:+ hash) = Some names ->
  (lookup_entry directory cacheDir hash).1 =
  existsb (has_suffix ".a") names && existsb (fun n => negb (has_suffix ".a" n) && has_suffix ".bmod" n) names.
Proof.
  intros Hd. unfold lookup_entry. rewrite Hd. cbn [fst]. set (dir := cacheDir +:+ _).
  assert (forall l found,
    bool_decide (is_Some (fold_left (entry_pass dir) l found).1) = bool_decide (is_Some found.1) || existsb (has_suffix ".a") l /\
    bool_decide (is_Some (fold_left (entry_pass dir) l found).2) =
      bool_decide (is_Some found.2) || existsb (fun n => negb (has_suffix ".a" n) && has_suffix ".bmod" n) l) as H.
  { intros l. induction l as [|n l IH]; intros found; cbn [fold_left existsb]; [by rewrite !orb_false_r|].
    destruct (IH (entry_pass dir found n)) as [-> ->]. unfold entry_pass.
    destruct (has_suffix ".a" n); [|destruct (has_suffix ".bmod" n)]; cbn [fst snd negb andb orb];
      rewrite ?orb_true_r; split; try done; by rewrite ?bool_decide_true. }
  by destruct (H names (None, None)) as [-> ->].
Qed.

(** ** A small file system

    Files and directories by their absolute paths. *)

Inductive node := File (text : string) | Directory.

#[export] Instance node_eq_dec : EqDecision node.
Proof. solve_decision. Defined.

Definition tree : Type := gmap string node.

Definition without_slash (path : string) : string :=
  if decide (last (chars path) = Some "/"%char) then str (removelast (chars path)) else path.
Definition parent (path : string) : string :=
  match list_find (fun c => c = "/"%char) (reverse (chars path)) with
  | Some (i, _) => str (reverse (drop (S i) (reverse (chars path))))
  | None => ""
  end.
Definition directory_at (path : string) (t : tree) : bool :=
  bool_decide (path = "" \/ t !! path = Some Directory).
Definition children (path : string) (t : tree) : list string :=
  map extractFilename (filter (fun p => parent p = path) (map fst (map_to_list t))).

#[export] Instance tree_files : FileSystem tree := {
  access p t := bool_decide (without_slash p = "" \/ is_Some (t !! without_slash p));
  is_directory p t := directory_at (without_slash p) t;
  mkdir p t :=
    let p := without_slash p in
    if decide (p = "" \/ is_Some (t !! p)) then t else if directory_at (parent p) t then <[p := Directory]> t else t;
  open_in p t := bool_decide (is_Some (t !! p));
  contents p t := match t !! p with Some (File s) => s | _ => "" end;
  open_out p t := if directory_at (parent p) t && negb (directory_at p t) then Some (<[p := File ""]> t) else None;
  write p s t := match t !! p with Some (File s') => (<[p := File (s' +:+ s)]> t, true) | _ => (t, false) end;
  opendir p t := if directory_at p t then Some ("." :: ".." :: children p t) else None;
  rmdir p t := if decide (t !! p = Some Directory /\ children p t = []) then (delete p t, true) else (t, false);
  unlink p t := match t !! p with Some (File _) => (delete p t, true) | _ => (t, false) end
}.

Definition sample_tree (interface : string) : tree :=
  list_to_map [("/out", Directory); ("/out/m.a", File "code"); ("/out/m.bmod", File interface)].

(** What is stored is found, and cleaning removes the directories of the cache. *)
Example stored_and_cleaned :
  match (ok ← store "/c/blang" "key" "/out/m.a" "/out/m.bmod"; found ← lookup_in_cache "/c/blang" "key";
         copy ← gets (contents "/c/blang/key/m.bmod"); cleaned ← clean_cache 4 "/c/blang"; left ← gets (access "/c/blang");
         mret (ok, found, copy, cleaned, left)) (sample_tree "interface") with
  | Done (r, _) => r = (true, (true, (Some "/c/blang/key/m.a", Some "/c/blang/key/m.bmod")), "interface", true, false)
  | _ => False
  end.
Proof. by vm_compute. Qed.

(** An empty file is not stored, and leaves an entry that is served. *)
Example failed_store_served :
  match (ok ← store "/c" "key" "/out/m.a" "/out/m.bmod"; found ← lookup_in_cache "/c" "key"; mret (ok, found.1)) (sample_tree "") with
  | Done (r, _) => r = (false, true)
  | _ => False
  end.
Proof. by vm_compute. Qed.

(** Whatever the file system does, a copy that reaches the destination and inserts
    nothing, or fails to write, leaves the file there, and is reported. *)
Lemma copyFile_result {F} `{FileSystem F} src dst f f' :
  copyFile src dst f = Done (true, f') ->
  open_in src f = true /\ exists g, open_out dst f = Some g /\ contents src g <> "" /\ write dst (contents src g) g = (f', true).
Proof.
  unfold copyFile, mbind, run_bind, gets, modify, perform, mret, run_ret. destruct (open_in src f); cbn [negb]; [|done].
  destruct (open_out dst f) as [g|]; [|done]. case_decide; [done|]. destruct (write dst (contents src g) g) as [g' ok] eqn:E.
  intros [= -> ->]. split; [done|]. by exists g.
Qed.

(** A store that succeeds has copied both files into the directory of the key. *)
Lemma store_result {F} `{FileSystem F} cacheDir hash a b f f' :
  store cacheDir hash a b f = Done (true, f') ->
  exists g1 g2, mkdirRecursive (cacheDir +:+ "/" +:+ hash) f = Done (true, g1) /\
    copyFile a (cacheDir +:+ "/" +:+ hash +:+ "/" +:+ extractFilename a) g1 = Done (true, g2) /\
    copyFile b (cacheDir +:+ "/" +:+ hash +:+ "/" +:+ extractFilename b) g2 = Done (true, f').
Proof.
  unfold store, mbind, run_bind. rewrite !string_app_assoc. destruct (mkdirRecursive _ f) as [[[] g1]| |]; [|done..].
  cbn [negb]. destruct (copyFile a _ g1) as [[[] g2]| |] eqn:Ea; [|done..]. cbn [negb]. intros Eb. by exists g1, g2.
Qed.
