(* ===== verification/BmodEmitter.v ===== *)
(** The interface files of libraries ([src/BmodEmitter.cpp]): what of a module is
    written for the modules that import it. *)

From stdpp Require Import pretty.
From S2P Require Import Prelude SourceLocation Ast Scope ParserBase ParseDeclarations BuildCache.

(** * Slices of source text *)

(** [getline] until it fails: a text that ends with a newline has no empty line
    behind it. *)
Fixpoint getlines (line l : list ascii) : list (list ascii) :=
  match l with
  | [] => if decide (line = []) then [] else [line]
  | c :: l' => if decide (c = newline) then line :: getlines [] l' else getlines (line ++ [c]) l'
  end.

(** Which of [inLineComment], [inBlockComment], [inString] and [inChar] is set: one
    at most is. *)
Inductive slice_mode := InCode | InLineComment | InBlockComment | InString | InChar.

Record slice_state := mkSlice { sl_depth : Z; sl_open : bool; sl_mode : slice_mode }.

Definition in_mode (m : slice_mode) (s : slice_state) : slice_state := mkSlice (sl_depth s) (sl_open s) m.

(** The characters of a line from [ci] on: the closing brace the definition ends
    with, or the state behind the line. *)
Fixpoint slice_line (l : list ascii) (ci : nat) (s : slice_state) : nat + slice_state :=
  match l with
  | [] => inr s
  | c :: l' =>
      let next := head l' in
      let two := match l' with _ :: l'' => fun s => slice_line l'' (S (S ci)) s | [] => fun s => inr s end in
      let one := slice_line l' (S ci) in
      match sl_mode s with
      | InLineComment => one s
      | InBlockComment =>
          if bool_decide (c = "*"%char) && bool_decide (next = Some "/"%char) then two (in_mode InCode s) else one s
      | InString =>
          if decide (c = backslash) then two s else if decide (c = dquote) then one (in_mode InCode s) else one s
      | InChar =>
          if decide (c = backslash) then two s else if decide (c = "'"%char) then one (in_mode InCode s) else one s
      | InCode =>
          if bool_decide (c = "/"%char) && bool_decide (next = Some "/"%char) then one (in_mode InLineComment s)
          else if bool_decide (c = "/"%char) && bool_decide (next = Some "*"%char) then two (in_mode InBlockComment s)
          else if decide (c = dquote) then one (in_mode InString s)
          else if decide (c = "'"%char) then one (in_mode InChar s)
          else if decide (c = "{"%char) then one (mkSlice (sl_depth s + 1) true InCode)
          else if decide (c = "}"%char) then
            if sl_open s && bool_decide (sl_depth s - 1 = 0)%Z then inl ci
            else one (mkSlice (sl_depth s - 1) (sl_open s) InCode)
          else one s
      end
  end.

(** A comment ends with its line. *)
Definition line_start (s : slice_state) : slice_state :=
  match sl_mode s with InLineComment => in_mode InCode s | _ => s end.

(** The lines from the definition's on: what has been written, or nothing when they
    run out. *)
Fixpoint slice_lines (out : list ascii) (lines : list (list ascii)) (s : slice_state) : string :=
  match lines with
  | [] => ""
  | l :: lines' =>
      match slice_line l 0 (line_start s) with
      | inl ci => str (out ++ take (S ci) l ++ [newline])
      | inr s' => slice_lines (out ++ l ++ [newline]) lines' s'
      end
  end.

Definition sliceDefinitionSource (files : string -> option string) (loc : SourceLocation) : string :=
  if bool_decide (loc_file loc = "") || bool_decide (loc_line loc = 0%Z) then ""
  else
    match files (loc_file loc) with
    | None => ""
    | Some text =>
        let lines := getlines [] (chars text) in
        if decide (Z.of_nat (length lines) < loc_line loc)%Z then ""
        else slice_lines [] (drop (Z.to_nat (loc_line loc) - 1) lines) (mkSlice 0 false InCode)
    end.

(** * What is written *)

(** [out << s] *)
Definition put (s : string) : run string unit := modify (fun out => out +:+ s).
Definition endl : string := str [newline].

Definition put_when (b : bool) (r : run string unit) : run string unit := if b then r else mret tt.

(** A loop over a list, with the index of each element. *)
Fixpoint put_each {A} (f : nat -> A -> run string unit) (i : nat) (l : list A) : run string unit :=
  match l with [] => mret tt | a :: l' => f i a;; put_each f (S i) l' end.
Definition for_each {A} (f : A -> run string unit) (l : list A) : run string unit := put_each (fun _ => f) 0 l.

(** [", "] before all but the first. *)
Definition comma (i : nat) : run string unit := put_when (bool_decide (0 < i)) (put ", ").

Fixpoint emitType (t : Ty) : run string unit :=
  put (ty_name t);;
  match t with
  | Type_ _ (p :: ps) =>
      put "<";;
      emitType p;;
      fold_right (fun p k => put ", ";; emitType p;; k) (mret tt) ps;;
      put ">"
  | _ => mret tt
  end.

Definition emitAnnotations (annotations : list AnnotationNode) : run string unit :=
  for_each (fun ann =>
    put ("@" +:+ ann_name ann);;
    put_when (bool_decide (ann_args ann <> []))
      (put "(";; put_each (fun i a => comma i;; put (str [dquote] +:+ a +:+ str [dquote])) 0 (ann_args ann);; put ")");;
    put endl) annotations.

Definition emitGenericParams (params : list GenericParam) : run string unit :=
  put_when (bool_decide (params <> []))
    (put "<";;
     put_each (fun i p => comma i;; put (gp_name p);; put_when (bool_decide (gp_constraint p <> "")) (put (": " +:+ gp_constraint p)))
       0 params;;
     put ">").

Definition isDataContractStruct (s : StructDefinition) : bool :=
  s_table s || existsb (fun ann => bool_decide (ann_name ann = "json")) (s_annotations s).

Section emitter.
(** The files that can be read, and the types of variables. *)
Variable files : string -> option string.
Variable types : gmap nat Ty.

(** [emitType( v->getVariableType() )]; neither pointer may be null. *)
Definition emit_variable_type (v : VariableDefinition) : run string unit :=
  if is_null v then undefined else match types !! vid v with Some t => emitType t | None => undefined end.

Definition emit_variable (v : VariableDefinition) : run string unit :=
  emit_variable_type v;; put (" " +:+ v_name v).

Definition emit_return (t : option Ty) : run string unit :=
  match t with Some t => put " -> ";; emitType t | None => mret tt end.

Definition emitFunction (f : FunctionDefinition) : run string unit :=
  if negb (f_public f) then mret tt
  else
    emitAnnotations (f_annotations f);;
    let src := if isGeneric_function f then sliceDefinitionSource files (f_location f) else "" in
    if decide (src <> "") then put src
    else
      put ("pub fn " +:+ f_name f);;
      emitGenericParams (f_generics f);;
      put "(";;
      put_each (fun i p => comma i;; emit_variable p) 0 (f_params f);;
      put_when (f_variadic f) (put_when (bool_decide (f_params f <> [])) (put ", ");; put "...");;
      put ")";;
      emit_return (f_return f);;
      put (";" +:+ endl).

Definition emitConformances (s : StructDefinition) (exportedProtocols : gset string) : run string unit :=
  for_each (fun proto =>
    put_when (bool_decide (proto ∈ exportedProtocols))
      (put ("impl " +:+ proto +:+ " for " +:+ s_name s +:+ " {" +:+ endl +:+ "}" +:+ endl))) (s_conformed s).

Definition structHasInterfaceMembers (s : StructDefinition) : bool :=
  existsb (fun m => negb (isGeneric_function m) && (f_public m || f_init m)) (s_methods s).

(** The type of a parameter is [self]; the parameter may not be null. *)
Definition is_self (v : VariableDefinition) : bool :=
  match types !! vid v with Some t => bool_decide (ty_name t = "self") | None => false end.

(** The parameters of a method, without the [self] of a constructor; [first] is
    false once one is written. *)
Fixpoint emit_parameters (isInit first : bool) (l : list VariableDefinition) : run string unit :=
  match l with
  | [] => mret tt
  | p :: l' =>
      if is_null p then undefined
      else if is_self p && isInit then emit_parameters isInit first l'
      else
        put_when (negb first) (put ", ");;
        (if is_self p then put "self" else emit_variable p);;
        emit_parameters isInit false l'
  end.

Definition emit_method (m : FunctionDefinition) : run string unit :=
  put (if f_init m then (if f_public m then str [ascii_of_N 9] +:+ "pub init(" else str [ascii_of_N 9] +:+ "init(")
       else str [ascii_of_N 9] +:+ "pub fn " +:+ f_name m +:+ "(");;
  emit_parameters (f_init m) true (f_params m);;
  put ")";;
  (if f_init m then mret tt else emit_return (f_return m));;
  put (";" +:+ endl).

(** The methods, the first of each name; [emitted] holds the names so far. *)
Fixpoint emit_methods (emitted : list string) (l : list FunctionDefinition) : run string unit :=
  match l with
  | [] => mret tt
  | m :: l' =>
      if decide (f_name m ∈ emitted) then emit_methods emitted l'
      else
        put_when (negb (isGeneric_function m) && (f_public m || f_init m)) (emit_method m);;
        emit_methods (emitted ++ [f_name m]) l'
  end.

Definition emitStructInterface (s : StructDefinition) : run string unit :=
  put ("impl " +:+ s_name s +:+ " {" +:+ endl);;
  emit_methods [] (s_methods s);;
  put ("}" +:+ endl).

(** The slices of all methods, if each has one. *)
Fixpoint sliced_methods (l : list FunctionDefinition) : option string :=
  match l with
  | [] => Some ""
  | m :: l' =>
      let src := sliceDefinitionSource files (f_location m) in
      if decide (src = "") then None else rest ← sliced_methods l'; Some (src +:+ rest)
  end.

Definition emitStruct (exportedProtocols : gset string) (s : StructDefinition) : run string unit :=
  if negb (s_public s) then mret tt
  else
    let generic := bool_decide (s_generics s <> []) in
    emitAnnotations (s_annotations s);;
    put "pub ";;
    put_when (s_table s) (put "table ");;
    put ("struct " +:+ s_name s);;
    emitGenericParams (s_generics s);;
    put (" {" +:+ endl);;
    put_when (generic || isDataContractStruct s)
      (for_each (fun field => put (str [ascii_of_N 9]);; emit_variable field;; put (";" +:+ endl)) (s_fields s));;
    put ("}" +:+ endl);;
    (if generic && bool_decide (s_methods s <> []) then
       match sliced_methods (s_methods s) with
       | Some methods => put ("impl " +:+ s_name s +:+ " {" +:+ endl);; put methods;; put ("}" +:+ endl)
       | None => mret tt
       end
     else put_when (structHasInterfaceMembers s) (emitStructInterface s));;
    emitConformances s exportedProtocols.

Definition emit_variant (n i : nat) (v : Variant) : run string unit :=
  put (str [ascii_of_N 9] +:+ variant_name v);;
  put_when (bool_decide (variant_types v <> []))
    (put "(";; put_each (fun j t => comma j;; emitType t) 0 (variant_types v);; put ")");;
  put_when (bool_decide (S i < n)) (put ",");;
  put endl.

Definition emitEnum (e : EnumDefinition) : run string unit :=
  if negb (e_public e) then mret tt
  else
    emitAnnotations (e_annotations e);;
    put ("pub enum " +:+ e_name e);;
    emitGenericParams (e_generics e);;
    put (" {" +:+ endl);;
    put_each (emit_variant (length (e_variants e))) 0 (e_variants e);;
    put ("}" +:+ endl).

(** Neither a parameter nor its type may be null. *)
Definition emit_protocol_parameter (i : nat) (p : VariableDefinition) : run string unit :=
  comma i;;
  if is_null p then undefined
  else match types !! vid p with
       | Some t => if decide (ty_name t = "self") then put "self" else emitType t;; put (" " +:+ v_name p)
       | None => undefined
       end.

Definition emit_required (m : FunctionDefinition) : run string unit :=
  put (str [ascii_of_N 9] +:+ "fn " +:+ f_name m +:+ "(");;
  put_each emit_protocol_parameter 0 (f_params m);;
  put ")";;
  emit_return (f_return m);;
  put (";" +:+ endl).

Definition emitProtocol (p : ProtocolDefinition) : run string unit :=
  if negb (p_public p) then mret tt
  else
    put ("pub protocol " +:+ p_name p);;
    emitGenericParams (p_generics p);;
    put (" {" +:+ endl);;
    for_each emit_required (p_methods p);;
    put ("}" +:+ endl).

(** ** Types of other modules *)

(** The names in a type. *)
Fixpoint type_names (t : Ty) : gset string :=
  match t with
  | Type_ name ps => {[name]} ∪ fold_right (fun p X => type_names p ∪ X) ∅ ps
  | FunctionType _ _ => {["fn"]}
  end.
Definition collectTypeNames (t : option Ty) : gset string := match t with Some t => type_names t | None => ∅ end.

Definition signature_names (f : FunctionDefinition) : gset string :=
  if f_public f then
    collectTypeNames (f_return f) ∪ fold_right (fun p X => collectTypeNames (types !! vid p) ∪ X) ∅ (f_params f)
  else ∅.

Definition struct_signature_names (s : StructDefinition) : gset string :=
  if s_public s then fold_right (fun m X => signature_names m ∪ X) ∅ (s_methods s) else ∅.

Definition referenced_names (m : Module_) : gset string :=
  fold_right (fun f X => signature_names f ∪ X) ∅ (mFunctionList m) ∪
  fold_right (fun s X => struct_signature_names s ∪ X) ∅ (mStructList m).

Definition own_types (m : Module_) : gset string := list_to_set (map s_name (mStructList m) ++ map e_name (mEnumList m)).

Definition union_of {A} (f : A -> gset string) (l : list A) : gset string := fold_right (fun a X => f a ∪ X) ∅ l.

(** A parameter of an exported signature that is null. *)
Definition null_signature (m : Module_) : bool :=
  existsb (fun f => f_public f && existsb is_null (f_params f)) (mFunctionList m) ||
  existsb (fun s => s_public s && existsb (fun f => f_public f && existsb is_null (f_params f)) (s_methods s)) (mStructList m).

Definition foreign_type (h : heap) (scope : nat) (name : string) : run string unit :=
  match as_struct (findSymbol h scope name) with
  | Some sd =>
      if decide (s_digest sd = "") then mret tt
      else
        let human := if decide (s_defining_file sd = "") then "?" else s_defining_file sd in
        put ("// foreign-type: " +:+ name +:+ " " +:+ human +:+ " " +:+ s_digest sd +:+ endl)
  | None => mret tt
  end.

Definition foreign_types (h : heap) (scope : nat) (modules : list Module_) : run string unit :=
  if existsb null_signature modules then undefined
  else
    for_each (fun name => if decide (name ∈ union_of own_types modules) then mret tt else foreign_type h scope name)
      (sorted_strings (union_of referenced_names modules)).

(** ** A library *)

Definition exported_protocols (modules : list Module_) : gset string :=
  {["Printable"]} ∪
  union_of (fun m => union_of (fun p => if p_public p then {[p_name p]} else ∅) (mProtocolList m)) modules.

Definition emit_module (exportedProtocols : gset string) (m : Module_) : run string unit :=
  for_each (fun p => emitProtocol p;; put endl) (mProtocolList m);;
  for_each (fun s => emitStruct exportedProtocols s;; put endl) (mStructList m);;
  for_each (fun e => emitEnum e;; put endl) (mEnumList m);;
  for_each emitFunction (mFunctionList m).

(** The lines before the definitions; the scope, with the heap it is in, may be null. *)
Definition emit_head (modules : list Module_) (scope : option (heap * nat)) : run string unit :=
  put ("// auto-generated .bmod interface file " +:+ str (map ascii_of_N [226; 128; 148]%N) +:+ " do not edit" +:+ endl);;
  put ("// blang-bmod-format: " +:+ pretty kFormatVersion +:+ endl);;
  (match scope with Some (h, scope) => foreign_types h scope modules | None => mret tt end);;
  put endl.

(** [emit] *)
Definition emit_interface (modules : list Module_) (scope : option (heap * nat)) : run string unit :=
  emit_head modules scope;;
  for_each (emit_module (exported_protocols modules)) modules.

End emitter.
