(* ===== verification/EmitterTheorems.v ===== *)
(** What an interface file depends on, and what of a module it does not show. *)

From stdpp Require Import pretty.
From S2P Require Import Prelude SourceLocation Diagnostics Ast Scope SemaTypes Sema LexerStream ParserBase ParseDeclarations Frontend FrontendTheorems BuildCache BmodEmitter.

(** * What is shown of a module *)

Section shown.
Variable files : string -> option string.
Variable types : gmap nat Ty.















End shown.

(** The emitter and the check of exported field types agree on which structs are data
    contracts, so that no field is shown that was not checked. *)
Lemma data_contracts_in_sync s : isDataContractStruct s = isExportedDataContract s.
Proof. unfold isDataContractStruct, isExportedDataContract. by destruct (s_table s). Qed.

(** * Runs that do the same *)

Record run_eq {S A} (r r' : run S A) : Prop := RunEq { run_eq_at : forall s, r s = r' s }.
Infix "=r" := run_eq (at level 70, no associativity).

#[export] Instance run_eq_equivalence S A : Equivalence (@run_eq S A).
Proof.
  split; [by intros r; constructor|intros r r' [H]; by constructor|].
  intros r r' r'' [H] [H']. constructor. intros s. by rewrite H.
Qed.




(** * The text is made from what is shown *)




Section two.
Variables (files files' : string -> option string) (types types' : gmap nat Ty).

















End two.

(** ** The lines about types of other modules *)





(** * Sample libraries *)

Definition text_of (lines : list string) : string := String.concat endl lines +:+ endl.
Definition compiled (t : string) : CompileResult := result_of (compileDocument (10 * String.length t + 9) N.of_nat "/m.b" t).
Definition source (t : string) (path : string) : option string := if decide (path = "/m.b") then Some t else None.

(** The interface of a library of one file. *)
Definition interface_of (t : string) : outcome (unit * string) :=
  let r := compiled t in
  emit_interface (source t) (mVarTypes (cr_sema r)) [cr_module r] (Some (cr_heap r, cr_scope r)) "".

Definition interface_text (t : string) : string := match interface_of t with Done (_, s) => s | _ => "" end.
(** What is reported of an interface when it is read: it is parsed, not analysed. *)
Definition reread (t : string) : option (list string) :=
  let i := interface_text t in
  st ← document_stream "/m.bmod" i;
  match parse_document (10 * String.length i + 9) "/m.bmod" (document_state st) with
  | Done (Returns _, s) => Some (map message (mDiags (ps_diag s)))
  | _ => None
  end.
Definition accepted (t : string) : bool := bool_decide (cr_diagnostics (compiled t) = []).

(** * A library and two states of its insides *)





(** * Reading an interface back *)

Definition shapes : string := text_of
  ["pub protocol Sized { fn size(self) -> int; }";
   "pub struct P { int x; int y; }";
   "impl P {";
   "  pub init(int a) { self.x = a; }";
   "  pub fn area(self, int k) -> int { return k; }";
   "  fn priv(self) { }";
   "}";
   "impl Sized for P { pub fn size(self) -> int { return 2; } }";
   "pub enum E { a(int, Array<Array<int>>), b }";
   "pub table struct T { int id; string name; }";
   "@json";
   "pub struct J { int q; }";
   "pub fn apply(P g, int x, E e) -> Array<Array<P>> { return [[g]]; }";
   "pub fn id<T>(T x) -> T { // }";
   "  return x;";
   "}";
   "fn hidden(P p) { }";
   "pub struct Box<T> { T v; }";
   "impl Box {";
   "  pub fn get(self) -> T { return self.v; }";
   "  fn put(self, T x) { self.v = x; }";
   "}"].

(** The interface of a library with definitions of every kind is accepted, and what
    it declares has the same interface. *)
Example shapes_reread :
  (accepted shapes, reread shapes, bool_decide (interface_text (interface_text shapes) = interface_text shapes)) =
  (true, Some [], true).
Proof. vm_compute. reflexivity. Qed.

(** * Interfaces that do not read back *)

(** A parameter of a function type is written as [fn], without the types of its
    parameters and result. *)
Lemma function_types_cut :
  let t := "pub fn apply(fn(int) -> int g, int x) -> int { return g(x); }" in
  accepted t = true /\ reread t <> Some [].
Proof. split; vm_compute; [reflexivity|discriminate]. Qed.

(** A method of a generic struct that stands on the line of its block is written
    with the head of the block, inside another. *)
Lemma block_head_sliced :
  let t := text_of ["pub struct Box<T> { T v; }"; "impl Box { pub fn get(self) -> T { return self.v; } }"] in
  accepted t = true /\ reread t <> Some [].
Proof. split; vm_compute; [reflexivity|discriminate]. Qed.

(** A struct that is not exported adds an empty line to the interface. *)
Lemma private_struct_shown :
  let t := "pub fn a() { }" in
  interface_text (t +:+ endl +:+ "struct S { int x; }") <> interface_text t.
Proof. vm_compute. discriminate. Qed.
