(* ===== verification/RuntimeMemory.v ===== *)
(** The memory the run-time library ([src/runtime]) works on: blocks of bytes, which
    may not be initialised, the objects that point to them, and what of C's standard
    library is used. What is read or written outside a live block, an object that is
    not there, a byte that is not initialised and a signed overflow are undefined
    behaviour. *)

From S2P Require Import Prelude.

(** * Memory *)

(** A byte, or one that has not been written. *)
Notation cell := (option ascii).

(** A place in a block, or null. *)
Definition ptr : Type := option (nat * Z).

Record BlangString := mkString {
  bs_data : ptr;
  bs_length : Z;
  bs_capacity : Z;
  bs_ref_count : Z
}.

(** The destructor of the elements is named by a number. *)
Record BlangArray := mkArray {
  ba_data : ptr;
  ba_length : Z;
  ba_capacity : Z;
  ba_ref_count : Z;
  ba_elem_size : Z;
  ba_elem_dtor : option nat
}.

Record BlangBuffer := mkBuffer {
  bb_data : ptr;
  bb_length : Z;
  bb_capacity : Z;
  bb_ref_count : Z
}.

Inductive object := Str (s : BlangString) | Arr (a : BlangArray) | Buf (b : BlangBuffer).

(** The live blocks and objects, and the numbers the next ones get. *)
Record mem := mkMem {
  m_blocks : gmap nat (list cell);
  m_block : nat;
  m_objects : gmap nat object;
  m_object : nat;
  m_stderr : string;
  m_stdout : string
}.

Definition set_blocks (m : mem) (f : gmap nat (list cell) -> gmap nat (list cell)) : mem :=
  mkMem (f (m_blocks m)) (m_block m) (m_objects m) (m_object m) (m_stderr m) (m_stdout m).
Definition set_objects (m : mem) (f : gmap nat object -> gmap nat object) : mem :=
  mkMem (m_blocks m) (m_block m) (f (m_objects m)) (m_object m) (m_stderr m) (m_stdout m).
Definition new_block (m : mem) (cells : list cell) : mem :=
  mkMem (<[m_block m := cells]> (m_blocks m)) (S (m_block m)) (m_objects m) (m_object m) (m_stderr m) (m_stdout m).
Definition new_object (m : mem) : mem :=
  mkMem (m_blocks m) (m_block m) (m_objects m) (S (m_object m)) (m_stderr m) (m_stdout m).

(** * Runs

    A function returns, or the program exits with a code. *)

Definition C (A : Type) : Type := mem -> outcome ((Z + A) * mem).

#[export] Instance C_ret : MRet C := fun A a m => Done (inr a, m).
#[export] Instance C_bind : MBind C := fun A B k c m =>
  match c m with
  | Done (inr a, m') => k a m'
  | Done (inl code, m') => Done (inl code, m')
  | UndefinedBehaviour => UndefinedBehaviour
  | OutOfFuel => OutOfFuel
  end.

Definition c_get {A} (f : mem -> A) : C A := fun m => Done (inr (f m), m).
Definition c_modify (f : mem -> mem) : C unit := fun m => Done (inr tt, f m).
Definition c_undefined {A} : C A := fun _ => UndefinedBehaviour.
Definition c_exit {A} (code : Z) : C A := fun m => Done (inl code, m).
Definition c_some {A} (o : option A) : C A := match o with Some a => mret a | None => c_undefined end.
Definition c_when (b : bool) (c : C unit) : C unit := if b then c else mret tt.

(** [fprintf( stderr, message ); exit( 1 )] *)
Definition die {A} (message : string) : C A :=
  c_modify (fun m => mkMem (m_blocks m) (m_block m) (m_objects m) (m_object m)
    (m_stderr m +:+ message +:+ str [newline]) (m_stdout m));;
  c_exit 1.

(** [for ( i = lo; i < hi; i++ )], whose body may return from the function. *)
Fixpoint c_for_passes {A} (n : nat) (i : Z) (body : Z -> C (option A)) : C (option A) :=
  match n with
  | 0 => mret None
  | S n => r ← body i; match r with Some a => mret (Some a) | None => c_for_passes n (i + 1) body end
  end.
Definition c_for {A} (lo hi : Z) (body : Z -> C (option A)) : C (option A) := c_for_passes (Z.to_nat (hi - lo)) lo body.

(** The same with a local variable the body changes. *)
Fixpoint c_fold_passes {B} (n : nat) (i : Z) (body : Z -> B -> C B) (b : B) : C B :=
  match n with 0 => mret b | S n => b ← body i b; c_fold_passes n (i + 1) body b end.
Definition c_fold {B} (lo hi : Z) (body : Z -> B -> C B) (b : B) : C B := c_fold_passes (Z.to_nat (hi - lo)) lo body b.

(** [while], with fuel for its passes. *)
Fixpoint c_loop {A B} (fuel : nat) (body : B -> C (loop_step B A)) (b : B) : C A :=
  match fuel with
  | 0 => fun _ => OutOfFuel
  | S n => step ← body b; match step with Next b' => c_loop n body b' | Break a => mret a end
  end.

(** * Integers *)

Definition int64 (z : Z) : bool := bool_decide (- 2 ^ 63 <= z < 2 ^ 63)%Z.

(** The result of an [int64_t] operation. *)
Definition i64 (z : Z) : C Z := if int64 z then mret z else c_undefined.

(** A number converted to [size_t]. *)
Definition size_t (z : Z) : Z := (z mod 2 ^ 64)%Z.

Lemma size_t_small z : (0 <= z < 2 ^ 64)%Z -> size_t z = z.
Proof. apply Z.mod_small. Qed.

(** A number converted to [int32_t]. *)
Definition s32 (z : Z) : Z := ((z + 2 ^ 31) mod 2 ^ 32 - 2 ^ 31)%Z.

Lemma s32_small z : (- 2 ^ 31 <= z < 2 ^ 31)%Z -> s32 z = z.
Proof. intros H. unfold s32. rewrite Z.mod_small; lia. Qed.

(** * Blocks *)

(** [n] bytes from [off] on. *)
Definition range (off n : Z) (l : list cell) : option (list cell) :=
  if decide (0 <= off /\ 0 <= n /\ off + n <= Z.of_nat (length l))%Z
  then Some (take (Z.to_nat n) (drop (Z.to_nat off) l)) else None.

(** A list written over another from [off] on. *)
Definition overwrite (off : nat) (cells l : list cell) : list cell :=
  take off l ++ cells ++ drop (off + length cells) l.

Definition read_cells (p : ptr) (n : Z) : C (list cell) :=
  match p with
  | None => c_undefined
  | Some (b, off) => blocks ← c_get m_blocks; c_some (blocks !! b ≫= range off n)
  end.

Definition write_cells (p : ptr) (cells : list cell) : C unit :=
  match p with
  | None => c_undefined
  | Some (b, off) =>
      blocks ← c_get m_blocks;
      old ← c_some (blocks !! b);
      if decide (0 <= off /\ off + Z.of_nat (length cells) <= Z.of_nat (length old))%Z
      then c_modify (fun m => set_blocks m (<[b := overwrite (Z.to_nat off) cells old]>))
      else c_undefined
  end.

(** [p + n], inside the block of [p] or at its end. *)
Definition ptr_add (p : ptr) (n : Z) : C ptr :=
  match p with
  | None => c_undefined
  | Some (b, off) =>
      blocks ← c_get m_blocks;
      cells ← c_some (blocks !! b);
      if decide (0 <= off + n <= Z.of_nat (length cells))%Z then mret (Some (b, off + n)%Z) else c_undefined
  end.

Definition store_char (p : ptr) (i : Z) (c : ascii) : C unit := q ← ptr_add p i; write_cells q [Some c].
Definition load_char (p : ptr) (i : Z) : C ascii :=
  q ← ptr_add p i;
  cells ← read_cells q 1;
  match cells with [Some c] => mret c | _ => c_undefined end.

(** Two ranges that have a byte in common. *)
Definition overlap (p q : ptr) (n : Z) : bool :=
  match p, q with
  | Some (b, i), Some (b', j) => bool_decide (b = b' /\ i < j + n /\ j < i + n)%Z
  | _, _ => false
  end.

Definition memmove (dst src : ptr) (n : Z) : C unit := cells ← read_cells src n; write_cells dst cells.
Definition memcpy (dst src : ptr) (n : Z) : C unit := if overlap dst src n then c_undefined else memmove dst src n.

(** The order of two strings of bytes as [memcmp] and [strcmp] tell it. *)
Fixpoint compare_bytes (l l' : list ascii) : Z :=
  match l, l' with
  | [], [] => 0
  | [], _ => -1
  | _, [] => 1
  | a :: l, b :: l' =>
      if decide (a = b) then compare_bytes l l' else if decide (N_of_ascii a < N_of_ascii b)%N then -1 else 1
  end%Z.

Definition memcmp (p q : ptr) (n : Z) : C Z :=
  a ← read_cells p n;
  b ← read_cells q n;
  a ← c_some (mapM id a);
  b ← c_some (mapM id b);
  mret (compare_bytes a b).

Section allocation.
(** Which allocations fail, by the size that is asked for. *)
Variable fails : Z -> mem -> bool.

Definition allocate (size : Z) (cells : list cell) : C ptr := fun m =>
  if fails size m then Done (inr None, m) else Done (inr (Some (m_block m, 0%Z)), new_block m cells).

Definition malloc (size : Z) : C ptr := allocate (size_t size) (replicate (Z.to_nat (size_t size)) None).

(** [calloc( n, size )]; a product that is too large fails. *)
Definition calloc (n size : Z) : C ptr :=
  if decide (size_t n * size_t size < 2 ^ 64)%Z
  then allocate (size_t n * size_t size) (replicate (Z.to_nat (size_t n * size_t size)) (Some "000"%char))
  else mret None.

(** [malloc( sizeof( ... ) )] of an object, which is made when its fields are set. *)
Definition malloc_object (size : Z) : C (option nat) := fun m =>
  if fails size m then Done (inr None, m) else Done (inr (Some (m_object m)), new_object m).

Definition free (p : ptr) : C unit :=
  match p with
  | None => mret tt
  | Some (b, off) =>
      blocks ← c_get m_blocks;
      _ ← c_some (blocks !! b);
      if decide (off = 0)%Z then c_modify (fun m => set_blocks m (delete b)) else c_undefined
  end.

(** [realloc]: the old bytes as far as they fit, in a new block. *)
Definition realloc (p : ptr) (size : Z) : C ptr :=
  match p with
  | None => malloc size
  | Some (b, off) =>
      blocks ← c_get m_blocks;
      old ← c_some (blocks !! b);
      if decide (off = 0)%Z then
        q ← allocate (size_t size) (resize (Z.to_nat (size_t size)) None old);
        match q with None => mret None | Some _ => free p;; mret q end
      else c_undefined
  end.
End allocation.

Definition put_object (p : nat) (o : object) : C unit := c_modify (fun m => set_objects m (<[p := o]>)).

(** [free] of an object. *)
Definition free_object (p : nat) : C unit :=
  objects ← c_get m_objects;
  _ ← c_some (objects !! p);
  c_modify (fun m => set_objects m (delete p)).

Definition get_string (p : nat) : C BlangString :=
  objects ← c_get m_objects; match objects !! p with Some (Str s) => mret s | _ => c_undefined end.
Definition get_array (p : nat) : C BlangArray :=
  objects ← c_get m_objects; match objects !! p with Some (Arr a) => mret a | _ => c_undefined end.
Definition get_buffer (p : nat) : C BlangBuffer :=
  objects ← c_get m_objects; match objects !! p with Some (Buf b) => mret b | _ => c_undefined end.

(** * Total correctness

    A run that ends without undefined behaviour, in a result that satisfies [Q], or
    in an exit that satisfies [X]. *)
Definition cwp {A} (X : Z -> mem -> Prop) (c : C A) (Q : A -> mem -> Prop) (m : mem) : Prop :=
  match c m with
  | Done (inr a, m') => Q a m'
  | Done (inl code, m') => X code m'
  | _ => False
  end.

(** The run of a sequence, from what its first part does. *)
Lemma bind_done {A B} (c : C A) (k : A -> C B) a m m' : c m = Done (inr a, m') -> (c ≫= k) m = k a m'.
Proof. unfold mbind, C_bind. by intros ->. Qed.

Lemma bind_undefined {A B} (c : C A) (k : A -> C B) m : c m = UndefinedBehaviour -> (c ≫= k) m = UndefinedBehaviour.
Proof. unfold mbind, C_bind. by intros ->. Qed.

Section rules.
Context (X : Z -> mem -> Prop).

Lemma cwp_ret {A} (a : A) Q m : Q a m -> cwp X (mret a) Q m.
Proof. done. Qed.

Lemma cwp_bind {A B} (c : C A) (k : A -> C B) Q m :
  cwp X c (fun a m' => cwp X (k a) Q m') m -> cwp X (c ≫= k) Q m.
Proof. unfold cwp, mbind, C_bind. by destruct (c m) as [[[code|a] m']| |]. Qed.

Lemma cwp_bind_inv {A B} (c : C A) (k : A -> C B) Q m :
  cwp X (c ≫= k) Q m -> cwp X c (fun a m' => cwp X (k a) Q m') m.
Proof. unfold cwp, mbind, C_bind. by destruct (c m) as [[[code|a] m']| |]. Qed.

Lemma cwp_bind_assoc {A B D} (c : C A) (k : A -> C B) (h : B -> C D) Q m :
  cwp X ((c ≫= k) ≫= h) Q m -> cwp X (c ≫= (fun a => k a ≫= h)) Q m.
Proof. unfold cwp, mbind, C_bind. by destruct (c m) as [[[code|a] m']| |]. Qed.

Lemma cwp_mono {A} (c : C A) (Q Q' : A -> mem -> Prop) m :
  cwp X c Q m -> (forall a m', Q a m' -> Q' a m') -> cwp X c Q' m.
Proof. unfold cwp. destruct (c m) as [[[code|a] m']| |]; eauto. Qed.

Lemma cwp_get {A} (f : mem -> A) Q m : Q (f m) m -> cwp X (c_get f) Q m.
Proof. done. Qed.

Lemma cwp_modify f Q m : Q tt (f m) -> cwp X (c_modify f) Q m.
Proof. done. Qed.

Lemma cwp_some {A} (o : option A) a Q m : o = Some a -> Q a m -> cwp X (c_some o) Q m.
Proof. by intros ->. Qed.

Lemma cwp_i64 z Q m : (- 2 ^ 63 <= z < 2 ^ 63)%Z -> Q z m -> cwp X (i64 z) Q m.
Proof. intros H HQ. unfold i64, int64. by rewrite bool_decide_true. Qed.

Lemma cwp_read b off n cells out Q m :
  m_blocks m !! b = Some cells -> range off n cells = Some out -> Q out m -> cwp X (read_cells (Some (b, off)) n) Q m.
Proof. intros Hb Hr HQ. apply cwp_bind, cwp_get. eapply cwp_some; [|exact HQ]. by rewrite Hb. Qed.

Lemma cwp_write b off new old Q m :
  m_blocks m !! b = Some old -> (0 <= off)%Z -> (off + Z.of_nat (length new) <= Z.of_nat (length old))%Z ->
  Q tt (set_blocks m (<[b := overwrite (Z.to_nat off) new old]>)) -> cwp X (write_cells (Some (b, off)) new) Q m.
Proof.
  intros Hb H0 Hl HQ. apply cwp_bind, cwp_get, cwp_bind. eapply cwp_some; [exact Hb|].
  rewrite decide_True by done. exact HQ.
Qed.

Lemma cwp_add b off n cells Q m :
  m_blocks m !! b = Some cells -> (0 <= off + n <= Z.of_nat (length cells))%Z ->
  Q (Some (b, (off + n)%Z)) m -> cwp X (ptr_add (Some (b, off)) n) Q m.
Proof.
  intros Hb H HQ. apply cwp_bind, cwp_get, cwp_bind. eapply cwp_some; [exact Hb|]. by rewrite decide_True.
Qed.

Lemma cwp_string p s Q m : m_objects m !! p = Some (Str s) -> Q s m -> cwp X (get_string p) Q m.
Proof. intros H HQ. apply cwp_bind, cwp_get. by rewrite H. Qed.
Lemma cwp_array p a Q m : m_objects m !! p = Some (Arr a) -> Q a m -> cwp X (get_array p) Q m.
Proof. intros H HQ. apply cwp_bind, cwp_get. by rewrite H. Qed.
Lemma cwp_buffer p b Q m : m_objects m !! p = Some (Buf b) -> Q b m -> cwp X (get_buffer p) Q m.
Proof. intros H HQ. apply cwp_bind, cwp_get. by rewrite H. Qed.

Lemma cwp_put p o Q m : Q tt (set_objects m (<[p := o]>)) -> cwp X (put_object p o) Q m.
Proof. done. Qed.

(** The rules of loops: an invariant, which for [while] is indexed by what is left. *)
Lemma cwp_loop {A B} (Inv : nat -> B -> mem -> Prop) (Q : A -> mem -> Prop) body :
  (forall n b m, Inv n b m ->
     cwp X (body b) (fun r m' => match r with Next b' => exists n', n' < n /\ Inv n' b' m' | Break a => Q a m' end) m) ->
  forall n b m fuel, Inv n b m -> n < fuel -> cwp X (c_loop fuel body b) Q m.
Proof.
  intros Hbody n. induction n as [n IH] using lt_wf_ind. intros b m [|fuel] HI Hf; [lia|]. cbn [c_loop].
  apply cwp_bind. eapply cwp_mono; [by apply (Hbody n)|].
  intros [b'|a] m'; [|by intros; apply cwp_ret]. intros (n' & Hlt & HI'). apply (IH n'); [done..|lia].
Qed.

Lemma cwp_fold {B} (Inv : nat -> B -> mem -> Prop) (Q : B -> mem -> Prop) body n b m :
  (forall i b m, i < n -> Inv i b m -> cwp X (body (Z.of_nat i) b) (Inv (S i)) m) ->
  Inv 0 b m -> (forall b m, Inv n b m -> Q b m) -> cwp X (c_fold 0 (Z.of_nat n) body b) Q m.
Proof.
  intros Hbody H0 HQ. unfold c_fold. rewrite Z.sub_0_r, Nat2Z.id.
  assert (forall k i b m, i + k = n -> Inv i b m -> cwp X (c_fold_passes k (Z.of_nat i) body b) Q m) as H.
  { intros k. induction k as [|k IH]; intros i b' m' Hk HI; cbn [c_fold_passes].
    - apply cwp_ret, HQ. by replace n with i by lia.
    - apply cwp_bind. eapply cwp_mono; [apply Hbody; [lia|done]|]. intros b'' m'' HI'.
      replace (Z.of_nat i + 1)%Z with (Z.of_nat (S i)) by lia. apply IH; [lia|done]. }
  by apply (H n 0).
Qed.
End rules.

Lemma range_spec off n l :
  (0 <= off)%Z -> (0 <= n)%Z -> (off + n <= Z.of_nat (length l))%Z ->
  range off n l = Some (take (Z.to_nat n) (drop (Z.to_nat off) l)).
Proof. intros. unfold range. by rewrite decide_True. Qed.

Lemma length_overwrite off new l : off + length new <= length l -> length (overwrite off new l) = length l.
Proof. intros H. unfold overwrite. rewrite !length_app, length_take, length_drop. lia. Qed.
