(* ===== verification/RuntimeString.v ===== *)
(** The strings of the run-time library ([src/runtime/blang_string.c]), over the
    memory of [RuntimeMemory]. *)

From stdpp Require Import pretty.
From S2P Require Import Prelude RuntimeMemory.

Definition toupper (c : ascii) : ascii := if char_between "a" "z" c then ascii_of_N (N_of_ascii c - 32) else c.
Definition tolower (c : ascii) : ascii := if char_between "A" "Z" c then ascii_of_N (N_of_ascii c + 32) else c.

Definition nul : ascii := ascii_of_N 0.

Section strings.
Variable fails : Z -> mem -> bool.

(** * Creation *)

(** [sizeof( BlangString )] *)
Definition string_size : Z := 32.

Definition string_create (data : ptr) (length : Z) : C nat :=
  s ← malloc_object fails string_size;
  match s with
  | None => die "blang: out of memory allocating string"
  | Some s =>
      n ← i64 (length + 1);
      buf ← malloc fails n;
      if decide (buf = None) then die "blang: out of memory allocating string data"
      else
        c_when (bool_decide (data <> None) && bool_decide (0 < length)%Z) (memcpy buf data length);;
        store_char buf length nul;;
        put_object s (Str (mkString buf length n 1));;
        mret s
  end.

(** The empty string of an argument [""]. *)
Definition empty_string : C nat := string_create None 0.

Definition string_create_static (static_data : ptr) (length : Z) : C nat :=
  s ← malloc_object fails string_size;
  match s with
  | None => die "blang: out of memory allocating string"
  | Some s => put_object s (Str (mkString static_data length 0 1));; mret s
  end.

(** * Reference counting *)

Definition string_retain (s : option nat) : C unit :=
  match s with
  | None => mret tt
  | Some p =>
      s ← get_string p;
      put_object p (Str (mkString (bs_data s) (bs_length s) (bs_capacity s) (s32 (bs_ref_count s + 1))))
  end.

Definition string_release (s : option nat) : C unit :=
  match s with
  | None => mret tt
  | Some p =>
      s ← get_string p;
      let new_count := s32 (bs_ref_count s - 1) in
      put_object p (Str (mkString (bs_data s) (bs_length s) (bs_capacity s) new_count));;
      c_when (bool_decide (new_count <= 0)%Z)
        (c_when (bool_decide (0 < bs_capacity s)%Z) (free (bs_data s));; free_object p)
  end.

(** * Properties and access *)

Definition string_length (s : option nat) : C Z :=
  match s with None => mret 0%Z | Some p => s ← get_string p; mret (bs_length s) end.

Definition string_is_empty (s : option nat) : C bool :=
  match s with None => mret true | Some p => s ← get_string p; mret (bool_decide (bs_length s = 0%Z)) end.

(** What [char_at] and [byte_at] say of an index that is outside. *)
Definition out_of_bounds {A} (what : string) (index length : Z) : C A :=
  die ("blang: string " +:+ what +:+ " out of bounds: index " +:+ pretty index +:+ ", length " +:+ pretty length).

Definition string_char_at (s : option nat) (index : Z) : C ascii :=
  match s with
  | None => out_of_bounds "index" index 0
  | Some p =>
      s ← get_string p;
      if decide (index < 0 \/ bs_length s <= index)%Z then out_of_bounds "index" index (bs_length s)
      else load_char (bs_data s) index
  end.

Definition string_byte_at (s : option nat) (index : Z) : C Z :=
  match s with
  | None => out_of_bounds "byte index" index 0
  | Some p =>
      s ← get_string p;
      if decide (index < 0 \/ bs_length s <= index)%Z then out_of_bounds "byte index" index (bs_length s)
      else c ← load_char (bs_data s) index; mret (Z.of_N (N_of_ascii c))
  end.

Definition string_substring (s : option nat) (start end_ : Z) : C nat :=
  match s with
  | None => empty_string
  | Some p =>
      s ← get_string p;
      let start := if decide (start < 0)%Z then 0%Z else start in
      let end_ := if decide (bs_length s < end_)%Z then bs_length s else end_ in
      if decide (end_ <= start)%Z then empty_string
      else from ← ptr_add (bs_data s) start; n ← i64 (end_ - start); string_create from n
  end.

(** * Search *)

Definition find_substring (haystack : ptr) (haystack_len : Z) (needle : ptr) (needle_len offset : Z) : C Z :=
  if decide (needle_len = 0)%Z then mret offset
  else
    left_ ← i64 (haystack_len - offset);
    if decide (left_ < needle_len)%Z then mret (-1)%Z
    else
      last ← i64 (haystack_len - needle_len);
      r ← c_for offset (last + 1) (fun i =>
        at_ ← ptr_add haystack i;
        c ← memcmp at_ needle needle_len;
        mret (if decide (c = 0%Z) then Some i else None));
      mret (default (-1)%Z r).

Definition string_contains (s needle : option nat) : C bool :=
  match s, needle with
  | Some p, Some q =>
      s ← get_string p;
      n ← get_string q;
      i ← find_substring (bs_data s) (bs_length s) (bs_data n) (bs_length n) 0;
      mret (bool_decide (0 <= i)%Z)
  | _, _ => mret false
  end.

Definition string_starts_with (s prefix : option nat) : C bool :=
  match s, prefix with
  | Some p, Some q =>
      s ← get_string p;
      n ← get_string q;
      if decide (bs_length s < bs_length n)%Z then mret false
      else c ← memcmp (bs_data s) (bs_data n) (bs_length n); mret (bool_decide (c = 0%Z))
  | _, _ => mret false
  end.

Definition string_ends_with (s suffix : option nat) : C bool :=
  match s, suffix with
  | Some p, Some q =>
      s ← get_string p;
      n ← get_string q;
      if decide (bs_length s < bs_length n)%Z then mret false
      else
        at_ ← ptr_add (bs_data s) (bs_length s - bs_length n);
        c ← memcmp at_ (bs_data n) (bs_length n);
        mret (bool_decide (c = 0%Z))
  | _, _ => mret false
  end.

Definition string_index_of (s needle : option nat) : C Z :=
  match s, needle with
  | Some p, Some q =>
      s ← get_string p;
      n ← get_string q;
      find_substring (bs_data s) (bs_length s) (bs_data n) (bs_length n) 0
  | _, _ => mret (-1)%Z
  end.

(** * Transformation *)

(** A copy, each of whose characters is changed in place. *)
Definition string_map (f : ascii -> ascii) (s : option nat) : C nat :=
  match s with
  | None => empty_string
  | Some p =>
      s ← get_string p;
      result ← string_create (bs_data s) (bs_length s);
      r ← get_string result;
      _ ← c_fold 0 (bs_length r) (fun i _ => c ← load_char (bs_data r) i; store_char (bs_data r) i (f c)) tt;
      mret result
  end.

Definition string_to_upper : option nat -> C nat := string_map toupper.
Definition string_to_lower : option nat -> C nat := string_map tolower.

(** [while ( start < end && isspace( data[start] ) ) start++] *)
Definition trim_start (data : ptr) (start end_ : Z) : C Z :=
  r ← c_for start end_ (fun i => c ← load_char data i; mret (if isspace c then None else Some i));
  mret (default (Z.max start end_) r).

(** [while ( end > start && isspace( data[end - 1] ) ) end--] *)
Definition trim_end (data : ptr) (start end_ : Z) : C Z :=
  r ← c_for 0 (end_ - start) (fun k => c ← load_char data (end_ - k - 1); mret (if isspace c then None else Some (end_ - k)%Z));
  mret (default (Z.min start end_) r).

Definition string_trim (s : option nat) : C nat :=
  match s with
  | None => empty_string
  | Some p =>
      s ← get_string p;
      if decide (bs_length s = 0)%Z then empty_string
      else
        start ← trim_start (bs_data s) 0 (bs_length s);
        end_ ← trim_end (bs_data s) start (bs_length s);
        from ← ptr_add (bs_data s) start;
        string_create from (end_ - start)
  end.

(** The first loop of [replace]: how often [old_str] is found. *)
Definition count_pass (s old : BlangString) (v : Z * Z) : C (loop_step (Z * Z) Z) :=
  let '(count, pos) := v in
  pos ← find_substring (bs_data s) (bs_length s) (bs_data old) (bs_length old) pos;
  if decide (0 <= pos)%Z then
    count ← i64 (count + 1);
    pos ← i64 (pos + bs_length old);
    mret (Next (count, pos))
  else mret (Break count).

(** The second: what is copied, from [src] to [dst]. *)
Definition replace_pass (s old new : BlangString) (buf : ptr) (v : Z * Z) : C (loop_step (Z * Z) unit) :=
  let '(src, dst) := v in
  if decide (bs_length s <= src)%Z then mret (Break tt)
  else
    match_ ← find_substring (bs_data s) (bs_length s) (bs_data old) (bs_length old) src;
    if decide (match_ < 0)%Z then
      to ← ptr_add buf dst;
      from ← ptr_add (bs_data s) src;
      memcpy to from (bs_length s - src);;
      mret (Break tt)
    else
      dst ← (if decide (src < match_)%Z then
               to ← ptr_add buf dst;
               from ← ptr_add (bs_data s) src;
               memcpy to from (match_ - src);;
               i64 (dst + (match_ - src))
             else mret dst);
      dst ← (if decide (0 < bs_length new)%Z then
               to ← ptr_add buf dst;
               memcpy to (bs_data new) (bs_length new);;
               i64 (dst + bs_length new)
             else mret dst);
      src ← i64 (match_ + bs_length old);
      mret (Next (src, dst)).

(** The object of a string whose bytes are already there. *)
Definition string_of_buffer (what : string) (buf : ptr) (length : Z) : C nat :=
  s ← malloc_object fails string_size;
  match s with
  | None => free buf;; die ("blang: out of memory in string " +:+ what)
  | Some s => n ← i64 (length + 1); put_object s (Str (mkString buf length n 1));; mret s
  end.

(** A pass of either loop moves on by a byte at least, so that one pass more than
    there are bytes is enough. *)
Definition string_replace (s old_str new_str : option nat) : C nat :=
  match s, old_str, new_str with
  | Some p, Some q, Some r =>
      s ← get_string p;
      old ← get_string q;
      new ← get_string r;
      if decide (bs_length old = 0)%Z then string_create (bs_data s) (bs_length s)
      else
        count ← c_loop (S (S (Z.to_nat (bs_length s)))) (count_pass s old) (0, 0)%Z;
        if decide (count = 0)%Z then string_create (bs_data s) (bs_length s)
        else
          diff ← i64 (bs_length new - bs_length old);
          grown ← i64 (count * diff);
          new_length ← i64 (bs_length s + grown);
          size ← i64 (new_length + 1);
          buf ← malloc fails size;
          if decide (buf = None) then die "blang: out of memory in string replace"
          else
            c_loop (S (S (Z.to_nat (bs_length s)))) (replace_pass s old new buf) (0, 0)%Z;;
            store_char buf new_length nul;;
            string_of_buffer "replace" buf new_length
  | Some p, _, _ => s ← get_string p; string_create (bs_data s) (bs_length s)
  | None, _, _ => empty_string
  end.

(** * Concatenation *)

Definition opt_length (s : option nat) : C Z :=
  match s with Some p => s ← get_string p; mret (bs_length s) | None => mret 0%Z end.

(** The bytes of a string copied to [off], if it has any. *)
Definition append_at (buf : ptr) (off : Z) (s : option nat) (length : Z) : C unit :=
  c_when (bool_decide (0 < length)%Z)
    (match s with
     | Some p => s ← get_string p; to ← ptr_add buf off; memcpy to (bs_data s) length
     | None => c_undefined
     end).

Definition string_concat (a b : option nat) : C nat :=
  a_len ← opt_length a;
  b_len ← opt_length b;
  total ← i64 (a_len + b_len);
  size ← i64 (total + 1);
  buf ← malloc fails size;
  if decide (buf = None) then die "blang: out of memory in string concat"
  else
    append_at buf 0 a a_len;;
    append_at buf a_len b b_len;;
    store_char buf total nul;;
    string_of_buffer "concat" buf total.

Fixpoint total_length (strings : list (option nat)) (total : Z) : C Z :=
  match strings with
  | [] => mret total
  | s :: strings => n ← opt_length s; total ← i64 (total + n); total_length strings total
  end.

Fixpoint append_all (buf : ptr) (strings : list (option nat)) (offset : Z) : C unit :=
  match strings with
  | [] => mret tt
  | s :: strings => n ← opt_length s; append_at buf offset s n;; offset ← i64 (offset + n); append_all buf strings offset
  end.

(** The array of [count] pointers is a list; it is null, or [count] is not positive,
    for the empty one. *)
Definition string_concat_many (strings : list (option nat)) : C nat :=
  if decide (strings = []) then empty_string
  else
    total ← total_length strings 0;
    size ← i64 (total + 1);
    buf ← malloc fails size;
    if decide (buf = None) then die "blang: out of memory in string concat_many"
    else
      append_all buf strings 0;;
      store_char buf total nul;;
      string_of_buffer "concat_many" buf total.

(** * Comparison *)

Definition string_equals (a b : option nat) : C bool :=
  if decide (a = b) then mret true
  else
    match a, b with
    | Some p, Some q =>
        a ← get_string p;
        b ← get_string q;
        if decide (bs_length a <> bs_length b) then mret false
        else c ← memcmp (bs_data a) (bs_data b) (bs_length a); mret (bool_decide (c = 0%Z))
    | _, _ => mret false
    end.

Definition string_equals_cstr (s : option nat) (lit : ptr) (len : Z) : C bool :=
  match s, lit with
  | Some p, Some _ =>
      s ← get_string p;
      if decide (bs_length s <> len) then mret false
      else c ← memcmp (bs_data s) lit len; mret (bool_decide (c = 0%Z))
  | _, _ => mret false
  end.

Definition string_compare (a b : option nat) : C Z :=
  if decide (a = b) then mret 0%Z
  else
    match a, b with
    | None, _ => mret (-1)%Z
    | _, None => mret 1%Z
    | Some p, Some q =>
        a ← get_string p;
        b ← get_string q;
        cmp ← memcmp (bs_data a) (bs_data b) (if decide (bs_length a < bs_length b)%Z then bs_length a else bs_length b);
        if decide (cmp <> 0)%Z then mret (if decide (cmp < 0)%Z then -1 else 1)%Z
        else if decide (bs_length a < bs_length b)%Z then mret (-1)%Z
        else if decide (bs_length b < bs_length a)%Z then mret 1%Z
        else mret 0%Z
    end.

(** * Conversion *)

Definition string_to_cstring (s : option nat) : C ptr :=
  match s with
  | None => empty ← malloc fails 1; c_when (bool_decide (empty <> None)) (store_char empty 0 nul);; mret empty
  | Some p =>
      s ← get_string p;
      size ← i64 (bs_length s + 1);
      buf ← malloc fails size;
      if decide (buf = None) then die "blang: out of memory in string to_cstring"
      else memcpy buf (bs_data s) (bs_length s);; store_char buf (bs_length s) nul;; mret buf
  end.

(** The characters from a place to the next null character. *)
Fixpoint until_null (l : list cell) : option (list ascii) :=
  match l with
  | Some c :: l => if decide (c = nul) then Some [] else rest ← until_null l; Some (c :: rest)
  | _ => None
  end.

Definition load_cstring (p : ptr) : C (list ascii) :=
  match p with
  | None => c_undefined
  | Some (b, off) =>
      blocks ← c_get m_blocks;
      cells ← c_some (blocks !! b);
      if decide (0 <= off)%Z then c_some (until_null (drop (Z.to_nat off) cells)) else c_undefined
  end.

(** The digits a text begins with: their value and how many there are. *)
Fixpoint leading_digits (l : list ascii) (value : Z) (n : nat) : Z * nat :=
  match l with
  | c :: l =>
      if char_between "0" "9" c then leading_digits l (value * 10 + (Z.of_N (N_of_ascii c) - 48))%Z (S n) else (value, n)
  | [] => (value, n)
  end.

Fixpoint leading_spaces (l : list ascii) : nat :=
  match l with c :: l => if isspace c then S (leading_spaces l) else 0 | [] => 0 end.

(** [strtoll( text, &end, 10 )]: the value, cut off at the bounds of the type, and
    how much of the text it takes; nothing of a text that holds no number. *)
Definition strtoll (text : list ascii) : Z * nat :=
  let spaces := leading_spaces text in
  let '(sign, start) :=
    match drop spaces text with
    | c :: _ => if decide (c = "-"%char) then ((-1)%Z, S spaces) else if decide (c = "+"%char) then (1%Z, S spaces) else (1%Z, spaces)
    | [] => (1%Z, spaces)
    end in
  let '(value, n) := leading_digits (drop start text) 0 0 in
  if decide (n = 0) then (0%Z, 0) else (Z.min (2 ^ 63 - 1) (Z.max (- 2 ^ 63) (sign * value)), start + n).

(** The value, and what is stored at [ok]. *)
Definition string_to_int (s : option nat) : C (Z * bool) :=
  let failed := mret (0%Z, false) in
  match s with
  | None => failed
  | Some p =>
      r ← get_string p;
      if decide (bs_length r = 0)%Z then failed
      else
        cstr ← string_to_cstring s;
        text ← load_cstring cstr;
        let '(val, taken) := strtoll text in
        c ← load_char cstr (Z.of_nat taken);
        let success := bool_decide (taken <> 0) && bool_decide (c = nul) in
        free cstr;;
        mret (if success then val else 0%Z, success)
  end.

(** ** Numbers to strings *)

(** A local array, which ends with its function. *)
Definition with_local {A} (size : nat) (body : ptr -> C A) : C A :=
  b ← c_get m_block;
  c_modify (fun m => new_block m (replicate size None));;
  a ← body (Some (b, 0%Z));
  c_modify (fun m => set_blocks m (delete b));;
  mret a.

(** [snprintf]: what fits, and the length of all. *)
Definition snprintf (buf : ptr) (size : nat) (text : list ascii) : C Z :=
  write_cells buf (map Some (take (size - 1) text ++ [nul]));;
  mret (Z.of_nat (length text)).

Definition int_to_string (value : Z) : C nat :=
  with_local 32 (fun buf => len ← snprintf buf 32 (chars (pretty value)); string_create buf len).

Section double.
(** Floating-point numbers, and their text in the formats [%g], [%e] and [%.*f]. *)
Variable double : Type.
Variable format_g format_e : double -> list ascii.
Variable format_f : Z -> double -> list ascii.
(** Zero, and [strtod]: the number a text begins with and how much of the text it takes. *)
Variable zero_double : double.
Variable strtod : list ascii -> double * nat.

Definition string_to_float (s : option nat) : C (double * bool) :=
  let failed := mret (zero_double, false) in
  match s with
  | None => failed
  | Some p =>
      r ← get_string p;
      if decide (bs_length r = 0)%Z then failed
      else
        cstr ← string_to_cstring s;
        text ← load_cstring cstr;
        let '(val, taken) := strtod text in
        c ← load_char cstr (Z.of_nat taken);
        let success := bool_decide (taken <> 0) && bool_decide (c = nul) in
        free cstr;;
        mret (if success then val else zero_double, success)
  end.

Definition float_to_string (value : double) : C nat :=
  with_local 64 (fun buf => len ← snprintf buf 64 (format_g value); string_create buf len).

(** The precision between the point and the [f] of a specifier. *)
Definition precision_of (spec : list ascii) : C Z :=
  match spec with
  | "."%char :: digits =>
      (fix go digits precision :=
         match digits with
         | [] | [_] => mret precision
         | c :: digits =>
             let d := (char_to_int c - 48)%Z in
             if bool_decide (- 2 ^ 31 <= precision * 10 < 2 ^ 31)%Z && bool_decide (- 2 ^ 31 <= precision * 10 + d < 2 ^ 31)%Z
             then go digits (precision * 10 + d)%Z else c_undefined
         end) digits 0%Z
  | _ => mret 6%Z
  end.

Definition float_to_string_fmt (value : double) (spec : list ascii) : C nat :=
  match last spec with
  | None => float_to_string value
  | Some fmt_char =>
      if decide (fmt_char = "e"%char) then
        with_local 128 (fun buf => len ← snprintf buf 128 (format_e value); string_create buf len)
      else if decide (fmt_char = "f"%char) then
        precision ← (if decide (2 <= length spec) then precision_of spec else mret 6%Z);
        with_local 128 (fun buf => len ← snprintf buf 128 (format_f precision value); string_create buf len)
      else float_to_string value
  end.
End double.

(** The two strings are static. *)
Definition bool_to_string (true_text false_text : ptr) (value : bool) : C nat :=
  if value then string_create_static true_text 4 else string_create_static false_text 5.

(** The digits of a number in base [2 ^ bits], the highest first. *)
Fixpoint digits_of (digit : Z -> ascii) (base : Z) (n : nat) (u : Z) (l : list ascii) : list ascii :=
  match n with
  | 0 => l
  | S n =>
      let l := digit (u mod base)%Z :: l in
      if decide (u / base = 0)%Z then l else digits_of digit base n (u / base)%Z l
  end.

Definition hex_char (first : Z) (d : Z) : ascii := ascii_of_N (Z.to_N (if decide (d < 10)%Z then 48 + d else first - 10 + d)).

(** The formats [%llx], [%llX] and [%llo], and the digits of [b], of an [unsigned
    long long]. *)
Definition format_unsigned (fmt_char : ascii) (u : Z) : option (list ascii) :=
  if decide (fmt_char = "x"%char) then Some (digits_of (hex_char 97) 16 16 u [])
  else if decide (fmt_char = "X"%char) then Some (digits_of (hex_char 65) 16 16 u [])
  else if decide (fmt_char = "o"%char) then Some (digits_of (hex_char 97) 8 22 u [])
  else None.

(** [while ( uval > 0 && pos < 64 )], the digits behind those in [tmp]. *)
Fixpoint binary_digits (n : nat) (uval : Z) (tmp : list ascii) : list ascii :=
  match n with
  | 0 => tmp
  | S n =>
      if decide (0 < uval)%Z then binary_digits n (Z.shiftr uval 1) (tmp ++ [if Z.odd uval then "1"%char else "0"%char])
      else tmp
  end.

Definition binary_text (uval : Z) : list ascii :=
  if decide (uval = 0)%Z then ["0"%char] else reverse (binary_digits 64 uval []).

Definition int_to_string_fmt (value : Z) (spec : list ascii) : C nat :=
  match last spec with
  | None => int_to_string value
  | Some fmt_char =>
      match format_unsigned fmt_char (size_t value) with
      | Some text => with_local 128 (fun buf => len ← snprintf buf 128 text; string_create buf len)
      | None =>
          if decide (fmt_char = "b"%char) then
            let text := binary_text (size_t value) in
            with_local 128 (fun buf =>
              write_cells buf (map Some (text ++ [nul]));;
              string_create buf (Z.of_nat (length text)))
          else int_to_string value
      end
  end.

Definition char_to_string (c : Z) : C nat :=
  with_local 5 (fun buf =>
    write_cells buf [Some (if decide (c < 128)%Z then ascii_of_N (Z.to_N (c mod 256)) else ascii_of_N (Z.to_N (c mod 128)))];;
    string_create buf 1).

(** * Output *)

Definition print_string (s : option nat) : C unit :=
  match s with
  | None => mret tt
  | Some p =>
      s ← get_string p;
      if decide (bs_data s = None) then mret tt
      else
        cells ← read_cells (bs_data s) (size_t (bs_length s));
        text ← c_some (mapM id cells);
        c_modify (fun m => mkMem (m_blocks m) (m_block m) (m_objects m) (m_object m) (m_stderr m) (m_stdout m +:+ str text))
  end.

Definition print_cstr (p : ptr) : C unit :=
  if decide (p = None) then mret tt
  else
    text ← load_cstring p;
    c_modify (fun m => mkMem (m_blocks m) (m_block m) (m_objects m) (m_object m) (m_stderr m) (m_stdout m +:+ str text)).

(** What is printed has been written. *)
Definition print_flush : C unit := mret tt.

Definition print_newline : C unit :=
  c_modify (fun m => mkMem (m_blocks m) (m_block m) (m_objects m) (m_object m) (m_stderr m) (m_stdout m +:+ str [newline]));;
  print_flush.
End strings.
