(* ===== verification/RuntimeStringLogic.v ===== *)
(** How the string functions of the run-time library read and build texts. *)

From S2P Require Import Prelude RuntimeMemory RuntimeString.

(** * What memory holds *)

(** A text lies at a place. *)
Definition reads (m : mem) (p : ptr) (l : list ascii) : Prop :=
  exists b off cells, p = Some (b, off) /\ m_blocks m !! b = Some cells /\
    range off (Z.of_nat (length l)) cells = Some (map Some l).

(** An object is a string of that text. *)
Definition is_string (m : mem) (p : nat) (l : list ascii) : Prop :=
  exists s, m_objects m !! p = Some (Str s) /\ bs_length s = Z.of_nat (length l) /\
    (Z.of_nat (length l) < 2 ^ 63 - 1)%Z /\ reads m (bs_data s) l.

(** The numbers of new blocks and objects are not in use. *)
Definition fresh (m : mem) : Prop :=
  (forall b, m_block m <= b -> m_blocks m !! b = None) /\ (forall p, m_object m <= p -> m_objects m !! p = None).

(** [m'] is [m] with a new block, which holds [cells]. *)
Record with_block (m : mem) (b : nat) (cells : list cell) (m' : mem) : Prop := {
  wb_new : m_blocks m !! b = None;
  wb_blocks : m_blocks m' = <[b := cells]> (m_blocks m);
  wb_objects : m_objects m' = m_objects m;
  wb_object : m_object m' = m_object m;
  wb_stderr : m_stderr m' = m_stderr m;
  wb_stdout : m_stdout m' = m_stdout m;
  wb_fresh : fresh m'
}.

(** [m'] is [m] with a new string of its own, and nothing else. *)
Record new_string (m : mem) (p : nat) (l : list ascii) (m' : mem) : Prop := {
  ns_new : m_objects m !! p = None;
  ns_block : exists b, m_blocks m !! b = None /\
    m_blocks m' = <[b := map Some l ++ [Some nul]]> (m_blocks m) /\
    m_objects m' = <[p := Str (mkString (Some (b, 0%Z)) (Z.of_nat (length l)) (Z.of_nat (length l) + 1) 1)]> (m_objects m);
  ns_stderr : m_stderr m' = m_stderr m;
  ns_stdout : m_stdout m' = m_stdout m;
  ns_fresh : fresh m'
}.

Lemma range_map off n (l : list ascii) k :
  range off n (map Some l) = Some k -> k = map Some (take (Z.to_nat n) (drop (Z.to_nat off) l)).
Proof. unfold range. case_decide; [|done]. intros [= <-]. by rewrite <-firstn_map, <-skipn_map. Qed.

Lemma reads_sub m p l i n :
  reads m p l -> i + n <= length l ->
  exists b off, p = Some (b, off) /\ reads m (Some (b, (off + Z.of_nat i)%Z)) (take n (drop i l)) /\
    exists cells, m_blocks m !! b = Some cells /\ (0 <= off)%Z /\ (off + Z.of_nat (length l) <= Z.of_nat (length cells))%Z.
Proof.
  intros (b & off & cells & -> & Hb & Hr) Hn. exists b, off. split; [done|]. unfold range in Hr. case_decide as Hd; [|done].
  injection Hr as Hr. rewrite Nat2Z.id in Hr.
  assert (length (take n (drop i l)) = n) as Hlen by (rewrite length_take, length_drop; lia).
  split.
  - exists b, (off + Z.of_nat i)%Z, cells. split; [done|]. split; [done|]. rewrite Hlen.
    rewrite range_spec by lia. f_equal. rewrite <-firstn_map, <-skipn_map, <-Hr, Nat2Z.id.
    rewrite skipn_firstn_comm, take_take, drop_drop. f_equal; [lia|]. f_equal. lia.
  - exists cells. split; [done|]. lia.
Qed.

Lemma reads_other m b cells m' p l : with_block m b cells m' -> reads m p l -> reads m' p l.
Proof.
  intros H (b' & off & c & -> & Hb & Hr). exists b', off, c. split; [done|]. split; [|done].
  rewrite (wb_blocks _ _ _ _ H), lookup_insert_ne; [done|]. intros <-. by rewrite (wb_new _ _ _ _ H) in Hb.
Qed.

Lemma reads_block m b cells m' p l b' off :
  with_block m b cells m' -> reads m p l -> p = Some (b', off) -> b <> b'.
Proof. intros H (b'' & off' & c & -> & Hb & _) [= -> ->] <-. by rewrite (wb_new _ _ _ _ H) in Hb. Qed.

(** * What the string functions do with memory *)

Section logic.
Variable fails : Z -> mem -> bool.

(** The program exits when an allocation fails, and only then. *)
Definition out_of_memory (code : Z) (m : mem) : Prop := code = 1%Z /\ exists size m', fails size m' = true.
Notation X := out_of_memory.

Lemma cwp_die {A} msg (Q : A -> mem -> Prop) m :
  (exists size m', fails size m' = true) -> cwp X (die msg) Q m.
Proof. intros H. by split. Qed.

Lemma cwp_allocate size cells m (Q : ptr -> mem -> Prop) :
  fresh m ->
  (forall b m', with_block m b cells m' -> Q (Some (b, 0%Z)) m') ->
  ((exists size m', fails size m' = true) -> Q None m) ->
  cwp X (allocate fails size cells) Q m.
Proof.
  intros [Hb Ho] HQ HN. unfold cwp, allocate. destruct (fails _ _) eqn:E; [apply HN; eauto|].
  apply HQ. split; try done; [by apply Hb|]. split; [|done].
  intros b Hle. cbn in *. rewrite lookup_insert_ne by lia. apply Hb. lia.
Qed.

Lemma cwp_malloc size m (Q : ptr -> mem -> Prop) :
  fresh m ->
  (forall b m', with_block m b (replicate (Z.to_nat (size_t size)) None) m' -> Q (Some (b, 0%Z)) m') ->
  ((exists size m', fails size m' = true) -> Q None m) ->
  cwp X (malloc fails size) Q m.
Proof. apply cwp_allocate. Qed.

Lemma cwp_malloc_object size m (Q : option nat -> mem -> Prop) :
  fresh m ->
  (forall m', m_blocks m' = m_blocks m -> m_objects m' = m_objects m -> m_stderr m' = m_stderr m -> m_stdout m' = m_stdout m ->
     m_objects m !! m_object m = None -> fresh m' -> m_object m' = S (m_object m) -> Q (Some (m_object m)) m') ->
  ((exists size m', fails size m' = true) -> Q None m) ->
  cwp X (malloc_object fails size) Q m.
Proof.
  intros [Hb Ho] HQ HN. unfold cwp, malloc_object. destruct (fails _ _) eqn:E; [apply HN; eauto|].
  apply HQ; try done; [by apply Ho|]. split; [done|]. intros p Hp. cbn in *. apply Ho. lia.
Qed.

(** A text copied behind what a new block holds. *)
Lemma cwp_append m b w n p l m1 (Q : unit -> mem -> Prop) :
  with_block m b (map Some w ++ replicate n None) m1 -> reads m p l -> length l <= n ->
  (forall m2, with_block m b (map Some (w ++ l) ++ replicate (n - length l) None) m2 -> Q tt m2) ->
  cwp X (memcpy (Some (b, Z.of_nat (length w))) p (Z.of_nat (length l))) Q m1.
Proof.
  intros H Hr Hn HQ. pose proof (reads_other _ _ _ _ _ _ H Hr) as (b' & off & c & -> & Hb & Hc).
  pose proof (reads_block _ _ _ _ _ _ b' off H Hr eq_refl) as Hne.
  unfold memcpy, overlap. rewrite bool_decide_false by naive_solver.
  apply cwp_bind. eapply cwp_read; [done|exact Hc|]. pose proof (wb_blocks _ _ _ _ H) as Hbl.
  eapply cwp_write; [by rewrite Hbl, lookup_insert_eq|lia|rewrite length_app, !length_map, length_replicate; lia|].
  apply HQ. destruct H as [Hnew _ Ho Hc' He Hout [Hf1 Hf2]]. split; try done.
  - cbn. rewrite Hbl, insert_insert_eq. f_equal. unfold overwrite. rewrite Nat2Z.id, !length_map.
    rewrite take_app_le, take_ge by (rewrite length_map; lia). rewrite map_app, <-app_assoc. do 2 f_equal.
    rewrite drop_app_ge by (rewrite length_map; lia). rewrite length_map, drop_replicate. f_equal. lia.
  - split; [|done]. intros b'' Hle. cbn. rewrite lookup_insert_ne; [by apply Hf1|].
    intros <-. specialize (Hf1 b Hle). by rewrite Hbl, lookup_insert_eq in Hf1.
Qed.

(** The same, at a place that is computed. *)
Lemma cwp_append_at m b w n p l m1 (Q : unit -> mem -> Prop) :
  with_block m b (map Some w ++ replicate n None) m1 -> reads m p l -> length l <= n ->
  (forall m2, with_block m b (map Some (w ++ l) ++ replicate (n - length l) None) m2 -> Q tt m2) ->
  cwp X (to ← ptr_add (Some (b, 0%Z)) (Z.of_nat (length w)); memcpy to p (Z.of_nat (length l))) Q m1.
Proof.
  intros H Hr Hn HQ. apply cwp_bind.
  eapply cwp_add; [by rewrite (wb_blocks _ _ _ _ H), lookup_insert_eq|rewrite length_app, length_map, length_replicate; lia|].
  rewrite Z.add_0_l. by eapply cwp_append.
Qed.

(** The null character behind a text. *)
Lemma cwp_terminate m b l m1 (Q : unit -> mem -> Prop) :
  with_block m b (map Some l ++ [None]) m1 ->
  (forall m2, with_block m b (map Some l ++ [Some nul]) m2 -> Q tt m2) ->
  cwp X (store_char (Some (b, 0%Z)) (Z.of_nat (length l)) nul) Q m1.
Proof.
  intros H HQ. pose proof (wb_blocks _ _ _ _ H) as Hbl.
  apply cwp_bind. eapply cwp_add; [by rewrite Hbl, lookup_insert_eq|rewrite length_app, length_map; cbn; lia|].
  eapply cwp_write; [by rewrite Hbl, lookup_insert_eq|lia|rewrite length_app, length_map; cbn; lia|].
  apply HQ. destruct H as [Hnew _ Ho Hc' He Hout [Hf1 Hf2]]. split; try done.
  - cbn. rewrite Hbl, insert_insert_eq. f_equal. unfold overwrite. rewrite Z.add_0_l, Nat2Z.id.
    rewrite take_app_le, take_ge by (rewrite length_map; lia). f_equal. rewrite drop_ge; [done|].
    rewrite length_app, length_map. cbn. lia.
  - split; [|done]. intros b'' Hle. cbn. rewrite lookup_insert_ne; [by apply Hf1|].
    intros <-. specialize (Hf1 b Hle). by rewrite Hbl, lookup_insert_eq in Hf1.
Qed.

(** The object of a text that has been built. *)
Lemma new_string_put m b l m1 m2 p :
  with_block m b (map Some l ++ [Some nul]) m1 -> m_objects m !! p = None -> p < m_object m2 ->
  m_blocks m2 = m_blocks m1 -> m_objects m2 = m_objects m1 -> m_stderr m2 = m_stderr m1 -> m_stdout m2 = m_stdout m1 -> fresh m2 ->
  new_string m p l (set_objects m2 (<[p := Str (mkString (Some (b, 0%Z)) (Z.of_nat (length l)) (Z.of_nat (length l) + 1) 1)]>)).
Proof.
  intros [Hnew Hbl Ho _ He Hout Hf] Hp Hlt Hb2 Ho2 He2 Hout2 [Hf1 Hf2].
  split; cbn; [done|exists b; by rewrite Hb2, Ho2, Ho|congruence..|].
  split; [done|]. intros p' Hle. cbn in *. rewrite lookup_insert_ne by lia. by apply Hf2.
Qed.

Lemma string_of_buffer_new what m b l m1 :
  with_block m b (map Some l ++ [Some nul]) m1 -> (Z.of_nat (length l) < 2 ^ 63 - 1)%Z ->
  cwp X (string_of_buffer fails what (Some (b, 0%Z)) (Z.of_nat (length l))) (fun p m' => new_string m p l m') m1.
Proof.
  intros H Hl. apply cwp_bind, cwp_malloc_object; [by destruct H| |].
  - intros m2 Hb2 Ho2 He2 Hout2 Hp Hf Hs. apply cwp_bind, cwp_i64; [lia|]. apply cwp_bind, cwp_put, cwp_ret.
    eapply new_string_put; try done; [|lia]. by rewrite <-(wb_objects _ _ _ _ H).
  - intros HX. apply cwp_bind. unfold free. apply cwp_bind, cwp_get, cwp_bind.
    eapply cwp_some; [by rewrite (wb_blocks _ _ _ _ H), lookup_insert_eq|]. cbn [decide]. by apply cwp_die.
Qed.


(** [create] makes a string of the text it is given. *)
Lemma string_create_new m p l :
  fresh m -> l = [] \/ reads m p l -> (Z.of_nat (length l) < 2 ^ 63 - 1)%Z ->
  cwp X (string_create fails p (Z.of_nat (length l))) (fun q m' => new_string m q l m') m.
Proof.
  intros Hf Hp Hl. apply cwp_bind, cwp_malloc_object; [done| |intros; by apply cwp_die].
  intros m1 Hb1 Ho1 He1 Hout1 Hnew Hf1 Hs. apply cwp_bind, cwp_i64; [lia|].
  apply cwp_bind, cwp_malloc; [done| |intros HX; by apply cwp_die].
  intros b m2 H2. rewrite size_t_small in H2 by lia. rewrite decide_False by done.
  replace (Z.to_nat (Z.of_nat (length l) + 1)) with (length l + 1) in H2 by lia.
  assert (with_block m1 b (map Some ([] : list ascii) ++ replicate (length l + 1) None) m2) as H by done.
  apply cwp_bind. eapply (cwp_mono _ _ (fun _ => with_block m1 b (map Some l ++ [None]))).
  { destruct l as [|c l']; cbn [length].
    - unfold c_when. rewrite andb_false_r. by apply cwp_ret.
    - destruct Hp as [?|Hp]; [done|]. assert (reads m1 p (c :: l')) as Hr1.
      { destruct Hp as (b' & off & cells & -> & Hb & Hr). exists b', off, cells. by rewrite Hb1. }
      unfold c_when. rewrite !bool_decide_true; [|lia|by destruct Hp as (? & ? & ? & -> & _)]. cbn [andb].
      eapply (cwp_append _ _ [] _ _ (c :: l') _ _ H Hr1); [cbn; lia|]. intros m3 H3. cbn [app] in H3.
      by replace (length (c :: l') + 1 - length (c :: l')) with 1 in H3 by lia. }
  intros [] m3 H3. apply cwp_bind. eapply cwp_terminate; [exact H3|]. intros m4 H4.
  apply cwp_bind, cwp_put, cwp_ret. destruct H4 as [Hn4 Hb4 Ho4 Hc4 He4 Hout4 [Hf41 Hf42]].
  rewrite Hb1 in Hn4, Hb4. rewrite Ho1 in Ho4.
  split; [done|exists b; by rewrite <-Hb4, <-Ho4|cbn; congruence..|].
  split; [done|]. intros p' Hle. cbn in *. rewrite lookup_insert_ne by lia. eauto.
Qed.

Lemma empty_string_new m : fresh m -> cwp X (empty_string fails) (fun q m' => new_string m q [] m') m.
Proof. intros Hf. apply (string_create_new _ _ []); [done|by left|cbn; lia]. Qed.

(** A block is replaced by a larger one. *)
Lemma cwp_realloc b old n m (Q : ptr -> mem -> Prop) :
  fresh m -> m_blocks m !! b = Some old -> length old <= n -> (Z.of_nat n < 2 ^ 63)%Z ->
  (forall nb m', m_blocks m !! nb = None -> m_blocks m' = <[nb := old ++ replicate (n - length old) None]> (delete b (m_blocks m)) ->
     m_objects m' = m_objects m -> m_object m' = m_object m -> m_stderr m' = m_stderr m -> m_stdout m' = m_stdout m -> fresh m' ->
     Q (Some (nb, 0%Z)) m') ->
  ((exists size m', fails size m' = true) -> Q None m) ->
  cwp X (realloc fails (Some (b, 0%Z)) (Z.of_nat n)) Q m.
Proof.
  intros Hf Hb Hlen Hn HQ HN. unfold realloc. apply cwp_bind, cwp_get, cwp_bind. eapply cwp_some; [exact Hb|].
  rewrite decide_True by done. rewrite size_t_small, Nat2Z.id, resize_ge by lia.
  apply cwp_bind, cwp_allocate; [done| |intros HX; by apply cwp_ret, HN].
  intros nb m1 [Hnb Hbl1 Hobj1 Hcnt He1 Ho1 [Hf1 Hf2]]. assert (nb <> b) as Hne by (intros ->; by rewrite Hb in Hnb).
  apply cwp_bind. unfold free. apply cwp_bind, cwp_get, cwp_bind.
  eapply cwp_some; [by rewrite Hbl1, lookup_insert_ne|]. rewrite decide_True by done. apply cwp_modify, cwp_ret.
  apply HQ; try done; cbn [set_blocks m_blocks].
  - by rewrite Hbl1, delete_insert_ne.
  - split; [|done]. intros b' Hle. cbn [set_blocks m_blocks m_block] in *. rewrite lookup_delete_None. right. by apply Hf1.
Qed.

(** ** Reading *)

Lemma cwp_memcmp m p q a b (Q : Z -> mem -> Prop) :
  reads m p a -> reads m q b -> length a = length b -> Q (compare_bytes a b) m ->
  cwp X (memcmp p q (Z.of_nat (length a))) Q m.
Proof.
  intros (b1 & o1 & c1 & -> & Hb1 & Hr1) (b2 & o2 & c2 & -> & Hb2 & Hr2) Hl HQ. rewrite <-Hl in Hr2.
  apply cwp_bind. eapply cwp_read; [done|exact Hr1|]. apply cwp_bind. eapply cwp_read; [done|exact Hr2|].
  assert (forall l : list ascii, mapM id (map Some l) = Some l) as Hm.
  { intros l. induction l as [|c l IH]; [done|]. cbn. by rewrite IH. }
  apply cwp_bind. eapply cwp_some; [apply Hm|]. apply cwp_bind. eapply cwp_some; [apply Hm|]. by apply cwp_ret.
Qed.

Lemma cwp_load m p l i c (Q : ascii -> mem -> Prop) :
  reads m p l -> l !! i = Some c -> Q c m -> cwp X (load_char p (Z.of_nat i)) Q m.
Proof.
  intros Hr Hi HQ. pose proof (lookup_lt_Some _ _ _ Hi) as Hlt.
  destruct (reads_sub m p l i 1 Hr ltac:(lia)) as (b & off & -> & Hs & cells & Hb & H0 & Hl).
  destruct Hs as (b' & off' & cells' & [= <- <-] & Hb' & Hs). rewrite Hb in Hb'. injection Hb' as <-.
  assert (take 1 (drop i l) = [c]) as Ht by (by rewrite (drop_S l c i), take_S_r with (x := c) by done).
  rewrite Ht in Hs. apply cwp_bind. eapply cwp_add; [done|lia|]. apply cwp_bind. eapply cwp_read; [done|exact Hs|].
  by apply cwp_ret.
Qed.

(** A pointer into a text, in any memory that holds it. *)
Lemma cwp_add_text m p l i n (Q : ptr -> mem -> Prop) :
  reads m p l -> i + n <= length l ->
  (forall q, (forall m', reads m' p l -> reads m' q (take n (drop i l))) -> Q q m) ->
  cwp X (ptr_add p (Z.of_nat i)) Q m.
Proof.
  intros Hr Hi HQ. destruct (reads_sub m p l i n Hr Hi) as (b & off & -> & Hs & cells & Hb & H0 & Hl).
  eapply cwp_add; [done|lia|]. apply HQ. intros m' Hr'.
  by destruct (reads_sub m' _ l i n Hr' Hi) as (b' & off' & [= <- <-] & Hs' & _).
Qed.

Lemma compare_bytes_eq a : forall b, compare_bytes a b = 0%Z <-> a = b.
Proof.
  induction a as [|c a IH]; intros [|d b]; cbn; [done..|]. case_decide as Hc.
  - subst. rewrite IH. split; [by intros ->|by intros [= ->]].
  - case_decide; split; [done|congruence|done|congruence].
Qed.

(** ** Searching *)

(** Where a text first occurs. *)
Fixpoint occurs (needle l : list ascii) : option nat :=
  if decide (take (length needle) l = needle) then Some 0
  else match l with [] => None | _ :: l' => S <$> occurs needle l' end.

Definition index_from (needle hay : list ascii) (off : nat) : Z :=
  if decide (needle = []) then Z.of_nat off
  else match occurs needle (drop off hay) with Some k => Z.of_nat (off + k) | None => -1 end.

Lemma index_from_text needle hay off :
  needle <> [] -> index_from needle hay off = match occurs needle (drop off hay) with Some k => Z.of_nat (off + k) | None => (-1)%Z end.
Proof. intros H. unfold index_from. by rewrite decide_False. Qed.

Lemma occurs_short needle l : length l < length needle -> occurs needle l = None.
Proof.
  induction l as [|c l IH]; intros H; cbn [occurs]; rewrite decide_False.
  - done.
  - intros E. apply (f_equal length) in E. rewrite length_take in E. lia.
  - rewrite IH; [done|]. cbn in H. lia.
  - intros E. apply (f_equal length) in E. rewrite length_take in E. lia.
Qed.

Lemma occurs_bound needle l k : occurs needle l = Some k -> k + length needle <= length l.
Proof.
  revert k. induction l as [|c l IH]; intros k; cbn [occurs]; case_decide as Hd.
  - intros [= <-]. apply (f_equal length) in Hd. rewrite length_take in Hd. lia.
  - done.
  - intros [= <-]. apply (f_equal length) in Hd. rewrite length_take in Hd. cbn in *. lia.
  - destruct (occurs needle l) as [j|] eqn:E; [|done]. intros [= <-]. specialize (IH j eq_refl). cbn. lia.
Qed.

Lemma find_passes m h hay n needle : reads m h hay -> reads m n needle -> forall count off,
  length needle <> 0 -> off + count + length needle = length hay + 1 ->
  cwp X (c_for_passes count (Z.of_nat off) (fun i =>
    at_ ← ptr_add h i;
    c ← memcmp at_ n (Z.of_nat (length needle));
    mret (if decide (c = 0%Z) then Some i else None)))
    (fun r m' => m' = m /\ r = (fun k => Z.of_nat (off + k)) <$> occurs needle (drop off hay)) m.
Proof.
  intros Hh Hn count. induction count as [|count IH]; intros off H0 Hc; cbn [c_for_passes].
  - apply cwp_ret. split; [done|]. rewrite occurs_short; [done|]. rewrite length_drop. lia.
  - apply cwp_bind, cwp_bind. eapply (cwp_add_text m h hay off (length needle)); [done|lia|]. intros q Hq. specialize (Hq m Hh).
    assert (length (take (length needle) (drop off hay)) = length needle) as Hlen by (rewrite length_take, length_drop; lia).
    apply cwp_bind. rewrite <-Hlen at 1. eapply cwp_memcmp; [done|done|done|]. apply cwp_ret.
    destruct (drop off hay) as [|c rest] eqn:E; [apply (f_equal length) in E; rewrite length_drop in E; cbn in E; lia|].
    cbn [occurs]. rewrite (decide_ext _ (take (length needle) (c :: rest) = needle)) by apply compare_bytes_eq.
    case_decide; [apply cwp_ret; split; [done|]; cbn; by rewrite Nat.add_0_r|].
    replace (Z.of_nat off + 1)%Z with (Z.of_nat (S off)) by lia.
    eapply cwp_mono; [apply IH; lia|]. intros r m' [-> ->]. split; [done|].
    assert (drop (S off) hay = rest) as -> by (rewrite <-Nat.add_1_r, <-drop_drop, E; done).
    rewrite <-option_fmap_compose. destruct (occurs needle rest); [|done]. cbn. f_equal. lia.
Qed.

Lemma cwp_find m h hay n needle off (Q : Z -> mem -> Prop) :
  reads m h hay -> reads m n needle -> (Z.of_nat (length hay) < 2 ^ 63)%Z -> (Z.of_nat (length needle) < 2 ^ 63)%Z ->
  (Z.of_nat off < 2 ^ 63)%Z -> Q (index_from needle hay off) m ->
  cwp X (find_substring h (Z.of_nat (length hay)) n (Z.of_nat (length needle)) (Z.of_nat off)) Q m.
Proof.
  intros Hh Hn Hl1 Hl2 Hl3 HQ. unfold find_substring. unfold index_from in HQ. destruct (decide (needle = [])) as [->|Hz].
  - by rewrite decide_True.
  - assert (length needle <> 0) as Hn0 by (by intros ?%nil_length_inv). rewrite decide_False by lia.
    apply cwp_bind, cwp_i64; [lia|]. case_decide as Hlt.
    + apply cwp_ret. rewrite occurs_short in HQ by (rewrite length_drop; lia). done.
    + apply cwp_bind, cwp_i64; [lia|]. apply cwp_bind.
      eapply cwp_mono; [apply (find_passes _ _ _ _ _ Hh Hn); lia|]. intros r m' [-> ->]. apply cwp_ret.
      destruct (occurs needle (drop off hay)); exact HQ.
Qed.
End logic.
