(* ===== verification/RuntimeStringTheorems.v ===== *)
(** The functions of the run-time library on strings, as operations on texts. *)

From S2P Require Import Prelude RuntimeMemory RuntimeString RuntimeStringLogic.

(** * Operations on texts *)

Definition sub_text (start end_ : Z) (l : list ascii) : list ascii :=
  let start := Z.max 0 start in
  let end_ := Z.min (Z.of_nat (length l)) end_ in
  take (Z.to_nat (end_ - start)) (drop (Z.to_nat start) l).

Definition trim_text (l : list ascii) : list ascii :=
  let l := drop (leading_spaces l) l in
  take (length l - leading_spaces (reverse l)) l.

(** Occurrences are replaced from left to right, and none overlaps another; [skip]
    characters belong to the last one. *)
Fixpoint replace_from (old new : list ascii) (skip : nat) (l : list ascii) : list ascii :=
  match l, skip with
  | [], _ => []
  | _ :: l', S skip => replace_from old new skip l'
  | c :: l', 0 =>
      if decide (take (length old) (c :: l') = old) then new ++ replace_from old new (length old - 1) l'
      else c :: replace_from old new 0 l'
  end.

Fixpoint count_from (old : list ascii) (skip : nat) (l : list ascii) : nat :=
  match l, skip with
  | [], _ => 0
  | _ :: l', S skip => count_from old skip l'
  | c :: l', 0 =>
      if decide (take (length old) (c :: l') = old) then S (count_from old (length old - 1) l')
      else count_from old 0 l'
  end.

Definition replace_text (old new l : list ascii) : list ascii := if decide (old = []) then l else replace_from old new 0 l.

(** ** Replacing, occurrence by occurrence *)

Lemma replace_skip old new l : forall k, replace_from old new k l = replace_from old new 0 (drop k l).
Proof. induction l as [|c l IH]; intros [|k]; try done. cbn. by rewrite IH. Qed.

Lemma count_skip old l : forall k, count_from old k l = count_from old 0 (drop k l).
Proof. induction l as [|c l IH]; intros [|k]; try done. cbn. by rewrite IH. Qed.

Lemma replace_next old new l k :
  old <> [] -> occurs old l = Some k ->
  replace_from old new 0 l = take k l ++ new ++ replace_from old new 0 (drop (k + length old) l) /\
  count_from old 0 l = S (count_from old 0 (drop (k + length old) l)).
Proof.
  intros Ho. revert k. induction l as [|c l IH]; intros k.
  - cbn. case_decide as Hd; [|done]. rewrite take_nil in Hd. by subst.
  - cbn [occurs]. case_decide as Hd.
    + intros [= <-]. cbn [replace_from count_from]. rewrite !decide_True by done. cbn [take app Nat.add].
      rewrite replace_skip, count_skip. destruct old as [|o old]; [done|]. cbn [length drop]. by rewrite Nat.sub_succ, Nat.sub_0_r.
    + destruct (occurs old l) as [j|] eqn:E; [|done]. intros [= <-]. destruct (IH j eq_refl) as [IH1 IH2].
      cbn [replace_from count_from]. rewrite !decide_False by done. by rewrite IH1, IH2.
Qed.

Lemma replace_none old new l : occurs old l = None -> replace_from old new 0 l = l /\ count_from old 0 l = 0.
Proof.
  induction l as [|c l IH]; [done|]. cbn [occurs]. case_decide as Hd; [done|].
  destruct (occurs old l); [done|]. intros _. cbn [replace_from count_from]. rewrite !decide_False by done.
  destruct IH as [-> ->]; done.
Qed.

Lemma replace_length old new l :
  old <> [] -> length (replace_from old new 0 l) + count_from old 0 l * length old = length l + count_from old 0 l * length new.
Proof.
  intros Ho. remember (length l) as n eqn:Hn. revert l Hn. induction n as [n IH] using lt_wf_ind. intros l ->.
  destruct (occurs old l) as [k|] eqn:E.
  - destruct (replace_next old new l k Ho E) as [-> ->]. pose proof (occurs_bound _ _ _ E) as Hk.
    assert (length old <> 0) by (by intros ?%nil_length_inv).
    specialize (IH (length (drop (k + length old) l)) ltac:(rewrite length_drop; lia) _ eq_refl).
    rewrite !length_app, length_take. rewrite length_drop in IH. lia.
  - destruct (replace_none old new l E) as [-> ->]. lia.
Qed.

(** * Strings in memory *)

Lemma new_string_is_string m p l m' : new_string m p l m' -> (Z.of_nat (length l) < 2 ^ 63 - 1)%Z -> is_string m' p l.
Proof.
  intros [_ (b & _ & Hb & Ho) _ _ _] Hl. eexists. split; [by rewrite Ho, lookup_insert_eq|]. split; [done|]. split; [done|].
  exists b, 0%Z, (map Some l ++ [Some nul]). split; [done|]. split; [by rewrite Hb, lookup_insert_eq|].
  rewrite range_spec by (rewrite ?length_app, ?length_map; lia).
  by rewrite Nat2Z.id, drop_0, take_app_le, take_ge by (by rewrite length_map).
Qed.

(** A new string leaves the others, so that operations can be composed. *)
Lemma is_string_kept m q t m' p l : new_string m q t m' -> is_string m p l -> is_string m' p l.
Proof.
  intros [Hn (b & Hnb & Hb & Ho) _ _ _] (s & Hs & Hlen & Hfit & b' & off & cells & Hd & Hb' & Hr).
  exists s. split; [rewrite Ho, lookup_insert_ne; [done|]; intros ->; by rewrite Hn in Hs|]. split; [done|]. split; [done|].
  exists b', off, cells. split; [done|]. split; [|done]. rewrite Hb, lookup_insert_ne; [done|]. intros ->. by rewrite Hnb in Hb'.
Qed.

(** A memory without anything, and one with another string. *)
Definition empty_memory : mem := mkMem ∅ 0 ∅ 0 "" "".

Definition put_text (l : list ascii) (m : mem) : mem :=
  set_objects (new_object (new_block m (map Some l ++ [Some nul])))
    (<[m_object m := Str (mkString (Some (m_block m, 0%Z)) (Z.of_nat (length l)) (Z.of_nat (length l) + 1) 1)]>).

Lemma empty_memory_fresh : fresh empty_memory.
Proof. by split. Qed.

Lemma put_text_new l m : fresh m -> new_string m (m_object m) l (put_text l m).
Proof.
  intros [Hb Ho]. split; [by apply Ho|exists (m_block m); split; [by apply Hb|done]|done..|].
  split; cbn; intros k Hk; rewrite lookup_insert_ne by lia; [apply Hb|apply Ho]; lia.
Qed.

Lemma put_text_fresh l m : fresh m -> fresh (put_text l m).
Proof. intros H. exact (ns_fresh _ _ _ _ (put_text_new l m H)). Qed.

(** * Operations on strings *)

Section theorems.
Variable fails : Z -> mem -> bool.
Notation X := (out_of_memory fails).

(** An argument that is a string, or null. *)
Definition is_arg (m : mem) (s : option nat) (t : option (list ascii)) : Prop :=
  match s, t with Some p, Some l => is_string m p l | None, None => True | _, _ => False end.

Definition fits (l : list ascii) : Prop := (Z.of_nat (length l) < 2 ^ 63 - 1)%Z.

Lemma substring_new m p l start end_ :
  fresh m -> is_string m p l ->
  cwp X (string_substring fails (Some p) start end_) (fun q m' => new_string m q (sub_text start end_ l) m') m.
Proof.
  intros Hf (s & Hs & Hlen & Hfit & Hr). apply cwp_bind. eapply cwp_string; [done|]. cbn zeta.
  replace (if decide (start < 0)%Z then 0%Z else start) with (Z.max 0 start) by (case_decide; lia).
  replace (if decide (bs_length s < end_)%Z then bs_length s else end_) with (Z.min (Z.of_nat (length l)) end_)
    by (rewrite Hlen; case_decide; lia).
  unfold sub_text. set (a := Z.max 0 start) in *. set (b := Z.min _ end_) in *. case_decide.
  - replace (Z.to_nat (b - a)) with 0 by lia. by apply empty_string_new.
  - apply cwp_bind. rewrite <-(Z2Nat.id a) at 1 by lia.
    eapply (cwp_add_text _ _ _ _ _ (Z.to_nat (b - a))); [done|lia|]. intros q Hq. specialize (Hq m Hr). apply cwp_bind, cwp_i64; [lia|].
    replace (b - a)%Z with (Z.of_nat (length (take (Z.to_nat (b - a)) (drop (Z.to_nat a) l)))) at 1
      by (rewrite length_take, length_drop; lia).
    apply string_create_new; [done|by right|]. rewrite length_take, length_drop. lia.
Qed.

(** A character of a new string is changed. *)
Lemma cwp_change m p s a c d c' m1 (Q : unit -> mem -> Prop) :
  new_string m p (a ++ c :: d) m1 -> m_objects m1 !! p = Some (Str s) ->
  (forall m2, new_string m p (a ++ c' :: d) m2 -> m_objects m2 !! p = Some (Str s) -> Q tt m2) ->
  cwp X (store_char (bs_data s) (Z.of_nat (length a)) c') Q m1.
Proof.
  intros [Hn (b & Hnew & Hb & Ho) He Hout [Hf1 Hf2]] Hs HQ.
  pose proof Hs as Hs'. rewrite Ho, lookup_insert_eq in Hs'. injection Hs' as <-. cbn [bs_data].
  apply cwp_bind. eapply cwp_add; [by rewrite Hb, lookup_insert_eq|rewrite length_app, length_map, length_app; cbn; lia|].
  eapply cwp_write; [by rewrite Hb, lookup_insert_eq|lia|rewrite length_app, length_map, length_app; cbn; lia|].
  rewrite Z.add_0_l, Nat2Z.id. unfold overwrite. rewrite map_app, <-app_assoc.
  rewrite take_app_le, take_ge by (rewrite length_map; lia).
  rewrite drop_app_ge by (rewrite length_map; cbn; lia). rewrite length_map. cbn [length].
  rewrite Nat.add_comm, Nat.add_sub. cbn [map app drop].
  apply HQ; [|done]. split; [done|exists b|done..|].
  - split; [done|]. split; [cbn [set_blocks m_blocks]|cbn [set_blocks m_objects]; rewrite Ho, !length_app; done].
    rewrite Hb, insert_insert_eq, map_app, <-app_assoc. done.
  - split; [|done]. intros b' Hle. cbn [set_blocks m_blocks m_block] in *. rewrite lookup_insert_ne; [by apply Hf1|].
    intros <-. specialize (Hf1 b Hle). by rewrite Hb, lookup_insert_eq in Hf1.
Qed.

Lemma new_string_reads m p l m1 s : new_string m p l m1 -> m_objects m1 !! p = Some (Str s) -> reads m1 (bs_data s) l.
Proof.
  intros [Hn (b & Hnew & Hb & Ho) He Hout _] Hs. rewrite Ho, lookup_insert_eq in Hs. injection Hs as <-. cbn.
  exists b, 0%Z, (map Some l ++ [Some nul]). split; [done|]. split; [by rewrite Hb, lookup_insert_eq|].
  rewrite range_spec by (rewrite ?length_app, ?length_map; lia). by rewrite Nat2Z.id, drop_0, take_app_le, take_ge
    by (by rewrite length_map).
Qed.

Lemma map_new m p l f :
  fresh m -> is_string m p l ->
  cwp X (string_map fails f (Some p)) (fun q m' => new_string m q (map f l) m') m.
Proof.
  intros Hf (s & Hs & Hlen & Hfit & Hr). apply cwp_bind. eapply cwp_string; [done|]. rewrite Hlen.
  apply cwp_bind. eapply cwp_mono; [by apply string_create_new; [|right|]|]. intros q m1 H1.
  assert (exists r, m_objects m1 !! q = Some (Str r) /\ bs_length r = Z.of_nat (length l)) as (r & Hq & Hrl).
  { destruct H1 as [_ (b & _ & _ & Ho) _ _ _]. rewrite Ho, lookup_insert_eq. eauto. }
  apply cwp_bind. eapply cwp_string; [done|]. rewrite Hrl. apply cwp_bind.
  eapply (cwp_fold _ (fun i _ m' => new_string m q (map f (take i l) ++ drop i l) m' /\ m_objects m' !! q = Some (Str r))).
  - intros i [] m' Hi [HI Ho]. destruct (lookup_lt_is_Some_2 l i Hi) as [c Hc].
    assert (drop i l = c :: drop (S i) l) as Hd by (by apply drop_S). rewrite Hd in HI.
    assert (length (map f (take i l)) = i) as Hli by (rewrite length_map, length_take; lia).
    apply cwp_bind. eapply cwp_load; [by eapply new_string_reads| |].
    + by apply list_lookup_middle.
    + rewrite <-Hli at 1. eapply cwp_change; [done..|]. intros m2 H2 Ho2. split; [|done].
      by rewrite (take_S_r _ _ _ Hc), map_app, <-app_assoc.
  - by rewrite take_0, drop_0.
  - intros [] m' [HI _]. apply cwp_ret. by rewrite take_ge, drop_ge, app_nil_r in HI by lia.
Qed.

(** ** Trimming *)

Lemma spaces_passes m (w : list ascii) (g : nat -> Z) body :
  (forall i c Q, w !! i = Some c -> Q (if isspace c then None else Some (g i)) m -> cwp X (body (Z.of_nat i)) Q m) ->
  forall count i, i + count = length w ->
  cwp X (c_for_passes count (Z.of_nat i) body)
    (fun r m' => m' = m /\ r = if decide (leading_spaces (drop i w) = count) then None else Some (g (i + leading_spaces (drop i w)))) m.
Proof.
  intros Hbody count. induction count as [|count IH]; intros i Hi; cbn [c_for_passes].
  - apply cwp_ret. by rewrite drop_ge by lia.
  - destruct (lookup_lt_is_Some_2 w i ltac:(lia)) as [c Hc]. rewrite (drop_S _ _ _ Hc). cbn [leading_spaces].
    apply cwp_bind. eapply Hbody; [done|]. destruct (isspace c).
    + replace (Z.of_nat i + 1)%Z with (Z.of_nat (S i)) by lia. eapply cwp_mono; [apply IH; lia|].
      intros r m' [-> ->]. split; [done|]. replace (i + S _) with (S i + leading_spaces (drop (S i) w)) by lia.
      repeat case_decide; done || lia.
    + apply cwp_ret. by rewrite Nat.add_0_r.
Qed.

Lemma leading_spaces_le l : leading_spaces l <= length l.
Proof. induction l as [|c l IH]; cbn; [done|]. destruct (isspace c); lia. Qed.

Lemma trim_new m p l :
  fresh m -> is_string m p l -> cwp X (string_trim fails (Some p)) (fun q m' => new_string m q (trim_text l) m') m.
Proof.
  intros Hf (s & Hs & Hlen & Hfit & Hr). apply cwp_bind. eapply cwp_string; [done|]. rewrite Hlen. case_decide as Hz.
  { assert (l = []) as -> by (apply nil_length_inv; lia). by apply empty_string_new. }
  pose proof (leading_spaces_le l) as Hle. set (i := leading_spaces l) in *. set (w := drop i l).
  assert (length w = length l - i) as Hw by (unfold w; by rewrite length_drop).
  apply cwp_bind, cwp_bind. unfold c_for. replace (Z.to_nat (Z.of_nat (length l) - 0)) with (length l) by lia.
  eapply cwp_mono.
  { refine (spaces_passes m l Z.of_nat _ _ (length l) 0 eq_refl). intros j c Q Hj HQ. apply cwp_bind.
    eapply cwp_load; [done..|]. by apply cwp_ret. }
  intros r m' [-> ->]. rewrite drop_0. fold i. apply cwp_ret.
  replace (default _ _) with (Z.of_nat i) by (case_decide; cbn; lia).
  apply cwp_bind, cwp_bind. unfold c_for. replace (Z.to_nat (Z.of_nat (length l) - Z.of_nat i - 0)) with (length w) by lia.
  pose proof (leading_spaces_le (reverse w)) as Hle'. rewrite length_reverse in Hle'. set (j := leading_spaces (reverse w)) in *.
  eapply cwp_mono.
  { refine (spaces_passes m (reverse w) (fun k => Z.of_nat (length l) - Z.of_nat k)%Z _ _ (length w) 0 _); [|by rewrite length_reverse].
    intros k c Q Hk HQ. apply cwp_bind. rewrite reverse_lookup_Some in Hk. destruct Hk as [Hk Hlt].
    replace (Z.of_nat (length l) - Z.of_nat k - 1)%Z with (Z.of_nat (i + (length w - S k))) by lia.
    eapply cwp_load; [done|unfold w in Hk; rewrite lookup_drop in Hk; exact Hk|]. by apply cwp_ret. }
  intros r m' [-> ->]. rewrite drop_0. fold j. apply cwp_ret.
  replace (default _ _) with (Z.of_nat (length l) - Z.of_nat j)%Z by (case_decide; cbn; lia).
  apply cwp_bind. eapply (cwp_add_text _ _ _ _ _ (length w - j)); [done|lia|]. intros q Hq. specialize (Hq m Hr).
  unfold trim_text. fold i w j.
  replace (Z.of_nat (length l) - Z.of_nat j - Z.of_nat i)%Z with (Z.of_nat (length (take (length w - j) w)))
    by (rewrite length_take; lia).
  apply string_create_new; [done|by right|]. rewrite length_take. lia.
Qed.

(** ** Replacing *)

Lemma count_le old l : old <> [] -> count_from old 0 l <= length l.
Proof.
  intros Ho. pose proof (replace_length old [] l Ho) as H. assert (length old <> 0) by (by intros ?%nil_length_inv).
  assert (count_from old 0 l * 1 <= count_from old 0 l * length old) by (apply Nat.mul_le_mono_l; lia). cbn [length] in H. lia.
Qed.

Lemma count_loop m s o l old :
  reads m (bs_data s) l -> bs_length s = Z.of_nat (length l) -> fits l ->
  reads m (bs_data o) old -> bs_length o = Z.of_nat (length old) -> fits old -> old <> [] ->
  cwp X (c_loop (S (S (length l))) (count_pass s o) (0, 0)%Z)
    (fun count m' => m' = m /\ count = Z.of_nat (count_from old 0 l)) m.
Proof.
  intros Hr Hlen Hfit Hro Hleno Hfito Ho. pose proof (count_le old l Ho) as Hcount. unfold fits in *.
  assert (length old <> 0) as Ho0 by (by intros ?%nil_length_inv).
  eapply (cwp_loop _ (fun n v m' => m' = m /\ exists c p, v = (Z.of_nat c, Z.of_nat p) /\ p + n = length l /\
    c + count_from old 0 (drop p l) = count_from old 0 l)); [|split; [done|exists 0, 0; by rewrite drop_0]|lia].
  intros n [? ?] m' (-> & c & p & [= -> ->] & Hn & Hc). unfold count_pass. rewrite Hlen, Hleno.
  apply cwp_bind. eapply cwp_find; [done..|lia|lia|lia|]. rewrite index_from_text by done.
  destruct (occurs old (drop p l)) as [k|] eqn:E.
  - pose proof (occurs_bound _ _ _ E) as Hk. rewrite length_drop in Hk. destruct (replace_next old [] _ _ Ho E) as [_ Hnext].
    rewrite Hnext, drop_drop in Hc. rewrite decide_True by lia. apply cwp_bind, cwp_i64; [lia|]. apply cwp_bind, cwp_i64; [lia|].
    apply cwp_ret. exists (n - (k + length old)). split; [lia|]. split; [done|]. exists (S c), (p + (k + length old)).
    split; [f_equal; lia|]. split; lia.
  - destruct (replace_none old [] _ E) as [_ Hnone]. rewrite decide_False by lia. apply cwp_ret. split; [done|lia].
Qed.

(** A range of a text copied behind what a new block holds, if it is not empty. *)
Lemma cwp_copy_part m b w n p l i k m1 :
  with_block m b (map Some w ++ replicate n None) m1 -> reads m p l -> i + k <= length l -> k <= n ->
  cwp X (to ← ptr_add (Some (b, 0%Z)) (Z.of_nat (length w)); from ← ptr_add p (Z.of_nat i); memcpy to from (Z.of_nat k))
    (fun _ => with_block m b (map Some (w ++ take k (drop i l)) ++ replicate (n - k) None)) m1.
Proof.
  intros H Hr Hi Hk. apply cwp_bind.
  eapply cwp_add; [by rewrite (wb_blocks _ _ _ _ H), lookup_insert_eq|rewrite length_app, length_map, length_replicate; lia|].
  rewrite Z.add_0_l. apply cwp_bind. eapply (cwp_add_text _ _ _ _ _ k); [by eapply reads_other|done|]. intros q Hq.
  assert (length (take k (drop i l)) = k) as Hlen by (rewrite length_take, length_drop; lia). rewrite <-Hlen at 1.
  eapply cwp_append; [done|by apply Hq|lia|]. intros m2. by rewrite Hlen.
Qed.

Section replace.
Variables (m : mem) (s o r : BlangString) (l old new : list ascii) (b : nat).
Hypotheses (Hr : reads m (bs_data s) l) (Hlen : bs_length s = Z.of_nat (length l)) (Hfit : fits l).
Hypotheses (Hro : reads m (bs_data o) old) (Hleno : bs_length o = Z.of_nat (length old)) (Hfito : fits old).
Hypotheses (Hrn : reads m (bs_data r) new) (Hlenn : bs_length r = Z.of_nat (length new)).
Hypotheses (Ho : old <> []) (Hfits : fits (replace_from old new 0 l)).
Let result : list ascii := replace_from old new 0 l.

(** Before a pass: what is written and what is made of the rest are the result. *)
Record replacing (n : nat) (v : Z * Z) (m1 : mem) (i : nat) (w : list ascii) : Prop := {
  rp_place : v = (Z.of_nat i, Z.of_nat (length w));
  rp_left : i + n = length l;
  rp_block : with_block m b (map Some w ++ replicate (length result + 1 - length w) None) m1;
  rp_result : w ++ replace_from old new 0 (drop i l) = result
}.

Lemma copied k i w m1 :
  with_block m b (map Some w ++ replicate (length result + 1 - length w) None) m1 ->
  length w + k <= length result -> i + k <= length l ->
  cwp X (if decide (Z.of_nat i < Z.of_nat (i + k))%Z then
           to ← ptr_add (Some (b, 0%Z)) (Z.of_nat (length w));
           from ← ptr_add (bs_data s) (Z.of_nat i);
           memcpy to from (Z.of_nat (i + k) - Z.of_nat i);;
           i64 (Z.of_nat (length w) + (Z.of_nat (i + k) - Z.of_nat i))
         else mret (Z.of_nat (length w)))
    (fun dst m' => dst = Z.of_nat (length (w ++ take k (drop i l))) /\
      with_block m b (map Some (w ++ take k (drop i l)) ++ replicate (length result + 1 - length (w ++ take k (drop i l))) None) m') m1.
Proof.
  intros H Hw Hi. assert (length (take k (drop i l)) = k) as Hk by (rewrite length_take, length_drop; lia).
  unfold fits in *. fold result in Hfits. rewrite length_app, Hk in *. case_decide.
  - pose proof (cwp_copy_part m b w _ (bs_data s) l i k m1 H Hr Hi ltac:(lia)) as Hc.
    apply cwp_bind. apply cwp_bind_inv in Hc. eapply cwp_mono; [exact Hc|]. intros to m' Hc'. clear Hc.
    apply cwp_bind. apply cwp_bind_inv in Hc'. eapply cwp_mono; [exact Hc'|]. intros from m'' Hc''. clear Hc'.
    apply cwp_bind. replace (Z.of_nat (i + k) - Z.of_nat i)%Z with (Z.of_nat k) by lia.
    eapply cwp_mono; [exact Hc''|]. intros [] m3 H3. apply cwp_i64; [lia|]. split; [lia|].
    by replace (length result + 1 - (length w + k)) with (length result + 1 - length w - k) by lia.
  - assert (k = 0) as -> by lia. apply cwp_ret. split; [lia|]. by rewrite take_0, app_nil_r, Nat.add_0_r.
Qed.

Lemma inserted w m1 :
  with_block m b (map Some w ++ replicate (length result + 1 - length w) None) m1 -> length w + length new <= length result ->
  cwp X (if decide (0 < bs_length r)%Z then
           to ← ptr_add (Some (b, 0%Z)) (Z.of_nat (length w));
           memcpy to (bs_data r) (bs_length r);;
           i64 (Z.of_nat (length w) + bs_length r)
         else mret (Z.of_nat (length w)))
    (fun dst m' => dst = Z.of_nat (length (w ++ new)) /\ with_block m b (map Some (w ++ new) ++ replicate (length result + 1 - length (w ++ new)) None) m') m1.
Proof.
  intros H Hw. unfold fits in *. fold result in Hfits. rewrite Hlenn, length_app in *. case_decide.
  - assert (cwp X (to ← ptr_add (Some (b, 0%Z)) (Z.of_nat (length w)); memcpy to (bs_data r) (Z.of_nat (length new)))
      (fun _ m' => with_block m b (map Some (w ++ new) ++ replicate (length result + 1 - (length w + length new)) None) m') m1) as Hc.
    { eapply cwp_append_at; [done..|lia|]. intros m' Hm'.
      by replace (length result + 1 - (length w + length new)) with (length result + 1 - length w - length new) by lia. }
    apply cwp_bind. apply cwp_bind_inv in Hc. eapply cwp_mono; [exact Hc|]. intros to m' Hc'.
    apply cwp_bind. eapply cwp_mono; [exact Hc'|]. intros [] m'' Hm. apply cwp_i64; [lia|]. split; [lia|done].
  - assert (new = []) as Hnew by (apply nil_length_inv; lia). apply cwp_ret. rewrite Hnew. split; [cbn; lia|]. by rewrite app_nil_r, Nat.add_0_r.
Qed.

Lemma replace_step n v m1 i w :
  replacing n v m1 i w ->
  cwp X (replace_pass s o r (Some (b, 0%Z)) v)
    (fun step m' => match step with
       | Next v' => exists n', n' < n /\ exists i' w', replacing n' v' m' i' w'
       | Break _ => with_block m b (map Some result ++ [None]) m' end) m1.
Proof.
  intros [-> Hn Hb Hres]. assert (length old <> 0) as Ho0 by (by intros ?%nil_length_inv). unfold replace_pass. rewrite Hlen, Hleno.
  case_decide.
  { apply cwp_ret. rewrite drop_ge, app_nil_r in Hres by lia. subst w. by rewrite Nat.add_comm, Nat.add_sub in Hb. }
  unfold fits in *. pose proof (f_equal length Hres) as Hreslen. rewrite length_app in Hreslen. fold result in Hfits.
  apply cwp_bind. eapply cwp_find; [by eapply reads_other|by eapply reads_other|lia|lia|lia|]. rewrite index_from_text by done.
  destruct (occurs old (drop i l)) as [k|] eqn:E.
  - pose proof (occurs_bound _ _ _ E) as Hk. rewrite length_drop in Hk.
    destruct (replace_next old new _ _ Ho E) as [Hnext _]. rewrite Hnext in Hres, Hreslen. rewrite !length_app, drop_drop in *.
    assert (length (take k (drop i l)) = k) as Hlk by (rewrite length_take, length_drop; lia).
    rewrite decide_False by lia. apply cwp_bind.
    eapply cwp_mono; [apply (copied k i w m1 Hb); lia|]. cbv beta. intros dst m2 [-> H2].
    apply cwp_bind. eapply cwp_mono; [apply (inserted _ _ H2); rewrite length_app; lia|]. cbv beta.
    intros dst m3 [-> H3]. apply cwp_bind, cwp_i64; [lia|]. apply cwp_ret.
    exists (n - (k + length old)). split; [lia|]. exists (i + (k + length old)), ((w ++ take k (drop i l)) ++ new).
    split; [f_equal; lia|lia|done|]. by rewrite <-Hres, <-!app_assoc.
  - destruct (replace_none old new _ E) as [Hnone _]. rewrite Hnone in Hres, Hreslen. rewrite length_drop in Hreslen.
    rewrite decide_True by lia. replace (Z.of_nat (length l) - Z.of_nat i)%Z with (Z.of_nat (length l - i)) by lia.
    pose proof (cwp_copy_part m b w _ (bs_data s) l i (length l - i) m1 Hb Hr ltac:(lia) ltac:(lia)) as Hc.
    apply cwp_bind. apply cwp_bind_inv in Hc. eapply cwp_mono; [exact Hc|]. intros to m' Hc'. clear Hc.
    apply cwp_bind. apply cwp_bind_inv in Hc'. eapply cwp_mono; [exact Hc'|]. intros from m'' Hc''. clear Hc'.
    apply cwp_bind. eapply cwp_mono; [exact Hc''|]. intros [] m3 H3. apply cwp_ret.
    rewrite take_ge in H3 by (rewrite length_drop; lia). rewrite Hres in H3.
    by replace (length result + 1 - length w - (length l - i)) with 1 in H3 by lia.
Qed.
End replace.

Lemma replace_new m p q t l old new :
  fresh m -> is_string m p l -> is_string m q old -> is_string m t new -> fits (replace_text old new l) ->
  cwp X (string_replace fails (Some p) (Some q) (Some t)) (fun u m' => new_string m u (replace_text old new l) m') m.
Proof.
  intros Hf (s & Hs & Hlen & Hfit & Hr) (o & Ho & Hleno & Hfito & Hro) (r & Hrs & Hlenn & Hfitn & Hrn) Hres.
  unfold replace_text in *. apply cwp_bind. eapply cwp_string; [done|]. apply cwp_bind. eapply cwp_string; [done|].
  apply cwp_bind. eapply cwp_string; [done|]. destruct (decide (old = [])) as [->|Hold].
  { rewrite decide_True by done. rewrite Hlen. by apply string_create_new; [|right|]. }
  assert (length old <> 0) as Ho0 by (by intros ?%nil_length_inv). rewrite decide_False by lia.
  apply cwp_bind. rewrite Hlen at 1. rewrite Nat2Z.id. eapply cwp_mono; [by eapply count_loop|]. intros count m' [-> ->].
  case_decide as Hc.
  { assert (occurs old l = None) as Hnone.
    { destruct (occurs old l) as [k|] eqn:E; [|done]. destruct (replace_next old new l k Hold E) as [_ E']. lia. }
    destruct (replace_none old new l Hnone) as [-> _]. rewrite Hlen. by apply string_create_new; [|right|]. }
  pose proof (replace_length old new l Hold) as Hrl. pose proof (count_le old l Hold) as Hcl. unfold fits in *.
  set (result := replace_from old new 0 l) in *. set (c := count_from old 0 l) in *.
  assert (Z.of_nat c * (Z.of_nat (length new) - Z.of_nat (length old)) = Z.of_nat (length result) - Z.of_nat (length l))%Z as Hgrown.
  { rewrite Z.mul_sub_distr_l, <-!Nat2Z.inj_mul. lia. }
  rewrite Hleno, Hlenn. apply cwp_bind, cwp_i64; [lia|]. rewrite Hgrown. apply cwp_bind, cwp_i64; [lia|]. rewrite Hlen.
  replace (Z.of_nat (length l) + (Z.of_nat (length result) - Z.of_nat (length l)))%Z with (Z.of_nat (length result)) by lia.
  apply cwp_bind, cwp_i64; [lia|]. apply cwp_bind, cwp_i64; [lia|].
  apply cwp_bind, cwp_malloc; [done| |intros HX; by apply cwp_die]. intros b m1 H1. rewrite size_t_small in H1 by lia.
  replace (Z.to_nat (Z.of_nat (length result) + 1)) with (length result + 1) in H1 by lia. rewrite decide_False by done.
  apply cwp_bind. rewrite Nat2Z.id.
  eapply cwp_mono.
  { eapply (cwp_loop _ (fun n v m' => exists i w, replacing m l old new b n v m' i w) (fun _ => with_block m b (map Some result ++ [None]))).
    - intros n v m' (i & w & HI). by eapply replace_step.
    - exists 0, []. split; [done|apply Nat.add_0_l|by rewrite Nat.sub_0_r|by rewrite drop_0].
    - lia. }
  intros [] m2 H2. apply cwp_bind. eapply cwp_terminate; [exact H2|]. intros m3 H3. by apply string_of_buffer_new.
Qed.
(** ** Concatenation *)

Lemma is_string_other m b cells m' p l : with_block m b cells m' -> is_string m p l -> is_string m' p l.
Proof.
  intros H (s & Hs & Hlen & Hfit & Hr). exists s. split; [by rewrite (wb_objects _ _ _ _ H)|]. split; [done|]. split; [done|].
  by eapply reads_other.
Qed.

Lemma is_arg_other m b cells m' s t : with_block m b cells m' -> is_arg m s t -> is_arg m' s t.
Proof. intros H. destruct s, t; try done. by apply is_string_other with b cells. Qed.

Definition arg_text (t : option (list ascii)) : list ascii := default [] t.

Lemma cwp_opt_length m s t (Q : Z -> mem -> Prop) :
  is_arg m s t -> Q (Z.of_nat (length (arg_text t))) m -> cwp X (opt_length s) Q m.
Proof.
  destruct s as [p|], t as [l|]; try done. intros (s & Hs & Hlen & _ & _) HQ. cbn in *. rewrite <-Hlen in HQ.
  apply cwp_bind. by eapply cwp_string.
Qed.

Lemma cwp_append_arg m b w n s t m1 (Q : unit -> mem -> Prop) :
  with_block m b (map Some w ++ replicate n None) m1 -> is_arg m s t -> length (arg_text t) <= n ->
  (forall m2, with_block m b (map Some (w ++ arg_text t) ++ replicate (n - length (arg_text t)) None) m2 -> Q tt m2) ->
  cwp X (append_at (Some (b, 0%Z)) (Z.of_nat (length w)) s (Z.of_nat (length (arg_text t)))) Q m1.
Proof.
  intros H Hs Hn HQ. unfold append_at, c_when. case_bool_decide as Hpos.
  - destruct s as [p|], t as [l|]; try done. cbn in *. pose proof (is_string_other _ _ _ _ _ _ H Hs) as (s & Hp & _ & _ & _).
    destruct Hs as (s' & Hs & Hlen & Hfit & Hr). pose proof Hp as Hp'. rewrite (wb_objects _ _ _ _ H), Hs in Hp'.
    injection Hp' as ->. apply cwp_bind. eapply cwp_string; [done|]. by eapply cwp_append_at.
  - apply cwp_ret, HQ. assert (arg_text t = []) as Ht by (apply nil_length_inv; lia). rewrite Ht. cbn.
    by rewrite app_nil_r, Nat.sub_0_r.
Qed.

Lemma concat_new m a b t u :
  fresh m -> is_arg m a t -> is_arg m b u -> fits (arg_text t ++ arg_text u) ->
  cwp X (string_concat fails a b) (fun q m' => new_string m q (arg_text t ++ arg_text u) m') m.
Proof.
  intros Hf Ha Hb Hfit. pose proof Hfit as Hsum. unfold fits in Hsum. rewrite length_app in Hsum.
  apply cwp_bind. eapply cwp_opt_length; [done|]. apply cwp_bind. eapply cwp_opt_length; [done|].
  apply cwp_bind, cwp_i64; [lia|]. apply cwp_bind, cwp_i64; [lia|].
  apply cwp_bind, cwp_malloc; [done| |intros HX; by apply cwp_die]. intros d m1 H1. rewrite size_t_small in H1 by lia.
  replace (Z.to_nat _) with (length (arg_text t ++ arg_text u) + 1) in H1 by (rewrite length_app; lia). rewrite decide_False by done.
  apply cwp_bind. eapply (cwp_append_arg m d [] _ a t); [exact H1|done|rewrite length_app; lia|]. intros m2 H2. rewrite app_nil_l in H2.
  apply cwp_bind. eapply cwp_append_arg; [exact H2|done|rewrite length_app; lia|]. intros m3 H3.
  replace (_ - _ - _) with 1 in H3 by (rewrite length_app; lia).
  replace (Z.of_nat (length (arg_text t)) + Z.of_nat (length (arg_text u)))%Z with (Z.of_nat (length (arg_text t ++ arg_text u)))
    by (rewrite length_app; lia).
  apply cwp_bind. eapply cwp_terminate; [exact H3|]. intros m4 H4. by apply string_of_buffer_new.
Qed.

Lemma cwp_total m l t : Forall2 (is_arg m) l t -> forall n (Q : Z -> mem -> Prop),
  (Z.of_nat (n + length (concat (map arg_text t))) < 2 ^ 63)%Z ->
  Q (Z.of_nat (n + length (concat (map arg_text t)))) m -> cwp X (total_length l (Z.of_nat n)) Q m.
Proof.
  induction 1 as [|s u l t Hs _ IH]; intros n Q Hn HQ; cbn [total_length map concat] in *.
  - rewrite Nat.add_0_r in HQ. by apply cwp_ret.
  - rewrite length_app in *. apply cwp_bind. eapply cwp_opt_length; [done|]. apply cwp_bind, cwp_i64; [lia|].
    rewrite <-Nat2Z.inj_add. apply IH; by rewrite <-Nat.add_assoc.
Qed.

Lemma cwp_append_all m b l t : Forall2 (is_arg m) l t -> forall w n m1 (Q : unit -> mem -> Prop),
  with_block m b (map Some w ++ replicate n None) m1 -> length (concat (map arg_text t)) <= n ->
  (Z.of_nat (length w + n) < 2 ^ 63)%Z ->
  (forall m2, with_block m b (map Some (w ++ concat (map arg_text t)) ++ replicate (n - length (concat (map arg_text t))) None) m2 -> Q tt m2) ->
  cwp X (append_all (Some (b, 0%Z)) l (Z.of_nat (length w))) Q m1.
Proof.
  induction 1 as [|s u l t Hs _ IH]; intros w n m1 Q H Hn Hw HQ; cbn [append_all map concat] in *.
  - apply cwp_ret, HQ. cbn. by rewrite app_nil_r, Nat.sub_0_r.
  - rewrite length_app in *. apply cwp_bind. eapply cwp_opt_length; [by eapply is_arg_other|].
    apply cwp_bind. eapply cwp_append_arg; [done|done|lia|]. intros m2 H2. apply cwp_bind, cwp_i64; [lia|].
    rewrite <-Nat2Z.inj_add, <-length_app. eapply IH; [exact H2|lia|rewrite length_app; lia|]. intros m3 H3. apply HQ.
    rewrite app_assoc. by rewrite Nat.sub_add_distr.
Qed.

Lemma concat_many_new m l t :
  fresh m -> Forall2 (is_arg m) l t -> fits (concat (map arg_text t)) ->
  cwp X (string_concat_many fails l) (fun q m' => new_string m q (concat (map arg_text t)) m') m.
Proof.
  intros Hf Hl Hfit. unfold fits in *. unfold string_concat_many. case_decide as Hz.
  { subst l. inversion Hl. by apply empty_string_new. }
  apply cwp_bind. eapply (cwp_total m l t Hl 0); [cbn; lia|]. apply cwp_bind, cwp_i64; [cbn; lia|].
  apply cwp_bind, cwp_malloc; [done| |intros HX; by apply cwp_die]. intros d m1 H1. rewrite size_t_small in H1 by (cbn; lia).
  replace (Z.to_nat _) with (length (concat (map arg_text t)) + 1) in H1 by (cbn; lia). rewrite decide_False by done.
  apply cwp_bind. eapply (cwp_append_all m d l t Hl []); [exact H1|lia|cbn; lia|]. intros m2 H2. rewrite app_nil_l in H2.
  replace (_ + 1 - _) with 1 in H2 by lia. rewrite Nat.add_0_l.
  apply cwp_bind. eapply cwp_terminate; [exact H2|]. intros m3 H3. by apply string_of_buffer_new.
Qed.
(** ** The operations that make a string *)

Lemma copy_new m p l :
  fresh m -> is_string m p l ->
  cwp X (s ← get_string p; string_create fails (bs_data s) (bs_length s)) (fun q m' => new_string m q l m') m.
Proof.
  intros Hf (s & Hs & Hlen & Hfit & Hr). apply cwp_bind. eapply cwp_string; [done|]. rewrite Hlen.
  by apply string_create_new; [|right|].
Qed.
End theorems.

(** An operation on arguments that are pointers, or the texts they point to. *)
Inductive string_op (A : Type) :=
  | OpSubstring (s : A) (start end_ : Z)
  | OpUpper (s : A)
  | OpLower (s : A)
  | OpTrim (s : A)
  | OpReplace (s old new : A)
  | OpConcat (a b : A)
  | OpConcatMany (l : list A).
Arguments OpSubstring {A}.
Arguments OpUpper {A}.
Arguments OpLower {A}.
Arguments OpTrim {A}.
Arguments OpReplace {A}.
Arguments OpConcat {A}.
Arguments OpConcatMany {A}.

Definition run_op (fails : Z -> mem -> bool) (op : string_op (option nat)) : C nat :=
  match op with
  | OpSubstring s start end_ => string_substring fails s start end_
  | OpUpper s => string_to_upper fails s
  | OpLower s => string_to_lower fails s
  | OpTrim s => string_trim fails s
  | OpReplace s old new => string_replace fails s old new
  | OpConcat a b => string_concat fails a b
  | OpConcatMany l => string_concat_many fails l
  end.

(** What it means on texts; a null argument is no text. *)
Definition text_op (op : string_op (option (list ascii))) : list ascii :=
  match op with
  | OpSubstring s start end_ => sub_text start end_ (arg_text s)
  | OpUpper s => map toupper (arg_text s)
  | OpLower s => map tolower (arg_text s)
  | OpTrim s => trim_text (arg_text s)
  | OpReplace s (Some old) (Some new) => replace_text old new (arg_text s)
  | OpReplace s _ _ => arg_text s
  | OpConcat a b => arg_text a ++ arg_text b
  | OpConcatMany l => concat (map arg_text l)
  end.

Definition same_op (m : mem) (op : string_op (option nat)) (t : string_op (option (list ascii))) : Prop :=
  match op, t with
  | OpSubstring s i j, OpSubstring t i' j' => is_arg m s t /\ i = i' /\ j = j'
  | OpUpper s, OpUpper t | OpLower s, OpLower t | OpTrim s, OpTrim t => is_arg m s t
  | OpReplace s old new, OpReplace t u v => is_arg m s t /\ is_arg m old u /\ is_arg m new v
  | OpConcat a b, OpConcat t u => is_arg m a t /\ is_arg m b u
  | OpConcatMany l, OpConcatMany t => Forall2 (is_arg m) l t
  | _, _ => False
  end.

(** C29. The run-time strings refine texts: on strings in memory, or null pointers,
    an operation whose result fits its length ends, without an access outside a live
    block or to a byte that is not initialised and without an overflow, and makes one
    new string, the operation's meaning on the texts, with its own memory; nothing
    else in memory changes. It stops the program only when an allocation fails. *)
Theorem string_operations_refine fails m op t :
  fresh m -> same_op m op t -> fits (text_op t) ->
  cwp (out_of_memory fails) (run_op fails op) (fun p m' => new_string m p (text_op t) m') m.
Proof.
  intros Hf Hs Hfit. destruct op, t; cbn [same_op run_op text_op] in *; try done.
  - destruct Hs as (Hs & <- & <-). destruct s as [p|], s0 as [l|]; try done; [by apply substring_new|].
    unfold sub_text. cbn [arg_text default]. rewrite drop_nil, take_nil. by apply empty_string_new.
  - destruct s as [p|], s0 as [l|]; try done; [by apply map_new|by apply empty_string_new].
  - destruct s as [p|], s0 as [l|]; try done; [by apply map_new|by apply empty_string_new].
  - destruct s as [p|], s0 as [l|]; try done; [by apply trim_new|by apply empty_string_new].
  - destruct Hs as (Hs & Ho & Hn).
    destruct s as [p|], s0 as [l|]; try done; destruct old as [q|], old0 as [o|]; try done;
      destruct new as [r|], new0 as [n|]; try done; try (by apply copy_new); try (by apply empty_string_new).
    + by apply replace_new.
    + assert (replace_text o n [] = []) as Hnil by (unfold replace_text; by case_decide).
      cbn [arg_text default]. rewrite Hnil. by apply empty_string_new.
  - destruct Hs as [Ha Hb]. by apply concat_new.
  - by apply concat_many_new.
Qed.

(** Two texts in memory. *)
Definition two_texts (a b : string) : mem := put_text (chars b) (put_text (chars a) empty_memory).

Lemma two_texts_fresh a b : fresh (two_texts a b).
Proof. apply put_text_fresh, put_text_fresh, empty_memory_fresh. Qed.

Lemma two_texts_strings a b :
  (Z.of_nat (String.length a) < 2 ^ 63 - 1)%Z -> (Z.of_nat (String.length b) < 2 ^ 63 - 1)%Z ->
  is_string (two_texts a b) 0 (chars a) /\ is_string (two_texts a b) 1 (chars b).
Proof.
  intros Ha Hb. rewrite <-!length_chars in *. assert (fresh (put_text (chars a) empty_memory)) as Hf by apply put_text_fresh, empty_memory_fresh.
  split.
  - eapply is_string_kept; [exact (put_text_new (chars b) _ Hf)|].
    eapply new_string_is_string; [exact (put_text_new (chars a) _ empty_memory_fresh)|done].
  - eapply new_string_is_string; [exact (put_text_new (chars b) _ Hf)|done].
Qed.

Definition no_failure (size : Z) (m : mem) : bool := false.

Lemma string_operations_refine_witness :
  text_op (OpReplace (Some (chars "a-b--c")) (Some (chars "-")) (Some (chars "-"))) = chars "a-b--c" /\
  cwp (out_of_memory no_failure) (run_op no_failure (OpReplace (Some 0) (Some 1) (Some 1)))
    (fun p m' => new_string (two_texts "a-b--c" "-") p (text_op (OpReplace (Some (chars "a-b--c")) (Some (chars "-")) (Some (chars "-")))) m')
    (two_texts "a-b--c" "-").
Proof.
  destruct (two_texts_strings "a-b--c" "-" ltac:(done) ltac:(done)) as [Ha Hb]. split; [reflexivity|].
  apply string_operations_refine; [apply two_texts_fresh|done|done].
Defined.

(** * Questions *)

(** The function returns that value, and leaves memory as it is. *)
Definition returns {A} (c : C A) (a : A) (m : mem) : Prop := c m = Done (inr a, m).

(** With allocations that do not fail, nothing exits. *)
Lemma cwp_returns {A} (c : C A) a m :
  cwp (out_of_memory (fun _ _ => false)) c (fun a' m' => a' = a /\ m' = m) m -> returns c a m.
Proof.
  unfold cwp, returns. destruct (c m) as [[[code|a'] m']| |]; [|by intros [-> ->]|done..].
  intros (_ & size & m'' & [=]).
Qed.

Lemma compare_prefix a : forall b,
  compare_bytes a b =
  (if decide (compare_bytes (take (Nat.min (length a) (length b)) a) (take (Nat.min (length a) (length b)) b) <> 0)%Z
   then compare_bytes (take (Nat.min (length a) (length b)) a) (take (Nat.min (length a) (length b)) b)
   else if decide (length a < length b)%nat then -1 else if decide (length b < length a)%nat then 1 else 0)%Z.
Proof.
  induction a as [|c a IH]; intros [|d b]; cbn [compare_bytes length Nat.min take]; [done..|]. case_decide as Hc.
  - rewrite IH. case_decide; [done|]. repeat case_decide; done || lia.
  - by case_decide.
Qed.

Lemma compare_sign a : forall b, compare_bytes a b = (if decide (compare_bytes a b = 0) then 0 else if decide (compare_bytes a b < 0) then -1 else 1)%Z.
Proof. induction a as [|c a IH]; intros [|d b]; cbn; [done..|]. case_decide; [apply IH|by case_decide]. Qed.

Lemma is_string_fun m p l l' : is_string m p l -> is_string m p l' -> l = l'.
Proof.
  intros (s & Hs & Hlen & _ & b & off & c & Hd & Hb & Hr) (s' & Hs' & Hlen' & _ & b' & off' & c' & Hd' & Hb' & Hr').
  rewrite Hs in Hs'. injection Hs' as <-. rewrite Hd in Hd'. injection Hd' as <- <-. rewrite Hb in Hb'. injection Hb' as <-.
  rewrite <-Hlen in Hr. rewrite <-Hlen', Hr in Hr'. injection Hr' as Hr'. apply (f_equal (omap id)) in Hr'.
  assert (forall k : list ascii, omap id (map Some k) = k) as Ho by (intros k; induction k as [|c0 k IH]; [done|cbn; by rewrite IH]).
  by rewrite !Ho in Hr'.
Qed.

Section questions.
Variables (m : mem) (p q : nat) (l n : list ascii).
Hypotheses (Hp : is_string m p l) (Hq : is_string m q n).

Lemma starts_with_spec : returns (string_starts_with (Some p) (Some q)) (bool_decide (take (length n) l = n)) m.
Proof.
  destruct Hp as (s & Hs & Hlen & Hfit & Hr), Hq as (r & Hrs & Hlenn & Hfitn & Hrn). apply cwp_returns.
  apply cwp_bind. eapply cwp_string; [done|]. apply cwp_bind. eapply cwp_string; [done|]. rewrite Hlen, Hlenn. case_decide.
  - apply cwp_ret. split; [|done]. rewrite bool_decide_false; [done|]. intros E. apply (f_equal length) in E.
    rewrite length_take in E. lia.
  - destruct (reads_sub m _ l 0 (length n) Hr ltac:(lia)) as (b & off & Hd & Hs' & _). rewrite Hd. rewrite Z.add_0_r, drop_0 in Hs'.
    assert (length (take (length n) l) = length n) as Hl by (rewrite length_take; lia). apply cwp_bind. rewrite <-Hl at 1.
    eapply cwp_memcmp; [done..|]. apply cwp_ret. split; [|done]. apply bool_decide_ext, compare_bytes_eq.
Qed.

Lemma ends_with_spec : returns (string_ends_with (Some p) (Some q)) (bool_decide (drop (length l - length n) l = n)) m.
Proof.
  destruct Hp as (s & Hs & Hlen & Hfit & Hr), Hq as (r & Hrs & Hlenn & Hfitn & Hrn). apply cwp_returns.
  apply cwp_bind. eapply cwp_string; [done|]. apply cwp_bind. eapply cwp_string; [done|]. rewrite Hlen, Hlenn. case_decide.
  - apply cwp_ret. split; [|done]. rewrite bool_decide_false; [done|]. intros E. apply (f_equal length) in E.
    rewrite length_drop in E. lia.
  - apply cwp_bind. replace (Z.of_nat (length l) - Z.of_nat (length n))%Z with (Z.of_nat (length l - length n)) by lia.
    eapply (cwp_add_text _ _ _ _ _ (length n)); [done|lia|]. intros t Ht. specialize (Ht m Hr).
    rewrite take_ge in Ht by (rewrite length_drop; lia).
    assert (length (drop (length l - length n) l) = length n) as Hl by (rewrite length_drop; lia). apply cwp_bind. rewrite <-Hl at 1.
    eapply cwp_memcmp; [done..|]. apply cwp_ret. split; [|done]. apply bool_decide_ext, compare_bytes_eq.
Qed.

Lemma index_of_spec : returns (string_index_of (Some p) (Some q)) (index_from n l 0) m.
Proof.
  destruct Hp as (s & Hs & Hlen & Hfit & Hr), Hq as (r & Hrs & Hlenn & Hfitn & Hrn). apply cwp_returns.
  apply cwp_bind. eapply cwp_string; [done|]. apply cwp_bind. eapply cwp_string; [done|]. rewrite Hlen, Hlenn.
  eapply (cwp_find _ _ _ _ _ _ 0); [done|done|lia..|done].
Qed.

Lemma contains_spec : returns (string_contains (Some p) (Some q)) (bool_decide (is_Some (occurs n l))) m.
Proof.
  destruct Hp as (s & Hs & Hlen & Hfit & Hr), Hq as (r & Hrs & Hlenn & Hfitn & Hrn). apply cwp_returns.
  apply cwp_bind. eapply cwp_string; [done|]. apply cwp_bind. eapply cwp_string; [done|]. rewrite Hlen, Hlenn.
  apply cwp_bind. eapply (cwp_find _ _ _ _ _ _ 0); [done|done|lia..|]. apply cwp_ret. split; [|done].
  apply bool_decide_ext. unfold index_from. rewrite drop_0. case_decide as Hn.
  - subst n. destruct l; cbn; split; intros; done || lia.
  - destruct (occurs n l) as [k|]; split; intros H; [done|lia|lia|by destruct H].
Qed.

Lemma equals_spec : returns (string_equals (Some p) (Some q)) (bool_decide (l = n)) m.
Proof.
  apply cwp_returns. unfold string_equals. destruct (decide (p = q)) as [->|Hne].
  { rewrite decide_True by done. apply cwp_ret. split; [|done]. rewrite bool_decide_true; [done|]. by apply (is_string_fun m q). }
  destruct Hp as (s & Hs & Hlen & Hfit & Hr), Hq as (r & Hrs & Hlenn & Hfitn & Hrn). rewrite decide_False by congruence.
  apply cwp_bind. eapply cwp_string; [done|]. apply cwp_bind. eapply cwp_string; [done|]. rewrite Hlen, Hlenn. case_decide.
  - apply cwp_ret. split; [|done]. rewrite bool_decide_false; [done|]. by intros ->.
  - apply cwp_bind. eapply cwp_memcmp; [done|done|lia|]. apply cwp_ret. split; [|done]. apply bool_decide_ext, compare_bytes_eq.
Qed.

Lemma compare_spec : returns (string_compare (Some p) (Some q)) (compare_bytes l n) m.
Proof.
  apply cwp_returns. unfold string_compare. destruct (decide (p = q)) as [->|Hne].
  { rewrite decide_True by done. apply cwp_ret. split; [|done]. symmetry. apply compare_bytes_eq. by apply (is_string_fun m q). }
  destruct Hp as (s & Hs & Hlen & Hfit & Hr), Hq as (r & Hrs & Hlenn & Hfitn & Hrn). rewrite decide_False by congruence.
  apply cwp_bind. eapply cwp_string; [done|]. apply cwp_bind. eapply cwp_string; [done|]. rewrite Hlen, Hlenn.
  set (k := Nat.min (length l) (length n)).
  replace (if decide _ then Z.of_nat (length l) else Z.of_nat (length n)) with (Z.of_nat k) by (case_decide; lia).
  destruct (reads_sub m _ l 0 k Hr ltac:(lia)) as (b & off & Hd & Hs' & _). rewrite Hd. rewrite Z.add_0_r, drop_0 in Hs'.
  destruct (reads_sub m _ n 0 k Hrn ltac:(lia)) as (b' & off' & Hd' & Hs'' & _). rewrite Hd'. rewrite Z.add_0_r, drop_0 in Hs''.
  assert (length (take k l) = k /\ length (take k n) = k) as [Hl Hn] by (rewrite !length_take; lia).
  apply cwp_bind. rewrite <-Hl at 1. eapply cwp_memcmp; [done|done|by rewrite Hl|].
  rewrite (compare_prefix l n). fold k. pose proof (compare_sign (take k l) (take k n)) as Hsign.
  set (cmp := compare_bytes (take k l) (take k n)) in *.
  repeat case_decide; apply cwp_ret; split; done || lia.
Qed.
End questions.

(** A question about two strings is answered as for their texts, without a change
    of memory: whether one occurs in, begins or ends the other and where first, whether
    they are equal, and how they compare as sequences of unsigned bytes; a character is
    that of the text inside its bounds, and the program stops with a message outside. *)
Theorem string_questions_answered m p q l n i :
  is_string m p l -> is_string m q n ->
  returns (string_length (Some p)) (Z.of_nat (length l)) m /\
  returns (string_contains (Some p) (Some q)) (bool_decide (is_Some (occurs n l))) m /\
  returns (string_starts_with (Some p) (Some q)) (bool_decide (take (length n) l = n)) m /\
  returns (string_ends_with (Some p) (Some q)) (bool_decide (drop (length l - length n) l = n)) m /\
  returns (string_index_of (Some p) (Some q)) (index_from n l 0) m /\
  returns (string_equals (Some p) (Some q)) (bool_decide (l = n)) m /\
  returns (string_compare (Some p) (Some q)) (compare_bytes l n) m /\
  match l !! Z.to_nat i with
  | Some c => (0 <= i)%Z -> returns (string_char_at (Some p) i) c m
  | None => True
  end /\
  ((i < 0 \/ Z.of_nat (length l) <= i)%Z ->
   exists err, string_char_at (Some p) i m =
     Done (inl 1%Z, mkMem (m_blocks m) (m_block m) (m_objects m) (m_object m) (m_stderr m +:+ err) (m_stdout m))).
Proof.
  intros Hp Hq. split.
  { destruct Hp as (s & Hs & Hlen & _). apply cwp_returns, cwp_bind. eapply cwp_string; [done|]. by apply cwp_ret. }
  split; [by apply contains_spec|]. split; [by apply starts_with_spec|]. split; [by apply ends_with_spec|].
  split; [by apply index_of_spec|]. split; [by apply equals_spec|]. split; [by apply compare_spec|].
  destruct Hp as (s & Hs & Hlen & Hfit & Hr). split.
  - destruct (l !! Z.to_nat i) as [c|] eqn:Hc; [|done]. intros H0. pose proof (lookup_lt_Some _ _ _ Hc) as Hlt.
    apply cwp_returns, cwp_bind. eapply cwp_string; [done|]. rewrite decide_False by lia. rewrite <-(Z2Nat.id i) by done.
    by eapply cwp_load.
  - intros Hi. assert (get_string p m = Done (inr s, m)) as Hget by (unfold get_string, mbind, C_bind, c_get; by rewrite Hs).
    unfold string_char_at. rewrite (bind_done _ _ _ _ _ Hget), decide_True by lia.
    eexists. unfold out_of_bounds, die, mbind, C_bind, c_modify, c_exit. rewrite string_app_assoc. reflexivity.
Qed.

Lemma string_questions_answered_witness :
  returns (string_index_of (Some 0) (Some 1)) 2%Z (two_texts "abcbc" "cb") /\
  returns (string_compare (Some 0) (Some 1)) (-1)%Z (two_texts "abcbc" "cb") /\
  exists err, string_char_at (Some 0) 5 (two_texts "abcbc" "cb") =
    Done (inl 1%Z, mkMem (m_blocks (two_texts "abcbc" "cb")) 2 (m_objects (two_texts "abcbc" "cb")) 2 err "").
Proof.
  destruct (two_texts_strings "abcbc" "cb" ltac:(done) ltac:(done)) as [Ha Hb].
  destruct (string_questions_answered (two_texts "abcbc" "cb") 0 1 _ _ 5 Ha Hb) as (_ & _ & _ & _ & Hi & _ & Hc & _ & Ho).
  split; [exact Hi|]. split; [exact Hc|]. destruct Ho as [err Ho]; [right; done|]. exists err. exact Ho.
Defined.

(** * Reference counts *)

(** [n] times. *)
Fixpoint times (n : nat) (c : C unit) : C unit := match n with 0 => mret tt | S n => c;; times n c end.

(** A string with [n] references, in a memory that is otherwise [m]. *)
Record counted (m : mem) (p : nat) (l : list ascii) (n : nat) (m' : mem) : Prop := {
  ct_new : m_objects m !! p = None;
  ct_block : exists b, m_blocks m !! b = None /\ m_blocks m' = <[b := map Some l ++ [Some nul]]> (m_blocks m) /\
    m_objects m' = <[p := Str (mkString (Some (b, 0%Z)) (Z.of_nat (length l)) (Z.of_nat (length l) + 1) (Z.of_nat n))]> (m_objects m);
  ct_out : m_stderr m' = m_stderr m /\ m_stdout m' = m_stdout m
}.

Section counting.
Context (X : Z -> mem -> Prop) (m : mem) (p : nat) (l : list ascii).

Lemma retain_counted n m' :
  counted m p l n m' -> (Z.of_nat n < 2 ^ 31 - 1)%Z -> cwp X (string_retain (Some p)) (fun _ => counted m p l (S n)) m'.
Proof.
  intros [Hn (b & Hnew & Hb & Ho) Hout] Hlt. apply cwp_bind. eapply cwp_string; [by rewrite Ho, lookup_insert_eq|].
  apply cwp_put. split; [done| |done]. exists b. split; [done|]. split; [done|]. cbn. rewrite Ho, insert_insert_eq, s32_small by lia.
  by replace (Z.of_nat n + 1)%Z with (Z.of_nat (S n)) by lia.
Qed.

Lemma release_counted n m' :
  counted m p l (S n) m' -> (Z.of_nat (S n) < 2 ^ 31)%Z ->
  cwp X (string_release (Some p)) (fun _ m'' => if decide (n = 0) then m_blocks m'' = m_blocks m /\ m_objects m'' = m_objects m
    else counted m p l n m'') m'.
Proof.
  intros [Hn (b & Hnew & Hb & Ho) Hout] Hlt. apply cwp_bind. eapply cwp_string; [by rewrite Ho, lookup_insert_eq|].
  cbn [bs_ref_count bs_capacity bs_data bs_length]. rewrite s32_small by lia. apply cwp_bind, cwp_put.
  replace (Z.of_nat (S n) - 1)%Z with (Z.of_nat n) by lia. unfold c_when. case_decide as H0.
  - subst n. rewrite !bool_decide_true by lia.
    apply cwp_bind. unfold free. apply cwp_bind, cwp_get, cwp_bind. cbn [set_objects m_blocks].
    eapply cwp_some; [by rewrite Hb, lookup_insert_eq|]. cbn [decide]. apply cwp_modify.
    apply cwp_bind, cwp_get, cwp_bind. cbn [set_objects set_blocks m_objects].
    eapply cwp_some; [by rewrite Ho, lookup_insert_eq|]. apply cwp_modify. cbn.
    rewrite Hb, Ho, insert_insert_eq, !delete_insert_id by done. done.
  - rewrite bool_decide_false by lia. apply cwp_ret. split; [done| |done]. exists b. split; [done|]. split; [done|].
    cbn. by rewrite Ho, insert_insert_eq.
Qed.

Lemma retain_times k : forall n m', counted m p l n m' -> (Z.of_nat (n + k) < 2 ^ 31)%Z ->
  cwp X (times k (string_retain (Some p))) (fun _ => counted m p l (n + k)) m'.
Proof.
  induction k as [|k IH]; intros n m' H Hlt; cbn [times]; [apply cwp_ret; by rewrite Nat.add_0_r|].
  apply cwp_bind. eapply cwp_mono; [apply retain_counted; [done|lia]|]. intros [] m'' H''.
  rewrite <-Nat.add_succ_comm. apply IH; [done|lia].
Qed.

Lemma release_times k : forall n m', counted m p l (n + k) m' -> n <> 0 -> (Z.of_nat (n + k) < 2 ^ 31)%Z ->
  cwp X (times k (string_release (Some p))) (fun _ => counted m p l n) m'.
Proof.
  induction k as [|k IH]; intros n m' H Hn Hlt; cbn [times]; [apply cwp_ret; by rewrite Nat.add_0_r in H|].
  apply cwp_bind. rewrite Nat.add_succ_r in H. eapply cwp_mono; [apply release_counted; [done|lia]|].
  intros [] m'' H''. rewrite decide_False in H'' by lia. apply IH; [done|done|lia].
Qed.
End counting.

Lemma new_string_counted m p l m' : new_string m p l m' -> counted m p l 1 m'.
Proof. intros [Hn Hb He Hout _]. by split. Qed.

(** C30. A string lives as long as it is referred to: after [k] more references are
    taken and as many are given back it is what it was, with its text, and giving back
    the last one frees its bytes and its header, so that memory is what it was before
    the string was made; nothing is freed twice or used after that. *)
Theorem string_lifetime X m p l m' k :
  new_string m p l m' -> (Z.of_nat k < 2 ^ 31 - 1)%Z ->
  cwp X (times k (string_retain (Some p));; times k (string_release (Some p)))
    (fun _ m1 => counted m p l 1 m1 /\
       cwp X (string_release (Some p)) (fun _ m2 => m_blocks m2 = m_blocks m /\ m_objects m2 = m_objects m) m1) m'.
Proof.
  intros Hp Hk. apply cwp_bind. eapply cwp_mono; [apply (retain_times X m p l k 1); [by apply new_string_counted|lia]|].
  intros [] m1 H1. eapply cwp_mono; [apply (release_times X m p l k 1); [done|done|lia]|]. intros [] m2 H2.
  split; [done|]. eapply cwp_mono; [by apply release_counted|]. by intros [] m3 H3.
Qed.

Lemma string_lifetime_witness :
  cwp (fun _ _ => False) (times 3 (string_retain (Some 0));; times 3 (string_release (Some 0)))
    (fun _ m1 => counted empty_memory 0 (chars "abc") 1 m1 /\
       cwp (fun _ _ => False) (string_release (Some 0)) (fun _ m2 => m_blocks m2 = ∅ /\ m_objects m2 = ∅) m1)
    (put_text (chars "abc") empty_memory).
Proof.
  apply (string_lifetime (fun _ _ => False) empty_memory 0 (chars "abc") _ 3); [exact (put_text_new (chars "abc") _ empty_memory_fresh)|done].
Defined.

(** * Formatted numbers *)

(** A number whose text is longer than the local array: the characters behind the
    array are read, as [snprintf] returns the length of the whole text. *)
Lemma long_number_overread (double : Type) format_g format_e format_f m (value : double) spec prec :
  last spec = Some "f"%char -> 2 <= length spec -> precision_of spec m = Done (inr prec, m) ->
  128 < length (format_f prec value : list ascii) -> (Z.of_nat (length (format_f prec value)) < 2 ^ 63 - 1)%Z ->
  float_to_string_fmt (fun _ _ => false) double format_g format_e format_f value spec m = UndefinedBehaviour.
Proof.
  intros Hlast Hspec Hprec Hlong Hfit. unfold float_to_string_fmt. rewrite Hlast, decide_False by done. rewrite decide_True by done.
  rewrite decide_True by done. rewrite (bind_done _ _ _ _ _ Hprec). set (text := format_f prec value) in *.
  set (b := m_block m). set (cells := map Some (take (128 - 1) text ++ [nul])).
  assert (length cells = 128) as Hcells by (unfold cells; rewrite length_map, length_app, length_take; cbn [length]; lia).
  set (m1 := new_block m (replicate 128 None)). set (m2 := set_blocks m1 (<[b := overwrite 0 cells (replicate 128 None)]>)).
  assert (snprintf (Some (b, 0%Z)) 128 text m1 = Done (inr (Z.of_nat (length text)), m2)) as Hs.
  { unfold snprintf. fold cells. rewrite (bind_done _ _ tt m1 m2); [done|]. unfold write_cells.
    rewrite (bind_done _ _ (m_blocks m1) m1 m1) by done.
    rewrite (bind_done _ _ (replicate 128 None) m1 m1) by (unfold m1, new_block, b; cbn [m_blocks]; by rewrite lookup_insert_eq).
    rewrite decide_True by (rewrite Hcells, length_replicate; lia). done. }
  unfold with_local. rewrite (bind_done _ _ b m m) by done. rewrite (bind_done _ _ tt m m1) by done.
  apply bind_undefined. rewrite (bind_done _ _ _ _ _ Hs). unfold string_create.
  rewrite (bind_done _ _ (Some (m_object m2)) m2 (new_object m2)) by done.
  rewrite (bind_done _ _ (Z.of_nat (length text) + 1)%Z _ (new_object m2)) by (unfold i64, int64; by rewrite bool_decide_true by lia).
  unfold malloc. set (size := size_t _).
  rewrite (bind_done _ _ (Some (S b, 0%Z)) _ (new_block (new_object m2) (replicate (Z.to_nat size) None))) by done.
  rewrite decide_False by done. apply bind_undefined. unfold c_when. rewrite !bool_decide_true by (done || lia). cbn [andb].
  unfold memcpy. replace (overlap _ _ _) with false by (symmetry; apply bool_decide_false; lia).
  apply bind_undefined. unfold read_cells. set (m3 := new_block _ _). rewrite (bind_done _ _ (m_blocks m3) m3 m3) by done.
  assert (m_blocks m3 !! b = Some (overwrite 0 cells (replicate 128 None))) as Hb.
  { unfold m3, m2, m1, new_object, new_block, set_blocks. cbn [m_blocks]. rewrite lookup_insert_ne by (cbn; unfold b; lia).
    by rewrite lookup_insert_eq. }
  rewrite Hb. cbn [mbind option_bind]. unfold range. rewrite decide_False; [done|].
  rewrite length_overwrite by (rewrite Hcells, length_replicate; lia). rewrite length_replicate. lia.
Qed.

(** Text behind a null character is not looked at when a string is read as a number,
    and a number that is too large is cut off. *)
Lemma numbers_cut_off :
  match string_to_int no_failure (Some 0) (put_text (chars "12" ++ [nul] ++ chars "x") empty_memory) with
  | Done (inr r, _) => r = (12%Z, true)
  | _ => False
  end /\
  match string_to_int no_failure (Some 0) (put_text (chars "99999999999999999999") empty_memory) with
  | Done (inr r, _) => r = ((2 ^ 63 - 1)%Z, true)
  | _ => False
  end.
Proof. split; vm_compute; reflexivity. Qed.
