(* ===== verification/RuntimeArray.v ===== *)
(** The arrays of the run-time library ([src/runtime/blang_array.c]). *)

From stdpp Require Import pretty.
From S2P Require Import Prelude RuntimeMemory RuntimeString.

Section arrays.
Variable fails : Z -> mem -> bool.
(** What a destructor does, by its number, to the pointer it is given as a number. *)
Variable call_dtor : nat -> Z -> C unit.

Definition kArrayDefaultCapacity : Z := 8.

(** [sizeof( BlangArray )] *)
Definition array_size : Z := 48.

(** [while ( new_cap < needed ) new_cap *= 2]; a capacity that is doubled 63 times
    overflows. *)
Definition grow (needed new_cap : Z) : C Z :=
  c_loop 64 (fun new_cap => if decide (new_cap < needed)%Z then cap ← i64 (new_cap * 2); mret (Next cap) else mret (Break new_cap)) new_cap.

Definition put_array (p : nat) (a : BlangArray) : C unit := put_object p (Arr a).

Definition set_array_length (a : BlangArray) (length : Z) : BlangArray :=
  mkArray (ba_data a) length (ba_capacity a) (ba_ref_count a) (ba_elem_size a) (ba_elem_dtor a).
Definition set_array_count (a : BlangArray) (count : Z) : BlangArray :=
  mkArray (ba_data a) (ba_length a) (ba_capacity a) count (ba_elem_size a) (ba_elem_dtor a).

Definition array_ensure_capacity (p : nat) (needed : Z) : C unit :=
  a ← get_array p;
  if decide (needed <= ba_capacity a)%Z then mret tt
  else
    new_cap ← grow needed (if decide (ba_capacity a < kArrayDefaultCapacity)%Z then kArrayDefaultCapacity else ba_capacity a);
    data ← realloc fails (ba_data a) (size_t new_cap * size_t (ba_elem_size a));
    put_array p (mkArray data (ba_length a) (ba_capacity a) (ba_ref_count a) (ba_elem_size a) (ba_elem_dtor a));;
    if decide (data = None) then die "blang: array realloc failed"
    else put_array p (mkArray data (ba_length a) new_cap (ba_ref_count a) (ba_elem_size a) (ba_elem_dtor a)).

(** [elem_ptr( a, index )] *)
Definition elem_ptr (a : BlangArray) (index : Z) : C ptr := off ← i64 (index * ba_elem_size a); ptr_add (ba_data a) off.

(** * Creation *)

Definition array_create (elem_size initial_capacity : Z) : C nat :=
  let initial_capacity := if decide (initial_capacity < kArrayDefaultCapacity)%Z then kArrayDefaultCapacity else initial_capacity in
  a ← malloc_object fails array_size;
  match a with
  | None => die "blang: array alloc failed"
  | Some a =>
      data ← calloc fails initial_capacity elem_size;
      if decide (data = None) then die "blang: array data alloc failed"
      else put_array a (mkArray data 0 initial_capacity 1 elem_size None);; mret a
  end.

(** The number of bytes of [n] elements. *)
Definition bytes_of (n elem_size : Z) : Z := size_t (size_t n * size_t elem_size).

Definition array_create_from_data (elem_size : Z) (data : ptr) (count : Z) : C nat :=
  let cap := if decide (count < kArrayDefaultCapacity)%Z then kArrayDefaultCapacity else count in
  a ← malloc_object fails array_size;
  match a with
  | None => die "blang: array alloc failed"
  | Some a =>
      d ← calloc fails cap elem_size;
      if decide (d = None) then die "blang: array data alloc failed"
      else
        put_array a (mkArray d count cap 1 elem_size None);;
        c_when (bool_decide (data <> None) && bool_decide (0 < count)%Z) (memcpy d data (bytes_of count elem_size));;
        mret a
  end.

(** * Reference counting *)

Definition array_retain (a : option nat) : C unit :=
  match a with
  | None => mret tt
  | Some p => a ← get_array p; put_array p (set_array_count a (s32 (ba_ref_count a + 1)))
  end.

(** The bytes of a pointer, the lowest first, as a number. *)
Fixpoint pointer_value (l : list ascii) : Z :=
  match l with [] => 0 | c :: l => Z.of_N (N_of_ascii c) + 256 * pointer_value l end.

(** The pointer that lies in a slot. *)
Definition load_pointer (slot : ptr) : C Z :=
  cells ← read_cells slot 8;
  bytes ← c_some (mapM id cells);
  mret (pointer_value bytes).

(** The destructor is called with each element that is not null. *)
Definition destroy_elements (a : BlangArray) : C unit :=
  match ba_elem_dtor a with
  | Some dtor =>
      if decide (ba_data a = None) then mret tt
      else
        c_fold 0 (ba_length a) (fun i _ =>
          slot ← elem_ptr a i;
          elem_val ← load_pointer slot;
          c_when (bool_decide (elem_val <> 0%Z)) (call_dtor dtor elem_val)) tt
  | None => mret tt
  end.

Definition array_release (a : option nat) : C unit :=
  match a with
  | None => mret tt
  | Some p =>
      a ← get_array p;
      let new_count := s32 (ba_ref_count a - 1) in
      put_array p (set_array_count a new_count);;
      c_when (bool_decide (new_count <= 0)%Z) (destroy_elements a;; free (ba_data a);; free_object p)
  end.

(** * Properties *)

Definition array_length (a : option nat) : C Z :=
  match a with None => mret 0%Z | Some p => a ← get_array p; mret (ba_length a) end.
Definition array_capacity (a : option nat) : C Z :=
  match a with None => mret 0%Z | Some p => a ← get_array p; mret (ba_capacity a) end.
Definition array_is_empty (a : option nat) : C bool :=
  match a with None => mret true | Some p => a ← get_array p; mret (bool_decide (ba_length a = 0%Z)) end.

(** * Access *)

Definition index_error {A} (what : string) (index length : Z) : C A :=
  die ("blang: array " +:+ what +:+ " out of bounds: index " +:+ pretty index +:+ ", length " +:+ pretty length).

Definition array_get (a : option nat) (index : Z) (out : ptr) : C unit :=
  match a with
  | None => die "blang: array get on null array"
  | Some p =>
      a ← get_array p;
      if decide (index < 0 \/ ba_length a <= index)%Z then index_error "index" index (ba_length a)
      else from ← elem_ptr a index; memcpy out from (size_t (ba_elem_size a))
  end.

Definition array_set (a : option nat) (index : Z) (value : ptr) : C unit :=
  match a with
  | None => die "blang: array set on null array"
  | Some p =>
      a ← get_array p;
      if decide (index < 0 \/ ba_length a <= index)%Z then index_error "index" index (ba_length a)
      else
        match ba_elem_dtor a with
        | Some dtor =>
            slot ← elem_ptr a index;
            old_val ← load_pointer slot;
            new_val ← load_pointer value;
            c_when (bool_decide (old_val <> 0%Z) && bool_decide (old_val <> new_val)) (call_dtor dtor old_val)
        | None => mret tt
        end;;
        a ← get_array p;
        to ← elem_ptr a index;
        memcpy to value (size_t (ba_elem_size a))
  end.

(** * Mutation *)

Definition array_push (a : option nat) (value : ptr) : C unit :=
  match a with
  | None => die "blang: array push on null array"
  | Some p =>
      a ← get_array p;
      needed ← i64 (ba_length a + 1);
      array_ensure_capacity p needed;;
      a ← get_array p;
      to ← elem_ptr a (ba_length a);
      memcpy to value (size_t (ba_elem_size a));;
      put_array p (set_array_length a needed)
  end.

Definition array_pop (a : option nat) (out : ptr) : C bool :=
  match a with
  | None => mret false
  | Some p =>
      a ← get_array p;
      if decide (ba_length a = 0%Z) then mret false
      else
        length ← i64 (ba_length a - 1);
        put_array p (set_array_length a length);;
        c_when (bool_decide (out <> None)) (from ← elem_ptr a length; memcpy out from (size_t (ba_elem_size a)));;
        mret true
  end.

Definition array_insert (a : option nat) (index : Z) (value : ptr) : C unit :=
  match a with
  | None => die "blang: array insert on null array"
  | Some p =>
      a ← get_array p;
      if decide (index < 0 \/ ba_length a < index)%Z then index_error "insert index" index (ba_length a)
      else
        needed ← i64 (ba_length a + 1);
        array_ensure_capacity p needed;;
        a ← get_array p;
        c_when (bool_decide (index < ba_length a)%Z)
          (to ← elem_ptr a (index + 1);
           from ← elem_ptr a index;
           memmove to from (bytes_of (ba_length a - index) (ba_elem_size a)));;
        to ← elem_ptr a index;
        memcpy to value (size_t (ba_elem_size a));;
        put_array p (set_array_length a needed)
  end.

Definition array_remove (a : option nat) (index : Z) (out : ptr) : C unit :=
  match a with
  | None => die "blang: array remove on null array"
  | Some p =>
      a ← get_array p;
      if decide (index < 0 \/ ba_length a <= index)%Z then index_error "remove index" index (ba_length a)
      else
        c_when (bool_decide (out <> None)) (from ← elem_ptr a index; memcpy out from (size_t (ba_elem_size a)));;
        c_when (bool_decide (index < ba_length a - 1)%Z)
          (to ← elem_ptr a index;
           from ← elem_ptr a (index + 1);
           memmove to from (bytes_of (ba_length a - index - 1) (ba_elem_size a)));;
        put_array p (set_array_length a (ba_length a - 1))
  end.

(** * Concatenation *)

(** The bytes of an array copied into another from [off] on, if it has elements; the
    element size is the result's. *)
Definition copy_elements (data : ptr) (off : Z) (a : option nat) (elem_size : Z) : C unit :=
  match a with
  | None => mret tt
  | Some p =>
      a ← get_array p;
      c_when (bool_decide (0 < ba_length a)%Z) (to ← ptr_add data off; memcpy to (ba_data a) (bytes_of (ba_length a) elem_size))
  end.

Definition array_concat (a b : option nat) : C nat :=
  match a, b with
  | None, None => array_create 4 0
  | _, _ =>
      elem_size ← match a, b with
        | Some p, _ => a ← get_array p; mret (ba_elem_size a)
        | None, Some q => b ← get_array q; mret (ba_elem_size b)
        | None, None => mret 0%Z
        end;
      a_len ← array_length a;
      b_len ← array_length b;
      total ← i64 (a_len + b_len);
      result ← array_create elem_size total;
      r ← get_array result;
      put_array result (set_array_length r total);;
      copy_elements (ba_data r) 0 a elem_size;;
      off ← i64 (a_len * elem_size);
      copy_elements (ba_data r) off b elem_size;;
      mret result
  end.

(** * Utilities *)

Definition array_set_elem_dtor (a : option nat) (dtor : option nat) : C unit :=
  match a with
  | None => mret tt
  | Some p =>
      a ← get_array p;
      put_array p (mkArray (ba_data a) (ba_length a) (ba_capacity a) (ba_ref_count a) (ba_elem_size a) dtor)
  end.

Definition array_clear (a : option nat) : C unit :=
  match a with
  | None => mret tt
  | Some p => a ← get_array p; destroy_elements a;; a ← get_array p; put_array p (set_array_length a 0)
  end.

(** * Strings and arrays of bytes *)

(** [&byte] is a place in a local array. *)
Definition string_copy_to_byte_array (s : option nat) (arr : option nat) : C unit :=
  match s, arr with
  | Some p, Some _ =>
      s ← get_string p;
      c_fold 0 (bs_length s) (fun i _ =>
        byte ← load_char (bs_data s) i;
        with_local 1 (fun local => write_cells local [Some byte];; array_push arr local)) tt
  | _, _ => mret tt
  end.

Definition string_from_byte_array (arr : option nat) (start end_ : Z) : C nat :=
  match arr with
  | None => empty_string fails
  | Some p =>
      a ← get_array p;
      let start := if decide (start < 0)%Z then 0%Z else start in
      let end_ := if decide (ba_length a < end_)%Z then ba_length a else end_ in
      len ← i64 (end_ - start);
      if decide (len <= 0)%Z then empty_string fails
      else data ← ptr_add (ba_data a) start; string_create fails data len
  end.
End arrays.
