(* ===== verification/RuntimeArrayTheorems.v ===== *)
(** The functions of the run-time library on arrays, as operations on lists of
    elements. *)

From stdpp Require Import pretty.
From S2P Require Import Prelude RuntimeMemory RuntimeString RuntimeStringLogic RuntimeArray.

(** * Lists of bytes *)

Lemma range_middle a o d off n : off = Z.of_nat (length a) -> n = Z.of_nat (length o) -> range off n (a ++ o ++ d) = Some o.
Proof.
  intros -> ->. rewrite range_spec by (rewrite ?length_app; lia). rewrite !Nat2Z.id, drop_app_length, take_app_length. done.
Qed.

Lemma overwrite_middle a o n d off : off = length a -> length n = length o -> overwrite off n (a ++ o ++ d) = a ++ n ++ d.
Proof.
  intros -> Hn. unfold overwrite. rewrite take_app_length, Hn. do 2 f_equal. rewrite app_assoc, <-length_app.
  apply drop_app_length.
Qed.

Section elements.
Variable es : nat.
Notation sized := (Forall (fun e : list cell => length e = es)).

Lemma concat_sized l : sized l -> length (concat l) = length l * es.
Proof. induction 1 as [|e l He _ IH]; [done|]. cbn. rewrite length_app. lia. Qed.

(** An array's bytes are those of its elements, and bytes behind. *)
Lemma split_at l i e : sized l -> l !! i = Some e ->
  exists l1 l2, l = l1 ++ e :: l2 /\ length l1 = i /\ length (concat l1) = i * es /\ length e = es /\ sized l1 /\ sized l2.
Proof.
  intros Hl Hi. exists (take i l), (drop (S i) l). pose proof (lookup_lt_Some _ _ _ Hi).
  assert (length (take i l) = i) as Hlen by (rewrite length_take; lia).
  split; [by rewrite take_drop_middle|]. split; [done|]. split; [rewrite concat_sized by (by apply Forall_take); lia|].
  split; [by eapply Forall_lookup_1 in Hl|]. split; [by apply Forall_take|by apply Forall_drop].
Qed.
End elements.

(** * Arrays in memory *)

(** The record of an array. *)
Definition array_record (b es len cap : nat) (count : Z) : BlangArray :=
  mkArray (Some (b, 0%Z)) (Z.of_nat len) (Z.of_nat cap) count (Z.of_nat es) None.

(** Memory is [m0] and an array of [elems], each of [es] bytes, in a block [b] of its
    own with room for [cap]. *)
Record array_at (m0 : mem) (p es : nat) (elems : list (list cell)) (b cap : nat) (count : Z) (rest : list cell) (m : mem) : Prop := {
  aa_new : m_objects m0 !! p = None;
  aa_block : m_blocks m0 !! b = None;
  aa_blocks : m_blocks m = <[b := concat elems ++ rest]> (m_blocks m0);
  aa_objects : m_objects m = <[p := Arr (array_record b es (length elems) cap count)]> (m_objects m0);
  aa_room : length (concat elems ++ rest) = cap * es;
  aa_bytes : (Z.of_nat (cap * es) < 2 ^ 62)%Z;
  aa_sized : Forall (fun e => length e = es) elems;
  aa_size : 0 < es /\ (Z.of_nat es < 2 ^ 31)%Z;
  aa_stderr : m_stderr m = m_stderr m0;
  aa_stdout : m_stdout m = m_stdout m0;
  aa_fresh : fresh m
}.

Definition array_over (m0 : mem) (p es : nat) (count : Z) (elems : list (list cell)) (m : mem) : Prop :=
  exists b cap rest, array_at m0 p es elems b cap count rest m.

(** A value lies at a place. *)
Definition value_at (m : mem) (q : ptr) (v : list cell) : Prop :=
  exists b off cells, q = Some (b, off) /\ m_blocks m !! b = Some cells /\ range off (Z.of_nat (length v)) cells = Some v.

Section arrays.
Variables (fails : Z -> mem -> bool) (call_dtor : nat -> Z -> C unit).
Notation X := (out_of_memory fails).

Lemma grow_spec needed cap (Q : Z -> mem -> Prop) m :
  (8 <= cap)%Z -> (cap < 2 ^ 62)%Z -> (needed < 2 ^ 62)%Z ->
  (forall new_cap, needed <= new_cap -> cap <= new_cap <= Z.max cap (2 * needed) -> Q new_cap m)%Z -> cwp X (grow needed cap) Q m.
Proof.
  intros H8 Hcap Hn HQ. unfold grow.
  eapply (cwp_loop _ (fun n c m' => m' = m /\ exists k, n + k = 61 /\ (2 ^ (Z.of_nat k + 3) <= c)%Z /\ (cap <= c <= Z.max cap (2 * needed))%Z)) with (n := 61).
  - intros n c m' (-> & k & Hk & Hpow & Hc). case_decide as Hlt.
    + assert (Z.of_nat k + 3 < 62)%Z as Hk' by (apply (Z.pow_lt_mono_r_iff 2); lia).
      apply cwp_bind, cwp_i64; [lia|]. apply cwp_ret. exists (n - 1). split; [lia|]. split; [done|]. exists (S k). split; [lia|].
      replace (Z.of_nat (S k) + 3)%Z with (Z.of_nat k + 3 + 1)%Z by lia. rewrite Z.pow_add_r by lia. lia.
    + apply cwp_ret, HQ; lia.
  - split; [done|]. exists 0. split; [done|]. change (2 ^ (Z.of_nat 0 + 3))%Z with 8%Z. lia.
  - lia.
Qed.

Lemma cwp_get_array m0 p es elems b cap count rest m Q :
  array_at m0 p es elems b cap count rest m -> Q (array_record b es (length elems) cap count) m -> cwp X (get_array p) Q m.
Proof. intros H HQ. eapply cwp_array; [|exact HQ]. by rewrite (aa_objects _ _ _ _ _ _ _ _ _ H), lookup_insert_eq. Qed.

Lemma array_bounds m0 p es elems b cap count rest m :
  array_at m0 p es elems b cap count rest m -> length elems <= cap /\ (Z.of_nat cap < 2 ^ 62)%Z /\ length (concat elems) = length elems * es.
Proof.
  intros H. pose proof (aa_room _ _ _ _ _ _ _ _ _ H) as Hroom. pose proof (aa_bytes _ _ _ _ _ _ _ _ _ H) as Hb.
  destruct (aa_size _ _ _ _ _ _ _ _ _ H) as [Hes _]. pose proof (concat_sized es _ (aa_sized _ _ _ _ _ _ _ _ _ H)) as Hc.
  rewrite length_app, Hc in Hroom. split; [|split; [|done]]; nia.
Qed.

(** Room for one more element. *)
Lemma ensure_capacity_spec m0 p es elems b cap count rest m :
  array_at m0 p es elems b cap count rest m -> (Z.of_nat ((length elems + 1) * es) < 2 ^ 60)%Z ->
  cwp X (array_ensure_capacity fails p (Z.of_nat (length elems + 1)))
    (fun _ m' => exists b cap rest, array_at m0 p es elems b cap count rest m' /\ length elems < cap) m.
Proof.
  intros H Hsize. pose proof (array_bounds _ _ _ _ _ _ _ _ _ H) as (Hlencap & Hcap & Hconcat).
  apply cwp_bind. eapply cwp_get_array; [done|]. unfold array_record.
  cbn [ba_capacity ba_data ba_elem_size ba_length ba_ref_count ba_elem_dtor].
  case_decide as Hroom.
  { apply cwp_ret. exists b, cap, rest. split; [done|lia]. }
  destruct H as [Hnew Hb Hbl Hobj Hlen Hbytes Hsized [Hes Hes31] He Ho Hfresh].
  assert (length elems + 1 <= (length elems + 1) * es) as Hle by nia.
  set (init := if decide _ then _ else _). assert (8 <= init /\ init = Z.max 8 (Z.of_nat cap))%Z as [H8 Hinit].
  { unfold init, kArrayDefaultCapacity. case_decide; lia. }
  apply cwp_bind, grow_spec; [lia|lia|lia|]. intros new_cap Hge Hbound.
  assert (exists n, new_cap = Z.of_nat n) as [n ->] by (exists (Z.to_nat new_cap); lia).
  assert (Z.of_nat (n * es) < 2 ^ 62)%Z as Hnes.
  { rewrite Nat2Z.inj_mul in *. assert (Z.of_nat n <= Z.max 8 (2 * Z.of_nat (length elems + 1)))%Z by lia.
    destruct (Z.max_spec 8 (2 * Z.of_nat (length elems + 1))) as [[_ E]|[_ E]]; rewrite E in *; nia. }
  rewrite !size_t_small by lia. rewrite <-Nat2Z.inj_mul.
  assert (cap * es <= n * es) as Hgrow by (apply Nat.mul_le_mono_r; lia).
  apply cwp_bind. eapply cwp_realloc; [done|by rewrite Hbl, lookup_insert_eq|lia|lia| |intros HX; apply cwp_bind, cwp_put; by apply cwp_die].
  intros nb m1 Hnb Hbl1 Hobj1 Hcnt He1 Ho1 [Hf1 Hf2]. rewrite Hlen, <-app_assoc in Hbl1.
  apply cwp_bind, cwp_put. rewrite decide_False by done. apply cwp_put.
  exists nb, n, (rest ++ replicate (n * es - cap * es) None). split; [|lia]. rewrite Hbl in Hnb.
  apply lookup_insert_None in Hnb as [Hnb Hne].
  assert (m_object m1 <= p -> False) as Hp.
  { intros Hp. specialize (Hf2 p Hp). by rewrite Hobj1, Hobj, lookup_insert_eq in Hf2. }
  split; cbn [set_objects m_blocks m_objects m_stderr m_stdout]; try done; try congruence.
  - by rewrite Hbl1, Hbl, delete_insert_id.
  - by rewrite Hobj1, Hobj, !insert_insert_eq.
  - rewrite app_assoc, length_app, Hlen, length_replicate. lia.
  - split; cbn; [done|]. intros p' Hle'. rewrite !lookup_insert_ne by (intros ->; auto). by apply Hf2.
Qed.

(** ** Elements *)

Lemma value_other m0 p es elems b cap count rest m q v :
  array_at m0 p es elems b cap count rest m -> value_at m0 q v ->
  value_at m q v /\ forall off, overlap (Some (b, off)) q (Z.of_nat (length v)) = false.
Proof.
  intros H (b' & off & cells & -> & Hb & Hr).
  assert (b <> b') as Hne by (intros <-; by rewrite (aa_block _ _ _ _ _ _ _ _ _ H) in Hb). split.
  - exists b', off, cells. split; [done|]. split; [|done]. by rewrite (aa_blocks _ _ _ _ _ _ _ _ _ H), lookup_insert_ne.
  - intros off'. cbn. apply bool_decide_false. naive_solver.
Qed.

Lemma cwp_elem_ptr m b es len cap count cells i (Q : ptr -> mem -> Prop) :
  m_blocks m !! b = Some cells -> i * es <= length cells -> (Z.of_nat (i * es) < 2 ^ 62)%Z ->
  Q (Some (b, Z.of_nat (i * es))) m -> cwp X (elem_ptr (array_record b es len cap count) (Z.of_nat i)) Q m.
Proof.
  intros Hb Hi Hlt HQ. unfold elem_ptr, array_record. cbn [ba_elem_size ba_data]. rewrite <-Nat2Z.inj_mul.
  apply cwp_bind, cwp_i64; [lia|]. by eapply cwp_add; [done|lia|].
Qed.

(** A value copied over [es] bytes of the array. *)
Lemma cwp_store_elem m0 p es elems b cap count rest m len i q v pre o post (Q : unit -> mem -> Prop) :
  array_at m0 p es elems b cap count rest m -> value_at m0 q v -> length v = es ->
  forall m1, m_blocks m1 = <[b := pre ++ o ++ post]> (m_blocks m0) -> length pre = i * es -> length o = es ->
  length (pre ++ o ++ post) = cap * es ->
  Q tt (set_blocks m1 (<[b := pre ++ v ++ post]>)) ->
  cwp X (to ← elem_ptr (array_record b es len cap count) (Z.of_nat i); memcpy to q (size_t (Z.of_nat es))) Q m1.
Proof.
  intros H Hq Hv m1 Hm1 Hpre Ho Hlen HQ. pose proof (aa_bytes _ _ _ _ _ _ _ _ _ H) as Hbytes.
  pose proof (aa_size _ _ _ _ _ _ _ _ _ H) as [Hes Hes31]. destruct Hq as (b' & off & cells & -> & Hb' & Hr).
  assert (b <> b') as Hne by (intros <-; by rewrite (aa_block _ _ _ _ _ _ _ _ _ H) in Hb').
  pose proof Hlen as Hlen'. rewrite !length_app in Hlen'.
  apply cwp_bind. eapply cwp_elem_ptr; [by rewrite Hm1, lookup_insert_eq|lia|lia|]. rewrite size_t_small by lia.
  unfold memcpy. replace (overlap _ _ _) with false by (symmetry; apply bool_decide_false; naive_solver).
  apply cwp_bind. rewrite <-Hv at 1. eapply cwp_read; [by rewrite Hm1, lookup_insert_ne|exact Hr|].
  eapply cwp_write; [by rewrite Hm1, lookup_insert_eq|lia|lia|]. rewrite Nat2Z.id, overwrite_middle by lia. exact HQ.
Qed.

(** What a place outside the array holds after a copy. *)
Definition written (m0 : mem) (q : ptr) (v : list cell) (m0' : mem) : Prop :=
  exists b off old, q = Some (b, off) /\ m_blocks m0 !! b = Some old /\ (0 <= off)%Z /\
    (off + Z.of_nat (length v) <= Z.of_nat (length old))%Z /\ m0' = set_blocks m0 (<[b := overwrite (Z.to_nat off) v old]>).

(** Bytes of the array copied out. *)
Lemma cwp_load_elem m0 m0' p es elems b cap count rest m len i q e pre post (Q : unit -> mem -> Prop) :
  array_at m0 p es elems b cap count rest m -> concat elems ++ rest = pre ++ e ++ post -> length pre = i * es -> length e = es ->
  written m0 q e m0' ->
  (forall m', array_at m0' p es elems b cap count rest m' -> Q tt m') ->
  cwp X (from ← elem_ptr (array_record b es len cap count) (Z.of_nat i); memcpy q from (size_t (Z.of_nat es))) Q m.
Proof.
  intros H Hcells Hpre He (b' & off & old & -> & Hb' & Hoff & Hfit & ->) HQ.
  pose proof H as [Hnew Hb Hbl Hobj Hlen Hbytes Hsized [Hes Hes31] Herr Hout [Hf1 Hf2]].
  assert (b <> b') as Hne by (intros <-; by rewrite Hb in Hb'). rewrite Hcells in Hbl, Hlen. rewrite !length_app in Hlen.
  apply cwp_bind. eapply cwp_elem_ptr; [by rewrite Hbl, lookup_insert_eq|rewrite !length_app; lia|lia|]. rewrite size_t_small by lia.
  unfold memcpy. replace (overlap _ _ _) with false by (symmetry; apply bool_decide_false; naive_solver).
  apply cwp_bind. eapply cwp_read; [by rewrite Hbl, lookup_insert_eq|by apply range_middle; lia|].
  eapply cwp_write; [by rewrite Hbl, lookup_insert_ne|done|done|]. apply HQ.
  split; cbn [set_blocks m_blocks m_objects m_stderr m_stdout]; try done.
  - by rewrite lookup_insert_ne.
  - by rewrite Hbl, Hcells, insert_insert_ne.
  - rewrite Hcells, !length_app. lia.
  - split; [|done]. intros b'' Hle. cbn. rewrite lookup_insert_ne; [by apply Hf1|]. intros <-. specialize (Hf1 _ Hle).
    by rewrite Hbl, lookup_insert_ne, Hb' in Hf1.
Qed.

(** The array after its bytes and its length are set. *)
Lemma array_at_set m0 p es elems b cap count rest m elems' rest' m1 :
  array_at m0 p es elems b cap count rest m -> length (concat elems' ++ rest') = cap * es ->
  Forall (fun e => length e = es) elems' ->
  m_blocks m1 = <[b := concat elems' ++ rest']> (m_blocks m0) -> m_objects m1 = m_objects m -> m_block m1 = m_block m ->
  m_object m1 = m_object m -> m_stderr m1 = m_stderr m -> m_stdout m1 = m_stdout m ->
  array_at m0 p es elems' b cap count rest' (set_objects m1 (<[p := Arr (array_record b es (length elems') cap count)]>)).
Proof.
  intros [Hnew Hb Hbl Hobj Hlen Hbytes Hsized Hes Herr Hout [Hf1 Hf2]] Hlen' Hs' Hb1 Ho1 Hc1 Hc2 He1 Hout1.
  split; cbn [set_objects m_blocks m_objects m_stderr m_stdout]; try done; try congruence.
  - by rewrite Ho1, Hobj, insert_insert_eq.
  - split; cbn; [intros b' Hle|intros p' Hle].
    + rewrite Hc1 in Hle. specialize (Hf1 b' Hle). rewrite Hbl in Hf1. rewrite Hb1.
      apply lookup_insert_None in Hf1 as [Hf1 Hne]. by rewrite lookup_insert_ne.
    + rewrite Hc2 in Hle. specialize (Hf2 p' Hle). rewrite lookup_insert_ne; [by rewrite Ho1|].
      intros <-. by rewrite Hobj, lookup_insert_eq in Hf2.
Qed.

(** ** The operations *)

Lemma push_over m0 p es count elems q v m :
  array_over m0 p es count elems m -> value_at m0 q v -> length v = es -> (Z.of_nat ((length elems + 1) * es) < 2 ^ 60)%Z ->
  cwp X (array_push fails (Some p) q) (fun _ => array_over m0 p es count (elems ++ [v])) m.
Proof.
  intros (b & cap & rest & H) Hq Hv Hsize. pose proof (array_bounds _ _ _ _ _ _ _ _ _ H) as (Hlencap & Hcap & _).
  apply cwp_bind. eapply cwp_get_array; [done|]. cbn [array_record ba_length]. apply cwp_bind, cwp_i64; [lia|].
  replace (Z.of_nat (length elems) + 1)%Z with (Z.of_nat (length elems + 1)) by lia.
  apply cwp_bind. eapply cwp_mono; [by eapply ensure_capacity_spec|]. clear b cap rest m H Hlencap Hcap.
  intros [] m (b & cap & rest & H & Hroom). pose proof (array_bounds _ _ _ _ _ _ _ _ _ H) as (_ & Hcap & Hconcat).
  pose proof (aa_room _ _ _ _ _ _ _ _ _ H) as Hlen. pose proof (aa_sized _ _ _ _ _ _ _ _ _ H) as Hsized.
  rewrite length_app, Hconcat in Hlen.
  assert (rest = take es rest ++ drop es rest) as Hrest by by rewrite take_drop.
  assert (length (take es rest) = es) as Htake by (rewrite length_take; nia).
  assert (concat (elems ++ [v]) = concat elems ++ v) as Hsnoc by (rewrite concat_app; cbn; by rewrite app_nil_r).
  apply cwp_bind. eapply cwp_get_array; [done|]. apply cwp_bind_assoc, cwp_bind.
  eapply (cwp_store_elem m0 p es elems b cap count rest m _ (length elems) q v (concat elems) (take es rest) (drop es rest)); try done.
  - rewrite <-Hrest. apply H.
  - rewrite <-Hrest, length_app. lia.
  - apply cwp_put. exists b, cap, (drop es rest).
    assert (set_array_length (array_record b es (length elems) cap count) (Z.of_nat (length elems + 1)) =
      array_record b es (length (elems ++ [v])) cap count) as -> by (unfold set_array_length, array_record; by rewrite length_app).
    eapply array_at_set; [exact H|rewrite Hsnoc, !length_app, length_drop; nia| | |done..].
    + apply Forall_app. by rewrite Forall_singleton.
    + cbn. by rewrite (aa_blocks _ _ _ _ _ _ _ _ _ H), insert_insert_eq, Hsnoc, <-app_assoc.
Qed.

(** Elements moved inside the array. *)
Lemma cwp_shift m b es len cap count to_ from_ n moved pre old post pre' post' (Q : unit -> mem -> Prop) :
  m_blocks m !! b = Some (pre ++ old ++ post) -> pre ++ old ++ post = pre' ++ moved ++ post' ->
  length pre = to_ * es -> length pre' = from_ * es -> length moved = n * es -> length old = length moved -> es <> 0 ->
  (Z.of_nat (length (pre ++ old ++ post)) < 2 ^ 62)%Z -> (Z.of_nat n < 2 ^ 62)%Z -> (Z.of_nat es < 2 ^ 31)%Z ->
  Q tt (set_blocks m (<[b := pre ++ moved ++ post]>)) ->
  cwp X (to ← elem_ptr (array_record b es len cap count) (Z.of_nat to_); from ← elem_ptr (array_record b es len cap count) (Z.of_nat from_);
         memmove to from (bytes_of (Z.of_nat n) (Z.of_nat es))) Q m.
Proof.
  intros Hb Heq Hpre Hpre' Hmoved Hold Hes Hlen Hn Hes31 HQ.
  assert (length pre' + length moved <= length (pre ++ old ++ post)) as Hl by (rewrite Heq, !length_app; lia).
  assert (length pre + length old <= length (pre ++ old ++ post)) as Hl' by (rewrite !length_app; lia).
  apply cwp_bind. eapply cwp_elem_ptr; [done|lia|lia|]. apply cwp_bind. eapply cwp_elem_ptr; [done|lia|lia|].
  unfold bytes_of. rewrite (size_t_small (Z.of_nat n)), (size_t_small (Z.of_nat es)), <-Nat2Z.inj_mul, size_t_small by lia.
  apply cwp_bind. eapply cwp_read; [done|rewrite Heq; apply range_middle; lia|].
  eapply cwp_write; [done|lia|lia|]. by rewrite Nat2Z.id, overwrite_middle by lia.
Qed.

Lemma insert_over m0 p es count l1 l2 q v m :
  array_over m0 p es count (l1 ++ l2) m -> value_at m0 q v -> length v = es -> (Z.of_nat ((length (l1 ++ l2) + 1) * es) < 2 ^ 60)%Z ->
  cwp X (array_insert fails (Some p) (Z.of_nat (length l1)) q) (fun _ => array_over m0 p es count (l1 ++ v :: l2)) m.
Proof.
  intros (b & cap & rest & H) Hq Hv Hsize. pose proof (array_bounds _ _ _ _ _ _ _ _ _ H) as (Hlencap & Hcap & _).
  apply cwp_bind. eapply cwp_get_array; [done|]. cbn [array_record ba_length]. pose proof (length_app l1 l2) as Hll.
  rewrite decide_False by lia. apply cwp_bind, cwp_i64; [lia|].
  replace (Z.of_nat (length (l1 ++ l2)) + 1)%Z with (Z.of_nat (length (l1 ++ l2) + 1)) by lia.
  apply cwp_bind. eapply cwp_mono; [by eapply ensure_capacity_spec|]. clear b cap rest m H Hlencap Hcap.
  intros [] m (b & cap & rest & H & Hroom). pose proof (array_bounds _ _ _ _ _ _ _ _ _ H) as (_ & Hcap & Hconcat).
  pose proof (aa_room _ _ _ _ _ _ _ _ _ H) as Hlen. pose proof (aa_sized _ _ _ _ _ _ _ _ _ H) as Hsized.
  pose proof (aa_bytes _ _ _ _ _ _ _ _ _ H) as Hbytes. pose proof (aa_size _ _ _ _ _ _ _ _ _ H) as [Hes Hes31].
  pose proof (aa_blocks _ _ _ _ _ _ _ _ _ H) as Hbl.
  apply Forall_app in Hsized as [Hs1 Hs2]. pose proof (concat_sized es l1 Hs1) as Hc1. pose proof (concat_sized es l2 Hs2) as Hc2.
  rewrite length_app, Hconcat in Hlen.
  assert (length (take es rest) = es) as Htake by (rewrite length_take; nia).
  set (all := concat l2 ++ take es rest). set (x := take es all). set (y := drop es all).
  assert (length all = length (concat l2) + es) as Hall by (unfold all; rewrite length_app; lia).
  assert (length x = es) as Hx by (unfold x; rewrite length_take; lia).
  assert (length y = length (concat l2)) as Hy by (unfold y; rewrite length_drop; lia).
  assert (concat (l1 ++ l2) ++ rest = (concat l1 ++ x) ++ y ++ drop es rest) as Hcells.
  { rewrite concat_app, <-!app_assoc. f_equal. rewrite (app_assoc x y). unfold x, y. rewrite take_drop. unfold all.
    by rewrite <-app_assoc, take_drop. }
  apply cwp_bind. eapply cwp_get_array; [done|]. apply cwp_bind.
  eapply (cwp_mono _ _ (fun _ m' => m' = set_blocks m (<[b := (concat l1 ++ x) ++ concat l2 ++ drop es rest]>))).
  { unfold c_when. cbn [array_record ba_length ba_elem_size]. case_bool_decide as Hlt.
    - fold (array_record b es (length (l1 ++ l2)) cap count).
      replace (Z.of_nat (length l1) + 1)%Z with (Z.of_nat (length l1 + 1)) by lia.
      replace (Z.of_nat (length (l1 ++ l2)) - Z.of_nat (length l1))%Z with (Z.of_nat (length l2)) by lia.
      eapply (cwp_shift m b es _ _ _ _ _ _ (concat l2) (concat l1 ++ x) y (drop es rest) (concat l1) rest); try done; try lia.
      + by rewrite Hbl, lookup_insert_eq, Hcells.
      + by rewrite <-Hcells, concat_app, <-app_assoc.
      + rewrite length_app. lia.
      + rewrite <-Hcells, length_app. lia.
    - assert (l2 = []) as -> by (apply nil_length_inv; lia). apply cwp_ret. unfold set_blocks.
      assert (y = []) as Hy0 by (apply nil_length_inv; rewrite Hy; done). rewrite Hy0 in Hcells. cbn [concat app] in *.
      destruct m as [blocks bn objects on err out]. cbn in *. f_equal.
      rewrite Hbl, insert_insert_eq, Hcells. done. }
  intros [] m1 ->. apply cwp_bind_assoc, cwp_bind.
  eapply (cwp_store_elem m0 p es (l1 ++ l2) b cap count rest m _ (length l1) q v (concat l1) x (concat l2 ++ drop es rest)); try done.
  - cbn. by rewrite Hbl, insert_insert_eq, <-app_assoc.
  - rewrite !length_app, length_drop. rewrite length_app in *. nia.
  - apply cwp_put. exists b, cap, (drop es rest).
    assert (length (l1 ++ v :: l2) = length (l1 ++ l2) + 1) as Hlv by (rewrite !length_app; cbn; lia).
    assert (set_array_length (array_record b es (length (l1 ++ l2)) cap count) (Z.of_nat (length (l1 ++ l2) + 1)) =
      array_record b es (length (l1 ++ v :: l2)) cap count) as -> by (unfold set_array_length, array_record; by rewrite Hlv).
    assert (concat (l1 ++ v :: l2) ++ drop es rest = concat l1 ++ v ++ concat l2 ++ drop es rest) as Hnew
      by (rewrite concat_app; cbn; by rewrite <-!app_assoc).
    eapply array_at_set; [exact H| | | |done..].
    + rewrite Hnew, !length_app, length_drop. rewrite length_app in *. nia.
    + apply Forall_app. split; [done|]. by apply Forall_cons.
    + cbn. by rewrite Hbl, !insert_insert_eq, Hnew.
Qed.

Lemma split_cells (l1 l2 : list (list cell)) e rest : concat (l1 ++ e :: l2) ++ rest = concat l1 ++ e ++ concat l2 ++ rest.
Proof. rewrite concat_app. cbn. by rewrite <-!app_assoc. Qed.

Lemma get_over m0 m0' p es count l1 e l2 q m :
  array_over m0 p es count (l1 ++ e :: l2) m -> written m0 q e m0' ->
  cwp X (array_get (Some p) (Z.of_nat (length l1)) q) (fun _ => array_over m0' p es count (l1 ++ e :: l2)) m.
Proof.
  intros (b & cap & rest & H) Hq. pose proof (aa_sized _ _ _ _ _ _ _ _ _ H) as Hsized.
  apply Forall_app in Hsized as [Hs1 [He Hs2]%Forall_cons]. pose proof (concat_sized es l1 Hs1) as Hc1.
  apply cwp_bind. eapply cwp_get_array; [done|]. cbn [array_record ba_length ba_elem_size].
  rewrite decide_False by (rewrite length_app; cbn; lia).
  eapply cwp_load_elem; [exact H|apply split_cells|done|done|done|]. intros m' H'. by exists b, cap, rest.
Qed.

Lemma set_over m0 p es count l1 e l2 q v m :
  array_over m0 p es count (l1 ++ e :: l2) m -> value_at m0 q v -> length v = es ->
  cwp X (array_set call_dtor (Some p) (Z.of_nat (length l1)) q) (fun _ => array_over m0 p es count (l1 ++ v :: l2)) m.
Proof.
  intros (b & cap & rest & H) Hq Hv. pose proof (aa_sized _ _ _ _ _ _ _ _ _ H) as Hsized.
  pose proof (aa_room _ _ _ _ _ _ _ _ _ H) as Hlen. pose proof (aa_blocks _ _ _ _ _ _ _ _ _ H) as Hbl.
  apply Forall_app in Hsized as [Hs1 [He Hs2]%Forall_cons]. pose proof (concat_sized es l1 Hs1) as Hc1.
  rewrite split_cells in Hlen, Hbl.
  apply cwp_bind. eapply cwp_get_array; [done|]. cbn [array_record ba_length ba_elem_size ba_elem_dtor].
  rewrite decide_False by (rewrite length_app; cbn; lia). apply cwp_bind, cwp_ret, cwp_bind.
  eapply cwp_get_array; [done|]. cbn [array_record ba_elem_size].
  eapply (cwp_store_elem m0 p es _ b cap count rest m _ (length l1) q v (concat l1) e (concat l2 ++ rest)); try done.
  exists b, cap, rest. pose proof (split_cells l1 l2 v rest) as Hnew.
  assert (length (l1 ++ v :: l2) = length (l1 ++ e :: l2)) as Hlv by (by rewrite !length_app).
  destruct H as [H1 H2 _ H4 _ H6 H7 H8 H9 H10 [Hf1 Hf2]]. split; try done.
  - cbn. by rewrite Hbl, insert_insert_eq, Hnew.
  - cbn. by rewrite H4, Hlv.
  - rewrite Hnew, !length_app in *. lia.
  - apply Forall_app. split; [done|]. by apply Forall_cons.
  - split; [|done]. intros b' Hle. cbn in *. specialize (Hf1 b' Hle). rewrite Hbl in Hf1.
    apply lookup_insert_None in Hf1 as [Hf1 Hne]. rewrite Hbl, insert_insert_eq. by rewrite lookup_insert_ne.
Qed.

Lemma pop_over m0 m0' p es count l e q m :
  array_over m0 p es count (l ++ [e]) m -> written m0 q e m0' ->
  cwp X (array_pop (Some p) q) (fun ok m' => ok = true /\ array_over m0' p es count l m') m.
Proof.
  intros (b & cap & rest & H) Hq. pose proof (aa_sized _ _ _ _ _ _ _ _ _ H) as Hsized.
  pose proof (aa_room _ _ _ _ _ _ _ _ _ H) as Hlen. pose proof (array_bounds _ _ _ _ _ _ _ _ _ H) as (_ & Hcap & _).
  pose proof (aa_blocks _ _ _ _ _ _ _ _ _ H) as Hbl.
  apply Forall_app in Hsized as [Hs1 [He _]%Forall_cons]. pose proof (concat_sized es l Hs1) as Hc1.
  assert (concat (l ++ [e]) ++ rest = concat l ++ e ++ rest) as Hcells by (rewrite split_cells; done).
  rewrite Hcells in Hlen, Hbl. apply cwp_bind. eapply cwp_get_array; [done|]. cbn [array_record ba_length ba_elem_size].
  rewrite length_app. cbn [length]. rewrite decide_False by lia. apply cwp_bind, cwp_i64; [rewrite length_app in *; cbn in *; destruct (array_bounds _ _ _ _ _ _ _ _ _ H) as (Hb & _ & _); rewrite length_app in Hb; cbn in Hb; lia|].
  apply cwp_bind, cwp_put.
  assert (set_array_length (array_record b es (length l + 1) cap count) (Z.of_nat (length l + 1) - 1) =
    array_record b es (length l) cap count) as Hrec.
  { unfold set_array_length, array_record. cbn. f_equal. lia. }
  fold (array_record b es (length l + 1) cap count). rewrite Hrec.
  assert (array_at m0 p es l b cap count (e ++ rest) (set_objects m (<[p := Arr (array_record b es (length l) cap count)]>))) as H'.
  { by eapply array_at_set. }
  assert (exists b' off, q = Some (b', off)) as (b' & off & Hq') by (destruct Hq as (b' & off & _ & -> & _); eauto).
  apply cwp_bind. unfold c_when. rewrite bool_decide_true by (by rewrite Hq').
  replace (Z.of_nat (length l + 1) - 1)%Z with (Z.of_nat (length l)) by lia.
  assert (elem_ptr (array_record b es (length l + 1) cap count) = elem_ptr (array_record b es (length l) cap count)) as -> by done.
  eapply (cwp_load_elem _ _ _ _ _ _ _ _ _ _ (length l) (length l) q e (concat l) rest); [exact H'|done|done|done|done|].
  intros m' Hm'. apply cwp_ret. split; [done|]. by exists b, cap, (e ++ rest).
Qed.

Lemma pop_empty_over m0 p es count q m :
  array_over m0 p es count [] m -> cwp X (array_pop (Some p) q) (fun ok m' => ok = false /\ m' = m) m.
Proof.
  intros (b & cap & rest & H). apply cwp_bind. eapply cwp_get_array; [done|]. by apply cwp_ret.
Qed.

Lemma remove_over m0 m0' p es count l1 e l2 q m :
  array_over m0 p es count (l1 ++ e :: l2) m -> written m0 q e m0' ->
  cwp X (array_remove (Some p) (Z.of_nat (length l1)) q) (fun _ => array_over m0' p es count (l1 ++ l2)) m.
Proof.
  intros (b & cap & rest & H) Hq. pose proof (aa_sized _ _ _ _ _ _ _ _ _ H) as Hsized.
  apply Forall_app in Hsized as [Hs1 [He Hs2]%Forall_cons].
  pose proof (concat_sized es l1 Hs1) as Hc1. pose proof (concat_sized es l2 Hs2) as Hc2.
  assert (exists b' off, q = Some (b', off)) as (b' & off & Hq') by (destruct Hq as (b' & off & _ & -> & _); eauto).
  apply cwp_bind. eapply cwp_get_array; [done|]. cbn [array_record ba_length ba_elem_size].
  assert (length (l1 ++ e :: l2) = length l1 + length l2 + 1) as Hll by (rewrite length_app; cbn; lia).
  rewrite decide_False by lia. apply cwp_bind. unfold c_when at 1. rewrite bool_decide_true by (by rewrite Hq').
  eapply cwp_load_elem; [exact H|apply split_cells|done|done|done|]. clear m H Hq. intros m H.
  pose proof (aa_room _ _ _ _ _ _ _ _ _ H) as Hlen. pose proof (array_bounds _ _ _ _ _ _ _ _ _ H) as (Hlencap & Hcap & _).
  pose proof (aa_blocks _ _ _ _ _ _ _ _ _ H) as Hbl. pose proof (aa_bytes _ _ _ _ _ _ _ _ _ H) as Hbytes.
  pose proof (aa_size _ _ _ _ _ _ _ _ _ H) as [Hes Hes31].
  rewrite split_cells in Hlen, Hbl.
  set (all := e ++ concat l2). set (x := take (length (concat l2)) all). set (y := drop (length (concat l2)) all).
  assert (length all = es + length (concat l2)) as Hall by (unfold all; rewrite length_app; lia).
  assert (length x = length (concat l2)) as Hx by (unfold x; rewrite length_take; lia).
  assert (length y = es) as Hy by (unfold y; rewrite length_drop; lia).
  assert (concat l1 ++ e ++ concat l2 ++ rest = concat l1 ++ x ++ y ++ rest) as Hcells.
  { f_equal. rewrite (app_assoc x y). unfold x, y. rewrite take_drop. unfold all. by rewrite <-app_assoc. }
  apply cwp_bind. eapply (cwp_mono _ _ (fun _ m' => m_blocks m' = <[b := concat (l1 ++ l2) ++ y ++ rest]> (m_blocks m0') /\
    m_objects m' = m_objects m /\ m_block m' = m_block m /\ m_object m' = m_object m /\ m_stderr m' = m_stderr m /\ m_stdout m' = m_stdout m)).
  { unfold c_when. case_bool_decide as Hlt.
    - fold (array_record b es (length (l1 ++ e :: l2)) cap count).
      replace (Z.of_nat (length l1) + 1)%Z with (Z.of_nat (length l1 + 1)) by lia.
      replace (Z.of_nat (length (l1 ++ e :: l2)) - Z.of_nat (length l1) - 1)%Z with (Z.of_nat (length l2)) by lia.
      eapply (cwp_shift m b es _ _ _ _ _ _ (concat l2) (concat l1) x (y ++ rest) (concat l1 ++ e) rest); try done; try lia.
      + by rewrite Hbl, lookup_insert_eq, Hcells.
      + by rewrite <-Hcells, <-app_assoc.
      + rewrite length_app. lia.
      + rewrite <-Hcells. lia.
      + split; [|done]. cbn. by rewrite Hbl, insert_insert_eq, concat_app, <-app_assoc.
    - assert (l2 = []) as -> by (apply nil_length_inv; lia). apply cwp_ret. split; [|done].
      assert (x = []) as Hx0 by (apply nil_length_inv; rewrite Hx; done). rewrite Hx0 in Hcells. rewrite app_nil_r.
      rewrite Hbl, Hcells. done. }
  intros [] m1 (Hb1 & Ho1 & Hc1' & Hc2' & He1 & Hout1). apply cwp_put. exists b, cap, (y ++ rest).
  assert (set_array_length (array_record b es (length (l1 ++ e :: l2)) cap count) (Z.of_nat (length (l1 ++ e :: l2)) - 1) =
    array_record b es (length (l1 ++ l2)) cap count) as Hrec.
  { unfold set_array_length, array_record. rewrite Hll, length_app. cbn. f_equal. lia. }
  fold (array_record b es (length (l1 ++ e :: l2)) cap count). rewrite Hrec.
  eapply array_at_set; [exact H| | |done..].
  - rewrite concat_app, <-app_assoc. rewrite !length_app in *. lia.
  - by apply Forall_app.
Qed.

Lemma clear_over m0 p es count l m :
  array_over m0 p es count l m -> cwp X (array_clear call_dtor (Some p)) (fun _ => array_over m0 p es count []) m.
Proof.
  intros (b & cap & rest & H). apply cwp_bind. eapply cwp_get_array; [done|]. apply cwp_bind.
  unfold destroy_elements. cbn [array_record ba_elem_dtor]. apply cwp_ret, cwp_bind. eapply cwp_get_array; [done|]. apply cwp_put.
  exists b, cap, (concat l ++ rest). eapply (array_at_set _ _ _ _ _ _ _ _ _ [] (concat l ++ rest)); [exact H|apply H|done|apply H|done..].
Qed.

(** ** Values in local arrays *)

Lemma cwp_with_local {A} n (body : ptr -> C A) (Q : A -> mem -> Prop) m :
  fresh m ->
  (forall b m1, with_block m b (replicate n None) m1 ->
     cwp X (body (Some (b, 0%Z))) (fun a m2 => Q a (set_blocks m2 (delete b))) m1) ->
  cwp X (with_local n body) Q m.
Proof.
  intros [Hb Ho] HQ. apply cwp_bind, cwp_get, cwp_bind, cwp_modify, cwp_bind.
  eapply cwp_mono.
  - apply HQ. split; try done; [by apply Hb|]. split; [|done].
    intros b Hle. cbn in *. rewrite lookup_insert_ne by lia. apply Hb. lia.
  - intros a m2 H2. apply cwp_bind, cwp_modify. by apply cwp_ret.
Qed.

Lemma local_in m0 p es count l m b c m1 :
  array_over m0 p es count l m -> with_block m b c m1 ->
  array_over (set_blocks m0 (<[b := c]>)) p es count l m1 /\ m_blocks m0 !! b = None.
Proof.
  intros (d & cap & rest & [H1 H2 H3 H4 H5 H6 H7 H8 H9 H10 H11]) [Hnew Hb Ho Hc He Hout Hf].
  rewrite H3 in Hnew. apply lookup_insert_None in Hnew as [Hnew Hne]. split; [|done].
  exists d, cap, rest. split; cbn; try done; try congruence.
  - by rewrite lookup_insert_ne.
  - by rewrite Hb, H3, insert_insert_ne.
Qed.

Lemma local_out m0 p es count l m b c :
  array_over (set_blocks m0 (<[b := c]>)) p es count l m -> m_blocks m0 !! b = None -> array_over m0 p es count l (set_blocks m (delete b)).
Proof.
  intros (d & cap & rest & [H1 H2 H3 H4 H5 H6 H7 H8 H9 H10 [Hf1 Hf2]]) Hb. cbn in *.
  apply lookup_insert_None in H2 as [H2 Hne]. exists d, cap, rest. split; cbn; try done.
  - rewrite H3, insert_insert_ne by done. by rewrite delete_insert_id by (by rewrite lookup_insert_ne).
  - split; [|done]. intros b' Hle. cbn in *. rewrite lookup_delete_None. right. by apply Hf1.
Qed.

Lemma array_over_fresh m0 p es count l m : array_over m0 p es count l m -> fresh m.
Proof. by intros (b & cap & rest & H%aa_fresh). Qed.

(** [x] holds a value while the body runs. *)
Definition with_value {A} (v : list cell) (body : ptr -> C A) : C A :=
  with_local (length v) (fun x => write_cells x v;; body x).

Lemma cwp_with_value {A} m0 p es count l v (body : ptr -> C A) (Q : A -> list (list cell) -> Prop) m :
  array_over m0 p es count l m ->
  (forall m0' q m1, array_over m0' p es count l m1 -> value_at m0' q v ->
     cwp X (body q) (fun a m2 => exists l', Q a l' /\ array_over m0' p es count l' m2) m1) ->
  cwp X (with_value v body) (fun a m2 => exists l', Q a l' /\ array_over m0 p es count l' m2) m.
Proof.
  intros H Hbody. apply cwp_with_local; [by eapply array_over_fresh|]. intros b m1 H1.
  apply cwp_bind. eapply (cwp_mono _ _ (fun _ => with_block m b v)).
  { destruct H1 as [Hn Hb Ho Hc He Hout [Hf1 Hf2]].
    eapply cwp_write; [by rewrite Hb, lookup_insert_eq|done|rewrite length_replicate; lia|].
    split; try done; cbn.
    - rewrite Hb, insert_insert_eq. f_equal. unfold overwrite. cbn [take app Nat.add]. rewrite drop_ge by (rewrite length_replicate; lia).
      by rewrite app_nil_r.
    - split; [|done]. intros b' Hle. cbn in *. rewrite lookup_insert_ne; [by apply Hf1|]. intros <-.
      specialize (Hf1 _ Hle). by rewrite Hb, lookup_insert_eq in Hf1. }
  intros [] m2 H2. destruct (local_in _ _ _ _ _ _ _ _ _ H H2) as [Hin Hb0].
  eapply cwp_mono.
  - apply (Hbody _ (Some (b, 0%Z)) _ Hin). exists b, 0%Z, v. split; [done|]. split; [by cbn; rewrite lookup_insert_eq|].
    pose proof (range_middle [] v [] 0 (Z.of_nat (length v)) eq_refl eq_refl) as Hr. by rewrite app_nil_r in Hr.
  - intros a m3 (l' & HQ & H3). exists l'. split; [done|]. by eapply local_out.
Qed.

(** An element is written to a local array and read from it. *)
Lemma cwp_with_out {A} m0 p es count l l' e (body : ptr -> C A) (k : ptr -> A -> C (option (list cell))) (P : A -> Prop) m :
  array_over m0 p es count l m -> length e = es ->
  (forall m0 m0' q m1, array_over m0 p es count l m1 -> written m0 q e m0' ->
     cwp X (body q) (fun a m2 => P a /\ array_over m0' p es count l' m2) m1) ->
  (forall q a, P a -> k q a = (v ← read_cells q (Z.of_nat es); mret (Some v))) ->
  cwp X (with_local es (fun x => a ← body x; k x a)) (fun out m2 => out = Some e /\ array_over m0 p es count l' m2) m.
Proof.
  intros H He Hbody Hk. apply cwp_with_local; [by eapply array_over_fresh|]. intros b m1 H1.
  destruct (local_in _ _ _ _ _ _ _ _ _ H H1) as [Hin Hb0].
  apply cwp_bind. eapply cwp_mono.
  - apply (Hbody _ (set_blocks m0 (<[b := e]>)) (Some (b, 0%Z)) _ Hin). exists b, 0%Z, (replicate es None). split; [done|].
    split; [by cbn; rewrite lookup_insert_eq|]. split; [done|]. split; [rewrite length_replicate; lia|].
    unfold set_blocks. cbn. f_equal. rewrite insert_insert_eq. f_equal. unfold overwrite. cbn [take app Nat.add].
    rewrite drop_ge by (rewrite length_replicate; lia). by rewrite app_nil_r.
  - intros a m2 [HP H2]. rewrite Hk by done. apply cwp_bind.
    pose proof H2 as (d & cap & rest & [_ H2b H2c _ _ _ _ _ _ _ _]). cbn [set_blocks m_blocks] in H2b, H2c. apply lookup_insert_None in H2b as [_ Hne].
    eapply cwp_read; [by rewrite H2c, lookup_insert_ne, lookup_insert_eq| |].
    + pose proof (range_middle [] e [] 0 (Z.of_nat es) eq_refl) as Hr. rewrite app_nil_r in Hr. apply Hr. by rewrite He.
    + apply cwp_ret. split; [done|]. by eapply local_out.
Qed.

(** ** Sequences of operations *)

Inductive array_op :=
  | APush (v : list cell)
  | APop
  | AInsert (i : Z) (v : list cell)
  | ARemove (i : Z)
  | ASet (i : Z) (v : list cell)
  | AGet (i : Z)
  | AClear.

(** A call, with its value in a local array and its result read from one. *)
Definition call_op (p es : nat) (op : array_op) : C (option (list cell)) :=
  let a := Some p in
  let out (x : ptr) := v ← read_cells x (Z.of_nat es); mret (Some v) in
  match op with
  | APush v => with_value v (fun x => array_push fails a x;; mret None)
  | APop => with_local es (fun x => ok ← array_pop a x; if ok : bool then out x else mret None)
  | AInsert i v => with_value v (fun x => array_insert fails a i x;; mret None)
  | ARemove i => with_local es (fun x => _ ← array_remove a i x; out x)
  | ASet i v => with_value v (fun x => array_set call_dtor a i x;; mret None)
  | AGet i => with_local es (fun x => _ ← array_get a i x; out x)
  | AClear => array_clear call_dtor a;; mret None
  end.

(** The same on a list; nothing for an index that is outside. *)
Definition list_op (op : array_op) (l : list (list cell)) : option (list (list cell) * option (list cell)) :=
  let at_ i := if decide (0 <= i)%Z then l !! Z.to_nat i else None in
  match op with
  | APush v => Some (l ++ [v], None)
  | APop => Some (removelast l, last l)
  | AInsert i v => if decide (0 <= i <= Z.of_nat (length l))%Z then Some (take (Z.to_nat i) l ++ v :: drop (Z.to_nat i) l, None) else None
  | ARemove i => e ← at_ i; Some (delete (Z.to_nat i) l, Some e)
  | ASet i v => _ ← at_ i; Some (<[Z.to_nat i := v]> l, None)
  | AGet i => e ← at_ i; Some (l, Some e)
  | AClear => Some ([], None)
  end.

Definition op_sized (es : nat) (op : array_op) : Prop :=
  match op with APush v | AInsert _ v | ASet _ v => length v = es | _ => True end.

Lemma at_split (l : list (list cell)) i e :
  (if decide (0 <= i)%Z then l !! Z.to_nat i else None) = Some e ->
  exists l1 l2, l = l1 ++ e :: l2 /\ i = Z.of_nat (length l1) /\ Z.to_nat i = length l1.
Proof.
  case_decide; [|done]. intros Hi. exists (take (Z.to_nat i) l), (drop (S (Z.to_nat i)) l).
  pose proof (lookup_lt_Some _ _ _ Hi). rewrite take_drop_middle, length_take by done. split; [done|]. lia.
Qed.

Lemma array_op_refines m0 p es count l l' out op m :
  array_over m0 p es count l m -> op_sized es op -> (Z.of_nat ((length l + 1) * es) < 2 ^ 60)%Z -> list_op op l = Some (l', out) ->
  cwp X (call_op p es op) (fun out' m' => out' = out /\ array_over m0 p es count l' m') m.
Proof.
  intros H Hop Hfit Hl.
  assert (forall v (body : ptr -> C unit), (forall m0' q m1, array_over m0' p es count l m1 -> value_at m0' q v ->
    cwp X (body q) (fun _ => array_over m0' p es count l') m1) -> out = None ->
    cwp X (with_value v (fun x => body x;; mret None)) (fun out' m' => out' = out /\ array_over m0 p es count l' m') m) as Hvalue.
  { intros v body Hbody Hout. eapply cwp_mono.
    - eapply (cwp_with_value _ _ _ _ _ _ _ (fun out' l'' => out' = None /\ l'' = l') _ H). intros m0' q m1 H1 Hq.
      apply cwp_bind. eapply cwp_mono; [by apply Hbody|]. intros [] m2 H2. apply cwp_ret. by exists l'.
    - intros a m2 (l'' & [-> ->] & H2). by subst. }
  assert (Forall (fun e => length e = es) l) as Hsized by (destruct H as (b & cap & rest & H); apply H).
  destruct op as [v| |i v|i|i v|i|]; cbn [list_op call_op op_sized] in *.
  - injection Hl as <- <-. apply Hvalue; [|done]. intros. by apply push_over.
  - injection Hl as <- <-. destruct l as [|e l _] using rev_ind.
    + apply cwp_with_local; [by eapply array_over_fresh|]. intros b m1 H1. destruct (local_in _ _ _ _ _ _ _ _ _ H H1) as [Hin Hb0].
      apply cwp_bind. eapply cwp_mono; [by eapply pop_empty_over|]. intros ok m2 [-> ->]. apply cwp_ret. split; [done|]. by eapply local_out.
    + rewrite removelast_last, last_snoc. apply Forall_app in Hsized as [_ [He _]%Forall_cons].
      eapply (cwp_with_out _ _ _ _ _ _ _ _ _ (fun ok => ok = true) _ H He); [|by intros q a ->].
      intros. by eapply pop_over.
  - case_decide as Hi; [|done]. injection Hl as <- <-. apply Hvalue; [|done]. intros m0' q m1 H1 Hq.
    rewrite <-(take_drop (Z.to_nat i) l) in H1, Hfit.
    replace i with (Z.of_nat (length (take (Z.to_nat i) l))) at 1 by (rewrite length_take; lia). by apply insert_over.
  - destruct (if decide _ then _ else _) as [e|] eqn:Hi; [|done]. apply at_split in Hi as (l1 & l2 & -> & -> & Hn).
    injection Hl as <- <-. rewrite Hn, delete_middle. apply Forall_app in Hsized as [_ [He _]%Forall_cons].
    eapply (cwp_with_out _ _ _ _ _ _ _ _ _ (fun _ => True) _ H He); [|done]. intros. eapply cwp_mono; [by eapply remove_over|]. done.
  - destruct (if decide _ then _ else _) as [e|] eqn:Hi; [|done]. apply at_split in Hi as (l1 & l2 & -> & -> & Hn).
    injection Hl as <- <-. rewrite Hn, insert_app_r_alt, Nat.sub_diag in * by done. cbn. apply Hvalue; [|done]. intros. by eapply set_over.
  - destruct (if decide _ then _ else _) as [e|] eqn:Hi; [|done]. apply at_split in Hi as (l1 & l2 & -> & -> & Hn).
    injection Hl as <- <-. apply Forall_app in Hsized as [_ [He _]%Forall_cons].
    eapply (cwp_with_out _ _ _ _ _ _ _ _ _ (fun _ => True) _ H He); [|done]. intros. eapply cwp_mono; [by eapply get_over|]. done.
  - injection Hl as <- <-. apply cwp_bind. eapply cwp_mono; [by eapply clear_over|]. intros [] m' H'. by apply cwp_ret.
Qed.

(** The message about the index of an operation. *)
Definition bounds_message (op : array_op) (length : nat) : string :=
  let about what (i : Z) := "blang: array " +:+ what +:+ " out of bounds: index " +:+ pretty i +:+ ", length " +:+ pretty (Z.of_nat length) in
  match op with
  | AInsert i _ => about "insert index" i
  | ARemove i => about "remove index" i
  | ASet i _ | AGet i => about "index" i
  | _ => ""
  end.

(** The program has stopped with a message, and memory is as it was, but for blocks that
    were made since. *)
Definition stopped (m : mem) (message : string) (code : Z) (m' : mem) : Prop :=
  code = 1%Z /\ m_objects m' = m_objects m /\ m_blocks m ⊆ m_blocks m' /\ m_stdout m' = m_stdout m /\
  m_stderr m' = m_stderr m +:+ message +:+ str [newline].

(** What a value's local block changes. *)
Definition besides (m m1 : mem) : Prop :=
  m_objects m1 = m_objects m /\ m_blocks m ⊆ m_blocks m1 /\ m_stdout m1 = m_stdout m /\ m_stderr m1 = m_stderr m.

Lemma die_stops m m1 msg {A} (c : C A) Q : besides m m1 -> c m1 = die msg m1 -> cwp (stopped m msg) c Q m1.
Proof. intros (H1 & H2 & H3 & H4) E. unfold cwp. rewrite E. cbn. split_and!; try done. cbn. by rewrite H4. Qed.

Lemma local_besides m n {B} (body : ptr -> C B) msg :
  fresh m ->
  (forall d m1, besides m m1 -> m_blocks m !! d = None -> m_blocks m1 !! d = Some (replicate n None) ->
    cwp (stopped m msg) (body (Some (d, 0%Z))) (fun _ _ => False) m1) ->
  cwp (stopped m msg) (with_local n body) (fun _ _ => False) m.
Proof.
  intros [Hf _] Hbody. apply cwp_bind, cwp_get, cwp_bind, cwp_modify, cwp_bind.
  assert (m_blocks m !! m_block m = None) as Hnew by by apply Hf.
  eapply cwp_mono; [apply Hbody; [|done|cbn; by rewrite lookup_insert_eq]|done].
  split_and!; try done. cbn. by apply insert_subseteq.
Qed.

(** An index outside stops the program. *)
Lemma array_op_stops m0 p es count l op m :
  array_over m0 p es count l m -> op_sized es op -> list_op op l = None ->
  cwp (stopped m (bounds_message op (length l))) (call_op p es op) (fun _ _ => False) m.
Proof.
  intros (b & cap & rest & H) Hop Hl. pose proof (aa_fresh _ _ _ _ _ _ _ _ _ H) as Hfresh.
  assert (forall i, (if decide (0 <= i)%Z then l !! Z.to_nat i else None) = None -> (i < 0 \/ Z.of_nat (length l) <= i)%Z) as Hat.
  { intros i. case_decide; [|lia]. intros ?%lookup_ge_None. lia. }
  assert (forall m1, besides m m1 ->
    get_array p m1 = Done (inr (array_record b es (length l) cap count), m1)) as Hget.
  { intros m1 [Hm _]. unfold get_array, mbind, C_bind, c_get. by rewrite Hm, (aa_objects _ _ _ _ _ _ _ _ _ H), lookup_insert_eq. }
  assert (forall {B} v msg (body : ptr -> C B), (forall q m1, besides m m1 ->
    cwp (stopped m msg) (body q) (fun _ _ => False) m1) ->
    cwp (stopped m msg) (with_value v body) (fun _ _ => False) m) as Hvalue.
  { intros B v msg body Hbody. apply local_besides; [done|]. intros d m1 (H1 & H2 & H3 & H4) Hnew Hd. apply cwp_bind.
    eapply cwp_write; [done|done|rewrite length_replicate; lia|]. apply Hbody. split_and!; try done. cbn.
    apply map_subseteq_spec. intros k x Hk. rewrite lookup_insert_ne by (intros <-; by rewrite Hnew in Hk). by eapply lookup_weaken. }
  destruct op as [v| |i v|i|i v|i|]; cbn [list_op call_op bounds_message] in *; try done.
  - case_decide; [done|]. apply Hvalue. intros q m1 Hm. apply cwp_bind. eapply die_stops; [done|]. unfold array_insert.
    rewrite (bind_done _ _ _ _ _ (Hget m1 Hm)). cbn [array_record ba_length]. rewrite decide_True by lia. reflexivity.
  - destruct (if decide _ then _ else _) eqn:E; [done|]. apply Hat in E. apply local_besides; [done|]. intros d m1 Hm _ Hd. apply cwp_bind.
    eapply die_stops; [done|]. unfold array_remove. rewrite (bind_done _ _ _ _ _ (Hget m1 Hm)). cbn [array_record ba_length].
    rewrite decide_True by lia. reflexivity.
  - destruct (if decide _ then _ else _) eqn:E; [done|]. apply Hat in E. apply Hvalue. intros q m1 Hm. apply cwp_bind.
    eapply die_stops; [done|]. unfold array_set. rewrite (bind_done _ _ _ _ _ (Hget m1 Hm)). cbn [array_record ba_length].
    rewrite decide_True by lia. reflexivity.
  - destruct (if decide _ then _ else _) eqn:E; [done|]. apply Hat in E. apply local_besides; [done|]. intros d m1 Hm _ Hd. apply cwp_bind.
    eapply die_stops; [done|]. unfold array_get. rewrite (bind_done _ _ _ _ _ (Hget m1 Hm)). cbn [array_record ba_length].
    rewrite decide_True by lia. reflexivity.
Qed.

(** ** From creation to release *)

Fixpoint call_ops (p es : nat) (ops : list array_op) : C (list (option (list cell))) :=
  match ops with
  | [] => mret []
  | op :: ops => out ← call_op p es op; outs ← call_ops p es ops; mret (out :: outs)
  end.

Fixpoint list_ops (ops : list array_op) (l : list (list cell)) : option (list (list cell) * list (option (list cell))) :=
  match ops with
  | [] => Some (l, [])
  | op :: ops => '(l, out) ← list_op op l; '(l, outs) ← list_ops ops l; Some (l, out :: outs)
  end.

Lemma list_op_length op l l' out : list_op op l = Some (l', out) -> length l' <= S (length l).
Proof.
  destruct op as [v| |i v|i|i v|i|]; cbn; intros H.
  - injection H as <- _. rewrite length_app. cbn. lia.
  - injection H as <- _. destruct l as [|e l _] using rev_ind; [cbn; lia|]. rewrite removelast_last, length_app. lia.
  - case_decide; [|done]. injection H as <- _. rewrite length_app, length_take. cbn. rewrite length_drop. lia.
  - destruct (if decide _ then _ else _) eqn:E; [|done]. injection H as <- _. apply at_split in E as (l1 & l2 & -> & _ & ->).
    rewrite delete_middle, !length_app. cbn. lia.
  - destruct (if decide _ then _ else _); [|done]. injection H as <- _. rewrite length_insert. lia.
  - destruct (if decide _ then _ else _); [|done]. injection H as <- _. lia.
  - injection H as <- _. cbn. lia.
Qed.

Lemma ops_refine m0 p es count ops : forall l l' outs m,
  array_over m0 p es count l m -> Forall (op_sized es) ops -> (Z.of_nat ((length l + length ops) * es) < 2 ^ 60)%Z ->
  list_ops ops l = Some (l', outs) ->
  cwp X (call_ops p es ops) (fun outs' m' => outs' = outs /\ array_over m0 p es count l' m') m.
Proof.
  induction ops as [|op ops IH]; intros l l' outs m H Hops Hfit Hl; cbn [list_ops call_ops] in *.
  - injection Hl as <- <-. by apply cwp_ret.
  - apply Forall_cons in Hops as [Hop Hops]. destruct (list_op op l) as [[l1 out]|] eqn:E; [|done]. cbn in Hl.
    destruct (list_ops ops l1) as [[l2 outs2]|] eqn:E2; [|done]. cbn in Hl. injection Hl as <- <-.
    pose proof (list_op_length _ _ _ _ E) as Hlen. cbn [length] in Hfit.
    apply cwp_bind. eapply cwp_mono; [eapply array_op_refines; [done|done| |done]; nia|]. intros out' m1 [-> H1].
    apply cwp_bind. eapply cwp_mono; [eapply IH; [done|done| |done]; nia|]. intros outs' m2 [-> H2]. by apply cwp_ret.
Qed.

Lemma create_over m es n :
  fresh m -> 0 < es -> (Z.of_nat es < 2 ^ 31)%Z -> (Z.of_nat (n * es) < 2 ^ 60)%Z ->
  cwp X (array_create fails (Z.of_nat es) (Z.of_nat n)) (fun p => array_over m p es 1 []) m.
Proof.
  intros Hf Hes Hes31 Hn. unfold array_create. set (c := if decide _ then _ else _).
  assert (exists cap, c = Z.of_nat cap /\ (Z.of_nat (cap * es) < 2 ^ 62)%Z) as (cap & -> & Hcap).
  { unfold c, kArrayDefaultCapacity. case_decide; [exists 8|exists n]; split; try done; lia. }
  apply cwp_bind, cwp_malloc_object; [done| |intros; by apply cwp_die].
  intros m1 Hb1 Ho1 He1 Hout1 Hnew Hf1 Hs. assert (Z.of_nat cap < 2 ^ 62)%Z as Hcap' by nia.
  apply cwp_bind. unfold calloc. rewrite !size_t_small, <-Nat2Z.inj_mul, Nat2Z.id by lia. rewrite decide_True by lia.
  apply cwp_allocate; [done| |intros HX; by apply cwp_die]. intros b m2 [Hn2 Hb2 Ho2 Hc2 He2 Hout2 [Hf21 Hf22]].
  rewrite decide_False by done. apply cwp_bind, cwp_put, cwp_ret.
  exists b, cap, (replicate (cap * es) (Some "000"%char)).
  split; cbn [set_objects m_blocks m_objects m_stderr m_stdout]; try done; try congruence.
  - by rewrite Hb2, Hb1.
  - by rewrite Ho2, Ho1.
  - cbn. by rewrite length_replicate.
  - split; cbn; [done|]. intros p' Hle. rewrite lookup_insert_ne by lia. by apply Hf22.
Qed.

Lemma release_over m0 p es l b cap rest m :
  array_at m0 p es l b cap 1 rest m ->
  cwp X (array_release call_dtor (Some p)) (fun _ m' => m_blocks m' = m_blocks m0 /\ m_objects m' = m_objects m0) m.
Proof.
  intros H. apply cwp_bind. eapply cwp_get_array; [done|]. cbn [array_record ba_ref_count].
  destruct H as [H1 H2 H3 H4 H5 H6 H7 H8 H9 H10 H11]. apply cwp_bind, cwp_put. unfold c_when.
  change (s32 (1 - 1)) with 0%Z. rewrite bool_decide_true by done.
  apply cwp_bind. unfold destroy_elements. cbn [ba_elem_dtor]. apply cwp_ret.
  apply cwp_bind. unfold free. cbn [ba_data]. apply cwp_bind, cwp_get, cwp_bind. cbn [set_objects m_blocks].
  eapply cwp_some; [by rewrite H3, lookup_insert_eq|]. rewrite decide_True by done. apply cwp_modify.
  apply cwp_bind, cwp_get, cwp_bind. cbn [set_objects set_blocks m_objects].
  eapply cwp_some; [by rewrite lookup_insert_eq|]. apply cwp_modify. cbn.
  rewrite H3, H4, insert_insert_eq, !delete_insert_id by done. done.
Qed.
End arrays.

(** C35. The run-time arrays refine lists: an array that is made and then given any
    operations on elements of its size, with indices inside, holds after them what the
    same operations make of a list, and each answers as on the list, without an access
    outside a live block or an overflow, whatever room was asked for and however often
    it grows; the rest of memory does not change, and releasing the array gives its
    memory back. It stops the program only when an allocation fails. *)
Theorem array_operations_refine fails call_dtor m es n ops l outs :
  fresh m -> 0 < es -> (Z.of_nat es < 2 ^ 31)%Z -> (Z.of_nat (n * es) < 2 ^ 60)%Z ->
  Forall (op_sized es) ops -> (Z.of_nat (length ops * es) < 2 ^ 60)%Z -> list_ops ops [] = Some (l, outs) ->
  cwp (out_of_memory fails) (p ← array_create fails (Z.of_nat es) (Z.of_nat n); outs ← call_ops fails call_dtor p es ops; mret (p, outs))
    (fun r m' => r.2 = outs /\ array_over m r.1 es 1 l m' /\
       cwp (out_of_memory fails) (array_release call_dtor (Some r.1))
         (fun _ m'' => m_blocks m'' = m_blocks m /\ m_objects m'' = m_objects m) m') m.
Proof.
  intros Hf Hes Hes31 Hn Hops Hfit Hl. apply cwp_bind. eapply cwp_mono; [by apply create_over|]. intros p m1 H1.
  apply cwp_bind. eapply cwp_mono; [eapply ops_refine; [exact H1|done|exact Hfit|exact Hl]|]. intros outs' m2 [-> H2]. apply cwp_ret. split; [done|].
  split; [done|]. destruct H2 as (b & cap & rest & H2). by eapply release_over.
Qed.

(** A value of two bytes. *)
Definition pair (a b : string) : list cell := map Some (chars a ++ chars b).

Definition sample_ops : list array_op :=
  [APush (pair "a" "1"); APush (pair "b" "2"); AInsert 0 (pair "c" "3"); AGet 2; ARemove 1; ASet 0 (pair "d" "4"); APop].

Lemma array_operations_refine_witness :
  let fails _ _ := false in
  list_ops sample_ops [] = Some ([pair "d" "4"], [None; None; None; Some (pair "b" "2"); Some (pair "a" "1"); None; Some (pair "b" "2")]) /\
  cwp (out_of_memory fails) (p ← array_create fails 2 0; outs ← call_ops fails (fun _ _ => c_undefined) p 2 sample_ops; mret (p, outs))
    (fun r m' => r.2 = [None; None; None; Some (pair "b" "2"); Some (pair "a" "1"); None; Some (pair "b" "2")] /\
       array_over (mkMem ∅ 0 ∅ 0 "" "") r.1 2 1 [pair "d" "4"] m' /\
       cwp (out_of_memory fails) (array_release (fun _ _ => c_undefined) (Some r.1))
         (fun _ m'' => m_blocks m'' = ∅ /\ m_objects m'' = ∅) m') (mkMem ∅ 0 ∅ 0 "" "").
Proof.
  split; [vm_compute; reflexivity|].
  apply (array_operations_refine (fun _ _ => false) (fun _ _ => c_undefined) (mkMem ∅ 0 ∅ 0 "" "") 2 0 sample_ops);
    [by split|lia|done|done|by repeat constructor|done|vm_compute; reflexivity].
Defined.

(** C36. An operation on an array with an index outside its bounds - getting, setting,
    inserting or removing - stops the program with code 1 and a message that names the
    index and the length, and until then has touched nothing: all objects, the array's
    among them, and every block of memory are as they were. *)
Theorem array_bounds_checked fails call_dtor m0 p es count l op m :
  array_over m0 p es count l m -> op_sized es op -> list_op op l = None ->
  cwp (stopped m (bounds_message op (length l))) (call_op fails call_dtor p es op) (fun _ _ => False) m.
Proof. apply array_op_stops. Qed.

Lemma array_bounds_checked_witness :
  let m := mkMem {[0 := [Some "x"%char]]} 1 {[0 := Arr (mkArray (Some (0, 0%Z)) 1 1 1 1 None)]} 1 "" "" in
  cwp (stopped m "blang: array index out of bounds: index 1, length 1")
    (call_op (fun _ _ => false) (fun _ _ => c_undefined) 0 1 (AGet 1)) (fun _ _ => False) m.
Proof.
  apply (array_bounds_checked (fun _ _ => false) _ (mkMem ∅ 1 ∅ 1 "" "") 0 1 1 [[Some "x"%char]] (AGet 1)); [|done|done].
  exists 0, 1, []. split; try done; [by repeat constructor|split; [lia|done]|].
  split; cbn; intros k Hk; rewrite lookup_singleton_ne by lia; done.
Defined.
