(* ===== verification/RuntimeBuffer.v ===== *)
(** The byte buffers of the run-time library ([src/runtime/blang_buffer.c]). *)

From stdpp Require Import pretty.
From S2P Require Import Prelude RuntimeMemory RuntimeString RuntimeArray.

Section buffers.
Variable fails : Z -> mem -> bool.

Definition kBufferDefaultCapacity : Z := 64.

(** [sizeof( BlangBuffer )] *)
Definition buffer_size : Z := 32.

Definition put_buffer (p : nat) (b : BlangBuffer) : C unit := put_object p (Buf b).

Definition set_buffer_length (b : BlangBuffer) (length : Z) : BlangBuffer :=
  mkBuffer (bb_data b) length (bb_capacity b) (bb_ref_count b).
Definition set_buffer_count (b : BlangBuffer) (count : Z) : BlangBuffer :=
  mkBuffer (bb_data b) (bb_length b) (bb_capacity b) count.

Definition buffer_ensure_capacity (p : nat) (needed : Z) : C unit :=
  b ← get_buffer p;
  if decide (needed <= bb_capacity b)%Z then mret tt
  else
    new_cap ← grow needed (if decide (bb_capacity b < kBufferDefaultCapacity)%Z then kBufferDefaultCapacity else bb_capacity b);
    data ← realloc fails (bb_data b) new_cap;
    put_buffer p (mkBuffer data (bb_length b) (bb_capacity b) (bb_ref_count b));;
    if decide (data = None) then die "blang: buffer realloc failed"
    else put_buffer p (mkBuffer data (bb_length b) new_cap (bb_ref_count b)).

(** * Creation *)

(** A buffer of [length] bytes with room for [cap], all of them zero. *)
Definition new_buffer (length cap : Z) : C nat :=
  b ← malloc_object fails buffer_size;
  match b with
  | None => die "blang: buffer alloc failed"
  | Some b =>
      data ← calloc fails cap 1;
      if decide (data = None) then die "blang: buffer data alloc failed"
      else put_buffer b (mkBuffer data length cap 1);; mret b
  end.

Definition at_least (capacity : Z) : Z := if decide (capacity < kBufferDefaultCapacity)%Z then kBufferDefaultCapacity else capacity.

Definition buffer_create (capacity : Z) : C nat := new_buffer 0 (at_least capacity).

(** A buffer of the bytes at a place. *)
Definition buffer_of (from : C ptr) (len : Z) : C nat :=
  b ← new_buffer len (at_least len);
  r ← get_buffer b;
  c_when (bool_decide (0 < len)%Z) (src ← from; memcpy (bb_data r) src len);;
  mret b.

Definition buffer_create_from_string (s : option nat) : C nat :=
  match s with
  | None => buffer_create kBufferDefaultCapacity
  | Some p => s ← get_string p; buffer_of (mret (bs_data s)) (bs_length s)
  end.

(** * Reference counting *)

Definition buffer_retain (b : option nat) : C unit :=
  match b with
  | None => mret tt
  | Some p => b ← get_buffer p; put_buffer p (set_buffer_count b (s32 (bb_ref_count b + 1)))
  end.

Definition buffer_release (b : option nat) : C unit :=
  match b with
  | None => mret tt
  | Some p =>
      b ← get_buffer p;
      let new_count := s32 (bb_ref_count b - 1) in
      put_buffer p (set_buffer_count b new_count);;
      c_when (bool_decide (new_count <= 0)%Z) (free (bb_data b);; free_object p)
  end.

(** * Properties *)

Definition buffer_length (b : option nat) : C Z :=
  match b with None => mret 0%Z | Some p => b ← get_buffer p; mret (bb_length b) end.
Definition buffer_capacity (b : option nat) : C Z :=
  match b with None => mret 0%Z | Some p => b ← get_buffer p; mret (bb_capacity b) end.
Definition buffer_is_empty (b : option nat) : C Z :=
  match b with None => mret 1%Z | Some p => b ← get_buffer p; mret (if decide (bb_length b = 0%Z) then 1 else 0)%Z end.

(** * Access *)

Definition buffer_index_error {A} (index length : Z) : C A :=
  die ("blang: buffer index out of bounds: index " +:+ pretty index +:+ ", length " +:+ pretty length).

Definition buffer_get (b : option nat) (index : Z) : C Z :=
  match b with
  | None => die "blang: buffer get on null buffer"
  | Some p =>
      b ← get_buffer p;
      if decide (index < 0 \/ bb_length b <= index)%Z then buffer_index_error index (bb_length b)
      else c ← load_char (bb_data b) index; mret (Z.of_N (N_of_ascii c))
  end.

(** [(uint8_t)( value & 0xFF )] *)
Definition byte_of (value : Z) : ascii := ascii_of_N (Z.to_N (value mod 256)).

Definition buffer_set (b : option nat) (index value : Z) : C unit :=
  match b with
  | None => die "blang: buffer set on null buffer"
  | Some p =>
      b ← get_buffer p;
      if decide (index < 0 \/ bb_length b <= index)%Z then buffer_index_error index (bb_length b)
      else store_char (bb_data b) index (byte_of value)
  end.

(** * Appending *)

Definition buffer_append_byte (b : option nat) (byte : Z) : C unit :=
  match b with
  | None => die "blang: buffer append_byte on null buffer"
  | Some p =>
      b ← get_buffer p;
      needed ← i64 (bb_length b + 1);
      buffer_ensure_capacity p needed;;
      b ← get_buffer p;
      store_char (bb_data b) (bb_length b) (byte_of byte);;
      put_buffer p (set_buffer_length b needed)
  end.

(** The bytes at the place [from] gives, once there is room for them. *)
Definition append_from (p : nat) (from : C ptr) (len : Z) : C unit :=
  b ← get_buffer p;
  needed ← i64 (bb_length b + len);
  buffer_ensure_capacity p needed;;
  b ← get_buffer p;
  to ← ptr_add (bb_data b) (bb_length b);
  src ← from;
  memcpy to src (size_t len);;
  put_buffer p (set_buffer_length b needed).

Definition buffer_append_bytes (b src : option nat) (len : Z) : C unit :=
  match b, src with
  | None, _ => die "blang: buffer append_bytes on null buffer"
  | Some _, None => mret tt
  | Some p, Some q =>
      if decide (len <= 0)%Z then mret tt
      else
        s ← get_buffer q;
        append_from p (s ← get_buffer q; mret (bb_data s)) (if decide (bb_length s < len)%Z then bb_length s else len)
  end.

Definition buffer_append_string (b s : option nat) : C unit :=
  match b, s with
  | None, _ => die "blang: buffer append_string on null buffer"
  | Some _, None => mret tt
  | Some p, Some q =>
      s ← get_string q;
      if decide (bs_length s <= 0)%Z then mret tt else append_from p (mret (bs_data s)) (bs_length s)
  end.

(** * Searching and slicing *)

Definition buffer_index_of (b pattern : option nat) (offset : Z) : C Z :=
  match b, pattern with
  | Some p, Some q =>
      b ← get_buffer p;
      n ← get_buffer q;
      let offset := if decide (offset < 0)%Z then 0%Z else offset in
      if decide (bb_length n <= 0)%Z then mret offset
      else
        end_ ← i64 (offset + bb_length n);
        if decide (bb_length b < end_)%Z then mret (-1)%Z
        else
          r ← c_for offset (bb_length b - bb_length n + 1) (fun i =>
            at_ ← ptr_add (bb_data b) i;
            c ← memcmp at_ (bb_data n) (bb_length n);
            mret (if decide (c = 0%Z) then Some i else None));
          mret (default (-1)%Z r)
  | _, _ => mret (-1)%Z
  end.

(** The bounds of a range of [length] bytes; nothing if it is empty. *)
Definition clamp (start end_ length : Z) : option (Z * Z) :=
  let start := if decide (start < 0)%Z then 0%Z else start in
  let end_ := if decide (length < end_)%Z then length else end_ in
  if decide (end_ <= start)%Z then None else Some (start, end_).

Definition buffer_slice (b : option nat) (start end_ : Z) : C nat :=
  match b with
  | None => buffer_create kBufferDefaultCapacity
  | Some p =>
      b ← get_buffer p;
      match clamp start end_ (bb_length b) with
      | None => buffer_create kBufferDefaultCapacity
      | Some (start, end_) => len ← i64 (end_ - start); buffer_of (ptr_add (bb_data b) start) len
      end
  end.

(** * Conversion *)

Definition buffer_to_string (b : option nat) : C nat :=
  match b with None => empty_string fails | Some p => b ← get_buffer p; string_create fails (bb_data b) (bb_length b) end.

Definition buffer_to_string_range (b : option nat) (start end_ : Z) : C nat :=
  match b with
  | None => empty_string fails
  | Some p =>
      b ← get_buffer p;
      match clamp start end_ (bb_length b) with
      | None => empty_string fails
      | Some (start, end_) => from ← ptr_add (bb_data b) start; n ← i64 (end_ - start); string_create fails from n
      end
  end.

(** * Management *)

Definition buffer_clear (b : option nat) : C unit :=
  match b with None => mret tt | Some p => b ← get_buffer p; put_buffer p (set_buffer_length b 0) end.

Definition buffer_compact (b : option nat) (bytes : Z) : C unit :=
  match b with
  | None => mret tt
  | Some p =>
      if decide (bytes <= 0)%Z then mret tt
      else
        b ← get_buffer p;
        if decide (bb_length b <= bytes)%Z then put_buffer p (set_buffer_length b 0)
        else
          from ← ptr_add (bb_data b) bytes;
          memmove (bb_data b) from (size_t (bb_length b - bytes));;
          put_buffer p (set_buffer_length b (bb_length b - bytes))
  end.
End buffers.
