(* ===== verification/RuntimeBufferTheorems.v ===== *)
(** The functions of the run-time library on buffers, as operations on texts. *)

From S2P Require Import Prelude RuntimeMemory RuntimeString RuntimeStringLogic RuntimeStringTheorems RuntimeArray RuntimeArrayTheorems RuntimeBuffer.

(** Memory is [m0] and a buffer that holds [l], in a block [b] of its own with room for
    [cap] bytes. *)
Record buffer_at (m0 : mem) (p : nat) (count : Z) (l : list ascii) (b cap : nat) (rest : list cell) (m : mem) : Prop := {
  ba_new : m_objects m0 !! p = None;
  ba_block : m_blocks m0 !! b = None;
  ba_blocks : m_blocks m = <[b := map Some l ++ rest]> (m_blocks m0);
  ba_objects : m_objects m = <[p := Buf (mkBuffer (Some (b, 0%Z)) (Z.of_nat (length l)) (Z.of_nat cap) count)]> (m_objects m0);
  ba_room : length l + length rest = cap;
  ba_cap : (Z.of_nat cap < 2 ^ 62)%Z;
  ba_stderr : m_stderr m = m_stderr m0;
  ba_stdout : m_stdout m = m_stdout m0;
  ba_fresh : fresh m
}.

Definition buffer_over (m0 : mem) (p : nat) (count : Z) (l : list ascii) (m : mem) : Prop :=
  exists b cap rest, buffer_at m0 p count l b cap rest m.

Section buffers.
Variable fails : Z -> mem -> bool.
Notation X := (out_of_memory fails).

Lemma cwp_get_buffer m0 p count l b cap rest m Q :
  buffer_at m0 p count l b cap rest m ->
  Q (mkBuffer (Some (b, 0%Z)) (Z.of_nat (length l)) (Z.of_nat cap) count) m -> cwp X (get_buffer p) Q m.
Proof. intros H HQ. eapply cwp_buffer; [|exact HQ]. by rewrite (ba_objects _ _ _ _ _ _ _ _ H), lookup_insert_eq. Qed.

Lemma buffer_reads m0 p count l b cap rest m : buffer_at m0 p count l b cap rest m -> reads m (Some (b, 0%Z)) l.
Proof.
  intros H. exists b, 0%Z, (map Some l ++ rest). split; [done|]. split; [by rewrite (ba_blocks _ _ _ _ _ _ _ _ H), lookup_insert_eq|].
  apply (range_middle []); [done|]. by rewrite length_map.
Qed.

Lemma reads_over m0 p count l b cap rest m q t :
  buffer_at m0 p count l b cap rest m -> reads m0 q t -> reads m q t /\ forall off n, overlap (Some (b, off)) q n = false.
Proof.
  intros H (b' & off & cells & -> & Hb & Hr).
  assert (b <> b') as Hne by (intros <-; by rewrite (ba_block _ _ _ _ _ _ _ _ H) in Hb). split.
  - exists b', off, cells. by rewrite (ba_blocks _ _ _ _ _ _ _ _ H), lookup_insert_ne.
  - intros off' n. cbn. apply bool_decide_false. naive_solver.
Qed.

(** The bytes and the length of the buffer are set. *)
Lemma buffer_at_set m0 p count l b cap rest m l' rest' m1 :
  buffer_at m0 p count l b cap rest m -> length l' + length rest' = cap ->
  m_blocks m1 = <[b := map Some l' ++ rest']> (m_blocks m0) -> m_objects m1 = m_objects m -> m_block m1 = m_block m ->
  m_object m1 = m_object m -> m_stderr m1 = m_stderr m -> m_stdout m1 = m_stdout m ->
  buffer_over m0 p count l' (set_objects m1 (<[p := Buf (mkBuffer (Some (b, 0%Z)) (Z.of_nat (length l')) (Z.of_nat cap) count)]>)).
Proof.
  intros [Hnew Hb Hbl Hobj Hlen Hcap Herr Hout [Hf1 Hf2]] Hlen' Hb1 Ho1 Hc1 Hc2 He1 Hout1. exists b, cap, rest'.
  split; cbn [set_objects m_blocks m_objects m_stderr m_stdout]; try done; try congruence.
  - by rewrite Ho1, Hobj, insert_insert_eq.
  - split; cbn; [intros b' Hle|intros p' Hle].
    + rewrite Hc1 in Hle. specialize (Hf1 b' Hle). rewrite Hbl in Hf1. rewrite Hb1.
      apply lookup_insert_None in Hf1 as [Hf1 Hne]. by rewrite lookup_insert_ne.
    + rewrite Hc2 in Hle. specialize (Hf2 p' Hle). rewrite lookup_insert_ne; [by rewrite Ho1|].
      intros <-. by rewrite Hobj, lookup_insert_eq in Hf2.
Qed.

Lemma buffer_ensure_spec m0 p count l b cap rest m n :
  buffer_at m0 p count l b cap rest m -> (Z.of_nat (length l + n) < 2 ^ 60)%Z ->
  cwp X (buffer_ensure_capacity fails p (Z.of_nat (length l + n)))
    (fun _ m' => exists b cap rest, buffer_at m0 p count l b cap rest m' /\ n <= length rest) m.
Proof.
  intros H Hsize. apply cwp_bind. eapply cwp_get_buffer; [done|].
  cbn [bb_capacity bb_data bb_length bb_ref_count]. pose proof (ba_room _ _ _ _ _ _ _ _ H) as Hroom. case_decide as Henough.
  { apply cwp_ret. exists b, cap, rest. split; [done|lia]. }
  destruct H as [Hnew Hb Hbl Hobj Hlen Hcap He Ho Hfresh].
  set (init := if decide _ then _ else _). assert (8 <= init /\ init = Z.max 64 (Z.of_nat cap))%Z as [H8 Hinit].
  { unfold init, kBufferDefaultCapacity. case_decide; lia. }
  apply cwp_bind, grow_spec; [lia|lia|lia|]. intros new_cap Hge Hbound.
  assert (exists k, new_cap = Z.of_nat k) as [k ->] by (exists (Z.to_nat new_cap); lia).
  assert (length (map Some l ++ rest) = cap) as Hold by (by rewrite length_app, length_map).
  apply cwp_bind. eapply cwp_realloc; [done|by rewrite Hbl, lookup_insert_eq|lia|lia| |intros HX; apply cwp_bind, cwp_put; by apply cwp_die].
  intros nb m1 Hnb Hbl1 Hobj1 Hcnt He1 Ho1 [Hf1 Hf2]. rewrite Hold, <-app_assoc in Hbl1.
  apply cwp_bind, cwp_put. rewrite decide_False by done. apply cwp_put.
  exists nb, k, (rest ++ replicate (k - cap) None). split; [|rewrite length_app, length_replicate; lia]. rewrite Hbl in Hnb.
  apply lookup_insert_None in Hnb as [Hnb Hne].
  assert (m_object m1 <= p -> False) as Hp.
  { intros Hp. specialize (Hf2 p Hp). by rewrite Hobj1, Hobj, lookup_insert_eq in Hf2. }
  split; cbn [set_objects m_blocks m_objects m_stderr m_stdout]; try done; try congruence.
  - by rewrite Hbl1, Hbl, delete_insert_id.
  - by rewrite Hobj1, Hobj, !insert_insert_eq.
  - rewrite length_app, length_replicate. lia.
  - lia.
  - split; cbn; [done|]. intros p' Hle'. rewrite !lookup_insert_ne by (intros ->; auto). by apply Hf2.
Qed.

(** The bytes at a place are put behind those of the buffer. *)
Lemma append_over m0 p count l t from m :
  buffer_over m0 p count l m -> (Z.of_nat (length l + length t) < 2 ^ 60)%Z ->
  (forall b cap rest m', buffer_at m0 p count l b cap rest m' -> length t <= length rest ->
     cwp X from (fun q m'' => m'' = m' /\ reads m' q t /\ overlap (Some (b, Z.of_nat (length l))) q (Z.of_nat (length t)) = false) m') ->
  cwp X (append_from fails p from (Z.of_nat (length t))) (fun _ => buffer_over m0 p count (l ++ t)) m.
Proof.
  intros (b & cap & rest & H) Hsize Hfrom. apply cwp_bind. eapply cwp_get_buffer; [done|]. cbn [bb_length].
  apply cwp_bind, cwp_i64; [lia|]. rewrite <-Nat2Z.inj_add. apply cwp_bind.
  eapply cwp_mono; [by eapply buffer_ensure_spec|]. clear b cap rest m H. intros [] m (b & cap & rest & H & Hroom).
  pose proof (ba_room _ _ _ _ _ _ _ _ H) as Hlen. pose proof (ba_blocks _ _ _ _ _ _ _ _ H) as Hbl.
  apply cwp_bind. eapply cwp_get_buffer; [done|]. cbn [bb_length bb_data].
  apply cwp_bind. eapply cwp_add; [by rewrite Hbl, lookup_insert_eq|rewrite length_app, length_map; lia|]. rewrite Z.add_0_l.
  apply cwp_bind. eapply cwp_mono; [by eapply Hfrom|]. intros q m'' (-> & (b' & off & cells & -> & Hb' & Hr) & Hov).
  rewrite size_t_small by lia. apply cwp_bind. unfold memcpy. rewrite Hov.
  apply cwp_bind. eapply cwp_read; [exact Hb'|exact Hr|].
  eapply cwp_write; [by rewrite Hbl, lookup_insert_eq|lia|rewrite length_app, !length_map; lia|]. apply cwp_put.
  unfold set_buffer_length. cbn [bb_data bb_capacity bb_ref_count]. rewrite <-(length_app l t).
  eapply (buffer_at_set _ _ _ _ _ _ _ _ _ (drop (length t) rest)); [exact H|rewrite length_app, length_drop; lia| |done..].
  cbn. rewrite Hbl, insert_insert_eq, Nat2Z.id. f_equal.
  rewrite <-(take_drop (length t) rest) at 1. rewrite overwrite_middle by (rewrite ?length_map, ?length_take; lia).
  by rewrite map_app, <-app_assoc.
Qed.

(** ** The operations *)

Lemma append_byte_over m0 p count l v m :
  buffer_over m0 p count l m -> (Z.of_nat (length l + 1) < 2 ^ 60)%Z ->
  cwp X (buffer_append_byte fails (Some p) v) (fun _ => buffer_over m0 p count (l ++ [byte_of v])) m.
Proof.
  intros (b & cap & rest & H) Hsize. apply cwp_bind. eapply cwp_get_buffer; [done|]. cbn [bb_length].
  apply cwp_bind, cwp_i64; [lia|]. replace (Z.of_nat (length l) + 1)%Z with (Z.of_nat (length l + 1)) by lia. apply cwp_bind.
  eapply cwp_mono; [by eapply buffer_ensure_spec|]. clear b cap rest m H. intros [] m (b & cap & rest & H & Hroom).
  pose proof (ba_room _ _ _ _ _ _ _ _ H) as Hlen. pose proof (ba_blocks _ _ _ _ _ _ _ _ H) as Hbl.
  apply cwp_bind. eapply cwp_get_buffer; [done|]. cbn [bb_length bb_data]. destruct rest as [|c rest]; [cbn in *; lia|].
  apply cwp_bind, cwp_bind. eapply cwp_add; [by rewrite Hbl, lookup_insert_eq|rewrite length_app, length_map; lia|]. rewrite Z.add_0_l.
  eapply cwp_write; [by rewrite Hbl, lookup_insert_eq|lia|rewrite length_app, length_map; cbn; lia|]. apply cwp_put.
  unfold set_buffer_length. cbn [bb_data bb_capacity bb_ref_count].
  replace (length l + 1) with (length (l ++ [byte_of v])) by (by rewrite length_app).
  eapply (buffer_at_set _ _ _ _ _ _ _ _ _ rest); [exact H|rewrite length_app; cbn in *; lia| |done..].
  cbn. rewrite Hbl, insert_insert_eq, Nat2Z.id. f_equal.
  change (c :: rest) with ([c] ++ rest). rewrite overwrite_middle by (rewrite ?length_map; done). by rewrite map_app, <-app_assoc.
Qed.

Lemma append_string_over m0 p count l s t m :
  buffer_over m0 p count l m -> is_string m0 s t -> (Z.of_nat (length l + length t) < 2 ^ 60)%Z ->
  cwp X (buffer_append_string fails (Some p) (Some s)) (fun _ => buffer_over m0 p count (l ++ t)) m.
Proof.
  intros H (r & Hs & Hlen & Hfit & Hr) Hsize. pose proof H as (b & cap & rest & Hat).
  assert (s <> p) as Hne by (intros ->; by rewrite (ba_new _ _ _ _ _ _ _ _ Hat) in Hs).
  apply cwp_bind. eapply cwp_string; [by rewrite (ba_objects _ _ _ _ _ _ _ _ Hat), lookup_insert_ne|]. rewrite Hlen. case_decide as Hz.
  - apply cwp_ret. assert (t = []) as -> by (apply nil_length_inv; lia). by rewrite app_nil_r.
  - apply append_over; [done|done|]. intros b' cap' rest' m' H' _. apply cwp_ret. split; [done|].
    destruct (reads_over _ _ _ _ _ _ _ _ _ _ H' Hr) as [Hr' Hov]. by split.
Qed.

(** A buffer may be put behind itself. *)
Lemma append_self_over m0 p count l n m :
  buffer_over m0 p count l m -> (Z.of_nat (length l + length l) < 2 ^ 60)%Z ->
  cwp X (buffer_append_bytes fails (Some p) (Some p) (Z.of_nat n)) (fun _ => buffer_over m0 p count (l ++ take n l)) m.
Proof.
  intros H Hsize. unfold buffer_append_bytes. case_decide as Hz.
  { apply cwp_ret. by replace n with 0 by lia; rewrite take_0, app_nil_r. }
  pose proof H as (b & cap & rest & Hat). apply cwp_bind. eapply cwp_get_buffer; [done|]. cbn [bb_length].
  replace (if decide _ then _ else _) with (Z.of_nat (length (take n l))) by (rewrite length_take; case_decide; lia).
  apply append_over; [done|rewrite length_take; lia|]. intros b' cap' rest' m' H' Hroom. apply cwp_bind.
  eapply cwp_get_buffer; [done|]. apply cwp_ret. split; [done|]. split.
  - destruct (reads_sub m' _ l 0 (length (take n l)) (buffer_reads _ _ _ _ _ _ _ _ H')) as (d & off & [= <- <-] & Hr & _);
      [rewrite length_take; lia|]. rewrite drop_0, length_take in Hr.
    by replace (take (n `min` length l) l) with (take n l) in Hr by (rewrite <-(take_ge l (length l)) at 1 by done; by rewrite take_take).
  - cbn. apply bool_decide_false. rewrite length_take. lia.
Qed.

Lemma buffer_set_over m0 p count l1 c l2 v m :
  buffer_over m0 p count (l1 ++ c :: l2) m ->
  cwp X (buffer_set (Some p) (Z.of_nat (length l1)) v) (fun _ => buffer_over m0 p count (l1 ++ byte_of v :: l2)) m.
Proof.
  intros (b & cap & rest & H). pose proof (ba_blocks _ _ _ _ _ _ _ _ H) as Hbl. pose proof (ba_room _ _ _ _ _ _ _ _ H) as Hlen.
  apply cwp_bind. eapply cwp_get_buffer; [done|]. cbn [bb_length bb_data].
  rewrite decide_False by (rewrite length_app; cbn; lia).
  assert (map Some (l1 ++ c :: l2) ++ rest = map Some l1 ++ [Some c] ++ map Some l2 ++ rest) as Hcells.
  { rewrite map_app, <-app_assoc. done. }
  rewrite Hcells in Hbl.
  apply cwp_bind. eapply cwp_add; [by rewrite Hbl, lookup_insert_eq|rewrite length_app, length_map; cbn; lia|]. rewrite Z.add_0_l.
  eapply cwp_write; [by rewrite Hbl, lookup_insert_eq|lia|rewrite length_app, length_map; cbn; lia|].
  exists b, cap, rest. assert (length (l1 ++ byte_of v :: l2) = length (l1 ++ c :: l2)) as Hl by (by rewrite !length_app).
  destruct H as [H1 H2 _ H4 H5 H6 H7 H8 [Hf1 Hf2]]. split; cbn [set_blocks m_blocks m_objects m_stderr m_stdout]; try done.
  - rewrite Hbl, insert_insert_eq, Nat2Z.id. f_equal. rewrite overwrite_middle by (rewrite ?length_map; done).
    by rewrite map_app, <-app_assoc.
  - by rewrite H4, Hl.
  - by rewrite Hl.
  - split; [|done]. intros b' Hle. cbn in *. specialize (Hf1 b' Hle). rewrite Hbl in Hf1.
    apply lookup_insert_None in Hf1 as [Hf1 Hne]. rewrite Hbl, insert_insert_eq. by rewrite lookup_insert_ne.
Qed.

Lemma clear_buffer_over m0 p count l m :
  buffer_over m0 p count l m -> cwp X (buffer_clear (Some p)) (fun _ => buffer_over m0 p count []) m.
Proof.
  intros (b & cap & rest & H). apply cwp_bind. eapply cwp_get_buffer; [done|]. apply cwp_put.
  eapply (buffer_at_set _ _ _ _ _ _ _ _ [] (map Some l ++ rest)); [exact H| |apply H|done..].
  cbn. rewrite length_app, length_map. apply H.
Qed.

Lemma compact_over m0 p count l n m :
  buffer_over m0 p count l m -> cwp X (buffer_compact (Some p) n) (fun _ => buffer_over m0 p count (drop (Z.to_nat n) l)) m.
Proof.
  intros (b & cap & rest & H). unfold buffer_compact. case_decide as Hz.
  { apply cwp_ret. replace (Z.to_nat n) with 0 by lia. rewrite drop_0. by exists b, cap, rest. }
  pose proof (ba_blocks _ _ _ _ _ _ _ _ H) as Hbl. pose proof (ba_room _ _ _ _ _ _ _ _ H) as Hlen. pose proof (ba_cap _ _ _ _ _ _ _ _ H) as Hcap.
  apply cwp_bind. eapply cwp_get_buffer; [done|]. cbn [bb_length bb_data]. case_decide as Hall.
  { apply cwp_put. rewrite drop_ge by lia.
    eapply (buffer_at_set _ _ _ _ _ _ _ _ [] (map Some l ++ rest)); [exact H| |apply H|done..].
    cbn. rewrite length_app, length_map. apply H. }
  assert (exists k, n = Z.of_nat k) as [k ->] by (exists (Z.to_nat n); lia). rewrite Nat2Z.id. set (kept := drop k l).
  assert (length kept = length l - k) as Hkept by (unfold kept; by rewrite length_drop).
  apply cwp_bind. eapply cwp_add; [by rewrite Hbl, lookup_insert_eq|rewrite length_app, length_map; lia|]. rewrite Z.add_0_l.
  rewrite size_t_small by lia. replace (Z.of_nat (length l) - Z.of_nat k)%Z with (Z.of_nat (length kept)) by lia.
  assert (map Some l ++ rest = map Some (take k l) ++ map Some kept ++ rest) as Hcells.
  { rewrite app_assoc, <-map_app. unfold kept. by rewrite take_drop. }
  apply cwp_bind, cwp_bind. eapply cwp_read; [by rewrite Hbl, lookup_insert_eq|rewrite Hcells; apply range_middle; rewrite ?length_map, ?length_take; lia|].
  eapply cwp_write; [by rewrite Hbl, lookup_insert_eq|done|rewrite length_app, !length_map; lia|]. apply cwp_put.
  set (all := map Some l ++ rest). assert (length all = cap) as Hlall by (unfold all; by rewrite length_app, length_map).
  eapply (buffer_at_set _ _ _ _ _ _ _ _ kept (drop (length kept) all)); [exact H|rewrite length_drop; lia| |done..].
  cbn. rewrite Hbl, insert_insert_eq. f_equal. fold all. unfold overwrite. cbn [take app Nat.add]. by rewrite length_map.
Qed.

Lemma buffer_get_over m0 p count l i c m :
  buffer_over m0 p count l m -> l !! i = Some c ->
  cwp X (buffer_get (Some p) (Z.of_nat i)) (fun v m' => v = Z.of_N (N_of_ascii c) /\ buffer_over m0 p count l m') m.
Proof.
  intros (b & cap & rest & H) Hi. pose proof (lookup_lt_Some _ _ _ Hi). apply cwp_bind. eapply cwp_get_buffer; [done|].
  cbn [bb_length bb_data]. rewrite decide_False by lia.
  apply cwp_bind. eapply cwp_load; [by eapply buffer_reads|done|]. apply cwp_ret. split; [done|]. by exists b, cap, rest.
Qed.

Lemma buffer_length_over m0 p count l m :
  buffer_over m0 p count l m ->
  cwp X (buffer_length (Some p)) (fun n m' => n = Z.of_nat (length l) /\ buffer_over m0 p count l m') m.
Proof. intros (b & cap & rest & H). apply cwp_bind. eapply cwp_get_buffer; [done|]. apply cwp_ret. split; [done|]. by exists b, cap, rest. Qed.

(** ** Sequences *)

Inductive buffer_op :=
  | BAppend (v : Z)
  | BAppendString (s : nat) (t : list ascii)
  | BAppendSelf (n : nat)
  | BSet (i v : Z)
  | BGet (i : Z)
  | BLength
  | BCompact (n : Z)
  | BClear.

(** The operation, with what it answers. *)
Definition call_buffer (p : nat) (op : buffer_op) : C (option Z) :=
  match op with
  | BAppend v => buffer_append_byte fails (Some p) v;; mret None
  | BAppendString s _ => buffer_append_string fails (Some p) (Some s);; mret None
  | BAppendSelf n => buffer_append_bytes fails (Some p) (Some p) (Z.of_nat n);; mret None
  | BSet i v => buffer_set (Some p) i v;; mret None
  | BGet i => v ← buffer_get (Some p) i; mret (Some v)
  | BLength => n ← buffer_length (Some p); mret (Some n)
  | BCompact n => buffer_compact (Some p) n;; mret None
  | BClear => buffer_clear (Some p);; mret None
  end.

Definition bytes_op (op : buffer_op) (l : list ascii) : option (list ascii * option Z) :=
  match op with
  | BAppend v => Some (l ++ [byte_of v], None)
  | BAppendString _ t => Some (l ++ t, None)
  | BAppendSelf n => Some (l ++ take n l, None)
  | BSet i v => if decide (0 <= i < Z.of_nat (length l))%Z then Some (<[Z.to_nat i := byte_of v]> l, None) else None
  | BGet i => c ← (if decide (0 <= i)%Z then l !! Z.to_nat i else None); Some (l, Some (Z.of_N (N_of_ascii c)))
  | BLength => Some (l, Some (Z.of_nat (length l)))
  | BCompact n => Some (drop (Z.to_nat n) l, None)
  | BClear => Some ([], None)
  end.

(** The strings that are put into the buffer are there, and what it grows to fits. *)
Definition op_ready (m0 : mem) (op : buffer_op) (l : list ascii) : Prop :=
  match op with
  | BAppend _ => (Z.of_nat (length l + 1) < 2 ^ 60)%Z
  | BAppendString s t => is_string m0 s t /\ (Z.of_nat (length l + length t) < 2 ^ 60)%Z
  | BAppendSelf n => (Z.of_nat (length l + length l) < 2 ^ 60)%Z
  | _ => True
  end.

Lemma no_answer {A} (c : C unit) (P : mem -> Prop) m :
  cwp X c (fun _ => P) m -> cwp X (c;; mret None) (fun (out : option A) m' => out = None /\ P m') m.
Proof. intros Hc. apply cwp_bind. eapply cwp_mono; [exact Hc|]. intros [] m' Hm'. by apply cwp_ret. Qed.

Lemma buffer_op_refines m0 p count l l' out op m :
  buffer_over m0 p count l m -> op_ready m0 op l -> bytes_op op l = Some (l', out) ->
  cwp X (call_buffer p op) (fun out' m' => out' = out /\ buffer_over m0 p count l' m') m.
Proof.
  intros H Hop Hl. destruct op as [v|s t|n|i v|i| |n|]; cbn [call_buffer bytes_op op_ready] in *.
  - injection Hl as <- <-. by apply no_answer, append_byte_over.
  - injection Hl as <- <-. destruct Hop. by apply no_answer, append_string_over.
  - injection Hl as <- <-. by apply no_answer, append_self_over.
  - case_decide as Hi; [|done]. injection Hl as <- <-. destruct (lookup_lt_is_Some_2 l (Z.to_nat i) ltac:(lia)) as [c Hc].
    pose proof (take_drop_middle _ _ _ Hc) as Hsplit. assert (length (take (Z.to_nat i) l) = Z.to_nat i) as Hlen by (rewrite length_take; lia).
    rewrite <-Hsplit in H. rewrite insert_take_drop by lia. apply no_answer.
    replace i with (Z.of_nat (length (take (Z.to_nat i) l))) at 1 by lia. by eapply buffer_set_over.
  - case_decide as Hi; [|done]. destruct (l !! Z.to_nat i) as [c|] eqn:Hc; [|done]. injection Hl as <- <-.
    replace i with (Z.of_nat (Z.to_nat i)) by lia. apply cwp_bind. eapply cwp_mono; [by eapply buffer_get_over|].
    intros v m' [-> H']. by apply cwp_ret.
  - injection Hl as <- <-. apply cwp_bind. eapply cwp_mono; [by eapply buffer_length_over|]. intros v m' [-> H']. by apply cwp_ret.
  - injection Hl as <- <-. by apply no_answer, compact_over.
  - injection Hl as <- <-. apply no_answer. by eapply clear_buffer_over.
Qed.

Fixpoint call_buffer_ops (p : nat) (ops : list buffer_op) : C (list (option Z)) :=
  match ops with [] => mret [] | op :: ops => out ← call_buffer p op; outs ← call_buffer_ops p ops; mret (out :: outs) end.

(** What the bytes become and what is answered, if every operation is ready when its
    turn comes. *)
Inductive bytes_ops (m0 : mem) : list buffer_op -> list ascii -> list ascii -> list (option Z) -> Prop :=
  | bytes_none l : bytes_ops m0 [] l l []
  | bytes_some op ops l l1 l2 out outs :
      op_ready m0 op l -> bytes_op op l = Some (l1, out) -> bytes_ops m0 ops l1 l2 outs ->
      bytes_ops m0 (op :: ops) l l2 (out :: outs).

Lemma buffer_ops_refine m0 p count ops l l' outs m :
  bytes_ops m0 ops l l' outs -> buffer_over m0 p count l m ->
  cwp X (call_buffer_ops p ops) (fun outs' m' => outs' = outs /\ buffer_over m0 p count l' m') m.
Proof.
  intros Hops. revert m. induction Hops as [l|op ops l l1 l2 out outs Hr Hop _ IH]; intros m H; cbn [call_buffer_ops]; [by apply cwp_ret|].
  apply cwp_bind. eapply cwp_mono; [by eapply buffer_op_refines|]. intros out' m1 [-> H1].
  apply cwp_bind. eapply cwp_mono; [by apply IH|]. intros outs' m2 [-> H2]. by apply cwp_ret.
Qed.

Lemma buffer_release_over m0 p l m :
  buffer_over m0 p 1 l m ->
  cwp X (buffer_release (Some p)) (fun _ m' => m_blocks m' = m_blocks m0 /\ m_objects m' = m_objects m0) m.
Proof.
  intros (b & cap & rest & H). apply cwp_bind. eapply cwp_get_buffer; [done|]. cbn [bb_ref_count].
  destruct H as [H1 H2 H3 H4 H5 H6 H7 H8 H9]. apply cwp_bind, cwp_put. unfold c_when.
  change (s32 (1 - 1)) with 0%Z. rewrite bool_decide_true by done.
  apply cwp_bind. unfold free. cbn [bb_data]. apply cwp_bind, cwp_get, cwp_bind. cbn [set_objects m_blocks].
  eapply cwp_some; [by rewrite H3, lookup_insert_eq|]. rewrite decide_True by done. apply cwp_modify.
  apply cwp_bind, cwp_get, cwp_bind. cbn [set_objects set_blocks m_objects].
  eapply cwp_some; [by rewrite lookup_insert_eq|]. apply cwp_modify. cbn.
  rewrite H3, H4, insert_insert_eq, !delete_insert_id by done. done.
Qed.

Lemma buffer_create_over m n :
  fresh m -> (Z.of_nat n < 2 ^ 62)%Z -> cwp X (buffer_create fails (Z.of_nat n)) (fun p => buffer_over m p 1 []) m.
Proof.
  intros Hf Hn. unfold buffer_create, at_least. set (c := if decide _ then _ else _).
  assert (exists cap, c = Z.of_nat cap /\ (Z.of_nat cap < 2 ^ 62)%Z) as (cap & -> & Hcap).
  { unfold c, kBufferDefaultCapacity. case_decide; [exists 64|exists n]; split; try done; lia. }
  apply cwp_bind, cwp_malloc_object; [done| |intros; by apply cwp_die].
  intros m1 Hb1 Ho1 He1 Hout1 Hnew Hf1 Hs.
  apply cwp_bind. unfold calloc. rewrite (size_t_small (Z.of_nat cap)) by lia. change (size_t 1) with 1%Z.
  rewrite Z.mul_1_r, Nat2Z.id, decide_True by lia.
  apply cwp_allocate; [done| |intros HX; by apply cwp_die]. intros b m2 [Hn2 Hb2 Ho2 Hc2 He2 Hout2 [Hf21 Hf22]].
  rewrite decide_False by done. apply cwp_bind, cwp_put, cwp_ret.
  exists b, cap, (replicate cap (Some "000"%char)).
  split; cbn [set_objects m_blocks m_objects m_stderr m_stdout]; try done; try congruence.
  - by rewrite Hb2, Hb1.
  - by rewrite Ho2, Ho1.
  - cbn. by rewrite length_replicate.
  - split; cbn; [done|]. intros p' Hle. rewrite lookup_insert_ne by lia. by apply Hf22.
Qed.

Lemma buffer_to_string_new m0 p count l m :
  buffer_over m0 p count l m -> cwp X (buffer_to_string fails (Some p)) (fun q m' => new_string m q l m') m.
Proof.
  intros (b & cap & rest & H). pose proof (ba_room _ _ _ _ _ _ _ _ H) as Hlen. pose proof (ba_cap _ _ _ _ _ _ _ _ H) as Hcap.
  apply cwp_bind. eapply cwp_get_buffer; [done|]. cbn [bb_data bb_length].
  apply string_create_new; [apply H|right; by eapply buffer_reads|lia].
Qed.
End buffers.

(** C37. The run-time buffers refine texts: a buffer that is made and then given any
    operations - appending bytes, strings and itself, writing and reading bytes inside,
    asking for its length, dropping bytes at the front, clearing - holds after them what
    the same operations make of a text, and each answers as on the text, without an
    access outside a live block, however often it grows; nothing else in memory changes,
    the string made of the buffer is that text, and releasing the buffer gives its
    memory back. It stops the program only when an allocation fails. *)
Theorem buffer_operations_refine fails m n ops l outs :
  fresh m -> (Z.of_nat n < 2 ^ 62)%Z -> bytes_ops m ops [] l outs ->
  cwp (out_of_memory fails) (p ← buffer_create fails (Z.of_nat n); outs ← call_buffer_ops fails p ops; mret (p, outs))
    (fun r m' => r.2 = outs /\ buffer_over m r.1 1 l m' /\
       cwp (out_of_memory fails) (buffer_to_string fails (Some r.1)) (fun q m'' => new_string m' q l m'') m' /\
       cwp (out_of_memory fails) (buffer_release (Some r.1))
         (fun _ m'' => m_blocks m'' = m_blocks m /\ m_objects m'' = m_objects m) m') m.
Proof.
  intros Hf Hn Hops. apply cwp_bind. eapply cwp_mono; [by apply buffer_create_over|]. intros p m1 H1.
  apply cwp_bind. eapply cwp_mono; [eapply buffer_ops_refine; [exact Hops|exact H1]|]. intros outs' m2 [-> H2]. apply cwp_ret.
  split; [done|]. split; [done|]. split; [by eapply buffer_to_string_new|by eapply buffer_release_over].
Qed.

Lemma buffer_operations_refine_witness :
  let m := two_texts "abc" "" in
  let ops := [BAppendString 0 (chars "abc"); BAppend 33; BSet 0 65; BGet 0; BAppendSelf 2; BCompact 1; BLength] in
  let outs := [None; None; None; Some 65%Z; None; None; Some 5%Z] in
  cwp (out_of_memory no_failure) (p ← buffer_create no_failure 0; outs ← call_buffer_ops no_failure p ops; mret (p, outs))
    (fun r m' => r.2 = outs /\ buffer_over m r.1 1 (chars "bc!Ab") m' /\
       cwp (out_of_memory no_failure) (buffer_to_string no_failure (Some r.1)) (fun q m'' => new_string m' q (chars "bc!Ab") m'') m' /\
       cwp (out_of_memory no_failure) (buffer_release (Some r.1))
         (fun _ m'' => m_blocks m'' = m_blocks m /\ m_objects m'' = m_objects m) m') m.
Proof.
  cbn zeta. apply (buffer_operations_refine no_failure (two_texts "abc" "") 0); [apply two_texts_fresh|done|].
  destruct (two_texts_strings "abc" "" ltac:(done) ltac:(done)) as [Ha _].
  repeat (eapply bytes_some; [first [done|split; [exact Ha|done]]|vm_compute; reflexivity|]). apply bytes_none.
Defined.
