(* ===== verification/RuntimeJson.v ===== *)
(** The JSON values of running programs ([src/runtime/blang_json.c],
    [src/runtime/blang_json.h]): trees of nodes on the heap, their text, which is
    written into a buffer that grows, and the parser of a C string. *)

From stdpp Require Import pretty.
From Stdlib Require Import Floats.SpecFloat.
From S2P Require Import Prelude Json RuntimeMemory RuntimeString.

(** * The heap

    What an allocation made is a cell, named by a number: a node, the characters of a
    string, the items of an array or the pairs of an object. A character or an element
    is missing as long as it has not been written. *)

Notation address := (option nat).

Inductive BlangJsonValue :=
  | JsonNull
  | JsonBool (bool_val : Z)
  | JsonInt (int_val : Z)
  | JsonFloat (float_val : spec_float)
  | JsonString (string_val : address)
  | JsonArray (items : address) (count capacity : Z)
  | JsonObject (pairs : address) (count capacity : Z).

(** A key and a value. *)
Definition BlangJsonPair : Type := address * address.

Inductive heap_cell :=
  | Value (v : BlangJsonValue)
  | Chars (l : list (option ascii))
  | Items (l : list (option address))
  | Pairs (l : list (option BlangJsonPair)).

(** The parser's place in its input and its complaint. *)
Record JsonParser := mkParser { jp_pos : Z; jp_error : option string }.

Record heap := mkHeap {
  h_cells : gmap nat heap_cell;
  h_next : nat;
  h_parser : JsonParser
}.

Definition J : Type -> Type := run heap.

Definition set_cells (f : gmap nat heap_cell -> gmap nat heap_cell) (s : heap) : heap :=
  mkHeap (f (h_cells s)) (h_next s) (h_parser s).
Definition set_parser (p : JsonParser) (s : heap) : heap := mkHeap (h_cells s) (h_next s) p.

Definition known {A} (o : option A) : J A := match o with Some a => mret a | None => undefined end.

(** The result of an [int] operation. *)
Definition int (z : Z) : J Z := if decide (- 2 ^ 31 <= z < 2 ^ 31)%Z then mret z else undefined.

Definition read_cell (p : address) : J heap_cell := p ← known p; cells ← gets h_cells; known (cells !! p).

Definition get_value (p : address) : J BlangJsonValue :=
  c ← read_cell p; match c with Value v => mret v | _ => undefined end.
Definition get_chars (p : address) : J (list (option ascii)) :=
  c ← read_cell p; match c with Chars l => mret l | _ => undefined end.
Definition get_items (p : address) : J (list (option address)) :=
  c ← read_cell p; match c with Items l => mret l | _ => undefined end.
Definition get_pairs (p : address) : J (list (option BlangJsonPair)) :=
  c ← read_cell p; match c with Pairs l => mret l | _ => undefined end.

Definition put_cell (p : address) (c : heap_cell) : J unit := p ← known p; modify (set_cells <[p := c]>).

(** [free]. *)
Definition free_cell (p : address) : J unit :=
  match p with None => mret tt | Some q => _ ← read_cell p; modify (set_cells (delete q)) end.

(** A list written at a place, inside its bounds. *)
Definition stored {A} (i : Z) (a : A) (l : list (option A)) : J (list (option A)) :=
  if decide (0 <= i < Z.of_nat (length l))%Z then mret (<[Z.to_nat i := Some a]> l) else undefined.
Definition loaded {A} (i : Z) (l : list (option A)) : J A :=
  if decide (0 <= i < Z.of_nat (length l))%Z then known (mjoin (l !! Z.to_nat i)) else undefined.

(** The string at an address, up to its terminator. *)
Definition c_string (p : address) : J (list ascii) := l ← get_chars p; known (until_null l).

(** The characters of a string with its terminator. *)
Definition c_chars (t : list ascii) : list (option ascii) := map Some (t ++ ["000"%char]).

(** [for ( i = 0; i < n; i++ )] *)
Fixpoint each_index_from {B} (n : nat) (i : Z) (body : Z -> B -> J B) (b : B) : J B :=
  match n with 0 => mret b | S n => b ← body i b; each_index_from n (i + 1) body b end.
Definition each_index {B} (n : Z) (body : Z -> B -> J B) (b : B) : J B := each_index_from (Z.to_nat n) 0 body b.

Section json.
(** Which allocations fail, by their number; [strtod], and the text [%g] writes. *)
Variable fails : nat -> bool.
Variable strtod : list ascii -> spec_float.
Variable float_text : spec_float -> list ascii.

Definition new_cell (c : heap_cell) : J address := fun s =>
  if fails (h_next s) then Done (None, mkHeap (h_cells s) (S (h_next s)) (h_parser s))
  else Done (Some (h_next s), mkHeap (<[h_next s := c]> (h_cells s)) (S (h_next s)) (h_parser s)).

(** [realloc], of a cell whose contents have been read. *)
Definition moved_cell (p : address) (c : heap_cell) : J address :=
  match p with
  | None => new_cell c
  | Some _ => _ ← read_cell p; q ← new_cell c; match q with None => mret None | Some _ => free_cell p;; mret q end
  end.

Definition strdup (t : list ascii) : J address := new_cell (Chars (c_chars t)).

(** * Constructors *)

(** [calloc] fills a node with zeros: the fields of its type are zero or null. *)
Definition alloc_value (v : BlangJsonValue) : J address :=
  p ← new_cell (Value v);
  _ ← known p;
  mret p.

Definition make_null : J address := alloc_value JsonNull.
Definition make_bool (val : Z) : J address :=
  v ← alloc_value (JsonBool 0); put_cell v (Value (JsonBool (if decide (val = 0)%Z then 0 else 1)));; mret v.
Definition make_int (val : Z) : J address := v ← alloc_value (JsonInt 0); put_cell v (Value (JsonInt val));; mret v.
Definition make_float (val : spec_float) : J address :=
  v ← alloc_value (JsonFloat (S754_zero false)); put_cell v (Value (JsonFloat val));; mret v.
Definition make_string (val : address) : J address :=
  v ← alloc_value (JsonString None);
  t ← c_string val;
  d ← strdup t;
  put_cell v (Value (JsonString d));;
  mret v.
Definition make_array : J address :=
  v ← alloc_value (JsonArray None 0 0);
  items ← new_cell (Items (replicate 8 (Some None)));
  put_cell v (Value (JsonArray items 0 8));;
  mret v.
Definition make_object : J address :=
  v ← alloc_value (JsonObject None 0 0);
  pairs ← new_cell (Pairs (replicate 8 (Some (None, None))));
  put_cell v (Value (JsonObject pairs 0 8));;
  mret v.

(** * Cleanup

    The depth of the recursion is bounded by the number of cells, for a tree. *)
Fixpoint free_at (n : nat) (val : address) : J unit :=
  match val with
  | None => mret tt
  | Some _ =>
      match n with
      | 0 => fun _ => OutOfFuel
      | S n =>
          v ← get_value val;
          match v with
          | JsonString string_val => free_cell string_val
          | JsonArray items count _ =>
              each_index count (fun i _ => l ← get_items items; x ← loaded i l; free_at n x) tt;;
              free_cell items
          | JsonObject pairs count _ =>
              each_index count (fun i _ =>
                l ← get_pairs pairs;
                x ← loaded i l;
                free_cell x.1;;
                free_at n x.2) tt;;
              free_cell pairs
          | _ => mret tt
          end;;
          free_cell val
      end
  end.
Definition json_free (val : address) : J unit := n ← gets (fun s => size (h_cells s)); free_at n val.

(** * Mutators *)

Definition json_array_push (arr val : address) : J unit :=
  v ← get_value arr;
  match v with
  | JsonArray items count capacity =>
      '(items, capacity) ←
        if decide (count >= capacity)%Z then
          capacity ← int (capacity * 2);
          l ← get_items items;
          items ← moved_cell items (Items (resize (Z.to_nat capacity) None l));
          mret (items, capacity)
        else mret (items, capacity);
      l ← get_items items;
      l ← stored count val l;
      put_cell items (Items l);;
      put_cell arr (Value (JsonArray items (count + 1) capacity))
  | _ => mret tt
  end.

(** The first pair with a key, from [i] on. *)
Fixpoint find_pair (n : nat) (i : Z) (pairs : address) (key : list ascii) : J (option (Z * BlangJsonPair)) :=
  match n with
  | 0 => mret None
  | S n =>
      l ← get_pairs pairs;
      x ← loaded i l;
      k ← c_string x.1;
      if decide (k = key) then mret (Some (i, x)) else find_pair n (i + 1) pairs key
  end.

Definition json_object_set (obj key val : address) : J unit :=
  v ← get_value obj;
  match v with
  | JsonObject pairs count capacity =>
      t ← c_string key;
      found ← find_pair (Z.to_nat count) 0 pairs t;
      match found with
      | Some (i, x) =>
          json_free x.2;;
          l ← get_pairs pairs;
          l ← stored i (x.1, val) l;
          put_cell pairs (Pairs l)
      | None =>
          '(pairs, capacity) ←
            if decide (count >= capacity)%Z then
              capacity ← int (capacity * 2);
              l ← get_pairs pairs;
              pairs ← moved_cell pairs (Pairs (resize (Z.to_nat capacity) None l));
              mret (pairs, capacity)
            else mret (pairs, capacity);
          d ← strdup t;
          l ← get_pairs pairs;
          l ← stored count (d, val) l;
          put_cell pairs (Pairs l);;
          put_cell obj (Value (JsonObject pairs (count + 1) capacity))
      end
  | _ => mret tt
  end.

(** * Serialization *)

Record StrBuf := mkStrBuf { sb_buf : address; sb_len : Z; sb_cap : Z }.

Definition sb_store (sb : StrBuf) (i : Z) (c : ascii) : J unit :=
  l ← get_chars (sb_buf sb); l ← stored i c l; put_cell (sb_buf sb) (Chars l).

Definition sb_init : J StrBuf :=
  buf ← new_cell (Chars (replicate 256 None));
  let sb := mkStrBuf buf 0 256 in
  sb_store sb 0 "000";;
  mret sb.

(** Twice the capacity. *)
Definition sb_double (sb : StrBuf) : J StrBuf :=
  cap ← int (sb_cap sb * 2);
  l ← get_chars (sb_buf sb);
  buf ← moved_cell (sb_buf sb) (Chars (resize (Z.to_nat (size_t cap)) None l));
  mret (mkStrBuf buf (sb_len sb) cap).

(** A capacity that is positive overflows in thirty-one doublings. *)
Definition sb_append (sb : StrBuf) (s : list ascii) : J StrBuf :=
  let slen := s32 (Z.of_nat (length s)) in
  sb ← loop 32 (fun sb =>
    a ← int (sb_len sb + slen);
    a ← int (a + 1);
    if decide (a > sb_cap sb)%Z then sb ← sb_double sb; mret (Next sb) else mret (Break sb)) sb;
  l ← get_chars (sb_buf sb);
  n ← int (slen + 1);
  let n := size_t n in
  if decide (n <= Z.of_nat (length s) + 1 /\ 0 <= sb_len sb /\ sb_len sb + n <= Z.of_nat (length l))%Z then
    put_cell (sb_buf sb) (Chars (overwrite (Z.to_nat (sb_len sb)) (take (Z.to_nat n) (c_chars s)) l));;
    len ← int (sb_len sb + slen);
    mret (mkStrBuf (sb_buf sb) len (sb_cap sb))
  else undefined.

Definition sb_append_char (sb : StrBuf) (c : ascii) : J StrBuf :=
  a ← int (sb_len sb + 2);
  sb ← if decide (a > sb_cap sb)%Z then sb_double sb else mret sb;
  sb_store sb (sb_len sb) c;;
  let sb := mkStrBuf (sb_buf sb) (sb_len sb + 1) (sb_cap sb) in
  sb_store sb (sb_len sb) "000";;
  mret sb.

(** [%04x] of a character below 32. *)
Definition hex_text (c : ascii) : list ascii :=
  let digit n := if decide (n < 10)%N then ascii_of_N (48 + n) else ascii_of_N (87 + n) in
  let n := N_of_ascii c in
  ["0"; "0"; digit (n / 16)%N; digit (n mod 16)%N]%char.

(** The escape of a character that has one. *)
Definition escape_of (c : ascii) : option (list ascii) :=
  if decide (c = dquote) then Some [backslash; dquote]
  else if decide (c = backslash) then Some [backslash; backslash]
  else if decide (c = ascii_of_N 8) then Some [backslash; "b"%char]
  else if decide (c = ascii_of_N 12) then Some [backslash; "f"%char]
  else if decide (c = newline) then Some [backslash; "n"%char]
  else if decide (c = ascii_of_N 13) then Some [backslash; "r"%char]
  else if decide (c = tab) then Some [backslash; "t"%char]
  else if decide (N_of_ascii c < 32)%N then Some ([backslash; "u"%char] ++ hex_text c)
  else None.

Definition encode_char (sb : StrBuf) (c : ascii) : J StrBuf :=
  match escape_of c with Some t => sb_append sb t | None => sb_append_char sb c end.

Fixpoint encode_chars (sb : StrBuf) (l : list ascii) : J StrBuf :=
  match l with [] => mret sb | c :: l => sb ← encode_char sb c; encode_chars sb l end.

(** The buffer is another cell than the string, which is read first. *)
Definition encode_string (sb : StrBuf) (s : address) : J StrBuf :=
  sb ← sb_append_char sb dquote;
  l ← c_string s;
  sb ← encode_chars sb l;
  sb_append_char sb dquote.

Definition comma_before (i : Z) (sb : StrBuf) : J StrBuf :=
  if decide (i > 0)%Z then sb_append_char sb "," else mret sb.

(** [snprintf] cuts off what does not fit [tmp]; an integer always does. *)
Fixpoint encode_at (n : nat) (sb : StrBuf) (val : address) : J StrBuf :=
  match n with
  | 0 => fun _ => OutOfFuel
  | S n =>
      v ← get_value val;
      match v with
      | JsonNull => sb_append sb (chars "null")
      | JsonBool b => sb_append sb (if decide (b = 0)%Z then chars "false" else chars "true")
      | JsonInt z => sb_append sb (chars (pretty z))
      | JsonFloat d => sb_append sb (take 63 (float_text d))
      | JsonString string_val => encode_string sb string_val
      | JsonArray items count _ =>
          sb ← sb_append_char sb "[";
          sb ← each_index count (fun i sb =>
            sb ← comma_before i sb;
            l ← get_items items;
            x ← loaded i l;
            encode_at n sb x) sb;
          sb_append_char sb "]"
      | JsonObject pairs count _ =>
          sb ← sb_append_char sb "{";
          sb ← each_index count (fun i sb =>
            sb ← comma_before i sb;
            l ← get_pairs pairs;
            x ← loaded i l;
            sb ← encode_string sb x.1;
            sb ← sb_append_char sb ":";
            encode_at n sb x.2) sb;
          sb_append_char sb "}"
      end
  end.

Definition json_encode (val : address) : J address :=
  n ← gets (fun s => size (h_cells s));
  sb ← sb_init;
  sb ← encode_at n sb val;
  mret (sb_buf sb).

(** * Deserialization

    The input is a string without its terminator, which is read behind it; a place
    further on is outside the string. *)
Variable input : list ascii.

Definition char_at (i : Z) : J ascii :=
  if decide (0 <= i <= Z.of_nat (length input))%Z then mret (default "000"%char (input !! Z.to_nat i)) else undefined.

Definition peek : J ascii := i ← gets (fun s => jp_pos (h_parser s)); char_at i.
Definition move_to (i : Z) : J unit := modify (fun s => set_parser (mkParser i (jp_error (h_parser s))) s).
Definition move_on (n : Z) : J unit := i ← gets (fun s => jp_pos (h_parser s)); i ← int (i + n); move_to i.
Definition set_error (e : string) : J unit :=
  modify (fun s => set_parser (mkParser (jp_pos (h_parser s)) (Some e)) s).
Definition fault (e : string) : J address := set_error e;; mret None.

(** The input from the present place on, as [strtoll] and [strncmp] are given it. *)
Definition remaining : J (list ascii) :=
  i ← gets (fun s => jp_pos (h_parser s)); _ ← char_at i; mret (drop (Z.to_nat i) input).

(** [while ( test( p->input[p->pos] ) ) p->pos++;] *)
Definition skip_while (test : ascii -> bool) : J unit :=
  loop (S (S (length input))) (fun _ => c ← peek; if test c then move_on 1;; mret (Next tt) else mret (Break tt)) tt.

Definition skip_ws : J unit := skip_while (fun c => negb (bool_decide (c = "000"%char)) && isspace c).

(** What the character behind a backslash stands for. *)
Definition unescape (c : ascii) : ascii :=
  if decide (c = "b"%char) then ascii_of_N 8
  else if decide (c = "f"%char) then ascii_of_N 12
  else if decide (c = "n"%char) then newline
  else if decide (c = "r"%char) then ascii_of_N 13
  else if decide (c = "t"%char) then tab
  else c.

Definition parse_string_raw : J address :=
  c ← peek;
  if negb (bool_decide (c = dquote)) then fault (str (chars "Expected '" ++ [dquote; squote])) else
  move_on 1;;
  sb ← sb_init;
  sb ← loop (S (S (length input))) (fun sb =>
    c ← peek;
    if decide (c = "000"%char \/ c = dquote) then mret (Break sb)
    else if decide (c = backslash) then
      move_on 1;;
      c ← peek;
      sb ← sb_append_char sb (unescape c);
      move_on 1;;
      mret (Next sb)
    else
      sb ← sb_append_char sb c;
      move_on 1;;
      mret (Next sb)) sb;
  c ← peek;
  if negb (bool_decide (c = dquote)) then
    set_error "Unterminated string";;
    free_cell (sb_buf sb);;
    mret None
  else
    move_on 1;;
    mret (sb_buf sb).

Definition parse_string : J address :=
  s ← parse_string_raw;
  match s with
  | None => mret None
  | Some _ => v ← alloc_value (JsonString None); put_cell v (Value (JsonString s));; mret v
  end.

(** [strtoll] skips spaces, of which there are none. *)
Definition parse_number : J address :=
  start ← remaining;
  c ← peek;
  (if decide (c = "-"%char) then move_on 1 else mret tt);;
  skip_while isdigit;;
  c ← peek;
  is_float ← (if decide (c = "."%char) then move_on 1;; skip_while isdigit;; mret true else mret false);
  c ← peek;
  is_float ←
    (if decide (c = "e"%char \/ c = "E"%char) then
      move_on 1;;
      c ← peek;
      (if decide (c = "+"%char \/ c = "-"%char) then move_on 1 else mret tt);;
      skip_while isdigit;;
      mret true
    else mret is_float);
  if is_float : bool then
    v ← alloc_value (JsonFloat (S754_zero false)); put_cell v (Value (JsonFloat (strtod start)));; mret v
  else
    v ← alloc_value (JsonInt 0); put_cell v (Value (JsonInt (strtoll start).1));; mret v.

(** A word that no letter or digit follows. *)
Definition at_word (w : string) : J bool :=
  l ← remaining;
  mret (bool_decide (take (String.length w) l = chars w) &&
    negb (isalnum (default "000"%char (l !! String.length w)))).

Section value.
Variable parse_value : J address.

Definition parse_array : J address :=
  move_on 1;;
  arr ← make_array;
  skip_ws;;
  c ← peek;
  if decide (c = "]"%char) then move_on 1;; mret arr else
  loop (S (length input)) (fun _ =>
    skip_ws;;
    elem ← parse_value;
    match elem with
    | None => json_free arr;; mret (Break None)
    | Some _ =>
        json_array_push arr elem;;
        skip_ws;;
        c ← peek;
        if decide (c = ","%char) then move_on 1;; mret (Next tt)
        else if decide (c = "]"%char) then move_on 1;; mret (Break arr)
        else
          set_error "Expected ',' or ']' in array";;
          json_free arr;;
          mret (Break None)
    end) tt.

Definition parse_object : J address :=
  move_on 1;;
  obj ← make_object;
  skip_ws;;
  c ← peek;
  if decide (c = "}"%char) then move_on 1;; mret obj else
  loop (S (length input)) (fun _ =>
    skip_ws;;
    key ← parse_string_raw;
    match key with
    | None => json_free obj;; mret (Break None)
    | Some _ =>
        skip_ws;;
        c ← peek;
        if negb (bool_decide (c = ":"%char)) then
          set_error "Expected ':' in object";;
          free_cell key;;
          json_free obj;;
          mret (Break None)
        else
          move_on 1;;
          skip_ws;;
          val ← parse_value;
          match val with
          | None => free_cell key;; json_free obj;; mret (Break None)
          | Some _ =>
              json_object_set obj key val;;
              free_cell key;;
              skip_ws;;
              c ← peek;
              if decide (c = ","%char) then move_on 1;; mret (Next tt)
              else if decide (c = "}"%char) then move_on 1;; mret (Break obj)
              else
                set_error "Expected ',' or '}' in object";;
                json_free obj;;
                mret (Break None)
          end
    end) tt.

Definition parse_value_body : J address :=
  skip_ws;;
  c ← peek;
  if decide (c = dquote) then parse_string
  else if decide (c = "["%char) then parse_array
  else if decide (c = "{"%char) then parse_object
  else if bool_decide (c = "-"%char) || isdigit c then parse_number
  else
    yes ← at_word "true";
    if yes : bool then move_on 4;; make_bool 1 else
    no ← at_word "false";
    if no : bool then move_on 5;; make_bool 0 else
    null ← at_word "null";
    if null : bool then move_on 4;; make_null else
    fault "Unexpected character in JSON".
End value.

(** A value in a value is behind a character of the outer one. *)
Fixpoint parse_value (n : nat) : J address :=
  match n with
  | 0 => fun _ => OutOfFuel
  | S n => parse_value_body (parse_value n)
  end.

(** The value, or the message left in [error_msg]. *)
Definition json_decode : J (address * option string) :=
  modify (set_parser (mkParser 0 None));;
  result ← parse_value (S (length input));
  e ← gets (fun s => jp_error (h_parser s));
  mret (result, match result with None => Some (default "Unknown parse error" e) | Some _ => None end).
End json.

(** * Accessors *)

Definition json_object_get (obj : address) (key : address) : J address :=
  match obj with
  | None => mret None
  | Some _ =>
      v ← get_value obj;
      match v, key with
      | JsonObject pairs count _, Some _ =>
          t ← c_string key;
          found ← find_pair (Z.to_nat count) 0 pairs t;
          mret (match found with Some (_, x) => x.2 | None => None end)
      | _, _ => mret None
      end
  end.

(** The conversion of a double that does not fit is undefined. *)
Definition json_get_int (val : address) : J Z :=
  match val with
  | None => mret 0%Z
  | Some _ =>
      v ← get_value val;
      match v with
      | JsonInt z => mret z
      | JsonFloat d =>
          z ← known (double_trunc d);
          if decide (- 2 ^ 63 <= z < 2 ^ 63)%Z then mret z else undefined
      | _ => mret 0%Z
      end
  end.

Definition json_get_float (val : address) : J spec_float :=
  match val with
  | None => mret (S754_zero false)
  | Some _ =>
      v ← get_value val;
      mret (match v with JsonFloat d => d | JsonInt z => double_of_Z z | _ => S754_zero false end)
  end.

(** The text of a string node, or the empty one. *)
Definition json_get_string (val : address) : J (list ascii) :=
  match val with
  | None => mret []
  | Some _ => v ← get_value val; match v with JsonString s => c_string s | _ => mret [] end
  end.

Definition json_get_bool (val : address) : J Z :=
  match val with
  | None => mret 0%Z
  | Some _ =>
      v ← get_value val;
      mret (match v with
            | JsonBool b => b
            | JsonInt z => if decide (z = 0)%Z then 0%Z else 1%Z
            | _ => 0%Z
            end)
  end.
