(* ===== verification/RuntimeJsonLogic.v ===== *)
(** A logic for [RuntimeJson]: each cell of the heap is owned, a run is described by
    what it needs and leaves, with the input that is left to read, the complaint and
    the number of live cells. *)

From iris.proofmode Require Import proofmode.
From iris.base_logic.lib Require Import ghost_map.
From Stdlib Require Import Floats.SpecFloat.
From stdpp Require Import pretty.
From S2P Require Import Prelude Json RuntimeMemory RuntimeString RuntimeJson.

(** * Values *)

Inductive tree :=
  | TNull
  | TBool (b : bool)
  | TInt (z : Z)
  | TFloat (d : spec_float)
  | TString (t : list ascii)
  | TArray (l : list tree)
  | TObject (l : list (list ascii * tree)).

Section tree_induction.
Variable P : tree -> Prop.
Hypothesis Hplain : forall v, match v with TArray _ | TObject _ => True | _ => P v end.
Hypothesis Harray : forall l, Forall P l -> P (TArray l).
Hypothesis Hobject : forall l, Forall (fun m => P m.2) l -> P (TObject l).

Fixpoint tree_induction (v : tree) : P v :=
  match v with
  | TArray l =>
      Harray l ((fix go l : Forall P l :=
        match l with [] => Forall_nil_2 _ | v :: l => Forall_cons_2 _ _ _ (tree_induction v) (go l) end) l)
  | TObject l =>
      Hobject l ((fix go l : Forall (fun m => P m.2) l :=
        match l with [] => Forall_nil_2 _ | m :: l => Forall_cons_2 (fun m => P m.2) m l (tree_induction m.2) (go l) end) l)
  | TNull => Hplain TNull
  | TBool b => Hplain (TBool b)
  | TInt z => Hplain (TInt z)
  | TFloat d => Hplain (TFloat d)
  | TString t => Hplain (TString t)
  end.
End tree_induction.

(** The number of cells a value takes. *)
Fixpoint weight (v : tree) : nat :=
  match v with
  | TString _ => 2
  | TArray l => 2 + sum_list_with weight l
  | TObject l => 2 + sum_list_with (fun m => S (weight m.2)) l
  | _ => 1
  end.

Lemma tree_weight_pos v : 0 < weight v.
Proof. destruct v; simpl; lia. Qed.

(** * Runs *)

Section logic.
Context `{!ghost_mapG Σ nat heap_cell} (γ : gname).
Variable fails : nat -> bool.
Variable strtod : list ascii -> spec_float.
Variable float_text : spec_float -> list ascii.
Variable input : list ascii.
Hypothesis never_fails : forall n, fails n = false.

Local Notation "p ↦ c" := (p ↪[γ] c)%I (at level 20).

(** The heap a run starts from: the input that is left, the complaint, the number of
    live cells, and that none is where the next ones will be. *)
Record looks (s : heap) (l : list ascii) (e : option string) (k : nat) : Prop := {
  looks_parser : h_parser s = mkParser (Z.of_nat (length input) - Z.of_nat (length l)) e;
  looks_rest : l `suffix_of` input;
  looks_size : size (h_cells s) = k;
  looks_fresh : forall p, h_next s <= p -> h_cells s !! p = None
}.

Definition post (A : Type) : Type := A -> list ascii -> option string -> nat -> iProp Σ.

Definition jwp {A} (c : J A) (Φ : post A) (l : list ascii) (e : option string) (k : nat) : iProp Σ :=
  ∀ s, ⌜looks s l e k⌝ -∗ ghost_map_auth γ 1 (h_cells s) ==∗
    ∃ a s' l' e' k', ⌜c s = Done (a, s')⌝ ∗ ⌜looks s' l' e' k'⌝ ∗ ghost_map_auth γ 1 (h_cells s') ∗ Φ a l' e' k'.

Lemma jwp_ret {A} (a : A) (Φ : post A) l e k : Φ a l e k ⊢ jwp (mret a) Φ l e k.
Proof. iIntros "H %s %Hs Hm !>". iExists a, s, l, e, k. by iFrame. Qed.

Lemma jwp_bind {A B} (c : J A) (f : A -> J B) (Φ : post B) l e k :
  jwp c (fun a => jwp (f a) Φ) l e k ⊢ jwp (c ≫= f) Φ l e k.
Proof.
  iIntros "H %s %Hs Hm". iMod ("H" with "[//] Hm") as (a s' l' e' k') "(%E & %Hs' & Hm & H)".
  iMod ("H" with "[//] Hm") as (b s'' l'' e'' k'') "(%E' & H)". iModIntro. iExists b, s'', l'', e'', k''.
  iSplit; [|done]. iPureIntro. unfold mbind, run_bind. by rewrite E.
Qed.

Lemma jwp_wand {A} (c : J A) (Φ Ψ : post A) l e k :
  jwp c Φ l e k -∗ (∀ a l' e' k', Φ a l' e' k' -∗ Ψ a l' e' k') -∗ jwp c Ψ l e k.
Proof.
  iIntros "H HΨ %s %Hs Hm". iMod ("H" with "[//] Hm") as (a s' l' e' k') "(%E & %Hs' & Hm & H)".
  iModIntro. iExists a, s', l', e', k'. iFrame. iSplit; [done|]. iSplit; [done|]. by iApply "HΨ".
Qed.

(** What is left to read ends the input. *)
Lemma jwp_rest {A} (c : J A) (Φ : post A) l e k : (⌜l `suffix_of` input⌝ -∗ jwp c Φ l e k) ⊢ jwp c Φ l e k.
Proof. iIntros "H %s %Hs Hm". iApply ("H" with "[%] [//] Hm"). by destruct Hs. Qed.

Lemma jwp_known {A} (a : A) (Φ : post A) l e k : Φ a l e k ⊢ jwp (known (Some a)) Φ l e k.
Proof. apply jwp_ret. Qed.

Lemma jwp_int z (Φ : post Z) l e k : (- 2 ^ 31 <= z < 2 ^ 31)%Z -> Φ z l e k ⊢ jwp (int z) Φ l e k.
Proof. intros Hz. unfold int. rewrite decide_True //. apply jwp_ret. Qed.

(** ** Cells *)

Lemma jwp_new c (Φ : post address) l e k : (∀ q, q ↦ c -∗ Φ (Some q) l e (S k)) ⊢ jwp (new_cell fails c) Φ l e k.
Proof.
  iIntros "H %s %Hs Hm". destruct Hs as [Hp Hr Hk Hf].
  iMod (ghost_map_insert (h_next s) c with "Hm") as "[Hm Hq]"; [by apply Hf|]. iModIntro.
  iExists (Some (h_next s)), (mkHeap (<[h_next s := c]> (h_cells s)) (S (h_next s)) (h_parser s)), l, e, (S k).
  iSplit; [iPureIntro; unfold new_cell; by rewrite never_fails|]. iSplit; [iPureIntro|iFrame; by iApply "H"].
  split; cbn [h_parser h_cells h_next]; [done..| |].
  - rewrite map_size_insert_None; [by rewrite Hk|by apply Hf].
  - intros p Hle. rewrite lookup_insert_ne; [|lia]. apply Hf. lia.
Qed.

Lemma jwp_read q c (Φ : post heap_cell) l e k : q ↦ c -∗ (q ↦ c -∗ Φ c l e k) -∗ jwp (read_cell (Some q)) Φ l e k.
Proof.
  iIntros "Hq H %s %Hs Hm". iDestruct (ghost_map_lookup with "Hm Hq") as %E. iModIntro.
  iExists c, s, l, e, k. iFrame. iSplit; [|iSplit; [done|by iApply "H"]]. iPureIntro.
  unfold read_cell, mbind, run_bind, known. simpl. by rewrite E.
Qed.

Lemma jwp_value q v (Φ : post BlangJsonValue) l e k :
  q ↦ Value v -∗ (q ↦ Value v -∗ Φ v l e k) -∗ jwp (get_value (Some q)) Φ l e k.
Proof. iIntros "Hq H". iApply jwp_bind. iApply (jwp_read with "Hq"). iIntros "Hq". iApply jwp_ret. by iApply "H". Qed.

Lemma jwp_chars q v (Φ : post (list (option ascii))) l e k :
  q ↦ Chars v -∗ (q ↦ Chars v -∗ Φ v l e k) -∗ jwp (get_chars (Some q)) Φ l e k.
Proof. iIntros "Hq H". iApply jwp_bind. iApply (jwp_read with "Hq"). iIntros "Hq". iApply jwp_ret. by iApply "H". Qed.

Lemma jwp_items q v (Φ : post (list (option address))) l e k :
  q ↦ Items v -∗ (q ↦ Items v -∗ Φ v l e k) -∗ jwp (get_items (Some q)) Φ l e k.
Proof. iIntros "Hq H". iApply jwp_bind. iApply (jwp_read with "Hq"). iIntros "Hq". iApply jwp_ret. by iApply "H". Qed.

Lemma jwp_pairs q v (Φ : post (list (option BlangJsonPair))) l e k :
  q ↦ Pairs v -∗ (q ↦ Pairs v -∗ Φ v l e k) -∗ jwp (get_pairs (Some q)) Φ l e k.
Proof. iIntros "Hq H". iApply jwp_bind. iApply (jwp_read with "Hq"). iIntros "Hq". iApply jwp_ret. by iApply "H". Qed.

Lemma jwp_put q c c' (Φ : post unit) l e k :
  q ↦ c -∗ (q ↦ c' -∗ Φ tt l e k) -∗ jwp (put_cell (Some q) c') Φ l e k.
Proof.
  iIntros "Hq H %s %Hs Hm". destruct Hs as [Hp Hr Hk Hf]. iDestruct (ghost_map_lookup with "Hm Hq") as %E.
  iMod (ghost_map_update c' with "Hm Hq") as "[Hm Hq]". iModIntro.
  iExists tt, (set_cells <[q := c']> s), l, e, k. iSplit; [done|]. iSplit; [iPureIntro|iFrame; by iApply "H"].
  split; cbn [h_parser h_cells h_next set_cells]; [done..| |].
  - rewrite map_size_insert_Some; [done|by eexists].
  - intros p Hle. specialize (Hf p Hle). rewrite lookup_insert_ne; congruence.
Qed.

Lemma jwp_free q c (Φ : post unit) l e k :
  q ↦ c -∗ (∀ k', ⌜k = S k'⌝ -∗ Φ tt l e k') -∗ jwp (free_cell (Some q)) Φ l e k.
Proof.
  iIntros "Hq H". iApply jwp_bind. iApply (jwp_read with "Hq"). iIntros "Hq %s %Hs Hm".
  destruct Hs as [Hp Hr Hk Hf]. iDestruct (ghost_map_lookup with "Hm Hq") as %E.
  iMod (ghost_map_delete with "Hm Hq") as "Hm". iModIntro.
  iExists tt, (set_cells (delete q) s), l, e, (pred k).
  assert (k <> 0) as Hk0.
  { rewrite -Hk. intros H0%map_size_empty_iff. by rewrite H0 in E. }
  iSplit; [done|]. iSplit; [iPureIntro|iFrame; iApply "H"; iPureIntro; lia].
  split; cbn [h_parser h_cells h_next set_cells]; [done..| |].
  - rewrite map_size_delete_Some; [by rewrite Hk|by eexists].
  - intros p Hle. by apply lookup_delete_None; right; apply Hf.
Qed.

Lemma jwp_moved q c c' (Φ : post address) l e k :
  q ↦ c -∗ (∀ q', q' ↦ c' -∗ Φ (Some q') l e k) -∗ jwp (moved_cell fails (Some q) c') Φ l e k.
Proof.
  iIntros "Hq H". iApply jwp_bind. iApply (jwp_read with "Hq"). iIntros "Hq". iApply jwp_bind. iApply jwp_new.
  iIntros (q') "Hq'". iApply jwp_bind. iApply (jwp_free with "Hq"). iIntros (k') "%Hk". simplify_eq.
  iApply jwp_ret. by iApply "H".
Qed.

(** ** The input *)

Lemma jwp_gets_pos (Φ : post Z) l e k :
  Φ (Z.of_nat (length input) - Z.of_nat (length l))%Z l e k ⊢ jwp (gets (fun s => jp_pos (h_parser s))) Φ l e k.
Proof.
  iIntros "H %s %Hs Hm !>". iExists _, s, l, e, k. iSplit; [done|]. iFrame. iSplit; [done|].
  destruct Hs as [-> _ _ _]. done.
Qed.

Lemma suffix_drop (l : list ascii) : l `suffix_of` input -> drop (length input - length l) input = l.
Proof. intros [h ->]. rewrite length_app drop_app_ge; [|lia]. by replace (_ - _ - _) with 0 by lia. Qed.

Lemma suffix_length (l : list ascii) : l `suffix_of` input -> length l <= length input.
Proof. intros [h ->]. rewrite length_app. lia. Qed.

Lemma jwp_char_at i (Φ : post ascii) (l : list ascii) e k :
  l `suffix_of` input -> i = (Z.of_nat (length input) - Z.of_nat (length l))%Z ->
  Φ (default "000"%char (l !! 0)) l e k ⊢ jwp (char_at input i) Φ l e k.
Proof.
  intros Hl ->. unfold char_at. pose proof (suffix_length l Hl) as Hn. rewrite decide_True; [|lia].
  replace (Z.to_nat _) with (length input - length l) by lia. rewrite -{1}(suffix_drop l Hl).
  rewrite lookup_drop Nat.add_0_r. apply jwp_ret.
Qed.

Lemma jwp_peek (Φ : post ascii) l e k : Φ (default "000"%char (l !! 0)) l e k ⊢ jwp (peek input) Φ l e k.
Proof. iIntros "H". iApply jwp_bind. iApply jwp_gets_pos. iApply jwp_rest. iIntros (Hl). by iApply jwp_char_at. Qed.

Lemma jwp_remaining (Φ : post (list ascii)) l e k : Φ l l e k ⊢ jwp (remaining input) Φ l e k.
Proof.
  iIntros "H". iApply jwp_bind. iApply jwp_gets_pos. iApply jwp_rest. iIntros (Hl). iApply jwp_bind.
  iApply jwp_char_at; [done..|]. iApply jwp_ret. pose proof (suffix_length l Hl).
  replace (Z.to_nat _) with (length input - length l) by lia. by rewrite (suffix_drop l Hl).
Qed.

Hypothesis input_short : (Z.of_nat (length input) < 2 ^ 29)%Z.

Lemma jwp_advance n (Φ : post unit) l e k :
  n <= length l -> Φ tt (drop n l) e k ⊢ jwp (move_on (Z.of_nat n)) Φ l e k.
Proof.
  intros Hn. iIntros "H". iApply jwp_bind. iApply jwp_gets_pos. iApply jwp_rest. iIntros (Hl).
  pose proof (suffix_length l Hl). iApply jwp_bind. iApply jwp_int; [lia|]. iIntros "%s %Hs Hm !>".
  destruct Hs as [Hp Hr Hk Hf].
  iExists tt, (set_parser (mkParser (Z.of_nat (length input) - Z.of_nat (length l) + Z.of_nat n) e) s), (drop n l), e, k.
  iSplit; [iPureIntro; unfold move_to, modify; by rewrite Hp|]. iFrame. iPureIntro. split; cbn [h_parser h_cells h_next set_parser]; [| |done|done].
  - rewrite length_drop. f_equal. lia.
  - destruct Hr as [h Hr]. exists (h ++ take n l). by rewrite -(assoc_L (++)) take_drop.
Qed.

Lemma jwp_next c (Φ : post unit) l e k : Φ tt l e k ⊢ jwp (move_on 1) Φ (c :: l) e k.
Proof. iIntros "H". iApply (jwp_advance 1); [simpl; lia|]. by rewrite skipn_cons drop_0. Qed.

Lemma jwp_set_error m (Φ : post unit) l e k : Φ tt l (Some m) k ⊢ jwp (set_error m) Φ l e k.
Proof.
  iIntros "H %s %Hs Hm !>". destruct Hs as [Hp Hr Hk Hf]. iExists tt, _, l, (Some m), k. iSplit; [done|].
  iFrame. iPureIntro. split; cbn [h_parser h_cells h_next set_parser]; [by rewrite Hp|done..].
Qed.

Lemma jwp_fault m (Φ : post address) l e k : Φ None l (Some m) k ⊢ jwp (fault m) Φ l e k.
Proof. iIntros "H". iApply jwp_bind. iApply jwp_set_error. by iApply jwp_ret. Qed.

(** ** Loops *)

Lemma jwp_loop {A B} n (body : B -> J (loop_step B A)) b (Φ : post A) l e k :
  jwp (body b) (fun r l e k => match r with Next b' => jwp (loop n body b') Φ l e k | Break a => Φ a l e k end) l e k ⊢
  jwp (loop (S n) body b) Φ l e k.
Proof.
  iIntros "H". iApply jwp_bind. iApply (jwp_wand with "H"). iIntros (r l' e' k') "H". destruct r; [done|].
  by iApply jwp_ret.
Qed.

Fixpoint skip (test : ascii -> bool) (l : list ascii) : list ascii :=
  match l with c :: l' => if test c then skip test l' else l | [] => [] end.

Lemma jwp_skip test (Φ : post unit) l e k :
  test "000"%char = false -> Φ tt (skip test l) e k ⊢ jwp (skip_while input test) Φ l e k.
Proof.
  intros Ht. iIntros "H". iApply jwp_rest. iIntros (Hl%suffix_length). unfold skip_while.
  assert (length l < S (S (length input))) as Hn by lia. clear Hl. revert Hn. generalize (S (S (length input))) as n.
  intros n Hn. iInduction l as [|c l IH] forall (n Hn); destruct n as [|n]; [simpl in Hn; lia| |simpl in Hn; lia|].
  - iApply jwp_loop. iApply jwp_bind. iApply jwp_peek. simpl. rewrite Ht. by iApply jwp_ret.
  - iApply jwp_loop. iApply jwp_bind. iApply jwp_peek. simpl. destruct (test c); [|by iApply jwp_ret].
    iApply jwp_bind. iApply jwp_next. iApply jwp_ret. iApply ("IH" with "[%] H"). simpl in Hn. lia.
Qed.

(** ** Buffers *)

(** A buffer that holds a text, its terminator, and room. *)
Definition buffer (sb : StrBuf) (t : list ascii) : iProp Σ :=
  ∃ q slack, ⌜sb = mkStrBuf (Some q) (Z.of_nat (length t)) (Z.of_nat (length t + S (length slack)))⌝ ∗
    q ↦ Chars (map Some t ++ Some "000"%char :: slack).

Lemma jwp_store q l0 i n cap c (Φ : post unit) l e k :
  i < length l0 ->
  q ↦ Chars l0 -∗ (q ↦ Chars (<[i := Some c]> l0) -∗ Φ tt l e k) -∗
  jwp (sb_store (mkStrBuf (Some q) n cap) (Z.of_nat i) c) Φ l e k.
Proof.
  iIntros (Hi) "Hq H". iApply jwp_bind. iApply (jwp_chars with "Hq"). iIntros "Hq". iApply jwp_bind.
  unfold stored. rewrite decide_True; [|lia]. rewrite Nat2Z.id. iApply jwp_ret. by iApply (jwp_put with "Hq").
Qed.

Lemma jwp_sb_init (Φ : post StrBuf) l e k : (∀ sb, buffer sb [] -∗ Φ sb l e (S k)) ⊢ jwp (sb_init fails) Φ l e k.
Proof.
  iIntros "H". iApply jwp_bind. iApply jwp_new. iIntros (q) "Hq". iApply jwp_bind.
  iApply (jwp_store q _ 0 with "Hq"); [simpl; lia|]. iIntros "Hq". iApply jwp_ret. iApply "H".
  iExists q, (replicate 255 None). by iFrame.
Qed.

Lemma jwp_double sb t (Φ : post StrBuf) l e k :
  (sb_cap sb < 2 ^ 30)%Z ->
  buffer sb t -∗ (∀ sb', ⌜sb_cap sb' = (2 * sb_cap sb)%Z /\ sb_len sb' = sb_len sb⌝ -∗ buffer sb' t -∗ Φ sb' l e k) -∗
  jwp (sb_double fails sb) Φ l e k.
Proof.
  iIntros (Hc) "(%q & %slack & -> & Hq) H". cbn [sb_cap sb_len sb_buf] in *. iApply jwp_bind. iApply jwp_int; [cbn [sb_cap]; lia|].
  iApply jwp_bind. iApply (jwp_chars with "Hq"). iIntros "Hq". iApply jwp_bind. iApply (jwp_moved with "Hq").
  iIntros (q') "Hq'". iApply jwp_ret. cbn [sb_cap sb_len]. rewrite size_t_small; [|lia].
  rewrite resize_ge; [|rewrite length_app length_map /=; lia].
  iApply "H"; [iPureIntro; split; [cbn [sb_cap]; lia|done]|].
  iExists q', (slack ++ replicate (length t + S (length slack)) None). rewrite -(assoc_L (++)) /=.
  rewrite !length_app !length_map /= !length_replicate. iSplit; [iPureIntro; f_equal; lia|].
  by replace (Z.to_nat _ - _) with (length t + S (length slack)) by lia.
Qed.

Lemma jwp_append_char sb t c (Φ : post StrBuf) l e k :
  (Z.of_nat (length t) < 2 ^ 29)%Z ->
  buffer sb t -∗ (∀ sb, buffer sb (t ++ [c]) -∗ Φ sb l e k) -∗ jwp (sb_append_char fails sb c) Φ l e k.
Proof.
  iIntros (Ht) "Hb H". iAssert (⌜sb_len sb = Z.of_nat (length t) /\ Z.of_nat (length t) + 1 <= sb_cap sb⌝%Z)%I as %[Hl Hc].
  { iDestruct "Hb" as "(%q & %slack & -> & _)". iPureIntro. cbn [sb_len sb_cap]. lia. }
  iApply jwp_bind. iApply jwp_int; [lia|]. iApply jwp_bind.
  iAssert (jwp (if decide (sb_len sb + 2 > sb_cap sb)%Z then sb_double fails sb else mret sb)
    (fun sb' l' e' k' => ⌜(sb_len sb' + 2 <= sb_cap sb')%Z⌝ ∗ buffer sb' t ∗ (∀ sb, buffer sb (t ++ [c]) -∗ Φ sb l' e' k')) l e k)%I
    with "[Hb H]" as "Hb".
  { case_decide as Hd; [|iApply jwp_ret; iFrame; iPureIntro; lia].
    iApply (jwp_double with "Hb"); [lia|]. iIntros (sb' [Hc' Hl']) "Hb". iFrame. iPureIntro. lia. }
  iApply (jwp_wand with "Hb"). iIntros (sb' l' e' k') "(%Hr & (%q & %slack & -> & Hq) & H)".
  cbn [sb_len sb_cap sb_buf] in *. destruct slack as [|x slack]; [simpl in Hr; lia|].
  iApply jwp_bind. iApply (jwp_store with "Hq"); [rewrite length_app length_map /=; lia|]. iIntros "Hq".
  iApply jwp_bind. replace (Z.of_nat (length t) + 1)%Z with (Z.of_nat (S (length t))) by lia.
  iApply (jwp_store with "Hq"); [rewrite length_insert length_app length_map /=; lia|]. iIntros "Hq".
  iApply jwp_ret. iApply "H". iExists q, slack. rewrite length_app /=. iSplit; [iPureIntro; f_equal; lia|].
  rewrite insert_app_r_alt length_map // Nat.sub_diag /= insert_app_r_alt length_map; [|lia].
  replace (S (length t) - length t) with 1 by lia. by rewrite /= map_app -(assoc_L (++)).
Qed.

(** Doubling goes on until there is room. *)
Lemma jwp_make_room n (need : Z) sb t (s : list ascii) (Φ : post StrBuf) l e k :
  need = (sb_len sb + Z.of_nat (length s) + 1)%Z -> (need < 2 ^ 30)%Z -> (need <= sb_cap sb * 2 ^ Z.of_nat n)%Z ->
  buffer sb t -∗
  (∀ sb', ⌜(sb_len sb' + Z.of_nat (length s) + 1 <= sb_cap sb')%Z⌝ -∗ buffer sb' t -∗ Φ sb' l e k) -∗
  jwp (loop (S n) (fun sb =>
    a ← int (sb_len sb + Z.of_nat (length s));
    a ← int (a + 1);
    if decide (a > sb_cap sb)%Z then sb ← sb_double fails sb; mret (Next sb) else mret (Break sb)) sb) Φ l e k.
Proof.
  iIntros (-> Hs Hn) "Hb H". iInduction n as [|n IH] forall (sb Hs Hn);
    iAssert (⌜0 <= sb_len sb /\ 0 < sb_cap sb⌝%Z)%I as %[Hl Hc];
    try (iDestruct "Hb" as "(%q & %slack & -> & _)"; iPureIntro; cbn [sb_len sb_cap]; lia);
    iApply jwp_loop; iApply jwp_bind; (iApply jwp_int; [lia|]); iApply jwp_bind; (iApply jwp_int; [lia|]).
  - rewrite decide_False; [|simpl in Hn; lia]. iApply jwp_ret. iApply ("H" with "[%] Hb"). simpl in Hn. lia.
  - case_decide as Hd; [|iApply jwp_ret; iApply ("H" with "[%] Hb"); lia].
    iApply jwp_bind. iApply (jwp_double with "Hb"); [lia|]. iIntros (sb' [Hc' Hl']) "Hb". iApply jwp_ret.
    iApply ("IH" with "[%] [%] Hb H"); [lia|]. rewrite Hl' Hc'.
    replace (2 ^ Z.of_nat (S n))%Z with (2 * 2 ^ Z.of_nat n)%Z in Hn by (rewrite Nat2Z.inj_succ Z.pow_succ_r; lia). lia.
Qed.

Lemma overwrite_end (t s : list ascii) x slack :
  length s <= length slack ->
  overwrite (length t) (c_chars s) (map Some t ++ x :: slack) =
  map Some (t ++ s) ++ Some "000"%char :: drop (length s) slack.
Proof.
  intros Hs. unfold overwrite, c_chars. rewrite take_app_length'; [|by rewrite length_map].
  rewrite drop_app_ge; [|rewrite length_map; lia]. rewrite !length_map length_app /=.
  replace (length t + (length s + 1) - length t) with (S (length s)) by lia.
  by rewrite skipn_cons !map_app -!(assoc_L (++)).
Qed.

Lemma jwp_append sb t s (Φ : post StrBuf) l e k :
  (Z.of_nat (length t + length s) < 2 ^ 29)%Z ->
  buffer sb t -∗ (∀ sb, buffer sb (t ++ s) -∗ Φ sb l e k) -∗ jwp (sb_append fails sb s) Φ l e k.
Proof.
  iIntros (Ht) "Hb H". iAssert (⌜sb_len sb = Z.of_nat (length t) /\ 1 <= sb_cap sb⌝%Z)%I as %[Hl Hc].
  { iDestruct "Hb" as "(%q & %slack & -> & _)". iPureIntro. cbn [sb_len sb_cap]. lia. }
  unfold sb_append. rewrite s32_small; [|lia]. iApply jwp_bind.
  iApply (jwp_make_room 31 with "Hb"); [done|lia|lia|]. iIntros (sb' Hr) "(%q & %slack & -> & Hq)".
  cbn [sb_len sb_cap sb_buf] in *. iApply jwp_bind. iApply (jwp_chars with "Hq"). iIntros "Hq".
  iApply jwp_bind. iApply jwp_int; [lia|]. rewrite size_t_small; [|lia].
  rewrite decide_True; [|rewrite length_app length_map /=; lia].
  iApply jwp_bind. iApply (jwp_put with "Hq"). iIntros "Hq". iApply jwp_bind. iApply jwp_int; [lia|]. iApply jwp_ret.
  iApply "H". iExists q, (drop (length s) slack). rewrite length_app length_drop.
  iSplit; [iPureIntro; f_equal; lia|]. rewrite Nat2Z.id take_ge; [|unfold c_chars; rewrite length_map length_app /=; lia].
  rewrite overwrite_end //. lia.
Qed.

(** * Trees on the heap *)

Definition text_at (p : nat) (t : list ascii) : iProp Σ :=
  ∃ slack, ⌜"000"%char ∉ t⌝ ∗ p ↦ Chars (c_chars t ++ slack).

Definition each_owned (R : tree -> nat -> iProp Σ) : list tree -> list nat -> iProp Σ :=
  fix go vs ps :=
    match vs, ps with [], [] => emp | v :: vs, p :: ps => R v p ∗ go vs ps | _, _ => False end%I.

Definition members_owned (R : tree -> nat -> iProp Σ) : list (list ascii * tree) -> list (nat * nat) -> iProp Σ :=
  fix go ms xs :=
    match ms, xs with [], [] => emp | m :: ms, x :: xs => (text_at x.1 m.1 ∗ R m.2 x.2) ∗ go ms xs | _, _ => False end%I.

Definition item_slots (ps : list nat) (slack : list (option address)) : list (option address) :=
  map (fun p => Some (Some p)) ps ++ slack.
Definition pair_slots (xs : list (nat * nat)) (slack : list (option BlangJsonPair)) : list (option BlangJsonPair) :=
  map (fun x => Some (Some x.1, Some x.2)) xs ++ slack.

(** A node holds a value, and everything below it is its own. *)
Fixpoint owned (v : tree) (p : nat) : iProp Σ :=
  match v with
  | TNull => p ↦ Value JsonNull
  | TBool b => p ↦ Value (JsonBool (if b then 1 else 0))
  | TInt z => p ↦ Value (JsonInt z)
  | TFloat d => p ↦ Value (JsonFloat d)
  | TString t => ∃ q, p ↦ Value (JsonString (Some q)) ∗ text_at q t
  | TArray vs =>
      ∃ q ps slack, p ↦ Value (JsonArray (Some q) (Z.of_nat (length vs)) (Z.of_nat (length vs + length slack))) ∗
        ⌜0 < length vs + length slack⌝%nat ∗ q ↦ Items (item_slots ps slack) ∗ each_owned owned vs ps
  | TObject ms =>
      ∃ q xs slack, p ↦ Value (JsonObject (Some q) (Z.of_nat (length ms)) (Z.of_nat (length ms + length slack))) ∗
        ⌜0 < length ms + length slack⌝%nat ∗ q ↦ Pairs (pair_slots xs slack) ∗ members_owned owned ms xs
  end.

Lemma each_owned_length R vs ps : each_owned R vs ps ⊢ ⌜length vs = length ps⌝.
Proof.
  iIntros "H". iInduction vs as [|v vs IH] forall (ps); destruct ps as [|p ps]; try done.
  iDestruct "H" as "[_ H]". iDestruct ("IH" with "H") as %E. iPureIntro. by rewrite /= E.
Qed.

Lemma members_owned_length R ms xs : members_owned R ms xs ⊢ ⌜length ms = length xs⌝.
Proof.
  iIntros "H". iInduction ms as [|m ms IH] forall (xs); destruct xs as [|x xs]; try done.
  iDestruct "H" as "[_ H]". iDestruct ("IH" with "H") as %E. iPureIntro. by rewrite /= E.
Qed.

(** ** The cells of a tree *)

(** An assertion that owns a number of cells. *)
Definition covers (P : iProp Σ) (n : nat) : Prop := P ⊢ ∃ m : gmap nat heap_cell, ⌜size m = n⌝ ∗ [∗ map] q ↦ c ∈ m, q ↦ c.

Lemma covers_cell p c : covers (p ↦ c) 1.
Proof. iIntros "H". iExists {[p := c]}. rewrite map_size_singleton big_sepM_singleton. by iFrame. Qed.

Lemma covers_sep P Q a b : covers P a -> covers Q b -> covers (P ∗ Q) (a + b).
Proof.
  intros HP HQ. iIntros "[HP HQ]". iDestruct (HP with "HP") as (m1) "[%H1 Hm1]". iDestruct (HQ with "HQ") as (m2) "[%H2 Hm2]".
  iAssert (⌜m1 ##ₘ m2⌝)%I as %Hd.
  { rewrite map_disjoint_spec. iIntros (i x y Hx Hy). rewrite (big_sepM_lookup _ m1) //. rewrite (big_sepM_lookup _ m2) //.
    by iDestruct (ghost_map_elem_ne with "Hm1 Hm2") as %[]. }
  iExists (m1 ∪ m2). rewrite map_size_disj_union // big_sepM_union //. iFrame. iPureIntro. lia.
Qed.

Lemma covers_weaken P Q n : (P ⊢ Q) -> covers Q n -> covers P n.
Proof. intros H HQ. unfold covers. by rewrite H. Qed.

Lemma covers_exist {A} (P : A -> iProp Σ) n : (forall a, covers (P a) n) -> covers (∃ a, P a) n.
Proof. intros H. iIntros "[%a HP]". by iApply H. Qed.

Lemma covers_pure φ P n : covers P n -> covers (⌜φ⌝ ∗ P) n.
Proof. apply covers_weaken. by iIntros "[_ H]". Qed.

Lemma covers_text p t : covers (text_at p t) 1.
Proof. apply covers_exist. intros slack. apply covers_pure, covers_cell. Qed.

Lemma covers_emp : covers emp 0.
Proof. iIntros "_". iExists ∅. by rewrite map_size_empty big_sepM_empty. Qed.

Lemma covers_false n : covers False n.
Proof. iIntros "[]". Qed.

Lemma owned_covers : forall v p, covers (owned v p) (weight v).
Proof.
  apply (tree_induction (fun v => forall p, covers (owned v p) (weight v))); [intros v|intros vs IH p|intros ms IH p].
  - destruct v; try done; intros p; try apply covers_cell. apply covers_exist. intros q.
    apply (covers_sep _ _ 1 1); [apply covers_cell|apply covers_text].
  - apply covers_exist. intros q. apply covers_exist. intros ps. apply covers_exist. intros slack.
    apply (covers_sep _ _ 1 (S _)); [apply covers_cell|]. apply covers_pure, (covers_sep _ _ 1 _); [apply covers_cell|].
    clear q slack p. revert ps. induction IH as [|v vs Hv _ IH]; intros [|p ps]; try apply covers_false; [apply covers_emp|].
    by apply covers_sep.
  - apply covers_exist. intros q. apply covers_exist. intros xs. apply covers_exist. intros slack.
    apply (covers_sep _ _ 1 (S _)); [apply covers_cell|]. apply covers_pure, (covers_sep _ _ 1 _); [apply covers_cell|].
    clear q slack p. revert xs. induction IH as [|m ms Hm _ IH]; intros [|x xs]; try apply covers_false; [apply covers_emp|].
    apply covers_sep; [apply (covers_sep _ _ 1 _); [apply covers_text|done]|done].
Qed.

Lemma owned_weight v p m : ghost_map_auth γ 1 m -∗ owned v p -∗ ⌜weight v <= size m⌝.
Proof.
  iIntros "Hm Hv". iDestruct (owned_covers with "Hv") as (m') "[%Hs Hc]".
  iDestruct (ghost_map_lookup_big with "Hm Hc") as %Hsub. iPureIntro. rewrite -Hs. by apply map_subseteq_size.
Qed.

(** ** Freeing *)

Lemma jwp_loaded {A} i (a : A) slots (Φ : post A) l e k :
  slots !! i = Some (Some a) -> Φ a l e k ⊢ jwp (loaded (Z.of_nat i) slots) Φ l e k.
Proof.
  intros Hi. unfold loaded. rewrite decide_True; [|apply lookup_lt_Some in Hi; lia]. rewrite Nat2Z.id Hi. apply jwp_known.
Qed.

Lemma lookup_slots {A B} (f : A -> B) l1 a l2 l3 : (map f (l1 ++ a :: l2) ++ l3) !! length l1 = Some (f a).
Proof. rewrite map_app -(assoc_L (++)). by rewrite lookup_app_r length_map // Nat.sub_diag. Qed.

Lemma jwp_free_text p t (Φ : post unit) l e k :
  text_at p t -∗ (∀ k', ⌜k = S k'⌝ -∗ Φ tt l e k') -∗ jwp (free_cell (Some p)) Φ l e k.
Proof. iIntros "(%slack & _ & Hp) H". by iApply (jwp_free with "Hp"). Qed.

Definition frees (v : tree) : Prop := forall n p (Φ : post unit) l e k, weight v <= n ->
  owned v p -∗ (∀ k', ⌜k = (k' + weight v)%nat⌝ -∗ Φ tt l e k') -∗ jwp (free_at n (Some p)) Φ l e k.

Lemma jwp_free_items n q slack vs ps1 ps2 (Φ : post unit) l e k :
  Forall frees vs -> Forall (fun v => weight v <= n) vs ->
  q ↦ Items (item_slots (ps1 ++ ps2) slack) -∗ each_owned owned vs ps2 -∗
  (∀ k', ⌜k = (k' + sum_list_with weight vs)%nat⌝ -∗ q ↦ Items (item_slots (ps1 ++ ps2) slack) -∗ Φ tt l e k') -∗
  jwp (each_index_from (length vs) (Z.of_nat (length ps1))
    (fun i _ => s ← get_items (Some q); x ← loaded i s; free_at n x) tt) Φ l e k.
Proof.
  intros Hvs Hn. iIntros "Hq Ho H".
  iInduction Hvs as [|v vs Hv Hvs IH] forall (ps1 ps2 k Hn); destruct ps2 as [|p ps2]; try done.
  - iApply jwp_ret. iApply ("H" with "[%] Hq"). simpl. lia.
  - apply Forall_cons in Hn as [Hw Hn]. iDestruct "Ho" as "[Hv Ho]". iApply jwp_bind. iApply jwp_bind.
    iApply (jwp_items with "Hq"). iIntros "Hq". iApply jwp_bind. iApply (jwp_loaded _ (Some p)); [apply (lookup_slots (fun p => Some (Some p)))|].
    iApply (Hv with "Hv"); [done|]. iIntros (k' ->).
    replace (Z.of_nat (length ps1) + 1)%Z with (Z.of_nat (length (ps1 ++ [p]))) by (rewrite length_app /=; lia).
    replace (ps1 ++ p :: ps2) with ((ps1 ++ [p]) ++ ps2) by (by rewrite -(assoc_L (++))).
    iApply ("IH" with "[//] Hq Ho"). iIntros (k'' ->) "Hq". iApply ("H" with "[%] Hq"). simpl. lia.
Qed.

Lemma jwp_free_members n q slack ms xs1 xs2 (Φ : post unit) l e k :
  Forall (fun m => frees m.2) ms -> Forall (fun m => weight m.2 <= n) ms ->
  q ↦ Pairs (pair_slots (xs1 ++ xs2) slack) -∗ members_owned owned ms xs2 -∗
  (∀ k', ⌜k = (k' + sum_list_with (fun m => S (weight m.2)) ms)%nat⌝ -∗ q ↦ Pairs (pair_slots (xs1 ++ xs2) slack) -∗ Φ tt l e k') -∗
  jwp (each_index_from (length ms) (Z.of_nat (length xs1))
    (fun i _ => s ← get_pairs (Some q); x ← loaded i s; free_cell x.1;; free_at n x.2) tt) Φ l e k.
Proof.
  intros Hms Hn. iIntros "Hq Ho H".
  iInduction Hms as [|m ms Hm Hms IH] forall (xs1 xs2 k Hn); destruct xs2 as [|x xs2]; try done.
  - iApply jwp_ret. iApply ("H" with "[%] Hq"). simpl. lia.
  - apply Forall_cons in Hn as [Hw Hn]. iDestruct "Ho" as "[[Ht Hv] Ho]". iApply jwp_bind. iApply jwp_bind.
    iApply (jwp_pairs with "Hq"). iIntros "Hq". iApply jwp_bind. iApply (jwp_loaded _ (Some x.1, Some x.2)); [apply (lookup_slots (fun x => Some (Some x.1, Some x.2)))|].
    iApply jwp_bind. iApply (jwp_free_text with "Ht"). iIntros (k1 ->).
    iApply (Hm with "Hv"); [done|]. iIntros (k' ->).
    replace (Z.of_nat (length xs1) + 1)%Z with (Z.of_nat (length (xs1 ++ [x]))) by (rewrite length_app /=; lia).
    replace (xs1 ++ x :: xs2) with ((xs1 ++ [x]) ++ xs2) by (by rewrite -(assoc_L (++))).
    iApply ("IH" with "[//] Hq Ho"). iIntros (k'' ->) "Hq". iApply ("H" with "[%] Hq"). simpl. lia.
Qed.

Lemma sums_le {A} (f : A -> nat) l n : sum_list_with f l <= n -> Forall (fun a => f a <= n) l.
Proof. induction l as [|a l IH]; simpl; intros H; constructor; [lia|]. apply IH. lia. Qed.

Lemma tree_freed : forall v, frees v.
Proof.
  apply (tree_induction frees); [intros v; destruct v; try done|intros vs IH|intros ms IH]; intros [|n] p Φ l e k Hn;
    try (match goal with H : weight ?v <= 0 |- _ => pose proof (tree_weight_pos v); lia end).
  all: try (iIntros "Hp H"; iApply jwp_bind; iApply (jwp_value with "Hp"); iIntros "Hp"; iApply jwp_bind;
      iApply jwp_ret; iApply (jwp_free with "Hp"); iIntros (k' ->); iApply "H"; iPureIntro; simpl; lia).
  - iIntros "(%q & Hp & Ht) H". iApply jwp_bind. iApply (jwp_value with "Hp"). iIntros "Hp". iApply jwp_bind.
    iApply (jwp_free_text with "Ht"). iIntros (k1 ->). iApply (jwp_free with "Hp"). iIntros (k' ->). iApply "H". iPureIntro. simpl. lia.
  - iIntros "(%q & %ps & %slack & Hp & _ & Hq & Ho) H". iApply jwp_bind. iApply (jwp_value with "Hp"). iIntros "Hp".
    iApply jwp_bind. iApply jwp_bind. unfold each_index. rewrite Nat2Z.id. simpl in Hn.
    iApply (jwp_free_items n q slack vs [] ps with "Hq Ho"); [done|apply sums_le; lia|]. iIntros (k1 ->) "Hq".
    iApply (jwp_free with "Hq"). iIntros (k2 Hk2). iApply (jwp_free with "Hp"). iIntros (k' ->). iApply "H". iPureIntro. simpl. lia.
  - iIntros "(%q & %xs & %slack & Hp & _ & Hq & Ho) H". iApply jwp_bind. iApply (jwp_value with "Hp"). iIntros "Hp".
    iApply jwp_bind. iApply jwp_bind. unfold each_index. rewrite Nat2Z.id. simpl in Hn.
    iApply (jwp_free_members n q slack ms [] xs with "Hq Ho"); [done| |].
    { eapply Forall_impl; [apply (sums_le (fun m => S (weight m.2)) ms n); lia|simpl; lia]. } iIntros (k1 ->) "Hq".
    iApply (jwp_free with "Hq"). iIntros (k2 Hk2). iApply (jwp_free with "Hp"). iIntros (k' ->). iApply "H". iPureIntro. simpl. lia.
Qed.

Lemma jwp_json_free v p (Φ : post unit) l e k :
  owned v p -∗ (∀ k', ⌜k = (k' + weight v)%nat⌝ -∗ Φ tt l e k') -∗ jwp (json_free (Some p)) Φ l e k.
Proof.
  iIntros "Hv H". iApply jwp_bind. iIntros "%s %Hs Hm !>". iExists (size (h_cells s)), s, l, e, k. iSplit; [done|].
  iDestruct (owned_weight with "Hm Hv") as %Hw. iFrame "Hm". iSplit; [done|]. by iApply (tree_freed with "Hv").
Qed.

(** ** Building *)

Lemma jwp_alloc_value v (Φ : post address) l e k :
  (∀ p, p ↦ Value v -∗ Φ (Some p) l e (S k)) ⊢ jwp (alloc_value fails v) Φ l e k.
Proof.
  iIntros "H". iApply jwp_bind. iApply jwp_new. iIntros (p) "Hp". iApply jwp_bind. iApply jwp_known. iApply jwp_ret.
  by iApply "H".
Qed.

Lemma jwp_json_array (Φ : post address) l e k :
  (∀ p, owned (TArray []) p -∗ Φ (Some p) l e (S (S k))) ⊢ jwp (make_array fails) Φ l e k.
Proof.
  iIntros "H". iApply jwp_bind. iApply jwp_alloc_value. iIntros (p) "Hp". iApply jwp_bind. iApply jwp_new. iIntros (q) "Hq".
  iApply jwp_bind. iApply (jwp_put with "Hp"). iIntros "Hp". iApply jwp_ret. iApply "H".
  iExists q, [], (replicate 8 (Some None)). iFrame. iPureIntro. simpl. lia.
Qed.

Lemma jwp_json_object (Φ : post address) l e k :
  (∀ p, owned (TObject []) p -∗ Φ (Some p) l e (S (S k))) ⊢ jwp (make_object fails) Φ l e k.
Proof.
  iIntros "H". iApply jwp_bind. iApply jwp_alloc_value. iIntros (p) "Hp". iApply jwp_bind. iApply jwp_new. iIntros (q) "Hq".
  iApply jwp_bind. iApply (jwp_put with "Hp"). iIntros "Hp". iApply jwp_ret. iApply "H".
  iExists q, [], (replicate 8 (Some (None, None))). iFrame. iPureIntro. simpl. lia.
Qed.

Lemma each_owned_snoc R vs ps v p : each_owned R vs ps -∗ R v p -∗ each_owned R (vs ++ [v]) (ps ++ [p]).
Proof.
  iIntros "H Hv". iInduction vs as [|w vs IH] forall (ps); destruct ps as [|q ps]; try done; simpl; [by iFrame|].
  iDestruct "H" as "[$ H]". by iApply ("IH" with "H").
Qed.

Lemma members_owned_app R ms1 ms2 xs1 xs2 :
  length ms1 = length xs1 ->
  members_owned R (ms1 ++ ms2) (xs1 ++ xs2) ⊣⊢ members_owned R ms1 xs1 ∗ members_owned R ms2 xs2.
Proof.
  revert xs1. induction ms1 as [|m ms1 IH]; intros [|x xs1] H; try done; simpl; [by rewrite left_id|].
  rewrite (IH xs1); [|simpl in H; lia]. by rewrite -!(assoc bi_sep).
Qed.

Lemma jwp_stored {A} i (a : A) slots (Φ : post (list (option A))) l e k :
  i < length slots -> Φ (<[i := Some a]> slots) l e k ⊢ jwp (stored (Z.of_nat i) a slots) Φ l e k.
Proof. intros Hi. unfold stored. rewrite decide_True; [|lia]. rewrite Nat2Z.id. apply jwp_ret. Qed.

Lemma slots_snoc {A B} (f : A -> B) l a s slack :
  <[length l := f a]> (map f l ++ s :: slack) = map f (l ++ [a]) ++ slack.
Proof. by rewrite insert_app_r_alt length_map // Nat.sub_diag map_app -(assoc_L (++)). Qed.

Lemma resize_twice {A} (x : A) l :
  resize (Z.to_nat (Z.of_nat (length l) * 2)) x l = l ++ replicate (length l) x.
Proof. rewrite resize_ge; [|lia]. by replace (Z.to_nat _ - _) with (length l) by lia. Qed.

(** Room for one more element of an array that grows. *)
Lemma jwp_room {A B} (mk : list (option B) -> heap_cell) (get : address -> J (list (option B))) (f : A -> B)
    q (xs : list A) slack (Φ : post (address * Z)) l e k :
  (forall q s (Ψ : post (list (option B))), q ↦ mk s -∗ (q ↦ mk s -∗ Ψ s l e k) -∗ jwp (get (Some q)) Ψ l e k) ->
  (Z.of_nat (length xs) < 2 ^ 29)%Z -> 0 < length xs + length slack ->
  q ↦ mk (map (fun x => Some (f x)) xs ++ slack) -∗
  (∀ q y slack, q ↦ mk (map (fun x => Some (f x)) xs ++ y :: slack) -∗
     Φ (Some q, Z.of_nat (length xs + S (length slack))) l e k) -∗
  jwp (if decide (Z.of_nat (length xs) >= Z.of_nat (length xs + length slack))%Z then
        capacity ← int (Z.of_nat (length xs + length slack) * 2);
        s ← get (Some q);
        p ← moved_cell fails (Some q) (mk (resize (Z.to_nat capacity) None s));
        mret (p, capacity)
      else mret (Some q, Z.of_nat (length xs + length slack))) Φ l e k.
Proof.
  iIntros (Hget Hx Hc) "Hq H". case_decide as Hd.
  - destruct slack as [|x slack]; [|simpl in Hd; lia]. simpl in *. rewrite Nat.add_0_r in Hc |- *.
    iApply jwp_bind. iApply jwp_int; [lia|]. iApply jwp_bind. iApply (Hget with "Hq"). iIntros "Hq".
    iApply jwp_bind. iApply (jwp_moved with "Hq"). iIntros (q') "Hq". iApply jwp_ret.
    iSpecialize ("H" $! q' None (replicate (pred (length xs)) None)). rewrite length_replicate app_nil_r.
    replace (length xs + S (pred (length xs))) with (length xs + length xs) by lia.
    replace (Z.of_nat (length xs) * 2)%Z with (Z.of_nat (length xs + length xs)) by lia. iApply "H".
    replace (Z.of_nat (length xs + length xs)) with (Z.of_nat (length (map (fun x => Some (f x)) xs)) * 2)%Z
      by (rewrite length_map; lia).
    rewrite resize_twice length_map. destruct xs; [simpl in Hc; lia|done].
  - iApply jwp_ret. destruct slack as [|x slack]; [simpl in Hd; lia|]. by iApply "H".
Qed.

Lemma jwp_array_push vs v p r (Φ : post unit) l e k :
  (Z.of_nat (length vs) < 2 ^ 29)%Z ->
  owned (TArray vs) p -∗ owned v r -∗ (owned (TArray (vs ++ [v])) p -∗ Φ tt l e k) -∗
  jwp (json_array_push fails (Some p) (Some r)) Φ l e k.
Proof.
  iIntros (Hv) "(%q & %ps & %slack & Hp & %Hc & Hq & Ho) Hv H". iDestruct (each_owned_length with "Ho") as %Hl.
  iApply jwp_bind. iApply (jwp_value with "Hp"). iIntros "Hp". iApply jwp_bind. rewrite !Hl. rewrite Hl in Hv, Hc.
  iApply (jwp_room Items get_items Some with "Hq"); [by intros; apply jwp_items|done..|].
  iIntros (q' x slack') "Hq". iApply jwp_bind. iApply (jwp_items with "Hq"). iIntros "Hq". iApply jwp_bind.
  iApply jwp_stored; [rewrite length_app length_map /=; lia|].
  iApply jwp_bind. iApply (jwp_put with "Hq"). iIntros "Hq". iApply (jwp_put with "Hp"). iIntros "Hp". iApply "H".
  iDestruct (each_owned_snoc with "Ho Hv") as "Ho". iExists q', (ps ++ [r]), slack'. iFrame "Ho".
  rewrite length_app Hl /=. rewrite (slots_snoc (fun p => Some (Some p))). iFrame "Hq".
  replace (Z.of_nat (length ps) + 1)%Z with (Z.of_nat (length ps + 1)) by lia.
  replace (length ps + S (length slack')) with (length ps + 1 + length slack') by lia. iFrame "Hp". iPureIntro. lia.
Qed.

Lemma until_null_chars t slack : "000"%char ∉ t -> until_null (c_chars t ++ slack) = Some t.
Proof.
  intros Ht. induction t as [|c t IH]; [done|]. apply not_elem_of_cons in Ht as [Hc Ht]. simpl.
  rewrite decide_False; [|done]. unfold c_chars in IH. by rewrite (IH Ht).
Qed.

Lemma jwp_text p t (Φ : post (list ascii)) l e k :
  text_at p t -∗ (text_at p t -∗ Φ t l e k) -∗ jwp (c_string (Some p)) Φ l e k.
Proof.
  iIntros "(%slack & %Ht & Hp) H". iApply jwp_bind. iApply (jwp_chars with "Hp"). iIntros "Hp".
  rewrite until_null_chars //. iApply jwp_known. iApply "H". iExists slack. by iFrame.
Qed.

(** The value of a key replaced, or a member behind the others. *)
Fixpoint set_pair (key : list ascii) (v : tree) (ms : list (list ascii * tree)) : list (list ascii * tree) :=
  match ms with
  | [] => [(key, v)]
  | (k, w) :: ms => if decide (k = key) then (k, v) :: ms else (k, w) :: set_pair key v ms
  end.

Lemma set_pair_new key v ms : key ∉ ms.*1 -> set_pair key v ms = ms ++ [(key, v)].
Proof.
  induction ms as [|[k w] ms IH]; [done|]. intros [Hk Hms]%not_elem_of_cons. simpl. rewrite decide_False; [|done]. by rewrite IH.
Qed.

Lemma set_pair_old key v w ms1 ms2 : key ∉ ms1.*1 -> set_pair key v (ms1 ++ (key, w) :: ms2) = ms1 ++ (key, v) :: ms2.
Proof.
  induction ms1 as [|[k u] ms1 IH]; [simpl; intros _; by rewrite decide_True|].
  intros [Hk Hms]%not_elem_of_cons. simpl. rewrite decide_False; [|done]. by rewrite IH.
Qed.

(** The members a search has passed do not have the key. *)
Lemma jwp_find_pair q slack key ms1 ms2 xs1 xs2 (Φ : post (option (Z * BlangJsonPair))) l e k :
  length ms1 = length xs1 -> key ∉ ms1.*1 ->
  q ↦ Pairs (pair_slots (xs1 ++ xs2) slack) -∗ members_owned owned ms1 xs1 -∗ members_owned owned ms2 xs2 -∗
  (∀ r, (⌜r = None /\ key ∉ (ms1 ++ ms2).*1⌝ ∗ members_owned owned (ms1 ++ ms2) (xs1 ++ xs2) ∨
         ∃ ms xs ms' xs' v x, ⌜r = Some (Z.of_nat (length xs), (Some x.1, Some x.2)) /\ key ∉ ms.*1 /\ length ms = length xs /\
           ms1 ++ ms2 = ms ++ (key, v) :: ms' /\ xs1 ++ xs2 = xs ++ x :: xs'⌝ ∗
           members_owned owned ms xs ∗ text_at x.1 key ∗ owned v x.2 ∗ members_owned owned ms' xs') -∗
     q ↦ Pairs (pair_slots (xs1 ++ xs2) slack) -∗ Φ r l e k) -∗
  jwp (find_pair (length ms2) (Z.of_nat (length xs1)) (Some q) key) Φ l e k.
Proof.
  iIntros (Hl Hk) "Hq H1 H2 H". iInduction ms2 as [|[k1 v] ms2 IH] forall (ms1 xs1 xs2 Hl Hk); destruct xs2 as [|x xs2]; try done.
  - iApply jwp_ret. iApply ("H" with "[H1 H2] Hq"). iLeft. rewrite !app_nil_r. by iFrame.
  - iDestruct "H2" as "[[Ht Hv] H2]". cbn [fst snd]. iApply jwp_bind. iApply (jwp_pairs with "Hq"). iIntros "Hq". iApply jwp_bind.
    iApply (jwp_loaded _ (Some x.1, Some x.2)); [apply (lookup_slots (fun x => Some (Some x.1, Some x.2)))|].
    iApply jwp_bind. iApply (jwp_text with "Ht"). iIntros "Ht". case_decide as Hd.
    + subst k1. iApply jwp_ret. iApply ("H" with "[H1 H2 Ht Hv] Hq"). iRight. iExists ms1, xs1, ms2, xs2, v, x. by iFrame.
    + replace (Z.of_nat (length xs1) + 1)%Z with (Z.of_nat (length (xs1 ++ [x]))) by (rewrite length_app /=; lia).
      replace (xs1 ++ x :: xs2) with ((xs1 ++ [x]) ++ xs2) by (by rewrite -(assoc_L (++))).
      replace (ms1 ++ (k1, v) :: ms2) with ((ms1 ++ [(k1, v)]) ++ ms2) by (by rewrite -(assoc_L (++))).
      iApply ("IH" with "[%] [%] Hq [H1 Ht Hv] H2 H"); [rewrite !length_app /=; lia| |].
      * rewrite fmap_app not_elem_of_app. set_solver.
      * iApply members_owned_app; [done|]. by iFrame.
Qed.

Definition members_weight (ms : list (list ascii * tree)) : nat := sum_list_with (fun m => S (weight m.2)) ms.

Lemma members_weight_app ms1 ms2 : members_weight (ms1 ++ ms2) = members_weight ms1 + members_weight ms2.
Proof. apply sum_list_with_app. Qed.

Lemma slots_set {A B} (f : A -> B) l1 a b l2 l3 :
  <[length l1 := f b]> (map f (l1 ++ a :: l2) ++ l3) = map f (l1 ++ b :: l2) ++ l3.
Proof. rewrite !map_app -!(assoc_L (++)) insert_app_r_alt length_map //. by rewrite Nat.sub_diag. Qed.

Lemma jwp_strdup t (Φ : post address) l e k :
  "000"%char ∉ t -> (∀ p, text_at p t -∗ Φ (Some p) l e (S k)) ⊢ jwp (strdup fails t) Φ l e k.
Proof.
  iIntros (Ht) "H". iApply jwp_new. iIntros (p) "Hp". iApply "H". iExists []. rewrite app_nil_r. by iFrame.
Qed.

Lemma text_no_terminator p t : text_at p t ⊢ ⌜"000"%char ∉ t⌝.
Proof. by iIntros "(% & $ & _)". Qed.

Lemma jwp_object_set ms key v p r s (Φ : post unit) l e k :
  (Z.of_nat (length ms) < 2 ^ 29)%Z ->
  owned (TObject ms) p -∗ text_at s key -∗ owned v r -∗
  (∀ k', ⌜(k' + members_weight ms + weight v = k + members_weight (set_pair key v ms))%nat⌝ -∗
     owned (TObject (set_pair key v ms)) p -∗ text_at s key -∗ Φ tt l e k') -∗
  jwp (json_object_set fails (Some p) (Some s) (Some r)) Φ l e k.
Proof.
  iIntros (Hv) "(%q & %xs & %slack & Hp & %Hc & Hq & Ho) Hs Hv H". iDestruct (members_owned_length with "Ho") as %Hl.
  iApply jwp_bind. iApply (jwp_value with "Hp"). iIntros "Hp". iApply jwp_bind. iApply (jwp_text with "Hs"). iIntros "Hs".
  iApply jwp_bind. rewrite Nat2Z.id.
  iApply (jwp_find_pair q slack key [] ms [] xs with "Hq [] Ho"); [done|by intros ?%not_elem_of_nil|done|].
  cbn [app]. iIntros (found) "[[[-> %Hk] Ho]|(%ms1 & %xs1 & %ms2 & %xs2 & %w & %x & (-> & %Hk & %Hl1 & -> & ->) & Ho1 & Hx & Hw & Ho2)] Hq".
  - rewrite set_pair_new // members_weight_app. rewrite !Hl. rewrite Hl in Hv, Hc. iApply jwp_bind.
    iApply (jwp_room Pairs get_pairs (fun x : nat * nat => (Some x.1, Some x.2)) with "Hq"); [by intros; apply jwp_pairs|done..|].
    iIntros (q' y slack') "Hq". iDestruct (text_no_terminator with "Hs") as %Hz. iApply jwp_bind. iApply jwp_strdup; [done|].
    iIntros (d) "Hd". iApply jwp_bind. iApply (jwp_pairs with "Hq"). iIntros "Hq". iApply jwp_bind.
    iApply jwp_stored; [rewrite length_app length_map /=; lia|].
    iApply jwp_bind. iApply (jwp_put with "Hq"). iIntros "Hq". iApply (jwp_put with "Hp"). iIntros "Hp".
    iApply ("H" with "[%] [-Hs] Hs"); [unfold members_weight; simpl; lia|].
    iExists q', (xs ++ [(d, r)]), slack'. rewrite members_owned_app //. iFrame "Ho". rewrite length_app Hl /=.
    rewrite (slots_snoc (fun x : nat * nat => Some (Some x.1, Some x.2)) xs (d, r)). iFrame "Hq Hd Hv".
    replace (Z.of_nat (length xs) + 1)%Z with (Z.of_nat (length xs + 1)) by lia.
    replace (length xs + S (length slack')) with (length xs + 1 + length slack') by lia. iFrame "Hp". iPureIntro. lia.
  - rewrite set_pair_old // !members_weight_app. iApply jwp_bind. iApply (jwp_json_free with "Hw"). iIntros (k' ->).
    iApply jwp_bind. iApply (jwp_pairs with "Hq"). iIntros "Hq". iApply jwp_bind.
    iApply jwp_stored; [unfold pair_slots; rewrite length_app length_map length_app /=; lia|].
    iApply (jwp_put with "Hq"). iIntros "Hq". iApply ("H" with "[%] [-Hs] Hs"); [unfold members_weight; simpl; lia|].
    iExists q, (xs1 ++ (x.1, r) :: xs2), slack. rewrite members_owned_app //. iFrame "Ho1 Ho2 Hx Hv". unfold pair_slots.
    rewrite (slots_set (fun x : nat * nat => Some (Some x.1, Some x.2)) xs1 x (x.1, r)). iFrame "Hq".
    rewrite !length_app /= in Hc |- *. by iFrame "Hp".
Qed.

(** * Writing *)

Definition escaped (c : ascii) : list ascii := default [c] (escape_of c).
Definition string_text (t : list ascii) : list ascii := dquote :: (t ≫= escaped) ++ [dquote].

(** The text of a value. *)
Fixpoint json_text (v : tree) : list ascii :=
  match v with
  | TNull => chars "null"
  | TBool b => if b then chars "true" else chars "false"
  | TInt z => chars (pretty z)
  | TFloat d => take 63 (float_text d)
  | TString t => string_text t
  | TArray vs => "["%char :: commas (map json_text vs) ++ ["]"%char]
  | TObject ms => "{"%char :: commas (map (fun m => string_text m.1 ++ ":"%char :: json_text m.2) ms) ++ ["}"%char]
  end.

Definition short (t : list ascii) : Prop := (Z.of_nat (length t) < 2 ^ 29)%Z.

Lemma short_app_l t u : short (t ++ u) -> short t.
Proof. unfold short. rewrite length_app. lia. Qed.

Lemma jwp_append_short sb t s (Φ : post StrBuf) l e k :
  short (t ++ s) -> buffer sb t -∗ (∀ sb, buffer sb (t ++ s) -∗ Φ sb l e k) -∗ jwp (sb_append fails sb s) Φ l e k.
Proof. unfold short. rewrite length_app. apply jwp_append. Qed.

Lemma jwp_encode_char sb t c (Φ : post StrBuf) l e k :
  short (t ++ escaped c) ->
  buffer sb t -∗ (∀ sb, buffer sb (t ++ escaped c) -∗ Φ sb l e k) -∗ jwp (encode_char fails sb c) Φ l e k.
Proof.
  iIntros (Hs) "Hb H". unfold encode_char, escaped in *. destruct (escape_of c); simpl in *.
  - by iApply (jwp_append_short with "Hb").
  - iApply (jwp_append_char with "Hb"); [by eapply short_app_l|done].
Qed.

Lemma jwp_encode_chars sb t u (Φ : post StrBuf) l e k :
  short (t ++ (u ≫= escaped)) ->
  buffer sb t -∗ (∀ sb, buffer sb (t ++ (u ≫= escaped)) -∗ Φ sb l e k) -∗ jwp (encode_chars fails sb u) Φ l e k.
Proof.
  iIntros (Hs) "Hb H". iInduction u as [|c u IH] forall (sb t Hs); cbn [mbind list_bind] in *.
  - rewrite app_nil_r. iApply jwp_ret. by iApply "H".
  - rewrite (assoc_L (++)) in Hs |- *. iApply jwp_bind. iApply (jwp_encode_char with "Hb"); [by eapply short_app_l|].
    iIntros (sb') "Hb". by iApply ("IH" with "[] Hb").
Qed.

Lemma jwp_encode_string sb t p u (Φ : post StrBuf) l e k :
  short (t ++ string_text u) ->
  text_at p u -∗ buffer sb t -∗ (∀ sb, text_at p u -∗ buffer sb (t ++ string_text u) -∗ Φ sb l e k) -∗
  jwp (encode_string fails sb (Some p)) Φ l e k.
Proof.
  iIntros (Hs) "Hp Hb H". unfold string_text in *.
  replace (t ++ dquote :: (u ≫= escaped) ++ [dquote]) with (((t ++ [dquote]) ++ (u ≫= escaped)) ++ [dquote]) in Hs |- *
    by (by rewrite -!(assoc_L (++))).
  pose proof (short_app_l _ _ Hs) as H2. pose proof (short_app_l _ _ H2) as H1.
  iApply jwp_bind. iApply (jwp_append_char with "Hb"); [by apply short_app_l in H1|]. iIntros (sb1) "Hb".
  iApply jwp_bind. iApply (jwp_text with "Hp"). iIntros "Hp".
  iApply jwp_bind. iApply (jwp_encode_chars with "Hb"); [done|]. iIntros (sb2) "Hb".
  iApply (jwp_append_char with "Hb"); [done|]. iIntros (sb3) "Hb". iApply ("H" with "Hp Hb").
Qed.

(** The texts that follow [i] others. *)
Definition more_text (i : nat) (texts : list (list ascii)) : list ascii :=
  match i with 0 => commas texts | S _ => texts ≫= cons ","%char end.

Definition separator (i : nat) : list ascii := match i with 0 => [] | S _ => [","%char] end.

Lemma commas_bind t texts : commas (t :: texts) = t ++ (texts ≫= cons ","%char).
Proof.
  revert t. induction texts as [|u texts IH]; intros t; [by rewrite /= app_nil_r|].
  change (commas (t :: u :: texts)) with (t ++ ","%char :: commas (u :: texts)). by rewrite IH.
Qed.

Lemma more_text_cons i t texts : more_text i (t :: texts) = separator i ++ t ++ more_text (S i) texts.
Proof. destruct i; [apply commas_bind|done]. Qed.

Lemma jwp_comma i sb t (Φ : post StrBuf) l e k :
  short (t ++ separator i) -> buffer sb t -∗ (∀ sb, buffer sb (t ++ separator i) -∗ Φ sb l e k) -∗
  jwp (comma_before fails (Z.of_nat i) sb) Φ l e k.
Proof.
  iIntros (Hs) "Hb H". unfold comma_before. destruct i; simpl in *.
  - rewrite app_nil_r. iApply jwp_ret. by iApply "H".
  - iApply (jwp_append_char with "Hb"); [by eapply short_app_l|done].
Qed.

Definition encodes (v : tree) : Prop := forall n p sb t (Φ : post StrBuf) l e k,
  weight v <= n -> short (t ++ json_text v) ->
  owned v p -∗ buffer sb t -∗ (∀ sb, owned v p -∗ buffer sb (t ++ json_text v) -∗ Φ sb l e k) -∗
  jwp (encode_at fails float_text n sb (Some p)) Φ l e k.

Lemma jwp_encode_items n q slack vs ps1 ps2 sb t (Φ : post StrBuf) l e k :
  Forall encodes vs -> Forall (fun v => weight v <= n) vs -> short (t ++ more_text (length ps1) (map json_text vs)) ->
  q ↦ Items (item_slots (ps1 ++ ps2) slack) -∗ each_owned owned vs ps2 -∗ buffer sb t -∗
  (∀ sb, q ↦ Items (item_slots (ps1 ++ ps2) slack) -∗ each_owned owned vs ps2 -∗
     buffer sb (t ++ more_text (length ps1) (map json_text vs)) -∗ Φ sb l e k) -∗
  jwp (each_index_from (length vs) (Z.of_nat (length ps1)) (fun i sb =>
    sb ← comma_before fails i sb;
    s ← get_items (Some q);
    x ← loaded i s;
    encode_at fails float_text n sb x) sb) Φ l e k.
Proof.
  intros Hvs Hn Hs. iIntros "Hq Ho Hb H".
  iInduction Hvs as [|v vs Hv Hvs IH] forall (ps1 ps2 sb t Hn Hs Φ); destruct ps2 as [|p ps2]; try done.
  - iApply jwp_ret. iApply ("H" with "Hq Ho"). destruct ps1; by rewrite /= app_nil_r.
  - apply Forall_cons in Hn as [Hw Hn]. iDestruct "Ho" as "[Hv Ho]". rewrite map_cons in Hs |- *.
    rewrite more_text_cons !(assoc_L (++)) in Hs |- *. pose proof (short_app_l _ _ Hs) as H2. pose proof (short_app_l _ _ H2) as H1.
    iApply jwp_bind. iApply jwp_bind. iApply (jwp_comma with "Hb"); [done|]. iIntros (sb1) "Hb".
    iApply jwp_bind. iApply (jwp_items with "Hq"). iIntros "Hq". iApply jwp_bind.
    iApply (jwp_loaded _ (Some p)); [apply (lookup_slots (fun p => Some (Some p)))|].
    iApply (Hv with "Hv Hb"); [done..|]. iIntros (sb2) "Hv Hb".
    replace (Z.of_nat (length ps1) + 1)%Z with (Z.of_nat (length (ps1 ++ [p]))) by (rewrite length_app /=; lia).
    replace (S (length ps1)) with (length (ps1 ++ [p])) in Hs |- * by (rewrite length_app /=; lia).
    replace (ps1 ++ p :: ps2) with ((ps1 ++ [p]) ++ ps2) by (by rewrite -(assoc_L (++))).
    iApply ("IH" with "[//] [//] Hq Ho Hb"). iIntros (sb3) "Hq Ho Hb". iApply ("H" with "Hq [$] Hb").
Qed.

Definition member_text (m : list ascii * tree) : list ascii := string_text m.1 ++ ":"%char :: json_text m.2.

Lemma member_text_split m : member_text m = (string_text m.1 ++ [":"%char]) ++ json_text m.2.
Proof. by rewrite -(assoc_L (++)). Qed.

Lemma jwp_encode_members n q slack ms xs1 xs2 sb t (Φ : post StrBuf) l e k :
  Forall (fun m => encodes m.2) ms -> Forall (fun m => weight m.2 <= n) ms ->
  short (t ++ more_text (length xs1) (map member_text ms)) ->
  q ↦ Pairs (pair_slots (xs1 ++ xs2) slack) -∗ members_owned owned ms xs2 -∗ buffer sb t -∗
  (∀ sb, q ↦ Pairs (pair_slots (xs1 ++ xs2) slack) -∗ members_owned owned ms xs2 -∗
     buffer sb (t ++ more_text (length xs1) (map member_text ms)) -∗ Φ sb l e k) -∗
  jwp (each_index_from (length ms) (Z.of_nat (length xs1)) (fun i sb =>
    sb ← comma_before fails i sb;
    s ← get_pairs (Some q);
    x ← loaded i s;
    sb ← encode_string fails sb x.1;
    sb ← sb_append_char fails sb ":";
    encode_at fails float_text n sb x.2) sb) Φ l e k.
Proof.
  intros Hms Hn Hs. iIntros "Hq Ho Hb H".
  iInduction Hms as [|m ms Hm Hms IH] forall (xs1 xs2 sb t Hn Hs Φ); destruct xs2 as [|x xs2]; try done.
  - iApply jwp_ret. iApply ("H" with "Hq Ho"). destruct xs1; by rewrite /= app_nil_r.
  - apply Forall_cons in Hn as [Hw Hn]. iDestruct "Ho" as "[[Ht Hv] Ho]". rewrite map_cons in Hs |- *.
    rewrite more_text_cons (member_text_split m) !(assoc_L (++)) in Hs |- *.
    pose proof (short_app_l _ _ Hs) as H4. pose proof (short_app_l _ _ H4) as H3.
    pose proof (short_app_l _ _ H3) as H2. pose proof (short_app_l _ _ H2) as H1.
    iApply jwp_bind. iApply jwp_bind. iApply (jwp_comma with "Hb"); [done|]. iIntros (sb1) "Hb".
    iApply jwp_bind. iApply (jwp_pairs with "Hq"). iIntros "Hq". iApply jwp_bind.
    iApply (jwp_loaded _ (Some x.1, Some x.2)); [apply (lookup_slots (fun x => Some (Some x.1, Some x.2)))|].
    iApply jwp_bind. iApply (jwp_encode_string with "Ht Hb"); [done|]. iIntros (sb2) "Ht Hb".
    iApply jwp_bind. iApply (jwp_append_char with "Hb"); [done|]. iIntros (sb3) "Hb".
    iApply (Hm with "Hv Hb"); [done..|]. iIntros (sb4) "Hv Hb".
    replace (Z.of_nat (length xs1) + 1)%Z with (Z.of_nat (length (xs1 ++ [x]))) by (rewrite length_app /=; lia).
    replace (S (length xs1)) with (length (xs1 ++ [x])) in Hs |- * by (rewrite length_app /=; lia).
    replace (xs1 ++ x :: xs2) with ((xs1 ++ [x]) ++ xs2) by (by rewrite -(assoc_L (++))).
    iApply ("IH" with "[//] [//] Hq Ho Hb"). iIntros (sb5) "Hq Ho Hb". iApply ("H" with "Hq [$] Hb").
Qed.

Lemma tree_encoded : forall v, encodes v.
Proof.
  apply (tree_induction encodes); [intros v; destruct v as [|b|z|d|u|vs|ms]; try done|intros vs IH|intros ms IH];
    intros [|n] p sb t Φ l e k Hn Hs;
    try (match goal with H : weight ?v <= 0 |- _ => pose proof (tree_weight_pos v); lia end); cbn [json_text] in *.
  - iIntros "Hp Hb H". iApply jwp_bind. iApply (jwp_value with "Hp"). iIntros "Hp".
    iApply (jwp_append_short with "Hb"); [done|]. iIntros (sb') "Hb". iApply ("H" with "Hp Hb").
  - iIntros "Hp Hb H". iApply jwp_bind. iApply (jwp_value with "Hp"). iIntros "Hp". destruct b; simpl.
    all: iApply (jwp_append_short with "Hb"); [done|]; iIntros (sb') "Hb"; iApply ("H" with "Hp Hb").
  - iIntros "Hp Hb H". iApply jwp_bind. iApply (jwp_value with "Hp"). iIntros "Hp".
    iApply (jwp_append_short with "Hb"); [done|]. iIntros (sb') "Hb". iApply ("H" with "Hp Hb").
  - iIntros "Hp Hb H". iApply jwp_bind. iApply (jwp_value with "Hp"). iIntros "Hp".
    iApply (jwp_append_short with "Hb"); [done|]. iIntros (sb') "Hb". iApply ("H" with "Hp Hb").
  - iIntros "(%q & Hp & Ht) Hb H". iApply jwp_bind. iApply (jwp_value with "Hp"). iIntros "Hp".
    iApply (jwp_encode_string with "Ht Hb"); [done|]. iIntros (sb') "Ht Hb". iApply ("H" with "[Hp Ht] Hb"). iExists q. iFrame.
  - iIntros "(%q & %ps & %slack & Hp & %Hc & Hq & Ho) Hb H". iApply jwp_bind. iApply (jwp_value with "Hp"). iIntros "Hp".
    rewrite cons_middle !(assoc_L (++)) in Hs |- *. pose proof (short_app_l _ _ Hs) as H2. pose proof (short_app_l _ _ H2) as H1.
    iApply jwp_bind. iApply (jwp_append_char with "Hb"); [by apply short_app_l in H1|]. iIntros (sb1) "Hb".
    iApply jwp_bind. unfold each_index. rewrite Nat2Z.id. simpl in Hn.
    iApply (jwp_encode_items n q slack vs [] ps with "Hq Ho Hb"); [done|apply sums_le; lia|done|].
    iIntros (sb2) "Hq Ho Hb". iApply (jwp_append_char with "Hb"); [done|]. iIntros (sb3) "Hb".
    iApply ("H" with "[Hp Hq Ho] Hb"). iExists q, ps, slack. by iFrame.
  - iIntros "(%q & %xs & %slack & Hp & %Hc & Hq & Ho) Hb H". iApply jwp_bind. iApply (jwp_value with "Hp"). iIntros "Hp".
    change (map _ ms) with (map member_text ms) in *.
    rewrite cons_middle !(assoc_L (++)) in Hs |- *. pose proof (short_app_l _ _ Hs) as H2. pose proof (short_app_l _ _ H2) as H1.
    iApply jwp_bind. iApply (jwp_append_char with "Hb"); [by apply short_app_l in H1|]. iIntros (sb1) "Hb".
    iApply jwp_bind. unfold each_index. rewrite Nat2Z.id. simpl in Hn.
    iApply (jwp_encode_members n q slack ms [] xs with "Hq Ho Hb"); [done| |done|].
    { eapply Forall_impl; [apply (sums_le (fun m => S (weight m.2)) ms n); lia|simpl; lia]. }
    iIntros (sb2) "Hq Ho Hb". iApply (jwp_append_char with "Hb"); [done|]. iIntros (sb3) "Hb".
    iApply ("H" with "[Hp Hq Ho] Hb"). iExists q, xs, slack. by iFrame.
Qed.

Lemma jwp_json_encode v p (Φ : post address) l e k :
  short (json_text v) ->
  owned v p -∗ (∀ q slack, owned v p -∗ q ↦ Chars (c_chars (json_text v) ++ slack) -∗ Φ (Some q) l e (S k)) -∗
  jwp (json_encode fails float_text (Some p)) Φ l e k.
Proof.
  iIntros (Hs) "Hv H". iApply jwp_bind. iIntros "%s %Hl Hm". iDestruct (owned_weight with "Hm Hv") as %Hw. iModIntro.
  iExists (size (h_cells s)), s, l, e, k. iSplit; [done|]. iFrame "Hm". iSplit; [done|].
  iApply jwp_bind. iApply jwp_sb_init. iIntros (sb) "Hb". iApply jwp_bind. iApply (tree_encoded with "Hv Hb"); [done..|].
  iIntros (sb') "Hv (%q & %slack & -> & Hq)". iApply jwp_ret. iApply ("H" $! q slack with "Hv"). unfold c_chars.
  rewrite [map Some (json_text v ++ _)]map_app -(assoc_L (++)). iExact "Hq".
Qed.

(** * Reading

    What the parser reads, as a function of the text: a value and what is left of the
    text, or a complaint. *)

Inductive reading (A : Type) :=
  | Read (a : A) (rest : list ascii)
  | Fault (message : string)
  | Unread.
#[global] Arguments Read {A} a rest.
#[global] Arguments Fault {A} message.
#[global] Arguments Unread {A}.

Definition then_read {A B} (r : reading A) (f : A -> list ascii -> reading B) : reading B :=
  match r with Read a l => f a l | Fault m => Fault m | Unread => Unread end.

Definition first (l : list ascii) : ascii := default "000"%char (l !! 0).

Definition ws (c : ascii) : bool := negb (bool_decide (c = "000"%char)) && isspace c.

(** The text of a string up to its quote, from behind the first one. *)
Fixpoint string_body (l : list ascii) : option (list ascii * list ascii) :=
  match l with
  | [] => None
  | c :: l =>
      if decide (c = dquote) then Some ([], l)
      else if decide (c = backslash) then
        match l with [] => None | d :: l => prod_map (cons (unescape d)) id <$> string_body l end
      else prod_map (cons c) id <$> string_body l
  end.

Definition read_string (l : list ascii) : reading (list ascii) :=
  if decide (first l = dquote) then
    match string_body (tail l) with Some (t, l) => Read t l | None => Fault "Unterminated string" end
  else Fault (str (chars "Expected '" ++ [dquote; squote])).

Definition drop_first (test : ascii -> bool) (l : list ascii) : list ascii :=
  if test (first l) then tail l else l.

(** Where a number ends, and whether it has a point or an exponent. *)
Definition number_end (l : list ascii) : bool * list ascii :=
  let l := skip isdigit (drop_first (fun c => bool_decide (c = "-"%char)) l) in
  let '(f, l) := if decide (first l = "."%char) then (true, skip isdigit (tail l)) else (false, l) in
  if decide (first l = "e"%char \/ first l = "E"%char) then
    (true, skip isdigit (drop_first (fun c => bool_decide (c = "+"%char \/ c = "-"%char)) (tail l)))
  else (f, l).

Definition is_word (w : string) (l : list ascii) : bool :=
  bool_decide (take (String.length w) l = chars w) && negb (isalnum (default "000"%char (l !! String.length w))).

Section read_value.
Variable read : list ascii -> reading tree.

Fixpoint read_elements (n : nat) (acc : list tree) (l : list ascii) : reading tree :=
  match n with
  | 0 => Unread
  | S n =>
      then_read (read (skip ws l)) (fun v l =>
        let l := skip ws l in
        if decide (first l = ","%char) then read_elements n (acc ++ [v]) (tail l)
        else if decide (first l = "]"%char) then Read (TArray (acc ++ [v])) (tail l)
        else Fault "Expected ',' or ']' in array")
  end.

Fixpoint read_members (n : nat) (acc : list (list ascii * tree)) (l : list ascii) : reading tree :=
  match n with
  | 0 => Unread
  | S n =>
      then_read (read_string (skip ws l)) (fun key l =>
        let l := skip ws l in
        if decide (first l = ":"%char) then
          then_read (read (skip ws (tail l))) (fun v l =>
            let l := skip ws l in
            if decide (first l = ","%char) then read_members n (set_pair key v acc) (tail l)
            else if decide (first l = "}"%char) then Read (TObject (set_pair key v acc)) (tail l)
            else Fault "Expected ',' or '}' in object")
        else Fault "Expected ':' in object")
  end.

Definition read_array (n : nat) (l : list ascii) : reading tree :=
  let l := skip ws l in
  if decide (first l = "]"%char) then Read (TArray []) (tail l) else read_elements n [] l.

Definition read_object (n : nat) (l : list ascii) : reading tree :=
  let l := skip ws l in
  if decide (first l = "}"%char) then Read (TObject []) (tail l) else read_members n [] l.

Definition read_number (l : list ascii) : reading tree :=
  let '(f, r) := number_end l in Read (if f : bool then TFloat (strtod l) else TInt (strtoll l).1) r.

Definition read_word (l : list ascii) : reading tree :=
  if is_word "true" l then Read (TBool true) (drop 4 l)
  else if is_word "false" l then Read (TBool false) (drop 5 l)
  else if is_word "null" l then Read TNull (drop 4 l)
  else Fault "Unexpected character in JSON".

Definition read_one (n : nat) (l : list ascii) : reading tree :=
  let l := skip ws l in
  let c := first l in
  if decide (c = dquote) then then_read (read_string l) (fun t l => Read (TString t) l)
  else if decide (c = "["%char) then read_array n (tail l)
  else if decide (c = "{"%char) then read_object n (tail l)
  else if bool_decide (c = "-"%char) || isdigit c then read_number l
  else read_word l.
End read_value.

Fixpoint read_value (m n : nat) (l : list ascii) : reading tree :=
  match n with 0 => Unread | S n => read_one (read_value m n) m l end.

(** ** The text gets shorter *)

Lemma skip_length test l : length (skip test l) <= length l.
Proof. induction l as [|c l IH]; [done|]. simpl. destruct (test c); simpl; lia. Qed.

Lemma first_tail c l : first l = c -> c <> "000"%char -> l = c :: tail l.
Proof. intros <- H. by destruct l. Qed.

Lemma tail_length l : first l <> "000"%char -> S (length (tail l)) = length l.
Proof. by destruct l. Qed.

Lemma drop_first_length test l : length (drop_first test l) <= length l.
Proof. unfold drop_first. destruct (test _); [|done]. destruct l; simpl; lia. Qed.

Lemma string_body_length l t r : string_body l = Some (t, r) -> length t + length r < length l.
Proof.
  remember (length l) as n eqn:En. revert l t r En. induction (lt_wf n) as [n _ IH]. intros [|c l] t r -> H; [done|].
  simpl in H. repeat case_decide; simplify_eq/=; [lia| |].
  - destruct l as [|d l]; [done|]. apply fmap_Some in H as ([u s] & H & [= -> ->]). specialize (IH (length l) ltac:(simpl; lia) l u s eq_refl H). simpl. lia.
  - apply fmap_Some in H as ([u s] & H & [= -> ->]). specialize (IH (length l) ltac:(simpl; lia) l u s eq_refl H). simpl. lia.
Qed.

Lemma unescape_not_terminator c : c <> "000"%char -> unescape c <> "000"%char.
Proof. intros H. unfold unescape. by repeat case_decide. Qed.

Lemma string_body_no_terminator l t r : string_body l = Some (t, r) -> "000"%char ∉ l -> "000"%char ∉ t.
Proof.
  remember (length l) as n eqn:En. revert l t r En. induction (lt_wf n) as [n _ IH]. intros [|c l] t r -> H Hl; [done|].
  simpl in H. apply not_elem_of_cons in Hl as [Hc Hl]. repeat case_decide; simplify_eq/=; [by apply not_elem_of_nil| |].
  - destruct l as [|d l]; [done|]. apply not_elem_of_cons in Hl as [Hd Hl]. apply fmap_Some in H as ([u s] & H & [= -> ->]).
    apply not_elem_of_cons. split; [by apply not_eq_sym, unescape_not_terminator|]. by apply (IH (length l) ltac:(simpl; lia) l u s).
  - apply fmap_Some in H as ([u s] & H & [= -> ->]). apply not_elem_of_cons. split; [done|].
    by apply (IH (length l) ltac:(simpl; lia) l u s).
Qed.

Lemma string_read_length l t r : read_string l = Read t r -> length t + S (length r) < length l.
Proof.
  unfold read_string. intros H. case_decide as Hd; [|done]. destruct (string_body (tail l)) as [[u s]|] eqn:E; [|done].
  simplify_eq. apply string_body_length in E. rewrite -(tail_length l); [lia|by rewrite Hd].
Qed.

Lemma number_end_length l : bool_decide (first l = "-"%char) || isdigit (first l) = true -> length (number_end l).2 < length l.
Proof.
  intros H. unfold number_end. set (l1 := drop_first _ l). assert (length (skip isdigit l1) < length l) as H1.
  { destruct l as [|c l]; [done|]. unfold first in H. simpl in H. subst l1. unfold drop_first, first. simpl. case_bool_decide.
    - pose proof (skip_length isdigit l). lia.
    - simpl in H |- *. rewrite H. pose proof (skip_length isdigit l). lia. }
  generalize dependent (skip isdigit l1). intros l2 H2. clear l1 H.
  assert (forall f l3, (if decide (first l2 = "."%char) then (true, skip isdigit (tail l2)) else (false, l2)) = (f, l3) -> length l3 < length l) as H3.
  { intros f l3. case_decide as Hd; intros [= <- <-]; [|done]. pose proof (skip_length isdigit (tail l2)).
    rewrite -(tail_length l2) in H2; [|by rewrite Hd]. lia. }
  destruct (if decide (first l2 = "."%char) then _ else _) as [f l3] eqn:E. specialize (H3 f l3 eq_refl). clear E.
  case_decide as Hd; [|exact H3]. cbn [snd]. eapply Nat.lt_trans; [|exact H3]. eapply Nat.le_lt_trans; [apply skip_length|].
  eapply Nat.le_lt_trans; [apply drop_first_length|]. rewrite -(tail_length l3); [lia|]. by destruct Hd as [-> | ->].
Qed.

Definition shortens (read : list ascii -> reading tree) : Prop := forall l v r, read l = Read v r -> length r < length l.

Lemma then_read_inv {A B} (r : reading A) (f : A -> list ascii -> reading B) b l :
  then_read r f = Read b l -> exists a l', r = Read a l' /\ f a l' = Read b l.
Proof. destruct r; simpl; [eauto|done|done]. Qed.

Lemma first_not l c : first l = c -> c <> "000"%char -> S (length (tail l)) = length l.
Proof. intros <- H. by apply tail_length. Qed.

Lemma elements_length read n acc l v r : shortens read -> read_elements read n acc l = Read v r -> length r < length l.
Proof.
  intros Hr. revert acc l. induction n as [|n IH]; intros acc l; [done|]. simpl. intros (w & l1 & E1%Hr & E2)%then_read_inv.
  pose proof (skip_length ws l) as Hl. pose proof (skip_length ws l1) as Hl1.
  case_decide as Hc; [apply IH in E2; pose proof (first_not _ _ Hc ltac:(done)); lia|].
  case_decide as Hd; [|done]. simplify_eq. pose proof (first_not _ _ Hd ltac:(done)). lia.
Qed.

Lemma members_length read n acc l v r : shortens read -> read_members read n acc l = Read v r -> length r < length l.
Proof.
  intros Hr. revert acc l. induction n as [|n IH]; intros acc l; [done|]. simpl.
  intros (key & l0 & H0%string_read_length & H)%then_read_inv. pose proof (skip_length ws l) as Hl. pose proof (skip_length ws l0) as Hl0.
  case_decide as Hk; [|done]. pose proof (first_not _ _ Hk ltac:(done)). apply then_read_inv in H as (w & l1 & E1%Hr & E2).
  pose proof (skip_length ws (tail (skip ws l0))) as Ht. pose proof (skip_length ws l1) as Hl1.
  case_decide as Hc; [apply IH in E2; pose proof (first_not _ _ Hc ltac:(done)); lia|].
  case_decide as Hd; [|done]. simplify_eq. pose proof (first_not _ _ Hd ltac:(done)). lia.
Qed.

Lemma word_length w l : is_word w l = true -> String.length w <= length l.
Proof.
  intros H. apply andb_prop in H as [H _]. apply bool_decide_eq_true in H. apply (f_equal length) in H.
  rewrite length_take length_chars in H. lia.
Qed.

Lemma read_one_length read m : shortens read -> shortens (read_one read m).
Proof.
  intros Hr l v r. unfold read_one. pose proof (skip_length ws l) as Hl. generalize dependent (skip ws l). intros l1 Hl.
  case_decide as Hq; [intros (t & l2 & H%string_read_length & [= <- <-])%then_read_inv; lia|].
  case_decide as Ha.
  { unfold read_array. pose proof (first_not _ _ Ha ltac:(done)). pose proof (skip_length ws (tail l1)).
    case_decide as Hb; [intros [= <- <-]; pose proof (first_not _ _ Hb ltac:(done)); lia|intros H2%elements_length; [lia|done]]. }
  case_decide as Ho.
  { unfold read_object. pose proof (first_not _ _ Ho ltac:(done)). pose proof (skip_length ws (tail l1)).
    case_decide as Hb; [intros [= <- <-]; pose proof (first_not _ _ Hb ltac:(done)); lia|intros H2%members_length; [lia|done]]. }
  destruct (bool_decide _ || _) eqn:En.
  { unfold read_number. pose proof (number_end_length l1 En). destruct (number_end l1) as [f r']. intros [= <- <-]. simpl in *. lia. }
  unfold read_word. destruct (is_word "true" l1) eqn:E1; [|destruct (is_word "false" l1) eqn:E2; [|destruct (is_word "null" l1) eqn:E3; [|done]]];
    intros [= <- <-]; rewrite length_drop; (apply word_length in E1 || apply word_length in E2 || apply word_length in E3); simpl in *; lia.
Qed.

Lemma read_value_length m n : shortens (read_value m n).
Proof. induction n as [|n IH]; [done|]. by apply read_one_length. Qed.

(** The depth and the passes are enough for a text that is shorter. *)
Lemma elements_read read n acc l :
  shortens read -> (forall l', length l' <= length l -> read l' <> Unread) -> length l < n -> read_elements read n acc l <> Unread.
Proof.
  intros Hs. revert acc l. induction n as [|n IH]; intros acc l Hr Hn; [lia|]. simpl. pose proof (skip_length ws l) as Hl.
  pose proof (Hr (skip ws l) ltac:(lia)) as H. destruct (read (skip ws l)) as [v l1|m|] eqn:E; simpl; [|done|done]. apply Hs in E.
  pose proof (skip_length ws l1). repeat case_decide; [|done|done].
  match goal with Hc : first _ = _ |- _ => pose proof (first_not _ _ Hc ltac:(done)) end.
  apply IH; [|lia]. intros l' Hl'. apply Hr. lia.
Qed.

Lemma read_string_read l : read_string l <> Unread.
Proof. unfold read_string. case_decide; [|done]. by destruct (string_body _) as [[]|]. Qed.

Lemma members_read read n acc l :
  shortens read -> (forall l', length l' <= length l -> read l' <> Unread) -> length l < n -> read_members read n acc l <> Unread.
Proof.
  intros Hs. revert acc l. induction n as [|n IH]; intros acc l Hr Hn; [lia|]. simpl. pose proof (skip_length ws l) as Hl.
  pose proof (read_string_read (skip ws l)). destruct (read_string (skip ws l)) as [key l0|m|] eqn:E0; simpl; [|done|done].
  apply string_read_length in E0. pose proof (skip_length ws l0). case_decide as Hk; [|done].
  pose proof (first_not _ _ Hk ltac:(done)). pose proof (skip_length ws (tail (skip ws l0))).
  pose proof (Hr (skip ws (tail (skip ws l0))) ltac:(lia)) as H3.
  destruct (read (skip ws (tail (skip ws l0)))) as [v l1|m|] eqn:E; simpl; [|done|done]. apply Hs in E.
  pose proof (skip_length ws l1). case_decide as Hc; [|by case_decide]. pose proof (first_not _ _ Hc ltac:(done)).
  apply IH; [|lia]. intros l' Hl'. apply Hr. lia.
Qed.

Lemma value_read m n l : length l < n -> length l < m -> read_value m n l <> Unread.
Proof.
  revert l. induction n as [|n IH]; intros l Hn Hm; [lia|]. simpl. unfold read_one. pose proof (skip_length ws l) as Hl.
  generalize dependent (skip ws l). intros l1 Hl.
  case_decide as Hq; [pose proof (read_string_read l1); by destruct (read_string l1)|].
  case_decide as Ha.
  { unfold read_array. pose proof (first_not _ _ Ha ltac:(done)). pose proof (skip_length ws (tail l1)). case_decide as Hb; [done|].
    apply elements_read; [apply read_value_length| |lia]. intros l' Hl'. apply IH; lia. }
  case_decide as Ho.
  { unfold read_object. pose proof (first_not _ _ Ho ltac:(done)). pose proof (skip_length ws (tail l1)). case_decide as Hb; [done|].
    apply members_read; [apply read_value_length| |lia]. intros l' Hl'. apply IH; lia. }
  destruct (bool_decide _ || _); [unfold read_number; by destruct (number_end l1)|]. unfold read_word.
  by repeat match goal with |- context [if is_word ?w l1 then _ else _] => destruct (is_word w l1) end.
Qed.

(** ** The parser reads so *)

Hypothesis no_terminator : "000"%char ∉ input.
Hypothesis no_backslash_last : last input <> Some backslash.

(** What a call leaves that began with [k] live cells, for what is read. *)
Definition given (r : reading tree) (Φ : post address) (e : option string) (k : nat) : iProp Σ :=
  match r with
  | Read v l => ∀ p, owned v p -∗ Φ (Some p) l e (k + weight v)
  | Fault m => ∀ l, Φ None l (Some m) k
  | Unread => False
  end.

Lemma jwp_ws (Φ : post unit) l e k : Φ tt (skip ws l) e k ⊢ jwp (skip_ws input) Φ l e k.
Proof. by apply jwp_skip. Qed.

Lemma jwp_advance_char c (Φ : post unit) l e k :
  first l = c -> c <> "000"%char -> Φ tt (tail l) e k ⊢ jwp (move_on 1) Φ l e k.
Proof. intros Hc Hn. rewrite {2}(first_tail c l) //. apply jwp_next. Qed.

Lemma suffix_plain l c : l `suffix_of` input -> c ∈ l -> c <> "000"%char.
Proof. intros [h Hl] Hc ->. apply no_terminator. rewrite Hl. set_solver. Qed.

Lemma suffix_backslash : [backslash] `suffix_of` input -> False.
Proof. intros [h Hl]. apply no_backslash_last. by rewrite Hl last_snoc. Qed.

Lemma jwp_string_loop n sb t (Φ : post StrBuf) l e k :
  length l < n -> length t + length l <= length input ->
  buffer sb t -∗
  match string_body l with
  | Some (u, r) => ∀ sb, buffer sb (t ++ u) -∗ Φ sb (dquote :: r) e k
  | None => ∀ sb u, buffer sb u -∗ Φ sb [] e k
  end -∗
  jwp (loop n (fun sb =>
    c ← peek input;
    if decide (c = "000"%char \/ c = dquote) then mret (Break sb)
    else if decide (c = backslash) then
      move_on 1;;
      c ← peek input;
      sb ← sb_append_char fails sb (unescape c);
      move_on 1;;
      mret (Next sb)
    else
      sb ← sb_append_char fails sb c;
      move_on 1;;
      mret (Next sb)) sb) Φ l e k.
Proof.
  iIntros (Hn Ht) "Hb H". iInduction n as [|n IH] forall (l t sb Hn Ht); [lia|]. iApply jwp_loop. iApply jwp_rest. iIntros (Hl).
  iApply jwp_bind. iApply jwp_peek. destruct l as [|c l]; simpl.
  { iApply jwp_ret. by iApply "H". }
  pose proof (suffix_plain (c :: l) c Hl ltac:(set_solver)) as Hc. destruct (decide (c = "000"%char \/ c = dquote)) as [Hd|Hd].
  { destruct Hd as [-> | ->]; [done|]. iApply jwp_ret. simpl. iApply "H". by rewrite app_nil_r. }
  rewrite (decide_False (P := c = dquote)); [|tauto]. simpl in Hn, Ht. destruct (decide (c = backslash)) as [Hs|Hs].
  - subst c. iApply jwp_bind. iApply jwp_next. destruct l as [|d l]; [by destruct (suffix_backslash Hl)|].
    pose proof (suffix_plain _ d Hl ltac:(set_solver)) as Hdn. simpl in Hn, Ht.
    iApply jwp_bind. iApply jwp_peek. iApply jwp_bind. iApply (jwp_append_char with "Hb"); [lia|]. iIntros (sb') "Hb".
    iApply jwp_bind. iApply jwp_next. iApply jwp_ret. iApply ("IH" with "[%] [%] Hb"); [lia|rewrite length_app /=; lia|].
    destruct (string_body l) as [[u r]|]; simpl; [|done]. by rewrite -(assoc_L (++)).
  - iApply jwp_bind. iApply (jwp_append_char with "Hb"); [lia|]. iIntros (sb') "Hb".
    iApply jwp_bind. iApply jwp_next. iApply jwp_ret. iApply ("IH" with "[%] [%] Hb"); [lia|rewrite length_app /=; lia|].
    destruct (string_body l) as [[u r]|]; simpl; [|done]. by rewrite -(assoc_L (++)).
Qed.

Lemma jwp_string_raw (Φ : post address) l e k :
  match read_string l with
  | Read t r => ∀ p, text_at p t -∗ Φ (Some p) r e (S k)
  | Fault m => ∀ l, Φ None l (Some m) k
  | Unread => False
  end -∗ jwp (parse_string_raw fails input) Φ l e k.
Proof.
  iIntros "H". iApply jwp_rest. iIntros (Hl). iApply jwp_bind. iApply jwp_peek. fold (first l). unfold read_string.
  case_decide as Hd; [|rewrite bool_decide_false //; by iApply jwp_fault]. rewrite bool_decide_true //. cbn [negb].
  pose proof (suffix_length l Hl) as Hlen. pose proof (first_not _ _ Hd ltac:(done)) as Htl.
  iApply jwp_bind. iApply (jwp_advance_char dquote); [done..|]. iApply jwp_bind. iApply jwp_sb_init. iIntros (sb) "Hb".
  iApply jwp_bind. iApply (jwp_string_loop with "Hb"); [lia|simpl; lia|].
  destruct (string_body (tail l)) as [[t r]|] eqn:E.
  - iIntros (sb') "(%q & %slack & -> & Hq)". iApply jwp_bind. iApply jwp_peek. cbn [lookup list_lookup default from_option].
    iApply jwp_bind. iApply jwp_next. iApply jwp_ret. iApply "H". iExists slack. iSplit.
    + iPureIntro. apply (string_body_no_terminator _ _ _ E). intros Hin.
      refine (suffix_plain l _ Hl _ eq_refl). rewrite (first_tail _ _ Hd ltac:(done)). by apply list_elem_of_further.
    + unfold c_chars. rewrite [map Some (t ++ _)]map_app -(assoc_L (++)). iExact "Hq".
  - iIntros (sb' u) "(%q & %slack & -> & Hq)". iApply jwp_bind. iApply jwp_peek. cbn [lookup list_lookup default from_option].
    iApply jwp_bind. iApply jwp_set_error. iApply jwp_bind. iApply (jwp_free with "Hq"). iIntros (k' [= <-]). iApply jwp_ret. iApply "H".
Qed.

Lemma jwp_put_value p v w (Φ : post address) l e k :
  p ↦ Value v -∗ (p ↦ Value w -∗ Φ (Some p) l e k) -∗ jwp (put_cell (Some p) (Value w);; mret (Some p)) Φ l e k.
Proof. iIntros "Hp H". iApply jwp_bind. iApply (jwp_put with "Hp"). iIntros "Hp". iApply jwp_ret. by iApply "H". Qed.

Lemma jwp_parse_string (Φ : post address) l e k :
  given (then_read (read_string l) (fun t l => Read (TString t) l)) Φ e k ⊢ jwp (parse_string fails input) Φ l e k.
Proof.
  iIntros "H". iApply jwp_bind. iApply jwp_string_raw. destruct (read_string l) as [t r|m|]; simpl; [|iIntros (l'); by iApply jwp_ret|done].
  iIntros (q) "Hq". iApply jwp_bind. iApply jwp_alloc_value. iIntros (p) "Hp". iApply (jwp_put_value with "Hp"). iIntros "Hp".
  rewrite (Nat.add_comm k 2). iApply "H". iExists q. iFrame.
Qed.

Lemma jwp_skip_digits (Φ : post unit) l e k : Φ tt (skip isdigit l) e k ⊢ jwp (skip_while input isdigit) Φ l e k.
Proof. by apply jwp_skip. Qed.

Lemma jwp_drop_first (test : ascii -> bool) (b : bool) (Φ : post unit) l e k :
  test "000"%char = false -> b = test (first l) ->
  Φ tt (drop_first test l) e k ⊢ jwp (if b then move_on 1 else mret tt) Φ l e k.
Proof.
  intros Ht ->. unfold drop_first. destruct (test (first l)) eqn:E; [|apply jwp_ret].
  apply (jwp_advance_char (first l)); [done|]. intros H. by rewrite H Ht in E.
Qed.

Lemma jwp_parse_number (Φ : post address) l e k : given (read_number l) Φ e k ⊢ jwp (parse_number fails strtod input) Φ l e k.
Proof.
  iIntros "H". iApply jwp_bind. iApply jwp_remaining. iApply jwp_bind. iApply jwp_peek. fold (first l).
  unfold read_number, number_end. set (test := fun c => bool_decide (c = "-"%char)). iApply jwp_bind.
  iAssert (jwp (if decide (first l = "-"%char) then move_on 1 else mret tt) (fun _ l' e' k' => ⌜l' = drop_first test l /\ e' = e /\ k' = k⌝) l e k)%I as "H1".
  { unfold drop_first, test. case_decide as Hd; [rewrite bool_decide_true //; by iApply (jwp_advance_char _ _ _ _ _ Hd)|rewrite bool_decide_false //; by iApply jwp_ret]. }
  iApply (jwp_wand with "H1"). iClear "H1". iIntros (? ? ? ? (-> & -> & ->)). iApply jwp_bind. iApply jwp_skip_digits.
  generalize (skip isdigit (drop_first test l)) as l1. intros l1.
  iApply jwp_bind. iApply jwp_peek. fold (first l1). iApply jwp_bind.
  iAssert (jwp (if decide (first l1 = "."%char) then move_on 1;; skip_while input isdigit;; mret true else mret false)
    (fun f l' e' k' => ⌜(if decide (first l1 = "."%char) then (true, skip isdigit (tail l1)) else (false, l1)) = (f, l') /\ e' = e /\ k' = k⌝) l1 e k)%I as "H2".
  { destruct (decide (first l1 = "."%char)) as [Hd|Hd]; [|iApply jwp_ret; iPureIntro; done]. iApply jwp_bind. iApply (jwp_advance_char _ _ _ _ _ Hd); [done|]. iApply jwp_bind.
    iApply jwp_skip_digits. iApply jwp_ret. iPureIntro. done. }
  iApply (jwp_wand with "H2"). iClear "H2". iIntros (f l2 ? ? (E & -> & ->)). rewrite E. clear E. iApply jwp_bind. iApply jwp_peek. fold (first l2).
  iApply jwp_bind. destruct (decide (first l2 = "e"%char \/ first l2 = "E"%char)) as [Hd|Hd].
  - iApply jwp_bind. iApply (jwp_advance_char (first l2)); [done|by destruct Hd as [-> | ->]|]. iApply jwp_bind. iApply jwp_peek.
    fold (first (tail l2)). iApply jwp_bind. unfold drop_first. rewrite bool_decide_decide.
    destruct (decide (first (tail l2) = "+"%char \/ first (tail l2) = "-"%char)) as [Hs|Hs]; [iApply (jwp_advance_char (first (tail l2))); [done|by destruct Hs as [-> | ->]|]|iApply jwp_ret].
    all: iApply jwp_bind; iApply jwp_skip_digits; iApply jwp_ret; iApply jwp_bind; iApply jwp_alloc_value; iIntros (p) "Hp";
      iApply (jwp_put_value with "Hp"); iIntros "Hp"; simpl; rewrite (Nat.add_comm k 1); by iApply "H".
  - iApply jwp_ret. destruct f; simpl.
    all: iApply jwp_bind; iApply jwp_alloc_value; iIntros (p) "Hp";
      iApply (jwp_put_value with "Hp"); iIntros "Hp"; simpl; rewrite (Nat.add_comm k 1); by iApply "H".
Qed.

Lemma jwp_at_word w (Φ : post bool) l e k : Φ (is_word w l) l e k ⊢ jwp (at_word input w) Φ l e k.
Proof. iIntros "H". iApply jwp_bind. iApply jwp_remaining. by iApply jwp_ret. Qed.

(** A call that fails leaves the message of the innermost one. *)
Section parse_value.
Variable parse : J address.
Variable read : list ascii -> reading tree.
Hypothesis parse_reads : forall (Φ : post address) l e k, given (read l) Φ e k ⊢ jwp parse Φ l e k.
Hypothesis read_shortens : shortens read.

Lemma jwp_fault_free v p m (Φ : post (loop_step unit address)) l e k k0 :
  k = k0 + weight v -> owned v p -∗ Φ (Break None) l (Some m) k0 -∗
  jwp (set_error m;; json_free (Some p);; mret (Break None)) Φ l e k.
Proof.
  iIntros (->) "Hv H". iApply jwp_bind. iApply jwp_set_error. iApply jwp_bind. iApply (jwp_json_free with "Hv").
  iIntros (k' Hk). iApply jwp_ret. by replace k' with k0 by lia.
Qed.

Lemma jwp_elements n acc arr (Φ : post address) l e k k0 :
  k = k0 + weight (TArray acc) -> length acc + length l <= length input ->
  owned (TArray acc) arr -∗ given (read_elements read n acc l) Φ e k0 -∗
  jwp (loop n (fun _ =>
    skip_ws input;;
    elem ← parse;
    match elem with
    | None => json_free (Some arr);; mret (Break None)
    | Some _ =>
        json_array_push fails (Some arr) elem;;
        skip_ws input;;
        c ← peek input;
        if decide (c = ","%char) then move_on 1;; mret (Next tt)
        else if decide (c = "]"%char) then move_on 1;; mret (Break (Some arr))
        else
          set_error "Expected ',' or ']' in array";;
          json_free (Some arr);;
          mret (Break None)
    end) tt) Φ l e k.
Proof.
  iIntros (-> Hl) "Ha H". iInduction n as [|n IH] forall (acc l Hl); [done|]. cbn [read_elements]. iApply jwp_loop.
  iApply jwp_bind. iApply jwp_ws. iApply jwp_bind. iApply parse_reads. pose proof (skip_length ws l) as H1.
  destruct (read (skip ws l)) as [v l1|m|] eqn:E; simpl then_read; cbn [given]; [| |done].
  - apply read_shortens in E. pose proof (skip_length ws l1) as H2. iIntros (p) "Hp".
    iApply jwp_bind. iApply (jwp_array_push with "Ha Hp"); [lia|]. iIntros "Ha". iApply jwp_bind. iApply jwp_ws.
    iApply jwp_bind. iApply jwp_peek. fold (first (skip ws l1)).
    replace (k0 + weight (TArray acc) + weight v) with (k0 + weight (TArray (acc ++ [v]))) by (simpl; rewrite sum_list_with_app /=; lia).
    destruct (decide (first (skip ws l1) = ","%char)) as [Hc|Hc].
    { iApply jwp_bind. iApply (jwp_advance_char _ _ _ _ _ Hc); [done|]. iApply jwp_ret. pose proof (first_not _ _ Hc ltac:(done)).
      iApply ("IH" with "[%] Ha H"). rewrite length_app /=. lia. }
    destruct (decide (first (skip ws l1) = "]"%char)) as [Hd|Hd].
    { iApply jwp_bind. iApply (jwp_advance_char _ _ _ _ _ Hd); [done|]. iApply jwp_ret. by iApply "H". }
    iApply (jwp_fault_free with "Ha"); [done|]. by iApply "H".
  - iIntros (l'). iApply jwp_bind. iApply (jwp_json_free with "Ha"). iIntros (k' Hk). iApply jwp_ret.
    replace k' with k0 by lia. iApply "H".
Qed.

Lemma jwp_parse_array (Φ : post address) l e k :
  first l = "["%char -> given (read_array read (S (length input)) (tail l)) Φ e k ⊢ jwp (parse_array fails input parse) Φ l e k.
Proof.
  intros Hf. iIntros "H". iApply jwp_rest. iIntros (Hin%suffix_length). iApply jwp_bind. iApply (jwp_advance_char _ _ _ _ _ Hf); [done|].
  iApply jwp_bind. iApply jwp_json_array. iIntros (arr) "Ha". iApply jwp_bind. iApply jwp_ws. iApply jwp_bind. iApply jwp_peek.
  fold (first (skip ws (tail l))). unfold read_array. pose proof (first_not _ _ Hf ltac:(done)). pose proof (skip_length ws (tail l)).
  destruct (decide (first (skip ws (tail l)) = "]"%char)) as [Hd|Hd].
  - iApply jwp_bind. iApply (jwp_advance_char _ _ _ _ _ Hd); [done|]. iApply jwp_ret. replace (S (S k)) with (k + weight (TArray [])) by (simpl; lia). iApply ("H" with "Ha").
  - iApply (jwp_elements with "Ha H"); [simpl; lia|simpl; lia].
Qed.

Lemma jwp_members n acc obj (Φ : post address) l e k k0 :
  k = k0 + weight (TObject acc) -> length acc + length l <= length input ->
  owned (TObject acc) obj -∗ given (read_members read n acc l) Φ e k0 -∗
  jwp (loop n (fun _ =>
    skip_ws input;;
    key ← parse_string_raw fails input;
    match key with
    | None => json_free (Some obj);; mret (Break None)
    | Some _ =>
        skip_ws input;;
        c ← peek input;
        if negb (bool_decide (c = ":"%char)) then
          set_error "Expected ':' in object";;
          free_cell key;;
          json_free (Some obj);;
          mret (Break None)
        else
          move_on 1;;
          skip_ws input;;
          val ← parse;
          match val with
          | None => free_cell key;; json_free (Some obj);; mret (Break None)
          | Some _ =>
              json_object_set fails (Some obj) key val;;
              free_cell key;;
              skip_ws input;;
              c ← peek input;
              if decide (c = ","%char) then move_on 1;; mret (Next tt)
              else if decide (c = "}"%char) then move_on 1;; mret (Break (Some obj))
              else
                set_error "Expected ',' or '}' in object";;
                json_free (Some obj);;
                mret (Break None)
          end
    end) tt) Φ l e k.
Proof.
  iIntros (-> Hl) "Ho H". iInduction n as [|n IH] forall (acc l Hl); [done|]. cbn [read_members]. iApply jwp_loop.
  iApply jwp_bind. iApply jwp_ws. iApply jwp_bind. iApply jwp_string_raw. pose proof (skip_length ws l) as H1.
  destruct (read_string (skip ws l)) as [key l0|m|] eqn:E0; simpl then_read; cbn [given]; [| |done]; last first.
  { iIntros (l'). iApply jwp_bind. iApply (jwp_json_free with "Ho"). iIntros (k' Hk). iApply jwp_ret. replace k' with k0 by lia. iApply "H". }
  apply string_read_length in E0. pose proof (skip_length ws l0) as H2. iIntros (q) "Hq".
  iApply jwp_bind. iApply jwp_ws. iApply jwp_bind. iApply jwp_peek. fold (first (skip ws l0)).
  destruct (decide (first (skip ws l0) = ":"%char)) as [Hk|Hk]; last first.
  { rewrite bool_decide_false //. cbn [negb]. iApply jwp_bind. iApply jwp_set_error. iApply jwp_bind. iApply (jwp_free_text with "Hq").
    iIntros (k1 Hk1). iApply jwp_bind. iApply (jwp_json_free with "Ho"). iIntros (k' Hk'). iApply jwp_ret. replace k' with k0 by lia. iApply "H". }
  rewrite bool_decide_true //. cbn [negb]. pose proof (first_not _ _ Hk ltac:(done)) as H3.
  pose proof (skip_length ws (tail (skip ws l0))) as H4.
  iApply jwp_bind. iApply (jwp_advance_char _ _ _ _ _ Hk); [done|]. iApply jwp_bind. iApply jwp_ws. iApply jwp_bind. iApply parse_reads.
  destruct (read (skip ws (tail (skip ws l0)))) as [v l1|m|] eqn:E; simpl then_read; cbn [given]; [| |done]; last first.
  { iIntros (l'). iApply jwp_bind. iApply (jwp_free_text with "Hq"). iIntros (k1 Hk1). iApply jwp_bind. iApply (jwp_json_free with "Ho").
    iIntros (k' Hk'). iApply jwp_ret. replace k' with k0 by lia. iApply "H". }
  apply read_shortens in E. pose proof (skip_length ws l1) as H5. iIntros (p) "Hp".
  iApply jwp_bind. iApply (jwp_object_set with "Ho Hq Hp"); [lia|]. iIntros (k1 Hk1) "Ho Hq".
  iApply jwp_bind. iApply (jwp_free_text with "Hq"). iIntros (k2 ->). iApply jwp_bind. iApply jwp_ws.
  iApply jwp_bind. iApply jwp_peek. fold (first (skip ws l1)). assert (length (set_pair key v acc) <= S (length acc)) as Hs.
  { clear. induction acc as [|[k w] acc IH]; simpl; [lia|]. case_decide; simpl; lia. }
  assert (k2 = k0 + weight (TObject (set_pair key v acc))) as -> by (unfold members_weight in Hk1; simpl in Hk1 |- *; lia).
  destruct (decide (first (skip ws l1) = ","%char)) as [Hc|Hc].
  { iApply jwp_bind. iApply (jwp_advance_char _ _ _ _ _ Hc); [done|]. iApply jwp_ret. pose proof (first_not _ _ Hc ltac:(done)).
    iApply ("IH" with "[%] Ho H"). lia. }
  destruct (decide (first (skip ws l1) = "}"%char)) as [Hd|Hd].
  { iApply jwp_bind. iApply (jwp_advance_char _ _ _ _ _ Hd); [done|]. iApply jwp_ret. by iApply "H". }
  iApply (jwp_fault_free with "Ho"); [done|]. by iApply "H".
Qed.

Lemma jwp_parse_object (Φ : post address) l e k :
  first l = "{"%char -> given (read_object read (S (length input)) (tail l)) Φ e k ⊢ jwp (parse_object fails input parse) Φ l e k.
Proof.
  intros Hf. iIntros "H". iApply jwp_rest. iIntros (Hin%suffix_length). iApply jwp_bind. iApply (jwp_advance_char _ _ _ _ _ Hf); [done|].
  iApply jwp_bind. iApply jwp_json_object. iIntros (obj) "Ho". iApply jwp_bind. iApply jwp_ws. iApply jwp_bind. iApply jwp_peek.
  fold (first (skip ws (tail l))). unfold read_object. pose proof (first_not _ _ Hf ltac:(done)). pose proof (skip_length ws (tail l)).
  destruct (decide (first (skip ws (tail l)) = "}"%char)) as [Hd|Hd].
  - iApply jwp_bind. iApply (jwp_advance_char _ _ _ _ _ Hd); [done|]. iApply jwp_ret. replace (S (S k)) with (k + weight (TObject [])) by (simpl; lia). iApply ("H" with "Ho").
  - iApply (jwp_members with "Ho H"); [simpl; lia|simpl; lia].
Qed.

Lemma jwp_json_bool b (Φ : post address) l e k :
  (∀ p, owned (TBool b) p -∗ Φ (Some p) l e (k + 1)) ⊢ jwp (make_bool fails (if b then 1 else 0)) Φ l e k.
Proof.
  iIntros "H". iApply jwp_bind. iApply jwp_alloc_value. iIntros (p) "Hp". iApply (jwp_put_value with "Hp"). iIntros "Hp".
  rewrite (Nat.add_comm k 1). iApply "H". by destruct b.
Qed.

Lemma jwp_word (Φ : post address) l e k :
  given (read_word l) Φ e k ⊢
  jwp (yes ← at_word input "true";
       if yes : bool then move_on 4;; make_bool fails 1 else
       no ← at_word input "false";
       if no : bool then move_on 5;; make_bool fails 0 else
       null ← at_word input "null";
       if null : bool then move_on 4;; make_null fails else
       fault "Unexpected character in JSON") Φ l e k.
Proof.
  iIntros "H". unfold read_word. iApply jwp_bind. iApply jwp_at_word. destruct (is_word "true" l) eqn:E1.
  { iApply jwp_bind. iApply (jwp_advance 4); [by apply word_length in E1|]. by iApply (jwp_json_bool true). }
  iApply jwp_bind. iApply jwp_at_word. destruct (is_word "false" l) eqn:E2.
  { iApply jwp_bind. iApply (jwp_advance 5); [by apply word_length in E2|]. by iApply (jwp_json_bool false). }
  iApply jwp_bind. iApply jwp_at_word. destruct (is_word "null" l) eqn:E3; [|by iApply jwp_fault].
  iApply jwp_bind. iApply (jwp_advance 4); [by apply word_length in E3|]. iApply jwp_alloc_value. iIntros (p) "Hp".
  replace (S k) with (k + weight TNull) by (simpl; lia). by iApply "H".
Qed.

Lemma jwp_parse_one (Φ : post address) l e k :
  given (read_one read (S (length input)) l) Φ e k ⊢ jwp (parse_value_body fails strtod input parse) Φ l e k.
Proof.
  iIntros "H". unfold read_one. iApply jwp_bind. iApply jwp_ws. generalize (skip ws l). intros l1. iApply jwp_bind. iApply jwp_peek.
  fold (first l1). destruct (decide (first l1 = dquote)) as [Hq|Hq]; [by iApply jwp_parse_string|].
  destruct (decide (first l1 = "["%char)) as [Ha|Ha]; [by iApply jwp_parse_array|].
  destruct (decide (first l1 = "{"%char)) as [Ho|Ho]; [by iApply jwp_parse_object|].
  destruct (bool_decide (first l1 = "-"%char) || isdigit (first l1)); [by iApply jwp_parse_number|by iApply jwp_word].
Qed.
End parse_value.

Lemma jwp_parse_value n (Φ : post address) l e k :
  given (read_value (S (length input)) n l) Φ e k ⊢ jwp (parse_value fails strtod input n) Φ l e k.
Proof.
  revert Φ l e k. induction n as [|n IH]; intros Φ l e k; [iIntros "[]"|].
  apply jwp_parse_one; [done|apply read_value_length].
Qed.
End logic.
