(* ===== verification/RuntimeJsonTheorems.v ===== *)
(** What [RuntimeJson] does, without the logic it is proved in: decoding a text is
    reading it as [RuntimeJsonLogic] says, with nothing lost or left over, and what is
    written is read back. *)

From iris.proofmode Require Import proofmode.
From iris.base_logic.lib Require Import ghost_map.
From stdpp Require Import pretty.
From Stdlib Require Import Floats.SpecFloat.
From S2P Require Import Prelude Lexer Json JsonTheorems RuntimeMemory RuntimeString RuntimeJson RuntimeJsonLogic.

(** * Values in a heap *)

Definition text_in (m : gmap nat heap_cell) (p : nat) (t : list ascii) : Prop :=
  exists slack, m !! p = Some (Chars (c_chars t ++ slack)).

(** The node at [p] leads to a value. *)
Fixpoint holds (m : gmap nat heap_cell) (v : tree) (p : nat) : Prop :=
  match v with
  | TNull => m !! p = Some (Value JsonNull)
  | TBool b => m !! p = Some (Value (JsonBool (if b then 1 else 0)))
  | TInt z => m !! p = Some (Value (JsonInt z))
  | TFloat d => m !! p = Some (Value (JsonFloat d))
  | TString t => exists q, m !! p = Some (Value (JsonString (Some q))) /\ text_in m q t
  | TArray vs =>
      exists q ps slack capacity, m !! p = Some (Value (JsonArray (Some q) (Z.of_nat (length vs)) capacity)) /\
        m !! q = Some (Items (item_slots ps slack)) /\
        (fix each vs ps := match vs, ps with
                           | [], [] => True | v :: vs, p :: ps => holds m v p /\ each vs ps | _, _ => False end) vs ps
  | TObject ms =>
      exists q xs slack capacity, m !! p = Some (Value (JsonObject (Some q) (Z.of_nat (length ms)) capacity)) /\
        m !! q = Some (Pairs (pair_slots xs slack)) /\
        (fix each ms (xs : list (nat * nat)) := match ms, xs with
                           | [], [] => True
                           | (k, v) :: ms, x :: xs => (text_in m x.1 k /\ holds m v x.2) /\ each ms xs
                           | _, _ => False end) ms xs
  end.

Section adequacy.
Context `{!ghost_mapG Σ nat heap_cell} (γ : gname).

Lemma text_holds p t m : ghost_map_auth γ 1 m -∗ text_at γ p t -∗ ⌜text_in m p t⌝.
Proof. iIntros "Hm (%slack & _ & Hp)". iDestruct (ghost_map_lookup with "Hm Hp") as %E. iPureIntro. by exists slack. Qed.

Lemma owned_holds m : forall v p, ghost_map_auth γ 1 m -∗ owned γ v p -∗ ⌜holds m v p⌝.
Proof.
  apply (tree_induction (fun v => forall p, ghost_map_auth γ 1 m -∗ owned γ v p -∗ ⌜holds m v p⌝)).
  - intros v; destruct v; try done; intros p; try (iIntros "Hm Hp"; by iDestruct (ghost_map_lookup with "Hm Hp") as %E).
    iIntros "Hm (%q & Hp & Ht)". iDestruct (ghost_map_lookup with "Hm Hp") as %E.
    iDestruct (text_holds with "Hm Ht") as %Ht. iPureIntro. by exists q.
  - iIntros (vs IH p) "Hm (%q & %ps & %slack & Hp & _ & Hq & Ho)". iDestruct (ghost_map_lookup with "Hm Hp") as %Ep.
    iDestruct (ghost_map_lookup with "Hm Hq") as %Eq. iExists q, ps, slack, _. iSplit; [done|]. iSplit; [done|]. clear Ep Eq. iClear "Hp Hq".
    iInduction IH as [|v vs Hv _ IH] forall (ps); destruct ps as [|r ps]; try done. iDestruct "Ho" as "[Hv Ho]".
    iDestruct (Hv with "Hm Hv") as %H. iDestruct ("IH" with "Hm Ho") as %H'. done.
  - iIntros (ms IH p) "Hm (%q & %xs & %slack & Hp & _ & Hq & Ho)". iDestruct (ghost_map_lookup with "Hm Hp") as %Ep.
    iDestruct (ghost_map_lookup with "Hm Hq") as %Eq. iExists q, xs, slack, _. iSplit; [done|]. iSplit; [done|]. clear Ep Eq. iClear "Hp Hq".
    iInduction IH as [|[k v] ms Hv _ IH] forall (xs); destruct xs as [|x xs]; try done. iDestruct "Ho" as "[[Ht Hv] Ho]".
    iDestruct (text_holds with "Hm Ht") as %Ht. iDestruct (Hv with "Hm Hv") as %H. iDestruct ("IH" with "Hm Ho") as %H'. done.
Qed.
End adequacy.

(** A run that the logic describes, from a heap of which every cell is at hand. *)
Lemma run_adequate {A} input (c : J A) (s : heap) l e k (Q : A -> heap -> Prop) :
  looks input s l e k ->
  (forall `{!ghost_mapG Σ nat heap_cell} (γ : gname), ([∗ map] q ↦ x ∈ h_cells s, q ↪[γ] x) -∗
     jwp γ input c (fun a l' e' k' => ∀ s', ⌜looks input s' l' e' k'⌝ -∗ ghost_map_auth γ 1 (h_cells s') ==∗ ⌜Q a s'⌝) l e k) ->
  exists a s', c s = Done (a, s') /\ Q a s'.
Proof.
  intros Hs H. apply (pure_soundness (PROP := iPropI (ghost_mapΣ nat heap_cell))), uPred.bupd_soundness; [apply _|].
  iMod (ghost_map_alloc (h_cells s)) as (γ) "[Hm Hc]".
  iMod (H (ghost_mapΣ nat heap_cell) _ γ with "Hc [//] Hm") as (a s' l' e' k') "(%E & %Hs' & Hm & HQ)".
  iMod ("HQ" with "[//] Hm") as %HQ. iModIntro. iPureIntro. by exists a, s'.
Qed.

(** The cells there were at first, and no others. *)
Lemma cells_same `{!ghost_mapG Σ nat heap_cell} (γ : gname) (m m' : gmap nat heap_cell) :
  size m' = size m -> ghost_map_auth γ 1 m' -∗ ([∗ map] q ↦ x ∈ m, q ↪[γ] x) -∗ ⌜m' = m⌝.
Proof.
  iIntros (Hs) "Hm Hc". iDestruct (ghost_map_lookup_big with "Hm Hc") as %H. iPureIntro. symmetry.
  apply map_subseteq_size_eq; [done|lia].
Qed.

(** * Decoding *)

(** No cell is where the next allocations will be. *)
Definition fresh_heap (s : heap) : Prop := forall p, h_next s <= p -> h_cells s !! p = None.

(** A C string the parser stays inside of. *)
Definition c_input (input : list ascii) : Prop :=
  "000"%char ∉ input /\ last input <> Some backslash /\ (Z.of_nat (length input) < 2 ^ 29)%Z.

Definition never (n : nat) : bool := false.

Section decode.
Variable strtod : list ascii -> spec_float.

Variable input : list ascii.
Hypothesis input_ok : c_input input.

(** What the parser reads in the input. *)
Definition what_is_read : reading tree := read_value strtod (S (length input)) (S (length input)) input.

Definition start (s : heap) : heap := set_parser (mkParser 0 None) s.

Lemma looks_start s : fresh_heap s -> looks input (start s) input None (size (h_cells s)).
Proof. intros Hf. split; [|done|done|done]. unfold start. simpl. f_equal. lia. Qed.

(** Freeing a value of a tree, in any state. *)
Lemma free_owned `{!ghost_mapG Σ nat heap_cell} (γ : gname) v p s l e k m :
  looks input s l e k -> k = size m + weight v ->
  ghost_map_auth γ 1 (h_cells s) -∗ owned γ v p -∗ ([∗ map] q ↦ x ∈ m, q ↪[γ] x) ==∗
  ⌜exists s', json_free (Some p) s = Done (tt, s') /\ h_cells s' = m⌝.
Proof.
  iIntros (Hs ->) "Hm Hv Hc".
  iMod (jwp_json_free γ input v p (fun _ l' e' k' => ⌜k' = size m⌝)%I l e with "Hv [] [//] Hm") as ([] s' l' e' k') "(%E & %Hs' & Hm & ->)".
  { iIntros (k' Hk). iPureIntro. lia. }
  iDestruct (cells_same with "Hm Hc") as %Em; [by destruct Hs'|]. iModIntro. iPureIntro. by exists s'.
Qed.

Definition decoded (s : heap) (r : reading tree) (a : address * option string) (s' : heap) : Prop :=
  match r with
  | Read v _ =>
      exists p, a = (Some p, None) /\ holds (h_cells s') v p /\ h_cells s ⊆ h_cells s' /\
        exists s'', json_free (Some p) s' = Done (tt, s'') /\ h_cells s'' = h_cells s
  | Fault m => a = (None, Some m) /\ h_cells s' = h_cells s
  | Unread => False
  end.

(** C33. Decoding a C string of JSON ends without undefined behaviour, and is reading
    it: when it holds a value, the result leads to that value in memory that was not in
    use, everything that was allocated belongs to it, and freeing it leaves the memory
    as it was; when it does not, the message says what was expected, and everything
    allocated on the way has been freed. For a string below 512 megabytes that does not
    end in a backslash, and allocations that succeed. *)
Theorem json_decode_refines (s : heap) :
  fresh_heap s ->
  exists a s', json_decode never strtod input s = Done (a, s') /\ decoded s what_is_read a s'.
Proof.
  intros Hf. destruct input_ok as (Hz & Hb & Hl).
  change (json_decode never strtod input s) with ((result ← parse_value never strtod input (S (length input));
    e ← gets (fun s => jp_error (h_parser s));
    mret (result, match result with None => Some (default "Unknown parse error" e) | Some _ => None end)) (start s)).
  apply (run_adequate input _ (start s) input None (size (h_cells s))); [by apply looks_start|].
  iIntros (Σ ? γ) "Hc". iApply jwp_bind. iApply (jwp_parse_value γ never strtod (fun _ => []) input); [done..|]. unfold given.
  pose proof (value_read strtod input (S (length input)) (S (length input)) input ltac:(lia) ltac:(lia)) as Hr. fold what_is_read in Hr |- *.
  destruct what_is_read as [v r|m|]; [| |done].
  - iIntros (p) "Hv". iApply jwp_bind. iIntros "%s1 %Hs1 Hm !>". iExists _, s1, r, None, _. iSplit; [done|]. iFrame "Hm". iSplit; [done|].
    iApply jwp_ret. iIntros (s' Hs') "Hm". iDestruct (owned_holds with "Hm Hv") as %Hh.
    iDestruct (ghost_map_lookup_big with "Hm Hc") as %Hsub.
    iMod (free_owned with "Hm Hv Hc") as %Hfree; [done|done|]. iModIntro. iPureIntro. by exists p.
  - iIntros (l). iApply jwp_bind. iIntros "%s1 %Hs1 Hm !>". iExists (Some m), s1, l, (Some m), _. iSplit; [|iFrame "Hm"; iSplit; [done|]].
    + iPureIntro. unfold gets. by destruct Hs1 as [-> _ _ _].
    + iApply jwp_ret. iIntros (s' Hs') "Hm". iDestruct (cells_same with "Hm Hc") as %Em; [by destruct Hs'|]. iModIntro. by iPureIntro.
Qed.
End decode.

(** * What is written is read *)

(** The characters whose escapes the parser knows. *)
Definition plain_char (c : ascii) : Prop :=
  (32 <= N_of_ascii c)%N \/ c ∈ [ascii_of_N 8; tab; newline; ascii_of_N 12; ascii_of_N 13].
Definition plain_text (t : list ascii) : Prop := Forall plain_char t.

(** Whole numbers, texts and what is made of them, with distinct keys. *)
Fixpoint rereadable (v : tree) : Prop :=
  match v with
  | TNull | TBool _ => True
  | TInt z => (- 2 ^ 63 <= z < 2 ^ 63)%Z
  | TFloat _ => False
  | TString t => plain_text t
  | TArray vs => (fix all vs := match vs with [] => True | v :: vs => rereadable v /\ all vs end) vs
  | TObject ms =>
      NoDup ms.*1 /\
      (fix all ms := match ms with [] => True | (k, v) :: ms => (plain_text k /\ rereadable v) /\ all ms end) ms
  end.

(** What may follow a value. *)
Definition follows (r : list ascii) : Prop := first r ∈ ["000"; ","; "]"; "}"]%char.

Section reread.
Variable strtod : list ascii -> spec_float.
Variable float_text : spec_float -> list ascii.

Notation text := (json_text float_text).

Lemma string_body_escaped t r : plain_text t -> string_body ((t ≫= escaped) ++ dquote :: r) = Some (t, r).
Proof.
  intros Ht. induction Ht as [|c t Hc _ IH]; [done|]. cbn [mbind list_bind]. rewrite -(assoc_L (++)).
  unfold escaped, escape_of.
  repeat match goal with
  | |- context [decide (c = ?d)] => destruct (decide (c = d)) as [->|?]; [cbn; by rewrite IH|]
  end.
  rewrite decide_False; [cbn; by rewrite !decide_False // IH|].
  destruct Hc as [Hc|Hc]; [lia|]. exfalso. set_solver.
Qed.

Lemma read_string_text t r : plain_text t -> read_string (string_text t ++ r) = Read t r.
Proof.
  intros Ht. unfold read_string, string_text. simpl. by rewrite -(assoc_L (++)) string_body_escaped.
Qed.

Lemma digits_read l acc n r :
  Forall (fun c => isDigit c = true) l -> isdigit (first r) = false ->
  skip isdigit (l ++ r) = r /\
  leading_digits (l ++ r) acc n = (foldl (fun n c => (n * 10 + digit_value c)%Z) acc l, n + length l).
Proof.
  intros Hl Hr. revert acc n. induction Hl as [|c l Hc _ IH]; intros acc n.
  - rewrite Nat.add_0_r. destruct r as [|c r]; [done|]. unfold first, isdigit in Hr. simpl in *. unfold isdigit. by rewrite Hr.
  - change (isdigit c = true) in Hc. destruct (IH (acc * 10 + digit_value c)%Z (S n)) as [E1 E2]. simpl. rewrite Hc. split; [done|].
    unfold isdigit in Hc. rewrite Hc E2 /=. f_equal. lia.
Qed.

Lemma digit_first_not c x : isDigit c = true -> isDigit x = false -> c <> x.
Proof. intros H H' ->. congruence. Qed.

Lemma follows_not r x : follows r -> x ∉ ["000"; ","; "]"; "}"]%char -> first r <> x.
Proof. intros H H' <-. done. Qed.

Lemma follows_digit r : follows r -> isdigit (first r) = false.
Proof.
  unfold follows. intros H. repeat (apply elem_of_cons in H as [->|H]; [done|]). by apply elem_of_nil in H.
Qed.

Lemma number_end_int z l r :
  Forall (fun c => isDigit c = true) l -> l <> [] -> follows r ->
  number_end ((if decide (z < 0)%Z then ["-"%char] else []) ++ l ++ r) = (false, r).
Proof.
  intros Hl Hne Hr. pose proof (digits_read l 0%Z 0 r Hl (follows_digit r Hr)) as [Es _]. unfold number_end.
  assert (drop_first (fun c => bool_decide (c = "-"%char)) ((if decide (z < 0)%Z then ["-"%char] else []) ++ l ++ r) = l ++ r) as ->.
  { case_decide; [done|]. destruct l as [|c l]; [done|]. apply Forall_cons in Hl as [Hc _]. unfold drop_first, first. simpl.
    rewrite bool_decide_false //. by eapply digit_first_not. }
  rewrite Es decide_False; [|apply (follows_not r _ Hr); set_solver].
  rewrite decide_False; [done|]. intros [H|H]; revert H; apply (follows_not r _ Hr); set_solver.
Qed.

Lemma strtoll_int z l r :
  (- 2 ^ 63 <= z < 2 ^ 63)%Z -> Forall (fun c => isDigit c = true) l -> l <> [] -> decimal l = Z.abs z -> follows r ->
  (strtoll ((if decide (z < 0)%Z then ["-"%char] else []) ++ l ++ r)).1 = z.
Proof.
  intros Hz Hl Hne Hv Hr. pose proof (digits_read l 0%Z 0 r Hl (follows_digit r Hr)) as [_ Ev].
  change (foldl _ _ _) with (decimal l) in Ev. rewrite Hv in Ev. unfold strtoll. destruct (decide (z < 0)%Z) as [Hn|Hn].
  - cbn [app leading_spaces]. rewrite drop_0. change (drop 1 ("-"%char :: l ++ r)) with (l ++ r).
    destruct (decide ("-"%char = "-"%char)) as [_|?]; [|done]. change (isspace "-") with false. cbn [drop]. rewrite Ev.
    destruct (decide (_ = 0)) as [E|_]; [destruct l; [done|simpl in E; lia]|]. cbn [fst]. lia.
  - destruct l as [|c l]; [done|]. pose proof Hl as [Hc _]%Forall_cons. cbn [app] in *.
    assert (leading_spaces (c :: l ++ r) = 0) as -> by (simpl; destruct c as [[] [] [] [] [] [] [] []]; done).
    rewrite drop_0. destruct (decide (c = "-"%char)) as [->|_]; [done|]. destruct (decide (c = "+"%char)) as [->|_]; [done|].
    rewrite drop_0 Ev. destruct (decide (_ = 0)) as [E|_]; [simpl in E; lia|]. cbn [fst]. lia.
Qed.

Lemma read_int z r : (- 2 ^ 63 <= z < 2 ^ 63)%Z -> follows r -> read_number strtod (chars (pretty z) ++ r) = Read (TInt z) r.
Proof.
  intros Hz Hr. destruct (pretty_Z_decimal z) as (l & -> & Hl & Hv & Hne). unfold read_number.
  by rewrite -(assoc_L (++)) number_end_int // strtoll_int.
Qed.

Lemma is_word_read w r : follows r -> is_word w (chars w ++ r) = true.
Proof.
  intros Hr. unfold is_word. rewrite -length_chars take_app_length bool_decide_true // lookup_app_r // Nat.sub_diag.
  fold (first r). unfold follows in Hr. repeat (apply elem_of_cons in Hr as [->|Hr]; [done|]). by apply elem_of_nil in Hr.
Qed.

Lemma digit_plain c : isDigit c = true -> ws c = false /\ c ∉ [","; "]"; "}"]%char.
Proof. destruct c as [[] [] [] [] [] [] [] []]; try discriminate; intros _; (split; [done|]); set_solver. Qed.

Lemma text_start v : rereadable v -> exists c t, text v = c :: t /\ ws c = false /\ c ∉ [","; "]"; "}"]%char.
Proof.
  destruct v as [|b|z|d|t|vs|ms]; cbn [json_text rereadable]; intros Hv; try done.
  - eexists _, _. split; [done|]. split; [done|set_solver].
  - destruct b; (eexists _, _; split; [done|]; split; [done|set_solver]).
  - destruct (pretty_Z_decimal z) as (l & -> & Hl & _ & Hne). case_decide.
    + eexists _, _. split; [done|]. split; [done|set_solver].
    + destruct l as [|c l]; [done|]. apply Forall_cons in Hl as [Hc _]. exists c, l. split; [done|]. by apply digit_plain.
  - eexists _, _. split; [done|]. split; [done|set_solver].
  - eexists _, _. split; [done|]. split; [done|set_solver].
  - eexists _, _. split; [done|]. split; [done|set_solver].
Qed.

Lemma skip_text v r : rereadable v -> skip ws (text v ++ r) = text v ++ r.
Proof. intros Hv. destruct (text_start v Hv) as (c & t & -> & Hc & _). simpl. by rewrite Hc. Qed.

Definition reread (read : list ascii -> reading tree) (v : tree) : Prop :=
  rereadable v /\ forall r, follows r -> read (text v ++ r) = Read v r.

Lemma first_cons c l : first (c :: l) = c.
Proof. done. Qed.

Lemma skip_plain c l : ws c = false -> skip ws (c :: l) = c :: l.
Proof. simpl. by intros ->. Qed.

Lemma elements_reread read n vs : forall v acc r, reread read v -> Forall (reread read) vs -> length vs < n ->
  read_elements read n acc (text v ++ (map text vs ≫= cons ","%char) ++ "]"%char :: r) = Read (TArray (acc ++ v :: vs)) r.
Proof.
  revert n. induction vs as [|w vs IH]; intros [|n] v acc r [Hv Hr] Hvs Hn; [lia| |simpl in Hn; lia|].
  - simpl. rewrite skip_text // Hr; [|unfold follows, first; set_solver]. done.
  - apply Forall_cons in Hvs as [Hw Hvs]. cbn [read_elements]. rewrite skip_text //.
    change ((map text (w :: vs) ≫= cons ","%char) ++ "]"%char :: r) with (","%char :: (text w ++ (map text vs ≫= cons ","%char)) ++ "]"%char :: r).
    rewrite Hr; [|unfold follows, first; simpl; set_solver]. cbn [then_read]. rewrite skip_plain //. cbn [tail].
    rewrite first_cons. destruct (decide (","%char = ","%char)) as [_|?]; [|done]. rewrite -(assoc_L (++)) IH //; [|simpl in Hn; lia]. by rewrite -(assoc_L (++)).
Qed.

Notation member := (member_text float_text).

Lemma members_reread read n ms : forall m acc r,
  Forall (fun m => plain_text m.1 /\ reread read m.2) (m :: ms) -> NoDup (acc ++ m :: ms).*1 -> length ms < n ->
  read_members read n acc (member m ++ (map member ms ≫= cons ","%char) ++ "}"%char :: r) = Read (TObject (acc ++ m :: ms)) r.
Proof.
  revert n. induction ms as [|m' ms IH]; intros [|n] [k v] acc r Hms Hd Hn; [lia| |simpl in Hn; lia|];
    pose proof (proj1 (Forall_cons _ _ _) Hms) as [[Hk [Hv Hr]] Hms']; cbn [fst snd] in *; cbn [read_members];
    unfold member_text at 1; cbn [fst snd]; rewrite -(assoc_L (++)) skip_plain // read_string_text //; cbn [then_read app];
    rewrite skip_plain //; cbn [tail]; rewrite first_cons; destruct (decide (":"%char = ":"%char)) as [_|?]; try done; rewrite skip_text //;
    assert (set_pair k v acc = acc ++ [(k, v)]) as Es by (apply set_pair_new; rewrite fmap_app in Hd; apply NoDup_app in Hd as (_ & Hd & _); intros Hin; by apply (Hd k Hin), list_elem_of_here).
  - rewrite Hr; [|unfold follows, first; set_solver]. simpl. by rewrite Es.
  - change ((map member (m' :: ms) ≫= cons ","%char) ++ "}"%char :: r) with (","%char :: (member m' ++ (map member ms ≫= cons ","%char)) ++ "}"%char :: r).
    rewrite Hr; [|unfold follows, first; simpl; set_solver]. cbn [then_read]. rewrite skip_plain //. cbn [tail].
    rewrite first_cons. destruct (decide (","%char = ","%char)) as [_|?]; [|done]. rewrite Es -(assoc_L (++)) IH //; [by rewrite -(assoc_L (++))| |simpl in Hn; lia]. by rewrite -(assoc_L (++)).
Qed.

Lemma rereadable_array vs : rereadable (TArray vs) -> Forall rereadable vs.
Proof. simpl. induction vs as [|v vs IH]; [constructor|]. intros [Hv Hvs]. constructor; [done|by apply IH]. Qed.

Lemma rereadable_object ms : rereadable (TObject ms) -> NoDup ms.*1 /\ Forall (fun m => plain_text m.1 /\ rereadable m.2) ms.
Proof.
  intros [Hd H]. split; [done|]. clear Hd. induction ms as [|[k v] ms IH]; [constructor|]. destruct H as [Hm Hms].
  constructor; [done|by apply IH].
Qed.

Lemma length_each {A} (f : A -> list ascii) l : length l + sum_list_with (fun a => length (f a)) l <= length (map f l ≫= cons ","%char).
Proof. induction l as [|a l IH]; [done|]. cbn [List.map mbind list_bind] in *. simpl. rewrite length_app. lia. Qed.

Lemma part_length {A} (f : A -> list ascii) l n : length l + sum_list_with (fun a => length (f a)) l <= n -> Forall (fun a => length (f a) <= n) l.
Proof. induction l as [|a l IH]; simpl; intros H; constructor; [lia|]. apply IH. lia. Qed.

(** The depth and the passes a text needs. *)
Lemma value_reread m : forall v, rereadable v -> forall n r, length (text v) <= m -> length (text v) <= n -> follows r ->
  read_value strtod m n (text v ++ r) = Read v r.
Proof.
  apply (tree_induction (fun v => rereadable v -> forall n r, length (text v) <= m -> length (text v) <= n -> follows r ->
    read_value strtod m n (text v ++ r) = Read v r)).
  - intros v; destruct v as [|b|z|d|t|vs|ms]; try done; intros Hv [|n] r Hm Hn Hr;
      try (destruct (text_start _ Hv) as (c & u & E & _); rewrite E in Hn; simpl in Hn; lia);
      cbn [read_value]; unfold read_one; rewrite skip_text //; cbn [json_text].
    + unfold read_word. assert (is_word "null" (chars "null" ++ r) = true) as E by by apply is_word_read. simpl in E |- *. by rewrite E.
    + unfold read_word. destruct b; [assert (is_word "true" (chars "true" ++ r) = true) as E by by apply is_word_read|
        assert (is_word "false" (chars "false" ++ r) = true) as E by by apply is_word_read]; simpl in E |- *; by rewrite E.
    + pose proof (read_int z r Hv Hr) as E. destruct (pretty_Z_decimal z) as (l & El & Hl & _ & Hne). rewrite El in E |- *.
      destruct (decide (z < 0)%Z); [exact E|]. destruct l as [|c l]; [done|]. apply Forall_cons in Hl as [Hc _]. simpl app in *. rewrite first_cons.
      repeat (destruct (decide (c = _)) as [->|_]; [done|]). change (isdigit c = true) in Hc. by rewrite Hc orb_true_r.
    + pose proof (read_string_text t r Hv) as E. unfold string_text in *. simpl app in *. rewrite first_cons.
      destruct (decide (dquote = dquote)) as [_|?]; [|done]. by rewrite E.
  - intros vs IH Hv%rereadable_array [|n] r Hm Hn Hr; [simpl in Hn; lia|]. cbn [read_value json_text] in *. unfold read_one.
    rewrite -app_comm_cons skip_plain // first_cons. simpl decide. unfold read_array. cbn [tail]. rewrite -(assoc_L (++)).
    destruct vs as [|v vs]; [done|]. rewrite map_cons commas_bind in Hm, Hn |- *. rewrite -(assoc_L (++)).
    assert (Forall (reread (read_value strtod m n)) (v :: vs)) as Hall.
    { simpl in Hm, Hn. rewrite !length_app /= in Hm, Hn. pose proof (length_each text vs) as Hl.
      assert (Forall (fun v => length (text v) <= m /\ length (text v) <= n) (v :: vs)) as Hlen.
      { constructor; [lia|]. apply Forall_and. split; apply part_length; lia. }
      clear Hl Hm Hn. induction IH as [|w ws' Hw _ IH]; [constructor|]. apply Forall_cons in Hv as [Hv Hvs], Hlen as [[? ?] Hlen].
      constructor; [|by apply IH]. split; [done|]. intros r' Hr'. by apply Hw. }
    apply Forall_cons in Hall as [Hv1 Hvs]. rewrite skip_text; [|by destruct Hv1].
    destruct (decide (first _ = "]"%char)) as [E|_].
    { exfalso. destruct (text_start v ltac:(by destruct Hv1)) as (c & t & Et & _ & Hc). rewrite Et in E. simpl app in E.
      rewrite first_cons in E. subst c. set_solver. }
    rewrite (elements_reread _ m vs v [] r) //. simpl in Hm. rewrite !length_app /= in Hm. pose proof (length_each text vs). lia.
  - intros ms IH Hv%rereadable_object [|n] r Hm Hn Hr; [simpl in Hn; lia|]. destruct Hv as [Hd Hv]. cbn [read_value json_text] in *.
    unfold read_one. change (map _ ms) with (map member ms) in *.
    rewrite -app_comm_cons skip_plain // first_cons. simpl decide. unfold read_object. cbn [tail]. rewrite -(assoc_L (++)).
    destruct ms as [|m1 ms]; [done|]. rewrite map_cons commas_bind in Hm, Hn |- *. rewrite -(assoc_L (++)).
    assert (Forall (fun m' => plain_text m'.1 /\ reread (read_value strtod m n) m'.2) (m1 :: ms)) as Hall.
    { rewrite length_cons length_app (length_app (member m1)) in Hm, Hn. pose proof (length_each member ms) as Hl.
      assert (Forall (fun m' => length (text m'.2) <= m /\ length (text m'.2) <= n) (m1 :: ms)) as Hlen.
      { assert (Forall (fun m' => length (member m') <= m /\ length (member m') <= n) (m1 :: ms)) as Hlen.
        { constructor; [lia|]. apply Forall_and. split; apply part_length; lia. }
        eapply Forall_impl; [exact Hlen|]. intros m' H. unfold member_text in H. rewrite length_app /= in H. lia. }
      clear Hl Hm Hn Hd. induction IH as [|w ws' Hw _ IH]; [constructor|]. apply Forall_cons in Hv as [[? Hv] Hvs], Hlen as [[? ?] Hlen].
      constructor; [|by apply IH]. split; [done|]. split; [done|]. intros r' Hr'. by apply Hw. }
    unfold member_text at 1. unfold string_text at 1. simpl app. rewrite skip_plain // first_cons.
    destruct (decide (dquote = "}"%char)) as [?|_]; [done|].
    change (dquote :: _) with (member m1 ++ (map member ms ≫= cons ","%char) ++ "}"%char :: r).
    rewrite (members_reread _ m ms m1 [] r) //. rewrite length_cons length_app (length_app (member m1)) in Hm. pose proof (length_each member ms). lia.
Qed.

Lemma escaped_no_terminator t : plain_text t -> "000"%char ∉ string_text t.
Proof.
  intros Ht. unfold string_text. apply not_elem_of_cons. split; [done|]. apply not_elem_of_app. split; [|set_solver].
  induction Ht as [|c t Hc _ IH]; [apply not_elem_of_nil|]. cbn [mbind list_bind]. apply not_elem_of_app. split; [|done].
  unfold escaped, escape_of. repeat (destruct (decide (c = _)) as [_|?]; [simpl; set_solver|]).
  destruct (decide (N_of_ascii c < 32)%N) as [H|_].
  - exfalso. destruct Hc as [Hc|Hc]; [lia|set_solver].
  - simpl. intros [<-|[]%elem_of_nil]%elem_of_cons. destruct Hc as [Hc|Hc]; [done|]. set_solver.
Qed.

Lemma commas_no_terminator texts : Forall (fun t => "000"%char ∉ t) texts -> "000"%char ∉ commas texts.
Proof.
  destruct texts as [|t texts]; [intros _; apply not_elem_of_nil|]. intros [Ht Hts]%Forall_cons. rewrite commas_bind.
  apply not_elem_of_app. split; [done|]. clear Ht t. induction Hts as [|t texts Ht _ IH]; [apply not_elem_of_nil|].
  cbn [mbind list_bind]. apply not_elem_of_app. split; [|done]. by apply not_elem_of_cons.
Qed.

Lemma text_no_zero : forall v, rereadable v -> "000"%char ∉ text v.
Proof.
  apply (tree_induction (fun v => rereadable v -> "000"%char ∉ text v)).
  - intros v; destruct v as [|b|z|d|t|vs|ms]; try done; cbn [json_text].
    + intros _. apply (bool_decide_unpack _). by vm_compute.
    + intros _. destruct b; apply (bool_decide_unpack _); by vm_compute.
    + intros _ Hin. destruct (pretty_Z_decimal z) as (l & E & Hl & _). rewrite E in Hin. apply elem_of_app in Hin as [Hin|Hin].
      * case_decide; set_solver.
      * rewrite Forall_forall in Hl. by specialize (Hl _ Hin).
    + apply escaped_no_terminator.
  - intros vs IH Hv%rereadable_array. cbn [json_text]. apply not_elem_of_cons. split; [done|]. apply not_elem_of_app. split; [|set_solver].
    apply commas_no_terminator, Forall_fmap. induction IH as [|v vs H _ IH]; [constructor|]. apply Forall_cons in Hv as [Hv Hvs].
    constructor; [by apply H|by apply IH].
  - intros ms IH [_ Hv]%rereadable_object. cbn [json_text]. apply not_elem_of_cons. split; [done|]. apply not_elem_of_app. split; [|set_solver].
    apply commas_no_terminator, Forall_fmap. induction IH as [|[k v] ms H _ IH]; [constructor|]. apply Forall_cons in Hv as [[Hk Hv] Hvs].
    constructor; [|by apply IH]. unfold member_text. intros [Hin|[?|Hin]%elem_of_cons]%elem_of_app; [by eapply escaped_no_terminator|done|by eapply H].
Qed.

Lemma text_last v : rereadable v -> last (text v) <> Some backslash.
Proof.
  destruct v as [|b|z|d|t|vs|ms]; cbn [json_text]; intros Hv; [done|by destruct b| |done|..].
  - destruct (pretty_Z_decimal z) as (l & -> & Hl & _ & Hne). induction l as [|c l _] using rev_ind; [done|].
    rewrite (assoc_L (++)) last_snoc. intros [= ->]. by apply Forall_app in Hl as [_ [Hc _]%Forall_cons].
  - unfold string_text. by rewrite app_comm_cons last_snoc.
  - by rewrite app_comm_cons last_snoc.
  - by rewrite app_comm_cons last_snoc.
Qed.

(** C34. The text that is written for a value is decoded to that value, and encoding
    what was decoded writes that text again, all in memory that was not in use and that
    is free again when the value and the text are freed. For whole numbers that fit,
    strings whose control characters have escapes of their own, distinct keys, and a
    text below 512 megabytes. *)
Theorem json_text_roundtrip (v : tree) (s : heap) :
  rereadable v -> (Z.of_nat (length (text v)) < 2 ^ 29)%Z -> fresh_heap s ->
  exists p s1 q s2 s3,
    json_decode never strtod (text v) s = Done ((Some p, None), s1) /\ holds (h_cells s1) v p /\
    json_encode never float_text (Some p) s1 = Done (Some q, s2) /\
    holds (h_cells s2) v p /\ text_in (h_cells s2) q (text v) /\
    (json_free (Some p);; free_cell (Some q)) s2 = Done (tt, s3) /\ h_cells s3 = h_cells s.
Proof.
  intros Hv Hl Hf. set (input := text v). assert (c_input input) as Hi by (split_and!; [by apply text_no_zero|by apply text_last|done]).
  destruct Hi as (Hz & Hb & _).
  pose proof (value_reread (S (length input)) v Hv (S (length input)) [] ltac:(unfold input; lia) ltac:(unfold input; lia) ltac:(unfold follows; simpl; set_solver)) as Hr.
  rewrite app_nil_r in Hr.
  enough (exists a s1, parse_value never strtod input (S (length input)) (start s) = Done (a, s1) /\
    exists p, a = Some p /\ holds (h_cells s1) v p /\ exists q s2 s3, json_encode never float_text (Some p) s1 = Done (Some q, s2) /\
    holds (h_cells s2) v p /\ text_in (h_cells s2) q input /\
    (json_free (Some p);; free_cell (Some q)) s2 = Done (tt, s3) /\ h_cells s3 = h_cells s)
    as (a & s1 & E & p & -> & Hh & q & s2 & s3 & H).
  { exists p, s1, q, s2, s3. split; [|done]. unfold json_decode, mbind, run_bind, modify. change (set_parser _ s) with (start s). by rewrite E. }
  apply (run_adequate input _ (start s) input None (size (h_cells s))); [by apply looks_start|].
  iIntros (Σ ? γ) "Hc". iApply (jwp_parse_value γ never strtod float_text input); [done..|]. rewrite Hr. cbn [given].
  iIntros (p) "Hv %s1 %Hs1 Hm". iDestruct (owned_holds with "Hm Hv") as %Hh.
  iMod (jwp_json_encode γ never float_text input (fun _ => eq_refl) v p (fun a l' e' k' => ∃ q slack, ⌜a = Some q /\ k' = S (size (h_cells s) + weight v)⌝ ∗
    owned γ v p ∗ q ↪[γ] Chars (c_chars input ++ slack))%I with "Hv [] [//] Hm") as (a s2 l' e' k') "(%E2 & %Hs2 & Hm & %q & %slack & [-> ->] & Hv & Hq)".
  { done. }
  { iIntros (q slack) "Hv Hq". iExists q, slack. by iFrame. }
  iDestruct (owned_holds with "Hm Hv") as %Hh2. iDestruct (ghost_map_lookup with "Hm Hq") as %Eq.
  iMod (jwp_bind γ input (json_free (Some p)) (fun _ => free_cell (Some q)) (fun _ l' e' k' => ⌜k' = size (h_cells s)⌝)%I with "[Hv Hq] [//] Hm")
    as ([] s3 l3 e3 k3) "(%E3 & %Hs3 & Hm & ->)".
  { iApply (jwp_json_free with "Hv"). iIntros (k1 Hk1). iApply (jwp_free with "Hq"). iIntros (k2 Hk2). iPureIntro. lia. }
  iDestruct (cells_same with "Hm Hc") as %Em; [by destruct Hs3|]. iModIntro. iPureIntro.
  exists p. split; [done|]. split; [done|]. exists q, s2, s3. split; [done|]. split; [done|]. split; [by exists slack|done].
Qed.
End reread.

(** * Samples *)

Definition no_float (l : list ascii) : spec_float := S754_nan.
Definition no_float_text (d : spec_float) : list ascii := chars "nan".
Definition empty_heap : heap := mkHeap ∅ 0 (mkParser 0 None).

Lemma empty_heap_fresh : fresh_heap empty_heap.
Proof. done. Qed.

Definition quoted (s : string) : list ascii := [dquote] ++ chars s ++ [dquote].

Definition sample_tree : tree :=
  TObject [(chars "list", TArray [TNull; TBool true; TInt (-32002); TArray []; TObject []]);
           (chars "text", TString ["a"%char; dquote; backslash; newline; ascii_of_N 200])].

Lemma sample_rereadable : rereadable sample_tree.
Proof.
  split; [repeat (constructor; [set_solver|]); constructor|].
  repeat split; try (repeat constructor; by vm_compute).
Qed.

(** A repeated key, spaces, and more members than the first allocation holds. *)
Definition sample_input : list ascii :=
  chars "{ " ++ quoted "a" ++ chars ": [1,2,3,4,5,6,7,8,9,10] , " ++ quoted "b" ++ chars ":-1, " ++ quoted "a" ++ chars ":null }".

Lemma sample_input_ok : c_input sample_input.
Proof. split; [|done]. apply (bool_decide_unpack _). by vm_compute. Qed.

Lemma json_decode_refines_witness :
  what_is_read no_float sample_input = Read (TObject [(chars "a", TNull); (chars "b", TInt (-1))]) [] /\
  exists a s', json_decode never no_float sample_input empty_heap = Done (a, s') /\
    decoded empty_heap (what_is_read no_float sample_input) a s'.
Proof.
  split; [reflexivity|]. exact (json_decode_refines no_float sample_input sample_input_ok empty_heap empty_heap_fresh).
Defined.

Lemma json_text_roundtrip_witness :
  rereadable sample_tree /\
  exists p s1 q s2 s3,
    json_decode never no_float (json_text no_float_text sample_tree) empty_heap = Done ((Some p, None), s1) /\
    holds (h_cells s1) sample_tree p /\
    json_encode never no_float_text (Some p) s1 = Done (Some q, s2) /\
    holds (h_cells s2) sample_tree p /\ text_in (h_cells s2) q (json_text no_float_text sample_tree) /\
    (json_free (Some p);; free_cell (Some q)) s2 = Done (tt, s3) /\ h_cells s3 = h_cells empty_heap.
Proof.
  split; [exact sample_rereadable|].
  exact (json_text_roundtrip no_float no_float_text sample_tree empty_heap sample_rereadable ltac:(vm_compute; reflexivity) empty_heap_fresh).
Defined.

(** A backslash at the end of the input makes the parser step over the terminator. *)
Example backslash_at_end_read_over : json_decode never no_float (chars "[" ++ [dquote; "a"; backslash]%char) empty_heap = UndefinedBehaviour.
Proof. by vm_compute. Qed.

(** A control character is written as an escape the parser does not know: it keeps the
    [u] and the digits. *)
Lemma control_characters_lost :
  what_is_read no_float (json_text no_float_text (TString [ascii_of_N 1])) = Read (TString (chars "u0001")) [].
Proof. by vm_compute. Qed.

(** What follows a value is not looked at, and a sign alone is a number. *)
Lemma trailing_text_accepted : what_is_read no_float (chars "1]") = Read (TInt 1) (chars "]").
Proof. by vm_compute. Qed.

Lemma sign_alone_accepted : what_is_read no_float (chars "-") = Read (TInt 0) [].
Proof. by vm_compute. Qed.
