(* ===== verification/Threads.v ===== *)
(** Threads that share a state, as the run-time library uses them ([pthread.h]):
    mutexes, condition variables, creation and joining of threads. A program is the
    sequence of what it does to what is shared; a step of the system is one such
    action of one thread, so that a run is an interleaving. *)

From stdpp Require Import relations.
From S2P Require Import Prelude.

(** * Lists *)

Lemma map_insert {A B} (f : A -> B) i x l : map f (<[i := x]> l) = <[i := f x]> (map f l).
Proof. exact (list_fmap_insert f l i x). Qed.

Lemma lookup_map {A B} (f : A -> B) i l : map f l !! i = f <$> l !! i.
Proof. exact (list_lookup_fmap f l i). Qed.

Notation sum f l := (sum_list_with f l) (only parsing).

Lemma sum_insert {A} (f : A -> nat) l i x y : l !! i = Some x -> sum f (<[i := y]> l) + f x = sum f l + f y.
Proof.
  revert i. induction l as [|z l IH]; intros [|i] Hi; [done|done|cbn in *; simplify_eq; lia|].
  change (<[S i := y]> (z :: l)) with (z :: <[i := y]> l). cbn [sum_list_with]. specialize (IH i Hi). lia.
Qed.

Lemma sum_ge {A} (f : A -> nat) l i x : l !! i = Some x -> f x <= sum f l.
Proof. revert i. induction l as [|z l IH]; intros [|i] Hi; cbn in *; simplify_eq; [lia|]. specialize (IH i Hi). lia. Qed.

Lemma sum_two {A} (f : A -> nat) l i j x y : l !! i = Some x -> l !! j = Some y -> i <> j -> f x + f y <= sum f l.
Proof.
  revert i j. induction l as [|z l IH]; intros [|i] [|j] Hi Hj Hne; cbn in *; simplify_eq; try done.
  - pose proof (sum_ge f l j y Hj). lia.
  - pose proof (sum_ge f l i x Hi). lia.
  - specialize (IH i j Hi Hj ltac:(congruence)). lia.
Qed.

Lemma sum_snoc {A} (f : A -> nat) l x : sum f (l ++ [x]) = sum f l + f x.
Proof. induction l as [|y l IH]; cbn; [lia|]. rewrite IH. lia. Qed.

(** * Programs *)

Section programs.
(** The shared state, the names of mutexes and condition variables, and what a thread
    returns. *)
Context {Sh L K R : Type}.

(** [Access] reads and changes the shared state in one action, or has no defined
    behaviour. [Await c m enough] is [while ( !enough ) pthread_cond_wait( c, m )].
    [Choose] is what the environment decides, as whether memory is left. *)
Inductive prog (A : Type) : Type :=
  | Return (a : A)
  | Access (f : Sh -> option (Sh * prog A))
  | Lock (m : L) (k : prog A)
  | Unlock (m : L) (k : prog A)
  | Await (c : K) (m : L) (enough : Sh -> option bool) (k : prog A)
  | Signal (c : K) (k : prog A)
  | Broadcast (c : K) (k : prog A)
  | InitMutex (m : L) (recursive : bool) (k : prog A)
  | DestroyMutex (m : L) (k : prog A)
  | DestroyCond (c : K) (k : prog A)
  | Choose (k : bool -> prog A)
  | Create (child : prog R) (k : nat -> prog A)
  | Join (t : nat) (k : prog A)
  | Abort_.
#[global] Arguments Return {A} a.
#[global] Arguments Access {A} f.
#[global] Arguments Lock {A} m k.
#[global] Arguments Unlock {A} m k.
#[global] Arguments Await {A} c m enough k.
#[global] Arguments Signal {A} c k.
#[global] Arguments Broadcast {A} c k.
#[global] Arguments InitMutex {A} m recursive k.
#[global] Arguments DestroyMutex {A} m k.
#[global] Arguments DestroyCond {A} c k.
#[global] Arguments Choose {A} k.
#[global] Arguments Create {A} child k.
#[global] Arguments Join {A} t k.
#[global] Arguments Abort_ {A}.

(** One program after another. *)
Fixpoint prog_bind {A B} (h : A -> prog B) (p : prog A) : prog B :=
  match p with
  | Return a => h a
  | Access f => Access (fun s => match f s with Some (s', k) => Some (s', prog_bind h k) | None => None end)
  | Lock m k => Lock m (prog_bind h k)
  | Unlock m k => Unlock m (prog_bind h k)
  | Await c m enough k => Await c m enough (prog_bind h k)
  | Signal c k => Signal c (prog_bind h k)
  | Broadcast c k => Broadcast c (prog_bind h k)
  | InitMutex m r k => InitMutex m r (prog_bind h k)
  | DestroyMutex m k => DestroyMutex m (prog_bind h k)
  | DestroyCond c k => DestroyCond c (prog_bind h k)
  | Choose k => Choose (fun b => prog_bind h (k b))
  | Create child k => Create child (fun t => prog_bind h (k t))
  | Join t k => Join t (prog_bind h k)
  | Abort_ => Abort_
  end.
End programs.
#[global] Arguments prog : clear implicits.

#[export] Instance prog_ret Sh L K R : MRet (prog Sh L K R) := fun A a => Return a.
#[export] Instance prog_mbind Sh L K R : MBind (prog Sh L K R) := fun A B h p => prog_bind h p.

Section actions.
Context {Sh L K R : Type}.
#[local] Notation program := (prog Sh L K R).

Definition read {A} (f : Sh -> option A) : program A :=
  Access (fun s => match f s with Some a => Some (s, Return a) | None => None end).
Definition update (f : Sh -> option Sh) : program unit :=
  Access (fun s => match f s with Some s' => Some (s', Return tt) | None => None end).
Definition lock (m : L) : program unit := Lock m (Return tt).
Definition unlock (m : L) : program unit := Unlock m (Return tt).
Definition await (c : K) (m : L) (enough : Sh -> option bool) : program unit := Await c m enough (Return tt).
Definition signal (c : K) : program unit := Signal c (Return tt).
Definition broadcast (c : K) : program unit := Broadcast c (Return tt).
Definition init_mutex (m : L) (recursive : bool) : program unit := InitMutex m recursive (Return tt).
Definition destroy_mutex (m : L) : program unit := DestroyMutex m (Return tt).
Definition destroy_cond (c : K) : program unit := DestroyCond c (Return tt).
Definition choose : program bool := Choose Return.
Definition create (child : prog Sh L K R R) : program nat := Create child Return.
Definition join (t : nat) : program unit := Join t (Return tt).
Definition abort {A} : program A := Abort_.
Definition p_when (b : bool) (p : program unit) : program unit := if b then p else mret tt.

(** [for ( i = lo; i < hi; i++ )], whose body tells whether to [break]. *)
Fixpoint p_for_passes (n : nat) (i : Z) (body : Z -> program bool) : program unit :=
  match n with
  | 0 => mret tt
  | S n => stop ← body i; if stop : bool then mret tt else p_for_passes n (i + 1) body
  end.
Definition p_for (lo hi : Z) (body : Z -> program bool) : program unit := p_for_passes (Z.to_nat (hi - lo)) lo body.
End actions.

(** * The system *)

Section system.
Context {Sh L K R : Type} `{Countable L} `{EqDecision K}.
#[local] Notation program := (prog Sh L K R R).

(** A mutex: which thread holds it, and how many times if it is recursive. *)
Record mutex := mkMutex { held_by : option (nat * nat); is_recursive : bool }.

(** A thread that runs, sleeps on a condition variable, was woken and needs the mutex
    to go on, or was joined. *)
Inductive thread :=
  | Running (p : program)
  | Sleeping (c : K) (m : L) (p : program)
  | Waking (m : L) (p : program)
  | Joined.

Record system := mkSystem { shared : Sh; mutexes : gmap L mutex; threads : list thread }.

Definition set_shared (s : system) (sh : Sh) : system := mkSystem sh (mutexes s) (threads s).
Definition set_mutex (s : system) (m : L) (mu : mutex) : system := mkSystem (shared s) (<[m := mu]> (mutexes s)) (threads s).
Definition set_thread (s : system) (i : nat) (t : thread) : system := mkSystem (shared s) (mutexes s) (<[i := t]> (threads s)).

Inductive verdict :=
  | Blocked
  | Fault
  | Exited
  | Stepped (s : system).

(** Taking a mutex that is free, or that the thread holds already if it is recursive. *)
Definition acquire (i : nat) (m : L) (s : system) : verdict :=
  match mutexes s !! m with
  | None => Fault
  | Some (mkMutex None r) => Stepped (set_mutex s m (mkMutex (Some (i, 1)) r))
  | Some (mkMutex (Some (j, n)) r) =>
      if decide (i = j) then if r then Stepped (set_mutex s m (mkMutex (Some (j, S n)) r)) else Fault else Blocked
  end.

(** Giving it back, which only its holder may do. *)
Definition release (i : nat) (m : L) (s : system) : verdict :=
  match mutexes s !! m with
  | Some (mkMutex (Some (j, n)) r) =>
      if decide (i = j) then
        Stepped (set_mutex s m (mkMutex (if decide (n <= 1) then None else Some (j, n - 1)) r))
      else Fault
  | _ => Fault
  end.

Definition sleeps_on (c : K) (t : thread) : bool := match t with Sleeping d _ _ => bool_decide (c = d) | _ => false end.
Definition woken (t : thread) : thread := match t with Sleeping _ m p => Waking m p | t => t end.

(** The numbers of the threads that sleep on a condition variable. *)
Definition sleepers (c : K) (l : list thread) : list nat := (filter (fun p => sleeps_on c p.2 = true) (imap pair l)).*1.

(** [pthread_cond_signal] wakes one of them, if there is one. *)
Definition signalled (c : K) (pick : nat) (l : list thread) : list thread :=
  match sleepers c l with
  | [] => l
  | i :: rest => alter woken (nth pick (i :: rest) i) l
  end.
Definition broadcasted (c : K) (l : list thread) : list thread := map (fun t => if sleeps_on c t then woken t else t) l.

Definition and_then (v : verdict) (f : system -> verdict) : verdict := match v with Stepped s => f s | v => v end.

(** An action of thread [i], which is at [p]; [pick] is what the environment chooses. *)
Definition act (i pick : nat) (s : system) (p : program) : verdict :=
  let go s p := Stepped (set_thread s i (Running p)) in
  match p with
  | Return _ => Blocked
  | Access f => match f (shared s) with Some (sh, k) => go (set_shared s sh) k | None => Fault end
  | Lock m k => and_then (acquire i m s) (fun s => go s k)
  | Unlock m k => and_then (release i m s) (fun s => go s k)
  | Await c m enough k =>
      match mutexes s !! m, enough (shared s) with
      | Some (mkMutex (Some (j, 1)) r), Some b =>
          if decide (i <> j) then Fault
          else if b then go s k
          else Stepped (set_thread (set_mutex s m (mkMutex None r)) i (Sleeping c m p))
      | _, _ => Fault
      end
  | Signal c k => go (mkSystem (shared s) (mutexes s) (signalled c pick (threads s))) k
  | Broadcast c k => go (mkSystem (shared s) (mutexes s) (broadcasted c (threads s))) k
  | InitMutex m r k => go (set_mutex s m (mkMutex None r)) k
  | DestroyMutex m k =>
      match mutexes s !! m with
      | Some (mkMutex None _) => go (mkSystem (shared s) (delete m (mutexes s)) (threads s)) k
      | _ => Fault
      end
  | DestroyCond c k => match sleepers c (threads s) with [] => go s k | _ => Fault end
  | Choose k => go s (k (bool_decide (pick = 0)))
  | Create child k =>
      go (mkSystem (shared s) (mutexes s) (threads s ++ [Running child])) (k (length (threads s)))
  | Join t k =>
      match threads s !! t with
      | Some (Running (Return _)) => go (set_thread s t Joined) k
      | None | Some Joined => Fault
      | Some _ => Blocked
      end
  | Abort_ => Exited
  end.

Definition step_at (i pick : nat) (s : system) : verdict :=
  match threads s !! i with
  | Some (Running p) => act i pick s p
  | Some (Waking m p) => and_then (acquire i m s) (fun s => Stepped (set_thread s i (Running p)))
  | Some (Sleeping _ _ _) | Some Joined | None => Blocked
  end.

(** A schedule of threads and choices, carried out. *)
Fixpoint run_schedule (l : list (nat * nat)) (s : system) : verdict :=
  match l with [] => Stepped s | (i, pick) :: l => and_then (step_at i pick s) (run_schedule l) end.

(** * Steps and what they reach *)

Definition step (s s' : system) : Prop := exists i pick, step_at i pick s = Stepped s'.

(** A thread may wake without a signal. *)
Definition spurious (s s' : system) : Prop :=
  exists i c m p, threads s !! i = Some (Sleeping c m p) /\ s' = set_thread s i (Waking m p).

Definition moves (s s' : system) : Prop := step s s' \/ spurious s s'.
Definition reachable (s s' : system) : Prop := rtc moves s s'.

(** No thread can take a step. *)
Definition stuck (s : system) : Prop := forall i pick, match step_at i pick s with Stepped _ => False | _ => True end.

(** No thread's next action is without defined behaviour, wherever the threads get. *)
Definition safe (s : system) : Prop := forall s' i pick, reachable s s' -> step_at i pick s' <> Fault.

(** What holds at first and is kept by every move holds wherever the threads get. *)
Lemma reachable_ind (I : system -> Prop) s :
  I s -> (forall s s', I s -> moves s s' -> I s') -> forall s', reachable s s' -> I s'.
Proof. intros H0 Hs s' Hr. induction Hr as [|s1 s2 s3 Hm _ IH]; [done|]. by apply IH, (Hs s1). Qed.

Lemma run_schedule_reachable l : forall s s', run_schedule l s = Stepped s' -> reachable s s'.
Proof.
  induction l as [|[i pick] l IH]; intros s s' H1; cbn in H1; [simplify_eq; apply rtc_refl|].
  destruct (step_at i pick s) as [| | |s1] eqn:E; try done. cbn in H1. eapply rtc_l; [|by apply IH].
  left. by exists i, pick.
Qed.

(** Reading, in the middle of two sequences. *)
Lemma act_read {A D} (F : Sh -> option D) (g : D -> prog Sh L K R A) (h : A -> program) i pick s :
  act i pick s (prog_bind h (prog_bind g (read F))) =
  match F (shared s) with
  | Some d => Stepped (set_thread s i (Running (prog_bind h (g d))))
  | None => Fault
  end.
Proof. cbn. destruct (F (shared s)); [|done]. by destruct s. Qed.

(** Only a return, a lock and a join may have to wait. *)
Lemma blocked_prog i pick s p :
  act i pick s p = Blocked -> match p with Return _ | Lock _ _ | Join _ _ => True | _ => False end.
Proof.
  destruct p; try done; cbn; intros H1; try (by repeat case_match).
  unfold release in H1. by repeat case_match.
Qed.

(** Who sleeps, and who is woken. *)
Lemma elem_sleepers c l i : i ∈ sleepers c l <-> exists t, l !! i = Some t /\ sleeps_on c t = true.
Proof.
  unfold sleepers. rewrite list_elem_of_fmap. split.
  - intros ([j t] & -> & Hj%list_elem_of_filter). destruct Hj as [Hs Hj]. apply list_elem_of_lookup in Hj as [n Hn].
    rewrite list_lookup_imap in Hn. destruct (l !! n) eqn:E; [|done]. cbn in Hn. simplify_eq. eauto.
  - intros (t & Ht & Hs). exists (i, t). split; [done|]. apply list_elem_of_filter. split; [done|].
    apply list_elem_of_lookup. exists i. by rewrite list_lookup_imap, Ht.
Qed.

Lemma signalled_cases c pick l :
  (signalled c pick l = l /\ forall i t, l !! i = Some t -> sleeps_on c t = false) \/
  exists i m p, l !! i = Some (Sleeping c m p) /\ signalled c pick l = <[i := Waking m p]> l.
Proof.
  unfold signalled. destruct (sleepers c l) as [|i rest] eqn:E.
  - left. split; [done|]. intros i t Ht. destruct (sleeps_on c t) eqn:Hs; [|done].
    assert (i ∈ sleepers c l) as Hi by (apply elem_sleepers; eauto). rewrite E in Hi. by apply not_elem_of_nil in Hi.
  - right. set (j := nth pick (i :: rest) i).
    assert (j ∈ sleepers c l) as (t & Ht & Hs)%elem_sleepers.
    { rewrite E. unfold j. destruct (nth_in_or_default pick (i :: rest) i) as [Hin| ->]; [|left].
      by apply list_elem_of_In. }
    destruct t as [|d m p| |]; try done. apply bool_decide_eq_true in Hs as <-. exists j, m, p. split; [done|].
    apply list_eq. intros n. destruct (decide (j = n)) as [<-|Hn].
    + rewrite list_lookup_alter_eq, list_lookup_insert_eq by (by eapply lookup_lt_Some). by rewrite Ht.
    + by rewrite list_lookup_alter_ne, list_lookup_insert_ne by done.
Qed.
End system.
#[global] Arguments system Sh L K R {_ _}.
#[global] Arguments thread Sh L K R : clear implicits.
