(* ===== verification/RuntimeThreads.v ===== *)
(** The part of the run-time library that threads share
    ([src/runtime/blang_runtime.c]): counted objects, spawned tasks, channels and
    asynchronous calls, as programs of [Threads]. Each access to a field is an action
    of its own. What a thread of the compiled program does in between, and its
    destructors, are parameters. *)

From stdpp Require Import relations.
From S2P Require Import Prelude RuntimeMemory Threads.

(** * What is shared *)

(** The user's data lie behind the header and are not part of it. *)
Record BlangRefHeader := mkHeader {
  rc_count : Z;
  rc_is_sync : bool;
  rc_mutex : bool;
  rc_destructor : option nat
}.

(** The context of a lambda begins with a count and a destructor. *)
Record LambdaContext := mkLambda { lc_count : Z; lc_destructor : option nat }.

Record BlangSpawnTask := mkTask {
  task_thread : option nat;
  task_completed : bool;
  task_fn : nat;
  task_ctx : option nat
}.

Record SpawnTracker := mkTracker {
  tr_in_flight : Z;
  tr_handles : option (list (option nat));
  tr_count : Z;
  tr_capacity : Z;
  tr_initialized : bool
}.

Record BlangChan := mkChan {
  ch_buffer : list cell;
  ch_elem_size : Z;
  ch_capacity : Z;
  ch_head : Z;
  ch_tail : Z;
  ch_count : Z;
  ch_closed : bool
}.

(** [g_channels], with its count and its capacity. *)
Record ChanRegistry := mkRegistry {
  reg_channels : option (list (option nat));
  reg_count : Z;
  reg_capacity : Z
}.

Record BlangTask := mkAsync {
  async_thread : option nat;
  async_result : option nat;
  async_completed : bool;
  async_fn : nat;
  async_arg : option nat
}.

(** The live objects of each kind, under numbers that are not used again. *)
Record runtime := mkRuntime {
  rt_next : nat;
  rt_objects : gmap nat BlangRefHeader;
  rt_lambdas : gmap nat LambdaContext;
  rt_contexts : gset nat;
  rt_tasks : gmap nat BlangSpawnTask;
  rt_tracker : SpawnTracker;
  rt_chans : gmap nat BlangChan;
  rt_registry : ChanRegistry;
  rt_async : gmap nat BlangTask
}.

Definition set_objects (rt : runtime) (o : gmap nat BlangRefHeader) : runtime :=
  mkRuntime (rt_next rt) o (rt_lambdas rt) (rt_contexts rt) (rt_tasks rt) (rt_tracker rt) (rt_chans rt) (rt_registry rt) (rt_async rt).
Definition set_lambdas (rt : runtime) (l : gmap nat LambdaContext) : runtime :=
  mkRuntime (rt_next rt) (rt_objects rt) l (rt_contexts rt) (rt_tasks rt) (rt_tracker rt) (rt_chans rt) (rt_registry rt) (rt_async rt).
Definition set_contexts (rt : runtime) (c : gset nat) : runtime :=
  mkRuntime (rt_next rt) (rt_objects rt) (rt_lambdas rt) c (rt_tasks rt) (rt_tracker rt) (rt_chans rt) (rt_registry rt) (rt_async rt).
Definition set_tasks (rt : runtime) (t : gmap nat BlangSpawnTask) : runtime :=
  mkRuntime (rt_next rt) (rt_objects rt) (rt_lambdas rt) (rt_contexts rt) t (rt_tracker rt) (rt_chans rt) (rt_registry rt) (rt_async rt).
Definition set_tracker (rt : runtime) (t : SpawnTracker) : runtime :=
  mkRuntime (rt_next rt) (rt_objects rt) (rt_lambdas rt) (rt_contexts rt) (rt_tasks rt) t (rt_chans rt) (rt_registry rt) (rt_async rt).
Definition set_chans (rt : runtime) (c : gmap nat BlangChan) : runtime :=
  mkRuntime (rt_next rt) (rt_objects rt) (rt_lambdas rt) (rt_contexts rt) (rt_tasks rt) (rt_tracker rt) c (rt_registry rt) (rt_async rt).
Definition set_registry (rt : runtime) (r : ChanRegistry) : runtime :=
  mkRuntime (rt_next rt) (rt_objects rt) (rt_lambdas rt) (rt_contexts rt) (rt_tasks rt) (rt_tracker rt) (rt_chans rt) r (rt_async rt).
Definition set_async (rt : runtime) (a : gmap nat BlangTask) : runtime :=
  mkRuntime (rt_next rt) (rt_objects rt) (rt_lambdas rt) (rt_contexts rt) (rt_tasks rt) (rt_tracker rt) (rt_chans rt) (rt_registry rt) a.
Definition next_object (rt : runtime) : runtime :=
  mkRuntime (S (rt_next rt)) (rt_objects rt) (rt_lambdas rt) (rt_contexts rt) (rt_tasks rt) (rt_tracker rt) (rt_chans rt) (rt_registry rt) (rt_async rt).

(** The mutexes and condition variables: the tracker's, the registry's, and those of
    tasks, channels and objects. *)
Inductive mutex_name := TrackerMutex | RegistryMutex | TaskMutex (t : nat) | ChanMutex (c : nat) | ObjectMutex (o : nat).
Inductive cond_name := AllDone | DoneCond (t : nat) | NotEmpty (c : nat) | NotFull (c : nat).

#[export] Instance mutex_name_eq : EqDecision mutex_name.
Proof. solve_decision. Defined.
#[export] Instance cond_name_eq : EqDecision cond_name.
Proof. solve_decision. Defined.
#[export] Instance mutex_name_countable : Countable mutex_name.
Proof.
  refine (inj_countable'
    (fun m => match m with
      | TrackerMutex => inl false | RegistryMutex => inl true
      | TaskMutex t => inr (inl t) | ChanMutex c => inr (inr (inl c)) | ObjectMutex o => inr (inr (inr o)) end)
    (fun s => match s with
      | inl false => TrackerMutex | inl true => RegistryMutex
      | inr (inl t) => TaskMutex t | inr (inr (inl c)) => ChanMutex c | inr (inr (inr o)) => ObjectMutex o end) _).
  by intros [].
Defined.

(** The result of an [int] operation. *)
Definition int_op (z : Z) : option Z := if decide (- 2 ^ 31 <= z < 2 ^ 31)%Z then Some z else None.

(** A change of one object of a map, which has to be there. *)
Definition change {A} (i : nat) (f : A -> option A) (m : gmap nat A) : option (gmap nat A) :=
  a ← m !! i; a' ← f a; Some (<[i := a']> m).

Section runtime.
Context {R : Type} (null : R).
#[local] Notation program := (prog runtime mutex_name cond_name R).
Implicit Types rt : runtime.

(** The functions the compiled program passes. *)
Variables (spawn_fn : nat -> option nat -> program unit) (async_call_fn : nat -> option nat -> program (option nat)).
Variables (destructor : nat -> nat -> program unit).

(** * Allocation *)

(** [__blang_calloc] and [__blang_alloc] of an object: its number, unless no memory is
    left, which aborts the program. *)
Definition blang_alloc (make : nat -> runtime -> runtime) : program nat :=
  ok ← choose;
  if ok : bool then
    n ← read (fun rt => Some (rt_next rt));
    update (fun rt => Some (make n (next_object rt)));;
    mret n
  else abort.

(** * Counted objects *)

Definition put_header (h : BlangRefHeader) (n : nat) rt : runtime := set_objects rt (<[n := h]> (rt_objects rt)).
Definition header {A} (o : nat) (f : BlangRefHeader -> A) : program A := read (fun rt => f <$> rt_objects rt !! o).

Definition rc_alloc : program nat := blang_alloc (put_header (mkHeader 1 false false None)).

Definition rc_alloc_dtor (dtor : option nat) : program nat := blang_alloc (put_header (mkHeader 1 false false dtor)).

Definition rc_alloc_sync : program nat :=
  o ← blang_alloc (put_header (mkHeader 1 true false None));
  allocated ← choose;
  p_when allocated
    (update (fun rt => objects ← change o (fun h => Some (mkHeader (rc_count h) (rc_is_sync h) true (rc_destructor h))) (rt_objects rt);
                       Some (set_objects rt objects));;
     init_mutex (ObjectMutex o) true);;
  mret o.

(** [__atomic_add_fetch] of a count, which wraps around. *)
Definition add_count (o : nat) (d : Z) : program Z :=
  Access (fun rt =>
    h ← rt_objects rt !! o;
    let n := s32 (rc_count h + d) in
    Some (put_header (mkHeader n (rc_is_sync h) (rc_mutex h) (rc_destructor h)) o rt, Return n)).

Definition rc_retain (p : option nat) : program unit :=
  match p with None => mret tt | Some o => _ ← add_count o 1; mret tt end.

Definition free_header (o : nat) : program unit :=
  update (fun rt => _ ← rt_objects rt !! o; Some (set_objects rt (delete o (rt_objects rt)))).

Definition rc_release (p : option nat) : program unit :=
  match p with
  | None => mret tt
  | Some o =>
      new_count ← add_count o (-1);
      if decide (new_count <= 0)%Z then
        dtor ← header o rc_destructor;
        (match dtor with Some d => destructor d o | None => mret tt end);;
        mutex ← header o rc_mutex;
        p_when mutex (destroy_mutex (ObjectMutex o));;
        free_header o
      else mret tt
  end.

Definition sync_lock (p : option nat) : program unit :=
  match p with
  | None => mret tt
  | Some o => b ← header o (fun h => rc_is_sync h && rc_mutex h); p_when b (lock (ObjectMutex o))
  end.

Definition sync_unlock (p : option nat) : program unit :=
  match p with
  | None => mret tt
  | Some o => b ← header o (fun h => rc_is_sync h && rc_mutex h); p_when b (unlock (ObjectMutex o))
  end.

(** The same for the contexts of lambdas, whose count has 64 bits. *)
Definition s64 (z : Z) : Z := ((z + 2 ^ 63) mod 2 ^ 64 - 2 ^ 63)%Z.

Definition add_lambda_count (o : nat) (d : Z) : program Z :=
  Access (fun rt =>
    c ← rt_lambdas rt !! o;
    let n := s64 (lc_count c + d) in
    Some (set_lambdas rt (<[o := mkLambda n (lc_destructor c)]> (rt_lambdas rt)), Return n)).

Definition lambda_ctx_retain (p : option nat) : program unit :=
  match p with None => mret tt | Some o => _ ← add_lambda_count o 1; mret tt end.

Definition lambda_ctx_release (p : option nat) : program unit :=
  match p with
  | None => mret tt
  | Some o =>
      n ← add_lambda_count o (-1);
      if decide (n <= 0)%Z then
        dtor ← read (fun rt => lc_destructor <$> rt_lambdas rt !! o);
        (match dtor with Some d => destructor d o | None => mret tt end);;
        update (fun rt => _ ← rt_lambdas rt !! o; Some (set_lambdas rt (delete o (rt_lambdas rt))))
      else mret tt
  end.

(** * Spawned tasks *)

Definition task {A} (t : nat) (f : BlangSpawnTask -> A) : program A := read (fun rt => f <$> rt_tasks rt !! t).
Definition update_task (t : nat) (f : BlangSpawnTask -> BlangSpawnTask) : program unit :=
  update (fun rt => tasks ← change t (fun x => Some (f x)) (rt_tasks rt); Some (set_tasks rt tasks)).
Definition tracker {A} (f : SpawnTracker -> A) : program A := read (fun rt => Some (f (rt_tracker rt))).
Definition update_tracker (f : SpawnTracker -> option SpawnTracker) : program unit :=
  update (fun rt => t ← f (rt_tracker rt); Some (set_tracker rt t)).

Definition tracker_init : program unit :=
  initialized ← tracker tr_initialized;
  if initialized : bool then mret tt
  else
    init_mutex TrackerMutex false;;
    update_tracker (fun t => Some (mkTracker 0 (tr_handles t) 0 64 (tr_initialized t)));;
    allocated ← choose;
    update_tracker (fun t => Some (mkTracker (tr_in_flight t) (if allocated : bool then Some (replicate 64 None) else None)
      (tr_count t) (tr_capacity t) (tr_initialized t)));;
    update_tracker (fun t => Some (mkTracker (tr_in_flight t) (tr_handles t) (tr_count t) (tr_capacity t) true)).

(** [g_tracker.tasks_in_flight += d] *)
Definition add_in_flight (d : Z) : program unit :=
  update_tracker (fun t => n ← int_op (tr_in_flight t + d); Some (mkTracker n (tr_handles t) (tr_count t) (tr_capacity t) (tr_initialized t))).

Definition runtime_init (num_threads : Z) : program unit := tracker_init.

Definition free_context (c : nat) : program unit :=
  update (fun rt => if decide (c ∈ rt_contexts rt) then Some (set_contexts rt (rt_contexts rt ∖ {[c]})) else None).

Definition spawn_thread_fn (t : nat) : program R :=
  fn ← task t task_fn;
  ctx ← task t task_ctx;
  spawn_fn fn ctx;;
  ctx ← task t task_ctx;
  (match ctx with Some c => free_context c | None => mret tt end);;
  lock (TaskMutex t);;
  update_task t (fun x => mkTask (task_thread x) true (task_fn x) (task_ctx x));;
  signal (DoneCond t);;
  unlock (TaskMutex t);;
  lock TrackerMutex;;
  add_in_flight (-1);;
  n ← tracker tr_in_flight;
  p_when (bool_decide (n = 0%Z)) (signal AllDone);;
  unlock TrackerMutex;;
  mret null.

(** The table of handles with twice its room; what is behind the old handles is not
    read before it is written. *)
Definition grow_handles : program unit :=
  full ← tracker (fun t => bool_decide (tr_capacity t <= tr_count t)%Z);
  p_when full
    (new_capacity ← read (fun rt => int_op (tr_capacity (rt_tracker rt) * 2));
     grown ← choose;
     if grown : bool then
       update_tracker (fun t => Some (mkTracker (tr_in_flight t) (resize (Z.to_nat new_capacity) None <$> Some (default [] (tr_handles t)))
         (tr_count t) new_capacity (tr_initialized t)))
     else unlock TrackerMutex;; abort).

(** [g_tracker.handles[g_tracker.handle_count++] = task] *)
Definition push_handle (t : nat) : program unit :=
  update_tracker (fun tr =>
    handles ← tr_handles tr;
    n ← int_op (tr_count tr + 1);
    if decide (0 <= tr_count tr < Z.of_nat (length handles))%Z
    then Some (mkTracker (tr_in_flight tr) (Some (<[Z.to_nat (tr_count tr) := Some t]> handles)) n (tr_capacity tr) (tr_initialized tr))
    else None).

Definition put_task (x : BlangSpawnTask) (n : nat) rt : runtime := set_tasks rt (<[n := x]> (rt_tasks rt)).

Definition spawn (fn : nat) (ctx : option nat) : program nat :=
  tracker_init;;
  t ← blang_alloc (put_task (mkTask None false fn ctx));
  init_mutex (TaskMutex t) false;;
  lock TrackerMutex;;
  add_in_flight 1;;
  grow_handles;;
  push_handle t;;
  unlock TrackerMutex;;
  th ← create (spawn_thread_fn t);
  update_task t (fun x => mkTask (Some th) (task_completed x) (task_fn x) (task_ctx x));;
  mret t.

Definition spawn_wait (t : option nat) : program unit :=
  match t with
  | None => mret tt
  | Some t =>
      lock (TaskMutex t);;
      await (DoneCond t) (TaskMutex t) (fun rt => task_completed <$> rt_tasks rt !! t);;
      unlock (TaskMutex t)
  end.

(** [g_tracker.handles[i]] *)
Definition handle_at (i : Z) : program (option nat) :=
  read (fun rt => handles ← tr_handles (rt_tracker rt); if decide (0 <= i)%Z then handles !! Z.to_nat i else None).
Definition clear_handle (i : Z) : program unit :=
  update_tracker (fun t =>
    handles ← tr_handles t;
    if decide (0 <= i < Z.of_nat (length handles))%Z
    then Some (mkTracker (tr_in_flight t) (Some (<[Z.to_nat i := None]> handles)) (tr_count t) (tr_capacity t) (tr_initialized t))
    else None).

Definition spawn_task_destroy (t : option nat) : program unit :=
  match t with
  | None => mret tt
  | Some t =>
      initialized ← tracker tr_initialized;
      p_when initialized
        (n ← tracker tr_count;
         p_for 0 n (fun i =>
           h ← handle_at i;
           if decide (h = Some t) then clear_handle i;; mret true else mret false));;
      destroy_mutex (TaskMutex t);;
      destroy_cond (DoneCond t);;
      update (fun rt => _ ← rt_tasks rt !! t; Some (set_tasks rt (delete t (rt_tasks rt))))
  end.

(** [while ( g_tracker.tasks_in_flight > 0 )] wait. *)
Definition await_all_done : program unit :=
  lock TrackerMutex;;
  await AllDone TrackerMutex (fun rt => Some (bool_decide (tr_in_flight (rt_tracker rt) <= 0)%Z));;
  unlock TrackerMutex.

Definition wait_all : program unit :=
  initialized ← tracker tr_initialized;
  p_when initialized await_all_done.

(** * Channels *)

(** A sum or product of [size_t] and the number of bytes at an offset. *)
Definition write_bytes (off : Z) (cells buffer : list cell) : option (list cell) :=
  if decide (0 <= off /\ off + Z.of_nat (length cells) <= Z.of_nat (length buffer))%Z
  then Some (overwrite (Z.to_nat off) cells buffer) else None.

Definition chan {A} (c : nat) (f : BlangChan -> A) : program A := read (fun rt => f <$> rt_chans rt !! c).
Definition update_chan (c : nat) (f : BlangChan -> option BlangChan) : program unit :=
  update (fun rt => chans ← change c f (rt_chans rt); Some (set_chans rt chans)).

(** [( i + 1 ) % ch->capacity] *)
Definition next_slot (ch : BlangChan) (i : Z) : option Z :=
  if decide (ch_capacity ch = 0%Z) then None else Some (size_t (i + 1) mod ch_capacity ch)%Z.

(** [memcpy] of an element to the tail, and from the head. *)
Definition copy_in (data : list cell) (ch : BlangChan) : option BlangChan :=
  cells ← range 0 (ch_elem_size ch) data;
  buffer ← write_bytes (size_t (ch_tail ch * ch_elem_size ch)) cells (ch_buffer ch);
  Some (mkChan buffer (ch_elem_size ch) (ch_capacity ch) (ch_head ch) (ch_tail ch) (ch_count ch) (ch_closed ch)).
Definition copy_out (ch : BlangChan) : option (list cell) :=
  range (size_t (ch_head ch * ch_elem_size ch)) (ch_elem_size ch) (ch_buffer ch).

Definition advance_tail (ch : BlangChan) : option BlangChan :=
  tail ← next_slot ch (ch_tail ch);
  Some (mkChan (ch_buffer ch) (ch_elem_size ch) (ch_capacity ch) (ch_head ch) tail (ch_count ch) (ch_closed ch)).
Definition advance_head (ch : BlangChan) : option BlangChan :=
  head ← next_slot ch (ch_head ch);
  Some (mkChan (ch_buffer ch) (ch_elem_size ch) (ch_capacity ch) head (ch_tail ch) (ch_count ch) (ch_closed ch)).
Definition add_element (d : Z) (ch : BlangChan) : option BlangChan :=
  Some (mkChan (ch_buffer ch) (ch_elem_size ch) (ch_capacity ch) (ch_head ch) (ch_tail ch) (size_t (ch_count ch + d)) (ch_closed ch)).
Definition set_closed (ch : BlangChan) : option BlangChan :=
  Some (mkChan (ch_buffer ch) (ch_elem_size ch) (ch_capacity ch) (ch_head ch) (ch_tail ch) (ch_count ch) true).

(** The conditions of the waiting loops. *)
Definition is_full (ch : BlangChan) : bool := bool_decide (ch_count ch = ch_capacity ch).
Definition is_empty (ch : BlangChan) : bool := bool_decide (ch_count ch = 0%Z).

Definition chan_send (ch : option nat) (data : option (list cell)) : program unit :=
  match ch, data with
  | Some c, Some data =>
      lock (ChanMutex c);;
      await (NotFull c) (ChanMutex c) (fun rt => (fun ch => negb (is_full ch && negb (ch_closed ch))) <$> rt_chans rt !! c);;
      closed ← chan c ch_closed;
      if closed : bool then unlock (ChanMutex c)
      else
        update_chan c (copy_in data);;
        update_chan c advance_tail;;
        update_chan c (add_element 1);;
        signal (NotEmpty c);;
        unlock (ChanMutex c)
  | _, _ => mret tt
  end.

(** The element that was copied to [data_out], if that is not null, where 1 is
    returned. *)
Definition chan_recv (ch : option nat) (data_out : bool) : program (option (list cell)) :=
  match ch, data_out with
  | Some c, true =>
      lock (ChanMutex c);;
      await (NotEmpty c) (ChanMutex c) (fun rt => (fun ch => negb (is_empty ch && negb (ch_closed ch))) <$> rt_chans rt !! c);;
      done ← chan c (fun ch => is_empty ch && ch_closed ch);
      if done : bool then unlock (ChanMutex c);; mret None
      else
        data ← read (fun rt => ch ← rt_chans rt !! c; copy_out ch);
        update_chan c advance_head;;
        update_chan c (add_element (-1));;
        signal (NotFull c);;
        unlock (ChanMutex c);;
        mret (Some data)
  | _, _ => mret None
  end.

Definition chan_close (ch : option nat) : program unit :=
  match ch with
  | None => mret tt
  | Some c =>
      lock (ChanMutex c);;
      update_chan c set_closed;;
      broadcast (NotEmpty c);;
      broadcast (NotFull c);;
      unlock (ChanMutex c)
  end.

Definition chan_destroy (ch : option nat) : program unit :=
  match ch with
  | None => mret tt
  | Some c =>
      destroy_mutex (ChanMutex c);;
      destroy_cond (NotEmpty c);;
      destroy_cond (NotFull c);;
      update (fun rt => _ ← rt_chans rt !! c; Some (set_chans rt (delete c (rt_chans rt))))
  end.

Definition registry {A} (f : ChanRegistry -> A) : program A := read (fun rt => Some (f (rt_registry rt))).
Definition update_registry (f : ChanRegistry -> option ChanRegistry) : program unit :=
  update (fun rt => r ← f (rt_registry rt); Some (set_registry rt r)).

Definition put_chan (ch : BlangChan) (n : nat) rt : runtime := set_chans rt (<[n := ch]> (rt_chans rt)).

(** [__blang_calloc( capacity, elem_size )]; a product that is too large fails. *)
Definition calloc_buffer (capacity elem_size : Z) : program (list cell) :=
  ok ← choose;
  if ok && bool_decide (capacity * elem_size < 2 ^ 64)%Z
  then mret (replicate (Z.to_nat (capacity * elem_size)) (Some "000"%char)) else abort.

(** If the registry cannot grow, the channel is not registered. *)
Definition grow_registry : program unit :=
  full ← registry (fun r => bool_decide (reg_count r = reg_capacity r));
  p_when full
    (newcap ← read (fun rt => let cap := reg_capacity (rt_registry rt) in if decide (cap = 0%Z) then Some 16%Z else int_op (cap * 2));
     grown ← choose;
     p_when grown (update_registry (fun r => Some (mkRegistry (Some (resize (Z.to_nat newcap) None (default [] (reg_channels r)))) (reg_count r) newcap)))).

Definition register_chan (c : nat) : program unit :=
  room ← registry (fun r => bool_decide (reg_count r < reg_capacity r)%Z);
  p_when room
    (update_registry (fun r =>
       channels ← reg_channels r;
       n ← int_op (reg_count r + 1);
       if decide (0 <= reg_count r < Z.of_nat (length channels))%Z
       then Some (mkRegistry (Some (<[Z.to_nat (reg_count r) := Some c]> channels)) n (reg_capacity r)) else None)).

Definition chan_create (elem_size capacity : Z) : program nat :=
  let capacity := if decide (capacity = 0%Z) then 1%Z else capacity in
  let elem_size := if decide (elem_size = 0%Z) then 1%Z else elem_size in
  c ← blang_alloc (put_chan (mkChan [] elem_size capacity 0 0 0 false));
  buffer ← calloc_buffer capacity elem_size;
  update_chan c (fun ch => Some (mkChan buffer elem_size capacity 0 0 0 false));;
  init_mutex (ChanMutex c) false;;
  lock RegistryMutex;;
  grow_registry;;
  register_chan c;;
  unlock RegistryMutex;;
  mret c.

Definition chan_destroy_all : program unit :=
  lock RegistryMutex;;
  n ← registry reg_count;
  p_for 0 n (fun i =>
    c ← read (fun rt => channels ← reg_channels (rt_registry rt); channels !! Z.to_nat i);
    chan_destroy c;;
    update_registry (fun r => channels ← reg_channels r; Some (mkRegistry (Some (<[Z.to_nat i := None]> channels)) (reg_count r) (reg_capacity r)));;
    mret false);;
  update_registry (fun r => Some (mkRegistry None 0 0));;
  unlock RegistryMutex.

(** * Shutdown *)

(** The thread of a task is joined and the task freed, unless someone freed it before. *)
Definition join_handle (i : Z) : program bool :=
  h ← handle_at i;
  p_when (bool_decide (is_Some h))
    (th ← read (fun rt => h ← h; x ← rt_tasks rt !! h; task_thread x);
     join th;;
     spawn_task_destroy h);;
  mret false.

Definition runtime_shutdown : program unit :=
  initialized ← tracker tr_initialized;
  if negb initialized then chan_destroy_all
  else
    await_all_done;;
    n ← tracker tr_count;
    p_for 0 n join_handle;;
    update_tracker (fun t => Some (mkTracker (tr_in_flight t) None (tr_count t) (tr_capacity t) (tr_initialized t)));;
    chan_destroy_all;;
    destroy_mutex TrackerMutex;;
    destroy_cond AllDone;;
    update_tracker (fun t => Some (mkTracker (tr_in_flight t) None 0 0 false)).

(** * Asynchronous calls, where libuv is not there *)

Definition update_async (t : nat) (f : BlangTask -> BlangTask) : program unit :=
  update (fun rt => tasks ← change t (fun x => Some (f x)) (rt_async rt); Some (set_async rt tasks)).
Definition async {A} (t : nat) (f : BlangTask -> A) : program A := read (fun rt => f <$> rt_async rt !! t).

Definition async_thread_wrapper (t : nat) : program R :=
  fn ← async t async_fn;
  arg ← async t async_arg;
  result ← async_call_fn fn arg;
  update_async t (fun x => mkAsync (async_thread x) result (async_completed x) (async_fn x) (async_arg x));;
  update_async t (fun x => mkAsync (async_thread x) (async_result x) true (async_fn x) (async_arg x));;
  mret null.

(** The result of [calloc] is not looked at. *)
Definition async_call (fn : nat) (arg : option nat) : program nat :=
  allocated ← choose;
  t ← read (fun rt => if allocated : bool then Some (rt_next rt) else None);
  update (fun rt => Some (set_async (next_object rt) (<[t := mkAsync None None false fn arg]> (rt_async rt))));;
  th ← create (async_thread_wrapper t);
  update_async t (fun x => mkAsync (Some th) (async_result x) (async_completed x) (async_fn x) (async_arg x));;
  mret t.

Definition await_task (t : option nat) : program (option nat) :=
  match t with
  | None => mret None
  | Some t =>
      completed ← async t async_completed;
      p_when (negb completed) (th ← read (fun rt => x ← rt_async rt !! t; async_thread x); join th);;
      async t async_result
  end.

Definition task_destroy (t : option nat) : program unit :=
  match t with
  | None => mret tt
  | Some t => update (fun rt => _ ← rt_async rt !! t; Some (set_async rt (delete t (rt_async rt))))
  end.
End runtime.

(** * Runs of tasks

    And two in which the library does not do what its comments say. *)

Notation task_program := (prog runtime mutex_name cond_name unit).
Notation task_system := (system runtime mutex_name cond_name unit).

(** Function 0 uses its context; function 1 waits for the task that its context names. *)
Definition sample_fn (fn : nat) (ctx : option nat) : task_program unit :=
  match fn with
  | 0 => read (fun rt => match ctx with Some c => if decide (c ∈ rt_contexts rt) then Some tt else None | None => Some tt end)
  | _ => spawn_wait ctx
  end.
Definition no_runtime (contexts : gset nat) : runtime :=
  mkRuntime 100 ∅ ∅ contexts ∅ (mkTracker 0 None 0 0 false) ∅ (mkRegistry None 0 0) ∅.
Definition at_start (contexts : gset nat) (p : task_program unit) : task_system :=
  mkSystem (no_runtime contexts) {[RegistryMutex := mkMutex None false]} [Running p].

(** The threads take turns, each turn a step if the thread can take one. *)
Fixpoint turns (l : list nat) (s : task_system) : task_system :=
  match l with
  | [] => s
  | i :: l => match step_at i 0 s with Stepped s' => turns l s' | _ => turns l s end
  end.

Lemma turns_reachable l : forall s, reachable s (turns l s).
Proof.
  induction l as [|i l IH]; intros s; cbn; [apply rtc_refl|]. destruct (step_at i 0 s) as [| | |s'] eqn:E; [apply IH..|].
  eapply rtc_l; [|apply IH]. left. by exists i, 0.
Qed.

(** No thread of these can take a step. *)
Definition rests (t : thread runtime mutex_name cond_name unit) : bool :=
  match t with Running (Return _) | Sleeping _ _ _ | Joined => true | _ => false end.

Lemma all_rest (s : task_system) : forallb rests (threads s) = true -> stuck s.
Proof.
  intros H i pick. unfold step_at. destruct (threads s !! i) as [t|] eqn:E; [|done].
  rewrite forallb_forall in H. assert (rests t = true) as Ht by (apply H, list_elem_of_In; by eapply list_elem_of_lookup_2).
  destruct t as [p| | |]; try done. by destruct p.
Qed.

Definition sleeps (t : thread runtime mutex_name cond_name unit) : option cond_name :=
  match t with Sleeping c _ _ => Some c | _ => None end.

(** Two tasks that use their contexts, waited for and shut down: nothing is left. *)
Definition two_tasks : task_program unit :=
  t ← spawn tt sample_fn 0 (Some 1);
  u ← spawn tt sample_fn 0 (Some 2);
  spawn_wait (Some u);; wait_all;; spawn_task_destroy (Some t);; runtime_shutdown.
Definition tasks_turns : list nat := concat (replicate 30 [0; 0; 0; 1; 0; 2; 0; 2; 1]).

Example tasks_shut_down :
  (fun s => (forallb rests (threads s), map_to_list (rt_tasks (shared s)), elements (rt_contexts (shared s)),
             tr_initialized (rt_tracker (shared s))))
    (turns tasks_turns (at_start {[1; 2]} two_tasks)) = (true, [], [], false).
Proof. vm_compute. reflexivity. Qed.

(** The task that was freed before the shutdown is never joined: its thread has ended and
    is still there, where the other was joined. *)
Example waited_task_not_joined :
  match threads (turns tasks_turns (at_start {[1; 2]} two_tasks)) with [_; Running (Return _); Joined] => True | _ => False end.
Proof. vm_compute. exact I. Qed.

(** Two threads wait for one task. Its end wakes one of them, as it is signalled and not
    broadcast: the other sleeps for ever, and with it the shutdown. *)
Definition two_waiters : task_program unit :=
  t ← spawn tt sample_fn 0 None;
  u ← spawn tt sample_fn 1 (Some t);
  spawn_wait (Some t);; runtime_shutdown.
Definition waiters_turns : list nat := replicate 100 0 ++ replicate 10 2 ++ replicate 50 1 ++ concat (replicate 50 [2; 0; 1]).

Lemma second_waiter_hangs :
  exists s, reachable (at_start ∅ two_waiters) s /\ stuck s /\
    task_completed <$> rt_tasks (shared s) !! 100 = Some true /\
    map sleeps (threads s) = [Some AllDone; None; Some (DoneCond 100)].
Proof.
  exists (turns waiters_turns (at_start ∅ two_waiters)). split; [apply turns_reachable|].
  split; [apply all_rest; vm_compute; reflexivity|].
  split; vm_compute; reflexivity.
Qed.

(** If there is no memory for the table of handles, the first task is written to a null
    pointer; nothing reports it. *)
Lemma handle_table_unchecked :
  run_schedule ([(0, 0); (0, 0); (0, 0); (0, 1)] ++ replicate 10 (0, 0)) (at_start ∅ two_waiters) = Fault.
Proof. vm_compute. reflexivity. Qed.
