(* ===== verification/ChannelTheorems.v ===== *)
(** Channels refine queues: whatever the threads that send, receive and close do, and
    however they are interleaved, they get what they would get from queues whose
    operations are indivisible, and they wait for ever only where those would. *)

From stdpp Require Import relations.
From S2P Require Import Prelude RuntimeMemory Threads RuntimeThreads.

(** * The ring buffer of a channel *)

(** A channel that holds these elements, the oldest first. *)
Record ring (ch : BlangChan) (items : list (list cell)) : Prop := mkRing {
  ring_size : (0 < ch_elem_size ch)%Z;
  ring_cap : (0 < ch_capacity ch)%Z;
  ring_bytes : (ch_capacity ch * ch_elem_size ch < 2 ^ 64)%Z;
  ring_length : Z.of_nat (length (ch_buffer ch)) = (ch_capacity ch * ch_elem_size ch)%Z;
  ring_head : (0 <= ch_head ch < ch_capacity ch)%Z;
  ring_count : ch_count ch = Z.of_nat (length items);
  ring_room : (Z.of_nat (length items) <= ch_capacity ch)%Z;
  ring_tail : ch_tail ch = ((ch_head ch + ch_count ch) mod ch_capacity ch)%Z;
  ring_slots j x : items !! j = Some x ->
    range ((ch_head ch + Z.of_nat j) mod ch_capacity ch * ch_elem_size ch) (ch_elem_size ch) (ch_buffer ch) = Some x
}.


(** A slot is inside the buffer, and its offset does not wrap around. *)
Lemma slot_bounds ch items i :
  ring ch items -> (0 <= i < ch_capacity ch)%Z ->
  (0 <= i * ch_elem_size ch /\ i * ch_elem_size ch + ch_elem_size ch <= ch_capacity ch * ch_elem_size ch)%Z /\
  size_t (i * ch_elem_size ch) = (i * ch_elem_size ch)%Z.
Proof.
  intros Hr Hi. pose proof (ring_size _ _ Hr). pose proof (ring_bytes _ _ Hr).
  assert (0 <= i * ch_elem_size ch /\ i * ch_elem_size ch + ch_elem_size ch <= ch_capacity ch * ch_elem_size ch)%Z as Hb by nia.
  split; [done|]. apply size_t_small. lia.
Qed.

Lemma next_slot_spec ch items i :
  ring ch items -> (0 <= i < ch_capacity ch)%Z -> next_slot ch i = Some ((i + 1) mod ch_capacity ch)%Z.
Proof.
  intros Hr Hi. pose proof (ring_size _ _ Hr). pose proof (ring_bytes _ _ Hr). pose proof (ring_cap _ _ Hr).
  unfold next_slot. rewrite decide_False by lia. rewrite size_t_small by nia. done.
Qed.

(** What is written to one slot does not change another. *)
Lemma range_overwrite_same off new old :
  (0 <= off)%Z -> (off + Z.of_nat (length new) <= Z.of_nat (length old))%Z ->
  range off (Z.of_nat (length new)) (overwrite (Z.to_nat off) new old) = Some new.
Proof.
  intros H0 H1. rewrite range_spec by (try lia; rewrite length_overwrite; lia). f_equal. unfold overwrite.
  rewrite drop_app_length' by (rewrite length_take; lia). by rewrite take_app_length' by lia.
Qed.

Lemma range_overwrite_other off off' n new old :
  (0 <= off)%Z -> (0 <= off')%Z -> (0 <= n)%Z -> (off + Z.of_nat (length new) <= Z.of_nat (length old))%Z ->
  (off' + n <= Z.of_nat (length old))%Z -> (off' + n <= off \/ off + Z.of_nat (length new) <= off')%Z ->
  range off' n (overwrite (Z.to_nat off) new old) = range off' n old.
Proof.
  intros H0 H1 Hn H2 H3 Hd. assert (length (overwrite (Z.to_nat off) new old) = length old) as Hl by (apply length_overwrite; lia).
  rewrite !range_spec by lia. f_equal. apply list_eq. intros j. 
  destruct (decide (j < Z.to_nat n)) as [Hj|Hj]; [|by rewrite !lookup_take_ge by lia].
  rewrite !lookup_take_lt, !lookup_drop by done. unfold overwrite. destruct Hd as [Hd|Hd].
  - rewrite lookup_app_l by (rewrite length_take; lia). by rewrite lookup_take_lt by lia.
  - rewrite lookup_app_r by (rewrite length_take; lia). rewrite lookup_app_r by (rewrite length_take; lia).
    rewrite lookup_drop. f_equal. rewrite length_take. lia.
Qed.

(** Two positions less than the capacity apart are different slots. *)
Lemma slots_apart cap i j : (0 < cap)%Z -> (0 <= i < j)%Z -> (j - i < cap)%Z -> (i mod cap <> j mod cap)%Z.
Proof.
  intros Hc Hij Hd He. assert (((j - i) mod cap)%Z = 0%Z) as Hz by (rewrite Zminus_mod, He, Z.sub_diag; apply Zmod_0_l).
  rewrite Z.mod_small in Hz by lia. lia.
Qed.

(** The three accesses of a sender put an element behind the others. *)
Lemma ring_push ch items data :
  ring ch items -> (Z.of_nat (length items) < ch_capacity ch)%Z -> (ch_elem_size ch <= Z.of_nat (length data))%Z ->
  exists ch1 ch2, copy_in data ch = Some ch1 /\ advance_tail ch1 = Some ch2 /\
    exists ch3, add_element 1 ch2 = Some ch3 /\ ring ch3 (items ++ [take (Z.to_nat (ch_elem_size ch)) data]) /\
      ch_closed ch3 = ch_closed ch /\ ch_capacity ch3 = ch_capacity ch /\ ch_elem_size ch3 = ch_elem_size ch.
Proof.
  intros Hr Hroom Hdata. pose proof (ring_size _ _ Hr) as Hs. pose proof (ring_cap _ _ Hr) as Hc.
  pose proof (ring_bytes _ _ Hr) as Hb. pose proof (ring_length _ _ Hr) as Hl. pose proof (ring_count _ _ Hr) as Hn.
  pose proof (ring_head _ _ Hr) as Hh.
  assert (0 <= ch_tail ch < ch_capacity ch)%Z as Ht by (rewrite (ring_tail _ _ Hr); apply Z.mod_pos_bound; lia).
  destruct (slot_bounds _ _ _ Hr Ht) as [Hslot Hoff]. set (x := take (Z.to_nat (ch_elem_size ch)) data).
  assert (Z.of_nat (length x) = ch_elem_size ch) as Hx by (unfold x; rewrite length_take; lia).
  assert (range 0 (ch_elem_size ch) data = Some x) as Hread by (rewrite range_spec by lia; by rewrite drop_0).
  clearbody x. eexists _, _. split.
  { unfold copy_in. rewrite Hread. cbn [mbind option_bind]. unfold write_bytes.
    rewrite Hoff, decide_True by lia. cbn [mbind option_bind]. reflexivity. }
  split.
  { unfold advance_tail, next_slot. cbn [ch_capacity ch_tail]. rewrite decide_False by lia.
    rewrite size_t_small by nia. cbn [mbind option_bind]. reflexivity. }
  eexists. split; [reflexivity|]. split; [|done].
  assert (size_t (ch_count ch + 1) = Z.of_nat (length items) + 1)%Z as Hsz by (rewrite size_t_small by nia; lia).
  constructor; cbn [ch_buffer ch_elem_size ch_capacity ch_head ch_tail ch_count]; try done.
  - by rewrite length_overwrite by lia.
  - rewrite length_app. cbn [length]. lia.
  - rewrite length_app. cbn [length]. lia.
  - rewrite (ring_tail _ _ Hr), Hsz, Hn, Z.add_mod_idemp_l by lia. f_equal. lia.
  - intros j y Hj. destruct (decide (j < length items)) as [Hlt|Hge].
    + rewrite lookup_app_l in Hj by done. assert (0 <= (ch_head ch + Z.of_nat j) mod ch_capacity ch < ch_capacity ch)%Z as Hm by (apply Z.mod_pos_bound; lia).
      destruct (slot_bounds _ _ _ Hr Hm) as [Hslot' _].
      rewrite range_overwrite_other by (try lia; rewrite Hx;
        assert ((ch_head ch + Z.of_nat j) mod ch_capacity ch <> ch_tail ch)%Z by (rewrite (ring_tail _ _ Hr), Hn; apply slots_apart; lia); nia).
      by apply (ring_slots _ _ Hr).
    + apply lookup_lt_Some in Hj as Hlen. rewrite length_app in Hlen. cbn [length] in Hlen. assert (j = length items) as -> by lia.
      rewrite lookup_app_r, Nat.sub_diag in Hj by lia. cbn in Hj. simplify_eq. rewrite <-Hn, <-(ring_tail _ _ Hr).
      rewrite <-Hx at 2. apply range_overwrite_same; lia.
Qed.

(** The three accesses of a receiver take the oldest element away. *)
Lemma ring_pop ch x items :
  ring ch (x :: items) ->
  copy_out ch = Some x /\ exists ch1, advance_head ch = Some ch1 /\
    exists ch2, add_element (-1) ch1 = Some ch2 /\ ring ch2 items /\
      ch_closed ch2 = ch_closed ch /\ ch_capacity ch2 = ch_capacity ch /\ ch_elem_size ch2 = ch_elem_size ch.
Proof.
  intros Hr. pose proof (ring_size _ _ Hr) as Hs. pose proof (ring_cap _ _ Hr) as Hc.
  pose proof (ring_bytes _ _ Hr) as Hb. pose proof (ring_count _ _ Hr) as Hn. pose proof (ring_head _ _ Hr) as Hh.
  pose proof (ring_room _ _ Hr) as Hroom. cbn [length] in Hn, Hroom.
  destruct (slot_bounds _ _ _ Hr Hh) as [Hslot Hoff]. split.
  { unfold copy_out. rewrite Hoff. pose proof (ring_slots _ _ Hr 0 x eq_refl) as H0. rewrite Z.add_0_r, Z.mod_small in H0 by done. done. }
  unfold advance_head. rewrite (next_slot_spec _ _ _ Hr Hh). cbn [mbind option_bind]. eexists. split; [reflexivity|].
  eexists. split; [reflexivity|]. split; [|done].
  assert (size_t (ch_count ch + -1) = Z.of_nat (length items))%Z as Hsz by (rewrite size_t_small by nia; lia).
  constructor; cbn [ch_buffer ch_elem_size ch_capacity ch_head ch_tail ch_count]; try done.
  - by apply ring_length in Hr.
  - apply Z.mod_pos_bound. lia.
  - lia.
  - rewrite (ring_tail _ _ Hr), Hsz, Hn, Z.add_mod_idemp_l by lia. f_equal. lia.
  - intros j y Hj. rewrite Z.add_mod_idemp_l by lia. replace (ch_head ch + 1 + Z.of_nat j)%Z with (ch_head ch + Z.of_nat (S j))%Z by lia.
    by apply (ring_slots _ _ Hr).
Qed.

(** * What threads do with channels, and queues as they should find them *)

Record queue := mkQueue { q_items : list (list cell); q_size : Z; q_room : nat; q_closed : bool }.

Definition q_push (q : queue) (x : list cell) : queue := mkQueue (q_items q ++ [x]) (q_size q) (q_room q) (q_closed q).
Definition q_pop (q : queue) (rest : list (list cell)) : queue := mkQueue rest (q_size q) (q_room q) (q_closed q).
Definition q_close (q : queue) : queue := mkQueue (q_items q) (q_size q) (q_room q) true.

Section channels.
Context {R : Type}.
#[local] Notation program := (prog runtime mutex_name cond_name R).
#[local] Notation sys := (system runtime mutex_name cond_name R).

(** A thread sends, receives and closes; what it does next may depend on what it
    received. *)
Inductive client :=
  | Finish (r : R)
  | Send (c : nat) (data : list cell) (k : client)
  | Recv (c : nat) (k : option (list cell) -> client)
  | Close (c : nat) (k : client).

Fixpoint code (cl : client) : program R :=
  match cl with
  | Finish r => Return r
  | Send c data k => chan_send (Some c) (Some data);; code k
  | Recv c k => x ← chan_recv (Some c) true; code (k x)
  | Close c k => chan_close (Some c);; code k
  end.

(** It uses channels that are there, and sends as many bytes as an element has. *)
Fixpoint client_ok (size : gmap nat Z) (cl : client) : Prop :=
  match cl with
  | Finish _ => True
  | Send c data k => (exists n, size !! c = Some n /\ (n <= Z.of_nat (length data))%Z) /\ client_ok size k
  | Recv c k => is_Some (size !! c) /\ forall x, client_ok size (k x)
  | Close c k => is_Some (size !! c) /\ client_ok size k
  end.

(** Queues and the threads that use them, each operation one step: a sender waits while
    its queue is full and not closed, a receiver while it is empty and not closed, and
    what is sent on a closed queue is dropped. *)
Record spec := mkSpec { queues : gmap nat queue; clients : list client }.

Inductive spec_step : spec -> spec -> Prop :=
  | spec_send i c data k q a :
      clients a !! i = Some (Send c data k) -> queues a !! c = Some q ->
      q_closed q = false -> length (q_items q) < q_room q ->
      spec_step a (mkSpec (<[c := q_push q (take (Z.to_nat (q_size q)) data)]> (queues a)) (<[i := k]> (clients a)))
  | spec_drop i c data k q a :
      clients a !! i = Some (Send c data k) -> queues a !! c = Some q -> q_closed q = true ->
      spec_step a (mkSpec (queues a) (<[i := k]> (clients a)))
  | spec_recv i c k q x rest a :
      clients a !! i = Some (Recv c k) -> queues a !! c = Some q -> q_items q = x :: rest ->
      spec_step a (mkSpec (<[c := q_pop q rest]> (queues a)) (<[i := k (Some x)]> (clients a)))
  | spec_end i c k q a :
      clients a !! i = Some (Recv c k) -> queues a !! c = Some q -> q_items q = [] -> q_closed q = true ->
      spec_step a (mkSpec (queues a) (<[i := k None]> (clients a)))
  | spec_close i c k q a :
      clients a !! i = Some (Close c k) -> queues a !! c = Some q ->
      spec_step a (mkSpec (<[c := q_close q]> (queues a)) (<[i := k]> (clients a))).

(** * Where a thread is *)

Inductive send_stage := STest | SCheck | SCopy | STail | SCount | SSignal | SUnlock.
Inductive recv_stage :=
  | RTest | RCheck | RCopy | RHead (x : list cell) | RCount (x : list cell) | RSignal (x : list cell)
  | RUnlock (x : option (list cell)).
Inductive close_stage := CSet | CWakeEmpty | CWakeFull | CUnlock.

(** What is left of a call. *)
Definition send_at (c : nat) (data : list cell) (st : send_stage) : program unit :=
  let unlock_ := unlock (ChanMutex c) in
  let signal_ := signal (NotEmpty c);; unlock_ in
  let count_ := update_chan c (add_element 1);; signal_ in
  let tail_ := update_chan c advance_tail;; count_ in
  let copy_ := update_chan c (copy_in data);; tail_ in
  let check_ := closed ← chan c ch_closed; if closed : bool then unlock_ else copy_ in
  let test_ := await (NotFull c) (ChanMutex c)
    (fun rt => (fun ch => negb (is_full ch && negb (ch_closed ch))) <$> rt_chans rt !! c);; check_ in
  match st with
  | STest => test_ | SCheck => check_ | SCopy => copy_ | STail => tail_ | SCount => count_ | SSignal => signal_ | SUnlock => unlock_
  end.

Definition recv_at (c : nat) (st : recv_stage) : program (option (list cell)) :=
  let unlock_ x := unlock (ChanMutex c);; mret x in
  let signal_ x := signal (NotFull c);; unlock_ (Some x) in
  let count_ x := update_chan c (add_element (-1));; signal_ x in
  let head_ x := update_chan c advance_head;; count_ x in
  let copy_ := data ← read (fun rt => ch ← rt_chans rt !! c; copy_out ch); head_ data in
  let check_ := done ← chan c (fun ch => is_empty ch && ch_closed ch); if done : bool then unlock_ None else copy_ in
  let test_ := await (NotEmpty c) (ChanMutex c)
    (fun rt => (fun ch => negb (is_empty ch && negb (ch_closed ch))) <$> rt_chans rt !! c);; check_ in
  match st with
  | RTest => test_ | RCheck => check_ | RCopy => copy_ | RHead x => head_ x | RCount x => count_ x
  | RSignal x => signal_ x | RUnlock x => unlock_ x
  end.

Definition close_at (c : nat) (st : close_stage) : program unit :=
  let unlock_ := unlock (ChanMutex c) in
  let full_ := broadcast (NotFull c);; unlock_ in
  let empty_ := broadcast (NotEmpty c);; full_ in
  match st with CSet => update_chan c set_closed;; empty_ | CWakeEmpty => empty_ | CWakeFull => full_ | CUnlock => unlock_ end.

Inductive phase :=
  | Idle (cl : client)
  | Sending (c : nat) (data : list cell) (k : client) (st : send_stage)
  | SendAsleep (c : nat) (data : list cell) (k : client)
  | SendWoken (c : nat) (data : list cell) (k : client)
  | Receiving (c : nat) (k : option (list cell) -> client) (st : recv_stage)
  | RecvAsleep (c : nat) (k : option (list cell) -> client)
  | RecvWoken (c : nat) (k : option (list cell) -> client)
  | Closing (c : nat) (k : client) (st : close_stage).

Definition send_prog c data k st : program R := send_at c data st;; code k.
Definition recv_prog c k st : program R := x ← recv_at c st; code (k x).
Definition close_prog c k st : program R := close_at c st;; code k.

Definition thread_of (ph : phase) : thread runtime mutex_name cond_name R :=
  match ph with
  | Idle cl => Running (code cl)
  | Sending c data k st => Running (send_prog c data k st)
  | SendAsleep c data k => Sleeping (NotFull c) (ChanMutex c) (send_prog c data k STest)
  | SendWoken c data k => Waking (ChanMutex c) (send_prog c data k STest)
  | Receiving c k st => Running (recv_prog c k st)
  | RecvAsleep c k => Sleeping (NotEmpty c) (ChanMutex c) (recv_prog c k RTest)
  | RecvWoken c k => Waking (ChanMutex c) (recv_prog c k RTest)
  | Closing c k st => Running (close_prog c k st)
  end.

(** What the thread still has to do in the specification: an operation counts as done
    once its element is counted, or once it is seen that the channel is closed. *)
Definition client_of (ph : phase) : client :=
  match ph with
  | Idle cl => cl
  | Sending c data k (SSignal | SUnlock) => k
  | Sending c data k _ | SendAsleep c data k | SendWoken c data k => Send c data k
  | Receiving c k (RSignal x) => k (Some x)
  | Receiving c k (RUnlock x) => k x
  | Receiving c k _ | RecvAsleep c k | RecvWoken c k => Recv c k
  | Closing c k CSet => Close c k
  | Closing c k _ => k
  end.

Definition held_of (ph : phase) : option nat :=
  match ph with Sending c _ _ _ | Receiving c _ _ | Closing c _ _ => Some c | _ => None end.

Definition chan_of (ph : phase) : option nat :=
  match ph with
  | Idle _ => None
  | Sending c _ _ _ | SendAsleep c _ _ | SendWoken c _ _ | Receiving c _ _ | RecvAsleep c _ | RecvWoken c _ | Closing c _ _ => Some c
  end.

Lemma code_send c data k : code (Send c data k) = Lock (ChanMutex c) (send_prog c data k STest).
Proof. done. Qed.
Lemma code_recv c k : code (Recv c k) = Lock (ChanMutex c) (recv_prog c k RTest).
Proof. done. Qed.
Lemma code_close c k : code (Close c k) = Lock (ChanMutex c) (close_prog c k CSet).
Proof. done. Qed.

(** * What holds of a channel *)

Definition chan_ok (ch : BlangChan) (q : queue) : Prop :=
  ring ch (q_items q) /\ ch_closed ch = q_closed q /\ ch_capacity ch = Z.of_nat (q_room q) /\ ch_elem_size ch = q_size q.

(** While a thread is in the middle of a call, the channel is what the accesses made so
    far have made of a good one. *)
Definition stage_ok (ph : phase) (ch : BlangChan) (q : queue) : Prop :=
  match ph with
  | Sending c data k st =>
      match st with
      | STest | SSignal | SUnlock => chan_ok ch q
      | SCheck => chan_ok ch q /\ (q_closed q = false -> length (q_items q) < q_room q)
      | SCopy => chan_ok ch q /\ q_closed q = false /\ length (q_items q) < q_room q
      | STail => q_closed q = false /\ length (q_items q) < q_room q /\ exists ch0, chan_ok ch0 q /\ copy_in data ch0 = Some ch
      | SCount => q_closed q = false /\ length (q_items q) < q_room q /\
          exists ch0 ch1, chan_ok ch0 q /\ copy_in data ch0 = Some ch1 /\ advance_tail ch1 = Some ch
      end
  | Receiving c k st =>
      match st with
      | RTest | RSignal _ | RUnlock _ => chan_ok ch q
      | RCheck => chan_ok ch q /\ (q_items q = [] -> q_closed q = true)
      | RCopy => chan_ok ch q /\ q_items q <> []
      | RHead x => chan_ok ch q /\ exists rest, q_items q = x :: rest
      | RCount x => exists rest, q_items q = x :: rest /\ exists ch0, chan_ok ch0 q /\ advance_head ch0 = Some ch
      end
  | Closing c k CSet => chan_ok ch q
  | Closing c k _ => chan_ok ch q /\ q_closed q = true
  | _ => False
  end.

(** What a thread counts for: one that sleeps, one that will take or put an element or
    wake who will, one that closes and has not woken everybody yet. *)
Inductive kind := RecvSleeps | SendSleeps | WillTake | WillPut | WakesEmpty | WakesFull.

Definition counts_for (k : kind) (ph : phase) : nat :=
  match k, ph with
  | RecvSleeps, RecvAsleep _ _ => 1
  | SendSleeps, SendAsleep _ _ _ => 1
  | WillTake, (RecvWoken _ _ | Receiving _ _ (RTest | RCheck | RCopy | RHead _ | RCount _) | Sending _ _ _ SSignal) => 1
  | WillPut, (SendWoken _ _ _ | Sending _ _ _ (STest | SCheck | SCopy | STail | SCount) | Receiving _ _ (RSignal _)) => 1
  | WakesEmpty, Closing _ _ CWakeEmpty => 1
  | WakesFull, Closing _ _ (CWakeEmpty | CWakeFull) => 1
  | _, _ => 0
  end.

Definition weight (c : nat) (k : kind) (ph : phase) : nat := if decide (chan_of ph = Some c) then counts_for k ph else 0.
Definition total (c : nat) (k : kind) (phs : list phase) : nat := sum_list_with (weight c k) phs.

(** Nobody sleeps without a reason: while a receiver sleeps, every element has a thread
    that will take it, and the queue is open or about to wake him; and so for senders
    and the room that is left. *)
Definition wake_inv (t : kind -> nat) (q : queue) : Prop :=
  (0 < t RecvSleeps -> (q_closed q = false /\ length (q_items q) <= t WillTake) \/ 0 < t WakesEmpty) /\
  (0 < t SendSleeps -> (q_closed q = false /\ q_room q <= length (q_items q) + t WillPut) \/ 0 < t WakesFull).

Record chan_inv (s : sys) (phs : list phase) (c : nat) (q : queue) (ch : BlangChan) (h : option nat) : Prop := mkInv {
  ci_chan : rt_chans (shared s) !! c = Some ch;
  ci_mutex : mutexes s !! ChanMutex c = Some (mkMutex ((fun i => (i, 1)) <$> h) false);
  ci_held i ph : phs !! i = Some ph -> held_of ph = Some c <-> h = Some i;
  ci_stage : match h with None => chan_ok ch q | Some i => exists ph, phs !! i = Some ph /\ stage_ok ph ch q end;
  ci_wake : wake_inv (fun k => total c k phs) q
}.

Record inv (size : gmap nat Z) (s : sys) (a : spec) (phs : list phase) : Prop := mkSim {
  sim_threads : threads s = map thread_of phs;
  sim_clients : clients a = map client_of phs;
  sim_sizes : q_size <$> queues a = size;
  sim_ok i ph : phs !! i = Some ph -> client_ok size (client_of ph);
  sim_there i ph c : phs !! i = Some ph -> chan_of ph = Some c -> is_Some (queues a !! c);
  sim_chans c q : queues a !! c = Some q -> exists ch h, chan_inv s phs c q ch h
}.

(** Waking a thread. *)
Definition wake_phase (ph : phase) : phase :=
  match ph with SendAsleep c data k => SendWoken c data k | RecvAsleep c k => RecvWoken c k | ph => ph end.

Definition woke (c : nat) (phs phs' : list phase) : Prop :=
  Forall2 (fun a b => b = a \/ (chan_of a = Some c /\ b = wake_phase a)) phs phs'.

Lemma thread_of_wake ph : thread_of (wake_phase ph) = woken (thread_of ph).
Proof. by destruct ph. Qed.
Lemma client_of_wake ph : client_of (wake_phase ph) = client_of ph.
Proof. by destruct ph. Qed.
Lemma held_of_wake ph : held_of (wake_phase ph) = held_of ph.
Proof. by destruct ph. Qed.
Lemma chan_of_wake ph : chan_of (wake_phase ph) = chan_of ph.
Proof. by destruct ph. Qed.

Lemma woke_refl c phs : woke c phs phs.
Proof. apply Forall2_same_length_lookup_2; [done|]. intros i x y Hx Hy. simplify_eq. by left. Qed.

Lemma woke_clients c phs phs' : woke c phs phs' -> map client_of phs' = map client_of phs.
Proof. induction 1 as [|x y l l' [->|[_ ->]] _ IH]; cbn; f_equal; auto using client_of_wake. Qed.

Lemma woke_total c c' k phs phs' : woke c phs phs' -> c <> c' -> total c' k phs' = total c' k phs.
Proof.
  intros Hw Hc. unfold total. induction Hw as [|x y l l' [->|[Hx ->]] _ IH]; cbn; [done|congruence|].
  rewrite IH. f_equal. unfold weight. rewrite chan_of_wake. by rewrite !decide_False by congruence.
Qed.

Lemma woke_lookup c phs phs' i ph' :
  woke c phs phs' -> phs' !! i = Some ph' -> exists ph, phs !! i = Some ph /\ held_of ph' = held_of ph /\
    client_of ph' = client_of ph /\ chan_of ph' = chan_of ph.
Proof.
  intros Hw Hi. destruct (Forall2_lookup_r _ _ _ _ _ Hw Hi) as (ph & Hp & [->|[_ ->]]); exists ph; [done|].
  by rewrite held_of_wake, client_of_wake, chan_of_wake.
Qed.

Lemma total_insert c k phs i ph ph' :
  phs !! i = Some ph -> total c k (<[i := ph']> phs) + weight c k ph = total c k phs + weight c k ph'.
Proof. apply sum_insert. Qed.

Lemma total_pos c k phs : 0 < total c k phs -> exists i ph, phs !! i = Some ph /\ chan_of ph = Some c /\ 0 < counts_for k ph.
Proof.
  unfold total. induction phs as [|x phs IH]; cbn; [lia|]. intros H. destruct (decide (0 < weight c k x)) as [Hx|Hx].
  - unfold weight in Hx. case_decide; [by exists 0, x|lia].
  - destruct IH as (i & ph & Hi); [lia|]. by exists (S i), ph.
Qed.

Lemma total_ge c k phs i ph : phs !! i = Some ph -> weight c k ph <= total c k phs.
Proof. apply sum_ge. Qed.

Lemma total_zero c k phs :
  (forall i ph, phs !! i = Some ph -> chan_of ph = Some c -> counts_for k ph = 0) -> total c k phs = 0.
Proof.
  intros H. destruct (decide (0 < total c k phs)) as [Hp|]; [|lia].
  destruct (total_pos _ _ _ Hp) as (i & ph & Hi & Hc & Hk). specialize (H i ph Hi Hc). lia.
Qed.

(** ** A thread moves

    Thread [i] goes on from [ph] to [ph'] at the channel [c], which it holds or takes;
    others that sleep on the channel may be woken. *)
Lemma inv_move size s s' a a' phs phs1 i ph ph' c q q' ch ch' h :
  inv size s a phs -> phs1 !! i = Some ph -> woke c phs phs1 ->
  queues a !! c = Some q -> chan_inv s phs c q ch h -> h = None \/ h = Some i ->
  chan_of ph = None \/ chan_of ph = Some c -> chan_of ph' = None \/ chan_of ph' = Some c ->
  threads s' = map thread_of (<[i := ph']> phs1) ->
  mutexes s' = <[ChanMutex c := mkMutex ((fun i => (i, 1)) <$> ((fun _ => i) <$> held_of ph')) false]> (mutexes s) ->
  rt_chans (shared s') = <[c := ch']> (rt_chans (shared s)) ->
  clients a' = <[i := client_of ph']> (clients a) -> queues a' = <[c := q']> (queues a) ->
  q_size q' = q_size q -> client_ok size (client_of ph') ->
  (if held_of ph' then stage_ok ph' ch' q' else chan_ok ch' q') ->
  wake_inv (fun k => total c k (<[i := ph']> phs1)) q' ->
  inv size s' a' (<[i := ph']> phs1).
Proof.
  intros Hinv Hi Hw Hq Hci Hh Hc Hc' Ht Hm Hs Hcl Hqs Hsz Hok Hst Hwk.
  apply lookup_lt_Some in Hi as Hlen.
  assert (held_of ph' = None \/ held_of ph' = Some c) as Hhc by (destruct ph'; cbn in *; destruct Hc'; simplify_eq; auto).
  constructor; [done| | | | |].
  - by rewrite Hcl, (sim_clients _ _ _ _ Hinv), map_insert, (woke_clients _ _ _ Hw).
  - rewrite Hqs, fmap_insert, Hsz, <-(sim_sizes _ _ _ _ Hinv). apply insert_id. by rewrite lookup_fmap, Hq.
  - intros j phj Hj. destruct (decide (i = j)) as [<-|Hne].
    + rewrite list_lookup_insert_eq in Hj by done. by simplify_eq.
    + rewrite list_lookup_insert_ne in Hj by done. destruct (woke_lookup _ _ _ _ _ Hw Hj) as (p & Hp & _ & -> & _).
      by apply (sim_ok _ _ _ _ Hinv j).
  - intros j phj c' Hj Hcj. rewrite Hqs. destruct (decide (i = j)) as [<-|Hne].
    + rewrite list_lookup_insert_eq in Hj by done. simplify_eq. destruct Hc' as [Hc'|Hc']; rewrite Hc' in Hcj; [done|].
      simplify_eq. rewrite lookup_insert_eq. by eexists.
    + rewrite list_lookup_insert_ne in Hj by done. destruct (woke_lookup _ _ _ _ _ Hw Hj) as (p & Hp & _ & _ & Hcp).
      rewrite Hcp in Hcj. pose proof (sim_there _ _ _ _ Hinv _ _ _ Hp Hcj). destruct (decide (c = c')) as [<-|];
        [rewrite lookup_insert_eq; by eexists|by rewrite lookup_insert_ne].
  - intros c' qc Hqc. rewrite Hqs in Hqc. destruct (decide (c = c')) as [<-|Hne].
    + rewrite lookup_insert_eq in Hqc. simplify_eq. exists ch', ((fun _ => i) <$> held_of ph').
      constructor; [by rewrite Hs, lookup_insert_eq|by rewrite Hm, lookup_insert_eq| | |done].
      * intros j phj Hj. destruct (decide (i = j)) as [<-|Hnj].
        -- rewrite list_lookup_insert_eq in Hj by done. simplify_eq. destruct Hhc as [-> | ->]; cbn; by split.
        -- rewrite list_lookup_insert_ne in Hj by done. destruct (woke_lookup _ _ _ _ _ Hw Hj) as (p & Hp & -> & _ & _).
           rewrite (ci_held _ _ _ _ _ _ Hci j p Hp). destruct Hh as [-> | ->], (held_of ph'); cbn; split; intros; simplify_eq.
      * destruct (held_of ph'); cbn; [|done]. exists ph'. split; [by rewrite list_lookup_insert_eq|done].
    + rewrite lookup_insert_ne in Hqc by done. destruct (sim_chans _ _ _ _ Hinv _ _ Hqc) as (ch2 & h2 & Hci2).
      exists ch2, h2. destruct Hci2 as [H1 H2 H3 H4 H5]. destruct (woke_lookup _ _ _ _ _ Hw Hi) as (p0 & Hp0 & Hh0 & _ & _).
      assert (held_of ph <> Some c') as Hph by (destruct ph; cbn in *; destruct Hc; congruence).
      assert (held_of ph' <> Some c') as Hph' by (destruct Hhc as [-> | ->]; congruence).
      constructor.
      * by rewrite Hs, lookup_insert_ne.
      * rewrite Hm, lookup_insert_ne by congruence. done.
      * intros j phj Hj. destruct (decide (i = j)) as [<-|Hnj].
        -- rewrite list_lookup_insert_eq in Hj by done. simplify_eq. pose proof (H3 i p0 Hp0). rewrite <-Hh0 in *. tauto.
        -- rewrite list_lookup_insert_ne in Hj by done. destruct (woke_lookup _ _ _ _ _ Hw Hj) as (p & Hp & -> & _ & _). by apply H3.
      * destruct h2 as [j|]; [|done]. destruct H4 as (p & Hp & Hps).
        pose proof (proj2 (H3 j p Hp) eq_refl) as Hheld. assert (j <> i) as Hji by (intros ->; simplify_eq; congruence).
        destruct (Forall2_lookup_l _ _ _ _ _ Hw Hp) as (p' & Hp' & [->|[_ ->]]).
        -- exists p. split; [by rewrite list_lookup_insert_ne|done].
        -- exists (wake_phase p). split; [by rewrite list_lookup_insert_ne|]. by destruct p.
      * assert (forall k, total c' k (<[i := ph']> phs1) = total c' k phs) as He.
        { intros k. pose proof (total_insert c' k phs1 i ph ph' Hi) as Hti. rewrite (woke_total _ _ _ _ _ Hw Hne) in Hti.
          assert (weight c' k ph = 0) as Hw0 by (unfold weight; rewrite decide_False; [done|destruct Hc; congruence]).
          assert (weight c' k ph' = 0) as Hw1 by (unfold weight; rewrite decide_False; [done|destruct Hc'; congruence]). lia. }
        unfold wake_inv in *. rewrite !He. done.
Qed.

(** ** What the accesses of a thread do *)

Lemma act_update_chan {A} (g : unit -> program A) (h : A -> program R) i pick (s : sys) c f :
  act i pick s (prog_bind h (prog_bind g (update_chan c f))) =
  match rt_chans (shared s) !! c ≫= f with
  | Some ch' => Stepped (set_thread (set_shared s (set_chans (shared s) (<[c := ch']> (rt_chans (shared s))))) i (Running (prog_bind h (g tt))))
  | None => Fault
  end.
Proof.
  cbn. unfold change. destruct (rt_chans (shared s) !! c) as [ch|]; [|done]. cbn. by destruct (f ch).
Qed.

(** Taking the mutex of a channel. *)
Lemma acquire_chan s phs c q ch h i :
  chan_inv s phs c q ch h -> (forall ph, phs !! i = Some ph -> held_of ph = None) -> is_Some (phs !! i) ->
  acquire i (ChanMutex c) s =
  match h with None => Stepped (set_mutex s (ChanMutex c) (mkMutex (Some (i, 1)) false)) | Some _ => Blocked end.
Proof.
  intros Hci Hn [ph Hi]. unfold acquire. rewrite (ci_mutex _ _ _ _ _ _ Hci). destruct h as [j|]; cbn; [|done].
  rewrite decide_False; [done|]. intros <-. pose proof (proj2 (ci_held _ _ _ _ _ _ Hci i ph Hi) eq_refl) as H.
  by rewrite (Hn _ Hi) in H.
Qed.

(** Giving it back. *)
Lemma release_chan s phs c q ch i :
  chan_inv s phs c q ch (Some i) -> release i (ChanMutex c) s = Stepped (set_mutex s (ChanMutex c) (mkMutex None false)).
Proof. intros Hci. unfold release. rewrite (ci_mutex _ _ _ _ _ _ Hci). cbn. by rewrite decide_True. Qed.

(** ** Counting *)

Lemma weight_here c k ph : chan_of ph = Some c -> weight c k ph = counts_for k ph.
Proof. intros H. unfold weight. by rewrite decide_True. Qed.
Lemma weight_idle c k cl : weight c k (Idle cl) = 0.
Proof. done. Qed.

Definition closed_n (q : queue) : nat := if q_closed q then 1 else 0.

Definition wake_count (t : kind -> nat) (q : queue) : Prop :=
  (0 < t RecvSleeps -> (closed_n q = 0 /\ length (q_items q) <= t WillTake) \/ 0 < t WakesEmpty) /\
  (0 < t SendSleeps -> (closed_n q = 0 /\ q_room q <= length (q_items q) + t WillPut) \/ 0 < t WakesFull).

Lemma wake_inv_nat (t : kind -> nat) q : wake_inv t q <-> wake_count t q.
Proof.
  assert (q_closed q = false <-> closed_n q = 0) as H by (unfold closed_n; by destruct (q_closed q)).
  unfold wake_inv, wake_count. by rewrite H.
Qed.

Lemma weight_phase c k ph : chan_of ph = None \/ chan_of ph = Some c -> weight c k ph = counts_for k ph.
Proof. intros [H|H]; [|by apply weight_here]. destruct ph; try done. unfold weight. cbn. by destruct k. Qed.

(** A move that wakes nobody. *)
Lemma inv_go size s s' a a' phs i ph ph' c q q' ch ch' h :
  inv size s a phs -> phs !! i = Some ph -> queues a !! c = Some q -> chan_inv s phs c q ch h -> h = None \/ h = Some i ->
  chan_of ph = None \/ chan_of ph = Some c -> chan_of ph' = None \/ chan_of ph' = Some c ->
  threads s' = <[i := thread_of ph']> (threads s) ->
  mutexes s' = <[ChanMutex c := mkMutex ((fun i => (i, 1)) <$> ((fun _ => i) <$> held_of ph')) false]> (mutexes s) ->
  rt_chans (shared s') = <[c := ch']> (rt_chans (shared s)) ->
  clients a' = <[i := client_of ph']> (clients a) -> queues a' = <[c := q']> (queues a) ->
  q_size q' = q_size q -> client_ok size (client_of ph') ->
  (if held_of ph' then stage_ok ph' ch' q' else chan_ok ch' q') ->
  (forall t t', (forall k, t' k + counts_for k ph = t k + counts_for k ph') -> wake_count t q -> wake_count t' q') ->
  inv size s' a' (<[i := ph']> phs).
Proof.
  intros Hinv Hi Hq Hci Hh Hc Hc' Ht Hm Hs Hcl Hqs Hsz Hok Hst Hwk.
  eapply (inv_move size s s' a a' phs phs i ph ph' c q q' ch ch' h); try done.
  - apply woke_refl.
  - by rewrite Ht, (sim_threads _ _ _ _ Hinv), map_insert.
  - apply wake_inv_nat. eapply Hwk; [|apply wake_inv_nat, (ci_wake _ _ _ _ _ _ Hci)].
    intros k. rewrite <-(weight_phase c k ph), <-(weight_phase c k ph') by done. by apply total_insert.
Qed.

(** The channel a thread is at, and what it is in the middle of. *)
Lemma phase_chan size s a phs i ph c :
  inv size s a phs -> phs !! i = Some ph -> chan_of ph = Some c ->
  exists q ch h, queues a !! c = Some q /\ size !! c = Some (q_size q) /\ chan_inv s phs c q ch h /\
    (held_of ph = Some c -> h = Some i /\ stage_ok ph ch q) /\ (held_of ph = None -> h = None -> chan_ok ch q).
Proof.
  intros Hinv Hi Hc. destruct (sim_there _ _ _ _ Hinv _ _ _ Hi Hc) as [q Hq].
  destruct (sim_chans _ _ _ _ Hinv _ _ Hq) as (ch & h & Hci). exists q, ch, h. split; [done|]. split.
  { by rewrite <-(sim_sizes _ _ _ _ Hinv), lookup_fmap, Hq. }
  split; [done|]. pose proof (ci_held _ _ _ _ _ _ Hci i ph Hi) as Hheld. pose proof (ci_stage _ _ _ _ _ _ Hci) as Hst. split.
  - intros H. apply Hheld in H as ->. destruct Hst as (p & Hp & Hs). by simplify_eq.
  - intros _ ->. done.
Qed.

Definition simulated (size : gmap nat Z) (a : spec) (v : verdict) : Prop :=
  match v with
  | Fault | Exited => False
  | Blocked => True
  | Stepped s' => exists a' phs', (a' = a \/ spec_step a a') /\ inv size s' a' phs'
  end.

(** ** The moves *)

Ltac wakes :=
  let t := fresh "t" in let t' := fresh "t" in let Ht := fresh "Ht" in let W1 := fresh "W" in let W2 := fresh "W" in
  intros t t' Ht [W1 W2];
  pose proof (Ht RecvSleeps); pose proof (Ht SendSleeps); pose proof (Ht WillTake); pose proof (Ht WillPut);
  pose proof (Ht WakesEmpty); pose proof (Ht WakesFull); clear Ht; unfold wake_count, closed_n in *;
  cbn [counts_for q_items q_closed q_room q_push q_pop q_close] in *;
  try match goal with H : q_closed _ = _ |- _ => rewrite !H in * end; split; lia.

(** What a state that is changed in one place looks like. *)
Lemma spec_same (a : spec) i c cl q :
  clients a !! i = Some cl -> queues a !! c = Some q -> clients a = <[i := cl]> (clients a) /\ queues a = <[c := q]> (queues a).
Proof. intros H1 H2. split; [by rewrite list_insert_id|by rewrite insert_id]. Qed.

Lemma lookup_client size s a phs i ph : inv size s a phs -> phs !! i = Some ph -> clients a !! i = Some (client_of ph).
Proof. intros Hinv Hi. rewrite (sim_clients _ _ _ _ Hinv). by rewrite lookup_map, Hi. Qed.

(** A thread that takes the mutex is at the test of its loop, or closes. *)
Lemma sim_acquire size s a phs i ph ph' c p :
  inv size s a phs -> phs !! i = Some ph -> held_of ph = None -> is_Some (queues a !! c) ->
  chan_of ph = None \/ chan_of ph = Some c -> chan_of ph' = Some c -> held_of ph' = Some c -> client_of ph' = client_of ph ->
  thread_of ph' = Running p -> (forall ch q, chan_ok ch q -> stage_ok ph' ch q) ->
  (forall q t t', (forall k, t' k + counts_for k ph = t k + counts_for k ph') -> wake_count t q -> wake_count t' q) ->
  simulated size a (and_then (acquire i (ChanMutex c) s) (fun s => Stepped (set_thread s i (Running p)))).
Proof.
  intros Hinv Hi Hh [q Hq] Hc Hc' Hh' Hcl Hp Hst Hwk. destruct (sim_chans _ _ _ _ Hinv _ _ Hq) as (ch & h & Hci).
  rewrite (acquire_chan _ _ _ _ _ _ _ Hci) by (eauto; intros; by simplify_eq). destruct h as [j|]; [done|]. cbn.
  pose proof (ci_stage _ _ _ _ _ _ Hci) as Hs. cbn in Hs.
  pose proof (lookup_client _ _ _ _ _ _ Hinv Hi) as Hcli. destruct (spec_same a i c _ q Hcli Hq) as [E1 E2].
  exists a, (<[i := ph']> phs). split; [by left|].
  eapply (inv_go size s _ a a phs i ph ph' c q q ch ch None); try done; try (by left); try (by right); cbn.
  - by rewrite <-Hp.
  - by rewrite Hh'.
  - by rewrite insert_id by apply Hci.
  - by rewrite Hcl.
  - rewrite Hcl. by apply (sim_ok _ _ _ _ Hinv i).
  - rewrite Hh'. by apply Hst.
  - apply Hwk.
Qed.

(** A thread inside a call goes on, with or without an access to the channel. *)
Lemma sim_inside size s s' a a' phs i ph ph' c q q' ch ch' :
  inv size s a phs -> phs !! i = Some ph -> held_of ph = Some c -> queues a !! c = Some q -> chan_inv s phs c q ch (Some i) ->
  held_of ph' = Some c -> threads s' = <[i := thread_of ph']> (threads s) -> mutexes s' = mutexes s ->
  rt_chans (shared s') = <[c := ch']> (rt_chans (shared s)) ->
  clients a' = <[i := client_of ph']> (clients a) -> queues a' = <[c := q']> (queues a) -> q_size q' = q_size q ->
  a' = a \/ spec_step a a' -> client_ok size (client_of ph') -> stage_ok ph' ch' q' ->
  (forall t t', (forall k, t' k + counts_for k ph = t k + counts_for k ph') -> wake_count t q -> wake_count t' q') ->
  simulated size a (Stepped s').
Proof.
  intros Hinv Hi Hh Hq Hci Hh' Ht Hm Hs Hcl Hqs Hsz Hstep Hok Hst Hwk.
  assert (forall p, held_of p = Some c -> chan_of p = Some c) as Hch by (by intros []).
  exists a', (<[i := ph']> phs). split; [done|].
  eapply (inv_go size s s' a a' phs i ph ph' c q q' ch ch' (Some i)); try done; try (by right); try (by right; apply Hch).
  - rewrite Hm, Hh'. cbn. by rewrite insert_id by apply Hci.
  - by rewrite Hh'.
Qed.

(** It gives the mutex back, at the end of a call or to sleep. *)
Lemma sim_leave size s s' a phs i ph ph' c q ch :
  inv size s a phs -> phs !! i = Some ph -> held_of ph = Some c -> queues a !! c = Some q -> chan_inv s phs c q ch (Some i) ->
  held_of ph' = None -> chan_of ph' = None \/ chan_of ph' = Some c -> client_of ph' = client_of ph ->
  threads s' = <[i := thread_of ph']> (threads s) -> mutexes s' = <[ChanMutex c := mkMutex None false]> (mutexes s) ->
  shared s' = shared s -> chan_ok ch q ->
  (forall t t', (forall k, t' k + counts_for k ph = t k + counts_for k ph') -> wake_count t q -> wake_count t' q) ->
  simulated size a (Stepped s').
Proof.
  intros Hinv Hi Hh Hq Hci Hh' Hc' Hcl Ht Hm Hs Hok Hwk.
  assert (chan_of ph = Some c) as Hch by (by destruct ph).
  destruct (spec_same a i c _ q (lookup_client _ _ _ _ _ _ Hinv Hi) Hq) as [E1 E2].
  exists a, (<[i := ph']> phs). split; [by left|].
  eapply (inv_go size s s' a a phs i ph ph' c q q ch ch (Some i)); try done; try (by right).
  - by rewrite Hh'.
  - by rewrite Hs, insert_id by apply Hci.
  - by rewrite Hcl.
  - rewrite Hcl. by apply (sim_ok _ _ _ _ Hinv i).
  - by rewrite Hh'.
Qed.

(** The test of a waiting loop, in a thread that holds the mutex. *)
Lemma act_await i pick s phs c q ch (k : program R) cond b (enough : runtime -> option bool) :
  chan_inv s phs c q ch (Some i) -> enough (shared s) = Some b ->
  act i pick s (Await cond (ChanMutex c) enough k) =
  if b then Stepped (set_thread s i (Running k))
  else Stepped (set_thread (set_mutex s (ChanMutex c) (mkMutex None false)) i (Sleeping cond (ChanMutex c) (Await cond (ChanMutex c) enough k))).
Proof.
  intros Hci He. cbn. rewrite (ci_mutex _ _ _ _ _ _ Hci), He. cbn. rewrite decide_False by (by intros H; apply H). done.
Qed.

Ltac same := first [done | by rewrite list_insert_id | by rewrite insert_id].

Definition may_send (c : nat) (rt : runtime) : option bool :=
  (fun ch => negb (is_full ch && negb (ch_closed ch))) <$> rt_chans rt !! c.
Definition may_recv (c : nat) (rt : runtime) : option bool :=
  (fun ch => negb (is_empty ch && negb (ch_closed ch))) <$> rt_chans rt !! c.

Lemma send_test c data k :
  send_prog c data k STest = Await (NotFull c) (ChanMutex c) (may_send c) (send_prog c data k SCheck).
Proof. done. Qed.
Lemma recv_test c k : recv_prog c k RTest = Await (NotEmpty c) (ChanMutex c) (may_recv c) (recv_prog c k RCheck).
Proof. done. Qed.

(** What the tests see. *)
Lemma is_full_ok ch q : chan_ok ch q -> is_full ch = bool_decide (length (q_items q) = q_room q).
Proof.
  intros (Hr & _ & Hroom & _). unfold is_full. rewrite (ring_count _ _ Hr), Hroom. apply bool_decide_ext. lia.
Qed.
Lemma is_empty_ok ch q : chan_ok ch q -> is_empty ch = bool_decide (q_items q = []).
Proof.
  intros (Hr & _). unfold is_empty. rewrite (ring_count _ _ Hr). apply bool_decide_ext. rewrite <-length_zero_iff_nil. lia.
Qed.
Lemma room_ok ch q : chan_ok ch q -> length (q_items q) <= q_room q.
Proof. intros (Hr & _ & Hroom & _). pose proof (ring_room _ _ Hr). lia. Qed.

(** The access a stage makes. *)
Definition send_access (st : send_stage) (data : list cell) : BlangChan -> option BlangChan :=
  match st with SCopy => copy_in data | STail => advance_tail | _ => add_element 1 end.
Definition send_next (st : send_stage) : send_stage := match st with SCopy => STail | STail => SCount | _ => SSignal end.

Lemma act_send_check i pick s c data k ch :
  rt_chans (shared s) !! c = Some ch ->
  act i pick s (send_prog c data k SCheck) = Stepped (set_thread s i (Running (send_prog c data k (if ch_closed ch then SUnlock else SCopy)))).
Proof. intros H. cbn. rewrite H. cbn. destruct (ch_closed ch); by destruct s. Qed.

Lemma act_send_access i pick s c data k st ch ch' :
  st = SCopy \/ st = STail \/ st = SCount -> rt_chans (shared s) !! c = Some ch -> send_access st data ch = Some ch' ->
  act i pick s (send_prog c data k st) =
  Stepped (set_thread (set_shared s (set_chans (shared s) (<[c := ch']> (rt_chans (shared s))))) i (Running (send_prog c data k (send_next st)))).
Proof.
  intros Hst Hch Hf. destruct Hst as [-> |[-> | ->]]; (etrans; [exact (act_update_chan _ _ i pick s c _)|]);
    rewrite Hch; cbn [mbind option_bind send_access send_next] in *; by rewrite Hf.
Qed.

Lemma act_send_unlock i pick s c data k :
  act i pick s (send_prog c data k SUnlock) = and_then (release i (ChanMutex c) s) (fun s => Stepped (set_thread s i (Running (code k)))).
Proof. done. Qed.

Lemma sim_send size s a phs i pick c data k st :
  inv size s a phs -> phs !! i = Some (Sending c data k st) -> st <> SSignal ->
  simulated size a (act i pick s (send_prog c data k st)).
Proof.
  intros Hinv Hi Hne. pose proof (sim_ok _ _ _ _ Hinv _ _ Hi) as Hok. pose proof (lookup_client _ _ _ _ _ _ Hinv Hi) as Hcl.
  destruct (phase_chan _ _ _ _ _ _ c Hinv Hi eq_refl) as (q & ch & h & Hq & Hsize & Hci & Hheld & _).
  destruct (Hheld eq_refl) as [-> Hst]. clear Hheld. pose proof (ci_chan _ _ _ _ _ _ Hci) as Hch.
  destruct st; try done; cbn [stage_ok client_of] in *.
  - assert (may_send c (shared s) = Some (negb (is_full ch && negb (ch_closed ch)))) as Hm by (unfold may_send; by rewrite Hch).
    rewrite send_test, (act_await _ _ _ _ _ _ _ _ _ _ _ Hci Hm).
    rewrite (is_full_ok _ _ Hst), (proj1 (proj2 Hst)). pose proof (room_ok _ _ Hst). case_bool_decide as Hfull; [destruct (q_closed q) eqn:Hc|]; cbn [andb negb].
    + eapply (sim_inside size s _ a a phs i _ (Sending c data k SCheck) c q q ch ch); try same; try (by left); [|wakes].
      split; [done|congruence].
    + rewrite <-send_test. eapply (sim_leave size s _ a phs i _ (SendAsleep c data k) c q ch); try same; [by right|].
      wakes.
    + eapply (sim_inside size s _ a a phs i _ (Sending c data k SCheck) c q q ch ch); try same; try (by left); [|wakes].
      split; [done|lia].
  - destruct Hst as [Hst Hroom]. pose proof Hst as (_ & Hclosed & _). rewrite (act_send_check _ _ _ _ _ _ _ Hch), Hclosed.
    destruct (q_closed q) eqn:Hc.
    + eapply (sim_inside size s _ a (mkSpec (queues a) (<[i := k]> (clients a))) phs i _ (Sending c data k SUnlock) c q q ch ch); try same;
        [right; by eapply spec_drop|apply Hok|wakes].
    + eapply (sim_inside size s _ a a phs i _ (Sending c data k SCopy) c q q ch ch); try same; [by left|split_and!; auto|wakes].
  - destruct Hst as (Hst & Hc & Hroom). pose proof Hst as (Hr & Hclosed & Hcap & Hes). destruct Hok as [(n & Hn & Hdata) Hok].
    assert (n = q_size q) as -> by congruence.
    destruct (ring_push ch (q_items q) data Hr ltac:(lia) ltac:(lia)) as (ch1 & _ & Hcopy & _).
    rewrite (act_send_access _ _ _ _ _ _ SCopy _ _ ltac:(auto) Hch Hcopy). cbn [send_next].
    eapply (sim_inside size s _ a a phs i _ (Sending c data k STail) c q q ch ch1); try same;
      [by left|split; [by exists (q_size q)|done]|split_and!; [done|done|by exists ch]|wakes].
  - destruct Hst as (Hc & Hroom & ch0 & Hst & Hcopy). pose proof Hst as (Hr & Hclosed & Hcap & Hes). destruct Hok as [(n & Hn & Hdata) Hok].
    assert (n = q_size q) as -> by congruence.
    destruct (ring_push ch0 (q_items q) data Hr ltac:(lia) ltac:(lia)) as (ch1 & ch2 & Hcopy' & Htail & _).
    simplify_eq. rewrite (act_send_access _ _ _ _ _ _ STail _ _ ltac:(auto) Hch Htail). cbn [send_next].
    eapply (sim_inside size s _ a a phs i _ (Sending c data k SCount) c q q ch ch2); try same;
      [by left|split; [by exists (q_size q)|done]|split_and!; [done|done|by exists ch0, ch]|wakes].
  - destruct Hst as (Hc & Hroom & ch0 & ch1 & Hst & Hcopy & Htail). pose proof Hst as (Hr & Hclosed & Hcap & Hes). destruct Hok as [(n & Hn & Hdata) Hok].
    assert (n = q_size q) as -> by congruence.
    destruct (ring_push ch0 (q_items q) data Hr ltac:(lia) ltac:(lia)) as (ch1' & ch2 & Hcopy' & Htail' & ch3 & Hadd & Hr' & Hcl3 & Hcap3 & Hes3).
    assert (ch1' = ch1) as -> by congruence. assert (ch2 = ch) as -> by congruence.
    rewrite (act_send_access _ _ _ _ _ _ SCount _ _ ltac:(auto) Hch Hadd). cbn [send_next].
    set (q' := q_push q (take (Z.to_nat (q_size q)) data)).
    eapply (sim_inside size s _ a (mkSpec (<[c := q']> (queues a)) (<[i := k]> (clients a))) phs i _ (Sending c data k SSignal) c q q' ch ch3);
      try same; [right; by eapply spec_send|rewrite Hes in Hr'; split_and!; [done|cbn; congruence..]|].
    unfold q'. intros t t' Ht W. revert t t' Ht W. assert (length (q_items q ++ [take (Z.to_nat (q_size q)) data]) = S (length (q_items q))) as Hlen
      by (rewrite length_app; cbn; lia).
    change (closed_n (q_push q (take (Z.to_nat (q_size q)) data))) with (closed_n q). wakes.
  - rewrite act_send_unlock, (release_chan _ _ _ _ _ _ Hci). cbn [and_then].
    eapply (sim_leave size s _ a phs i _ (Idle k) c q ch); try same; [by left|wakes].
Qed.

Lemma act_recv_check i pick s c k ch :
  rt_chans (shared s) !! c = Some ch ->
  act i pick s (recv_prog c k RCheck) =
  Stepped (set_thread s i (Running (recv_prog c k (if is_empty ch && ch_closed ch then RUnlock None else RCopy)))).
Proof. intros H. cbn. rewrite H. cbn. destruct (is_empty ch && ch_closed ch); by destruct s. Qed.

Lemma act_recv_copy i pick s c k ch x :
  rt_chans (shared s) !! c = Some ch -> copy_out ch = Some x ->
  act i pick s (recv_prog c k RCopy) = Stepped (set_thread s i (Running (recv_prog c k (RHead x)))).
Proof. intros H Hx. cbn. rewrite H. cbn. rewrite Hx. by destruct s. Qed.

Lemma act_recv_access i pick s c k st st' f ch ch' :
  (exists x, st = RHead x /\ st' = RCount x /\ f = advance_head) \/ (exists x, st = RCount x /\ st' = RSignal x /\ f = add_element (-1)) ->
  rt_chans (shared s) !! c = Some ch -> f ch = Some ch' ->
  act i pick s (recv_prog c k st) =
  Stepped (set_thread (set_shared s (set_chans (shared s) (<[c := ch']> (rt_chans (shared s))))) i (Running (recv_prog c k st'))).
Proof.
  intros Hst Hch Hf. destruct Hst as [(x & -> & -> & ->)|(x & -> & -> & ->)]; (etrans; [exact (act_update_chan _ _ i pick s c _)|]);
    rewrite Hch; cbn [mbind option_bind]; by rewrite Hf.
Qed.

Lemma act_recv_unlock i pick s c k x :
  act i pick s (recv_prog c k (RUnlock x)) = and_then (release i (ChanMutex c) s) (fun s => Stepped (set_thread s i (Running (code (k x))))).
Proof. done. Qed.

Lemma sim_recv size s a phs i pick c k st :
  inv size s a phs -> phs !! i = Some (Receiving c k st) -> (forall x, st <> RSignal x) ->
  simulated size a (act i pick s (recv_prog c k st)).
Proof.
  intros Hinv Hi Hne. pose proof (sim_ok _ _ _ _ Hinv _ _ Hi) as Hok. pose proof (lookup_client _ _ _ _ _ _ Hinv Hi) as Hcl.
  destruct (phase_chan _ _ _ _ _ _ c Hinv Hi eq_refl) as (q & ch & h & Hq & Hsize & Hci & Hheld & _).
  destruct (Hheld eq_refl) as [-> Hst]. clear Hheld. pose proof (ci_chan _ _ _ _ _ _ Hci) as Hch.
  destruct st as [| | |x|x|x|x]; cbn [stage_ok client_of] in *; [| | | | |by destruct (Hne x)|].
  - assert (may_recv c (shared s) = Some (negb (is_empty ch && negb (ch_closed ch)))) as Hm by (unfold may_recv; by rewrite Hch).
    rewrite recv_test, (act_await _ _ _ _ _ _ _ _ _ _ _ Hci Hm).
    rewrite (is_empty_ok _ _ Hst), (proj1 (proj2 Hst)). case_bool_decide as Hempty; [destruct (q_closed q) eqn:Hc|]; cbn [andb negb].
    + eapply (sim_inside size s _ a a phs i _ (Receiving c k RCheck) c q q ch ch); try same; try (by left); wakes.
    + rewrite <-recv_test. eapply (sim_leave size s _ a phs i _ (RecvAsleep c k) c q ch); try same; [by right|].
      assert (length (q_items q) = 0) as H0 by (by rewrite Hempty). wakes.
    + eapply (sim_inside size s _ a a phs i _ (Receiving c k RCheck) c q q ch ch); try same; try (by left); wakes.
  - destruct Hst as [Hst Hroom]. pose proof Hst as (_ & Hclosed & _).
    rewrite (act_recv_check _ _ _ _ _ _ Hch), Hclosed, (is_empty_ok _ _ Hst).
    case_bool_decide as Hempty; cbn [andb]; [rewrite (Hroom Hempty); pose proof (Hroom Hempty) as Hc|].
    + eapply (sim_inside size s _ a (mkSpec (queues a) (<[i := k None]> (clients a))) phs i _ (Receiving c k (RUnlock None)) c q q ch ch);
        try same; [right; by eapply spec_end|apply Hok|].
      assert (length (q_items q) = 0) as H0 by (by rewrite Hempty). wakes.
    + eapply (sim_inside size s _ a a phs i _ (Receiving c k RCopy) c q q ch ch); try same; [by left|wakes].
  - destruct Hst as [Hst Hsome]. destruct (q_items q) as [|x rest] eqn:Hitems; [done|].
    pose proof Hst as (Hr & Hclosed & Hcap & Hes). rewrite Hitems in Hr. destruct (ring_pop _ _ _ Hr) as [Hx _].
    rewrite (act_recv_copy _ _ _ _ _ _ _ Hch Hx).
    eapply (sim_inside size s _ a a phs i _ (Receiving c k (RHead x)) c q q ch ch); try same; [by left|split; [done|by exists rest]|wakes].
  - destruct Hst as (Hst & rest & Hitems). pose proof Hst as (Hr & Hclosed & Hcap & Hes). rewrite Hitems in Hr.
    destruct (ring_pop _ _ _ Hr) as (_ & ch1 & Hhead & _).
    rewrite (act_recv_access _ _ _ _ _ _ (RCount x) advance_head _ _ ltac:(eauto) Hch Hhead).
    eapply (sim_inside size s _ a a phs i _ (Receiving c k (RCount x)) c q q ch ch1); try same;
      [by left|exists rest; split; [done|by exists ch]|wakes].
  - destruct Hst as (rest & Hitems & ch0 & Hst & Hhead). pose proof Hst as (Hr & Hclosed & Hcap & Hes). rewrite Hitems in Hr.
    destruct (ring_pop _ _ _ Hr) as (_ & ch1 & Hhead' & ch2 & Hadd & Hr' & Hcl2 & Hcap2 & Hes2). assert (ch1 = ch) as -> by congruence.
    rewrite (act_recv_access _ _ _ _ _ _ (RSignal x) (add_element (-1)) _ _ ltac:(eauto) Hch Hadd).
    eapply (sim_inside size s _ a (mkSpec (<[c := q_pop q rest]> (queues a)) (<[i := k (Some x)]> (clients a))) phs i _
      (Receiving c k (RSignal x)) c q (q_pop q rest) ch ch2); try same;
      [right; by eapply spec_recv|apply Hok|split_and!; [done|cbn; congruence..]|].
    intros t t' Ht W. revert t t' Ht W. assert (length (q_items q) = S (length rest)) as Hlen by (by rewrite Hitems).
    change (closed_n (q_pop q rest)) with (closed_n q). wakes.
  - rewrite act_recv_unlock, (release_chan _ _ _ _ _ _ Hci). cbn [and_then].
    eapply (sim_leave size s _ a phs i _ (Idle (k x)) c q ch); try same; [by left|wakes].
Qed.

(** ** Waking others *)

(** A condition, who sleeps on it, and what they will do. *)
Inductive paired (c : nat) : cond_name -> kind -> kind -> Prop :=
  | paired_recv : paired c (NotEmpty c) RecvSleeps WillTake
  | paired_send : paired c (NotFull c) SendSleeps WillPut.

Lemma sleeps_paired c cond sl ta ph :
  paired c cond sl ta -> sleeps_on cond (thread_of ph) = true <-> chan_of ph = Some c /\ 0 < counts_for sl ph.
Proof.
  intros []; (split; [|intros [Hc Hs]]); destruct ph as [cl|? ? ? []|? ? ?|? ? ?|? ? []|? ?|? ?|? ? []]; cbn in *;
    try lia; rewrite ?bool_decide_eq_true; intros; simplify_eq; try done; split; done || lia.
Qed.

Lemma asleep_counts c cond sl ta ph :
  paired c cond sl ta -> 0 < counts_for sl ph ->
  held_of ph = None /\ (forall k, counts_for k ph + counts_for k (wake_phase ph) <= 1) /\
  counts_for sl ph = 1 /\ counts_for ta (wake_phase ph) = 1.
Proof.
  intros [] H; destruct ph as [cl|? ? ? []|? ? ?|? ? ?|? ? []|? ?|? ?|? ? []]; cbn in H; try lia; (split; [done|]);
    (split; [intros []; cbn; lia|done]).
Qed.

Lemma signalled_phase c cond sl ta pick phs :
  paired c cond sl ta ->
  (signalled cond pick (map thread_of phs) = map thread_of phs /\ total c sl phs = 0) \/
  exists j ph, phs !! j = Some ph /\ chan_of ph = Some c /\ 0 < counts_for sl ph /\
    signalled cond pick (map thread_of phs) = map thread_of (<[j := wake_phase ph]> phs).
Proof.
  intros Hp. destruct (signalled_cases cond pick (map thread_of phs)) as [[He Hn]|(j & m & p & Hj & He)].
  - left. split; [done|]. apply total_zero. intros j ph Hj Hc. destruct (decide (0 < counts_for sl ph)); [|lia].
    assert (sleeps_on cond (thread_of ph) = true) as Hs by (by apply (sleeps_paired _ _ _ _ _ Hp)).
    rewrite (Hn j (thread_of ph)) in Hs; [done|]. by rewrite lookup_map, Hj.
  - right. rewrite lookup_map in Hj. destruct (phs !! j) as [ph|] eqn:Hph; [|done]. cbn in Hj. injection Hj as Hj.
    assert (sleeps_on cond (thread_of ph) = true) as Hs by (rewrite Hj; cbn; by apply bool_decide_true).
    apply (sleeps_paired _ _ _ _ _ Hp) in Hs as [Hc Hs]. exists j, ph. split; [done|]. split; [done|]. split; [done|].
    by rewrite He, map_insert, thread_of_wake, Hj.
Qed.

Lemma woke_insert c phs j ph : phs !! j = Some ph -> chan_of ph = Some c -> woke c phs (<[j := wake_phase ph]> phs).
Proof.
  intros Hj Hc. apply Forall2_same_length_lookup_2; [by rewrite length_insert|]. intros n x y Hx Hy.
  destruct (decide (j = n)) as [<-|Hne].
  - rewrite list_lookup_insert_eq in Hy by (by eapply lookup_lt_Some). simplify_eq. auto.
  - rewrite list_lookup_insert_ne in Hy by done. simplify_eq. auto.
Qed.

(** A signal leaves one thread that will do what the signalling one saw to be possible,
    or nobody who waits for it. *)
Lemma sim_signal size s a phs i pick c cond sl ta ph ph' p :
  inv size s a phs -> phs !! i = Some ph -> paired c cond sl ta -> held_of ph = Some c -> held_of ph' = Some c ->
  client_of ph' = client_of ph -> thread_of ph' = Running p ->
  (forall ch q, stage_ok ph ch q -> chan_ok ch q) -> (forall ch q, chan_ok ch q -> stage_ok ph' ch q) ->
  (forall k, counts_for k ph' = 0) -> counts_for ta ph = 1 -> (forall k, k <> ta -> counts_for k ph = 0) ->
  simulated size a (act i pick s (Signal cond p)).
Proof.
  intros Hinv Hi Hp Hh Hh' Hcl Ht Hst Hst' Hz Hta Hz'.
  assert (chan_of ph = Some c) as Hc by (by destruct ph). assert (chan_of ph' = Some c) as Hc' by (by destruct ph').
  destruct (phase_chan _ _ _ _ _ _ c Hinv Hi Hc) as (q & ch & h & Hq & Hsize & Hci & Hheld & _).
  destruct (Hheld Hh) as [-> Hs]. apply Hst in Hs. destruct (spec_same a i c _ q (lookup_client _ _ _ _ _ _ Hinv Hi) Hq) as [E1 E2].
  assert (exists phs1, woke c phs phs1 /\ phs1 !! i = Some ph /\ signalled cond pick (threads s) = map thread_of phs1 /\
    wake_inv (fun k => total c k (<[i := ph']> phs1)) q) as (phs1 & Hw & Hi1 & Hsig & Hwk).
  { rewrite (sim_threads _ _ _ _ Hinv). pose proof (proj1 (wake_inv_nat _ _) (ci_wake _ _ _ _ _ _ Hci)) as W.
    assert (forall phs1 k, phs1 !! i = Some ph -> total c k (<[i := ph']> phs1) + counts_for k ph = total c k phs1) as Hgo.
    { intros phs1 k H1. pose proof (total_insert c k _ _ _ ph' H1) as H2. rewrite !weight_here, Hz in H2 by done. lia. }
    destruct (signalled_phase c cond sl ta pick phs Hp) as [[He H0]|(j & phj & Hj & Hcj & Hsl & He)].
    - exists phs. split; [apply woke_refl|]. split; [done|]. split; [done|]. apply wake_inv_nat.
      pose proof (Hgo phs RecvSleeps Hi). pose proof (Hgo phs SendSleeps Hi). pose proof (Hgo phs WillTake Hi). pose proof (Hgo phs WillPut Hi).
      pose proof (Hgo phs WakesEmpty Hi) as H7. pose proof (Hgo phs WakesFull Hi) as H8. rewrite Hz' in H7, H8 by (by destruct Hp).
      destruct W as [W1 W2]. destruct Hp; [pose proof (Hz' WillPut ltac:(done))|pose proof (Hz' WillTake ltac:(done))]; unfold wake_count; split; lia.
    - destruct (asleep_counts _ _ _ _ _ Hp Hsl) as (Hhj & Hle & H1 & H2).
      assert (j <> i) as Hji by (intros ->; simplify_eq; congruence). exists (<[j := wake_phase phj]> phs).
      assert (<[j := wake_phase phj]> phs !! i = Some ph) as Hi1 by (by rewrite list_lookup_insert_ne).
      split; [by apply woke_insert|]. split; [done|]. split; [done|]. apply wake_inv_nat.
      assert (forall k, total c k (<[i := ph']> (<[j := wake_phase phj]> phs)) + counts_for k ph + counts_for k phj =
        total c k phs + counts_for k (wake_phase phj)) as Hk.
      { intros k. pose proof (total_insert c k _ _ _ (wake_phase phj) Hj) as H3. rewrite !weight_here in H3 by (by rewrite ?chan_of_wake).
        pose proof (Hgo _ k Hi1). lia. }
      pose proof (Hk RecvSleeps). pose proof (Hk SendSleeps). pose proof (Hk WillTake). pose proof (Hk WillPut).
      pose proof (Hk WakesEmpty) as H5. pose proof (Hk WakesFull) as H6. rewrite (Hz' WakesEmpty), (Hz' WakesFull) in * by (by destruct Hp).
      assert (counts_for WakesEmpty phj = 0 /\ counts_for WakesFull phj = 0) as [H7 H8] by (by destruct phj).
      assert (counts_for RecvSleeps (wake_phase phj) = 0 /\ counts_for SendSleeps (wake_phase phj) = 0) as [H9 H10] by (by destruct phj).
      destruct W as [W1 W2]. pose proof (Hle WillTake). pose proof (Hle WillPut). rewrite (Hz' RecvSleeps), (Hz' SendSleeps) in * by (by destruct Hp).
      destruct Hp; [rewrite (Hz' WillPut) in * by done|rewrite (Hz' WillTake) in * by done];
        destruct phj as [cl|? ? ? []|? ? ?|? ? ?|? ? []|? ?|? ?|? ? []]; cbn in Hsl; try lia; cbn [counts_for wake_phase] in *;
        unfold wake_count; split; lia. }
  exists a, (<[i := ph']> phs1). split; [by left|].
  eapply (inv_move size s _ a a phs phs1 i ph ph' c q q ch ch (Some i)); try done; try (by right); cbn.
  - rewrite map_insert, Ht, Hsig. done.
  - rewrite Hh'. cbn. by rewrite insert_id by apply Hci.
  - by rewrite insert_id by apply Hci.
  - by rewrite Hcl.
  - rewrite Hcl. by apply (sim_ok _ _ _ _ Hinv i).
  - rewrite Hh'. by apply Hst'.
Qed.

(** What a broadcast leaves. *)
Definition wake_on (cond : cond_name) (ph : phase) : phase := if sleeps_on cond (thread_of ph) then wake_phase ph else ph.

Lemma broadcasted_phase cond phs : broadcasted cond (map thread_of phs) = map thread_of (map (wake_on cond) phs).
Proof.
  unfold broadcasted. rewrite !map_map. apply map_ext. intros ph. unfold wake_on. by destruct (sleeps_on _ _); [rewrite thread_of_wake|].
Qed.

Lemma woke_broadcast c cond sl ta phs : paired c cond sl ta -> woke c phs (map (wake_on cond) phs).
Proof.
  intros Hp. induction phs as [|ph phs IH]; constructor; [|exact IH]. unfold wake_on. destruct (sleeps_on _ _) eqn:E; [|by left].
  right. by apply (sleeps_paired _ _ _ _ _ Hp) in E as [Hc _].
Qed.

Lemma broadcast_counts c cond sl ta ph :
  paired c cond sl ta ->
  weight c sl (wake_on cond ph) = 0 /\
  forall k, k <> sl -> k <> ta -> weight c k (wake_on cond ph) = weight c k ph.
Proof.
  intros Hp. unfold wake_on. destruct (sleeps_on cond (thread_of ph)) eqn:E.
  - pose proof (proj1 (sleeps_paired _ _ _ _ _ Hp) E) as [Hc Hs]. destruct (asleep_counts _ _ _ _ _ Hp Hs) as (_ & Hle & H1 & H2).
    assert (forall k, weight c k (wake_phase ph) = counts_for k (wake_phase ph)) as Hw by (intros; apply weight_here; by rewrite chan_of_wake).
    split; [rewrite Hw; specialize (Hle sl); lia|]. intros k Hk Hk'. rewrite Hw, weight_here by done.
    by destruct Hp, ph as [cl|? ? ? []|? ? ?|? ? ?|? ? []|? ?|? ?|? ? []], k; cbn in Hs; try lia.
  - split; [|done]. unfold weight. case_decide as Hc; [|done]. destruct (decide (0 < counts_for sl ph)) as [Hs|]; [|lia].
    assert (sleeps_on cond (thread_of ph) = true) as E' by (by apply (sleeps_paired _ _ _ _ _ Hp)). by rewrite E in E'.
Qed.

Lemma broadcast_totals c cond sl ta phs :
  paired c cond sl ta ->
  total c sl (map (wake_on cond) phs) = 0 /\
  forall k, k <> sl -> k <> ta -> total c k (map (wake_on cond) phs) = total c k phs.
Proof.
  intros Hp. unfold total. induction phs as [|ph phs [IH1 IH2]]; [done|]. cbn [map sum_list_with].
  destruct (broadcast_counts _ _ _ _ ph Hp) as [H1 H2]. split; [lia|]. intros k Hk Hk'. by rewrite H2, IH2.
Qed.

Lemma sim_broadcast size s a phs i pick c cond sl ta k st st' p :
  inv size s a phs -> phs !! i = Some (Closing c k st) -> paired c cond sl ta ->
  (st = CWakeEmpty /\ st' = CWakeFull /\ sl = RecvSleeps) \/ (st = CWakeFull /\ st' = CUnlock /\ sl = SendSleeps) ->
  close_prog c k st' = p ->
  simulated size a (act i pick s (Broadcast cond p)).
Proof.
  intros Hinv Hi Hp Hst <-.
  destruct (phase_chan _ _ _ _ _ _ c Hinv Hi eq_refl) as (q & ch & h & Hq & Hsize & Hci & Hheld & _).
  destruct (Hheld eq_refl) as [-> Hs]. assert (chan_ok ch q /\ q_closed q = true) as [Hok Hclosed] by (by destruct Hst as [(-> & _)|(-> & _)]).
  assert (client_of (Closing c k st') = client_of (Closing c k st)) as Hcl by (by destruct Hst as [(-> & -> & _)|(-> & -> & _)]).
  destruct (spec_same a i c _ q (lookup_client _ _ _ _ _ _ Hinv Hi) Hq) as [E1 E2].
  set (phs1 := map (wake_on cond) phs).
  assert (phs1 !! i = Some (Closing c k st)) as Hi1 by (unfold phs1; by rewrite lookup_map, Hi).
  exists a, (<[i := Closing c k st']> phs1). split; [by left|].
  eapply (inv_move size s _ a a phs phs1 i _ (Closing c k st') c q q ch ch (Some i)); try done; try (by right); cbn [shared mutexes threads set_thread].
  - by eapply woke_broadcast.
  - by rewrite (sim_threads _ _ _ _ Hinv), broadcasted_phase, map_insert.
  - cbn. by rewrite insert_id by apply Hci.
  - by rewrite insert_id by apply Hci.
  - by rewrite Hcl.
  - rewrite Hcl. by apply (sim_ok _ _ _ _ Hinv i).
  - by destruct Hst as [(_ & -> & _)|(_ & -> & _)].
  - apply wake_inv_nat. pose proof (proj1 (wake_inv_nat _ _) (ci_wake _ _ _ _ _ _ Hci)) as [W1 W2].
    assert (closed_n q = 1) as Hn by (unfold closed_n; by rewrite Hclosed). rewrite Hn in W1, W2.
    destruct (broadcast_totals c cond sl ta phs Hp) as [T1 T2]. fold phs1 in T1, T2.
    assert (forall kd, total c kd (<[i := Closing c k st']> phs1) + counts_for kd (Closing c k st) = total c kd phs1 + counts_for kd (Closing c k st')) as Hk.
    { intros kd. rewrite <-(weight_here c kd (Closing c k st)), <-(weight_here c kd (Closing c k st')) by done. by apply total_insert. }
    pose proof (Hk RecvSleeps). pose proof (Hk SendSleeps). pose proof (Hk WakesEmpty). pose proof (Hk WakesFull).
    destruct Hst as [(-> & -> & ->)|(-> & -> & ->)]; inversion Hp; subst; cbn [counts_for] in *; unfold wake_count.
    + pose proof (total_ge c WakesFull (<[i := Closing c k CWakeFull]> phs1) i (Closing c k CWakeFull)) as Hge.
      rewrite weight_here in Hge by done. cbn [counts_for] in Hge.
      specialize (Hge (list_lookup_insert_eq _ _ _ (lookup_lt_Some _ _ _ Hi1))). split; lia.
    + pose proof (T2 RecvSleeps ltac:(done) ltac:(done)). pose proof (T2 WakesEmpty ltac:(done) ltac:(done)). split; lia.
Qed.

Lemma sim_close size s a phs i pick c k st :
  inv size s a phs -> phs !! i = Some (Closing c k st) -> simulated size a (act i pick s (close_prog c k st)).
Proof.
  intros Hinv Hi. pose proof (sim_ok _ _ _ _ Hinv _ _ Hi) as Hok. pose proof (lookup_client _ _ _ _ _ _ Hinv Hi) as Hcl.
  destruct st.
  - destruct (phase_chan _ _ _ _ _ _ c Hinv Hi eq_refl) as (q & ch & h & Hq & Hsize & Hci & Hheld & _).
    destruct (Hheld eq_refl) as [-> (Hr & Hclosed & Hcap & Hes)]. pose proof (ci_chan _ _ _ _ _ _ Hci) as Hch.
    assert (act i pick s (close_prog c k CSet) =
      Stepped (set_thread (set_shared s (set_chans (shared s) (<[c := mkChan (ch_buffer ch) (ch_elem_size ch) (ch_capacity ch) (ch_head ch) (ch_tail ch)
        (ch_count ch) true]> (rt_chans (shared s))))) i (Running (close_prog c k CWakeEmpty)))) as ->.
    { etrans; [exact (act_update_chan _ _ i pick s c _)|]. by rewrite Hch. }
    eapply (sim_inside size s _ a (mkSpec (<[c := q_close q]> (queues a)) (<[i := k]> (clients a))) phs i _ (Closing c k CWakeEmpty) c q (q_close q) ch);
      try same; [right; by eapply spec_close|apply Hok|split_and!; try done; by destruct Hr|wakes].
  - by eapply (sim_broadcast size s a phs i pick c (NotEmpty c) RecvSleeps WillTake k CWakeEmpty CWakeFull); [..|constructor|left|].
  - by eapply (sim_broadcast size s a phs i pick c (NotFull c) SendSleeps WillPut k CWakeFull CUnlock); [..|constructor|right|].
  - destruct (phase_chan _ _ _ _ _ _ c Hinv Hi eq_refl) as (q & ch & h & Hq & Hsize & Hci & Hheld & _).
    destruct (Hheld eq_refl) as [-> [Hst _]].
    change (simulated size a (and_then (release i (ChanMutex c) s) (fun s => Stepped (set_thread s i (Running (code k)))))).
    rewrite (release_chan _ _ _ _ _ _ Hci). cbn [and_then].
    eapply (sim_leave size s _ a phs i _ (Idle k) c q ch); try same; [by left|wakes].
Qed.

(** ** Every move *)

Lemma step_sim size s a phs i pick : inv size s a phs -> simulated size a (step_at i pick s).
Proof.
  intros Hinv. unfold step_at. rewrite (sim_threads _ _ _ _ Hinv), lookup_map. destruct (phs !! i) as [ph|] eqn:Hi; [|done].
  cbn [fmap option_fmap option_map]. pose proof (sim_ok _ _ _ _ Hinv _ _ Hi) as Hok.
  assert (forall c, is_Some (size !! c) -> is_Some (queues a !! c)) as Hsz.
  { intros c. rewrite <-(sim_sizes _ _ _ _ Hinv), lookup_fmap. by destruct (queues a !! c); intros []. }
  destruct ph as [[r|c data k|c k|c k]|c data k st|c data k|c data k|c k st|c k|c k|c k st]; cbn [thread_of client_of] in *.
  - done.
  - destruct Hok as [(n & Hn & _) _]. rewrite code_send.
    eapply (sim_acquire size s a phs i _ (Sending c data k STest) c); try done; [apply Hsz; by eexists|by left|intros ?; wakes].
  - rewrite code_recv. eapply (sim_acquire size s a phs i _ (Receiving c k RTest) c); try done; [by apply Hsz, Hok|by left|intros ?; wakes].
  - rewrite code_close. eapply (sim_acquire size s a phs i _ (Closing c k CSet) c); try done; [by apply Hsz, Hok|by left|intros ?; wakes].
  - assert (st = SSignal \/ st <> SSignal) as [->|Hne] by (destruct st; auto); [|by eapply sim_send].
    eapply (sim_signal size s a phs i pick c (NotEmpty c) RecvSleeps WillTake _ (Sending c data k SUnlock) _ Hinv Hi); try done; [constructor|..];
      by intros [].
  - done.
  - eapply (sim_acquire size s a phs i _ (Sending c data k STest) c); try done; [by eapply sim_there|by right|intros ?; wakes].
  - assert ((exists x, st = RSignal x) \/ forall x, st <> RSignal x) as [[x ->]|Hne] by (destruct st; eauto); [|by eapply sim_recv].
    eapply (sim_signal size s a phs i pick c (NotFull c) SendSleeps WillPut _ (Receiving c k (RUnlock (Some x))) _ Hinv Hi); try done; [constructor|..];
      by intros [].
  - done.
  - eapply (sim_acquire size s a phs i _ (Receiving c k RTest) c); try done; [by eapply sim_there|by right|intros ?; wakes].
  - by eapply sim_close.
Qed.

(** A thread that wakes without a signal. *)
Lemma spurious_sim size s s' a phs : inv size s a phs -> spurious s s' -> exists phs', inv size s' a phs'.
Proof.
  intros Hinv (i & cond & m & p & Hi & ->). rewrite (sim_threads _ _ _ _ Hinv), lookup_map in Hi.
  destruct (phs !! i) as [ph|] eqn:Hph; [|done]. cbn in Hi. injection Hi as Hi.
  assert (exists c, chan_of ph = Some c /\ held_of ph = None) as (c & Hc & Hh) by (destruct ph; try done; eauto).
  assert (thread_of (wake_phase ph) = Waking m p) as Ht by (by rewrite thread_of_wake, Hi).
  destruct (phase_chan _ _ _ _ _ _ c Hinv Hph Hc) as (q & ch & h & Hq & _ & Hci & _). exists (<[i := wake_phase ph]> phs).
  constructor; cbn [shared mutexes threads set_thread].
  - by rewrite (sim_threads _ _ _ _ Hinv), map_insert, Ht.
  - rewrite map_insert, client_of_wake, <-(sim_clients _ _ _ _ Hinv). by rewrite list_insert_id by (by eapply lookup_client).
  - apply Hinv.
  - intros j phj Hj. destruct (woke_lookup _ _ _ _ _ (woke_insert c phs i ph Hph Hc) Hj) as (x & Hx & _ & -> & _). by eapply sim_ok.
  - intros j phj d Hj. destruct (woke_lookup _ _ _ _ _ (woke_insert c phs i ph Hph Hc) Hj) as (x & Hx & _ & _ & ->). by eapply sim_there.
  - intros d qd Hqd. destruct (sim_chans _ _ _ _ Hinv _ _ Hqd) as (chd & hd & [H1 H2 H3 H4 H5]). exists chd, hd. constructor; try done.
    + intros j phj Hj. destruct (woke_lookup _ _ _ _ _ (woke_insert c phs i ph Hph Hc) Hj) as (x & Hx & -> & _). by apply H3.
    + destruct hd as [j|]; [|done]. destruct H4 as (x & Hx & Hs). exists x. split; [|done]. rewrite list_lookup_insert_ne; [done|].
      intros <-. simplify_eq. pose proof (proj2 (H3 _ _ Hph) eq_refl). congruence.
    + assert (forall k, total d k (<[i := wake_phase ph]> phs) + weight d k ph = total d k phs + weight d k (wake_phase ph)) as Hk
        by (intros; by apply total_insert).
      assert (weight d RecvSleeps (wake_phase ph) = 0 /\ weight d SendSleeps (wake_phase ph) = 0 /\
        (forall k, k <> RecvSleeps -> k <> SendSleeps -> weight d k ph <= weight d k (wake_phase ph)) /\
        (forall k, k <> WillTake -> k <> WillPut -> weight d k (wake_phase ph) <= weight d k ph)) as (Z1 & Z2 & Z3 & Z4).
      { unfold weight. rewrite chan_of_wake. case_decide; [|done]. destruct ph; try done; split_and!; try done; intros []; cbn; (lia || congruence). }
      apply wake_inv_nat in H5 as [W1 W2]. apply wake_inv_nat. unfold wake_count.
      pose proof (Hk RecvSleeps). pose proof (Hk SendSleeps). pose proof (Hk WillTake). pose proof (Hk WillPut).
      pose proof (Hk WakesEmpty). pose proof (Hk WakesFull). pose proof (Z3 WillTake ltac:(done) ltac:(done)).
      pose proof (Z3 WillPut ltac:(done) ltac:(done)). pose proof (Z3 WakesEmpty ltac:(done) ltac:(done)).
      pose proof (Z3 WakesFull ltac:(done) ltac:(done)). split; lia.
Qed.

(** ** When nobody can go on *)

Lemma stuck_phases size s a phs i ph :
  inv size s a phs -> stuck s -> phs !! i = Some ph ->
  match ph with Idle (Finish _) | SendAsleep _ _ _ | RecvAsleep _ _ => True | _ => False end.
Proof.
  intros Hinv Hstuck. assert (forall i, phs !! i <> None -> step_at i 0 s = Blocked) as Hb.
  { intros j _. pose proof (step_sim size s a phs j 0 Hinv) as H. specialize (Hstuck j 0). by destruct (step_at j 0 s). }
  assert (forall j ph, phs !! j = Some ph -> held_of ph = None) as Hfree.
  { intros j phj Hj. pose proof (Hb j ltac:(by rewrite Hj)) as H. unfold step_at in H.
    rewrite (sim_threads _ _ _ _ Hinv), lookup_map, Hj in H. cbn [fmap option_fmap option_map] in H.
    destruct phj as [cl|c data k st|c data k|c data k|c k st|c k|c k|c k st]; try done; cbn [thread_of] in H;
      apply blocked_prog in H; by destruct st. }
  assert (forall c, is_Some (size !! c) -> forall j, phs !! j <> None -> exists s', acquire j (ChanMutex c) s = Stepped s') as Hacq.
  { intros c [n Hn] j Hj. rewrite <-(sim_sizes _ _ _ _ Hinv), lookup_fmap in Hn. destruct (queues a !! c) as [q|] eqn:Hq; [|done].
    destruct (sim_chans _ _ _ _ Hinv _ _ Hq) as (ch & h & Hci).
    rewrite (acquire_chan _ _ _ _ _ _ _ Hci) by (try (by apply not_eq_None_Some); by apply Hfree).
    destruct h as [m|]; [|by eexists]. destruct (ci_stage _ _ _ _ _ _ Hci) as (p & Hp & _).
    pose proof (proj2 (ci_held _ _ _ _ _ _ Hci m p Hp) eq_refl) as H. by rewrite (Hfree _ _ Hp) in H. }
  intros Hi. pose proof (Hb i ltac:(by rewrite Hi)) as H. unfold step_at in H. pose proof (sim_ok _ _ _ _ Hinv _ _ Hi) as Hok.
  rewrite (sim_threads _ _ _ _ Hinv), lookup_map, Hi in H. cbn [fmap option_fmap option_map] in H.
  assert (forall c f, is_Some (size !! c) -> and_then (acquire i (ChanMutex c) s) (fun s => Stepped (f s)) <> Blocked) as Hno.
  { intros c f Hc. destruct (Hacq c Hc i ltac:(by rewrite Hi)) as [s' ->]. done. }
  assert (forall c, chan_of ph = Some c -> is_Some (size !! c)) as Hth.
  { intros c Hc. destruct (sim_there _ _ _ _ Hinv _ _ _ Hi Hc) as [q Hq]. rewrite <-(sim_sizes _ _ _ _ Hinv), lookup_fmap, Hq. by eexists. }
  pose proof (Hfree _ _ Hi) as Hhi.
  destruct ph as [[r|c data k|c k|c k]|c data k st|c data k|c data k|c k st|c k|c k|c k st]; try done; cbn [thread_of] in H.
  - rewrite code_send in H. destruct Hok as [(n & Hn & _) _]. apply (Hno c _ ltac:(by eexists) H).
  - rewrite code_recv in H. destruct Hok as [Hn _]. apply (Hno c _ Hn H).
  - rewrite code_close in H. destruct Hok as [Hn _]. apply (Hno c _ Hn H).
  - apply (Hno c _ (Hth c eq_refl) H).
  - apply (Hno c _ (Hth c eq_refl) H).
Qed.

Lemma stuck_spec size s a phs : inv size s a phs -> stuck s -> forall a', ~ spec_step a a'.
Proof.
  intros Hinv Hstuck a' Hstep. pose proof (fun i ph => stuck_phases size s a phs i ph Hinv Hstuck) as Hph.
  assert (forall c k, k <> RecvSleeps -> k <> SendSleeps -> total c k phs = 0) as Hz.
  { intros c k H1 H2. apply total_zero. intros i ph Hi _. specialize (Hph i ph Hi). by destruct ph as [[]| | | | | | |], k. }
  assert (forall i cl, clients a !! i = Some cl -> exists ph, phs !! i = Some ph /\ client_of ph = cl) as Hcl.
  { intros i cl H. rewrite (sim_clients _ _ _ _ Hinv), lookup_map in H. destruct (phs !! i) as [ph|]; [|done]. cbn in H. simplify_eq. eauto. }
  assert (forall c q i ph k, queues a !! c = Some q -> phs !! i = Some ph -> chan_of ph = Some c -> counts_for k ph = 1 ->
    wake_inv (fun k => total c k phs) q /\ 0 < total c k phs) as Hwake.
  { intros c q i ph k Hq Hi Hc Hk. destruct (sim_chans _ _ _ _ Hinv _ _ Hq) as (ch & h & Hci). split; [apply Hci|].
    pose proof (total_ge c k phs i ph Hi) as H. rewrite weight_here, Hk in H by done. lia. }
  inversion Hstep as [i c data k q a0 Hi Hq Hc Hlen|i c data k q a0 Hi Hq Hc|i c k q x rest a0 Hi Hq Hx|i c k q a0 Hi Hq He Hc|i c k q a0 Hi Hq]; subst;
    destruct (Hcl _ _ Hi) as (ph & Hp & Hcp); pose proof (Hph _ _ Hp) as Hs; destruct ph as [[]| | | | | | |]; try done; cbn in Hcp; simplify_eq.
  - destruct (Hwake c q i _ SendSleeps Hq Hp eq_refl eq_refl) as [[_ W] H0]. specialize (W H0). rewrite !Hz in W by done. lia.
  - destruct (Hwake c q i _ SendSleeps Hq Hp eq_refl eq_refl) as [[_ W] H0]. specialize (W H0). rewrite !Hz in W by done.
    destruct W as [[W _]|W]; [congruence|lia].
  - destruct (Hwake c q i _ RecvSleeps Hq Hp eq_refl eq_refl) as [[W _] H0]. specialize (W H0). rewrite !Hz, Hx in W by done. cbn in W. lia.
  - destruct (Hwake c q i _ RecvSleeps Hq Hp eq_refl eq_refl) as [[W _] H0]. specialize (W H0). rewrite !Hz in W by done.
    destruct W as [[W _]|W]; [congruence|lia].
Qed.

(** * The refinement *)

(** Channels as [chan_create] makes them, of an element size and a capacity, and the
    system in which each client's thread starts. *)
Definition new_chan (p : Z * nat) : BlangChan :=
  mkChan (replicate (Z.to_nat (Z.of_nat p.2 * p.1)) (Some "000"%char)) p.1 (Z.of_nat p.2) 0 0 0 false.

Definition sizes_ok (sizes : gmap nat (Z * nat)) : Prop :=
  forall c p, sizes !! c = Some p -> (0 < p.1)%Z /\ 0 < p.2 /\ (Z.of_nat p.2 * p.1 < 2 ^ 64)%Z.

Definition starts (sizes : gmap nat (Z * nat)) (cls : list client) (s : sys) : Prop :=
  rt_chans (shared s) = new_chan <$> sizes /\
  (forall c, is_Some (sizes !! c) -> mutexes s !! ChanMutex c = Some (mkMutex None false)) /\
  threads s = map (fun cl => Running (code cl)) cls.

Definition spec_start (sizes : gmap nat (Z * nat)) (cls : list client) : spec :=
  mkSpec ((fun p => mkQueue [] p.1 p.2 false) <$> sizes) cls.

Lemma start_inv sizes cls s :
  sizes_ok sizes -> Forall (client_ok (fst <$> sizes)) cls -> starts sizes cls s ->
  inv (fst <$> sizes) s (spec_start sizes cls) (map Idle cls).
Proof.
  intros Hsz Hok (Hch & Hm & Ht). constructor; cbn [queues clients spec_start].
  - by rewrite Ht, map_map.
  - by rewrite map_map, map_id.
  - by rewrite <-map_fmap_compose.
  - intros i ph Hi. rewrite lookup_map in Hi. destruct (cls !! i) as [cl|] eqn:Hcl; [|done]. cbn in Hi. simplify_eq.
    by apply (Forall_lookup_1 _ _ _ _ Hok Hcl).
  - intros i ph c Hi Hc. rewrite lookup_map in Hi. destruct (cls !! i); [|done]. cbn in Hi. by simplify_eq.
  - intros c q Hq. rewrite lookup_fmap in Hq. destruct (sizes !! c) as [p|] eqn:Hp; [|done]. cbn in Hq. simplify_eq.
    destruct (Hsz c p Hp) as (H1 & H2 & H3). exists (new_chan p), None. constructor.
    + by rewrite Hch, lookup_fmap, Hp.
    + apply Hm. by eexists.
    + intros i ph Hi. rewrite lookup_map in Hi. destruct (cls !! i); [|done]. cbn in Hi. by simplify_eq.
    + split; [|done]. constructor; cbn; try lia; try done; rewrite length_replicate; lia.
    + assert (forall k, total c k (map Idle cls) = 0) as H0.
      { intros k. apply total_zero. intros i ph Hi Hc. rewrite lookup_map in Hi. destruct (cls !! i); [|done]. cbn in Hi. by simplify_eq. }
      split; rewrite !H0; lia.
Qed.

Lemma reachable_sim size s s' a phs :
  inv size s a phs -> reachable s s' -> exists a' phs', rtc spec_step a a' /\ inv size s' a' phs'.
Proof.
  intros Hinv Hr. revert a phs Hinv. induction Hr as [s|s s1 s2 Hm _ IH]; intros a phs Hinv; [by exists a, phs; split|].
  destruct Hm as [(i & pick & Hs)|Hs].
  - pose proof (step_sim size s a phs i pick Hinv) as H. rewrite Hs in H. destruct H as (a1 & phs1 & Ha & Hinv1).
    destruct (IH a1 phs1 Hinv1) as (a2 & phs2 & Hr2 & Hinv2). exists a2, phs2. split; [|done].
    destruct Ha as [->|Ha]; [done|]. by eapply rtc_l.
  - destruct (spurious_sim size s s1 a phs Hinv Hs) as (phs1 & Hinv1). by apply (IH a phs1).
Qed.

Lemma finished_phase ph r : thread_of ph = Running (Return r) -> client_of ph = Finish r.
Proof. intros H. destruct ph as [[]|? ? ? []|? ? ?|? ? ?|? ? []|? ?|? ?|? ? []]; cbn in H; try done; by simplify_eq. Qed.

(** C31. Channels refine queues. Threads send, receive and close in any order, on any
    number of channels, each deciding by what it received; however the single accesses,
    locks, waits and wakings of their calls are interleaved, also with spurious wakings,
    the threads have done what they could have done on queues with indivisible
    operations: no access is without defined behaviour, a thread that returned returned
    what it would have returned, and if nobody can go on then nobody could with the
    queues, so that no waking is ever missed. *)
Theorem channels_refine_queues sizes cls s0 s :
  sizes_ok sizes -> Forall (client_ok (fst <$> sizes)) cls -> starts sizes cls s0 -> reachable s0 s ->
  exists a, rtc spec_step (spec_start sizes cls) a /\
    (forall i pick, step_at i pick s <> Fault /\ step_at i pick s <> Exited) /\
    (forall i r, threads s !! i = Some (Running (Return r)) -> clients a !! i = Some (Finish r)) /\
    (stuck s -> (forall a', ~ spec_step a a') /\
       forall i r, clients a !! i = Some (Finish r) -> threads s !! i = Some (Running (Return r))).
Proof.
  intros Hsz Hok Hst Hr. destruct (reachable_sim _ _ _ _ _ (start_inv _ _ _ Hsz Hok Hst) Hr) as (a & phs & Ha & Hinv).
  exists a. split; [done|]. split; [|split].
  - intros i pick. pose proof (step_sim _ _ _ _ i pick Hinv) as H. by destruct (step_at i pick s).
  - intros i r Hi. rewrite (sim_threads _ _ _ _ Hinv), lookup_map in Hi. destruct (phs !! i) as [ph|] eqn:Hph; [|done].
    cbn in Hi. injection Hi as Hi. by rewrite (lookup_client _ _ _ _ _ _ Hinv Hph), (finished_phase _ _ Hi).
  - intros Hstuck. split; [by eapply stuck_spec|]. intros i r Hi. rewrite (sim_clients _ _ _ _ Hinv), lookup_map in Hi.
    destruct (phs !! i) as [ph|] eqn:Hph; [|done]. pose proof (stuck_phases _ _ _ _ _ _ Hinv Hstuck Hph) as Hs.
    rewrite (sim_threads _ _ _ _ Hinv), lookup_map, Hph. destruct ph as [[]| | | | | | |]; try done; cbn in *; by simplify_eq.
Qed.
End channels.

(** * A sample: one thread sends two elements and closes, another receives to the end *)

Definition no_runtime : runtime := mkRuntime 0 ∅ ∅ ∅ ∅ (mkTracker 0 None 0 0 false) ∅ (mkRegistry None 0 0) ∅.
Definition byte (c : ascii) : list cell := [Some c].
Definition producer : client (R := list (list cell)) := Send 0 (byte "a") (Send 0 (byte "b") (Close 0 (Finish []))).
Fixpoint consumer (n : nat) (got : list (list cell)) : client (R := list (list cell)) :=
  match n with
  | 0 => Finish got
  | S n => Recv 0 (fun x => match x with Some x => consumer n (got ++ [x]) | None => Finish got end)
  end.
Definition sample_sizes : gmap nat (Z * nat) := {[0 := (1%Z, 1)]}.
Definition sample_clients : list client := [producer; consumer 5 []].
Definition sample_start : system runtime mutex_name cond_name (list (list cell)) :=
  mkSystem (set_chans no_runtime (new_chan <$> sample_sizes)) {[ChanMutex 0 := mkMutex None false]}
    (map (fun cl => Running (code cl)) sample_clients).

(** The receiver comes first and sleeps; the sender fills the channel, wakes it and
    sleeps in turn. *)
Definition sample_schedule : list (nat * nat) :=
  map (fun i => (i, 0)) (replicate 2 1 ++ replicate 10 0 ++ replicate 10 1 ++ replicate 13 0 ++ replicate 12 1).

Definition returned (t : thread runtime mutex_name cond_name (list (list cell))) : option (list (list cell)) :=
  match t with Running (Return r) => Some r | _ => None end.

Lemma channels_refine_queues_witness :
  exists s, run_schedule sample_schedule sample_start = Stepped s /\
    map returned (threads s) = [Some []; Some [byte "a"; byte "b"]] /\
    exists a, rtc spec_step (spec_start sample_sizes sample_clients) a /\
      clients a !! 1 = Some (Finish [byte "a"; byte "b"]).
Proof.
  eexists. split; [vm_compute; reflexivity|]. split; [reflexivity|].
  edestruct (channels_refine_queues sample_sizes sample_clients sample_start) as (a & Ha & _ & Hr & _);
    [| | |eapply (run_schedule_reachable sample_schedule); vm_compute; reflexivity|].
  - intros c p Hc. unfold sample_sizes in Hc; apply lookup_singleton_Some in Hc as [<- <-]. by vm_compute.
  - repeat constructor; try (by exists 1%Z); try (by eexists); intros [|]; cbn; try done.
    all: repeat (split; [by eexists|]; intros []; cbn; try done).
  - split; [done|]. split; [|done]. intros c [p Hc]. unfold sample_sizes in Hc; apply lookup_singleton_Some in Hc as [<- <-]. done.
  - exists a. split; [done|]. by apply Hr.
Defined.
