(* ===== verification/CountTheorems.v ===== *)
(** Counted objects: threads that hold references to an object, retain and release
    them, lock it, and hand references to threads they start, never touch it after it
    was freed, and it is freed once, with what it owns, when the last reference goes. *)

From stdpp Require Import relations.
From S2P Require Import Prelude RuntimeMemory Threads RuntimeThreads.

Section counts.
Context {R : Type}.
#[local] Notation program := (prog runtime mutex_name cond_name R).
#[local] Notation sys := (system runtime mutex_name cond_name R).
#[local] Notation thread := (thread runtime mutex_name cond_name R).

(** The object, and the block of memory it owns, which its destructor frees. *)
Variables (o block : nat).
Definition free_owned (dtor p : nat) : program unit := free_context dtor.

(** What a thread does with the object; [Start m child k] hands [m] of its references
    to a thread that does [child]. *)
Inductive user :=
  | Ended (r : R)
  | Retain (k : user)
  | Release (k : user)
  | Use (k : user)
  | LockIt (k : user)
  | UnlockIt (k : user)
  | Start (m : nat) (child k : user).

Fixpoint uses (u : user) : program R :=
  match u with
  | Ended r => Return r
  | Retain k => rc_retain (Some o);; uses k
  | Release k => rc_release free_owned (Some o);; uses k
  | Use k => _ ← header o rc_count; uses k
  | LockIt k => sync_lock (Some o);; uses k
  | UnlockIt k => sync_unlock (Some o);; uses k
  | Start m child k => _ ← create (uses child); uses k
  end.

(** A thread that holds [n] references and has locked the object [d] times does with
    them what it may: it has one for whatever it does, unlocks what it locked, and gives
    all back. *)
Fixpoint owns (u : user) (n d : nat) : Prop :=
  match u with
  | Ended _ => n = 0 /\ d = 0
  | Retain k => 0 < n /\ owns k (S n) d
  | Release k => 0 < n /\ (d = 0 \/ 1 < n) /\ owns k (n - 1) d
  | Use k => 0 < n /\ owns k n d
  | LockIt k => 0 < n /\ owns k n (S d)
  | UnlockIt k => 0 < n /\ 0 < d /\ owns k n (d - 1)
  | Start m child k => m <= n /\ (0 < d -> m < n) /\ owns child m 0 /\ owns k (n - m) d
  end.

(** How many references it may make. *)
Fixpoint retains (u : user) : nat :=
  match u with
  | Ended _ => 0
  | Retain k => S (retains k)
  | Release k | Use k | LockIt k | UnlockIt k => retains k
  | Start _ child k => retains child + retains k
  end.

(** * Where a thread is *)

(** The rest of the release of the last reference. *)
Inductive last_stage := LDtor | LFree (c : nat) | LMutex | LDestroy | LHeader.

Definition last_at (st : last_stage) : program unit :=
  let free_ := free_header o in
  let destroy_ := destroy_mutex (ObjectMutex o);; free_ in
  let mutex_ := mutex ← header o rc_mutex; p_when mutex (destroy_mutex (ObjectMutex o));; free_ in
  let dtor_ := dtor ← header o rc_destructor; (match dtor with Some d => free_owned d o | None => mret tt end);; mutex_ in
  match st with
  | LDtor => dtor_
  | LFree c => free_context c;; mutex_
  | LMutex => mutex_
  | LDestroy => destroy_
  | LHeader => free_
  end.

Inductive phase :=
  | Free (u : user) (n d : nat)
  | Locks (k : user) (n d : nat)
  | Unlocks (k : user) (n d : nat)
  | Last (k : user) (st : last_stage).

Variable with_mutex : bool.

Definition thread_of (ph : phase) : thread :=
  match ph with
  | Free u _ _ => Running (uses u)
  | Locks k _ _ => Running (Lock (ObjectMutex o) (uses k))
  | Unlocks k _ _ => Running (Unlock (ObjectMutex o) (uses k))
  | Last k st => Running (last_at st;; uses k)
  end.

Definition refs (ph : phase) : nat := match ph with Free _ n _ | Locks _ n _ | Unlocks _ n _ => n | Last _ _ => 0 end.
Definition depth (ph : phase) : nat := match ph with Free _ _ d | Locks _ _ d | Unlocks _ _ d => d | Last _ _ => 0 end.
Definition future (ph : phase) : nat :=
  match ph with Free u _ _ => retains u | Locks k _ _ | Unlocks k _ _ | Last k _ => retains k end.

Definition phase_ok (ph : phase) : Prop :=
  (0 < depth ph -> 0 < refs ph) /\
  match ph with
  | Free u n d => owns u n d
  | Locks k n d => with_mutex = true /\ 0 < n /\ owns k n (S d)
  | Unlocks k n d => with_mutex = true /\ 0 < n /\ 0 < d /\ owns k n (d - 1)
  | Last k st => owns k 0 0 /\ match st with LDestroy => with_mutex = true | LFree c => c = block | _ => True end
  end.

Definition is_last (ph : phase) : nat := match ph with Last _ _ => 1 | _ => 0 end.

(** * What holds of the object *)

(** The mutex is held by the thread that locked the object, as often as it did. *)
Definition held_ok (hb : option (nat * nat)) (phs : list phase) : Prop :=
  match hb with
  | None => forall i ph, phs !! i = Some ph -> depth ph = 0
  | Some (j, m) => 0 < m /\ j < length phs /\ forall i ph, phs !! i = Some ph -> depth ph = if decide (i = j) then m else 0
  end.

Definition object_there (s : sys) (count : nat) : Prop :=
  exists sync, (with_mutex = true -> sync = true) /\
    rt_objects (shared s) !! o = Some (mkHeader (Z.of_nat count) sync with_mutex (Some block)).
Definition mutex_there (s : sys) (phs : list phase) : Prop :=
  with_mutex = true -> exists hb, mutexes s !! ObjectMutex o = Some (mkMutex hb true) /\ held_ok hb phs.

Definition alive (s : sys) (phs : list phase) : Prop :=
  object_there s (sum refs phs) /\ block ∈ rt_contexts (shared s) /\ mutex_there s phs.

(** While the last reference is released, and afterwards. *)
Definition dying (st : last_stage) (s : sys) (phs : list phase) : Prop :=
  object_there s 0 /\
  match st with
  | LDtor | LFree _ => block ∈ rt_contexts (shared s) /\ mutex_there s phs
  | LMutex | LDestroy => block ∉ rt_contexts (shared s) /\ mutex_there s phs
  | LHeader => block ∉ rt_contexts (shared s)
  end.
Definition gone (s : sys) : Prop := rt_objects (shared s) !! o = None /\ block ∉ rt_contexts (shared s).

Record inv (s : sys) (phs : list phase) : Prop := mkCounted {
  inv_threads : threads s = map thread_of phs;
  inv_ok i ph : phs !! i = Some ph -> phase_ok ph;
  inv_bound : (Z.of_nat (sum refs phs + sum future phs) < 2 ^ 31)%Z;
  inv_life :
    (0 < sum refs phs /\ sum is_last phs = 0 /\ alive s phs) \/
    (sum refs phs = 0 /\ sum is_last phs = 1 /\ exists i k st, phs !! i = Some (Last k st) /\ dying st s phs) \/
    (sum refs phs = 0 /\ sum is_last phs = 0 /\ gone s)
}.

(** A thread that has a reference, or is releasing the last one. *)
Lemma inv_alive s phs i ph : inv s phs -> phs !! i = Some ph -> 0 < refs ph -> sum is_last phs = 0 /\ alive s phs.
Proof.
  intros Hinv Hi Hr. pose proof (sum_ge refs phs i ph Hi). destruct (inv_life _ _ Hinv) as [(_ & H1 & H2)|[(H0 & _)|(H0 & _)]]; [done|lia..].
Qed.

Lemma inv_last s phs i k st :
  inv s phs -> phs !! i = Some (Last k st) -> sum refs phs = 0 /\ sum is_last phs = 1 /\ dying st s phs.
Proof.
  intros Hinv Hi. pose proof (sum_ge is_last phs i _ Hi) as H. cbn in H.
  destruct (inv_life _ _ Hinv) as [(_ & H0 & _)|[(H0 & H1 & j & k' & st' & Hj & Hd)|(_ & H0 & _)]]; [lia| |lia].
  split; [done|]. split; [done|]. destruct (decide (i = j)) as [<-|Hne]; [by simplify_eq|].
  pose proof (sum_two is_last phs i j _ _ Hi Hj Hne) as H2. cbn in H2. lia.
Qed.

Lemma held_insert hb phs i ph ph' :
  phs !! i = Some ph -> depth ph' = depth ph -> held_ok hb phs -> held_ok hb (<[i := ph']> phs).
Proof.
  intros Hi Hd. assert (forall j x, <[i := ph']> phs !! j = Some x -> exists y, phs !! j = Some y /\ depth x = depth y) as Hl.
  { intros j x Hj. destruct (decide (i = j)) as [<-|Hne].
    - rewrite list_lookup_insert_eq in Hj by (by eapply lookup_lt_Some). simplify_eq. eauto.
    - rewrite list_lookup_insert_ne in Hj by done. eauto. }
  destruct hb as [[j m]|]; cbn.
  - intros (Hm & Hj & H). rewrite length_insert. split; [done|]. split; [done|]. intros n x Hn. destruct (Hl n x Hn) as (y & Hy & ->). by apply H.
  - intros H n x Hn. destruct (Hl n x Hn) as (y & Hy & ->). by apply (H n).
Qed.

Lemma mutex_insert s s' phs i ph ph' :
  phs !! i = Some ph -> depth ph' = depth ph -> mutexes s' = mutexes s -> mutex_there s phs -> mutex_there s' (<[i := ph']> phs).
Proof. intros Hi Hd Hm H Hw. destruct (H Hw) as (hb & Hb & Hh). exists hb. rewrite Hm. split; [done|by eapply held_insert]. Qed.

(** ** A thread that goes on alone

    How the life of the object goes on is left to each case. *)
Lemma inv_next s s' phs i ph ph' :
  inv s phs -> phs !! i = Some ph -> threads s' = <[i := thread_of ph']> (threads s) -> phase_ok ph' ->
  refs ph' + future ph' <= refs ph + future ph ->
  (0 < sum refs (<[i := ph']> phs) /\ sum is_last (<[i := ph']> phs) = 0 /\ alive s' (<[i := ph']> phs)) \/
  (sum refs (<[i := ph']> phs) = 0 /\ sum is_last (<[i := ph']> phs) = 1 /\
    exists k st, ph' = Last k st /\ dying st s' (<[i := ph']> phs)) \/
  (sum refs (<[i := ph']> phs) = 0 /\ sum is_last (<[i := ph']> phs) = 0 /\ gone s') ->
  inv s' (<[i := ph']> phs).
Proof.
  intros Hinv Hi Ht Hok Hb Hl. constructor.
  - by rewrite Ht, (inv_threads _ _ Hinv), map_insert.
  - intros j x Hj. destruct (decide (i = j)) as [<-|Hne].
    + rewrite list_lookup_insert_eq in Hj by (by eapply lookup_lt_Some). by simplify_eq.
    + rewrite list_lookup_insert_ne in Hj by done. by eapply inv_ok.
  - pose proof (inv_bound _ _ Hinv). pose proof (sum_insert refs phs i ph ph' Hi). pose proof (sum_insert future phs i ph ph' Hi). lia.
  - destruct Hl as [H|[(H1 & H2 & k & st & -> & Hd)|H]]; [by left| |by right; right]. right. left. split; [done|]. split; [done|].
    exists i, k, st. split; [|done]. by rewrite list_lookup_insert_eq by (by eapply lookup_lt_Some).
Qed.

(** ** The single actions *)

Lemma act_add_count {A} (g : Z -> program A) (g' : A -> program R) i pick (s : sys) d h :
  rt_objects (shared s) !! o = Some h ->
  act i pick s (prog_bind g' (prog_bind g (add_count o d))) =
  Stepped (set_thread (set_shared s (put_header (mkHeader (s32 (rc_count h + d)) (rc_is_sync h) (rc_mutex h) (rc_destructor h)) o (shared s))) i
    (Running (prog_bind g' (g (s32 (rc_count h + d)))))).
Proof. intros Hh. cbn. rewrite Hh. done. Qed.

Lemma act_header {A D} (f : BlangRefHeader -> D) (g : D -> program A) (g' : A -> program R) i pick (s : sys) h :
  rt_objects (shared s) !! o = Some h ->
  act i pick s (prog_bind g' (prog_bind g (header o f))) = Stepped (set_thread s i (Running (prog_bind g' (g (f h))))).
Proof. intros Hh. unfold header. rewrite act_read, Hh. done. Qed.

(** A verdict that is no fault and keeps the invariant. *)
Definition fine (v : verdict) : Prop :=
  match v with Fault | Exited => False | Blocked => True | Stepped s' => exists phs', inv s' phs' end.

Lemma alive_next s s' phs i ph ph' :
  inv s phs -> phs !! i = Some ph -> 0 < refs ph -> is_last ph' = 0 -> threads s' = <[i := thread_of ph']> (threads s) -> phase_ok ph' ->
  refs ph' + future ph' <= refs ph + future ph -> 0 < sum refs (<[i := ph']> phs) -> alive s' (<[i := ph']> phs) ->
  fine (Stepped s').
Proof.
  intros Hinv Hi Hr Hl Ht Hok Hb Hs Ha. destruct (inv_alive _ _ _ _ Hinv Hi Hr) as [H0 _]. exists (<[i := ph']> phs).
  eapply inv_next; try done. left. split; [done|]. split; [|done]. pose proof (sum_insert is_last phs i ph ph' Hi). lia.
Qed.

(** A thread with a reference that neither changes the count nor locks. *)
Lemma fine_look s s' phs i ph ph' :
  inv s phs -> phs !! i = Some ph -> 0 < refs ph -> is_last ph' = 0 -> refs ph' = refs ph ->
  depth ph' = depth ph \/ with_mutex = false -> future ph' <= future ph ->
  threads s' = <[i := thread_of ph']> (threads s) -> mutexes s' = mutexes s -> shared s' = shared s -> phase_ok ph' -> fine (Stepped s').
Proof.
  intros Hinv Hi Hr Hl Hrf Hd Hf Ht Hm Hs Hok. destruct (inv_alive _ _ _ _ Hinv Hi Hr) as [_ (Ho & Hc & Hmu)].
  pose proof (sum_insert refs phs i ph ph' Hi) as Hsum. assert (sum refs (<[i := ph']> phs) = sum refs phs) as He by lia.
  pose proof (sum_ge refs phs i ph Hi). eapply alive_next; try done; [lia|lia|]. split; [|split].
  - destruct Ho as (sync & Hsy & Ho). exists sync. by rewrite He, Hs.
  - by rewrite Hs.
  - destruct Hd as [Hd|Hd]; [by eapply mutex_insert|]. intros Hw. congruence.
Qed.

Lemma depth_zero phs : (forall i ph, phs !! i = Some ph -> phase_ok ph) -> sum refs phs = 0 -> forall i ph, phs !! i = Some ph -> depth ph = 0.
Proof.
  intros Hok H0 i ph Hi. destruct (Hok i ph Hi) as [Hd _]. pose proof (sum_ge refs phs i ph Hi). lia.
Qed.

Lemma fine_retain s phs i pick k n d :
  inv s phs -> phs !! i = Some (Free (Retain k) n d) -> fine (act i pick s (uses (Retain k))).
Proof.
  intros Hinv Hi. destruct (inv_ok _ _ Hinv _ _ Hi) as [Hd [Hn Hk]]. destruct (inv_alive _ _ _ _ Hinv Hi Hn) as [_ ((sync & Hsy & Ho) & Hc & Hmu)].
  pose proof (sum_insert refs phs i _ (Free k (S n) d) Hi) as Hsum. pose proof (inv_bound _ _ Hinv). pose proof (sum_ge future phs i _ Hi) as Hf. cbn in Hsum, Hf.
  assert (act i pick s (uses (Retain k)) = Stepped (set_thread (set_shared s (put_header (mkHeader (Z.of_nat (sum refs (<[i := Free k (S n) d]> phs)))
    sync with_mutex (Some block)) o (shared s))) i (Running (uses k)))) as ->.
  { etrans; [exact (act_add_count _ _ i pick s 1 _ Ho)|]. cbn [rc_count rc_is_sync rc_mutex rc_destructor]. rewrite s32_small by lia.
    do 6 f_equal. lia. }
  eapply (alive_next s _ phs i _ (Free k (S n) d)); try done; [split; [cbn; lia|done]|cbn; lia|lia|]. split; [|split].
  - exists sync. split; [done|]. cbn. by rewrite lookup_insert_eq.
  - done.
  - by eapply mutex_insert.
Qed.

Lemma fine_release s phs i pick k n d :
  inv s phs -> phs !! i = Some (Free (Release k) n d) -> fine (act i pick s (uses (Release k))).
Proof.
  intros Hinv Hi. destruct (inv_ok _ _ Hinv _ _ Hi) as [Hd (Hn & Hone & Hk)]. cbn in Hd.
  destruct (inv_alive _ _ _ _ Hinv Hi Hn) as [Hl0 ((sync & Hsy & Ho) & Hc & Hmu)]. pose proof (inv_bound _ _ Hinv).
  pose proof (sum_ge refs phs i _ Hi) as Hge. cbn in Hge.
  set (left_ := sum refs phs - 1).
  assert (act i pick s (uses (Release k)) = Stepped (set_thread (set_shared s (put_header (mkHeader (Z.of_nat left_) sync with_mutex (Some block)) o (shared s))) i
    (Running (if decide (Z.of_nat left_ <= 0)%Z then last_at LDtor;; uses k else uses k)))) as ->.
  { etrans; [exact (act_add_count _ _ i pick s (-1) _ Ho)|]. cbn [rc_count rc_is_sync rc_mutex rc_destructor]. rewrite s32_small by lia.
    replace (Z.of_nat (sum refs phs) + -1)%Z with (Z.of_nat left_) by lia. by case_decide. }
  assert (forall ph', depth ph' = d -> object_there (set_thread (set_shared s (put_header (mkHeader (Z.of_nat left_) sync with_mutex (Some block)) o (shared s))) i
    (thread_of ph')) left_) as Hobj.
  { intros ph' _. exists sync. split; [done|]. cbn. by rewrite lookup_insert_eq. }
  case_decide as Hlast.
  - assert (n = 1 /\ sum refs phs = 1) as [-> Hs1] by lia. assert (d = 0) as -> by lia. exists (<[i := Last k LDtor]> phs).
    pose proof (sum_insert refs phs i _ (Last k LDtor) Hi) as H1. pose proof (sum_insert is_last phs i _ (Last k LDtor) Hi) as H2. cbn in H1, H2.
    eapply inv_next; try done; [cbn; lia|]. right. left. split; [lia|]. split; [lia|]. exists k, LDtor. split; [done|].
    split; [replace 0 with left_ by lia; by apply (Hobj (Last k LDtor))|]. split; [done|]. by eapply mutex_insert.
  - pose proof (sum_insert refs phs i _ (Free k (n - 1) d) Hi) as H1. cbn in H1. assert (sum refs (<[i := Free k (n - 1) d]> phs) = left_) as He by lia.
    eapply (alive_next s _ phs i _ (Free k (n - 1) d)); try done; [|cbn; lia|lia|].
    + split; [cbn; lia|done].
    + split; [rewrite He; by apply (Hobj (Free k (n - 1) d))|]. split; [done|]. by eapply mutex_insert.
Qed.

Lemma fine_use s phs i pick k n d : inv s phs -> phs !! i = Some (Free (Use k) n d) -> fine (act i pick s (uses (Use k))).
Proof.
  intros Hinv Hi. destruct (inv_ok _ _ Hinv _ _ Hi) as [Hd (Hn & Hk)]. destruct (inv_alive _ _ _ _ Hinv Hi Hn) as [_ ((sync & Hsy & Ho) & _)].
  assert (act i pick s (uses (Use k)) = Stepped (set_thread s i (Running (uses k)))) as -> by (cbn; rewrite Ho; by destruct s).
  by eapply (fine_look s _ phs i _ (Free k n d)); try done; left.
Qed.

(** Whether there is a mutex to lock. *)
Lemma sync_known s phs i ph :
  inv s phs -> phs !! i = Some ph -> 0 < refs ph ->
  exists h, rt_objects (shared s) !! o = Some h /\ rc_is_sync h && rc_mutex h = with_mutex.
Proof.
  intros Hinv Hi Hr. destruct (inv_alive _ _ _ _ Hinv Hi Hr) as [_ ((sync & Hsy & Ho) & _)]. eexists. split; [done|]. cbn.
  destruct with_mutex; [by rewrite Hsy|by rewrite andb_false_r].
Qed.

Lemma fine_lock_it s phs i pick k n d : inv s phs -> phs !! i = Some (Free (LockIt k) n d) -> fine (act i pick s (uses (LockIt k))).
Proof.
  intros Hinv Hi. destruct (inv_ok _ _ Hinv _ _ Hi) as [Hd (Hn & Hk)]. destruct (sync_known _ _ _ _ Hinv Hi Hn) as (h & Ho & Hb).
  assert (act i pick s (uses (LockIt k)) = Stepped (set_thread s i (Running (if with_mutex then Lock (ObjectMutex o) (uses k) else uses k)))) as ->.
  { etrans; [exact (act_header _ _ _ i pick s h Ho)|]. cbn beta. rewrite Hb. by destruct with_mutex. }
  destruct with_mutex eqn:Hw.
  - eapply (fine_look s _ phs i _ (Locks k n d)); try done; by left.
  - eapply (fine_look s _ phs i _ (Free k n (S d))); try done; by right.
Qed.

Lemma fine_unlock_it s phs i pick k n d : inv s phs -> phs !! i = Some (Free (UnlockIt k) n d) -> fine (act i pick s (uses (UnlockIt k))).
Proof.
  intros Hinv Hi. destruct (inv_ok _ _ Hinv _ _ Hi) as [Hd (Hn & Hp & Hk)]. destruct (sync_known _ _ _ _ Hinv Hi Hn) as (h & Ho & Hb).
  assert (act i pick s (uses (UnlockIt k)) = Stepped (set_thread s i (Running (if with_mutex then Unlock (ObjectMutex o) (uses k) else uses k)))) as ->.
  { etrans; [exact (act_header _ _ _ i pick s h Ho)|]. cbn beta. rewrite Hb. by destruct with_mutex. }
  destruct with_mutex eqn:Hw.
  - eapply (fine_look s _ phs i _ (Unlocks k n d)); try done; by left.
  - eapply (fine_look s _ phs i _ (Free k n (d - 1))); try done; (by right) || (split; [cbn; lia|done]).
Qed.

(** The mutex changes hands. *)
Lemma fine_mutex s phs i ph ph' hb hb' p :
  inv s phs -> phs !! i = Some ph -> 0 < refs ph -> is_last ph' = 0 -> refs ph' = refs ph -> future ph' <= future ph -> phase_ok ph' ->
  thread_of ph' = Running p -> mutexes s !! ObjectMutex o = Some (mkMutex hb true) -> held_ok hb phs ->
  held_ok hb' (<[i := ph']> phs) ->
  fine (Stepped (set_thread (set_mutex s (ObjectMutex o) (mkMutex hb' true)) i (Running p))).
Proof.
  intros Hinv Hi Hr Hl Hrf Hf Hok Hp Hm Hh Hh'. destruct (inv_alive _ _ _ _ Hinv Hi Hr) as [_ (Ho & Hc & Hmu)].
  pose proof (sum_insert refs phs i ph ph' Hi) as Hsum. pose proof (sum_ge refs phs i ph Hi).
  eapply alive_next; try done; [by rewrite Hp|lia|lia|]. split; [|split].
  - destruct Ho as (sync & Hsy & Ho). exists sync. split; [done|]. replace (sum refs (<[i := ph']> phs)) with (sum refs phs) by lia. done.
  - done.
  - intros _. exists hb'. split; [|done]. cbn. by rewrite lookup_insert_eq.
Qed.

Lemma depth_insert (phs : list phase) i ph' j x : i < length phs -> <[i := ph']> phs !! j = Some x -> (j = i /\ x = ph') \/ (j <> i /\ phs !! j = Some x).
Proof.
  intros Hi Hj. destruct (decide (i = j)) as [<-|Hne].
  - rewrite list_lookup_insert_eq in Hj by done. simplify_eq. auto.
  - rewrite list_lookup_insert_ne in Hj by done. auto.
Qed.

Lemma fine_locks s phs i pick k n d : inv s phs -> phs !! i = Some (Locks k n d) -> fine (act i pick s (Lock (ObjectMutex o) (uses k))).
Proof.
  intros Hinv Hi. destruct (inv_ok _ _ Hinv _ _ Hi) as [Hd (Hw & Hn & Hk)]. destruct (inv_alive _ _ _ _ Hinv Hi Hn) as [_ (_ & _ & Hmu)].
  destruct (Hmu Hw) as (hb & Hm & Hh). apply lookup_lt_Some in Hi as Hlen. cbn [act]. unfold acquire. rewrite Hm.
  assert (phase_ok (Free k n (S d))) as Hok by (split; [done|by cbn]).
  destruct hb as [[j m]|]; [case_decide as Hij; [subst j|done]|]; cbn [and_then].
  - destruct Hh as (Hm0 & Hj & Hh). pose proof (Hh i _ Hi) as Hdi. rewrite decide_True in Hdi by done. cbn in Hdi. subst d.
    eapply (fine_mutex s phs i _ (Free k n (S m)) _ (Some (i, S m))); try done; cbn.
    split; [lia|]. rewrite length_insert. split; [done|]. intros j x Hx. destruct (depth_insert _ _ _ _ _ Hlen Hx) as [[-> ->]|[Hne Hx']].
    + by rewrite decide_True.
    + rewrite (Hh j x Hx'), !decide_False by done. done.
  - pose proof (Hh i _ Hi) as Hdi. cbn in Hdi. subst d.
    eapply (fine_mutex s phs i _ (Free k n 1) _ (Some (i, 1))); try done; cbn.
    split; [lia|]. rewrite length_insert. split; [done|]. intros j x Hx. destruct (depth_insert _ _ _ _ _ Hlen Hx) as [[-> ->]|[Hne Hx']].
    + by rewrite decide_True.
    + rewrite decide_False by done. by apply (Hh j x).
Qed.

Lemma fine_unlocks s phs i pick k n d : inv s phs -> phs !! i = Some (Unlocks k n d) -> fine (act i pick s (Unlock (ObjectMutex o) (uses k))).
Proof.
  intros Hinv Hi. destruct (inv_ok _ _ Hinv _ _ Hi) as [Hd (Hw & Hn & Hp & Hk)]. destruct (inv_alive _ _ _ _ Hinv Hi Hn) as [_ (_ & _ & Hmu)].
  destruct (Hmu Hw) as (hb & Hm & Hh). apply lookup_lt_Some in Hi as Hlen.
  assert (phase_ok (Free k n (d - 1))) as Hok by (split; [cbn; lia|done]).
  destruct hb as [[j m]|]; [|specialize (Hh i _ Hi); cbn in Hh; lia]. pose proof Hh as (Hm0 & Hj & Hh').
  pose proof (Hh' i _ Hi) as Hdi. cbn in Hdi. case_decide as Hij; [subst j m|lia].
  cbn [act]. unfold release. rewrite Hm, decide_True by done. cbn [and_then].
  eapply (fine_mutex s phs i _ (Free k n (d - 1)) _ _); try done. case_decide as Hone; cbn.
  - intros j x Hx. destruct (depth_insert _ _ _ _ _ Hlen Hx) as [[-> ->]|[Hne Hx']]; [cbn; lia|]. by rewrite (Hh' j x Hx'), decide_False.
  - split; [lia|]. rewrite length_insert. split; [done|]. intros j x Hx. destruct (depth_insert _ _ _ _ _ Hlen Hx) as [[-> ->]|[Hne Hx']].
    + by rewrite decide_True.
    + by rewrite (Hh' j x Hx'), !decide_False.
Qed.

(** The release of the last reference goes on. *)
Lemma fine_dying s s' phs i k st st' :
  inv s phs -> phs !! i = Some (Last k st) -> threads s' = <[i := thread_of (Last k st')]> (threads s) -> phase_ok (Last k st') ->
  dying st' s' (<[i := Last k st']> phs) -> fine (Stepped s').
Proof.
  intros Hinv Hi Ht Hok Hd. destruct (inv_last _ _ _ _ _ Hinv Hi) as (Hr & Hl & _).
  pose proof (sum_insert refs phs i _ (Last k st') Hi) as H1. pose proof (sum_insert is_last phs i _ (Last k st') Hi) as H2. cbn in H1, H2.
  exists (<[i := Last k st']> phs). eapply inv_next; try done. right. left. split; [lia|]. split; [lia|]. by exists k, st'.
Qed.

Lemma fine_last s phs i pick k st : inv s phs -> phs !! i = Some (Last k st) -> fine (act i pick s (last_at st;; uses k)).
Proof.
  intros Hinv Hi. destruct (inv_ok _ _ Hinv _ _ Hi) as [_ [Hk Hst]]. destruct (inv_last _ _ _ _ _ Hinv Hi) as (Hr & Hl & Hobj & Hd).
  pose proof Hobj as (sync & Hsy & Ho).
  assert (forall s' : sys, shared s' = shared s -> object_there s' 0) as Hobj' by (intros s' Hs; exists sync; by rewrite Hs).
  assert (forall (s' : sys) st', mutexes s' = mutexes s -> mutex_there s phs -> mutex_there s' (<[i := Last k st']> phs)) as Hmu'
    by (intros; by eapply mutex_insert).
  destruct st as [|c| | |].
  - assert (act i pick s (last_at LDtor;; uses k) = Stepped (set_thread s i (Running (last_at (LFree block);; uses k)))) as ->
      by (etrans; [exact (act_header _ _ _ i pick s _ Ho)|done]).
    eapply (fine_dying s _ phs i k _ (LFree block)); try done. split; [by apply Hobj'|]. destruct Hd as [Hc Hm]. split; [done|by apply Hmu'].
  - subst c. destruct Hd as [Hc Hm].
    assert (act i pick s (last_at (LFree block);; uses k) =
      Stepped (set_thread (set_shared s (set_contexts (shared s) (rt_contexts (shared s) ∖ {[block]}))) i (Running (last_at LMutex;; uses k)))) as ->
      by (cbn; by rewrite decide_True).
    eapply (fine_dying s _ phs i k _ LMutex); try done. split; [by exists sync|]. split; [cbn; set_solver|by apply Hmu'].
  - destruct Hd as [Hc Hm].
    assert (act i pick s (last_at LMutex;; uses k) =
      Stepped (set_thread s i (Running (last_at (if with_mutex then LDestroy else LHeader);; uses k)))) as ->
      by (etrans; [exact (act_header _ _ _ i pick s _ Ho)|]; cbn beta; cbn [rc_mutex]; by destruct with_mutex).
    destruct with_mutex eqn:Hw.
    + eapply (fine_dying s _ phs i k _ LDestroy); try done. split; [by apply Hobj'|]. split; [done|by apply Hmu'].
    + eapply (fine_dying s _ phs i k _ LHeader); try done.
  - destruct Hd as [Hc Hm]. destruct (Hm Hst) as (hb & Hb & Hh).
    assert (hb = None) as ->.
    { destruct hb as [[j m]|]; [|done]. destruct Hh as (Hm0 & Hj & Hh). destruct (lookup_lt_is_Some_2 _ _ Hj) as [x Hx].
      pose proof (depth_zero phs (inv_ok _ _ Hinv) Hr j x Hx). specialize (Hh j x Hx). rewrite decide_True in Hh by done. lia. }
    assert (act i pick s (last_at LDestroy;; uses k) =
      Stepped (set_thread (mkSystem (shared s) (delete (ObjectMutex o) (mutexes s)) (threads s)) i (Running (last_at LHeader;; uses k)))) as ->
      by (cbn; by rewrite Hb).
    eapply (fine_dying s _ phs i k _ LHeader); try done.
  - assert (act i pick s (last_at LHeader;; uses k) =
      Stepped (set_thread (set_shared s (set_objects (shared s) (delete o (rt_objects (shared s))))) i (Running (uses k)))) as ->
      by (cbn; by rewrite Ho).
    pose proof (sum_insert refs phs i _ (Free k 0 0) Hi) as H1. pose proof (sum_insert is_last phs i _ (Free k 0 0) Hi) as H2. cbn in H1, H2.
    exists (<[i := Free k 0 0]> phs). eapply inv_next; try done. right. right. split; [lia|]. split; [lia|]. split; [|done].
    cbn. by rewrite lookup_delete_eq.
Qed.

(** A thread is started. *)
Lemma held_snoc hb phs x : depth x = 0 -> held_ok hb phs -> held_ok hb (phs ++ [x]).
Proof.
  intros Hx. assert (forall i y, (phs ++ [x]) !! i = Some y -> phs !! i = Some y \/ (i = length phs /\ y = x)) as Hl.
  { intros i y Hy. apply lookup_app_Some in Hy as [Hy|[Hi Hy]]; [by left|]. right. apply list_lookup_singleton_Some in Hy as [Hy ->].
    split; [lia|done]. }
  destruct hb as [[j m]|]; cbn.
  - intros (Hm & Hj & H). rewrite length_app. cbn [length]. split; [done|]. split; [lia|]. intros i y Hy.
    destruct (Hl i y Hy) as [Hy'|[-> ->]]; [by apply H|]. rewrite decide_False by lia. done.
  - intros H i y Hy. destruct (Hl i y Hy) as [Hy'|[-> ->]]; [by apply (H i)|done].
Qed.

Lemma fine_start s phs i pick m child k n d :
  inv s phs -> phs !! i = Some (Free (Start m child k) n d) -> fine (act i pick s (uses (Start m child k))).
Proof.
  intros Hinv Hi. destruct (inv_ok _ _ Hinv _ _ Hi) as [Hd (Hm & Hdm & Hch & Hk)]. cbn in Hd. apply lookup_lt_Some in Hi as Hlen.
  set (s1 := set_thread (mkSystem (shared s) (mutexes s) (threads s ++ [Running (uses child)])) i (Running (uses k))).
  change (act i pick s (uses (Start m child k))) with (Stepped s1).
  set (phs1 := <[i := Free k (n - m) d]> phs). exists (phs1 ++ [Free child m 0]).
  pose proof (sum_insert refs phs i _ (Free k (n - m) d) Hi) as H1. pose proof (sum_insert is_last phs i _ (Free k (n - m) d) Hi) as H2.
  pose proof (sum_insert future phs i _ (Free k (n - m) d) Hi) as H3. cbn in H1, H2, H3.
  assert (sum refs (phs1 ++ [Free child m 0]) = sum refs phs) as Hrefs by (rewrite sum_snoc; cbn; unfold phs1; lia).
  assert (sum is_last (phs1 ++ [Free child m 0]) = sum is_last phs) as Hlasts by (rewrite sum_snoc; cbn; unfold phs1; lia).
  assert (forall hb, held_ok hb phs -> held_ok hb (phs1 ++ [Free child m 0])) as Hheld
    by (intros hb Hh; apply held_snoc; [done|by eapply held_insert]).
  assert (mutex_there s phs -> mutex_there s1 (phs1 ++ [Free child m 0])) as Hmu.
  { intros H Hw. destruct (H Hw) as (hb & Hb & Hh). exists hb. split; [done|by apply Hheld]. }
  constructor.
  - unfold s1. cbn [threads set_thread]. rewrite map_app, (inv_threads _ _ Hinv). unfold phs1. rewrite map_insert.
    rewrite insert_app_l by (by rewrite length_map). done.
  - intros j x Hx. apply lookup_app_Some in Hx as [Hx|[_ Hx]].
    + destruct (depth_insert _ _ _ _ _ Hlen Hx) as [[-> ->]|[_ Hx']]; [|by eapply inv_ok]. split; [cbn; lia|done].
    + apply list_lookup_singleton_Some in Hx as [_ <-]. split; [cbn; lia|done].
  - rewrite Hrefs, sum_snoc. pose proof (inv_bound _ _ Hinv). cbn. unfold phs1. lia.
  - destruct (inv_life _ _ Hinv) as [(Hr & Hl & (Hob & Hc & Hmt))|[(Hr & Hl & j & k' & st & Hj & Hob & Hdy)|(Hr & Hl & Hg)]].
    + left. split; [lia|]. split; [lia|]. split; [by rewrite Hrefs|]. split; [done|by apply Hmu].
    + right. left. split; [lia|]. split; [lia|]. exists j, k', st. assert (i <> j) as Hne by (intros ->; simplify_eq). split.
      { apply lookup_app_l_Some. unfold phs1. by rewrite list_lookup_insert_ne. }
      split; [done|]. destruct st; try done; destruct Hdy; (split; [done|by apply Hmu]).
    + right. right. split; [lia|]. split; [lia|done].
Qed.

(** ** Every move *)

Lemma step_fine s phs i pick : inv s phs -> fine (step_at i pick s).
Proof.
  intros Hinv. unfold step_at. rewrite (inv_threads _ _ Hinv), lookup_map. destruct (phs !! i) as [ph|] eqn:Hi; [|done].
  cbn [fmap option_fmap option_map]. destruct ph as [[r|k|k|k|k|k|m child k] n d|k n d|k n d|k st]; cbn [thread_of].
  - done.
  - by eapply fine_retain.
  - by eapply fine_release.
  - by eapply fine_use.
  - by eapply fine_lock_it.
  - by eapply fine_unlock_it.
  - by eapply fine_start.
  - by eapply fine_locks.
  - by eapply fine_unlocks.
  - by eapply fine_last.
Qed.

Lemma moves_inv s s' phs : inv s phs -> moves s s' -> exists phs', inv s' phs'.
Proof.
  intros Hinv [(i & pick & Hs)|(i & c & m & p & Hi & _)].
  - pose proof (step_fine s phs i pick Hinv) as H. by rewrite Hs in H.
  - rewrite (inv_threads _ _ Hinv), lookup_map in Hi. destruct (phs !! i) as [ph|]; [|done]. by destruct ph.
Qed.

(** Who cannot go on has ended, or waits for a thread that can. *)
Lemma blocked_phase s phs i ph :
  inv s phs -> phs !! i = Some ph -> step_at i 0 s = Blocked ->
  (exists r n d, ph = Free (Ended r) n d) \/
  exists j x, j <> i /\ phs !! j = Some x /\ 0 < depth x /\ mutexes s !! ObjectMutex o = Some (mkMutex (Some (j, depth x)) true).
Proof.
  intros Hinv Hi Hb. unfold step_at in Hb. rewrite (inv_threads _ _ Hinv), lookup_map, Hi in Hb. cbn [fmap option_fmap option_map] in Hb.
  destruct ph as [u n d|k n d|k n d|k st]; cbn [thread_of] in Hb.
  - left. apply blocked_prog in Hb. destruct u; try done. eauto.
  - right. destruct (inv_ok _ _ Hinv _ _ Hi) as [Hd (Hw & Hn & Hk)]. destruct (inv_alive _ _ _ _ Hinv Hi Hn) as [_ (_ & _ & Hmu)].
    destruct (Hmu Hw) as (hb & Hm & Hh). cbn [act] in Hb. unfold acquire in Hb. rewrite Hm in Hb. destruct hb as [[j m]|]; [|done].
    case_decide as Hij; [done|]. destruct Hh as (Hm0 & Hj & Hh). destruct (lookup_lt_is_Some_2 _ _ Hj) as [x Hx].
    pose proof (Hh j x Hx) as Hdx. rewrite decide_True in Hdx by done. exists j, x. rewrite Hdx. split_and!; auto.
  - apply blocked_prog in Hb. done.
  - apply blocked_prog in Hb. by destruct st.
Qed.

Lemma stuck_ended s phs : inv s phs -> stuck s -> (forall i ph, phs !! i = Some ph -> exists r n d, ph = Free (Ended r) n d) /\ gone s.
Proof.
  intros Hinv Hstuck. assert (forall i, step_at i 0 s = Blocked) as Hb.
  { intros j. pose proof (step_fine s phs j 0 Hinv) as H. specialize (Hstuck j 0). by destruct (step_at j 0 s). }
  assert (forall i ph, phs !! i = Some ph -> exists r n d, ph = Free (Ended r) n d) as Hall.
  { intros i ph Hi. destruct (blocked_phase _ _ _ _ Hinv Hi (Hb i)) as [H|(j & x & Hne & Hx & Hd & Hm)]; [done|].
    destruct (blocked_phase _ _ _ _ Hinv Hx (Hb j)) as [(r & n & d & ->)|(j' & x' & Hne' & Hx' & Hd' & Hm')].
    - destruct (inv_ok _ _ Hinv _ _ Hx) as [_ [_ H0]]. cbn in Hd. lia.
    - rewrite Hm in Hm'. simplify_eq. }
  split; [done|].
  assert (sum refs phs = 0 /\ sum is_last phs = 0) as [H0 H1].
  { assert (forall i ph, phs !! i = Some ph -> refs ph = 0 /\ is_last ph = 0) as H.
    { intros i ph Hi. destruct (Hall i ph Hi) as (r & n & d & ->). destruct (inv_ok _ _ Hinv _ _ Hi) as [_ [-> _]]. done. }
    clear -H. induction phs as [|ph phs IH]; [done|]. cbn. destruct (H 0 ph eq_refl) as [-> ->].
    destruct IH as [-> ->]; [|done]. intros i x Hx. by apply (H (S i)). }
  destruct (inv_life _ _ Hinv) as [(Hr & _)|[(_ & Hl & _)|(_ & _ & Hg)]]; [lia|lia|done].
Qed.

(** An object with one reference, held by the one thread there is. *)
Definition begins (u : user) (s : sys) : Prop :=
  threads s = [Running (uses u)] /\ object_there s 1 /\ block ∈ rt_contexts (shared s) /\
  (with_mutex = true -> mutexes s !! ObjectMutex o = Some (mkMutex None true)).

Lemma begins_inv u s : owns u 1 0 -> (1 + Z.of_nat (retains u) < 2 ^ 31)%Z -> begins u s -> inv s [Free u 1 0].
Proof.
  intros Hu Hb (Ht & Ho & Hc & Hm). constructor; [done| |cbn; lia|].
  - intros i ph Hi. apply list_lookup_singleton_Some in Hi as [_ <-]. split; [cbn; lia|done].
  - left. split; [cbn; lia|]. split; [done|]. split; [done|]. split; [done|]. intros Hw. exists None. split; [by apply Hm|].
    intros i ph Hi. by apply list_lookup_singleton_Some in Hi as [_ <-].
Qed.

(** C32. A counted object is freed once, and not before its time. Threads retain and
    release their references, read the object, lock it as often as they like, and hand
    references to threads they start, in any interleaving of the single accesses; as long
    as each does so only with references it holds, no access is without defined
    behaviour - none touches the object, its mutex or what it owns after they were freed,
    and none is freed twice - and the threads can always go on until all have ended,
    when the object and what it owns are freed. *)
Theorem counted_object_freed_once u s0 s :
  owns u 1 0 -> (1 + Z.of_nat (retains u) < 2 ^ 31)%Z -> begins u s0 -> reachable s0 s ->
  (forall i pick, step_at i pick s <> Fault /\ step_at i pick s <> Exited) /\
  (stuck s -> (forall i t, threads s !! i = Some t -> exists r, t = Running (Return r)) /\
     rt_objects (shared s) !! o = None /\ block ∉ rt_contexts (shared s)).
Proof.
  intros Hu Hb Hs Hr.
  assert (exists phs, inv s phs) as [phs Hinv].
  { apply (reachable_ind (fun s => exists phs, inv s phs) s0); [|by intros s1 s2 [phs1 H1] Hm; eapply moves_inv|done].
    eexists. by apply (begins_inv u). }
  split.
  - intros i pick. pose proof (step_fine _ _ i pick Hinv) as H. by destruct (step_at i pick s).
  - intros Hstuck. destruct (stuck_ended _ _ Hinv Hstuck) as [Hall Hg]. split; [|done]. intros i t Hi.
    rewrite (inv_threads _ _ Hinv), lookup_map in Hi. destruct (phs !! i) as [ph|] eqn:Hph; [|done].
    destruct (Hall i ph Hph) as (r & n & d & ->). cbn in Hi. simplify_eq. by exists r.
Qed.
End counts.

(** * A sample: two threads share an object with a mutex *)

Definition sample_child : user (R := nat) := LockIt (Use (LockIt (UnlockIt (UnlockIt (Release (Ended 1)))))).
Definition sample_user : user (R := nat) := Retain (Start 1 sample_child (LockIt (Use (UnlockIt (Release (Ended 0)))))).
Definition sample_object : system runtime mutex_name cond_name nat :=
  mkSystem (mkRuntime 9 {[7 := mkHeader 1 true true (Some 8)]} ∅ {[8]} ∅ (mkTracker 0 None 0 0 false) ∅ (mkRegistry None 0 0) ∅)
    {[ObjectMutex 7 := mkMutex None true]} [Running (uses 7 sample_user)].

(** The second thread finds the mutex taken, and releases the last reference. *)
Definition sample_turns : list (nat * nat) :=
  map (fun i => (i, 0)) (replicate 5 0 ++ [1] ++ replicate 3 0 ++ replicate 14 1).

Lemma counted_object_freed_once_witness :
  exists s, run_schedule sample_turns sample_object = Stepped s /\ length (threads s) = 2 /\ stuck s /\
    rt_objects (shared s) !! 7 = None /\ 8 ∉ rt_contexts (shared s).
Proof.
  eexists. split; [vm_compute; reflexivity|]. split; [done|]. match goal with |- stuck ?s /\ _ => assert (stuck s) as Hs end.
  { intros [|[|i]] pick; [done..|]. unfold step_at. cbn [threads]. by destruct i. }
  split; [done|]. refine (proj2 (proj2 (counted_object_freed_once 7 8 true sample_user sample_object _ _ _ _ _) Hs)).
  - cbn. lia.
  - cbn. lia.
  - split; [done|]. split; [by exists true|]. split; [by apply (bool_decide_unpack _); vm_compute|done].
  - eapply (run_schedule_reachable sample_turns). vm_compute. reflexivity.
Defined.
