(* ===== verification/RefCount.v ===== *)
(** Reference counting of the compiler's shared objects ([src/RefCount.h]): the counter
    of an object, the smart pointers to it, and the deletion of an object with the
    smart pointers it holds.

    A smart pointer is at a place: it is a variable, or a member of an object. A counter
    is an atomic [int], which wraps around. *)

From S2P Require Import Prelude RuntimeMemory.

(** * Objects and pointers *)

Inductive place := Variable_ (v : nat) | Member (o i : nat).

#[export] Instance place_eq_dec : EqDecision place.
Proof. solve_decision. Defined.

#[export] Instance place_countable : Countable place.
Proof.
  apply (inj_countable' (fun p => match p with Variable_ v => inl v | Member o i => inr (o, i) end)
    (fun x => match x with inl v => Variable_ v | inr (o, i) => Member o i end)).
  by intros [].
Defined.

(** The counter of an object, and the number of its members that are smart pointers. *)
Record RefCount := mkRefCount { mRefCount : Z; rc_members : nat }.

Record shared := mkShared {
  sh_objects : gmap nat RefCount;
  sh_next : nat;
  sh_pointers : gmap place (option nat)
}.

Definition set_shared_objects (f : gmap nat RefCount -> gmap nat RefCount) (s : shared) : shared :=
  mkShared (f (sh_objects s)) (sh_next s) (sh_pointers s).
Definition set_pointers (f : gmap place (option nat) -> gmap place (option nat)) (s : shared) : shared :=
  mkShared (sh_objects s) (sh_next s) (f (sh_pointers s)).

Definition R : Type -> Type := run shared.

Definition there {A} (o : option A) : R A := match o with Some a => mret a | None => undefined end.

Definition get_object (o : nat) : R RefCount := m ← gets sh_objects; there (m !! o).
Definition get_pointer (p : place) : R (option nat) := m ← gets sh_pointers; there (m !! p).

(** [mRefCount.fetch_add( n )]: the value before. *)
Definition fetch_add (o : nat) (n : Z) : R Z :=
  x ← get_object o;
  modify (set_shared_objects <[o := mkRefCount (s32 (mRefCount x + n)) (rc_members x)]>);;
  mret (mRefCount x).

Definition AddRef (o : nat) : R unit := fetch_add o 1;; mret tt.

(** What follows for each of a number of members, the last one first. *)
Fixpoint each_member (n : nat) (body : nat -> R unit) : R unit :=
  match n with 0 => mret tt | S n => body n;; each_member n body end.

(** [delete this] destroys the members and frees the object. Nothing reads a pointer
    while it is destroyed: it is gone before its object is released. *)
Fixpoint Release (fuel : nat) (o : nat) : R unit :=
  match fuel with
  | 0 => fun _ => OutOfFuel
  | S fuel =>
      old ← fetch_add o (-1);
      if decide (old = 1)%Z then
        x ← get_object o;
        each_member (rc_members x) (fun i =>
          mObj ← get_pointer (Member o i);
          modify (set_pointers (delete (Member o i)));;
          match mObj with Some p => Release fuel p | None => mret tt end);;
        modify (set_shared_objects (delete o))
      else mret tt
  end.

(** Each deletion on the way takes one object. *)
Definition release_object (o : nat) : R unit := n ← gets (fun s => size (sh_objects s)); Release n o.

Definition put_pointer (p : place) (obj : option nat) : R unit :=
  get_pointer p;; modify (set_pointers <[p := obj]>).

(** [SmartPtr( T * )], of a new variable. *)
Definition SmartPtr_new (v : nat) (obj : option nat) : R unit :=
  modify (set_pointers <[Variable_ v := obj]>);;
  match obj with Some o => AddRef o | None => mret tt end.

(** [~SmartPtr()], of a variable. *)
Definition SmartPtr_delete (v : nat) : R unit :=
  mObj ← get_pointer (Variable_ v);
  modify (set_pointers (delete (Variable_ v)));;
  match mObj with Some o => release_object o | None => mret tt end.

(** [operator=( T * )] *)
Definition SmartPtr_assign (p : place) (obj : option nat) : R unit :=
  match obj with Some o => AddRef o | None => mret tt end;;
  mObj ← get_pointer p;
  match mObj with Some o => release_object o | None => mret tt end;;
  put_pointer p obj.

(** ** Programs

    A pointer is named by its variable, or as a member of the object a variable points
    to ([operator->]). *)

Inductive path := Var (v : nat) | Arrow (v i : nat).

Definition place_of (x : path) : R place :=
  match x with
  | Var v => mret (Variable_ v)
  | Arrow v i => o ← get_pointer (Variable_ v); o ← there o; mret (Member o i)
  end.

(** [new T]: a counter of zero, and members that are null. *)
Definition null_members (o n : nat) (m : gmap place (option nat)) : gmap place (option nat) :=
  foldr (fun i => <[Member o i := None]>) m (seq 0 n).
Definition make_shared_object (n : nat) : R nat := fun s =>
  Done (sh_next s, mkShared (<[sh_next s := mkRefCount 0 n]> (sh_objects s)) (S (sh_next s))
    (null_members (sh_next s) n (sh_pointers s))).

Inductive op :=
  | Default (v : nat)
  | Create (v n : nat)
  | Copy (v : nat) (src : path)
  | Assign (dst src : path)
  | Clear (dst : path)
  | Drop (v : nat).

Definition do (c : op) : R unit :=
  match c with
  | Default v => SmartPtr_new v None
  | Create v n => o ← make_shared_object n; SmartPtr_new v (Some o)
  | Copy v src => p ← place_of src; obj ← get_pointer p; SmartPtr_new v obj
  | Assign dst src => q ← place_of src; obj ← get_pointer q; p ← place_of dst; SmartPtr_assign p obj
  | Clear dst => p ← place_of dst; SmartPtr_assign p None
  | Drop v => SmartPtr_delete v
  end.

(** What a program may do: it names variables it has, members of objects, and declares
    others; and there are not so many pointers that a counter overflows. *)
Definition names (s : shared) (x : path) : Prop :=
  match x with
  | Var v => is_Some (sh_pointers s !! Variable_ v)
  | Arrow v i => exists o, sh_pointers s !! Variable_ v = Some (Some o) /\ is_Some (sh_pointers s !! Member o i)
  end.

Definition room (s : shared) (n : nat) : Prop := (Z.of_nat (size (sh_pointers s) + n) < 2 ^ 31 - 2)%Z.

Definition may (s : shared) (c : op) : Prop :=
  match c with
  | Default v => sh_pointers s !! Variable_ v = None /\ room s 1
  | Create v n => sh_pointers s !! Variable_ v = None /\ room s n
  | Copy v src => sh_pointers s !! Variable_ v = None /\ names s src /\ room s 1
  | Assign dst src => names s dst /\ names s src /\ room s 1
  | Clear dst => names s dst /\ room s 1
  | Drop v => is_Some (sh_pointers s !! Variable_ v)
  end.

Definition empty_shared : shared := mkShared ∅ 0 ∅.

Inductive reachable : shared -> Prop :=
  | reachable_start : reachable empty_shared
  | reachable_step s c s' : reachable s -> may s c -> do c s = Done (tt, s') -> reachable s'.

(** The entries of a map with a property. *)
Definition entries `{Countable K} {A} (f : A -> Prop) `{forall a, Decision (f a)} (m : gmap K A) : nat :=
  size (filter (fun kv : K * A => f kv.2) m).

(** The pointers to an object. *)
Definition pointers_to (o : nat) (m : gmap place (option nat)) : nat := entries (fun v => v = Some o) m.

(** Every pointer leads to an object, whose counter is the number of its pointers; an
    object that nothing points to is not there. *)
Definition consistent (s : shared) : Prop :=
  (forall p o, sh_pointers s !! p = Some (Some o) -> is_Some (sh_objects s !! o)) /\
  (forall o x, sh_objects s !! o = Some x ->
     mRefCount x = Z.of_nat (pointers_to o (sh_pointers s)) /\ 0 < pointers_to o (sh_pointers s)).

(** * Counting *)

Section entries.
Context `{Countable K} {A : Type} (f : A -> Prop) `{forall a, Decision (f a)}.

Definition one (a : A) : nat := if decide (f a) then 1 else 0.

Lemma entries_insert (m : gmap K A) k a : m !! k = None -> entries f (<[k := a]> m) = one a + entries f m.
Proof.
  intros Hk. unfold entries, one. rewrite map_filter_insert. cbn [snd]. case_decide.
  - rewrite map_size_insert_None; [done|]. by apply map_lookup_filter_None_2; left.
  - by rewrite delete_id.
Qed.

Lemma entries_delete (m : gmap K A) k a : m !! k = Some a -> entries f m = one a + entries f (delete k m).
Proof. intros Hk. rewrite <-(insert_delete_id m k a) at 1 by done. by rewrite entries_insert by apply lookup_delete_eq. Qed.

Lemma entries_update (m : gmap K A) k a b : m !! k = Some a -> entries f (<[k := b]> m) + one a = entries f m + one b.
Proof.
  intros Hk. rewrite (entries_delete m k a), (entries_delete (<[k := b]> m) k b) by (done || apply lookup_insert_eq).
  rewrite delete_insert_eq. lia.
Qed.

Lemma entries_size (m : gmap K A) : entries f m <= size m.
Proof. apply map_subseteq_size, map_filter_subseteq. Qed.

Lemma entries_pos (m : gmap K A) k a : m !! k = Some a -> f a -> 0 < entries f m.
Proof. intros Hk Hf. rewrite (entries_delete m k a) by done. unfold one. rewrite decide_True by done. lia. Qed.
End entries.

(** The entry that is left out. *)
Definition hide (w : option place) (m : gmap place (option nat)) : gmap place (option nat) :=
  match w with Some p => delete p m | None => m end.

Definition occurs (o : nat) (P : list nat) : nat := length (filter (fun p => p = o) P).

(** The references to an object: the pointers to it, but for one whose reference was
    given up, and references that are in hand. *)
Definition references (s : shared) (P : list nat) (w : option place) (o : nat) : nat :=
  pointers_to o (hide w (sh_pointers s)) + occurs o P.

(** The objects with references. *)
Definition alive (s : shared) : nat := entries (fun x => 0 < mRefCount x)%Z (sh_objects s).

(** What holds between the steps of an operation, while the objects of [D] are being
    deleted. *)
Record inv (s : shared) (P : list nat) (w : option place) (D : list nat) : Prop := {
  inv_count o : match sh_objects s !! o with
                | Some x => mRefCount x = Z.of_nat (references s P w o)
                | None => references s P w o = 0
                end;
  inv_dying o x : sh_objects s !! o = Some x -> mRefCount x = 0%Z <-> o ∈ D;
  inv_whole o x i : sh_objects s !! o = Some x -> o ∉ D -> i < rc_members x -> is_Some (sh_pointers s !! Member o i);
  inv_members o i v : sh_pointers s !! Member o i = Some v -> exists x, sh_objects s !! o = Some x /\ i < rc_members x;
  inv_next o : sh_next s <= o -> sh_objects s !! o = None;
  inv_bound : (Z.of_nat (size (sh_pointers s) + length P) < 2 ^ 31)%Z;
  inv_held : match w with
             | Some (Member o _) => exists v, sh_pointers s !! Variable_ v = Some (Some o)
             | _ => True
             end
}.

Lemma occurs_cons o p P : occurs o (p :: P) = (if decide (p = o) then 1 else 0) + occurs o P.
Proof. unfold occurs. rewrite filter_cons. by case_decide. Qed.

Lemma occurs_length o P : occurs o P <= length P.
Proof. apply length_filter. Qed.

Lemma hide_size w m : size (hide w m) <= size m.
Proof. destruct w; [|done]. apply map_subseteq_size, delete_subseteq. Qed.

Lemma references_bound s P w D o : inv s P w D -> (Z.of_nat (references s P w o) < 2 ^ 31)%Z.
Proof.
  intros Hi. pose proof (inv_bound _ _ _ _ Hi). pose proof (hide_size w (sh_pointers s)). pose proof (occurs_length o P).
  unfold references, pointers_to. pose proof (entries_size (fun v => v = Some o) (hide w (sh_pointers s))). lia.
Qed.

Lemma wp_there {A} (o : option A) a (Q : A -> shared -> Prop) s : o = Some a -> Q a s -> wp (there o) Q s.
Proof. by intros ->. Qed.

Lemma wp_pointer p v (Q : option nat -> shared -> Prop) s : sh_pointers s !! p = Some v -> Q v s -> wp (get_pointer p) Q s.
Proof. intros Hp HQ. apply wp_bind, wp_gets. by eapply wp_there. Qed.

(** The state after a counter has changed. *)
Definition counted (o : nat) (x : RefCount) (n : Z) (s : shared) : shared :=
  set_shared_objects <[o := mkRefCount (mRefCount x + n) (rc_members x)]> s.

Lemma wp_fetch_add o n x (Q : Z -> shared -> Prop) s :
  sh_objects s !! o = Some x -> (- 2 ^ 31 <= mRefCount x + n < 2 ^ 31)%Z ->
  Q (mRefCount x) (counted o x n s) -> wp (fetch_add o n) Q s.
Proof.
  intros Ho Hn HQ. apply wp_bind. apply wp_bind, wp_gets. eapply wp_there; [done|]. apply wp_bind, wp_modify, wp_ret.
  by rewrite s32_small by done.
Qed.

(** A reference given to an object, or taken from it: an object without references is
    being deleted. *)
Lemma inv_counted s P P' w D D' o x n :
  inv s P w D -> sh_objects s !! o = Some x ->
  (forall o', o' <> o -> o' ∈ D' <-> o' ∈ D) -> (mRefCount x + n = 0 <-> o ∈ D')%Z ->
  (o ∉ D' -> forall i, i < rc_members x -> is_Some (sh_pointers s !! Member o i)) ->
  (forall o', Z.of_nat (occurs o' P') = Z.of_nat (occurs o' P) + if decide (o' = o) then n else 0)%Z ->
  (Z.of_nat (size (sh_pointers s) + length P') < 2 ^ 31)%Z ->
  inv (counted o x n s) P' w D'.
Proof.
  intros [Hc Hd Hl Hm Hn Hb Hh] Ho HD Ho0 Hwh HP Hs. split; cbn [counted set_shared_objects sh_objects sh_pointers sh_next].
  - intros o'. specialize (Hc o'). specialize (HP o'). unfold references in *. cbn [counted set_shared_objects sh_pointers].
    destruct (decide (o' = o)) as [->|Hne].
    + rewrite lookup_insert_eq. rewrite Ho in Hc. cbn [mRefCount]. lia.
    + rewrite lookup_insert_ne by done. destruct (sh_objects s !! o'); lia.
  - intros o' x' [[<- <-]|[Hne Ho']]%lookup_insert_Some; cbn [mRefCount] in *; [done|]. rewrite HD by done. by apply Hd.
  - intros o' x' i [[<- <-]|[Hne Ho']]%lookup_insert_Some HoD Hi; [by apply Hwh|]. eapply Hl; [done| |done]. by rewrite <-HD.
  - intros o' i v Hv. destruct (Hm o' i v Hv) as (x' & Hx' & Hi). destruct (decide (o = o')) as [<-|Hne].
    + rewrite lookup_insert_eq. eexists. split; [done|]. rewrite Ho in Hx'. by injection Hx' as ->.
    + rewrite lookup_insert_ne by done. by exists x'.
  - intros o' Hle. specialize (Hn o' Hle). rewrite lookup_insert_ne; [done|]. intros ->. congruence.
  - done.
  - done.
Qed.

Lemma inv_released s P w D o x :
  inv s (o :: P) w D -> sh_objects s !! o = Some x -> o ∉ D ->
  inv (counted o x (-1) s) P w (if decide (mRefCount x + -1 = 0)%Z then o :: D else D).
Proof.
  intros Hi Ho HoD. apply (inv_counted s (o :: P) P w D _ o x (-1)); [done|done|..].
  - intros o' Hne. case_decide; [|done]. rewrite elem_of_cons. naive_solver.
  - case_decide; [split; [by left|done]|done].
  - intros _ i Hi'. by eapply (inv_whole _ _ _ _ Hi).
  - intros o'. rewrite occurs_cons. destruct (decide (o = o')) as [->|Hne]; [rewrite decide_True by done; lia|rewrite (decide_False (P := o' = o)) by congruence; lia].
  - pose proof (inv_bound _ _ _ _ Hi) as Hb. cbn [length] in Hb. lia.
Qed.

(** A pointer that is destroyed leaves its reference in hand. *)
Definition taken (p : place) (s : shared) : shared := set_pointers (delete p) s.
Definition in_hand (v : option nat) (P : list nat) : list nat := match v with Some o => o :: P | None => P end.

Lemma hide_delete w p m : hide w (delete p m) = delete p (hide w m).
Proof. destruct w; [apply delete_delete|done]. Qed.

Lemma hide_lookup w p m : w <> Some p -> hide w m !! p = m !! p.
Proof. destruct w as [q|]; [|done]. intros H. apply lookup_delete_ne. by intros ->. Qed.

Lemma inv_taken s P w D p v :
  inv s P w D -> sh_pointers s !! p = Some v -> w <> Some p ->
  match p with Variable_ _ => w = None | Member o _ => o ∈ D end ->
  inv (taken p s) (in_hand v P) w D.
Proof.
  intros [Hc Hd Hl Hm Hn Hb Hh] Hp Hw Hpl. split; cbn [taken set_pointers sh_objects sh_pointers sh_next].
  - intros o. specialize (Hc o). assert (references (taken p s) (in_hand v P) w o = references s P w o) as ->; [|done].
    unfold references, pointers_to. cbn [taken set_pointers sh_pointers]. rewrite hide_delete.
    rewrite (entries_delete _ (hide w (sh_pointers s)) p v) by (by rewrite hide_lookup).
    unfold one. destruct v as [o'|]; cbn [in_hand]; [rewrite occurs_cons|].
    + destruct (decide (o' = o)) as [->|Hne]; [rewrite decide_True by done; lia|rewrite decide_False by congruence; lia].
    + rewrite decide_False by done. lia.
  - done.
  - intros o x i Ho HD Hi. destruct p as [v'|o' i']; [rewrite lookup_delete_ne by done; by eapply Hl|].
    rewrite lookup_delete_ne; [by eapply Hl|]. by intros [= -> ->].
  - intros o i v' [_ Hv]%lookup_delete_Some. by eapply Hm.
  - done.
  - assert (size (sh_pointers s) = S (size (delete p (sh_pointers s)))) as Hs.
    { rewrite map_size_delete_Some by done. pose proof (map_size_ne_0_lookup_2 (sh_pointers s) p ltac:(by eexists)). lia. }
    destruct v; cbn [in_hand length]; lia.
  - destruct w as [[|o i]|]; [done| |done]. destruct p as [v'|o' i']; [done|]. destruct Hh as (u & Hu). exists u. by rewrite lookup_delete_ne.
Qed.

(** ** What a release leaves as it is *)

Record kept (X : list nat) (s s' : shared) : Prop := {
  kept_variables v : sh_pointers s' !! Variable_ v = sh_pointers s !! Variable_ v;
  kept_objects o x' : sh_objects s' !! o = Some x' ->
    exists x, sh_objects s !! o = Some x /\ rc_members x' = rc_members x /\ (mRefCount x' <= mRefCount x)%Z;
  kept_members o i : is_Some (sh_objects s' !! o) -> o ∉ X -> sh_pointers s' !! Member o i = sh_pointers s !! Member o i;
  kept_next : sh_next s' = sh_next s;
  kept_alive : alive s' <= alive s
}.

Lemma kept_refl X s : kept X s s.
Proof. split; try done. intros o x Hx. by exists x. Qed.

Lemma kept_trans X s1 s2 s3 : kept X s1 s2 -> kept X s2 s3 -> kept X s1 s3.
Proof.
  intros [A1 A2 A3 A4 A5] [B1 B2 B3 B4 B5]. split.
  - intros v. by rewrite B1.
  - intros o x' Hx'. destruct (B2 o x' Hx') as (x2 & Hx2 & ? & ?). destruct (A2 o x2 Hx2) as (x & Hx & ? & ?). exists x.
    split; [done|]. split; [congruence|lia].
  - intros o i Ho HX. rewrite B3 by done. apply A3; [|done]. destruct Ho as [x' Hx']. destruct (B2 o x' Hx') as (x2 & Hx2 & _). by exists x2.
  - congruence.
  - lia.
Qed.

Lemma kept_weaken X Y s s' : X ⊆ Y -> kept X s s' -> kept Y s s'.
Proof. intros HX [A1 A2 A3 A4 A5]. split; try done. intros o i Ho HY. apply A3; [done|]. set_solver. Qed.

Lemma kept_counted o x s :
  sh_objects s !! o = Some x -> kept [] s (counted o x (-1) s).
Proof.
  intros Ho. split; cbn [counted set_shared_objects sh_objects sh_pointers sh_next]; try done.
  - intros o' x' [[<- <-]|[_ Hx']]%lookup_insert_Some; [exists x; cbn [rc_members mRefCount]; split; [done|]; split; [done|lia]|by exists x'].
  - unfold alive. cbn [counted set_shared_objects sh_objects].
    pose proof (entries_update (fun x => 0 < mRefCount x)%Z (sh_objects s) o x (mkRefCount (mRefCount x + -1) (rc_members x)) Ho) as H.
    unfold one in H. cbn [mRefCount] in H. repeat case_decide; lia.
Qed.

Lemma alive_counted o x s :
  sh_objects s !! o = Some x -> mRefCount x = 1%Z -> S (alive (counted o x (-1) s)) = alive s.
Proof.
  intros Ho Hx. unfold alive. cbn [counted set_shared_objects sh_objects].
  pose proof (entries_update (fun x => 0 < mRefCount x)%Z (sh_objects s) o x (mkRefCount (mRefCount x + -1) (rc_members x)) Ho) as H.
  unfold one in H. cbn [mRefCount] in H. rewrite Hx in *. rewrite decide_True, decide_False in H by lia. lia.
Qed.

Lemma kept_taken o i s : kept [o] s (taken (Member o i) s).
Proof.
  split; cbn [taken set_pointers sh_objects sh_pointers sh_next]; try done.
  - intros v. by rewrite lookup_delete_ne.
  - intros o' x Hx. by exists x.
  - intros o' j _ Ho'. rewrite lookup_delete_ne; [done|]. intros [= -> ->]. set_solver.
Qed.

(** ** Releasing *)

Definition releases (fuel : nat) : Prop := forall s o P w D,
  inv s (o :: P) w D -> alive s <= fuel ->
  wp (Release fuel o) (fun _ s' => inv s' P w D /\ kept [] s s' /\
    forall o', o' ∈ D -> is_Some (sh_objects s !! o') -> is_Some (sh_objects s' !! o')) s.

(** The members of an object without references, from the last one on. *)
Lemma destroys fuel o P w D : releases fuel -> forall k s,
  inv s P w (o :: D) -> alive s <= fuel ->
  (exists x, sh_objects s !! o = Some x /\ mRefCount x = 0%Z) ->
  (forall i, i < k <-> is_Some (sh_pointers s !! Member o i)) ->
  wp (each_member k (fun i =>
        mObj ← get_pointer (Member o i);
        modify (set_pointers (delete (Member o i)));;
        match mObj with Some p => Release fuel p | None => mret tt end))
    (fun _ s' => inv s' P w (o :: D) /\ kept [o] s s' /\ (forall i, sh_pointers s' !! Member o i = None) /\
      (exists x, sh_objects s' !! o = Some x /\ mRefCount x = 0%Z) /\
      forall o', o' ∈ D -> is_Some (sh_objects s !! o') -> is_Some (sh_objects s' !! o')) s.
Proof.
  intros Hf k. induction k as [|k IH]; intros s Hi Ha Hx Hk; cbn [each_member].
  { apply wp_ret. split; [done|]. split; [apply kept_refl|]. split; [|done]. intros i. apply eq_None_not_Some. intros Hs. apply Hk in Hs. lia. }
  destruct (proj1 (Hk k) ltac:(lia)) as [v Hv]. apply wp_bind, wp_bind. eapply wp_pointer; [done|]. apply wp_bind, wp_modify.
  assert (w <> Some (Member o k)) as Hw.
  { intros ->. destruct (inv_held _ _ _ _ Hi) as (u & Hu). destruct Hx as (x & Hx & H0). pose proof (inv_count _ _ _ _ Hi o) as Hc.
    rewrite Hx, H0 in Hc. unfold references in Hc.
    pose proof (entries_pos (fun v => v = Some o) (hide (Some (Member o k)) (sh_pointers s)) (Variable_ u) (Some o)) as Hpos.
    cbn [hide] in *. rewrite lookup_delete_ne in Hpos by done. specialize (Hpos Hu eq_refl). unfold pointers_to in Hc. lia. }
  pose proof (inv_taken s P w (o :: D) (Member o k) v Hi Hv Hw ltac:(by left)) as Ht. fold (taken (Member o k) s).
  assert (forall s2, inv s2 P w (o :: D) /\ kept [] (taken (Member o k) s) s2 /\
     (forall o', o' ∈ o :: D -> is_Some (sh_objects (taken (Member o k) s) !! o') -> is_Some (sh_objects s2 !! o')) ->
    wp (each_member k (fun i =>
        mObj ← get_pointer (Member o i);
        modify (set_pointers (delete (Member o i)));;
        match mObj with Some p => Release fuel p | None => mret tt end))
    (fun _ s' => inv s' P w (o :: D) /\ kept [o] s s' /\ (forall i, sh_pointers s' !! Member o i = None) /\
      (exists x, sh_objects s' !! o = Some x /\ mRefCount x = 0%Z) /\
      forall o', o' ∈ D -> is_Some (sh_objects s !! o') -> is_Some (sh_objects s' !! o')) s2) as Hrest.
  { intros s2 (Hi2 & Hk2 & Hd2).
    assert (is_Some (sh_objects s2 !! o)) as Ho2.
    { apply Hd2; [by left|]. destruct Hx as (x & Hx & _). cbn [taken set_pointers sh_objects]. by exists x. }
    pose proof (kept_trans [o] _ _ _ (kept_taken o k s) (kept_weaken [] [o] _ _ ltac:(set_solver) Hk2)) as Hkk.
    eapply wp_mono; [apply IH|].
    - done.
    - pose proof (kept_alive _ _ _ Hkk). lia.
    - destruct Ho2 as [x2 Hx2]. exists x2. split; [done|]. destruct (kept_objects _ _ _ Hkk o x2 Hx2) as (x & Hx' & _ & Hle).
      destruct Hx as (x0 & Hx0 & H0). rewrite Hx0 in Hx'. injection Hx' as <-.
      pose proof (inv_count _ _ _ _ Hi2 o) as Hc. rewrite Hx2 in Hc. lia.
    - intros i. rewrite (kept_members _ _ _ Hk2 o i Ho2) by set_solver. cbn [taken set_pointers sh_pointers].
      destruct (decide (i = k)) as [->|Hne].
      + rewrite lookup_delete_eq. split; [lia|by intros []].
      + rewrite lookup_delete_ne by congruence. rewrite <-Hk. lia.
    - intros _ s' (Hi' & Hk' & Hn' & Hx' & Hd'). split; [done|]. split; [by eapply kept_trans|]. split; [done|]. split; [done|].
      intros o' HD Ho'. apply Hd'; [done|]. apply Hd2; [by right|]. done. }
  destruct v as [p|]; cbn [in_hand] in Ht.
  - eapply wp_mono; [apply Hf; [done|exact Ha]|]. intros [] s2 Hs2. by apply Hrest.
  - apply wp_ret, Hrest. split; [done|]. split; [apply kept_refl|done].
Qed.

Lemma inv_object s P w D o : inv s P w D -> 0 < references s P w o -> exists x, sh_objects s !! o = Some x /\ mRefCount x = Z.of_nat (references s P w o).
Proof. intros Hi Ho. pose proof (inv_count _ _ _ _ Hi o) as Hc. destruct (sh_objects s !! o) as [x|]; [by exists x|lia]. Qed.

Lemma inv_freed s P w o D x :
  inv s P w (o :: D) -> sh_objects s !! o = Some x -> mRefCount x = 0%Z -> (forall i, sh_pointers s !! Member o i = None) ->
  inv (set_shared_objects (delete o) s) P w D.
Proof.
  intros [Hc Hd Hl Hm Hn Hb Hh] Ho H0 Hno. split; cbn [set_shared_objects sh_objects sh_pointers sh_next].
  - intros o'. specialize (Hc o'). change (references (set_shared_objects (delete o) s) P w o') with (references s P w o').
    destruct (decide (o = o')) as [<-|Hne]; [rewrite lookup_delete_eq; rewrite Ho in Hc; lia|by rewrite lookup_delete_ne].
  - intros o' x' [Hne Ho']%lookup_delete_Some. specialize (Hd o' x' Ho'). rewrite Hd, elem_of_cons. naive_solver.
  - intros o' x' i [Hne Ho']%lookup_delete_Some HD Hi. eapply Hl; [done| |done]. by intros [->|?]%elem_of_cons.
  - intros o' i v Hv. destruct (Hm o' i v Hv) as (x' & Hx' & Hi). exists x'. rewrite lookup_delete_ne; [done|]. intros <-. by rewrite Hno in Hv.
  - intros o' Hle. apply lookup_delete_None. by right; apply Hn.
  - done.
  - done.
Qed.

Lemma kept_freed o x s s' :
  kept [o] s s' -> sh_objects s' !! o = Some x -> mRefCount x = 0%Z -> kept [] s (set_shared_objects (delete o) s').
Proof.
  intros [A1 A2 A3 A4 A5] Ho H0. split; cbn [set_shared_objects sh_objects sh_pointers sh_next]; try done.
  - intros o' x' [_ Hx']%lookup_delete_Some. by apply A2.
  - intros o' i [x' [Hne Hx']%lookup_delete_Some] _. apply A3; [by exists x'|]. set_solver.
  - unfold alive in *. cbn [set_shared_objects sh_objects]. rewrite (entries_delete _ (sh_objects s') o x Ho) in A5. lia.
Qed.

Lemma release_ok fuel : releases fuel.
Proof.
  induction fuel as [|fuel IH]; intros s o P w D Hi Ha;
    (destruct (inv_object s (o :: P) w D o Hi) as (x & Hx & Hn); [unfold references; rewrite occurs_cons, decide_True by done; lia|]).
  { exfalso. assert (0 < alive s); [|lia]. eapply entries_pos; [done|]. unfold references in Hn. rewrite occurs_cons, decide_True in Hn by done. lia. }
  cbn [Release]. pose proof (references_bound _ _ _ _ o Hi) as Hr.
  assert (1 <= mRefCount x)%Z as H1 by (unfold references in Hn; rewrite occurs_cons, decide_True in Hn by done; lia).
  apply wp_bind. eapply wp_fetch_add; [done|lia|].
  assert (o ∉ D) as HoD by (intros HD; apply (inv_dying _ _ _ _ Hi o x Hx) in HD; lia).
  pose proof (inv_released s P w D o x Hi Hx HoD) as Hi1.
  assert (forall o', o' ∈ D -> is_Some (sh_objects s !! o') -> is_Some (sh_objects (counted o x (-1) s) !! o')) as HD1.
  { intros o' _ Ho'. cbn [counted set_shared_objects sh_objects]. destruct (decide (o = o')) as [<-|Hne]; [rewrite lookup_insert_eq; by eexists|by rewrite lookup_insert_ne]. }
  destruct (decide (mRefCount x = 1)%Z) as [E1|E1].
  - rewrite decide_True in Hi1 by lia. set (s1 := counted o x (-1) s) in *.
    assert (sh_objects s1 !! o = Some (mkRefCount (mRefCount x + -1) (rc_members x))) as Ho1 by apply lookup_insert_eq.
    apply wp_bind. apply wp_bind, wp_gets. eapply wp_there; [done|]. cbn [rc_members]. apply wp_bind.
    eapply wp_mono; [apply (destroys fuel o P w D IH)|].
    + done.
    + pose proof (alive_counted o x s Hx E1) as E. fold s1 in E. lia.
    + eexists. split; [done|]. cbn [mRefCount]. lia.
    + intros i. cbn [s1 counted set_shared_objects sh_pointers]. split.
      * intros Hi'. by eapply (inv_whole _ _ _ _ Hi).
      * intros [v Hv]. destruct (inv_members _ _ _ _ Hi o i v Hv) as (x' & Hx' & Hi'). congruence.
    + intros _ s2 (Hi2 & Hk2 & Hno & (x2 & Hx2 & H2) & HD2). apply wp_modify.
      assert (kept [o] s s2) as Hk by (eapply kept_trans; [eapply kept_weaken; [|by apply kept_counted]; set_solver|done]).
      split; [by eapply inv_freed|]. split; [by eapply kept_freed|].
      intros o' HD Ho'. cbn [set_shared_objects sh_objects]. rewrite lookup_delete_ne; [by apply HD2, HD1|].
      by intros <-.
  - rewrite decide_False in Hi1 by lia. apply wp_ret. split; [done|]. split; [by apply kept_counted|done].
Qed.

(** * Operations *)

Lemma wp_release s o P w D :
  inv s (o :: P) w D -> wp (release_object o) (fun _ s' => inv s' P w D /\ kept [] s s') s.
Proof.
  intros Hi. apply wp_bind, wp_gets. eapply wp_mono; [apply release_ok; [exact Hi|apply entries_size]|]. by intros _ s' (? & ? & _).
Qed.

Lemma wp_addref s o P w :
  inv s P w [] -> is_Some (sh_objects s !! o) -> (Z.of_nat (size (sh_pointers s) + S (length P)) < 2 ^ 31)%Z ->
  wp (AddRef o) (fun _ s' => inv s' (o :: P) w [] /\ sh_pointers s' = sh_pointers s) s.
Proof.
  intros Hi [x Hx] Hb. pose proof (inv_count _ _ _ _ Hi o) as Hc. rewrite Hx in Hc. pose proof (references_bound _ _ _ _ o Hi) as Hr.
  assert (mRefCount x <> 0)%Z as H0 by (intros H0; apply (inv_dying _ _ _ _ Hi o x Hx) in H0; by apply elem_of_nil in H0).
  assert (Z.of_nat (references s P w o) + 1 < 2 ^ 31)%Z as Hr1.
  { pose proof (hide_size w (sh_pointers s)). pose proof (occurs_length o P). unfold references, pointers_to in *.
    pose proof (entries_size (fun v => v = Some o) (hide w (sh_pointers s))). lia. }
  apply wp_bind. eapply wp_fetch_add; [done|lia|]. apply wp_ret. split; [|done].
  apply (inv_counted s P (o :: P) w [] [] o x 1); [done|done|done| | |intros o'; rewrite occurs_cons; case_decide as Hd|done].
  - split; [lia|by intros ?%elem_of_nil].
  - intros HoD i Hi'. by eapply (inv_whole _ _ _ _ Hi).
  - rewrite decide_True by done. lia.
  - rewrite (decide_False (P := o' = o)) by congruence. lia.
Qed.

(** The reference of a pointer that is about to be overwritten. *)
Lemma inv_give s P p D v :
  inv s P None D -> sh_pointers s !! p = Some v -> (Z.of_nat (size (sh_pointers s) + S (length P)) < 2 ^ 31)%Z ->
  match p with Member o _ => exists v, sh_pointers s !! Variable_ v = Some (Some o) | _ => True end ->
  inv s (in_hand v P) (Some p) D.
Proof.
  intros [Hc Hd Hl Hm Hn Hb Hh] Hp Hs Hpl. split; try done.
  - intros o. specialize (Hc o). assert (references s (in_hand v P) (Some p) o = references s P None o) as ->; [|done].
    unfold references, pointers_to. cbn [hide]. rewrite (entries_delete _ (sh_pointers s) p v) by done.
    unfold one. destruct v as [o'|]; cbn [in_hand]; [rewrite occurs_cons|].
    + destruct (decide (o' = o)) as [->|Hne]; [rewrite decide_True by done; lia|rewrite decide_False by congruence; lia].
    + rewrite decide_False by done. lia.
  - destruct v; cbn [in_hand length]; lia.
Qed.

(** A pointer that holds the reference in hand. *)
Lemma inv_settle s P p D v : inv s (in_hand v P) (Some p) D -> sh_pointers s !! p = Some v -> inv s P None D.
Proof.
  intros [Hc Hd Hl Hm Hn Hb Hh] Hp. split; try done.
  - intros o. specialize (Hc o). assert (references s (in_hand v P) (Some p) o = references s P None o) as <-; [|done].
    unfold references, pointers_to. cbn [hide]. rewrite (entries_delete _ (sh_pointers s) p v) by done.
    unfold one. destruct v as [o'|]; cbn [in_hand]; [rewrite occurs_cons|].
    + destruct (decide (o' = o)) as [->|Hne]; [rewrite decide_True by done; lia|rewrite decide_False by congruence; lia].
    + rewrite decide_False by done. lia.
  - destruct v; cbn [in_hand length] in Hb; lia.
Qed.

Lemma inv_put s P p D v :
  inv s P (Some p) D -> is_Some (sh_pointers s !! p) -> inv (set_pointers <[p := v]> s) P (Some p) D.
Proof.
  intros [Hc Hd Hl Hm Hn Hb Hh] [u Hp]. split; cbn [set_pointers sh_objects sh_pointers sh_next]; try done.
  - intros o. specialize (Hc o). unfold references in *. cbn [set_pointers sh_pointers hide] in *. by rewrite delete_insert_eq.
  - intros o x i Ho HD Hi. destruct (decide (p = Member o i)) as [->|Hne]; [rewrite lookup_insert_eq; by eexists|].
    rewrite lookup_insert_ne by done. by eapply Hl.
  - intros o i v' [[-> _]|[_ Hv]]%lookup_insert_Some; by eapply Hm.
  - rewrite map_size_insert_Some by (by eexists). done.
  - destruct p as [|o i]; [done|]. destruct Hh as (w & Hw). exists w. by rewrite lookup_insert_ne.
Qed.

(** A new variable, before it counts. *)
Lemma inv_declare s P D u v :
  inv s P None D -> sh_pointers s !! Variable_ u = None -> (Z.of_nat (S (size (sh_pointers s)) + length P) < 2 ^ 31)%Z ->
  inv (set_pointers <[Variable_ u := v]> s) P (Some (Variable_ u)) D.
Proof.
  intros [Hc Hd Hl Hm Hn Hb Hh] Hp Hs. split; cbn [set_pointers sh_objects sh_pointers sh_next]; try done.
  - intros o. specialize (Hc o). unfold references in *. cbn [set_pointers sh_pointers hide] in *.
    by rewrite delete_insert_id.
  - intros o x i Ho HD Hi. rewrite lookup_insert_ne by done. by eapply Hl.
  - intros o i v' [[? _]|[_ Hv]]%lookup_insert_Some; [done|]. by eapply Hm.
  - by rewrite map_size_insert_None by done.
Qed.

Lemma wp_assign s p obj :
  inv s [] None [] -> is_Some (sh_pointers s !! p) ->
  match p with Member o _ => exists v, sh_pointers s !! Variable_ v = Some (Some o) | _ => True end ->
  room s 1 -> match obj with Some o => is_Some (sh_objects s !! o) | None => True end ->
  wp (SmartPtr_assign p obj) (fun _ s' => inv s' [] None []) s.
Proof.
  intros Hi Hp Hpl Hr Hobj. unfold room in Hr. unfold SmartPtr_assign.
  assert (wp (match obj with Some o => AddRef o | None => mret tt end)
    (fun _ s' => inv s' (in_hand obj []) None [] /\ sh_pointers s' = sh_pointers s) s) as Hadd.
  { destruct obj as [o|]; [|by apply wp_ret]. apply wp_addref; [done..|]. cbn [length]. lia. }
  apply wp_bind. eapply wp_mono; [exact Hadd|]. intros _ s1 [Hi1 E1]. rewrite <-E1 in Hp, Hpl. destruct Hp as [v Hv].
  apply wp_bind. eapply wp_pointer; [done|].
  assert (Z.of_nat (size (sh_pointers s1) + S (length (in_hand obj []))) < 2 ^ 31)%Z as Hb1.
  { rewrite E1. destruct obj as [o|]; cbn [in_hand length]; lia. }
  pose proof (inv_give s1 _ p [] v Hi1 Hv Hb1 Hpl) as Hg.
  assert (wp (match v with Some o => release_object o | None => mret tt end)
    (fun _ s' => inv s' (in_hand obj []) (Some p) [] /\ kept [] s1 s') s1) as Hrel.
  { destruct v as [o|]; [by apply wp_release|]. apply wp_ret. split; [done|apply kept_refl]. }
  apply wp_bind. eapply wp_mono; [exact Hrel|]. intros _ s2 [Hi2 Hk].
  assert (is_Some (sh_pointers s2 !! p)) as Hp2.
  { destruct p as [u|o i]; [rewrite (kept_variables _ _ _ Hk); by eexists|].
    rewrite (kept_members _ _ _ Hk o i); [by eexists| |apply not_elem_of_nil]. destruct (inv_held _ _ _ _ Hi2) as (u & Hu).
    destruct (inv_object s2 _ _ _ o Hi2) as (x & Hx & _); [|by exists x]. unfold references, pointers_to.
    pose proof (entries_pos (fun v => v = Some o) (hide (Some (Member o i)) (sh_pointers s2)) (Variable_ u) (Some o)) as Hpos.
    cbn [hide] in *. rewrite lookup_delete_ne in Hpos by done. specialize (Hpos Hu eq_refl). lia. }
  pose proof Hp2 as [v2 Hv2]. apply wp_bind. eapply wp_pointer; [done|]. apply wp_modify.
  eapply inv_settle; [by apply inv_put|]. apply lookup_insert_eq.
Qed.

Lemma wp_new_pointer s u obj :
  inv s [] None [] -> sh_pointers s !! Variable_ u = None -> room s 1 ->
  match obj with Some o => is_Some (sh_objects s !! o) | None => True end ->
  wp (SmartPtr_new u obj) (fun _ s' => inv s' [] None []) s.
Proof.
  intros Hi Hu Hr Hobj. unfold room in Hr. apply wp_bind, wp_modify.
  pose proof (inv_declare s [] [] u obj Hi Hu ltac:(cbn [length]; lia)) as Hd.
  destruct obj as [o|]; [|apply wp_ret; eapply (inv_settle _ [] _ _ None); [done|apply lookup_insert_eq]].
  eapply wp_mono; [apply (wp_addref _ o []); [done|done|cbn [set_pointers sh_pointers length]; rewrite map_size_insert_None by done; lia]|].
  intros _ s' [Hi' E]. apply (inv_settle s' [] (Variable_ u) [] (Some o)); [done|]. rewrite E. apply lookup_insert_eq.
Qed.

Lemma wp_drop s u :
  inv s [] None [] -> is_Some (sh_pointers s !! Variable_ u) -> wp (SmartPtr_delete u) (fun _ s' => inv s' [] None []) s.
Proof.
  intros Hi [v Hv]. apply wp_bind. eapply wp_pointer; [done|]. apply wp_bind, wp_modify.
  pose proof (inv_taken s [] None [] (Variable_ u) v Hi Hv ltac:(done) eq_refl) as Ht. fold (taken (Variable_ u) s).
  destruct v as [o|]; [|by apply wp_ret]. eapply wp_mono; [by apply wp_release|]. by intros _ s' [? _].
Qed.

Lemma null_members_lookup o n m p :
  null_members o n m !! p =
  match p with Member o' i => if decide (o' = o /\ i < n) then Some None else m !! p | Variable_ _ => m !! p end.
Proof.
  unfold null_members. assert (forall l, foldr (fun i => <[Member o i := None]>) m l !! p =
    match p with Member o' i => if decide (o' = o /\ i ∈ l) then Some None else m !! p | Variable_ _ => m !! p end) as H.
  { induction l as [|j l IH]; cbn [foldr].
    - destruct p as [|o' i]; [done|]. rewrite decide_False; [done|]. by intros [_ ?%elem_of_nil].
    - destruct p as [u|o' i]; [by rewrite lookup_insert_ne|]. destruct (decide (Member o j = Member o' i)) as [[= <- <-]|Hne].
      + rewrite lookup_insert_eq, decide_True; [done|]. split; [done|by left].
      + rewrite lookup_insert_ne, IH by done. apply decide_ext. rewrite elem_of_cons. naive_solver. }
  rewrite H. destruct p as [|o' i]; [done|]. apply decide_ext. rewrite elem_of_seq. naive_solver lia.
Qed.

Lemma null_members_count o n m o' :
  (forall i, m !! Member o i = None) -> pointers_to o' (null_members o n m) = pointers_to o' m /\ size (null_members o n m) = n + size m.
Proof.
  intros Hm. unfold null_members. assert (forall k, pointers_to o' (foldr (fun i => <[Member o i := None]>) m (seq k n)) = pointers_to o' m /\
    size (foldr (fun i => <[Member o i := None]>) m (seq k n)) = n + size m /\
    forall i, i < k -> foldr (fun i => <[Member o i := None]>) m (seq k n) !! Member o i = None) as H; [|by destruct (H 0) as (? & ? & _)].
  induction n as [|n IH]; intros k; cbn [seq foldr]; [by split_and!|]. destruct (IH (S k)) as (H1 & H2 & H3). split_and!.
  - unfold pointers_to in *. rewrite entries_insert by (apply H3; lia). unfold one. by rewrite decide_False.
  - rewrite map_size_insert_None by (apply H3; lia). lia.
  - intros i Hi. rewrite lookup_insert_ne by (intros [= ->]; lia). apply H3. lia.
Qed.

(** An object no reference of which has been given out counts as one being deleted. *)
Lemma inv_new_object s n :
  inv s [] None [] -> room s n ->
  inv (mkShared (<[sh_next s := mkRefCount 0 n]> (sh_objects s)) (S (sh_next s)) (null_members (sh_next s) n (sh_pointers s)))
    [] None [sh_next s].
Proof.
  intros [Hc Hd Hl Hm Hn Hb Hh] Hr. unfold room in Hr. set (o := sh_next s) in *.
  assert (forall i, sh_pointers s !! Member o i = None) as Hno.
  { intros i. destruct (sh_pointers s !! Member o i) as [v|] eqn:E; [|done]. destruct (Hm o i v E) as (x & Hx & _). by rewrite Hn in Hx. }
  pose proof (fun o' => null_members_count o n (sh_pointers s) o' Hno) as Hcount.
  split; cbn [sh_objects sh_pointers sh_next]; try done.
  - intros o'. specialize (Hc o'). unfold references in *. cbn [sh_pointers hide] in *. rewrite (proj1 (Hcount o')).
    destruct (decide (o = o')) as [<-|Hne]; [rewrite lookup_insert_eq; rewrite Hn in Hc by done; cbn [mRefCount]; lia|by rewrite lookup_insert_ne].
  - intros o' x [[<- <-]|[Hne Ho']]%lookup_insert_Some; [split; [by left|done]|]. rewrite (Hd o' x Ho'), elem_of_cons. naive_solver.
  - intros o' x i [[<- <-]|[Hne Ho']]%lookup_insert_Some HD Hi; [exfalso; apply HD; by left|].
    rewrite null_members_lookup, decide_False by naive_solver. eapply Hl; [done|apply not_elem_of_nil|done].
  - intros o' i v. rewrite null_members_lookup. case_decide as H.
    + destruct H as [-> Hi]. intros _. rewrite lookup_insert_eq. by eexists.
    + intros Hv. destruct (Hm o' i v Hv) as (x & Hx & Hi). exists x. rewrite lookup_insert_ne; [done|]. intros <-. by rewrite Hno in Hv.
  - intros o' Hle. rewrite lookup_insert_ne by lia. apply Hn. lia.
  - rewrite (proj2 (Hcount o)). cbn [length]. lia.
Qed.

Lemma wp_create s u n :
  inv s [] None [] -> sh_pointers s !! Variable_ u = None -> room s n ->
  wp (o ← make_shared_object n; SmartPtr_new u (Some o)) (fun _ s' => inv s' [] None []) s.
Proof.
  intros Hi Hu Hr. set (o := sh_next s). pose proof (inv_new_object s n Hi Hr) as Hn. fold o in Hn.
  set (s1 := mkShared _ _ _) in Hn. apply wp_bind. change (wp (SmartPtr_new u (Some o)) (fun _ s' => inv s' [] None []) s1).
  assert (sh_pointers s1 !! Variable_ u = None) as Hu1 by (cbn [s1 sh_pointers]; by rewrite null_members_lookup).
  assert (size (sh_pointers s1) = n + size (sh_pointers s)) as Hs.
  { apply (null_members_count o n (sh_pointers s) o). intros i. destruct (sh_pointers s !! Member o i) as [v|] eqn:E; [|done].
    destruct (inv_members _ _ _ _ Hi o i v E) as (x & Hx & _). by rewrite (inv_next _ _ _ _ Hi) in Hx. }
  unfold room in Hr. apply wp_bind, wp_modify.
  pose proof (inv_declare s1 [] [o] u (Some o) Hn Hu1 ltac:(cbn [length]; lia)) as Hd. set (s2 := set_pointers _ s1) in *.
  assert (sh_objects s2 !! o = Some (mkRefCount 0 n)) as Ho by apply lookup_insert_eq.
  apply wp_bind. eapply wp_fetch_add; [done|cbn [mRefCount]; lia|]. apply wp_ret.
  apply (inv_settle _ [] (Variable_ u) [] (Some o)); [|apply lookup_insert_eq]. cbn [in_hand].
  apply (inv_counted s2 [] [o] _ [o] [] o (mkRefCount 0 n) 1); cbn [mRefCount rc_members]; [done|done|..].
  - intros o' Hne. rewrite elem_of_cons. naive_solver.
  - split; [lia|by intros ?%elem_of_nil].
  - intros _ i Hi'. cbn [s2 s1 set_pointers sh_pointers]. rewrite lookup_insert_ne, null_members_lookup, decide_True by done. by eexists.
  - intros o'. rewrite occurs_cons. destruct (decide (o = o')) as [->|Hne]; [rewrite decide_True by done; unfold occurs; cbn; lia|].
    rewrite (decide_False (P := o' = o)) by congruence. lia.
  - cbn [s2 set_pointers sh_pointers length]. rewrite map_size_insert_None by done. lia.
Qed.

Lemma wp_place s x :
  names s x -> wp (place_of x) (fun p s' => s' = s /\ is_Some (sh_pointers s !! p) /\
    match p with Member o _ => exists v, sh_pointers s !! Variable_ v = Some (Some o) | _ => True end) s.
Proof.
  destruct x as [v|v i]; cbn [names place_of].
  - intros Hv. by apply wp_ret.
  - intros (o & Hv & Hi). apply wp_bind. eapply wp_pointer; [done|]. apply wp_bind. eapply wp_there; [done|]. apply wp_ret.
    split; [done|]. split; [done|]. by exists v.
Qed.

Lemma pointed_to s p o : inv s [] None [] -> sh_pointers s !! p = Some (Some o) -> is_Some (sh_objects s !! o) /\ 0 < pointers_to o (sh_pointers s).
Proof.
  intros Hi Hp. assert (0 < pointers_to o (sh_pointers s)) as H by by eapply entries_pos.
  split; [|done]. destruct (inv_object s [] None [] o Hi) as (x & Hx & _); [unfold references; cbn [hide]; lia|by exists x].
Qed.

Lemma wp_do s c : inv s [] None [] -> may s c -> wp (do c) (fun _ s' => inv s' [] None []) s.
Proof.
  intros Hi Hc. destruct c as [v|v n|v src|dst src|dst|v]; cbn [may do] in *.
  - destruct Hc. by apply wp_new_pointer.
  - destruct Hc as [Hv Hr]. by apply wp_create.
  - destruct Hc as (Hv & Hs & Hr). apply wp_bind. eapply wp_mono; [by apply wp_place|]. intros p s' (-> & [obj Hp] & _).
    apply wp_bind. eapply wp_pointer; [done|]. apply wp_new_pointer; [done..|]. destruct obj; [|done]. by eapply pointed_to.
  - destruct Hc as (Hd & Hs & Hr). apply wp_bind. eapply wp_mono; [by apply wp_place|]. intros q s' (-> & [obj Hq] & _).
    apply wp_bind. eapply wp_pointer; [done|]. apply wp_bind. eapply wp_mono; [by apply wp_place|]. intros p s' (-> & Hp & Hpl).
    apply wp_assign; [done..|]. destruct obj; [|done]. by eapply pointed_to.
  - destruct Hc as [Hd Hr]. apply wp_bind. eapply wp_mono; [by apply wp_place|]. intros p s' (-> & Hp & Hpl). by apply wp_assign.
  - by apply wp_drop.
Qed.

Lemma reachable_inv s : reachable s -> inv s [] None [].
Proof.
  induction 1 as [|s c s' _ IH Hc E].
  - split; cbn; try done; try (intros; by rewrite lookup_empty).
  - pose proof (wp_do s c IH Hc) as H. unfold wp in H. by rewrite E in H.
Qed.

(** C10. Whatever a program does with smart pointers - declaring, copying, assigning and
    dropping them, as variables and as members of the objects they lead to - each step
    ends without touching a deleted object, each pointer leads to an object that is
    there, each counter is the number of pointers to its object, and an object to which
    no pointer is left has been deleted. *)
Theorem smart_pointers_counted (s : shared) :
  reachable s -> consistent s /\ forall c, may s c -> exists s', do c s = Done (tt, s').
Proof.
  intros Hs%reachable_inv. split; [split|].
  - intros p o Hp. by eapply pointed_to.
  - intros o x Hx. pose proof (inv_count _ _ _ _ Hs o) as Hc. rewrite Hx in Hc.
    change (references s [] None o) with (pointers_to o (sh_pointers s) + 0) in Hc. rewrite Nat.add_0_r in Hc.
    split; [done|]. destruct (pointers_to o (sh_pointers s)); [|lia].
    pose proof (proj1 (inv_dying _ _ _ _ Hs o x Hx) Hc) as H. by apply elem_of_nil in H.
  - intros c Hc. destruct (wp_done _ _ _ (wp_do s c Hs Hc)) as ([] & s' & E & _). by exists s'.
Qed.

(** A list of two nodes is built and dropped, the head first. *)
Definition sample_program : list op :=
  [Create 0 1; Create 1 2; Assign (Arrow 0 0) (Var 1); Copy 2 (Arrow 0 0); Assign (Var 0) (Arrow 0 0); Clear (Arrow 2 1)].

Fixpoint do_all (l : list op) : R unit := match l with [] => mret tt | c :: l => do c;; do_all l end.

Definition sample_state : shared :=
  match do_all sample_program empty_shared with Done (_, s) => s | _ => empty_shared end.

(** One object is left, with three pointers; the last of them deletes it. *)
Example sample_counts :
  map_to_list (sh_objects sample_state) = [(1, mkRefCount 3 2)] /\
  match do_all [Drop 1; Drop 0; Drop 2] sample_state with Done (_, s) => map_to_list (sh_objects s) = [] /\ sh_pointers s = ∅ | _ => False end.
Proof. by vm_compute. Qed.

(** Two objects that point to each other are never deleted. *)
Example cycle_not_deleted :
  match do_all [Create 0 1; Create 1 1; Assign (Arrow 0 0) (Var 1); Assign (Arrow 1 0) (Var 0); Drop 0; Drop 1] empty_shared with
  | Done (_, s) => size (sh_objects s) = 2
  | _ => False
  end.
Proof. by vm_compute. Qed.

Lemma sample_program_reachable : reachable sample_state.
Proof.
  assert (forall l s s', reachable s -> (fix ok l s := match l with [] => True | c :: l => may s c /\ match do c s with Done (_, s') => ok l s' | _ => False end end) l s ->
    do_all l s = Done (tt, s') -> reachable s') as H.
  { induction l as [|c l IH]; intros s s' Hs Hok E; [by injection E as <-|]. destruct Hok as [Hc Hok]. cbn [do_all] in E. unfold mbind, run_bind in E.
    destruct (do c s) as [[[] s1]| |] eqn:E1; [|done..]. apply (IH s1); [by eapply reachable_step|done|done]. }
  apply (H sample_program empty_shared); [constructor| |reflexivity].
  repeat split; try (vm_compute; done); try (by eexists); try (eexists; split; [reflexivity|by eexists]).
Qed.

Lemma smart_pointers_counted_witness :
  reachable sample_state /\ consistent sample_state /\ forall c, may sample_state c -> exists s', do c sample_state = Done (tt, s').
Proof. exact (conj sample_program_reachable (smart_pointers_counted sample_state sample_program_reachable)). Defined.
