(* ===== verification/RuntimeMisc.v ===== *)
(** Small files of the run-time library: the hash of a string ([blang_hash.c]), random
    numbers ([blang_random.c]), the one function of [blang_math.c] on integers, and the
    driver of tests ([blang_testrunner.c]). *)

From Stdlib Require Import Floats.SpecFloat.
From stdpp Require Import pretty.
From S2P Require Import Prelude Sha256 RuntimeMemory RuntimeString RuntimeStringLogic.

(** * The hash of a string *)

Definition fnv_offset : Z := 1469598103934665603.
Definition fnv_prime : Z := 1099511628211.

Definition fnv_step (h : Z) (c : ascii) : Z := u64 (Z.lxor h (Z.of_N (N_of_ascii c)) * fnv_prime).

Definition hash_fold (h : Z) : Z := Z.land (u32 (Z.lxor h (Z.shiftr h 32))) 0x7FFFFFFF.

Definition hash_text (l : list ascii) : Z := hash_fold (fold_left fnv_step l fnv_offset).

(** [__blang_hash_string] *)
Definition hash_string (fails : Z -> mem -> bool) (s : option nat) : C Z :=
  match s with
  | None => mret 0%Z
  | Some _ =>
      c ← string_to_cstring fails s;
      if decide (c = None) then mret 0%Z
      else text ← load_cstring c; free c;; mret (hash_text text)
  end.

(** * Random numbers *)

Definition golden_gamma : Z := 0x9E3779B97F4A7C15.

(** A number is mixed with its upper bits, and multiplied. *)
Definition xor_shift (k z : Z) : Z := Z.lxor z (Z.shiftr z k).

Definition mix (s : Z) : Z :=
  let z := u64 (xor_shift 30 s * 0xBF58476D1CE4E5B9) in
  let z := u64 (xor_shift 27 z * 0x94D049BB133111EB) in
  xor_shift 31 z.

(** [next_u64], on the state [g_state] *)
Definition next_u64 : run Z Z := fun g => let g := u64 (g + golden_gamma) in Done (mix g, g).

Definition random_seed (seed : Z) : run Z unit := fun _ => Done (tt, u64 seed).

Definition random_next : run Z Z := n ← next_u64; mret (Z.land n 0x7FFFFFFFFFFFFFFF).

(** [int64_t] arithmetic *)
Definition int64_result (z : Z) : run Z Z := if int64 z then mret z else undefined.

Definition random_int_range (lo hi : Z) : run Z Z :=
  if decide (hi <= lo)%Z then mret lo
  else
    span ← int64_result (hi - lo);
    n ← next_u64;
    int64_result (lo + n mod span).

(** The 53 upper bits, which are a [double] as they are, divided by two to the 53. *)
Definition random_float01 : run Z spec_float :=
  n ← next_u64;
  mret (SFdiv 53 1024 (binary_normalize 53 1024 (Z.shiftr n 11) 0 false) (binary_normalize 53 1024 (2 ^ 53) 0 false)).

(** [__blang_math_abs_int] *)
Definition math_abs_int (x : Z) : run unit Z :=
  if decide (x < 0)%Z then if decide (- x < 2 ^ 31)%Z then mret (- x)%Z else undefined else mret x.

(** * Tests *)

(** How running a test in a child ends: there is no child, it exits, or a signal ends it. *)
Inductive ended := Fork_failed | Exited (code : Z) | Signaled.

(** A test: its name, and how its function ends. *)
Record test := mkTest { test_name : string; test_fn : ended }.

Definition BLANG_TEST_MAX : nat := 4096.

(** [__blang_test_register], on the tests registered so far *)
Definition test_register (tests : list test) (t : test) : list test :=
  if decide (length tests < BLANG_TEST_MAX) then tests ++ [t] else tests.

(** The option [--filter]: the last one is taken. *)
Fixpoint test_filter (args : list string) (filter : option string) : option string :=
  match args with
  | [] => filter
  | a :: rest =>
      let other := if String.prefix "--filter=" a then Some (str (drop 9 (chars a))) else filter in
      match rest with
      | value :: rest' => if decide (a = "--filter") then test_filter rest' (Some value) else test_filter rest other
      | [] => other
      end
  end.

(** [strstr( name, filter ) != NULL] *)
Definition test_selected (filter : option string) (t : test) : bool :=
  match filter with Some f => bool_decide (occurs (chars f) (chars (test_name t)) <> None) | None => true end.

Record tally := mkTally { passed : nat; failed : nat; ran : nat; output : string }.

Definition line_feed : string := String "010" "".

Definition test_pass (filter : option string) (y : tally) (t : test) : tally :=
  if test_selected filter t then
    let ok line := mkTally (S (passed y)) (failed y) (S (ran y)) (output y +:+ line +:+ line_feed) in
    let bad line := mkTally (passed y) (S (failed y)) (S (ran y)) (output y +:+ line +:+ line_feed) in
    match test_fn t with
    | Fork_failed => bad ("FAIL  " +:+ test_name t +:+ " (fork failed)")
    | Exited code => if decide (code = 0)%Z then ok ("PASS  " +:+ test_name t) else bad ("FAIL  " +:+ test_name t)
    | Signaled => bad ("FAIL  " +:+ test_name t)
    end
  else y.

Definition test_summary (y : tally) : string :=
  line_feed +:+ pretty (passed y) +:+ " passed, " +:+ pretty (failed y) +:+ " failed (" +:+ pretty (ran y) +:+ " total)" +:+ line_feed.

(** [__blang_test_main]: what is printed, and the exit code. The arguments are those
    behind the name of the program. *)
Definition test_main (tests : list test) (args : list string) : string * Z :=
  let y := fold_left (test_pass (test_filter args None)) tests (mkTally 0 0 0 "") in
  (output y +:+ test_summary y, if decide (0 < failed y) then 1%Z else 0%Z).

(** * Properties of the hash *)

(** The text up to a null character. *)
Fixpoint before_null (l : list ascii) : list ascii :=
  match l with [] => [] | c :: l => if decide (c = nul) then [] else c :: before_null l end.

Lemma until_null_text l : until_null (map Some (l ++ [nul])) = Some (before_null l).
Proof. induction l as [|c l IH]; [done|]. cbn [map app until_null before_null]. rewrite IH. by case_decide. Qed.

Lemma hash_text_range l : (0 <= hash_text l < 2 ^ 31)%Z.
Proof.
  unfold hash_text, hash_fold. change 0x7FFFFFFF%Z with (Z.ones 31). rewrite Z.land_ones by done. by apply Z.mod_pos_bound.
Qed.

(** The C string of a string object is a block of its own. *)
Lemma cwp_to_cstring fails m p l (Q : ptr -> mem -> Prop) :
  is_string m p l -> fresh m ->
  (forall b m', with_block m b (map Some l ++ [Some nul]) m' -> Q (Some (b, 0%Z)) m') ->
  cwp (out_of_memory fails) (string_to_cstring fails (Some p)) Q m.
Proof.
  intros (s & Hp & Hlen & Hl & Hr) Hf HQ. apply cwp_bind. eapply cwp_string; [done|]. rewrite Hlen.
  apply cwp_bind, cwp_i64; [lia|]. apply cwp_bind, cwp_malloc; [done| |intros; by apply cwp_die].
  intros b m1 H. unfold size_t in H. rewrite Z.mod_small in H by lia.
  replace (Z.to_nat (Z.of_nat (length l) + 1)) with (S (length l)) in H by lia. rewrite decide_False by done.
  apply cwp_bind. apply (cwp_append fails m b [] (S (length l)) (bs_data s) l m1); [done|done|lia|].
  intros m2 H2. replace (S (length l) - length l) with 1 in H2 by lia. apply cwp_bind.
  apply (cwp_terminate fails m b l m2); [done|]. intros m3 H3. by apply cwp_ret, HQ.
Qed.

(** The hash of a string is that of its text up to a null character; what memory held
    is as it was. *)
Lemma hash_string_reads fails m p l :
  is_string m p l -> fresh m ->
  cwp (out_of_memory fails) (hash_string fails (Some p))
    (fun h m' => h = hash_text (before_null l) /\ m_blocks m' = m_blocks m /\ m_objects m' = m_objects m) m.
Proof.
  intros Hp Hf. apply cwp_bind. eapply cwp_to_cstring; [done|done|]. intros b m1 H. rewrite decide_False by done.
  assert (m_blocks m1 !! b = Some (map Some l ++ [Some nul])) as Hb by (rewrite (wb_blocks _ _ _ _ H); apply lookup_insert_eq).
  apply cwp_bind, cwp_bind, cwp_get, cwp_bind. eapply cwp_some; [exact Hb|]. rewrite decide_True by done.
  eapply cwp_some; [change [Some nul] with (map Some [nul]); rewrite <-map_app; apply until_null_text|].
  apply cwp_bind, cwp_bind, cwp_get, cwp_bind. eapply cwp_some; [exact Hb|]. rewrite decide_True by done. apply cwp_modify, cwp_ret.
  split; [done|]. cbn [set_blocks m_blocks m_objects]. rewrite (wb_blocks _ _ _ _ H), (wb_objects _ _ _ _ H).
  split; [|done]. apply delete_insert_id, (wb_new _ _ _ _ H).
Qed.

(** The constant is not the offset basis of FNV-1a, which has one digit more. *)
Lemma offset_basis_cut : fnv_offset = (14695981039346656037 / 10)%Z.
Proof. reflexivity. Qed.

(** * Properties of random numbers *)

Lemma xor_shift_inj k a b : (0 < k -> 0 <= a -> 0 <= b -> xor_shift k a = xor_shift k b -> a = b)%Z.
Proof.
  intros Hk Ha Hb H. apply Z.lxor_eq. set (d := Z.lxor a b).
  assert (0 <= d)%Z as Hd by (by apply Z.lxor_nonneg).
  assert (d = Z.shiftr d k) as Hs.
  { unfold d, xor_shift in *. rewrite Z.shiftr_lxor. apply Z.bits_inj. intros i. apply (f_equal (fun z => Z.testbit z i)) in H.
    rewrite !Z.lxor_spec in *.
    destruct (Z.testbit a i), (Z.testbit b i), (Z.testbit (Z.shiftr a k) i), (Z.testbit (Z.shiftr b k) i); done. }
  rewrite Z.shiftr_div_pow2 in Hs by lia. pose proof (proj1 (Z.pow_gt_1 2 k ltac:(lia)) Hk) as Hp.
  destruct (decide (d = 0)%Z) as [|Hne]; [done|]. pose proof (Z.div_lt d (2 ^ k) ltac:(lia) Hp). lia.
Qed.

Lemma lxor_range n a b : (0 <= n -> 0 <= a < 2 ^ n -> 0 <= b < 2 ^ n -> 0 <= Z.lxor a b < 2 ^ n)%Z.
Proof.
  intros Hn Ha Hb. assert (Z.lxor a b = Z.lxor a b mod 2 ^ n)%Z as ->; [|by apply Z.mod_pos_bound, Z.pow_pos_nonneg].
  apply Z.bits_inj'. intros i Hi. destruct (Z.lt_ge_cases i n).
  - by rewrite Z.mod_pow2_bits_low.
  - rewrite Z.mod_pow2_bits_high, Z.lxor_spec, <-(Z.mod_small a (2 ^ n)), <-(Z.mod_small b (2 ^ n)) by lia.
    by rewrite !Z.mod_pow2_bits_high by lia.
Qed.

Lemma xor_shift_range k z : (0 <= k -> 0 <= z < 2 ^ 64 -> 0 <= xor_shift k z < 2 ^ 64)%Z.
Proof.
  intros Hk Hz. apply lxor_range; [done..|]. rewrite Z.shiftr_div_pow2 by done. pose proof (Z.pow_pos_nonneg 2 k ltac:(lia) Hk).
  split; [apply Z.div_pos; lia|]. apply Z.div_lt_upper_bound; nia.
Qed.

(** An odd factor has an inverse. *)
Lemma u64_mul_inj c inv a b :
  (u64 (c * inv) = 1 -> 0 <= a < 2 ^ 64 -> 0 <= b < 2 ^ 64 -> u64 (a * c) = u64 (b * c) -> a = b)%Z.
Proof.
  unfold u64. intros Hc Ha Hb H. assert (forall z, 0 <= z < 2 ^ 64 -> z = ((z * c) mod 2 ^ 64 * inv) mod 2 ^ 64)%Z as Hinv.
  { intros z Hz. rewrite Z.mul_mod_idemp_l, <-Z.mul_assoc, <-Z.mul_mod_idemp_r, Hc, Z.mul_1_r, Z.mod_small by done. done. }
  rewrite (Hinv a Ha), (Hinv b Hb). by rewrite H.
Qed.

Lemma u64_range z : (0 <= u64 z < 2 ^ 64)%Z.
Proof. by apply Z.mod_pos_bound. Qed.

Lemma mix_range s : (0 <= mix s < 2 ^ 64)%Z.
Proof. apply xor_shift_range; [done|apply u64_range]. Qed.

Lemma mix_inj a b : (0 <= a < 2 ^ 64 -> 0 <= b < 2 ^ 64 -> mix a = mix b -> a = b)%Z.
Proof.
  intros Ha Hb H. unfold mix in H.
  apply xor_shift_inj in H; [|done|apply u64_range..].
  apply (u64_mul_inj _ 3573116690164977347) in H; [|done|apply xor_shift_range; [done|apply u64_range]..].
  apply xor_shift_inj in H; [|done|apply u64_range..].
  apply (u64_mul_inj _ 10871156337175269513) in H; [|done|by apply xor_shift_range..].
  apply xor_shift_inj in H; [done|done|lia..].
Qed.

(** The number after a number of others. *)
Definition nth_random (seed : Z) (n : nat) : Z := mix (u64 (seed + golden_gamma * Z.of_nat (S n))).

Fixpoint random_stream (n : nat) : run Z (list Z) :=
  match n with 0 => mret [] | S n => x ← next_u64; l ← random_stream n; mret (x :: l) end.

Lemma random_stream_nth n : forall g, exists l g', random_stream n g = Done (l, g') /\ l = map (nth_random g) (seq 0 n).
Proof.
  induction n as [|n IH]; intros g; [by eexists [], g|].
  destruct (IH (u64 (g + golden_gamma))) as (l & g' & E & ->). eexists _, g'. split.
  - cbn [random_stream]. unfold mbind, run_bind, next_u64. by rewrite E.
  - cbn [seq map]. f_equal. rewrite <-seq_shift, map_map. apply map_ext. intros k.
    unfold nth_random, u64. rewrite Zplus_mod_idemp_l. do 2 f_equal. lia.
Qed.

(** After a seed, no number is given twice within two to the 64 of them. *)
Lemma random_stream_distinct g n : (Z.of_nat n <= 2 ^ 64)%Z -> exists l g', random_stream n g = Done (l, g') /\ NoDup l.
Proof.
  intros Hn. destruct (random_stream_nth n g) as (l & g' & E & ->). exists (map (nth_random g) (seq 0 n)), g'. split; [done|].
  apply NoDup_fmap_2_strong; [|apply NoDup_seq]. intros i j Hi%elem_of_seq Hj%elem_of_seq H.
  apply mix_inj in H; [|apply u64_range..]. unfold u64 in H. apply Z.cong_iff_0 in H. apply Z.mod_divide in H; [|done].
  replace (g + golden_gamma * Z.of_nat (S i) - (g + golden_gamma * Z.of_nat (S j)))%Z with (golden_gamma * (Z.of_nat i - Z.of_nat j))%Z in H by lia.
  apply Z.gauss in H; [|by vm_compute]. destruct H as [k Hk]. assert (k = 0)%Z by nia. lia.
Qed.

(** A number of a range is in it, if the size of the range fits; otherwise the
    subtraction overflows. *)
Lemma random_in_range lo hi g :
  int64 lo = true -> int64 hi = true -> (lo < hi)%Z ->
  if int64 (hi - lo) then exists n, random_int_range lo hi g = Done (n, u64 (g + golden_gamma)) /\ (lo <= n < hi)%Z
  else random_int_range lo hi g = UndefinedBehaviour.
Proof.
  unfold random_int_range, int64_result, mbind, run_bind. intros Hlo Hhi Hlt. rewrite decide_False by lia.
  destruct (int64 (hi - lo)) eqn:Hs; [|done]. cbn [mret run_ret next_u64].
  pose proof (Z.mod_pos_bound (mix (u64 (g + golden_gamma))) (hi - lo) ltac:(lia)) as Hm.
  assert (int64 (lo + mix (u64 (g + golden_gamma)) mod (hi - lo)) = true) as ->.
  { unfold int64 in *. rewrite !bool_decide_eq_true in *. lia. }
  eexists. split; [done|]. lia.
Qed.

Lemma random_next_range g : exists n, random_next g = Done (n, u64 (g + golden_gamma)) /\ (0 <= n < 2 ^ 63)%Z.
Proof.
  eexists. split; [done|]. change 0x7FFFFFFFFFFFFFFF%Z with (Z.ones 63). rewrite Z.land_ones by done. by apply Z.mod_pos_bound.
Qed.

(** The published numbers for the seed 0, and the overflow. *)
Example random_known :
  random_stream 2 0%Z = Done ([0xE220A8397B1DCDAF; 0x6E789E6AA1B965F4]%Z, u64 (2 * golden_gamma)) /\
  random_int_range (- 2 ^ 63) 1 0%Z = UndefinedBehaviour /\
  match random_float01 0%Z with Done (d, _) => SFltb d (binary_normalize 53 1024 1 0 false) | _ => false end = true.
Proof. by vm_compute. Qed.

(** * Properties of the tests *)

Definition test_passes (t : test) : bool := match test_fn t with Exited code => bool_decide (code = 0)%Z | _ => false end.

Definition count (f : test -> bool) (l : list test) : nat := length (filter (fun t => f t) l).

Lemma count_cons f t l : count f (t :: l) = (if f t then 1 else 0) + count f l.
Proof. unfold count. rewrite filter_cons. by destruct (f t). Qed.

Lemma test_passes_tally sel l : forall y,
  let y' := fold_left (test_pass sel) l y in
  passed y' = passed y + count (fun t => test_selected sel t && test_passes t) l /\
  failed y' = failed y + count (fun t => test_selected sel t && negb (test_passes t)) l /\
  ran y' = ran y + count (test_selected sel) l.
Proof.
  induction l as [|t l IH]; intros y; cbn [fold_left]; [by rewrite !Nat.add_0_r|].
  destruct (IH (test_pass sel y t)) as (-> & -> & ->). rewrite !count_cons. unfold test_pass, test_passes.
  destruct (test_selected sel t), (test_fn t) as [|code|]; cbn [andb negb passed failed ran]; try lia.
  destruct (decide (code = 0)%Z); [rewrite bool_decide_true by done|rewrite bool_decide_false by done]; cbn [negb passed failed ran]; lia.
Qed.

(** The driver answers 1 exactly if a selected test does not pass. *)
Lemma test_main_verdict tests args :
  snd (test_main tests args) = 1%Z <->
  exists t, t ∈ tests /\ test_selected (test_filter args None) t = true /\ test_passes t = false.
Proof.
  unfold test_main. destruct (test_passes_tally (test_filter args None) tests (mkTally 0 0 0 "")) as (_ & -> & _).
  cbn [failed Nat.add snd]. set (f := fun t => _ && _). unfold count.
  transitivity (exists t, t ∈ filter (fun t => f t) tests).
  - destruct (filter (fun t => f t) tests) as [|t l] eqn:E; cbn [length]; case_decide; try lia.
    + split; [done|]. by intros (t & ?%elem_of_nil).
    + split; [|done]. intros _. exists t. by left.
  - unfold f. setoid_rewrite list_elem_of_filter. split; intros (t & H); exists t.
    + destruct H as [H Ht]. apply andb_prop_elim in H as [H1%Is_true_true H2%negb_prop_elim]. split; [done|]. split; [done|].
      by apply Is_true_false.
    + destruct H as (Ht & H1 & H2). by rewrite H1, H2.
Qed.

(** A test that finds no place is not run, and the driver answers 0 though it fails. *)
Lemma failing_test_dropped :
  let t := mkTest "last" (Exited 1) in
  let tests := fold_left test_register (replicate BLANG_TEST_MAX (mkTest "test" (Exited 0)) ++ [t]) [] in
  length tests = BLANG_TEST_MAX /\ snd (test_main tests []) = 0%Z.
Proof. by vm_compute. Qed.

Example test_output :
  test_main [mkTest "a_one" (Exited 0); mkTest "b_two" (Exited 1); mkTest "a_two" Signaled] ["--filter"; "x"; "--filter=a_"] =
  ("PASS  a_one" +:+ line_feed +:+ "FAIL  a_two" +:+ line_feed +:+ line_feed +:+ "1 passed, 1 failed (2 total)" +:+ line_feed, 1%Z).
Proof. by vm_compute. Qed.
